(* ===== verification/_CoqProject ===== *)
-Q . S2P
Prelude.v
Bytes.v
CoreTypes.v
Wire.v
Observe.v
GameWire.v
Quality.v
Heartbeat.v
ClockSync.v
Scheduler.v
Realtime.v
SendPath.v
GameData.v
Resume.v
Framing.v
Control.v
Security.v
Transition.v
TcpSession.v
RangeState.v
GameRuntime.v
Negotiation.v
GameSafety.v
GameSteps.v
TcpPair.v
HandleTable.v
EventQueue.v
Poll.v
Outbound.v
NetConfig.v
Sessions.v
Endpoints.v
Admission.v
Kcp.v
KcpLink.v
KcpReliable.v
KcpTypes.v
KcpEngine.v
Preflight.v
DatagramWire.v
DatagramPeer.v
DatagramOwner.v
DatagramSafety.v
DatagramPhases.v
DatagramRun.v
