(* ===== verification/Prelude.v ===== *)
(** * RNet: a verified model of the rnetlib networking library

    rnetlib moves application messages between game clients and servers over TCP, UDP and KCP.
    The library below models its Rust crates as executable definitions and proves what they
    promise.  Definitions carry the names of the source; integers are [Z] kept at the width of
    the source by explicit wrapping, saturating or checked operations; errors are values of
    [result]; a panic is the [Panic] of an [outcome]; shared state is passed explicitly, and code
    that several threads run is cut into its critical sections, which the theorems interleave.

    ** The parts of the program and where they are modelled

    - rnet-core.  Error codes, events and the lifecycle flag ([error.rs], [event.rs],
      [lifecycle.rs]) in [CoreTypes]; the generational handle table and the exported buffers
      ([handle.rs], [buffer.rs]) in [HandleTable]; the bounded event queue ([event_queue.rs]) in
      [EventQueue].
    - rnet-protocol.  Frames and the incremental stream decoder ([lib.rs]) in [Framing]; security
      records, protected messages and controls ([control.rs]) in [Control]; the interface that all
      wire formats implement in [Wire], over the byte lemmas of [Bytes].
    - rnet-security.  Noise transports, the replay window and the pinned handshake ([lib.rs]) in
      [Security]; the mode-switch and rekey controller ([transition.rs]) in [Transition].
    - rnet-transport.  The established TCP session ([adaptive_tcp_session.rs]) in [TcpSession]
      and two of them joined by byte streams in [TcpPair]; send budgets, outbound queues and
      replaceable messages ([state.rs], [latest.rs]) in [Outbound]; the registry of endpoints
      and sessions ([state.rs], [session_close.rs], [runtime_registry.rs], [endpoint_failure.rs],
      [session.rs], [metrics.rs]) in [Sessions]; configuration ([config.rs]) in [NetConfig];
      opening of endpoints ([runtime.rs], [runtime_adaptive.rs], [runtime_connect.rs],
      [address.rs], [tcp_socket.rs]) in [Endpoints]; admission per source address
      ([admission.rs]) in [Admission]; the KCP adapter ([kcp.rs]) in [KcpEngine]; cookies and the
      KCP preflight ([cookie.rs], [kcp_preflight.rs]) in [Preflight]; the wire of a datagram
      endpoint, with its engines, budgets and repeated control records ([adaptive_wire.rs]) in
      [DatagramWire].  The task of a UDP or KCP endpoint composes all of these: what it does with
      one record of a peer ([adaptive_peer.rs], [adaptive_codec.rs], [adaptive_kcp_preflight.rs],
      [adaptive_datagram_process.rs], [adaptive_datagram_session.rs]) is in [DatagramPeer], its
      loop ([adaptive_datagram.rs], [adaptive_datagram_maintenance.rs],
      [adaptive_datagram_send.rs]) in [DatagramOwner]; [DatagramSafety] and [DatagramPhases] hold
      its invariants and [DatagramRun] two runtimes that talk to each other.
    - vendor/rnet-kcp.  The KCP engine ([kcp.rs]) in [Kcp]; two engines over an unreliable network
      in [KcpLink] and [KcpReliable]; its machine widths in [KcpTypes].
    - rnet-game.  Wire formats ([envelope.rs], [join.rs]) in [GameWire]; network quality in
      [Quality]; heartbeats in [Heartbeat]; clock synchronisation in [ClockSync]; the priority
      scheduler in [Scheduler]; replaceable snapshots in [Realtime]; send admission in
      [SendPath]; the data path in [GameData]; resume tickets in [Resume]; negotiation state in
      [RangeState]; the runtime that composes them in [GameRuntime], its invariant in [GameSafety]
      and [GameSteps], its poll loop in [Poll]; version negotiation between two runtimes in
      [Negotiation].
    - rnet-observe.  The latency histogram and the bounded logger in [Observe].

    ** What the theorems show

    - Transport of data.  Two TCP sessions never get out of step through mode switches and rekeys,
      every transition ends, and data arrives in order ([TcpPair]); frames survive any chunking
      ([Framing]); a datagram record is accepted once, and late records within the window are
      accepted ([Security]).  Over a network that loses, repeats, delays and reorders packets, two
      KCP engines deliver messages whole and in order and lose nothing that was acknowledged
      ([KcpReliable]); no packet, however hostile, takes the engine out of its machine widths or
      past its receive window ([KcpTypes]).
    - Datagram endpoints.  The task of an endpoint never panics and stays within every configured
      limit, whatever arrives ([DatagramSafety]); a session is established only by an authorised
      decision, a record that does not authenticate changes nothing (but for a hello whose challenge
      cannot be sent), and a source without cookie leaves nothing behind ([DatagramPhases]); the
      adapter delivers in order and is bounded against hostile peers ([KcpEngine]); budgets of the
      wire are kept, due engines are served, repeated requests answered from the cache, and
      unanswered ones given up ([DatagramWire]); a cookie is bound to
      its address and minute ([Preflight]).  Two concrete runtimes, from [listen] and [connect] to
      messages under rekeyed keys, are evaluated over UDP and over KCP ([DatagramRun]).
    - Accounting.  The event queue keeps its limits and loses no lifecycle event ([EventQueue]);
      send budgets are exact under any interleaving ([Outbound]); the registry counts its pending
      sessions exactly and never panics, and each session it closes has one event, polled, queued,
      refused and counted, or still owed ([Sessions]); opening an
      endpoint is a transaction ([Endpoints]); admission counts exactly the permits that are out
      ([Admission]).
    - References and refinement.  Handles refine a finite map and stale ones are refused
      ([HandleTable]); the ticket registry refines a plain map, and a ticket is claimed at most
      once ([Resume]); the loss tracker equals one on unbounded positions ([Quality]).
    - The game runtime.  From construction on no handler panics, closed sessions are not resumed
      and closed endpoints leave nothing behind ([GameSteps]); a poll returns in time ([Poll]);
      both ends of a negotiation agree and it completes ([Negotiation]); schedulers forward
      everything once and within their budgets ([Scheduler], [Realtime], [SendPath]).
    - Formats.  Each wire format decodes exactly what it encodes ([Wire] and its instances).
    - Behaviour that differs from what the code or its documents intend is stated as theorems of
      its own: [TcpSession.encrypted_body_limit], [Scheduler.requeue_overtaken],
      [GameSteps.superseded_candidate_cancels_successor],
      [Sessions.datagram_accept_outlives_endpoint], [Endpoints.stopped_runtime_connects],
      [Admission.admission_table_never_drains], [KcpEngine.empty_message_exceeds_budget],
      [DatagramWire.failed_packet_leaks_budget],
      [DatagramWire.flush_spins], [DatagramWire.any_input_acknowledges] and, in [DatagramRun],
      [kcp_messages_overtake], [longest_message_closes_session], [unsent_answer_closes_session],
      [spoofed_hello_closes_session], [stale_cleanup_releases_permit] and
      [spoofed_hellos_fill_cache].

    ** Fuel and bounds

    Loops over data are structural.  A loop that is not takes fuel and is called with enough: the
    stream decoders and the KCP [input] take the number of bytes, of which every round consumes
    at least one header; the flush loops take the number of messages queued; [poll] and [stop] take
    their budgets from the source, and the theorems prove that the fuel does not run out.  The
    reliability theorems of KCP hold for the first [2 ^ 24 - 2 ^ 10] messages of a direction, which
    is when sequence numbers start to repeat for a network that may deliver a packet arbitrarily
    late.  The limits of a datagram endpoint are proved for datagrams of at least 50 bytes, the
    least a KCP engine accepts, and for a runtime byte budget below [usize::MAX].

    ** What is outside

    Parameters: the Noise state machine (crate snow), HMAC-SHA-256 and random bytes, the Protobuf
    codec, sockets, name resolution, clocks and the log sink, each an argument with the documented
    behaviour the theorems need as a named hypothesis.

    Not modelled: the set-up phase of TCP connections ([adaptive_tcp.rs]); the latency histograms of
    the datagram task; the C interface (rnet-ffi), which converts pointers and calls the modelled
    operations; diagnostics and metric snapshots of rnet-game; the test
    programs under bin/, the fuzz targets, the examples and the Go, C# and C++ bindings. *)

From Stdlib Require Export ZArith Lia ZifyBool.
From stdpp Require Export base strings numbers option gmap list.

Global Set Warnings "-postfix-notation-not-level-1".

Declare Scope rnet_scope.
Delimit Scope rnet_scope with rnet.
Global Open Scope rnet_scope.
Global Open Scope Z_scope.

(** ** Fallible code

    [Result<T>] of the crates: [Ok] and [Err].  The monad instances give the
    [x ← m; k] notation of stdpp the meaning of Rust's [?] operator. *)

Inductive result (E A : Type) : Type :=
| Ok (a : A)
| Err (e : E).
Arguments Ok {E A} a.
Arguments Err {E A} e.

#[export] Instance result_ret {E} : MRet (result E) := λ A a, Ok a.
#[export] Instance result_bind {E} : MBind (result E) := λ A B f m,
  match m with
  | Ok a => f a
  | Err e => Err e
  end.
#[export] Instance result_fmap {E} : FMap (result E) := λ A B f m,
  match m with
  | Ok a => Ok (f a)
  | Err e => Err e
  end.

Definition ok_or {E A} (o : option A) (e : E) : result E A :=
  match o with
  | Some a => Ok a
  | None => Err e
  end.

Definition map_err {E F A} (f : E → F) (r : result E A) : result F A :=
  match r with
  | Ok a => Ok a
  | Err e => Err (f e)
  end.

Definition is_ok {E A} (r : result E A) : bool :=
  match r with
  | Ok _ => true
  | Err _ => false
  end.

#[export] Instance result_eq_dec {E A} `{EqDecision E, EqDecision A} :
  EqDecision (result E A).
Proof. solve_decision. Defined.

#[export] Instance Ok_inj {E A} : Inj (=) (=) (@Ok E A).
Proof. by intros a b [= ->]. Qed.

(** Code that can panic ([expect], an index out of range, an unchecked
    subtraction below zero in a build with overflow checks). *)
Inductive outcome (A : Type) : Type :=
| Done (a : A)
| Panic.
Arguments Done {A} a.
Arguments Panic {A}.

#[export] Instance outcome_ret : MRet outcome := λ A a, Done a.
#[export] Instance outcome_bind : MBind outcome := λ A B f m,
  match m with
  | Done a => f a
  | Panic => Panic
  end.

Definition expect {A} (o : option A) : outcome A :=
  match o with
  | Some a => Done a
  | None => Panic
  end.

(** ** Machine integers

    A [uN] is a [Z] in [0, uN_max]; [usize] is 64 bits wide. *)

Definition u8_max : Z := 2 ^ 8 - 1.
Definition u16_max : Z := 2 ^ 16 - 1.
Definition u32_max : Z := 2 ^ 32 - 1.
Definition u64_max : Z := 2 ^ 64 - 1.
Definition usize_max : Z := u64_max.

Definition in_u8 (z : Z) : Prop := 0 ≤ z ≤ u8_max.
Definition in_u16 (z : Z) : Prop := 0 ≤ z ≤ u16_max.
Definition in_u32 (z : Z) : Prop := 0 ≤ z ≤ u32_max.
Definition in_u64 (z : Z) : Prop := 0 ≤ z ≤ u64_max.

Definition checked_add (max a b : Z) : option Z :=
  if decide (a + b ≤ max) then Some (a + b) else None.
Definition checked_sub (a b : Z) : option Z :=
  if decide (b ≤ a) then Some (a - b) else None.
Definition saturating_add (max a b : Z) : Z := (a + b) `min` max.
Definition saturating_sub (a b : Z) : Z := (a - b) `max` 0.
Definition wrapping_add (w a b : Z) : Z := (a + b) mod 2 ^ w.
Definition wrapping_sub (w a b : Z) : Z := (a - b) mod 2 ^ w.

(** [Option::is_none_or] and [Option::is_some_and]. *)
Definition is_none_or {A} (o : option A) (p : A → bool) : bool :=
  match o with
  | Some a => p a
  | None => true
  end.
Definition is_some_and {A} (o : option A) (p : A → bool) : bool :=
  match o with
  | Some a => p a
  | None => false
  end.

Ltac unfold_ints :=
  unfold in_u8, in_u16, in_u32, in_u64, usize_max, u8_max, u16_max, u32_max,
    u64_max in *.

(** Unfolds the width constants and the checked and saturating operations, then
    calls [lia]. *)
Ltac zlia :=
  unfold saturating_add, saturating_sub in *; unfold_ints; lia.

Lemma checked_add_Some max a b c :
  checked_add max a b = Some c ↔ c = a + b ∧ a + b ≤ max.
Proof. unfold checked_add. case_decide; naive_solver lia. Qed.

Lemma checked_add_None max a b :
  checked_add max a b = None ↔ max < a + b.
Proof. unfold checked_add. case_decide; naive_solver lia. Qed.

Lemma checked_sub_Some a b c :
  checked_sub a b = Some c ↔ c = a - b ∧ b ≤ a.
Proof. unfold checked_sub. case_decide; naive_solver lia. Qed.

Lemma checked_sub_None a b :
  checked_sub a b = None ↔ a < b.
Proof. unfold checked_sub. case_decide; naive_solver lia. Qed.

(** ** Record update

    [r <| field := v |>] and [r <| field ::= f |>] rebuild a record with one
    field changed.  A record takes part once it has an [Eta] instance, its own
    constructor applied to its projections. *)

Class Eta (R : Type) := eta : R → R.
Class Updatable {R T : Type} (proj : R → T) := update : (T → T) → R → R.
Arguments update {R T} proj {_} f r /.

Ltac derive_update :=
  match goal with
  | |- @Updatable ?R ?T ?proj =>
    let e := constr:(fun r : R => ltac:(
      let inst := constr:(_ : Eta R) in
      let h := eval hnf in inst in
      let b := eval cbv beta in (h r) in
      exact b)) in
    lazymatch e with
    | fun r => @?b r =>
      let u := constr:(fun (f : T → T) (r : R) => ltac:(
        let t := eval cbv beta in (b r) in
        let p := eval pattern (proj r) in t in
        lazymatch p with
        | ?g _ =>
          let res := eval cbv beta in (g (f (proj r))) in exact res
        end)) in
      exact u
    end
  end.
Global Hint Extern 1 (Updatable _) => derive_update : typeclass_instances.

Notation "r <| proj := v |>" := (update proj (λ _, v) r)
  (at level 12, left associativity, format "r  <| proj  :=  v |>") : rnet_scope.
Notation "r <| proj ::= f |>" := (update proj f r)
  (at level 12, left associativity, format "r  <| proj  ::=  f |>") : rnet_scope.

(** ** Lengths and sums *)

(** [slice.len()]. *)
Definition len {A} (l : list A) : Z := Z.of_nat (length l).

Lemma len_nil {A} : len (@nil A) = 0.
Proof. done. Qed.
Lemma len_cons {A} (x : A) l : len (x :: l) = 1 + len l.
Proof. unfold len. cbn [length]. lia. Qed.
Lemma len_app {A} (l k : list A) : len (l ++ k) = len l + len k.
Proof. unfold len. rewrite length_app. lia. Qed.
Lemma len_nonneg {A} (l : list A) : 0 ≤ len l.
Proof. unfold len. lia. Qed.
Lemma len_0 {A} (l : list A) : len l = 0 ↔ l = [].
Proof. destruct l; unfold len; cbn [length]; [done|]. split; [lia|done]. Qed.

(** Sum of a measure over a list. *)
Definition sumZ {A} (f : A → Z) (l : list A) : Z := foldr (λ x s, f x + s) 0 l.

#[global] Arguments len : simpl never.
#[global] Arguments sumZ : simpl never.

Lemma sumZ_nil {A} (f : A → Z) : sumZ f [] = 0.
Proof. done. Qed.
Lemma sumZ_cons {A} (f : A → Z) x l : sumZ f (x :: l) = f x + sumZ f l.
Proof. done. Qed.
Lemma sumZ_app {A} (f : A → Z) l k : sumZ f (l ++ k) = sumZ f l + sumZ f k.
Proof. induction l as [|x l IH]; [done|]. cbn. rewrite !sumZ_cons. lia. Qed.
Lemma sumZ_nonneg {A} (f : A → Z) l : (∀ x, 0 ≤ f x) → 0 ≤ sumZ f l.
Proof.
  intros Hf. induction l as [|x l IH]; [done|]. rewrite sumZ_cons.
  specialize (Hf x). lia.
Qed.
Lemma sumZ_Permutation {A} (f : A → Z) l k : l ≡ₚ k → sumZ f l = sumZ f k.
Proof. induction 1; rewrite ?sumZ_cons; lia. Qed.
Lemma sumZ_ext {A} (f g : A → Z) l : (∀ x, x ∈ l → f x = g x) → sumZ f l = sumZ g l.
Proof.
  induction l as [|x l IH]; intros Hfg; [done|]. rewrite !sumZ_cons.
  rewrite Hfg by set_solver. rewrite IH; [done|]. intros y Hy. apply Hfg. set_solver.
Qed.
Lemma sumZ_filter_split {A} (f : A → Z) (P : A → Prop) `{!∀ x, Decision (P x)} l :
  sumZ f l = sumZ f (filter P l) + sumZ f (filter (λ x, ¬ P x) l).
Proof.
  induction l as [|x l IH]; [done|]. rewrite !filter_cons.
  repeat case_decide; rewrite ?sumZ_cons; naive_solver lia.
Qed.

#[export] Instance sumZ_proper {A} (f : A → Z) :
  Proper ((≡ₚ) ==> (=)) (sumZ f).
Proof. intros l k. apply sumZ_Permutation. Qed.

(** Sum of a measure over the values of a map. *)
Definition sum_map {K} `{Countable K} {A} (f : A → Z) (m : gmap K A) : Z :=
  sumZ (λ kx, f kx.2) (map_to_list m).
#[global] Arguments sum_map : simpl never.

Section sum_map.
Context {K} `{Countable K} {A : Type} (f : A → Z).
Implicit Types m : gmap K A.

Lemma sum_map_empty : sum_map f (∅ : gmap K A) = 0.
Proof. unfold sum_map. by rewrite map_to_list_empty. Qed.
Lemma sum_map_insert m i x : m !! i = None → sum_map f (<[i := x]> m) = f x + sum_map f m.
Proof. intros Hi. unfold sum_map. by rewrite map_to_list_insert. Qed.
Lemma sum_map_delete m i x : m !! i = Some x → sum_map f m = f x + sum_map f (delete i m).
Proof. intros Hi. unfold sum_map. by rewrite <- (map_to_list_delete m i x Hi). Qed.
Lemma sum_map_update m i x y :
  m !! i = Some x → sum_map f (<[i := y]> m) = f y - f x + sum_map f m.
Proof.
  intros Hi. rewrite <- insert_delete_eq, sum_map_insert by apply lookup_delete_eq.
  rewrite (sum_map_delete m i x Hi). lia.
Qed.
Lemma sum_map_nonneg m : (∀ x, 0 ≤ f x) → 0 ≤ sum_map f m.
Proof. intros Hf. apply sumZ_nonneg. intros [i x]. apply Hf. Qed.
Lemma sum_map_Forall_nonneg m : map_Forall (λ _ x, 0 ≤ f x) m → 0 ≤ sum_map f m.
Proof.
  induction m as [|i x m Hi IH] using map_ind; [by rewrite sum_map_empty|]. rewrite sum_map_insert by done.
  intros [Hx Hm]%map_Forall_insert; [|done]. specialize (IH Hm). lia.
Qed.
Lemma sum_map_fmap m (g : A → A) : (∀ x, f (g x) = f x) → sum_map f (g <$> m) = sum_map f m.
Proof.
  intros Hg. unfold sum_map. rewrite map_to_list_fmap.
  induction (map_to_list m) as [|[i x] l IH]; [done|]. cbn. rewrite !sumZ_cons, IH. cbn. by rewrite Hg.
Qed.
End sum_map.

(** ** Filters *)

Section filter.
Context {A : Type} (P : A → Prop) `{!∀ x, Decision (P x)}.
Implicit Types l : list A.

Lemma filter_none l : filter P l = [] ↔ Forall (λ x, ¬ P x) l.
Proof.
  induction l as [|x l IH]; [done|]. rewrite filter_cons, Forall_cons, <- IH.
  case_decide; naive_solver.
Qed.

Lemma filter_all l : Forall P l → filter P l = l.
Proof. induction 1; [done|]. rewrite filter_cons_True by done. by f_equal. Qed.
End filter.

Lemma filter_iff_in {A} (P Q : A → Prop) `{!∀ x, Decision (P x), !∀ x, Decision (Q x)}
    (l : list A) :
  (∀ x, x ∈ l → P x ↔ Q x) → filter P l = filter Q l.
Proof.
  induction l as [|x l IH]; intros HPQ; [done|].
  rewrite !filter_cons, IH by (intros; apply HPQ; by right).
  pose proof (HPQ x ltac:(by left)). repeat case_decide; tauto || done.
Qed.

Lemma filter_len_mono {A} (P Q : A → Prop) `{!∀ x, Decision (P x), !∀ x, Decision (Q x)}
    (l : list A) :
  (∀ x, x ∈ l → P x → Q x) → len (filter P l) ≤ len (filter Q l).
Proof.
  induction l as [|x l IH]; intros HPQ; [done|]. rewrite !filter_cons.
  assert (len (filter P l) ≤ len (filter Q l)) by (apply IH; intros; apply HPQ; [by right|done]).
  pose proof (HPQ x ltac:(by left)). repeat case_decide; rewrite ?len_cons; tauto || lia.
Qed.

Lemma fmap_filter {A B} (f : A → B) (P : B → Prop)
    `{!∀ y, Decision (P y), !∀ x, Decision (P (f x))} (l : list A) :
  (f <$> filter (λ x, P (f x)) l) = filter P (f <$> l).
Proof.
  induction l as [|x l IH]; [done|]. rewrite filter_cons, fmap_cons, filter_cons.
  repeat case_decide; rewrite ?fmap_cons, ?IH; tauto || done.
Qed.

Lemma filter_complement {A} (P : A → Prop) `{!∀ x, Decision (P x)} (l : list A) :
  len (filter P l) + len (filter (λ x, ¬ P x) l) = len l.
Proof.
  induction l as [|x l IH]; [done|]. rewrite !filter_cons, len_cons.
  destruct (decide (P x)); [rewrite decide_False by tauto|rewrite decide_True by tauto];
    rewrite len_cons; lia.
Qed.

(** Replacing one element of a list changes its part of a concatenation. *)
Lemma bind_insert {A B} (g : A → list B) (l : list A) i x :
  l !! i = Some x →
  ∃ k, (l ≫= g) ≡ₚ g x ++ k ∧ ∀ y, (<[i := y]> l ≫= g) ≡ₚ g y ++ k.
Proof.
  intros Hi. exists ((take i l ≫= g) ++ (drop (S i) l ≫= g)). split.
  - rewrite <- (take_drop_middle l i x Hi) at 1. rewrite bind_app. cbn. solve_Permutation.
  - intros y. rewrite insert_take_drop by (by eapply lookup_lt_Some). rewrite bind_app. cbn.
    solve_Permutation.
Qed.

(** ** Vectors used as stacks *)

(** [Vec::pop]: the last element and the rest. *)
Definition vec_pop {A} (l : list A) : option (A * list A) :=
  match last l with
  | Some x => Some (x, take (length l - 1) l)
  | None => None
  end.

Lemma vec_pop_snoc {A} (l : list A) x : vec_pop (l ++ [x]) = Some (x, l).
Proof.
  unfold vec_pop. rewrite last_snoc, length_app. cbn.
  by rewrite take_app_le, take_ge by lia.
Qed.

Lemma vec_pop_Some {A} (l : list A) x k : vec_pop l = Some (x, k) ↔ l = k ++ [x].
Proof.
  split; [|intros ->; apply vec_pop_snoc].
  destruct l as [|y l'] using rev_ind; [done|]. rewrite vec_pop_snoc. by intros [= -> ->].
Qed.

Lemma vec_pop_None {A} (l : list A) : vec_pop l = None ↔ l = [].
Proof.
  destruct l as [|x l] using rev_ind; rewrite ?vec_pop_snoc; split; try done. by destruct l.
Qed.

(** ** Bit fields *)

(** A shifted field and a field below it do not overlap. *)
Lemma lor_shiftl_add a b n :
  0 ≤ n → 0 ≤ b < 2 ^ n → Z.lor (Z.shiftl a n) b = a * 2 ^ n + b.
Proof.
  intros Hn Hb. rewrite <- Z.shiftl_mul_pow2 by done. symmetry.
  rewrite <- Z.lxor_lor; [apply Z.add_nocarry_lxor|]; apply Z.bits_inj'; intros i Hi;
    rewrite Z.land_spec, Z.bits_0, Z.shiftl_spec by done;
    (destruct (decide (i < n)); [by rewrite Z.testbit_neg_r by lia|]);
    rewrite <- (Z.mod_small b (2 ^ n)), Z.mod_pow2_bits_high by lia; apply andb_false_r.
Qed.

Lemma land_ones_mod a n : 0 ≤ n → Z.land a (2 ^ n - 1) = a mod 2 ^ n.
Proof. intros. rewrite <- Z.land_ones by done. by rewrite Z.ones_equiv, Z.sub_1_r. Qed.

(** [x & (1 << d) != 0]. *)
Lemma land_bit_nonzero z d :
  0 ≤ d → Z.land z (Z.shiftl 1 d) ≠ 0 ↔ Z.testbit z d = true.
Proof.
  intros Hd. rewrite Z.shiftl_1_l. split.
  - intros Hne. destruct (Z.testbit z d) eqn:Hb; [done|]. destruct Hne.
    apply Z.bits_inj'. intros i Hi. rewrite Z.land_spec, Z.bits_0, Z.pow2_bits_eqb by done.
    destruct (Z.eqb_spec d i); subst; [by rewrite Hb|apply andb_false_r].
  - intros Hb Hz. assert (Z.testbit (Z.land z (2 ^ d)) d = true) as Ht.
    { rewrite Z.land_spec, Hb, Z.pow2_bits_true by done. done. }
    rewrite Hz, Z.bits_0 in Ht. done.
Qed.

Lemma testbit_one d : 0 ≤ d → Z.testbit 1 d = (d =? 0).
Proof. intros. destruct (Z.eqb_spec d 0); [by subst|]. apply Z.bits_above_log2; cbn; lia. Qed.

(** The bits of a 64-bit window shifted by [k] with the newest position marked. *)
Lemma testbit_advanced bm k d :
  0 < k → 0 ≤ d →
  Z.testbit (Z.lor (Z.land (Z.shiftl bm k) u64_max) 1) d
  = (d =? 0) || ((d <? 64) && Z.testbit bm (d - k)).
Proof.
  intros Hk Hd. change u64_max with (2 ^ 64 - 1).
  rewrite Z.lor_spec, land_ones_mod, testbit_one by lia.
  destruct (Z.ltb_spec d 64).
  - rewrite Z.mod_pow2_bits_low, Z.shiftl_spec by lia. by rewrite orb_comm.
  - rewrite Z.mod_pow2_bits_high by lia. by rewrite orb_comm.
Qed.

(** ** Proof automation *)

Create HintDb rnet.
Create Rewrite HintDb rnet.
#[export] Hint Rewrite @len_nil @len_cons @len_app : rnet.
#[export] Hint Rewrite @sumZ_nil @sumZ_cons @sumZ_app : rnet.
#[export] Hint Resolve len_nonneg : rnet.

(** Splits every [match] and [decide] of the hypotheses and the goal and
    simplifies the equations that appear; for the guard chains of the code. *)
Ltac split_guards :=
  repeat first [progress simplify_eq/= | case_decide | case_match].

(** Inverts a successful computation [H : m = Ok x]: every guard of [m] is
    resolved, and the error branches are closed. *)
Ltac ok_inv H :=
  repeat match type of H with
  | Err _ = Ok _ => discriminate H
  | Ok _ = Err _ => discriminate H
  | Ok _ = Ok _ => injection H as H; subst
  | (if decide ?P then _ else _) = _ => destruct (decide P); [try discriminate H|try discriminate H]
  end.
