(* ===== verification/Bytes.v ===== *)
(** * Byte strings and big-endian fields

    [&[u8]] is [list byte].  [be_encode]/[be_decode] are [to_be_bytes] and
    [from_be_bytes]; [slice i j l] is [l[i..j]].  The lemmas below are what every
    wire format of the library needs: a field read back at its offset is the
    field written there, and contiguous slices reassemble the input. *)

From S2P Require Import Prelude.
From coqutil Require Import Byte LittleEndianList.
From Stdlib Require Import Strings.Byte.

Abbreviation byte := Init.Byte.byte.

#[export] Instance byte_eq_dec : EqDecision byte.
Proof.
  refine (λ b c, cast_if (decide (Byte.to_N b = Byte.to_N c))); [|congruence].
  abstract (apply (f_equal Byte.of_N) in e; rewrite !Byte.of_to_N in e; congruence).
Defined.
#[export] Instance byte_inhabited : Inhabited byte := populate Byte.x00.
#[export] Program Instance byte_countable : Countable byte :=
  inj_countable Byte.to_N Byte.of_N _.
Next Obligation. intros b. apply Byte.of_to_N. Qed.

(** [b as u8] numerically, and back with truncation. *)
Definition to_u8 (b : byte) : Z := byte.unsigned b.
Definition of_u8 (z : Z) : byte := byte.of_Z z.

Definition be_encode (n : nat) (z : Z) : list byte := rev (le_split n z).
Definition be_decode (l : list byte) : Z := le_combine (rev l).

Definition le_encode (n : nat) (z : Z) : list byte := le_split n z.
Definition le_decode (l : list byte) : Z := le_combine l.

#[global] Arguments be_encode : simpl never.
#[global] Arguments be_decode : simpl never.
#[global] Arguments le_encode : simpl never.
#[global] Arguments le_decode : simpl never.

(** [l[i..j]] for an in-range slice, and [l[i]] for an in-range index. *)
Definition slice {A} (i j : nat) (l : list A) : list A := take (j - i) (drop i l).
Definition byte_at (i : nat) (l : list byte) : Z := to_u8 (l !!! i).

Lemma to_u8_range b : in_u8 (to_u8 b).
Proof. unfold to_u8, in_u8, u8_max. pose proof (byte.unsigned_range b). lia. Qed.

Lemma of_to_u8 b : of_u8 (to_u8 b) = b.
Proof. apply byte.of_Z_unsigned. Qed.

Lemma to_of_u8 z : in_u8 z → to_u8 (of_u8 z) = z.
Proof.
  unfold to_u8, of_u8, in_u8, u8_max. intros ?. rewrite byte.unsigned_of_Z.
  unfold byte.wrap. apply Z.mod_small. lia.
Qed.

Lemma to_u8_inj b c : to_u8 b = to_u8 c → b = c.
Proof. intros H. rewrite <- (of_to_u8 b), <- (of_to_u8 c). by rewrite H. Qed.

Lemma length_be_encode n z : length (be_encode n z) = n.
Proof. unfold be_encode. rewrite length_rev. apply length_le_split. Qed.

Lemma len_be_encode n z : len (be_encode n z) = Z.of_nat n.
Proof. unfold len. by rewrite length_be_encode. Qed.

Lemma be_decode_encode n z :
  0 ≤ z < 2 ^ (Z.of_nat n * 8) → be_decode (be_encode n z) = z.
Proof.
  intros ?. unfold be_decode, be_encode. rewrite rev_involutive.
  rewrite le_combine_split. by apply Z.mod_small.
Qed.

Lemma length_le_encode n z : length (le_encode n z) = n.
Proof. apply length_le_split. Qed.
Lemma le_decode_encode n z : 0 ≤ z < 2 ^ (Z.of_nat n * 8) → le_decode (le_encode n z) = z.
Proof. intros ?. unfold le_decode, le_encode. rewrite le_combine_split. by apply Z.mod_small. Qed.
Lemma le_decode_range n l : length l = n → 0 ≤ le_decode l < 2 ^ (8 * Z.of_nat n).
Proof. intros <-. apply le_combine_bound. Qed.

Lemma le_encode_decode n l : length l = n → le_encode n (le_decode l) = l.
Proof. intros <-. apply split_le_combine. Qed.

Lemma be_encode_decode n l : length l = n → be_encode n (be_decode l) = l.
Proof.
  intros <-. unfold be_decode, be_encode.
  rewrite <- (length_rev l), split_le_combine. apply rev_involutive.
Qed.

Lemma be_decode_range l : 0 ≤ be_decode l < 2 ^ (8 * Z.of_nat (length l)).
Proof.
  unfold be_decode. pose proof (le_combine_bound (rev l)) as H.
  by rewrite length_rev in H.
Qed.

Lemma testbit_above a n i : 0 ≤ n ≤ i → 0 ≤ a < 2 ^ n → Z.testbit a i = false.
Proof. intros Hi Ha. rewrite <- (Z.mod_small a (2 ^ n)) by done. by apply Z.mod_pow2_bits_high. Qed.
Lemma lor_shiftl_high a b n : 0 ≤ n → 0 ≤ a < 2 ^ n → Z.lor a (Z.shiftl b n) = b * 2 ^ n + a.
Proof.
  intros Hn Ha. rewrite <- Z.shiftl_mul_pow2 by done. rewrite Z.add_comm. symmetry. apply Z.add_nocarry_lor.
  apply Z.bits_inj'. intros i Hi. rewrite Z.land_spec, Z.bits_0. destruct (decide (i < n)).
  - rewrite (Z.shiftl_spec_low b) by lia. apply andb_false_r.
  - rewrite testbit_above with (n := n) by lia. done.
Qed.
Lemma be_decode_app l k : be_decode (l ++ k) = be_decode l * 2 ^ (8 * len k) + be_decode k.
Proof.
  unfold be_decode, len. rewrite rev_app_distr, le_combine_app, length_rev.
  pose proof (le_combine_bound (rev k)) as Hb. rewrite length_rev in Hb.
  replace (Z.of_nat (length k) * 8) with (8 * Z.of_nat (length k)) by lia. apply lor_shiftl_high; [lia|done].
Qed.
Lemma be_decode_zeros n : be_decode (replicate n (of_u8 0)) = 0.
Proof.
  induction n as [|n IH]; [done|]. cbn. change (of_u8 0 :: replicate n (of_u8 0)) with ([of_u8 0] ++ replicate n (of_u8 0)).
  rewrite be_decode_app, IH. done.
Qed.
Lemma be_decode_single b : be_decode [b] = to_u8 b.
Proof. unfold be_decode. cbn [rev app]. apply le_combine_1. Qed.

Lemma be_decode_range_n n l :
  length l = n → 0 ≤ be_decode l < 2 ^ (8 * Z.of_nat n).
Proof. intros <-. apply be_decode_range. Qed.

Section slices.
Context {A : Type}.
Implicit Types l k : list A.

Lemma length_slice i j l : (j ≤ length l)%nat → length (slice i j l) = (j - i)%nat.
Proof. intros ?. unfold slice. rewrite length_take, length_drop. lia. Qed.

Lemma slice_app_here j l k : length l = j → slice 0 j (l ++ k) = l.
Proof. intros <-. unfold slice. rewrite drop_0, Nat.sub_0_r. apply take_app_length. Qed.

Lemma slice_app_skip i j l k :
  (length l ≤ i)%nat → slice i j (l ++ k) = slice (i - length l) (j - length l) k.
Proof.
  intros ?. unfold slice. rewrite drop_app_ge by lia. f_equal. lia.
Qed.

Lemma drop_app_skip i l k :
  (length l ≤ i)%nat → drop i (l ++ k) = drop (i - length l) k.
Proof. intros ?. by rewrite drop_app_ge by lia. Qed.

Lemma slice_join i j m l :
  (i ≤ j)%nat → (j ≤ m)%nat → slice i j l ++ slice j m l = slice i m l.
Proof.
  intros ??. unfold slice.
  replace (drop j l) with (drop (j - i) (drop i l)) by (rewrite drop_drop; f_equal; lia).
  replace (m - j)%nat with ((m - i) - (j - i))%nat by lia.
  rewrite <- (take_drop (j - i) (take (m - i) (drop i l))) at 1.
  rewrite take_take, skipn_firstn_comm. by replace (Nat.min (j - i) (m - i)) with (j - i)%nat by lia.
Qed.

Lemma slice_drop i j l :
  (i ≤ j)%nat → slice i j l ++ drop j l = drop i l.
Proof.
  intros ?. unfold slice.
  replace (drop j l) with (drop (j - i) (drop i l)) by (rewrite drop_drop; f_equal; lia).
  apply take_drop.
Qed.

Lemma slice_take i j n l : (j ≤ n)%nat → slice i j (take n l) = slice i j l.
Proof.
  intros ?. unfold slice. rewrite skipn_firstn_comm, take_take. f_equal. lia.
Qed.

(** The first [n] elements, as a field of their own. *)
Lemma split_field n l : (n ≤ length l)%nat → ∃ a b, l = a ++ b ∧ length a = n.
Proof.
  intros ?. exists (take n l), (drop n l). rewrite take_drop, length_take. split; [done|lia].
Qed.
End slices.

Lemma slice_single i l :
  (i < length l)%nat → slice i (S i) l = [of_u8 (byte_at i l)].
Proof.
  intros Hi. unfold slice, byte_at. rewrite of_to_u8.
  destruct (lookup_lt_is_Some_2 l i Hi) as [x Hx].
  rewrite (list_lookup_total_correct _ _ _ Hx).
  rewrite (drop_S _ _ _ Hx). replace (S i - i)%nat with 1%nat by lia. done.
Qed.

Lemma byte_at_app_here b k : byte_at 0 (b :: k) = to_u8 b.
Proof. done. Qed.

Lemma byte_at_app_skip i l k :
  (length l ≤ i)%nat → byte_at i (l ++ k) = byte_at (i - length l) k.
Proof.
  intros ?. unfold byte_at. rewrite !list_lookup_total_alt.
  by rewrite lookup_app_r by lia.
Qed.

Lemma byte_at_range i l : in_u8 (byte_at i l).
Proof. apply to_u8_range. Qed.

Lemma byte_at_S i b l : byte_at (S i) (b :: l) = byte_at i l.
Proof. done. Qed.

#[export] Hint Rewrite length_be_encode @len_be_encode : rnet.

(** Discharges the [length] side conditions of the slice lemmas. *)
Ltac lens :=
  rewrite ?length_app, ?length_be_encode, ?length_nil, ?length_cons, ?length_rev;
  cbn [length Nat.add Nat.sub]; try lia.

(** Cuts the field [a] of [n] bytes off the front of the variable [l]; what is
    left is called [l] again. *)
Ltac cut_field n l a :=
  let r := fresh in
  let E := fresh in
  let L := fresh "L" a in
  destruct (split_field n l) as (a & r & E & L);
  [first [lia | rewrite ?length_app, ?length_cons in *; cbn [length] in *; lia] |];
  subst l; rename r into l.

(** Replaces the length of a cut field by its known value. *)
Ltac known_lengths :=
  rewrite ?length_be_encode;
  repeat match goal with
  | H : length ?l = ?n |- context [length ?l] =>
      lazymatch n with context [length] => fail | _ => rewrite H end
  end;
  cbn [length Nat.sub].

(** Reads the fields of a concatenation back at their offsets. *)
Ltac read_fields :=
  cbn [app];
  repeat match goal with
  | |- context [slice ?i ?j (?l ++ ?k)] =>
      first
        [ rewrite (slice_app_here j l k) by lens
        | rewrite (slice_app_skip i j l k) by lens; known_lengths ]
  | |- context [byte_at ?i (?l ++ ?k)] =>
      rewrite (byte_at_app_skip i l k) by lens; known_lengths
  | |- context [drop ?i (?l ++ ?k)] =>
      rewrite (drop_app_skip i l k) by lens; known_lengths
  | |- context [take ?i (?l ++ ?k)] =>
      first
        [ rewrite (take_app_length' l k i) by lens
        | rewrite (take_app_ge l k i) by lens; known_lengths ]
  | |- context [byte_at 0 (?b :: ?k)] => rewrite (byte_at_app_here b k)
  | |- context [byte_at (S ?i) (?b :: ?k)] => rewrite (byte_at_S i b k)
  | |- context [slice (S ?i) (S ?j) (?b :: ?k)] =>
      change (slice (S i) (S j) (b :: k)) with (slice i j k)
  | |- context [drop (S ?i) (?b :: ?k)] => change (drop (S i) (b :: k)) with (drop i k)
  | |- context [drop 0 ?k] => rewrite (drop_0 k)
  | |- context [take 0 ?k] => rewrite (take_0 k)
  end.

(** A field of known length is determined by its number. *)
Lemma be_decode_eq n l z :
  length l = n → 0 ≤ z < 2 ^ (Z.of_nat n * 8) → be_decode l = z ↔ l = be_encode n z.
Proof.
  intros Hl Hz. split.
  - intros <-. symmetry. by apply be_encode_decode.
  - intros ->. by apply be_decode_encode.
Qed.

Lemma be_u16 z : in_u16 z → be_decode (be_encode 2 z) = z.
Proof. intros. apply be_decode_encode. zlia. Qed.
Lemma be_u32 z : in_u32 z → be_decode (be_encode 4 z) = z.
Proof. intros. apply be_decode_encode. zlia. Qed.
Lemma be_u64 z : in_u64 z → be_decode (be_encode 8 z) = z.
Proof. intros. apply be_decode_encode. zlia. Qed.

Lemma be_u16_range l : length l = 2%nat → in_u16 (be_decode l).
Proof. intros H. pose proof (be_decode_range_n _ _ H). zlia. Qed.
Lemma be_u32_range l : length l = 4%nat → in_u32 (be_decode l).
Proof. intros H. pose proof (be_decode_range_n _ _ H). zlia. Qed.
Lemma be_u64_range l : length l = 8%nat → in_u64 (be_decode l).
Proof. intros H. pose proof (be_decode_range_n _ _ H). zlia. Qed.
#[export] Hint Resolve be_u16_range be_u32_range be_u64_range : rnet.

(** Two concatenations of fields of the same lengths are equal field by field. *)
Ltac split_fields H :=
  repeat match type of H with
  | _ ++ _ = _ ++ _ =>
    let E := fresh in
    apply app_inj_1 in H as [E H]; [|solve [lens]]; try (subst; idtac)
  end.

(** Reads written fields back to their numbers. *)
Ltac be_numbers :=
  rewrite ?be_encode_decode by done; rewrite ?be_u16, ?be_u32, ?be_u64 by (done || zlia).
