(* ===== verification/CoreTypes.v ===== *)
(** * Shared types of rnet-core

    [error.rs] (error codes and errors), [event.rs] (transports, event kinds and
    events) and [lifecycle.rs] (the atomic lifecycle flag, as the atomic actions
    its methods perform on a shared [u8]). *)

From S2P Require Import Prelude Bytes.

(** [pub type Handle = u64]. *)
Abbreviation Handle := Z (only parsing).
(** [std::time::Instant] and [Duration], in nanoseconds. *)
Abbreviation Instant := Z (only parsing).
Abbreviation Duration := Z (only parsing).

Module ErrorCode.
Inductive t :=
| Ok | InvalidArgument | InvalidHandle | InvalidState | WouldBlock | Timeout
| NotSupported | IoError | ProtocolError | MessageTooLarge | InternalPanic
| HandshakeRequired | HandshakeFailed | AuthRejected | PeerKeyMismatch
| ReplayDetected | CryptoError | RateLimited | Cancelled.

#[global] Instance t_eq_dec : EqDecision t.
Proof. solve_decision. Defined.

(** The [#[repr(i32)]] discriminants. *)
Definition to_i32 (c : t) : Z :=
  match c with
  | Ok => 0 | InvalidArgument => -1 | InvalidHandle => -2 | InvalidState => -3
  | WouldBlock => -4 | Timeout => -5 | NotSupported => -6 | IoError => -7
  | ProtocolError => -8 | MessageTooLarge => -9 | InternalPanic => -10
  | HandshakeRequired => -11 | HandshakeFailed => -12 | AuthRejected => -13
  | PeerKeyMismatch => -14 | ReplayDetected => -15 | CryptoError => -16
  | RateLimited => -17 | Cancelled => -18
  end.
End ErrorCode.

(** [RnetError]: a stable category and a diagnostic. *)
Record RnetError := mkRnetError {
  code : ErrorCode.t;
  message : string
}.

#[export] Instance RnetError_eq_dec : EqDecision RnetError.
Proof. solve_decision. Defined.

Abbreviation Result := (result RnetError).

Definition fail {A} (c : ErrorCode.t) (m : string) : Result A := Err (mkRnetError c m).

(** The error category of a result, [ErrorCode.Ok] on success. *)
Definition status {A} (r : Result A) : ErrorCode.t :=
  match r with
  | Ok _ => ErrorCode.Ok
  | Err e => code e
  end.

(** [impl TryFrom<i32> for ErrorCode]. *)
Definition error_code_try_from (value : Z) : Result ErrorCode.t :=
  match value with
  | 0 => Ok ErrorCode.Ok
  | -1 => Ok ErrorCode.InvalidArgument
  | -2 => Ok ErrorCode.InvalidHandle
  | -3 => Ok ErrorCode.InvalidState
  | -4 => Ok ErrorCode.WouldBlock
  | -5 => Ok ErrorCode.Timeout
  | -6 => Ok ErrorCode.NotSupported
  | -7 => Ok ErrorCode.IoError
  | -8 => Ok ErrorCode.ProtocolError
  | -9 => Ok ErrorCode.MessageTooLarge
  | -10 => Ok ErrorCode.InternalPanic
  | -11 => Ok ErrorCode.HandshakeRequired
  | -12 => Ok ErrorCode.HandshakeFailed
  | -13 => Ok ErrorCode.AuthRejected
  | -14 => Ok ErrorCode.PeerKeyMismatch
  | -15 => Ok ErrorCode.ReplayDetected
  | -16 => Ok ErrorCode.CryptoError
  | -17 => Ok ErrorCode.RateLimited
  | -18 => Ok ErrorCode.Cancelled
  | _ => fail ErrorCode.InvalidArgument "unknown error code"
  end.

Module Transport.
Inductive t := Tcp | Udp | Kcp.
#[global] Instance t_eq_dec : EqDecision t.
Proof. solve_decision. Defined.
End Transport.

(** [impl TryFrom<u32> for Transport]. *)
Definition transport_try_from (value : Z) : Result Transport.t :=
  match value with
  | 1 => Ok Transport.Tcp
  | 2 => Ok Transport.Udp
  | 3 => Ok Transport.Kcp
  | _ => fail ErrorCode.InvalidArgument "unknown transport"
  end.

Module EventType.
Inductive t :=
| RuntimeStarted | EndpointOpened | EndpointError | SessionOpened | SessionClosed
| Message | Writable | RuntimeStopped | AuthRequest | JoinFailed
| SecurityChanged | GameControl.
#[global] Instance t_eq_dec : EqDecision t.
Proof. solve_decision. Defined.
End EventType.

Record Event := mkEvent {
  event_type : EventType.t;
  ev_endpoint : Handle;
  ev_session : Handle;
  correlation_id : Z;
  ev_status : ErrorCode.t;
  data : list byte;
  integrity_verified : bool;
  queued_at : Instant
}.
#[export] Instance eta_Event : Eta Event := λ e,
  mkEvent (event_type e) (ev_endpoint e) (ev_session e) (correlation_id e)
    (ev_status e) (data e) (integrity_verified e) (queued_at e).

(** [Event::simple]; [now] is the value of [Instant::now()]. *)
Definition event_simple (ty : EventType.t) (now : Instant) : Event :=
  mkEvent ty 0 0 0 ErrorCode.Ok [] false now.

(** ** Lifecycle *)

Module Lifecycle.
Inductive t := Created | Running | Draining | Stopped.
#[global] Instance t_eq_dec : EqDecision t.
Proof. solve_decision. Defined.

Definition to_u8 (l : t) : Z :=
  match l with Created => 0 | Running => 1 | Draining => 2 | Stopped => 3 end.
End Lifecycle.

(** [RuntimeState] is one atomic [u8]. *)
Definition RuntimeState := Z.

Definition runtime_state_created : RuntimeState := Lifecycle.to_u8 Lifecycle.Created.

Definition runtime_state_load (s : RuntimeState) : Lifecycle.t :=
  match s with
  | 0 => Lifecycle.Created
  | 1 => Lifecycle.Running
  | 2 => Lifecycle.Draining
  | _ => Lifecycle.Stopped
  end.

(** [transition]: one compare-exchange. *)
Definition runtime_state_transition (s : RuntimeState) (from to : Lifecycle.t)
    : Result unit * RuntimeState :=
  if decide (s = Lifecycle.to_u8 from) then (Ok tt, Lifecycle.to_u8 to)
  else (fail ErrorCode.InvalidState "invalid runtime state transition", s).

Definition runtime_state_start (s : RuntimeState) : Result unit * RuntimeState :=
  runtime_state_transition s Lifecycle.Created Lifecycle.Running.

(** [begin_draining] and [mark_stopped] load the flag and then act on what they
    saw; [seen] is the loaded value, [s] the flag when the second action runs. *)
Definition begin_draining_after (seen : Lifecycle.t) (s : RuntimeState)
    : Result unit * RuntimeState :=
  match seen with
  | Lifecycle.Running => runtime_state_transition s Lifecycle.Running Lifecycle.Draining
  | Lifecycle.Draining => (Ok tt, s)
  | _ => (fail ErrorCode.InvalidState "runtime cannot begin draining from this state", s)
  end.

Definition mark_stopped_after (seen : Lifecycle.t) (s : RuntimeState)
    : Result unit * RuntimeState :=
  match seen with
  | Lifecycle.Draining => runtime_state_transition s Lifecycle.Draining Lifecycle.Stopped
  | Lifecycle.Stopped => (Ok tt, s)
  | _ => (fail ErrorCode.InvalidState "runtime cannot stop from this state", s)
  end.

(** Threads calling the methods concurrently: a call of [begin_draining] or
    [mark_stopped] is two steps, and any other thread may run in between. *)
Inductive lifecycle_method := MStart | MDrain | MStop.
#[export] Instance lifecycle_method_eq_dec : EqDecision lifecycle_method.
Proof. solve_decision. Defined.

Inductive lifecycle_call :=
| Called (m : lifecycle_method)
| Saw (m : lifecycle_method) (seen : Lifecycle.t)
| Returned (m : lifecycle_method) (r : Result unit).
#[export] Instance lifecycle_call_eq_dec : EqDecision lifecycle_call.
Proof. solve_decision. Defined.

Record lifecycle_system := mkLifecycleSystem {
  flag : RuntimeState;
  calls : list lifecycle_call
}.

(** What a thread does next, given the flag. *)
Definition lifecycle_advance (s : RuntimeState) (c : lifecycle_call)
    : option (lifecycle_call * RuntimeState) :=
  match c with
  | Called MStart =>
    let '(r, s') := runtime_state_start s in Some (Returned MStart r, s')
  | Called m => Some (Saw m (runtime_state_load s), s)
  | Saw MDrain seen =>
    let '(r, s') := begin_draining_after seen s in Some (Returned MDrain r, s')
  | Saw MStop seen =>
    let '(r, s') := mark_stopped_after seen s in Some (Returned MStop r, s')
  | Saw MStart _ | Returned _ _ => None
  end.

Inductive lifecycle_step : lifecycle_system → lifecycle_system → Prop :=
| lifecycle_spawn s pre m :
    lifecycle_step (mkLifecycleSystem s pre) (mkLifecycleSystem s (Called m :: pre))
| lifecycle_run s pre c post c' s' :
    lifecycle_advance s c = Some (c', s') →
    lifecycle_step (mkLifecycleSystem s (pre ++ c :: post))
      (mkLifecycleSystem s' (pre ++ c' :: post)).

Definition lifecycle_init : lifecycle_system :=
  mkLifecycleSystem runtime_state_created [].

(** ** Properties *)

Lemma error_code_roundtrip c : error_code_try_from (ErrorCode.to_i32 c) = Ok c.
Proof. by destruct c. Qed.

(** What a thread may have seen or returned when the flag is [s]: a loaded value
    is never ahead of the flag, a successful drain or stop implies the flag got
    there. *)
Definition call_ok (s : RuntimeState) (c : lifecycle_call) : Prop :=
  match c with
  | Saw m seen => m ≠ MStart ∧ Lifecycle.to_u8 seen ≤ s
  | Returned MStart (Ok _) => 1 ≤ s
  | Returned MDrain (Ok _) => 2 ≤ s
  | Returned MStop (Ok _) => 3 ≤ s
  | _ => True
  end.

Definition started (c : lifecycle_call) : Z :=
  if decide (c = Returned MStart (Ok tt)) then 1 else 0.

Record lifecycle_inv (sys : lifecycle_system) : Prop := {
  li_range : 0 ≤ flag sys ≤ 3;
  li_calls : Forall (call_ok (flag sys)) (calls sys);
  li_started : sumZ started (calls sys) = 1 `min` flag sys
}.

Lemma call_ok_mono s s' c : s ≤ s' → call_ok s c → call_ok s' c.
Proof. destruct c as [|m ?|[] []]; cbn; try naive_solver lia; lia. Qed.

(** One atomic action of any thread. *)
Lemma lifecycle_advance_spec s c c' s' :
  0 ≤ s ≤ 3 → call_ok s c → lifecycle_advance s c = Some (c', s') →
  s ≤ s' ≤ s + 1 ∧ s' ≤ 3 ∧ call_ok s' c' ∧
  started c = 0 ∧ started c' = 1 `min` s' - 1 `min` s.
Proof.
  intros Hs Hc Hadv.
  assert (s = 0 ∨ s = 1 ∨ s = 2 ∨ s = 3) as Hcases by lia.
  destruct c as [[]|[] []|]; destruct Hcases as [->|[->|[->| ->]]];
    vm_compute in Hadv; simplify_eq; vm_compute in Hc;
    repeat split; vm_compute; congruence || naive_solver.
Qed.

Lemma lifecycle_step_inv sys sys' :
  lifecycle_step sys sys' → lifecycle_inv sys →
  lifecycle_inv sys' ∧ flag sys ≤ flag sys' ≤ flag sys + 1.
Proof.
  destruct 1 as [s pre m|s pre c post c' s' Hadv]; intros [Hr Hc Hst]; cbn in *.
  { split; [|lia]. split; cbn; [done|by constructor|]. rewrite sumZ_cons.
    change (started (Called m)) with 0. lia. }
  apply Forall_app in Hc as [Hpre [Hok Hpost]%Forall_cons_1].
  destruct (lifecycle_advance_spec _ _ _ _ Hr Hok Hadv) as (?&?&?&?&?).
  split; [|lia]. split; cbn; [lia| |].
  - apply Forall_app_2; [|apply Forall_cons_2; [done|]];
      (eapply Forall_impl; [eassumption|]); intros x; apply call_ok_mono; lia.
  - autorewrite with rnet in *. lia.
Qed.

Lemma lifecycle_reachable sys : rtc lifecycle_step lifecycle_init sys → lifecycle_inv sys.
Proof.
  intros Hr. assert (lifecycle_inv lifecycle_init) as Hi by by repeat constructor.
  induction Hr as [|??? Hs _ IH]; [done|]. apply IH. by eapply lifecycle_step_inv.
Qed.

Lemma lifecycle_steps_inv sys sys' :
  rtc lifecycle_step sys sys' → lifecycle_inv sys →
  lifecycle_inv sys' ∧ flag sys ≤ flag sys'.
Proof.
  induction 1 as [|??? Hs _ IH]; intros Hi; [done|].
  destruct (lifecycle_step_inv _ _ Hs Hi) as [Hi' ?]. destruct (IH Hi'). split; [done|lia].
Qed.

(** Under every interleaving of concurrent [start], [begin_draining] and
    [mark_stopped] calls, the lifecycle flag only moves forward through the four
    states; exactly one [start] succeeds once the flag has left [Created] and none
    before; and after a [begin_draining] or [mark_stopped] has returned success the
    flag is, and stays, at or past the state it promised. *)
Theorem lifecycle_monotonic sys sys' :
  rtc lifecycle_step lifecycle_init sys → rtc lifecycle_step sys sys' →
  0 ≤ flag sys ≤ flag sys' ∧ flag sys' ≤ 3 ∧
  sumZ started (calls sys') = 1 `min` flag sys' ∧
  (Returned MDrain (Ok tt) ∈ calls sys →
   runtime_state_load (flag sys') ∈ [Lifecycle.Draining; Lifecycle.Stopped]) ∧
  (Returned MStop (Ok tt) ∈ calls sys → runtime_state_load (flag sys') = Lifecycle.Stopped).
Proof.
  intros Hi%lifecycle_reachable Hs.
  destruct (lifecycle_steps_inv _ _ Hs Hi) as [[Hr' _ Hst'] Hle]. destruct Hi as [Hr Hc _].
  split_and!; [lia..|done| |].
  all: intros Hin; rewrite Forall_forall in Hc; apply Hc in Hin; cbn in Hin.
  - assert (flag sys' = 2 ∨ flag sys' = 3) as [->| ->] by lia; set_solver.
  - assert (flag sys' = 3) as -> by lia. done.
Qed.

Lemma lifecycle_monotonic_witness :
  ∃ sys', rtc lifecycle_step lifecycle_init sys' ∧ flag sys' = 1 ∧
    0 ≤ flag lifecycle_init ≤ flag sys'.
Proof.
  assert (rtc lifecycle_step lifecycle_init (mkLifecycleSystem 1 [Returned MStart (Ok tt)])) as H.
  { eapply rtc_l; [apply (lifecycle_spawn _ _ MStart)|]. apply rtc_once.
    by apply (lifecycle_run 0 [] (Called MStart) []). }
  eexists. split; [exact H|]. split; [done|].
  by apply (lifecycle_monotonic lifecycle_init _ (rtc_refl _ _) H).
Defined.
