(* ===== verification/Wire.v ===== *)
(** * Wire formats

    What every record format of the library promises to its users ([WireCodec]):
    decoding returns what was encoded, and only the canonical encoding of a value
    decodes to it.  [StreamParser] is the same for formats parsed incrementally
    out of a byte stream. *)

From S2P Require Import Prelude Bytes CoreTypes.

(** ** One-shot formats *)

Class WireCodec (A : Type) := {
  wc_wf : A → Prop;
  wc_encode : A → Result (list byte);
  wc_decode : list byte → Result A;
  wc_roundtrip a w : wc_wf a → wc_encode a = Ok w → wc_decode w = Ok a;
  wc_canonical a w : wc_decode w = Ok a → wc_wf a ∧ wc_encode a = Ok w
}.

Section codec.
Context {A : Type} `{WireCodec A}.

(** Two well-formed values never share an encoding, and two byte strings never
    decode to the same value. *)
Lemma wire_injective (a b : A) w :
  wc_wf a → wc_wf b → wc_encode a = Ok w → wc_encode b = Ok w → a = b.
Proof.
  intros Ha Hb Hea Heb. apply wc_roundtrip in Hea, Heb; [|done..]. congruence.
Qed.

Lemma wire_unique (a : A) w v : wc_decode w = Ok a → wc_decode v = Ok a → w = v.
Proof. intros [_ Hw]%wc_canonical [_ Hv]%wc_canonical. congruence. Qed.

Lemma wire_iff (a : A) w : wc_decode w = Ok a ↔ wc_wf a ∧ wc_encode a = Ok w.
Proof. split; [apply wc_canonical|]. intros []. by apply wc_roundtrip. Qed.
End codec.

(** ** Byte-coded enumerations *)

(** [#[repr(u8)]] enumerations with [TryFrom<u8>]: the conversion back accepts
    exactly the discriminants. *)
Class U8Enum {K : Type} (to : K → Z) (from : Z → Result K) := {
  ue_range k : in_u8 (to k);
  ue_from v k : from v = Ok k ↔ v = to k
}.

Ltac solve_u8_enum :=
  split;
  [ intros []; by vm_compute
  | intros v k; split; [|by intros ->; destruct k];
    match goal with |- ?from v = _ → _ => unfold from end;
    intros H; repeat (case_match; simplify_eq/=; try done) ].

Section enum.
Context {K : Type} (to : K → Z) (from : Z → Result K) `{!U8Enum to from}.

Lemma ue_read k l : from (byte_at 0 (of_u8 (to k) :: l)) = Ok k.
Proof. apply ue_from. rewrite byte_at_app_here. apply to_of_u8, ue_range. Qed.

Lemma ue_byte b k : from (to_u8 b) = Ok k → b = of_u8 (to k).
Proof. intros <-%ue_from. symmetry. apply of_to_u8. Qed.

Lemma ue_write k : from (to_u8 (of_u8 (to k))) = Ok k.
Proof. apply ue_from, to_of_u8, ue_range. Qed.
End enum.

(** ** Incremental formats *)

(** [sp_step buf] is one attempt to take an item off the front of [buf]: nothing
    yet, an item with the bytes left, or an error.  A decision taken on a buffer is
    not changed by bytes that arrive later, and an item consumes at least a byte. *)
Class StreamParser {A : Type} (sp_step : list byte → Result (option (A * list byte))) := {
  sp_item buf x rest more :
    sp_step buf = Ok (Some (x, rest)) → sp_step (buf ++ more) = Ok (Some (x, rest ++ more));
  sp_error buf e more : sp_step buf = Err e → sp_step (buf ++ more) = Err e;
  sp_progress buf x rest :
    sp_step buf = Ok (Some (x, rest)) → (length rest < length buf)%nat
}.

Section stream.
Context {A : Type} (step : list byte → Result (option (A * list byte))).
Context `{SP : !StreamParser step}.
Implicit Types (buf rest : list byte) (xs : list A).

(** The loop around a step; [None] when the fuel runs out. *)
Fixpoint parse_loop (fuel : nat) buf xs : option (Result (list A) * list byte) :=
  match fuel with
  | O => None
  | S fuel =>
    match step buf with
    | Err e => Some (Err e, buf)
    | Ok None => Some (Ok xs, buf)
    | Ok (Some (x, rest)) => parse_loop fuel rest (xs ++ [x])
    end
  end.

(** Specification: [parses buf xs rest] when [xs] come off the front of [buf] and
    [rest] has no further item. *)
Inductive parses : list byte → list A → list byte → Prop :=
| parses_done buf : step buf = Ok None → parses buf [] buf
| parses_item buf x rest xs rest' :
    step buf = Ok (Some (x, rest)) → parses rest xs rest' → parses buf (x :: xs) rest'.

Inductive fails : list byte → list A → RnetError → list byte → Prop :=
| fails_here buf e : step buf = Err e → fails buf [] e buf
| fails_item buf x rest xs e rest' :
    step buf = Ok (Some (x, rest)) → fails rest xs e rest' → fails buf (x :: xs) e rest'.

Lemma parse_loop_parses fuel buf xs0 xs rest :
  parses buf xs rest → (length buf < fuel)%nat →
  parse_loop fuel buf xs0 = Some (Ok (xs0 ++ xs), rest).
Proof using SP.
  intros Hp. revert fuel xs0.
  induction Hp as [buf Hs|buf x rest xs rest' Hs _ IH]; intros [|fuel] xs0 Hf; try lia; cbn;
    rewrite Hs; [by rewrite app_nil_r|].
  pose proof (sp_progress _ _ _ Hs). rewrite IH by lia. by rewrite <- app_assoc.
Qed.

Lemma parse_loop_fails fuel buf xs0 xs e rest :
  fails buf xs e rest → (length buf < fuel)%nat →
  parse_loop fuel buf xs0 = Some (Err e, rest).
Proof using SP.
  intros Hp. revert fuel xs0.
  induction Hp as [buf e Hs|buf x rest xs e rest' Hs _ IH]; intros [|fuel] xs0 Hf; try lia; cbn;
    rewrite Hs; [done|].
  pose proof (sp_progress _ _ _ Hs). by rewrite IH by lia.
Qed.

(** Every buffer parses or fails: the loop always has a result. *)
Lemma parse_total buf :
  (∃ xs rest, parses buf xs rest) ∨ (∃ xs e rest, fails buf xs e rest).
Proof using SP.
  remember (length buf) as n eqn:Hn. revert buf Hn.
  induction n as [n IH] using lt_wf_ind. intros buf ->.
  destruct (step buf) as [[[x rest]|]|e] eqn:Hs.
  - pose proof (sp_progress _ _ _ Hs).
    destruct (IH (length rest) ltac:(done) rest eq_refl)
      as [(xs & rest' & ?)|(xs & e & rest' & ?)];
      [left; do 2 eexists|right; do 3 eexists]; by econstructor.
  - left. do 2 eexists. by constructor.
  - right. do 3 eexists. by constructor.
Qed.

Lemma parses_settled buf xs rest : parses buf xs rest → step rest = Ok None.
Proof. by induction 1. Qed.

(** Bytes that arrive later continue where the parse stopped. *)
Lemma parses_continue buf xs rest more ys rest' :
  parses buf xs rest → parses (rest ++ more) ys rest' →
  parses (buf ++ more) (xs ++ ys) rest'.
Proof using SP.
  induction 1 as [|buf x rest0 xs rest Hs _ IH]; intros Hy; [done|].
  cbn. econstructor; [by apply sp_item|]. by apply IH.
Qed.

Lemma fails_continue buf xs rest more ys e rest' :
  parses buf xs rest → fails (rest ++ more) ys e rest' →
  fails (buf ++ more) (xs ++ ys) e rest'.
Proof using SP.
  induction 1 as [|buf x rest0 xs rest Hs _ IH]; intros Hy; [done|].
  cbn. econstructor; [by apply sp_item|]. by apply IH.
Qed.

Lemma fails_extend buf xs e rest more :
  fails buf xs e rest → fails (buf ++ more) xs e (rest ++ more).
Proof using SP.
  induction 1 as [buf e Hs|buf x rest0 xs e rest Hs _ IH].
  - constructor. by apply sp_error.
  - econstructor; [by apply sp_item|done].
Qed.

#[local] Ltac same_step :=
  repeat match goal with
  | H : step ?b = _, H' : step ?b = _ |- _ => rewrite H in H'; clear H
  end; simplify_eq.

Lemma parses_fun buf xs rest ys rest' :
  parses buf xs rest → parses buf ys rest' → xs = ys ∧ rest = rest'.
Proof.
  intros Hp. revert ys rest'. induction Hp as [buf Hs|buf x rest0 xs rest Hs _ IH];
    intros ys rest' Hq; inversion Hq; subst; same_step; [done|].
  edestruct IH as [-> ->]; [eassumption|done].
Qed.

Lemma parses_not_fails buf xs rest ys e rest' : parses buf xs rest → ¬ fails buf ys e rest'.
Proof.
  intros Hp. revert ys rest'. induction Hp as [buf Hs|buf x rest0 xs rest Hs _ IH];
    intros ys rest' Hq; inversion Hq; subst; same_step. naive_solver.
Qed.

Lemma fails_fun buf xs e rest ys e' rest' :
  fails buf xs e rest → fails buf ys e' rest' → xs = ys ∧ e = e' ∧ rest = rest'.
Proof.
  intros Hp. revert ys rest'. induction Hp as [buf e Hs|buf x rest0 xs e rest Hs _ IH];
    intros ys rest' Hq; inversion Hq; subst; same_step; [done|].
  edestruct IH as (-> & -> & ->); [eassumption|done].
Qed.

(** A reader that appends each chunk as it arrives and takes every complete item,
    until the first error. *)
Definition take_all buf : option (Result (list A) * list byte) :=
  parse_loop (S (length buf)) buf [].

Fixpoint feed buf (chunks : list (list byte)) : option (list A * Result (list byte)) :=
  match chunks with
  | [] => Some ([], Ok buf)
  | c :: chunks =>
    '(r, buf') ← take_all (buf ++ c);
    match r with
    | Ok xs => '(ys, r') ← feed buf' chunks; Some (xs ++ ys, r')
    | Err e => Some ([], Err e)
    end
  end.

(** The items do not depend on how the stream was cut into chunks, and an error of
    the stream is reported in every cut. *)
Lemma feed_chunks buf chunks :
  step buf = Ok None →
  (∀ xs rest, parses (buf ++ concat chunks) xs rest → feed buf chunks = Some (xs, Ok rest)) ∧
  (∀ xs e rest, fails (buf ++ concat chunks) xs e rest →
     ∃ ys, feed buf chunks = Some (ys, Err e) ∧ ys `prefix_of` xs).
Proof using SP.
  revert buf. induction chunks as [|c chunks IH]; intros buf Hbuf; cbn [concat feed].
  { rewrite app_nil_r. split; intros *; inversion 1; subst; by same_step. }
  rewrite app_assoc. unfold take_all.
  destruct (parse_total (buf ++ c)) as [(xs1 & rest1 & Hp)|(xs1 & e1 & rest1 & Hf)].
  - rewrite (parse_loop_parses _ _ _ _ _ Hp) by lia. cbn.
    destruct (IH rest1 (parses_settled _ _ _ Hp)) as [IHp IHf].
    destruct (parse_total (rest1 ++ concat chunks)) as [(ys & r2 & Hy)|(ys & e & r2 & Hy)].
    + rewrite (IHp _ _ Hy). cbn. pose proof (parses_continue _ _ _ _ _ _ Hp Hy) as Hall. split.
      * intros xs rest Hxs. by destruct (parses_fun _ _ _ _ _ Hall Hxs) as [-> ->].
      * intros xs e rest Hxs. by destruct (parses_not_fails _ _ _ _ _ _ Hall Hxs).
    + destruct (IHf _ _ _ Hy) as (zs & -> & Hpre). cbn.
      pose proof (fails_continue _ _ _ _ _ _ _ Hp Hy) as Hall. split.
      * intros xs rest Hxs. by destruct (parses_not_fails _ _ _ _ _ _ Hxs Hall).
      * intros xs e' rest Hxs. destruct (fails_fun _ _ _ _ _ _ _ Hall Hxs) as (<- & <- & _).
        eexists. split; [done|]. by apply prefix_app.
  - rewrite (parse_loop_fails _ _ _ _ _ _ Hf) by lia. cbn.
    pose proof (fails_extend _ _ _ _ (concat chunks) Hf) as Hall. split.
    + intros xs rest Hxs. by destruct (parses_not_fails _ _ _ _ _ _ Hxs Hall).
    + intros xs e' rest Hxs. destruct (fails_fun _ _ _ _ _ _ _ Hall Hxs) as (<- & <- & _).
      exists []. split; [done|apply prefix_nil].
Qed.

End stream.
