(* ===== verification/Observe.v ===== *)
(** * Observability: rnet-observe [lib.rs]

    The power-of-two latency histogram, with its percentiles proved to bracket the
    exact order statistics, and the bounded logger as a transition system of
    producers, dispatcher and shutdown. *)

From S2P Require Import Prelude Bytes CoreTypes.

(** ** Latency histogram *)

Definition LATENCY_BUCKET_COUNT : nat := 66.

Record LatencySnapshot := mkLatencySnapshot {
  sample_count : Z;
  p50_us : Z;
  p90_us : Z;
  p95_us : Z;
  p99_us : Z;
  p999_us : Z;
  snap_max_us : Z
}.

Record LatencyHistogram := mkLatencyHistogram {
  buckets : list Z;
  max_us : Z
}.

Definition histogram_default : LatencyHistogram :=
  mkLatencyHistogram (replicate LATENCY_BUCKET_COUNT 0) 0.

(** [u64::BITS - x.leading_zeros()]. *)
Definition bit_length (x : Z) : Z := if decide (x = 0) then 0 else Z.log2 x + 1.

Definition latency_bucket (micros : Z) : nat :=
  if decide (micros = 0) then 0%nat
  else if decide (micros = u64_max) then (LATENCY_BUCKET_COUNT - 1)%nat
  else Z.to_nat (1 + bit_length (micros - 1)).

Definition bucket_upper_bound (index : nat) : Z :=
  if decide (index = 0%nat) then 0
  else if decide (index ≤ 64)%nat then Z.shiftl 1 (Z.of_nat index - 1)
  else u64_max.

(** [duration.as_micros()], capped at [u64::MAX]. *)
Definition as_micros (d : Duration) : Z := (d / 1000) `min` u64_max.

Definition histogram_record (h : LatencyHistogram) (duration : Duration) : LatencyHistogram :=
  let micros := as_micros duration in
  let bucket := latency_bucket micros in
  mkLatencyHistogram
    (alter (λ value, saturating_add u64_max value 1) bucket (buckets h))
    (max_us h `max` micros).

(** The scan of [percentile]. *)
Fixpoint percentile_scan (counts : list Z) (index : nat) (seen target : Z) : Z :=
  match counts with
  | [] => u64_max
  | count :: counts =>
    let seen := saturating_add u64_max seen count in
    if decide (target ≤ seen) then bucket_upper_bound index
    else percentile_scan counts (S index) seen target
  end.

Definition percentile_target (total numerator denominator : Z) : Z :=
  (total * numerator + (denominator - 1)) / denominator.

Definition percentile (counts : list Z) (total numerator denominator : Z) : Z :=
  if decide (total = 0) then 0
  else percentile_scan counts 0 0 (percentile_target total numerator denominator).

Definition snapshot_from_counts (counts : list Z) (max : Z) : LatencySnapshot :=
  let total := foldl (saturating_add u64_max) 0 counts in
  let p n := percentile counts total n 1000 `min` max in
  mkLatencySnapshot total (p 500) (p 900) (p 950) (p 990) (p 999) max.

Definition histogram_snapshot (h : LatencyHistogram) : LatencySnapshot :=
  snapshot_from_counts (buckets h) (max_us h).

Definition snapshot_and_reset (h : LatencyHistogram) : LatencySnapshot * LatencyHistogram :=
  (snapshot_from_counts (buckets h) (max_us h), histogram_default).

(** *** Buckets *)

Lemma latency_bucket_range m : in_u64 m → (latency_bucket m < LATENCY_BUCKET_COUNT)%nat.
Proof.
  intros Hm. unfold latency_bucket, LATENCY_BUCKET_COUNT, bit_length.
  repeat case_decide; try lia.
  assert (Z.log2 (m - 1) < 64) by (apply Z.log2_lt_pow2; zlia). lia.
Qed.

(** A value lies at most at the upper bound of its bucket and above the upper bound
    of every bucket below. *)
Lemma bucket_upper m : in_u64 m → m ≤ bucket_upper_bound (latency_bucket m).
Proof.
  intros Hm. unfold latency_bucket, bucket_upper_bound, LATENCY_BUCKET_COUNT, bit_length.
  destruct (decide (m = 0)); [rewrite decide_True by done; lia|].
  destruct (decide (m = u64_max)); [rewrite !decide_False by lia; lia|].
  destruct (decide (m - 1 = 0)); [replace m with 1 by lia; by vm_compute|].
  pose proof (Z.log2_spec (m - 1) ltac:(zlia)) as Hl. pose proof (Z.log2_nonneg (m - 1)).
  rewrite decide_False by lia. case_decide as H64; [|zlia].
  rewrite Z.shiftl_1_l.
  replace (Z.of_nat (Z.to_nat (1 + (Z.log2 (m - 1) + 1))) - 1) with (Z.succ (Z.log2 (m - 1))) by lia.
  lia.
Qed.

Lemma bucket_lower m i :
  in_u64 m → (i < latency_bucket m)%nat → 2 * bucket_upper_bound i < 2 * m ∧
  (latency_bucket m = S i → bucket_upper_bound (S i) ≤ 2 * m).
Proof.
  intros Hm. unfold latency_bucket, bucket_upper_bound, LATENCY_BUCKET_COUNT, bit_length.
  destruct (decide (m = 0)); [lia|].
  destruct (decide (m = u64_max)) as [->|].
  { intros Hi. split; [|intros _].
    - repeat case_decide; try zlia. rewrite Z.shiftl_1_l.
      assert (2 ^ (Z.of_nat i - 1) ≤ 2 ^ 63) by (apply Z.pow_le_mono_r; lia). zlia.
    - repeat case_decide; try zlia. rewrite Z.shiftl_1_l.
      assert (2 ^ (Z.of_nat (S i) - 1) ≤ 2 ^ 63) by (apply Z.pow_le_mono_r; lia). zlia. }
  destruct (decide (m - 1 = 0)).
  { intros Hi. assert (i = 0%nat) as -> by lia. replace m with 1 by lia.
    split; [|intros _]; by vm_compute. }
  pose proof (Z.log2_spec (m - 1) ltac:(zlia)) as Hl. pose proof (Z.log2_nonneg (m - 1)).
  assert (Z.log2 (m - 1) < 64) by (apply Z.log2_lt_pow2; zlia).
  intros Hi. assert (Z.of_nat i - 1 ≤ Z.log2 (m - 1)) by lia. split.
  - case_decide; [lia|]. rewrite decide_True by lia. rewrite Z.shiftl_1_l.
    assert (2 ^ (Z.of_nat i - 1) ≤ 2 ^ Z.log2 (m - 1)) by (apply Z.pow_le_mono_r; lia). lia.
  - intros Hb. rewrite decide_False by lia.
    assert (2 ^ (Z.of_nat (S i) - 1) = 2 * 2 ^ Z.log2 (m - 1)) as E.
    { rewrite <- Z.pow_succ_r by lia. f_equal. lia. }
    case_decide; [rewrite Z.shiftl_1_l|]; [lia|].
    assert (2 ^ 63 ≤ 2 ^ Z.log2 (m - 1)) by (apply Z.pow_le_mono_r; lia). zlia.
Qed.

(** *** What a histogram holds *)

(** Samples whose bucket is [k], and samples in buckets below [k]. *)
Definition count_at (xs : list Z) (k : nat) : Z := len (filter (λ x, latency_bucket x = k) xs).
Definition count_below (xs : list Z) (k : nat) : Z :=
  len (filter (λ x, latency_bucket x < k)%nat xs).
Definition max_of (xs : list Z) : Z := foldr Z.max 0 xs.

Record holds (h : LatencyHistogram) (xs : list Z) : Prop := {
  ho_buckets : buckets h = count_at xs <$> seq 0 LATENCY_BUCKET_COUNT;
  ho_max : max_us h = max_of xs;
  ho_range : Forall in_u64 xs
}.

Lemma count_below_S xs k : count_below xs (S k) = count_below xs k + count_at xs k.
Proof.
  unfold count_below, count_at. induction xs as [|x xs IH]; [done|]. rewrite !filter_cons.
  repeat case_decide; rewrite ?len_cons; lia.
Qed.

Lemma count_below_0 xs : count_below xs 0 = 0.
Proof.
  unfold count_below. rewrite (proj2 (filter_none _ xs)); [done|].
  apply Forall_forall. lia.
Qed.

Lemma count_below_all xs : Forall in_u64 xs → count_below xs LATENCY_BUCKET_COUNT = len xs.
Proof.
  intros Hxs. unfold count_below. rewrite filter_all; [done|].
  eapply Forall_impl; [exact Hxs|]. apply latency_bucket_range.
Qed.

Lemma count_at_nonneg xs k : 0 ≤ count_at xs k.
Proof. apply len_nonneg. Qed.

Lemma count_below_mono xs i j : (i ≤ j)%nat → count_below xs i ≤ count_below xs j.
Proof.
  intros Hij. induction Hij as [|j _ IH]; [done|]. rewrite count_below_S.
  pose proof (count_at_nonneg xs j). lia.
Qed.

Lemma max_of_bound xs x : x ∈ xs → x ≤ max_of xs.
Proof.
  induction xs as [|y xs IH]; [by intros ?%not_elem_of_nil|].
  unfold max_of in *. intros [->|?%IH]%elem_of_cons; cbn; lia.
Qed.

Lemma holds_default : holds histogram_default [].
Proof. by split. Qed.

Lemma as_micros_range d : 0 ≤ d → in_u64 (as_micros d).
Proof. intros. unfold as_micros. assert (0 ≤ d / 1000) by (by apply Z.div_pos). zlia. Qed.

Lemma record_holds h xs d :
  holds h xs → 0 ≤ d → len xs < u64_max → holds (histogram_record h d) (as_micros d :: xs).
Proof.
  intros [Hb Hm Hr] Hd Hlen. unfold histogram_record.
  split; cbn [buckets max_us].
  - rewrite Hb. apply list_eq. intros i. rewrite !list_lookup_fmap.
    set (b := latency_bucket (as_micros d)). destruct (decide (i = b)) as [->|Hne].
    + rewrite list_lookup_alter_eq, list_lookup_fmap.
      destruct (seq 0 _ !! b) as [k|] eqn:E; [|done].
      apply lookup_seq in E as [-> _]. cbn [fmap option_fmap option_map]. f_equal.
      unfold count_at. rewrite filter_cons_True, len_cons by done.
      assert (len (filter (λ x, latency_bucket x = b) xs) ≤ len xs)
        by (unfold len; apply Nat2Z.inj_le, length_filter).
      cbn [Nat.add]. zlia.
    + rewrite list_lookup_alter_ne, list_lookup_fmap by done.
      destruct (seq 0 _ !! i) as [k|] eqn:E; [|done]. apply lookup_seq in E as [-> _].
      cbn. unfold count_at. rewrite filter_cons_False; [done|].
      fold b. cbn. intros ?. by apply Hne.
  - rewrite Hm. unfold max_of. cbn. lia.
  - constructor; [by apply as_micros_range|done].
Qed.

(** *** The percentile scan finds the bucket of the order statistic *)

Lemma percentile_scan_spec xs target n : ∀ i,
  Forall in_u64 xs → len xs ≤ u64_max → (i + n = LATENCY_BUCKET_COUNT)%nat →
  count_below xs i < target ≤ len xs →
  ∃ j, percentile_scan (count_at xs <$> seq i n) i (count_below xs i) target = bucket_upper_bound j ∧
    count_below xs j < target ≤ count_below xs (S j).
Proof.
  induction n as [|n IH]; intros i Hr Hlen Hi Ht.
  { replace i with LATENCY_BUCKET_COUNT in Ht by lia. rewrite count_below_all in Ht by done. lia. }
  cbn [seq fmap list_fmap map percentile_scan].
  pose proof (count_below_mono xs (S i) LATENCY_BUCKET_COUNT ltac:(lia)) as Hm.
  rewrite count_below_all in Hm by done. rewrite count_below_S in Hm.
  assert (saturating_add u64_max (count_below xs i) (count_at xs i) = count_below xs (S i)) as ->
    by (rewrite count_below_S; unfold saturating_add; lia).
  case_decide.
  - exists i. split; [done|lia].
  - apply IH; [done..|lia|lia].
Qed.

Lemma bucket_upper_mono i j : (i ≤ j)%nat → bucket_upper_bound i ≤ bucket_upper_bound j.
Proof.
  intros Hij. unfold bucket_upper_bound. repeat case_decide; rewrite ?Z.shiftl_1_l; try zlia.
  - apply Z.pow_le_mono_r; lia.
  - assert (2 ^ (Z.of_nat i - 1) ≤ 2 ^ 63) by (apply Z.pow_le_mono_r; lia). zlia.
Qed.

Lemma bucket_above m j : in_u64 m → (j ≤ latency_bucket m)%nat → bucket_upper_bound j ≤ 2 * m.
Proof.
  intros Hm Hj. destruct j as [|i]; [change (bucket_upper_bound 0) with 0; zlia|].
  destruct (decide (latency_bucket m = S i)) as [E|].
  - by apply (bucket_lower m i Hm); [lia|].
  - destruct (bucket_lower m (S i) Hm) as [? _]; zlia.
Qed.

(** Samples at most [p], and samples below half of [p]. *)
Definition count_le (xs : list Z) (p : Z) : Z := len (filter (λ x, x ≤ p) xs).
Definition count_half (xs : list Z) (p : Z) : Z := len (filter (λ x, 2 * x < p) xs).

(** [p] brackets the exact [n]-per-mille order statistic [q]: [q ≤ p ≤ 2 q].  Enough
    samples are at most [p], and too few are below [p / 2]. *)
Definition brackets (xs : list Z) (n p : Z) : Prop :=
  let target := percentile_target (len xs) n 1000 in
  target ≤ count_le xs p ∧ count_half xs p < target.

Lemma percentile_target_range total n :
  0 < total → 0 < n ≤ 1000 → 0 < percentile_target total n 1000 ≤ total.
Proof.
  intros Ht Hn. unfold percentile_target. split.
  - apply Z.div_str_pos. nia.
  - assert ((total * n + (1000 - 1)) / 1000 < total + 1); [|lia].
    apply Z.div_lt_upper_bound; nia.
Qed.

Lemma percentile_brackets xs n :
  Forall in_u64 xs → 0 < len xs ≤ u64_max → 0 < n ≤ 1000 →
  brackets xs n
    (percentile (count_at xs <$> seq 0 LATENCY_BUCKET_COUNT) (len xs) n 1000 `min` max_of xs).
Proof.
  intros Hr Hlen Hn. pose proof (percentile_target_range (len xs) n ltac:(lia) Hn) as Ht.
  unfold percentile. rewrite decide_False by lia. unfold brackets.
  set (target := percentile_target _ _ _) in *.
  destruct (percentile_scan_spec xs target LATENCY_BUCKET_COUNT 0) as (j & Hj & Hlo & Hhi);
    [done|lia|done|by rewrite count_below_0|].
  rewrite count_below_0 in Hj. rewrite Hj. rewrite Forall_forall in Hr. split.
  - etrans; [exact Hhi|]. apply filter_len_mono. intros x Hx Hb.
    pose proof (max_of_bound xs x Hx). pose proof (bucket_upper x (Hr x Hx)).
    pose proof (bucket_upper_mono (latency_bucket x) j ltac:(lia)). lia.
  - eapply Z.le_lt_trans; [|exact Hlo]. apply filter_len_mono. intros x Hx Hh.
    destruct (decide (latency_bucket x < j)%nat); [done|].
    pose proof (bucket_above x j (Hr x Hx) ltac:(lia)). lia.
Qed.

Lemma total_counts xs n : ∀ i,
  Forall in_u64 xs → len xs ≤ u64_max → (i + n = LATENCY_BUCKET_COUNT)%nat →
  foldl (saturating_add u64_max) (count_below xs i) (count_at xs <$> seq i n) = len xs.
Proof.
  induction n as [|n IH]; intros i Hr Hlen Hi.
  { cbn. replace i with LATENCY_BUCKET_COUNT by lia. by apply count_below_all. }
  cbn [seq fmap list_fmap map foldl].
  pose proof (count_below_mono xs (S i) LATENCY_BUCKET_COUNT ltac:(lia)) as Hm.
  rewrite count_below_all in Hm by done. rewrite count_below_S in Hm.
  assert (saturating_add u64_max (count_below xs i) (count_at xs i) = count_below xs (S i)) as ->
    by (rewrite count_below_S; unfold saturating_add; lia).
  apply IH; [done..|lia].
Qed.

Lemma record_all_holds ds : ∀ h xs,
  holds h xs → Forall (λ d, 0 ≤ d) ds → len xs + len ds ≤ u64_max →
  holds (foldl histogram_record h ds) (rev (as_micros <$> ds) ++ xs).
Proof.
  induction ds as [|d ds IH]; intros h xs Hh Hd Hlen; [done|]. rewrite len_cons in Hlen.
  apply Forall_cons in Hd as [Hd0 Hd]. pose proof (len_nonneg ds).
  cbn [foldl fmap list_fmap map rev]. rewrite <- app_assoc. cbn [app].
  apply IH; [|done|rewrite len_cons; lia]. apply record_holds; [done..|lia].
Qed.

(** The latency percentiles are within a factor of two of the exact ones and
    never below them.  After any sequence of at most 2^64-1 recorded durations the
    snapshot counts every sample, reports the exact maximum, and each percentile [p]
    brackets the exact order statistic: at least the target number of samples are at
    most [p], and fewer than that lie below [p / 2]. *)
Theorem histogram_percentiles (ds : list Duration) :
  Forall (λ d, 0 ≤ d) ds → 0 < len ds ≤ u64_max →
  let xs := rev (as_micros <$> ds) in
  let s := histogram_snapshot (foldl histogram_record histogram_default ds) in
  sample_count s = len ds ∧ snap_max_us s = max_of xs ∧
  brackets xs 500 (p50_us s) ∧ brackets xs 900 (p90_us s) ∧ brackets xs 950 (p95_us s) ∧
  brackets xs 990 (p99_us s) ∧ brackets xs 999 (p999_us s).
Proof.
  intros Hd Hlen xs.
  pose proof (record_all_holds ds histogram_default [] holds_default Hd
    (proj2 Hlen)) as [Hb Hm Hr].
  rewrite app_nil_r in *. fold xs in Hb, Hm, Hr.
  assert (len xs = len ds) as El by (unfold xs, len; rewrite length_rev, length_fmap; done).
  unfold histogram_snapshot. rewrite Hb, Hm. unfold snapshot_from_counts.
  cbn [sample_count snap_max_us p50_us p90_us p95_us p99_us p999_us].
  assert (foldl (saturating_add u64_max) 0 (count_at xs <$> seq 0 LATENCY_BUCKET_COUNT) = len xs) as ->.
  { rewrite <- (count_below_0 xs) at 1. apply total_counts; done || lia. }
  split_and!; try done; apply percentile_brackets; done || lia.
Qed.

Lemma histogram_percentiles_witness :
  brackets [3; 1000; 40; 7] 500
    (p50_us (histogram_snapshot (foldl histogram_record histogram_default
       [7000; 40000; 1000000; 3999]))).
Proof.
  apply (histogram_percentiles [7000; 40000; 1000000; 3999]); [|by vm_compute].
  repeat constructor; lia.
Defined.

(** ** Bounded logger *)

Module LogLevel.
Inductive t := Trace | Debug | Info | Warn | Error.
#[global] Instance t_eq_dec : EqDecision t.
Proof. solve_decision. Defined.
End LogLevel.

Record LogRecord := mkLogRecord {
  timestamp_unix_ms : Z;
  level : LogLevel.t;
  event_name : string;
  target : string;
  log_message : string;
  log_runtime : Handle;
  log_endpoint : Handle;
  log_session : Handle;
  log_transport : Z;
  error_code : ErrorCode.t;
  log_correlation_id : Z
}.

Record LoggerConfig := mkLoggerConfig { normal_capacity : Z; error_capacity : Z }.
Definition logger_config_default : LoggerConfig := mkLoggerConfig 256 16.

(** Where the dispatcher is in an iteration of its loop. *)
Inductive DispatchPhase := AtErrors | AtSecond | Exited.
#[export] Instance DispatchPhase_eq_dec : EqDecision DispatchPhase.
Proof. solve_decision. Defined.

(** The two channels, whether their senders still exist, the counters, and the
    dispatcher thread.  [delivered] is what the sink has been called with. *)
Record Logger := mkLogger {
  config : LoggerConfig;
  normal : list LogRecord;
  errors : list LogRecord;
  normal_sender : bool;
  error_sender : bool;
  dropped : Z;
  sink_panics : Z;
  latency_total : LatencyHistogram;
  latency_window : LatencyHistogram;
  normal_open : bool;
  error_open : bool;
  phase : DispatchPhase;
  delivered : list LogRecord
}.
#[export] Instance Logger_eta : Eta Logger := λ l,
  mkLogger (config l) (normal l) (errors l) (normal_sender l) (error_sender l) (dropped l)
    (sink_panics l) (latency_total l) (latency_window l) (normal_open l) (error_open l)
    (phase l) (delivered l).

Definition logger_new (c : LoggerConfig) : Result Logger :=
  if decide (normal_capacity c = 0 ∨ error_capacity c = 0) then
    fail ErrorCode.InvalidArgument "logger capacities must be positive"
  else
    Ok (mkLogger c [] [] true true 0 0 histogram_default histogram_default true true AtErrors []).

(** [AtomicU64::fetch_add]. *)
Definition fetch_add (n c : Z) : Z := wrapping_add 64 c n.

(** [SyncSender::try_send]; the dispatcher holds the receivers until it exits. *)
Definition try_send (sender : bool) (receiver : bool) (queue : list LogRecord) (cap : Z)
    (record : LogRecord) : option (list LogRecord) :=
  if sender && receiver && bool_decide (len queue < cap) then Some (queue ++ [record]) else None.

Definition log (l : Logger) (record : LogRecord) : bool * Logger :=
  let live := bool_decide (phase l ≠ Exited) in
  if decide (level record = LogLevel.Error) then
    match try_send (error_sender l) live (errors l) (error_capacity (config l)) record with
    | Some q => (true, l <| errors := q |>)
    | None => (false, l <| dropped ::= fetch_add 1 |>)
    end
  else
    match try_send (normal_sender l) live (normal l) (normal_capacity (config l)) record with
    | Some q => (true, l <| normal := q |>)
    | None => (false, l <| dropped ::= fetch_add 1 |>)
    end.

(** The two [take]s of [shutdown]; the join waits for [phase = Exited]. *)
Definition shutdown_normal (l : Logger) : Logger := l <| normal_sender := false |>.
Definition shutdown_errors (l : Logger) : Logger := l <| error_sender := false |>.

Section dispatch.
(** The sink: whether a call panics. *)
Context (sink : LogRecord → bool).

Definition deliver (l : Logger) (record : LogRecord) (elapsed : Duration) : Logger :=
  let l := l <| delivered ::= λ d, d ++ [record] |> in
  let l := if sink record then l <| sink_panics ::= fetch_add 1 |> else l in
  l <| latency_window ::= λ h, histogram_record h elapsed |>
    <| latency_total ::= λ h, histogram_record h elapsed |>.

(** One receive of the dispatcher: the loop test with [errors.try_recv()], or the
    second receive of the iteration.  An empty channel with a live sender gives
    nothing ([Empty], or a timeout of [recv_timeout]). *)
Definition dispatch (l : Logger) (elapsed : Duration) : Logger :=
  match phase l with
  | Exited => l
  | AtErrors =>
    if normal_open l || error_open l then
      match errors l with
      | record :: rest => deliver (l <| errors := rest |>) record elapsed <| phase := AtSecond |>
      | [] => (if error_sender l then l else l <| error_open := false |>) <| phase := AtSecond |>
      end
    else l <| phase := Exited |>
  | AtSecond =>
    (if normal_open l then
       match normal l with
       | record :: rest => deliver (l <| normal := rest |>) record elapsed
       | [] => if normal_sender l then l else l <| normal_open := false |>
       end
     else if error_open l then
       match errors l with
       | record :: rest => deliver (l <| errors := rest |>) record elapsed
       | [] => if error_sender l then l else l <| error_open := false |>
       end
     else l) <| phase := AtErrors |>
  end.

(** Interleavings of producers, dispatcher and shutdown. *)
Inductive logger_action :=
| ActLog (record : LogRecord)
| ActDispatch (elapsed : Duration)
| ActCloseNormal
| ActCloseErrors.

Definition logger_act (l : Logger) (a : logger_action) : option (LogRecord * bool) * Logger :=
  match a with
  | ActLog r => let '(ok, l) := log l r in (Some (r, ok), l)
  | ActDispatch e => (None, dispatch l e)
  | ActCloseNormal => (None, shutdown_normal l)
  | ActCloseErrors => (None, shutdown_errors l)
  end.

Fixpoint logger_run (l : Logger) (acts : list logger_action) : list (LogRecord * bool) * Logger :=
  match acts with
  | [] => ([], l)
  | a :: acts =>
    let '(o, l) := logger_act l a in
    let '(os, l) := logger_run l acts in
    (match o with Some x => x :: os | None => os end, l)
  end.

(** Records of one queue. *)
Definition is_error (r : LogRecord) : Prop := level r = LogLevel.Error.
#[local] Instance is_error_dec r : Decision (is_error r).
Proof. unfold is_error. apply _. Defined.
Definition accepted (os : list (LogRecord * bool)) : list LogRecord :=
  omap (λ '(r, ok), if ok : bool then Some r else None) os.
Definition rejected (os : list (LogRecord * bool)) : Z :=
  len (filter (λ x, x.2 = false) os).

Record logger_inv (l : Logger) (acc : list LogRecord) : Prop := {
  li_normal : filter (λ r, ¬ is_error r) acc = filter (λ r, ¬ is_error r) (delivered l) ++ normal l;
  li_errors : filter is_error acc = filter is_error (delivered l) ++ errors l;
  li_normal_kind : Forall (λ r, ¬ is_error r) (normal l);
  li_error_kind : Forall is_error (errors l);
  li_normal_cap : len (normal l) ≤ normal_capacity (config l);
  li_error_cap : len (errors l) ≤ error_capacity (config l);
  li_normal_closed : normal_open l = false → normal_sender l = false ∧ normal l = [];
  li_error_closed : error_open l = false → error_sender l = false ∧ errors l = [];
  li_exited : phase l = Exited → normal_open l = false ∧ error_open l = false
}.

Lemma deliver_frame l r e :
  let l' := deliver l r e in
  delivered l' = delivered l ++ [r] ∧ normal l' = normal l ∧ errors l' = errors l ∧
  config l' = config l ∧ normal_sender l' = normal_sender l ∧ error_sender l' = error_sender l ∧
  normal_open l' = normal_open l ∧ error_open l' = error_open l ∧ dropped l' = dropped l.
Proof. unfold deliver. by destruct (sink r). Qed.

(** Taking the head of a queue and handing it to the sink. *)
Lemma inv_deliver_error l acc r rest e p :
  logger_inv l acc → errors l = r :: rest → p ≠ Exited →
  logger_inv (deliver (l <| errors := rest |>) r e <| phase := p |>) acc.
Proof.
  intros [Hn He Hnk Hek Hnc Hec Hno Heo Hx] Er Hp.
  destruct (deliver_frame (l <| errors := rest |>) r e) as (D & N & E & C & NS & ES & NO & EO & _).
  generalize dependent (deliver (l <| errors := rest |>) r e). intros d D N E C NS ES NO EO.
  rewrite Er in *. apply Forall_cons in Hek as [Hr Hek]. rewrite len_cons in Hec.
  cbn in D, N, E, C, NS, ES, NO, EO.
  split; cbn; rewrite ?D, ?N, ?E, ?C, ?NS, ?ES, ?NO, ?EO, ?filter_app; try done.
  - rewrite Hn, (filter_cons_False (λ r, ¬ is_error r) r) by tauto. by rewrite filter_nil, app_nil_r.
  - rewrite He. rewrite (filter_cons_True is_error r) by done. by rewrite filter_nil, <- app_assoc.
  - lia.
  - intros [_ ?]%Heo. done.
Qed.

Lemma inv_deliver_normal l acc r rest e p :
  logger_inv l acc → normal l = r :: rest → p ≠ Exited →
  logger_inv (deliver (l <| normal := rest |>) r e <| phase := p |>) acc.
Proof.
  intros [Hn He Hnk Hek Hnc Hec Hno Heo Hx] Er Hp.
  destruct (deliver_frame (l <| normal := rest |>) r e) as (D & N & E & C & NS & ES & NO & EO & _).
  generalize dependent (deliver (l <| normal := rest |>) r e). intros d D N E C NS ES NO EO.
  rewrite Er in *. apply Forall_cons in Hnk as [Hr Hnk]. rewrite len_cons in Hnc.
  cbn in D, N, E, C, NS, ES, NO, EO.
  split; cbn; rewrite ?D, ?N, ?E, ?C, ?NS, ?ES, ?NO, ?EO, ?filter_app; try done.
  - rewrite Hn. rewrite (filter_cons_True (λ r, ¬ is_error r) r) by done. by rewrite filter_nil, <- app_assoc.
  - rewrite He, (filter_cons_False is_error r) by done. by rewrite filter_nil, app_nil_r.
  - lia.
  - intros [_ ?]%Hno. done.
Qed.

Lemma dispatch_inv l acc e : logger_inv l acc → logger_inv (dispatch l e) acc.
Proof.
  intros I. pose proof I as [Hn He Hnk Hek Hnc Hec Hno Heo Hx]. unfold dispatch.
  destruct (phase l) eqn:Ep; [..|done].
  - destruct (normal_open l || error_open l) eqn:Eo.
    + destruct (errors l) as [|r rest] eqn:Er; [|by apply inv_deliver_error].
      destruct (error_sender l) eqn:Es; split; cbn; rewrite ?Er, ?Es; done.
    + apply orb_false_iff in Eo as []. split; cbn; done.
  - destruct (normal_open l) eqn:Eno.
    { destruct (normal l) as [|r rest] eqn:Er; [|by apply inv_deliver_normal].
      destruct (normal_sender l) eqn:Es; split; cbn; rewrite ?Er, ?Es, ?Eno; done. }
    destruct (error_open l) eqn:Eeo; [|split; cbn; rewrite ?Eno, ?Eeo; done].
    destruct (errors l) as [|r rest] eqn:Er; [|by apply inv_deliver_error].
    destruct (error_sender l) eqn:Es; split; cbn; rewrite ?Er, ?Es, ?Eno, ?Eeo; done.
Qed.

Lemma log_inv l acc r ok l' :
  logger_inv l acc → log l r = (ok, l') → logger_inv l' (if ok : bool then acc ++ [r] else acc).
Proof.
  intros I. pose proof I as [Hn He Hnk Hek Hnc Hec Hno Heo Hx]. unfold log, try_send.
  case_decide as Hr.
  - destruct (error_sender l && _ && _) eqn:E; intros [= <- <-]; [|by split].
    apply andb_true_iff in E as [[Es Ep]%andb_true_iff E]. rewrite bool_decide_eq_true in E, Ep.
    split; cbn; try done; rewrite ?filter_app.
    + rewrite (filter_cons_False (λ r, ¬ is_error r) r) by (intros []; done).
      by rewrite filter_nil, app_nil_r.
    + rewrite (filter_cons_True is_error r) by done. by rewrite filter_nil, He, app_assoc.
    + apply Forall_app_2; [done|]. by repeat constructor.
    + rewrite len_app, len_cons, len_nil. lia.
    + intros [? _]%Heo. congruence.
  - destruct (normal_sender l && _ && _) eqn:E; intros [= <- <-]; [|by split].
    apply andb_true_iff in E as [[Es Ep]%andb_true_iff E]. rewrite bool_decide_eq_true in E, Ep.
    split; cbn; try done; rewrite ?filter_app.
    + rewrite (filter_cons_True (λ r, ¬ is_error r) r) by done. by rewrite filter_nil, Hn, app_assoc.
    + rewrite (filter_cons_False is_error r) by done. by rewrite filter_nil, app_nil_r.
    + apply Forall_app_2; [done|]. by repeat constructor.
    + rewrite len_app, len_cons, len_nil. lia.
    + intros [? _]%Hno. congruence.
Qed.

Lemma accepted_cons r ok os :
  accepted ((r, ok) :: os) = (if ok : bool then [r] else []) ++ accepted os.
Proof. by destruct ok. Qed.

Lemma logger_run_inv acts : ∀ l acc,
  logger_inv l acc → logger_inv (logger_run l acts).2 (acc ++ accepted (logger_run l acts).1).
Proof.
  induction acts as [|a acts IH]; intros l acc I; [by rewrite app_nil_r|].
  cbn [logger_run]. destruct a as [r|e| |]; cbn [logger_act].
  - destruct (log l r) as [ok l'] eqn:El. apply (log_inv _ _ _ _ _ I) in El as I'.
    specialize (IH _ _ I'). destruct (logger_run l' acts) as [os l'']. cbn [fst snd] in *.
    rewrite accepted_cons. destruct ok; [by rewrite app_assoc|done].
  - specialize (IH _ _ (dispatch_inv l acc e I)). by destruct (logger_run (dispatch l e) acts).
  - assert (logger_inv (shutdown_normal l) acc) as I' by (destruct I; split; cbn; naive_solver).
    specialize (IH _ _ I'). by destruct (logger_run (shutdown_normal l) acts).
  - assert (logger_inv (shutdown_errors l) acc) as I' by (destruct I; split; cbn; naive_solver).
    specialize (IH _ _ I'). by destruct (logger_run (shutdown_errors l) acts).
Qed.

(** *** The dispatcher stops after shutdown *)

(** Work left: queued records and channels not yet seen closed. *)
Definition remaining (l : Logger) : nat :=
  length (normal l) + length (errors l) + Nat.b2n (normal_open l) + Nat.b2n (error_open l).

Definition closed (l : Logger) : Prop := normal_sender l = false ∧ error_sender l = false.

Lemma deliver_remaining l r e :
  remaining (deliver l r e) = remaining l ∧ (closed l → closed (deliver l r e)).
Proof.
  destruct (deliver_frame l r e) as (_ & N & E & _ & NS & ES & NO & EO & _).
  unfold remaining, closed. by rewrite N, E, NS, ES, NO, EO.
Qed.

(** An iteration of the loop makes progress or finds both channels closed. *)
Lemma dispatch_errors l e :
  closed l → phase l = AtErrors →
  closed (dispatch l e) ∧
  (if normal_open l || error_open l then
     phase (dispatch l e) = AtSecond ∧ (remaining (dispatch l e) ≤ remaining l)%nat ∧
     (normal_open (dispatch l e) || error_open (dispatch l e) = false →
      remaining (dispatch l e) < remaining l)%nat
   else phase (dispatch l e) = Exited).
Proof.
  intros [Hn He] Hp. unfold dispatch. rewrite Hp.
  destruct (normal_open l || error_open l) eqn:Eo; [|done].
  destruct (errors l) as [|r rest] eqn:Er; rewrite ?He.
  - unfold remaining, closed. cbn. rewrite Er, Hn, He. split; [done|]. split; [done|].
    destruct (normal_open l), (error_open l); cbn in *; split; lia || done.
  - destruct (deliver_remaining (l <| errors := rest |>) r e) as [Hrem Hc].
    destruct (deliver_frame (l <| errors := rest |>) r e) as (_ & _ & _ & _ & _ & _ & NO & EO & _).
    generalize dependent (deliver (l <| errors := rest |>) r e). intros d Hrem Hc NO EO.
    unfold remaining, closed in *. cbn in *. rewrite Er, NO, EO in *. cbn [length] in *.
    split; [by apply Hc|]. split; [done|]. split; lia.
Qed.

Lemma dispatch_second l e :
  closed l → phase l = AtSecond →
  closed (dispatch l e) ∧ phase (dispatch l e) = AtErrors ∧
  (remaining (dispatch l e) ≤ remaining l)%nat ∧
  (normal_open l || error_open l = true → remaining (dispatch l e) < remaining l)%nat.
Proof.
  intros [Hn He] Hp. unfold dispatch. rewrite Hp.
  destruct (normal_open l) eqn:Eno; [|destruct (error_open l) eqn:Eeo].
  - destruct (normal l) as [|r rest] eqn:Er; rewrite ?Hn.
    + unfold remaining, closed. cbn. rewrite Er, Hn, He, Eno. cbn. split_and!; done || lia.
    + destruct (deliver_remaining (l <| normal := rest |>) r e) as [Hrem Hc].
      generalize dependent (deliver (l <| normal := rest |>) r e). intros d Hrem Hc.
      unfold remaining, closed in *. cbn in *. rewrite Er in *. cbn [length] in *.
      split; [by apply Hc|]. split_and!; done || lia.
  - destruct (errors l) as [|r rest] eqn:Er; rewrite ?He.
    + unfold remaining, closed. cbn. rewrite Er, Hn, He, Eeo. cbn. split_and!; done || lia.
    + destruct (deliver_remaining (l <| errors := rest |>) r e) as [Hrem Hc].
      generalize dependent (deliver (l <| errors := rest |>) r e). intros d Hrem Hc.
      unfold remaining, closed in *. cbn in *. rewrite Er in *. cbn [length] in *.
      split; [by apply Hc|]. split_and!; done || lia.
  - unfold remaining, closed. cbn. split_and!; done || lia.
Qed.

Lemma foldl_exited es l : phase l = Exited → foldl dispatch l es = l.
Proof.
  revert l. induction es as [|e es IH]; intros l Hp; [done|]. cbn.
  assert (dispatch l e = l) as -> by (unfold dispatch; by rewrite Hp). auto.
Qed.

Lemma dispatch_exits k : ∀ l es,
  closed l → phase l = AtErrors → (remaining l ≤ k)%nat → (2 * k + 1 ≤ length es)%nat →
  phase (foldl dispatch l es) = Exited.
Proof.
  induction k as [|k IH]; intros l es Hc Hp Hr Hl;
    (destruct es as [|e es]; [cbn in Hl; lia|]); cbn [foldl length] in *;
    destruct (dispatch_errors l e Hc Hp) as [Hc1 H1].
  - assert (normal_open l || error_open l = false) as E.
    { unfold remaining in Hr. destruct (normal_open l), (error_open l); cbn in Hr; lia || done. }
    rewrite E in H1. by rewrite foldl_exited.
  - destruct (normal_open l || error_open l); [|by rewrite foldl_exited].
    destruct H1 as (Hp1 & Hr1 & Hz). destruct es as [|e' es]; [cbn in Hl; lia|]. cbn [foldl length] in *.
    destruct (dispatch_second _ e' Hc1 Hp1) as (Hc2 & Hp2 & Hr2 & Hz2). apply IH; [done..| |lia].
    destruct (normal_open (dispatch l e) || error_open (dispatch l e)); [specialize (Hz2 eq_refl)|specialize (Hz eq_refl)]; lia.
Qed.

Lemma shutdown_drains l es :
  closed l → (2 * remaining l + 2 ≤ length es)%nat → phase (foldl dispatch l es) = Exited.
Proof.
  intros Hc Hl. destruct (phase l) eqn:Hp.
  - apply (dispatch_exits (remaining l)); done || lia.
  - destruct es as [|e es]; [cbn in Hl; lia|]. cbn [foldl length] in *.
    destruct (dispatch_second l e Hc Hp) as (Hc' & Hp' & Hr' & _).
    apply (dispatch_exits (remaining l)); done || lia.
  - by rewrite foldl_exited.
Qed.

Lemma foldl_dispatch_inv es l acc : logger_inv l acc → logger_inv (foldl dispatch l es) acc.
Proof. revert l. induction es; cbn; auto using dispatch_inv. Qed.

Lemma dispatch_dropped l e : dropped (dispatch l e) = dropped l.
Proof. unfold dispatch, deliver. repeat (case_match; try done). Qed.

Lemma logger_run_dropped acts : ∀ l,
  in_u64 (dropped l) →
  dropped (logger_run l acts).2 = (dropped l + rejected (logger_run l acts).1) mod 2 ^ 64.
Proof.
  induction acts as [|a acts IH]; intros l Hd.
  { cbn. unfold rejected. cbn. rewrite len_nil, Z.add_0_r, Z.mod_small; [done|zlia]. }
  cbn [logger_run]. destruct a as [r|e| |]; cbn [logger_act].
  - assert (∃ ok, (log l r).1 = ok ∧ in_u64 (dropped (log l r).2) ∧
      dropped (log l r).2 = (dropped l + Z.b2z (negb ok)) mod 2 ^ 64) as (ok & Eok & Hu & E).
    { unfold log. assert (in_u64 (fetch_add 1 (dropped l))).
      { unfold fetch_add, wrapping_add. pose proof (Z.mod_pos_bound (dropped l + 1) (2 ^ 64)). zlia. }
      repeat case_match; eexists; cbn -[Z.pow]; (split; [done|]); (split; [done|]);
        rewrite ?Z.add_0_r, ?Z.mod_small by zlia; try done; zlia. }
    destruct (log l r) as [ok' l']. cbn [fst snd] in *. subst ok'. specialize (IH l' Hu).
    destruct (logger_run l' acts) as [os l'']. cbn [fst snd] in *. rewrite IH, E.
    unfold rejected. rewrite filter_cons. rewrite Zplus_mod_idemp_l. f_equal.
    destruct ok; cbn [negb Z.b2z]; [rewrite decide_False by done|rewrite decide_True by done;
      rewrite len_cons]; lia.
  - specialize (IH (dispatch l e)). rewrite dispatch_dropped in IH.
    destruct (logger_run (dispatch l e) acts). auto.
  - specialize (IH (shutdown_normal l)). destruct (logger_run (shutdown_normal l) acts). auto.
  - specialize (IH (shutdown_errors l)). destruct (logger_run (shutdown_errors l) acts). auto.
Qed.

(** The logger is bounded, keeps order within each severity class and loses
    nothing it accepted.  Under every interleaving of producers, dispatcher and
    shutdown, both queues stay within their capacities, the drop counter counts
    exactly the rejected records, and the accepted records of a class are the
    delivered ones followed by the queued ones.  Once both senders are gone the
    dispatcher exits within two receives per record or channel left, and by then
    every accepted record has been delivered exactly once. *)
Theorem logger_drains (c : LoggerConfig) (l0 : Logger) (acts : list logger_action) :
  0 ≤ normal_capacity c → 0 ≤ error_capacity c → logger_new c = Ok l0 →
  let '(os, l) := logger_run l0 acts in
  len (normal l) ≤ normal_capacity (config l) ∧ len (errors l) ≤ error_capacity (config l) ∧
  dropped l = rejected os mod 2 ^ 64 ∧
  filter (λ r, ¬ is_error r) (accepted os) = filter (λ r, ¬ is_error r) (delivered l) ++ normal l ∧
  filter is_error (accepted os) = filter is_error (delivered l) ++ errors l ∧
  (closed l → ∀ es, (2 * remaining l + 2 ≤ length es)%nat →
     let l' := foldl dispatch l es in
     phase l' = Exited ∧
     filter (λ r, ¬ is_error r) (delivered l') = filter (λ r, ¬ is_error r) (accepted os) ∧
     filter is_error (delivered l') = filter is_error (accepted os)).
Proof.
  intros Hn He Hnew. unfold logger_new in Hnew. case_decide; [done|].
  apply (inj Ok) in Hnew. subst l0.
  set (l0 := mkLogger c _ _ _ _ _ _ _ _ _ _ _ _).
  assert (logger_inv l0 []) as I0 by by split.
  pose proof (logger_run_inv acts l0 [] I0) as I. cbn [app] in I.
  pose proof (logger_run_dropped acts l0 ltac:(by vm_compute)) as Hd.
  destruct (logger_run l0 acts) as [os l]. cbn [fst snd] in *.
  pose proof I as [En Ee _ _ Cn Ce _ _ _]. split_and!; try done.
  intros Hc es Hl. pose proof (shutdown_drains l es Hc Hl) as Hx.
  pose proof (foldl_dispatch_inv es l _ I) as [En' Ee' _ _ _ _ Hno Heo Hex].
  destruct (Hex Hx) as [E1 E2]. destruct (Hno E1) as [_ E3]. destruct (Heo E2) as [_ E4].
  rewrite E3, app_nil_r in En'. rewrite E4, app_nil_r in Ee'. done.
Qed.

End dispatch.

Lemma logger_drains_witness :
  let r n lv := mkLogRecord n lv "event" "rnet" "text" 0 0 0 1 ErrorCode.Ok 0 in
  let '(os, l) := logger_run (λ _, false)
    (mkLogger (mkLoggerConfig 2 1) [] [] true true 0 0 histogram_default histogram_default
       true true AtErrors [])
    [ActLog (r 1 LogLevel.Info); ActLog (r 2 LogLevel.Error); ActLog (r 3 LogLevel.Error);
     ActDispatch 5; ActCloseNormal; ActCloseErrors] in
  dropped l = 1 ∧ phase (foldl (dispatch (λ _, false)) l (replicate 12 0)) = Exited.
Proof.
  intros r.
  pose proof (logger_drains (λ _, false) (mkLoggerConfig 2 1) _
    [ActLog (r 1 LogLevel.Info); ActLog (r 2 LogLevel.Error); ActLog (r 3 LogLevel.Error);
     ActDispatch 5; ActCloseNormal; ActCloseErrors]
    ltac:(done) ltac:(done) eq_refl) as H.
  destruct (logger_run _ _ _) as [os l] eqn:E. vm_compute in E.
  destruct H as (_ & _ & -> & _ & _ & Hx). simplify_eq. split; [done|].
  apply Hx; [done|]. cbn. lia.
Defined.
