(* ===== verification/GameWire.v ===== *)
(** * Game wire formats

    [envelope.rs] (the header in front of every game message), the codecs of
    [heartbeat.rs] and [clock_sync.rs], and the join request with its version
    selection ([join.rs], [GameProtocol] of [config.rs]). *)

From S2P Require Import Prelude Bytes CoreTypes Wire.

Definition game_protocol_error {A} (m : string) : Result A := fail ErrorCode.ProtocolError m.

(** Resolves the first guard of the goal when its condition is decided by
    computation or arithmetic. *)
Ltac decided :=
  match goal with
  | |- context [decide ?P] =>
    first [ rewrite (decide_True (P := P)) by first [by vm_compute | lia]
          | rewrite (decide_False (P := P)) by first [by vm_compute | lia] ]
  end.

(** ** Envelope *)

Module Envelope.

Definition HEADER_LEN : Z := 12.
Definition APPLICATION : Z := 0.
Definition HEARTBEAT : Z := 1.
Definition CLOCK_SYNC : Z := 2.
Definition RESUME : Z := 3.
Definition PROTOCOL : Z := 4.
Definition HAS_SEQUENCE : Z := Z.shiftl 1 0.
Definition HAS_TICK : Z := Z.shiftl 1 1.
Definition HAS_DATAGRAM_SEQUENCE : Z := Z.shiftl 1 2.
Definition SUPPORTED_FLAGS : Z :=
  Z.lor (Z.lor HAS_SEQUENCE HAS_TICK) HAS_DATAGRAM_SEQUENCE.

Inductive ControlKind := Heartbeat | ClockSync | Resume | Protocol.
#[global] Instance ControlKind_eq_dec : EqDecision ControlKind.
Proof. solve_decision. Defined.

Inductive DecodedEnvelope :=
| Application (sequence tick datagram_sequence : option Z) (payload : list byte)
| Control (kind : ControlKind) (payload : list byte).

(** The shared writer of [encode_application] and its siblings. *)
Definition encode (kind flags sequence tick : Z) (datagram_sequence : option Z)
    (payload : list byte) (maximum_len : Z) : Result (list byte) :=
  let header_len := HEADER_LEN + 4 * Z.b2z (bool_decide (is_Some datagram_sequence)) in
  encoded_len ← ok_or (checked_add usize_max header_len (len payload))
                  (mkRnetError ErrorCode.MessageTooLarge "game envelope length overflow");
  if decide (maximum_len < encoded_len) then
    fail ErrorCode.MessageTooLarge "game envelope exceeds the configured limit"
  else
    Ok ([of_u8 kind] ++ [of_u8 flags] ++ be_encode 2 header_len ++ be_encode 4 sequence ++
        be_encode 4 tick ++
        match datagram_sequence with Some d => be_encode 4 d | None => [] end ++ payload).

Definition encode_application (payload : list byte) (sequence tick : option Z)
    (maximum_len : Z) : Result (list byte) :=
  let flags := 0 in
  let flags := if decide (is_Some sequence) then Z.lor flags HAS_SEQUENCE else flags in
  let flags := if decide (is_Some tick) then Z.lor flags HAS_TICK else flags in
  encode APPLICATION flags (default 0 sequence) (default 0 tick) None payload maximum_len.

Definition encode_udp_application (payload : list byte) (sequence tick : option Z)
    (datagram_sequence maximum_len : Z) : Result (list byte) :=
  let flags := HAS_DATAGRAM_SEQUENCE in
  let flags := if decide (is_Some sequence) then Z.lor flags HAS_SEQUENCE else flags in
  let flags := if decide (is_Some tick) then Z.lor flags HAS_TICK else flags in
  encode APPLICATION flags (default 0 sequence) (default 0 tick) (Some datagram_sequence)
    payload maximum_len.

Definition wire_kind (kind : ControlKind) : Z :=
  match kind with
  | Heartbeat => HEARTBEAT
  | ClockSync => CLOCK_SYNC
  | Resume => RESUME
  | Protocol => PROTOCOL
  end.

Definition encode_control (kind : ControlKind) (payload : list byte) (maximum_len : Z) :
    Result (list byte) :=
  encode (wire_kind kind) 0 0 0 None payload maximum_len.

(** The [match kind] at the end of [decode]. *)
Definition control_kind_of (kind : Z) : Result ControlKind :=
  if decide (kind = HEARTBEAT) then Ok Heartbeat
  else if decide (kind = CLOCK_SYNC) then Ok ClockSync
  else if decide (kind = RESUME) then Ok Resume
  else if decide (kind = PROTOCOL) then Ok Protocol
  else game_protocol_error "game envelope kind is unsupported".

Definition decode (input : list byte) (maximum_len : Z) : Result DecodedEnvelope :=
  if decide (maximum_len < len input) then
    fail ErrorCode.MessageTooLarge "game envelope exceeds the configured limit" else
  if decide (len input < HEADER_LEN) then
    game_protocol_error "game envelope header is truncated" else
  let kind := byte_at 0 input in
  let flags := byte_at 1 input in
  if decide (Z.land flags (Z.lxor u8_max SUPPORTED_FLAGS) ≠ 0) then
    game_protocol_error "game envelope contains unsupported flags" else
  let header_len := be_decode (slice 2 4 input) in
  let expected_header_len :=
    if decide (Z.land flags HAS_DATAGRAM_SEQUENCE ≠ 0) then HEADER_LEN + 4 else HEADER_LEN in
  if decide (header_len ≠ expected_header_len ∨ len input < header_len) then
    game_protocol_error "game envelope header length is invalid" else
  let sequence := be_decode (slice 4 8 input) in
  let tick := be_decode (slice 8 12 input) in
  datagram_sequence ←
    (if decide (Z.land flags HAS_DATAGRAM_SEQUENCE ≠ 0) then
       if decide (kind ≠ APPLICATION) then
         game_protocol_error "UDP sequence extension is invalid"
       else Ok (Some (be_decode (slice 12 16 input)))
     else Ok None);
  let payload := drop (Z.to_nat header_len) input in
  if decide (kind = APPLICATION) then
    if decide (Z.land flags HAS_SEQUENCE = 0 ∧ sequence ≠ 0) then
      game_protocol_error "game sequence is set without its flag" else
    if decide (Z.land flags HAS_TICK = 0 ∧ tick ≠ 0) then
      game_protocol_error "game tick is set without its flag" else
    Ok (Application
          (if decide (Z.land flags HAS_SEQUENCE ≠ 0) then Some sequence else None)
          (if decide (Z.land flags HAS_TICK ≠ 0) then Some tick else None)
          datagram_sequence payload)
  else if decide (flags ≠ 0 ∨ sequence ≠ 0 ∨ tick ≠ 0) then
    game_protocol_error "game control contains application-only metadata"
  else
    kind ← control_kind_of kind;
    Ok (Control kind payload).

(** The encoder that produces each shape of envelope. *)
Definition encode_envelope (e : DecodedEnvelope) (maximum_len : Z) : Result (list byte) :=
  match e with
  | Application s t None p => encode_application p s t maximum_len
  | Application s t (Some d) p => encode_udp_application p s t d maximum_len
  | Control k p => encode_control k p maximum_len
  end.

Definition opt_u32 (o : option Z) : Prop :=
  match o with Some z => in_u32 z | None => True end.

Definition envelope_wf (e : DecodedEnvelope) : Prop :=
  match e with
  | Application s t d _ => opt_u32 s ∧ opt_u32 t ∧ opt_u32 d
  | Control _ _ => True
  end.

(** *** The flag byte is three booleans *)

Definition flags_of (fs ft fd : bool) : Z :=
  Z.b2z fs + 2 * Z.b2z ft + 4 * Z.b2z fd.

Lemma flags_cases z :
  in_u8 z → Z.land z (Z.lxor u8_max SUPPORTED_FLAGS) = 0 → ∃ fs ft fd, z = flags_of fs ft fd.
Proof.
  intros Hz H. exists (Z.testbit z 0), (Z.testbit z 1), (Z.testbit z 2).
  assert (z / 8 = 0) as Hd.
  { change 8 with (2 ^ 3). rewrite <- (Z.shiftr_div_pow2 z 3) by lia.
    assert (Z.shiftr z 3 = Z.shiftr (Z.land z (Z.lxor u8_max SUPPORTED_FLAGS)) 3) as ->.
    { rewrite Z.shiftr_land. change (Z.shiftr (Z.lxor _ _) 3) with (Z.ones 5).
      rewrite Z.land_ones, Z.mod_small by lia || (rewrite Z.shiftr_div_pow2 by lia; unfold_ints;
        split; [apply Z.div_pos; lia|apply Z.div_lt_upper_bound; lia]). done. }
    by rewrite H. }
  assert (0 ≤ z < 8) as Hr by (unfold_ints; pose proof (Z.div_mod z 8); pose proof (Z.mod_pos_bound z 8); lia).
  assert (z = 0 ∨ z = 1 ∨ z = 2 ∨ z = 3 ∨ z = 4 ∨ z = 5 ∨ z = 6 ∨ z = 7) as Hc by lia.
  destruct_or! Hc; by subst.
Qed.

Lemma flags_supported fs ft fd :
  Z.land (flags_of fs ft fd) (Z.lxor u8_max SUPPORTED_FLAGS) = 0.
Proof. by destruct fs, ft, fd. Qed.

Lemma flags_u8 fs ft fd : in_u8 (flags_of fs ft fd).
Proof. destruct fs, ft, fd; by vm_compute. Qed.

Lemma flag_sequence fs ft fd : Z.land (flags_of fs ft fd) HAS_SEQUENCE ≠ 0 ↔ fs = true.
Proof. by destruct fs, ft, fd. Qed.
Lemma flag_tick fs ft fd : Z.land (flags_of fs ft fd) HAS_TICK ≠ 0 ↔ ft = true.
Proof. by destruct fs, ft, fd. Qed.
Lemma flag_datagram fs ft fd : Z.land (flags_of fs ft fd) HAS_DATAGRAM_SEQUENCE ≠ 0 ↔ fd = true.
Proof. by destruct fs, ft, fd. Qed.

(** *** Encoders and decoder against the byte layout *)

Definition envelope_kind (e : DecodedEnvelope) : Z :=
  match e with Application _ _ _ _ => APPLICATION | Control k _ => wire_kind k end.
Definition envelope_meta (e : DecodedEnvelope) : option Z * option Z * option Z :=
  match e with Application s t d _ => (s, t, d) | Control _ _ => (None, None, None) end.
Definition envelope_payload (e : DecodedEnvelope) : list byte :=
  match e with Application _ _ _ p => p | Control _ p => p end.
Definition has {A} (o : option A) : bool := match o with Some _ => true | None => false end.

Lemma has_bool {A} (o : option A) : bool_decide (is_Some o) = has o.
Proof. by destruct o. Qed.
Lemma has_if {A B} (o : option A) (x y : B) :
  (if decide (is_Some o) then x else y) = if has o then x else y.
Proof. by destruct o. Qed.

(** The layout: kind, flags, header length, sequence, tick, optional datagram
    sequence, payload. *)
Definition envelope_bytes (e : DecodedEnvelope) : list byte :=
  let '(s, t, d) := envelope_meta e in
  [of_u8 (envelope_kind e)] ++ [of_u8 (flags_of (has s) (has t) (has d))] ++
  be_encode 2 (if has d then 16 else 12) ++ be_encode 4 (default 0 s) ++
  be_encode 4 (default 0 t) ++ match d with Some d => be_encode 4 d | None => [] end ++
  envelope_payload e.

Lemma len_envelope_bytes e :
  len (envelope_bytes e) =
  HEADER_LEN + 4 * Z.b2z (has (envelope_meta e).2) + len (envelope_payload e).
Proof.
  unfold envelope_bytes, HEADER_LEN. destruct (envelope_meta e) as [[s t] [d|]];
    autorewrite with rnet; cbn [has Z.b2z snd]; lia.
Qed.

Lemma encode_envelope_Ok e max w :
  encode_envelope e max = Ok w ↔
  len w ≤ usize_max ∧ len w ≤ max ∧ w = envelope_bytes e.
Proof.
  assert (encode_envelope e max =
    if decide (len (envelope_bytes e) ≤ usize_max) then
      if decide (max < len (envelope_bytes e)) then
        fail ErrorCode.MessageTooLarge "game envelope exceeds the configured limit"
      else Ok (envelope_bytes e)
    else fail ErrorCode.MessageTooLarge "game envelope length overflow") as ->.
  { rewrite len_envelope_bytes.
    destruct e as [[s|] [t|] [d|] p|k p]; cbn [encode_envelope];
      unfold encode_application, encode_udp_application, encode_control, encode, checked_add;
      rewrite ?has_bool, ?has_if; cbn [envelope_meta envelope_payload has Z.b2z snd];
      repeat (case_decide; cbn [ok_or mbind result_bind]); done || lia. }
  repeat case_decide; naive_solver lia.
Qed.

Lemma wire_kind_inv z k : control_kind_of z = Ok k ↔ z = wire_kind k.
Proof. unfold control_kind_of. repeat case_decide; destruct k; naive_solver. Qed.

Lemma decode_envelope_bytes e max :
  envelope_wf e → len (envelope_bytes e) ≤ max → decode (envelope_bytes e) max = Ok e.
Proof.
  intros Hwf Hmax. unfold decode. rewrite decide_False by lia.
  pose proof (len_nonneg (envelope_payload e)).
  rewrite len_envelope_bytes in *. unfold HEADER_LEN in *.
  rewrite decide_False by (destruct (has _); cbn [Z.b2z] in *; lia).
  destruct e as [s t d p|k p]; unfold envelope_bytes; cbn [envelope_meta envelope_kind envelope_payload] in *.
  - destruct Hwf as (Hs & Ht & Hd). read_fields. rewrite !to_of_u8 by (apply flags_u8 || by vm_compute).
    rewrite flags_supported. rewrite decide_False by naive_solver.
    rewrite be_u16 by (destruct (has d); by vm_compute).
    rewrite !be_u32 by (destruct s, t; by first [done | vm_compute]).
    destruct s as [s|], t as [t|], d as [d|]; cbn [has snd Z.b2z default] in *;
      repeat (decided; cbn [mbind result_bind]);
      change (Z.to_nat 16) with 16%nat; change (Z.to_nat 12) with 12%nat;
      read_fields; rewrite ?be_u32 by done; done.
  - read_fields. rewrite !to_of_u8 by (destruct k; by vm_compute).
    rewrite be_u16, !be_u32 by by vm_compute. cbn [has default Z.b2z snd] in *.
    change (flags_of false false false) with 0. rewrite !Z.land_0_l.
    repeat (decided; cbn [mbind result_bind]).
    rewrite (decide_False (P := wire_kind k = APPLICATION)) by by destruct k.
    rewrite (proj2 (wire_kind_inv _ k)) by done. change (Z.to_nat 12) with 12%nat.
    by read_fields.
Qed.

(** A field that is zero unless its flag is set. *)
Lemma flagged_field (f : bool) l :
  length l = 4%nat → (f = false → be_decode l = 0) →
  l = be_encode 4 (default 0 (if f then Some (be_decode l) else None)).
Proof.
  intros Hl H. destruct f; cbn; [|rewrite <- H by done]; by rewrite be_encode_decode.
Qed.

Lemma has_flag {A} (f : bool) (x : A) : has (if f then Some x else None) = f.
Proof. by destruct f. Qed.

Lemma flag_if {A} f fs ft fd (g : bool) (x y : A) :
  (Z.land (flags_of fs ft fd) f ≠ 0 ↔ g = true) →
  (if decide (Z.land (flags_of fs ft fd) f ≠ 0) then x else y) = if g then x else y.
Proof. intros H. case_decide as Hd; destruct g; naive_solver. Qed.

Lemma unflagged (a n : Z) (g : bool) :
  (a ≠ 0 ↔ g = true) → ¬ (a = 0 ∧ n ≠ 0) → g = false → n = 0.
Proof.
  intros Hg Hn ->. destruct (decide (n = 0)); [done|]. destruct Hn. split; [|done].
  destruct (decide (a = 0)) as [|Ha]; [done|]. by apply Hg in Ha.
Qed.

Lemma application_layout (fs ft : bool) s t d p :
  length s = 4%nat → length t = 4%nat →
  (fs = false → be_decode s = 0) → (ft = false → be_decode t = 0) →
  envelope_bytes (Application (if fs then Some (be_decode s) else None)
                    (if ft then Some (be_decode t) else None) d p) =
  of_u8 APPLICATION :: of_u8 (flags_of fs ft (has d)) ::
  be_encode 2 (if has d then 16 else 12) ++ s ++ t ++
  match d with Some d => be_encode 4 d | None => [] end ++ p.
Proof.
  intros Ls Lt Hs Ht. unfold envelope_bytes. cbn [envelope_meta envelope_kind envelope_payload].
  by rewrite !has_flag, <- !flagged_field.
Qed.

Lemma application_wf (fs ft : bool) s t d p :
  length s = 4%nat → length t = 4%nat → opt_u32 d →
  envelope_wf (Application (if fs then Some (be_decode s) else None)
                 (if ft then Some (be_decode t) else None) d p).
Proof. intros Ls Lt Hd. destruct fs, ft; cbn; auto with rnet. Qed.

Lemma decode_Ok w max e :
  decode w max = Ok e ↔ envelope_wf e ∧ len w ≤ max ∧ w = envelope_bytes e.
Proof.
  split; [|intros (? & ? & ->); by apply decode_envelope_bytes].
  unfold decode. case_decide; [done|]. case_decide as Hl; [done|].
  assert (12 ≤ length w)%nat by (unfold len, HEADER_LEN in *; lia).
  cut_field 1%nat w k. cut_field 1%nat w f. destruct k as [|k []]; try done.
  destruct f as [|f []]; try done.
  cut_field 2%nat w hl. cut_field 4%nat w s. cut_field 4%nat w t. read_fields.
  case_decide as Hf; [done|]. destruct (flags_cases (to_u8 f)) as (fs & ft & fd & Ef);
    [apply to_u8_range|lia|].
  apply (f_equal of_u8) in Ef as Ef'. rewrite of_to_u8 in Ef'. subst f.
  rewrite Ef in *. clear Ef Hf Hl.
  pose proof (be_u32_range s ltac:(done)) as Rs. pose proof (be_u32_range t ltac:(done)) as Rt.
  rewrite !(flag_if _ _ _ _ _ _ _ (flag_datagram fs ft fd)).
  case_decide as Hh; [done|]. apply Decidable.not_or in Hh as [Hh Hh2].
  apply dec_stable in Hh. rewrite Hh in *.
  assert (hl = be_encode 2 (if fd then 16 else 12)) as ->.
  { rewrite <- (be_encode_decode 2 hl), Hh by done. by destruct fd. }
  destruct (decide (to_u8 k = APPLICATION)) as [Hk|Hk].
  - assert (k = of_u8 APPLICATION) as -> by by rewrite <- Hk, of_to_u8.
    rewrite (decide_False (P := to_u8 _ ≠ APPLICATION)) by tauto.
    rewrite !(flag_if _ _ _ _ _ _ _ (flag_sequence fs ft fd)),
      !(flag_if _ _ _ _ _ _ _ (flag_tick fs ft fd)).
    destruct fd; cbn [mbind result_bind]; (case_decide as Es; [done|]);
      (case_decide as Et; [done|]); intros He; apply (inj Ok) in He as <-.
    + assert (4 ≤ length w)%nat
        by (unfold HEADER_LEN in Hh2; autorewrite with rnet in Hh2; unfold len in Hh2; lia).
      cut_field 4%nat w d. change (Z.to_nat (HEADER_LEN + 4)) with 16%nat. read_fields.
      rewrite application_layout by eauto using unflagged, flag_sequence, flag_tick.
      cbn [has]. rewrite be_encode_decode by done.
      split_and!; [|by apply Z.nlt_ge|done]. apply application_wf; cbn; auto with rnet.
    + change (Z.to_nat HEADER_LEN) with 12%nat. read_fields.
      rewrite application_layout by eauto using unflagged, flag_sequence, flag_tick.
      split_and!; [by apply application_wf|by apply Z.nlt_ge|done].
  - destruct fd.
    { by rewrite (decide_True (P := to_u8 k ≠ APPLICATION)). }
    cbn [mbind result_bind]. case_decide as Hz; [done|].
    destruct (control_kind_of _) as [k'|] eqn:Ek; [|done]. apply wire_kind_inv in Ek.
    cbn [mbind result_bind]. intros He; apply (inj Ok) in He as <-.
    change (Z.to_nat HEADER_LEN) with 12%nat. read_fields.
    assert (fs = false ∧ ft = false) as [-> ->] by (destruct fs, ft; done || (destruct Hz; by left)).
    apply (f_equal of_u8) in Ek. rewrite of_to_u8 in Ek. subst k.
    assert (s = be_encode 4 0) as -> by (apply be_decode_eq; done || lia).
    assert (t = be_encode 4 0) as -> by (apply be_decode_eq; done || lia).
    split_and!; [done|by apply Z.nlt_ge|done].
Qed.

End Envelope.

(** ** Heartbeat controls *)

Module HeartbeatWire.

Definition HEARTBEAT_LEN : nat := 9.

Inductive HeartbeatKind := Probe | Ack.
#[global] Instance HeartbeatKind_eq_dec : EqDecision HeartbeatKind.
Proof. solve_decision. Defined.

Record HeartbeatPacket := mkHeartbeatPacket { kind : HeartbeatKind; challenge : Z }.

Definition heartbeat_payload (packet : HeartbeatPacket) : list byte :=
  [of_u8 (match kind packet with Probe => 1 | Ack => 2 end)] ++ be_encode 8 (challenge packet).

Definition encode_heartbeat (packet : HeartbeatPacket) (maximum_len : Z) : Result (list byte) :=
  Envelope.encode_control Envelope.Heartbeat (heartbeat_payload packet) maximum_len.

Definition decode_heartbeat (payload : list byte) : Result HeartbeatPacket :=
  if decide (length payload ≠ HEARTBEAT_LEN) then
    game_protocol_error "invalid heartbeat length" else
  kind ← match byte_at 0 payload with
         | 1 => Ok Probe
         | 2 => Ok Ack
         | _ => game_protocol_error "invalid heartbeat operation"
         end;
  Ok (mkHeartbeatPacket kind (be_decode (drop 1 payload))).

Lemma decode_heartbeat_Ok w p :
  decode_heartbeat w = Ok p ↔ in_u64 (challenge p) ∧ w = heartbeat_payload p.
Proof.
  unfold decode_heartbeat, heartbeat_payload, HEARTBEAT_LEN. split.
  - case_decide; [done|]. destruct w as [|b w]; [done|].
    assert (length w = 8%nat) as Hl by (cbn in *; lia). read_fields.
    destruct (match to_u8 b with 1 => _ | 2 => _ | _ => _ end) as [k|] eqn:Hk; [|done].
    cbn [mbind result_bind]. intros He. apply (inj Ok) in He as <-. cbn [kind challenge].
    rewrite be_encode_decode by done. split; [auto with rnet|]. f_equal.
    rewrite <- (of_to_u8 b). repeat case_match; by simplify_eq.
  - intros [Hc ->]. rewrite decide_False by lens. read_fields. rewrite be_u64 by done.
    destruct p as [[] c]; rewrite to_of_u8 by (by vm_compute); done.
Qed.

End HeartbeatWire.

(** ** Clock controls *)

Module ClockWire.

Definition PROBE : Z := 1.
Definition REPLY : Z := 2.
Definition PROBE_LEN : nat := 17.
Definition REPLY_LEN : nat := 33.

Inductive ClockPacket :=
| Probe (nonce t1_us : Z)
| Reply (nonce t1_us t2_us t3_us : Z).

(** [&body[..len]]: the part of the 33-byte scratch buffer that is filled. *)
Definition clock_payload (packet : ClockPacket) : list byte :=
  match packet with
  | Probe nonce t1 => [of_u8 PROBE] ++ be_encode 8 nonce ++ be_encode 8 t1
  | Reply nonce t1 t2 t3 =>
    [of_u8 REPLY] ++ be_encode 8 nonce ++ be_encode 8 t1 ++ be_encode 8 t2 ++ be_encode 8 t3
  end.

Definition encode_clock (packet : ClockPacket) (maximum_len : Z) : Result (list byte) :=
  Envelope.encode_control Envelope.ClockSync (clock_payload packet) maximum_len.

Definition word (payload : list byte) (start : nat) : Z :=
  be_decode (slice start (start + 8) payload).

Definition decode_clock (payload : list byte) : Result ClockPacket :=
  match head payload with
  | Some b =>
    if decide (to_u8 b = PROBE ∧ length payload = PROBE_LEN) then
      Ok (Probe (word payload 1) (word payload 9))
    else if decide (to_u8 b = REPLY ∧ length payload = REPLY_LEN) then
      Ok (Reply (word payload 1) (word payload 9) (word payload 17) (word payload 25))
    else game_protocol_error "invalid clock sync control"
  | None => game_protocol_error "invalid clock sync control"
  end.

Definition clock_wf (p : ClockPacket) : Prop :=
  match p with
  | Probe n t1 => in_u64 n ∧ in_u64 t1
  | Reply n t1 t2 t3 => in_u64 n ∧ in_u64 t1 ∧ in_u64 t2 ∧ in_u64 t3
  end.

Lemma slice_all (l : list byte) n : length l = n → slice 0 n l = l.
Proof. intros <-. unfold slice. rewrite drop_0, Nat.sub_0_r. by apply take_ge. Qed.

Lemma decode_clock_Ok w p : decode_clock w = Ok p ↔ clock_wf p ∧ w = clock_payload p.
Proof.
  unfold decode_clock, PROBE_LEN, REPLY_LEN, word. split.
  - destruct w as [|b w]; [done|]. cbn [head length Nat.add]. case_decide as H1.
    + destruct H1 as [Hb Hl]. rewrite <- (of_to_u8 b), Hb. cut_field 8%nat w n. read_fields.
      rewrite length_app in Hl. rewrite slice_all by lia. intros He. apply (inj Ok) in He as <-.
      cbn [clock_payload clock_wf]. rewrite !be_encode_decode by lia.
      split; [split; apply be_u64_range; lia|done].
    + case_decide as H2; [|done]. destruct H2 as [Hb Hl]. rewrite <- (of_to_u8 b), Hb.
      cut_field 8%nat w n. cut_field 8%nat w t1. cut_field 8%nat w t2. read_fields.
      rewrite !length_app in Hl. rewrite slice_all by lia. intros He. apply (inj Ok) in He as <-.
      cbn [clock_payload clock_wf]. rewrite !be_encode_decode by lia.
      split; [split_and!; apply be_u64_range; lia|done].
  - intros [Hwf ->]. destruct p; cbn [clock_payload clock_wf head app] in *.
    + rewrite to_of_u8 by by vm_compute. rewrite decide_True by (split; [done|by lens]).
      cbn [Nat.add]. read_fields. rewrite slice_all by lens. rewrite !be_u64; naive_solver.
    + rewrite to_of_u8 by by vm_compute. rewrite decide_False by naive_solver.
      rewrite decide_True by (split; [done|by lens]).
      cbn [Nat.add]. read_fields. rewrite slice_all by lens. rewrite !be_u64; naive_solver.
Qed.

End ClockWire.

(** ** Join requests *)

(** [GameProtocol] of [config.rs]. *)
Record GameProtocol := mkGameProtocol {
  protocol_id : Z;
  min_version : Z;
  max_version : Z;
  build_id : Z;
  capabilities : Z
}.
#[export] Instance GameProtocol_eq_dec : EqDecision GameProtocol.
Proof. solve_decision. Defined.

Definition game_protocol_new (id lo hi : Z) : GameProtocol := mkGameProtocol id lo hi 0 0.

Definition protocol_is_valid (p : GameProtocol) : bool :=
  bool_decide (protocol_id p ≠ 0) && bool_decide (min_version p ≠ 0) &&
  bool_decide (min_version p ≤ max_version p).

Module Join.

Definition ascii_bytes (s : string) : list byte := String.list_byte_of_string s.
Definition RANGE_MAGIC : list byte := ascii_bytes "RGV4".
Definition RANGE_RESUME_MAGIC : list byte := ascii_bytes "RGR4".
Definition HEADER_LEN : Z := 54.
Definition RANGE_RESUME_HEADER_LEN : Z := 56.

Record RangeJoinRequest := mkRangeJoinRequest {
  protocol : GameProtocol;
  nonce : list byte;
  ticket : list byte;
  resume_ticket : option (list byte)
}.

Definition zero_nonce : list byte := replicate 16 (of_u8 0).

Definition select_version (client server : GameProtocol) : option Z :=
  if negb (protocol_is_valid client) || negb (protocol_is_valid server) ||
     bool_decide (protocol_id client ≠ protocol_id server) then None
  else
    let lower := min_version client `max` min_version server in
    let upper := max_version client `min` max_version server in
    if decide (lower ≤ upper) then Some upper else None.

Definition encode_range_inner (protocol : GameProtocol) (nonce ticket : list byte)
    (resume_ticket : option (list byte)) (maximum_len : Z) : Result (list byte) :=
  if negb (protocol_is_valid protocol) || bool_decide (nonce = zero_nonce) then
    fail ErrorCode.InvalidArgument "invalid game protocol range or negotiation nonce" else
  let header_len :=
    match resume_ticket with Some _ => RANGE_RESUME_HEADER_LEN | None => HEADER_LEN end in
  total ← ok_or
    (checked_add usize_max header_len (len ticket) ≫= λ n,
     checked_add usize_max n (match resume_ticket with Some r => len r | None => 0 end))
    (mkRnetError ErrorCode.MessageTooLarge "range join length overflow");
  if bool_decide (u16_max < len ticket) ||
     is_some_and resume_ticket (λ r, bool_decide (u16_max < len r)) ||
     bool_decide (maximum_len < total) then
    fail ErrorCode.MessageTooLarge "range join exceeds the configured handshake limit"
  else
    Ok (match resume_ticket with Some _ => RANGE_RESUME_MAGIC | None => RANGE_MAGIC end ++
        be_encode 8 (protocol_id protocol) ++ be_encode 4 (min_version protocol) ++
        be_encode 4 (max_version protocol) ++ be_encode 8 (build_id protocol) ++
        be_encode 8 (capabilities protocol) ++ nonce ++ be_encode 2 (len ticket) ++
        match resume_ticket with Some r => be_encode 2 (len r) | None => [] end ++
        ticket ++ default [] resume_ticket).

Definition encode_range (protocol : GameProtocol) (nonce ticket : list byte) (maximum_len : Z) :
    Result (list byte) :=
  encode_range_inner protocol nonce ticket None maximum_len.

Definition encode_range_resume (protocol : GameProtocol) (nonce ticket resume : list byte)
    (maximum_len : Z) : Result (list byte) :=
  if decide (resume = []) then fail ErrorCode.InvalidArgument "resume ticket is empty"
  else encode_range_inner protocol nonce ticket (Some resume) maximum_len.

Definition invalid_join {A} : Result A := game_protocol_error "malformed game join metadata".

Definition decode_range (input : list byte) : Result RangeJoinRequest :=
  if decide (len input < HEADER_LEN ∨
             (take 4 input ≠ RANGE_MAGIC ∧ take 4 input ≠ RANGE_RESUME_MAGIC)) then
    invalid_join else
  let protocol := mkGameProtocol (be_decode (slice 4 12 input)) (be_decode (slice 12 16 input))
    (be_decode (slice 16 20 input)) (be_decode (slice 20 28 input))
    (be_decode (slice 28 36 input)) in
  let nonce := slice 36 52 input in
  let ticket_len := be_decode (slice 52 54 input) in
  if negb (protocol_is_valid protocol) || bool_decide (nonce = zero_nonce) then invalid_join else
  let resume := bool_decide (take 4 input = RANGE_RESUME_MAGIC) in
  '(header_len, resume_len) ←
    (if resume then
       if decide (len input < RANGE_RESUME_HEADER_LEN) then invalid_join
       else Ok (RANGE_RESUME_HEADER_LEN, be_decode (slice 54 56 input))
     else Ok (HEADER_LEN, 0));
  if (resume && bool_decide (resume_len = 0)) ||
     bool_decide (len input ≠ header_len + ticket_len + resume_len) then invalid_join
  else
    let ticket_end := header_len + ticket_len in
    Ok (mkRangeJoinRequest protocol nonce
          (slice (Z.to_nat header_len) (Z.to_nat ticket_end) input)
          (if resume then Some (drop (Z.to_nat ticket_end) input) else None)).

(** The encoder for each shape of request. *)
Definition encode_join (r : RangeJoinRequest) (maximum_len : Z) : Result (list byte) :=
  match resume_ticket r with
  | None => encode_range (protocol r) (nonce r) (ticket r) maximum_len
  | Some t => encode_range_resume (protocol r) (nonce r) (ticket r) t maximum_len
  end.

Definition protocol_wf (p : GameProtocol) : Prop :=
  in_u64 (protocol_id p) ∧ in_u32 (min_version p) ∧ in_u32 (max_version p) ∧
  in_u64 (build_id p) ∧ in_u64 (capabilities p).

(** The field types of a request: machine integers and a 16-byte nonce. *)
Definition join_wf (r : RangeJoinRequest) : Prop :=
  protocol_wf (protocol r) ∧ length (nonce r) = 16%nat.

Definition header_bytes (p : GameProtocol) (nonce : list byte) : list byte :=
  be_encode 8 (protocol_id p) ++ be_encode 4 (min_version p) ++ be_encode 4 (max_version p) ++
  be_encode 8 (build_id p) ++ be_encode 8 (capabilities p) ++ nonce.

Definition join_bytes (r : RangeJoinRequest) : list byte :=
  match resume_ticket r with
  | None => RANGE_MAGIC ++ header_bytes (protocol r) (nonce r) ++
            be_encode 2 (len (ticket r)) ++ ticket r
  | Some t => RANGE_RESUME_MAGIC ++ header_bytes (protocol r) (nonce r) ++
              be_encode 2 (len (ticket r)) ++ be_encode 2 (len t) ++ ticket r ++ t
  end.

(** What a sender must respect beyond the field types. *)
Definition join_sendable (r : RangeJoinRequest) : Prop :=
  protocol_is_valid (protocol r) = true ∧ nonce r ≠ zero_nonce ∧ len (ticket r) ≤ u16_max ∧
  (∀ t, resume_ticket r = Some t → 0 < len t ≤ u16_max).

Lemma len_join_bytes r :
  length (nonce r) = 16%nat →
  len (join_bytes r) =
  match resume_ticket r with
  | None => HEADER_LEN + len (ticket r)
  | Some t => RANGE_RESUME_HEADER_LEN + len (ticket r) + len t
  end.
Proof.
  intros Hn. unfold join_bytes, header_bytes, HEADER_LEN, RANGE_RESUME_HEADER_LEN.
  assert (len (nonce r) = 16) by (unfold len; lia).
  destruct (resume_ticket r); autorewrite with rnet; [change (len RANGE_RESUME_MAGIC) with 4|change (len RANGE_MAGIC) with 4]; lia.
Qed.

Lemma join_bytes_alt r :
  join_bytes r =
  match resume_ticket r with Some _ => RANGE_RESUME_MAGIC | None => RANGE_MAGIC end ++
  be_encode 8 (protocol_id (protocol r)) ++ be_encode 4 (min_version (protocol r)) ++
  be_encode 4 (max_version (protocol r)) ++ be_encode 8 (build_id (protocol r)) ++
  be_encode 8 (capabilities (protocol r)) ++ nonce r ++ be_encode 2 (len (ticket r)) ++
  match resume_ticket r with Some t => be_encode 2 (len t) | None => [] end ++
  ticket r ++ default [] (resume_ticket r).
Proof.
  unfold join_bytes, header_bytes. destruct (resume_ticket r); rewrite <- !app_assoc; [done|].
  cbn [default app]. by rewrite app_nil_r.
Qed.

Lemma encode_range_inner_Ok r max w :
  length (nonce r) = 16%nat →
  encode_range_inner (protocol r) (nonce r) (ticket r) (resume_ticket r) max = Ok w ↔
  protocol_is_valid (protocol r) = true ∧ nonce r ≠ zero_nonce ∧ len (ticket r) ≤ u16_max ∧
  (∀ t, resume_ticket r = Some t → len t ≤ u16_max) ∧ len w ≤ max ∧ w = join_bytes r.
Proof.
  intros Hn. pose proof (len_join_bytes r Hn) as Hlen. pose proof (len_nonneg (ticket r)).
  assert (∀ t : list byte, 0 ≤ len t) by apply len_nonneg.
  unfold encode_range_inner. rewrite <- join_bytes_alt.
  destruct (protocol_is_valid _); cbn [negb orb]; [|naive_solver].
  case_bool_decide; [naive_solver|]. unfold checked_add, HEADER_LEN, RANGE_RESUME_HEADER_LEN in *.
  destruct (decide (len (ticket r) ≤ u16_max)).
  2: { split; [|naive_solver]. rewrite (bool_decide_true (u16_max < len (ticket r))) by lia.
       repeat (case_decide; cbn [mbind option_bind ok_or result_bind]); done. }
  rewrite (bool_decide_false (u16_max < len (ticket r))) by lia.
  destruct (resume_ticket r) as [t|]; cbn [is_some_and orb].
  - specialize (H0 t). destruct (decide (len t ≤ u16_max)).
    + do 2 (rewrite decide_True by zlia; cbn [mbind option_bind ok_or result_bind]).
      rewrite (bool_decide_false (u16_max < len t)) by lia. case_bool_decide; naive_solver lia.
    + split; [|naive_solver]. rewrite (bool_decide_true (u16_max < len t)) by lia.
      repeat (case_decide; cbn [mbind option_bind ok_or result_bind]); done.
  - do 2 (rewrite decide_True by zlia; cbn [mbind option_bind ok_or result_bind]).
    case_bool_decide; naive_solver lia.
Qed.

Lemma encode_join_Ok r max w :
  length (nonce r) = 16%nat →
  encode_join r max = Ok w ↔ join_sendable r ∧ len w ≤ max ∧ w = join_bytes r.
Proof.
  intros Hn. pose proof (encode_range_inner_Ok r max w Hn) as H.
  unfold encode_join, encode_range, encode_range_resume, join_sendable.
  destruct (resume_ticket r) as [t|].
  - case_decide as Ht; [subst t|].
    + split; [done|]. intros ((_ & _ & _ & Hr) & _). by destruct (Hr [] eq_refl).
    + assert (0 < len t) by (rewrite <- (len_0 t) in Ht; pose proof (len_nonneg t); lia).
      rewrite H. split; [intros (? & ? & ? & Hr & ? & ?)|intros ((? & ? & ? & Hr) & ? & ?)];
        split_and!; try done; intros t' [= <-]; specialize (Hr t eq_refl); lia.
  - rewrite H. split; [intros (? & ? & ? & _ & ? & ?)|intros ((? & ? & ? & _) & ? & ?)];
      split_and!; done.
Qed.

Lemma slice_middle i j (l k m : list byte) :
  i = length l → j = (length l + length k)%nat → slice i j (l ++ k ++ m) = k.
Proof.
  intros -> ->. rewrite slice_app_skip by lia. rewrite Nat.sub_diag.
  apply slice_app_here. lia.
Qed.

Lemma decode_join_bytes r :
  join_wf r → join_sendable r → decode_range (join_bytes r) = Ok r.
Proof.
  intros [(Hid & Hlo & Hhi & Hb & Hc) Hn] (Hv & Hnz & Ht & Hr).
  assert (length RANGE_MAGIC = 4%nat) as L1 by done.
  assert (length RANGE_RESUME_MAGIC = 4%nat) as L2 by done.
  pose proof (len_join_bytes r Hn) as Hlen. pose proof (len_nonneg (ticket r)).
  unfold decode_range, join_bytes, header_bytes in *.
  destruct r as [[id lo hi b c] n t [rt|]];
    cbn [protocol nonce ticket resume_ticket protocol_id min_version max_version build_id
         capabilities] in *; rewrite Hlen; unfold HEADER_LEN, RANGE_RESUME_HEADER_LEN;
    rewrite <- !app_assoc.
  - specialize (Hr rt eq_refl). read_fields. rewrite decide_False by (intros [?|[_ []]]; done || lia).
    rewrite !be_u64, !be_u32, !be_u16, Hv by (done || zlia).
    rewrite bool_decide_false by done. cbn [negb orb]. rewrite bool_decide_true by done.
    rewrite decide_False by lia. cbn [mbind result_bind].
    rewrite bool_decide_false by lia. rewrite bool_decide_false by lia. cbn [andb orb].
    do 2 f_equal; [|f_equal]; rewrite !app_assoc; [rewrite <- app_assoc|].
    + by apply slice_middle; unfold len; lens.
    + rewrite drop_app_length'; [done|]. unfold len. lens.
  - read_fields. rewrite decide_False by (intros [?|[[] _]]; done || lia).
    rewrite !be_u64, !be_u32, !be_u16, Hv by (done || zlia).
    rewrite bool_decide_false by done. cbn [negb orb]. rewrite bool_decide_false by done.
    cbn [mbind result_bind andb orb]. rewrite bool_decide_false by lia.
    do 2 f_equal. rewrite !app_assoc, <- (app_nil_r (_ ++ t)), <- app_assoc.
    by apply slice_middle; unfold len; lens.
Qed.

(** The two tickets behind a header of [hl] bytes. *)
Lemma tickets_split (pre w : list byte) hl tl rl :
  len pre = hl → 0 ≤ tl → 0 ≤ rl → len (pre ++ w) = hl + tl + rl →
  ∃ t rt, w = t ++ rt ∧ len t = tl ∧ len rt = rl ∧
    slice (Z.to_nat hl) (Z.to_nat (hl + tl)) (pre ++ w) = t ∧
    drop (Z.to_nat (hl + tl)) (pre ++ w) = rt.
Proof.
  intros Hp Htl Hrl. unfold len in *. rewrite length_app. intros Hlen.
  cut_field (Z.to_nat tl) w t. rewrite length_app in Hlen. exists t, w.
  split_and!; try lia; [done|apply slice_middle; lia|].
  rewrite app_assoc, drop_app_length'; [done|]. rewrite length_app. lia.
Qed.

Lemma join_layout pid lo hi b c n t rt :
  length pid = 8%nat → length lo = 4%nat → length hi = 4%nat → length b = 8%nat →
  length c = 8%nat →
  join_bytes (mkRangeJoinRequest (mkGameProtocol (be_decode pid) (be_decode lo) (be_decode hi)
    (be_decode b) (be_decode c)) n t rt) =
  match rt with Some _ => RANGE_RESUME_MAGIC | None => RANGE_MAGIC end ++
  pid ++ lo ++ hi ++ b ++ c ++ n ++ be_encode 2 (len t) ++
  match rt with Some rt => be_encode 2 (len rt) | None => [] end ++ t ++ default [] rt.
Proof.
  intros. rewrite join_bytes_alt.
  cbn [protocol nonce ticket resume_ticket protocol_id min_version max_version build_id
       capabilities]. by rewrite !be_encode_decode.
Qed.

Lemma decode_range_Ok w r :
  decode_range w = Ok r ↔ join_wf r ∧ join_sendable r ∧ w = join_bytes r.
Proof.
  split; [|intros (? & ? & ->); by apply decode_join_bytes].
  unfold decode_range. case_decide as H0; [done|]. apply Decidable.not_or in H0 as [Hl Hm].
  assert (54 ≤ length w)%nat by (unfold len, HEADER_LEN in *; lia).
  cut_field 4%nat w m. cut_field 8%nat w pid. cut_field 4%nat w lo. cut_field 4%nat w hi.
  cut_field 8%nat w b. cut_field 8%nat w c. cut_field 16%nat w n. cut_field 2%nat w tkl.
  read_fields. rewrite take_app_length' in Hm by done.
  destruct (protocol_is_valid _) eqn:Hv; [|done]. cbn [negb orb].
  case_bool_decide as Hn; [done|].
  assert (protocol_wf (mkGameProtocol (be_decode pid) (be_decode lo) (be_decode hi)
    (be_decode b) (be_decode c))) by (split_and!; cbn; auto with rnet).
  case_bool_decide as Hr.
  - case_decide as H56; [done|]. cbn [mbind result_bind].
    assert (2 ≤ length w)%nat
      by (unfold RANGE_RESUME_HEADER_LEN in H56; rewrite !len_app in H56; unfold len in H56; lia).
    cut_field 2%nat w rl. read_fields.
    pose proof (be_u16_range tkl ltac:(done)). pose proof (be_u16_range rl ltac:(done)).
    cbn [andb]. case_bool_decide; [done|]. case_bool_decide as Hlen; [done|]. cbn [orb].
    replace (m ++ pid ++ lo ++ hi ++ b ++ c ++ n ++ tkl ++ rl ++ w)
      with ((m ++ pid ++ lo ++ hi ++ b ++ c ++ n ++ tkl ++ rl) ++ w) in *
      by by rewrite <- !app_assoc.
    apply tickets_split in Hlen as (t & rt & -> & Ht & Hrt & -> & ->);
      [|by unfold len, HEADER_LEN, RANGE_RESUME_HEADER_LEN; lens|zlia..].
    intros He. apply (inj Ok) in He as <-.
    rewrite join_layout, Ht, Hrt, !be_encode_decode, Hr, <- !app_assoc by done.
    unfold join_wf, join_sendable. cbn [protocol nonce ticket resume_ticket].
    split_and!; try done; [zlia|]. intros ? [= <-]. zlia.
  - cbn [mbind result_bind andb orb]. case_bool_decide as Hlen; [done|].
    pose proof (be_u16_range tkl ltac:(done)).
    replace (m ++ pid ++ lo ++ hi ++ b ++ c ++ n ++ tkl ++ w)
      with ((m ++ pid ++ lo ++ hi ++ b ++ c ++ n ++ tkl) ++ w) in *
      by by rewrite <- !app_assoc.
    apply tickets_split in Hlen as (t & rt & -> & Ht & ->%len_0 & -> & _);
      [|by unfold len, HEADER_LEN, RANGE_RESUME_HEADER_LEN; lens|zlia..].
    intros He. apply (inj Ok) in He as <-.
    assert (m = RANGE_MAGIC) as -> by (destruct (decide (m = RANGE_MAGIC)); tauto).
    rewrite join_layout, Ht, !be_encode_decode, <- !app_assoc by done.
    unfold join_wf, join_sendable. cbn [protocol nonce ticket resume_ticket].
    split_and!; try done. zlia.
Qed.

End Join.

(** ** Claims *)

Lemma decode_iff_encode w max e :
  max ≤ usize_max →
  Envelope.decode w max = Ok e ↔ Envelope.envelope_wf e ∧ Envelope.encode_envelope e max = Ok w.
Proof.
  intros Hmax. rewrite Envelope.decode_Ok, Envelope.encode_envelope_Ok. split.
  - intros (? & ? & ?). split_and!; try done. lia.
  - intros (? & ? & ? & ?). done.
Qed.

Lemma control_iff_encode w max k p :
  max ≤ usize_max →
  Envelope.decode w max = Ok (Envelope.Control k p) ↔ Envelope.encode_control k p max = Ok w.
Proof.
  intros Hmax. rewrite decode_iff_encode by done. cbn [Envelope.envelope_wf Envelope.encode_envelope].
  split; [by intros []|done].
Qed.

(** Game envelopes and the controls they carry have exactly one encoding.  For
    every configured limit of machine size, a byte string decodes to an envelope
    exactly when the matching encoder produces it, so application data can never be
    taken for a control or the other way round; and the two decoding steps of a
    heartbeat or clock control, envelope and payload, accept exactly the encoder's
    output. *)
Theorem game_envelope_canonical (max : Z) :
  max ≤ usize_max →
  (∀ w e, Envelope.decode w max = Ok e ↔
     Envelope.envelope_wf e ∧ Envelope.encode_envelope e max = Ok w) ∧
  (∀ w p, (∃ body, Envelope.decode w max = Ok (Envelope.Control Envelope.Heartbeat body) ∧
             HeartbeatWire.decode_heartbeat body = Ok p) ↔
     in_u64 (HeartbeatWire.challenge p) ∧ HeartbeatWire.encode_heartbeat p max = Ok w) ∧
  (∀ w p, (∃ body, Envelope.decode w max = Ok (Envelope.Control Envelope.ClockSync body) ∧
             ClockWire.decode_clock body = Ok p) ↔
     ClockWire.clock_wf p ∧ ClockWire.encode_clock p max = Ok w).
Proof.
  intros Hmax. split_and!.
  - intros w e. by apply decode_iff_encode.
  - intros w p. split.
    + intros (body & Hb%control_iff_encode & [Hp ->]%HeartbeatWire.decode_heartbeat_Ok); done.
    + intros [Hp He]. exists (HeartbeatWire.heartbeat_payload p).
      rewrite control_iff_encode, HeartbeatWire.decode_heartbeat_Ok; done.
  - intros w p. split.
    + intros (body & Hb%control_iff_encode & [Hp ->]%ClockWire.decode_clock_Ok); done.
    + intros [Hp He]. exists (ClockWire.clock_payload p).
      rewrite control_iff_encode, ClockWire.decode_clock_Ok; done.
Qed.

Lemma game_envelope_canonical_witness :
  Envelope.decode
    (map of_u8 [0; 5; 0; 16; 0; 0; 0; 7; 0; 0; 0; 0; 0; 0; 1; 2; 42]) 64 =
    Ok (Envelope.Application (Some 7) None (Some 258) [of_u8 42]).
Proof.
  apply (game_envelope_canonical 64); [by vm_compute|].
  split; [cbn; zlia|by vm_compute].
Defined.

(** A join request has exactly one encoding: a byte string decodes to a request
    exactly when it is what the sender's encoder writes for a request with a valid
    version interval, a nonzero 16-byte nonce, tickets of at most 65,535 bytes and,
    when resuming, a nonempty resume ticket.  Truncated, extended or ambiguous joins
    are rejected, and the ticket/resume boundary cannot be shifted. *)
Theorem join_request_canonical (w : list byte) (r : Join.RangeJoinRequest) :
  Join.decode_range w = Ok r ↔ Join.join_wf r ∧ Join.encode_join r usize_max = Ok w.
Proof.
  rewrite Join.decode_range_Ok. split.
  - intros (Hwf & Hs & ->). split; [done|]. apply Join.encode_join_Ok; [apply Hwf|].
    split_and!; [done| |done]. rewrite Join.len_join_bytes by apply Hwf.
    destruct Hs as (_ & _ & Ht & Hr). unfold Join.HEADER_LEN, Join.RANGE_RESUME_HEADER_LEN.
    destruct (Join.resume_ticket r) as [t|]; [specialize (Hr t eq_refl)|]; zlia.
  - intros [Hwf He]. apply Join.encode_join_Ok in He as (? & _ & ?); [|apply Hwf]. done.
Qed.

(** The negotiated version is the highest one both sides support: the selection
    succeeds exactly when both intervals are valid, the protocol identities agree and
    the intervals meet, and no common version exceeds the selected one, whichever
    preference the client may have. *)
Theorem select_version_highest (client server : GameProtocol) (v : Z) :
  Join.select_version client server = Some v ↔
  protocol_is_valid client = true ∧ protocol_is_valid server = true ∧
  protocol_id client = protocol_id server ∧
  (min_version client ≤ v ≤ max_version client) ∧ (min_version server ≤ v ≤ max_version server) ∧
  (∀ v', min_version client ≤ v' ≤ max_version client →
         min_version server ≤ v' ≤ max_version server → v' ≤ v).
Proof.
  unfold Join.select_version.
  destruct (protocol_is_valid client) eqn:Hc, (protocol_is_valid server) eqn:Hs;
    cbn [negb orb]; try (split; [done|naive_solver]).
  case_bool_decide; [naive_solver|]. case_decide as Hr; split.
  - intros [= <-]. split_and!; try done; try lia.
  - intros (_ & _ & _ & H1 & H2 & Hmax). f_equal.
    specialize (Hmax (max_version client `min` max_version server)). lia.
  - done.
  - intros (_ & _ & _ & H1 & H2 & _). lia.
Qed.
