(* ===== verification/Quality.v ===== *)
(** * Network quality: [quality.rs] and the KCP telemetry window of [kcp.rs]

    UDP sequence-gap tracking with its 64-position reorder window, the recent KCP
    retransmission window, the grading policy and the change gate.  The UDP tracker
    is proved against a specification on unbounded positions and the set of
    positions received. *)

From S2P Require Import Prelude Bytes CoreTypes.

(** ** UDP sequence gaps *)

Definition REORDER_WINDOW : Z := 64.
Definition MAX_FORWARD_GAP : Z := 4096.

Module UdpObservation.
Inductive t := First | New | Reordered | Duplicate | TooOld | Discontinuity.
#[global] Instance t_eq_dec : EqDecision t.
Proof. solve_decision. Defined.
End UdpObservation.

Record UdpLossSnapshot := mkUdpLossSnapshot {
  us_expected : Z;
  us_received : Z;
  us_missing : Z;
  us_recent_expected : Z;
  us_recent_missing : Z;
  us_recent_loss_per_mille : Z;
  us_reordered : Z;
  us_duplicates : Z;
  us_too_old : Z;
  us_discontinuities : Z
}.

Record UdpLossTracker := mkUdpLossTracker {
  highest : option Z;
  seen : Z;
  span : Z;
  expected : Z;
  received : Z;
  reordered : Z;
  duplicates : Z;
  too_old : Z;
  discontinuities : Z
}.
#[export] Instance UdpLossTracker_eta : Eta UdpLossTracker := λ t,
  mkUdpLossTracker (highest t) (seen t) (span t) (expected t) (received t) (reordered t)
    (duplicates t) (too_old t) (discontinuities t).

Definition tracker_default : UdpLossTracker := mkUdpLossTracker None 0 0 0 0 0 0 0 0.

(** [counter.saturating_add(n)] on a [u64]. *)
Definition bump (n c : Z) : Z := saturating_add u64_max c n.

Definition observe (t : UdpLossTracker) (sequence : Z) : UdpObservation.t * UdpLossTracker :=
  match highest t with
  | None =>
    (UdpObservation.First,
     t <| highest := Some sequence |> <| seen := 1 |> <| span := 1 |>
       <| expected := 1 |> <| received := 1 |>)
  | Some hi =>
    let forward := wrapping_sub 32 sequence hi in
    if decide (forward = 0) then
      (UdpObservation.Duplicate, t <| duplicates ::= bump 1 |>)
    else if decide (forward < Z.shiftl 1 31) then
      if decide (MAX_FORWARD_GAP < forward) then
        (UdpObservation.Discontinuity,
         t <| highest := Some sequence |> <| seen := 1 |> <| span := 1 |>
           <| expected ::= bump 1 |> <| received ::= bump 1 |> <| discontinuities ::= bump 1 |>)
      else
        (UdpObservation.New,
         t <| highest := Some sequence |>
           <| seen := if decide (REORDER_WINDOW ≤ forward) then 1
                      else Z.lor (Z.land (Z.shiftl (seen t) forward) u64_max) 1 |>
           <| span ::= bump forward |> <| expected ::= bump forward |> <| received ::= bump 1 |>)
    else
      let behind := wrapping_sub 32 hi sequence in
      if decide (REORDER_WINDOW ≤ behind ∨ span t ≤ behind) then
        (UdpObservation.TooOld, t <| too_old ::= bump 1 |>)
      else if decide (Z.land (seen t) (Z.shiftl 1 behind) ≠ 0) then
        (UdpObservation.Duplicate, t <| duplicates ::= bump 1 |>)
      else
        (UdpObservation.Reordered,
         t <| seen := Z.lor (seen t) (Z.shiftl 1 behind) |>
           <| received ::= bump 1 |> <| reordered ::= bump 1 |>)
  end.

(** [u64::count_ones]. *)
Definition count_ones (z : Z) : Z :=
  len (filter (λ i, Z.testbit z (Z.of_nat i) = true) (seq 0 64)).

(** [x.saturating_mul(1000).checked_div(n).unwrap_or(0)]. *)
Definition per_mille (x n : Z) : Z := if decide (n = 0) then 0 else (x * 1000) `min` u64_max / n.

Definition snapshot (t : UdpLossTracker) : UdpLossSnapshot :=
  let recent_expected := span t `min` REORDER_WINDOW in
  let recent_received := count_ones (seen t) `min` recent_expected in
  let recent_missing := saturating_sub recent_expected recent_received in
  mkUdpLossSnapshot (expected t) (received t) (saturating_sub (expected t) (received t))
    recent_expected recent_missing (per_mille recent_missing recent_expected)
    (reordered t) (duplicates t) (too_old t) (discontinuities t).

(** *** Specification

    Sequence numbers are read as unbounded positions: [d] is the signed distance
    of the new number from the newest one.  A window starts at [base]; [got] are
    the positions of it that arrived.  [old_expected] and [old_received] are the
    totals of the windows before the last discontinuity. *)

Record Positions := mkPositions {
  top : Z;
  base : Z;
  got : gset Z;
  old_expected : Z;
  old_received : Z
}.

Definition signed_distance (sequence hi : Z) : Z :=
  let forward := wrapping_sub 32 sequence hi in
  if decide (forward < 2 ^ 31) then forward else forward - 2 ^ 32.

Definition position_step (p : Positions) (d : Z) : UdpObservation.t * Positions :=
  if decide (d = 0) then (UdpObservation.Duplicate, p)
  else if decide (MAX_FORWARD_GAP < d) then
    (UdpObservation.Discontinuity,
     mkPositions (top p + d) (top p + d) {[top p + d]}
       (old_expected p + (top p - base p + 1)) (old_received p + Z.of_nat (size (got p))))
  else if decide (0 < d) then
    (UdpObservation.New,
     mkPositions (top p + d) (base p) ({[top p + d]} ∪ got p) (old_expected p) (old_received p))
  else if decide (d ≤ - REORDER_WINDOW ∨ top p + d < base p) then (UdpObservation.TooOld, p)
  else if decide (top p + d ∈ got p) then (UdpObservation.Duplicate, p)
  else
    (UdpObservation.Reordered,
     mkPositions (top p) (base p) ({[top p + d]} ∪ got p) (old_expected p) (old_received p)).

(** Positions of the window a snapshot reports on that have not arrived. *)
Definition recent_gaps (p : Positions) : Z :=
  len (filter (λ i, top p - Z.of_nat i ∉ got p)
         (seq 0 (Z.to_nat ((top p - base p + 1) `min` REORDER_WINDOW)))).

Record tracks (t : UdpLossTracker) (p : Positions) : Prop := {
  tk_highest : highest t = Some (top p mod 2 ^ 32);
  tk_span : span t = top p - base p + 1;
  tk_top : top p ∈ got p;
  tk_got : ∀ x, x ∈ got p → base p ≤ x ≤ top p;
  tk_seen : ∀ i, 0 ≤ i → Z.testbit (seen t) i = bool_decide (i < 64 ∧ top p - i ∈ got p);
  tk_expected : expected t = old_expected p + (top p - base p + 1);
  tk_received : received t = old_received p + Z.of_nat (size (got p));
  tk_bound : 0 ≤ old_received p ≤ old_expected p
}.


(** The window cannot hold more arrivals than positions. *)
Lemma got_size (g : gset Z) lo hi :
  lo ≤ hi + 1 → (∀ x, x ∈ g → lo ≤ x ≤ hi) → Z.of_nat (size g) ≤ hi - lo + 1.
Proof.
  intros Hlo Hg. trans (Z.of_nat (length (seqZ lo (hi - lo + 1)))).
  - apply Nat2Z.inj_le. rewrite <- (size_list_to_set (C := gset Z)) by apply NoDup_seqZ.
    apply subseteq_size. intros x Hx%Hg. rewrite elem_of_list_to_set, elem_of_seqZ. lia.
  - rewrite length_seqZ. lia.
Qed.

Lemma tracks_received t p : tracks t p → received t ≤ expected t.
Proof.
  intros T. rewrite (tk_received _ _ T), (tk_expected _ _ T).
  pose proof (tk_got _ _ T _ (tk_top _ _ T)).
  pose proof (got_size (got p) (base p) (top p) ltac:(lia) (tk_got _ _ T)).
  pose proof (tk_bound _ _ T). lia.
Qed.

Lemma wrapping_sub_distance s hi :
  in_u32 s → in_u32 hi → s = (hi + signed_distance s hi) mod 2 ^ 32.
Proof.
  intros Hs Hhi. unfold signed_distance, wrapping_sub.
  assert (s = (hi + (s - hi) mod 2 ^ 32) mod 2 ^ 32) as E.
  { rewrite Zplus_mod_idemp_r. replace (hi + (s - hi)) with s by lia.
    rewrite Z.mod_small; [done|zlia]. }
  case_decide; [done|]. rewrite E at 1.
  replace (hi + ((s - hi) mod 2 ^ 32 - 2 ^ 32)) with (hi + (s - hi) mod 2 ^ 32 + (-1) * 2 ^ 32) by lia.
  by rewrite Z.mod_add.
Qed.

(** The backward distance the code computes is the negated signed distance. *)
Lemma wrapping_sub_behind s hi :
  2 ^ 31 ≤ wrapping_sub 32 s hi → wrapping_sub 32 hi s = - signed_distance s hi.
Proof.
  intros H. unfold signed_distance. rewrite decide_False by lia. unfold wrapping_sub in *.
  replace (hi - s) with (- (s - hi)) by lia.
  rewrite Z.mod_opp_l_nz by lia. lia.
Qed.

Lemma bump_small n c : c + n ≤ u64_max → bump n c = c + n.
Proof. unfold bump. zlia. Qed.

Lemma seen_advance t p d i :
  tracks t p → 0 < d → 0 ≤ i →
  Z.testbit (if decide (REORDER_WINDOW ≤ d) then 1
             else Z.lor (Z.land (Z.shiftl (seen t) d) u64_max) 1) i
  = bool_decide (i < 64 ∧ top p + d - i ∈ {[top p + d]} ∪ got p).
Proof.
  intros T Hd Hi. unfold REORDER_WINDOW. pose proof (tk_got _ _ T) as Hg. apply eq_true_iff_eq.
  rewrite bool_decide_eq_true, elem_of_union, elem_of_singleton.
  assert (top p + d - i ∈ got p → d ≤ i) by (intros ?%Hg; lia).
  case_decide.
  - rewrite testbit_one, Z.eqb_eq by done. split; [intros ->; split; [lia|left; lia]|].
    intros [? [?|?]]; naive_solver lia.
  - rewrite testbit_advanced, orb_true_iff, andb_true_iff, Z.eqb_eq, Z.ltb_lt by lia. split.
    + intros [->|[? Ht]]; [split; [lia|left; lia]|]. split; [done|right].
      destruct (decide (0 ≤ i - d)); [|by rewrite Z.testbit_neg_r in Ht by lia].
      rewrite (tk_seen _ _ T), bool_decide_eq_true in Ht by done.
      destruct Ht. by replace (top p + d - i) with (top p - (i - d)) by lia.
    + intros [? [?|Hin]]; [left; lia|right]. split; [done|].
      rewrite (tk_seen _ _ T), bool_decide_eq_true by naive_solver lia. split; [lia|].
      by replace (top p - (i - d)) with (top p + d - i) by lia.
Qed.

Lemma seen_reordered t p b i :
  tracks t p → 0 ≤ b < 64 → 0 ≤ i →
  Z.testbit (Z.lor (seen t) (Z.shiftl 1 b)) i
  = bool_decide (i < 64 ∧ top p - i ∈ {[top p - b]} ∪ got p).
Proof.
  intros T Hb Hi. apply eq_true_iff_eq.
  rewrite Z.lor_spec, orb_true_iff, (tk_seen _ _ T), Z.shiftl_1_l, Z.pow2_bits_eqb,
    !bool_decide_eq_true, Z.eqb_eq, elem_of_union, elem_of_singleton by lia. split.
  - intros [[? ?]| ->]; [tauto|split; [lia|by left]].
  - intros [? [?|?]]; [right; lia|by left].
Qed.

(** The three steps that change the window. *)
Lemma tracks_restart t p d s :
  tracks t p → expected t + 1 ≤ u64_max → s = (top p + d) mod 2 ^ 32 →
  tracks (t <| highest := Some s |> <| seen := 1 |> <| span := 1 |>
            <| expected ::= bump 1 |> <| received ::= bump 1 |> <| discontinuities ::= bump 1 |>)
    (mkPositions (top p + d) (top p + d) {[top p + d]}
       (old_expected p + (top p - base p + 1)) (old_received p + Z.of_nat (size (got p)))).
Proof.
  intros T Hmax ->. pose proof (tracks_received _ _ T) as Hre.
  pose proof (tk_expected _ _ T) as He. pose proof (tk_received _ _ T) as Hr.
  pose proof (tk_bound _ _ T).
  split; cbn; rewrite ?bump_small, ?size_singleton by lia; try (done || lia); try set_solver by lia.
  intros i Hi. rewrite testbit_one by done. apply eq_true_iff_eq.
  rewrite Z.eqb_eq, bool_decide_eq_true, elem_of_singleton. lia.
Qed.

Lemma tracks_new t p d s :
  tracks t p → 0 < d → expected t + d ≤ u64_max → s = (top p + d) mod 2 ^ 32 →
  tracks (t <| highest := Some s |>
            <| seen := if decide (REORDER_WINDOW ≤ d) then 1
                       else Z.lor (Z.land (Z.shiftl (seen t) d) u64_max) 1 |>
            <| span ::= bump d |> <| expected ::= bump d |> <| received ::= bump 1 |>)
    (mkPositions (top p + d) (base p) ({[top p + d]} ∪ got p) (old_expected p) (old_received p)).
Proof.
  intros T Hd Hmax ->. pose proof (tracks_received _ _ T) as Hre.
  pose proof (tk_expected _ _ T) as He. pose proof (tk_received _ _ T) as Hr.
  pose proof (tk_bound _ _ T). pose proof (tk_span _ _ T). pose proof (tk_got _ _ T) as Hg.
  pose proof (Hg _ (tk_top _ _ T)).
  assert (top p + d ∉ got p) by (intros ?%Hg; lia).
  split; cbn -[Z.lor Z.land Z.shiftl]; rewrite ?bump_small by lia; try (done || lia).
  - set_solver.
  - intros x [->%elem_of_singleton|?%Hg]%elem_of_union; lia.
  - intros i Hi. by apply seen_advance.
  - rewrite size_union, size_singleton by set_solver. lia.
Qed.

Lemma tracks_reordered t p b :
  tracks t p → 0 ≤ b < 64 → base p ≤ top p - b → top p - b ∉ got p → received t + 1 ≤ u64_max →
  tracks (t <| seen := Z.lor (seen t) (Z.shiftl 1 b) |>
            <| received ::= bump 1 |> <| reordered ::= bump 1 |>)
    (mkPositions (top p) (base p) ({[top p - b]} ∪ got p) (old_expected p) (old_received p)).
Proof.
  intros T Hb Hbase Hnew Hmax. pose proof (tk_received _ _ T) as Hr.
  pose proof (tk_got _ _ T) as Hg. pose proof (tk_top _ _ T).
  pose proof T as [Hh Hs Ht _ _ He _ Ho].
  split; cbn -[Z.lor Z.shiftl]; rewrite ?bump_small by lia; try (done || lia).
  - set_solver.
  - intros x [->%elem_of_singleton|?%Hg]%elem_of_union; lia.
  - intros i Hi. by apply seen_reordered.
  - rewrite size_union, size_singleton by set_solver. lia.
Qed.

Lemma tracks_duplicate t p f : tracks t p → tracks (t <| duplicates ::= f |>) p.
Proof. intros []. by split. Qed.
Lemma tracks_too_old t p f : tracks t p → tracks (t <| too_old ::= f |>) p.
Proof. intros []. by split. Qed.

(** One observation refines one step on positions. *)
Lemma observe_refines t p s :
  tracks t p → in_u32 s → expected t + MAX_FORWARD_GAP ≤ u64_max →
  let d := signed_distance s (top p mod 2 ^ 32) in
  (observe t s).1 = (position_step p d).1 ∧ tracks (observe t s).2 (position_step p d).2.
Proof.
  intros T Hs Hmax d. unfold MAX_FORWARD_GAP in *.
  assert (in_u32 (top p mod 2 ^ 32)) as Htop
    by (pose proof (Z.mod_pos_bound (top p) (2 ^ 32) ltac:(lia)); zlia).
  pose proof (wrapping_sub_distance s _ Hs Htop) as Epos. fold d in Epos.
  rewrite Zplus_mod_idemp_l in Epos.
  pose proof (tracks_received _ _ T). pose proof (tk_span _ _ T). pose proof (tk_expected _ _ T).
  pose proof (tk_bound _ _ T). pose proof (tk_got _ _ T _ (tk_top _ _ T)).
  unfold observe, position_step. rewrite (tk_highest _ _ T). unfold MAX_FORWARD_GAP.
  destruct (decide (wrapping_sub 32 s (top p mod 2 ^ 32) < 2 ^ 31)) as [Hf|Hf].
  - assert (wrapping_sub 32 s (top p mod 2 ^ 32) = d) as Ed
      by (unfold d, signed_distance; by rewrite decide_True).
    assert (0 ≤ wrapping_sub 32 s (top p mod 2 ^ 32)) by (apply Z.mod_pos_bound; lia).
    rewrite Ed in *. clearbody d. change (Z.shiftl 1 31) with (2 ^ 31).
    case_decide; [split; [done|by apply tracks_duplicate]|].
    rewrite decide_True by done. case_decide.
    { split; [done|]. apply tracks_restart; done || lia. }
    rewrite (decide_True (P := 0 < d)) by lia. split; [done|]. apply tracks_new; done || lia.
  - rewrite (wrapping_sub_behind s (top p mod 2 ^ 32)) by lia. fold d.
    assert (wrapping_sub 32 s (top p mod 2 ^ 32) = d + 2 ^ 32) as Ed
      by (unfold d, signed_distance; rewrite decide_False by done; lia).
    assert (wrapping_sub 32 s (top p mod 2 ^ 32) < 2 ^ 32) by (apply Z.mod_pos_bound; lia).
    rewrite Ed in *. clearbody d. change (Z.shiftl 1 31) with (2 ^ 31). unfold REORDER_WINDOW.
    rewrite !(decide_False (P := d + 2 ^ 32 = 0)), !(decide_False (P := d = 0)),
      !(decide_False (P := d + 2 ^ 32 < 2 ^ 31)), !(decide_False (P := 4096 < d)),
      !(decide_False (P := 0 < d)) by lia.
    destruct (decide (64 ≤ - d ∨ span t ≤ - d)).
    { rewrite (decide_True (P := d ≤ - 64 ∨ _)) by lia. split; [done|by apply tracks_too_old]. }
    rewrite (decide_False (P := d ≤ - 64 ∨ _)) by lia.
    pose proof (land_bit_nonzero (seen t) (- d) ltac:(lia)) as Hbit.
    rewrite (tk_seen _ _ T), bool_decide_eq_true in Hbit by lia.
    replace (top p - - d) with (top p + d) in Hbit by lia. case_decide as Hseen.
    { rewrite (decide_True (P := _ ∈ _)) by tauto. split; [done|by apply tracks_duplicate]. }
    assert (top p + d ∉ got p) as Hnew by (intros ?; apply Hbit in Hseen; [done|split; [lia|done]]).
    rewrite (decide_False (P := _ ∈ _)) by done. split; [done|].
    replace (top p + d) with (top p - - d) in * by lia. apply tracks_reordered; done || lia.
Qed.

(** *** Histories *)

Definition positions_start (s : Z) : Positions := mkPositions s s {[s]} 0 0.
Definition positions_observe (p : Positions) (s : Z) : UdpObservation.t * Positions :=
  position_step p (signed_distance s (top p mod 2 ^ 32)).

(** A run of a state machine over its inputs, with its outputs. *)
Fixpoint run_machine {S I O} (step : S → I → O * S) (s : S) (l : list I) : list O * S :=
  match l with
  | [] => ([], s)
  | i :: l =>
    let '(o, s) := step s i in
    let '(os, s) := run_machine step s l in
    (o :: os, s)
  end.

Definition observe_all := run_machine observe.
Definition positions_all := run_machine positions_observe.

Definition count_obs (o : UdpObservation.t) (os : list UdpObservation.t) : Z :=
  len (filter (λ o', o' = o) os).

Lemma count_obs_nil o : count_obs o [] = 0.
Proof. done. Qed.
Lemma count_obs_cons o x os : count_obs o (x :: os) = (if decide (x = o) then 1 else 0) + count_obs o os.
Proof. unfold count_obs. rewrite filter_cons. case_decide; rewrite ?len_cons; lia. Qed.

(** The four event counters of a tracker. *)
Definition counters (t : UdpLossTracker) : list Z :=
  [reordered t; duplicates t; too_old t; discontinuities t].
Definition counted (os : list UdpObservation.t) : list Z :=
  [count_obs UdpObservation.Reordered os; count_obs UdpObservation.Duplicate os;
   count_obs UdpObservation.TooOld os; count_obs UdpObservation.Discontinuity os].

Lemma observe_counters t s n :
  Forall (λ c, 0 ≤ c < n) (counters t) → n ≤ u64_max →
  counters (observe t s).2 = zip_with Z.add (counters t) (counted [(observe t s).1]).
Proof.
  intros Hc Hn. unfold counters in *. rewrite !Forall_cons in Hc. destruct Hc as (? & ? & ? & ? & _).
  unfold observe. repeat (case_decide || case_match); cbn [fst snd];
    match goal with
    | |- context [counted [?o]] =>
      let v := eval vm_compute in (counted [o]) in change (counted [o]) with v
    end; cbn -[Z.shiftl Z.land Z.lor Z.add];
    rewrite ?bump_small by lia; repeat f_equal; lia.
Qed.

Lemma observe_growth t s :
  highest t ≠ None → 0 ≤ expected t → expected (observe t s).2 ≤ expected t + MAX_FORWARD_GAP.
Proof.
  intros Hh He. unfold observe, MAX_FORWARD_GAP. repeat (case_decide || case_match); try done;
    cbn -[Z.shiftl Z.land Z.lor Z.add]; unfold bump; zlia.
Qed.

Lemma counted_cons o os : counted (o :: os) = zip_with Z.add (counted [o]) (counted os).
Proof. unfold counted. cbn [zip_with]. by rewrite !count_obs_cons, !count_obs_nil, !Z.add_0_r. Qed.

Lemma add_counts (a b c : list Z) :
  length a = 4%nat → length b = 4%nat → length c = 4%nat →
  zip_with Z.add (zip_with Z.add a b) c = zip_with Z.add a (zip_with Z.add b c).
Proof.
  intros. destruct a as [|a0 [|a1 [|a2 [|a3 [|]]]]]; try done.
  destruct b as [|b0 [|b1 [|b2 [|b3 [|]]]]]; try done.
  destruct c as [|c0 [|c1 [|c2 [|c3 [|]]]]]; try done.
  cbn -[Z.add]. repeat (apply (f_equal2 cons); [lia|]). done.
Qed.

Lemma counters_below t s n :
  Forall (λ c, 0 ≤ c < n) (counters t) → n ≤ u64_max →
  Forall (λ c, 0 ≤ c < n + 1) (counters (observe t s).2).
Proof.
  intros Hc Hn. rewrite (observe_counters t s n) by done. unfold counters in *.
  rewrite !Forall_cons in Hc. destruct Hc as (? & ? & ? & ? & _). unfold counted.
  cbn [zip_with]. rewrite !count_obs_cons, !count_obs_nil.
  rewrite !Forall_cons. repeat case_decide; split_and!; lia || constructor.
Qed.

Lemma observe_all_tracks l : ∀ t p n,
  tracks t p → Forall in_u32 l → 0 ≤ expected t → expected t + MAX_FORWARD_GAP * len l ≤ u64_max →
  Forall (λ c, 0 ≤ c < n) (counters t) → n + len l ≤ u64_max →
  let '(os, t') := observe_all t l in
  let '(os', p') := positions_all p l in
  os = os' ∧ tracks t' p' ∧ counters t' = zip_with Z.add (counters t) (counted os).
Proof.
  induction l as [|s l IH]; intros t p n T Hl He Hmax Hc Hn.
  { cbn -[Z.add]. split_and!; try done. unfold counters, counted. cbn [zip_with].
    rewrite !count_obs_nil, !Z.add_0_r. done. }
  rewrite len_cons in *. pose proof (len_nonneg l). unfold MAX_FORWARD_GAP in *.
  apply Forall_cons in Hl as [Hs Hl]. unfold observe_all, positions_all in *. cbn [run_machine].
  destruct (observe_refines t p s T Hs) as [Eo T']; [unfold MAX_FORWARD_GAP; lia|].
  pose proof (observe_growth t s ltac:(by rewrite (tk_highest _ _ T)) He) as Hg.
  pose proof (observe_counters t s n Hc ltac:(lia)) as Ec.
  pose proof (counters_below t s n Hc ltac:(lia)) as Hc'.
  assert (0 ≤ expected (observe t s).2).
  { pose proof (tracks_received _ _ T'). pose proof (tk_received _ _ T').
    pose proof (tk_bound _ _ T'). lia. }
  fold (positions_observe p s) in *.
  destruct (observe t s) as [o t1], (positions_observe p s) as [o' p1]. cbn [fst snd] in *. subst o'.
  unfold MAX_FORWARD_GAP in Hg.
  specialize (IH t1 p1 (n + 1) T' Hl ltac:(done) ltac:(lia) Hc' ltac:(lia)).
  destruct (run_machine observe t1 l) as [os t2], (run_machine positions_observe p1 l) as [os' p2].
  destruct IH as (-> & ? & E2). split_and!; [done..|].
  rewrite E2, Ec, (counted_cons o os'). by apply add_counts.
Qed.

(** *** Snapshots *)

(** Only the first [m] positions behind the newest one can be marked. *)
Lemma count_ones_window t p :
  tracks t p →
  count_ones (seen t) =
  len (filter (λ i, top p - Z.of_nat i ∈ got p)
         (seq 0 (Z.to_nat ((top p - base p + 1) `min` REORDER_WINDOW)))).
Proof.
  intros T. set (m := Z.to_nat _). unfold count_ones.
  pose proof (tk_got _ _ T _ (tk_top _ _ T)).
  assert (m ≤ 64)%nat by (unfold m, REORDER_WINDOW; lia).
  replace 64%nat with (m + (64 - m))%nat by lia. rewrite seq_app, filter_app, len_app. cbn [Nat.add].
  assert (filter (λ i, Z.testbit (seen t) (Z.of_nat i) = true) (seq m (64 - m)) = []) as ->.
  { apply filter_none. rewrite Forall_forall. intros i [Hi Hi']%elem_of_seq.
    rewrite (tk_seen _ _ T), bool_decide_eq_true by lia. intros [_ Hg%(tk_got _ _ T)].
    unfold m, REORDER_WINDOW in *. lia. }
  rewrite len_nil, Z.add_0_r. f_equal. apply filter_iff_in.
  intros i [Hi Hi']%elem_of_seq. rewrite (tk_seen _ _ T), bool_decide_eq_true by lia.
  split; [tauto|]. split; [lia|done].
Qed.

Lemma snapshot_recent t p :
  tracks t p →
  us_recent_missing (snapshot t) = recent_gaps p ∧
  us_recent_expected (snapshot t) = (top p - base p + 1) `min` REORDER_WINDOW ∧
  0 < us_recent_expected (snapshot t) ∧
  0 ≤ us_recent_missing (snapshot t) ≤ us_recent_expected (snapshot t).
Proof.
  intros T. pose proof (tk_got _ _ T _ (tk_top _ _ T)). unfold snapshot.
  cbn [us_recent_missing us_recent_expected].
  rewrite (count_ones_window _ _ T), (tk_span _ _ T). unfold recent_gaps.
  set (m := _ `min` _).
  pose proof (filter_complement (λ i, top p - Z.of_nat i ∈ got p) (seq 0 (Z.to_nat m))) as Hc.
  assert (len (seq 0 (Z.to_nat m)) = m) as Hm
    by (unfold len; rewrite length_seq; unfold m, REORDER_WINDOW; lia).
  pose proof (len_nonneg (filter (λ i, top p - Z.of_nat i ∈ got p) (seq 0 (Z.to_nat m)))).
  pose proof (len_nonneg (filter (λ i, top p - Z.of_nat i ∉ got p) (seq 0 (Z.to_nat m)))).
  assert (0 < m) by (unfold m, REORDER_WINDOW; lia). zlia.
Qed.

Lemma per_mille_bound x n : 0 ≤ x ≤ n → 0 < n → 0 ≤ per_mille x n ≤ 1000.
Proof.
  intros Hx Hn. unfold per_mille. rewrite decide_False by lia. unfold_ints. split.
  - apply Z.div_pos; lia.
  - apply Z.div_le_upper_bound; lia.
Qed.

(** C38: The UDP loss tracker measures exactly what arrived.  Reading the 32-bit
    sequence numbers of any history as positions on an unbounded line, the tracker
    classifies every arrival as the specification does, counts each position once,
    and reports the number of positions expected and received, the number of gaps in
    the last 64 positions, and the number of reordered, duplicate, too old and
    discontinuous arrivals; the loss ratio never exceeds 1,000 per mille.  The bound
    on the length of the history keeps the 64-bit totals from saturating. *)
Theorem udp_loss_exact (s : Z) (l : list Z) :
  Forall in_u32 (s :: l) → MAX_FORWARD_GAP * (len l + 1) ≤ u64_max →
  let '(os, t) := observe_all tracker_default (s :: l) in
  let '(os', p) := positions_all (positions_start s) l in
  os = UdpObservation.First :: os' ∧
  us_expected (snapshot t) = old_expected p + (top p - base p + 1) ∧
  us_received (snapshot t) = old_received p + Z.of_nat (size (got p)) ∧
  us_missing (snapshot t) = us_expected (snapshot t) - us_received (snapshot t) ∧
  us_recent_missing (snapshot t) = recent_gaps p ∧
  us_recent_expected (snapshot t) = (top p - base p + 1) `min` REORDER_WINDOW ∧
  0 ≤ us_recent_loss_per_mille (snapshot t) ≤ 1000 ∧
  [us_reordered (snapshot t); us_duplicates (snapshot t); us_too_old (snapshot t);
   us_discontinuities (snapshot t)] = counted os'.
Proof.
  intros [Hs Hl]%Forall_cons Hmax. unfold MAX_FORWARD_GAP in Hmax. pose proof (len_nonneg l).
  unfold observe_all. cbn [run_machine]. change (run_machine observe) with observe_all.
  set (t0 := (observe tracker_default s).2).
  assert (observe tracker_default s = (UdpObservation.First, t0)) as -> by done.
  assert (tracks t0 (positions_start s)) as T0.
  { split; cbn; rewrite ?size_singleton; try (done || lia); try set_solver by lia.
    - by rewrite Z.mod_small by zlia.
    - intros i Hi. rewrite testbit_one by done. apply eq_true_iff_eq.
      rewrite Z.eqb_eq, bool_decide_eq_true, elem_of_singleton. lia. }
  assert (expected t0 = 1) as E0 by done.
  pose proof (observe_all_tracks l t0 (positions_start s) 1 T0 Hl ltac:(lia)
    ltac:(unfold MAX_FORWARD_GAP; lia) ltac:(by repeat constructor) ltac:(zlia)) as H0.
  destruct (observe_all t0 l) as [os t], (positions_all (positions_start s) l) as [os' p].
  destruct H0 as (-> & T & Hc).
  destruct (snapshot_recent _ _ T) as (R1 & R2 & R3 & R4).
  pose proof (tracks_received _ _ T). split_and!; try done.
  - apply (tk_expected _ _ T).
  - apply (tk_received _ _ T).
  - unfold snapshot. cbn [us_missing us_expected us_received]. zlia.
  - by apply per_mille_bound.
  - by apply per_mille_bound.
Qed.

Lemma udp_loss_exact_witness :
  let t := (observe_all tracker_default [4294967294; 1; 4294967295; 1; 9000]).2 in
  let p := (positions_all (positions_start 4294967294) [1; 4294967295; 1; 9000]).2 in
  snapshot t = mkUdpLossSnapshot 5 4 1 1 0 0 1 1 0 1 ∧
  us_expected (snapshot t) = old_expected p + (top p - base p + 1) ∧
  us_recent_missing (snapshot t) = recent_gaps p.
Proof.
  split; [by vm_compute|].
  pose proof (udp_loss_exact 4294967294 [1; 4294967295; 1; 9000]
    ltac:(repeat constructor; zlia) ltac:(by vm_compute)) as H. revert H.
  destruct (observe_all _ _) as [os t], (positions_all _ _) as [os' p]. tauto.
Defined.

(** ** KCP retransmissions *)

Definition KCP_WINDOW : Z := 128.

Record KcpRetransmissionSnapshot := mkKcpRetransmissionSnapshot {
  ks_segments_sent : Z;
  ks_retransmitted : Z;
  ks_recent_segments : Z;
  ks_recent_retransmitted : Z;
  ks_recent_per_mille : Z
}.

Record KcpTelemetry := mkKcpTelemetry {
  segments_sent : Z;
  retransmitted : Z;
  recent : list bool;
  recent_retransmitted : Z
}.

Definition telemetry_default : KcpTelemetry := mkKcpTelemetry 0 0 [] 0.

(** The window counter is a [u16]: a decrement below zero or an increment past the
    width panics. *)
Definition u16_dec (n : Z) : outcome Z := expect (checked_sub n 1).
Definition u16_inc (n k : Z) : outcome Z := expect (checked_add u16_max n k).

(** A full window loses its oldest transmission. *)
Definition telemetry_evict (t : KcpTelemetry) : outcome (list bool * Z) :=
  if decide (len (recent t) = KCP_WINDOW) then
    match recent t with
    | true :: rest => n ← u16_dec (recent_retransmitted t); Done (rest, n)
    | false :: rest => Done (rest, recent_retransmitted t)
    | [] => Done ([], recent_retransmitted t)
    end
  else Done (recent t, recent_retransmitted t).

Definition telemetry_record (t : KcpTelemetry) (retransmission : bool) : outcome KcpTelemetry :=
  let sent := saturating_add u64_max (segments_sent t) 1 in
  let total := saturating_add u64_max (retransmitted t) (Z.b2z retransmission) in
  '(rest, n) ← telemetry_evict t;
  n ← u16_inc n (Z.b2z retransmission);
  Done (mkKcpTelemetry sent total (rest ++ [retransmission]) n).

Definition telemetry_snapshot (t : KcpTelemetry) : KcpRetransmissionSnapshot :=
  let recent_segments := len (recent t) mod 2 ^ 16 in
  mkKcpRetransmissionSnapshot (segments_sent t) (retransmitted t) recent_segments
    (recent_retransmitted t)
    (if decide (recent_segments = 0) then 0
     else (recent_retransmitted t * 1000) `min` u32_max / recent_segments).

Fixpoint telemetry_record_all (t : KcpTelemetry) (l : list bool) : outcome KcpTelemetry :=
  match l with
  | [] => Done t
  | r :: l => t ← telemetry_record t r; telemetry_record_all t l
  end.

(** Retransmissions among a list of transmissions. *)
Definition retransmissions (l : list bool) : Z := sumZ Z.b2z l.

(** The last [n] elements. *)
Definition latest {A} (n : nat) (l : list A) : list A := drop (length l - n) l.

Lemma retransmissions_bound l : 0 ≤ retransmissions l ≤ len l.
Proof.
  induction l as [|b l IH]; [done|]. unfold retransmissions in *. rewrite sumZ_cons, len_cons.
  destruct b; cbn; lia.
Qed.

Lemma latest_snoc {A} n (l : list A) x :
  (0 < n)%nat →
  latest n (l ++ [x]) =
  (if decide (length (latest n l) = n) then tail (latest n l) else latest n l) ++ [x].
Proof.
  intros Hn. unfold latest. rewrite length_drop, length_app. cbn [length].
  rewrite drop_app_le by lia. case_decide.
  - f_equal. assert (∀ k : list A, tail k = drop 1 k) as -> by by intros [].
    rewrite drop_drop. f_equal. lia.
  - f_equal. f_equal. lia.
Qed.

Record telemetry_inv (t : KcpTelemetry) (h : list bool) : Prop := {
  ti_recent : recent t = latest 128 h;
  ti_count : recent_retransmitted t = retransmissions (latest 128 h);
  ti_sent : segments_sent t = len h `min` u64_max;
  ti_total : retransmitted t = retransmissions h `min` u64_max
}.

Lemma len_latest {A} n (l : list A) : len (latest n l) ≤ Z.of_nat n.
Proof. unfold latest, len. rewrite length_drop. lia. Qed.

Lemma retransmissions_snoc l r : retransmissions (l ++ [r]) = retransmissions l + Z.b2z r.
Proof. unfold retransmissions. rewrite sumZ_app, sumZ_cons, sumZ_nil. lia. Qed.

Lemma telemetry_evict_latest t h r :
  telemetry_inv t h →
  ∃ rest, telemetry_evict t = Done (rest, retransmissions rest) ∧
    latest 128 (h ++ [r]) = rest ++ [r].
Proof.
  intros [Hr Hc _ _]. unfold telemetry_evict, KCP_WINDOW. rewrite Hr, Hc.
  pose proof (latest_snoc 128 h r ltac:(lia)) as Hsnoc.
  destruct (decide (len (latest 128 h) = 128)) as [Hd|Hd].
  - rewrite decide_True in Hsnoc by (unfold len in Hd; lia).
    destruct (latest 128 h) as [|[] rest] eqn:E; [done|..]; cbn [tail] in Hsnoc; exists rest.
    + split; [|done]. pose proof (retransmissions_bound rest).
      change (retransmissions (true :: rest)) with (1 + retransmissions rest).
      unfold u16_dec. by rewrite (proj2 (checked_sub_Some _ 1 (retransmissions rest))) by lia.
    + done.
  - rewrite decide_False in Hsnoc by (unfold len in Hd; lia). eauto.
Qed.

Lemma telemetry_record_inv t h r :
  telemetry_inv t h → ∃ t', telemetry_record t r = Done t' ∧ telemetry_inv t' (h ++ [r]).
Proof.
  intros T. destruct (telemetry_evict_latest t h r T) as (rest & Hev & El).
  unfold telemetry_record. rewrite Hev. cbn [mbind outcome_bind].
  pose proof (len_latest 128 (h ++ [r])) as Hl. rewrite El in Hl.
  pose proof (retransmissions_bound (rest ++ [r])) as Hb. rewrite retransmissions_snoc in Hb.
  unfold u16_inc. rewrite (proj2 (checked_add_Some _ _ _ (retransmissions rest + Z.b2z r))) by zlia.
  cbn [expect mbind outcome_bind]. eexists. split; [done|]. destruct T as [_ _ Hs Ht].
  split; cbn [recent recent_retransmitted segments_sent retransmitted];
    rewrite ?El, ?retransmissions_snoc; try done.
  - rewrite Hs, len_app, len_cons, len_nil. zlia.
  - rewrite Ht. destruct r; cbn [Z.b2z]; zlia.
Qed.

Lemma telemetry_record_all_inv l : ∀ t h,
  telemetry_inv t h → ∃ t', telemetry_record_all t l = Done t' ∧ telemetry_inv t' (h ++ l).
Proof.
  induction l as [|r l IH]; intros t h T; cbn [telemetry_record_all].
  - rewrite app_nil_r. eauto.
  - destruct (telemetry_record_inv t h r T) as (t' & -> & T'). cbn [mbind outcome_bind].
    destruct (IH t' (h ++ [r]) T') as (t'' & ? & ?). exists t''. by rewrite <- app_assoc in *.
Qed.

(** The KCP retransmission window is exact and never panics: after any history
    of transmissions the 16-bit window counter equals the number of retransmissions
    among the last 128 transmissions, the cumulative counters equal the totals
    (saturating at 64 bits), and the reported ratio is at most 1,000 per mille. *)
Theorem kcp_window_exact (l : list bool) :
  ∃ t, telemetry_record_all telemetry_default l = Done t ∧
    let k := telemetry_snapshot t in
    ks_recent_segments k = len l `min` KCP_WINDOW ∧
    ks_recent_retransmitted k = retransmissions (latest 128 l) ∧
    ks_segments_sent k = len l `min` u64_max ∧
    ks_retransmitted k = retransmissions l `min` u64_max ∧
    0 ≤ ks_recent_per_mille k ≤ 1000.
Proof.
  destruct (telemetry_record_all_inv l telemetry_default []) as (t & -> & [Hr Hc Hs Ht]).
  { by split. }
  exists t. split; [done|]. unfold telemetry_snapshot. cbn [app] in *. cbn.
  pose proof (len_latest 128 l) as Hl. pose proof (retransmissions_bound (latest 128 l)).
  assert (len (latest 128 l) = len l `min` 128) as El
    by (unfold latest, len; rewrite length_drop; lia).
  rewrite Hr, Hc, Z.mod_small by (pose proof (len_nonneg (latest 128 l)); lia).
  unfold KCP_WINDOW. split_and!; try done.
  - case_decide; [done|]. apply Z.div_pos; zlia.
  - case_decide; [done|]. apply Z.div_le_upper_bound; zlia.
Qed.

(** ** Grades *)

Module QualityGrade.
Inductive t := Unknown | Excellent | Good | Fair | Poor.
#[global] Instance t_eq_dec : EqDecision t.
Proof. solve_decision. Defined.

(** The derived order: declaration order. *)
Definition rank (g : t) : Z :=
  match g with Unknown => 0 | Excellent => 1 | Good => 2 | Fair => 3 | Poor => 4 end.
Definition max (g h : t) : t := if decide (rank g ≤ rank h) then h else g.
End QualityGrade.

Module QualityBasis.
Inductive t := LatencyOnly | UdpSequenceGap | KcpRetransmission.
#[global] Instance t_eq_dec : EqDecision t.
Proof. solve_decision. Defined.
End QualityBasis.

(** [QualitySample] of [heartbeat.rs]. *)
Record QualitySample := mkQualitySample {
  last_rtt : Duration;
  smoothed_rtt : Duration;
  jitter : Duration;
  samples : Z
}.

Record QualityPolicy := mkQualityPolicy {
  minimum_rtt_samples : Z;
  minimum_udp_packets : Z;
  minimum_kcp_segments : Z;
  excellent_rtt : Duration;
  good_rtt : Duration;
  fair_rtt : Duration;
  excellent_jitter : Duration;
  good_jitter : Duration;
  fair_jitter : Duration;
  excellent_udp_loss_per_mille : Z;
  good_udp_loss_per_mille : Z;
  fair_udp_loss_per_mille : Z;
  excellent_kcp_retransmission_per_mille : Z;
  good_kcp_retransmission_per_mille : Z;
  fair_kcp_retransmission_per_mille : Z
}.

Definition millis (n : Z) : Duration := n * 1000000.

Definition policy_default : QualityPolicy :=
  mkQualityPolicy 3 16 16 (millis 80) (millis 150) (millis 250)
    (millis 15) (millis 35) (millis 70) 10 30 100 10 50 150.

Definition policy_is_valid (p : QualityPolicy) : bool :=
  bool_decide (0 < minimum_rtt_samples p) &&
  bool_decide (1 ≤ minimum_udp_packets p ≤ 64) &&
  bool_decide (1 ≤ minimum_kcp_segments p ≤ 128) &&
  bool_decide (excellent_rtt p ≤ good_rtt p) && bool_decide (good_rtt p ≤ fair_rtt p) &&
  bool_decide (excellent_jitter p ≤ good_jitter p) && bool_decide (good_jitter p ≤ fair_jitter p) &&
  bool_decide (excellent_udp_loss_per_mille p ≤ good_udp_loss_per_mille p) &&
  bool_decide (good_udp_loss_per_mille p ≤ fair_udp_loss_per_mille p) &&
  bool_decide (fair_udp_loss_per_mille p ≤ 1000) &&
  bool_decide (excellent_kcp_retransmission_per_mille p ≤ good_kcp_retransmission_per_mille p) &&
  bool_decide (good_kcp_retransmission_per_mille p ≤ fair_kcp_retransmission_per_mille p) &&
  bool_decide (fair_kcp_retransmission_per_mille p ≤ 1000).

Definition grade_for (value excellent good fair : Z) : QualityGrade.t :=
  if decide (value ≤ excellent) then QualityGrade.Excellent
  else if decide (value ≤ good) then QualityGrade.Good
  else if decide (value ≤ fair) then QualityGrade.Fair
  else QualityGrade.Poor.

(** [Option::filter]. *)
Definition opt_filter {A} (p : A → bool) (o : option A) : option A :=
  match o with Some a => if p a then Some a else None | None => None end.

Definition classify (sample : QualitySample) (udp_loss : option UdpLossSnapshot)
    (kcp : option KcpRetransmissionSnapshot) (policy : QualityPolicy) :
    QualityGrade.t * QualityBasis.t :=
  let usable_loss :=
    opt_filter (λ l, bool_decide (minimum_udp_packets policy ≤ us_recent_expected l)) udp_loss in
  let usable_kcp :=
    opt_filter (λ k, bool_decide (minimum_kcp_segments policy ≤ ks_recent_segments k)) kcp in
  let basis :=
    match usable_loss, usable_kcp with
    | Some _, _ => QualityBasis.UdpSequenceGap
    | None, Some _ => QualityBasis.KcpRetransmission
    | None, None => QualityBasis.LatencyOnly
    end in
  if decide (samples sample < minimum_rtt_samples policy) then (QualityGrade.Unknown, basis)
  else
    let grade := QualityGrade.max
      (grade_for (smoothed_rtt sample) (excellent_rtt policy) (good_rtt policy) (fair_rtt policy))
      (grade_for (jitter sample) (excellent_jitter policy) (good_jitter policy) (fair_jitter policy)) in
    let grade :=
      match usable_loss with
      | Some l => QualityGrade.max grade
          (grade_for (us_recent_loss_per_mille l) (excellent_udp_loss_per_mille policy)
             (good_udp_loss_per_mille policy) (fair_udp_loss_per_mille policy))
      | None => grade
      end in
    let grade :=
      match usable_kcp with
      | Some k => QualityGrade.max grade
          (grade_for (ks_recent_per_mille k) (excellent_kcp_retransmission_per_mille policy)
             (good_kcp_retransmission_per_mille policy) (fair_kcp_retransmission_per_mille policy))
      | None => grade
      end in
    (grade, basis).

(** ** Change gate *)

Record QualityChangeGate := mkQualityChangeGate {
  published : option (QualityGrade.t * QualityBasis.t);
  candidate : option (QualityGrade.t * QualityBasis.t)
}.

Definition gate_default : QualityChangeGate := mkQualityChangeGate None None.

Definition gate_observe (g : QualityChangeGate) (o : QualityGrade.t * QualityBasis.t) :
    bool * QualityChangeGate :=
  if decide (o.1 = QualityGrade.Unknown ∨ published g = Some o) then
    (false, mkQualityChangeGate (published g) None)
  else if decide (candidate g = Some o) then (true, mkQualityChangeGate (Some o) None)
  else (false, mkQualityChangeGate (published g) (Some o)).

(** *** Grading is monotone *)

(** [worse a b]: every signal of [b] is at least as bad as in [a], with the same
    signals available. *)
Definition worse (s s' : QualitySample) (l l' : option UdpLossSnapshot)
    (k k' : option KcpRetransmissionSnapshot) : Prop :=
  smoothed_rtt s ≤ smoothed_rtt s' ∧ jitter s ≤ jitter s' ∧ samples s = samples s' ∧
  option_Forall2 (λ a b, us_recent_expected a = us_recent_expected b ∧
    us_recent_loss_per_mille a ≤ us_recent_loss_per_mille b) l l' ∧
  option_Forall2 (λ a b, ks_recent_segments a = ks_recent_segments b ∧
    ks_recent_per_mille a ≤ ks_recent_per_mille b) k k'.

Lemma grade_for_mono v w e g f :
  v ≤ w → e ≤ g → g ≤ f →
  QualityGrade.rank (grade_for v e g f) ≤ QualityGrade.rank (grade_for w e g f).
Proof. intros. unfold grade_for. repeat case_decide; cbn; lia. Qed.

Lemma rank_max g h :
  QualityGrade.rank (QualityGrade.max g h) = QualityGrade.rank g `max` QualityGrade.rank h.
Proof. unfold QualityGrade.max. case_decide; lia. Qed.

Lemma opt_filter_Forall2 {A} (R : A → A → Prop) (p : A → bool) o o' :
  option_Forall2 R o o' → (∀ a b, R a b → p a = p b) →
  option_Forall2 R (opt_filter p o) (opt_filter p o').
Proof. intros [a b HR|] Hp; cbn; [|constructor]. rewrite (Hp a b HR). case_match; by constructor. Qed.

(** Under a valid policy the grade is monotone: if every eligible signal of one
    measurement is at least as bad as in another, the grade is at least as bad, and
    the basis is the same.  No combination of worse latency, jitter, loss and
    retransmission improves the reported quality. *)
Theorem classify_monotone (s s' : QualitySample) (l l' : option UdpLossSnapshot)
    (k k' : option KcpRetransmissionSnapshot) (p : QualityPolicy) :
  policy_is_valid p = true → worse s s' l l' k k' →
  QualityGrade.rank (classify s l k p).1 ≤ QualityGrade.rank (classify s' l' k' p).1 ∧
  (classify s l k p).2 = (classify s' l' k' p).2.
Proof.
  intros Hv (Hr & Hj & Hn & Hl & Hk). unfold policy_is_valid in Hv.
  rewrite !andb_true_iff, !bool_decide_eq_true in Hv. unfold classify. rewrite Hn.
  apply (opt_filter_Forall2 _ (λ l, bool_decide (minimum_udp_packets p ≤ us_recent_expected l)))
    in Hl; [|intros a b [-> _]; done].
  apply (opt_filter_Forall2 _ (λ k, bool_decide (minimum_kcp_segments p ≤ ks_recent_segments k)))
    in Hk; [|intros a b [-> _]; done].
  assert (∀ v w, v ≤ w → QualityGrade.rank (grade_for v (excellent_rtt p) (good_rtt p) (fair_rtt p))
    ≤ QualityGrade.rank (grade_for w (excellent_rtt p) (good_rtt p) (fair_rtt p))) as H1
    by (intros; apply grade_for_mono; lia).
  pose proof (H1 _ _ Hr). pose proof (grade_for_mono _ _ (excellent_jitter p) (good_jitter p)
    (fair_jitter p) Hj ltac:(lia) ltac:(lia)).
  destruct Hl as [a b [_ Hab]|], Hk as [c d [_ Hcd]|]; case_decide; (split; [|done]);
    cbn [fst snd]; rewrite ?rank_max; try done;
    try pose proof (grade_for_mono _ _ (excellent_udp_loss_per_mille p)
      (good_udp_loss_per_mille p) (fair_udp_loss_per_mille p) Hab ltac:(lia) ltac:(lia));
    try pose proof (grade_for_mono _ _ (excellent_kcp_retransmission_per_mille p)
      (good_kcp_retransmission_per_mille p) (fair_kcp_retransmission_per_mille p) Hcd
      ltac:(lia) ltac:(lia)); lia.
Qed.

Lemma classify_monotone_witness :
  QualityGrade.rank
    (classify (mkQualitySample 1 (millis 90) (millis 5) 4)
       (Some (mkUdpLossSnapshot 64 60 4 64 4 62 0 0 0 0)) None policy_default).1 ≤
  QualityGrade.rank
    (classify (mkQualitySample 1 (millis 90) (millis 80) 4)
       (Some (mkUdpLossSnapshot 64 50 14 64 14 218 0 0 0 0)) None policy_default).1.
Proof.
  apply (classify_monotone _ _ _ _ _ _ policy_default); [by vm_compute|].
  split_and!; cbn; try done; repeat constructor; done.
Defined.

(** Specification of the gate: report an observation when it repeats the previous
    one, is known, and differs from the last one reported. *)
Definition debounce (st : option (QualityGrade.t * QualityBasis.t) *
                          option (QualityGrade.t * QualityBasis.t))
    (o : QualityGrade.t * QualityBasis.t) :=
  let report := bool_decide (o.1 ≠ QualityGrade.Unknown ∧ st.1 ≠ Some o ∧ st.2 = Some o) in
  (report, (if report then Some o else st.1, Some o)).

Definition gate_rel (g : QualityChangeGate) (st : option (QualityGrade.t * QualityBasis.t) *
    option (QualityGrade.t * QualityBasis.t)) : Prop :=
  published g = st.1 ∧
  ∀ o, candidate g = Some o ↔ st.2 = Some o ∧ o.1 ≠ QualityGrade.Unknown ∧ st.1 ≠ Some o.

Lemma gate_step g st o :
  gate_rel g st →
  (gate_observe g o).1 = (debounce st o).1 ∧ gate_rel (gate_observe g o).2 (debounce st o).2.
Proof.
  intros [Hp Hc]. unfold gate_observe, debounce, gate_rel. rewrite Hp. cbn [fst snd].
  pose proof (Hc o). repeat case_decide; repeat case_bool_decide; cbn [published candidate fst snd];
    split; try (naive_solver); (split; [done|]); intros o'; naive_solver.
Qed.

(** The change gate reports exactly the changes confirmed by two consecutive
    observations: over any history an observation is reported if and only if it is
    known, equals the observation immediately before it, and differs from the last
    one reported.  A single spike and a repeated stable grade are never reported. *)
Theorem quality_gate_debounces (l : list (QualityGrade.t * QualityBasis.t)) :
  (run_machine gate_observe gate_default l).1 = (run_machine debounce (None, None) l).1.
Proof.
  assert (∀ g st, gate_rel g st →
    (run_machine gate_observe g l).1 = (run_machine debounce st l).1) as H.
  { induction l as [|o l IH]; intros g st R; [done|]. cbn [run_machine].
    destruct (gate_step g st o R) as [E R'].
    destruct (gate_observe g o) as [b g'], (debounce st o) as [b' st']. cbn [fst snd] in *.
    specialize (IH g' st' R').
    destruct (run_machine gate_observe g' l), (run_machine debounce st' l). cbn in *. by subst. }
  apply H. split; [done|]. intros o. cbn. naive_solver.
Qed.
