(* ===== verification/Heartbeat.v ===== *)
(** * Heartbeats: [heartbeat.rs] and [heartbeat_runtime.rs]

    The probe tracker of one session, and the poll-driven runtime around a table of
    trackers.  The transport's send and close operations and the random challenge
    are arguments. *)

From S2P Require Import Prelude Bytes CoreTypes Observe GameWire Quality.

(** ** Instants and durations *)

(** [Duration::MAX], [Instant::saturating_duration_since] and
    [Instant::checked_duration_since]. *)
Definition DURATION_MAX : Z := u64_max * 1000000000 + 999999999.
Definition saturating_since (now t : Instant) : Duration := saturating_sub now t.
Definition checked_since (now t : Instant) : option Duration := checked_sub now t.
Definition dur_add (a b : Duration) : Duration := saturating_add DURATION_MAX a b.

(** ** Tracker *)

Record HeartbeatTracker := mkHeartbeatTracker {
  interval : Duration;
  timeout : Duration;
  last_ack : Instant;
  last_inbound_probe : option Instant;
  pending : option (Z * Instant);
  sample : option QualitySample;
  quality_change_gate : QualityChangeGate
}.
#[export] Instance HeartbeatTracker_eta : Eta HeartbeatTracker := λ t,
  mkHeartbeatTracker (interval t) (timeout t) (last_ack t) (last_inbound_probe t) (pending t)
    (sample t) (quality_change_gate t).

Definition tracker_new (interval timeout : Duration) (now : Instant) : Result HeartbeatTracker :=
  if decide (interval = 0 ∨ timeout = 0 ∨ timeout < interval) then
    fail ErrorCode.InvalidArgument "heartbeat timeout must be at least the nonzero interval"
  else Ok (mkHeartbeatTracker interval timeout now None None None gate_default).

Definition should_probe (t : HeartbeatTracker) (now : Instant) : bool :=
  bool_decide (pending t = None) && bool_decide (interval t ≤ saturating_since now (last_ack t)).

(** The spacing limit shared by the inbound probes of [heartbeat.rs] and
    [clock_sync.rs]. *)
Definition spaced (last : option Instant) (interval : Duration) (received_at : Instant) : bool :=
  let spacing := (interval / 4) `max` millis 1 in
  negb (is_some_and last (λ last,
    is_none_or (checked_since received_at last) (λ age, bool_decide (age < spacing)))).

Definition admit_probe (t : HeartbeatTracker) (received_at : Instant) : bool * HeartbeatTracker :=
  if spaced (last_inbound_probe t) (interval t) received_at then
    (true, t <| last_inbound_probe := Some received_at |>)
  else (false, t).

Definition mark_sent (t : HeartbeatTracker) (challenge : Z) (now : Instant) :
    Result unit * HeartbeatTracker :=
  if should_probe t now then (Ok tt, t <| pending := Some (challenge, now) |>)
  else (fail ErrorCode.InvalidState "heartbeat probe is not due or another probe is pending", t).

(** The sample a round trip of [rtt] produces. *)
Definition next_sample (previous : option QualitySample) (rtt : Duration) : QualitySample :=
  match previous with
  | None => mkQualitySample rtt rtt 0 1
  | Some p =>
    let delta := Z.abs (rtt - last_rtt p) in
    mkQualitySample rtt
      (dur_add (saturating_sub (smoothed_rtt p) (smoothed_rtt p / 8)) (rtt / 8))
      (dur_add (saturating_sub (jitter p) (jitter p / 16)) (delta / 16))
      (saturating_add u64_max (samples p) 1)
  end.

Definition accept_ack (t : HeartbeatTracker) (challenge : Z) (received_at processed_at : Instant) :
    option QualitySample * HeartbeatTracker :=
  match pending t with
  | None => (None, t)
  | Some (expected, sent_at) =>
    match checked_since received_at sent_at, checked_since processed_at received_at with
    | Some rtt, Some _ =>
      if decide (expected ≠ challenge ∨ timeout t ≤ rtt) then (None, t)
      else
        let s := next_sample (sample t) rtt in
        (Some s, t <| pending := None |> <| last_ack := processed_at |> <| sample := Some s |>)
    | _, _ => (None, t)
    end
  end.

Definition timed_out (t : HeartbeatTracker) (now : Instant) : bool :=
  match pending t with
  | Some (_, sent_at) => bool_decide (timeout t ≤ saturating_since now sent_at)
  | None => bool_decide (dur_add (interval t) (timeout t) ≤ saturating_since now (last_ack t))
  end.

Definition quality_changed (t : HeartbeatTracker) (o : QualityGrade.t * QualityBasis.t) :
    bool * HeartbeatTracker :=
  let '(b, g) := gate_observe (quality_change_gate t) o in
  (b, t <| quality_change_gate := g |>).

(** ** Runtime *)

Record HeartbeatMetrics := mkHeartbeatMetrics {
  probes_sent : Z;
  probe_send_failures : Z;
  replies_sent : Z;
  reply_send_failures : Z;
  replies_matched : Z;
  replies_rejected : Z;
  probes_rate_limited : Z;
  timeouts : Z;
  rtt_cumulative : LatencyHistogram;
  rtt_window : LatencyHistogram
}.
#[export] Instance HeartbeatMetrics_eta : Eta HeartbeatMetrics := λ m,
  mkHeartbeatMetrics (probes_sent m) (probe_send_failures m) (replies_sent m)
    (reply_send_failures m) (replies_matched m) (replies_rejected m) (probes_rate_limited m)
    (timeouts m) (rtt_cumulative m) (rtt_window m).

Definition metrics_default : HeartbeatMetrics :=
  mkHeartbeatMetrics 0 0 0 0 0 0 0 0 histogram_default histogram_default.

Definition record_matched_rtt (m : HeartbeatMetrics) (rtt : Duration) : HeartbeatMetrics :=
  m <| rtt_cumulative ::= λ h, histogram_record h rtt |>
    <| rtt_window ::= λ h, histogram_record h rtt |>
    <| replies_matched ::= fetch_add 1 |>.

(** The trackers of the ready sessions, the metrics, and the configuration. *)
Record HeartbeatRuntime := mkHeartbeatRuntime {
  heartbeat_interval : Duration;
  heartbeat_timeout : Duration;
  maximum_envelope_len : Z;
  quality_policy : QualityPolicy;
  trackers : gmap Z HeartbeatTracker;
  metrics : HeartbeatMetrics
}.
#[export] Instance HeartbeatRuntime_eta : Eta HeartbeatRuntime := λ r,
  mkHeartbeatRuntime (heartbeat_interval r) (heartbeat_timeout r) (maximum_envelope_len r)
    (quality_policy r) (trackers r) (metrics r).

(** [track_session]: the tracker's constructor is called with a validated policy. *)
Definition track_session (r : HeartbeatRuntime) (session : Handle) (now : Instant) :
    outcome HeartbeatRuntime :=
  match tracker_new (heartbeat_interval r) (heartbeat_timeout r) now with
  | Ok t => Done (r <| trackers ::= <[session := t]> |>)
  | Err _ => Panic
  end.

Definition forget_session (r : HeartbeatRuntime) (session : Handle) : HeartbeatRuntime :=
  r <| trackers ::= delete session |>.

(** What the tracker table is asked about by the rest of the runtime. *)
Record NetworkQuality := mkNetworkQuality {
  nq_last_rtt : Duration;
  nq_smoothed_rtt : Duration;
  nq_jitter : Duration;
  nq_samples : Z;
  nq_grade : QualityGrade.t;
  nq_basis : QualityBasis.t;
  nq_udp_loss : option UdpLossSnapshot;
  nq_kcp : option KcpRetransmissionSnapshot
}.

Definition not_ready {A} : Result A := fail ErrorCode.InvalidHandle "game session is not ready".

(** The UDP and KCP snapshots of the session are the results of the two queries the
    function makes. *)
Definition network_quality (r : HeartbeatRuntime) (session : Handle)
    (udp : Result (option UdpLossSnapshot)) (kcp : Result (option KcpRetransmissionSnapshot)) :
    Result (option NetworkQuality) :=
  match trackers r !! session with
  | None => not_ready
  | Some t =>
    udp_loss ← udp;
    kcp_retransmissions ← kcp;
    Ok ((λ s, let '(grade, basis) := classify s udp_loss kcp_retransmissions (quality_policy r) in
              mkNetworkQuality (last_rtt s) (smoothed_rtt s) (jitter s) (samples s) grade basis
                udp_loss kcp_retransmissions) <$> sample t)
  end.

Definition set_tracker (r : HeartbeatRuntime) (session : Handle) (t : HeartbeatTracker) :
    HeartbeatRuntime :=
  r <| trackers ::= <[session := t]> |>.

Section handlers.
(** [network.send_game_control] for one call of a handler: whether the control is
    admitted to the transport's queue. *)
Context (send : Handle → list byte → bool).

(** The [Probe] arm: rate limit, then one acknowledgement. *)
Definition handle_probe (r : HeartbeatRuntime) (session : Handle) (challenge : Z)
    (queued_at : Instant) : Result (list (list byte)) * HeartbeatRuntime :=
  match trackers r !! session with
  | None => (Ok [], r)
  | Some t =>
    match admit_probe t queued_at with
    | (false, _) => (Ok [], r <| metrics ::= λ m, m <| probes_rate_limited ::= fetch_add 1 |> |>)
    | (true, t) =>
      let r := set_tracker r session t in
      match HeartbeatWire.encode_heartbeat
              (HeartbeatWire.mkHeartbeatPacket HeartbeatWire.Ack challenge)
              (maximum_envelope_len r) with
      | Err e => (Err e, r)
      | Ok ack =>
        if send session ack then
          (Ok [ack], r <| metrics ::= λ m, m <| replies_sent ::= fetch_add 1 |> |>)
        else (Ok [], r <| metrics ::= λ m, m <| reply_send_failures ::= fetch_add 1 |> |>)
      end
    end
  end.

(** The [Ack] arm: match against the outstanding challenge, sample, and publish a
    confirmed quality change. *)
Definition handle_ack (r : HeartbeatRuntime) (session : Handle) (challenge : Z)
    (queued_at now : Instant) (udp : Result (option UdpLossSnapshot))
    (kcp : Result (option KcpRetransmissionSnapshot)) :
    option NetworkQuality * HeartbeatRuntime :=
  match trackers r !! session with
  | None => (None, r)
  | Some t =>
    match accept_ack t challenge queued_at now with
    | (None, _) => (None, r <| metrics ::= λ m, m <| replies_rejected ::= fetch_add 1 |> |>)
    | (Some s, t) =>
      let r := set_tracker r session t <| metrics ::= λ m, record_matched_rtt m (last_rtt s) |> in
      match network_quality r session udp kcp with
      | Ok (Some q) =>
        let '(publish, t) := quality_changed t (nq_grade q, nq_basis q) in
        (if publish then Some q else None, set_tracker r session t)
      | _ => (None, r)
      end
    end
  end.

Definition handle_heartbeat_event (r : HeartbeatRuntime) (session : Handle) (data : list byte)
    (queued_at now : Instant) (udp : Result (option UdpLossSnapshot))
    (kcp : Result (option KcpRetransmissionSnapshot)) :
    Result (option NetworkQuality * list (list byte)) * HeartbeatRuntime :=
  match Envelope.decode data (maximum_envelope_len r) with
  | Err e => (Err e, r)
  | Ok (Envelope.Control Envelope.Heartbeat payload) =>
    match HeartbeatWire.decode_heartbeat payload with
    | Err e => (Err e, r)
    | Ok (HeartbeatWire.mkHeartbeatPacket HeartbeatWire.Probe challenge) =>
      let '(res, r) := handle_probe r session challenge queued_at in
      (sent ← res; Ok (None, sent), r)
    | Ok (HeartbeatWire.mkHeartbeatPacket HeartbeatWire.Ack challenge) =>
      let '(q, r) := handle_ack r session challenge queued_at now udp kcp in
      (Ok (q, []), r)
    end
  | Ok _ => (game_protocol_error "authenticated game control is not a heartbeat", r)
  end.

(** The loop body of [drive_heartbeats] for one session: its tracker afterwards, the
    reason to close it, and the metrics. *)
Definition drive_session (maximum_len : Z) (now : Instant) (session : Handle)
    (challenge : option Z) (t : HeartbeatTracker) (m : HeartbeatMetrics) :
    HeartbeatTracker * option ErrorCode.t * HeartbeatMetrics :=
  if is_some_and (checked_sub now (millis 50)) (λ earlier, timed_out t earlier) then
    (t, Some ErrorCode.Timeout, m <| timeouts ::= fetch_add 1 |>)
  else if negb (should_probe t now) then (t, None, m)
  else
    match challenge with
    | None => (t, Some ErrorCode.CryptoError, m)
    | Some challenge =>
      match HeartbeatWire.encode_heartbeat
              (HeartbeatWire.mkHeartbeatPacket HeartbeatWire.Probe challenge) maximum_len with
      | Err _ => (t, Some ErrorCode.MessageTooLarge, m)
      | Ok encoded =>
        if send session encoded then
          ((mark_sent t challenge now).2, None, m <| probes_sent ::= fetch_add 1 |>)
        else (t, None, m <| probe_send_failures ::= fetch_add 1 |>)
      end
    end.

(** The table after the loop and after the closes it collected, the closes, and the
    metrics.  Sessions are visited in the order of [map_to_list]; [rng] is the
    challenge drawn for a session. *)
Definition drive_heartbeats (r : HeartbeatRuntime) (now : Instant) (rng : Handle → option Z) :
    list (Handle * ErrorCode.t) * HeartbeatRuntime :=
  let visit session t m := drive_session (maximum_envelope_len r) now session (rng session) t m in
  let '(close, m) :=
    foldl (λ '(close, m) '(session, t),
             let '(_, c, m) := visit session t m in
             (match c with Some reason => close ++ [(session, reason)] | None => close end, m))
      ([], metrics r) (map_to_list (trackers r)) in
  let kept := map_imap (λ session t, Some (visit session t (metrics r)).1.1) (trackers r) in
  (close, foldl forget_session (r <| trackers := kept |> <| metrics := m |>) close.*1).

End handlers.

(** ** Driving the table, session by session *)

Section drive.
Context (send : Handle → list byte → bool).

(** The metrics only count: they do not influence a tracker's fate. *)
Lemma drive_session_metrics ml now s c t m m' :
  (drive_session send ml now s c t m).1 = (drive_session send ml now s c t m').1.
Proof. unfold drive_session. repeat case_match; done. Qed.

(** The loop over the whole table is the loop body at every session. *)
Definition session_fate (r : HeartbeatRuntime) (now : Instant) (rng : Handle → option Z)
    (s : Handle) (t : HeartbeatTracker) : HeartbeatTracker * option ErrorCode.t :=
  (drive_session send (maximum_envelope_len r) now s (rng s) t (metrics r)).1.

Lemma foldl_forget keys r :
  (foldl forget_session r keys) = r <| trackers ::= λ m, foldl (λ m k, delete k m) m keys |>.
Proof. revert r. induction keys as [|k keys IH]; intros [] ; [done|]. cbn. by rewrite IH. Qed.

Lemma lookup_foldl_delete (keys : list Z) (m : gmap Z HeartbeatTracker) s :
  foldl (λ m k, delete k m) m keys !! s = if decide (s ∈ keys) then None else m !! s.
Proof.
  revert m. induction keys as [|k keys IH]; intros m; cbn [foldl].
  { rewrite decide_False; [done|]. apply not_elem_of_nil. }
  rewrite IH. destruct (decide (s ∈ keys)).
  { by rewrite decide_True by (by right). }
  destruct (decide (s = k)) as [->|].
  - by rewrite decide_True, lookup_delete_eq by (by left).
  - rewrite decide_False, lookup_delete_ne by (done || by rewrite not_elem_of_cons). done.
Qed.

Lemma drive_closes r now rng :
  (drive_heartbeats send r now rng).1 =
  omap (λ '(s, t), (λ c, (s, c)) <$> (session_fate r now rng s t).2) (map_to_list (trackers r)).
Proof.
  unfold drive_heartbeats, session_fate.
  assert (∀ l acc m,
    (foldl (λ '(close, m) '(session, t),
       let '(_, c, m) := drive_session send (maximum_envelope_len r) now session (rng session) t m in
       (match c with Some reason => close ++ [(session, reason)] | None => close end, m))
       (acc, m) l).1 =
    acc ++ omap (λ '(s, t), (λ c, (s, c)) <$>
      (drive_session send (maximum_envelope_len r) now s (rng s) t (metrics r)).1.2) l) as H.
  { intros l. induction l as [|[s t] l IH]; intros acc m; cbn [foldl omap list_omap];
      [by rewrite app_nil_r|].
    rewrite <- (drive_session_metrics _ _ _ _ t m (metrics r)).
    destruct (drive_session send _ now s (rng s) t m) as [[t' [c|]] m'] eqn:E; cbn [fst snd fmap option_fmap option_map].
    - rewrite IH, <- app_assoc. done.
    - by rewrite IH. }
  specialize (H (map_to_list (trackers r)) [] (metrics r)).
  destruct (foldl _ ([], metrics r) _) as [close m]. exact H.
Qed.

Lemma drive_trackers r now rng s :
  trackers (drive_heartbeats send r now rng).2 !! s =
  t ← trackers r !! s;
  match session_fate r now rng s t with
  | (t', None) => Some t'
  | (_, Some _) => None
  end.
Proof.
  pose proof (drive_closes r now rng) as Hc. unfold drive_heartbeats in *.
  destruct (foldl _ ([], metrics r) _) as [close m]. cbn [fst snd] in *. rewrite foldl_forget. cbn.
  rewrite lookup_foldl_delete, map_lookup_imap. subst close.
  assert (∀ c, (s, c) ∈ omap (λ '(s, t), (λ c, (s, c)) <$> (session_fate r now rng s t).2)
    (map_to_list (trackers r)) ↔ ∃ t, trackers r !! s = Some t ∧ (session_fate r now rng s t).2 = Some c)
    as Hin.
  { intros c. rewrite list_elem_of_omap. split.
    - intros ([s' t] & Ht%elem_of_map_to_list & Hf). destruct (session_fate r now rng s' t).2 eqn:E; [|done].
      cbn in Hf. simplify_eq. eauto.
    - intros (t & Ht & E). exists (s, t). rewrite elem_of_map_to_list, E. done. }
  destruct (trackers r !! s) as [t|] eqn:Et; cbn [mbind option_bind].
  - destruct (session_fate r now rng s t) as [t' [c|]] eqn:E.
    + rewrite decide_True; [done|]. apply list_elem_of_fmap. exists (s, c). split; [done|].
      apply Hin. exists t. by rewrite E.
    + rewrite decide_False; [change (Some (session_fate r now rng s t).1 = Some t'); by rewrite E|].
      intros ([s' c] & -> & (t0 & Ht0 & E0)%Hin)%list_elem_of_fmap. cbn in *. simplify_eq.
      rewrite E in E0. done.
  - case_decide; done.
Qed.

End drive.

(** ** Liveness *)

(** What decides whether a session is alive. *)
Definition same_liveness (t t' : HeartbeatTracker) : Prop :=
  interval t' = interval t ∧ timeout t' = timeout t ∧ last_ack t' = last_ack t ∧
  pending t' = pending t.

(** [data] is the timely answer to the probe the session has outstanding. *)
Definition answers (r : HeartbeatRuntime) (t : HeartbeatTracker) (data : list byte)
    (queued_at now : Instant) : Prop :=
  ∃ c sent, pending t = Some (c, sent) ∧ sent ≤ queued_at < sent + timeout t ∧ queued_at ≤ now ∧
    HeartbeatWire.encode_heartbeat (HeartbeatWire.mkHeartbeatPacket HeartbeatWire.Ack c)
      (maximum_envelope_len r) = Ok data.

Lemma accept_ack_Some t c q now s t' :
  accept_ack t c q now = (Some s, t') →
  ∃ sent, pending t = Some (c, sent) ∧ sent ≤ q < sent + timeout t ∧ q ≤ now ∧
    t' = t <| pending := None |> <| last_ack := now |> <| sample := Some s |> ∧
    s = next_sample (sample t) (q - sent).
Proof.
  unfold accept_ack, checked_since. destruct (pending t) as [[c' sent]|]; [|done].
  destruct (checked_sub q sent) as [rtt|] eqn:E1; [|done].
  destruct (checked_sub now q) eqn:E2; [|done]. apply checked_sub_Some in E1 as [-> ?].
  apply checked_sub_Some in E2 as [_ ?]. case_decide as Hd; [done|]. intros [= <- <-].
  apply Decidable.not_or in Hd as [Hd ?]. apply dec_stable in Hd as ->.
  exists sent. split_and!; done || lia.
Qed.

Lemma accept_ack_None t c q now t' : accept_ack t c q now = (None, t') → t' = t.
Proof. unfold accept_ack. repeat case_match; naive_solver. Qed.

Lemma event_frame send r s' data q now udp kcp :
  let r' := (handle_heartbeat_event send r s' data q now udp kcp).2 in
  maximum_envelope_len r' = maximum_envelope_len r ∧
  (∀ s, s ≠ s' → trackers r' !! s = trackers r !! s).
Proof.
  unfold handle_heartbeat_event, handle_probe, handle_ack, set_tracker.
  repeat (case_match; cbn; try done); simplify_eq/=;
    (split; [done|]); intros s Hs; rewrite ?lookup_insert_ne by done; done.
Qed.

Lemma handle_probe_liveness send r s c q t :
  trackers r !! s = Some t →
  ∃ t', trackers (handle_probe send r s c q).2 !! s = Some t' ∧ same_liveness t t'.
Proof.
  intros Ht. unfold handle_probe, admit_probe, set_tracker. rewrite Ht.
  repeat (case_match; cbn); simplify_eq/=; rewrite ?lookup_insert_eq; eauto;
    eexists; (split; [done|]); done.
Qed.

Lemma handle_ack_liveness r s c q now udp kcp t :
  trackers r !! s = Some t →
  ∃ t', trackers (handle_ack r s c q now udp kcp).2 !! s = Some t' ∧
    match (accept_ack t c q now).1 with
    | None => t' = t
    | Some smp =>
      interval t' = interval t ∧ timeout t' = timeout t ∧ pending t' = None ∧ last_ack t' = now ∧
      sample t' = Some smp
    end.
Proof.
  intros Ht. unfold handle_ack, set_tracker. rewrite Ht.
  destruct (accept_ack t c q now) as [[smp|] ta] eqn:Ea; [|exists t; done].
  apply accept_ack_Some in Ea as (sent & _ & _ & _ & -> & _).
  match goal with |- context [network_quality ?r ?s ?u ?k] =>
    destruct (network_quality r s u k) as [[nq|]|] end.
  2,3: cbn; rewrite lookup_insert_eq; eexists; split; [done|]; done.
  unfold quality_changed. destruct (gate_observe _ _) as [b g]. cbn. rewrite lookup_insert_eq.
  eexists. split; [done|]. done.
Qed.

Lemma event_liveness send r s data q now udp kcp t :
  maximum_envelope_len r ≤ usize_max → trackers r !! s = Some t →
  ∃ t', trackers (handle_heartbeat_event send r s data q now udp kcp).2 !! s = Some t' ∧
    (same_liveness t t' ∨
     answers r t data q now ∧ interval t' = interval t ∧ timeout t' = timeout t ∧
     pending t' = None ∧ last_ack t' = now ∧
     ∃ c sent, pending t = Some (c, sent) ∧ sample t' = Some (next_sample (sample t) (q - sent))).
Proof.
  intros Hmax Ht. unfold handle_heartbeat_event.
  destruct (Envelope.decode data (maximum_envelope_len r)) as [[|[] body]|] eqn:Ed;
    try (exists t; split; [done|by left]).
  apply control_iff_encode in Ed; [|done].
  destruct (HeartbeatWire.decode_heartbeat body) as [[[] c]|] eqn:Eh;
    try (exists t; split; [done|by left]).
  - destruct (handle_probe_liveness send r s c q t Ht) as (t' & Ht' & Hl).
    destruct (handle_probe send r s c q). exists t'. split; [done|by left].
  - apply HeartbeatWire.decode_heartbeat_Ok in Eh as [_ ->].
    destruct (handle_ack_liveness r s c q now udp kcp t Ht) as (t' & Ht' & Hl).
    destruct (handle_ack r s c q now udp kcp). exists t'. split; [done|].
    destruct (accept_ack t c q now) as [[smp|] ta] eqn:Ea; cbn [fst] in Hl; [right|by subst; left].
    apply accept_ack_Some in Ea as (sent & Hp & Hq & Hn & _ & ->).
    destruct Hl as (? & ? & ? & ? & ?). split_and!; try done; [|by exists c, sent].
    exists c, sent. done.
Qed.

(** Only the genuine answer keeps a session alive.  Whatever authenticated bytes
    arrive on a session, its liveness clock, outstanding probe and samples change
    only when they are exactly the encoded acknowledgement of the challenge that is
    outstanding, received after the probe was sent and before its timeout; the probe
    is then retired, so the same answer cannot be used again, and no other session
    is touched. *)
Theorem heartbeat_answer_unique (send : Handle → list byte → bool) (r : HeartbeatRuntime)
    (s s' : Handle) (data : list byte) (q now : Instant)
    (udp : Result (option UdpLossSnapshot)) (kcp : Result (option KcpRetransmissionSnapshot))
    (t : HeartbeatTracker) :
  maximum_envelope_len r ≤ usize_max → trackers r !! s = Some t →
  let r' := (handle_heartbeat_event send r s' data q now udp kcp).2 in
  ∃ t', trackers r' !! s = Some t' ∧
    (same_liveness t t' ∨
     s = s' ∧ answers r t data q now ∧ last_ack t' = now ∧ pending t' = None ∧
     (∀ q2 now2, ¬ answers r' t' data q2 now2)).
Proof.
  intros Hmax Ht r'. destruct (decide (s = s')) as [<-|Hne].
  - destruct (event_liveness send r s data q now udp kcp t Hmax Ht)
      as (t' & Ht' & [?|(Ha & _ & _ & Hp & Hl & _)]); exists t'; (split; [done|]); [by left|].
    right. split_and!; try done. intros q2 now2 (c & sent & Hc & _). congruence.
  - exists t. split; [|by left]. unfold r'.
    by rewrite (proj2 (event_frame send r s' data q now udp kcp) s Hne).
Qed.

Definition witness_runtime (t : HeartbeatTracker) : HeartbeatRuntime :=
  mkHeartbeatRuntime (millis 1000) (millis 3000) 64 policy_default {[7 := t]} metrics_default.

Definition witness_tracker (p : option (Z * Instant)) : HeartbeatTracker :=
  mkHeartbeatTracker (millis 1000) (millis 3000) (millis 10) None p None gate_default.

Lemma heartbeat_answer_unique_witness :
  ∃ t', trackers (handle_heartbeat_event (λ _ _, true)
      (witness_runtime (witness_tracker (Some (5, millis 2000)))) 7
      (map of_u8 [1; 0; 0; 12; 0; 0; 0; 0; 0; 0; 0; 0; 2; 0; 0; 0; 0; 0; 0; 0; 5])
      (millis 2100) (millis 2200) (Ok None) (Ok None)).2 !! 7 = Some t' ∧
    last_ack t' = millis 2200.
Proof.
  destruct (heartbeat_answer_unique (λ _ _, true)
    (witness_runtime (witness_tracker (Some (5, millis 2000)))) 7 7
    (map of_u8 [1; 0; 0; 12; 0; 0; 0; 0; 0; 0; 0; 0; 2; 0; 0; 0; 0; 0; 0; 0; 5])
    (millis 2100) (millis 2200) (Ok None) (Ok None) (witness_tracker (Some (5, millis 2000)))
    ltac:(by vm_compute) ltac:(by vm_compute)) as (t' & Ht & Hor).
  exists t'. split; [exact Ht|]. vm_compute in Ht. apply (inj Some) in Ht. by subst t'.
Defined.

(** *** Silence is detected *)

Inductive hb_action :=
| HbDrive (now : Instant) (rng : Handle → option Z) (send : Handle → list byte → bool)
| HbEvent (session : Handle) (data : list byte) (queued_at now : Instant)
    (udp : Result (option UdpLossSnapshot)) (kcp : Result (option KcpRetransmissionSnapshot))
    (send : Handle → list byte → bool).

Definition hb_act (r : HeartbeatRuntime) (a : hb_action) : HeartbeatRuntime :=
  match a with
  | HbDrive now rng send => (drive_heartbeats send r now rng).2
  | HbEvent s data q now udp kcp send =>
    (handle_heartbeat_event send r s data q now udp kcp).2
  end.

Definition hb_run : HeartbeatRuntime → list hb_action → HeartbeatRuntime := foldl hb_act.

(** No timely answer to an outstanding probe of [s] arrives during the run. *)
Fixpoint silent (r : HeartbeatRuntime) (s : Handle) (acts : list hb_action) : Prop :=
  match acts with
  | [] => True
  | a :: acts =>
    match a with
    | HbEvent s' data q now _ _ _ =>
      s' = s → ∀ t, trackers r !! s = Some t → ¬ answers r t data q now
    | HbDrive _ _ _ => True
    end ∧ silent (hb_act r a) s acts
  end.

(** A session that has been silent since [t0]: gone, or with its last probe sent
    before its no-progress deadline. *)
Definition quiet (t0 iv tmo : Z) (o : option HeartbeatTracker) : Prop :=
  match o with
  | None => True
  | Some t =>
    interval t = iv ∧ timeout t = tmo ∧ last_ack t = t0 ∧
    match pending t with
    | None => True
    | Some (_, sent) => sent < t0 + iv + tmo + millis 50
    end
  end.

Lemma overdue_quiet now t t0 iv tmo :
  0 ≤ t0 → 0 < iv → 0 < tmo → iv + tmo ≤ DURATION_MAX → quiet t0 iv tmo (Some t) →
  let overdue := is_some_and (checked_sub now (millis 50)) (λ earlier, timed_out t earlier) in
  (t0 + iv + 2 * tmo + millis 100 ≤ now → overdue = true) ∧
  (overdue = false → pending t = None → now < t0 + iv + tmo + millis 50).
Proof.
  intros H0 Hiv Htmo Hmax (Ei & Et & El & Ep) overdue. unfold overdue, timed_out, millis, dur_add,
    saturating_since, checked_sub in *. rewrite Ei, Et, El.
  destruct (pending t) as [[c sent]|]; case_decide; cbn [is_some_and];
    (split; [intros Hb|intros Hb Hp; try done]);
    rewrite ?bool_decide_eq_true, ?bool_decide_eq_false in *;
    unfold saturating_add, saturating_sub in *; lia.
Qed.

Lemma drive_quiet send ml now s c t m t0 iv tmo :
  0 ≤ t0 → 0 < iv → 0 < tmo → iv + tmo ≤ DURATION_MAX → quiet t0 iv tmo (Some t) →
  quiet t0 iv tmo (Some (drive_session send ml now s c t m).1.1) ∧
  (t0 + iv + 2 * tmo + millis 100 ≤ now →
   (drive_session send ml now s c t m).1.2 = Some ErrorCode.Timeout).
Proof.
  intros H0 Hiv Htmo Hmax Hq.
  destruct (overdue_quiet now t t0 iv tmo H0 Hiv Htmo Hmax Hq) as [Hlate Hsoon].
  unfold drive_session. destruct (is_some_and _ _); [by split|]. specialize (Hsoon eq_refl).
  split; [|intros Hn; specialize (Hlate Hn); done].
  destruct (should_probe t now) eqn:Hp; cbn [negb]; [|done].
  destruct c as [c|]; [|done]. destruct (HeartbeatWire.encode_heartbeat _ _) as [w|]; [|done].
  destruct (send s w); [|done]. unfold mark_sent. rewrite Hp.
  unfold should_probe in Hp. apply andb_true_iff in Hp as [Hp%bool_decide_eq_true _].
  destruct Hq as (? & ? & ? & _). split_and!; try done. cbn. by apply Hsoon.
Qed.

Lemma quiet_run acts : ∀ r s t0 iv tmo,
  maximum_envelope_len r ≤ usize_max →
  0 ≤ t0 → 0 < iv → 0 < tmo → iv + tmo ≤ DURATION_MAX →
  quiet t0 iv tmo (trackers r !! s) → silent r s acts → quiet t0 iv tmo (trackers (hb_run r acts) !! s).
Proof.
  induction acts as [|a acts IH]; intros r s t0 iv tmo Hmax H0 Hiv Htmo Hd Hq Hs; [done|].
  destruct Hs as [Ha Hs]. cbn [hb_run foldl] in *. apply IH; try done.
  - destruct a as [now rng send|s' data q now udp kcp send]; cbn [hb_act].
    + unfold drive_heartbeats. destruct (foldl _ ([], metrics r) _). cbn. by rewrite foldl_forget.
    + destruct (event_frame send r s' data q now udp kcp) as [Hm _]. by rewrite Hm.
  - destruct a as [now rng send|s' data q now udp kcp send]; cbn [hb_act].
    + rewrite drive_trackers. destruct (trackers r !! s) as [t|] eqn:Et; [|done].
      cbn [mbind option_bind]. unfold session_fate.
      destruct (drive_quiet send (maximum_envelope_len r) now s (rng s) t (metrics r) t0 iv tmo)
        as [Hq' _]; [done..|].
      destruct (drive_session _ _ _ _ _ _ _) as [[t' [c|]] m']; done.
    + destruct (decide (s = s')) as [<-|Hne].
      2:{ by rewrite (proj2 (event_frame send r s' data q now udp kcp) s Hne). }
      destruct (trackers r !! s) as [t|] eqn:Et.
      * destruct (event_liveness send r s data q now udp kcp t Hmax Et)
          as (t' & -> & [(E1 & E2 & E3 & E4)|[Hans _]]).
        -- unfold quiet in *. by rewrite E1, E2, E3, E4.
        -- by destruct (Ha eq_refl t eq_refl).
      * assert (trackers (handle_heartbeat_event send r s data q now udp kcp).2 !! s = None) as ->; [|done].
        unfold handle_heartbeat_event, handle_probe, handle_ack. rewrite Et.
        repeat (case_match; cbn; try done); simplify_eq/=; done.
Qed.



(** ** Samples *)

(** The sample after a sequence of round trips. *)
Definition samples_of (rtts : list Duration) : option QualitySample :=
  foldl (λ o rtt, Some (next_sample o rtt)) None rtts.

(** An exponential average with floored divisions stays within the range of its
    inputs. *)
Lemma smooth_within n lo hi x y :
  0 < n → 0 ≤ lo → lo ≤ x ≤ hi → lo ≤ y ≤ hi → lo ≤ x - x / n + y / n ≤ hi.
Proof.
  intros Hn Hlo Hx Hy.
  assert (∀ a b, a ≤ b → a - a / n ≤ b - b / n) as Hmono.
  { intros a b Hab. assert (b / n ≤ a / n + (b - a)); [|lia].
    rewrite <- Z.div_add by lia. apply Z.div_le_mono; nia. }
  assert (∀ a b, a ≤ b → a / n ≤ b / n) as Hdiv by (intros; apply Z.div_le_mono; lia).
  pose proof (Hmono _ _ (proj1 Hx)). pose proof (Hmono _ _ (proj2 Hx)).
  pose proof (Hdiv _ _ (proj1 Hy)). pose proof (Hdiv _ _ (proj2 Hy)). lia.
Qed.

Lemma smooth_saturating n x y hi :
  0 < n → 0 ≤ x ≤ hi → 0 ≤ y ≤ hi → hi ≤ DURATION_MAX →
  dur_add (saturating_sub x (x / n)) (y / n) = x - x / n + y / n.
Proof.
  intros Hn Hx Hy Hhi. pose proof (smooth_within n 0 hi x y Hn ltac:(lia) Hx Hy).
  assert (x / n ≤ x) by (apply Z.div_le_upper_bound; nia).
  unfold dur_add, saturating_add, saturating_sub. lia.
Qed.

Definition sample_within (lo hi : Duration) (s : QualitySample) : Prop :=
  lo ≤ last_rtt s ≤ hi ∧ lo ≤ smoothed_rtt s ≤ hi ∧ 0 ≤ jitter s ≤ hi - lo.

Lemma next_sample_within lo hi o rtt :
  0 ≤ lo → hi ≤ DURATION_MAX → lo ≤ rtt ≤ hi →
  (∀ s, o = Some s → sample_within lo hi s) → sample_within lo hi (next_sample o rtt).
Proof.
  intros Hlo Hhi Hr Hs. destruct o as [p|]; [destruct (Hs p eq_refl) as (H1 & H2 & H3)|];
    unfold sample_within, next_sample; cbn.
  - rewrite (smooth_saturating 8 _ _ hi), (smooth_saturating 16 _ _ (hi - lo)) by lia.
    split; [lia|]. split; [by apply smooth_within; lia|]. by apply (smooth_within 16 0); lia.
  - lia.
Qed.

(** Reported latency is never outside what was measured.  After any nonempty
    sequence of round trips between [lo] and [hi], in the code's flooring and
    saturating 1/8 and 1/16 averages, the smoothed round trip stays between [lo] and
    [hi], the jitter is at most [hi - lo], the last round trip is the last one
    measured, and the sample count is the number of round trips. *)
Theorem heartbeat_sample_bounds (lo hi : Duration) (rtts : list Duration) (rtt : Duration) :
  0 ≤ lo → hi ≤ DURATION_MAX → Forall (λ x, lo ≤ x ≤ hi) (rtts ++ [rtt]) →
  ∃ s, samples_of (rtts ++ [rtt]) = Some s ∧ sample_within lo hi s ∧
    last_rtt s = rtt ∧ samples s = (len rtts + 1) `min` u64_max.
Proof.
  intros Hlo Hhi [Hl Hr]%Forall_app. apply Forall_cons in Hr as [Hr _]. unfold samples_of.
  rewrite foldl_app. cbn [foldl]. eexists. split; [done|].
  assert (∀ s, samples_of rtts = Some s → sample_within lo hi s ∧ samples s = len rtts `min` u64_max)
    as Hall.
  { clear rtt Hr. induction rtts as [|x l IH] using rev_ind; [done|]. intros s.
    apply Forall_app in Hl as [Hl Hx]. apply Forall_cons in Hx as [Hx _]. specialize (IH Hl).
    unfold samples_of in *. rewrite foldl_app. cbn [foldl]. intros [= <-].
    rewrite len_app, len_cons, len_nil. split.
    - apply next_sample_within; try done. intros s Hs. by apply IH.
    - destruct (foldl _ None l) as [p|] eqn:E; cbn.
      + destruct (IH p eq_refl) as [_ ->]. zlia.
      + destruct l as [|y l] using rev_ind; [done|]. by rewrite foldl_app in E. }
  fold (samples_of rtts). split; [|split].
  - apply next_sample_within; try done. intros s Hs. by apply Hall.
  - by destruct (samples_of rtts).
  - destruct (samples_of rtts) as [p|] eqn:E; cbn.
    + destruct (Hall p eq_refl) as [_ ->]. zlia.
    + unfold samples_of in E. destruct rtts as [|y l] using rev_ind; [done|]. by rewrite foldl_app in E.
Qed.

Lemma heartbeat_sample_bounds_witness :
  ∃ s, samples_of ([millis 20; millis 40] ++ [millis 30]) = Some s ∧
    millis 20 ≤ smoothed_rtt s ≤ millis 40.
Proof.
  destruct (heartbeat_sample_bounds (millis 20) (millis 40) [millis 20; millis 40] (millis 30))
    as (s & Hs & (_ & Hw & _) & _); [done|done|repeat constructor; done|].
  exists s. split; [exact Hs|exact Hw].
Defined.
