(* ===== verification/ClockSync.v ===== *)
(** * Clock synchronisation: [clock_sync.rs] and [clock_sync_runtime.rs]

    Four-timestamp offset estimation, the per-session tracker and the runtime's
    probing loop and control handler. *)

From S2P Require Import Prelude Bytes CoreTypes Observe GameWire Quality Heartbeat.

Record ClockSyncSample := mkClockSyncSample {
  server_minus_client_us : Z;
  cs_rtt : Duration;
  cs_samples : Z
}.

Definition i64_range (z : Z) : Prop := - 2 ^ 63 ≤ z ≤ 2 ^ 63 - 1.
#[export] Instance i64_range_dec z : Decision (i64_range z).
Proof. unfold i64_range. apply _. Defined.

(** [i64::try_from(..).ok()]. *)
Definition i64_try_from (z : Z) : option Z := if decide (i64_range z) then Some z else None.

Definition micros (us : Z) : Duration := us * 1000.

(** The [i128] sum cannot overflow; its division by two truncates towards zero. *)
Definition calculate_sample (t1_us t2_us t3_us t4_us : Z) : option ClockSyncSample :=
  if decide (t3_us < t2_us ∨ t4_us < t1_us) then None
  else
    let client_elapsed := t4_us - t1_us in
    let server_elapsed := t3_us - t2_us in
    rtt_us ← checked_sub client_elapsed server_elapsed;
    let offset := Z.quot ((t2_us - t1_us) + (t3_us - t4_us)) 2 in
    offset ← i64_try_from offset;
    Some (mkClockSyncSample offset (micros rtt_us) 1).

Record ClockSyncTracker := mkClockSyncTracker {
  ct_client : bool;
  ct_last_sent : option Instant;
  ct_pending : option (Z * Z * Instant);
  ct_last_inbound_probe : option Instant;
  ct_sample : option ClockSyncSample
}.
#[export] Instance ClockSyncTracker_eta : Eta ClockSyncTracker := λ t,
  mkClockSyncTracker (ct_client t) (ct_last_sent t) (ct_pending t) (ct_last_inbound_probe t)
    (ct_sample t).

Definition clock_new_client : ClockSyncTracker := mkClockSyncTracker true None None None None.
Definition clock_new_server : ClockSyncTracker := mkClockSyncTracker false None None None None.

(** A pending probe is forgotten once it is older than the timeout. *)
Definition clock_should_probe (t : ClockSyncTracker) (now : Instant) (interval timeout : Duration) :
    bool * ClockSyncTracker :=
  if negb (ct_client t) then (false, t)
  else
    let due t := is_none_or (ct_last_sent t)
      (λ last, bool_decide (interval ≤ saturating_since now last)) in
    match ct_pending t with
    | Some (_, _, sent_at) =>
      if decide (saturating_since now sent_at < timeout) then (false, t)
      else let t := t <| ct_pending := None |> in (due t, t)
    | None => (due t, t)
    end.

Definition clock_mark_sent (t : ClockSyncTracker) (nonce t1_us : Z) (now : Instant) :
    ClockSyncTracker :=
  t <| ct_last_sent := Some now |> <| ct_pending := Some (nonce, t1_us, now) |>.

Definition accept_reply (t : ClockSyncTracker) (nonce t1_us t2_us t3_us t4_us : Z)
    (received_at : Instant) (timeout : Duration) : option ClockSyncSample * ClockSyncTracker :=
  if negb (ct_client t) then (None, t)
  else
    match ct_pending t with
    | None => (None, t)
    | Some (expected_nonce, expected_t1, sent_at) =>
      if bool_decide (nonce ≠ expected_nonce) || bool_decide (t1_us ≠ expected_t1) ||
         is_none_or (checked_since received_at sent_at) (λ age, bool_decide (timeout < age)) then
        (None, t)
      else
        match calculate_sample t1_us t2_us t3_us t4_us with
        | None => (None, t)
        | Some s =>
          let n := match ct_sample t with
                   | None => 1
                   | Some previous => saturating_add u64_max (cs_samples previous) 1
                   end in
          let s := mkClockSyncSample (server_minus_client_us s) (cs_rtt s) n in
          (Some s, t <| ct_sample := Some s |> <| ct_last_sent := Some received_at |>
                     <| ct_pending := None |>)
        end
    end.

Definition clock_admit_probe (t : ClockSyncTracker) (received_at : Instant) (interval : Duration) :
    bool * ClockSyncTracker :=
  if ct_client t then (false, t)
  else if spaced (ct_last_inbound_probe t) interval received_at then
    (true, t <| ct_last_inbound_probe := Some received_at |>)
  else (false, t).

(** ** Runtime *)

Record ClockSyncMetrics := mkClockSyncMetrics {
  cm_probes_sent : Z;
  cm_replies_sent : Z;
  cm_samples : Z;
  cm_rejected : Z;
  cm_send_failures : Z
}.
#[export] Instance ClockSyncMetrics_eta : Eta ClockSyncMetrics := λ m,
  mkClockSyncMetrics (cm_probes_sent m) (cm_replies_sent m) (cm_samples m) (cm_rejected m)
    (cm_send_failures m).

Record ClockRuntime := mkClockRuntime {
  cr_interval : Duration;
  cr_timeout : Duration;
  cr_maximum_envelope_len : Z;
  cr_origin : Instant;
  cr_next_scan : Instant;
  cr_trackers : gmap Z ClockSyncTracker;
  cr_metrics : ClockSyncMetrics
}.
#[export] Instance ClockRuntime_eta : Eta ClockRuntime := λ r,
  mkClockRuntime (cr_interval r) (cr_timeout r) (cr_maximum_envelope_len r) (cr_origin r)
    (cr_next_scan r) (cr_trackers r) (cr_metrics r).

Definition clock_at (r : ClockRuntime) (instant : Instant) : Z :=
  (saturating_since instant (cr_origin r) / 1000) `min` u64_max.

Definition track_clock_session (r : ClockRuntime) (session : Handle) (client : bool) : ClockRuntime :=
  r <| cr_trackers ::= <[session := if client then clock_new_client else clock_new_server]> |>.

Definition forget_clock_session (r : ClockRuntime) (session : Handle) : ClockRuntime :=
  r <| cr_trackers ::= delete session |>.

Section handlers.
(** [network.send_game_control] and [ensure_game_ready]. *)
Context (send : Handle → list byte → bool) (ready : Handle → bool).

(** The loop body of [drive_clock_sync]; [nonce] is the random draw and [t1] the
    clock read for the probe. *)
Definition drive_clock_session (r : ClockRuntime) (now : Instant) (session : Handle)
    (nonce : option Z) (t1 : Z) (t : ClockSyncTracker) (m : ClockSyncMetrics) :
    ClockSyncTracker * ClockSyncMetrics :=
  match clock_should_probe t now (cr_interval r) (cr_timeout r) with
  | (false, t) => (t, m)
  | (true, t) =>
    match nonce with
    | None => (t, m <| cm_send_failures ::= fetch_add 1 |>)
    | Some nonce =>
      match ClockWire.encode_clock (ClockWire.Probe nonce t1) (cr_maximum_envelope_len r) with
      | Ok bytes =>
        if send session bytes then
          (clock_mark_sent t nonce t1 now, m <| cm_probes_sent ::= fetch_add 1 |>)
        else (t, m <| cm_send_failures ::= fetch_add 1 |>)
      | Err _ => (t, m <| cm_send_failures ::= fetch_add 1 |>)
      end
    end
  end.

Definition drive_clock_sync (r : ClockRuntime) (now : Instant) (rng : Handle → option Z)
    (t1 : Handle → Z) : ClockRuntime :=
  let spacing := ((cr_interval r / 4) `max` millis 1) `min` millis 250 in
  if decide (now < cr_next_scan r) then r
  else
    let visit session t m := drive_clock_session r now session (rng session) (t1 session) t m in
    r <| cr_next_scan := now + spacing |>
      <| cr_metrics := foldl (λ m '(session, t), (visit session t m).2) (cr_metrics r)
                         (map_to_list (cr_trackers r)) |>
      <| cr_trackers := map_imap (λ session t, Some (visit session t (cr_metrics r)).1)
                          (cr_trackers r) |>.

(** [now] is the clock read of the reply's third timestamp.  The result lists the
    controls sent. *)
Definition handle_clock_sync_event (r : ClockRuntime) (session : Handle) (payload : list byte)
    (queued_at now : Instant) : Result (list (list byte)) * ClockRuntime :=
  if negb (ready session) then (Ok [], r)
  else
    match ClockWire.decode_clock payload with
    | Err e => (Err e, r)
    | Ok packet =>
      match cr_trackers r !! session with
      | None => (Ok [], r)
      | Some t =>
        match packet with
        | ClockWire.Probe nonce t1_us =>
          if ct_client t then
            (game_protocol_error "clock sync control has wrong endpoint role", r)
          else
            match clock_admit_probe t queued_at (cr_interval r) with
            | (false, _) => (Ok [], r <| cr_metrics ::= λ m, m <| cm_rejected ::= fetch_add 1 |> |>)
            | (true, t) =>
              let r := r <| cr_trackers ::= <[session := t]> |> in
              match ClockWire.encode_clock
                      (ClockWire.Reply nonce t1_us (clock_at r queued_at) (clock_at r now))
                      (cr_maximum_envelope_len r) with
              | Err e => (Err e, r)
              | Ok reply =>
                if send session reply then
                  (Ok [reply], r <| cr_metrics ::= λ m, m <| cm_replies_sent ::= fetch_add 1 |> |>)
                else (Ok [], r <| cr_metrics ::= λ m, m <| cm_send_failures ::= fetch_add 1 |> |>)
              end
            end
        | ClockWire.Reply nonce t1_us t2_us t3_us =>
          if negb (ct_client t) then
            (game_protocol_error "clock sync control has wrong endpoint role", r)
          else
            match accept_reply t nonce t1_us t2_us t3_us (clock_at r queued_at) queued_at
                    (cr_timeout r) with
            | (Some _, t) =>
              (Ok [], r <| cr_trackers ::= <[session := t]> |>
                        <| cr_metrics ::= λ m, m <| cm_samples ::= fetch_add 1 |> |>)
            | (None, t) =>
              (Ok [], r <| cr_trackers ::= <[session := t]> |>
                        <| cr_metrics ::= λ m, m <| cm_rejected ::= fetch_add 1 |> |>)
            end
        end
      end
    end.
End handlers.

(** ** Accuracy *)

(** A reading of the runtime clock is the elapsed time floored to microseconds. *)
Lemma clock_at_floor r i :
  cr_origin r ≤ i → (i - cr_origin r) / 1000 ≤ u64_max →
  1000 * clock_at r i ≤ i - cr_origin r < 1000 * clock_at r i + 1000 ∧ in_u64 (clock_at r i).
Proof.
  intros Ho Hm. unfold clock_at, saturating_since, saturating_sub.
  rewrite Z.max_l by lia. rewrite Z.min_l by done.
  pose proof (Z.div_mod (i - cr_origin r) 1000 ltac:(lia)).
  pose proof (Z.mod_pos_bound (i - cr_origin r) 1000 ltac:(lia)).
  assert (0 ≤ (i - cr_origin r) / 1000) by (apply Z.div_pos; lia). split; [lia|]. zlia.
Qed.

Lemma quot_two_error x : -1 ≤ x - 2 * Z.quot x 2 ≤ 1.
Proof.
  pose proof (Z.quot_rem x 2 ltac:(lia)) as E. pose proof (Z.rem_bound_abs x 2 ltac:(lia)). lia.
Qed.

Lemma accept_reply_Some t nonce t1 t2 t3 t4 at_ tmo s t' :
  accept_reply t nonce t1 t2 t3 t4 at_ tmo = (Some s, t') →
  ∃ sent, ct_pending t = Some (nonce, t1, sent) ∧ sent ≤ at_ ≤ sent + tmo ∧ ct_pending t' = None ∧
    ct_sample t' = Some s ∧
    t2 ≤ t3 ∧ t1 ≤ t4 ∧ server_minus_client_us s = Z.quot ((t2 - t1) + (t3 - t4)) 2 ∧
    cs_rtt s = 1000 * ((t4 - t1) - (t3 - t2)) ∧ 0 ≤ cs_rtt s.
Proof.
  unfold accept_reply. destruct (ct_client t); [|done]. cbn [negb].
  destruct (ct_pending t) as [[[n1 e1] sent]|] eqn:Ep; [|done].
  destruct (_ || _ || _) eqn:Eg; [done|].
  apply orb_false_iff in Eg as [[E1%bool_decide_eq_false E2%bool_decide_eq_false]%orb_false_iff E3].
  apply dec_stable in E1, E2. subst n1 e1.
  unfold checked_since in E3. destruct (checked_sub at_ sent) as [age|] eqn:Ea; [|done].
  cbn in E3. apply bool_decide_eq_false in E3. apply checked_sub_Some in Ea as [-> ?].
  unfold calculate_sample, i64_try_from. case_decide as H1; [done|].
  destruct (checked_sub _ _) as [rtt|] eqn:Er; cbn [mbind option_bind]; [|done].
  apply checked_sub_Some in Er as [-> ?]. case_decide; cbn [mbind option_bind]; [|done].
  intros [= <- <-]. exists sent. cbn. unfold micros. split_and!; done || lia.
Qed.

(** The envelope layout determines the payload it carries. *)
Lemma control_payload_unique k p q w ml ml' :
  Envelope.encode_control k p ml = Ok w → Envelope.decode w ml' = Ok (Envelope.Control k q) → q = p.
Proof.
  intros He [_ [_ Hd]]%Envelope.decode_Ok.
  change (Envelope.encode_envelope (Envelope.Control k p) ml = Ok w) in He.
  apply Envelope.encode_envelope_Ok in He as (_ & _ & Hw). rewrite Hw in Hd.
  unfold Envelope.envelope_bytes in Hd.
  cbn [Envelope.envelope_meta Envelope.envelope_kind Envelope.envelope_payload Envelope.has] in Hd.
  by repeat apply app_inv_head in Hd.
Qed.

Lemma decode_clock_payload p :
  ClockWire.clock_wf p → ClockWire.decode_clock (ClockWire.clock_payload p) = Ok p.
Proof. intros. by apply ClockWire.decode_clock_Ok. Qed.

Section accuracy.
Context (send_s : Handle → list byte → bool) (ready_s : Handle → bool).

(** A server that sends a reply has answered the probe with its two clock readings. *)
Lemma server_reply r s nonce t1 q now reply r' :
  in_u64 nonce → in_u64 t1 →
  handle_clock_sync_event send_s ready_s r s (ClockWire.clock_payload (ClockWire.Probe nonce t1)) q now
    = (Ok [reply], r') →
  ClockWire.encode_clock (ClockWire.Reply nonce t1 (clock_at r q) (clock_at r now))
    (cr_maximum_envelope_len r) = Ok reply.
Proof.
  intros Hn Ht. unfold handle_clock_sync_event. destruct (negb (ready_s s)); [done|].
  rewrite decode_clock_payload by done.
  destruct (cr_trackers r !! s) as [t|]; [|done]. destruct (ct_client t); [done|].
  destruct (clock_admit_probe t q (cr_interval r)) as [[] ?]; [|done]. cbn.
  change (clock_at _ q) with (clock_at r q). change (clock_at _ now) with (clock_at r now).
  destruct (ClockWire.encode_clock _ _) as [w|]; [|done].
  destruct (send_s s w); intros [= -> _]. done.
Qed.

Context (send_c : Handle → list byte → bool) (ready_c : Handle → bool).

(** The client takes the reply to its probe, or is left as it was. *)
Lemma client_reply C c nonce t1 t2 t3 tau now tc res C' :
  in_u64 nonce → in_u64 t1 → in_u64 t2 → in_u64 t3 → cr_trackers C !! c = Some tc → ct_client tc = true →
  handle_clock_sync_event send_c ready_c C c (ClockWire.clock_payload (ClockWire.Reply nonce t1 t2 t3)) tau now = (res, C') →
  cr_origin C' = cr_origin C ∧ cr_trackers C' !! c =
    Some (if ready_c c then (accept_reply tc nonce t1 t2 t3 (clock_at C tau) tau (cr_timeout C)).2 else tc).
Proof.
  intros Hn H1 H2 H3 Htc Hcl. unfold handle_clock_sync_event. destruct (ready_c c); cbn [negb]; [|by intros [= _ <-]].
  rewrite decode_clock_payload by done. rewrite Htc, Hcl. cbn [negb].
  destruct (accept_reply _ _ _ _ _ _ _ _) as [[smp|] t']; intros [= _ <-]; cbn; by rewrite lookup_insert_eq.
Qed.
Lemma accept_reply_None t nonce t1 t2 t3 t4 at_ tmo t' : accept_reply t nonce t1 t2 t3 t4 at_ tmo = (None, t') → t' = t.
Proof. unfold accept_reply. repeat case_match; naive_solver. Qed.
(** A reply in time, with readings that leave a representable sample, is taken. *)
Lemma accept_reply_taken t nonce t1 t2 t3 t4 sent at_ tmo :
  ct_client t = true → ct_pending t = Some (nonce, t1, sent) → sent ≤ at_ ≤ sent + tmo →
  t2 ≤ t3 → t1 ≤ t4 → t3 - t2 ≤ t4 - t1 → i64_range (Z.quot ((t2 - t1) + (t3 - t4)) 2) →
  is_Some (accept_reply t nonce t1 t2 t3 t4 at_ tmo).1.
Proof.
  intros Hc Hp Ht H23 H14 Hle Hr. unfold accept_reply. rewrite Hc, Hp. cbn [negb]. 
  assert (checked_since at_ sent = Some (at_ - sent)) as -> by (apply checked_sub_Some; lia). cbn [is_none_or].
  rewrite (bool_decide_eq_false_2 (nonce ≠ nonce)), (bool_decide_eq_false_2 (t1 ≠ t1)), (bool_decide_eq_false_2 (tmo < _)) by (tauto || lia). cbn [orb].
  unfold calculate_sample, i64_try_from. rewrite decide_False by lia. cbv zeta. 
  assert (checked_sub (t4 - t1) (t3 - t2) = Some ((t4 - t1) - (t3 - t2))) as -> by (apply checked_sub_Some; lia). cbn [mbind option_bind].
  rewrite decide_True by done. by eexists.
Qed.

(** C37: End to end, an accepted clock sample is accurate to half the network delay.
    A client probe sent at [sent] with the clock reading of [tau1] is answered by a server that
    received it at [tau2] and replied at [tau3], and the reply reaches the client at [tau4], with
    the two runtimes counting microseconds from unrelated origins.  Either the client's tracker
    stays as it was, or the probe is retired and the estimated offset differs from the true
    difference of the two clocks by at most half of the round trip without the server's
    turnaround, plus 1.5 microseconds of rounding, and the reported round trip is exact to 2
    microseconds; the same reply then never gives another sample.  A ready client takes every
    reply that arrives within the timeout, when the network took at least 2 microseconds and
    both clocks count less than [2 ^ 63] microseconds. *)
Theorem clock_sync_accurate (S C S' C' : ClockRuntime) (s c : Handle) (nonce : Z)
    (sent tau1 tau2 tau3 tau4 now4 : Instant) (tc0 : ClockSyncTracker) (reply body : list byte) (res : Result (list (list byte))) :
  in_u64 nonce →
  cr_origin C ≤ tau1 → cr_origin S ≤ tau2 → tau1 ≤ tau2 ≤ tau3 → tau3 ≤ tau4 →
  (tau4 - cr_origin C) / 1000 ≤ u64_max → (tau3 - cr_origin S) / 1000 ≤ u64_max →
  ct_client tc0 = true → cr_trackers C !! c = Some (clock_mark_sent tc0 nonce (clock_at C tau1) sent) →
  handle_clock_sync_event send_s ready_s S s
    (ClockWire.clock_payload (ClockWire.Probe nonce (clock_at C tau1))) tau2 tau3 = (Ok [reply], S') →
  Envelope.decode reply (cr_maximum_envelope_len C) =
    Ok (Envelope.Control Envelope.ClockSync body) →
  handle_clock_sync_event send_c ready_c C c body tau4 now4 = (res, C') →
  let true_offset_ns := cr_origin C - cr_origin S in
  let delay_ns := (tau4 - tau1) - (tau3 - tau2) in
  ∃ tc', cr_trackers C' !! c = Some tc' ∧
    (tc' = clock_mark_sent tc0 nonce (clock_at C tau1) sent ∨
     ct_pending tc' = None ∧
     (∃ smp, ct_sample tc' = Some smp ∧
       2 * Z.abs (1000 * server_minus_client_us smp - true_offset_ns) ≤ delay_ns + 2998 ∧
       Z.abs (cs_rtt smp - delay_ns) ≤ 1998) ∧
     ∀ tau5 now5, cr_trackers (handle_clock_sync_event send_c ready_c C' c body tau5 now5).2 !! c = Some tc') ∧
    (ready_c c = true → sent ≤ tau4 ≤ sent + cr_timeout C → 2000 ≤ delay_ns →
     (tau4 - cr_origin C) / 1000 < 2 ^ 63 → (tau3 - cr_origin S) / 1000 < 2 ^ 63 → ct_pending tc' = None).
Proof.
  intros Hn HoC HoS H12 H34 HmC HmS Hcl Htc HS Hdec HC true_offset delay.
  destruct (clock_at_floor C tau1 ltac:(lia)) as [F1 U1].
  { etrans; [|exact HmC]. apply Z.div_le_mono; lia. }
  destruct (clock_at_floor S tau2 ltac:(lia)) as [F2 U2].
  { etrans; [|exact HmS]. apply Z.div_le_mono; lia. }
  destruct (clock_at_floor S tau3 ltac:(lia) HmS) as [F3 U3].
  destruct (clock_at_floor C tau4 ltac:(lia) HmC) as [F4 U4].
  apply server_reply in HS; [|done..].
  apply (control_payload_unique _ _ _ _ _ _ HS) in Hdec as ->.
  set (tc := clock_mark_sent tc0 nonce (clock_at C tau1) sent) in *. assert (ct_client tc = true) as Hclc by done.
  apply (client_reply _ _ _ _ _ _ _ _ tc) in HC as [_ HC]; [|done..]. eexists. split; [exact HC|].
  destruct (ready_c c) eqn:Er; [|by split; [left|]].
  pose proof (accept_reply_taken tc nonce (clock_at C tau1) (clock_at S tau2) (clock_at S tau3) (clock_at C tau4) sent tau4 (cr_timeout C) Hclc eq_refl) as Htaken.
  destruct (accept_reply tc nonce _ _ _ _ tau4 _) as [[smp|] tr] eqn:Ea; cbn [fst snd] in *.
  - pose proof Ea as Ea'. apply accept_reply_Some in Ea as (? & _ & _ & Hp & Hsm & _ & _ & Ho & Hrtt & _). split; [right|done]. split; [done|]. split.
    + exists smp. split; [done|]. pose proof (quot_two_error ((clock_at S tau2 - clock_at C tau1) + (clock_at S tau3 - clock_at C tau4))).
      rewrite Ho, Hrtt. unfold true_offset, delay. lia.
    + intros tau5 now5. assert (ct_client tr = true) as Hct by (revert Ea'; unfold accept_reply; repeat case_match; naive_solver).
      destruct (handle_clock_sync_event _ _ C' c _ tau5 now5) as [res5 C5] eqn:E5. cbn [snd].
      apply (client_reply _ _ _ _ _ _ _ _ tr) in E5 as [_ ->]; [|done..]. f_equal. rewrite Er. unfold accept_reply. by rewrite Hct, Hp.
  - apply accept_reply_None in Ea as ->. split; [by left|]. intros _ Ht Hd M1 M2. exfalso.
    destruct Htaken as [? ?]; [done|unfold delay in *; lia..| |done].
    pose proof (quot_two_error ((clock_at S tau2 - clock_at C tau1) + (clock_at S tau3 - clock_at C tau4))).
    assert (0 ≤ clock_at C tau1 ∧ 0 ≤ clock_at S tau2) as [? ?] by (split; [apply U1|apply U2]).
    pose proof (Z.mul_succ_div_gt (tau4 - cr_origin C) 1000 ltac:(lia)). pose proof (Z.mul_succ_div_gt (tau3 - cr_origin S) 1000 ltac:(lia)).
    unfold i64_range. lia.
Qed.
End accuracy.

Definition accuracy_server : ClockRuntime :=
  mkClockRuntime (millis 1000) (millis 3000) 128 (millis 5) 0 {[4 := clock_new_server]}
    (mkClockSyncMetrics 0 0 0 0 0).
Definition accuracy_client : ClockRuntime :=
  mkClockRuntime (millis 1000) (millis 3000) 128 0 0
    {[9 := mkClockSyncTracker true (Some (millis 10)) (Some (77, 10000, millis 10)) None None]}
    (mkClockSyncMetrics 0 0 0 0 0).
Definition accuracy_reply : list byte :=
  match (handle_clock_sync_event (λ _ _, true) (λ _, true) accuracy_server 4
           (ClockWire.clock_payload (ClockWire.Probe 77 10000)) (millis 14) (millis 15)).1 with
  | Ok [reply] => reply
  | _ => []
  end.

Lemma clock_sync_accurate_witness :
  ∃ tc', cr_trackers (handle_clock_sync_event (λ _ _, true) (λ _, true) accuracy_client 9
             (drop 12 accuracy_reply) (millis 17) (millis 17)).2 !! 9 = Some tc' ∧
    ct_sample tc' = Some (mkClockSyncSample (-4000) 6000000 1) ∧ ct_pending tc' = None.
Proof.
  destruct (clock_sync_accurate (λ _ _, true) (λ _, true) (λ _ _, true) (λ _, true)
    accuracy_server accuracy_client
    (handle_clock_sync_event (λ _ _, true) (λ _, true) accuracy_server 4
       (ClockWire.clock_payload (ClockWire.Probe 77 10000)) (millis 14) (millis 15)).2
    (handle_clock_sync_event (λ _ _, true) (λ _, true) accuracy_client 9
       (drop 12 accuracy_reply) (millis 17) (millis 17)).2
    4 9 77 (millis 10) (millis 10) (millis 14) (millis 15) (millis 17) (millis 17) clock_new_client accuracy_reply
    (drop 12 accuracy_reply) (Ok [])) as (tc' & Htc & _ & Htaken); [by vm_compute..|].
  exists tc'. split; [exact Htc|]. split; [|apply Htaken; by vm_compute]. vm_compute in Htc. by injection Htc as <-.
Defined.
