(* ===== verification/Scheduler.v ===== *)
(** * Send scheduling: [scheduler.rs] and the flush loop of [scheduler_runtime.rs]

    Four weighted priority classes, each a round robin over sessions, with a global
    and per-session budget.  A message popped for forwarding keeps its reservation
    until it is forwarded, requeued or dropped. *)

From S2P Require Import Prelude Bytes CoreTypes Observe.

Definition ENVELOPE_RESERVATION : Z := 16.
Definition WEIGHTED_ORDER : list nat := [3; 3; 3; 3; 3; 3; 3; 3; 2; 2; 2; 2; 1; 1; 0]%nat.

Module GamePriority.
Inductive t := Low | Normal | High | Critical.
#[global] Instance t_eq_dec : EqDecision t.
Proof. solve_decision. Defined.
Definition index (p : t) : nat :=
  match p with Low => 0 | Normal => 1 | High => 2 | Critical => 3 end.
End GamePriority.

Record ScheduledQueueConfig := mkScheduledQueueConfig {
  max_queued_bytes : Z;
  max_session_queued_bytes : Z;
  max_queued_messages : Z;
  flush_batch : Z
}.
Definition scheduled_config_default : ScheduledQueueConfig :=
  mkScheduledQueueConfig (16 * 1024 * 1024) (256 * 1024) 65536 256.

Record ScheduledMessage := mkScheduledMessage {
  sm_session : Handle;
  sm_payload : list byte;
  sm_sequence : option Z;
  sm_tick : option Z;
  sm_correlation_id : Z;
  sm_priority : GamePriority.t;
  sm_enqueued_at : Instant;
  sm_expires_at : option Instant
}.

Definition reserved_bytes (m : ScheduledMessage) : Z :=
  saturating_add usize_max (len (sm_payload m)) ENVELOPE_RESERVATION.

(** ** One class *)

Record FairPriorityQueue := mkFairPriorityQueue {
  sessions : list Z;
  messages : gmap Z (list ScheduledMessage)
}.
Definition fair_default : FairPriorityQueue := mkFairPriorityQueue [] ∅.

Definition fair_push (q : FairPriorityQueue) (m : ScheduledMessage) : FairPriorityQueue :=
  let session := sm_session m in
  let queue := default [] (messages q !! session) in
  mkFairPriorityQueue
    (if decide (queue = []) then sessions q ++ [session] else sessions q)
    (<[session := queue ++ [m]]> (messages q)).

Definition fair_pop (q : FairPriorityQueue) :
    outcome (option ScheduledMessage * FairPriorityQueue) :=
  match sessions q with
  | [] => Done (None, q)
  | session :: rest =>
    queue ← expect (messages q !! session);
    match queue with
    | [] => Panic
    | m :: queue =>
      Done (Some m,
            if decide (queue = []) then mkFairPriorityQueue rest (delete session (messages q))
            else mkFairPriorityQueue (rest ++ [session]) (<[session := queue]> (messages q)))
    end
  end.

Definition fair_remove_session (q : FairPriorityQueue) (session : Handle) : Z * FairPriorityQueue :=
  (len (default [] (messages q !! session)),
   mkFairPriorityQueue (filter (λ s, s ≠ session) (sessions q)) (delete session (messages q))).

Definition fair_clear (q : FairPriorityQueue) : FairPriorityQueue := fair_default.

(** ** The queue *)

Record Counters := mkCounters {
  queued_messages : Z;
  queued_bytes : Z;
  admission_rejected : Z;
  expired_dropped : Z;
  closed_dropped : Z;
  send_failed : Z;
  forwarded : Z;
  backpressure_requeued : Z;
  admitted_by_priority : list Z;
  forwarded_by_priority : list Z
}.
#[export] Instance Counters_eta : Eta Counters := λ c,
  mkCounters (queued_messages c) (queued_bytes c) (admission_rejected c) (expired_dropped c)
    (closed_dropped c) (send_failed c) (forwarded c) (backpressure_requeued c)
    (admitted_by_priority c) (forwarded_by_priority c).

Record ScheduledQueue := mkScheduledQueue {
  queues : list FairPriorityQueue;
  session_bytes : gmap Z Z;
  max_total_bytes : Z;
  max_session_bytes : Z;
  max_messages : Z;
  cursor : nat;
  counters : Counters;
  queue_delay : LatencyHistogram;
  tick_queue_delay : LatencyHistogram
}.
#[export] Instance ScheduledQueue_eta : Eta ScheduledQueue := λ q,
  mkScheduledQueue (queues q) (session_bytes q) (max_total_bytes q) (max_session_bytes q)
    (max_messages q) (cursor q) (counters q) (queue_delay q) (tick_queue_delay q).

(** [u64::saturating_add(1)]. *)
Definition count (c : Z) : Z := saturating_add u64_max c 1.

Definition from_config (c : ScheduledQueueConfig) : Result ScheduledQueue :=
  if decide (max_queued_bytes c = 0 ∨ max_session_queued_bytes c = 0 ∨
             max_queued_bytes c < max_session_queued_bytes c ∨ max_queued_messages c = 0 ∨
             flush_batch c = 0) then
    fail ErrorCode.InvalidArgument "invalid scheduled queue limits"
  else
    Ok (mkScheduledQueue (replicate 4 fair_default) ∅ (max_queued_bytes c)
          (max_session_queued_bytes c) (max_queued_messages c) 0
          (mkCounters 0 0 0 0 0 0 0 0 [0; 0; 0; 0] [0; 0; 0; 0]) histogram_default histogram_default).

(** [self.queues[class].push(message)]. *)
Definition push_class (q : ScheduledQueue) (m : ScheduledMessage) : ScheduledQueue :=
  q <| queues ::= alter (λ f, fair_push f m) (GamePriority.index (sm_priority m)) |>.

Definition fits (q : ScheduledQueue) (m : ScheduledMessage) : bool :=
  let bytes := reserved_bytes m in
  let used := default 0 (session_bytes q !! sm_session m) in
  bool_decide (queued_messages (counters q) < max_messages q) &&
  is_some_and (checked_add usize_max (queued_bytes (counters q)) bytes)
    (λ total, bool_decide (total ≤ max_total_bytes q)) &&
  is_some_and (checked_add usize_max used bytes)
    (λ total, bool_decide (total ≤ max_session_bytes q)).

Definition enqueue (q : ScheduledQueue) (m : ScheduledMessage) : Result unit * ScheduledQueue :=
  let bytes := reserved_bytes m in
  let used := default 0 (session_bytes q !! sm_session m) in
  if negb (fits q m) then
    (fail ErrorCode.WouldBlock "scheduled game queue budget is full",
     q <| counters ::= λ c, c <| admission_rejected ::= count |> |>)
  else
    let q := q <| counters ::= λ c,
      c <| queued_messages ::= λ n, n + 1 |> <| queued_bytes ::= λ n, n + bytes |>
        <| admitted_by_priority ::= alter count (GamePriority.index (sm_priority m)) |> |> in
    let q := q <| session_bytes ::= <[sm_session m := used + bytes]> |> in
    (Ok tt, push_class q m).

Definition release (q : ScheduledQueue) (m : ScheduledMessage) : ScheduledQueue :=
  let bytes := reserved_bytes m in
  q <| counters ::= λ c,
         c <| queued_messages ::= λ n, saturating_sub n 1 |>
           <| queued_bytes ::= λ n, saturating_sub n bytes |> |>
    <| session_bytes ::= λ sb,
         match sb !! sm_session m with
         | None => sb
         | Some used =>
           let used := saturating_sub used bytes in
           if decide (used = 0) then delete (sm_session m) sb else <[sm_session m := used]> sb
         end |>.

(** The [for] loop of [pop_next]: at most one visit of every slot of the weighted
    order, starting at the cursor. *)
Fixpoint select (n : nat) (q : ScheduledQueue) : outcome (option ScheduledMessage * ScheduledQueue) :=
  match n with
  | O => Done (None, q)
  | S n =>
    priority ← expect (WEIGHTED_ORDER !! cursor q);
    let q := q <| cursor ::= λ c, ((c + 1) mod length WEIGHTED_ORDER)%nat |> in
    class ← expect (queues q !! priority);
    '(o, class) ← fair_pop class;
    let q := q <| queues ::= <[priority := class]> |> in
    match o with
    | Some m => Done (Some m, q)
    | None => select n q
    end
  end.

Definition expired (m : ScheduledMessage) (now : Instant) : bool :=
  is_some_and (sm_expires_at m) (λ deadline, bool_decide (deadline ≤ now)).

(** The outer loop; [None] when [fuel] iterations are not enough. *)
Fixpoint pop_loop (fuel : nat) (q : ScheduledQueue) (now : Instant) :
    option (outcome (option ScheduledMessage * ScheduledQueue)) :=
  match fuel with
  | O => None
  | S fuel =>
    match select (length WEIGHTED_ORDER) q with
    | Panic => Some Panic
    | Done (None, q) => Some (Done (None, q))
    | Done (Some m, q) =>
      if expired m now then
        pop_loop fuel (release q m <| counters ::= λ c, c <| expired_dropped ::= count |> |>) now
      else Some (Done (Some m, q))
    end
  end.

(** Messages in the four classes. *)
Definition queue_of (ms : gmap Z (list ScheduledMessage)) (s : Z) : list ScheduledMessage :=
  default [] (ms !! s).
Definition contents (f : FairPriorityQueue) : list ScheduledMessage :=
  sessions f ≫= queue_of (messages f).
Definition queued (q : ScheduledQueue) : list ScheduledMessage := queues q ≫= contents.

(** Every iteration removes a message, so one more than their number is enough. *)
Definition pop_next (q : ScheduledQueue) (now : Instant) :
    option (outcome (option ScheduledMessage * ScheduledQueue)) :=
  pop_loop (S (length (queued q))) q now.
#[global] Arguments pop_next : simpl never.

Definition requeue (q : ScheduledQueue) (m : ScheduledMessage) : ScheduledQueue :=
  push_class (q <| counters ::= λ c, c <| backpressure_requeued ::= count |> |>) m.

Fixpoint remove_session (l : list FairPriorityQueue) (session : Handle) : Z * list FairPriorityQueue :=
  match l with
  | [] => (0, [])
  | f :: l =>
    let '(n, f) := fair_remove_session f session in
    let '(k, l) := remove_session l session in
    (n + k, f :: l)
  end.

Definition forget_session (q : ScheduledQueue) (session : Handle) : Z * ScheduledQueue :=
  let '(dropped, l) := remove_session (queues q) session in
  let bytes := session_bytes q !! session in
  (dropped,
   q <| queues := l |>
     <| session_bytes ::= delete session |>
     <| counters ::= λ c,
          c <| queued_bytes ::= λ n, match bytes with Some b => saturating_sub n b | None => n end |>
            <| queued_messages ::= λ n, saturating_sub n dropped |>
            <| closed_dropped ::= λ n, saturating_add u64_max n dropped |> |>).

Definition record_forwarded (q : ScheduledQueue) (m : ScheduledMessage) (elapsed : Duration) :
    ScheduledQueue :=
  let q := q <| queue_delay ::= λ h, histogram_record h elapsed |> in
  let q := if decide (is_Some (sm_tick m))
           then q <| tick_queue_delay ::= λ h, histogram_record h elapsed |> else q in
  let q := release q m in
  q <| counters ::= λ c,
         c <| forwarded ::= count |>
           <| forwarded_by_priority ::= alter count (GamePriority.index (sm_priority m)) |> |>.
#[global] Arguments record_forwarded : simpl never.

Definition record_send_failed (q : ScheduledQueue) (m : ScheduledMessage) : ScheduledQueue :=
  release q m <| counters ::= λ c, c <| send_failed ::= count |> |>.

Definition clear (q : ScheduledQueue) : ScheduledQueue :=
  let dropped := queued_messages (counters q) in
  q <| queues ::= fmap fair_clear |> <| session_bytes := ∅ |>
    <| counters ::= λ c,
         c <| queued_messages := 0 |> <| queued_bytes := 0 |>
           <| closed_dropped ::= λ n, saturating_add u64_max n dropped |> |>.

(** ** The flush loop

    [send w m] is [send_game_application] on the runtime's state [w]; [now] and
    [elapsed] are the clock readings of each attempt.  [None] would mean that
    [pop_next] ran out of fuel. *)

Section flush.
Context {W : Type} (send : W → ScheduledMessage → Result unit * W).
Context (now elapsed : nat → Z).

(** Records the result of one forwarding attempt. *)
Definition complete (q : ScheduledQueue) (m : ScheduledMessage) (r : Result unit) (e : Duration) :
    Z * ScheduledQueue :=
  match r with
  | Ok _ => (1, record_forwarded q m e)
  | Err err =>
    if decide (code err = ErrorCode.WouldBlock) then (0, requeue q m)
    else (0, record_send_failed q m)
  end.

Fixpoint flush_loop (attempts : nat) (q : ScheduledQueue) (w : W) :
    option (outcome (Z * ScheduledQueue * W)) :=
  match attempts with
  | O => Some (Done (0, q, w))
  | S attempts =>
    match pop_next q (now attempts) with
    | None => None
    | Some Panic => Some Panic
    | Some (Done (None, q)) => Some (Done (0, q, w))
    | Some (Done (Some m, q)) =>
      let '(r, w) := send w m in
      let '(k, q) := complete q m r (elapsed attempts) in
      match flush_loop attempts q w with
      | Some (Done (n, q, w)) => Some (Done (k + n, q, w))
      | other => other
      end
    end
  end.

Definition flush_scheduled_inner (capacity : Z) (q : ScheduledQueue) (w : W) :
    option (outcome (Z * ScheduledQueue * W)) :=
  flush_loop (Z.to_nat (capacity `min` queued_messages (counters q))) q w.
End flush.

(** ** One class: the deque of sessions and the map of their messages agree *)

Record fair_wf (c : nat) (f : FairPriorityQueue) : Prop := mkFairWf {
  fw_nodup : NoDup (sessions f);
  fw_dom : ∀ s, s ∈ sessions f ↔ is_Some (messages f !! s);
  fw_queue : ∀ s l, messages f !! s = Some l →
    l ≠ [] ∧ Forall (λ m, sm_session m = s ∧ GamePriority.index (sm_priority m) = c) l
}.

Lemma queue_of_insert_other ms s q (l : list Z) :
  s ∉ l → (l ≫= queue_of (<[s := q]> ms)) = (l ≫= queue_of ms).
Proof.
  induction l as [|x l IH]; intros Hs; [done|]. apply not_elem_of_cons in Hs as [Hne Hs].
  cbn. rewrite <- IH by done. unfold queue_of. by rewrite lookup_insert_ne by done.
Qed.

Lemma queue_of_delete_other ms s (l : list Z) :
  s ∉ l → (l ≫= queue_of (delete s ms)) = (l ≫= queue_of ms).
Proof.
  induction l as [|x l IH]; intros Hs; [done|]. apply not_elem_of_cons in Hs as [Hne Hs].
  cbn. rewrite <- IH by done. unfold queue_of. by rewrite lookup_delete_ne by done.
Qed.

Lemma fair_default_wf c : fair_wf c fair_default.
Proof.
  split; cbn; [constructor| |done]. intros s. rewrite lookup_empty. split; [|by intros []].
  intros H. by apply elem_of_nil in H.
Qed.

Lemma fair_present c f s :
  fair_wf c f → s ∈ sessions f → ∃ m l, messages f !! s = Some (m :: l).
Proof.
  intros W [l Hl]%(fw_dom _ _ W). destruct (fw_queue _ _ W _ _ Hl) as [Hne _].
  destruct l as [|m l]; [done|]. eauto.
Qed.

Lemma fair_push_wf c f m :
  fair_wf c f → GamePriority.index (sm_priority m) = c → fair_wf c (fair_push f m).
Proof.
  intros W Hc. unfold fair_push. set (s := sm_session m).
  destruct (messages f !! s) as [l|] eqn:Hl; cbn [default].
  - destruct (fw_queue _ _ W _ _ Hl) as [Hne Hall]. rewrite decide_False by done. cbn.
    split; cbn; [apply W| |].
    + intros x. rewrite (fw_dom _ _ W). destruct (decide (x = s)) as [->|].
      * rewrite lookup_insert_eq, Hl. split; intros _; eauto.
      * by rewrite lookup_insert_ne by done.
    + intros x k. destruct (decide (x = s)) as [->|].
      * rewrite lookup_insert_eq. intros [= <-]. split; [by destruct l|].
        apply Forall_app. split; [done|]. by constructor.
      * rewrite lookup_insert_ne by done. apply W.
  - rewrite decide_True by done. cbn. assert (s ∉ sessions f) as Hs by (rewrite (fw_dom _ _ W), Hl; by intros []).
    split; cbn.
    + apply NoDup_app. split_and!; [apply W| |apply NoDup_singleton].
      intros x Hx ->%list_elem_of_singleton. done.
    + intros x. rewrite elem_of_app, list_elem_of_singleton, (fw_dom _ _ W).
      destruct (decide (x = s)) as [->|].
      * rewrite lookup_insert_eq. split; eauto.
      * rewrite lookup_insert_ne by done. naive_solver.
    + intros x k. destruct (decide (x = s)) as [->|].
      * rewrite lookup_insert_eq. intros [= <-]. split; [done|]. by constructor.
      * rewrite lookup_insert_ne by done. apply W.
Qed.

Lemma contents_push c f m :
  fair_wf c f → contents (fair_push f m) ≡ₚ m :: contents f.
Proof.
  intros W. unfold fair_push, contents. set (s := sm_session m).
  destruct (messages f !! s) as [l|] eqn:Hl; cbn [default].
  - destruct (fw_queue _ _ W _ _ Hl) as [Hne _]. rewrite decide_False by done. cbn.
    assert (s ∈ sessions f) as Hs by (apply (fw_dom _ _ W); eauto).
    apply list_elem_of_split in Hs as (l1 & l2 & E). pose proof (fw_nodup _ _ W) as N.
    rewrite E in *. apply NoDup_app in N as (_ & N1 & [N2 _]%NoDup_cons).
    rewrite !bind_app. cbn.
    assert (s ∉ l1) as N0 by (intros H; apply (N1 s H); left).
    rewrite !queue_of_insert_other by done.
    unfold queue_of at 2 5. rewrite lookup_insert_eq, Hl. cbn. solve_Permutation.
  - rewrite decide_True by done. cbn. assert (s ∉ sessions f) as Hs by (rewrite (fw_dom _ _ W), Hl; by intros []).
    rewrite bind_app. cbn. rewrite queue_of_insert_other by done.
    unfold queue_of at 2. rewrite lookup_insert_eq. cbn. solve_Permutation.
Qed.

(** What a pop of a nonempty class does: the session at the head gives its oldest
    message and, unless that was its last, moves to the back. *)
Inductive popped (f : FairPriorityQueue) (m : ScheduledMessage) (f' : FairPriorityQueue) : Prop :=
| mkPopped (rest : list Z) (queue : list ScheduledMessage) :
    sessions f = sm_session m :: rest →
    messages f !! sm_session m = Some (m :: queue) →
    sessions f' = rest ++ (if decide (queue = []) then [] else [sm_session m]) →
    messages f' = (if decide (queue = []) then delete (sm_session m) (messages f)
                   else <[sm_session m := queue]> (messages f)) →
    popped f m f'.

Lemma fair_pop_nonempty c f :
  fair_wf c f → sessions f ≠ [] → ∃ m f', fair_pop f = Done (Some m, f') ∧ popped f m f'.
Proof.
  intros W Hne. destruct (sessions f) as [|s rest] eqn:Hs; [done|].
  destruct (fair_present c f s W) as (m & l & Hl); [rewrite Hs; by left|].
  destruct (fw_queue _ _ W _ _ Hl) as [_ [[Hm _] _]%Forall_cons].
  unfold fair_pop. rewrite Hs, Hl. cbn. eexists m, _. split; [done|].
  subst s. destruct (decide (l = [])) as [->|Hne'].
  - apply (mkPopped _ _ _ rest []); cbn; rewrite ?app_nil_r; done.
  - apply (mkPopped _ _ _ rest l); rewrite ?decide_False by done; done.
Qed.

Lemma popped_wf c f m f' : fair_wf c f → popped f m f' → fair_wf c f'.
Proof.
  intros W [rest l Hs Hl Hs' Hl']. set (s := sm_session m) in *.
  pose proof (fw_nodup _ _ W) as N. rewrite Hs in N. apply NoDup_cons in N as [N1 N2].
  assert (∀ x, x ∈ rest ↔ x ≠ s ∧ is_Some (messages f !! x)) as Hrest.
  { intros x. rewrite <- (fw_dom _ _ W), Hs, elem_of_cons. split; [|naive_solver].
    intros Hx. split; [by intros ->|by right]. }
  split.
  - rewrite Hs'. apply NoDup_app. split_and!; [done| |case_decide; repeat constructor; set_solver].
    intros x Hx. case_decide; [apply not_elem_of_nil|]. intros ->%list_elem_of_singleton. done.
  - intros x. rewrite Hs', Hl', elem_of_app, Hrest. destruct (decide (l = [])).
    + destruct (decide (x = s)) as [->|]; [rewrite lookup_delete_eq|rewrite lookup_delete_ne by done].
      * split; [|by intros []]. intros [[]|[]%elem_of_nil]. done.
      * split; [intros [[_ ?]|[]%elem_of_nil]; done|]. by left.
    + rewrite list_elem_of_singleton.
      destruct (decide (x = s)) as [->|]; [rewrite lookup_insert_eq|rewrite lookup_insert_ne by done];
        naive_solver.
  - intros x k. rewrite Hl'. destruct (fw_queue _ _ W _ _ Hl) as [_ [_ Hq]%Forall_cons].
    destruct (decide (l = [])); destruct (decide (x = s)) as [->|].
    + by rewrite lookup_delete_eq.
    + rewrite lookup_delete_ne by done. apply W.
    + rewrite lookup_insert_eq. intros [= <-]. done.
    + rewrite lookup_insert_ne by done. apply W.
Qed.

Lemma popped_contents c f m f' : fair_wf c f → popped f m f' → contents f ≡ₚ m :: contents f'.
Proof.
  intros W [rest l Hs Hl Hs' Hl']. set (s := sm_session m) in *.
  pose proof (fw_nodup _ _ W) as N. rewrite Hs in N. apply NoDup_cons in N as [N1 _].
  unfold contents. rewrite Hs, Hs', Hl'. cbn. unfold queue_of at 1. rewrite Hl. cbn.
  destruct (decide (l = [])) as [->|].
  - rewrite app_nil_r. cbn. by rewrite queue_of_delete_other.
  - rewrite bind_app, queue_of_insert_other by done. cbn. unfold queue_of at 3.
    rewrite lookup_insert_eq. cbn. solve_Permutation.
Qed.

Lemma contents_elem c f m :
  fair_wf c f → m ∈ contents f →
  sm_session m ∈ sessions f ∧ GamePriority.index (sm_priority m) = c.
Proof.
  intros W (s & Hm & Hs)%list_elem_of_bind.
  destruct (fair_present c f s W Hs) as (m' & l & Hl). unfold queue_of in Hm. rewrite Hl in Hm.
  destruct (fw_queue _ _ W _ _ Hl) as [_ Hall]. rewrite Forall_forall in Hall.
  by destruct (Hall m Hm) as [-> ?].
Qed.

Lemma contents_nil c f : fair_wf c f → contents f = [] ↔ sessions f = [].
Proof.
  intros W. split; [|unfold contents; by intros ->].
  unfold contents. destruct (sessions f) as [|s rest] eqn:Hs; [done|].
  destruct (fair_present c f s W) as (m & l & Hl); [rewrite Hs; by left|].
  cbn. unfold queue_of. rewrite Hl. done.
Qed.

Lemma remove_wf c f s : fair_wf c f → fair_wf c (fair_remove_session f s).2.
Proof.
  intros W. split; cbn.
  - apply NoDup_filter, W.
  - intros x. rewrite list_elem_of_filter, (fw_dom _ _ W). destruct (decide (x = s)) as [->|].
    + rewrite lookup_delete_eq. split; [by intros []|by intros []].
    + rewrite lookup_delete_ne by done. tauto.
  - intros x k. destruct (decide (x = s)) as [->|]; [by rewrite lookup_delete_eq|].
    rewrite lookup_delete_ne by done. apply W.
Qed.

Lemma queue_of_session c f s s' :
  fair_wf c f → Forall (λ m, sm_session m = s ↔ s' = s) (queue_of (messages f) s').
Proof.
  intros W. unfold queue_of. destruct (messages f !! s') as [l|] eqn:Hl; [|constructor].
  destruct (fw_queue _ _ W _ _ Hl) as [_ Hall]. cbn. eapply Forall_impl; [exact Hall|].
  cbn. intros m [-> _]. done.
Qed.

Lemma contents_remove c f s :
  fair_wf c f →
  contents (fair_remove_session f s).2 = filter (λ m, sm_session m ≠ s) (contents f) ∧
  (fair_remove_session f s).1 = len (filter (λ m, sm_session m = s) (contents f)).
Proof.
  intros W. unfold contents. cbn. split.
  - induction (sessions f) as [|x l IH]; [done|]. cbn [filter list_filter mbind list_bind].
    rewrite filter_app, <- IH. pose proof (queue_of_session c f s x W) as Q.
    destruct (decide (x ≠ s)) as [Hx|Hx]; cbn [mbind list_bind].
    + f_equal. unfold queue_of. rewrite lookup_delete_ne by done. symmetry. apply filter_all.
      eapply Forall_impl; [exact Q|]. cbn. naive_solver.
    + assert (filter (λ m, sm_session m ≠ s) (queue_of (messages f) x) = []) as ->; [|done].
      apply filter_none. eapply Forall_impl; [exact Q|]. cbn. intros m Hm Hn. apply Hx. naive_solver.
  - fold (queue_of (messages f) s). pose proof (fw_nodup _ _ W) as N.
    assert (∀ l, NoDup l → (s ∈ l ∨ queue_of (messages f) s = []) →
      filter (λ m, sm_session m = s) (l ≫= queue_of (messages f)) = queue_of (messages f) s) as H.
    { induction l as [|x l IH]; intros Hn Hs; cbn.
      - destruct Hs as [Hs| ->]; [by apply elem_of_nil in Hs|done].
      - apply NoDup_cons in Hn as [Hx Hn]. rewrite filter_app.
        pose proof (queue_of_session c f s x W) as Q. destruct (decide (x = s)) as [->|Hne].
        + rewrite filter_all by (eapply Forall_impl; [exact Q|]; cbn; naive_solver).
          assert (filter (λ m, sm_session m = s) (l ≫= queue_of (messages f)) = []) as ->;
            [|apply app_nil_r].
          apply filter_none, Forall_forall. intros m (y & Hm & Hy)%list_elem_of_bind E.
          pose proof (queue_of_session c f s y W) as Q'. rewrite Forall_forall in Q'.
          apply (Q' m Hm) in E. by subst.
        + assert (filter (λ m, sm_session m = s) (queue_of (messages f) x) = []) as ->.
          { apply filter_none. eapply Forall_impl; [exact Q|]. cbn. naive_solver. }
          apply IH; [done|]. destruct Hs as [Hs|]; [left|by right].
          apply elem_of_cons in Hs as [->|]; done. }
    rewrite H; [done|done|]. rewrite (fw_dom _ _ W). unfold queue_of.
    destruct (messages f !! s); [left; eauto|by right].
Qed.

(** ** The four classes and the weighted order *)

Record queue_wf (q : ScheduledQueue) : Prop := mkQueueWf {
  qw_four : length (queues q) = 4%nat;
  qw_class : ∀ c f, queues q !! c = Some f → fair_wf c f;
  qw_cursor : (cursor q < 15)%nat
}.

(** The class of slot [p] of the endlessly repeated weighted order. *)
Definition slot (p : nat) : nat := nth (p mod 15) WEIGHTED_ORDER 0%nat.

Definition empty_class (q : ScheduledQueue) (c : nat) : Prop :=
  ∀ f, queues q !! c = Some f → sessions f = [].

(** [select] skips [i] slots of empty classes and pops the class of the next. *)
Inductive selected (q : ScheduledQueue) (i : nat) (m : ScheduledMessage) (q' : ScheduledQueue) : Prop :=
| mkSelected f f' :
    queues q !! slot (cursor q + i) = Some f → popped f m f' →
    (∀ j, (j < i)%nat → empty_class q (slot (cursor q + j))) →
    q' = q <| queues ::= <[slot (cursor q + i) := f']> |>
           <| cursor := ((cursor q + i + 1) mod 15)%nat |> →
    selected q i m q'.

Lemma slot_cursor c : (c < 15)%nat → WEIGHTED_ORDER !! c = Some (slot c).
Proof.
  intros Hc. unfold slot. rewrite Nat.mod_small by done.
  do 15 (destruct c as [|c]; [done|]). lia.
Qed.

Lemma slot_range p : (slot p < 4)%nat.
Proof.
  unfold slot. pose proof (Nat.mod_upper_bound p 15 ltac:(done)) as H.
  generalize dependent (p mod 15)%nat. intros c Hc.
  do 15 (destruct c as [|c]; [cbn; lia|]). lia.
Qed.

Lemma slot_mod p i : slot (p mod 15 + i) = slot (p + i).
Proof. unfold slot. by rewrite Nat.Div0.add_mod_idemp_l. Qed.

Lemma class_at q c : queue_wf q → (c < 4)%nat → ∃ f, queues q !! c = Some f ∧ fair_wf c f.
Proof.
  intros W Hc. destruct (lookup_lt_is_Some_2 (queues q) c) as [f Hf]; [by rewrite (qw_four _ W)|].
  exists f. split; [done|]. by apply (qw_class _ W).
Qed.

Lemma select_spec n q :
  queue_wf q →
  (∃ i m q', (i < n)%nat ∧ select n q = Done (Some m, q') ∧ selected q i m q') ∨
  ((∀ j, (j < n)%nat → empty_class q (slot (cursor q + j))) ∧
   ∃ q', select n q = Done (None, q') ∧ q' = q <| cursor := cursor q' |> ∧ (cursor q' < 15)%nat).
Proof.
  revert q. induction n as [|n IH]; intros q W.
  { right. split; [lia|]. exists q. split; [done|]. split; [by destruct q|apply W]. }
  destruct (class_at q (slot (cursor q)) W (slot_range _)) as (f & Hf & Wf).
  cbn [select]. rewrite (slot_cursor _ (qw_cursor _ W)). cbn [mbind outcome_bind expect].
  set (q1 := q <| cursor ::= _ |>). change (queues q1) with (queues q). rewrite Hf.
  cbn [mbind outcome_bind expect].
  destruct (decide (sessions f = [])) as [He|Hne].
  - assert (fair_pop f = Done (None, f)) as -> by (unfold fair_pop; by rewrite He).
    cbn [mbind outcome_bind].
    assert (q1 <| queues ::= <[slot (cursor q) := f]> |> = q1) as E.
    { unfold q1. destruct q; cbn in *. by rewrite list_insert_id. }
    rewrite E. assert (cursor q1 = (cursor q + 1) mod 15)%nat as Hc1 by done.
    assert (queue_wf q1) as W1.
    { split; [apply W|apply W|]. rewrite Hc1. by apply Nat.mod_upper_bound. }
    assert (∀ j, slot (cursor q1 + j) = slot (cursor q + S j)) as Hslot.
    { intros j. rewrite Hc1, slot_mod. f_equal. lia. }
    assert (empty_class q (slot (cursor q + 0))) as H0.
    { rewrite Nat.add_0_r. intros g. rewrite Hf. by intros [= <-]. }
    destruct (IH q1 W1) as [(i & m & q' & Hi & -> & [g g' Hg Hp He' Hq'])|(He' & q' & -> & Hq' & Hc')].
    + left. exists (S i), m, q'. split; [lia|]. split; [done|].
      apply (mkSelected _ _ _ _ g g'); rewrite <- ?Hslot; try done.
      * intros [|j] Hj; [done|]. rewrite <- Hslot. apply He'. lia.
      * rewrite Hq', Hslot, Hc1, <- Nat.add_assoc, Nat.Div0.add_mod_idemp_l, Nat.add_assoc.
        by replace (cursor q + 1 + i + 1)%nat with (cursor q + S i + 1)%nat by lia.
    + right. split.
      * intros [|j] Hj; [done|]. rewrite <- Hslot. apply He'. lia.
      * exists q'. split; [done|]. split; [|done]. by rewrite Hq' at 1.
  - destruct (fair_pop_nonempty _ f Wf Hne) as (m & f' & -> & Hp). cbn [mbind outcome_bind].
    left. exists 0%nat, m. eexists. split; [lia|]. split; [done|].
    apply (mkSelected _ _ _ _ f f'); rewrite ?Nat.add_0_r; done || lia.
Qed.

Lemma queued_insert q c f f' ms :
  queues q !! c = Some f → contents f ≡ₚ ms ++ contents f' →
  queued q ≡ₚ ms ++ (<[c := f']> (queues q) ≫= contents).
Proof.
  intros Hf Hp. destruct (bind_insert contents (queues q) c f Hf) as (k & E & E').
  unfold queued. rewrite E, (E' f'), Hp. solve_Permutation.
Qed.

Lemma insert_class_wf q c f' :
  queue_wf q → fair_wf c f' → queue_wf (q <| queues ::= <[c := f']> |>).
Proof.
  intros W Wf. split; cbn; [rewrite length_insert; apply W| |apply W].
  intros d g. destruct (decide (d = c)) as [->|Hne].
  - destruct (decide (c < length (queues q))%nat).
    + rewrite list_lookup_insert_eq by done. by intros [= <-].
    + rewrite list_insert_ge by lia. apply W.
  - rewrite list_lookup_insert_ne by done. apply W.
Qed.

Lemma set_cursor_wf q c : queue_wf q → (c < 15)%nat → queue_wf (q <| cursor := c |>).
Proof. intros W Hc. by split; [apply W|apply W|]. Qed.

Lemma selected_wf q i m q' : queue_wf q → selected q i m q' → queue_wf q'.
Proof.
  intros W [f f' Hf Hp _ ->]. apply set_cursor_wf; [|by apply Nat.mod_upper_bound].
  apply insert_class_wf; [done|]. eapply popped_wf; [|done]. by apply (qw_class _ W).
Qed.

Lemma selected_queued q i m q' : queue_wf q → selected q i m q' → queued q ≡ₚ m :: queued q'.
Proof.
  intros W [f f' Hf Hp _ ->]. apply (queued_insert q _ f f' [m] Hf).
  eapply popped_contents; [|done]. by apply (qw_class _ W).
Qed.

Lemma push_class_spec q m :
  queue_wf q → queue_wf (push_class q m) ∧ queued (push_class q m) ≡ₚ m :: queued q.
Proof.
  intros W. set (c := GamePriority.index (sm_priority m)).
  assert (c < 4)%nat as Hc by (unfold c; destruct (sm_priority m); cbn; lia).
  destruct (class_at q c W Hc) as (f & Hf & Wf).
  assert (push_class q m = q <| queues ::= <[c := fair_push f m]> |>) as ->.
  { unfold push_class. destruct q; cbn in *. f_equal. fold c.
    apply list_eq. intros j. destruct (decide (j = c)) as [->|].
    - rewrite list_lookup_alter_eq, list_lookup_insert_eq, Hf; [done|by eapply lookup_lt_Some].
    - by rewrite list_lookup_alter_ne, list_lookup_insert_ne by done. }
  split; [apply insert_class_wf; [done|by apply fair_push_wf]|].
  destruct (bind_insert contents (queues q) c f Hf) as (k & E & E').
  unfold queued. cbn. rewrite E, (E' (fair_push f m)), (contents_push c f m Wf). done.
Qed.

(** Every class has a slot in the weighted order. *)
Lemma slot_of_class c p : (c < 4)%nat → ∃ j, (j < 15)%nat ∧ slot (p + j) = c.
Proof.
  intros Hc. assert (∀ r, (r < 15)%nat → ∃ j, (j < 15)%nat ∧ slot (r + j) = c) as H.
  { intros r Hr.
    assert (existsb (λ j, bool_decide (slot (r + j) = c)) (seq 0 15) = true) as E.
    { do 4 (destruct c as [|c]; [do 15 (destruct r as [|r]; [by vm_compute|]); lia|]). lia. }
    apply existsb_exists in E as (j & Hj & E%bool_decide_eq_true). exists j.
    apply in_seq in Hj. split; [lia|done]. }
  destruct (H (p mod 15)%nat) as (j & Hj & E); [by apply Nat.mod_upper_bound|].
  exists j. split; [done|]. by rewrite slot_mod in E.
Qed.

Lemma all_empty q : queue_wf q → (∀ c, (c < 4)%nat → empty_class q c) → queued q = [].
Proof.
  intros W He. destruct (queued q) as [|m l] eqn:Hq; [done|].
  assert (m ∈ queued q) as (f & Hm & Hf)%list_elem_of_bind by (rewrite Hq; by left).
  destruct (proj1 (list_elem_of_lookup _ _) Hf) as [c Hc].
  assert (c < 4)%nat by (rewrite <- (qw_four _ W); by eapply lookup_lt_Some).
  apply (contents_elem c) in Hm as [Hm _]; [|by apply (qw_class _ W)].
  rewrite (He c) in Hm by done. by apply elem_of_nil in Hm.
Qed.

(** ** Accounting

    The counters describe the messages that hold a reservation: those queued and the
    one being forwarded. *)

Definition session_total (l : list ScheduledMessage) (s : Z) : Z :=
  sumZ reserved_bytes (filter (λ m, sm_session m = s) l).

Record accounts (q : ScheduledQueue) (l : list ScheduledMessage) : Prop := mkAccounts {
  ac_count : queued_messages (counters q) = len l;
  ac_bytes : queued_bytes (counters q) = sumZ reserved_bytes l;
  ac_session : ∀ s, session_bytes q !! s =
    if decide (session_total l s = 0) then None else Some (session_total l s);
  ac_max_count : len l ≤ max_messages q;
  ac_max_bytes : sumZ reserved_bytes l ≤ max_total_bytes q;
  ac_max_session : ∀ s, session_total l s ≤ max_session_bytes q;
  ac_width : max_total_bytes q ≤ usize_max ∧ max_session_bytes q ≤ usize_max
}.

Lemma reserved_pos m : 0 < reserved_bytes m.
Proof.
  unfold reserved_bytes, ENVELOPE_RESERVATION. pose proof (len_nonneg (sm_payload m)). zlia.
Qed.

Lemma session_total_cons m l s :
  session_total (m :: l) s =
  (if decide (sm_session m = s) then reserved_bytes m else 0) + session_total l s.
Proof. unfold session_total. rewrite filter_cons. case_decide; [apply sumZ_cons|done]. Qed.

Lemma session_total_nonneg l s : 0 ≤ session_total l s.
Proof. apply sumZ_nonneg. intros m. pose proof (reserved_pos m). lia. Qed.

#[export] Instance session_total_proper : Proper ((≡ₚ) ==> (=) ==> (=)) session_total.
Proof. intros l k E s ? <-. unfold session_total. by rewrite E. Qed.

Lemma accounts_perm q l k : l ≡ₚ k → accounts q l → accounts q k.
Proof.
  intros E [A B C D F G H]. pose proof (Permutation_length E) as El.
  assert (len l = len k) as En by (unfold len; by rewrite El).
  split; [by rewrite <- En|by rewrite <- E| |by rewrite <- En|by rewrite <- E| |done].
  - intros s. rewrite C. by replace (session_total l s) with (session_total k s) by (by rewrite E).
  - intros s. by rewrite <- E.
Qed.

(** The invariant reads only the gauges, the per-session bytes and the limits. *)
Lemma accounts_ext q q' l :
  queued_messages (counters q') = queued_messages (counters q) →
  queued_bytes (counters q') = queued_bytes (counters q) →
  session_bytes q' = session_bytes q → max_total_bytes q' = max_total_bytes q →
  max_session_bytes q' = max_session_bytes q → max_messages q' = max_messages q →
  accounts q l → accounts q' l.
Proof.
  intros E1 E2 E3 E4 E5 E6 [A B C D F G H].
  split; rewrite ?E1, ?E2, ?E3, ?E4, ?E5, ?E6; done.
Qed.

Lemma session_used q l s :
  accounts q l → default 0 (session_bytes q !! s) = session_total l s.
Proof. intros A. rewrite (ac_session _ _ A). by case_decide. Qed.

Lemma fits_iff q l m :
  accounts q l →
  fits q m = true ↔
  len l < max_messages q ∧ sumZ reserved_bytes l + reserved_bytes m ≤ max_total_bytes q ∧
  session_total l (sm_session m) + reserved_bytes m ≤ max_session_bytes q.
Proof.
  intros A. unfold fits. rewrite (session_used q l _ A), (ac_count _ _ A), (ac_bytes _ _ A).
  rewrite !andb_true_iff, bool_decide_eq_true. destruct (ac_width _ _ A).
  unfold checked_add, is_some_and.
  repeat case_decide; rewrite ?bool_decide_eq_true; split; try lia; intros [[??]?]; done.
Qed.

Lemma accounts_add q q' l m :
  accounts q l → fits q m = true →
  queued_messages (counters q') = queued_messages (counters q) + 1 →
  queued_bytes (counters q') = queued_bytes (counters q) + reserved_bytes m →
  session_bytes q' = <[sm_session m := session_total l (sm_session m) + reserved_bytes m]> (session_bytes q) →
  max_total_bytes q' = max_total_bytes q → max_session_bytes q' = max_session_bytes q →
  max_messages q' = max_messages q →
  accounts q' (m :: l).
Proof.
  intros A (F1 & F2 & F3)%(fits_iff q l m A) E1 E2 E3 E4 E5 E6. pose proof (reserved_pos m).
  split; rewrite ?E1, ?E2, ?E3, ?E4, ?E5, ?E6, ?len_cons, ?sumZ_cons.
  - rewrite (ac_count _ _ A). lia.
  - rewrite (ac_bytes _ _ A). lia.
  - intros s. rewrite session_total_cons. pose proof (session_total_nonneg l s).
    destruct (decide (sm_session m = s)) as [<-|Hne].
    + rewrite lookup_insert_eq, decide_False by lia. f_equal. lia.
    + rewrite lookup_insert_ne by done. apply A.
  - lia.
  - lia.
  - intros s. rewrite session_total_cons. pose proof (ac_max_session _ _ A s).
    destruct (decide (sm_session m = s)) as [<-|]; lia.
  - apply A.
Qed.

Lemma accounts_release q l m : accounts q (m :: l) → accounts (release q m) l.
Proof.
  intros A. pose proof (reserved_pos m). pose proof (len_nonneg l).
  assert (0 ≤ sumZ reserved_bytes l)
    by (apply sumZ_nonneg; intros x; pose proof (reserved_pos x); lia).
  pose proof (ac_max_count _ _ A) as M1. rewrite len_cons in M1.
  pose proof (ac_max_bytes _ _ A) as M2. rewrite sumZ_cons in M2.
  split; cbn.
  - rewrite (ac_count _ _ A), len_cons. zlia.
  - rewrite (ac_bytes _ _ A), sumZ_cons. zlia.
  - intros s. pose proof (ac_session _ _ A (sm_session m)) as Hm.
    rewrite session_total_cons, (decide_True (P := sm_session m = sm_session m)) in Hm by done.
    pose proof (session_total_nonneg l (sm_session m)). rewrite decide_False in Hm by lia.
    rewrite Hm. replace (saturating_sub _ _) with (session_total l (sm_session m)) by zlia.
    destruct (decide (sm_session m = s)) as [<-|Hne].
    + case_decide; [by rewrite lookup_delete_eq|by rewrite lookup_insert_eq].
    + pose proof (ac_session _ _ A s) as Hs. rewrite session_total_cons, (decide_False (P := _ = s)) in Hs by done.
      rewrite Z.add_0_l in Hs. rewrite <- Hs.
      destruct (decide (session_total l (sm_session m) = 0));
        [by rewrite lookup_delete_ne|by rewrite lookup_insert_ne].
  - lia.
  - lia.
  - intros s. pose proof (ac_max_session _ _ A s) as M3. rewrite session_total_cons in M3.
    case_decide; lia.
  - apply A.
Qed.

(** Every admitted message is forwarded, expired, failed, closed or still reserved. *)
Record balanced (q : ScheduledQueue) (n : Z) : Prop := mkBalanced {
  bl_admitted : length (admitted_by_priority (counters q)) = 4%nat;
  bl_forwarded : length (forwarded_by_priority (counters q)) = 4%nat;
  bl_nonneg : 0 ≤ forwarded (counters q) ∧ 0 ≤ expired_dropped (counters q) ∧
    0 ≤ closed_dropped (counters q) ∧ 0 ≤ send_failed (counters q);
  bl_lists : Forall (λ x, 0 ≤ x) (admitted_by_priority (counters q)) ∧
    Forall (λ x, 0 ≤ x) (forwarded_by_priority (counters q));
  bl_total : sumZ (λ x, x) (admitted_by_priority (counters q)) = n;
  bl_classes : sumZ (λ x, x) (forwarded_by_priority (counters q)) = forwarded (counters q);
  bl_fates : forwarded (counters q) + expired_dropped (counters q) + closed_dropped (counters q) +
    send_failed (counters q) + queued_messages (counters q) = n;
  bl_bound : n ≤ u64_max
}.

(** What holds between critical sections on the queue, [fl] being the messages popped
    and not yet completed and [n] the number of admissions so far. *)
Record sched_inv (q : ScheduledQueue) (fl : list ScheduledMessage) (n : Z) : Prop := mkSchedInv {
  si_wf : queue_wf q;
  si_accounts : accounts q (queued q ++ fl);
  si_balanced : balanced q n
}.

(** [counters[class] = counters[class].saturating_add(1)] without saturation. *)
Lemma count_class (l : list Z) c x :
  (c < length l)%nat → Forall (λ x, 0 ≤ x) l → sumZ (λ x, x) l = x → x < u64_max →
  length (alter count c l) = length l ∧ Forall (λ x, 0 ≤ x) (alter count c l) ∧
  sumZ (λ x, x) (alter count c l) = x + 1.
Proof.
  intros Hc Hl Hx Hmax. destruct (lookup_lt_is_Some_2 l c Hc) as [y Hy].
  assert (alter count c l = <[c := count y]> l) as ->.
  { apply list_eq. intros j. destruct (decide (j = c)) as [->|].
    - by rewrite list_lookup_alter_eq, list_lookup_insert_eq, Hy.
    - by rewrite list_lookup_alter_ne, list_lookup_insert_ne by done. }
  rewrite length_insert. split; [done|].
  pose proof (proj1 (Forall_lookup _ _) Hl c y Hy) as Hy0. cbn in Hy0.
  assert (y ≤ x) as Hyx.
  { subst x. rewrite <- (take_drop_middle l c y Hy), sumZ_app, sumZ_cons.
    rewrite <- (take_drop_middle l c y Hy) in Hl. apply Forall_app in Hl as [H1 [_ H2]%Forall_cons].
    assert (∀ k, Forall (λ x, 0 ≤ x) k → 0 ≤ sumZ (λ x, x) k) as H.
    { induction 1; rewrite ?sumZ_cons; [done|]. lia. }
    pose proof (H _ H1). pose proof (H _ H2). lia. }
  assert (count y = y + 1) as -> by (unfold count; zlia).
  split; [apply Forall_insert; [done|lia]|].
  rewrite insert_take_drop by done. subst x. rewrite <- (take_drop_middle l c y Hy) at 3.
  rewrite !sumZ_app, !sumZ_cons. lia.
Qed.

Lemma index_lt p : (GamePriority.index p < 4)%nat.
Proof. destruct p; cbn; lia. Qed.

Lemma enqueue_spec q fl n m :
  sched_inv q fl n → n < u64_max →
  let '(r, q') := enqueue q m in
  if fits q m then
    r = Ok tt ∧ sched_inv q' fl (n + 1) ∧ queued q' ≡ₚ m :: queued q ∧ cursor q' = cursor q
  else
    r = fail ErrorCode.WouldBlock "scheduled game queue budget is full" ∧ sched_inv q' fl n ∧
    queues q' = queues q ∧ cursor q' = cursor q.
Proof.
  intros [W A B] Hn. unfold enqueue. destruct (fits q m) eqn:Hf; cbn [negb].
  - set (q1 := q <| counters ::= _ |> <| session_bytes ::= _ |>).
    assert (queue_wf q1) as W1 by (split; apply W).
    destruct (push_class_spec q1 m W1) as [W2 E]. split; [done|].
    change (queued q1) with (queued q) in E.
    split; [|done]. split; [done| |].
    + eapply accounts_perm; [rewrite E; cbn; done|].
      eapply (accounts_add q); [exact A|exact Hf|done..| |done|done|done].
      cbn. by rewrite (session_used q _ _ A).
    + destruct B as [B1 B2 B3 [B4 B4'] B5 B6 B7 B8].
      destruct (count_class (admitted_by_priority (counters q)) (GamePriority.index (sm_priority m)) n)
        as (C1 & C2 & C3); [rewrite B1; apply index_lt|done..|].
      split; cbn; [by rewrite C1|done|done|done|done|done|lia|lia].
  - split; [done|]. split; [|done]. split.
    + split; apply W.
    + eapply accounts_ext; [..|exact A]; done.
    + destruct B. by split.
Qed.

Lemma release_inflight q fl n m :
  sched_inv q (m :: fl) n →
  1 ≤ queued_messages (counters q) ∧ accounts (release q m) (queued q ++ fl).
Proof.
  intros [W A B]. split.
  - rewrite (ac_count _ _ A), len_app, len_cons. pose proof (len_nonneg (queued q)).
    pose proof (len_nonneg fl). lia.
  - apply accounts_release. eapply accounts_perm; [|exact A]. by rewrite Permutation_middle.
Qed.

Lemma expire_spec q fl n m :
  sched_inv q (m :: fl) n →
  sched_inv (release q m <| counters ::= λ c, c <| expired_dropped ::= count |> |>) fl n.
Proof.
  intros I. destruct (release_inflight _ _ _ _ I) as [Hc A]. destruct I as [W _ B].
  set (q' := _ <| counters ::= _ |>). split.
  - split; apply W.
  - by apply (accounts_ext (release q m)).
  - destruct B as [B1 B2 B3 B4 B5 B6 B7 B8]. split; cbn; unfold count; try done; zlia.
Qed.

Lemma send_failed_spec q fl n m :
  sched_inv q (m :: fl) n → sched_inv (record_send_failed q m) fl n.
Proof.
  intros I. destruct (release_inflight _ _ _ _ I) as [Hc A]. destruct I as [W _ B]. split.
  - split; apply W.
  - by apply (accounts_ext (release q m)).
  - destruct B as [B1 B2 B3 B4 B5 B6 B7 B8]. split; cbn; unfold count; try done; zlia.
Qed.

Lemma forwarded_queued q m elapsed : queued (record_forwarded q m elapsed) = queued q.
Proof. unfold record_forwarded. by case_decide. Qed.

Lemma forwarded_spec q fl n m elapsed :
  sched_inv q (m :: fl) n → sched_inv (record_forwarded q m elapsed) fl n.
Proof.
  intros I. destruct (release_inflight _ _ _ _ I) as [Hc A]. destruct I as [W _ B]. split.
  - unfold record_forwarded. split; case_decide; apply W.
  - rewrite forwarded_queued. apply (accounts_ext (release q m)); try done; unfold record_forwarded; by case_decide.
  - destruct B as [B1 B2 B3 [B4 B4'] B5 B6 B7 B8].
    destruct (count_class (forwarded_by_priority (counters q)) (GamePriority.index (sm_priority m))
      (forwarded (counters q))) as (C1 & C2 & C3); [rewrite B2; apply index_lt|done..|lia|].
    unfold record_forwarded. case_decide; split; cbn; rewrite ?C1, ?C3; unfold count; try done; zlia.
Qed.

Lemma requeue_spec q fl n m :
  sched_inv q (m :: fl) n →
  sched_inv (requeue q m) fl n ∧ queued (requeue q m) ≡ₚ m :: queued q.
Proof.
  intros [W A B]. unfold requeue. set (q1 := q <| counters ::= _ |>).
  assert (queue_wf q1) as W1 by (split; apply W).
  destruct (push_class_spec q1 m W1) as [W2 E]. split; [|done]. split; [done| |].
  - apply (accounts_ext q); try done. eapply accounts_perm; [|exact A].
    rewrite E. change (queued q1) with (queued q). cbn. by rewrite Permutation_middle.
  - destruct B. by split.
Qed.

Lemma remove_session_spec l s (k : nat) :
  (∀ c f, l !! c = Some f → fair_wf (k + c) f) →
  let '(n, l') := remove_session l s in
  length l' = length l ∧ (∀ c f, l' !! c = Some f → fair_wf (k + c) f) ∧
  (l' ≫= contents) = filter (λ m, sm_session m ≠ s) (l ≫= contents) ∧
  n = len (filter (λ m, sm_session m = s) (l ≫= contents)).
Proof.
  revert k. induction l as [|f l IH]; intros k W; cbn [remove_session]; [done|].
  pose proof (W 0%nat f eq_refl) as Wf. rewrite Nat.add_0_r in Wf.
  destruct (contents_remove k f s Wf) as [E1 E2]. pose proof (remove_wf k f s Wf) as Wf'.
  destruct (fair_remove_session f s) as [n f'] eqn:Hr. cbn [fst snd] in *.
  specialize (IH (S k)). destruct (remove_session l s) as [n' l'].
  destruct IH as (L & W' & E3 & E4).
  { intros c g Hg. replace (S k + c)%nat with (k + S c)%nat by lia. by apply W. }
  split_and!.
  - cbn. by rewrite L.
  - intros [|c] g Hg; cbn in Hg; [simplify_eq; by rewrite Nat.add_0_r|].
    replace (k + S c)%nat with (S k + c)%nat by lia. by apply W'.
  - cbn. rewrite filter_app. by rewrite E1, E3.
  - cbn. rewrite filter_app, len_app. by rewrite E2, E4.
Qed.

Lemma session_total_other l s s' :
  session_total (filter (λ m, sm_session m ≠ s) l) s' = if decide (s' = s) then 0 else session_total l s'.
Proof.
  induction l as [|m l IH]; [by case_decide|]. rewrite filter_cons, session_total_cons.
  destruct (decide (sm_session m ≠ s)) as [Hm|Hm]; rewrite ?session_total_cons, IH;
    repeat case_decide; subst; try lia; tauto.
Qed.

(** The messages left when a session without in-flight messages is forgotten. *)
Lemma forget_totals (l fl : list ScheduledMessage) s :
  Forall (λ m, sm_session m ≠ s) fl →
  let kept := filter (λ m, sm_session m ≠ s) l ++ fl in
  len (l ++ fl) = len kept + len (filter (λ m, sm_session m = s) l) ∧
  sumZ reserved_bytes (l ++ fl) = sumZ reserved_bytes kept + session_total (l ++ fl) s ∧
  ∀ s', session_total kept s' = if decide (s' = s) then 0 else session_total (l ++ fl) s'.
Proof.
  intros Hfl kept.
  assert (filter (λ m, sm_session m ≠ s) (l ++ fl) = kept) as E.
  { rewrite filter_app. unfold kept. f_equal. by apply filter_all. }
  split_and!.
  - rewrite <- (filter_complement (λ m, sm_session m = s) (l ++ fl)), E, filter_app, len_app.
    rewrite (proj2 (filter_none (λ m, sm_session m = s) fl)) by done. rewrite len_nil. lia.
  - rewrite (sumZ_filter_split _ (λ m, sm_session m = s)), E. unfold session_total. lia.
  - intros s'. rewrite <- E. apply session_total_other.
Qed.

Lemma forget_session_spec q fl n s :
  sched_inv q fl n → Forall (λ m, sm_session m ≠ s) fl →
  let '(dropped, q') := forget_session q s in
  sched_inv q' fl n ∧ queued q' = filter (λ m, sm_session m ≠ s) (queued q) ∧
  dropped = len (filter (λ m, sm_session m = s) (queued q)) ∧ cursor q' = cursor q.
Proof.
  intros [W A B] Hfl. unfold forget_session.
  pose proof (remove_session_spec (queues q) s 0 (qw_class _ W)) as R.
  destruct (remove_session (queues q) s) as [dropped l']. destruct R as (L & W' & E1 & E2).
  fold (queued q) in E1, E2. destruct (forget_totals (queued q) fl s Hfl) as (T1 & T2 & T3).
  rewrite <- E1 in T1, T2, T3. rewrite <- E2 in T1. set (all := queued q ++ fl) in *.
  set (kept := (l' ≫= contents) ++ fl) in *. pose proof (ac_count _ _ A) as Hc.
  pose proof (len_nonneg kept). assert (0 ≤ dropped) by (rewrite E2; apply len_nonneg).
  pose proof (session_total_nonneg all s). pose proof (ac_max_count _ _ A).
  assert (0 ≤ sumZ reserved_bytes kept)
    by (apply sumZ_nonneg; intros x; pose proof (reserved_pos x); lia).
  pose proof (ac_max_bytes _ _ A). split; [|done]. split.
  - split; cbn; [rewrite L; apply W|apply W'|apply W].
  - change (queued _) with (l' ≫= contents). fold kept. split; cbn; rewrite ?Hc; try zlia.
    + rewrite (ac_session _ _ A), (ac_bytes _ _ A). case_decide; zlia.
    + intros s'. specialize (T3 s'). destruct (decide (s' = s)) as [->|].
      * rewrite T3, lookup_delete_eq. by rewrite decide_True.
      * rewrite T3, lookup_delete_ne by done. apply A.
    + intros s'. rewrite T3. pose proof (ac_max_session _ _ A s').
      pose proof (session_total_nonneg all s'). case_decide; lia.
    + apply A.
  - destruct B as [B1 B2 B3 B4 B5 B6 B7 B8]. split; cbn; try done; zlia.
Qed.

Lemma clear_spec q n : sched_inv q [] n → sched_inv (clear q) [] n ∧ queued (clear q) = [].
Proof.
  intros [W A B]. assert (queued (clear q) = []) as E.
  { unfold queued, clear. cbn. by induction (queues q). }
  split; [|done]. split.
  - split; cbn; [by rewrite length_fmap; apply W| |apply W].
    intros c f. rewrite list_lookup_fmap. destruct (queues q !! c); cbn; [|done].
    intros [= <-]. apply fair_default_wf.
  - rewrite E. destruct (ac_width _ _ A). pose proof (ac_max_count _ _ A). pose proof (ac_max_bytes _ _ A).
    rewrite len_app in *. pose proof (len_nonneg (queued q)).
    pose proof (ac_max_session _ _ A 0). pose proof (session_total_nonneg (queued q ++ []) 0).
    assert (0 ≤ sumZ reserved_bytes (queued q ++ []))
      by (apply sumZ_nonneg; intros x; pose proof (reserved_pos x); lia).
    split; cbn; rewrite ?len_nil in *; try done; try lia.
    intros s. change (session_total [] s) with 0. lia.
  - pose proof (ac_count _ _ A) as Hc. pose proof (len_nonneg (queued q ++ [])).
    destruct B as [B1 B2 B3 B4 B5 B6 B7 B8]. split; cbn; try done; zlia.
Qed.

(** The limits never change. *)
Definition limits (q : ScheduledQueue) : Z * Z * Z :=
  (max_messages q, max_total_bytes q, max_session_bytes q).

Lemma enqueue_limits q m : limits (enqueue q m).2 = limits q.
Proof. unfold enqueue. by destruct (fits q m). Qed.

Lemma forget_limits q s : limits (forget_session q s).2 = limits q.
Proof. unfold forget_session. by destruct (remove_session _ _). Qed.

Lemma forwarded_limits q m e : limits (record_forwarded q m e) = limits q.
Proof. unfold record_forwarded. by case_decide. Qed.

(** ** [pop_next] terminates, never panics and never returns an expired message *)

Lemma select_order q :
  queue_wf q →
  (∃ i m q', (i < 15)%nat ∧ select (length WEIGHTED_ORDER) q = Done (Some m, q') ∧ selected q i m q') ∨
  (queued q = [] ∧ ∃ c, (c < 15)%nat ∧
   select (length WEIGHTED_ORDER) q = Done (None, q <| cursor := c |>)).
Proof.
  intros W. change (length WEIGHTED_ORDER) with 15%nat.
  destruct (select_spec 15 q W) as [H|(He & q' & Hs & Hq' & Hc)]; [by left|]. right. split.
  - apply all_empty; [done|]. intros c Hlt.
    destruct (slot_of_class c (cursor q) Hlt) as (j & Hj & <-). by apply He.
  - exists (cursor q'). by rewrite Hs, <- Hq'.
Qed.

Lemma selected_inv q i m q' fl n :
  sched_inv q fl n → selected q i m q' →
  sched_inv q' (m :: fl) n ∧ queued q ≡ₚ m :: queued q'.
Proof.
  intros [W A B] S. pose proof (selected_queued _ _ _ _ W S) as E. split; [|done].
  split; [by eapply selected_wf| |].
  - assert (accounts q (queued q' ++ m :: fl)) as A'.
    { eapply accounts_perm; [|exact A]. rewrite E. cbn. by rewrite Permutation_middle. }
    destruct S as [f f' _ _ _ ->]. by eapply accounts_ext; [..|exact A'].
  - destruct S as [f f' _ _ _ ->]. destruct B. by split.
Qed.

Lemma pop_loop_spec fuel q fl n now :
  sched_inv q fl n → (length (queued q) < fuel)%nat →
  ∃ o q' dropped,
    pop_loop fuel q now = Some (Done (o, q')) ∧
    sched_inv q' (option_list o ++ fl) n ∧
    queued q ≡ₚ dropped ++ option_list o ++ queued q' ∧
    Forall (λ m, expired m now = true) dropped ∧
    Forall (λ m, expired m now = false) (option_list o) ∧
    (o = None → queued q' = []) ∧ limits q' = limits q.
Proof.
  revert q. induction fuel as [|fuel IH]; intros q I Hlen; [lia|]. cbn [pop_loop].
  destruct (select_order q (si_wf _ _ _ I)) as [(i & m & q1 & _ & -> & S)|(He & c & Hc & ->)].
  - destruct (selected_inv _ _ _ _ fl n I S) as [I1 E]. destruct (expired m now) eqn:Hx.
    + set (q2 := release q1 m <| counters ::= _ |>).
      pose proof (expire_spec q1 fl n m I1) as I2. fold q2 in I2.
      destruct (IH q2 I2) as (o & q' & dropped & -> & I' & E' & F1 & F2 & F3 & L).
      { change (queued q2) with (queued q1). apply Permutation_length in E. cbn in E. lia. }
      exists o, q', (m :: dropped). split_and!; try done; [|by constructor|].
      * rewrite E. change (queued q2) with (queued q1) in E'. by rewrite E'.
      * rewrite L. by destruct S as [f f' _ _ _ ->].
    + exists (Some m), q1, []. split_and!; try done; [by constructor|].
      by destruct S as [f f' _ _ _ ->].
  - exists None, (q <| cursor := c |>), []. split_and!; try done.
    destruct I as [W A B]. split; [by apply set_cursor_wf|by eapply accounts_ext; [..|exact A]|].
    destruct B. by split.
Qed.

(** ** Histories

    Every critical section on the queue's mutex, in any order the runtime allows: the
    poll lock keeps at most one message in flight, and a session with a message in
    flight is not forgotten. *)

Inductive staging_action :=
| SEnqueue (m : ScheduledMessage)
| SPop (now : Instant)
| SComplete (r : Result unit) (elapsed : Duration)
| SForget (s : Handle)
| SClear.

Record Staging := mkStaging {
  st_queue : ScheduledQueue;
  st_inflight : option ScheduledMessage;
  st_admitted : list ScheduledMessage;
  st_completed : list ScheduledMessage
}.

Definition staging_act (st : Staging) (a : staging_action) : option (outcome Staging) :=
  let '(mkStaging q o adm cmp) := st in
  match a with
  | SEnqueue m =>
    match enqueue q m with
    | (Ok _, q) => Some (Done (mkStaging q o (m :: adm) cmp))
    | (Err _, q) => Some (Done (mkStaging q o adm cmp))
    end
  | SPop now =>
    match o with
    | Some _ => Some (Done st)
    | None =>
      match pop_next q now with
      | None => None
      | Some Panic => Some Panic
      | Some (Done (o, q)) => Some (Done (mkStaging q o adm cmp))
      end
    end
  | SComplete r elapsed =>
    match o with
    | None => Some (Done st)
    | Some m =>
      let q' := (complete q m r elapsed).2 in
      match r with
      | Err e =>
        if decide (code e = ErrorCode.WouldBlock) then Some (Done (mkStaging q' None adm cmp))
        else Some (Done (mkStaging q' None adm (m :: cmp)))
      | Ok _ => Some (Done (mkStaging q' None adm (m :: cmp)))
      end
    end
  | SForget s =>
    if decide (Forall (λ m, sm_session m ≠ s) (option_list o)) then
      Some (Done (mkStaging (forget_session q s).2 o adm cmp))
    else Some (Done st)
  | SClear =>
    match o with
    | Some _ => Some (Done st)
    | None => Some (Done (mkStaging (clear q) None adm cmp))
    end
  end.

Fixpoint staging_run (st : Staging) (l : list staging_action) : option (outcome Staging) :=
  match l with
  | [] => Some (Done st)
  | a :: l =>
    match staging_act st a with
    | Some (Done st) => staging_run st l
    | other => other
    end
  end.

(** Messages that hold a reservation. *)
Definition reserved (st : Staging) : list ScheduledMessage :=
  queued (st_queue st) ++ option_list (st_inflight st).

Record staging_inv (lim : Z * Z * Z) (st : Staging) : Prop := mkStagingInv {
  sti_sched : sched_inv (st_queue st) (option_list (st_inflight st)) (len (st_admitted st));
  sti_limits : limits (st_queue st) = lim;
  sti_unique : st_completed st ++ reserved st ⊆+ st_admitted st
}.

Lemma staging_enqueue lim st m :
  staging_inv lim st → len (st_admitted st) < u64_max →
  ∃ st', staging_act st (SEnqueue m) = Some (Done st') ∧ staging_inv lim st' ∧
    len (st_admitted st') ≤ len (st_admitted st) + 1.
Proof.
  intros [I L U] Hn. destruct st as [q o adm cmp]. cbn in *. unfold reserved in *. cbn in *.
  pose proof (enqueue_spec _ _ _ m I Hn) as E. pose proof (enqueue_limits q m) as El.
  destruct (enqueue q m) as [r q']. destruct (fits q m).
  - destruct E as (-> & I' & E & _). eexists. split; [done|]. cbn. rewrite len_cons.
    split; [|lia]. split; cbn.
    + by rewrite len_cons, Z.add_comm.
    + by rewrite <- L.
    + unfold reserved. cbn. rewrite E. cbn. rewrite <- Permutation_middle. by apply submseteq_skip.
  - destruct E as (-> & I' & E & _). eexists. split; [done|]. cbn. split; [|lia].
    split; cbn; [done|by rewrite <- L|]. unfold reserved, queued in *. cbn. by rewrite E.
Qed.

Lemma staging_pop lim st now :
  staging_inv lim st →
  ∃ st', staging_act st (SPop now) = Some (Done st') ∧ staging_inv lim st' ∧
    st_admitted st' = st_admitted st.
Proof.
  intros [I L U]. destruct st as [q [m|] adm cmp]; cbn in *.
  { eexists. split; [done|]. split; [by split|done]. }
  unfold pop_next.
  destruct (pop_loop_spec (S (length (queued q))) q [] _ now I ltac:(lia))
    as (o & q' & dropped & -> & I' & E & _ & _ & _ & L'). rewrite app_nil_r in I'.
  eexists. split; [done|]. split; [|done]. split; cbn; [done|by rewrite L'|].
  etrans; [|exact U]. unfold reserved. cbn. rewrite app_nil_r, E.
  apply submseteq_app; [done|]. rewrite (Permutation_app_comm (queued q')).
  apply submseteq_inserts_l. done.
Qed.

Lemma staging_complete lim st r elapsed :
  staging_inv lim st →
  ∃ st', staging_act st (SComplete r elapsed) = Some (Done st') ∧ staging_inv lim st' ∧
    st_admitted st' = st_admitted st.
Proof.
  intros [I L U]. destruct st as [q [m|] adm cmp]; cbn in *.
  2:{ eexists. split; [done|]. split; [by split|done]. }
  assert (m :: cmp ++ queued q ⊆+ adm) as U'.
  { etrans; [|exact U]. unfold reserved. cbn. rewrite app_assoc, <- Permutation_cons_append. done. }
  destruct r as [[]|e]; cbn.
  - eexists. split; [done|]. split; [|done]. split; cbn.
    + by apply forwarded_spec.
    + by rewrite forwarded_limits.
    + unfold reserved. cbn. by rewrite app_nil_r, forwarded_queued.
  - case_decide; cbn; (eexists; split; [done|]; split; [|done]).
    + destruct (requeue_spec _ _ _ _ I) as [I' E]. split; cbn; [done|done|].
      unfold reserved. cbn. rewrite app_nil_r, E, <- Permutation_middle. done.
    + split; cbn; [by apply send_failed_spec|done|]. unfold reserved. cbn. by rewrite app_nil_r.
Qed.

Lemma staging_forget lim st s :
  staging_inv lim st →
  ∃ st', staging_act st (SForget s) = Some (Done st') ∧ staging_inv lim st' ∧
    st_admitted st' = st_admitted st.
Proof.
  intros [I L U]. destruct st as [q o adm cmp]; cbn in *. case_decide as Hfl;
    (eexists; split; [done|]; split; [|done]); [|done].
  pose proof (forget_session_spec _ _ _ s I Hfl) as F. pose proof (forget_limits q s) as L'.
  destruct (forget_session q s) as [d q']. destruct F as (I' & E & _). cbn in L' |- *.
  split; cbn; [done|by rewrite L'|]. etrans; [|exact U]. unfold reserved. cbn. rewrite E.
  apply submseteq_app; [done|]. apply submseteq_app; [|done]. apply sublist_submseteq, sublist_filter.
Qed.

Lemma staging_clear lim st :
  staging_inv lim st →
  ∃ st', staging_act st SClear = Some (Done st') ∧ staging_inv lim st' ∧
    st_admitted st' = st_admitted st.
Proof.
  intros [I L U]. destruct st as [q [m|] adm cmp]; cbn in *.
  { eexists. split; [done|]. split; [by split|done]. }
  destruct (clear_spec _ _ I) as [I' E]. eexists. split; [done|]. split; [|done].
  split; [done|done|]. etrans; [|exact U]. unfold reserved.
  cbn [st_queue st_inflight st_completed]. rewrite E.
  apply submseteq_app; [done|]. apply submseteq_nil_l.
Qed.

Lemma staging_act_inv lim st a :
  staging_inv lim st → len (st_admitted st) < u64_max →
  ∃ st', staging_act st a = Some (Done st') ∧ staging_inv lim st' ∧
    len (st_admitted st') ≤ len (st_admitted st) + 1.
Proof.
  intros I Hn. destruct a as [m|now|r e|s|].
  - by apply staging_enqueue.
  - destruct (staging_pop _ _ now I) as (st' & ? & ? & E). exists st'. rewrite E. split_and!; done || lia.
  - destruct (staging_complete _ _ r e I) as (st' & ? & ? & E). exists st'. rewrite E. split_and!; done || lia.
  - destruct (staging_forget _ _ s I) as (st' & ? & ? & E). exists st'. rewrite E. split_and!; done || lia.
  - destruct (staging_clear _ _ I) as (st' & ? & ? & E). exists st'. rewrite E. split_and!; done || lia.
Qed.

Lemma staging_run_inv lim st acts :
  staging_inv lim st → len (st_admitted st) + len acts ≤ u64_max →
  ∃ st', staging_run st acts = Some (Done st') ∧ staging_inv lim st'.
Proof.
  revert st. induction acts as [|a acts IH]; intros st I Hn; [by exists st|].
  rewrite len_cons in Hn. cbn [staging_run]. pose proof (len_nonneg acts).
  destruct (staging_act_inv lim st a I) as (st' & -> & I' & Hl); [lia|]. apply IH; [done|lia].
Qed.

Definition config_typed (c : ScheduledQueueConfig) : Prop :=
  0 ≤ max_queued_messages c ∧ 0 ≤ max_session_queued_bytes c ∧ max_queued_bytes c ≤ usize_max.

Lemma from_config_inv c q :
  from_config c = Ok q → config_typed c →
  sched_inv q [] 0 ∧ queued q = [] ∧
  limits q = (max_queued_messages c, max_queued_bytes c, max_session_queued_bytes c).
Proof.
  intros Hq (H1 & H2 & H3). unfold from_config in Hq. case_decide as Hc; [done|].
  apply (inj Ok) in Hq. subst q. split; [|done]. split;
    [split; cbn; [done| |lia]|split; cbn; rewrite ?sumZ_nil, ?len_nil; try done; try lia|].
  - intros k f Hf. do 4 (destruct k as [|k]; [simplify_eq/=; apply fair_default_wf|]). done.
  - split; cbn; try done; try (repeat constructor; done).
Qed.

Lemma staging_start c q :
  from_config c = Ok q → config_typed c → staging_inv (limits q) (mkStaging q None [] []).
Proof.
  intros Hq Ht. destruct (from_config_inv _ _ Hq Ht) as (I & E & Hl). split; [done|done|].
  unfold reserved. cbn. by rewrite E.
Qed.

(** C29: Staging accounting.  From any accepted configuration and through any history of
    sends, pops, completions, session cleanups and clears, no operation panics and
    [pop_next] terminates; the gauges are exactly the number and the bytes of the
    messages queued or in flight, overall and per session, and never exceed the
    configured limits; every admitted message is counted under exactly one fate
    (forwarded, expired, failed, closed, still held), and none is forwarded twice. *)
Theorem scheduler_history config q0 acts :
  from_config config = Ok q0 →
  config_typed config →
  len acts ≤ u64_max →
  ∃ st, staging_run (mkStaging q0 None [] []) acts = Some (Done st) ∧
    queued_messages (counters (st_queue st)) = len (reserved st) ∧
    len (reserved st) ≤ max_queued_messages config ∧
    queued_bytes (counters (st_queue st)) = sumZ reserved_bytes (reserved st) ∧
    sumZ reserved_bytes (reserved st) ≤ max_queued_bytes config ∧
    (∀ s, default 0 (session_bytes (st_queue st) !! s) = session_total (reserved st) s ∧
          session_total (reserved st) s ≤ max_session_queued_bytes config) ∧
    (let c := counters (st_queue st) in
     sumZ (λ x, x) (admitted_by_priority c) = len (st_admitted st) ∧
     forwarded c + expired_dropped c + closed_dropped c + send_failed c + queued_messages c
     = len (st_admitted st) ∧
     sumZ (λ x, x) (forwarded_by_priority c) = forwarded c) ∧
    st_completed st ++ reserved st ⊆+ st_admitted st.
Proof.
  intros Hq Ht Hn. destruct (from_config_inv _ _ Hq Ht) as (I & E & Hl).
  destruct (staging_run_inv (limits q0) (mkStaging q0 None [] []) acts) as (st & -> & [[W A B] L U]);
    [by eapply staging_start|cbn; rewrite len_nil; lia|].
  - exists st. rewrite Hl in L. injection L as L1 L2 L3. fold (reserved st) in A.
    destruct A as [A1 A2 A3 A4 A5 A6 A7]. destruct B as [_ _ _ _ B5 B6 B7 _].
    split_and!; try done; try lia; try (by rewrite <- L2). intros s. split; [|by rewrite <- L3].
    rewrite A3. by case_decide.
Qed.

Definition demo_message (s : Z) (b : byte) (p : GamePriority.t) (expires : option Z) : ScheduledMessage :=
  mkScheduledMessage s [b] None None 0 p 0 expires.

Lemma scheduler_history_witness :
  ∃ st, staging_run
      (mkStaging (mkScheduledQueue (replicate 4 fair_default) ∅ 1000 100 10 0
         (mkCounters 0 0 0 0 0 0 0 0 [0; 0; 0; 0] [0; 0; 0; 0]) histogram_default histogram_default)
         None [] [])
      [SEnqueue (demo_message 7 Byte.x01 GamePriority.Low None);
       SEnqueue (demo_message 8 Byte.x02 GamePriority.Critical (Some 5)); SPop 9;
       SComplete (Ok tt) 3] = Some (Done st) ∧
    forwarded (counters (st_queue st)) + expired_dropped (counters (st_queue st))
    + closed_dropped (counters (st_queue st)) + send_failed (counters (st_queue st))
    + queued_messages (counters (st_queue st)) = 2.
Proof.
  destruct (scheduler_history (mkScheduledQueueConfig 1000 100 10 4) _
    [SEnqueue (demo_message 7 Byte.x01 GamePriority.Low None);
     SEnqueue (demo_message 8 Byte.x02 GamePriority.Critical (Some 5)); SPop 9;
     SComplete (Ok tt) 3] eq_refl) as (st & Hst & _ & _ & _ & _ & _ & (_ & Hf & _) & _);
    [by vm_compute|by vm_compute|].
  exists st. split; [exact Hst|]. rewrite Hf. clear Hf. vm_compute in Hst. by simplify_eq.
Defined.

(** ** Weighted service *)

(** What happens to the queue between two selections. *)
Inductive upkeep (q : ScheduledQueue) : ScheduledQueue → Prop :=
| up_enqueue m : upkeep q (enqueue q m).2
| up_complete m r e : upkeep q (complete q m r e).2
| up_expire m : upkeep q (release q m <| counters ::= λ c, c <| expired_dropped ::= count |> |>)
| up_forget s : upkeep q (forget_session q s).2.

Lemma upkeep_wf q q' : queue_wf q → upkeep q q' → queue_wf q' ∧ cursor q' = cursor q.
Proof.
  intros W [m|m r e|m|s].
  - unfold enqueue. destruct (fits q m); cbn [negb snd]; [|by split; [split; apply W|]].
    split; [|done]. apply push_class_spec. split; apply W.
  - destruct r as [[]|err]; cbn.
    + unfold record_forwarded. case_decide; by split; [split; apply W|].
    + case_decide; cbn; [|by split; [split; apply W|]]. split; [|done].
      apply push_class_spec. split; apply W.
  - by split; [split; apply W|].
  - unfold forget_session. pose proof (remove_session_spec (queues q) s 0 (qw_class _ W)) as R.
    destruct (remove_session (queues q) s) as [d l']. destruct R as (L & W' & _). cbn.
    split; [|done]. split; cbn; [rewrite L; apply W|apply W'|apply W].
Qed.

(** Selections, each recorded by the class it served, made while class [c] has messages. *)
Inductive serving (c : nat) : ScheduledQueue → list nat → ScheduledQueue → Prop :=
| serving_nil q : serving c q [] q
| serving_select q m q1 l q2 :
    ¬ empty_class q c → select (length WEIGHTED_ORDER) q = Done (Some m, q1) →
    serving c q1 l q2 → serving c q (GamePriority.index (sm_priority m) :: l) q2
| serving_upkeep q q1 l q2 : upkeep q q1 → serving c q1 l q2 → serving c q l q2.

(** Slots of class [c] among the [n] slots from [p]. *)
Definition slots (c p n : nat) : nat := length (filter (λ i, slot i = c) (seq p n)).

Lemma slots_add c p n k : slots c p (n + k) = (slots c p n + slots c (p + n) k)%nat.
Proof. unfold slots. by rewrite seq_app, filter_app, length_app. Qed.

Lemma slots_mod c p n : slots c (p mod 15) n = slots c p n.
Proof.
  unfold slots. revert p. induction n as [|n IH] using nat_ind; intros p; [done|].
  replace (S n) with (n + 1)%nat by lia. rewrite !seq_app, !filter_app, !length_app, IH. f_equal.
  cbn [seq]. assert (slot (p mod 15 + n) = slot (p + n)) as E by apply slot_mod.
  rewrite !filter_cons, E. by destruct (decide _).
Qed.

(** A full round has [1], [2], [4] or [8] slots of a class, wherever it starts. *)
Lemma slots_round c p : (c < 4)%nat → slots c p 15 = (2 ^ c)%nat.
Proof.
  intros Hc. rewrite <- slots_mod. pose proof (Nat.mod_upper_bound p 15 ltac:(done)) as Hp.
  generalize dependent (p mod 15)%nat. intros r Hr.
  do 4 (destruct c as [|c]; [do 15 (destruct r as [|r]; [by vm_compute|]); lia|]). lia.
Qed.

Lemma slots_rounds c p k : (c < 4)%nat → slots c p (15 * k) = (2 ^ c * k)%nat.
Proof.
  intros Hc. revert p. induction k as [|k IH]; intros p; [by rewrite !Nat.mul_0_r|].
  replace (15 * S k)%nat with (15 + 15 * k)%nat by lia.
  rewrite slots_add, IH, slots_round by done. lia.
Qed.

Lemma slots_take c p n k : (n ≤ k)%nat → (slots c p n ≤ slots c p k)%nat.
Proof. intros. replace k with (n + (k - n))%nat by lia. rewrite slots_add. lia. Qed.

Lemma slots_skipped c p i :
  (∀ j, (j < i)%nat → slot (p + j) ≠ c) → slots c p i = 0%nat.
Proof.
  intros H. unfold slots. rewrite (proj2 (filter_none _ _)); [done|].
  apply Forall_forall. intros x [Hx1 Hx2]%elem_of_seq. replace x with (p + (x - p))%nat by lia.
  apply H. lia.
Qed.

(** The classes served cover the slots of [c] the cursor has passed. *)
Lemma serving_slots c q l q' :
  queue_wf q → serving c q l q' →
  ∃ n, (length l ≤ n)%nat ∧ (slots c (cursor q) n ≤ length (filter (λ x, x = c) l))%nat.
Proof.
  intros W S. induction S as [q|q m q1 l q2 Hc Hsel S IH|q q1 l q2 U S IH].
  - exists 0%nat. done.
  - destruct (select_order q W) as [(i & m' & q1' & Hi & Hs & Sel)|(_ & k & _ & Hs)];
      rewrite Hs in Hsel; [|done]. injection Hsel as -> ->.
    destruct (IH (selected_wf _ _ _ _ W Sel)) as (n & Hn & Hs').
    destruct Sel as [f f' Hf Hp Hskip ->]. cbn [cursor update] in Hs'.
    assert (GamePriority.index (sm_priority m) = slot (cursor q + i)) as Hm.
    { pose proof (qw_class _ W _ _ Hf) as Wf. destruct Hp as [rest k _ Hk _ _].
      destruct (fw_queue _ _ Wf _ _ Hk) as [_ [[_ ?] _]%Forall_cons]. done. }
    exists (i + (1 + n))%nat. cbn [length]. split; [lia|].
    rewrite !slots_add, slots_skipped, filter_cons, Hm.
    2:{ intros j Hj E. apply Hc. rewrite <- E. by apply Hskip. }
    change (cursor (_ <| cursor := _ |>)) with ((cursor q + i + 1) mod 15)%nat in Hs'.
    rewrite slots_mod in Hs'. unfold slots at 1. cbn [seq]. rewrite filter_cons.
    destruct (decide (slot (cursor q + i) = c)); cbn [length filter list_filter]; lia.
  - destruct (upkeep_wf _ _ W U) as [W1 E]. rewrite <- E. by apply IH.
Qed.

(** Weighted service.  While a class has messages, whatever is sent, completed,
    expired or forgotten in between, it gets at least its share of the selections: of
    every fifteen, one for low, two for normal, four for high and eight for critical.
    No load on the other classes can starve it. *)
Theorem weighted_service c q l q' :
  queue_wf q → (c < 4)%nat → serving c q l q' →
  (2 ^ c * (length l / 15) ≤ length (filter (λ x, x = c) l))%nat.
Proof.
  intros W Hc S. destruct (serving_slots c q l q' W S) as (n & Hn & Hs).
  etrans; [|exact Hs]. rewrite <- (slots_rounds c (cursor q)) by done. apply slots_take.
  etrans; [|exact Hn]. apply Nat.Div0.mul_div_le.
Qed.

(** [n] selections in a row, as long as class [c] has messages. *)
Fixpoint serve (c n : nat) (q : ScheduledQueue) : option (list nat * ScheduledQueue) :=
  match n with
  | O => Some ([], q)
  | S n =>
    match queues q !! c with
    | Some f =>
      if decide (sessions f = []) then None else
      match select (length WEIGHTED_ORDER) q with
      | Done (Some m, q) =>
        '(l, q) ← serve c n q; Some (GamePriority.index (sm_priority m) :: l, q)
      | _ => None
      end
    | None => None
    end
  end.

Lemma serve_serving c n q l q' : serve c n q = Some (l, q') → serving c q l q'.
Proof.
  revert q l. induction n as [|n IH]; intros q l H; cbn [serve] in H; [simplify_eq; constructor|].
  destruct (queues q !! c) as [f|] eqn:Hf; [|done]. case_decide as He; [done|].
  destruct (select _ q) as [[[m|] q1]|] eqn:Hs; [|done..].
  destruct (serve c n q1) as [[l1 q2]|] eqn:Hr; [|done]. cbn in H. simplify_eq.
  eapply serving_select; [|exact Hs|by apply IH]. intros Hx. by apply He, Hx.
Qed.

Lemma enqueue_all_wf q ms :
  queue_wf q → queue_wf (foldl (λ q m, (enqueue q m).2) q ms).
Proof.
  revert q. induction ms as [|m ms IH]; intros q W; [done|]. cbn. apply IH.
  apply (upkeep_wf q); [done|]. constructor.
Qed.

Lemma enqueue_all_inv q ms fl n :
  sched_inv q fl n → n + len ms ≤ u64_max →
  ∃ k, n ≤ k ≤ n + len ms ∧ sched_inv (foldl (λ q m, (enqueue q m).2) q ms) fl k.
Proof.
  revert q n. induction ms as [|m ms IH]; intros q n I Hn; rewrite ?len_nil, ?len_cons in *.
  { exists n. split; [lia|done]. }
  pose proof (len_nonneg ms). pose proof (enqueue_spec q fl n m I ltac:(lia)) as E.
  cbn [foldl]. destruct (enqueue q m) as [r q1]. cbn [snd].
  destruct (fits q m); destruct E as (_ & I1 & _);
    (destruct (IH q1 _ I1) as (k & Hk & I2); [lia|]; exists k; split; [lia|done]).
Qed.

(** Twenty low and twenty critical messages. *)
Definition flooded : ScheduledQueue :=
  match from_config scheduled_config_default with
  | Ok q =>
    foldl (λ q m, (enqueue q m).2) q
      (replicate 20 (demo_message 7 Byte.x01 GamePriority.Low None) ++
       replicate 20 (demo_message 8 Byte.x02 GamePriority.Critical None))
  | Err _ => mkScheduledQueue [] ∅ 0 0 0 0 (mkCounters 0 0 0 0 0 0 0 0 [] []) histogram_default histogram_default
  end.

Lemma flooded_wf : queue_wf flooded.
Proof.
  destruct (from_config_inv scheduled_config_default _ eq_refl) as [I _]; [by vm_compute|].
  by apply enqueue_all_wf, I.
Qed.

Lemma weighted_service_witness :
  ∃ l q', serve 0 15 flooded = Some (l, q') ∧
    l = [3; 3; 3; 3; 3; 3; 3; 3; 0; 3; 3; 3; 3; 3; 3]%nat ∧
    (2 ^ 0 * (length l / 15) ≤ length (filter (λ x, x = 0) l))%nat.
Proof.
  destruct (serve 0 15 flooded) as [[l q']|] eqn:Hs; [|by vm_compute in Hs].
  exists l, q'. split; [done|]. split; [by vm_compute in Hs; simplify_eq|].
  exact (weighted_service 0 flooded l q' flooded_wf ltac:(lia) (serve_serving _ _ _ _ _ Hs)).
Defined.

(** ** Order inside a class *)

(** Pushes and pops of one class; the messages popped, oldest first. *)
Fixpoint class_run (f : FairPriorityQueue) (ops : list (option ScheduledMessage)) :
    outcome (list ScheduledMessage * FairPriorityQueue) :=
  match ops with
  | [] => Done ([], f)
  | Some m :: ops => class_run (fair_push f m) ops
  | None :: ops =>
    '(o, f) ← fair_pop f;
    '(l, f) ← class_run f ops;
    Done (option_list o ++ l, f)
  end.

Definition pushes (ops : list (option ScheduledMessage)) : list ScheduledMessage := ops ≫= option_list.

Lemma queue_of_push f m s :
  queue_of (messages (fair_push f m)) s
  = queue_of (messages f) s ++ filter (λ m, sm_session m = s) [m].
Proof.
  unfold fair_push, queue_of. cbn. destruct (decide (sm_session m = s)) as [<-|Hne]; cbn.
  - by rewrite lookup_insert_eq.
  - rewrite lookup_insert_ne by done. by rewrite app_nil_r.
Qed.

Lemma queue_of_popped f m f' s :
  popped f m f' →
  queue_of (messages f) s = filter (λ m, sm_session m = s) [m] ++ queue_of (messages f') s.
Proof.
  intros [rest queue _ Hm _ Hf']. unfold queue_of. rewrite Hf'. cbn.
  destruct (decide (sm_session m = s)) as [<-|Hne]; cbn.
  - rewrite Hm. case_decide; [subst; by rewrite lookup_delete_eq|by rewrite lookup_insert_eq].
  - case_decide; [by rewrite lookup_delete_ne|by rewrite lookup_insert_ne].
Qed.

Lemma sessions_push f m : ∃ k, sessions (fair_push f m) = sessions f ++ k.
Proof.
  unfold fair_push. cbn. case_decide; [by eexists|]. exists []. by rewrite app_nil_r.
Qed.

(** Round robin inside a class.  Whatever is sent meanwhile, the session in position
    [i] of a class is served by the [i]-th pop, so no session can be overtaken by
    another one sending more, and the messages of one session leave in the order they
    were pushed.  Pushes and pops never panic. *)
Theorem class_round_robin c f ops :
  fair_wf c f → Forall (λ m, GamePriority.index (sm_priority m) = c) (pushes ops) →
  ∃ out f', class_run f ops = Done (out, f') ∧ fair_wf c f' ∧
    (∀ s, filter (λ m, sm_session m = s) out ++ queue_of (messages f') s
          = queue_of (messages f) s ++ filter (λ m, sm_session m = s) (pushes ops)) ∧
    (∀ i s, sessions f !! i = Some s → (i < length out)%nat → sm_session <$> out !! i = Some s).
Proof.
  revert f. induction ops as [|[m|] ops IH]; intros f W Hp; cbn [class_run].
  - exists [], f. split_and!; try done; [by intros; rewrite app_nil_r|]. cbn. lia.
  - apply Forall_cons in Hp as [Hm Hp].
    destruct (IH (fair_push f m)) as (out & f' & -> & W' & Q & R); [by apply fair_push_wf|done|].
    exists out, f'. split_and!; try done.
    + intros s. rewrite Q, queue_of_push, <- app_assoc, <- filter_app. done.
    + intros i s Hi Hlt. apply R; [|done]. destruct (sessions_push f m) as [k ->].
      by apply lookup_app_l_Some.
  - destruct (decide (sessions f = [])) as [He|Hne].
    + assert (fair_pop f = Done (None, f)) as -> by (unfold fair_pop; by rewrite He).
      destruct (IH f W Hp) as (out & f' & Hr & W' & Q & R). cbn [mbind outcome_bind]. rewrite Hr.
      exists out, f'. split_and!; done.
    + destruct (fair_pop_nonempty c f W Hne) as (m & f1 & -> & P). cbn [mbind outcome_bind].
      destruct (IH f1 (popped_wf _ _ _ _ W P) Hp) as (out & f' & -> & W' & Q & R).
      exists (m :: out), f'. cbn [mbind outcome_bind option_list]. split_and!; try done.
      * intros s. rewrite (queue_of_popped _ _ _ s P), <- app_assoc, <- Q, app_assoc, <- filter_app. done.
      * destruct P as [rest k Hs _ Hs' _]. rewrite Hs. intros [|i] s; cbn; [by intros [= <-]|].
        intros Hi Hlt. apply R; [|lia]. rewrite Hs'. by apply lookup_app_l_Some.
Qed.

Lemma class_round_robin_witness :
  ∃ out f', class_run (fair_push (fair_push fair_default (demo_message 7 Byte.x01 GamePriority.Low None))
                        (demo_message 8 Byte.x02 GamePriority.Low None))
      [Some (demo_message 7 Byte.x02 GamePriority.Low None); None; None] = Done (out, f') ∧
    sm_session <$> out !! 1%nat = Some 8.
Proof.
  destruct (class_round_robin 0
    (fair_push (fair_push fair_default (demo_message 7 Byte.x01 GamePriority.Low None))
       (demo_message 8 Byte.x02 GamePriority.Low None))
    [Some (demo_message 7 Byte.x02 GamePriority.Low None); None; None])
    as (out & f' & Hr & _ & _ & R).
  - by repeat apply fair_push_wf; [apply fair_default_wf|..].
  - by repeat constructor.
  - exists out, f'. split; [done|]. apply R; [by vm_compute|]. vm_compute in Hr. simplify_eq. cbn. lia.
Defined.

(** Backpressure reorders.  Two default-priority sends of one session, of which the
    first meets a full transport queue once, are forwarded in the opposite order: a
    message put back by [requeue] goes behind the session's later messages. *)
Theorem requeue_overtaken :
  let first := demo_message 7 Byte.x01 GamePriority.Normal None in
  let second := demo_message 7 Byte.x02 GamePriority.Normal None in
  ∃ q0 st,
    from_config scheduled_config_default = Ok q0 ∧
    staging_run (mkStaging q0 None [] [])
      [SEnqueue first; SEnqueue second;
       SPop 1; SComplete (fail ErrorCode.WouldBlock "send queue is full") 1;
       SPop 2; SComplete (Ok tt) 2; SPop 3; SComplete (Ok tt) 3] = Some (Done st) ∧
    reverse (st_completed st) = [second; first].
Proof. eexists _, _. split; [reflexivity|]. split; vm_compute; reflexivity. Qed.

(** ** A flush *)

Lemma complete_spec q fl n m r e :
  sched_inv q (m :: fl) n → sched_inv (complete q m r e).2 fl n.
Proof.
  intros I. destruct r as [[]|err]; cbn [complete snd]; [by apply forwarded_spec|].
  case_decide; cbn [snd]; [by apply requeue_spec|by apply send_failed_spec].
Qed.

Section flush_spec.
Context {W : Type} (send : W → ScheduledMessage → Result unit * W) (now elapsed : nat → Z).

Lemma flush_loop_spec attempts q w n :
  sched_inv q [] n →
  ∃ k q' w', flush_loop send now elapsed attempts q w = Some (Done (k, q', w')) ∧
    sched_inv q' [] n ∧ 0 ≤ k ≤ Z.of_nat attempts ∧
    ((∀ w m, is_ok (send w m).1 = true) → (length (queued q) ≤ attempts)%nat → queued q' = []).
Proof.
  revert q w. induction attempts as [|attempts IH]; intros q w I; cbn [flush_loop].
  { exists 0, q, w. split_and!; try done; try lia. intros _ Hq. apply length_zero_iff_nil. lia. }
  unfold pop_next. destruct (pop_loop_spec (S (length (queued q))) q [] n (now attempts) I ltac:(lia))
    as (o & q1 & dropped & -> & I1 & E & _ & _ & Hn & _). rewrite app_nil_r in I1.
  destruct o as [m|]; [|exists 0, q1, w; split_and!; try done; try lia; intros _ _; by apply Hn].
  destruct (send w m) as [r w1] eqn:Hsend.
  pose proof (complete_spec q1 [] n m r (elapsed attempts) I1) as I2.
  destruct (complete q1 m r (elapsed attempts)) as [k q2] eqn:Hc. cbn [snd] in I2.
  destruct (IH q2 w1 I2) as (k' & q' & w' & -> & I' & Hk & Hd).
  assert (0 ≤ k ≤ 1) by (destruct r as [[]|e]; cbn in Hc; [|case_decide]; simplify_eq; lia).
  exists (k + k'), q', w'. split_and!; try done; try lia. intros Hok Hlen. apply Hd; [done|].
  pose proof (Hok w m) as Hm. rewrite Hsend in Hm. destruct r as [[]|]; [|done].
  cbn [complete] in Hc. simplify_eq. rewrite forwarded_queued.
  apply Permutation_length in E. rewrite length_app in E. cbn in E. lia.
Qed.

(** What every forwarding attempt keeps, a flush keeps. *)
Lemma flush_loop_state (P : W → Prop) attempts : ∀ q w k q' w',
  (∀ w m, P w → P (send w m).2) → P w →
  flush_loop send now elapsed attempts q w = Some (Done (k, q', w')) → P w'.
Proof.
  induction attempts as [|n IH]; intros q w k q' w' Hs Hw; cbn [flush_loop]; [by intros [= _ _ <-]|].
  destruct (pop_next q (now n)) as [[[[m|] q1]|]|]; try done; [|by intros [= _ _ <-]].
  pose proof (Hs w m Hw) as Hw1. destruct (send w m) as [r w1]. cbn [snd] in Hw1.
  destruct (complete q1 m r (elapsed n)) as [k1 q2].
  destruct (flush_loop send now elapsed n q2 w1) as [[[[k2 q3] w3]|]|] eqn:E; try done.
  intros [= _ _ <-]. by eapply IH.
Qed.

(** A flush of the staging queue ends without panicking, forwards at most the
    requested number of messages, leaves nothing in flight with the accounting intact,
    and, when the transport accepts every message and the capacity covers the queue,
    empties it. *)
Theorem flush_scheduled_ends capacity q w n :
  sched_inv q [] n → 0 ≤ capacity →
  ∃ k q' w', flush_scheduled_inner send now elapsed capacity q w = Some (Done (k, q', w')) ∧
    sched_inv q' [] n ∧ 0 ≤ k ≤ capacity ∧
    ((∀ w m, is_ok (send w m).1 = true) → queued_messages (counters q) ≤ capacity → queued q' = []).
Proof.
  intros I Hcap. pose proof (ac_count _ _ (si_accounts _ _ _ I)) as Hc.
  rewrite app_nil_r in Hc. unfold flush_scheduled_inner. rewrite Hc.
  destruct (flush_loop_spec (Z.to_nat (capacity `min` len (queued q))) q w n I)
    as (k & q' & w' & -> & I' & Hk & Hd).
  exists k, q', w'. pose proof (len_nonneg (queued q)). split_and!; try done; try lia.
  intros Hok Hle. apply Hd; [done|]. unfold len in *. lia.
Qed.
End flush_spec.

Lemma flush_scheduled_ends_witness :
  ∃ k q' w',
    flush_scheduled_inner (λ (w : nat) (_ : ScheduledMessage), (Ok tt, S w)) (λ _, 0) (λ _, 0) 100
      flooded 0%nat = Some (Done (k, q', w')) ∧ queued q' = [] ∧ w' = 40%nat.
Proof.
  destruct (from_config_inv scheduled_config_default _ eq_refl) as [I _]; [by vm_compute|].
  destruct (enqueue_all_inv _ (replicate 20 (demo_message 7 Byte.x01 GamePriority.Low None) ++
    replicate 20 (demo_message 8 Byte.x02 GamePriority.Critical None)) _ _ I) as (n & _ & I');
    [by vm_compute|].
  destruct (flush_scheduled_ends (λ (w : nat) (_ : ScheduledMessage), (Ok tt, S w)) (λ _, 0) (λ _, 0)
    100 flooded 0%nat n I') as (k & q' & w' & Hr & _ & _ & Hd); [done|].
  exists k, q', w'. split; [done|]. split; [apply Hd; [done|by vm_compute]|].
  vm_compute in Hr. by simplify_eq.
Defined.

(** Only [enqueue] brings a message into staging. *)
Lemma staging_reserved lim st a st' x :
  staging_inv lim st → len (st_admitted st) < u64_max →
  staging_act st a = Some (Done st') → x ∈ reserved st' → x ∈ reserved st ∨ a = SEnqueue x.
Proof.
  intros [I L U] Hn Ha. destruct st as [q o adm cmp]. cbn in I, L. unfold reserved.
  rewrite !elem_of_app. destruct a as [m|now|r e|s|]; cbn in Ha.
  - pose proof (enqueue_spec _ _ _ m I Hn) as E. destruct (enqueue q m) as [r q'].
    destruct (fits q m); destruct E as (-> & _ & E & _); cbn in Ha; simplify_eq; cbn.
    + rewrite E, elem_of_cons. naive_solver.
    + unfold queued in *. rewrite E. tauto.
  - destruct o as [m|]; [simplify_eq; tauto|]. unfold pop_next in Ha.
    destruct (pop_loop_spec (S (length (queued q))) q [] _ now I ltac:(lia))
      as (o & q' & dropped & Hp & _ & E & _). rewrite Hp in Ha. simplify_eq. cbn.
    rewrite E, !elem_of_app. tauto.
  - destruct o as [m|]; [|simplify_eq; tauto]. cbn [option_list option_rect] in *.
    destruct (requeue_spec _ _ _ _ I) as [_ E]. destruct r as [[]|err]; cbn in Ha.
    + simplify_eq. cbn. rewrite forwarded_queued, elem_of_nil. tauto.
    + case_decide; simplify_eq; cbn; rewrite elem_of_nil; [|tauto].
      rewrite E, elem_of_cons, list_elem_of_singleton. tauto.
  - case_decide as Hfl; simplify_eq; [|tauto]. pose proof (forget_session_spec _ _ _ s I Hfl) as F.
    destruct (forget_session q s) as [d q']. destruct F as (_ & E & _). cbn.
    rewrite E, list_elem_of_filter. tauto.
  - destruct o as [m|]; simplify_eq; [tauto|]. destruct (clear_spec _ _ I) as [_ E].
    cbn [st_queue st_inflight]. rewrite E. rewrite elem_of_nil. tauto.
Qed.
