(* ===== verification/Realtime.v ===== *)
(** * Replaceable snapshots: [realtime.rs] and the flush loop of [realtime_runtime.rs]

    A queue with at most one pending value per session and key: a newer value takes the
    place of a pending one, and a value put back after backpressure yields to a newer. *)

From S2P Require Import Prelude Bytes CoreTypes.

Definition WORST_ENVELOPE_OVERHEAD : Z := 16.

Record RealtimeQueueConfig := mkRealtimeQueueConfig {
  rt_max_queued_bytes : Z;
  rt_max_session_queued_bytes : Z;
  rt_max_keys : Z;
  rt_flush_batch : Z
}.
Definition realtime_config_default : RealtimeQueueConfig :=
  mkRealtimeQueueConfig (16 * 1024 * 1024) (256 * 1024) 64 256.

Inductive QueueEffect := Queued | Replaced.
#[export] Instance QueueEffect_eq_dec : EqDecision QueueEffect.
Proof. solve_decision. Defined.

Record RealtimeCounters := mkRealtimeCounters {
  rt_queued_messages : Z;
  rt_queued_bytes : Z;
  rt_admission_rejected : Z;
  rt_replaced : Z;
  rt_closed_dropped : Z;
  rt_backpressure_dropped : Z;
  rt_send_failed : Z;
  rt_forwarded : Z
}.
#[export] Instance RealtimeCounters_eta : Eta RealtimeCounters := λ c,
  mkRealtimeCounters (rt_queued_messages c) (rt_queued_bytes c) (rt_admission_rejected c)
    (rt_replaced c) (rt_closed_dropped c) (rt_backpressure_dropped c) (rt_send_failed c)
    (rt_forwarded c).

Record PendingRealtime := mkPendingRealtime {
  rt_session : Handle;
  rt_key : Z;
  rt_payload : list byte;
  rt_tick : option Z
}.
#[export] Instance PendingRealtime_eq_dec : EqDecision PendingRealtime.
Proof. solve_decision. Defined.

(** The length of a byte buffer is far below [usize::MAX], so the addition is exact. *)
Definition rt_reserved_bytes (m : PendingRealtime) : Z := len (rt_payload m) + WORST_ENVELOPE_OVERHEAD.

Definition slot_key (m : PendingRealtime) : Z * Z := (rt_session m, rt_key m).

Record LatestQueue := mkLatestQueue {
  lq_max_total_bytes : Z;
  lq_max_session_bytes : Z;
  lq_max_keys_per_session : Z;
  lq_max_pending_keys : Z;
  lq_order : list (Z * Z);
  lq_pending : gmap (Z * Z) PendingRealtime;
  lq_session_usage : gmap Z (Z * Z);
  lq_counters : RealtimeCounters
}.
#[export] Instance LatestQueue_eta : Eta LatestQueue := λ q,
  mkLatestQueue (lq_max_total_bytes q) (lq_max_session_bytes q) (lq_max_keys_per_session q)
    (lq_max_pending_keys q) (lq_order q) (lq_pending q) (lq_session_usage q) (lq_counters q).

(** [u64::saturating_add(1)]. *)
Definition tick_up (c : Z) : Z := saturating_add u64_max c 1.

Definition latest_new (max_total max_session max_keys : Z) : Result LatestQueue :=
  if decide (max_total = 0 ∨ max_session = 0 ∨ max_total < max_session ∨ max_keys = 0) then
    fail ErrorCode.InvalidArgument "invalid realtime queue limits"
  else
    Ok (mkLatestQueue max_total max_session max_keys
          (((max_total / WORST_ENVELOPE_OVERHEAD) `max` 1) `min` 65536)
          [] ∅ ∅ (mkRealtimeCounters 0 0 0 0 0 0 0 0)).

Definition latest_from_config (c : RealtimeQueueConfig) : Result LatestQueue :=
  if decide (rt_flush_batch c = 0) then
    fail ErrorCode.InvalidArgument "realtime flush batch must be positive"
  else
    latest_new (rt_max_queued_bytes c) (rt_max_session_queued_bytes c) (rt_max_keys c).

(** The four rejections of [enqueue]; [new_total] and [new_session] are [None] on
    overflow. *)
Definition rejected (q : LatestQueue) (new_total new_session : option Z) (old_bytes session_keys : Z) : bool :=
  is_none_or new_total (λ bytes, bool_decide (lq_max_total_bytes q < bytes)) ||
  is_none_or new_session (λ bytes, bool_decide (lq_max_session_bytes q < bytes)) ||
  bool_decide (old_bytes = 0 ∧ lq_max_keys_per_session q ≤ session_keys) ||
  bool_decide (old_bytes = 0 ∧ lq_max_pending_keys q ≤ Z.of_nat (size (lq_pending q))).

Definition latest_enqueue (q : LatestQueue) (candidate : PendingRealtime) :
    outcome (Result QueueEffect * LatestQueue) :=
  let key := slot_key candidate in
  let session := rt_session candidate in
  let new_bytes := rt_reserved_bytes candidate in
  let old_bytes := from_option rt_reserved_bytes 0 (lq_pending q !! key) in
  let '(session_keys, session_bytes) := default (0, 0) (lq_session_usage q !! session) in
  let new_total :=
    checked_add usize_max (saturating_sub (rt_queued_bytes (lq_counters q)) old_bytes) new_bytes in
  let new_session := checked_add usize_max (saturating_sub session_bytes old_bytes) new_bytes in
  if rejected q new_total new_session old_bytes session_keys then
    Done (fail ErrorCode.WouldBlock "realtime queue budget is full",
          q <| lq_counters ::= λ c, c <| rt_admission_rejected ::= tick_up |> |>)
  else
    let present := bool_decide (is_Some (lq_pending q !! key)) in
    let q := q <| lq_pending ::= <[key := candidate]> |> in
    let '(effect, q) :=
      if present then (Replaced, q <| lq_counters ::= λ c, c <| rt_replaced ::= tick_up |> |>)
      else (Queued, q <| lq_order ::= λ o, o ++ [key] |>
                      <| lq_counters ::= λ c, c <| rt_queued_messages ::= λ n, n + 1 |> |>) in
    total ← expect new_total;
    let q := q <| lq_counters ::= λ c, c <| rt_queued_bytes := total |> |> in
    used ← expect new_session;
    Done (Ok effect,
          q <| lq_session_usage ::=
                 <[session := (session_keys + (if decide (effect = Queued) then 1 else 0), used)]> |>).

(** The subtractions are unchecked in the source: below zero they panic. *)
Definition latest_release (q : LatestQueue) (m : PendingRealtime) : outcome LatestQueue :=
  let bytes := rt_reserved_bytes m in
  n ← expect (checked_sub (rt_queued_messages (lq_counters q)) 1);
  b ← expect (checked_sub (rt_queued_bytes (lq_counters q)) bytes);
  let q := q <| lq_counters ::= λ c, c <| rt_queued_messages := n |> <| rt_queued_bytes := b |> |> in
  match lq_session_usage q !! rt_session m with
  | None => Done q
  | Some (keys, used) =>
    keys ← expect (checked_sub keys 1);
    used ← expect (checked_sub used bytes);
    Done (q <| lq_session_usage ::=
                 if decide (keys = 0) then delete (rt_session m)
                 else <[rt_session m := (keys, used)]> |>)
  end.

(** The [while let] loop over the keys [order]. *)
Fixpoint latest_pop (order : list (Z * Z)) (q : LatestQueue) : outcome (option PendingRealtime * LatestQueue) :=
  match order with
  | [] => Done (None, q <| lq_order := [] |>)
  | key :: rest =>
    match lq_pending q !! key with
    | Some m =>
      q ← latest_release (q <| lq_order := rest |> <| lq_pending ::= delete key |>) m;
      Done (Some m, q)
    | None => latest_pop rest q
    end
  end.
Definition latest_pop_next (q : LatestQueue) : outcome (option PendingRealtime * LatestQueue) :=
  latest_pop (lq_order q) q.

Definition latest_requeue (q : LatestQueue) (m : PendingRealtime) : outcome LatestQueue :=
  if decide (is_Some (lq_pending q !! slot_key m)) then
    Done (q <| lq_counters ::= λ c, c <| rt_replaced ::= tick_up |> |>)
  else
    '(r, q) ← latest_enqueue q m;
    Done (if is_ok r then q
          else q <| lq_counters ::= λ c, c <| rt_backpressure_dropped ::= tick_up |> |>).

(** Removes the listed keys; [HashMap]'s iteration order does not matter. *)
Fixpoint latest_remove (keys : list (Z * Z)) (q : LatestQueue) : outcome LatestQueue :=
  match keys with
  | [] => Done q
  | key :: keys =>
    match lq_pending q !! key with
    | Some m =>
      q ← latest_release (q <| lq_pending ::= delete key |>) m;
      latest_remove keys q
    | None => latest_remove keys q
    end
  end.

Definition latest_forget_session (q : LatestQueue) (session : Handle) : outcome (Z * LatestQueue) :=
  let keys := filter (λ k, k.1 = session) (map_to_list (lq_pending q)).*1 in
  q ← latest_remove keys q;
  Done (len keys,
        q <| lq_order ::= filter (λ k, k.1 ≠ session) |>
          <| lq_counters ::= λ c, c <| rt_closed_dropped ::= λ n, saturating_add u64_max n (len keys) |> |>).

Definition latest_clear (q : LatestQueue) : LatestQueue :=
  q <| lq_counters ::= λ c,
         c <| rt_closed_dropped ::= λ n, saturating_add u64_max n (Z.of_nat (size (lq_pending q))) |>
           <| rt_queued_messages := 0 |> <| rt_queued_bytes := 0 |> |>
    <| lq_pending := ∅ |> <| lq_order := [] |> <| lq_session_usage := ∅ |>.

Definition latest_record_forwarded (q : LatestQueue) : LatestQueue :=
  q <| lq_counters ::= λ c, c <| rt_forwarded ::= tick_up |> |>.
Definition latest_record_send_failed (q : LatestQueue) : LatestQueue :=
  q <| lq_counters ::= λ c, c <| rt_send_failed ::= tick_up |> |>.

(** One forwarding attempt's result. *)
Definition latest_complete (q : LatestQueue) (m : PendingRealtime) (r : Result unit) :
    outcome (Z * LatestQueue) :=
  match r with
  | Ok _ => Done (1, latest_record_forwarded q)
  | Err e =>
    if decide (code e = ErrorCode.WouldBlock) then q ← latest_requeue q m; Done (0, q)
    else Done (0, latest_record_send_failed q)
  end.

Section flush.
Context {W : Type} (send : W → PendingRealtime → Result unit * W).

Fixpoint flush_realtime_loop (attempts : nat) (q : LatestQueue) (w : W) : outcome (Z * LatestQueue * W) :=
  match attempts with
  | O => Done (0, q, w)
  | S attempts =>
    '(o, q) ← latest_pop_next q;
    match o with
    | None => Done (0, q, w)
    | Some m =>
      let '(r, w) := send w m in
      '(k, q) ← latest_complete q m r;
      '(n, q, w) ← flush_realtime_loop attempts q w;
      Done (k + n, q, w)
    end
  end.

Definition flush_realtime_inner (capacity : Z) (q : LatestQueue) (w : W) : outcome (Z * LatestQueue * W) :=
  flush_realtime_loop (Z.to_nat (capacity `min` rt_queued_messages (lq_counters q))) q w.
End flush.

(** ** The queue as a line of values with distinct keys *)

Record lined (q : LatestQueue) (l : list PendingRealtime) : Prop := mkLined {
  ln_order : lq_order q = slot_key <$> l;
  ln_nodup : NoDup (slot_key <$> l);
  ln_pending : ∀ k m, lq_pending q !! k = Some m ↔ m ∈ l ∧ slot_key m = k
}.

(** A newer value takes the place of the pending one of its key, or goes to the end. *)
Definition put (l : list PendingRealtime) (m : PendingRealtime) : list PendingRealtime :=
  if decide (slot_key m ∈ slot_key <$> l) then
    (λ x, if decide (slot_key x = slot_key m) then m else x) <$> l
  else l ++ [m].

Lemma keys_unique l x y :
  NoDup (slot_key <$> l) → x ∈ l → y ∈ l → slot_key x = slot_key y → x = y.
Proof.
  induction l as [|z l IH]; cbn; [set_solver|]. intros [Hz Hn]%NoDup_cons Hx Hy E.
  apply elem_of_cons in Hx as [->|Hx], Hy as [->|Hy]; [done| | |by apply IH].
  - destruct Hz. rewrite E. by apply list_elem_of_fmap_2.
  - destruct Hz. rewrite <- E. by apply list_elem_of_fmap_2.
Qed.

Lemma lined_present q l k :
  lined q l → is_Some (lq_pending q !! k) ↔ k ∈ slot_key <$> l.
Proof.
  intros L. rewrite list_elem_of_fmap. split.
  - intros [m Hm]. apply (ln_pending _ _ L) in Hm as [Hm <-]. eauto.
  - intros (m & -> & Hm). exists m. by apply (ln_pending _ _ L).
Qed.

Lemma lined_absent q l k :
  lined q l → lq_pending q !! k = None ↔ k ∉ slot_key <$> l.
Proof. intros L. by rewrite <- (lined_present q l k L), eq_None_not_Some. Qed.

(** The value of a key and the rest of the line. *)
Lemma lined_split q l k old :
  lined q l → lq_pending q !! k = Some old →
  ∃ l1 l2, l = l1 ++ old :: l2 ∧ slot_key old = k ∧ (k ∉ slot_key <$> l1 ++ l2) ∧
    (∀ m, slot_key m = k → put l m = l1 ++ m :: l2).
Proof.
  intros L [Hin Hk]%(ln_pending _ _ L). pose proof (ln_nodup _ _ L) as N.
  apply list_elem_of_split in Hin as (l1 & l2 & ->). exists l1, l2.
  rewrite fmap_app, fmap_cons in N. apply NoDup_app in N as (N1 & N2 & [N3 N4]%NoDup_cons).
  assert (k ∉ slot_key <$> l1) as H1 by (intros H; apply (N2 _ H); rewrite Hk; by left).
  assert (k ∉ slot_key <$> l2) as H2 by (by rewrite <- Hk).
  split_and!; try done; [by rewrite fmap_app, not_elem_of_app|].
  intros m Hm. unfold put. rewrite decide_True.
  2:{ rewrite fmap_app, elem_of_app, fmap_cons. right. rewrite Hm, Hk. by left. }
  rewrite fmap_app, fmap_cons, (decide_True (P := slot_key old = slot_key m)) by congruence.
  assert (∀ l' : list PendingRealtime, k ∉ slot_key <$> l' →
    ((λ x, if decide (slot_key x = slot_key m) then m else x) <$> l') = l') as Hid; [|by rewrite !Hid].
  induction l' as [|x l' IH]; cbn; [done|]. intros [Hx Hl]%not_elem_of_cons.
  rewrite decide_False by congruence. by rewrite IH.
Qed.

Lemma put_keys l m :
  (slot_key <$> put l m)
  = if decide (slot_key m ∈ slot_key <$> l) then slot_key <$> l else (slot_key <$> l) ++ [slot_key m].
Proof.
  unfold put. case_decide; [|by rewrite fmap_app]. rewrite <- list_fmap_compose.
  apply list_fmap_ext. intros _ x _. cbn. by case_decide.
Qed.

Lemma put_elem l m x :
  x ∈ put l m ↔ x = m ∨ (x ∈ l ∧ slot_key x ≠ slot_key m).
Proof.
  unfold put. case_decide as Hin.
  - rewrite list_elem_of_fmap. split.
    + intros (y & -> & Hy). case_decide; [by left|by right].
    + intros [->|[Hx Hne]].
      * apply list_elem_of_fmap in Hin as (y & E & Hy). exists y. by rewrite decide_True.
      * exists x. by rewrite decide_False.
  - rewrite elem_of_app, list_elem_of_singleton. split; [|naive_solver]. intros [Hx|]; [|by left].
    right. split; [done|]. intros E. apply Hin. rewrite <- E. by apply list_elem_of_fmap_2.
Qed.

Lemma lined_put q q' l m :
  lined q l →
  lq_pending q' = <[slot_key m := m]> (lq_pending q) →
  lq_order q' = (if decide (is_Some (lq_pending q !! slot_key m)) then lq_order q
                 else lq_order q ++ [slot_key m]) →
  lined q' (put l m).
Proof.
  intros L Ep Eo. assert (lq_order q' = slot_key <$> put l m) as E.
  { rewrite Eo, put_keys, <- (ln_order _ _ L). pose proof (lined_present q l (slot_key m) L) as P.
    rewrite <- (ln_order _ _ L) in P. repeat case_decide; tauto. }
  split; [done| |].
  - rewrite put_keys. destruct (decide (slot_key m ∈ slot_key <$> l)) as [Hin|Hin]; [apply L|]. apply NoDup_app.
    split_and!; [apply L| |apply NoDup_singleton]. by intros x Hx ->%list_elem_of_singleton.
  - intros k x. rewrite put_elem, Ep. destruct (decide (k = slot_key m)) as [->|Hne].
    + rewrite lookup_insert_eq. split; [intros [= <-]; by auto|].
      intros [[->|[_ Hn]] E']; done.
    + rewrite lookup_insert_ne, (ln_pending _ _ L) by done. naive_solver.
Qed.

Lemma lined_size q l : lined q l → size (lq_pending q) = length l.
Proof.
  intros L. rewrite <- length_map_to_list.
  assert (map_to_list (lq_pending q) ≡ₚ (λ m, (slot_key m, m)) <$> l) as E.
  { apply NoDup_Permutation; [apply NoDup_map_to_list| |].
    - apply (NoDup_fmap_1 fst). rewrite <- list_fmap_compose. apply L.
    - intros [k m]. rewrite elem_of_map_to_list, (ln_pending _ _ L), list_elem_of_fmap. naive_solver. }
  apply Permutation_length in E. by rewrite length_fmap in E.
Qed.

Lemma lined_remove q q' l m :
  lined q l → m ∈ l →
  lq_pending q' = delete (slot_key m) (lq_pending q) →
  lq_order q' = filter (λ k, k ≠ slot_key m) (lq_order q) →
  lined q' (filter (λ x, slot_key x ≠ slot_key m) l).
Proof.
  intros L Hm Ep Eo.
  assert ((slot_key <$> filter (λ x, slot_key x ≠ slot_key m) l)
          = filter (λ k, k ≠ slot_key m) (slot_key <$> l)) as E
    by exact (fmap_filter slot_key (λ k, k ≠ slot_key m) l).
  split; [by rewrite Eo, E, (ln_order _ _ L)| |].
  - rewrite E. apply NoDup_filter, L.
  - intros k x. rewrite Ep, list_elem_of_filter. destruct (decide (k = slot_key m)) as [->|].
    + rewrite lookup_delete_eq. naive_solver.
    + rewrite lookup_delete_ne, (ln_pending _ _ L) by done. naive_solver.
Qed.

(** ** Accounting *)

Definition keys_of (l : list PendingRealtime) (s : Z) : Z := len (filter (λ m, rt_session m = s) l).
Definition bytes_of (l : list PendingRealtime) (s : Z) : Z :=
  sumZ rt_reserved_bytes (filter (λ m, rt_session m = s) l).

(** The line respects the limits. *)
Definition within (q : LatestQueue) (l : list PendingRealtime) : Prop :=
  sumZ rt_reserved_bytes l ≤ lq_max_total_bytes q ∧ len l ≤ lq_max_pending_keys q ∧
  ∀ s, bytes_of l s ≤ lq_max_session_bytes q ∧ keys_of l s ≤ lq_max_keys_per_session q.

Record rt_acc (q : LatestQueue) (l : list PendingRealtime) : Prop := mkRtAcc {
  ri_count : rt_queued_messages (lq_counters q) = len l;
  ri_bytes : rt_queued_bytes (lq_counters q) = sumZ rt_reserved_bytes l;
  ri_usage : ∀ s, lq_session_usage q !! s =
    if decide (keys_of l s = 0) then None else Some (keys_of l s, bytes_of l s);
  ri_within : within q l;
  ri_width : lq_max_total_bytes q ≤ usize_max ∧ lq_max_session_bytes q ≤ usize_max
}.

Record rt_inv (q : LatestQueue) (l : list PendingRealtime) : Prop := mkRtInv {
  ri_lined : lined q l;
  ri_acc :> rt_acc q l
}.

Definition rt_limits (q : LatestQueue) : Z * Z * Z * Z :=
  (lq_max_total_bytes q, lq_max_session_bytes q, lq_max_keys_per_session q, lq_max_pending_keys q).

Lemma rt_reserved_pos m : 0 < rt_reserved_bytes m.
Proof. unfold rt_reserved_bytes, WORST_ENVELOPE_OVERHEAD. pose proof (len_nonneg (rt_payload m)). lia. Qed.

Lemma rt_sum_nonneg l : 0 ≤ sumZ rt_reserved_bytes l.
Proof. apply sumZ_nonneg. intros m. pose proof (rt_reserved_pos m). lia. Qed.

Lemma len_perm {A} (l k : list A) : l ≡ₚ k → len l = len k.
Proof. intros E. unfold len. by rewrite E. Qed.

Lemma keys_of_cons m l s :
  keys_of (m :: l) s = (if decide (rt_session m = s) then 1 else 0) + keys_of l s.
Proof. unfold keys_of. rewrite filter_cons. case_decide; [apply len_cons|done]. Qed.
Lemma bytes_of_cons m l s :
  bytes_of (m :: l) s = (if decide (rt_session m = s) then rt_reserved_bytes m else 0) + bytes_of l s.
Proof. unfold bytes_of. rewrite filter_cons. case_decide; [apply sumZ_cons|done]. Qed.

#[export] Instance keys_of_proper : Proper ((≡ₚ) ==> (=) ==> (=)) keys_of.
Proof. intros l k E s ? <-. unfold keys_of. apply len_perm. by rewrite E. Qed.
#[export] Instance bytes_of_proper : Proper ((≡ₚ) ==> (=) ==> (=)) bytes_of.
Proof. intros l k E s ? <-. unfold bytes_of. by rewrite E. Qed.

Lemma keys_of_nonneg l s : 0 ≤ keys_of l s.
Proof. apply len_nonneg. Qed.
Lemma bytes_of_nonneg l s : 0 ≤ bytes_of l s.
Proof. apply rt_sum_nonneg. Qed.

(** A session with no key has no bytes. *)
Lemma keys_bytes l s : keys_of l s = 0 → bytes_of l s = 0.
Proof. unfold keys_of, bytes_of. intros E%len_0. by rewrite E. Qed.

Lemma usage_default q l s :
  rt_inv q l → default (0, 0) (lq_session_usage q !! s) = (keys_of l s, bytes_of l s).
Proof.
  intros I. rewrite (ri_usage _ _ I). case_decide as E; [|done]. cbn. by rewrite E, keys_bytes.
Qed.

(** The pending value of a key, if any, and the other values. *)
Lemma put_split q l m :
  lined q l →
  ∃ rest, l ≡ₚ option_list (lq_pending q !! slot_key m) ++ rest ∧ put l m ≡ₚ m :: rest ∧
    Forall (λ o, rt_session o = rt_session m) (option_list (lq_pending q !! slot_key m)).
Proof.
  intros L. destruct (lq_pending q !! slot_key m) as [old|] eqn:Hp; cbn.
  - destruct (lined_split q l _ _ L Hp) as (l1 & l2 & -> & Hk & _ & Hput). exists (l1 ++ l2).
    rewrite Hput by done. split_and!; [solve_Permutation|solve_Permutation|].
    constructor; [|done]. injection Hk. done.
  - exists l. split_and!; [done| |done]. unfold put.
    rewrite decide_False by (by apply (lined_absent q l _ L)). solve_Permutation.
Qed.

#[export] Instance within_proper : Proper ((=) ==> (≡ₚ) ==> iff) within.
Proof.
  intros q ? <- l k E. unfold within. rewrite (sumZ_Permutation _ _ _ E), (len_perm _ _ E).
  split; intros (H1 & H2 & H3); (split_and!; [done|done|]); intros s.
  - rewrite <- !E. apply H3.
  - rewrite !E. apply H3.
Qed.

Lemma within_cons q m l :
  within q (m :: l) ↔
  within q l ∧
  sumZ rt_reserved_bytes l + rt_reserved_bytes m ≤ lq_max_total_bytes q ∧
  len l + 1 ≤ lq_max_pending_keys q ∧
  bytes_of l (rt_session m) + rt_reserved_bytes m ≤ lq_max_session_bytes q ∧
  keys_of l (rt_session m) + 1 ≤ lq_max_keys_per_session q.
Proof.
  unfold within. rewrite sumZ_cons, len_cons. pose proof (rt_reserved_pos m). split.
  - intros (H1 & H2 & H3). pose proof (H3 (rt_session m)) as H4.
    rewrite bytes_of_cons, keys_of_cons, !decide_True in H4 by done. split_and!; try lia.
    intros s. specialize (H3 s). rewrite bytes_of_cons, keys_of_cons in H3. case_decide; lia.
  - intros ((H1 & H2 & H3) & H4 & H5 & H6 & H7). split_and!; [lia|lia|]. intros s.
    specialize (H3 s). rewrite bytes_of_cons, keys_of_cons. case_decide; subst; lia.
Qed.

(** [enqueue] rejects exactly when the resulting line would exceed a limit. *)
Lemma rejected_iff q l m :
  rt_inv q l →
  let old := from_option rt_reserved_bytes 0 (lq_pending q !! slot_key m) in
  let total := checked_add usize_max (saturating_sub (rt_queued_bytes (lq_counters q)) old)
                 (rt_reserved_bytes m) in
  let used := checked_add usize_max (saturating_sub (bytes_of l (rt_session m)) old)
                (rt_reserved_bytes m) in
  (rejected q total used old (keys_of l (rt_session m)) = false ↔ within q (put l m)) ∧
  (within q (put l m) →
   total = Some (sumZ rt_reserved_bytes (put l m)) ∧ used = Some (bytes_of (put l m) (rt_session m))).
Proof.
  intros I old total used. destruct (put_split q l m (ri_lined _ _ I)) as (rest & E & E' & Hold).
  pose proof (lined_size q l (ri_lined _ _ I)) as Hsize.
  pose proof (ri_within _ _ I) as Wl. destruct (ri_width _ _ I) as [V1 V2].
  set (s := rt_session m) in *.
  assert (old + sumZ rt_reserved_bytes rest = sumZ rt_reserved_bytes l ∧
    old + bytes_of rest s = bytes_of l s ∧
    ((old = 0 ∧ keys_of l s = keys_of rest s ∧ len l = len rest) ∨
     (old ≠ 0 ∧ keys_of l s = keys_of rest s + 1 ∧ len l = len rest + 1)) ∧ 0 ≤ old ∧ within q rest)
    as (H1 & H2 & H3 & H4 & Wr).
  { apply (within_proper q q eq_refl _ _ E) in Wl. unfold old.
    rewrite (sumZ_Permutation _ _ _ E), (bytes_of_proper _ _ E s s eq_refl),
      (keys_of_proper _ _ E s s eq_refl), (len_perm _ _ E).
    destruct (lq_pending q !! slot_key m) as [o|];
      cbn [option_list option_rect from_option app] in *.
    - apply Forall_cons in Hold as [Ho _]. rewrite sumZ_cons, bytes_of_cons, keys_of_cons, len_cons.
      rewrite !decide_True by done. pose proof (rt_reserved_pos o). apply within_cons in Wl as [Wl _].
      split_and!; [lia|lia|lia|lia|exact Wl].
    - split_and!; [lia|lia|lia|lia|exact Wl]. }
  rewrite (within_proper q q eq_refl _ _ E'), (sumZ_Permutation _ _ _ E'),
    (bytes_of_proper _ _ E' s s eq_refl), sumZ_cons, bytes_of_cons, within_cons, decide_True by done.
  fold s.
  pose proof (rt_reserved_pos m). pose proof (rt_sum_nonneg rest). pose proof (bytes_of_nonneg rest s).
  destruct Wl as (_ & W2 & W3). specialize (W3 s).
  assert (total = checked_add usize_max (sumZ rt_reserved_bytes rest) (rt_reserved_bytes m)) as Et.
  { unfold total. rewrite (ri_bytes _ _ I). f_equal. zlia. }
  assert (used = checked_add usize_max (bytes_of rest s) (rt_reserved_bytes m)) as Eu.
  { unfold used. f_equal. zlia. }
  rewrite Et, Eu. clearbody old total used. unfold rejected. rewrite Hsize.
  change (Z.of_nat (length l)) with (len l).
  assert (∀ a b mx, mx ≤ usize_max →
    is_none_or (checked_add usize_max a b) (λ bytes, bool_decide (mx < bytes)) = false ↔ a + b ≤ mx)
    as Hfit.
  { intros a b mx Hmx. unfold is_none_or, checked_add. case_decide; [|split; [done|lia]].
    rewrite bool_decide_eq_false. lia. }
  split.
  - rewrite !orb_false_iff, !bool_decide_eq_false, !Hfit by done.
    split; [intros Hc; split; [exact Wr|lia]|intros [_ Hc]; lia].
  - intros (_ & F1 & F2 & F3 & F4). unfold checked_add. rewrite !decide_True by lia.
    split; f_equal; lia.
Qed.

Lemma put_counts q l m :
  lined q l →
  let fresh := if decide (is_Some (lq_pending q !! slot_key m)) then 0 else 1 in
  len (put l m) = len l + fresh ∧
  keys_of (put l m) (rt_session m) = keys_of l (rt_session m) + fresh ∧
  ∀ s, s ≠ rt_session m → keys_of (put l m) s = keys_of l s ∧ bytes_of (put l m) s = bytes_of l s.
Proof.
  intros L. destruct (put_split q l m L) as (rest & E & E' & Hold). cbn zeta.
  rewrite (len_perm _ _ E), (len_perm _ _ E'), len_app, len_cons.
  rewrite (keys_of_proper _ _ E _ _ eq_refl), (keys_of_proper _ _ E' _ _ eq_refl).
  split_and!.
  - destruct (lq_pending q !! slot_key m); cbn [option_list option_rect].
    + rewrite decide_True by eauto. rewrite len_cons, len_nil. lia.
    + rewrite decide_False by (by intros []). rewrite len_nil. lia.
  - rewrite keys_of_cons, decide_True by done.
    destruct (lq_pending q !! slot_key m); cbn [option_list option_rect app] in *.
    + apply Forall_cons in Hold as [Ho _]. rewrite keys_of_cons, !decide_True by eauto. lia.
    + rewrite decide_False by (by intros []). lia.
  - intros s Hs. rewrite (keys_of_proper _ _ E s s eq_refl), (keys_of_proper _ _ E' s s eq_refl),
      (bytes_of_proper _ _ E s s eq_refl), (bytes_of_proper _ _ E' s s eq_refl).
    rewrite keys_of_cons, bytes_of_cons, !decide_False by done.
    destruct (lq_pending q !! slot_key m); cbn [option_list option_rect app] in *; [|done].
    apply Forall_cons in Hold as [Ho _]. rewrite keys_of_cons, bytes_of_cons, !decide_False by congruence.
    done.
Qed.

Lemma put_inv q q' l m :
  rt_inv q l → within q (put l m) → rt_limits q' = rt_limits q →
  let fresh := if decide (is_Some (lq_pending q !! slot_key m)) then 0 else 1 in
  lq_pending q' = <[slot_key m := m]> (lq_pending q) →
  lq_order q' = (if decide (is_Some (lq_pending q !! slot_key m)) then lq_order q
                 else lq_order q ++ [slot_key m]) →
  rt_queued_messages (lq_counters q') = rt_queued_messages (lq_counters q) + fresh →
  rt_queued_bytes (lq_counters q') = sumZ rt_reserved_bytes (put l m) →
  lq_session_usage q' = <[rt_session m := (keys_of l (rt_session m) + fresh,
                                           bytes_of (put l m) (rt_session m))]> (lq_session_usage q) →
  rt_inv q' (put l m).
Proof.
  intros I Hw Hl fresh Ep Eo Ec Eb Eu. injection Hl as L1 L2 L3 L4.
  destruct (put_counts q l m (ri_lined _ _ I)) as (C1 & C2 & C3). fold fresh in C1, C2.
  split; [by eapply lined_put; [apply I|..]|]. split.
  - rewrite Ec, C1, (ri_count _ _ I). done.
  - done.
  - intros s. rewrite Eu. destruct (decide (s = rt_session m)) as [->|Hs].
    + rewrite lookup_insert_eq, <- C2. rewrite decide_False; [done|].
      destruct (put_split q l m (ri_lined _ _ I)) as (rest & _ & E' & _).
      rewrite (keys_of_proper _ _ E' _ _ eq_refl), keys_of_cons, decide_True by done.
      pose proof (keys_of_nonneg rest (rt_session m)). lia.
    + rewrite lookup_insert_ne by done. destruct (C3 s Hs) as [-> ->]. apply I.
  - unfold within in *. by rewrite L1, L2, L3, L4.
  - rewrite L1, L2. apply I.
Qed.

Lemma latest_enqueue_spec q l m :
  rt_inv q l →
  ∃ r q', latest_enqueue q m = Done (r, q') ∧ rt_limits q' = rt_limits q ∧
    ((within q (put l m) ∧
      r = Ok (if decide (is_Some (lq_pending q !! slot_key m)) then Replaced else Queued) ∧
      rt_inv q' (put l m)) ∨
     (¬ within q (put l m) ∧
      r = fail ErrorCode.WouldBlock "realtime queue budget is full" ∧ rt_inv q' l)).
Proof.
  intros I. destruct (rejected_iff q l m I) as [Hrej Htot]. unfold latest_enqueue.
  rewrite (usage_default q l _ I). destruct (rejected _ _ _ _ _) eqn:Hr.
  - eexists _, _. split; [done|]. split; [done|]. right.
    split; [by intros Hw; apply Hrej in Hw|]. split; [done|]. by destruct I as [[] []].
  - pose proof (proj1 Hrej eq_refl) as Hw. destruct (Htot Hw) as [-> ->].
    destruct (decide (is_Some (lq_pending q !! slot_key m))) as [Hp|Hp].
    + rewrite (bool_decide_eq_true_2 _ Hp). cbn [mbind outcome_bind expect].
      eexists _, _. split; [done|]. split; [done|]. left. split; [done|]. split; [done|].
      eapply (put_inv q); try done;
        rewrite (decide_True (P := is_Some (lq_pending q !! slot_key m))) by done; [done|cbn; lia|done].
    + rewrite (bool_decide_eq_false_2 _ Hp). cbn [mbind outcome_bind expect].
      eexists _, _. split; [done|]. split; [done|]. left. split; [done|]. split; [done|].
      eapply (put_inv q); try done;
        rewrite (decide_False (P := is_Some (lq_pending q !! slot_key m))) by done; done.
Qed.

Lemma release_spec q l m :
  rt_acc q (m :: l) →
  ∃ q', latest_release q m = Done q' ∧ rt_acc q' l ∧ rt_limits q' = rt_limits q ∧
    lq_order q' = lq_order q ∧ lq_pending q' = lq_pending q.
Proof.
  intros A. pose proof (rt_reserved_pos m). pose proof (len_nonneg l). pose proof (rt_sum_nonneg l).
  set (s := rt_session m). pose proof (keys_of_nonneg l s). pose proof (bytes_of_nonneg l s).
  pose proof (ri_count _ _ A) as Hc. rewrite len_cons in Hc.
  pose proof (ri_bytes _ _ A) as Hb. rewrite sumZ_cons in Hb.
  pose proof (ri_usage _ _ A s) as Hu.
  rewrite keys_of_cons, bytes_of_cons, !(decide_True (P := rt_session m = s)) in Hu by done.
  rewrite decide_False in Hu by lia.
  pose proof (ri_within _ _ A) as [Wl _]%within_cons.
  assert (∀ a b, b ≤ a → checked_sub a b = Some (a - b)) as Hsub by (intros; by apply checked_sub_Some).
  unfold latest_release. rewrite !Hsub by lia. cbn [mbind outcome_bind expect]. set (q1 := q <| lq_counters ::= _ |>).
  change (lq_session_usage q1) with (lq_session_usage q). fold s. rewrite Hu.
  rewrite !Hsub by lia. cbn [mbind outcome_bind expect].
  cbn [mbind outcome_bind expect]. eexists. split; [done|]. split; [|done]. split; [cbn; lia|cbn; lia| |exact Wl|apply A].
  intros x. cbn. replace (1 + keys_of l s - 1) with (keys_of l s) by lia.
  replace (rt_reserved_bytes m + bytes_of l s - rt_reserved_bytes m) with (bytes_of l s) by lia.
  destruct (decide (x = s)) as [->|Hx].
  - destruct (decide (keys_of l s = 0)); [by rewrite lookup_delete_eq|by rewrite lookup_insert_eq].
  - pose proof (ri_usage _ _ A x) as Hx'.
    rewrite keys_of_cons, bytes_of_cons, !(decide_False (P := rt_session m = x)), !Z.add_0_l in Hx' by done.
    rewrite <- Hx'. destruct (decide (keys_of l s = 0)); [by rewrite lookup_delete_ne|by rewrite lookup_insert_ne].
Qed.

Lemma rt_acc_perm q l k : l ≡ₚ k → rt_acc q l → rt_acc q k.
Proof.
  intros E [A B C D F]. split; [by rewrite A, (len_perm _ _ E)|by rewrite B, (sumZ_Permutation _ _ _ E)| | |done].
  - intros s. rewrite C. by rewrite (keys_of_proper _ _ E s s eq_refl), (bytes_of_proper _ _ E s s eq_refl).
  - by apply (within_proper q q eq_refl _ _ E).
Qed.

(** Only the gauges, the usage table and the limits matter to the accounting. *)
Lemma rt_acc_ext q q' l :
  rt_queued_messages (lq_counters q') = rt_queued_messages (lq_counters q) →
  rt_queued_bytes (lq_counters q') = rt_queued_bytes (lq_counters q) →
  lq_session_usage q' = lq_session_usage q → rt_limits q' = rt_limits q →
  rt_acc q l → rt_acc q' l.
Proof.
  intros E1 E2 E3 L [A B C D F]. injection L as L1 L2 L3 L4. unfold within in D.
  split; unfold within; rewrite ?E1, ?E2, ?E3, ?L1, ?L2, ?L3, ?L4; done.
Qed.

Lemma rt_inv_counters q q' l :
  lq_order q' = lq_order q → lq_pending q' = lq_pending q →
  rt_queued_messages (lq_counters q') = rt_queued_messages (lq_counters q) →
  rt_queued_bytes (lq_counters q') = rt_queued_bytes (lq_counters q) →
  lq_session_usage q' = lq_session_usage q → rt_limits q' = rt_limits q →
  rt_inv q l → rt_inv q' l.
Proof.
  intros E1 E2 E3 E4 E5 E6 [[L1 L2 L3] A]. split; [|by eapply rt_acc_ext; [..|exact A]].
  split; rewrite ?E1, ?E2; done.
Qed.

Lemma pop_spec q m l :
  rt_inv q (m :: l) →
  ∃ q', latest_pop_next q = Done (Some m, q') ∧ rt_inv q' l ∧ rt_limits q' = rt_limits q.
Proof.
  intros I. pose proof (ri_lined _ _ I) as L. unfold latest_pop_next.
  rewrite (ln_order _ _ L). cbn [fmap list_fmap latest_pop].
  assert (lq_pending q !! slot_key m = Some m) as Hm
    by (apply (ln_pending _ _ L); split; [by left|done]).
  rewrite Hm. set (q1 := q <| lq_order := _ |> <| lq_pending ::= _ |>).
  pose proof (ln_nodup _ _ L) as N. rewrite fmap_cons in N. apply NoDup_cons in N as [N1 N2].
  destruct (release_spec q1 l m) as (q' & -> & A & Hl & Ho & Hp).
  { eapply rt_acc_ext; [..|apply I]; done. }
  exists q'. split; [done|]. split; [|by rewrite Hl]. split; [|done].
  split; [by rewrite Ho|done|]. intros k x. rewrite Hp. cbn.
  destruct (decide (k = slot_key m)) as [->|Hne].
  - rewrite lookup_delete_eq. split; [done|]. intros [Hx E]. destruct N1. rewrite <- E.
    by apply list_elem_of_fmap_2.
  - rewrite lookup_delete_ne, (ln_pending _ _ L), elem_of_cons by done. naive_solver.
Qed.

Lemma pop_empty q : rt_inv q [] → latest_pop_next q = Done (None, q).
Proof.
  intros I. unfold latest_pop_next. rewrite (ln_order _ _ (ri_lined _ _ I)). cbn.
  pose proof (ln_order _ _ (ri_lined _ _ I)) as E. destruct q. cbn in *. by subst.
Qed.

Lemma put_absent l m : slot_key m ∉ slot_key <$> l → put l m = l ++ [m].
Proof. intros H. unfold put. by rewrite decide_False. Qed.

Lemma latest_requeue_spec q l m :
  rt_inv q l →
  ∃ q' l', latest_requeue q m = Done q' ∧ rt_inv q' l' ∧ rt_limits q' = rt_limits q ∧
    (l' = l ∨ (l' = l ++ [m] ∧ slot_key m ∉ slot_key <$> l)).
Proof.
  intros I. pose proof (lined_present q l (slot_key m) (ri_lined _ _ I)) as P. unfold latest_requeue.
  case_decide as Hp.
  - eexists _, l. split; [done|]. split; [|split; [done|by left]].
    by eapply rt_inv_counters; [..|exact I].
  - destruct (latest_enqueue_spec q l m I) as (r & q' & -> & Hl & H). cbn [mbind outcome_bind].
    assert (slot_key m ∉ slot_key <$> l) as Hn by tauto.
    destruct H as [(_ & -> & I')|(_ & -> & I')]; cbn [is_ok fail].
    + exists q', (l ++ [m]). rewrite put_absent in I' by done. split_and!; try done. by right.
    + eexists _, l. split; [done|]. split; [|split; [done|by left]].
      by eapply rt_inv_counters; [..|exact I'].
Qed.

(** Pending values without their order, as during [forget_session]. *)
Definition held (q : LatestQueue) (l : list PendingRealtime) : Prop :=
  NoDup (slot_key <$> l) ∧ ∀ k m, lq_pending q !! k = Some m ↔ m ∈ l ∧ slot_key m = k.

Lemma filter_key_perm l m :
  NoDup (slot_key <$> l) → m ∈ l → l ≡ₚ m :: filter (λ x, slot_key x ≠ slot_key m) l.
Proof.
  intros N (l1 & l2 & ->)%list_elem_of_split. rewrite fmap_app, fmap_cons in N.
  apply NoDup_app in N as (_ & N1 & [N2 _]%NoDup_cons).
  rewrite filter_app, filter_cons_False by tauto.
  rewrite !filter_all; [solve_Permutation| |].
  - apply Forall_forall. intros x Hx E. apply N2. rewrite <- E. by apply list_elem_of_fmap_2.
  - apply Forall_forall. intros x Hx E. apply (N1 (slot_key x)); [by apply list_elem_of_fmap_2|].
    rewrite E. by left.
Qed.

Lemma held_delete q l m :
  held q l → m ∈ l →
  held (q <| lq_pending ::= delete (slot_key m) |>) (filter (λ x, slot_key x ≠ slot_key m) l).
Proof.
  intros [N P] Hm. split.
  - rewrite (fmap_filter slot_key (λ k, k ≠ slot_key m)). by apply NoDup_filter.
  - intros k x. cbn. rewrite list_elem_of_filter. destruct (decide (k = slot_key m)) as [->|].
    + rewrite lookup_delete_eq. naive_solver.
    + rewrite lookup_delete_ne, P by done. naive_solver.
Qed.

Lemma remove_spec ks q l :
  held q l → rt_acc q l →
  ∃ q', latest_remove ks q = Done q' ∧ held q' (filter (λ m, slot_key m ∉ ks) l) ∧
    rt_acc q' (filter (λ m, slot_key m ∉ ks) l) ∧ lq_order q' = lq_order q ∧ rt_limits q' = rt_limits q.
Proof.
  revert q l. induction ks as [|key ks IH]; intros q l Hh A; cbn [latest_remove].
  { exists q. rewrite filter_all by (apply Forall_forall; intros; apply not_elem_of_nil). done. }
  destruct (lq_pending q !! key) as [m|] eqn:Hk.
  - pose proof (proj1 (proj2 Hh key m) Hk) as [Hm <-].
    pose proof (held_delete q l m Hh Hm) as Hh1. set (q1 := q <| lq_pending ::= _ |>) in *.
    set (l1 := filter (λ x, slot_key x ≠ slot_key m) l) in *.
    destruct (release_spec q1 l1 m) as (q2 & -> & A2 & L2 & O2 & P2).
    { eapply rt_acc_ext; [..|eapply rt_acc_perm; [|exact A]]; try done.
      apply filter_key_perm; [apply Hh|done]. }
    cbn [mbind outcome_bind].
    destruct (IH q2 l1) as (q' & -> & Hh' & A' & O' & L'); [|done|].
    { destruct Hh1 as [N P]. split; [done|]. by rewrite P2. }
    exists q'. assert (filter (λ x, slot_key x ∉ slot_key m :: ks) l
      = filter (λ x, slot_key x ∉ ks) l1) as ->.
    { unfold l1. rewrite list_filter_filter. apply filter_iff_in. intros x _.
      rewrite not_elem_of_cons. tauto. }
    split_and!; try done; [by rewrite O', O2|by rewrite L', L2].
  - destruct (IH q l Hh A) as (q' & -> & Hh' & A' & O' & L').
    assert (filter (λ x, slot_key x ∉ key :: ks) l = filter (λ x, slot_key x ∉ ks) l) as ->; [|by exists q'].
    apply filter_iff_in. intros x Hx. rewrite not_elem_of_cons. split; [tauto|]. intros Hn. split; [|done].
    intros E. assert (lq_pending q !! key = Some x) by (by apply Hh). congruence.
Qed.

Lemma pending_keys q l :
  lined q l → (map_to_list (lq_pending q)).*1 ≡ₚ slot_key <$> l.
Proof.
  intros L. apply NoDup_Permutation; [apply NoDup_fst_map_to_list|apply L|].
  intros k. rewrite <- (lined_present q l k L), list_elem_of_fmap. split.
  - intros ([k' m] & -> & H%elem_of_map_to_list). cbn. eauto.
  - intros [m Hm]. exists (k, m). by rewrite elem_of_map_to_list.
Qed.

Lemma forget_spec q l s :
  rt_inv q l →
  ∃ q', latest_forget_session q s = Done (keys_of l s, q') ∧
    rt_inv q' (filter (λ m, rt_session m ≠ s) l) ∧ rt_limits q' = rt_limits q.
Proof.
  intros [L A]. unfold latest_forget_session.
  set (keys := filter (λ k, k.1 = s) (map_to_list (lq_pending q)).*1).
  pose proof (pending_keys q l L) as P.
  destruct (remove_spec keys q l) as (q1 & -> & Hh & A1 & O1 & L1); [by split; apply L|done|].
  cbn [mbind outcome_bind].
  assert (filter (λ m, slot_key m ∉ keys) l = filter (λ m, rt_session m ≠ s) l) as E.
  { apply filter_iff_in. intros x Hx. unfold keys. rewrite list_elem_of_filter, P.
    split; [|tauto]. intros H Hs. apply H. split; [done|]. by apply list_elem_of_fmap_2. }
  rewrite E in Hh, A1.
  assert (len keys = keys_of l s) as ->.
  { unfold keys, keys_of. rewrite (len_perm _ (filter (λ k, k.1 = s) (slot_key <$> l))) by (by rewrite P).
    rewrite <- (fmap_filter slot_key (λ k, k.1 = s)). unfold len. by rewrite length_fmap. }
  eexists. split; [done|]. split; [|by rewrite <- L1]. split.
  - split; [|apply Hh|apply Hh]. cbn.
    by rewrite O1, (ln_order _ _ L), <- (fmap_filter slot_key (λ k, k.1 ≠ s)).
  - by eapply rt_acc_ext; [..|exact A1].
Qed.

Lemma latest_complete_spec q l m r :
  rt_inv q l → ∃ k q' l', latest_complete q m r = Done (k, q') ∧ rt_inv q' l' ∧ 0 ≤ k ≤ 1.
Proof.
  intros I. destruct r as [[]|e]; cbn [latest_complete].
  - eexists 1, _, l. split_and!; [done| |lia..]. by eapply rt_inv_counters; [..|exact I].
  - case_decide.
    + destruct (latest_requeue_spec q l m I) as (q' & l' & -> & I' & _ & _). cbn [mbind outcome_bind].
      eexists 0, q', l'. split_and!; [done|done|lia..].
    + eexists 0, _, l. split_and!; [done| |lia..]. by eapply rt_inv_counters; [..|exact I].
Qed.

(** A flush ends without panicking and forwards at most the requested number. *)
Lemma flush_realtime_spec {W} (send : W → PendingRealtime → Result unit * W) capacity q w l :
  rt_inv q l → 0 ≤ capacity →
  ∃ k q' w' l', flush_realtime_inner send capacity q w = Done (k, q', w') ∧ rt_inv q' l' ∧ 0 ≤ k ≤ capacity.
Proof.
  intros I Hc. unfold flush_realtime_inner. set (attempts := Z.to_nat _).
  assert (Hle : Z.of_nat attempts ≤ capacity) by lia.
  enough (∃ k q' w' l', flush_realtime_loop send attempts q w = Done (k, q', w') ∧ rt_inv q' l' ∧
    0 ≤ k ≤ Z.of_nat attempts) as (k & q' & w' & l' & ? & ? & ?) by (exists k, q', w', l'; split_and!; done || lia).
  clear Hle. generalize attempts. clear attempts. intros attempts.
  revert q w l I. induction attempts as [|n IH]; intros q w l I; cbn [flush_realtime_loop].
  { exists 0, q, w, l. split_and!; done || lia. }
  destruct l as [|m l].
  { rewrite pop_empty by done. cbn [mbind outcome_bind]. exists 0, q, w, []. split_and!; done || lia. }
  destruct (pop_spec q m l I) as (q1 & -> & I1 & _). cbn [mbind outcome_bind].
  destruct (send w m) as [r w1].
  destruct (latest_complete_spec q1 l m r I1) as (k & q2 & l2 & -> & I2 & Hk). cbn [mbind outcome_bind].
  destruct (IH q2 w1 l2 I2) as (k' & q' & w' & l' & -> & I' & Hk'). cbn [mbind outcome_bind].
  exists (k + k'), q', w', l'. split_and!; done || lia.
Qed.

Lemma flush_realtime_state {W} (send : W → PendingRealtime → Result unit * W) (P : W → Prop) attempts :
  ∀ q w k q' w',
  (∀ w m, P w → P (send w m).2) → P w →
  flush_realtime_loop send attempts q w = Done (k, q', w') → P w'.
Proof.
  induction attempts as [|n IH]; intros q w k q' w' Hs Hw; cbn [flush_realtime_loop]; [by intros [= _ _ <-]|].
  destruct (latest_pop_next q) as [[[m|] q1]|]; cbn [mbind outcome_bind]; try done; [|by intros [= _ _ <-]].
  pose proof (Hs w m Hw) as Hw1. destruct (send w m) as [r w1]. cbn [snd] in Hw1.
  destruct (latest_complete q1 m r) as [[k1 q2]|]; cbn [mbind outcome_bind]; [|done].
  destruct (flush_realtime_loop send n q2 w1) as [[[k2 q3] w3]|] eqn:E; cbn [mbind outcome_bind]; [|done].
  intros [= _ _ <-]. by eapply IH.
Qed.

Lemma latest_clear_spec q l : rt_inv q l → rt_inv (latest_clear q) [] ∧ rt_limits (latest_clear q) = rt_limits q.
Proof.
  intros [L A]. split; [|done]. split; [split; cbn; [done|constructor|]|].
  - intros k m. rewrite lookup_empty. split; [done|]. intros [H _]. by apply elem_of_nil in H.
  - destruct A as [_ _ _ (W1 & W2 & W3) V]. pose proof (rt_sum_nonneg l). pose proof (len_nonneg l).
    split; cbn; try done. split_and!; cbn; try (rewrite ?sumZ_nil, ?len_nil; lia).
    intros s. specialize (W3 s). pose proof (bytes_of_nonneg l s). pose proof (keys_of_nonneg l s).
    change (bytes_of [] s) with 0. change (keys_of [] s) with 0. lia.
Qed.

(** ** Histories

    Every critical section on the queue's mutex; the poll lock keeps at most one value
    in flight, and a session with a value in flight is not forgotten. *)

Inductive snapshot_action :=
| REnqueue (m : PendingRealtime)
| RPop
| RComplete (r : Result unit)
| RForget (s : Handle)
| RClear.

Record Snapshots := mkSnapshots {
  sn_queue : LatestQueue;
  sn_inflight : option PendingRealtime;
  sn_accepted : list PendingRealtime;
  sn_forwarded : list PendingRealtime
}.

Definition snapshot_act (st : Snapshots) (a : snapshot_action) : outcome Snapshots :=
  let '(mkSnapshots q o acc fwd) := st in
  match a with
  | REnqueue m =>
    '(r, q) ← latest_enqueue q m;
    Done (mkSnapshots q o (if is_ok r then acc ++ [m] else acc) fwd)
  | RPop =>
    match o with
    | Some _ => Done st
    | None => '(o, q) ← latest_pop_next q; Done (mkSnapshots q o acc fwd)
    end
  | RComplete r =>
    match o with
    | None => Done st
    | Some m =>
      '(_, q) ← latest_complete q m r;
      Done (mkSnapshots q None acc (if is_ok r then fwd ++ [m] else fwd))
    end
  | RForget s =>
    if decide (Forall (λ m, rt_session m ≠ s) (option_list o)) then
      '(_, q) ← latest_forget_session q s; Done (mkSnapshots q o acc fwd)
    else Done st
  | RClear =>
    match o with
    | Some _ => Done st
    | None => Done (mkSnapshots (latest_clear q) None acc fwd)
    end
  end.

Fixpoint snapshot_run (st : Snapshots) (l : list snapshot_action) : outcome Snapshots :=
  match l with
  | [] => Done st
  | a :: l => st ← snapshot_act st a; snapshot_run st l
  end.

(** The values of one key. *)
Definition with_key (k : Z * Z) (l : list PendingRealtime) : list PendingRealtime :=
  filter (λ m, slot_key m = k) l.

Lemma with_key_app k l1 l2 : with_key k (l1 ++ l2) = with_key k l1 ++ with_key k l2.
Proof. apply filter_app. Qed.

Lemma with_key_cons k m l :
  with_key k (m :: l) = (if decide (slot_key m = k) then [m] else []) ++ with_key k l.
Proof. unfold with_key. rewrite filter_cons. by case_decide. Qed.

Lemma with_key_absent k l : k ∉ slot_key <$> l → with_key k l = [].
Proof.
  intros H. apply filter_none, Forall_forall. intros x Hx E. apply H. rewrite <- E.
  by apply list_elem_of_fmap_2.
Qed.

Lemma with_key_unique l m :
  NoDup (slot_key <$> l) → m ∈ l → with_key (slot_key m) l = [m].
Proof.
  intros N (l1 & l2 & ->)%list_elem_of_split. rewrite fmap_app, fmap_cons in N.
  apply NoDup_app in N as (_ & N1 & [N2 _]%NoDup_cons).
  rewrite with_key_app, with_key_cons, decide_True by done.
  rewrite !with_key_absent; [done|done|]. intros H. apply (N1 _ H). by left.
Qed.

Lemma with_key_put l m k :
  NoDup (slot_key <$> put l m) →
  with_key k (put l m) = if decide (k = slot_key m) then [m] else with_key k l.
Proof.
  intros N. destruct (decide (k = slot_key m)) as [->|Hne].
  - apply with_key_unique; [done|]. apply put_elem. by left.
  - unfold put. case_decide; [|by rewrite with_key_app, with_key_cons, decide_False, app_nil_r by done].
    assert (∀ l' : list PendingRealtime,
      with_key k ((λ x, if decide (slot_key x = slot_key m) then m else x) <$> l') = with_key k l') as H'.
    { induction l' as [|x l' IH]; [done|]. rewrite fmap_cons, !with_key_cons, IH. f_equal.
      repeat case_decide; congruence. }
    apply H'.
Qed.

(** For every key, what was forwarded, is in flight and is pending are accepted values in
    the order of acceptance, and the newest of the last two is the last accepted. *)
Definition fresh_order (o : option PendingRealtime) (l acc fwd : list PendingRealtime) : Prop :=
  ∀ k, let live := with_key k (option_list o) ++ with_key k l in
    with_key k fwd ++ live `sublist_of` with_key k acc ∧
    (live ≠ [] → last live = last (with_key k acc)).

Definition snap_inv (lim : Z * Z * Z * Z) (st : Snapshots) : Prop :=
  ∃ l, rt_inv (sn_queue st) l ∧ rt_limits (sn_queue st) = lim ∧
    fresh_order (sn_inflight st) l (sn_accepted st) (sn_forwarded st).

Lemma fresh_put o l acc fwd m :
  NoDup (slot_key <$> put l m) →
  fresh_order o l acc fwd → fresh_order o (put l m) (acc ++ [m]) fwd.
Proof.
  intros N F k. destruct (F k) as [F1 F2]. cbn zeta in *.
  rewrite with_key_put, with_key_app, with_key_cons, app_nil_r by done.
  destruct (decide (k = slot_key m)) as [->|Hne].
  - rewrite decide_True by done. split; [|intros _; by rewrite !last_snoc].
    rewrite app_assoc. apply sublist_app; [|done]. etrans; [|exact F1].
    rewrite app_assoc. by apply sublist_inserts_r.
  - rewrite decide_False, app_nil_r by congruence. done.
Qed.

(** Dropping the value in flight, or moving it to the forwarded ones. *)
Lemma fresh_done m l acc fwd (b : bool) :
  fresh_order (Some m) l acc fwd → fresh_order None l acc (if b then fwd ++ [m] else fwd).
Proof.
  intros F k. destruct (F k) as [F1 F2]. cbn [option_list option_rect] in *.
  change (with_key k []) with (@nil PendingRealtime) in *. cbn zeta in *. cbn [app] in *. split.
  - etrans; [|exact F1]. destruct b.
    + by rewrite with_key_app, <- app_assoc.
    + apply sublist_app; [done|]. by apply sublist_inserts_l.
  - intros Hl. rewrite <- F2 by (intros E; apply Hl; by apply app_eq_nil in E as [_ ->]).
    destruct (with_key k l) as [|x l'] eqn:E using rev_ind; [done|]. by rewrite app_assoc, !last_snoc.
Qed.

Lemma fresh_requeue m l acc fwd :
  slot_key m ∉ slot_key <$> l →
  fresh_order (Some m) l acc fwd → fresh_order None (l ++ [m]) acc fwd.
Proof.
  intros Hm F k. destruct (F k) as [F1 F2]. cbn [option_list option_rect] in *. cbn zeta in *.
  change (with_key k []) with (@nil PendingRealtime) in *. cbn [app] in *.
  assert (with_key k (l ++ [m]) = with_key k [m] ++ with_key k l) as ->; [|done].
  rewrite with_key_app. rewrite !with_key_cons. change (with_key k []) with (@nil PendingRealtime).
  rewrite app_nil_r. destruct (decide (slot_key m = k)) as [<-|]; [|by rewrite app_nil_r].
  by rewrite with_key_absent.
Qed.

Lemma fresh_filter o l acc fwd s :
  Forall (λ m, rt_session m ≠ s) (option_list o) →
  fresh_order o l acc fwd → fresh_order o (filter (λ m, rt_session m ≠ s) l) acc fwd.
Proof.
  intros Ho F k. destruct (F k) as [F1 F2]. cbn zeta in *.
  destruct (decide (k.1 = s)) as [Hk|Hk].
  - assert (∀ l', Forall (λ m, rt_session m ≠ s) l' → with_key k l' = []) as Hnone.
    { intros l' Hl. apply filter_none. eapply Forall_impl; [exact Hl|]. cbn. intros x Hx <-. done. }
    rewrite (Hnone (option_list o)), (Hnone (filter _ l));
      [|apply Forall_forall; intros x [? _]%list_elem_of_filter; done|done].
    split; [|done]. rewrite app_nil_r. etrans; [|exact F1]. by apply sublist_inserts_r.
  - assert (with_key k (filter (λ m, rt_session m ≠ s) l) = with_key k l) as ->; [|done].
    unfold with_key. rewrite list_filter_filter. apply filter_iff_in. intros x _. split; [tauto|].
    intros <-. done.
Qed.

Lemma snapshot_act_inv lim st a :
  snap_inv lim st → ∃ st', snapshot_act st a = Done st' ∧ snap_inv lim st'.
Proof.
  intros (l & I & L & F). destruct st as [q o acc fwd]. cbn in I, L, F.
  destruct a as [m| |r|s|]; cbn [snapshot_act].
  - destruct (latest_enqueue_spec q l m I) as (r & q' & -> & Hl & H). cbn [mbind outcome_bind].
    destruct H as [(_ & -> & I')|(_ & -> & I')]; (eexists; split; [done|]).
    + exists (put l m). cbn. split_and!; [done|by rewrite Hl|]. apply fresh_put; [apply I'|done].
    + exists l. cbn. split_and!; [done|by rewrite Hl|done].
  - destruct o as [m|]; [by exists (mkSnapshots q (Some m) acc fwd); split; [|exists l]|].
    destruct l as [|m l].
    + rewrite pop_empty by done. eexists. split; [done|]. by exists [].
    + destruct (pop_spec q m l I) as (q' & -> & I' & Hl). eexists. split; [done|].
      exists l. cbn. split_and!; [done|by rewrite Hl|]. intros k. destruct (F k) as [F1 F2].
      cbn [option_list option_rect] in *. rewrite !with_key_cons in *.
      change (with_key k []) with (@nil PendingRealtime) in *. rewrite ?app_nil_r. done.
  - destruct o as [m|]; [|by exists (mkSnapshots q None acc fwd); split; [|exists l]].
    destruct r as [[]|e]; cbn [latest_complete mbind outcome_bind is_ok].
    + eexists. split; [done|]. exists l. split_and!; [|done|by apply (fresh_done m l acc fwd true)].
      by eapply rt_inv_counters; [..|exact I].
    + case_decide.
      * destruct (latest_requeue_spec q l m I) as (q' & l' & -> & I' & Hl & Hl'). cbn [mbind outcome_bind].
        eexists. split; [done|]. exists l'. cbn. split_and!; [done|by rewrite Hl|].
        destruct Hl' as [->|[-> Hm]]; [by apply (fresh_done m l acc fwd false)|by apply fresh_requeue].
      * eexists. split; [done|]. exists l. split_and!; [|done|by apply (fresh_done m l acc fwd false)].
        by eapply rt_inv_counters; [..|exact I].
  - case_decide as Ho; [|by exists (mkSnapshots q o acc fwd); split; [|exists l]].
    destruct (forget_spec q l s I) as (q' & -> & I' & Hl). eexists. split; [done|].
    exists (filter (λ m, rt_session m ≠ s) l). cbn. split_and!; [done|by rewrite Hl|by apply fresh_filter].
  - destruct o as [m|]; [by exists (mkSnapshots q (Some m) acc fwd); split; [|exists l]|].
    destruct (latest_clear_spec q l I) as [I' Hl]. eexists. split; [done|]. exists []. cbn.
    split_and!; [done|by rewrite <- L|]. intros k. destruct (F k) as [F1 _]. split; [|done].
    etrans; [|exact F1]. apply sublist_app; [done|apply sublist_nil_l].
Qed.

Lemma snapshot_run_inv lim st acts :
  snap_inv lim st → ∃ st', snapshot_run st acts = Done st' ∧ snap_inv lim st'.
Proof.
  revert st. induction acts as [|a acts IH]; intros st I; [by exists st|]. cbn [snapshot_run].
  destruct (snapshot_act_inv lim st a I) as (st' & -> & I'). by apply IH.
Qed.

Definition rt_config_typed (c : RealtimeQueueConfig) : Prop :=
  0 ≤ rt_max_session_queued_bytes c ∧ 0 ≤ rt_max_keys c ∧ rt_max_queued_bytes c ≤ usize_max.

Lemma snapshots_start c q :
  latest_from_config c = Ok q → rt_config_typed c →
  snap_inv (rt_limits q) (mkSnapshots q None [] []).
Proof.
  intros Hq (H1 & H2 & H3). unfold latest_from_config, latest_new in Hq.
  case_decide; [done|]. case_decide as Hc; [done|]. apply (inj Ok) in Hq. subst q.
  exists []. split_and!; [|done|by intros k].
  split; split; cbn; try done; [constructor| |unfold within; cbn|lia].
  - intros k m. rewrite lookup_empty. split; [done|]. intros [Hin _]. by apply elem_of_nil in Hin.
  - split_and!; [rewrite sumZ_nil; lia|rewrite len_nil; lia|]. intros s.
    change (bytes_of [] s) with 0. change (keys_of [] s) with 0. lia.
Qed.



(** Values in flight or pending. *)
Definition live (st : Snapshots) (x : PendingRealtime) : Prop :=
  sn_inflight st = Some x ∨ lq_pending (sn_queue st) !! slot_key x = Some x.

Lemma live_lined st l x :
  lined (sn_queue st) l → live st x ↔ sn_inflight st = Some x ∨ x ∈ l.
Proof. intros L. unfold live. rewrite (ln_pending _ _ L). tauto. Qed.

(** Only [enqueue] brings a value in, and [forget_session] removes the session's. *)
Lemma snapshot_live lim st a st' x :
  snap_inv lim st → snapshot_act st a = Done st' → live st' x → live st x ∨ a = REnqueue x.
Proof.
  intros (l & I & _) Ha. destruct st as [q o acc fwd]. cbn in I.
  rewrite (live_lined (mkSnapshots q o acc fwd) l x (ri_lined _ _ I)).
  destruct a as [m| |r|s|]; cbn [snapshot_act] in Ha.
  - destruct (latest_enqueue_spec q l m I) as (r & q' & E & _ & H). rewrite E in Ha.
    cbn [mbind outcome_bind] in Ha. simplify_eq.
    destruct H as [(_ & _ & I')|(_ & _ & I')]; rewrite (live_lined _ _) by exact (ri_lined _ _ I'); [|tauto].
    rewrite put_elem. naive_solver.
  - destruct o as [m|]; [simplify_eq; rewrite (live_lined _ l) by exact (ri_lined _ _ I); tauto|].
    destruct l as [|m l].
    + rewrite pop_empty in Ha by done. cbn in Ha. simplify_eq. rewrite (live_lined _ []) by exact (ri_lined _ _ I). tauto.
    + destruct (pop_spec q m l I) as (q' & E & I' & _). rewrite E in Ha. cbn in Ha. simplify_eq.
      rewrite (live_lined _ l) by exact (ri_lined _ _ I'). cbn. rewrite elem_of_cons. naive_solver.
  - destruct o as [m|]; [|simplify_eq; rewrite (live_lined _ l) by exact (ri_lined _ _ I); tauto].
    destruct r as [[]|e]; cbn [latest_complete mbind outcome_bind is_ok] in Ha;
      [|case_decide]; cbn [mbind outcome_bind] in Ha.
    + simplify_eq. intros [?|H]; [done|]. left. right. apply (ln_pending _ _ (ri_lined _ _ I) (slot_key x)).
      exact H.
    + destruct (latest_requeue_spec q l m I) as (q' & l' & E & I' & _ & Hl'). rewrite E in Ha.
      cbn [mbind outcome_bind] in Ha. simplify_eq. rewrite (live_lined _ l') by exact (ri_lined _ _ I'). cbn.
      destruct Hl' as [->|[-> _]]; [naive_solver|]. rewrite elem_of_app, list_elem_of_singleton. naive_solver.
    + simplify_eq. intros [?|Hx]; [done|]. left. right. apply (ln_pending _ _ (ri_lined _ _ I) (slot_key x)).
      exact Hx.
  - case_decide; [|simplify_eq; rewrite (live_lined _ l) by exact (ri_lined _ _ I); tauto].
    destruct (forget_spec q l s I) as (q' & E & I' & _). rewrite E in Ha. cbn in Ha. simplify_eq.
    rewrite (live_lined _ _) by exact (ri_lined _ _ I'). rewrite list_elem_of_filter. cbn. tauto.
  - destruct o as [m|]; [simplify_eq; rewrite (live_lined _ l) by exact (ri_lined _ _ I); tauto|]. simplify_eq.
    rewrite (live_lined _ []) by exact (ri_lined _ _ (proj1 (latest_clear_spec q l I))). cbn. rewrite elem_of_nil. tauto.
Qed.
