(* ===== verification/SendPath.v ===== *)
(** * Send admission: [admission.rs] and its use by the send and cleanup paths

    [SendAdmission] guards the staging queues: a send checks readiness and stages its
    message under the read lock, and cleanup removes the ready marker under the write
    lock before it empties the queues.  The model interleaves the atomic steps of
    senders, of the poll thread and of cleanup. *)

From S2P Require Import Prelude Bytes CoreTypes Observe Scheduler Realtime.

Record SendAdmission := mkSendAdmission {
  ready : gset Z;
  stopping : bool
}.

Definition admission_new : SendAdmission := mkSendAdmission ∅ false.
Definition is_stopping (a : SendAdmission) : bool := stopping a.
Definition begin_stop (a : SendAdmission) : SendAdmission := mkSendAdmission (ready a) true.
Definition publish (a : SendAdmission) (s : Handle) : SendAdmission :=
  mkSendAdmission ({[s]} ∪ ready a) (stopping a).
Definition admission_contains (a : SendAdmission) (s : Handle) : bool := bool_decide (s ∈ ready a).
Definition admission_remove (a : SendAdmission) (s : Handle) : SendAdmission :=
  mkSendAdmission (ready a ∖ {[s]}) (stopping a).
Definition admission_clear (a : SendAdmission) : SendAdmission := mkSendAdmission ∅ (stopping a).

(** The test of [with_ready]: whether the operation runs. *)
Definition with_ready (a : SendAdmission) (s : Handle) : bool :=
  admission_contains a s && negb (is_stopping a).

(** ** The checks of a send before admission *)

Record GameSendOptions := mkGameSendOptions {
  opt_sequence : option Z;
  opt_tick : option Z;
  opt_correlation_id : Z;
  opt_priority : GamePriority.t;
  opt_expires_after : option Duration
}.

Section send.
(** [network.validate_payload_len], and the largest representable instant. *)
Context (validate_payload_len : Handle → Z → Result unit) (instant_limit : Instant).

Definition ensure_game_ready (a : SendAdmission) (s : Handle) : Result unit :=
  if admission_contains a s then Ok tt
  else
    _ ← validate_payload_len s 0;
    fail ErrorCode.HandshakeRequired "game session is not ready".

Definition envelope_len (payload : list byte) (udp : bool) : option Z :=
  checked_add usize_max (len payload) (if udp then 16 else 12).

(** [send_scheduled] up to [with_ready]: the message to stage. *)
Definition prepare_scheduled (a : SendAdmission) (udp : bool) (now : Instant) (session : Handle)
    (payload : list byte) (options : GameSendOptions) : Result ScheduledMessage :=
  if is_stopping a then fail ErrorCode.InvalidState "game runtime is stopping" else
  _ ← ensure_game_ready a session;
  n ← ok_or (envelope_len payload udp) (mkRnetError ErrorCode.MessageTooLarge "game message length overflow");
  _ ← validate_payload_len session n;
  expires ← match opt_expires_after options with
            | None => Ok None
            | Some d =>
              ok_or (Some <$> checked_add instant_limit now d)
                (mkRnetError ErrorCode.InvalidArgument "game send expiry overflows")
            end;
  Ok (mkScheduledMessage session payload (opt_sequence options) (opt_tick options)
        (opt_correlation_id options) (opt_priority options) now expires).

(** [send_scheduled] with nothing else running. *)
Definition send_scheduled (a : SendAdmission) (q : ScheduledQueue) (udp : bool) (now : Instant)
    (session : Handle) (payload : list byte) (options : GameSendOptions) : Result unit * ScheduledQueue :=
  match prepare_scheduled a udp now session payload options with
  | Err e => (Err e, q)
  | Ok m =>
    if with_ready a session then enqueue q m
    else (fail ErrorCode.InvalidHandle "game session closed during scheduled-send admission", q)
  end.

(** [send_latest_with_tick] up to [with_ready]. *)
Definition prepare_latest (a : SendAdmission) (udp : bool) (session : Handle) (payload : list byte) :
    Result unit :=
  if is_stopping a then fail ErrorCode.InvalidState "game runtime is stopping" else
  _ ← ensure_game_ready a session;
  n ← ok_or (envelope_len payload udp) (mkRnetError ErrorCode.MessageTooLarge "game snapshot length overflow");
  validate_payload_len session n.

Definition send_latest_with_tick (a : SendAdmission) (q : LatestQueue) (udp : bool) (session : Handle)
    (key : Z) (payload : list byte) (tick : option Z) : outcome (Result unit * LatestQueue) :=
  match prepare_latest a udp session payload with
  | Err e => Done (Err e, q)
  | Ok _ =>
    if with_ready a session then
      '(r, q) ← latest_enqueue q (mkPendingRealtime session key payload tick);
      Done ((_ ← r; Ok tt), q)
    else Done (fail ErrorCode.InvalidHandle "game session closed during snapshot admission", q)
  end.
End send.

(** ** Interleavings *)

(** An operation that passed the test of [with_ready] and holds the read lock. *)
Inductive Staged :=
| StagedSend (m : ScheduledMessage)
| StagedLatest (m : PendingRealtime).
Definition staged_session (o : Staged) : Z :=
  match o with
  | StagedSend m => sm_session m
  | StagedLatest m => rt_session m
  end.

Record SendPath := mkSendPath {
  sp_admission : SendAdmission;
  sp_inside : list Staged;
  sp_staging : Staging;
  sp_snapshots : Snapshots
}.
#[export] Instance SendPath_eta : Eta SendPath := λ p,
  mkSendPath (sp_admission p) (sp_inside p) (sp_staging p) (sp_snapshots p).

(** Steps of the threads.  [AEnter] and [AStage] are the two halves of a send under the
    read lock; the steps that take the write lock wait until no send is inside.  [APop]
    to [ALatestDone] are the poll thread's; [AForget] and [AClear] hold the poll lock, so
    nothing is in flight. *)
Inductive path_action :=
| AEnter (o : Staged)
| AStage (i : nat)
| APublish (s : Handle)
| ARemove (s : Handle)
| ABeginStop
| AClearReady
| APop (now : Instant)
| AComplete (r : Result unit) (elapsed : Duration)
| ALatestPop
| ALatestDone (r : Result unit)
| AForget (s : Handle)
| AClear.

Definition run_staging (p : SendPath) (a : staging_action) : option SendPath :=
  match staging_act (sp_staging p) a with
  | Some (Done st) => Some (p <| sp_staging := st |>)
  | _ => None
  end.
Definition run_snapshot (p : SendPath) (a : snapshot_action) : option SendPath :=
  match snapshot_act (sp_snapshots p) a with
  | Done st => Some (p <| sp_snapshots := st |>)
  | Panic => None
  end.

(** [None]: the step has to wait for a lock. *)
Definition with_write_lock (p : SendPath) (f : SendAdmission → SendAdmission) : option SendPath :=
  if decide (sp_inside p = []) then Some (p <| sp_admission ::= f |>) else None.
Definition with_poll_lock (p : SendPath) (k : option SendPath) : option SendPath :=
  if decide (st_inflight (sp_staging p) = None ∧ sn_inflight (sp_snapshots p) = None) then k else None.

Definition path_act (p : SendPath) (a : path_action) : option SendPath :=
  match a with
  | AEnter o =>
    if with_ready (sp_admission p) (staged_session o) then Some (p <| sp_inside ::= cons o |>)
    else Some p
  | AStage i =>
    o ← sp_inside p !! i;
    let p := p <| sp_inside ::= delete i |> in
    match o with
    | StagedSend m => run_staging p (SEnqueue m)
    | StagedLatest m => run_snapshot p (REnqueue m)
    end
  | APublish s => with_write_lock p (λ a, publish a s)
  | ARemove s => with_write_lock p (λ a, admission_remove a s)
  | ABeginStop => Some (p <| sp_admission ::= begin_stop |>)
  | AClearReady => with_write_lock p admission_clear
  | APop now => run_staging p (SPop now)
  | AComplete r e => run_staging p (SComplete r e)
  | ALatestPop => run_snapshot p RPop
  | ALatestDone r => run_snapshot p (RComplete r)
  | AForget s => with_poll_lock p (p ← run_snapshot p (RForget s); run_staging p (SForget s))
  | AClear => with_poll_lock p (p ← run_snapshot p RClear; run_staging p SClear)
  end.

Fixpoint path_run (p : SendPath) (l : list path_action) : option SendPath :=
  match l with
  | [] => Some p
  | a :: l => p ← path_act p a; path_run p l
  end.

(** ** Cleanup leaves nothing behind *)

Record path_inv (l1 : Z * Z * Z) (l2 : Z * Z * Z * Z) (n : Z) (p : SendPath) : Prop := mkPathInv {
  pi_staging : staging_inv l1 (sp_staging p);
  pi_snapshots : snap_inv l2 (sp_snapshots p);
  pi_count : len (st_admitted (sp_staging p)) ≤ n
}.

(** Nothing of [s] is staged, in flight or being staged, and no send of [s] can start. *)
Definition shut (s : Z) (p : SendPath) : Prop :=
  with_ready (sp_admission p) s = false ∧ Forall (λ o, staged_session o ≠ s) (sp_inside p).
Definition drained (s : Z) (p : SendPath) : Prop :=
  Forall (λ m, sm_session m ≠ s) (reserved (sp_staging p)) ∧
  ∀ x, live (sp_snapshots p) x → rt_session x ≠ s.

Lemma not_ready_iff a s : with_ready a s = false ↔ s ∉ ready a ∨ stopping a = true.
Proof.
  unfold with_ready, admission_contains, is_stopping. rewrite andb_false_iff, bool_decide_eq_false, negb_false_iff.
  done.
Qed.

Section cleanup.
Context (l1 : Z * Z * Z) (l2 : Z * Z * Z * Z).

Lemma run_staging_inv n p a :
  path_inv l1 l2 n p → n < u64_max →
  ∃ st, run_staging p a = Some (p <| sp_staging := st |>) ∧
    staging_act (sp_staging p) a = Some (Done st) ∧ path_inv l1 l2 (n + 1) (p <| sp_staging := st |>).
Proof.
  intros [I1 I2 Hc] Hn. destruct (staging_act_inv _ _ a I1) as (st & E & I & Hl); [lia|].
  exists st. unfold run_staging. rewrite E. split_and!; [done|done|]. split; cbn; [done|done|lia].
Qed.

Lemma run_snapshot_inv n p a :
  path_inv l1 l2 n p →
  ∃ st, run_snapshot p a = Some (p <| sp_snapshots := st |>) ∧
    snapshot_act (sp_snapshots p) a = Done st ∧ path_inv l1 l2 n (p <| sp_snapshots := st |>).
Proof.
  intros [I1 I2 Hc]. destruct (snapshot_act_inv _ _ a I2) as (st & E & I).
  exists st. unfold run_snapshot. rewrite E. split_and!; [done|done|]. by split.
Qed.

Lemma path_inv_weaken n n' p : n ≤ n' → path_inv l1 l2 n p → path_inv l1 l2 n' p.
Proof. intros Hn [I1 I2 Hc]. split; [done|done|lia]. Qed.

(** One step keeps a session shut, and shut and drained, unless it is published. *)
Lemma run_staging_drained n p a p' s :
  path_inv l1 l2 n p → n < u64_max → run_staging p a = Some p' →
  (∀ m, a = SEnqueue m → sm_session m ≠ s) →
  path_inv l1 l2 (n + 1) p' ∧ sp_admission p' = sp_admission p ∧ sp_inside p' = sp_inside p ∧
  (drained s p → drained s p').
Proof.
  intros I Hn Hr Ha. destruct (run_staging_inv n p a I Hn) as (st & E & Hact & I').
  rewrite E in Hr. injection Hr as <-. split_and!; [done|done|done|]. intros [D1 D2]. split; [|done].
  apply Forall_forall. intros x Hx. rewrite Forall_forall in D1.
  destruct I as [I1 _ Hc]. destruct (staging_reserved _ _ a st x I1 ltac:(lia) Hact Hx); eauto.
Qed.

Lemma run_snapshot_drained n p a p' s :
  path_inv l1 l2 n p → run_snapshot p a = Some p' →
  (∀ m, a = REnqueue m → rt_session m ≠ s) →
  path_inv l1 l2 n p' ∧ sp_admission p' = sp_admission p ∧ sp_inside p' = sp_inside p ∧
  (drained s p → drained s p').
Proof.
  intros I Hr Ha. destruct (run_snapshot_inv n p a I) as (st & E & Hact & I').
  rewrite E in Hr. injection Hr as <-. split_and!; [done|done|done|]. intros [D1 D2]. split; [done|].
  intros x Hx. destruct I as [_ I2 _]. destruct (snapshot_live _ _ _ _ x I2 Hact Hx); eauto.
Qed.

Lemma path_act_inv n p a p' :
  path_inv l1 l2 n p → n < u64_max → path_act p a = Some p' → path_inv l1 l2 (n + 1) p'.
Proof.
  intros I Hn Ha.
  assert (∀ p a p', path_inv l1 l2 n p → run_staging p a = Some p' → path_inv l1 l2 (n + 1) p') as HS.
  { intros q b q' Iq Hb. destruct (run_staging_inv n q b Iq Hn) as (st & E & _ & I'). congruence. }
  assert (∀ p a p', path_inv l1 l2 n p → run_snapshot p a = Some p' → path_inv l1 l2 n p') as HR.
  { intros q b q' Iq Hb. destruct (run_snapshot_inv n q b Iq) as (st & E & _ & I'). congruence. }
  pose proof (path_inv_weaken n (n + 1) p ltac:(lia) I) as I1.
  assert (∀ f, with_write_lock p f = Some p' → path_inv l1 l2 (n + 1) p') as HW.
  { intros f Hf. unfold with_write_lock in Hf. case_decide; simplify_eq. by destruct I1. }
  destruct a; cbn [path_act] in Ha; try (by eapply HW; exact Ha); try (by eapply HS; [exact I|exact Ha]);
    try (apply (path_inv_weaken n); [lia|]; by eapply HR; [exact I|exact Ha]).
  - case_match; simplify_eq; by destruct I1.
  - destruct (sp_inside p !! i) as [[m|m]|]; cbn in Ha; [| |done].
    + eapply HS; [|exact Ha]. by destruct I.
    + apply (path_inv_weaken n); [lia|]. eapply HR; [|exact Ha]. by destruct I.
  - simplify_eq. by destruct I1.
  - unfold with_poll_lock in Ha. case_decide; [|done].
    destruct (run_snapshot p (RForget s)) as [p1|] eqn:E; [|done]. cbn in Ha. eauto.
  - unfold with_poll_lock in Ha. case_decide; [|done].
    destruct (run_snapshot p RClear) as [p1|] eqn:E; [|done]. cbn in Ha. eauto.
Qed.

Lemma with_write_lock_shut p f p' s :
  with_write_lock p f = Some p' → with_ready (f (sp_admission p)) s = false →
  shut s p' ∧ (drained s p → drained s p').
Proof.
  unfold with_write_lock. case_decide as E; [|done]. intros [= <-] Hs. split; [|done].
  split; [done|]. cbn. rewrite E. constructor.
Qed.

Lemma run_staging_shut n p a p' s :
  path_inv l1 l2 n p → n < u64_max → run_staging p a = Some p' →
  (∀ m, a = SEnqueue m → sm_session m ≠ s) → shut s p → shut s p' ∧ (drained s p → drained s p').
Proof.
  intros I Hn Hr Ha [T1 T2]. destruct (run_staging_drained n p a p' s) as (_ & E3 & E4 & D'); try done.
  unfold shut. by rewrite E3, E4.
Qed.

Lemma run_snapshot_shut n p a p' s :
  path_inv l1 l2 n p → run_snapshot p a = Some p' →
  (∀ m, a = REnqueue m → rt_session m ≠ s) → shut s p → shut s p' ∧ (drained s p → drained s p').
Proof.
  intros I Hr Ha [T1 T2]. destruct (run_snapshot_drained n p a p' s) as (_ & E3 & E4 & D'); try done.
  unfold shut. by rewrite E3, E4.
Qed.

(** A cleanup of both queues under the poll lock. *)
Lemma poll_lock_shut n p a b p' s :
  path_inv l1 l2 n p → n < u64_max →
  with_poll_lock p (p ← run_snapshot p a; run_staging p b) = Some p' →
  (∀ m, a ≠ REnqueue m) → (∀ m, b ≠ SEnqueue m) → shut s p →
  shut s p' ∧ (drained s p → drained s p').
Proof.
  intros I Hn Ha H1 H2 Sp. unfold with_poll_lock in Ha. case_decide; [|done].
  destruct (run_snapshot p a) as [p1|] eqn:E; [|done]. cbn in Ha.
  destruct (run_snapshot_shut n p a p1 s) as [Sp1 D1]; try done; [naive_solver|].
  destruct (run_snapshot_drained n p a p1 s) as (Ip1 & _); try done; [naive_solver|].
  destruct (run_staging_shut n p1 b p' s) as [Sp' D2]; try done; [naive_solver|]. eauto.
Qed.

Lemma path_act_shut n p a p' s :
  path_inv l1 l2 n p → n < u64_max → path_act p a = Some p' →
  a ≠ APublish s ∨ stopping (sp_admission p) = true → shut s p → shut s p' ∧ (drained s p → drained s p').
Proof.
  intros I Hn Ha Hpub Sp. pose proof Sp as [S1 S2].
  destruct a as [o|i|s'|s'| | |now|r e| |r|s'|]; cbn [path_act] in Ha.
  - destruct (with_ready _ _) eqn:Hr; simplify_eq; [|by split]. split; [|done]. split; [done|]. cbn.
    constructor; [|done]. intros <-. congruence.
  - destruct (sp_inside p !! i) as [o|] eqn:Hi; [|done]. cbn in Ha.
    pose proof (proj1 (Forall_lookup _ _) S2 i o Hi) as Ho.
    set (p1 := p <| sp_inside ::= delete i |>) in *.
    assert (shut s p1) as Sp1 by (split; [done|by apply Forall_delete]).
    assert (path_inv l1 l2 n p1) as Ip1 by (by destruct I). destruct o as [m|m]; cbn in Ho.
    + by apply (run_staging_shut n p1 (SEnqueue m)); [..|intros m' [= <-]|].
    + by apply (run_snapshot_shut n p1 (REnqueue m)); [..|intros m' [= <-]|].
  - apply (with_write_lock_shut p _ p' s) in Ha; [done|]. apply not_ready_iff. cbn.
    apply not_ready_iff in S1. destruct Hpub as [Hpub|]; [|by right]. set_solver.
  - apply (with_write_lock_shut p _ p' s) in Ha; [done|]. apply not_ready_iff. cbn.
    apply not_ready_iff in S1. set_solver.
  - simplify_eq. split; [|done]. split; [|done]. apply not_ready_iff. by right.
  - apply (with_write_lock_shut p _ p' s) in Ha; [done|]. apply not_ready_iff. left. cbn. set_solver.
  - by apply (run_staging_shut n p (SPop now)).
  - by apply (run_staging_shut n p (SComplete r e)).
  - by apply (run_snapshot_shut n p RPop).
  - by apply (run_snapshot_shut n p (RComplete r)).
  - by eapply poll_lock_shut.
  - by eapply poll_lock_shut.
Qed.

Lemma path_act_stopping p a p' :
  path_act p a = Some p' → stopping (sp_admission p) = true → stopping (sp_admission p') = true.
Proof.
  assert (∀ p a p', run_staging p a = Some p' → sp_admission p' = sp_admission p) as HS.
  { intros q b q'. unfold run_staging. repeat case_match; naive_solver. }
  assert (∀ p a p', run_snapshot p a = Some p' → sp_admission p' = sp_admission p) as HR.
  { intros q b q'. unfold run_snapshot. repeat case_match; naive_solver. }
  assert (∀ (p : SendPath) a b p', with_poll_lock p (p ← run_snapshot p a; run_staging p b) = Some p' →
    sp_admission p' = sp_admission p) as HP.
  { intros q c d q'. unfold with_poll_lock. case_decide; [|done].
    destruct (run_snapshot q c) as [q1|] eqn:E; [|done]. cbn. intros H'. apply HS in H'. apply HR in E. congruence. }
  destruct a; cbn [path_act]; unfold with_write_lock; intros Ha Hs;
    try (apply HS in Ha; by rewrite Ha); try (apply HR in Ha; by rewrite Ha);
    try (apply HP in Ha; by rewrite Ha); try (case_decide; [|done]; by simplify_eq).
  - case_match; by simplify_eq.
  - destruct (sp_inside p !! i) as [[m|m]|]; cbn in Ha; [| |done];
      [apply HS in Ha|apply HR in Ha]; by rewrite Ha.
  - by simplify_eq.
Qed.

Lemma path_run_shut n p acts p' s :
  path_inv l1 l2 n p → n + len acts ≤ u64_max → path_run p acts = Some p' →
  APublish s ∉ acts ∨ stopping (sp_admission p) = true →
  shut s p → shut s p' ∧ (drained s p → drained s p').
Proof.
  revert n p. induction acts as [|a acts IH]; intros n p I Hn Hr Hp Sp; cbn in Hr; [by simplify_eq|].
  rewrite len_cons in Hn. pose proof (len_nonneg acts). rewrite not_elem_of_cons in Hp.
  destruct (path_act p a) as [p1|] eqn:Ha; [|done]. cbn in Hr.
  destruct (path_act_shut n p a p1 s) as [Sp1 D1]; try done; [lia|naive_solver|].
  destruct (IH (n + 1) p1) as [Sp2 D2]; try done; [eapply path_act_inv; [done|lia|done]|lia| |eauto].
  destruct Hp as [[_ Hp]|Hp]; [by left|right; by eapply path_act_stopping].
Qed.

Lemma path_run_inv n p acts p' :
  path_inv l1 l2 n p → n + len acts ≤ u64_max → path_run p acts = Some p' →
  path_inv l1 l2 (n + len acts) p'.
Proof.
  revert n p. induction acts as [|a acts IH]; intros n p I Hn Hr; cbn in Hr.
  { simplify_eq. by rewrite len_nil, Z.add_0_r. }
  rewrite len_cons in *. pose proof (len_nonneg acts).
  destruct (path_act p a) as [p1|] eqn:Ha; [|done]. cbn in Hr. rewrite Z.add_assoc.
  apply (IH (n + 1) p1); [eapply path_act_inv; [done|lia|done]|lia|done].
Qed.

Lemma path_run_app p acts acts' :
  path_run p (acts ++ acts') = (p ← path_run p acts; path_run p acts').
Proof.
  revert p. induction acts as [|a acts IH]; intros p; [done|]. cbn.
  destruct (path_act p a); [apply IH|done].
Qed.

Lemma forget_drains n p s p' :
  path_inv l1 l2 n p → path_act p (AForget s) = Some p' → drained s p'.
Proof.
  intros [I1 (l & I2 & _) _] Ha. cbn [path_act] in Ha. unfold with_poll_lock in Ha.
  case_decide as Hfl; [|done]. destruct Hfl as [F1 F2].
  destruct p as [adm inside [q o ad cm] [rq ro acc fwd]]. cbn in F1, F2, I1, I2. subst o ro.
  unfold run_snapshot in Ha. cbn in Ha. destruct (forget_spec rq l s I2) as (rq' & E & I2' & _).
  rewrite E in Ha. cbn in Ha. unfold run_staging in Ha. cbn in Ha. injection Ha as <-.
  destruct I1 as [I1 _ _]. cbn in I1. pose proof (forget_session_spec _ _ _ s I1 ltac:(constructor)) as F.
  destruct (forget_session q s) as [d q']. destruct F as (_ & E' & _). split; cbn.
  - unfold reserved. cbn. rewrite E', app_nil_r. apply Forall_forall. by intros x [? _]%list_elem_of_filter.
  - intros x Hx. apply (live_lined (mkSnapshots rq' None acc fwd) _ x (ri_lined _ _ I2')) in Hx. cbn in Hx.
    destruct Hx as [Hx|[Hx _]%list_elem_of_filter]; done.
Qed.

Lemma clear_drains n p s p' :
  path_inv l1 l2 n p → path_act p AClear = Some p' → drained s p'.
Proof.
  intros [I1 (l & I2 & _) _] Ha. cbn [path_act] in Ha. unfold with_poll_lock in Ha.
  case_decide as Hfl; [|done]. destruct Hfl as [F1 F2].
  destruct p as [adm inside [q o ad cm] [rq ro acc fwd]]. cbn in F1, F2, I1, I2. subst o ro.
  unfold run_snapshot in Ha. cbn [snapshot_act sp_snapshots] in Ha. cbn [mbind option_bind] in Ha.
  unfold run_staging in Ha. cbn [staging_act sp_staging update] in Ha. injection Ha as <-.
  destruct I1 as [I1 _ _]. cbn in I1. destruct (clear_spec _ _ I1) as [_ E].
  split; cbn [sp_staging sp_snapshots update].
  - unfold reserved. cbn [st_queue st_inflight]. rewrite E. constructor.
  - intros x Hx. apply (live_lined (mkSnapshots (latest_clear rq) None acc fwd) [] x
      (ri_lined _ _ (proj1 (latest_clear_spec rq l I2)))) in Hx.
    cbn in Hx. destruct Hx as [Hx|Hx]; [done|]. by apply elem_of_nil in Hx.
Qed.

(** Taking the write lock waits for the sends inside. *)
Lemma write_lock_shut p f p' s :
  with_write_lock p f = Some p' → with_ready (f (sp_admission p)) s = false →
  shut s p' ∧ sp_admission p' = f (sp_admission p).
Proof.
  unfold with_write_lock. case_decide as E; [|done]. intros [= <-] Hs. split; [|done].
  split; [done|]. cbn. rewrite E. constructor.
Qed.

Lemma path_run_stopping p acts p' :
  path_run p acts = Some p' → stopping (sp_admission p) = true → stopping (sp_admission p') = true.
Proof.
  revert p. induction acts as [|a acts IH]; intros p; cbn; [by intros [= <-]|].
  destruct (path_act p a) as [p1|] eqn:Ha; [|done]. cbn. intros Hr Hs.
  eapply IH; [exact Hr|]. by eapply path_act_stopping.
Qed.

(** From the point where a session is shut: after the cleanup step, it stays drained. *)
Lemma shut_then_drained n p mid a post p' s :
  path_inv l1 l2 n p → n + len mid + len post + 1 ≤ u64_max → shut s p →
  APublish s ∉ mid ++ post ∨ stopping (sp_admission p) = true →
  a = AForget s ∨ a = AClear → path_run p (mid ++ a :: post) = Some p' → shut s p' ∧ drained s p'.
Proof.
  intros I Hn Sp Hpub Hcl Hr. pose proof (len_nonneg mid). pose proof (len_nonneg post).
  rewrite path_run_app in Hr. destruct (path_run p mid) as [p1|] eqn:Hmid; [|done]. cbn in Hr.
  rewrite not_elem_of_app in Hpub.
  destruct (path_run_shut n p mid p1 s) as [S1 _]; try done; [lia|naive_solver|].
  pose proof (path_run_inv n p mid p1 I ltac:(lia) Hmid) as I1.
  assert (a ≠ APublish s) as Ha by (by destruct Hcl; subst).
  destruct (path_act p1 a) as [p2|] eqn:Hact; [|done]. cbn in Hr.
  destruct (path_act_shut (n + len mid) p1 a p2 s) as [S2 _]; try done; [lia|by left|].
  pose proof (path_act_inv _ p1 a p2 I1 ltac:(lia) Hact) as I2.
  assert (drained s p2) as D2 by (destruct Hcl; subst; [exact (forget_drains _ p1 s p2 I1 Hact)|exact (clear_drains _ p1 s p2 I1 Hact)]).
  destruct (path_run_shut (n + len mid + 1) p2 post p' s) as [S3 D3]; try done; [lia| |eauto].
  destruct Hpub as [[_ Hp]|Hp]; [by left|right].
  eapply path_act_stopping; [exact Hact|]. exact (path_run_stopping _ _ _ Hmid Hp).
Qed.

(** C31: No message outlives its session.  Whatever the senders and the poll thread do in
    between, once a session's ready marker has been removed and its queues cleared, and
    unless the session is published again, neither staging queue holds or will hold a
    message of the session; and once the runtime is stopping, the markers are cleared
    and the queues emptied, nothing is or will be staged at all. *)
Theorem cleanup_complete n p p' :
  path_inv l1 l2 n p →
  (∀ s mid post,
     n + len mid + len post + 2 ≤ u64_max → APublish s ∉ mid ++ post →
     path_run p (ARemove s :: mid ++ AForget s :: post) = Some p' → shut s p' ∧ drained s p') ∧
  (∀ first mid post,
     n + len first + len mid + len post + 3 ≤ u64_max →
     path_run p (ABeginStop :: first ++ AClearReady :: mid ++ AClear :: post) = Some p' →
     ∀ s, shut s p' ∧ drained s p').
Proof.
  intros I. split.
  - intros s mid post Hn Hpub Hr. pose proof (len_nonneg mid). pose proof (len_nonneg post).
    cbn [path_run] in Hr. destruct (path_act p (ARemove s)) as [p1|] eqn:Ha; [|done]. cbn in Hr.
    pose proof (path_act_inv n p _ p1 I ltac:(lia) Ha) as I1.
    destruct (write_lock_shut p _ p1 s Ha) as [S1 _]; [apply not_ready_iff; left; cbn; set_solver|].
    eapply (shut_then_drained (n + 1)); try done; [lia|by left|by left].
  - intros first mid post Hn Hr s. pose proof (len_nonneg first). pose proof (len_nonneg mid).
    pose proof (len_nonneg post). cbn [path_run path_act mbind option_bind] in Hr.
    set (p0 := p <| sp_admission ::= begin_stop |>) in *.
    pose proof (path_act_inv n p ABeginStop p0 I ltac:(lia) eq_refl) as I0.
    rewrite path_run_app in Hr. destruct (path_run p0 first) as [p1|] eqn:Hf; [|done]. cbn in Hr.
    pose proof (path_run_inv _ p0 first p1 I0 ltac:(lia) Hf) as I1.
    pose proof (path_run_stopping _ _ _ Hf eq_refl) as St1.
    destruct (with_write_lock p1 admission_clear) as [p2|] eqn:Ha; [|done]. cbn in Hr.
    pose proof (path_act_inv _ p1 AClearReady p2 I1 ltac:(lia) Ha) as I2.
    destruct (write_lock_shut p1 _ p2 s Ha) as [S2 E2]; [apply not_ready_iff; by right|].
    eapply (shut_then_drained (n + 1 + len first + 1)); try done; [lia|right; by rewrite E2|by right].
Qed.
End cleanup.

(** A send that was being staged when its session was closed. *)
Definition race : list path_action :=
  [APublish 7; AEnter (StagedSend (demo_message 7 Byte.x01 GamePriority.Normal None)); AStage 0;
   ARemove 7; AEnter (StagedSend (demo_message 7 Byte.x02 GamePriority.Normal None)); AForget 7].

Lemma cleanup_complete_witness :
  ∃ q rq p', from_config scheduled_config_default = Ok q ∧
    latest_from_config realtime_config_default = Ok rq ∧
    path_run (mkSendPath admission_new [] (mkStaging q None [] []) (mkSnapshots rq None [] [])) race
      = Some p' ∧ drained 7 p'.
Proof.
  destruct (from_config scheduled_config_default) as [q|e] eqn:Eq; [|by vm_compute in Eq].
  destruct (latest_from_config realtime_config_default) as [rq|e] eqn:Er; [|by vm_compute in Er].
  destruct (path_run (mkSendPath admission_new [] (mkStaging q None [] []) (mkSnapshots rq None [] [])) race)
    as [p'|] eqn:Hrun.
  2:{ exfalso. revert Hrun. vm_compute in Eq, Er. simplify_eq. by vm_compute. }
  exists q, rq, p'. split_and!; try done.
  set (p0 := mkSendPath admission_new [] (mkStaging q None [] []) (mkSnapshots rq None [] [])) in *.
  assert (path_inv (limits q) (rt_limits rq) 0 p0) as I0.
  { split; [apply (staging_start scheduled_config_default)|apply (snapshots_start realtime_config_default)|]; done. }
  change race with (take 3 race ++ ARemove 7 :: take 1 (drop 4 race) ++ AForget 7 :: []) in Hrun.
  rewrite path_run_app in Hrun.
  destruct (path_run p0 (take 3 race)) as [p1|] eqn:H1; [|done]. cbn [mbind option_bind] in Hrun.
  pose proof (path_run_inv _ _ 0 p0 (take 3 race) p1 I0 ltac:(by vm_compute) H1) as I1.
  refine (proj2 (proj1 (cleanup_complete (limits q) (rt_limits rq) (0 + len (take 3 race)) p1 p' I1)
    7 (take 1 (drop 4 race)) [] _ _ Hrun)); [by vm_compute|].
  intros [H|H]%elem_of_app; [apply list_elem_of_singleton in H; done|by apply elem_of_nil in H].
Defined.
