(* ===== verification/GameData.v ===== *)
(** * Game data path: [quality_runtime.rs] and [message_runtime.rs]

    Encoding of application messages on the way out, with the datagram sequence number
    of a UDP session, and their validation on the way in. *)

From S2P Require Import Prelude Bytes CoreTypes Observe GameWire Quality Scheduler Realtime SendPath.

Record UdpSessionQuality := mkUdpSessionQuality {
  next_outbound_sequence : Z;
  inbound_tracker : UdpLossTracker
}.
#[export] Instance UdpSessionQuality_eta : Eta UdpSessionQuality := λ q,
  mkUdpSessionQuality (next_outbound_sequence q) (inbound_tracker q).
Definition udp_quality_default : UdpSessionQuality := mkUdpSessionQuality 0 tracker_default.

Record GameMessage := mkGameMessage {
  gm_endpoint : Handle;
  gm_session : Handle;
  gm_sequence : option Z;
  gm_tick : option Z;
  gm_correlation_id : Z;
  gm_payload : list byte
}.

(** [udp_sessions]. *)
Abbreviation UdpTable := (gmap Z UdpSessionQuality).

Definition track_quality_session (t : UdpTable) (s : Handle) (transport : Transport.t) : UdpTable :=
  if decide (transport = Transport.Udp) then <[s := udp_quality_default]> t else t.
Definition forget_quality_session (t : UdpTable) (s : Handle) : UdpTable := delete s t.

(** [heartbeating] tells whether the heartbeat table knows the session. *)
Definition udp_loss_snapshot (t : UdpTable) (heartbeating : bool) (s : Handle) :
    Result (option UdpLossSnapshot) :=
  match t !! s with
  | Some q => Ok (Some (snapshot (inbound_tracker q)))
  | None =>
    if heartbeating then Ok None
    else fail ErrorCode.InvalidHandle "game session is not ready"
  end.

(** [ready] is [ensure_game_ready]; [network] is the transport's verdict on the
    envelope.  The result carries the envelope handed to the transport. *)
Definition send_game_application (ready : Result unit) (maximum_envelope_len : Z)
    (network : list byte → Result unit) (t : UdpTable) (session : Handle) (payload : list byte)
    (options : GameSendOptions) : Result (list byte) * UdpTable :=
  match ready with
  | Err e => (Err e, t)
  | Ok _ =>
    match t !! session with
    | Some q =>
      match
        Envelope.encode_udp_application payload (opt_sequence options) (opt_tick options)
          (next_outbound_sequence q) maximum_envelope_len
      with
      | Err e => (Err e, t)
      | Ok envelope =>
        match network envelope with
        | Err e => (Err e, t)
        | Ok _ => (Ok envelope, <[session := q <| next_outbound_sequence ::= λ n, wrapping_add 32 n 1 |>]> t)
        end
      end
    | None =>
      (envelope ← Envelope.encode_application payload (opt_sequence options) (opt_tick options)
                    maximum_envelope_len;
       _ ← network envelope;
       Ok envelope, t)
    end
  end.

(** [latest] is the transport's verdict on a keyed snapshot. *)
Definition send_game_latest_application (ready : Result unit) (maximum_envelope_len : Z)
    (network latest : list byte → Result unit) (t : UdpTable) (session : Handle) (payload : list byte)
    (tick : option Z) : Result (list byte) * UdpTable :=
  if decide (is_Some (t !! session)) then
    send_game_application ready maximum_envelope_len network t session payload
      (mkGameSendOptions None tick 0 GamePriority.Normal None)
  else
    (_ ← ready;
     envelope ← Envelope.encode_application payload None tick maximum_envelope_len;
     _ ← latest envelope;
     Ok envelope, t).

Definition observe_datagram_sequence (t : UdpTable) (session : Handle) (sequence : option Z) :
    Result unit * UdpTable :=
  match t !! session, sequence with
  | Some q, Some sequence =>
    (Ok tt, <[session := q <| inbound_tracker ::= λ i, (observe i sequence).2 |>]> t)
  | None, None => (Ok tt, t)
  | _, _ => (fail ErrorCode.ProtocolError "game data has an invalid transport-owned sequence", t)
  end.

Definition decode_business_message (maximum_envelope_len : Z) (t : UdpTable) (event : Event) :
    Result GameMessage * UdpTable :=
  if decide (ev_status event ≠ ErrorCode.Ok) then
    (fail ErrorCode.ProtocolError "game message carries an unsuccessful transport status", t)
  else
    match Envelope.decode (data event) maximum_envelope_len with
    | Err e => (Err e, t)
    | Ok (Envelope.Application sequence tick datagram_sequence payload) =>
      let '(r, t) := observe_datagram_sequence t (ev_session event) datagram_sequence in
      (_ ← r;
       Ok (mkGameMessage (ev_endpoint event) (ev_session event) sequence tick (correlation_id event)
             payload), t)
    | Ok (Envelope.Control _ _) =>
      (fail ErrorCode.ProtocolError "game control envelope received on the business channel", t)
    end.

(** [convert_business_event] before [buffer_range_message]; the counter of dropped
    plaintext envelopes is [dropped]. *)
Definition convert_business_event (maximum_envelope_len : Z) (t : UdpTable) (dropped : Z) (event : Event) :
    Result (option GameMessage) * UdpTable * Z :=
  let '(r, t) := decode_business_message maximum_envelope_len t event in
  match r with
  | Ok m => (Ok (Some m), t, dropped)
  | Err e =>
    if integrity_verified event then (Err e, t, dropped)
    else (Ok None, t, fetch_add 1 dropped)
  end.

(** ** A UDP session from end to end *)

Record Call := mkCall {
  call_payload : list byte;
  call_options : GameSendOptions;
  call_network : list byte → Result unit
}.

(** Sends one after the other; the accepted calls with their envelopes. *)
Fixpoint send_all (max : Z) (t : UdpTable) (s : Handle) (calls : list Call) :
    list (Call * list byte) * UdpTable :=
  match calls with
  | [] => ([], t)
  | c :: calls =>
    let '(r, t) :=
      send_game_application (Ok tt) max (call_network c) t s (call_payload c) (call_options c) in
    let '(sent, t) := send_all max t s calls in
    (match r with Ok e => (c, e) :: sent | Err _ => sent end, t)
  end.

Fixpoint receive_all (max : Z) (t : UdpTable) (events : list Event) : list (Result GameMessage) * UdpTable :=
  match events with
  | [] => ([], t)
  | e :: events =>
    let '(r, t) := decode_business_message max t e in
    let '(rs, t) := receive_all max t events in
    (r :: rs, t)
  end.

(** The event of an envelope that arrives as it was sent. *)
Definition arrival (endpoint session : Handle) (now : Instant) (sent : Call * list byte) : Event :=
  mkEvent EventType.Message endpoint session (opt_correlation_id (call_options sent.1)) ErrorCode.Ok
    sent.2 true now.

Definition expected_message (endpoint session : Handle) (sent : Call * list byte) : Result GameMessage :=
  Ok (mkGameMessage endpoint session (opt_sequence (call_options sent.1)) (opt_tick (call_options sent.1))
        (opt_correlation_id (call_options sent.1)) (call_payload sent.1)).

Definition options_typed (o : GameSendOptions) : Prop :=
  Envelope.opt_u32 (opt_sequence o) ∧ Envelope.opt_u32 (opt_tick o).

(** A tracker that saw the sequence numbers [0 .. n-1] in order. *)
Definition in_step (n : Z) (t : UdpLossTracker) : Prop :=
  if decide (n = 0) then t = tracker_default
  else highest t = Some ((n - 1) mod 2 ^ 32) ∧ expected t = n ∧ received t = n ∧
       reordered t = 0 ∧ duplicates t = 0 ∧ too_old t = 0 ∧ discontinuities t = 0.

Lemma observe_in_step n t :
  0 ≤ n < u64_max → in_step n t → in_step (n + 1) (observe t (n mod 2 ^ 32)).2.
Proof.
  intros Hn. unfold in_step. rewrite (decide_False (P := n + 1 = 0)) by lia.
  replace (n + 1 - 1) with n by lia. destruct (decide (n = 0)) as [->|].
  { intros ->. done. }
  intros (Hh & He & Hr & Ht). unfold observe. rewrite Hh.
  assert (wrapping_sub 32 (n mod 2 ^ 32) ((n - 1) mod 2 ^ 32) = 1) as ->.
  { unfold wrapping_sub. rewrite <- Zminus_mod. by replace (n - (n - 1)) with 1 by lia. }
  rewrite (decide_False (P := 1 = 0)), (decide_True (P := 1 < Z.shiftl 1 31)),
    (decide_False (P := MAX_FORWARD_GAP < 1)) by done.
  cbn. split_and!; try done; try (by apply Ht); unfold bump; zlia.
Qed.

Section end_to_end.
Context (max : Z) (Hmax : max ≤ usize_max).

(** One accepted send reaches the receiver unchanged and keeps both sides in step. *)
Lemma udp_step n (ts tr : UdpTable) s r q qr net payload options :
  0 ≤ n < u64_max → options_typed options →
  ts !! s = Some q → next_outbound_sequence q = n mod 2 ^ 32 →
  tr !! r = Some qr → in_step n (inbound_tracker qr) →
  let '(res, ts') := send_game_application (Ok tt) max net ts s payload options in
  match res with
  | Err _ => ts' = ts
  | Ok e =>
    (∃ q', ts' !! s = Some q' ∧ next_outbound_sequence q' = (n + 1) mod 2 ^ 32) ∧
    ∀ ep cid now, ∃ tr' qr',
      decode_business_message max tr (mkEvent EventType.Message ep r cid ErrorCode.Ok e true now)
      = (Ok (mkGameMessage ep r (opt_sequence options) (opt_tick options) cid payload), tr') ∧
      tr' !! r = Some qr' ∧ in_step (n + 1) (inbound_tracker qr')
  end.
Proof.
  intros Hn [O1 O2] Hs Hq Hr Hst. unfold send_game_application. rewrite Hs, Hq.
  destruct (Envelope.encode_udp_application _ _ _ _ _) as [e|] eqn:He; [|done].
  destruct (net e) as [[]|]; [|done]. split.
  - eexists. rewrite lookup_insert_eq. split; [done|]. cbn. rewrite Hq. unfold wrapping_add.
    by rewrite Zplus_mod_idemp_l.
  - intros ep cid now. unfold decode_business_message. cbn [ev_status data ev_session ev_endpoint correlation_id].
    rewrite decide_False by (by intros H; apply H).
    assert (Envelope.decode e max = Ok (Envelope.Application (opt_sequence options) (opt_tick options)
      (Some (n mod 2 ^ 32)) payload)) as ->.
    { apply decode_iff_encode; [done|]. split; [|done]. cbn. split_and!; try done.
      unfold in_u32. unfold_ints. pose proof (Z.mod_pos_bound n (2 ^ 32) ltac:(done)). lia. }
    unfold observe_datagram_sequence. rewrite Hr. cbn [mbind result_bind]. eexists _, _.
    split; [done|]. split; [by rewrite lookup_insert_eq|]. cbn. by apply observe_in_step.
Qed.

Lemma udp_run n (ts tr : UdpTable) s r ep now calls q qr :
  0 ≤ n → n + len calls ≤ u64_max → Forall (λ c, options_typed (call_options c)) calls →
  ts !! s = Some q → next_outbound_sequence q = n mod 2 ^ 32 →
  tr !! r = Some qr → in_step n (inbound_tracker qr) →
  let '(sent, ts') := send_all max ts s calls in
  let '(got, tr') := receive_all max tr (arrival ep r now <$> sent) in
  got = expected_message ep r <$> sent ∧ len sent ≤ len calls ∧
  (∃ q', ts' !! s = Some q' ∧ next_outbound_sequence q' = (n + len sent) mod 2 ^ 32) ∧
  (∃ qr', tr' !! r = Some qr' ∧ in_step (n + len sent) (inbound_tracker qr')).
Proof.
  revert n ts tr q qr. induction calls as [|c calls IH]; intros n ts tr q qr Hn Hlen Ho Hs Hq Hr Hst.
  { cbn. rewrite len_nil, Z.add_0_r. split_and!; try done; eauto. }
  rewrite len_cons in *. apply Forall_cons in Ho as [Hc Ho]. pose proof (len_nonneg calls).
  pose proof (udp_step n ts tr s r q qr (call_network c) (call_payload c) (call_options c)
    ltac:(lia) Hc Hs Hq Hr Hst) as Hstep.
  cbn [send_all]. destruct (send_game_application _ _ _ _ _ _ _) as [res ts1]. destruct res as [e|err].
  - destruct Hstep as [(q1 & Hs1 & Hq1) Hrecv].
    destruct (Hrecv ep (opt_correlation_id (call_options c)) now) as (tr1 & qr1 & Hd & Hr1 & Hst1).
    specialize (IH (n + 1) ts1 tr1 q1 qr1 ltac:(lia) ltac:(lia) Ho Hs1 Hq1 Hr1 Hst1).
    destruct (send_all max ts1 s calls) as [sent ts']. cbn [fmap list_fmap receive_all].
    unfold arrival at 1. cbn [fst snd]. rewrite Hd.
    destruct (receive_all max tr1 _) as [got tr']. destruct IH as (-> & Hle & Hts & Htr).
    rewrite len_cons, Z.add_assoc. split_and!; [done|lia|done|done].
  - subst ts1. specialize (IH n ts tr q qr Hn ltac:(lia) Ho Hs Hq Hr Hst).
    destruct (send_all max ts s calls) as [sent ts']. destruct (receive_all max tr _) as [got tr'].
    destruct IH as (-> & Hle & Hts & Htr). split_and!; [done|lia|done|done].
Qed.

(** UDP data end to end.  Whatever the payloads and metadata, and whichever sends the
    transport refuses, every accepted message that arrives is delivered with its payload
    and metadata unchanged and in order, refused sends use no sequence number, and the
    receiver counts exactly the accepted messages: nothing missing, reordered, duplicate
    or discontinuous. *)
Theorem udp_end_to_end (ts tr : UdpTable) s r ep now calls :
  ts !! s = Some udp_quality_default → tr !! r = Some udp_quality_default →
  len calls ≤ u64_max → Forall (λ c, options_typed (call_options c)) calls →
  let '(sent, ts') := send_all max ts s calls in
  let '(got, tr') := receive_all max tr (arrival ep r now <$> sent) in
  got = expected_message ep r <$> sent ∧
  (∃ q', ts' !! s = Some q' ∧ next_outbound_sequence q' = len sent mod 2 ^ 32) ∧
  ∃ snap, udp_loss_snapshot tr' true r = Ok (Some snap) ∧
    us_expected snap = len sent ∧ us_received snap = len sent ∧ us_missing snap = 0 ∧
    us_reordered snap = 0 ∧ us_duplicates snap = 0 ∧ us_too_old snap = 0 ∧ us_discontinuities snap = 0.
Proof.
  intros Hs Hr Hlen Ho.
  pose proof (udp_run 0 ts tr s r ep now calls _ _ ltac:(lia) ltac:(lia) Ho Hs eq_refl Hr
    ltac:(done)) as H.
  destruct (send_all max ts s calls) as [sent ts']. destruct (receive_all max tr _) as [got tr'].
  destruct H as (-> & _ & Hts & qr & Hqr & Hin). rewrite Z.add_0_l in *. split_and!; [done|done|].
  unfold udp_loss_snapshot. rewrite Hqr. eexists. split; [done|]. unfold in_step in Hin.
  unfold snapshot. cbn. pose proof (len_nonneg sent). case_decide as E.
  - rewrite Hin, E. done.
  - destruct Hin as (_ & -> & -> & -> & -> & -> & ->). split_and!; try done. zlia.
Qed.
End end_to_end.

Lemma udp_end_to_end_witness :
  let call b net := mkCall [b] (mkGameSendOptions (Some 9) None 5 GamePriority.Normal None) net in
  let '(sent, _) := send_all 100 {[7 := udp_quality_default]} 7
    [call Byte.x01 (λ _, Ok tt); call Byte.x02 (λ _, fail ErrorCode.WouldBlock "send queue is full");
     call Byte.x03 (λ _, Ok tt)] in
  len sent = 2 ∧
  let '(got, _) := receive_all 100 {[8 := udp_quality_default]} (arrival 1 8 0 <$> sent) in
  got = expected_message 1 8 <$> sent.
Proof.
  intros call.
  pose proof (udp_end_to_end 100 ltac:(by vm_compute) {[7 := udp_quality_default]}
    {[8 := udp_quality_default]} 7 8 1 0
    [call Byte.x01 (λ _, Ok tt); call Byte.x02 (λ _, fail ErrorCode.WouldBlock "send queue is full");
     call Byte.x03 (λ _, Ok tt)] (lookup_singleton_eq _ _) (lookup_singleton_eq _ _)
    ltac:(by vm_compute) ltac:(repeat constructor; zlia)) as H.
  revert H. destruct (send_all _ _ _ _) as [sent ts'] eqn:Hs. intros H. split.
  - vm_compute in Hs. by simplify_eq.
  - destruct (receive_all _ _ _) as [got tr']. apply H.
Defined.
