(* ===== verification/Resume.v ===== *)
(** * Resume tickets: [resume.rs]

    Bounded registry of one-use tickets: an entry per nonce, indexed by session and by
    expiry.  HMAC-SHA-256 and the system's random bytes are parameters. *)

From S2P Require Import Prelude Bytes CoreTypes GameWire.

Definition NONCE_LEN : Z := 16.
Definition TICKET_LEN : Z := NONCE_LEN + 32.
Definition MAX_IDENTITY_LEN : Z := 64.
(** 300 seconds in nanoseconds. *)
Definition MAX_TTL : Duration := 300 * 10 ^ 9.
Definition SIGNING_CONTEXT : list byte := Join.ascii_bytes "rnet-game-resume-v1".

Record SelectedProtocol := mkSelectedProtocol { sp_protocol_id : Z; sp_version : Z }.
#[export] Instance SelectedProtocol_eq_dec : EqDecision SelectedProtocol.
Proof. solve_decision. Defined.
Definition selected_is_valid (p : SelectedProtocol) : bool :=
  bool_decide (sp_protocol_id p ≠ 0) && bool_decide (sp_version p ≠ 0).

Record ResumeClaim := mkResumeClaim { claim_old_session : Handle; claim_identity : list byte }.

Record ResumeScope := mkResumeScope {
  scope_endpoint : Handle;
  scope_session : Handle;
  scope_peer_key : list byte;
  scope_protocol : SelectedProtocol
}.

Record TicketEntry := mkTicketEntry {
  te_endpoint : Handle;
  te_old_session : Handle;
  te_peer_key : list byte;
  te_protocol_id : Z;
  te_protocol_version : Z;
  te_identity : list byte;
  te_expires : Instant
}.
#[export] Instance TicketEntry_eq_dec : EqDecision TicketEntry.
Proof. solve_decision. Defined.

Record ResumeRegistry := mkResumeRegistry {
  max_entries : Z;
  entries : gmap (list byte) TicketEntry;
  by_session : gmap Z (list byte);
  expiries : gmap Z (gset (list byte))
}.
#[export] Instance ResumeRegistry_eta : Eta ResumeRegistry := λ r,
  mkResumeRegistry (max_entries r) (entries r) (by_session r) (expiries r).

Definition validate_ttl (ttl : Duration) : Result unit :=
  if decide (ttl = 0 ∨ MAX_TTL < ttl) then
    fail ErrorCode.InvalidArgument "resume ticket lifetime must be between 1 ns and 5 minutes"
  else Ok tt.

(** [secret] is what the random source gives for the HMAC key; signing with that key is the
    parameter [hmac] below. *)
Definition registry_new (max : Z) (secret : option (list byte)) : Result ResumeRegistry :=
  if decide (1 ≤ max ≤ 65536) then
    _ ← ok_or secret (mkRnetError ErrorCode.CryptoError "resume ticket RNG failed");
    Ok (mkResumeRegistry max ∅ ∅ ∅)
  else fail ErrorCode.InvalidArgument "resume ticket capacity is outside the supported range".

Definition invalid_ticket {A} : Result A := fail ErrorCode.ProtocolError "invalid resume ticket".

(** [remove]: the entry and its two index entries. *)
Definition registry_remove (r : ResumeRegistry) (nonce : list byte) : option TicketEntry * ResumeRegistry :=
  match entries r !! nonce with
  | None => (None, r)
  | Some e =>
    (Some e,
     r <| entries ::= delete nonce |>
       <| by_session ::= delete (te_old_session e) |>
       <| expiries ::= λ x,
            match x !! te_expires e with
            | None => x
            | Some set =>
              let set := set ∖ {[nonce]} in
              if decide (set = ∅) then delete (te_expires e) x else <[te_expires e := set]> x
            end |>)
  end.

(** [BTreeMap::first_key_value]. *)
Definition first_key {A} (m : gmap Z A) : option Z :=
  foldr (λ k acc, Some (match acc with None => k | Some k' => k `min` k' end)) None (map_to_list m).*1.

(** [pop_first]'s bucket at [at_]. *)
Definition bucket (r : ResumeRegistry) (at_ : Instant) : gset (list byte) :=
  default ∅ (expiries r !! at_).

(** The body of [prune]'s loop for the bucket [set]. *)
Definition drop_bucket (r : ResumeRegistry) (nonces : list (list byte)) : ResumeRegistry :=
  foldl (λ r nonce,
    match entries r !! nonce with
    | Some e => r <| entries ::= delete nonce |> <| by_session ::= delete (te_old_session e) |>
    | None => r
    end) r nonces.

(** One iteration: [pop_first], then the tickets of the bucket. *)
Definition pop_expired (r : ResumeRegistry) (at_ : Instant) : ResumeRegistry :=
  let nonces := elements (bucket r at_) in
  drop_bucket (r <| expiries ::= delete at_ |>) nonces.

(** [None] when [fuel] iterations are not enough. *)
Fixpoint prune_loop (fuel : nat) (r : ResumeRegistry) (now : Instant) : option ResumeRegistry :=
  match first_key (expiries r) with
  | Some at_ =>
    if decide (at_ ≤ now) then
      match fuel with
      | O => None
      | S fuel => prune_loop fuel (pop_expired r at_) now
      end
    else Some r
  | None => Some r
  end.
(** Every iteration removes a bucket. *)
Definition prune (r : ResumeRegistry) (now : Instant) : option ResumeRegistry :=
  prune_loop (size (expiries r)) r now.

Definition revoke_session (r : ResumeRegistry) (session : Handle) : ResumeRegistry :=
  match by_session r !! session with
  | Some nonce => (registry_remove r nonce).2
  | None => r
  end.

Definition revoke_endpoint (r : ResumeRegistry) (endpoint : Handle) : ResumeRegistry :=
  let nonces := (filter (λ ne, te_endpoint ne.2 = endpoint) (map_to_list (entries r))).*1 in
  foldl (λ r nonce, (registry_remove r nonce).2) r nonces.

Definition nonce_of (ticket : list byte) : list byte := take 16 ticket.
Definition tag_of (ticket : list byte) : list byte := drop 16 ticket.

Definition revoke_ticket (r : ResumeRegistry) (ticket : list byte) : ResumeRegistry :=
  if decide (len ticket ≠ TICKET_LEN) then r else
  let nonce := nonce_of ticket in
  if decide (is_Some (entries r !! nonce)) then (registry_remove r nonce).2 else r.

Definition registry_clear (r : ResumeRegistry) : ResumeRegistry :=
  r <| entries := ∅ |> <| by_session := ∅ |> <| expiries := ∅ |>.

Definition outstanding (r : ResumeRegistry) : Z := Z.of_nat (size (entries r)).

(** At most four draws of the random source; [None] is a failure of the source. *)
Fixpoint draw_nonce (attempts : nat) (taken : gmap (list byte) TicketEntry) (random : nat → option (list byte)) (i : nat) :
    Result (list byte) :=
  match attempts with
  | O => fail ErrorCode.CryptoError "resume ticket nonce collision"
  | S attempts =>
    match random i with
    | None => fail ErrorCode.CryptoError "resume ticket RNG failed"
    | Some nonce =>
      if decide (is_Some (taken !! nonce)) then draw_nonce attempts taken random (S i) else Ok nonce
    end
  end.
Definition new_nonce (r : ResumeRegistry) (random : nat → option (list byte)) : Result (list byte) :=
  draw_nonce 4 (entries r) random 0.

Section signed.
(** HMAC-SHA-256 under the registry's key, and the largest representable instant. *)
Context (hmac : list byte → list byte) (instant_limit : Instant).

Definition signing_input (nonce : list byte) : list byte := SIGNING_CONTEXT ++ nonce.
Definition sign (nonce : list byte) : list byte := hmac (signing_input nonce).
(** [hmac::verify] recomputes the tag and compares. *)
Definition verify (nonce tag : list byte) : bool := bool_decide (tag = sign nonce).

(** [Some] unless pruning ran out of fuel. *)
Definition issue (r : ResumeRegistry) (scope : ResumeScope) (identity : list byte) (now : Instant)
    (ttl : Duration) (random : nat → option (list byte)) :
    option (Result (list byte) * ResumeRegistry) :=
  if decide (scope_endpoint scope = 0 ∨ scope_session scope = 0 ∨
             selected_is_valid (scope_protocol scope) = false ∨ identity = [] ∨
             MAX_IDENTITY_LEN < len identity) then
    Some (fail ErrorCode.InvalidArgument "invalid resume ticket scope or lifetime", r)
  else
    match
      _ ← validate_ttl ttl;
      ok_or (checked_add instant_limit now ttl)
        (mkRnetError ErrorCode.InvalidArgument "resume deadline overflows")
    with
    | Err e => Some (Err e, r)
    | Ok expires =>
      r ← prune r now;
      if decide (max_entries r ≤ Z.of_nat (size (entries r)) ∧
                 by_session r !! scope_session scope = None) then
        Some (fail ErrorCode.WouldBlock "resume ticket capacity is full", r)
      else
        match new_nonce r random with
        | Err e => Some (Err e, r)
        | Ok nonce =>
          let ticket := nonce ++ sign nonce in
          let r := revoke_session r (scope_session scope) in
          let e := mkTicketEntry (scope_endpoint scope) (scope_session scope) (scope_peer_key scope)
                     (sp_protocol_id (scope_protocol scope)) (sp_version (scope_protocol scope))
                     identity expires in
          Some (Ok ticket,
                r <| entries ::= <[nonce := e]> |>
                  <| by_session ::= <[scope_session scope := nonce]> |>
                  <| expiries ::= λ x, <[expires := {[nonce]} ∪ default ∅ (x !! expires)]> x |>)
        end
    end.

(** The entry an authenticated ticket names. *)
Definition find_ticket (r : ResumeRegistry) (ticket : list byte) : Result (list byte * TicketEntry) :=
  if decide (len ticket ≠ TICKET_LEN) then invalid_ticket else
  let nonce := nonce_of ticket in
  if negb (verify nonce (tag_of ticket)) then invalid_ticket else
  match entries r !! nonce with
  | None => invalid_ticket
  | Some e => Ok (nonce, e)
  end.

Definition consume (r : ResumeRegistry) (ticket : list byte) (endpoint : Handle) (peer_key : list byte)
    (protocol : SelectedProtocol) (now : Instant) : option (outcome (Result ResumeClaim * ResumeRegistry)) :=
  r ← prune r now;
  Some (
    match find_ticket r ticket with
    | Err e => Done (Err e, r)
    | Ok (nonce, e) =>
      if decide (te_endpoint e ≠ endpoint ∨ te_peer_key e ≠ peer_key ∨
                 te_protocol_id e ≠ sp_protocol_id protocol ∨
                 te_protocol_version e ≠ sp_version protocol ∨ te_expires e ≤ now) then
        Done (invalid_ticket, r)
      else
        let '(o, r) := registry_remove r nonce in
        e ← expect o;
        Done (Ok (mkResumeClaim (te_old_session e) (te_identity e)), r)
    end).

Definition pinned_version (r : ResumeRegistry) (ticket : list byte) (endpoint : Handle)
    (peer_key : list byte) (protocol_id : Z) (now : Instant) : option (Result Z * ResumeRegistry) :=
  r ← prune r now;
  Some (
    ('(_, e) ← find_ticket r ticket;
     if decide (te_endpoint e ≠ endpoint ∨ te_peer_key e ≠ peer_key ∨ te_protocol_id e ≠ protocol_id ∨
                te_expires e ≤ now) then invalid_ticket
     else Ok (te_protocol_version e)), r).
End signed.

(** ** The abstract registry: the unexpired tickets, without indexes *)

Abbreviation Tickets := (gmap (list byte) TicketEntry).

Definition unexpired (now : Instant) (m : Tickets) : Tickets :=
  filter (λ ne, now < te_expires ne.2) m.
Definition without_session (s : Handle) (m : Tickets) : Tickets :=
  filter (λ ne, te_old_session ne.2 ≠ s) m.
Definition without_endpoint (ep : Handle) (m : Tickets) : Tickets :=
  filter (λ ne, te_endpoint ne.2 ≠ ep) m.

Inductive registry_action :=
| IssueTicket (scope : ResumeScope) (identity : list byte) (now : Instant) (ttl : Duration)
    (random : nat → option (list byte))
| ConsumeTicket (ticket : list byte) (endpoint : Handle) (peer_key : list byte)
    (protocol : SelectedProtocol) (now : Instant)
| ReadVersion (ticket : list byte) (endpoint : Handle) (peer_key : list byte) (protocol_id : Z)
    (now : Instant)
| RevokeSession (session : Handle)
| RevokeEndpoint (endpoint : Handle)
| RevokeTicket (ticket : list byte)
| ClearTickets.

Inductive registry_reply :=
| Issued (x : Result (list byte))
| Claimed (x : Result ResumeClaim)
| Version (x : Result Z)
| Revoked.

Section histories.
Context (hmac : list byte → list byte) (instant_limit : Instant).

(** One call of the registry; [None] is a loop out of fuel or a panic. *)
Definition registry_act (r : ResumeRegistry) (a : registry_action) :
    option (registry_reply * ResumeRegistry) :=
  match a with
  | IssueTicket scope identity now ttl random =>
    '(x, r) ← issue hmac instant_limit r scope identity now ttl random; Some (Issued x, r)
  | ConsumeTicket ticket endpoint peer_key protocol now =>
    o ← consume hmac r ticket endpoint peer_key protocol now;
    match o with Done (x, r) => Some (Claimed x, r) | Panic => None end
  | ReadVersion ticket endpoint peer_key protocol_id now =>
    '(x, r) ← pinned_version hmac r ticket endpoint peer_key protocol_id now; Some (Version x, r)
  | RevokeSession s => Some (Revoked, revoke_session r s)
  | RevokeEndpoint ep => Some (Revoked, revoke_endpoint r ep)
  | RevokeTicket ticket => Some (Revoked, revoke_ticket r ticket)
  | ClearTickets => Some (Revoked, registry_clear r)
  end.

Fixpoint registry_run (r : ResumeRegistry) (acts : list registry_action) :
    option (list registry_reply * ResumeRegistry) :=
  match acts with
  | [] => Some ([], r)
  | a :: acts =>
    '(y, r) ← registry_act r a;
    '(ys, r) ← registry_run r acts;
    Some (y :: ys, r)
  end.

(** A ticket is its nonce followed by the nonce's tag. *)
Definition ticket_for (nonce : list byte) : list byte := nonce ++ sign hmac nonce.
Definition ticket_entry (m : Tickets) (ticket : list byte) : option TicketEntry :=
  if decide (len ticket = TICKET_LEN ∧ ticket = ticket_for (nonce_of ticket))
  then m !! nonce_of ticket else None.

Definition tickets_issue (max : Z) (m : Tickets) (scope : ResumeScope) (identity : list byte)
    (now : Instant) (ttl : Duration) (random : nat → option (list byte)) : Result (list byte) * Tickets :=
  if decide (scope_endpoint scope = 0 ∨ scope_session scope = 0 ∨
             selected_is_valid (scope_protocol scope) = false ∨ ¬ 1 ≤ len identity ≤ 64) then
    (fail ErrorCode.InvalidArgument "invalid resume ticket scope or lifetime", m)
  else if decide (¬ 0 < ttl ≤ MAX_TTL) then
    (fail ErrorCode.InvalidArgument "resume ticket lifetime must be between 1 ns and 5 minutes", m)
  else if decide (instant_limit < now + ttl) then
    (fail ErrorCode.InvalidArgument "resume deadline overflows", m)
  else
    let m := unexpired now m in
    let others := without_session (scope_session scope) m in
    if decide (max ≤ Z.of_nat (size m) ∧ others = m) then
      (fail ErrorCode.WouldBlock "resume ticket capacity is full", m)
    else
      match draw_nonce 4 m random 0 with
      | Err e => (Err e, m)
      | Ok nonce =>
        (Ok (ticket_for nonce),
         <[nonce := mkTicketEntry (scope_endpoint scope) (scope_session scope) (scope_peer_key scope)
                      (sp_protocol_id (scope_protocol scope)) (sp_version (scope_protocol scope))
                      identity (now + ttl)]> others)
      end.

Definition tickets_act (max : Z) (m : Tickets) (a : registry_action) : registry_reply * Tickets :=
  match a with
  | IssueTicket scope identity now ttl random =>
    prod_map Issued id (tickets_issue max m scope identity now ttl random)
  | ConsumeTicket ticket endpoint peer_key protocol now =>
    let m := unexpired now m in
    match ticket_entry m ticket with
    | Some e =>
      if decide (te_endpoint e = endpoint ∧ te_peer_key e = peer_key ∧
                 mkSelectedProtocol (te_protocol_id e) (te_protocol_version e) = protocol)
      then (Claimed (Ok (mkResumeClaim (te_old_session e) (te_identity e))), delete (nonce_of ticket) m)
      else (Claimed invalid_ticket, m)
    | None => (Claimed invalid_ticket, m)
    end
  | ReadVersion ticket endpoint peer_key protocol_id now =>
    let m := unexpired now m in
    (Version
      match ticket_entry m ticket with
      | Some e =>
        if decide (te_endpoint e = endpoint ∧ te_peer_key e = peer_key ∧ te_protocol_id e = protocol_id)
        then Ok (te_protocol_version e) else invalid_ticket
      | None => invalid_ticket
      end, m)
  | RevokeSession s => (Revoked, without_session s m)
  | RevokeEndpoint ep => (Revoked, without_endpoint ep m)
  | RevokeTicket ticket =>
    (Revoked, if decide (len ticket = TICKET_LEN) then delete (nonce_of ticket) m else m)
  | ClearTickets => (Revoked, ∅)
  end.

Fixpoint tickets_run (max : Z) (m : Tickets) (acts : list registry_action) :
    list registry_reply * Tickets :=
  match acts with
  | [] => ([], m)
  | a :: acts =>
    let '(y, m) := tickets_act max m a in
    let '(ys, m) := tickets_run max m acts in
    (y :: ys, m)
  end.
End histories.

(** ** The indexes *)

(** [by_session] is the inverse of the entries' sessions; so a session has at most one
    ticket. *)
Definition session_ix (ent : Tickets) (bys : gmap Z (list byte)) : Prop :=
  ∀ s n, bys !! s = Some n ↔ ∃ e, ent !! n = Some e ∧ te_old_session e = s.
(** The buckets of [expiries] partition the entries by deadline, and none is empty. *)
Definition expiry_ix (ent : Tickets) (exps : gmap Z (gset (list byte))) : Prop :=
  (∀ t n, n ∈ default ∅ (exps !! t) ↔ ∃ e, ent !! n = Some e ∧ te_expires e = t) ∧
  (∀ t, exps !! t ≠ Some ∅).

Record indexed (r : ResumeRegistry) : Prop := {
  ix_session : session_ix (entries r) (by_session r);
  ix_expiry : expiry_ix (entries r) (expiries r);
  ix_bound : Z.of_nat (size (entries r)) ≤ max_entries r
}.

(** No other ticket has the session of a live ticket. *)
Lemma session_ix_unique ent bys n n' e e' :
  session_ix ent bys → ent !! n = Some e → ent !! n' = Some e' →
  te_old_session e = te_old_session e' → n = n'.
Proof.
  intros H Hn Hn' E.
  assert (bys !! te_old_session e = Some n) by (apply H; eauto).
  assert (bys !! te_old_session e = Some n') by (apply H; rewrite E; eauto). congruence.
Qed.

Lemma session_ix_delete ent bys n e :
  session_ix ent bys → ent !! n = Some e →
  session_ix (delete n ent) (delete (te_old_session e) bys).
Proof.
  intros H Hn s n'. rewrite lookup_delete_Some, (H s n'). setoid_rewrite lookup_delete_Some.
  split.
  - intros [Hs (e' & He & <-)]. exists e'. split_and!; [|done..]. intros ->. simplify_eq.
  - intros (e' & [Hne He] & <-). split; [|by eauto]. intros E.
    apply Hne. by eapply session_ix_unique.
Qed.

Lemma session_ix_insert ent bys n e :
  session_ix ent bys → ent !! n = None → bys !! te_old_session e = None →
  session_ix (<[n := e]> ent) (<[te_old_session e := n]> bys).
Proof.
  intros H Hn Hs s n'. rewrite lookup_insert_Some, (H s n'). setoid_rewrite lookup_insert_Some.
  split; [naive_solver|].
  intros (e' & [[-> <-]|[Hne He]] & <-); [by left|]. right. split; [|by eauto].
  intros E. assert (bys !! te_old_session e' = Some n') by (apply H; eauto). congruence.
Qed.

Lemma expiry_ix_insert ent exps n e :
  expiry_ix ent exps → ent !! n = None →
  expiry_ix (<[n := e]> ent)
    (<[te_expires e := {[n]} ∪ default ∅ (exps !! te_expires e)]> exps).
Proof.
  intros [H Hne] Hn. split.
  - intros t n'. setoid_rewrite lookup_insert_Some.
    destruct (decide (t = te_expires e)) as [->|Ht].
    + rewrite lookup_insert_eq. cbn [default from_option id]. rewrite elem_of_union, H.
      rewrite elem_of_singleton. naive_solver.
    + rewrite lookup_insert_ne by done. rewrite H. naive_solver.
  - intros t E. apply lookup_insert_Some in E as [[_ E]|[_ E]]; [|by eapply Hne].
    assert (n ∈ (∅ : gset (list byte))) by (rewrite <- E; set_solver). set_solver.
Qed.

Lemma expiry_ix_delete ent exps n e :
  expiry_ix ent exps → ent !! n = Some e →
  expiry_ix (delete n ent)
    (match exps !! te_expires e with
     | None => exps
     | Some set =>
       let set := set ∖ {[n]} in
       if decide (set = ∅) then delete (te_expires e) exps else <[te_expires e := set]> exps
     end).
Proof.
  intros [H Hne] Hn.
  destruct (exps !! te_expires e) as [set|] eqn:Hset.
  2: { exfalso. assert (n ∈ default ∅ (exps !! te_expires e)) by (apply H; eauto).
       rewrite Hset in *. set_solver. }
  assert (Hmem : ∀ n', n' ∈ set ↔ ∃ e', ent !! n' = Some e' ∧ te_expires e' = te_expires e).
  { intros n'. specialize (H (te_expires e) n'). by rewrite Hset in H. }
  cbn zeta. split.
  - intros t n'. setoid_rewrite lookup_delete_Some.
    destruct (decide (set ∖ {[n]} = ∅)) as [E|E], (decide (t = te_expires e)) as [->|Ht];
      rewrite ?lookup_delete_eq, ?lookup_insert_eq, ?lookup_delete_ne, ?lookup_insert_ne by done;
      cbn [default from_option id].
    + split; [set_solver|]. intros (e' & [? ?] & ?). rewrite <- E. apply elem_of_difference.
      rewrite Hmem, elem_of_singleton. naive_solver.
    + rewrite H. naive_solver.
    + rewrite elem_of_difference, Hmem, elem_of_singleton. naive_solver.
    + rewrite H. naive_solver.
  - intros t E. destruct (decide (set ∖ {[n]} = ∅)).
    + apply lookup_delete_Some in E as [_ E]. by eapply Hne.
    + apply lookup_insert_Some in E as [[_ E]|[_ E]]; [done|by eapply Hne].
Qed.

Lemma remove_indexed r n :
  indexed r →
  indexed (registry_remove r n).2 ∧ entries (registry_remove r n).2 = delete n (entries r) ∧
  max_entries (registry_remove r n).2 = max_entries r ∧ (registry_remove r n).1 = entries r !! n.
Proof.
  intros [Hs Hx Hb]. unfold registry_remove. destruct (entries r !! n) as [e|] eqn:Hn; cbn -[Z.of_nat].
  - split_and!; [|done..]. constructor; cbn -[Z.of_nat].
    + by apply session_ix_delete.
    + by apply expiry_ix_delete.
    + rewrite map_size_delete_Some by eauto. lia.
  - by rewrite delete_id.
Qed.

(** ** Pruning *)

Lemma first_key_spec {A} (m : gmap Z A) :
  match first_key m with
  | Some k => is_Some (m !! k) ∧ ∀ k', is_Some (m !! k') → k ≤ k'
  | None => m = ∅
  end.
Proof.
  assert (Hin : ∀ k, k ∈ (map_to_list m).*1 ↔ is_Some (m !! k)).
  { intros k. rewrite list_elem_of_fmap. split.
    - intros ([? a] & -> & ?%elem_of_map_to_list). eauto.
    - intros [a ?]. exists (k, a). by rewrite elem_of_map_to_list. }
  assert (Hl : ∀ l : list Z,
    match foldr (λ k acc, Some (match acc with None => k | Some k' => k `min` k' end)) None l with
    | Some k => k ∈ l ∧ ∀ k', k' ∈ l → k ≤ k' | None => l = [] end).
  { induction l as [|a l IH]; [done|]. cbn.
    destruct (foldr _ None l) as [k|]; [|subst; split; [by left|intros k' ->%list_elem_of_singleton; lia]].
    destruct IH as [Hk Hmin]. split.
    - destruct (Z.min_spec a k) as [[_ ->]|[_ ->]]; [by left|by right].
    - intros k' [->|Hk']%elem_of_cons; [lia|]. specialize (Hmin k' Hk'). lia. }
  specialize (Hl (map_to_list m).*1). unfold first_key. destruct (foldr _ None _) as [k|].
  - split; [apply Hin, Hl|]. intros k' Hk'. by apply Hl, Hin.
  - apply fmap_nil_inv in Hl. by apply map_to_list_empty_iff.
Qed.

Lemma drop_bucket_spec l : ∀ r,
  session_ix (entries r) (by_session r) →
  session_ix (entries (drop_bucket r l)) (by_session (drop_bucket r l)) ∧
  entries (drop_bucket r l) = filter (λ ne, ne.1 ∉ l) (entries r) ∧
  expiries (drop_bucket r l) = expiries r ∧ max_entries (drop_bucket r l) = max_entries r.
Proof.
  induction l as [|n l IH]; intros r H; cbn [drop_bucket foldl].
  { split_and!; [done| |done..]. symmetry. apply map_filter_id. set_solver. }
  fold (drop_bucket (match entries r !! n with
    | Some e => r <| entries ::= delete n |> <| by_session ::= delete (te_old_session e) |>
    | None => r end) l).
  destruct (entries r !! n) as [e|] eqn:Hn.
  - destruct (IH (r <| entries ::= delete n |> <| by_session ::= delete (te_old_session e) |>))
      as (H1 & H2 & H3 & H4); [by apply session_ix_delete|].
    split_and!; [done| |done..]. rewrite H2. cbn. apply map_eq. intros n'. apply option_eq. intros e'.
    rewrite !map_lookup_filter_Some, lookup_delete_Some. cbn. set_solver.
  - destruct (IH r H) as (H1 & H2 & H3 & H4). split_and!; [done| |done..].
    rewrite H2. apply map_eq. intros n'. apply option_eq. intros e'.
    rewrite !map_lookup_filter_Some. cbn. rewrite not_elem_of_cons.
    split; [|tauto]. intros [? ?]. split_and!; [done| |done]. intros ->. congruence.
Qed.

Lemma pop_bucket r t :
  indexed r →
  let r' := pop_expired r t in
  indexed r' ∧ entries r' = filter (λ ne, te_expires ne.2 ≠ t) (entries r) ∧
  expiries r' = delete t (expiries r) ∧ max_entries r' = max_entries r.
Proof.
  intros [Hs [Hx Hne] Hb]. cbv zeta.
  destruct (drop_bucket_spec (elements (bucket r t)) (r <| expiries ::= delete t |>))
    as (H1 & H2 & H3 & H4); [exact Hs|].
  change (drop_bucket _ _) with (pop_expired r t) in H1, H2, H3, H4.
  set (r' := pop_expired r t) in *. clearbody r'.
  assert (He : entries r' = filter (λ ne, te_expires ne.2 ≠ t) (entries r)).
  { rewrite H2. cbn. apply map_filter_ext. intros n e Hn. cbn.
    rewrite elem_of_elements. unfold bucket. rewrite Hx. naive_solver. }
  split_and!; [|exact He|exact H3|exact H4]. constructor; [done| |].
  - rewrite He, H3. cbn. split.
    + intros t' n. setoid_rewrite map_lookup_filter_Some. cbn.
      destruct (decide (t' = t)) as [->|]; [rewrite lookup_delete_eq; cbn; set_solver|].
      rewrite lookup_delete_ne, Hx by done. naive_solver.
    + intros t' E. apply lookup_delete_Some in E as [_ E]. by eapply Hne.
  - rewrite He, H4. cbn. pose proof (map_size_filter (λ ne, te_expires ne.2 ≠ t) (entries r)). lia.
Qed.

Lemma expires_in_bucket r t n e :
  indexed r → (∀ t', is_Some (expiries r !! t') → t ≤ t') → entries r !! n = Some e → t ≤ te_expires e.
Proof.
  intros [_ [Hx _] _] Hmin Hn. apply Hmin.
  assert (H : n ∈ default ∅ (expiries r !! te_expires e)) by (apply Hx; eauto).
  destruct (expiries r !! te_expires e); [done|set_solver].
Qed.

Lemma no_bucket r : indexed r → expiries r = ∅ → entries r = ∅.
Proof.
  intros [_ [Hx _] _] E. apply map_empty. intros n. apply eq_None_not_Some. intros [e He].
  assert (H : n ∈ default ∅ (expiries r !! te_expires e)) by (apply Hx; eauto).
  rewrite E, lookup_empty in H. set_solver.
Qed.

Lemma nothing_expired now t r :
  indexed r → (∀ t', is_Some (expiries r !! t') → t ≤ t') → ¬ t ≤ now →
  ∃ r', Some r = Some r' ∧ indexed r' ∧ entries r' = unexpired now (entries r) ∧
    max_entries r' = max_entries r.
Proof.
  intros Hr Hmin Ht. exists r. split_and!; [done..| |done]. symmetry. apply map_filter_id.
  intros n e Hn. cbn. pose proof (expires_in_bucket r t n e Hr Hmin Hn). lia.
Qed.

(** The pruning loop removes exactly the expired tickets. *)
Lemma prune_loop_spec now : ∀ fuel r,
  indexed r → (size (expiries r) ≤ fuel)%nat →
  ∃ r', prune_loop fuel r now = Some r' ∧ indexed r' ∧
    entries r' = unexpired now (entries r) ∧ max_entries r' = max_entries r.
Proof.
  induction fuel as [|fuel IH]; intros r Hr Hf; cbn [prune_loop];
    pose proof (first_key_spec (expiries r)) as Hk; destruct (first_key (expiries r)) as [t|].
  1, 3: destruct Hk as [[set Hset] Hmin]; destruct (decide (t ≤ now)) as [Ht|Ht].
  - exfalso. assert (E : size (expiries r) = 0%nat) by lia.
    apply map_size_empty_inv in E. by rewrite E in Hset.
  - by apply nothing_expired with t.
  - destruct (pop_bucket r t Hr) as (H1 & H2 & H3 & H4).
    destruct (IH _ H1) as (r' & E & Hr' & Hent & Hmax).
    { rewrite H3, map_size_delete_Some by eauto. lia. }
    exists r'. split_and!; [done..| |by rewrite Hmax]. rewrite Hent, H2. unfold unexpired.
    rewrite map_filter_filter. apply map_filter_ext. intros n e _. cbn. lia.
  - by apply nothing_expired with t.
  - exists r. by rewrite (no_bucket r Hr Hk).
  - exists r. by rewrite (no_bucket r Hr Hk).
Qed.

Lemma prune_spec r now :
  indexed r →
  ∃ r', prune r now = Some r' ∧ indexed r' ∧
    entries r' = unexpired now (entries r) ∧ max_entries r' = max_entries r.
Proof. intros Hr. by apply prune_loop_spec. Qed.

(** ** Each operation implements the abstract registry *)

(** The registry [r'] after an operation that leaves the tickets [m]. *)
Definition refined (r r' : ResumeRegistry) (m : Tickets) : Prop :=
  indexed r' ∧ entries r' = m ∧ max_entries r' = max_entries r.

Lemma refined_refl r : indexed r → refined r r (entries r).
Proof. done. Qed.

Lemma refined_trans r1 r2 r3 m :
  max_entries r2 = max_entries r1 → refined r2 r3 m → refined r1 r3 m.
Proof. intros E (? & ? & ?). split_and!; congruence. Qed.

Lemma revoke_session_spec r s :
  indexed r → refined r (revoke_session r s) (without_session s (entries r)).
Proof.
  intros Hr. unfold revoke_session. pose proof (ix_session _ Hr) as Hs.
  destruct (by_session r !! s) as [n|] eqn:E.
  - destruct (remove_indexed r n Hr) as (H1 & H2 & H3 & _). split_and!; [done| |done].
    rewrite H2. apply Hs in E as (e & He & <-). apply map_eq. intros n'. apply option_eq. intros e'.
    unfold without_session. rewrite lookup_delete_Some, map_lookup_filter_Some. cbn.
    split; intros [H H']; (split; [|done]) || (split; [done|]).
    + intros Es. apply H. symmetry. by eapply session_ix_unique.
    + intros ->. naive_solver.
  - split_and!; [done| |done]. symmetry. apply map_filter_id. intros n e He. cbn. intros Es.
    assert (by_session r !! s = Some n) by (apply Hs; eauto). congruence.
Qed.

Lemma remove_all_spec l : ∀ r,
  indexed r →
  refined r (foldl (λ r nonce, (registry_remove r nonce).2) r l)
    (filter (λ ne, ne.1 ∉ l) (entries r)).
Proof.
  induction l as [|n l IH]; intros r Hr; cbn [foldl].
  { split_and!; [done| |done]. symmetry. apply map_filter_id. set_solver. }
  destruct (remove_indexed r n Hr) as (H1 & H2 & H3 & _).
  destruct (IH _ H1) as (H4 & H5 & H6). split_and!; [done| |by rewrite H6].
  rewrite H5, H2. apply map_eq. intros n'. apply option_eq. intros e'.
  rewrite !map_lookup_filter_Some, lookup_delete_Some. cbn. set_solver.
Qed.

Lemma revoke_endpoint_spec r ep :
  indexed r → refined r (revoke_endpoint r ep) (without_endpoint ep (entries r)).
Proof.
  intros Hr. unfold revoke_endpoint.
  destruct (remove_all_spec (filter (λ ne, te_endpoint ne.2 = ep) (map_to_list (entries r))).*1 r Hr)
    as (H1 & H2 & H3). split_and!; [done| |done]. rewrite H2.
  apply map_filter_ext. intros n e He. cbn.
  rewrite list_elem_of_fmap. split.
  - intros H E. apply H. exists (n, e). by rewrite list_elem_of_filter, elem_of_map_to_list.
  - intros H ([n' e'] & -> & [E Hin%elem_of_map_to_list]%list_elem_of_filter). cbn in *. congruence.
Qed.

Lemma revoke_ticket_spec r ticket :
  indexed r →
  refined r (revoke_ticket r ticket)
    (if decide (len ticket = TICKET_LEN) then delete (nonce_of ticket) (entries r) else entries r).
Proof.
  intros Hr. unfold revoke_ticket.
  destruct (decide (len ticket = TICKET_LEN)) as [El|El]; [rewrite decide_False by tauto|by rewrite decide_True].
  case_decide as H.
  - destruct (remove_indexed r (nonce_of ticket) Hr) as (H1 & H2 & H3 & _). done.
  - split_and!; [done| |done]. rewrite delete_id; [done|]. by apply eq_None_not_Some.
Qed.

Lemma registry_clear_spec r : indexed r → refined r (registry_clear r) ∅.
Proof.
  intros Hr. split_and!; [|done..]. constructor; cbn -[Z.of_nat].
  - intros s n. setoid_rewrite lookup_empty. naive_solver.
  - split; [|done]. intros t n. setoid_rewrite lookup_empty. cbn. set_solver.
  - rewrite map_size_empty. pose proof (ix_bound _ Hr). lia.
Qed.

Lemma draw_nonce_fresh m random : ∀ attempts i n,
  draw_nonce attempts m random i = Ok n → m !! n = None ∧ ∃ j, random j = Some n.
Proof.
  induction attempts as [|k IH]; intros i n; [done|]. cbn.
  destruct (random i) as [n'|] eqn:E; [|done]. case_decide as H; [apply IH|].
  intros ->%(inj Ok). split; [by apply eq_None_not_Some|eauto].
Qed.

(** Adding a ticket for a session without one. *)
Lemma insert_ticket_spec r nonce e :
  indexed r → entries r !! nonce = None → without_session (te_old_session e) (entries r) = entries r →
  Z.of_nat (size (entries r)) < max_entries r →
  refined r
    (r <| entries ::= <[nonce := e]> |>
       <| by_session ::= <[te_old_session e := nonce]> |>
       <| expiries ::= λ x, <[te_expires e := {[nonce]} ∪ default ∅ (x !! te_expires e)]> x |>)
    (<[nonce := e]> (entries r)).
Proof.
  intros [Hs Hx Hb] Hn Hw Hlt. split_and!; [|done..]. constructor; cbn -[Z.of_nat].
  - apply session_ix_insert; [done..|]. apply eq_None_not_Some. intros [n' (e' & He & E)%Hs].
    rewrite <- Hw in He. apply map_lookup_filter_Some in He as [_ He]. by apply He.
  - by apply expiry_ix_insert.
  - rewrite map_size_insert_None by done. lia.
Qed.

Lemma session_ticketless r s :
  indexed r → by_session r !! s = None ↔ without_session s (entries r) = entries r.
Proof.
  intros [Hs _ _]. unfold without_session. rewrite eq_None_not_Some. split.
  - intros H. apply map_filter_id. intros n e He E. apply H. exists n. apply Hs. eauto.
  - intros H [n (e & He & E)%Hs]. rewrite <- H in He. apply map_lookup_filter_Some in He as [_ He].
    by apply He.
Qed.

Lemma without_session_idemp s m : without_session s (without_session s m) = without_session s m.
Proof. apply map_filter_id. by intros n e [_ He]%map_lookup_filter_Some. Qed.

(** Reissuing frees the session's slot, so a registry that admits a ticket has room. *)
Lemma without_session_room s m max :
  ¬ (max ≤ Z.of_nat (size m) ∧ without_session s m = m) → Z.of_nat (size m) ≤ max →
  Z.of_nat (size (without_session s m)) < max.
Proof.
  intros H Hm. pose proof (map_filter_subseteq (λ ne, te_old_session ne.2 ≠ s) m) as Hsub.
  destruct (decide (size m ≤ size (without_session s m))%nat) as [Hle|]; [|lia].
  pose proof (map_subseteq_size_eq _ _ Hsub Hle) as E. fold (without_session s m) in E.
  rewrite E. destruct (decide (max ≤ Z.of_nat (size m))); [tauto|lia].
Qed.

(** A [Duration] is not negative. *)
Definition typed_action (a : registry_action) : Prop :=
  match a with IssueTicket _ _ _ ttl _ => 0 ≤ ttl | _ => True end.

Section refines.
Context (hmac : list byte → list byte) (instant_limit : Instant).

Lemma identity_bounds (identity : list byte) :
  ¬ 1 ≤ len identity ≤ 64 ↔ identity = [] ∨ MAX_IDENTITY_LEN < len identity.
Proof. rewrite <- length_zero_iff_nil. unfold MAX_IDENTITY_LEN, len. lia. Qed.

Lemma issue_spec r scope identity now ttl random :
  indexed r → 0 ≤ ttl →
  let '(x, m) := tickets_issue hmac instant_limit (max_entries r) (entries r) scope identity now ttl random in
  ∃ r', issue hmac instant_limit r scope identity now ttl random = Some (x, r') ∧ refined r r' m.
Proof.
  intros Hr Ht. unfold tickets_issue, issue.
  pose proof (identity_bounds identity) as Hi.
  destruct (decide (_ ∨ _ ∨ _ ∨ ¬ _)) as [Hg|Hg].
  { rewrite decide_True by tauto. eauto using refined_refl. }
  rewrite (decide_False (P := scope_endpoint scope = 0 ∨ _)) by tauto.
  unfold validate_ttl, checked_add, ok_or.
  destruct (decide (¬ 0 < ttl ≤ MAX_TTL)) as [Htt|Htt].
  { rewrite (decide_True (P := ttl = 0 ∨ _)) by lia. cbn [mbind result_bind]. eauto using refined_refl. }
  rewrite (decide_False (P := ttl = 0 ∨ _)) by lia. cbn [mbind result_bind].
  destruct (decide (instant_limit < now + ttl)) as [Ho|Ho].
  { rewrite (decide_False (P := now + ttl ≤ _)) by lia. eauto using refined_refl. }
  rewrite (decide_True (P := now + ttl ≤ _)) by lia.
  destruct (prune_spec r now Hr) as (r1 & -> & Hr1 & He1 & Hm1).
  cbn [mbind option_bind]. rewrite <- He1, <- Hm1.
  pose proof (session_ticketless r1 (scope_session scope) Hr1) as Hs.
  destruct (decide (_ ∧ without_session _ _ = _)) as [Hc|Hc].
  { rewrite decide_True by tauto. eauto using refined_refl, refined_trans. }
  rewrite decide_False by tauto. unfold new_nonce.
  destruct (draw_nonce 4 (entries r1) random 0) as [nonce|err] eqn:Hd; [|by eauto using refined_refl, refined_trans].
  apply draw_nonce_fresh in Hd as [Hd _].
  destruct (revoke_session_spec r1 (scope_session scope) Hr1) as (Hr2 & He2 & Hm2).
  eexists. split; [reflexivity|].
  eapply refined_trans; [by rewrite Hm2|]. rewrite <- He2.
  apply (insert_ticket_spec (revoke_session r1 (scope_session scope)) nonce
    (mkTicketEntry _ _ _ _ _ _ _)); cbn [te_old_session]; [done|..].
  - rewrite He2. unfold without_session. by apply map_lookup_filter_None_2; left.
  - by rewrite He2, without_session_idemp.
  - rewrite He2, Hm2. apply without_session_room; [done|apply Hr1].
Qed.

Lemma find_ticket_spec r ticket :
  find_ticket hmac r ticket =
  match ticket_entry hmac (entries r) ticket with
  | Some e => Ok (nonce_of ticket, e)
  | None => invalid_ticket
  end.
Proof.
  unfold find_ticket, ticket_entry, verify, ticket_for.
  destruct (decide (len ticket = TICKET_LEN)) as [El|El].
  2: { rewrite decide_True, decide_False by tauto. done. }
  rewrite (decide_False (P := len ticket ≠ _)) by tauto.
  assert (Es : ticket = nonce_of ticket ++ tag_of ticket) by (symmetry; apply take_drop).
  destruct (decide (tag_of ticket = sign hmac (nonce_of ticket))) as [Et|Et].
  - rewrite bool_decide_true by done. cbn [negb].
    rewrite decide_True by (split; [done|by rewrite <- Et]). done.
  - rewrite bool_decide_false by done. cbn [negb]. rewrite decide_False; [done|].
    intros [_ E]. apply Et. rewrite E in Es at 1. by apply app_inv_head in Es.
Qed.

Lemma ticket_entry_unexpired m now ticket e :
  ticket_entry hmac (unexpired now m) ticket = Some e → now < te_expires e.
Proof.
  unfold ticket_entry. case_decide; [|done]. by intros [_ ?]%map_lookup_filter_Some.
Qed.

(** A registry with consistent indexes answers every call as the abstract registry does,
    and stays consistent: no call panics or runs out of fuel. *)
Lemma act_refines r a :
  indexed r → typed_action a →
  let '(y, m) := tickets_act hmac instant_limit (max_entries r) (entries r) a in
  ∃ r', registry_act hmac instant_limit r a = Some (y, r') ∧ refined r r' m.
Proof.
  intros Hr Htyped. destruct a as [scope identity now ttl random|ticket ep pk pr now
    |ticket ep pk pid now|s|ep|ticket|]; cbn [tickets_act registry_act].
  - pose proof (issue_spec r scope identity now ttl random Hr Htyped) as H.
    destruct (tickets_issue _ _ _ _ _ _ _ _) as [x m]. destruct H as (r' & -> & H). cbn. eauto.
  - unfold consume. destruct (prune_spec r now Hr) as (r1 & -> & Hr1 & He1 & Hm1).
    cbn [mbind option_bind]. rewrite find_ticket_spec, <- He1.
    destruct (ticket_entry hmac (entries r1) ticket) as [e|] eqn:Ht; cbn [invalid_ticket fail];
      [|eauto using refined_refl, refined_trans].
    assert (now < te_expires e) by (rewrite He1 in Ht; by eapply ticket_entry_unexpired).
    case_decide as Hd.
    + rewrite decide_False. 2: { destruct Hd as (-> & -> & <-). cbn. intros Hx; intuition lia. }
      destruct (remove_indexed r1 (nonce_of ticket) Hr1) as (H1 & H2 & H3 & H4).
      unfold ticket_entry in Ht. case_decide; [|done]. rewrite Ht in H4.
      destruct (registry_remove r1 (nonce_of ticket)) as [o r2]. cbn in H1, H2, H3, H4. subst o.
      cbn [expect mbind outcome_bind]. eexists. split; [done|]. split_and!; [done..|congruence].
    + rewrite decide_True. 2: { destruct pr as [pid v]. cbn.
           destruct (decide (te_endpoint e = ep)), (decide (te_peer_key e = pk)),
             (decide (te_protocol_id e = pid)), (decide (te_protocol_version e = v)); naive_solver. }
      eauto using refined_refl, refined_trans.
  - unfold pinned_version. destruct (prune_spec r now Hr) as (r1 & -> & Hr1 & He1 & Hm1).
    cbn [mbind option_bind]. rewrite find_ticket_spec, <- He1.
    eexists. split; [|eauto using refined_refl, refined_trans]. do 2 f_equal.
    destruct (ticket_entry hmac (entries r1) ticket) as [e|] eqn:Ht; [|done].
    assert (now < te_expires e) by (rewrite He1 in Ht; by eapply ticket_entry_unexpired).
    cbn [mbind result_bind].
    destruct (decide (te_endpoint e = ep ∧ _)) as [(? & ? & ?)|Hd].
    + rewrite decide_False; [done|]. intros Hx. intuition lia.
    + rewrite decide_True; [done|].
      destruct (decide (te_endpoint e = ep)), (decide (te_peer_key e = pk)); tauto.
  - eauto using revoke_session_spec.
  - eauto using revoke_endpoint_spec.
  - eauto using revoke_ticket_spec.
  - eauto using registry_clear_spec.
Qed.

Lemma run_refines acts : ∀ r,
  indexed r → Forall typed_action acts →
  let '(ys, m) := tickets_run hmac instant_limit (max_entries r) (entries r) acts in
  ∃ r', registry_run hmac instant_limit r acts = Some (ys, r') ∧ refined r r' m.
Proof.
  induction acts as [|a acts IH]; intros r Hr Ht; cbn [tickets_run registry_run];
    [eauto using refined_refl|]. apply Forall_cons in Ht as [Ha Ht].
  pose proof (act_refines r a Hr Ha) as H. destruct (tickets_act _ _ _ _ _) as [y m].
  destruct H as (r1 & -> & Hr1 & He1 & Hm1). cbn [mbind option_bind].
  specialize (IH r1 Hr1 Ht). rewrite He1, Hm1 in IH.
  destruct (tickets_run _ _ _ _ _) as [ys m']. destruct IH as (r2 & -> & IH).
  cbn [mbind option_bind]. eauto using refined_trans.
Qed.
End refines.

Lemma registry_new_indexed max secret r :
  registry_new max secret = Ok r → indexed r ∧ entries r = ∅ ∧ max_entries r = max.
Proof.
  unfold registry_new. case_decide; [|done]. destruct secret; cbn [ok_or mbind result_bind]; [|done]. intros <-%(inj Ok). split_and!; [|done..]. constructor.
  - intros s n. cbn. setoid_rewrite lookup_empty. naive_solver.
  - split; [|done]. intros t n. cbn. setoid_rewrite lookup_empty. cbn. set_solver.
  - cbn -[Z.of_nat]. rewrite map_size_empty. lia.
Qed.

(** C28: the indexed registry refines the abstract one.  Over every history of calls from a new
    registry, each call returns (pruning terminates and [expect] never panics) with the reply
    of the abstract registry of unexpired tickets; the stored tickets are the abstract ones;
    the session and expiry indexes stay exact, which bounds the tickets by the capacity and
    leaves at most one per session. *)
Theorem resume_registry_refines (hmac : list byte → list byte) (instant_limit max : Z)
    (secret : option (list byte)) (r : ResumeRegistry) (acts : list registry_action) :
  registry_new max secret = Ok r → Forall typed_action acts →
  let '(ys, m) := tickets_run hmac instant_limit max ∅ acts in
  ∃ r', registry_run hmac instant_limit r acts = Some (ys, r') ∧ entries r' = m ∧ indexed r' ∧
    outstanding r' ≤ max ∧
    (∀ n n' e e', entries r' !! n = Some e → entries r' !! n' = Some e' →
       te_old_session e = te_old_session e' → n = n').
Proof.
  intros (Hr & He & Hm)%registry_new_indexed Ht.
  pose proof (run_refines hmac instant_limit acts r Hr Ht) as H. rewrite He, Hm in H.
  destruct (tickets_run _ _ _ _ _) as [ys m]. destruct H as (r' & E & Hr' & <- & Hmax).
  exists r'. split_and!; [done..| |].
  - rewrite <- Hm, <- Hmax. apply Hr'.
  - intros n n' e e' H1 H2. by eapply session_ix_unique; [apply (ix_session _ Hr')|..].
Qed.

(** ** The life of one ticket *)

(** The random source of an issue in [a] never yields [n]. *)
Definition never_draws (n : list byte) (a : registry_action) : Prop :=
  match a with IssueTicket _ _ _ _ random => ∀ i, random i ≠ Some n | _ => True end.

(** The [i]th call of the history consumed [ticket] and obtained the claim [c]. *)
Definition claimed_at (acts : list registry_action) (ys : list registry_reply) (ticket : list byte)
    (i : nat) (ep : Handle) (pk : list byte) (pr : SelectedProtocol) (t : Instant)
    (c : ResumeClaim) : Prop :=
  acts !! i = Some (ConsumeTicket ticket ep pk pr t) ∧ ys !! i = Some (Claimed (Ok c)).

(** The scope and the deadline of [e], and the claim it carries. *)
Definition within_scope (e : TicketEntry) (ep : Handle) (pk : list byte) (pr : SelectedProtocol)
    (t : Instant) (c : ResumeClaim) : Prop :=
  te_endpoint e = ep ∧ te_peer_key e = pk ∧
  mkSelectedProtocol (te_protocol_id e) (te_protocol_version e) = pr ∧ t < te_expires e ∧
  c = mkResumeClaim (te_old_session e) (te_identity e).

Section life.
Context (hmac : list byte → list byte) (instant_limit max : Z).

(** Only an issue that draws the nonce stores a ticket under it. *)
Lemma act_shrinks m a n e :
  never_draws n a → (tickets_act hmac instant_limit max m a).2 !! n = Some e → m !! n = Some e.
Proof.
  destruct a as [scope identity now ttl random|ticket ep pk pr now|ticket ep pk pid now|s|ep|ticket|];
    cbn [tickets_act never_draws]; intros Hd.
  - unfold tickets_issue. repeat case_decide; [done..| |].
    { by intros [? _]%map_lookup_filter_Some. }
    destruct (draw_nonce _ _ _ _) as [n'|] eqn:E; cbn.
    + apply draw_nonce_fresh in E as [_ [j Hj]]. intros [[-> _]|[_ Hin]]%lookup_insert_Some; [naive_solver|].
      by apply map_lookup_filter_Some in Hin as [[? _]%map_lookup_filter_Some _].
    + by intros [? _]%map_lookup_filter_Some.
  - destruct (ticket_entry _ _ _); [case_decide|]; cbn;
      [intros [_ [? _]%map_lookup_filter_Some]%lookup_delete_Some|intros [? _]%map_lookup_filter_Some..]; done.
  - by intros [? _]%map_lookup_filter_Some.
  - by intros [? _]%map_lookup_filter_Some.
  - by intros [? _]%map_lookup_filter_Some.
  - cbn. case_decide; [by intros [_ ?]%lookup_delete_Some|done].
  - done.
Qed.

(** A claim comes from the stored entry, within its scope, and removes it. *)
Lemma act_claims m ticket ep pk pr t c :
  (tickets_act hmac instant_limit max m (ConsumeTicket ticket ep pk pr t)).1 = Claimed (Ok c) →
  (∃ e, m !! nonce_of ticket = Some e ∧ within_scope e ep pk pr t c) ∧
  (tickets_act hmac instant_limit max m (ConsumeTicket ticket ep pk pr t)).2 !! nonce_of ticket = None.
Proof.
  cbn [tickets_act]. destruct (ticket_entry _ _ _) as [e|] eqn:E; [|done]. case_decide as H; [|done].
  intros [= <-]. split; [|apply lookup_delete_eq]. unfold ticket_entry in E. case_decide; [|done].
  apply map_lookup_filter_Some in E as [E Ht]. exists e. by destruct H as (? & ? & ?).
Qed.

Lemma run_claims ticket acts : ∀ m ys m',
  tickets_run hmac instant_limit max m acts = (ys, m') → Forall (never_draws (nonce_of ticket)) acts →
  ∀ i ep pk pr t c, claimed_at acts ys ticket i ep pk pr t c →
  (∃ e, m !! nonce_of ticket = Some e ∧ within_scope e ep pk pr t c) ∧
  ∀ j ep' pk' pr' t' c', claimed_at acts ys ticket j ep' pk' pr' t' c' → i = j.
Proof.
  induction acts as [|a acts IH]; intros m ys m' E Hd i ep pk pr t c [Hi Hy]; [done|].
  apply Forall_cons in Hd as [Ha Hd]. cbn [tickets_run] in E.
  destruct (tickets_act hmac instant_limit max m a) as [y m1] eqn:Ea.
  destruct (tickets_run hmac instant_limit max m1 acts) as [ys1 m2] eqn:Er. injection E as <- <-.
  specialize (IH m1 ys1 m2 Er Hd).
  assert (Hnone : ∀ ep pk pr t c, a = ConsumeTicket ticket ep pk pr t → y = Claimed (Ok c) →
    ∀ j ep' pk' pr' t' c', ¬ claimed_at acts ys1 ticket j ep' pk' pr' t' c').
  { intros ep0 pk0 pr0 t0 c0 -> -> j ep' pk' pr' t' c' Hj.
    destruct (act_claims m ticket ep0 pk0 pr0 t0 c0) as [_ Hn]; [by rewrite Ea|].
    rewrite Ea in Hn. destruct (IH _ _ _ _ _ _ Hj) as [(e & He & _) _]. cbn in Hn. congruence. }
  destruct i as [|i]; cbn in Hi, Hy.
  - injection Hi as ->. injection Hy as ->. split.
    + eapply proj1, act_claims. by rewrite Ea.
    + intros [|j] ep' pk' pr' t' c' [Hj Hj']; [done|]. exfalso. by eapply Hnone.
  - destruct (IH i ep pk pr t c) as [(e & He & Hw) Hu]; [done|]. split.
    + exists e. split; [|done]. eapply act_shrinks; [done|]. by rewrite Ea.
    + intros [|j] ep' pk' pr' t' c' [Hj Hj']; [|by f_equal; eapply Hu].
      cbn in Hj, Hj'. injection Hj as ->. injection Hj' as ->. exfalso. by eapply Hnone.
Qed.

(** What leaves the ticket [ticket] of the entry [e] alone: calls for other sessions, endpoints
    and tickets before its deadline, and attempts on it outside its scope. *)
Definition harmless (ticket : list byte) (e : TicketEntry) (a : registry_action) : Prop :=
  match a with
  | IssueTicket scope _ now _ _ => scope_session scope ≠ te_old_session e ∧ now < te_expires e
  | ConsumeTicket tk ep pk pr now =>
    now < te_expires e ∧
    (tk ≠ ticket ∨ te_endpoint e ≠ ep ∨ te_peer_key e ≠ pk ∨
     mkSelectedProtocol (te_protocol_id e) (te_protocol_version e) ≠ pr)
  | ReadVersion _ _ _ _ now => now < te_expires e
  | RevokeSession s => s ≠ te_old_session e
  | RevokeEndpoint ep => ep ≠ te_endpoint e
  | RevokeTicket tk => len tk ≠ TICKET_LEN ∨ nonce_of tk ≠ nonce_of ticket
  | ClearTickets => False
  end.

Lemma act_keeps m a ticket e :
  ticket = ticket_for hmac (nonce_of ticket) → m !! nonce_of ticket = Some e → harmless ticket e a →
  (tickets_act hmac instant_limit max m a).2 !! nonce_of ticket = Some e.
Proof.
  intros Et He. assert (Hu : ∀ now, now < te_expires e → unexpired now m !! nonce_of ticket = Some e).
  { intros now Hn. by apply map_lookup_filter_Some. }
  destruct a as [scope identity now ttl random|tk ep pk pr now|tk ep pk pid now|s|ep|tk|];
    cbn [tickets_act harmless].
  - intros [Hs Hn]. unfold tickets_issue. repeat case_decide; cbn [prod_map fst snd id]; [by auto..|].
    destruct (draw_nonce _ _ _ _) as [n'|] eqn:E; cbn; [|by auto].
    apply draw_nonce_fresh in E as [E _]. rewrite lookup_insert_ne by (intros ->; rewrite Hu in E; done).
    apply map_lookup_filter_Some. by auto.
  - intros [Hn Hs]. destruct (ticket_entry hmac (unexpired now m) tk) as [e'|] eqn:E; [|by apply Hu].
    case_decide as Hm; [|by apply Hu]. cbn. apply lookup_delete_Some. split; [|by apply Hu]. intros En.
    unfold ticket_entry in E. case_decide as Htk; [|done]. rewrite En, Hu in E by done.
    injection E as ->. destruct Htk as [_ Htk]. rewrite En, <- Et in Htk. intuition congruence.
  - apply Hu.
  - intros Hs. by apply map_lookup_filter_Some.
  - intros Hs. by apply map_lookup_filter_Some.
  - intros Hs. cbn. case_decide; [|done]. apply lookup_delete_Some. naive_solver.
  - done.
Qed.

Lemma run_keeps ticket e acts : ∀ m,
  ticket = ticket_for hmac (nonce_of ticket) → m !! nonce_of ticket = Some e →
  Forall (harmless ticket e) acts →
  (tickets_run hmac instant_limit max m acts).2 !! nonce_of ticket = Some e.
Proof.
  induction acts as [|a acts IH]; intros m Et He Hh; [done|]. apply Forall_cons in Hh as [Ha Hh].
  cbn [tickets_run]. pose proof (act_keeps m a ticket e Et He Ha) as H1.
  destruct (tickets_act _ _ _ _ _) as [y m1]. specialize (IH m1 Et H1 Hh).
  by destruct (tickets_run _ _ _ _ _).
Qed.

Lemma tickets_run_snoc m acts a :
  tickets_run hmac instant_limit max m (acts ++ [a]) =
  let '(ys, m1) := tickets_run hmac instant_limit max m acts in
  let '(y, m2) := tickets_act hmac instant_limit max m1 a in
  (ys ++ [y], m2).
Proof.
  revert m. induction acts as [|b acts IH]; intros m; cbn [tickets_run app].
  { by destruct (tickets_act _ _ _ _ _). }
  destruct (tickets_act _ _ _ m b) as [y m1]. rewrite IH.
  destruct (tickets_run _ _ _ _ _) as [ys m2]. by destruct (tickets_act _ _ _ _ _).
Qed.
End life.

(** *** From an issue on *)

Section issued.
Context (hmac : list byte → list byte) (instant_limit : Instant).
(** SHA-256 tags are 32 bytes long, nonces are 16. *)
Hypothesis hmac_length : ∀ m, length (hmac m) = 32%nat.
Definition random_nonces (random : nat → option (list byte)) : Prop :=
  ∀ i n, random i = Some n → length n = 16%nat.

Definition scope_entry (scope : ResumeScope) (identity : list byte) (deadline : Instant) : TicketEntry :=
  mkTicketEntry (scope_endpoint scope) (scope_session scope) (scope_peer_key scope)
    (sp_protocol_id (scope_protocol scope)) (sp_version (scope_protocol scope)) identity deadline.

(** A successful issue stores its entry under the ticket's nonce. *)
Lemma issue_stores r scope identity now ttl random ticket r1 :
  indexed r → 0 ≤ ttl → random_nonces random →
  issue hmac instant_limit r scope identity now ttl random = Some (Ok ticket, r1) →
  indexed r1 ∧ len ticket = TICKET_LEN ∧ ticket = ticket_for hmac (nonce_of ticket) ∧
  entries r1 !! nonce_of ticket = Some (scope_entry scope identity (now + ttl)).
Proof.
  intros Hr Ht Hrand E. pose proof (issue_spec hmac instant_limit r scope identity now ttl random Hr Ht) as H.
  unfold tickets_issue in H. repeat case_decide; [destruct H as (? & E' & _); rewrite E in E'; done..|].
  destruct (draw_nonce _ _ _ _) as [nonce|] eqn:Ed; destruct H as (r' & E' & Hr' & He & _); [|congruence].
  rewrite E in E'. injection E' as -> ->.
  apply draw_nonce_fresh in Ed as [_ [j Hj]]. apply Hrand in Hj.
  assert (Hn : nonce_of (ticket_for hmac nonce) = nonce) by by apply take_app_length'.
  rewrite Hn. split_and!; [done| |done|].
  - unfold ticket_for, sign, len. rewrite length_app, hmac_length, Hj. done.
  - rewrite He. apply lookup_insert_eq.
Qed.

(** a resume ticket is used at most once and only within its scope.  Once issued, in any
    history of further calls (whose random source does not repeat its nonce), [consume]
    accepts it at most one time, and only from the endpoint, peer key, protocol and version it
    was issued for and before its deadline; the claim is the session and identity it was
    issued with. *)
Theorem resume_ticket_one_use r scope identity now ttl random ticket r1 acts ys r2 :
  indexed r → 0 ≤ ttl → random_nonces random →
  issue hmac instant_limit r scope identity now ttl random = Some (Ok ticket, r1) →
  Forall typed_action acts → Forall (never_draws (nonce_of ticket)) acts →
  registry_run hmac instant_limit r1 acts = Some (ys, r2) →
  ∀ i ep pk pr t c, claimed_at acts ys ticket i ep pk pr t c →
  ep = scope_endpoint scope ∧ pk = scope_peer_key scope ∧ pr = scope_protocol scope ∧
  t < now + ttl ∧ c = mkResumeClaim (scope_session scope) identity ∧
  ∀ j ep' pk' pr' t' c', claimed_at acts ys ticket j ep' pk' pr' t' c' → i = j.
Proof.
  intros Hr Ht Hrand E Htyped Hd Erun i ep pk pr t c Hi.
  destruct (issue_stores _ _ _ _ _ _ _ _ Hr Ht Hrand E) as (Hr1 & _ & _ & He).
  pose proof (run_refines hmac instant_limit acts r1 Hr1 Htyped) as H.
  destruct (tickets_run _ _ _ _ _) as [ys' m] eqn:Em. destruct H as (r' & E' & _).
  rewrite Erun in E'. injection E' as <- <-.
  destruct (run_claims _ _ _ _ _ _ _ _ Em Hd _ _ _ _ _ _ Hi) as [(e & He' & Hw) Hu].
  rewrite He in He'. injection He' as <-. destruct Hw as (<- & <- & <- & Hlt & ->).
  split_and!; [done..| |done|done|done]. by destruct scope as [? ? ? []].
Qed.

(** nobody else can burn a resume ticket.  After an issue, calls for other sessions and
    endpoints, other tickets (forged ones with the same nonce included) and attempts on this
    one from another endpoint, key, protocol or version leave it valid: a claim from its own
    scope before the deadline is then accepted. *)
Theorem resume_ticket_available r scope identity now ttl random ticket r1 acts t :
  indexed r → 0 ≤ ttl → random_nonces random →
  issue hmac instant_limit r scope identity now ttl random = Some (Ok ticket, r1) →
  Forall typed_action acts →
  Forall (harmless ticket (scope_entry scope identity (now + ttl))) acts → t < now + ttl →
  ∃ ys r2,
    registry_run hmac instant_limit r1
      (acts ++ [ConsumeTicket ticket (scope_endpoint scope) (scope_peer_key scope)
                  (scope_protocol scope) t]) =
    Some (ys ++ [Claimed (Ok (mkResumeClaim (scope_session scope) identity))], r2).
Proof.
  intros Hr Ht Hrand E Htyped Hh Hlt.
  destruct (issue_stores _ _ _ _ _ _ _ _ Hr Ht Hrand E) as (Hr1 & Hl & Et & He).
  set (last := ConsumeTicket _ _ _ _ _).
  pose proof (run_refines hmac instant_limit (acts ++ [last]) r1 Hr1) as H.
  rewrite tickets_run_snoc in H.
  pose proof (run_keeps hmac instant_limit (max_entries r1) ticket _ acts _ Et He Hh) as Hk.
  destruct (tickets_run _ _ _ _ acts) as [ys m]. cbn in Hk. cbn [tickets_act last] in H.
  assert (Hte : ticket_entry hmac (unexpired t m) ticket = Some (scope_entry scope identity (now + ttl))).
  { unfold ticket_entry. rewrite decide_True by done. by apply map_lookup_filter_Some. }
  rewrite Hte, decide_True in H by (by destruct scope as [? ? ? []]).
  destruct H as (r2 & -> & _); [|by eauto]. apply Forall_app. split; [done|]. by repeat constructor.
Qed.
End issued.

(** ** Instances *)

(** A keyed tag stand-in of the right length. *)
Definition demo_hmac (m : list byte) : list byte := take 32 (rev m ++ replicate 32 Byte.x00).
Lemma demo_hmac_length m : length (demo_hmac m) = 32%nat.
Proof. unfold demo_hmac. rewrite length_take, length_app, length_rev, length_replicate. lia. Qed.

Definition demo_registry : ResumeRegistry := mkResumeRegistry 2 ∅ ∅ ∅.
Definition demo_scope : ResumeScope :=
  mkResumeScope 5 9 (replicate 32 Byte.x03) (mkSelectedProtocol 7 2).
Definition demo_identity : list byte := [Byte.x61; Byte.x62].
Definition demo_random (i : nat) : option (list byte) := Some (replicate 16 Byte.x07).
Definition demo_ticket : list byte := ticket_for demo_hmac (replicate 16 Byte.x07).
Definition demo_issue : registry_action := IssueTicket demo_scope demo_identity 100 1000 demo_random.
(** Another peer tries first, then the owner claims, then replays. *)
Definition demo_intruder : registry_action :=
  ConsumeTicket demo_ticket 5 (replicate 32 Byte.x04) (mkSelectedProtocol 7 2) 150.
Definition demo_claim : registry_action :=
  ConsumeTicket demo_ticket 5 (replicate 32 Byte.x03) (mkSelectedProtocol 7 2) 200.
Definition demo_after : ResumeRegistry :=
  default demo_registry (snd <$> registry_act demo_hmac (10 ^ 18) demo_registry demo_issue).

Lemma demo_registry_indexed : indexed demo_registry.
Proof. by apply (registry_new_indexed 2 (Some [])). Qed.
Lemma demo_random_nonces : random_nonces demo_random.
Proof. intros i n [= <-]. done. Qed.

Lemma resume_registry_refines_witness :
  let '(ys, m) := tickets_run demo_hmac (10 ^ 18) 2 ∅ [demo_issue; demo_intruder; demo_claim; demo_claim] in
  ∃ r', registry_run demo_hmac (10 ^ 18) demo_registry [demo_issue; demo_intruder; demo_claim; demo_claim] =
    Some (ys, r') ∧ entries r' = m ∧ indexed r' ∧ outstanding r' ≤ 2 ∧
    (∀ n n' e e', entries r' !! n = Some e → entries r' !! n' = Some e' →
       te_old_session e = te_old_session e' → n = n').
Proof.
  apply (resume_registry_refines demo_hmac (10 ^ 18) 2 (Some []) demo_registry
    [demo_issue; demo_intruder; demo_claim; demo_claim]); [done|].
  repeat constructor; cbn; lia.
Defined.

Lemma resume_ticket_one_use_witness :
  ∃ ys r2, registry_run demo_hmac (10 ^ 18) demo_after [demo_intruder; demo_claim; demo_claim] = Some (ys, r2) ∧
  claimed_at [demo_intruder; demo_claim; demo_claim] ys demo_ticket 1 5 (replicate 32 Byte.x03)
    (mkSelectedProtocol 7 2) 200 (mkResumeClaim 9 demo_identity) ∧
  ∀ j ep' pk' pr' t' c',
    claimed_at [demo_intruder; demo_claim; demo_claim] ys demo_ticket j ep' pk' pr' t' c' → 1%nat = j.
Proof.
  destruct (registry_run demo_hmac (10 ^ 18) demo_after [demo_intruder; demo_claim; demo_claim])
    as [[ys r2]|] eqn:E; [|exfalso; vm_compute in E; discriminate].
  assert (H1 : claimed_at [demo_intruder; demo_claim; demo_claim] ys demo_ticket 1 5 (replicate 32 Byte.x03)
    (mkSelectedProtocol 7 2) 200 (mkResumeClaim 9 demo_identity)).
  { split; [done|]. apply (f_equal (fmap fst)) in E. vm_compute in E. injection E as <-. done. }
  exists ys, r2. split_and!; [done..|].
  apply (resume_ticket_one_use demo_hmac (10 ^ 18) demo_hmac_length demo_registry demo_scope demo_identity
    100 1000 demo_random demo_ticket demo_after [demo_intruder; demo_claim; demo_claim] ys r2
    demo_registry_indexed ltac:(lia) demo_random_nonces ltac:(vm_compute; reflexivity)
    ltac:(repeat constructor) ltac:(repeat constructor) E 1%nat 5 (replicate 32 Byte.x03)
    (mkSelectedProtocol 7 2) 200 (mkResumeClaim 9 demo_identity) H1).
Defined.

Lemma resume_ticket_available_witness :
  ∃ ys r2, registry_run demo_hmac (10 ^ 18) demo_after ([demo_intruder] ++ [demo_claim]) =
    Some (ys ++ [Claimed (Ok (mkResumeClaim 9 demo_identity))], r2).
Proof.
  apply (resume_ticket_available demo_hmac (10 ^ 18) demo_hmac_length demo_registry demo_scope demo_identity
    100 1000 demo_random demo_ticket demo_after [demo_intruder] 200
    demo_registry_indexed ltac:(lia) demo_random_nonces ltac:(vm_compute; reflexivity)).
  - repeat constructor.
  - apply Forall_singleton. split; [cbn; lia|]. right. right. left. done.
  - lia.
Defined.
