(* ===== verification/Framing.v ===== *)
(** * Logical frames: rnet-protocol [lib.rs]

    The 20-byte frame header, the datagram decoder, the incremental stream parser
    [FrameCodec], and the size guards around Protobuf.  The record reader of TCP
    sessions (rnet-transport [record_reader.rs]) is here too: it is the second
    incremental format of the library. *)

From S2P Require Import Prelude Bytes CoreTypes Wire.

Definition MAGIC : Z := 0x524e4554.
Definition VERSION : Z := 2.
Definition HEADER_LEN : nat := 20.
Definition SUPPORTED_FLAGS : Z := 0.
#[global] Arguments HEADER_LEN : simpl never.

Record FrameHeader := mkFrameHeader {
  version : Z;
  flags : Z;
  body_len : Z;
  correlation : Z
}.

Record Frame := mkFrame {
  header : FrameHeader;
  body : list byte
}.

(** [flags & !SUPPORTED_FLAGS != 0], the complement taken at 16 bits. *)
Definition validate_flags (fl : Z) : Result unit :=
  if decide (Z.land fl (u16_max - SUPPORTED_FLAGS) ≠ 0) then
    fail ErrorCode.ProtocolError "frame contains unsupported flags"
  else Ok tt.

Definition parse_header (input : list byte) (max_body_len : Z) : Result FrameHeader :=
  let magic := be_decode (slice 0 4 input) in
  if decide (magic ≠ MAGIC) then fail ErrorCode.ProtocolError "invalid frame magic" else
  let ver := be_decode (slice 4 6 input) in
  if decide (ver ≠ VERSION) then fail ErrorCode.ProtocolError "unsupported frame version" else
  let fl := be_decode (slice 6 8 input) in
  _ ← validate_flags fl;
  let blen := be_decode (slice 8 12 input) in
  if decide (blen > max_body_len) then
    fail ErrorCode.MessageTooLarge "declared body exceeds configured limit"
  else Ok (mkFrameHeader ver fl blen (be_decode (slice 12 20 input))).

Definition encode_frame (correlation_id fl : Z) (bdy : list byte) (max_body_len : Z)
    : Result (list byte) :=
  if decide (max_body_len = 0 ∨ max_body_len > u32_max) then
    fail ErrorCode.InvalidArgument "maximum body length must be between 1 and u32::MAX" else
  _ ← validate_flags fl;
  if decide (len bdy > max_body_len ∨ len bdy > u32_max) then
    fail ErrorCode.MessageTooLarge "message exceeds configured body limit"
  else
    Ok (be_encode 4 MAGIC ++ be_encode 2 VERSION ++ be_encode 2 fl ++
        be_encode 4 (len bdy) ++ be_encode 8 correlation_id ++ bdy).

Definition decode_datagram (input : list byte) (max_body_len : Z) : Result Frame :=
  if decide (length input < HEADER_LEN)%nat then
    fail ErrorCode.ProtocolError "datagram does not contain a complete header" else
  hdr ← parse_header (take HEADER_LEN input) max_body_len;
  let expected := Z.of_nat HEADER_LEN + body_len hdr in
  if decide (len input ≠ expected) then
    fail ErrorCode.ProtocolError "datagram must contain exactly one complete frame"
  else Ok (mkFrame hdr (drop HEADER_LEN input)).

(** ** Incremental parser *)

Record FrameCodec := mkFrameCodec {
  max_body_len : Z;
  buffer : list byte
}.

Definition frame_codec_new (max : Z) : Result FrameCodec :=
  if decide (max = 0 ∨ max > u32_max) then
    fail ErrorCode.InvalidArgument "maximum body length must be between 1 and u32::MAX"
  else Ok (mkFrameCodec max []).

(** One iteration of the loop of [push]: [Ok None] is [break]. *)
Definition frame_step (max : Z) (buf : list byte) : Result (option (Frame * list byte)) :=
  if decide (length buf < HEADER_LEN)%nat then Ok None else
  hdr ← parse_header (take HEADER_LEN buf) max;
  frame_len ← ok_or (checked_add usize_max (Z.of_nat HEADER_LEN) (body_len hdr))
                (mkRnetError ErrorCode.MessageTooLarge "frame length overflow");
  if decide (len buf < frame_len) then Ok None else
  let raw := take (Z.to_nat frame_len) buf in
  Ok (Some (mkFrame hdr (drop HEADER_LEN raw), drop (Z.to_nat frame_len) buf)).

(** [None] when the loop needs more fuel than the buffer has bytes. *)
Definition push (c : FrameCodec) (input : list byte) : option (Result (list Frame) * FrameCodec) :=
  '(r, rest) ← take_all (frame_step (max_body_len c)) (buffer c ++ input);
  Some (r, mkFrameCodec (max_body_len c) rest).

(** ** Protobuf guards *)

Section protobuf.
(** A generated message type: its encoder and decoder are not part of the sources. *)
Context {M : Type} (encoded_len : M → Z) (encode : M → option (list byte))
  (decode : list byte → option M).

Definition encode_protobuf (m : M) (max_encoded_len : Z) : Result (list byte) :=
  if decide (max_encoded_len = 0) then
    fail ErrorCode.InvalidArgument "maximum Protobuf length must be positive" else
  if decide (encoded_len m > max_encoded_len) then
    fail ErrorCode.MessageTooLarge "encoded Protobuf message exceeds configured limit"
  else ok_or (encode m) (mkRnetError ErrorCode.ProtocolError "failed to encode Protobuf message").

Definition decode_protobuf (bytes : list byte) (max_encoded_len : Z) : Result M :=
  if decide (max_encoded_len = 0) then
    fail ErrorCode.InvalidArgument "maximum Protobuf length must be positive" else
  if decide (len bytes > max_encoded_len) then
    fail ErrorCode.MessageTooLarge "Protobuf input exceeds configured limit"
  else ok_or (decode bytes) (mkRnetError ErrorCode.ProtocolError "failed to decode Protobuf message").

(** A message that encodes within the limit decodes back, when the generated code
    reports the length it writes and inverts its own encoder. *)
Lemma protobuf_roundtrip m max w :
  (∀ m w, encode m = Some w → len w = encoded_len m ∧ decode w = Some m) →
  encode_protobuf m max = Ok w → decode_protobuf w max = Ok m.
Proof.
  intros Hgen. unfold encode_protobuf, decode_protobuf. repeat case_decide; try done.
  all: destruct (encode m) as [w'|] eqn:He; [|done]; intros [= <-];
    destruct (Hgen _ _ He) as [Hl Hd]; rewrite Hl in *; try done; by rewrite Hd.
Qed.
End protobuf.

(** ** TCP record reader *)

Record RecordReader := mkRecordReader {
  buffered : list byte;
  max_len : Z
}.

Definition reader_new (max : Z) : RecordReader := mkRecordReader [] max.

(** Bytes that completed reads appended through [buffer_mut]. *)
Definition reader_append (r : RecordReader) (input : list byte) : RecordReader :=
  mkRecordReader (buffered r ++ input) (max_len r).

Definition reader_step (max : Z) (buf : list byte) : Result (option (list byte * list byte)) :=
  if decide (length buf < 4)%nat then Ok None else
  let length_ := be_decode (take 4 buf) in
  if decide (length_ = 0) then fail ErrorCode.ProtocolError "empty TCP record" else
  if decide (length_ > max) then
    fail ErrorCode.MessageTooLarge "TCP record exceeds the configured limit" else
  framed_len ← ok_or (checked_add usize_max length_ 4)
                 (mkRnetError ErrorCode.MessageTooLarge "TCP record length overflows");
  if decide (len buf < framed_len) then Ok None else
  let advanced := drop 4 buf in
  Ok (Some (take (Z.to_nat length_) advanced, drop (Z.to_nat length_) advanced)).

(** The bytes [write_wire] sends for an encoded record: its length and itself. *)
Definition write_framed (encoded : list byte) : Result (list byte) :=
  if decide (len encoded > u32_max) then fail ErrorCode.MessageTooLarge "record is too large"
  else Ok (be_encode 4 (len encoded) ++ encoded).

Definition reader_take (r : RecordReader) : Result (option (list byte)) * RecordReader :=
  match reader_step (max_len r) (buffered r) with
  | Err e => (Err e, r)
  | Ok None => (Ok None, r)
  | Ok (Some (x, rest)) => (Ok (Some x), mkRecordReader rest (max_len r))
  end.

(** ** Header lemmas *)

Lemma validate_flags_Ok fl u : in_u16 fl → validate_flags fl = Ok u ↔ fl = 0.
Proof.
  intros Hf. unfold validate_flags. destruct u.
  change (u16_max - SUPPORTED_FLAGS) with (2 ^ 16 - 1).
  rewrite land_ones_mod, Z.mod_small by zlia. case_decide; naive_solver.
Qed.

(** A parsed header is the one laid out in the first twenty bytes. *)
Definition header_layout (h : FrameHeader) (input : list byte) : Prop :=
  take HEADER_LEN input =
    be_encode 4 MAGIC ++ be_encode 2 VERSION ++ be_encode 2 (flags h) ++
    be_encode 4 (body_len h) ++ be_encode 8 (correlation h) ∧
  version h = VERSION ∧ flags h = 0 ∧ in_u32 (body_len h) ∧ in_u64 (correlation h).

Lemma parse_header_Ok input max h :
  (HEADER_LEN ≤ length input)%nat →
  parse_header (take HEADER_LEN input) max = Ok h ↔ header_layout h input ∧ body_len h ≤ max.
Proof.
  intros Hlen. unfold parse_header, header_layout, HEADER_LEN in *.
  rewrite !slice_take by lia.
  cut_field 4%nat input f0. cut_field 2%nat input f1. cut_field 2%nat input f2.
  cut_field 4%nat input f3. cut_field 8%nat input f4.
  read_fields. destruct h as [v fl bl cid]. cbn. split.
  - destruct (validate_flags _) as [[]|] eqn:Hfl; cbn; repeat case_decide; try done.
    apply validate_flags_Ok in Hfl; [|by apply be_u16_range].
    intros [= <- <- <- <-]. split; [|lia].
    split_and!; [|lia|done|by apply be_u32_range|by apply be_u64_range].
    replace MAGIC with (be_decode f0) by lia. replace VERSION with (be_decode f1) by lia.
    by rewrite !be_encode_decode.
  - intros ((Hh & -> & -> & Hb & Hc) & Hmax).
    apply app_inj_1 in Hh as [-> Hh]; [|by lens].
    apply app_inj_1 in Hh as [-> Hh]; [|by lens].
    apply app_inj_1 in Hh as [-> Hh]; [|by lens].
    apply app_inj_1 in Hh as [-> ->]; [|by lens].
    rewrite !be_u16, !be_u32, !be_u64 by (done || zlia).
    repeat (rewrite decide_False by lia). done.
Qed.

(** ** Frames as a wire format *)

Definition frame_wf (f : Frame) : Prop :=
  version (header f) = VERSION ∧ flags (header f) = 0 ∧
  body_len (header f) = len (body f) ∧ in_u64 (correlation (header f)).

Definition encode_whole (max : Z) (f : Frame) : Result (list byte) :=
  encode_frame (correlation (header f)) (flags (header f)) (body f) max.

Definition frame_bytes (f : Frame) : list byte :=
  be_encode 4 MAGIC ++ be_encode 2 VERSION ++ be_encode 2 (flags (header f)) ++
  be_encode 4 (body_len (header f)) ++ be_encode 8 (correlation (header f)) ++ body f.

Lemma encode_whole_Ok max f w :
  1 ≤ max ≤ u32_max → frame_wf f →
  encode_whole max f = Ok w ↔ len (body f) ≤ max ∧ w = frame_bytes f.
Proof.
  intros Hmax (_ & Hfl & Hb & _). unfold encode_whole, encode_frame, frame_bytes.
  rewrite Hfl, Hb. assert (validate_flags 0 = Ok tt) as -> by done. cbn.
  rewrite decide_False by lia. case_decide; naive_solver lia.
Qed.

(** A frame off the front of a buffer that starts with its encoding. *)
Lemma frame_layout f max more :
  frame_wf f → len (body f) ≤ max → max ≤ u32_max →
  parse_header (take HEADER_LEN (frame_bytes f ++ more)) max = Ok (header f).
Proof.
  intros (Hv & Hf & Hb & Hc) Hmax Hmax32. pose proof (len_nonneg (body f)).
  apply parse_header_Ok.
  { unfold frame_bytes, HEADER_LEN. lens. }
  split; [|lia]. unfold header_layout, frame_bytes, HEADER_LEN.
  split_and!; [|done|done|zlia|done]. rewrite <- !app_assoc. by read_fields.
Qed.

Lemma len_frame_bytes f : len (frame_bytes f) = 20 + len (body f).
Proof. unfold frame_bytes. autorewrite with rnet. lia. Qed.

Lemma frame_bytes_body f more :
  drop HEADER_LEN (frame_bytes f ++ more) = body f ++ more.
Proof. unfold frame_bytes, HEADER_LEN. rewrite <- !app_assoc. by read_fields. Qed.

(** What a successful header parse says about the buffer. *)
Lemma parse_frame_bytes input max h :
  parse_header (take HEADER_LEN input) max = Ok h → (HEADER_LEN ≤ length input)%nat →
  let n := Z.to_nat (body_len h) in
  (HEADER_LEN + n ≤ length input)%nat →
  let f := mkFrame h (take n (drop HEADER_LEN input)) in
  frame_wf f ∧ len (body f) ≤ max ∧ input = frame_bytes f ++ drop (HEADER_LEN + n) input.
Proof.
  intros Hp Hl. apply parse_header_Ok in Hp as [(Ht & Hv & Hf & Hb & Hc) Hmax]; [|done].
  intros n Hn f.
  assert (len (body f) = body_len h) as Hbody.
  { unfold f, len. cbn [body]. rewrite length_take, length_drop. zlia. }
  split_and!; [by split_and!|lia|].
  rewrite <- (take_drop HEADER_LEN input) at 1. rewrite Ht. unfold frame_bytes.
  cbn [f header body].
  rewrite <- !app_assoc. do 5 f_equal.
  rewrite <- drop_drop. by rewrite take_drop.
Qed.

#[export] Program Instance frame_codec max (Hmax : 1 ≤ max ≤ u32_max) : WireCodec Frame := {|
  wc_wf := frame_wf;
  wc_encode := encode_whole max;
  wc_decode w := decode_datagram w max
|}.
Next Obligation.
  intros max Hmax f w Hf [Hlen ->]%encode_whole_Ok; [|done..]. unfold decode_datagram.
  pose proof (len_frame_bytes f) as Hfb. pose proof (len_nonneg (body f)).
  rewrite decide_False by (unfold len, HEADER_LEN in *; lia).
  rewrite <- (app_nil_r (frame_bytes f)), frame_layout, frame_bytes_body by (done || lia).
  cbn. rewrite app_nil_r. destruct Hf as (_ & _ & Hb & _).
  rewrite decide_False by (unfold HEADER_LEN; lia). rewrite app_nil_r. by destruct f.
Qed.
Next Obligation.
  intros max Hmax f w. unfold decode_datagram. case_decide; [done|].
  destruct (parse_header _ _) as [h|] eqn:Hp; [|done]. cbn [mbind result_bind].
  case_decide; [done|].
  intros [= <-]. destruct (parse_frame_bytes _ _ _ Hp) as (Hwf & Hlen & Hw).
  { lia. } { unfold len in *. lia. }
  rewrite take_ge in * by (rewrite length_drop; unfold len in *; lia).
  rewrite (drop_ge w (_ + _)), app_nil_r in Hw by (unfold len in *; lia).
  split; [done|]. by apply encode_whole_Ok.
Qed.

(** ** The stream parsers *)

Lemma frame_step_item max buf f rest :
  frame_step max buf = Ok (Some (f, rest)) →
  buf = frame_bytes f ++ rest ∧ frame_wf f ∧ len (body f) ≤ max.
Proof.
  unfold frame_step. case_decide; [done|].
  destruct (parse_header _ _) as [h|] eqn:Hp; [|done]. cbn [mbind result_bind].
  destruct (checked_add _ _ _) as [n|] eqn:Hn; [|done]. cbn [mbind result_bind ok_or].
  case_decide; [done|].
  intros [= <- <-]. apply checked_add_Some in Hn as [-> _].
  assert (in_u32 (body_len h)).
  { apply parse_header_Ok in Hp as [(_ & _ & _ & ? & _) _]; [done|lia]. }
  destruct (parse_frame_bytes _ _ _ Hp) as (Hwf & Hlen & Hw).
  { lia. } { unfold len in *. zlia. }
  replace (Z.to_nat (Z.of_nat HEADER_LEN + body_len h))
    with (HEADER_LEN + Z.to_nat (body_len h))%nat by zlia.
  rewrite skipn_firstn_comm, Nat.add_comm, Nat.add_sub. split_and!; [|done|done]. rewrite Nat.add_comm. exact Hw.
Qed.

Lemma frame_step_bytes max f rest :
  frame_wf f → len (body f) ≤ max → max ≤ u32_max →
  frame_step max (frame_bytes f ++ rest) = Ok (Some (f, rest)).
Proof.
  intros Hf Hlen Hmax. unfold frame_step.
  pose proof (len_frame_bytes f) as Hfb. pose proof (len_nonneg (body f)).
  rewrite decide_False by (rewrite length_app; unfold len, HEADER_LEN in *; lia).
  rewrite frame_layout by done. cbn [mbind result_bind].
  destruct Hf as (_ & _ & Hb & _).
  assert (checked_add usize_max (Z.of_nat HEADER_LEN) (body_len (header f))
    = Some (len (frame_bytes f))) as ->.
  { apply checked_add_Some. unfold HEADER_LEN. zlia. }
  cbn [mbind result_bind ok_or]. pose proof (len_nonneg rest).
  rewrite decide_False by (rewrite len_app; lia).
  unfold len. rewrite Nat2Z.id, take_app_length, drop_app_length.
  pose proof (frame_bytes_body f []) as Hd. rewrite !app_nil_r in Hd. rewrite Hd. by destruct f.
Qed.

#[export] Instance frame_step_parser max : max ≤ u32_max → StreamParser (frame_step max).
Proof.
  intros Hmax. split.
  - intros buf f rest more (-> & Hf & Hl)%frame_step_item.
    rewrite <- app_assoc. by apply frame_step_bytes.
  - intros buf e more. unfold frame_step. case_decide; [done|].
    rewrite decide_False by (rewrite length_app; lia). rewrite take_app_le by lia.
    destruct (parse_header _ _) as [h|]; [|done]. cbn.
    destruct (checked_add _ _ _); [|done]. cbn. by case_decide.
  - intros buf f rest (-> & _)%frame_step_item. pose proof (len_frame_bytes f).
    pose proof (len_nonneg (body f)). rewrite length_app. unfold len in *. lia.
Qed.

Lemma reader_step_item max buf x rest :
  reader_step max buf = Ok (Some (x, rest)) →
  buf = be_encode 4 (len x) ++ x ++ rest ∧ 1 ≤ len x ≤ max ∧ len x ≤ u32_max.
Proof.
  unfold reader_step. case_decide; [done|]. cut_field 4%nat buf pre. read_fields.
  pose proof (be_u32_range pre Lpre) as Hr.
  repeat (case_decide; [done|]). destruct (checked_add _ _ _) as [n|] eqn:Hn; [|done].
  apply checked_add_Some in Hn as [-> _]. cbn [mbind result_bind ok_or].
  case_decide as Hlen; [done|]. intros [= <- <-]. rewrite len_app in Hlen.
  assert (len (take (Z.to_nat (be_decode pre)) buf) = be_decode pre) as Hx.
  { unfold len in *. rewrite length_take, Lpre in *. zlia. }
  rewrite Hx, take_drop, be_encode_decode by done. split; [done|zlia].
Qed.

Lemma reader_step_bytes max x rest :
  1 ≤ len x ≤ max → len x ≤ u32_max →
  reader_step max (be_encode 4 (len x) ++ x ++ rest) = Ok (Some (x, rest)).
Proof.
  intros Hx Hu. unfold reader_step.
  rewrite decide_False by (rewrite length_app, length_be_encode; lia). read_fields.
  rewrite be_u32 by zlia. do 2 (rewrite decide_False by lia).
  assert (checked_add usize_max (len x) 4 = Some (len x + 4)) as ->
    by (apply checked_add_Some; zlia).
  cbn [mbind result_bind ok_or]. pose proof (len_nonneg rest).
  rewrite decide_False by (autorewrite with rnet; lia).
  unfold len. by rewrite Nat2Z.id, take_app_length, drop_app_length.
Qed.

#[export] Instance reader_step_parser max : StreamParser (reader_step max).
Proof.
  split.
  - intros buf x rest more (-> & Hx & Hu)%reader_step_item.
    rewrite <- !app_assoc. by apply reader_step_bytes.
  - intros buf e more. unfold reader_step. case_decide; [done|].
    rewrite (decide_False (P := (length (buf ++ more) < 4)%nat))
      by (rewrite length_app; lia). rewrite take_app_le by lia.
    repeat (case_decide; [done|]). destruct (checked_add _ _ _); [|done]. cbn. by case_decide.
  - intros buf x rest (-> & ? & _)%reader_step_item. rewrite !length_app, length_be_encode. lia.
Qed.

(** Items that parse one after the other. *)
Lemma parses_items {A} (step : list byte → Result (option (A * list byte)))
    (enc : A → list byte) (xs : list A) tail :
  (∀ x rest, x ∈ xs → step (enc x ++ rest) = Ok (Some (x, rest))) → step tail = Ok None →
  parses step (concat (enc <$> xs) ++ tail) xs tail.
Proof.
  intros Henc Htail. induction xs as [|x xs IH]; cbn; [by constructor|].
  rewrite <- app_assoc. econstructor; [apply Henc; set_solver|]. apply IH. set_solver.
Qed.

(** ** Claims *)

(** Pushing the chunks of a stream one after the other, until the first error. *)
Fixpoint push_chunks (c : FrameCodec) (chunks : list (list byte))
    : option (list Frame * Result FrameCodec) :=
  match chunks with
  | [] => Some ([], Ok c)
  | input :: chunks =>
    '(r, c') ← push c input;
    match r with
    | Ok xs => '(ys, r') ← push_chunks c' chunks; Some (xs ++ ys, r')
    | Err e => Some ([], Err e)
    end
  end.

Lemma push_chunks_feed c chunks :
  push_chunks c chunks =
  match feed (frame_step (max_body_len c)) (buffer c) chunks with
  | Some (xs, Ok rest) => Some (xs, Ok (mkFrameCodec (max_body_len c) rest))
  | Some (xs, Err e) => Some (xs, Err e)
  | None => None
  end.
Proof.
  revert c. induction chunks as [|x chunks IH]; intros c; cbn [push_chunks feed].
  { by destruct c. }
  unfold push. destruct (take_all (frame_step (max_body_len c)) (buffer c ++ x))
    as [[[xs|e] rest]|]; [|done..]. cbn [mbind option_bind].
  rewrite IH. cbn [max_body_len buffer].
  by destruct (feed (frame_step (max_body_len c)) rest chunks) as [[ys [r|e]]|].
Qed.

(** The frame of a message. *)
Definition frame_of (m : Z * Z * list byte) : Frame :=
  let '(correlation_id, fl, bdy) := m in mkFrame (mkFrameHeader VERSION fl (len bdy) correlation_id) bdy.
Lemma encode_frame_Ok correlation_id fl bdy max w :
  1 ≤ max ≤ u32_max → in_u64 correlation_id → in_u16 fl → encode_frame correlation_id fl bdy max = Ok w →
  let f := frame_of (correlation_id, fl, bdy) in frame_wf f ∧ len bdy ≤ max ∧ w = frame_bytes f.
Proof.
  intros Hmax Hc Hfl He f. assert (frame_wf f) as Hwf.
  { unfold encode_frame in He. rewrite decide_False in He by lia. destruct (validate_flags fl) as [[]|] eqn:Hf; [|done]. cbn in He. case_decide; [done|].
    unfold validate_flags in Hf. case_decide as Hz; [done|]. change (u16_max - SUPPORTED_FLAGS) with (Z.ones 16) in Hz.
    rewrite Z.land_ones, Z.mod_small in Hz by (unfold in_u16, u16_max in Hfl; lia). split_and!; [done|exact Hz|done|exact Hc]. }
  split; [done|]. by apply (encode_whole_Ok max f).
Qed.

(** C39: However a byte stream is cut into reads, the incremental frame parser returns exactly the
    messages whose encodings were written into it, in order and with their correlation ids and
    flags, and keeps exactly the incomplete tail for the next read. *)
Theorem frame_stream_roundtrip max (messages : list (Z * Z * list byte)) (encoded : list (list byte)) tail chunks :
  1 ≤ max ≤ u32_max →
  Forall2 (λ '(correlation_id, fl, bdy) w, in_u64 correlation_id ∧ in_u16 fl ∧ encode_frame correlation_id fl bdy max = Ok w) messages encoded →
  frame_step max tail = Ok None →
  concat chunks = concat encoded ++ tail →
  ∃ c, frame_codec_new max = Ok c ∧
    push_chunks c chunks = Some (frame_of <$> messages, Ok (mkFrameCodec max tail)).
Proof.
  intros Hmax Hms Htail Hcat. exists (mkFrameCodec max []).
  split. { unfold frame_codec_new. by rewrite decide_False by lia. }
  assert (encoded = frame_bytes <$> (frame_of <$> messages) ∧ Forall (λ f, frame_wf f ∧ len (body f) ≤ max) (frame_of <$> messages)) as [-> Hfs].
  { clear Hcat. induction Hms as [|[[cid fl] bdy] w ms ws (Hc & Hf & He) _ [-> IH]]; [done|].
    destruct (encode_frame_Ok _ _ _ _ _ Hmax Hc Hf He) as (Hwf & Hl & ->). split; [done|]. by constructor. }
  rewrite push_chunks_feed. cbn [max_body_len buffer].
  pose proof (frame_step_parser max ltac:(lia)).
  destruct (feed_chunks (frame_step max) [] chunks) as [Hp _]; [done|].
  rewrite (Hp (frame_of <$> messages) tail); [done|]. cbn. rewrite Hcat. apply parses_items; [|done].
  intros f rest [Hf He]%(proj1 (Forall_forall _ _) Hfs). apply frame_step_bytes; [done..|lia].
Qed.

Lemma frame_stream_roundtrip_witness :
  let w := [Byte.x52; Byte.x4e; Byte.x45; Byte.x54; Byte.x00; Byte.x02; Byte.x00; Byte.x00; Byte.x00; Byte.x00;
            Byte.x00; Byte.x01; Byte.x00; Byte.x00; Byte.x00; Byte.x00; Byte.x00; Byte.x00; Byte.x00; Byte.x09; Byte.x2a] in
  ∃ c, frame_codec_new 16 = Ok c ∧
    push_chunks c [take 7 w; drop 7 w ++ [Byte.x52]] =
      Some ([mkFrame (mkFrameHeader 2 0 1 9) [Byte.x2a]], Ok (mkFrameCodec 16 [Byte.x52])).
Proof.
  intros w. apply (frame_stream_roundtrip 16 [(9, 0, [Byte.x2a])] [w] [Byte.x52]); [zlia| |done|reflexivity].
  apply Forall2_cons. split; [|constructor]. split; [zlia|]. split; [zlia|vm_compute; reflexivity].
Defined.

(** The TCP record reader returns exactly the records that were framed into the
    stream, in order and whatever the read boundaries, for records of one byte up to
    the configured limit; and a stream that violates the framing is reported in every
    cut of the stream, after a prefix of the records before the violation. *)
Theorem record_stream_roundtrip max (rs : list (list byte)) tail chunks :
  Forall (λ r, 1 ≤ len r ≤ max ∧ is_ok (write_framed r) = true) rs →
  concat chunks = concat ((λ r, be_encode 4 (len r) ++ r) <$> rs) ++ tail →
  (reader_step max tail = Ok None →
   feed (reader_step max) [] chunks = Some (rs, Ok tail)) ∧
  (∀ e, reader_step max tail = Err e →
   ∃ ys, feed (reader_step max) [] chunks = Some (ys, Err e) ∧ ys `prefix_of` rs).
Proof.
  intros Hrs Hcat.
  destruct (feed_chunks (reader_step max) [] chunks) as [Hp Hf]; [done|].
  cbn in Hp, Hf. rewrite Hcat in Hp, Hf.
  assert (∀ x rest, x ∈ rs →
    reader_step max ((be_encode 4 (len x) ++ x) ++ rest) = Ok (Some (x, rest))) as Hitem.
  { intros x rest [Hx Hw]%(proj1 (Forall_forall _ _) Hrs). rewrite <- app_assoc.
    apply reader_step_bytes; [done|]. unfold write_framed in Hw. case_decide; [done|lia]. }
  split.
  - intros Htail. apply Hp. by apply parses_items.
  - intros e He. apply (Hf rs e tail).
    clear Hp Hf Hcat Hrs. induction rs as [|x rs IH]; cbn; [by constructor|].
    rewrite <- app_assoc. econstructor; [apply Hitem; set_solver|]. apply IH. set_solver.
Qed.

Lemma record_stream_roundtrip_witness :
  feed (reader_step 8) [] [[Byte.x00; Byte.x00; Byte.x00]; [Byte.x01; Byte.x2a; Byte.x00]]
  = Some ([[Byte.x2a]], Ok [Byte.x00]).
Proof.
  apply (record_stream_roundtrip 8 [[Byte.x2a]] [Byte.x00]); [|done..].
  apply Forall_singleton. by repeat split.
Defined.
