(* ===== verification/Control.v ===== *)
(** * Security records: rnet-protocol [control.rs]

    The outer security record, the protected inner message and the transition
    control, each with its encoder and decoder, as wire formats. *)

From S2P Require Import Prelude Bytes CoreTypes Wire.

Definition REC_MAGIC : Z := 0x524e5332.
Definition REC_VERSION : Z := 1.
Definition REC_HEADER_LEN : nat := 20.
Definition CONTROL_LEN : nat := 10.
Definition PROTECTED_HEADER_LEN : nat := 5.

Definition protocol_error {A} (m : string) : Result A := fail ErrorCode.ProtocolError m.

Module SecurityMode.
Inductive t := Plaintext | Encrypted.
#[global] Instance t_eq_dec : EqDecision t.
Proof. solve_decision. Defined.

Definition to_u8 (m : t) : Z := match m with Plaintext => 1 | Encrypted => 2 end.
Definition try_from (v : Z) : Result t :=
  match v with
  | 1 => Ok Plaintext
  | 2 => Ok Encrypted
  | _ => protocol_error "unknown security mode"
  end.
End SecurityMode.

Module RecordKind.
Inductive t := ClientHello | ServerHello | Handshake | Protected | PlainData | CookieChallenge.
#[global] Instance t_eq_dec : EqDecision t.
Proof. solve_decision. Defined.

Definition to_u8 (k : t) : Z :=
  match k with
  | ClientHello => 1 | ServerHello => 2 | Handshake => 3 | Protected => 4
  | PlainData => 5 | CookieChallenge => 6
  end.
Definition try_from (v : Z) : Result t :=
  match v with
  | 1 => Ok ClientHello
  | 2 => Ok ServerHello
  | 3 => Ok Handshake
  | 4 => Ok Protected
  | 5 => Ok PlainData
  | 6 => Ok CookieChallenge
  | _ => protocol_error "unknown security record kind"
  end.
End RecordKind.

Module ProtectedKind.
Inductive t := AuthDecision | Data | Control | AuthAck | GameControl.
#[global] Instance t_eq_dec : EqDecision t.
Proof. solve_decision. Defined.

Definition to_u8 (k : t) : Z :=
  match k with AuthDecision => 1 | Data => 2 | Control => 3 | AuthAck => 4 | GameControl => 5 end.
Definition try_from (v : Z) : Result t :=
  match v with
  | 1 => Ok AuthDecision
  | 2 => Ok Data
  | 3 => Ok Control
  | 4 => Ok AuthAck
  | 5 => Ok GameControl
  | _ => protocol_error "unknown protected message kind"
  end.
End ProtectedKind.

Module ControlKind.
Inductive t :=
| SwitchPropose | SwitchReady | SwitchCommit | SwitchAck
| RekeyPropose | RekeyReady | RekeyCommit | RekeyAck.
#[global] Instance t_eq_dec : EqDecision t.
Proof. solve_decision. Defined.

Definition to_u8 (k : t) : Z :=
  match k with
  | SwitchPropose => 1 | SwitchReady => 2 | SwitchCommit => 3 | SwitchAck => 4
  | RekeyPropose => 5 | RekeyReady => 6 | RekeyCommit => 7 | RekeyAck => 8
  end.
Definition try_from (v : Z) : Result t :=
  match v with
  | 1 => Ok SwitchPropose
  | 2 => Ok SwitchReady
  | 3 => Ok SwitchCommit
  | 4 => Ok SwitchAck
  | 5 => Ok RekeyPropose
  | 6 => Ok RekeyReady
  | 7 => Ok RekeyCommit
  | 8 => Ok RekeyAck
  | _ => protocol_error "unknown security control kind"
  end.
End ControlKind.

Definition validate_payload_len (payload_len max_payload_len : Z) : Result unit :=
  if decide (payload_len > max_payload_len ∨ payload_len > u32_max) then
    fail ErrorCode.MessageTooLarge "security record payload exceeds configured limit"
  else Ok tt.

(** [u32::try_from]. *)
Definition u32_try_from (n : Z) (m : string) : Result Z :=
  if decide (n ≤ u32_max) then Ok n else fail ErrorCode.MessageTooLarge m.

(** ** Protected messages *)

Record ProtectedMessage := mkProtectedMessage {
  pm_kind : ProtectedKind.t;
  pm_payload : list byte
}.

Definition encode_protected (m : ProtectedMessage) (max_payload_len : Z) : Result (list byte) :=
  _ ← validate_payload_len (len (pm_payload m)) max_payload_len;
  payload_len ← u32_try_from (len (pm_payload m)) "protected message payload exceeds u32";
  Ok ([of_u8 (ProtectedKind.to_u8 (pm_kind m))] ++ be_encode 4 payload_len ++ pm_payload m).

Definition decode_protected (input : list byte) (max_payload_len : Z) : Result ProtectedMessage :=
  if decide (length input < PROTECTED_HEADER_LEN)%nat then
    protocol_error "truncated protected message header" else
  kind ← ProtectedKind.try_from (byte_at 0 input);
  let payload_len := be_decode (slice 1 5 input) in
  _ ← validate_payload_len payload_len max_payload_len;
  expected ← ok_or (checked_add usize_max (Z.of_nat PROTECTED_HEADER_LEN) payload_len)
               (mkRnetError ErrorCode.MessageTooLarge "protected message length overflow");
  if decide (len input ≠ expected) then
    protocol_error "protected message length does not match its payload"
  else Ok (mkProtectedMessage kind (drop PROTECTED_HEADER_LEN input)).

(** ** Outer records *)

Record SecurityRecord := mkRecord {
  rec_kind : RecordKind.t;
  rec_epoch : Z;
  rec_payload : list byte
}.

Definition encode_record (r : SecurityRecord) (max_payload_len : Z) : Result (list byte) :=
  _ ← validate_payload_len (len (rec_payload r)) max_payload_len;
  payload_len ← u32_try_from (len (rec_payload r)) "security record payload exceeds u32";
  Ok (be_encode 4 REC_MAGIC ++ be_encode 2 REC_VERSION ++
      [of_u8 (RecordKind.to_u8 (rec_kind r))] ++ [of_u8 0] ++ be_encode 8 (rec_epoch r) ++
      be_encode 4 payload_len ++ rec_payload r).

Definition decode_record (input : list byte) (max_payload_len : Z) : Result SecurityRecord :=
  if decide (length input < REC_HEADER_LEN)%nat then
    protocol_error "truncated security record header" else
  let magic := be_decode (slice 0 4 input) in
  let version := be_decode (slice 4 6 input) in
  if decide (magic ≠ REC_MAGIC ∨ version ≠ REC_VERSION ∨ byte_at 7 input ≠ 0) then
    protocol_error "invalid security record header" else
  kind ← RecordKind.try_from (byte_at 6 input);
  let epoch := be_decode (slice 8 16 input) in
  let payload_len := be_decode (slice 16 20 input) in
  _ ← validate_payload_len payload_len max_payload_len;
  expected ← ok_or (checked_add usize_max (Z.of_nat REC_HEADER_LEN) payload_len)
               (mkRnetError ErrorCode.MessageTooLarge "security record length overflow");
  if decide (len input ≠ expected) then
    protocol_error "security record length does not match its payload"
  else Ok (mkRecord kind epoch (drop REC_HEADER_LEN input)).

(** ** Transition controls *)

Record Control := mkControl {
  ct_kind : ControlKind.t;
  ct_epoch : Z;
  ct_mode : option SecurityMode.t
}.
#[export] Instance Control_eq_dec : EqDecision Control.
Proof. solve_decision. Defined.

Definition control_switch (k : ControlKind.t) (epoch : Z) (m : SecurityMode.t) : Control :=
  mkControl k epoch (Some m).
Definition control_barrier (k : ControlKind.t) (epoch : Z) : Control :=
  mkControl k epoch None.

Definition encode_control (c : Control) : list byte :=
  [of_u8 (ControlKind.to_u8 (ct_kind c))] ++
  [of_u8 (match ct_mode c with Some m => SecurityMode.to_u8 m | None => 0 end)] ++
  be_encode 8 (ct_epoch c).

Definition decode_control (input : list byte) : Result Control :=
  if decide (length input ≠ CONTROL_LEN) then
    protocol_error "invalid security control length" else
  kind ← ControlKind.try_from (byte_at 0 input);
  let epoch := be_decode (slice 2 10 input) in
  if decide (epoch = 0) then protocol_error "security transition epoch must be nonzero" else
  mode ← match kind with
         | ControlKind.SwitchPropose =>
           m ← SecurityMode.try_from (byte_at 1 input); Ok (Some m)
         | _ =>
           if decide (byte_at 1 input = 0) then Ok None
           else protocol_error "unexpected mode in security transition barrier"
         end;
  Ok (mkControl kind epoch mode).

(** ** Enumerations *)

#[export] Instance security_mode_u8 : U8Enum SecurityMode.to_u8 SecurityMode.try_from.
Proof. solve_u8_enum. Qed.
#[export] Instance record_kind_u8 : U8Enum RecordKind.to_u8 RecordKind.try_from.
Proof. solve_u8_enum. Qed.
#[export] Instance protected_kind_u8 : U8Enum ProtectedKind.to_u8 ProtectedKind.try_from.
Proof. solve_u8_enum. Qed.
#[export] Instance control_kind_u8 : U8Enum ControlKind.to_u8 ControlKind.try_from.
Proof. solve_u8_enum. Qed.

(** ** The formats as [WireCodec]s *)

Lemma validate_payload_len_Ok n max u :
  validate_payload_len n max = Ok u ↔ n ≤ max ∧ n ≤ u32_max.
Proof. unfold validate_payload_len. destruct u. case_decide; naive_solver lia. Qed.

Lemma u32_try_from_Ok n m z : u32_try_from n m = Ok z ↔ z = n ∧ n ≤ u32_max.
Proof. unfold u32_try_from. case_decide; naive_solver. Qed.

Definition protected_bytes (m : ProtectedMessage) : list byte :=
  [of_u8 (ProtectedKind.to_u8 (pm_kind m))] ++ be_encode 4 (len (pm_payload m)) ++ pm_payload m.

Lemma encode_protected_Ok m max w :
  encode_protected m max = Ok w ↔
  len (pm_payload m) ≤ max ∧ len (pm_payload m) ≤ u32_max ∧ w = protected_bytes m.
Proof.
  unfold encode_protected, validate_payload_len, u32_try_from, protected_bytes.
  repeat (case_decide; cbn); naive_solver lia.
Qed.

Lemma decode_protected_Ok w max m :
  decode_protected w max = Ok m ↔
  len (pm_payload m) ≤ max ∧ len (pm_payload m) ≤ u32_max ∧ w = protected_bytes m.
Proof.
  unfold decode_protected, PROTECTED_HEADER_LEN, protected_bytes. split.
  - case_decide; [done|]. destruct w as [|b w]; [cbn in *; lia|]. cbn [length] in *.
    cut_field 4%nat w l. read_fields.
    destruct (ProtectedKind.try_from _) as [k|] eqn:Hk; [|done]. apply (ue_byte ProtectedKind.to_u8 ProtectedKind.try_from) in Hk as ->.
    cbn [mbind result_bind]. destruct (validate_payload_len _ _) as [u|] eqn:Hv; [|done].
    apply validate_payload_len_Ok in Hv. cbn [mbind result_bind].
    destruct (checked_add _ _ _) as [n|] eqn:Hn; [|done].
    apply checked_add_Some in Hn as [-> _]. cbn [mbind result_bind ok_or].
    case_decide as Hlen; [done|]. intros [= <-]. cbn [pm_payload pm_kind].
    assert (len w = be_decode l) as Hw.
    { rewrite len_cons, len_app in Hlen. unfold len in *. lia. }
    rewrite Hw, be_encode_decode by done. split; [lia|]. split; [lia|done].
  - intros (Hmax & H32 & ->). pose proof (len_nonneg (pm_payload m)).
    rewrite decide_False by lens. read_fields.
    rewrite (ue_write ProtectedKind.to_u8 ProtectedKind.try_from). cbn [mbind result_bind]. rewrite be_u32 by zlia.
    rewrite (proj2 (validate_payload_len_Ok _ _ tt)) by done. cbn [mbind result_bind].
    rewrite (proj2 (checked_add_Some _ _ _ _)) by (split; [reflexivity|zlia]).
    cbn [mbind result_bind ok_or]. rewrite decide_False by (autorewrite with rnet; lia).
    by destruct m.
Qed.

#[export] Program Instance protected_codec max : WireCodec ProtectedMessage := {|
  wc_wf m := True;
  wc_encode m := encode_protected m max;
  wc_decode w := decode_protected w max
|}.
Next Obligation. intros max m w _ ?%encode_protected_Ok. by apply decode_protected_Ok. Qed.
Next Obligation.
  intros max m w ?%decode_protected_Ok. split; [done|]. by apply encode_protected_Ok.
Qed.

Definition record_bytes (r : SecurityRecord) : list byte :=
  be_encode 4 REC_MAGIC ++ be_encode 2 REC_VERSION ++
  [of_u8 (RecordKind.to_u8 (rec_kind r))] ++ [of_u8 0] ++ be_encode 8 (rec_epoch r) ++
  be_encode 4 (len (rec_payload r)) ++ rec_payload r.

Lemma encode_record_Ok r max w :
  encode_record r max = Ok w ↔
  len (rec_payload r) ≤ max ∧ len (rec_payload r) ≤ u32_max ∧ w = record_bytes r.
Proof.
  unfold encode_record, validate_payload_len, u32_try_from, record_bytes.
  repeat (case_decide; cbn); naive_solver lia.
Qed.

Lemma decode_record_Ok w max r :
  decode_record w max = Ok r ↔
  in_u64 (rec_epoch r) ∧ len (rec_payload r) ≤ max ∧ len (rec_payload r) ≤ u32_max ∧
  w = record_bytes r.
Proof.
  unfold decode_record, REC_HEADER_LEN, record_bytes. split.
  - case_decide; [done|]. cut_field 4%nat w f0. cut_field 2%nat w f1.
    cut_field 1%nat w f2. cut_field 1%nat w f3. cut_field 8%nat w f4. cut_field 4%nat w f5.
    destruct f2 as [|b2 [|]]; try done. destruct f3 as [|b3 [|]]; try done.
    read_fields. case_decide as Hhdr; [done|].
    destruct (RecordKind.try_from _) as [k|] eqn:Hk; [|done]. apply (ue_byte RecordKind.to_u8 RecordKind.try_from) in Hk as ->.
    cbn [mbind result_bind]. destruct (validate_payload_len _ _) as [u|] eqn:Hv; [|done].
    apply validate_payload_len_Ok in Hv. cbn [mbind result_bind].
    destruct (checked_add _ _ _) as [n|] eqn:Hn; [|done].
    apply checked_add_Some in Hn as [-> _]. cbn [mbind result_bind ok_or].
    case_decide as Hlen; [done|]. intros [= <-]. cbn [rec_payload rec_kind rec_epoch].
    assert (len w = be_decode f5) as Hw.
    { autorewrite with rnet in Hlen. unfold len in *. lia. }
    assert (be_decode f0 = REC_MAGIC ∧ be_decode f1 = REC_VERSION ∧ to_u8 b3 = 0)
      as (<- & <- & <-) by lia.
    rewrite Hw, of_to_u8, !be_encode_decode by done.
    split_and!; [by apply be_u64_range|lia|lia|done].
  - intros (Hep & Hmax & H32 & ->). pose proof (len_nonneg (rec_payload r)).
    rewrite decide_False by lens. read_fields.
    rewrite be_u16, !be_u32, be_u64, (to_of_u8 0) by (done || zlia).
    rewrite decide_False by naive_solver. rewrite (ue_write RecordKind.to_u8 RecordKind.try_from). cbn [mbind result_bind].
    rewrite (proj2 (validate_payload_len_Ok _ _ tt)) by done. cbn [mbind result_bind].
    rewrite (proj2 (checked_add_Some _ _ _ _)) by (split; [reflexivity|zlia]).
    cbn [mbind result_bind ok_or]. rewrite decide_False by (autorewrite with rnet; lia).
    by destruct r.
Qed.

#[export] Program Instance record_codec max : WireCodec SecurityRecord := {|
  wc_wf r := in_u64 (rec_epoch r);
  wc_encode r := encode_record r max;
  wc_decode w := decode_record w max
|}.
Next Obligation. intros max r w ? ?%encode_record_Ok. by apply decode_record_Ok. Qed.
Next Obligation.
  intros max r w [? ?]%decode_record_Ok. split; [done|]. by apply encode_record_Ok.
Qed.

(** Controls that may be sent: a nonzero epoch, and a mode exactly on a proposal. *)
Definition control_wf (c : Control) : Prop :=
  0 < ct_epoch c ≤ u64_max ∧
  (is_Some (ct_mode c) ↔ ct_kind c = ControlKind.SwitchPropose).

Lemma decode_control_Ok w c :
  decode_control w = Ok c ↔ control_wf c ∧ w = encode_control c.
Proof.
  unfold decode_control, CONTROL_LEN, encode_control. split.
  - case_decide; [done|]. destruct w as [|b0 [|b1 w]]; try (cbn in *; lia).
    assert (length w = 8%nat) as Hl by (cbn in *; lia). read_fields.
    assert (slice 0 8 w = w) as -> by (unfold slice; rewrite drop_0; by apply take_ge; lia).
    destruct (ControlKind.try_from _) as [k|] eqn:Hk; [|done]. apply (ue_byte ControlKind.to_u8 ControlKind.try_from) in Hk as ->.
    cbn [mbind result_bind]. case_decide; [done|]. pose proof (be_u64_range w Hl).
    destruct (match k with ControlKind.SwitchPropose => _ | _ => _ end) as [mo|] eqn:Hm; [|done].
    cbn [mbind result_bind]. intros [= <-]. unfold control_wf. cbn [ct_mode ct_kind ct_epoch].
    rewrite be_encode_decode by done.
    assert ((is_Some mo ↔ k = ControlKind.SwitchPropose) ∧
      b1 = of_u8 (match mo with Some m => SecurityMode.to_u8 m | None => 0 end)) as [? ->].
    { destruct (decide (k = ControlKind.SwitchPropose)) as [->|].
      - destruct (SecurityMode.try_from _) as [m|] eqn:Hm'; [|done].
        apply (ue_byte SecurityMode.to_u8 SecurityMode.try_from) in Hm' as ->. cbn in Hm. simplify_eq. done.
      - assert (mo = None ∧ to_u8 b1 = 0) as [-> <-]
          by (destruct k; try done; case_decide; simplify_eq/=; done).
        rewrite of_to_u8. split; [|done]. split; [by intros []|done]. }
    split; [|done]. split; [zlia|done].
  - intros [[Hep Hmode] ->]. rewrite decide_False by (lens; auto). read_fields.
    rewrite <- (app_nil_r (be_encode 8 _)). read_fields. rewrite be_u64 by zlia.
    rewrite (ue_write ControlKind.to_u8 ControlKind.try_from). cbn [mbind result_bind].
    rewrite decide_False by lia.
    destruct c as [k ep [m|]]; cbn [ct_kind ct_mode ct_epoch] in *.
    + rewrite (proj1 Hmode) by eauto.
      by rewrite (ue_write SecurityMode.to_u8 SecurityMode.try_from).
    + rewrite to_of_u8 by zlia. destruct k; try done.
      by destruct (proj2 Hmode eq_refl).
Qed.

#[export] Program Instance control_codec : WireCodec Control := {|
  wc_wf := control_wf;
  wc_encode c := Ok (encode_control c);
  wc_decode := decode_control
|}.
Next Obligation. intros c w ? [= <-]. by apply decode_control_Ok. Qed.
Next Obligation. intros c w [? ->]%decode_control_Ok. done. Qed.

(** ** Claims *)

(** C40: The three security formats are canonical: a decoder accepts a byte string
    exactly when it is the encoding of a well-formed value within the limits, and
    then returns that value.  In particular no two byte strings decode to the same
    record and no malformed, truncated or extended input is accepted. *)
Theorem security_formats_canonical :
  (∀ max w r, decode_record w max = Ok r ↔ in_u64 (rec_epoch r) ∧ encode_record r max = Ok w) ∧
  (∀ max w m, decode_protected w max = Ok m ↔ encode_protected m max = Ok w) ∧
  (∀ w c, decode_control w = Ok c ↔ control_wf c ∧ encode_control c = w).
Proof.
  split_and!.
  - intros max w r. apply (wire_iff (H := record_codec max)).
  - intros max w m. etrans; [apply (wire_iff (H := protected_codec max))|]. cbn. naive_solver.
  - intros w c. etrans; [apply (wire_iff (H := control_codec))|]. cbn. naive_solver.
Qed.
