(* ===== verification/Security.v ===== *)
(** * Record protection: rnet-security [lib.rs]

    The Noise library is a parameter: a transport cipher is a sending half and a
    receiving half with the documented behaviour that what one half writes the
    matching half reads.  On top of it, as in the source, are the ordered
    [SecureTransport], the datagram transport with explicit nonces and its
    64-position replay window, and the pin check of the client handshake. *)

From S2P Require Import Prelude Bytes CoreTypes.

Inductive SecurityError := PeerKeyMismatch | InvalidState | Crypto | ReplayDetected.
#[export] Instance SecurityError_eq_dec : EqDecision SecurityError.
Proof. solve_decision. Defined.

Abbreviation SResult := (result SecurityError).

(** ** Replay window *)

Module Replay.
Record ReplayWindow := mkReplayWindow {
  highest : option Z;
  bitmap : Z
}.

Definition default : ReplayWindow := mkReplayWindow None 0.

(** [bitmap & (1_u64 << distance) != 0]. *)
Definition bit_set (w : ReplayWindow) (distance : Z) : bool :=
  bool_decide (Z.land (bitmap w) (Z.shiftl 1 distance) ≠ 0).

Definition contains (w : ReplayWindow) (nonce : Z) : bool :=
  match highest w with
  | None => false
  | Some hi =>
    if decide (nonce > hi) then false
    else let distance := hi - nonce in
         bool_decide (64 ≤ distance) || bit_set w distance
  end.

(** [bitmap << distance] drops the bits shifted past the top of the [u64]. *)
Definition insert (w : ReplayWindow) (nonce : Z) : SResult unit * ReplayWindow :=
  match highest w with
  | None => (Ok tt, mkReplayWindow (Some nonce) 1)
  | Some hi =>
    if decide (nonce > hi) then
      let distance := nonce - hi in
      let bm := if decide (64 ≤ distance) then 1
                else Z.lor (Z.land (Z.shiftl (bitmap w) distance) u64_max) 1 in
      (Ok tt, mkReplayWindow (Some nonce) bm)
    else
      let distance := hi - nonce in
      if decide (64 ≤ distance ∨ bit_set w distance = true) then (Err ReplayDetected, w)
      else (Ok tt, mkReplayWindow (Some hi) (Z.lor (bitmap w) (Z.shiftl 1 distance)))
  end.

(** ** Specification: the set of nonces ever accepted *)

Record represents (w : ReplayWindow) (seen : gset Z) : Prop := {
  rp_bits : ∀ d, 0 ≤ d → Z.testbit (bitmap w) d = true →
    d < 64 ∧ ∃ hi, highest w = Some hi ∧ hi - d ∈ seen;
  rp_highest : ∀ hi, highest w = Some hi → hi ∈ seen;
  rp_seen : ∀ n, n ∈ seen → ∃ hi, highest w = Some hi ∧ n ≤ hi ∧
    (hi - n < 64 → Z.testbit (bitmap w) (hi - n) = true)
}.

(** Too old to be tracked. *)
Definition expired (w : ReplayWindow) (n : Z) : Prop :=
  match highest w with Some hi => 64 ≤ hi - n | None => False end.

Lemma bit_set_spec w d : 0 ≤ d → bit_set w d = Z.testbit (bitmap w) d.
Proof.
  intros Hd. unfold bit_set. apply eq_true_iff_eq.
  rewrite bool_decide_eq_true. by apply land_bit_nonzero.
Qed.

Lemma represents_default : represents default ∅.
Proof. split; [|done|set_solver]. intros d _. cbn. by rewrite Z.bits_0. Qed.

Lemma contains_spec w seen n :
  represents w seen → contains w n = true ↔ n ∈ seen ∨ expired w n.
Proof.
  intros [Hb _ Hs]. unfold contains, expired. destruct (highest w) as [hi|] eqn:Hhi.
  2:{ split; [done|]. intros [(? & ? & _)%Hs|[]]. congruence. }
  case_decide.
  { split; [done|]. intros [(? & [= <-] & ? & _)%Hs|?]; lia. }
  rewrite orb_true_iff, bool_decide_eq_true, bit_set_spec by lia. split.
  - intros [?|(_ & ? & [= <-] & Hin)%Hb]; [right; lia| |lia].
    replace (hi - (hi - n)) with n in Hin by lia. by left.
  - intros [(? & [= <-] & ? & Hbit)%Hs|?]; [|left; lia].
    destruct (decide (hi - n < 64)); [right; auto|left; lia].
Qed.

Lemma insert_advance w seen hi n bm :
  represents w seen → highest w = Some hi → hi < n →
  (∀ d, 0 ≤ d → Z.testbit bm d = (d =? 0) || ((d <? 64) && Z.testbit (bitmap w) (d - (n - hi)))) →
  represents (mkReplayWindow (Some n) bm) ({[n]} ∪ seen).
Proof.
  intros [Hb _ Hs] Hhi Hn Hbm. split; cbn; [|set_solver|].
  - intros d Hd. rewrite Hbm by done. intros [->%Z.eqb_eq|[?%Z.ltb_lt Ht]%andb_true_iff]%orb_true_iff.
    { split; [lia|]. exists n. split; [done|]. rewrite Z.sub_0_r. set_solver. }
    split; [lia|]. exists n. split; [done|].
    assert (0 ≤ d - (n - hi)) as Hpos.
    { destruct (decide (0 ≤ d - (n - hi))); [done|]. by rewrite Z.testbit_neg_r in Ht by lia. }
    destruct (Hb _ Hpos Ht) as (_ & hi' & ? & Hin). simplify_eq.
    replace (hi - (d - (n - hi))) with (n - d) in Hin by lia. set_solver.
  - intros m [->%elem_of_singleton|(hi' & ? & ? & Hbit)%Hs]%elem_of_union;
      exists n; (split; [done|]); simplify_eq; (split; [lia|]); intros; rewrite Hbm by lia.
    + by rewrite Z.sub_diag.
    + apply orb_true_iff. right. apply andb_true_iff. split; [apply Z.ltb_lt; lia|].
      replace (n - m - (n - hi)) with (hi - m) by lia. apply Hbit. lia.
Qed.

Lemma insert_spec w seen n :
  represents w seen →
  let '(r, w') := insert w n in
  (n ∈ seen ∨ expired w n → r = Err ReplayDetected ∧ w' = w) ∧
  (¬ (n ∈ seen ∨ expired w n) → r = Ok tt ∧ represents w' ({[n]} ∪ seen)).
Proof.
  intros Hr. pose proof (contains_spec w seen n Hr) as Hc.
  unfold insert, contains in *. unfold expired in *. destruct (highest w) as [hi|] eqn:Hhi.
  2:{ split; [naive_solver|]. intros _. split; [done|]. split; cbn; [|set_solver|].
      - intros d Hd. rewrite testbit_one by done. intros ->%Z.eqb_eq.
        split; [lia|]. exists n. split; [done|]. rewrite Z.sub_0_r. set_solver.
      - intros m [->%elem_of_singleton|(? & ? & _)%(rp_seen _ _ Hr)]%elem_of_union; [|congruence].
        exists n. split; [done|]. split; [lia|]. by rewrite Z.sub_diag. }
  case_decide as Hgt.
  - split; [naive_solver|]. intros _. split; [done|].
    apply (insert_advance w seen hi); [done..|lia|]. intros d Hd. case_decide.
    + rewrite testbit_one by done. symmetry. destruct (Z.ltb_spec d 64); cbn; [|apply orb_false_r].
      rewrite Z.testbit_neg_r by lia. apply orb_false_r.
    + apply testbit_advanced; lia.
  - rewrite orb_true_iff, bool_decide_eq_true in Hc. case_decide as Hold; [naive_solver|].
    split; [naive_solver|]. intros Hnew. split; [done|]. destruct Hr as [Hb Hh Hs].
    assert (∀ d, 0 ≤ d → Z.testbit (Z.lor (bitmap w) (Z.shiftl 1 (hi - n))) d
      = Z.testbit (bitmap w) d || (d =? hi - n)) as Hbm.
    { intros d Hd. rewrite Z.lor_spec, Z.shiftl_1_l, Z.pow2_bits_eqb by lia.
      by rewrite Z.eqb_sym. }
    split; cbn; [|set_solver|].
    + intros d Hd. rewrite Hbm by done. intros [?%Hb| ->%Z.eqb_eq]%orb_true_iff; [|done|].
      * naive_solver set_solver.
      * split; [lia|]. exists hi. split; [done|].
        replace (hi - (hi - n)) with n by lia. set_solver.
    + intros m [->%elem_of_singleton|(hi' & ? & ? & Hbit)%Hs]%elem_of_union;
        exists hi; (split; [done|]); simplify_eq; (split; [lia|]);
        intros; rewrite Hbm by lia; apply orb_true_iff; [right; apply Z.eqb_refl|left; auto].
Qed.
End Replay.

(** ** Datagram transport *)

(** The stateless Noise transport cipher: encryption under an explicit nonce. *)
Class StatelessCipher := {
  sc_out : Type;
  sc_in : Type;
  sc_write : sc_out → Z → list byte → option (list byte);
  sc_read : sc_in → Z → list byte → option (list byte);
  sc_rekey_out : sc_out → sc_out;
  sc_rekey_in : sc_in → sc_in
}.

(** Its documented behaviour: a half reads what the matching half wrote under the
    same nonce, a tag of 16 bytes is added, and rekeying both sides keeps them
    matched. *)
Class StatelessCipherLaws `{StatelessCipher} (paired : sc_out → sc_in → Prop) := {
  sc_read_write o i n m c : paired o i → sc_write o n m = Some c → sc_read i n c = Some m;
  sc_write_len o n m c : sc_write o n m = Some c → len c = len m + 16;
  sc_rekey_paired o i : paired o i → paired (sc_rekey_out o) (sc_rekey_in i)
}.

Module Datagram.
Section datagram.
Context `{StatelessCipher}.

Record DatagramTransport := mkDatagramTransport {
  dt_out : sc_out;
  dt_in : sc_in;
  send_nonce : Z;
  replay : Replay.ReplayWindow
}.

(** The transport of [finish_datagram]. *)
Definition fresh (o : sc_out) (i : sc_in) : DatagramTransport :=
  mkDatagramTransport o i 0 Replay.default.

Definition rekey_outgoing (t : DatagramTransport) : DatagramTransport :=
  mkDatagramTransport (sc_rekey_out (dt_out t)) (dt_in t) 0 (replay t).

Definition rekey_incoming (t : DatagramTransport) : DatagramTransport :=
  mkDatagramTransport (dt_out t) (sc_rekey_in (dt_in t)) (send_nonce t) Replay.default.

Definition with_nonce (t : DatagramTransport) (n : Z) : DatagramTransport :=
  mkDatagramTransport (dt_out t) (dt_in t) n (replay t).

Definition with_replay (t : DatagramTransport) (w : Replay.ReplayWindow) : DatagramTransport :=
  mkDatagramTransport (dt_out t) (dt_in t) (send_nonce t) w.

Definition encrypt (t : DatagramTransport) (plaintext : list byte)
    : SResult (list byte) * DatagramTransport :=
  let nonce := send_nonce t in
  match checked_add u64_max nonce 1 with
  | None => (Err InvalidState, t)
  | Some next =>
    let t' := with_nonce t next in
    match sc_write (dt_out t) nonce plaintext with
    | Some c => (Ok (be_encode 8 nonce ++ c), t')
    | None => (Err Crypto, t')
    end
  end.

Definition decrypt (t : DatagramTransport) (record : list byte)
    : SResult (list byte) * DatagramTransport :=
  if decide (len record < 24) then (Err Crypto, t) else
  let nonce := be_decode (take 8 record) in
  if Replay.contains (replay t) nonce then (Err ReplayDetected, t) else
  match sc_read (dt_in t) nonce (drop 8 record) with
  | None => (Err Crypto, t)
  | Some plaintext =>
    let '(r, w) := Replay.insert (replay t) nonce in
    match r with
    | Ok _ => (Ok plaintext, with_replay t w)
    | Err e => (Err e, with_replay t w)
    end
  end.

(** ** Histories *)

(** Receiving records one after the other; what was accepted, with its nonce. *)
Fixpoint receive_all (t : DatagramTransport) (records : list (list byte))
    : list (Z * list byte) * DatagramTransport :=
  match records with
  | [] => ([], t)
  | r :: records =>
    let '(res, t1) := decrypt t r in
    let '(acc, t2) := receive_all t1 records in
    (match res with Ok m => (be_decode (take 8 r), m) :: acc | Err _ => acc end, t2)
  end.

(** Encrypting messages one after the other. *)
Fixpoint send_all (t : DatagramTransport) (ms : list (list byte))
    : list (SResult (list byte)) * DatagramTransport :=
  match ms with
  | [] => ([], t)
  | m :: ms =>
    let '(r, t1) := encrypt t m in
    let '(rs, t2) := send_all t1 ms in
    (r :: rs, t2)
  end.

(** One record: refused without any change, or accepted and recorded as seen. *)
Lemma decrypt_spec t record seen :
  Replay.represents (replay t) seen →
  let n := be_decode (take 8 record) in
  match decrypt t record with
  | (Ok m, t') => 24 ≤ len record ∧ (n ∉ seen) ∧ ¬ Replay.expired (replay t) n ∧
      sc_read (dt_in t) n (drop 8 record) = Some m ∧
      dt_in t' = dt_in t ∧ dt_out t' = dt_out t ∧ send_nonce t' = send_nonce t ∧
      Replay.represents (replay t') ({[n]} ∪ seen)
  | (Err e, t') => t' = t ∧
      (len record < 24 ∨ n ∈ seen ∨ Replay.expired (replay t) n ∨
       sc_read (dt_in t) n (drop 8 record) = None) ∧
      (e = ReplayDetected ↔ 24 ≤ len record ∧ (n ∈ seen ∨ Replay.expired (replay t) n))
  end.
Proof.
  intros Hr n. unfold decrypt. fold n. case_decide.
  { split; [done|]. split; [by left|]. split; [done|]. naive_solver lia. }
  pose proof (Replay.contains_spec _ _ n Hr) as Hc.
  destruct (Replay.contains _ _).
  { split; [done|]. split; [naive_solver|]. naive_solver lia. }
  assert (¬ (n ∈ seen ∨ Replay.expired (replay t) n)) as Hnew by naive_solver.
  destruct (sc_read _ _ _) as [m|].
  2:{ split; [done|]. split; [by auto|]. split; [done|]. naive_solver. }
  pose proof (Replay.insert_spec _ _ n Hr) as Hi.
  destruct (Replay.insert _ _) as [r w]. destruct Hi as [_ Hi].
  destruct (Hi Hnew) as [-> Hw]. split_and!; [lia|naive_solver..|done].
Qed.

Lemma receive_all_spec t records seen acc t' :
  Replay.represents (replay t) seen → receive_all t records = (acc, t') →
  Replay.represents (replay t') (list_to_set (acc.*1) ∪ seen) ∧
  NoDup acc.*1 ∧ (∀ n, n ∈ acc.*1 → n ∉ seen) ∧
  dt_in t' = dt_in t ∧
  (∀ n m, (n, m) ∈ acc → ∃ r, r ∈ records ∧ be_decode (take 8 r) = n ∧
     sc_read (dt_in t) n (drop 8 r) = Some m).
Proof.
  revert t seen acc. induction records as [|r records IH]; intros t seen acc Hr; cbn.
  { intros [= <- <-]. split_and!; cbn; [|constructor|set_solver..].
    by replace (∅ ∪ seen) with seen by set_solver. }
  pose proof (decrypt_spec t r seen Hr) as Hd.
  destruct (decrypt t r) as [[m|e] t1]; destruct (receive_all t1 records) as [acc1 t2] eqn:Hrec;
    intros [= <- <-].
  - destruct Hd as (_ & Hn & _ & Hread & Hin & _ & _ & Hr1).
    destruct (IH _ _ _ Hr1 Hrec) as (Hrep & Hnd & Hfresh & Hin2 & Horig). cbn. split_and!.
    + by replace ({[be_decode (take 8 r)]} ∪ list_to_set (acc1.*1) ∪ seen)
        with (list_to_set (acc1.*1) ∪ ({[be_decode (take 8 r)]} ∪ seen)) by set_solver.
    + constructor; [set_solver|done].
    + set_solver.
    + congruence.
    + intros n m' [[= -> ->]|Hacc]%elem_of_cons; [by exists r; split; [set_solver|]|].
      destruct (Horig _ _ Hacc) as (r' & ? & ? & ?). exists r'.
      rewrite Hin in *. split; [set_solver|done].
  - destruct Hd as (-> & _). destruct (IH _ _ _ Hr Hrec) as (? & ? & ? & ? & Horig).
    split_and!; try done. intros n m Hacc. destruct (Horig _ _ Hacc) as (r' & ? & ?).
    exists r'. split; [set_solver|done].
Qed.

(** Every call of a sender uses the next nonce, also when encryption fails. *)
Lemma send_all_spec t ms rs t' i r :
  send_all t ms = (rs, t') → rs !! i = Some (Ok r) →
  let n := send_nonce t + Z.of_nat i in
  ∃ m c, ms !! i = Some m ∧ n < u64_max ∧
    sc_write (dt_out t) n m = Some c ∧ r = be_encode 8 n ++ c.
Proof.
  revert t rs i. induction ms as [|m ms IH]; intros t rs i; cbn; [by intros [= <- _]|].
  destruct (encrypt t m) as [res t1] eqn:He.
  destruct (send_all t1 ms) as [rs1 t2] eqn:Hs. intros [= <- <-].
  unfold encrypt in He. destruct (checked_add _ _ _) as [next|] eqn:Hn.
  - apply checked_add_Some in Hn as [-> Hn].
    assert (t1 = with_nonce t (send_nonce t + 1)) as -> by (by case_match; simplify_eq).
    destruct i as [|i]; cbn.
    + rewrite Z.add_0_r. intros [= ->]. destruct (sc_write _ _ _) as [c|] eqn:Hc; simplify_eq.
      exists m, c. split_and!; [done|lia|done|done].
    + intros Hi. destruct (IH _ _ _ Hs Hi) as (m' & c & ? & ? & Hw & ->). cbn in *.
      replace (send_nonce t + Z.of_nat (S i)) with (send_nonce t + 1 + Z.of_nat i) by lia.
      eauto 10.
  - apply checked_add_None in Hn. simplify_eq. destruct i as [|i]; cbn; [done|].
    intros Hi. destruct (IH _ _ _ Hs Hi) as (_ & _ & _ & ? & _). lia.
Qed.

(** Records arrive within the window: none is 64 or more behind one before it. *)
Fixpoint in_window (records : list (list byte)) : Prop :=
  match records with
  | [] => True
  | p :: records =>
    Forall (λ r, be_decode (take 8 p) - be_decode (take 8 r) < 64) records ∧ in_window records
  end.

Lemma in_window_app pre r post p :
  in_window (pre ++ r :: post) → p ∈ pre → be_decode (take 8 p) - be_decode (take 8 r) < 64.
Proof.
  induction pre as [|x pre IH]; [set_solver|]. cbn. rewrite Forall_app, Forall_cons.
  intros ((_ & ? & _) & ?) [->|]%elem_of_cons; auto.
Qed.

(** Every record that opens and is in the window is accepted on its first arrival. *)
Lemma receive_all_accepts t pre records seen acc t' :
  Replay.represents (replay t) seen →
  (∀ n, n ∈ seen → ∃ p, p ∈ pre ∧ be_decode (take 8 p) = n) →
  in_window (pre ++ records) →
  (∀ r, r ∈ records → 24 ≤ len r ∧ is_Some (sc_read (dt_in t) (be_decode (take 8 r)) (drop 8 r))) →
  receive_all t records = (acc, t') →
  ∀ r, r ∈ records → be_decode (take 8 r) ∈ acc.*1 ∨ be_decode (take 8 r) ∈ seen.
Proof.
  revert t pre seen acc. induction records as [|x records IH];
    intros t pre seen acc Hr Hseen Hwin Hopen Hrec r Hin; [set_solver|].
  cbn in Hrec. pose proof (decrypt_spec t x seen Hr) as Hd.
  destruct (decrypt t x) as [[m|e] t1]; destruct (receive_all t1 records) as [acc1 t2] eqn:Hrec1;
    simplify_eq.
  - destruct Hd as (_ & _ & _ & _ & Hti & _ & _ & Hr1).
    apply elem_of_cons in Hin as [->|Hin]; [left; cbn; set_solver|]. cbn.
    destruct (IH t1 (pre ++ [x]) _ acc1 Hr1) with (r := r) as [?|?]; [..|set_solver|set_solver].
    + intros n [->%elem_of_singleton|(p & ? & ?)%Hseen]%elem_of_union; [exists x|exists p]; set_solver.
    + by rewrite <- app_assoc.
    + rewrite Hti. intros r' Hr'. apply Hopen. set_solver.
    + done.
    + done.
  - destruct Hd as (-> & Hwhy & _).
    assert (be_decode (take 8 x) ∈ seen) as Hx.
    { destruct (Hopen x) as [? [m Hm]]; [set_solver|].
      destruct Hwhy as [?|[?|[Hexp|?]]]; [lia|done| |congruence].
      unfold Replay.expired in Hexp. destruct (Replay.highest _) as [hi|] eqn:Hhi; [|done].
      destruct (Hseen _ (Replay.rp_highest _ _ Hr _ Hhi)) as (p & Hp & Hpn).
      pose proof (in_window_app _ _ _ _ Hwin Hp). lia. }
    apply elem_of_cons in Hin as [->|Hin]; [by right|].
    apply (IH t (pre ++ [x]) seen acc Hr); try done.
    + intros n (p & ? & ?)%Hseen. exists p. set_solver.
    + by rewrite <- app_assoc.
    + intros r' Hr'. apply Hopen. set_solver.
Qed.

(** C19: A receiver starting with an empty window accepts each nonce at most once,
    whatever records arrive and in whatever order, replays and forgeries included;
    everything it accepts was authenticated by the cipher under its nonce; and a
    record it refuses (truncated, replayed, expired or not authentic) leaves the
    transport, window included, exactly as it was. *)
Theorem datagram_replay_protection o i records acc t' :
  receive_all (fresh o i) records = (acc, t') →
  NoDup acc.*1 ∧
  (∀ n m, (n, m) ∈ acc → ∃ r, r ∈ records ∧ be_decode (take 8 r) = n ∧
     sc_read i n (drop 8 r) = Some m) ∧
  (∀ r e t'', decrypt t' r = (Err e, t'') → t'' = t') ∧
  (∀ r m t'', decrypt t' r = (Ok m, t'') → be_decode (take 8 r) ∉ acc.*1).
Proof.
  intros Hrec. destruct (receive_all_spec (fresh o i) records ∅ acc t') as (Hr & ? & _ & Hin & Ho);
    [apply Replay.represents_default|done|].
  split_and!; [done|done|..]; intros r x t'' Hd;
    pose proof (decrypt_spec t' r _ Hr) as Hsp; rewrite Hd in Hsp.
  - by destruct Hsp.
  - destruct Hsp as (_ & Hn & _). set_solver.
Qed.

(** What a sender encrypts under matched keys, a receiver decrypts: when records
    are lost, reordered within the 64-position window or duplicated, every record
    that arrives is delivered exactly once with the plaintext sent under its nonce. *)
Theorem datagram_delivery paired `{!StatelessCipherLaws paired} o i o' i' ms rs ts rx acc t' :
  paired o i → send_all (fresh o i') ms = (rs, ts) →
  (∀ r, r ∈ rx → Ok r ∈ rs) → in_window rx →
  receive_all (fresh o' i) rx = (acc, t') →
  NoDup acc.*1 ∧
  (∀ r, r ∈ rx → be_decode (take 8 r) ∈ acc.*1) ∧
  (∀ n m, (n, m) ∈ acc → ms !! Z.to_nat n = Some m).
Proof.
  intros Hpair Hsend Hrx Hwin Hrec.
  assert (∀ r, r ∈ rx → ∃ k m c, ms !! k = Some m ∧ Z.of_nat k < u64_max ∧
    sc_write o (Z.of_nat k) m = Some c ∧ r = be_encode 8 (Z.of_nat k) ++ c) as Hgen.
  { intros r [k Hk]%Hrx%list_elem_of_lookup. exists k.
    by apply (send_all_spec _ _ _ _ _ _ Hsend) in Hk. }
  assert (∀ r, r ∈ rx → ∃ k m, ms !! k = Some m ∧ 24 ≤ len r ∧ be_decode (take 8 r) = Z.of_nat k ∧
    sc_read i (Z.of_nat k) (drop 8 r) = Some m) as Hopen.
  { intros r (k & m & c & ? & ? & Hw & ->)%Hgen. exists k, m. read_fields.
    pose proof (sc_write_len _ _ _ _ Hw). pose proof (len_nonneg m).
    split_and!; [done|rewrite len_app, len_be_encode; lia|apply be_u64; zlia|].
    by apply (sc_read_write _ _ _ _ _ Hpair). }
  destruct (receive_all_spec (fresh o' i) rx ∅ acc t') as (_ & ? & _ & _ & Ho);
    [apply Replay.represents_default|done|].
  split_and!; [done| |].
  - intros r Hr. destruct (receive_all_accepts (fresh o' i) [] rx ∅ acc t') with (r := r);
      [apply Replay.represents_default|set_solver|done| |done..|set_solver].
    intros r' Hr'. destruct (Hopen _ Hr') as (k & m & _ & ? & -> & ?). split; [done|eauto].
  - intros n m (r & Hr & <- & Hread)%Ho. destruct (Hopen _ Hr) as (k & m' & Hk & _ & Hn & Hread').
    rewrite Hn in *. rewrite Nat2Z.id. cbn in Hread. congruence.
Qed.
End datagram.
End Datagram.

(** A transparent cipher, for concrete runs: the key and the nonce as the tag. *)
Module Toy.
#[local] Instance cipher : StatelessCipher := {|
  sc_out := Z;
  sc_in := Z;
  sc_write k n m := Some (be_encode 8 k ++ be_encode 8 n ++ m);
  sc_read k n c := if decide (take 16 c = be_encode 8 k ++ be_encode 8 n) then Some (drop 16 c) else None;
  sc_rekey_out k := k + 1;
  sc_rekey_in k := k + 1
|}.

#[local] Instance laws : StatelessCipherLaws (=).
Proof.
  split; cbn.
  - intros o ? n m c -> Hc. apply (inj Some) in Hc as <-. rewrite app_assoc.
    rewrite take_app_length', drop_app_length' by lens. by rewrite decide_True.
  - intros o n m c [= <-]. autorewrite with rnet. lia.
  - by intros o ? ->.
Qed.
End Toy.

Definition toy_fresh (o i : Z) := Datagram.fresh (H := Toy.cipher) o i.

Definition toy_records : list (list byte) :=
  omap (λ r, match r with Ok w => Some w | Err _ => None end)
    (Datagram.send_all (H := Toy.cipher) (toy_fresh 5 6) [[Byte.x01]; [Byte.x02]]).1.

Definition toy_run :=
  Datagram.receive_all (H := Toy.cipher) (toy_fresh 6 5) (reverse toy_records ++ toy_records).
Definition toy_received : list (Z * list byte) := toy_run.1.

Lemma datagram_replay_protection_witness :
  toy_received.*2 = [[Byte.x02]; [Byte.x01]] ∧ NoDup toy_received.*1.
Proof.
  split; [vm_compute; reflexivity|].
  apply (Datagram.datagram_replay_protection (H := Toy.cipher) 6 5
    (reverse toy_records ++ toy_records) toy_run.1 toy_run.2 (surjective_pairing _)).
Defined.

Lemma datagram_delivery_witness :
  Forall (λ r, be_decode (take 8 r) ∈ toy_received.*1) toy_records.
Proof.
  pose proof (Datagram.datagram_delivery (H := Toy.cipher) (=) (StatelessCipherLaws0 := Toy.laws)
    5 5 6 6 [[Byte.x01]; [Byte.x02]] _ _ (reverse toy_records ++ toy_records) toy_run.1 toy_run.2
    eq_refl (surjective_pairing _)) as Hthm.
  apply Forall_forall. intros r Hr. apply Hthm.
  - intros r'. rewrite elem_of_app, elem_of_reverse. intros Hr'.
    assert (r' ∈ toy_records) as Hin by naive_solver.
    apply list_elem_of_omap in Hin as ([w|] & Hw & [= <-]). exact Hw.
  - vm_compute. repeat constructor; done.
  - apply surjective_pairing.
  - apply elem_of_app. by right.
Defined.

(** ** Ordered transport *)

(** The stateful Noise transport cipher: implicit nonces, records in order. *)
Class OrderedCipher := {
  oc_out : Type;
  oc_in : Type;
  oc_write : oc_out → list byte → option (list byte * oc_out);
  oc_read : oc_in → list byte → option (list byte * oc_in);
  oc_rekey_out : oc_out → oc_out;
  oc_rekey_in : oc_in → oc_in
}.

(** Its documented behaviour: the matching half reads the next record written, with
    a 16-byte tag, records up to the Noise message limit are written, and rekeying
    both sides keeps them matched. *)
Class OrderedCipherLaws `{OrderedCipher} (paired : oc_out → oc_in → Prop) := {
  oc_read_write o i m c o' : paired o i → oc_write o m = Some (c, o') →
    ∃ i', oc_read i c = Some (m, i') ∧ paired o' i';
  oc_write_len o m c o' : oc_write o m = Some (c, o') → len c = len m + 16;
  oc_rekey_paired o i : paired o i → paired (oc_rekey_out o) (oc_rekey_in i)
}.

Module Ordered.
Section ordered.
Context `{OrderedCipher}.

Record SecureTransport := mkSecureTransport {
  st_out : oc_out;
  st_in : oc_in
}.

Definition rekey_outgoing (t : SecureTransport) : SecureTransport :=
  mkSecureTransport (oc_rekey_out (st_out t)) (st_in t).
Definition rekey_incoming (t : SecureTransport) : SecureTransport :=
  mkSecureTransport (st_out t) (oc_rekey_in (st_in t)).

Definition encrypt (t : SecureTransport) (plaintext : list byte)
    : SResult (list byte * SecureTransport) :=
  '(c, o) ← ok_or (oc_write (st_out t) plaintext) Crypto;
  Ok (c, mkSecureTransport o (st_in t)).

Definition decrypt (t : SecureTransport) (ciphertext : list byte)
    : SResult (list byte * SecureTransport) :=
  '(m, i) ← ok_or (oc_read (st_in t) ciphertext) Crypto;
  Ok (m, mkSecureTransport (st_out t) i).
End ordered.
End Ordered.

(** ** Handshake *)

(** The Noise XX handshake state machine, a parameter; [into] is the switch to
    either transport mode. *)
Class NoiseHandshake := {
  hs_state : Type;
  hs_transport : Type;
  hs_initiator : list byte → option hs_state;
  hs_responder : list byte → option hs_state;
  hs_write : hs_state → list byte → option (list byte) * hs_state;
  hs_read : hs_state → list byte → option (list byte) * hs_state;
  hs_remote_static : hs_state → option (list byte);
  hs_into : hs_state → option hs_transport
}.

Module Handshake.
Section handshake.
Context `{NoiseHandshake}.

Record InitiatorHandshake := mkInitiator {
  i_state : hs_state;
  expected_peer_public : list byte;
  peer_verified : bool
}.

Definition initiator_new (local_private expected : list byte) : SResult InitiatorHandshake :=
  if decide (len expected ≠ 32) then Err PeerKeyMismatch else
  if decide (len local_private ≠ 32) then Err Crypto else
  st ← ok_or (hs_initiator local_private) Crypto;
  Ok (mkInitiator st expected false).

Definition write_first (h : InitiatorHandshake) : SResult (list byte) * InitiatorHandshake :=
  let '(m, st) := hs_write (i_state h) [] in
  (ok_or m Crypto, mkInitiator st (expected_peer_public h) (peer_verified h)).

Definition read_response (h : InitiatorHandshake) (message : list byte)
    : SResult unit * InitiatorHandshake :=
  let '(payload, st) := hs_read (i_state h) message in
  let h' := mkInitiator st (expected_peer_public h) false in
  match payload with
  | None => (Err Crypto, h')
  | Some _ =>
    match hs_remote_static st with
    | None => (Err InvalidState, h')
    | Some peer =>
      if decide (peer ≠ expected_peer_public h) then (Err PeerKeyMismatch, h')
      else (Ok tt, mkInitiator st (expected_peer_public h) true)
    end
  end.

(** [finish] and [finish_datagram] differ in the transport mode only. *)
Definition initiator_finish (h : InitiatorHandshake) (join_payload : list byte)
    : SResult (list byte * hs_transport) :=
  if negb (peer_verified h) then Err InvalidState else
  let '(m, st) := hs_write (i_state h) join_payload in
  message ← ok_or m Crypto;
  t ← ok_or (hs_into st) Crypto;
  Ok (message, t).

Definition responder_new (local_private : list byte) : SResult hs_state :=
  if decide (len local_private ≠ 32) then Err Crypto
  else ok_or (hs_responder local_private) Crypto.

Definition read_first (st : hs_state) (message : list byte) : SResult unit * hs_state :=
  let '(payload, st') := hs_read st message in
  (match payload with Some _ => Ok tt | None => Err Crypto end, st').

Definition write_response (st : hs_state) : SResult (list byte) * hs_state :=
  let '(m, st') := hs_write st [] in (ok_or m Crypto, st').

Definition responder_finish (st : hs_state) (message : list byte)
    : SResult (list byte * list byte * hs_transport) :=
  let '(p, st') := hs_read st message in
  payload ← ok_or p Crypto;
  peer ← ok_or (hs_remote_static st') InvalidState;
  t ← ok_or (hs_into st') Crypto;
  Ok (payload, peer, t).

(** ** Calls on a client handshake *)

Inductive call := WriteFirst | ReadResponse (message : list byte).

Definition run_call (h : InitiatorHandshake) (c : call) : InitiatorHandshake :=
  match c with
  | WriteFirst => (write_first h).2
  | ReadResponse m => (read_response h m).2
  end.

Definition run_calls (h : InitiatorHandshake) (cs : list call) : InitiatorHandshake :=
  foldl run_call h cs.

Lemma read_response_verified h m :
  peer_verified (read_response h m).2 = is_ok (read_response h m).1 ∧
  (is_ok (read_response h m).1 = true →
   hs_remote_static (i_state (read_response h m).2) = Some (expected_peer_public h)).
Proof.
  unfold read_response. destruct (hs_read _ _) as [[p|] st]; [|done].
  destruct (hs_remote_static st) as [peer|] eqn:Hp; [|done]. case_decide; [done|].
  split; [done|]. intros _. cbn. congruence.
Qed.

Lemma run_call_pin h c : expected_peer_public (run_call h c) = expected_peer_public h.
Proof.
  destruct c; cbn.
  - unfold write_first. by destruct (hs_write _ _).
  - unfold read_response. by repeat case_match.
Qed.

Lemma run_calls_verified h cs :
  peer_verified h = false → peer_verified (run_calls h cs) = true →
  ∃ pre m post, cs = pre ++ ReadResponse m :: post ∧ Forall (λ c, c = WriteFirst) post ∧
    (read_response (run_calls h pre) m).1 = Ok tt.
Proof.
  intros Hh. induction cs as [|c cs IH] using rev_ind; [cbn; congruence|].
  unfold run_calls. rewrite foldl_snoc. fold (run_calls h cs). destruct c as [|m]; cbn.
  - unfold write_first. destruct (hs_write _ _) as [w st]. cbn. intros Hv.
    destruct (IH Hv) as (pre & m & post & -> & Hpost & Hok).
    exists pre, m, (post ++ [WriteFirst]). rewrite <- app_assoc. split; [done|].
    split; [|done]. apply Forall_app_2; [done|by constructor].
  - destruct (read_response_verified (run_calls h cs) m) as [-> _]. intros Hok.
    exists cs, m, []. split; [done|]. split; [constructor|].
    by destruct (read_response _ _).1 as [[]|].
Qed.

Lemma run_calls_pin h cs : expected_peer_public (run_calls h cs) = expected_peer_public h.
Proof.
  induction cs as [|c cs IH] using rev_ind; [done|].
  unfold run_calls. rewrite foldl_snoc. fold (run_calls h cs). by rewrite run_call_pin.
Qed.

(** The calls end with a response of a server that holds [pin]: the Noise state accepts it and has
    authenticated that key. *)
Definition server_accepted (pin : list byte) (h : InitiatorHandshake) (cs : list call) : Prop :=
  ∃ pre m post payload st, cs = pre ++ ReadResponse m :: post ∧ Forall (λ c, c = WriteFirst) post ∧
    hs_read (i_state (run_calls h pre)) m = (Some payload, st) ∧ hs_remote_static st = Some pin.

Lemma read_response_Ok h m :
  (read_response h m).1 = Ok tt ↔
  ∃ payload st, hs_read (i_state h) m = (Some payload, st) ∧ hs_remote_static st = Some (expected_peer_public h).
Proof.
  unfold read_response. destruct (hs_read _ _) as [[p|] st]; [|split; [done|by intros (? & ? & ? & _)]].
  destruct (hs_remote_static st) as [peer|] eqn:Hp; [|split; [done|intros (? & ? & [= <- <-] & ?); congruence]].
  destruct (decide (peer ≠ expected_peer_public h)) as [Hne|Heq%dec_stable]; cbn.
  - split; [done|]. intros (? & ? & [= <- <-] & ?). congruence.
  - split; [|done]. intros _. exists p, st. split; [done|]. by rewrite Hp, Heq.
Qed.
Lemma write_first_verified h : peer_verified (write_first h).2 = peer_verified h.
Proof. unfold write_first. by destruct (hs_write _ _). Qed.
Lemma run_calls_accepted h cs :
  peer_verified h = false → peer_verified (run_calls h cs) = true ↔ server_accepted (expected_peer_public h) h cs.
Proof.
  intros Hh. split.
  - intros (pre & m & post & -> & Hpost & Hok)%run_calls_verified; [|done]. apply read_response_Ok in Hok as (payload & st & E & Hs).
    rewrite run_calls_pin in Hs. by exists pre, m, post, payload, st.
  - intros (pre & m & post & payload & st & -> & Hpost & E & Hs). unfold run_calls. rewrite foldl_app. fold (run_calls h pre). cbn [foldl run_call].
    destruct (read_response_verified (run_calls h pre) m) as [Hv _].
    assert (peer_verified (read_response (run_calls h pre) m).2 = true) as Hr.
    { rewrite Hv. assert ((read_response (run_calls h pre) m).1 = Ok tt) as ->; [|done]. apply read_response_Ok. exists payload, st. by rewrite run_calls_pin. }
    revert Hr. generalize (read_response (run_calls h pre) m).2. clear -Hpost. induction Hpost as [|c post -> _ IH]; intros h1 H1; [done|].
    cbn [foldl run_call]. apply IH. by rewrite write_first_verified.
Qed.

(** C21: However a client drives its handshake, join credentials leave it only when the last response it
    read was accepted by the Noise state and came from the holder of the pinned 32-byte key.
    Finishing fails with [InvalidState] in exactly the other cases. *)
Theorem join_requires_pinned_server local pin h cs join :
  initiator_new local pin = Ok h →
  len pin = 32 ∧
  (∀ message t, initiator_finish (run_calls h cs) join = Ok (message, t) → server_accepted pin h cs) ∧
  (initiator_finish (run_calls h cs) join = Err InvalidState ↔ ~ server_accepted pin h cs).
Proof.
  intros Hnew. unfold initiator_new in Hnew. case_decide as Hlen; [done|].
  case_decide; [done|]. destruct (hs_initiator _) as [st|]; [|done]. cbn in Hnew. simplify_eq.
  split; [lia|]. set (h := mkInitiator st pin false). pose proof (run_calls_accepted h cs eq_refl) as Hacc. change (expected_peer_public h) with pin in Hacc.
  unfold initiator_finish. rewrite <- Hacc. destruct (peer_verified (run_calls h cs)); cbn [negb]; [|by split; [|split; [|done]]].
  split; [intros; by apply Hacc|]. split; [|done]. by destruct (hs_write _ _) as [[w|] st']; [cbn; destruct (hs_into st')|].
Qed.
End handshake.

(** A handshake that authenticates the key it is handed. *)
#[local] Instance echo_handshake : NoiseHandshake := {|
  hs_state := list byte;
  hs_transport := unit;
  hs_initiator k := Some k;
  hs_responder k := Some k;
  hs_write st m := (Some m, st);
  hs_read st m := (Some [], m);
  hs_remote_static st := Some st;
  hs_into st := Some tt
|}.

Lemma join_requires_pinned_server_witness :
  let pin := replicate 32 Byte.x07 in
  let h := mkInitiator (H := echo_handshake) (replicate 32 Byte.x01) pin false in
  server_accepted pin h [ReadResponse [Byte.x05]; WriteFirst; ReadResponse pin] ∧
  ~ server_accepted pin h [ReadResponse pin; ReadResponse [Byte.x05]].
Proof.
  intros pin h. split.
  - apply (join_requires_pinned_server (replicate 32 Byte.x01) pin h [ReadResponse [Byte.x05]; WriteFirst; ReadResponse pin] [Byte.x2a] eq_refl)
      with (message := [Byte.x2a]) (t := tt). reflexivity.
  - apply (join_requires_pinned_server (replicate 32 Byte.x01) pin h [ReadResponse pin; ReadResponse [Byte.x05]] [Byte.x2a] eq_refl). reflexivity.
Defined.
End Handshake.
