(* ===== verification/Transition.v ===== *)
(** * Security transitions: rnet-security [transition.rs]

    The server-led mode switches and rekeys, as the controller each side runs. *)

From S2P Require Import Prelude Bytes CoreTypes Control.

Module Role.
Inductive t := Server | Client.
#[global] Instance t_eq_dec : EqDecision t.
Proof. solve_decision. Defined.
End Role.

Module Effect.
Inductive t := None_ | SetMode (m : SecurityMode.t) | Rekey | AdvanceEpoch.
#[global] Instance t_eq_dec : EqDecision t.
Proof. solve_decision. Defined.
End Effect.

Record Transition := mkTransition {
  before_response : Effect.t;
  response : option Control;
  after_response : Effect.t
}.

Definition transition_response (c : Control) : Transition :=
  mkTransition Effect.None_ (Some c) Effect.None_.

Inductive Pending :=
| ServerSwitchReady (epoch : Z) (mode : SecurityMode.t)
| ServerSwitchAck (epoch : Z) (mode : SecurityMode.t)
| ClientSwitchCommit (epoch : Z) (mode : SecurityMode.t)
| ServerRekeyReady (epoch : Z)
| ServerRekeyAck (epoch : Z)
| ClientRekeyCommit (epoch : Z).

Record SecurityController := mkController {
  role : Role.t;
  mode : SecurityMode.t;
  epoch : Z;
  pending : option Pending
}.

Definition controller_new (r : Role.t) (m : SecurityMode.t) (e : Z) : SecurityController :=
  mkController r m e None.

Definition is_transitioning (c : SecurityController) : bool :=
  match pending c with Some _ => true | None => false end.

Definition invalid_state {A} (m : string) : Result A := fail ErrorCode.InvalidState m.

Definition ensure_server_idle (c : SecurityController) : Result unit :=
  if decide (role c ≠ Role.Server) then
    invalid_state "only the server may initiate security transitions" else
  if is_transitioning c then invalid_state "a security transition is already in progress" else
  if decide (epoch c = 0) then invalid_state "established security epoch must be nonzero"
  else Ok tt.

Definition next_epoch (c : SecurityController) : Result Z :=
  ok_or (checked_add u64_max (epoch c) 1)
    (mkRnetError ErrorCode.InvalidState "security epoch exhausted").

Definition validate_next_epoch (c : SecurityController) (e : Z) : Result unit :=
  next ← next_epoch c;
  if decide (e ≠ next) then
    invalid_state "security transition skipped or reused an epoch"
  else Ok tt.

Definition with_pending (c : SecurityController) (p : Pending) : SecurityController :=
  mkController (role c) (mode c) (epoch c) (Some p).

Definition begin_switch (c : SecurityController) (m : SecurityMode.t)
    : Result (Control * SecurityController) :=
  _ ← ensure_server_idle c;
  if decide (m = mode c) then invalid_state "requested security mode is already active" else
  e ← next_epoch c;
  Ok (control_switch ControlKind.SwitchPropose e m, with_pending c (ServerSwitchReady e m)).

Definition begin_rekey (c : SecurityController) : Result (Control * SecurityController) :=
  _ ← ensure_server_idle c;
  e ← next_epoch c;
  Ok (control_barrier ControlKind.RekeyPropose e, with_pending c (ServerRekeyReady e)).

Definition stale_barrier {A} : Result A :=
  invalid_state "unexpected or stale security transition barrier".

(** An error leaves the controller as it was, so only a success carries one. *)
Definition handle (c : SecurityController) (ctl : Control)
    : Result (Transition * SecurityController) :=
  match role c, pending c, ct_kind ctl with
  | Role.Client, None, ControlKind.SwitchPropose =>
    m ← ok_or (ct_mode ctl)
          (mkRnetError ErrorCode.InvalidState "switch proposal has no target mode");
    _ ← validate_next_epoch c (ct_epoch ctl);
    Ok (transition_response (control_barrier ControlKind.SwitchReady (ct_epoch ctl)),
        with_pending c (ClientSwitchCommit (ct_epoch ctl) m))
  | Role.Server, Some (ServerSwitchReady e m), ControlKind.SwitchReady =>
    if decide (ct_epoch ctl = e) then
      Ok (transition_response (control_barrier ControlKind.SwitchCommit e),
          with_pending c (ServerSwitchAck e m))
    else stale_barrier
  | Role.Client, Some (ClientSwitchCommit e m), ControlKind.SwitchCommit =>
    if decide (ct_epoch ctl = e) then
      Ok (mkTransition (Effect.SetMode m)
            (Some (control_barrier ControlKind.SwitchAck e)) Effect.None_,
          mkController (role c) m e None)
    else stale_barrier
  | Role.Server, Some (ServerSwitchAck e m), ControlKind.SwitchAck =>
    if decide (ct_epoch ctl = e) then
      Ok (mkTransition (Effect.SetMode m) None Effect.None_, mkController (role c) m e None)
    else stale_barrier
  | Role.Client, None, ControlKind.RekeyPropose =>
    _ ← validate_next_epoch c (ct_epoch ctl);
    Ok (transition_response (control_barrier ControlKind.RekeyReady (ct_epoch ctl)),
        with_pending c (ClientRekeyCommit (ct_epoch ctl)))
  | Role.Server, Some (ServerRekeyReady e), ControlKind.RekeyReady =>
    if decide (ct_epoch ctl = e) then
      Ok (mkTransition Effect.None_
            (Some (control_barrier ControlKind.RekeyCommit e)) Effect.Rekey,
          with_pending c (ServerRekeyAck e))
    else stale_barrier
  | Role.Client, Some (ClientRekeyCommit e), ControlKind.RekeyCommit =>
    if decide (ct_epoch ctl = e) then
      Ok (mkTransition Effect.Rekey
            (Some (control_barrier ControlKind.RekeyAck e)) Effect.None_,
          mkController (role c) (mode c) e None)
    else stale_barrier
  | Role.Server, Some (ServerRekeyAck e), ControlKind.RekeyAck =>
    if decide (ct_epoch ctl = e) then
      Ok (mkTransition Effect.AdvanceEpoch None Effect.None_,
          mkController (role c) (mode c) e None)
    else stale_barrier
  | _, _, _ => stale_barrier
  end.

(** ** Invariant *)

Definition pending_epoch (p : Pending) : Z :=
  match p with
  | ServerSwitchReady e _ | ServerSwitchAck e _ | ClientSwitchCommit e _
  | ServerRekeyReady e | ServerRekeyAck e | ClientRekeyCommit e => e
  end.

Definition pending_role (p : Pending) : Role.t :=
  match p with
  | ClientSwitchCommit _ _ | ClientRekeyCommit _ => Role.Client
  | _ => Role.Server
  end.

Definition target_mode (c : SecurityController) : SecurityMode.t :=
  match pending c with
  | Some (ServerSwitchReady _ m | ServerSwitchAck _ m | ClientSwitchCommit _ m) => m
  | _ => mode c
  end.

(** A pending transition targets the next epoch and is of the side's own kind. *)
Record controller_inv (c : SecurityController) : Prop := {
  ci_epoch : in_u64 (epoch c);
  ci_pending : ∀ p, pending c = Some p →
    pending_epoch p = epoch c + 1 ∧ epoch c < u64_max ∧ pending_role p = role c
}.

Lemma next_epoch_Ok c e : next_epoch c = Ok e ↔ e = epoch c + 1 ∧ epoch c < u64_max.
Proof.
  unfold next_epoch, checked_add. case_decide; cbn; naive_solver lia.
Qed.

Lemma validate_next_epoch_Ok c e u :
  validate_next_epoch c e = Ok u ↔ e = epoch c + 1 ∧ epoch c < u64_max.
Proof.
  unfold validate_next_epoch. destruct (next_epoch c) as [n|] eqn:Hn; cbn.
  - apply next_epoch_Ok in Hn as [-> ?]. case_decide; destruct u; naive_solver.
  - split; [done|]. intros [-> ?]. assert (next_epoch c = Ok (epoch c + 1)) as Hc; [|congruence].
    by apply next_epoch_Ok.
Qed.

(** ** Claims *)

(** One call on a controller, with the number of key rotations its driver applies. *)
Inductive controller_call := CallSwitch (m : SecurityMode.t) | CallRekey | CallHandle (ctl : Control).

Definition rekeys (t : Transition) : Z :=
  (if decide (before_response t = Effect.Rekey) then 1 else 0) +
  (if decide (after_response t = Effect.Rekey) then 1 else 0).

Definition controller_call_result (c : SecurityController) (call : controller_call)
    : option (Z * SecurityController) :=
  match call with
  | CallSwitch m => match begin_switch c m with Ok (_, c') => Some (0, c') | Err _ => None end
  | CallRekey => match begin_rekey c with Ok (_, c') => Some (0, c') | Err _ => None end
  | CallHandle ctl =>
    match handle c ctl with Ok (t, c') => Some (rekeys t, c') | Err _ => None end
  end.

(** Keys a side has rotated ahead of its epoch: a server waiting for the
    acknowledgement of a rekey has rotated already. *)
Definition rotated_ahead (c : SecurityController) : Z :=
  match pending c with Some (ServerRekeyAck _) => 1 | _ => 0 end.

Definition is_rekey (c : SecurityController) : bool :=
  match pending c with
  | Some (ServerRekeyReady _ | ServerRekeyAck _ | ClientRekeyCommit _) => true
  | _ => false
  end.

Lemma ensure_server_idle_Ok c u :
  ensure_server_idle c = Ok u → role c = Role.Server ∧ pending c = None ∧ epoch c ≠ 0.
Proof.
  unfold ensure_server_idle, is_transitioning. repeat case_decide; try done.
  all: destruct (pending c); done.
Qed.

(** Every successful call on a well-formed controller keeps it well-formed and
    in its role; it either leaves epoch and mode as they are, or completes the
    pending transition: the epoch advances by exactly one, the mode becomes the
    negotiated one and nothing is pending; only an idle server starts a transition;
    and a completed rekey rotates the keys exactly once on this side, a mode switch
    never. *)
Theorem controller_call_sound c call n c' :
  controller_inv c → controller_call_result c call = Some (n, c') →
  controller_inv c' ∧ role c' = role c ∧
  ((epoch c' = epoch c ∧ mode c' = mode c ∧ is_Some (pending c') ∧
    n = rotated_ahead c' - rotated_ahead c) ∨
   (epoch c' = epoch c + 1 ∧ mode c' = target_mode c ∧
    is_Some (pending c) ∧ pending c' = None ∧
    n = (if is_rekey c then 1 else 0) - rotated_ahead c)) ∧
  (pending c = None → role c = Role.Server → (∃ m, call = CallSwitch m) ∨ call = CallRekey).
Proof.
  intros [Hep Hpe] Hcall. destruct c as [r m e p]; cbn in *.
  destruct call as [m'| |ctl]; cbn in Hcall.
  - destruct (begin_switch _ _) as [[k c1]|] eqn:Hb; simplify_eq.
    unfold begin_switch in Hb. destruct (ensure_server_idle _) as [u|] eqn:Hi; [|done].
    apply ensure_server_idle_Ok in Hi as (? & ? & ?). cbn in *. simplify_eq.
    case_decide; [done|]. destruct (next_epoch _) as [e'|] eqn:He; [|done].
    apply next_epoch_Ok in He as [-> ?]. cbn in *. simplify_eq.
    split; [split; [done|]; naive_solver|]. eauto 10.
  - destruct (begin_rekey _) as [[k c1]|] eqn:Hb; simplify_eq.
    unfold begin_rekey in Hb. destruct (ensure_server_idle _) as [u|] eqn:Hi; [|done].
    apply ensure_server_idle_Ok in Hi as (? & ? & ?). cbn in *.
    destruct (next_epoch _) as [e'|] eqn:He; [|done].
    apply next_epoch_Ok in He as [-> ?]. cbn in *. simplify_eq.
    split; [split; [done|]; naive_solver|]. eauto 10.
  - destruct (handle _ _) as [[t c1]|] eqn:Hh; simplify_eq. unfold handle in Hh. cbn in Hh.
    destruct r; destruct p as [[]|]; destruct (ct_kind ctl); try done;
      try (edestruct (Hpe _ eq_refl) as (Hpep & Hlt & _); cbn in Hpep);
      try (case_decide; [|done]);
      try (destruct (ct_mode ctl); [|done]);
      cbn in Hh; try (destruct (validate_next_epoch _ _) eqn:Hv; [|done];
        apply validate_next_epoch_Ok in Hv as [? ?]; cbn in *);
      simplify_eq/=; (split; [split; cbn; [zlia|naive_solver]|]);
      (split; [done|]); (split; [|done]);
      first [left; split_and!; [done|done|eauto|done] | right; split_and!; [lia|done|eauto|done|done]].
Qed.

Lemma controller_call_sound_witness :
  controller_inv (mkController Role.Client SecurityMode.Encrypted 4
    (Some (ClientRekeyCommit 5))) ∧
  controller_inv (mkController Role.Client SecurityMode.Encrypted 5 None).
Proof.
  assert (controller_inv (mkController Role.Client SecurityMode.Encrypted 4
    (Some (ClientRekeyCommit 5)))) as Hi.
  { split; cbn; [zlia|]. intros p [= <-]. cbn. split_and!; [done|zlia|done]. }
  split; [done|].
  apply (controller_call_sound _ (CallHandle (control_barrier ControlKind.RekeyCommit 5)) 1 _ Hi).
  reflexivity.
Defined.
