(* ===== verification/TcpSession.v ===== *)
(** * Established TCP sessions: rnet-transport [adaptive_tcp_session.rs]

    One iteration of the session loop per input: an inbound record, an outbound
    message, a security command, the automatic rekey and the transition deadline.
    [auto_rekey.rs] and the event constructors of [event.rs] and [state.rs] are
    here too. *)

From S2P Require Import Prelude Bytes CoreTypes Wire Framing Control Security Transition.

(** ** Automatic rekey *)

Record AutoRekey := mkAutoRekey {
  after : option Duration;
  after_bytes : option Z;
  last_started : Instant;
  encrypted_bytes : Z
}.

Definition auto_rekey_new (a : option Duration) (b : option Z) (now : Instant) : AutoRekey :=
  mkAutoRekey a b now 0.

Definition record_encrypted_bytes (r : AutoRekey) (bytes : Z) : AutoRekey :=
  mkAutoRekey (after r) (after_bytes r) (last_started r)
    (saturating_add u64_max (encrypted_bytes r) bytes).

(** [duration_since] saturates at zero. *)
Definition is_due (r : AutoRekey) (now : Instant) : bool :=
  is_some_and (after r)
    (λ threshold, bool_decide (threshold ≤ saturating_sub now (last_started r))) ||
  is_some_and (after_bytes r) (λ threshold, bool_decide (threshold ≤ encrypted_bytes r)).

Definition instant_max : Z := 2 ^ 63 * 10 ^ 9 - 1.

Definition next_deadline (r : AutoRekey) : option Instant :=
  threshold ← after r; checked_add instant_max (last_started r) threshold.

Definition mark_started (r : AutoRekey) (now : Instant) : AutoRekey :=
  mkAutoRekey (after r) (after_bytes r) now 0.

(** ** Events *)

Module SecurityOperation.
Inductive t := ModeSwitch | Rekey.
#[global] Instance t_eq_dec : EqDecision t.
Proof. solve_decision. Defined.
Definition to_u8 (o : t) : Z := match o with ModeSwitch => 1 | Rekey => 2 end.
End SecurityOperation.

Record SecurityChange := mkSecurityChange {
  sc_operation : SecurityOperation.t;
  sc_mode : SecurityMode.t;
  sc_epoch : Z
}.

Definition session_event (ty : EventType.t) (endpoint session : Handle) (now : Instant) : Event :=
  event_simple ty now <| ev_endpoint := endpoint |> <| ev_session := session |>.

Definition security_changed_event (endpoint session : Handle) (op : SecurityOperation.t)
    (m : SecurityMode.t) (e : Z) (now : Instant) : Event :=
  session_event EventType.SecurityChanged endpoint session now
    <| data := [of_u8 (SecurityMode.to_u8 m)] ++ be_encode 8 e ++
               [of_u8 (SecurityOperation.to_u8 op)] |>.

Definition security_change_from_event (ev : Event) : Result SecurityChange :=
  if decide (event_type ev ≠ EventType.SecurityChanged ∨ length (data ev) ≠ 10%nat) then
    fail ErrorCode.InvalidArgument "event is not a valid security change" else
  m ← SecurityMode.try_from (byte_at 0 (data ev));
  let e := be_decode (slice 1 9 (data ev)) in
  op ← match byte_at 9 (data ev) with
       | 1 => Ok SecurityOperation.ModeSwitch
       | 2 => Ok SecurityOperation.Rekey
       | _ => fail ErrorCode.InvalidArgument "security event has an unknown operation"
       end;
  Ok (mkSecurityChange op m e).

Definition completed_operation (k : ControlKind.t) : option SecurityOperation.t :=
  match k with
  | ControlKind.SwitchCommit | ControlKind.SwitchAck => Some SecurityOperation.ModeSwitch
  | ControlKind.RekeyCommit | ControlKind.RekeyAck => Some SecurityOperation.Rekey
  | _ => None
  end.

Definition message_event_with_integrity (endpoint session : Handle) (f : Frame)
    (verified : bool) (now : Instant) : Event :=
  mkEvent EventType.Message endpoint session (correlation (header f)) ErrorCode.Ok
    (body f) verified now.

Definition game_control_event (endpoint session : Handle) (payload : list byte) (now : Instant)
    : Event :=
  session_event EventType.GameControl endpoint session now <| data := payload |>.

Definition map_security_error (e : SecurityError) : RnetError :=
  match e with
  | PeerKeyMismatch =>
    mkRnetError ErrorCode.PeerKeyMismatch "peer key does not match the pinned key"
  | InvalidState => mkRnetError ErrorCode.HandshakeFailed "invalid handshake state"
  | Crypto => mkRnetError ErrorCode.CryptoError "cryptographic operation failed"
  | ReplayDetected => mkRnetError ErrorCode.ReplayDetected
      "datagram nonce was already received or is outside the replay window"
  end.

(** ** The session *)

Inductive OutboundKind := OutData | OutGameControl.
Inductive SecurityCommand := SetMode (m : SecurityMode.t) | RekeyNow.

Section session.
Context `{OrderedCipher}.

(** What a session reads of the runtime: configuration and its own handles. *)
Record Env := mkEnv {
  cfg_max_body_len : Z;
  cfg_handshake_timeout : Duration;
  env_endpoint : Handle;
  env_session : Handle
}.

Record Session := mkSession {
  transport : Ordered.SecureTransport;
  controller : SecurityController;
  transition_deadline : option Instant;
  server_authoritative : bool;
  automatic_rekey : AutoRekey
}.
#[local] Instance eta_Session : Eta Session := λ s,
  mkSession (transport s) (controller s) (transition_deadline s) (server_authoritative s)
    (automatic_rekey s).

Definition max_payload (env : Env) : Z := cfg_max_body_len env + 20 + 64.

(** The bytes put on the stream. *)
Definition write_wire (r : SecurityRecord) (max : Z) : Result (list byte) :=
  encoded ← encode_record r max;
  write_framed encoded.

Definition write_protected (t : Ordered.SecureTransport) (e : Z) (kind : ProtectedKind.t)
    (payload : list byte) (max : Z) : Result (list byte * Ordered.SecureTransport) :=
  inner ← encode_protected (mkProtectedMessage kind payload) max;
  '(ciphertext, t') ← map_err map_security_error (Ordered.encrypt t inner);
  wire ← write_wire (mkRecord RecordKind.Protected e ciphertext) (max + 64);
  Ok (wire, t').

Definition decrypt_protected (t : Ordered.SecureTransport) (r : SecurityRecord) (max : Z)
    : Result (ProtectedMessage * Ordered.SecureTransport) :=
  if decide (rec_kind r ≠ RecordKind.Protected) then
    fail ErrorCode.ProtocolError "expected protected record" else
  '(plaintext, t') ← map_err map_security_error (Ordered.decrypt t (rec_payload r));
  m ← decode_protected plaintext max;
  Ok (m, t').

Definition write_control (t : Ordered.SecureTransport) (e : Z) (c : Control) (max : Z)
    : Result (list byte * Ordered.SecureTransport) :=
  write_protected t e ProtectedKind.Control (encode_control c) max.

Definition apply_effect (t : Ordered.SecureTransport) (eff : Effect.t) : Ordered.SecureTransport :=
  if decide (eff = Effect.Rekey) then Ordered.rekey_outgoing (Ordered.rekey_incoming t) else t.

(** What an iteration of the loop yields when it does not break: the session, the
    events it pushed and the bytes it wrote. *)
Definition Yield : Type := Session * list Event * list byte.

(** The transition part of [process_inbound]. *)
Definition process_control (env : Env) (now : Instant) (s : Session) (t : Ordered.SecureTransport)
    (r : SecurityRecord) (payload : list byte) : Result Yield :=
  ctl ← decode_control payload;
  let operation := completed_operation (ct_kind ctl) in
  '(tr, c') ← handle (controller s) ctl;
  let t1 := apply_effect t (before_response tr) in
  '(out, t2) ← match response tr with
               | Some resp => write_control t1 (rec_epoch r) resp (max_payload env)
               | None => Ok ([], t1)
               end;
  let t3 := apply_effect t2 (after_response tr) in
  let events :=
    if is_transitioning c' then []
    else match operation with
         | Some op => [security_changed_event (env_endpoint env) (env_session env) op
                         (mode c') (epoch c') now]
         | None => []
         end in
  Ok (s <| transport := t3 |> <| controller := c' |>, events, out).

Definition process_inbound (env : Env) (active : bool) (now : Instant) (s : Session)
    (r : SecurityRecord) : Result Yield :=
  if negb active || bool_decide (rec_epoch r ≠ epoch (controller s)) then
    fail ErrorCode.ProtocolError "invalid security epoch" else
  '(m, t) ← match rec_kind r with
            | RecordKind.PlainData =>
              if decide (mode (controller s) = SecurityMode.Plaintext) then
                Ok (mkProtectedMessage ProtectedKind.Data (rec_payload r), transport s)
              else fail ErrorCode.ProtocolError "record mode mismatch"
            | RecordKind.Protected => decrypt_protected (transport s) r (max_payload env)
            | _ => fail ErrorCode.ProtocolError "record mode mismatch"
            end;
  let protected := bool_decide (rec_kind r = RecordKind.Protected) in
  let s' := s <| transport := t |> in
  match pm_kind m with
  | ProtectedKind.Data =>
    if protected && bool_decide (mode (controller s) ≠ SecurityMode.Encrypted) then
      fail ErrorCode.ProtocolError "encrypted data in plaintext mode" else
    f ← decode_datagram (pm_payload m) (cfg_max_body_len env);
    Ok (s', [message_event_with_integrity (env_endpoint env) (env_session env) f protected now], [])
  | ProtectedKind.GameControl =>
    if protected then
      if decide (len (pm_payload m) > cfg_max_body_len env) then
        fail ErrorCode.MessageTooLarge "game control exceeds the configured body limit"
      else
        Ok (s', [game_control_event (env_endpoint env) (env_session env) (pm_payload m) now], [])
    else fail ErrorCode.ProtocolError "game controls must be authenticated"
  | ProtectedKind.Control => process_control env now s t r (pm_payload m)
  | ProtectedKind.AuthDecision | ProtectedKind.AuthAck =>
    fail ErrorCode.ProtocolError "unexpected auth decision"
  end.

(** A complete record taken from the reader. *)
Definition inbound (env : Env) (active : bool) (now : Instant) (s : Session)
    (encoded : list byte) : Result Yield :=
  r ← decode_record encoded (max_payload env + 64);
  '(s', events, out) ← process_inbound env active now s r;
  Ok (if is_transitioning (controller s') then s' else s' <| transition_deadline := None |>,
      events, out).

(** The head of the loop: the next complete record of the bytes read, if any. *)
Definition receive (env : Env) (active : bool) (now : Instant) (s : Session)
    (stream : list byte) : Result (option (Yield * list byte)) :=
  taken ← reader_step (max_payload env + 84) stream;
  match taken with
  | None => Ok None
  | Some (encoded, rest) =>
    y ← inbound env active now s encoded;
    Ok (Some (y, rest))
  end.

(** The outbound branch; [None] while a transition suspends it. *)
Definition outbound (env : Env) (active : bool) (s : Session) (kind : OutboundKind)
    (bytes : list byte) : option (Result Yield) :=
  let c := controller s in
  if is_transitioning c then None else
  Some (
    if negb active then fail ErrorCode.Cancelled "session no longer active" else
    '(wire, t) ← match kind with
                 | OutGameControl =>
                   write_protected (transport s) (epoch c) ProtectedKind.GameControl bytes
                     (max_payload env)
                 | OutData =>
                   if decide (mode c = SecurityMode.Encrypted) then
                     write_protected (transport s) (epoch c) ProtectedKind.Data bytes
                       (max_payload env)
                   else
                     wire ← write_wire (mkRecord RecordKind.PlainData (epoch c) bytes)
                              (max_payload env);
                     Ok (wire, transport s)
                 end;
    let counted := bool_decide (mode c = SecurityMode.Encrypted) ||
                   match kind with OutGameControl => true | OutData => false end in
    let rk := if counted then record_encrypted_bytes (automatic_rekey s) (len bytes)
              else automatic_rekey s in
    Ok (s <| transport := t |> <| automatic_rekey := rk |>, [], wire)).

(** Sending a proposal and arming the deadline. *)
Definition propose (env : Env) (now : Instant) (s : Session) (ctl : Control)
    (c' : SecurityController) : Result Yield :=
  let s1 := s <| controller := c' |> in
  match write_control (transport s) (epoch c') ctl (max_payload env) with
  | Ok (wire, t) =>
    Ok (s1 <| transport := t |>
           <| transition_deadline := Some (now + cfg_handshake_timeout env) |>, [], wire)
  | Err e => fail ErrorCode.IoError (message e)
  end.

(** The command branch; a refused command is dropped ([continue]). *)
Definition command (env : Env) (now : Instant) (s : Session) (cmd : SecurityCommand)
    : option (Result Yield) :=
  if is_transitioning (controller s) then None else
  Some (
    let '(r, s1) :=
      match cmd with
      | SetMode m => (begin_switch (controller s) m, s)
      | RekeyNow =>
        (begin_rekey (controller s), s <| automatic_rekey ::= λ r, mark_started r now |>)
      end in
    match r with
    | Err _ => Ok (s1, [], [])
    | Ok (ctl, c') => propose env now s1 ctl c'
    end).

(** Whether the automatic rekey branch is armed, and its deadline. *)
Definition automatic_deadline (s : Session) (now : Instant) : option Instant :=
  if server_authoritative s && bool_decide (mode (controller s) = SecurityMode.Encrypted) &&
     negb (is_transitioning (controller s))
  then if is_due (automatic_rekey s) now then Some now else next_deadline (automatic_rekey s)
  else None.

Definition auto_rekey_fired (env : Env) (now : Instant) (s : Session) : Result Yield :=
  match begin_rekey (controller s) with
  | Err _ => Ok (s, [], [])
  | Ok (ctl, c') => propose env now (s <| automatic_rekey ::= λ r, mark_started r now |>) ctl c'
  end.

Definition deadline_expired (s : Session) (now : Instant) : option RnetError :=
  d ← transition_deadline s;
  if decide (d ≤ now) then
    Some (mkRnetError ErrorCode.Timeout "security transition acknowledgement timed out")
  else None.

(** ** Claims *)

(** C36: A session in encrypted mode cannot carry every body the configuration admits.
    A body of more than 65494 bytes that [encode_frame] accepts within the configured
    maximum is protected as one Noise message; since a Noise message is limited to
    65535 bytes, picking it up fails with [CryptoError] and ends the session. *)
Theorem encrypted_body_limit env s cid payload frame :
  (∀ o m, 65535 < len m + 16 → oc_write o m = None) →
  cfg_max_body_len env ≤ u32_max - 200 →
  is_transitioning (controller s) = false → mode (controller s) = SecurityMode.Encrypted →
  encode_frame cid 0 payload (cfg_max_body_len env) = Ok frame → 65494 < len payload →
  outbound env true s OutData frame
  = Some (Err (mkRnetError ErrorCode.CryptoError "cryptographic operation failed")).
Proof.
  intros Hlimit Hcfg Hidle Hmode Henc Hlen. unfold outbound. rewrite Hidle, Hmode. cbn [negb].
  rewrite decide_True by done. f_equal. unfold encode_frame in Henc.
  case_decide; [done|]. cbn [mbind result_bind] in Henc.
  assert (validate_flags 0 = Ok tt) as Hv by done. rewrite Hv in Henc. cbn [mbind result_bind] in Henc.
  case_decide; [done|]. apply (inj Ok) in Henc. subst frame. set (frame := _ ++ _).
  assert (len frame = 20 + len payload) as Hf by (unfold frame; autorewrite with rnet; lia).
  unfold write_protected, max_payload.
  destruct (encode_protected _ _) as [inner|] eqn:Hin.
  - apply encode_protected_Ok in Hin as (_ & _ & ->). cbn [mbind result_bind].
    unfold Ordered.encrypt. rewrite Hlimit; [done|].
    unfold protected_bytes. autorewrite with rnet. cbn [pm_payload]. lia.
  - assert (encode_protected (mkProtectedMessage ProtectedKind.Data frame)
      (cfg_max_body_len env + 20 + 64)
      = Ok (protected_bytes (mkProtectedMessage ProtectedKind.Data frame))) as Hok; [|congruence].
    apply encode_protected_Ok. cbn [pm_payload]. split_and!; [lia|zlia|done].
Qed.

End session.

(** A cipher that enforces the Noise message limit. *)
Definition limited_cipher : OrderedCipher := {|
  oc_out := unit;
  oc_in := unit;
  oc_write _ m := if decide (65535 < len m + 16) then None else Some (m, tt);
  oc_read _ c := Some (c, tt);
  oc_rekey_out o := o;
  oc_rekey_in i := i
|}.

Definition big_body : list byte := replicate (Z.to_nat 65495) Byte.x00.

Lemma len_big_body : len big_body = 65495.
Proof. unfold len, big_body. rewrite length_replicate. lia. Qed.

Definition big_env : Env := mkEnv (1024 * 1024) 0 1 1.

Lemma encrypted_body_limit_witness :
  ∃ frame, encode_frame 7 0 big_body (cfg_max_body_len big_env) = Ok frame ∧
  outbound (H := limited_cipher) big_env true
    (mkSession (Ordered.mkSecureTransport (H := limited_cipher) tt tt)
       (controller_new Role.Client SecurityMode.Encrypted 1) None false (auto_rekey_new None None 0))
    OutData frame
  = Some (Err (mkRnetError ErrorCode.CryptoError "cryptographic operation failed")).
Proof.
  destruct (encode_frame 7 0 big_body (cfg_max_body_len big_env)) as [frame|e] eqn:Hf.
  - exists frame. split; [done|].
    refine (encrypted_body_limit (H := limited_cipher) big_env _ 7 big_body frame _ _ _ _ Hf _).
    + intros o m Hm. cbn. by rewrite decide_True.
    + by vm_compute.
    + done.
    + done.
    + by rewrite len_big_body.
  - exfalso. revert Hf. unfold encode_frame. rewrite len_big_body.
    rewrite decide_False by (cbn; zlia). cbn [mbind result_bind].
    assert (validate_flags 0 = Ok tt) as -> by done. cbn [mbind result_bind].
    rewrite decide_False by (cbn; zlia). done.
Defined.
