(* ===== verification/RangeState.v ===== *)
(** * Version negotiation state: [range_state.rs] and the events of [event.rs]

    The sessions under negotiation with the data that arrived before readiness, and the
    backlog of events the application has not polled.  Unsigned subtractions and
    [debug_assert!] are [Panic] when they fail. *)

From S2P Require Import Prelude Bytes CoreTypes TcpSession Observe GameWire Quality Heartbeat GameData.

Definition SELECT : Z := 1.
Definition ACK : Z := 2.
Definition READY : Z := 3.
Definition CONTROL_LEN : Z := 37.
Definition RETRY_INTERVAL : Duration := 100 * 10 ^ 6.
Definition NEGOTIATION_TIMEOUT : Duration := 3 * 10 ^ 9.
Definition MAX_BUFFERED_MESSAGES : Z := 32.
Definition MAX_BUFFERED_BYTES : Z := 256 * 1024.

Inductive GameEvent :=
| RuntimeStarted
| EndpointOpened (endpoint : Handle)
| EndpointError (endpoint : Handle) (status : ErrorCode.t)
| AuthRequest (endpoint session : Handle) (client_public_key join_ticket : list byte)
    (build_id capabilities : Z)
| ResumeRequest (endpoint session old_session : Handle) (identity client_public_key join_ticket : list byte)
    (build_id capabilities : Z)
| ProtocolRejected (endpoint session : Handle) (reason : ErrorCode.t)
| SessionReady (endpoint session : Handle)
| SessionResumed (endpoint old_session new_session : Handle)
| ResumeTicket (endpoint session : Handle) (ticket : list byte)
| SessionClosed (endpoint session : Handle) (reason : ErrorCode.t)
| Message (message : GameMessage)
| Writable (endpoint session : Handle)
| JoinFailed (endpoint session : Handle) (reason : ErrorCode.t)
| SecurityChanged (endpoint session : Handle) (encrypted : bool) (epoch : Z)
    (operation : SecurityOperation.t)
| QualityChanged (endpoint session : Handle) (quality : NetworkQuality)
| ProtocolViolation (endpoint session : Handle)
| RuntimeStopped.

Record RangeBufferSnapshot := mkRangeBufferSnapshot {
  snap_buffered_messages : Z;
  snap_buffered_bytes : Z;
  snap_peak_messages : Z;
  snap_peak_bytes : Z;
  snap_max_messages : Z;
  snap_max_bytes : Z;
  snap_session_rejected : Z;
  snap_runtime_rejected : Z
}.

Record ClientPending := mkClientPending { cp_protocol : GameProtocol; cp_nonce : list byte }.

Module Phase.
Inductive t :=
| ServerAwaitOpen
| ServerAwaitAck
| ServerReady
| ClientAwaitSelect
| ClientAwaitReady
| ClientReady.
#[global] Instance t_eq_dec : EqDecision t.
Proof. solve_decision. Defined.
Definition is_ready (p : t) : bool :=
  match p with ServerReady | ClientReady => true | _ => false end.
Definition is_server (p : t) : bool :=
  match p with ServerAwaitOpen | ServerAwaitAck | ServerReady => true | _ => false end.
End Phase.

Record RangeSession := mkRangeSession {
  rs_endpoint : Handle;
  rs_protocol : GameProtocol;
  rs_nonce : list byte;
  rs_selected : option Z;
  rs_server_handle : Handle;
  rs_old_session : option Handle;
  rs_server_resume : bool;
  rs_phase : Phase.t;
  rs_deadline : Instant;
  rs_next_retry : Instant;
  rs_buffered : list GameMessage;
  rs_buffered_bytes : Z
}.
#[export] Instance RangeSession_eta : Eta RangeSession := λ s,
  mkRangeSession (rs_endpoint s) (rs_protocol s) (rs_nonce s) (rs_selected s) (rs_server_handle s)
    (rs_old_session s) (rs_server_resume s) (rs_phase s) (rs_deadline s) (rs_next_retry s)
    (rs_buffered s) (rs_buffered_bytes s).

(** [RangeSession::control]. *)
Definition control (s : RangeSession) (operation : Z) : list byte :=
  [of_u8 operation] ++ rs_nonce s ++ be_encode 8 (protocol_id (rs_protocol s)) ++
  be_encode 4 (default 0 (rs_selected s)) ++ be_encode 8 (rs_server_handle s).

Record CompletedEvent := mkCompletedEvent {
  ce_event : GameEvent;
  ce_reserved : option Z
}.

Record RangeRuntimeState := mkRangeRuntimeState {
  server_endpoints : gmap Z GameProtocol;
  client_endpoints : gmap Z ClientPending;
  sessions : gmap Z RangeSession;
  completed : list CompletedEvent;
  public_messages : Z;
  public_bytes : Z;
  max_buffered_messages : Z;
  max_buffered_bytes : Z;
  buffered_messages : Z;
  buffered_bytes : Z;
  peak_buffered_messages : Z;
  peak_buffered_bytes : Z;
  session_admission_rejected : Z;
  runtime_admission_rejected : Z
}.
#[export] Instance RangeRuntimeState_eta : Eta RangeRuntimeState := λ r,
  mkRangeRuntimeState (server_endpoints r) (client_endpoints r) (sessions r) (completed r)
    (public_messages r) (public_bytes r) (max_buffered_messages r) (max_buffered_bytes r)
    (buffered_messages r) (buffered_bytes r) (peak_buffered_messages r) (peak_buffered_bytes r)
    (session_admission_rejected r) (runtime_admission_rejected r).

Definition with_buffer_limits (max_messages max_bytes : Z) : RangeRuntimeState :=
  mkRangeRuntimeState ∅ ∅ ∅ [] 0 0 max_messages max_bytes 0 0 0 0 0 0.

Definition range_clear (r : RangeRuntimeState) : RangeRuntimeState :=
  r <| server_endpoints := ∅ |> <| client_endpoints := ∅ |> <| sessions := ∅ |> <| completed := [] |>
    <| public_messages := 0 |> <| public_bytes := 0 |> <| buffered_messages := 0 |>
    <| buffered_bytes := 0 |>.

Definition forget_endpoint (r : RangeRuntimeState) (endpoint : Handle) : RangeRuntimeState :=
  r <| server_endpoints ::= delete endpoint |> <| client_endpoints ::= delete endpoint |>.
Definition forget_failed_client_endpoint (r : RangeRuntimeState) (endpoint : Handle) : RangeRuntimeState :=
  r <| client_endpoints ::= delete endpoint |>.

Definition public_payload_bytes (e : GameEvent) : Z :=
  match e with
  | Message m => len (gm_payload m)
  | AuthRequest _ _ _ join_ticket _ _ => len join_ticket
  | ResumeRequest _ _ _ identity _ join_ticket _ _ => len identity + len join_ticket
  | ResumeTicket _ _ ticket => len ticket
  | RuntimeStarted | RuntimeStopped | EndpointOpened _ | EndpointError _ _ | ProtocolRejected _ _ _
  | SessionReady _ _ | SessionResumed _ _ _ | SessionClosed _ _ _ | Writable _ _ | JoinFailed _ _ _
  | SecurityChanged _ _ _ _ _ | QualityChanged _ _ _ | ProtocolViolation _ _ => 0
  end.

Definition event_belongs_to_session (e : GameEvent) (session : Handle) : bool :=
  match e with
  | Message m => bool_decide (gm_session m = session)
  | SessionReady _ s | Writable _ s | SecurityChanged _ s _ _ _ | QualityChanged _ s _
  | ResumeTicket _ s _ => bool_decide (s = session)
  | SessionResumed _ _ new_session => bool_decide (new_session = session)
  | _ => false
  end.

(** [a - b] on unsigned integers, and [debug_assert!]. *)
Definition sub (a b : Z) : outcome Z := expect (checked_sub a b).
Definition debug_assert (P : Prop) `{!Decision P} : outcome unit :=
  if decide P then Done tt else Panic.

Definition release_reservation (r : RangeRuntimeState) (messages bytes : Z) : outcome RangeRuntimeState :=
  _ ← debug_assert (messages ≤ buffered_messages r);
  _ ← debug_assert (bytes ≤ buffered_bytes r);
  Done (r <| buffered_messages ::= λ n, saturating_sub n messages |>
          <| buffered_bytes ::= λ n, saturating_sub n bytes |>).

Definition release_completed (r : RangeRuntimeState) (c : CompletedEvent) : outcome RangeRuntimeState :=
  match ce_reserved c with
  | Some bytes => release_reservation r 1 bytes
  | None =>
    m ← sub (public_messages r) 1;
    b ← sub (public_bytes r) (public_payload_bytes (ce_event c));
    Done (r <| public_messages := m |> <| public_bytes := b |>)
  end.

(** The counters the closure of [retain] accumulates for a removed event: released
    messages and bytes, public messages and bytes. *)
Definition retire (acc : Z * Z * Z * Z) (c : CompletedEvent) : Z * Z * Z * Z :=
  let '(rm, rb, pm, pb) := acc in
  match ce_reserved c with
  | Some bytes => (saturating_add usize_max rm 1, saturating_add usize_max rb bytes, pm, pb)
  | None => (rm, rb, pm + 1, pb + public_payload_bytes (ce_event c))
  end.

Definition range_forget_session (r : RangeRuntimeState) (session : Handle) : outcome RangeRuntimeState :=
  r ← (match sessions r !! session with
       | Some state =>
         release_reservation (r <| sessions ::= delete session |>) (len (rs_buffered state))
           (rs_buffered_bytes state)
       | None => Done r
       end);
  let gone := filter (λ c, event_belongs_to_session (ce_event c) session = true) (completed r) in
  let kept := filter (λ c, event_belongs_to_session (ce_event c) session = false) (completed r) in
  let '(rm, rb, pm, pb) := foldl retire (0, 0, 0, 0) gone in
  r ← release_reservation (r <| completed := kept |>) rm rb;
  m ← sub (public_messages r) pm;
  b ← sub (public_bytes r) pb;
  Done (r <| public_messages := m |> <| public_bytes := b |>).

Definition public_capacity (r : RangeRuntimeState) : outcome (Z * Z) :=
  m ← sub (max_buffered_messages r) (public_messages r);
  b ← sub (max_buffered_bytes r) (public_bytes r);
  Done (m, b).

(** The loop of [drain_completed], over the queue. *)
Fixpoint drain_loop (queue : list CompletedEvent) (r : RangeRuntimeState) (output : list GameEvent)
    (capacity : Z) : outcome (RangeRuntimeState * list GameEvent) :=
  if decide (len output < capacity) then
    match queue with
    | [] => Done (r, output)
    | c :: queue =>
      r ← release_completed (r <| completed := queue |>) c;
      drain_loop queue r (output ++ [ce_event c]) capacity
    end
  else Done (r, output).
Definition drain_completed (r : RangeRuntimeState) (output : list GameEvent) (capacity : Z) :
    outcome (RangeRuntimeState * list GameEvent) :=
  drain_loop (completed r) r output capacity.

(** The session whose data an event must precede. *)
Definition announced (e : GameEvent) : option Handle :=
  match e with
  | SessionReady _ s => Some s
  | SessionResumed _ _ s => Some s
  | _ => None
  end.
Definition is_message_of (s : Handle) (c : CompletedEvent) : bool :=
  match ce_event c with
  | Message m => bool_decide (gm_session m = s)
  | _ => false
  end.
(** [iter().position(...)]. *)
Fixpoint position {A} (p : A → bool) (l : list A) : option nat :=
  match l with
  | [] => None
  | x :: l => if p x then Some O else S <$> position p l
  end.
(** [VecDeque::insert]. *)
Definition insert_at {A} (i : nat) (x : A) (l : list A) : list A := take i l ++ x :: drop i l.

Definition insertion (r : RangeRuntimeState) (e : GameEvent) : option nat :=
  match announced e with
  | Some s => position (is_message_of s) (completed r)
  | None => None
  end.

Definition queue_public (r : RangeRuntimeState) (event : GameEvent) (output : list GameEvent) (capacity : Z) :
    outcome (bool * RangeRuntimeState * list GameEvent) :=
  let deferred := bool_decide (capacity ≤ len output) || negb (bool_decide (completed r = [])) in
  '(r, output) ←
    (if deferred then
       let bytes := public_payload_bytes event in
       _ ← debug_assert (public_messages r < max_buffered_messages r);
       room ← sub (max_buffered_bytes r) (public_bytes r);
       _ ← debug_assert (bytes ≤ room);
       let c := mkCompletedEvent event None in
       Done (r <| public_messages ::= Z.add 1 |> <| public_bytes ::= Z.add bytes |>
               <| completed ::= match insertion r event with
                                | Some i => insert_at i c
                                | None => λ l, l ++ [c]
                                end |>,
             output)
     else Done (r, output ++ [event]));
  '(r, output) ← drain_completed r output capacity;
  Done (deferred, r, output).

Definition protocol_error {A} (m : string) : Result A := fail ErrorCode.ProtocolError m.

Definition reject_session {A} (r : RangeRuntimeState) (m : string) : outcome (Result A * RangeRuntimeState) :=
  Done (protocol_error m, r <| session_admission_rejected ::= λ n, saturating_add u64_max n 1 |>).
Definition reject_runtime {A} (r : RangeRuntimeState) (m : string) : outcome (Result A * RangeRuntimeState) :=
  Done (protocol_error m, r <| runtime_admission_rejected ::= λ n, saturating_add u64_max n 1 |>).

Definition buffer_message (r : RangeRuntimeState) (message : GameMessage) :
    outcome (Result (option GameEvent) * RangeRuntimeState) :=
  match sessions r !! gm_session message with
  | None => Done (Ok (Some (Message message)), r)
  | Some state =>
    if Phase.is_ready (rs_phase state) then Done (Ok (Some (Message message)), r) else
    let message_bytes := len (gm_payload message) in
    match checked_add usize_max (rs_buffered_bytes state) message_bytes with
    | None => reject_session r "v4 pending message budget overflow"
    | Some session_bytes =>
      if decide (MAX_BUFFERED_MESSAGES ≤ len (rs_buffered state) ∨ MAX_BUFFERED_BYTES < session_bytes) then
        reject_session r "v4 session pending-message budget exhausted"
      else
        match checked_add usize_max (buffered_messages r) 1 with
        | None => reject_runtime r "v4 runtime pending-message count overflow"
        | Some runtime_messages =>
          match checked_add usize_max (buffered_bytes r) message_bytes with
          | None => reject_runtime r "v4 runtime pending-message budget overflow"
          | Some runtime_bytes =>
            if decide (max_buffered_messages r < runtime_messages ∨ max_buffered_bytes r < runtime_bytes) then
              reject_runtime r "v4 runtime pending-message budget exhausted"
            else
              let r :=
                r <| buffered_messages := runtime_messages |> <| buffered_bytes := runtime_bytes |>
                  <| peak_buffered_messages ::= Z.max runtime_messages |>
                  <| peak_buffered_bytes ::= Z.max runtime_bytes |> in
              state ← expect (sessions r !! gm_session message);
              Done (Ok None,
                    r <| sessions ::= <[gm_session message :=
                           state <| rs_buffered_bytes := session_bytes |>
                                 <| rs_buffered ::= λ l, l ++ [message] |>]> |>)
          end
        end
    end
  end.

Definition range_snapshot (r : RangeRuntimeState) : RangeBufferSnapshot :=
  mkRangeBufferSnapshot (buffered_messages r) (buffered_bytes r) (peak_buffered_messages r)
    (peak_buffered_bytes r) (max_buffered_messages r) (max_buffered_bytes r)
    (session_admission_rejected r) (runtime_admission_rejected r).

Definition complete_buffered (r : RangeRuntimeState) (session : Handle) : RangeRuntimeState :=
  match sessions r !! session with
  | None => r
  | Some state =>
    r <| sessions ::= <[session := state <| rs_buffered_bytes := 0 |> <| rs_buffered := [] |>]> |>
      <| completed ::= λ l,
           l ++ ((λ m, mkCompletedEvent (Message m) (Some (len (gm_payload m)))) <$> rs_buffered state) |>
  end.

(** One iteration of [due_controls]: the retry, whether the session expired, and its new
    state. *)
Definition due_control (now : Instant) (state : RangeSession) : option (list byte) * bool * RangeSession :=
  let expired := bool_decide (rs_deadline state ≤ now) in
  let retry (operation : Z) :=
    if expired then (None, true, state)
    else if decide (rs_next_retry state ≤ now) then
      let state := state <| rs_next_retry := now + RETRY_INTERVAL |> in
      (Some (control state operation), false, state)
    else (None, false, state) in
  match rs_phase state with
  | Phase.ServerAwaitAck => retry SELECT
  | Phase.ClientAwaitReady => retry ACK
  | Phase.ClientAwaitSelect => (None, expired, state)
  | Phase.ServerAwaitOpen | Phase.ServerReady | Phase.ClientReady => (None, false, state)
  end.

Definition due_controls (r : RangeRuntimeState) (now : Instant) :
    list (Handle * list byte) * list Handle * RangeRuntimeState :=
  let retries :=
    omap (λ sx, (λ c, (sx.1, c)) <$> (due_control now sx.2).1.1) (map_to_list (sessions r)) in
  let expired :=
    (filter (λ sx, (due_control now sx.2).1.2 = true) (map_to_list (sessions r))).*1 in
  (retries, expired, r <| sessions ::= fmap (λ state, (due_control now state).2) |>).

(** ** Accounting *)

(** What a backlog entry holds of each budget. *)
Definition reserved_count (c : CompletedEvent) : Z := match ce_reserved c with Some _ => 1 | None => 0 end.
Definition reserved_size (c : CompletedEvent) : Z := default 0 (ce_reserved c).
Definition public_count (c : CompletedEvent) : Z := match ce_reserved c with Some _ => 0 | None => 1 end.
Definition public_size (c : CompletedEvent) : Z :=
  match ce_reserved c with Some _ => 0 | None => public_payload_bytes (ce_event c) end.
Definition payload_size (m : GameMessage) : Z := len (gm_payload m).

(** A reservation belongs to a message and is its payload. *)
Definition entry_wf (c : CompletedEvent) : Prop :=
  match ce_reserved c with
  | Some b => ∃ m, ce_event c = Message m ∧ b = payload_size m
  | None => True
  end.

Record session_wf (s : Handle) (x : RangeSession) : Prop := {
  sw_bytes : rs_buffered_bytes x = sumZ payload_size (rs_buffered x);
  sw_count_bound : len (rs_buffered x) ≤ MAX_BUFFERED_MESSAGES;
  sw_bytes_bound : rs_buffered_bytes x ≤ MAX_BUFFERED_BYTES;
  sw_ready : Phase.is_ready (rs_phase x) = true → rs_buffered x = [];
  sw_own : Forall (λ m, gm_session m = s) (rs_buffered x)
}.

Record range_inv (r : RangeRuntimeState) : Prop := {
  ri_messages : buffered_messages r =
    sum_map (λ x, len (rs_buffered x)) (sessions r) + sumZ reserved_count (completed r);
  ri_bytes : buffered_bytes r =
    sum_map rs_buffered_bytes (sessions r) + sumZ reserved_size (completed r);
  ri_public : public_messages r = sumZ public_count (completed r);
  ri_public_bytes : public_bytes r = sumZ public_size (completed r);
  ri_sessions : map_Forall session_wf (sessions r);
  ri_entries : Forall entry_wf (completed r);
  ri_bounds : buffered_messages r ≤ max_buffered_messages r ∧ buffered_bytes r ≤ max_buffered_bytes r ∧
              public_messages r ≤ max_buffered_messages r ∧ public_bytes r ≤ max_buffered_bytes r;
  ri_limits : max_buffered_messages r ≤ usize_max ∧ max_buffered_bytes r ≤ usize_max
}.

Lemma payload_size_nonneg m : 0 ≤ payload_size m.
Proof. apply len_nonneg. Qed.
Lemma public_payload_nonneg e : 0 ≤ public_payload_bytes e.
Proof.
  destruct e; cbn; try lia; try apply len_nonneg.
  pose proof (len_nonneg identity). pose proof (len_nonneg join_ticket). lia.
Qed.

Lemma entry_cases c :
  match ce_reserved c with
  | Some b => reserved_count c = 1 ∧ reserved_size c = b ∧ public_count c = 0 ∧ public_size c = 0
  | None => reserved_count c = 0 ∧ reserved_size c = 0 ∧ public_count c = 1 ∧
            public_size c = public_payload_bytes (ce_event c)
  end.
Proof. unfold reserved_count, reserved_size, public_count, public_size. by destruct (ce_reserved c). Qed.

Lemma entry_costs c :
  entry_wf c → 0 ≤ reserved_count c ∧ 0 ≤ reserved_size c ∧ 0 ≤ public_count c ∧ 0 ≤ public_size c.
Proof.
  unfold entry_wf, reserved_count, reserved_size, public_count, public_size. destruct (ce_reserved c); cbn.
  - intros (m & _ & ->). pose proof (payload_size_nonneg m). lia.
  - intros _. pose proof (public_payload_nonneg (ce_event c)). lia.
Qed.

(** The four sums of a well-formed backlog are not negative. *)
Lemma backlog_costs l :
  Forall entry_wf l →
  0 ≤ sumZ reserved_count l ∧ 0 ≤ sumZ reserved_size l ∧ 0 ≤ sumZ public_count l ∧ 0 ≤ sumZ public_size l.
Proof.
  induction 1 as [|c l Hc _ IH]; [done|]. rewrite !sumZ_cons. pose proof (entry_costs c Hc). lia.
Qed.

Lemma buffered_costs m :
  map_Forall session_wf m →
  0 ≤ sum_map (λ x, len (rs_buffered x)) m ∧ 0 ≤ sum_map rs_buffered_bytes m.
Proof.
  intros H. split; [apply sum_map_nonneg; intros; apply len_nonneg|].
  unfold sum_map. rewrite map_Forall_to_list in H.
  induction H as [|[s x] l Hx _ IH]; [done|]. rewrite sumZ_cons. cbn in *.
  rewrite (sw_bytes _ _ Hx). pose proof (sumZ_nonneg payload_size (rs_buffered x) payload_size_nonneg). lia.
Qed.

Lemma sessions_costs r :
  range_inv r → 0 ≤ sum_map (λ x, len (rs_buffered x)) (sessions r) ∧
  0 ≤ sum_map rs_buffered_bytes (sessions r).
Proof. intros H. apply buffered_costs, H. Qed.

Lemma with_buffer_limits_inv m b :
  0 ≤ m ≤ usize_max → 0 ≤ b ≤ usize_max → range_inv (with_buffer_limits m b).
Proof.
  intros Hm Hb. constructor; cbn -[usize_max]; try done; try lia; try (by rewrite sum_map_empty).
Qed.

Lemma sub_Done a b c : sub a b = Done c ↔ c = a - b ∧ b ≤ a.
Proof.
  unfold sub, checked_sub. case_decide; cbn; split; try naive_solver lia.
Qed.
Lemma sub_ok a b : b ≤ a → sub a b = Done (a - b).
Proof. intros. by apply sub_Done. Qed.
Lemma debug_assert_ok (P : Prop) `{!Decision P} : P → debug_assert P = Done tt.
Proof. intros. unfold debug_assert. by rewrite decide_True. Qed.

Lemma release_reservation_ok r m b :
  0 ≤ m ≤ buffered_messages r → 0 ≤ b ≤ buffered_bytes r →
  release_reservation r m b =
    Done (r <| buffered_messages ::= λ n, n - m |> <| buffered_bytes ::= λ n, n - b |>).
Proof.
  intros Hm Hb. unfold release_reservation. rewrite !debug_assert_ok by lia. cbn.
  unfold update. unfold saturating_sub. rewrite !Z.max_l by lia. done.
Qed.

(** What draining and publishing leave alone. *)
Definition framed (r r' : RangeRuntimeState) : Prop :=
  sessions r' = sessions r ∧ server_endpoints r' = server_endpoints r ∧
  client_endpoints r' = client_endpoints r ∧
  max_buffered_messages r' = max_buffered_messages r ∧ max_buffered_bytes r' = max_buffered_bytes r.
#[export] Instance framed_preorder : PreOrder framed.
Proof. split; [done|]. unfold framed. intros ??? (?&?&?&?&?) (?&?&?&?&?). split_and!; congruence. Qed.

Abbreviation events r := (ce_event <$> completed r) (only parsing).

Lemma release_completed_ok r c q :
  range_inv r → completed r = c :: q →
  ∃ r', release_completed (r <| completed := q |>) c = Done r' ∧ range_inv r' ∧ completed r' = q ∧
    framed r r' ∧ public_messages r' = public_messages r - public_count c ∧
    public_bytes r' = public_bytes r - public_size c.
Proof.
  intros Hr Hq. pose proof (sessions_costs r Hr) as [Hs1 Hs2]. destruct Hr as [H1 H2 H3 H4 H5 H6 H7 H8].
  rewrite Hq in *. rewrite !sumZ_cons in *. apply Forall_cons in H6 as [Hc H6].
  pose proof (entry_costs c Hc) as Hcost. pose proof (backlog_costs q H6) as Hrest.
  pose proof (entry_cases c) as Ec.
  unfold release_completed. destruct (ce_reserved c) as [b|] eqn:E.
  - rewrite release_reservation_ok by (cbn; lia).
    eexists. split_and!; [reflexivity| |done..|cbn; lia|cbn; lia]. constructor; cbn; try done; lia.
  - cbn [public_messages public_bytes update]. rewrite !sub_ok by (cbn; lia). cbn [mbind outcome_bind].
    eexists. split_and!; [reflexivity| |done..|cbn; lia|cbn; lia]. constructor; cbn; try done; lia.
Qed.

(** Draining moves a prefix of the backlog to the output and keeps the rest. *)
Lemma drain_loop_ok capacity : ∀ q r output,
  range_inv r → completed r = q →
  ∃ r' output', drain_loop q r output capacity = Done (r', output') ∧ range_inv r' ∧ framed r r' ∧
    output' ++ events r' = output ++ events r ∧
    public_messages r' ≤ public_messages r ∧ public_bytes r' ≤ public_bytes r ∧
    (len output' < capacity → completed r' = []).
Proof.
  induction q as [|c q IH]; intros r output Hr Hq; cbn [drain_loop].
  { exists r, output. destruct (decide _); split_and!; by try (rewrite ?Hq). }
  destruct (decide (len output < capacity)) as [Hc|Hc].
  2: { exists r, output. split_and!; try done. }
  destruct (release_completed_ok r c q Hr Hq) as (r1 & -> & Hr1 & Hq1 & Hf & Hp & Hb).
  cbn [mbind outcome_bind].
  destruct (IH r1 (output ++ [ce_event c]) Hr1 Hq1) as (r2 & o2 & -> & Hr2 & Hf2 & He & Hp2 & Hb2 & Hlast).
  assert (entry_wf c) as Hw by (apply ri_entries in Hr; rewrite Hq in Hr; by inversion Hr).
  pose proof (entry_costs c Hw).
  exists r2, o2. split_and!; try done; [by etrans|  |lia|lia].
  rewrite He, Hq1, Hq. cbn. by rewrite <- app_assoc.
Qed.

(** Draining respects the capacity of the output. *)
Lemma drain_loop_len capacity : ∀ q r output r' output',
  drain_loop q r output capacity = Done (r', output') → len output ≤ capacity → len output' ≤ capacity.
Proof.
  induction q as [|c q IH]; intros r output r' output'; cbn [drain_loop]; case_decide;
    try (by intros [= _ <-]).
  destruct (release_completed _ c) as [r1|]; cbn [mbind outcome_bind]; [|done].
  intros E _. apply IH in E; [done|]. rewrite len_app, len_cons, len_nil. lia.
Qed.

Lemma drain_completed_ok r output capacity :
  range_inv r →
  ∃ r' output', drain_completed r output capacity = Done (r', output') ∧ range_inv r' ∧ framed r r' ∧
    output' ++ events r' = output ++ events r ∧
    public_messages r' ≤ public_messages r ∧ public_bytes r' ≤ public_bytes r ∧
    (len output' < capacity → completed r' = []).
Proof. intros Hr. by apply drain_loop_ok. Qed.

(** *** Publication *)

(** Where a public event goes in the backlog. *)
Definition message_of (s : Handle) (e : GameEvent) : bool :=
  match e with Message m => bool_decide (gm_session m = s) | _ => false end.
Definition placed (e : GameEvent) (l : list GameEvent) : list GameEvent :=
  match announced e with
  | Some s => match position (message_of s) l with Some i => insert_at i e l | None => l ++ [e] end
  | None => l ++ [e]
  end.

Lemma position_fmap {A B} (f : A → B) p l : position p (f <$> l) = position (λ x, p (f x)) l.
Proof. induction l as [|x l IH]; [done|]. cbn. rewrite IH. done. Qed.

Lemma insert_at_Permutation {A} i (x : A) l : insert_at i x l ≡ₚ x :: l.
Proof. unfold insert_at. rewrite <- (take_drop i l) at 3. solve_Permutation. Qed.

Lemma fmap_insert_at {A B} (f : A → B) i x l : f <$> insert_at i x l = insert_at i (f x) (f <$> l).
Proof. unfold insert_at. by rewrite fmap_app, fmap_cons, fmap_take, fmap_drop. Qed.

(** The backlog after a deferred publication. *)
Definition enqueue (r : RangeRuntimeState) (e : GameEvent) : list CompletedEvent → list CompletedEvent :=
  match insertion r e with
  | Some i => insert_at i (mkCompletedEvent e None)
  | None => λ l, l ++ [mkCompletedEvent e None]
  end.

Lemma enqueue_Permutation r e l : enqueue r e l ≡ₚ mkCompletedEvent e None :: l.
Proof.
  unfold enqueue. destruct (insertion r e); [apply insert_at_Permutation|solve_Permutation].
Qed.

Lemma enqueue_events r e : ce_event <$> enqueue r e (completed r) = placed e (events r).
Proof.
  unfold enqueue, insertion, placed. destruct (announced e) as [s|]; [|by rewrite fmap_app].
  rewrite position_fmap. change (λ x, message_of s (ce_event x)) with (is_message_of s).
  destruct (position _ _); [by rewrite fmap_insert_at|by rewrite fmap_app].
Qed.

(** The room [poll_network_with_budget] leaves for an event of [bytes]. *)
Definition public_room (r : RangeRuntimeState) (n bytes : Z) : Prop :=
  public_messages r + n ≤ max_buffered_messages r ∧ public_bytes r + bytes ≤ max_buffered_bytes r.

Lemma queue_public_ok r e output capacity n b :
  range_inv r → 1 ≤ n → public_payload_bytes e ≤ b → public_room r n b →
  ∃ d r' output', queue_public r e output capacity = Done (d, r', output') ∧ range_inv r' ∧ framed r r' ∧
    output' ++ events r' = output ++ placed e (events r) ∧
    public_room r' (n - 1) (b - public_payload_bytes e).
Proof.
  intros Hr Hn Hb [Hr1 Hr2]. unfold queue_public.
  destruct (bool_decide (capacity ≤ len output) || negb (bool_decide (completed r = []))) eqn:Hd.
  - rewrite debug_assert_ok by lia. cbn [mbind outcome_bind].
    rewrite sub_ok by (apply Hr). cbn [mbind outcome_bind]. rewrite debug_assert_ok by lia.
    cbn [mbind outcome_bind]. fold (enqueue r e).
    set (r1 := r <| public_messages ::= _ |> <| public_bytes ::= _ |> <| completed ::= _ |>).
    assert (Hr1' : range_inv r1).
    { destruct Hr as [H1 H2 H3 H4 H5 H6 H7 H8]. pose proof (public_payload_nonneg e).
      assert (Hc : reserved_count (mkCompletedEvent e None) = 0 ∧ reserved_size (mkCompletedEvent e None) = 0 ∧
        public_count (mkCompletedEvent e None) = 1 ∧
        public_size (mkCompletedEvent e None) = public_payload_bytes e) by done.
      constructor; cbn; rewrite ?enqueue_Permutation, ?sumZ_cons; try done; try lia.
      by constructor. }
    destruct (drain_completed_ok r1 output capacity Hr1') as (r2 & o2 & -> & Hr2' & Hf & He & Hp & Hpb & _).
    cbn [mbind outcome_bind]. exists true, r2, o2. split_and!; [done..| |].
    + rewrite He. cbn. by rewrite enqueue_events.
    + destruct Hf as (_ & _ & _ & F1 & F2). cbn in Hp, Hpb, F1, F2. split; lia.
  - apply orb_false_iff in Hd as [Hd1 Hd2]. apply bool_decide_eq_false in Hd1.
    apply negb_false_iff, bool_decide_eq_true in Hd2. cbn [mbind outcome_bind].
    destruct (drain_completed_ok r (output ++ [e]) capacity Hr) as (r2 & o2 & -> & Hr2' & Hf & He & Hp & Hpb & _).
    cbn [mbind outcome_bind]. exists false, r2, o2. split_and!; [done..| |].
    + rewrite He, Hd2. cbn. rewrite app_nil_r. unfold placed. destruct (announced e); done.
    + pose proof (public_payload_nonneg e). destruct Hf as (_ & _ & _ & F1 & F2). split; lia.
Qed.

Lemma queue_public_len r e output capacity d r' output' :
  queue_public r e output capacity = Done (d, r', output') → len output ≤ capacity → len output' ≤ capacity.
Proof.
  intros E Hl. unfold queue_public in E. destruct (_ || _) eqn:Hd.
  - destruct (debug_assert _); [|done]. cbn [mbind outcome_bind] in E.
    destruct (sub _ _); [|done]. cbn [mbind outcome_bind] in E. destruct (debug_assert _); [|done].
    cbn [mbind outcome_bind] in E. destruct (drain_completed _ _ _) as [[r1 o1]|] eqn:Ed; [|done].
    injection E as _ _ <-. by eapply drain_loop_len.
  - apply orb_false_iff in Hd as [Hc%bool_decide_eq_false _]. cbn [mbind outcome_bind] in E.
    destruct (drain_completed _ _ _) as [[r1 o1]|] eqn:Ed; [|done].
    injection E as _ _ <-. eapply drain_loop_len; [exact Ed|]. rewrite len_app, len_cons, len_nil. lia.
Qed.

(** *** Early data *)

Lemma session_replaced r s x x' :
  range_inv r → sessions r !! s = Some x → session_wf s x' →
  map_Forall session_wf (<[s := x']> (sessions r)).
Proof. intros Hr _ Hx'. apply map_Forall_insert_2; [done|apply Hr]. Qed.

(** Early data is kept for its session within both budgets, or rejected without effect. *)
Lemma buffer_message_ok r m :
  range_inv r →
  ∃ res r', buffer_message r m = Done (res, r') ∧ range_inv r' ∧ completed r' = completed r ∧
    public_messages r' = public_messages r ∧ public_bytes r' = public_bytes r ∧
    max_buffered_messages r' = max_buffered_messages r ∧ max_buffered_bytes r' = max_buffered_bytes r ∧
    match res with
    | Ok (Some e) => e = Message m ∧ r' = r ∧
        (∀ x, sessions r !! gm_session m = Some x → Phase.is_ready (rs_phase x) = true)
    | Ok None => ∃ x x', sessions r !! gm_session m = Some x ∧ Phase.is_ready (rs_phase x) = false ∧
        sessions r' = <[gm_session m := x']> (sessions r) ∧ rs_phase x' = rs_phase x ∧
        rs_buffered x' = rs_buffered x ++ [m] ∧ rs_old_session x' = rs_old_session x ∧
        rs_server_resume x' = rs_server_resume x
    | Err _ => sessions r' = sessions r
    end.
Proof.
  intros Hr. unfold buffer_message.
  destruct (sessions r !! gm_session m) as [x|] eqn:Hx.
  2: { exists (Ok (Some (Message m))), r. split_and!; done. }
  destruct (Phase.is_ready (rs_phase x)) eqn:Hp.
  { exists (Ok (Some (Message m))), r. split_and!; try done. by intros ? [= <-]. }
  pose proof (ri_sessions _ Hr _ _ Hx) as [Hw1 Hw2 Hw3 Hw4 Hw5].
  pose proof (len_nonneg (gm_payload m)) as Hpay.
  destruct Hr as [H1 H2 H3 H4 H5 H6 H7 H8] eqn:Er.
  unfold checked_add. fold (payload_size m).
  destruct (decide (rs_buffered_bytes x + payload_size m ≤ usize_max)) as [Ho|Ho].
  2: { unfold MAX_BUFFERED_BYTES in Hw3. eexists _, _. split_and!; [reflexivity|by constructor|done..]. }
  case_decide as Hc1.
  { eexists _, _. split_and!; [reflexivity|by constructor|done..]. }
  destruct (decide (buffered_messages r + 1 ≤ usize_max)) as [Ho1|Ho1].
  2: { eexists _, _. split_and!; [reflexivity|by constructor|done..]. }
  destruct (decide (buffered_bytes r + payload_size m ≤ usize_max)) as [Ho2|Ho2].
  2: { eexists _, _. split_and!; [reflexivity|by constructor|done..]. }
  case_decide as Hc2.
  { eexists _, _. split_and!; [reflexivity|by constructor|done..]. }
  cbn. rewrite Hx. cbn [expect mbind outcome_bind].
  eexists _, _. split_and!; [reflexivity| |done..|].
  2: { cbn. eexists x, _. split_and!; done. }
  constructor; cbn; try done; try lia.
  - rewrite (sum_map_update _ _ _ _ _ Hx). cbn. rewrite len_app, len_cons, len_nil. lia.
  - rewrite (sum_map_update _ _ _ _ _ Hx). cbn. lia.
  - apply map_Forall_insert_2; [|done]. constructor; cbn.
    + rewrite sumZ_app, sumZ_cons, sumZ_nil. lia.
    + rewrite len_app, len_cons, len_nil. lia.
    + lia.
    + congruence.
    + apply Forall_app. split; [done|]. by constructor.
Qed.

Lemma alter_as_insert {A} (f : A → A) (m : gmap Z A) i x :
  m !! i = Some x → alter f i m = <[i := f x]> m.
Proof.
  intros Hi. apply map_eq. intros j. destruct (decide (j = i)) as [->|].
  - by rewrite lookup_alter_eq, lookup_insert_eq, Hi.
  - by rewrite lookup_alter_ne, lookup_insert_ne by done.
Qed.

(** Readiness: the phase, then [complete_buffered]. *)
Definition make_ready (r : RangeRuntimeState) (s : Handle) (p : Phase.t) : RangeRuntimeState :=
  complete_buffered (r <| sessions ::= alter (λ x, x <| rs_phase := p |>) s |>) s.

Lemma make_ready_ok r s x p :
  range_inv r → sessions r !! s = Some x →
  range_inv (make_ready r s p) ∧
  events (make_ready r s p) = events r ++ (Message <$> rs_buffered x) ∧
  public_messages (make_ready r s p) = public_messages r ∧
  public_bytes (make_ready r s p) = public_bytes r ∧
  max_buffered_messages (make_ready r s p) = max_buffered_messages r ∧
  max_buffered_bytes (make_ready r s p) = max_buffered_bytes r ∧
  ∃ x', sessions (make_ready r s p) = <[s := x']> (sessions r) ∧ rs_phase x' = p ∧ rs_buffered x' = [].
Proof.
  intros Hr Hx. pose proof (ri_sessions _ Hr _ _ Hx) as [Hw1 Hw2 Hw3 Hw4 Hw5].
  unfold make_ready, complete_buffered. cbn. rewrite (alter_as_insert _ _ _ _ Hx), lookup_insert_eq. cbn.
  rewrite insert_insert_eq. split_and!; try done.
  - destruct Hr as [H1 H2 H3 H4 H5 H6 H7 H8].
    assert (Hc : ∀ l, let k := (λ m, mkCompletedEvent (Message m) (Some (len (gm_payload m)))) <$> l in
      sumZ reserved_count k = len l ∧ sumZ reserved_size k = sumZ payload_size l ∧
      sumZ public_count k = 0 ∧ sumZ public_size k = 0 ∧ Forall entry_wf k).
    { induction l as [|m l IH]; [done|]. cbn in *. rewrite !sumZ_cons, len_cons.
      destruct IH as (-> & -> & -> & -> & IH). split_and!; try done. constructor; [|done].
      by exists m. }
    destruct (Hc (rs_buffered x)) as (C1 & C2 & C3 & C4 & C5).
    constructor; cbn; rewrite ?sumZ_app, ?(sum_map_update _ _ _ _ _ Hx), ?C1, ?C2, ?C3, ?C4; cbn;
      rewrite ?len_nil; try done; try lia.
    + apply map_Forall_insert_2; [|done]. constructor; done.
    + by apply Forall_app.
  - rewrite fmap_app, <- list_fmap_compose. done.
  - by eexists.
Qed.

(** *** Forgetting a session *)

Lemma retire_fold gone : ∀ rm rb pm pb,
  Forall entry_wf gone →
  0 ≤ rm → 0 ≤ rb → rm + sumZ reserved_count gone ≤ usize_max → rb + sumZ reserved_size gone ≤ usize_max →
  foldl retire (rm, rb, pm, pb) gone =
  (rm + sumZ reserved_count gone, rb + sumZ reserved_size gone, pm + sumZ public_count gone,
   pb + sumZ public_size gone).
Proof.
  induction gone as [|c gone IH]; intros rm rb pm pb Hw Hrm Hrb H1 H2.
  { cbn. rewrite !sumZ_nil. repeat apply (f_equal2 pair); lia. }
  apply Forall_cons in Hw as [Hc Hw]. pose proof (backlog_costs gone Hw). pose proof (entry_costs c Hc).
  rewrite !sumZ_cons in *. cbn [foldl].
  assert (E : retire (rm, rb, pm, pb) c =
    (rm + reserved_count c, rb + reserved_size c, pm + public_count c, pb + public_size c)).
  { pose proof (entry_cases c) as Ec. unfold retire, saturating_add. destruct (ce_reserved c).
    - rewrite !Z.min_l by lia. repeat apply (f_equal2 pair); lia.
    - repeat apply (f_equal2 pair); lia. }
  rewrite E, IH by (done || lia). repeat apply (f_equal2 pair); lia.
Qed.

(** The session's early data is released. *)
Lemma drop_session_ok r s :
  range_inv r →
  ∃ r1, (match sessions r !! s with
         | Some state => release_reservation (r <| sessions ::= delete s |>) (len (rs_buffered state))
             (rs_buffered_bytes state)
         | None => Done r
         end) = Done r1 ∧ range_inv r1 ∧ sessions r1 = delete s (sessions r) ∧
    completed r1 = completed r ∧ server_endpoints r1 = server_endpoints r ∧
    client_endpoints r1 = client_endpoints r ∧
    max_buffered_messages r1 = max_buffered_messages r ∧ max_buffered_bytes r1 = max_buffered_bytes r ∧
    public_messages r1 = public_messages r ∧ public_bytes r1 = public_bytes r.
Proof.
  intros Hr. destruct (sessions r !! s) as [x|] eqn:Hx.
  2: { exists r. split_and!; try done. by rewrite delete_id. }
  pose proof (backlog_costs _ (ri_entries _ Hr)) as Hb.
  pose proof (ri_sessions _ Hr _ _ Hx) as [Hw1 Hw2 Hw3 Hw4 Hw5].
  pose proof (buffered_costs (delete s (sessions r)) (map_Forall_delete _ _ _ (ri_sessions _ Hr))) as Hs.
  destruct Hr as [H1 H2 H3 H4 H5 H6 H7 H8].
  pose proof (len_nonneg (rs_buffered x)).
  pose proof (sumZ_nonneg payload_size (rs_buffered x) payload_size_nonneg).
  rewrite (sum_map_delete _ _ _ _ Hx) in H1. rewrite (sum_map_delete _ _ _ _ Hx) in H2.
  rewrite release_reservation_ok by (cbn; lia).
  eexists. split_and!; [reflexivity| |done..].
  constructor; cbn; try done; try lia. by apply map_Forall_delete.
Qed.

Lemma range_forget_session_ok r s :
  range_inv r →
  ∃ r', range_forget_session r s = Done r' ∧ range_inv r' ∧ sessions r' = delete s (sessions r) ∧
    completed r' = filter (λ c, event_belongs_to_session (ce_event c) s = false) (completed r) ∧
    max_buffered_messages r' = max_buffered_messages r ∧ max_buffered_bytes r' = max_buffered_bytes r ∧
    server_endpoints r' = server_endpoints r ∧ client_endpoints r' = client_endpoints r ∧
    public_messages r' ≤ public_messages r ∧ public_bytes r' ≤ public_bytes r.
Proof.
  intros Hr. unfold range_forget_session.
  destruct (drop_session_ok r s Hr) as (r1 & -> & Hr1 & Hs & Hc & He1 & He2 & Hm1 & Hm2 & Hp1 & Hp2).
  cbn [mbind outcome_bind]. pose proof (sessions_costs r1 Hr1) as Hsc. destruct Hr1 as [H1 H2 H3 H4 H5 H6 H7 H8].
  set (P := λ c, event_belongs_to_session (ce_event c) s = true).
  set (gone := filter P (completed r1)). set (kept := filter _ (completed r1)).
  assert (Hk : ∀ f, sumZ f (completed r1) = sumZ f gone + sumZ f kept).
  { intros f. rewrite (sumZ_filter_split f P). f_equal. unfold kept. f_equal. apply list_filter_iff.
    intros c. unfold P. by destruct (event_belongs_to_session _ _). }
  assert (Hg : Forall entry_wf gone) by (apply Forall_forall; intros c [_ Hin]%list_elem_of_filter; exact (proj1 (Forall_forall _ _) H6 c Hin)).
  assert (Hkw : Forall entry_wf kept) by (apply Forall_forall; intros c [_ Hin]%list_elem_of_filter; exact (proj1 (Forall_forall _ _) H6 c Hin)).
  pose proof (backlog_costs _ Hg). pose proof (backlog_costs _ Hkw). rewrite !Hk in *.
  rewrite retire_fold by (done || lia). cbn [mbind outcome_bind].
  rewrite release_reservation_ok by (cbn; lia). cbn [mbind outcome_bind].
  rewrite !sub_ok by (cbn; lia). cbn [mbind outcome_bind].
  eexists. split_and!; [reflexivity|..]; cbn; try done; try lia; [|by rewrite <- Hc].
  constructor; cbn; try done; lia.
Qed.

(** *** Timers *)

Lemma due_control_keeps now x :
  let x' := (due_control now x).2 in
  rs_phase x' = rs_phase x ∧ rs_buffered x' = rs_buffered x ∧ rs_buffered_bytes x' = rs_buffered_bytes x ∧
  rs_deadline x' = rs_deadline x.
Proof.
  unfold due_control. destruct (rs_phase x) eqn:E; cbn; try case_bool_decide; try case_decide; cbn;
    by rewrite ?E.
Qed.

Lemma due_controls_ok r now :
  range_inv r →
  range_inv (due_controls r now).2 ∧ completed (due_controls r now).2 = completed r ∧
  sessions (due_controls r now).2 = (λ x, (due_control now x).2) <$> sessions r.
Proof.
  intros [H1 H2 H3 H4 H5 H6 H7 H8]. split_and!; [|done..]. constructor; cbn; try done.
  - rewrite sum_map_fmap; [done|]. intros x. by rewrite (proj1 (proj2 (due_control_keeps now x))).
  - rewrite sum_map_fmap; [done|]. intros x. apply due_control_keeps.
  - intros s x (y & <- & Hy)%lookup_fmap_Some. destruct (H5 s y Hy) as [W1 W2 W3 W4 W5].
    destruct (due_control_keeps now y) as (E1 & E2 & E3 & _).
    by constructor; rewrite ?E1, ?E2, ?E3.
Qed.

(** ** Conversion of network events *)

(** What converting one network event does to the range state and the event it yields:
    data; a control that completes the negotiation of [s]; a session registered for
    negotiation; the close of a session; any other public event; a hidden control. *)
Inductive conversion :=
| Received (m : GameMessage)
| BecameReady (s : Handle) (p : Phase.t) (e : GameEvent)
| Opened (s : Handle) (x : RangeSession) (e : GameEvent)
| Closed (s : Handle) (e : GameEvent)
| Published (e : GameEvent)
| Hidden.

(** The payload the network event carried at least. *)
Definition conversion_size (c : conversion) : Z :=
  match c with
  | Received m => payload_size m
  | Opened _ _ e | Closed _ e | Published e => public_payload_bytes e
  | BecameReady _ _ _ | Hidden => 0
  end.

Definition convert (r : RangeRuntimeState) (c : conversion) :
    outcome (Result (option GameEvent) * RangeRuntimeState) :=
  match c with
  | Received m => buffer_message r m
  | BecameReady s p e =>
    match sessions r !! s with
    | Some x =>
      if Phase.is_ready (rs_phase x) then Done (Ok None, r) else Done (Ok (Some e), make_ready r s p)
    | None => Done (Ok None, r)
    end
  | Opened s x e => Done (Ok (Some e), r <| sessions ::= <[s := x]> |>)
  | Closed s e => r ← range_forget_session r s; Done (Ok (Some e), r)
  | Published e => Done (Ok (Some e), r)
  | Hidden => Done (Ok None, r)
  end.

(** The application's side: the events of earlier polls, and the output and capacity of
    the current one.  [fd_accepted] lists the messages that were not rejected. *)
Record Feed := mkFeed {
  fd_range : RangeRuntimeState;
  fd_capacity : Z;
  fd_output : list GameEvent;
  fd_delivered : list GameEvent;
  fd_accepted : list GameMessage
}.
#[export] Instance Feed_eta : Eta Feed := λ f,
  mkFeed (fd_range f) (fd_capacity f) (fd_output f) (fd_delivered f) (fd_accepted f).

Definition accept (c : conversion) (res : Result (option GameEvent)) : list GameMessage :=
  match c, res with
  | Received m, Ok _ => [m]
  | _, _ => []
  end.

(** The violation reported when a conversion fails. *)
Definition violation (c : conversion) : GameEvent :=
  match c with
  | Received m => ProtocolViolation (gm_endpoint m) (gm_session m)
  | _ => ProtocolViolation 0 0
  end.

(** An iteration of [convert_events_into]. *)
Definition convert_one (f : Feed) (c : conversion) : outcome Feed :=
  '(res, r) ← convert (fd_range f) c;
  '(r, output) ←
    match res with
    | Ok (Some e) => '(_, r, o) ← queue_public r e (fd_output f) (fd_capacity f); Done (r, o)
    | Ok None => Done (r, fd_output f)
    | Err _ => '(_, r, o) ← queue_public r (violation c) (fd_output f) (fd_capacity f); Done (r, o)
    end;
  '(r, output) ← drain_completed r output (fd_capacity f);
  Done (f <| fd_range := r |> <| fd_output := output |> <| fd_accepted ::= λ l, l ++ accept c res |>).

Fixpoint convert_all (f : Feed) (cs : list conversion) : outcome Feed :=
  match cs with
  | [] => Done f
  | c :: cs => f ← convert_one f c; convert_all f cs
  end.

(** The network hands over the longest prefix within the limits. *)
Fixpoint fitting (slots bytes : Z) (cs : list conversion) : list conversion :=
  match cs with
  | [] => []
  | c :: cs =>
    if decide (1 ≤ slots ∧ conversion_size c ≤ bytes)
    then c :: fitting (slots - 1) (bytes - conversion_size c) cs else []
  end.

Inductive feed_action :=
| Batch (cs : list conversion)
| Tick (now : Instant)
| Forget (s : Handle)
| NewPoll (capacity : Z).

Definition feed_act (f : Feed) (a : feed_action) : outcome Feed :=
  match a with
  | Batch cs =>
    '(slots, bytes) ← public_capacity (fd_range f);
    convert_all f (fitting slots bytes cs)
  | Tick now => Done (f <| fd_range ::= λ r, (due_controls r now).2 |>)
  | Forget s => r ← range_forget_session (fd_range f) s; Done (f <| fd_range := r |>)
  | NewPoll capacity =>
    '(r, output) ← drain_completed (fd_range f) [] capacity;
    Done (mkFeed r capacity output (fd_delivered f ++ fd_output f) (fd_accepted f))
  end.

Fixpoint feed_run (f : Feed) (acts : list feed_action) : outcome Feed :=
  match acts with
  | [] => Done f
  | a :: acts => f ← feed_act f a; feed_run f acts
  end.

(** A session enters negotiation with nothing buffered and not ready. *)
Definition candidate (x : RangeSession) : Prop :=
  rs_buffered x = [] ∧ rs_buffered_bytes x = 0 ∧ Phase.is_ready (rs_phase x) = false.
(** Neither data nor a readiness announcement. *)
Definition plain (e : GameEvent) : Prop :=
  announced e = None ∧ match e with Message _ => False | _ => True end.

(** What the transport guarantees of a conversion when the handles [opened] were used before:
    new sessions have new handles, and data comes from a session that was opened. *)
Definition conversion_ok (opened : list Handle) (c : conversion) : Prop :=
  match c with
  | Received m => gm_session m ∈ opened
  | BecameReady s p e => announced e = Some s ∧ Phase.is_ready p = true
  | Opened s x e => (s ∉ opened) ∧ candidate x ∧ plain e
  | Closed _ e | Published e => plain e
  | Hidden => True
  end.
Definition now_opened (opened : list Handle) (c : conversion) : list Handle :=
  match c with Opened s _ _ => s :: opened | _ => opened end.
Fixpoint conversions_ok (opened : list Handle) (cs : list conversion) : Prop :=
  match cs with
  | [] => True
  | c :: cs => conversion_ok opened c ∧ conversions_ok (now_opened opened c) cs
  end.
Fixpoint history_ok (opened : list Handle) (acts : list feed_action) : Prop :=
  match acts with
  | [] => True
  | Batch cs :: acts => conversions_ok opened cs ∧ history_ok (foldl now_opened opened cs) acts
  | _ :: acts => history_ok opened acts
  end.

(** *** No conversion panics or leaves the budgets *)

(** Every session is one of the handles [opened]. *)
Definition known (opened : list Handle) (r : RangeRuntimeState) : Prop :=
  ∀ s, is_Some (sessions r !! s) → s ∈ opened.

Lemma insert_candidate r s x :
  range_inv r → sessions r !! s = None → candidate x → range_inv (r <| sessions ::= <[s := x]> |>).
Proof.
  intros [H1 H2 H3 H4 H5 H6 H7 H8] Hs (E1 & E2 & E3).
  constructor; cbn; try done; rewrite ?sum_map_insert, ?E1, ?E2 by done; cbn; rewrite ?len_nil; try lia.
  apply map_Forall_insert_2; [|done]. constructor; rewrite ?E1, ?E2; cbn; rewrite ?sumZ_nil; done.
Qed.

Ltac unchanged := eexists _, _; split_and!; [reflexivity|done|..]; cbn; lia || done.

Lemma convert_ok opened r c :
  range_inv r → known opened r → conversion_ok opened c →
  ∃ res r', convert r c = Done (res, r') ∧ range_inv r' ∧
    max_buffered_messages r' = max_buffered_messages r ∧ max_buffered_bytes r' = max_buffered_bytes r ∧
    public_messages r' ≤ public_messages r ∧ public_bytes r' ≤ public_bytes r ∧
    match res with Ok (Some e) => public_payload_bytes e ≤ conversion_size c | _ => True end.
Proof.
  intros Hr Hk Hc. destruct c as [m|s p e|s x e|s e|e|]; cbn [convert conversion_ok] in *.
  - destruct (buffer_message_ok r m Hr) as (res & r' & -> & Hr' & _ & P1 & P2 & M1 & M2 & H).
    eexists _, _. split_and!; try done; try lia. destruct res as [[e|]|]; [|done..]. by destruct H as [-> _].
  - destruct (sessions r !! s) as [x|] eqn:Hx; [destruct (Phase.is_ready (rs_phase x)) eqn:Hp|];
      [unchanged| |unchanged].
    destruct (make_ready_ok r s x p Hr Hx) as (Hr' & _ & P1 & P2 & M1 & M2 & _).
    destruct Hc as [Ha _]. assert (public_payload_bytes e = 0) by (by destruct e).
    eexists _, _. split_and!; try done; cbn; lia.
  - destruct Hc as (Hs & Hx & _).
    eexists _, _. split_and!; [reflexivity|apply insert_candidate; [done| |done]|..]; cbn; try lia.
    apply eq_None_not_Some. by intros ?%Hk.
  - destruct (range_forget_session_ok r s Hr) as (r' & -> & Hr' & _ & _ & M1 & M2 & _ & _ & Hp & Hb).
    eexists _, _. split_and!; [reflexivity|done|..]; cbn; lia.
  - unchanged.
  - unchanged.
Qed.

Lemma conversion_size_nonneg c : 0 ≤ conversion_size c.
Proof. destruct c; cbn; try apply public_payload_nonneg; try apply payload_size_nonneg; lia. Qed.

(** What the application will have seen of this poll once the backlog is drained. *)
Definition upcoming (f : Feed) : list GameEvent := fd_output f ++ events (fd_range f).

Definition limits (f : Feed) : Z * Z := (max_buffered_messages (fd_range f), max_buffered_bytes (fd_range f)).

Lemma convert_one_ok opened f c n b :
  range_inv (fd_range f) → known opened (fd_range f) → conversion_ok opened c →
  1 ≤ n → conversion_size c ≤ b → public_room (fd_range f) n b →
  ∃ f' res r1, convert (fd_range f) c = Done (res, r1) ∧ convert_one f c = Done f' ∧
    range_inv (fd_range f') ∧ public_room (fd_range f') (n - 1) (b - conversion_size c) ∧
    limits f' = limits f ∧ sessions (fd_range f') = sessions r1 ∧ fd_delivered f' = fd_delivered f ∧
    fd_accepted f' = fd_accepted f ++ accept c res ∧
    upcoming f' = fd_output f ++ match res with
                                 | Ok (Some e) => placed e (events r1)
                                 | Ok None => events r1
                                 | Err _ => placed (violation c) (events r1)
                                 end.
Proof.
  intros Hr Hk Hc Hn Hb Hroom. unfold convert_one.
  destruct (convert_ok _ _ _ Hr Hk Hc) as (res & r1 & E & Hr1 & M1 & M2 & P1 & P2 & Hsz).
  pose proof (conversion_size_nonneg c) as Hnn.
  assert (Hroom1 : public_room r1 n b) by (unfold public_room in *; lia).
  rewrite E. cbn [mbind outcome_bind].
  assert (Hq : ∃ r2 o2,
    match res with
    | Ok (Some e) => '(_, r, o) ← queue_public r1 e (fd_output f) (fd_capacity f); Done (r, o)
    | Ok None => Done (r1, fd_output f)
    | Err _ => '(_, r, o) ← queue_public r1 (violation c) (fd_output f) (fd_capacity f); Done (r, o)
    end = Done (r2, o2) ∧ range_inv r2 ∧ framed r1 r2 ∧
    public_room r2 (n - 1) (b - conversion_size c) ∧
    o2 ++ events r2 = fd_output f ++ match res with
      | Ok (Some e) => placed e (events r1) | Ok None => events r1
      | Err _ => placed (violation c) (events r1) end).
  { destruct res as [[e|]|].
    - destruct (queue_public_ok r1 e (fd_output f) (fd_capacity f) n b Hr1 Hn ltac:(lia) Hroom1)
        as (d & r2 & o2 & -> & Hr2 & Hf2 & He & Hroom2).
      exists r2, o2. split_and!; try done. unfold public_room in *; lia.
    - exists r1, (fd_output f). split_and!; try done. unfold public_room in *; lia.
    - assert (Hv : public_payload_bytes (violation c) = 0) by (by destruct c).
      destruct (queue_public_ok r1 (violation c) (fd_output f) (fd_capacity f) n b Hr1 Hn ltac:(lia) Hroom1)
        as (d & r2 & o2 & -> & Hr2 & Hf2 & He & Hroom2).
      exists r2, o2. split_and!; try done. unfold public_room in *; lia. }
  destruct Hq as (r2 & o2 & -> & Hr2 & Hf2 & Hroom2 & He). cbn [mbind outcome_bind].
  destruct (drain_completed_ok r2 o2 (fd_capacity f) Hr2) as (r3 & o3 & -> & Hr3 & Hf3 & He3 & P3 & P4 & _).
  cbn [mbind outcome_bind]. eexists _, res, r1. split_and!; [done|reflexivity|done|..|done|done|]; cbn.
  - destruct Hf3 as (_ & _ & _ & F1 & F2). unfold public_room in *. rewrite F1, F2. lia.
  - destruct Hf3 as (_ & _ & _ & F1 & F2), Hf2 as (_ & _ & _ & G1 & G2). unfold limits. cbn. congruence.
  - rewrite (proj1 Hf3). apply Hf2.
  - unfold upcoming. cbn. congruence.
Qed.

(** ** The stream of a session *)

(** The events that carry the session's data or announce it. *)
Definition about (s : Handle) (e : GameEvent) : Prop := message_of s e = true ∨ announced e = Some s.
#[export] Instance about_dec s e : Decision (about s e) := _.

Lemma placed_other s e l : ¬ about s e → filter (about s) (placed e l) = filter (about s) l.
Proof.
  intros He. unfold placed.
  assert (Hs : filter (about s) (l ++ [e]) = filter (about s) l).
  { rewrite filter_app, filter_cons, decide_False, filter_nil, app_nil_r by done. done. }
  destruct (announced e) as [s'|]; [|done]. destruct (position _ l) as [i|]; [|done].
  unfold insert_at. rewrite filter_app, filter_cons, decide_False by done.
  by rewrite <- filter_app, take_drop.
Qed.

(** An announcement goes before the data of its session. *)
Lemma placed_announcement s e l :
  announced e = Some s → Forall (λ e', announced e' ≠ Some s) l →
  filter (about s) (placed e l) = e :: filter (about s) l.
Proof.
  intros He Hl. unfold placed. rewrite He.
  induction Hl as [|e' l He' Hl IH]; cbn [position app].
  { rewrite filter_cons, decide_True by by right. done. }
  destruct (message_of s e') eqn:Em.
  { unfold insert_at. cbn [take drop app]. rewrite filter_cons, decide_True by by right. done. }
  assert (¬ about s e') by (intros [?|?]; congruence).
  destruct (position (message_of s) l) as [i|]; cbn [fmap option_fmap option_map].
  - unfold insert_at in *. cbn [take drop app]. rewrite !filter_cons, !(decide_False (P := about s e')) by done.
    exact IH.
  - rewrite !filter_cons, !(decide_False (P := about s e')) by done. exact IH.
Qed.

Lemma placed_message m l : placed (Message m) l = l ++ [Message m].
Proof. done. Qed.

Lemma about_message s m : about s (Message m) ↔ gm_session m = s.
Proof.
  unfold about. cbn. rewrite bool_decide_eq_true. split; [|by left]. by intros [?|?].
Qed.
Lemma about_plain s e : plain e → ¬ about s e.
Proof. intros [He Hm] [H|H]; [by destruct e|congruence]. Qed.

Definition seen (s : Handle) (f : Feed) : list GameEvent := filter (about s) (fd_delivered f ++ upcoming f).
Definition received (s : Handle) (f : Feed) : list GameMessage :=
  filter (λ m, gm_session m = s) (fd_accepted f).

#[global] Arguments seen : simpl never.
#[global] Arguments received : simpl never.

(** The stream of the session [s] in state [x]: nothing before readiness, then the
    announcement and all accepted data in order. *)
Definition stream (s : Handle) (x : RangeSession) (f : Feed) : Prop :=
  if Phase.is_ready (rs_phase x)
  then ∃ e, announced e = Some s ∧ seen s f = e :: (Message <$> received s f)
  else seen s f = [] ∧ rs_buffered x = received s f.

Record feed_inv (opened : list Handle) (f : Feed) : Prop := {
  fi_range : range_inv (fd_range f);
  fi_known : known opened (fd_range f);
  fi_streams : ∀ s x, sessions (fd_range f) !! s = Some x → stream s x f;
  fi_unused : ∀ s, s ∉ opened → seen s f = [] ∧ received s f = []
}.

Lemma seen_split s f :
  seen s f = filter (about s) (fd_delivered f ++ fd_output f) ++ filter (about s) (events (fd_range f)).
Proof. unfold seen, upcoming. by rewrite app_assoc, filter_app. Qed.
Lemma seen_next s f f' l :
  fd_delivered f' = fd_delivered f → upcoming f' = fd_output f ++ l →
  seen s f' = filter (about s) (fd_delivered f ++ fd_output f) ++ filter (about s) l.
Proof. intros E1 E2. unfold seen. by rewrite E1, E2, app_assoc, filter_app. Qed.

Lemma received_snoc s f f' m :
  fd_accepted f' = fd_accepted f ++ [m] →
  received s f' = received s f ++ (if decide (gm_session m = s) then [m] else []).
Proof. intros E. unfold received. by rewrite E, filter_app, filter_cons, filter_nil. Qed.
Lemma received_same s f f' : fd_accepted f' = fd_accepted f ++ [] → received s f' = received s f.
Proof. intros E. unfold received. by rewrite E, app_nil_r. Qed.

(** The stream of [s] does not change when neither its events nor its state do. *)
Lemma stream_same s x x' f f' :
  stream s x f → seen s f' = seen s f → received s f' = received s f →
  rs_phase x' = rs_phase x → rs_buffered x' = rs_buffered x → stream s x' f'.
Proof. unfold stream. by intros H -> -> -> ->. Qed.

Lemma received_inv opened f f' m res r1 :
  feed_inv opened f → gm_session m ∈ opened → buffer_message (fd_range f) m = Done (res, r1) →
  range_inv (fd_range f') → sessions (fd_range f') = sessions r1 → fd_delivered f' = fd_delivered f →
  fd_accepted f' = fd_accepted f ++ accept (Received m) res →
  upcoming f' = fd_output f ++ match res with
                               | Ok (Some e) => placed e (events r1)
                               | Ok None => events r1
                               | Err _ => placed (violation (Received m)) (events r1)
                               end →
  feed_inv opened f'.
Proof.
  intros [Hr Hk Hst Hun] Hin E Hr' Hs Hd Ha Hu.
  destruct (buffer_message_ok _ m Hr) as (res' & r' & E' & _ & Hc & _ & _ & _ & _ & H).
  rewrite E in E'. injection E' as <- <-. rewrite Hc in Hu.
  pose proof (λ s, seen_next s _ _ _ Hd Hu) as Hseen.
  assert (Hother : ∀ s, gm_session m ≠ s → seen s f' = seen s f ∧ received s f' = received s f).
  { intros s Hne. assert (¬ about s (Message m)) by (by rewrite about_message).
    rewrite Hseen, seen_split. destruct res as [[e|]|].
    - destruct H as [-> _]. split; [by rewrite placed_other|].
      rewrite (received_snoc _ f f' m Ha), decide_False, app_nil_r by done. done.
    - split; [done|]. rewrite (received_snoc _ f f' m Ha), decide_False, app_nil_r by done. done.
    - split; [|by apply received_same]. rewrite placed_other; [done|]. by intros [?|?]. }
  constructor; [done|..].
  - intros s. rewrite Hs. destruct res as [[e|]|]; [destruct H as (_ & -> & _); apply Hk| |rewrite H; apply Hk].
    destruct H as (x & x' & Hx & _ & -> & _). rewrite lookup_insert_is_Some'. intros [<-|?]; [done|by apply Hk].
  - intros s x. rewrite Hs. destruct (decide (gm_session m = s)) as [<-|Hne].
    2: { intros Hx. destruct (Hother s Hne) as [Es Er]. destruct res as [[e|]|].
         - destruct H as (_ & -> & _). by apply (stream_same _ x x f); auto.
         - destruct H as (y & y' & _ & _ & E' & _). rewrite E', lookup_insert_ne in Hx by done.
           by apply (stream_same _ x x f); auto.
         - rewrite H in Hx. by apply (stream_same _ x x f); auto. }
    specialize (Hseen (gm_session m)). destruct res as [[e|]|].
    + destruct H as (-> & -> & Hready). intros Hx. pose proof (Hready x Hx) as Hp. specialize (Hst _ _ Hx).
      unfold stream in *. rewrite Hp in *. destruct Hst as (e & He & Hst). exists e. split; [done|].
      rewrite Hseen, placed_message, (filter_app _ (events _)), app_assoc, <- seen_split, Hst.
      rewrite (received_snoc _ f f' m Ha), decide_True, fmap_app by done.
      rewrite filter_cons, decide_True by by rewrite about_message. done.
    + destruct H as (y & y' & Hy & Hp & -> & Ep & Eb & _). rewrite lookup_insert_eq. intros [= <-].
      specialize (Hst _ _ Hy). unfold stream in *. rewrite Ep, Hp in *. destruct Hst as [Hst1 Hst2].
      rewrite Hseen, <- seen_split, Eb, Hst2, (received_snoc _ f f' m Ha), decide_True by done. done.
    + rewrite H. intros Hx. apply (stream_same _ x x f); auto; [|by apply received_same].
      rewrite Hseen, seen_split, placed_other; [done|]. by intros [?|?].
  - intros s Hno. destruct (Hother s) as [-> ->]; [by intros <-|]. by apply Hun.
Qed.

Lemma ready_inv opened f f' s x p e :
  feed_inv opened f → sessions (fd_range f) !! s = Some x → Phase.is_ready (rs_phase x) = false →
  announced e = Some s → Phase.is_ready p = true →
  range_inv (fd_range f') → sessions (fd_range f') = sessions (make_ready (fd_range f) s p) →
  fd_delivered f' = fd_delivered f → fd_accepted f' = fd_accepted f ++ [] →
  upcoming f' = fd_output f ++ placed e (events (make_ready (fd_range f) s p)) →
  feed_inv opened f'.
Proof.
  intros [Hr Hk Hst Hun] Hx Hp He Hp' Hr' Hs Hd Ha Hu.
  destruct (make_ready_ok _ s x p Hr Hx) as (_ & Hev & _ & _ & _ & _ & x' & Hs' & Ep & Eb).
  pose proof (sw_own _ _ (ri_sessions _ Hr _ _ Hx)) as Hown.
  rewrite Hev in Hu. rewrite Hs' in Hs. pose proof (λ s, seen_next s _ _ _ Hd Hu) as Hseen.
  pose proof (λ s, received_same s f f' Ha) as Hrec.
  assert (Hother : ∀ s', s' ≠ s → seen s' f' = seen s' f).
  { intros s' Hne. rewrite Hseen, seen_split, placed_other.
    2: { intros [Hm|Hm]; [by destruct e|congruence]. }
    f_equal. rewrite filter_app, (proj2 (filter_none (about s') (Message <$> rs_buffered x))), app_nil_r; [done|].
    apply Forall_fmap. eapply Forall_impl; [exact Hown|]. intros m <-. cbn. rewrite about_message. congruence. }
  constructor; [done|..].
  - intros s'. rewrite Hs, lookup_insert_is_Some'. intros [<-|?]; apply Hk; eauto.
  - intros s' y. rewrite Hs. destruct (decide (s' = s)) as [->|Hne].
    2: { rewrite lookup_insert_ne by done. intros Hy. apply (stream_same _ y y f); auto. }
    rewrite lookup_insert_eq. intros [= <-]. specialize (Hst s x Hx). unfold stream in *.
    rewrite Hp in Hst. rewrite Ep, Hp'. destruct Hst as [Hst1 Hst2]. exists e. split; [done|].
    rewrite seen_split in Hst1. apply app_eq_nil in Hst1 as [Hd1 Hd2].
    rewrite Hseen, Hd1, placed_announcement, filter_app, Hd2; [|done|].
    + cbn [app]. f_equal. rewrite Hrec, <- Hst2. apply filter_all, Forall_fmap.
      eapply Forall_impl; [exact Hown|]. intros m Hm. cbn. by apply about_message.
    + apply Forall_app. split; [|by apply Forall_fmap, Forall_true].
      apply filter_none in Hd2. eapply Forall_impl; [exact Hd2|]. intros e' H' H''. apply H'. by right.
  - intros s' Hno. rewrite Hother, Hrec; [by apply Hun|]. intros ->. apply Hno, Hk. eauto.
Qed.

(** Events that are not about any session's stream, and the removal of a session. *)
Lemma plain_inv opened f f' e :
  feed_inv opened f → plain e →
  range_inv (fd_range f') → sessions (fd_range f') = sessions (fd_range f) →
  fd_delivered f' = fd_delivered f → fd_accepted f' = fd_accepted f ++ [] →
  upcoming f' = fd_output f ++ placed e (events (fd_range f)) →
  feed_inv opened f'.
Proof.
  intros [Hr Hk Hst Hun] He Hr' Hs Hd Ha Hu. pose proof (λ s, received_same s f f' Ha) as Hrec.
  assert (Hseen : ∀ s, seen s f' = seen s f).
  { intros s. rewrite (seen_next s _ _ _ Hd Hu), seen_split, placed_other; [done|by apply about_plain]. }
  constructor; [done|..].
  - unfold known. by rewrite Hs.
  - intros s x. rewrite Hs. intros Hx. by apply (stream_same _ x x f); auto.
  - intros s Hno. rewrite Hseen, Hrec. by apply Hun.
Qed.

Lemma same_inv opened f f' :
  feed_inv opened f → range_inv (fd_range f') → sessions (fd_range f') = sessions (fd_range f) →
  fd_delivered f' = fd_delivered f → fd_accepted f' = fd_accepted f ++ [] →
  upcoming f' = fd_output f ++ events (fd_range f) → feed_inv opened f'.
Proof.
  intros [Hr Hk Hst Hun] Hr' Hs Hd Ha Hu. pose proof (λ s, received_same s f f' Ha) as Hrec.
  assert (Hseen : ∀ s, seen s f' = seen s f) by (intros s; by rewrite (seen_next s _ _ _ Hd Hu), seen_split).
  constructor; [done|..].
  - unfold known. by rewrite Hs.
  - intros s x. rewrite Hs. intros Hx. by apply (stream_same _ x x f); auto.
  - intros s Hno. rewrite Hseen, Hrec. by apply Hun.
Qed.

Lemma opened_inv opened f f' s x e :
  feed_inv opened f → s ∉ opened → candidate x → plain e →
  range_inv (fd_range f') → sessions (fd_range f') = <[s := x]> (sessions (fd_range f)) →
  fd_delivered f' = fd_delivered f → fd_accepted f' = fd_accepted f ++ [] →
  upcoming f' = fd_output f ++ placed e (events (fd_range f)) →
  feed_inv (s :: opened) f'.
Proof.
  intros [Hr Hk Hst Hun] Hno (Hb & _ & Hp) He Hr' Hs Hd Ha Hu. pose proof (λ s, received_same s f f' Ha) as Hrec.
  assert (Hseen : ∀ s, seen s f' = seen s f).
  { intros s'. rewrite (seen_next s' _ _ _ Hd Hu), seen_split, placed_other; [done|by apply about_plain]. }
  constructor; [done|..].
  - intros s'. rewrite Hs, lookup_insert_is_Some'. intros [<-|?]; [by left|right; by apply Hk].
  - intros s' y. rewrite Hs, lookup_insert_Some. intros [[<- <-]|[_ Hy]].
    + unfold stream. rewrite Hp, Hseen, Hrec, Hb. by destruct (Hun s Hno) as [-> ->].
    + by apply (stream_same _ y y f); auto.
  - intros s' Hno'. rewrite Hseen, Hrec. apply Hun. set_solver.
Qed.

Lemma about_belongs s e : about s e → event_belongs_to_session e s = true.
Proof.
  intros [H|H]; destruct e; cbn in *; try done; [by injection H as ->; apply bool_decide_eq_true..].
Qed.
Lemma belongs_unique e s s' :
  event_belongs_to_session e s = true → event_belongs_to_session e s' = true → s = s'.
Proof. destruct e; cbn; try done; rewrite !bool_decide_eq_true; congruence. Qed.

Lemma forget_inv opened f f' s0 r1 :
  feed_inv opened f → range_forget_session (fd_range f) s0 = Done r1 →
  range_inv (fd_range f') → sessions (fd_range f') = sessions r1 → fd_accepted f' = fd_accepted f ++ [] →
  (∀ s, seen s f' = filter (about s) (fd_delivered f ++ fd_output f) ++ filter (about s) (events r1)) →
  feed_inv opened f'.
Proof.
  intros [Hr Hk Hst Hun] E Hr' Hs Ha Hseen. pose proof (λ s, received_same s f f' Ha) as Hrec.
  destruct (range_forget_session_ok _ s0 Hr) as (r' & E' & _ & Hs' & Hc & _). rewrite E in E'.
  injection E' as <-. rewrite Hs' in Hs.
  assert (Hev : events r1 = filter (λ e, event_belongs_to_session e s0 = false) (events (fd_range f))).
  { rewrite Hc. apply (fmap_filter ce_event (λ e, event_belongs_to_session e s0 = false)). }
  constructor; [done|..].
  - intros s. rewrite Hs. intros [x [_ Hx]%lookup_delete_Some]. apply Hk. eauto.
  - intros s x. rewrite Hs. intros [Hne Hx]%lookup_delete_Some. apply (stream_same _ x x f); auto.
    rewrite Hseen, seen_split, Hev. f_equal. rewrite list_filter_filter. apply filter_iff_in.
    intros e _. split; [by intros [? _]|]. intros Ha'. split; [done|].
    destruct (event_belongs_to_session e s0) eqn:Eb; [|done].
    exfalso. apply Hne. eapply belongs_unique; [done|]. by apply about_belongs.
  - intros s Hno. rewrite Hrec. destruct (Hun s Hno) as [H1 H2]. split; [|done].
    rewrite seen_split in H1. apply app_eq_nil in H1 as [H1 H3]. rewrite Hseen, H1, Hev.
    apply filter_none, Forall_forall. intros e [_ He]%list_elem_of_filter Ha'.
    apply filter_none in H3. rewrite Forall_forall in H3. by eapply H3.
Qed.

Lemma convert_one_inv opened f f' c n b :
  feed_inv opened f → conversion_ok opened c → 1 ≤ n → conversion_size c ≤ b → public_room (fd_range f) n b →
  convert_one f c = Done f' → feed_inv (now_opened opened c) f'.
Proof.
  intros Hf Hc Hn Hb Hroom Ef. pose proof Hf as [Hr Hk Hst Hun].
  destruct (convert_one_ok opened f c n b Hr Hk Hc Hn Hb Hroom)
    as (f1 & res & r1 & E & E1 & Hr' & _ & _ & Hs & Hd & Ha & Hu).
  rewrite Ef in E1. injection E1 as <-.
  destruct c as [m|s p e|s x e|s e|e|]; cbn [convert now_opened conversion_ok] in *.
  - by eapply received_inv.
  - destruct Hc as [He Hp]. destruct (sessions (fd_range f) !! s) as [x|] eqn:Hx;
      [destruct (Phase.is_ready (rs_phase x)) eqn:Hpx|]; injection E as <- <-.
    + by apply (same_inv opened f).
    + by eapply ready_inv.
    + by apply (same_inv opened f).
  - destruct Hc as (Hno & Hx & He). injection E as <- <-. by eapply opened_inv.
  - destruct (range_forget_session (fd_range f) s) as [r2|] eqn:E2; [|done]. cbn in E. injection E as <- <-.
    eapply (forget_inv opened f f' s); try done. intros s'.
    rewrite (seen_next s' _ _ _ Hd Hu), placed_other; [done|by apply about_plain].
  - injection E as <- <-. by eapply plain_inv.
  - injection E as <- <-. by apply (same_inv opened f).
Qed.

Lemma convert_all_ok cs : ∀ opened f n b,
  feed_inv opened f → conversions_ok opened cs → len cs ≤ n → sumZ conversion_size cs ≤ b →
  public_room (fd_range f) n b →
  ∃ f', convert_all f cs = Done f' ∧ feed_inv (foldl now_opened opened cs) f' ∧ limits f' = limits f.
Proof.
  induction cs as [|c cs IH]; intros opened f n b Hf Hc Hn Hb Hroom; [by exists f|].
  destruct Hc as [Hc Hcs]. rewrite len_cons in Hn. rewrite sumZ_cons in Hb.
  pose proof (len_nonneg cs). pose proof (sumZ_nonneg conversion_size cs conversion_size_nonneg).
  destruct (convert_one_ok opened f c n b (fi_range _ _ Hf) (fi_known _ _ Hf) Hc ltac:(lia) ltac:(lia) Hroom)
    as (f1 & _ & _ & _ & E1 & _ & Hroom1 & Hl1 & _).
  pose proof (convert_one_inv opened f f1 c n b Hf Hc ltac:(lia) ltac:(lia) Hroom E1) as Hf1.
  cbn [convert_all]. rewrite E1. cbn [mbind outcome_bind].
  destruct (IH (now_opened opened c) f1 (n - 1) (b - conversion_size c)) as (f2 & -> & Hf2 & Hl2);
    [done|done|lia|lia|done|]. exists f2. split_and!; [done..|congruence].
Qed.

Lemma conversions_fitting cs : ∀ slots bytes,
  0 ≤ slots → 0 ≤ bytes →
  len (fitting slots bytes cs) ≤ slots ∧ sumZ conversion_size (fitting slots bytes cs) ≤ bytes ∧
  fitting slots bytes cs `prefix_of` cs.
Proof.
  induction cs as [|c cs IH]; intros slots bytes Hs Hb; cbn [fitting].
  { rewrite len_nil, sumZ_nil. done. }
  case_decide as H; [|rewrite len_nil, sumZ_nil; split_and!; [done..|apply prefix_nil]].
  pose proof (conversion_size_nonneg c).
  destruct (IH (slots - 1) (bytes - conversion_size c)) as (H1 & H2 & H3); [lia..|].
  rewrite len_cons, sumZ_cons. split_and!; [lia..|by apply prefix_cons].
Qed.

Lemma conversions_ok_app opened cs cs' :
  conversions_ok opened (cs ++ cs') → conversions_ok opened cs.
Proof. revert opened. induction cs as [|c cs IH]; intros opened; [done|]. cbn. naive_solver. Qed.

Lemma now_opened_mono cs : ∀ opened, opened ⊆ foldl now_opened opened cs.
Proof.
  induction cs as [|c cs IH]; intros opened; [done|]. cbn. etrans; [|apply IH].
  destruct c; cbn; set_solver.
Qed.

Lemma feed_inv_mono opened opened' f : opened ⊆ opened' → feed_inv opened f → feed_inv opened' f.
Proof.
  intros Hsub [Hr Hk Hst Hun]. constructor; [done| |done|].
  - intros s Hs. by apply Hsub, Hk.
  - intros s Hs. apply Hun. set_solver.
Qed.

Lemma batch_ok opened f cs :
  feed_inv opened f → conversions_ok opened cs →
  ∃ f', feed_act f (Batch cs) = Done f' ∧ feed_inv (foldl now_opened opened cs) f' ∧ limits f' = limits f.
Proof.
  intros Hf Hc. pose proof (ri_bounds _ (fi_range _ _ Hf)) as (_ & _ & B1 & B2).
  cbn [feed_act]. unfold public_capacity. rewrite !sub_ok by done. cbn [mbind outcome_bind].
  set (slots := _ - _). set (bytes := _ - _).
  destruct (conversions_fitting cs slots bytes) as (H1 & H2 & [rest H3]); [lia..|].
  assert (conversions_ok opened (fitting slots bytes cs)).
  { eapply conversions_ok_app. by rewrite <- H3. }
  destruct (convert_all_ok (fitting slots bytes cs) opened f slots bytes) as (f' & -> & Hf' & Hl); try done.
  { unfold public_room, slots, bytes. lia. }
  exists f'. split_and!; [done| |done]. eapply feed_inv_mono; [|exact Hf'].
  rewrite H3 at 2. rewrite foldl_app. apply now_opened_mono.
Qed.

Lemma feed_other_ok opened f a :
  (∀ cs, a ≠ Batch cs) → feed_inv opened f →
  ∃ f', feed_act f a = Done f' ∧ feed_inv opened f' ∧ limits f' = limits f.
Proof.
  intros Ha Hf. pose proof Hf as [Hr Hk Hst Hun]. destruct a as [cs|now|s|capacity]; cbn [feed_act].
  - by destruct (Ha cs).
  - destruct (due_controls_ok _ now Hr) as (Hr' & Hc & Hs). eexists. split_and!; [reflexivity| |done].
    assert (Hseen : ∀ s f', fd_range f' = (due_controls (fd_range f) now).2 → fd_delivered f' = fd_delivered f →
      fd_output f' = fd_output f → seen s f' = seen s f).
    { intros s f' E1 E2 E3. rewrite !seen_split, E1, E2, E3, Hc. done. }
    constructor; cbn; [done|..].
    + intros s. cbn. rewrite lookup_fmap, fmap_is_Some. apply Hk.
    + intros s x. intros (y & <- & Hy)%lookup_fmap_Some.
      destruct (due_control_keeps now y) as (E1 & E2 & _). by apply (stream_same _ y _ f); auto.
    + intros s Hno. rewrite Hseen by done. by apply Hun.
  - destruct (range_forget_session_ok _ s Hr) as (r1 & E & Hr1 & _ & _ & M1 & M2 & _).
    rewrite E. cbn [mbind outcome_bind]. eexists. split_and!; [reflexivity| |by unfold limits; cbn; congruence].
    eapply (forget_inv opened f _ s r1); try done; cbn; [by rewrite app_nil_r|]. intros s'. apply seen_split.
  - destruct (drain_completed_ok (fd_range f) [] capacity Hr) as (r1 & o & E & Hr1 & Hfr & He & _).
    rewrite E. cbn [mbind outcome_bind]. eexists. destruct Hfr as (F1 & _ & _ & F2 & F3).
    split_and!; [reflexivity| |by unfold limits; cbn; congruence].
    assert (Hseen : ∀ s f', fd_delivered f' ++ upcoming f' = fd_delivered f ++ upcoming f → seen s f' = seen s f).
    { intros s f' E'. unfold seen. by rewrite E'. }
    assert (E' : (fd_delivered f ++ fd_output f) ++ o ++ events r1 = fd_delivered f ++ upcoming f).
    { rewrite He. unfold upcoming. by rewrite <- app_assoc. }
    constructor; cbn; [done|..].
    + unfold known. by rewrite F1.
    + intros s x. rewrite F1. intros Hx. apply (stream_same _ x _ f); auto.
    + intros s Hno. rewrite Hseen by done. by apply Hun.
Qed.

Lemma feed_run_ok acts : ∀ opened f,
  feed_inv opened f → history_ok opened acts →
  ∃ f' opened', feed_run f acts = Done f' ∧ feed_inv opened' f' ∧ limits f' = limits f.
Proof.
  induction acts as [|a acts IH]; intros opened f Hf Ha; [by exists f, opened|]. cbn [feed_run].
  assert (H : ∃ f1 opened1, feed_act f a = Done f1 ∧ feed_inv opened1 f1 ∧ limits f1 = limits f ∧
    history_ok opened1 acts).
  { destruct a as [cs| | |]; cbn [history_ok] in Ha.
    - destruct Ha as [Hc Ha]. destruct (batch_ok opened f cs Hf Hc) as (f1 & ? & ? & ?).
      by exists f1, (foldl now_opened opened cs).
    - destruct (feed_other_ok opened f (Tick now)) as (f1 & ? & ? & ?); [done..|]. by exists f1, opened.
    - destruct (feed_other_ok opened f (Forget s)) as (f1 & ? & ? & ?); [done..|]. by exists f1, opened.
    - destruct (feed_other_ok opened f (NewPoll capacity)) as (f1 & ? & ? & ?); [done..|]. by exists f1, opened. }
  destruct H as (f1 & opened1 & -> & Hf1 & Hl1 & Ha1). cbn [mbind outcome_bind].
  destruct (IH opened1 f1 Hf1 Ha1) as (f2 & opened2 & -> & Hf2 & Hl2).
  exists f2, opened2. split_and!; [done..|congruence].
Qed.

(** A runtime before its first poll. *)
Definition feed_start (max_messages max_bytes : Z) : Feed :=
  mkFeed (with_buffer_limits max_messages max_bytes) 0 [] [] [].

Lemma feed_start_inv m b :
  0 ≤ m ≤ usize_max → 0 ≤ b ≤ usize_max → feed_inv [] (feed_start m b).
Proof.
  intros Hm Hb. constructor; [by apply with_buffer_limits_inv|..].
  - intros s. cbn. by rewrite lookup_empty, is_Some_alt.
  - intros s x. cbn. by rewrite lookup_empty.
  - done.
Qed.

(** A server session that receives data before and after its readiness. *)
Definition demo_session : RangeSession :=
  mkRangeSession 1 (game_protocol_new 9 2 7) (replicate 16 Byte.x03) (Some 6) 11 None false
    Phase.ServerAwaitAck 3000 100 [] 0.
Definition demo_data (b : byte) : GameMessage := mkGameMessage 1 11 None None 0 [b].
Definition demo_history : list feed_action :=
  [Batch [Opened 11 demo_session (EndpointOpened 1); Received (demo_data Byte.x01)];
   Batch [Received (demo_data Byte.x02)];
   NewPoll 2;
   Batch [BecameReady 11 Phase.ServerReady (SessionReady 1 11); Received (demo_data Byte.x04)];
   NewPoll 1].
Lemma demo_messages_limit : 0 ≤ 8 ≤ usize_max.
Proof. by vm_compute. Qed.
Lemma demo_bytes_limit : 0 ≤ 100 ≤ usize_max.
Proof. by vm_compute. Qed.
Lemma demo_history_ok : history_ok [] demo_history.
Proof. cbn. split_and!; try done; set_solver. Qed.

(** the early-data and backlog budgets.  Whatever network events are converted, in batches
    admitted by the remaining public capacity, and whatever polls, timers and closes come in
    between: no operation panics (no [debug_assert!] fails, no counter underflows); the
    counters are exactly the messages and payload bytes held by the negotiating sessions and
    the backlog; and the runtime never holds more than its configured limits, nor a session
    more than 32 early messages or 256 KiB. *)
Theorem range_budgets (max_messages max_bytes : Z) (acts : list feed_action) :
  0 ≤ max_messages ≤ usize_max → 0 ≤ max_bytes ≤ usize_max → history_ok [] acts →
  ∃ f, feed_run (feed_start max_messages max_bytes) acts = Done f ∧ range_inv (fd_range f) ∧
    buffered_messages (fd_range f) ≤ max_messages ∧ buffered_bytes (fd_range f) ≤ max_bytes ∧
    public_messages (fd_range f) ≤ max_messages ∧ public_bytes (fd_range f) ≤ max_bytes.
Proof.
  intros Hm Hb Ha. destruct (feed_run_ok acts [] _ (feed_start_inv _ _ Hm Hb) Ha) as (f & o & E & Hf & Hl).
  injection Hl as E1 E2. exists f. pose proof (ri_bounds _ (fi_range _ _ Hf)) as B.
  rewrite E1, E2 in B. by split_and!; try apply Hf; try apply B.
Qed.

(** readiness precedes data and data stays in order.  After any such history, the events of
    a live session that the application has seen or will see are: none before its negotiation
    completes (its accepted data waits in the session's buffer); then the one announcement
    ([SessionReady] or [SessionResumed]) followed by every accepted message, early ones
    included, in arrival order, none lost or repeated. *)
Theorem range_stream_in_order (max_messages max_bytes : Z) (acts : list feed_action) (f : Feed) (s : Handle)
    (x : RangeSession) :
  0 ≤ max_messages ≤ usize_max → 0 ≤ max_bytes ≤ usize_max → history_ok [] acts →
  feed_run (feed_start max_messages max_bytes) acts = Done f → sessions (fd_range f) !! s = Some x →
  stream s x f.
Proof.
  intros Hm Hb Ha E Hx. destruct (feed_run_ok acts [] _ (feed_start_inv _ _ Hm Hb) Ha) as (f' & o & E' & Hf & _).
  rewrite E in E'. injection E' as <-. by apply (fi_streams _ _ Hf).
Qed.

Lemma range_budgets_witness :
  ∃ f, feed_run (feed_start 8 100) demo_history = Done f ∧ range_inv (fd_range f) ∧
    buffered_messages (fd_range f) ≤ 8 ∧ buffered_bytes (fd_range f) ≤ 100 ∧
    public_messages (fd_range f) ≤ 8 ∧ public_bytes (fd_range f) ≤ 100.
Proof. exact (range_budgets 8 100 demo_history demo_messages_limit demo_bytes_limit demo_history_ok). Defined.

Lemma range_stream_in_order_witness :
  ∃ f x, feed_run (feed_start 8 100) demo_history = Done f ∧ sessions (fd_range f) !! 11 = Some x ∧
    Phase.is_ready (rs_phase x) = true ∧ received 11 f = [demo_data Byte.x01; demo_data Byte.x02; demo_data Byte.x04] ∧
    stream 11 x f.
Proof.
  destruct (feed_run (feed_start 8 100) demo_history) as [f|] eqn:E; [|exfalso; by vm_compute in E].
  destruct (sessions (fd_range f) !! 11) as [x|] eqn:Hx;
    [|exfalso; vm_compute in E; injection E as <-; by vm_compute in Hx].
  exists f, x. split_and!; [done..| | |].
  - vm_compute in E. injection E as <-. vm_compute in Hx. by injection Hx as <-.
  - vm_compute in E. by injection E as <-.
  - exact (range_stream_in_order 8 100 demo_history f 11 x demo_messages_limit demo_bytes_limit
      demo_history_ok E Hx).
Defined.
