(* ===== verification/GameRuntime.v ===== *)
(** * The game runtime: [runtime.rs], [range_runtime.rs], [resume_runtime.rs],
    [endpoint_lifecycle.rs], [lifecycle.rs] and [poll_runtime.rs]

    The composition of the components: every handler that runs under the poll lock, over one
    state that holds the tables of all components.  The transport is a record of the
    results its calls give; the calls that change it are logged.

    Handlers that can panic return an [outcome]. *)

From S2P Require Import Prelude Bytes CoreTypes Control TcpSession Observe GameWire Quality Heartbeat ClockSync.
From S2P Require Import Scheduler Realtime SendPath GameData Resume RangeState.

(** ** State *)

Record ServerSessionMeta := mkServerSessionMeta {
  meta_peer_key : list byte;
  meta_protocol : SelectedProtocol
}.

Record ResumeRuntimeState := mkResumeRuntimeState {
  tickets : ResumeRegistry;
  server_sessions : gmap Z ServerSessionMeta;
  pending_server : gmap Z ResumeClaim;
  inflight_server : gmap Z Handle;
  revoked_inflight : gset Z;
  resume_client_endpoints : gmap Z Handle;
  resume_ttl : Duration
}.
#[export] Instance ResumeRuntimeState_eta : Eta ResumeRuntimeState := λ r,
  mkResumeRuntimeState (tickets r) (server_sessions r) (pending_server r) (inflight_server r)
    (revoked_inflight r) (resume_client_endpoints r) (resume_ttl r).

Definition resume_state_new (ttl : Duration) (capacity : Z) (secret : option (list byte)) :
    Result ResumeRuntimeState :=
  _ ← validate_ttl ttl;
  r ← registry_new capacity secret;
  Ok (mkResumeRuntimeState r ∅ ∅ ∅ ∅ ∅ ttl).

Record ResumeMetrics := mkResumeMetrics {
  tickets_issued : Z;
  requests_received : Z;
  tickets_rejected : Z;
  authorization_denied : Z;
  pending_revoked : Z;
  sessions_resumed : Z
}.
#[export] Instance ResumeMetrics_eta : Eta ResumeMetrics := λ m,
  mkResumeMetrics (tickets_issued m) (requests_received m) (tickets_rejected m) (authorization_denied m)
    (pending_revoked m) (sessions_resumed m).

(** Calls of the transport with an effect. *)
Inductive NetCall :=
| CallCloseSession (s : Handle) (reason : ErrorCode.t)
| CallCloseEndpoint (ep : Handle)
| CallAuthDecide (s : Handle) (accept : bool)
| CallSendControl (s : Handle) (envelope : list byte).

Record GameRuntime := mkGameRuntime {
  g_maximum_envelope_len : Z;
  g_endpoint_transports : gmap Z Transport.t;
  g_session_endpoints : gmap Z Handle;
  g_udp_sessions : gmap Z UdpSessionQuality;
  g_heartbeat : HeartbeatRuntime;
  g_clock : ClockRuntime;
  g_admission : SendAdmission;
  g_resume_metrics : ResumeMetrics;
  g_plaintext_dropped : Z;
  g_realtime : LatestQueue;
  g_scheduled : ScheduledQueue;
  g_resume : ResumeRuntimeState;
  g_range : RangeRuntimeState;
  g_calls : list NetCall
}.
#[export] Instance GameRuntime_eta : Eta GameRuntime := λ g,
  mkGameRuntime (g_maximum_envelope_len g) (g_endpoint_transports g) (g_session_endpoints g)
    (g_udp_sessions g) (g_heartbeat g) (g_clock g) (g_admission g) (g_resume_metrics g)
    (g_plaintext_dropped g) (g_realtime g) (g_scheduled g) (g_resume g) (g_range g) (g_calls g).

(** The results of the transport during one call.  [net_validate] is [validate_payload_len];
    [net_send] sends a control, [net_send_business] and [net_send_latest] business data. *)
Record Network := mkNetwork {
  net_validate : Handle → Z → Result unit;
  net_endpoint_live : Handle → bool;
  net_endpoints : Z;
  net_send : Handle → list byte → Result unit;
  net_send_business : Handle → list byte → Result unit;
  net_send_latest : Handle → Z → list byte → Result unit;
  net_auth_decide : Handle → bool → Result unit;
  net_close : Handle → ErrorCode.t → Result unit;
  net_close_endpoint : Handle → Result unit;
  net_kcp : Handle → Result (option KcpRetransmissionSnapshot)
}.

Definition net_live (net : Network) (session : Handle) : bool := is_ok (net_validate net session 0).

Definition log_call (c : NetCall) (g : GameRuntime) : GameRuntime := g <| g_calls ::= λ l, l ++ [c] |>.

(** ** Forgetting *)

Definition forget_resume_session (st : ResumeRuntimeState) (session : Handle) : ResumeRuntimeState :=
  let abandoned := (filter (λ on, on.2 = session) (map_to_list (inflight_server st))).*1 in
  st <| server_sessions ::= delete session |>
     <| pending_server ::= delete session |>
     <| inflight_server ::= λ m, foldl (λ m old, delete old m) m abandoned |>
     <| revoked_inflight ::= λ x, x ∖ list_to_set abandoned |>.

(** The tables up to [forget_game_ready], then the queues and the resume state. *)
Definition forget_tables (g : GameRuntime) (session : Handle) : GameRuntime :=
  g <| g_session_endpoints ::= delete session |>
    <| g_heartbeat ::= λ h, Heartbeat.forget_session h session |>
    <| g_clock ::= λ c, forget_clock_session c session |>
    <| g_udp_sessions ::= λ t, forget_quality_session t session |>
    <| g_admission ::= λ a, admission_remove a session |>.
Definition forget_queues (g : GameRuntime) (session : Handle) (q : LatestQueue) : GameRuntime :=
  g <| g_realtime := q |>
    <| g_scheduled ::= λ q, (Scheduler.forget_session q session).2 |>
    <| g_resume ::= λ st, forget_resume_session st session |>.

Definition forget_ready_session (g : GameRuntime) (session : Handle) : outcome GameRuntime :=
  let g := forget_tables g session in
  '(_, q) ← latest_forget_session (g_realtime g) session;
  let g := forget_queues g session q in
  r ← range_forget_session (g_range g) session;
  Done (g <| g_range := r |>).

(** [let _ = network.close_session(...)] followed by the cleanup. *)
Definition close_and_forget (g : GameRuntime) (session : Handle) (reason : ErrorCode.t) : outcome GameRuntime :=
  forget_ready_session (log_call (CallCloseSession session reason) g) session.

(** The part of [revoke_resume_session] under the resume lock: the candidates to close. *)
Definition revoke_candidates (st : ResumeRuntimeState) (session : Handle) : list Handle * ResumeRuntimeState :=
  let pending := (filter (λ nc, claim_old_session nc.2 = session) (map_to_list (pending_server st))).*1 in
  let st :=
    st <| tickets ::= λ t, Resume.revoke_session t session |>
       <| pending_server ::= λ m, foldl (λ m n, delete n m) m pending |>
       <| server_sessions ::= λ m, foldl (λ m n, delete n m) m pending |> in
  match inflight_server st !! session with
  | Some new_session => (pending ++ [new_session], st <| revoked_inflight ::= union {[session]} |>)
  | None => (pending, st)
  end.

Fixpoint close_pending (g : GameRuntime) (l : list Handle) : outcome GameRuntime :=
  match l with
  | [] => Done g
  | new_session :: l =>
    g ← close_and_forget (g <| g_resume_metrics ::= λ m, m <| pending_revoked ::= fetch_add 1 |> |>)
          new_session ErrorCode.Cancelled;
    close_pending g l
  end.

Definition revoke_resume_session (g : GameRuntime) (session : Handle) : outcome GameRuntime :=
  let '(pending, st) := revoke_candidates (g_resume g) session in
  close_pending (g <| g_resume := st |>) pending.

(** ** Negotiation *)

(** The decoded fields of a protocol control. *)
Record Control := mkControl {
  ctl_operation : Z;
  ctl_nonce : list byte;
  ctl_protocol_id : Z;
  ctl_version : Z;
  ctl_server_handle : Handle
}.
Definition parse_control (payload : list byte) : Result Control :=
  if decide (len payload ≠ CONTROL_LEN) then protocol_error "invalid protocol selection length"
  else
    Ok (mkControl (byte_at 0 payload) (slice 1 17 payload) (be_decode (slice 17 25 payload))
          (be_decode (slice 25 29 payload)) (be_decode (slice 29 37 payload))).

(** What an accepted control asks for: an ACK; the READY reply, for the first time or again;
    publication; nothing. *)
Inductive Reaction :=
| SendAck (ack : list byte)
| SendReady (was_ready : bool) (ready : list byte)
| Publish
| Duplicate.

(** The guards and the [match] of [handle_range_control] on the session's state. *)
Definition negotiate (state : RangeSession) (endpoint : Handle) (now : Instant) (c : Control) :
    Result (Reaction * RangeSession) :=
  if decide (rs_endpoint state ≠ endpoint ∨ rs_nonce state ≠ ctl_nonce c ∨
             protocol_id (rs_protocol state) ≠ ctl_protocol_id c ∨ ctl_version c = 0 ∨
             ctl_server_handle c = 0) then
    protocol_error "protocol selection does not match session"
  else if decide (rs_deadline state ≤ now ∧ Phase.is_ready (rs_phase state) = false) then
    protocol_error "protocol selection expired"
  else
    let confirms :=
      bool_decide (rs_selected state = Some (ctl_version c) ∧ rs_server_handle state = ctl_server_handle c) in
    let operation := ctl_operation c in
    match rs_phase state with
    | Phase.ClientAwaitSelect | Phase.ClientAwaitReady =>
      if decide (operation = SELECT) then
        if decide (ctl_version c < min_version (rs_protocol state) ∨
                   max_version (rs_protocol state) < ctl_version c ∨
                   (is_Some (rs_selected state) ∧ rs_selected state ≠ Some (ctl_version c)) ∨
                   (rs_server_handle state ≠ 0 ∧ rs_server_handle state ≠ ctl_server_handle c)) then
          protocol_error "server selected an invalid protocol version"
        else
          let state := state <| rs_selected := Some (ctl_version c) |>
                             <| rs_server_handle := ctl_server_handle c |>
                             <| rs_phase := Phase.ClientAwaitReady |>
                             <| rs_next_retry := now + RETRY_INTERVAL |> in
          Ok (SendAck (control state ACK), state)
      else if decide (rs_phase state = Phase.ClientAwaitReady ∧ operation = READY) then
        if negb confirms then protocol_error "protocol final confirmation does not match selection"
        else Ok (Publish, state <| rs_phase := Phase.ClientReady |>)
      else protocol_error "unexpected protocol negotiation transition"
    | Phase.ServerAwaitAck | Phase.ServerReady =>
      if decide (operation = ACK) then
        if negb confirms then protocol_error "protocol acknowledgment does not match selection"
        else Ok (SendReady (bool_decide (rs_phase state = Phase.ServerReady)) (control state READY), state)
      else protocol_error "unexpected protocol negotiation transition"
    | Phase.ClientReady =>
      if decide ((operation = READY ∨ operation = SELECT) ∧ confirms = true) then Ok (Duplicate, state)
      else protocol_error "unexpected protocol negotiation transition"
    | Phase.ServerAwaitOpen => protocol_error "unexpected protocol negotiation transition"
    end.

Section runtime.
(** HMAC under the registry's key, the largest instant, and the transport of this call. *)
Context (hmac : list byte → list byte) (instant_limit : Instant) (net : Network).
(** [Instant::now()] of this call. *)
Context (now : Instant).

Abbreviation Handled A := (outcome (Result A * GameRuntime)).

Definition game_ready (g : GameRuntime) (session : Handle) : Result unit :=
  ensure_game_ready (net_validate net) (g_admission g) session.

Definition send_range_control (g : GameRuntime) (session : Handle) (payload : list byte) :
    Result unit * GameRuntime :=
  match Envelope.encode_control Envelope.Protocol payload (g_maximum_envelope_len g) with
  | Err e => (Err e, g)
  | Ok envelope => (net_send net session envelope, log_call (CallSendControl session envelope) g)
  end.

Definition would_block (e : RnetError) : bool := bool_decide (code e = ErrorCode.WouldBlock).

Definition publish_range_ready (g : GameRuntime) (endpoint session : Handle) (old_session : option Handle)
    (server_resume : bool) : Handled (option GameEvent) :=
  if negb (net_live net session) then
    g ← forget_ready_session g session; Done (Ok None, g)
  else
    let published (g : GameRuntime) : Handled (option GameEvent) :=
      match old_session with
      | Some old =>
        g ← close_and_forget g old ErrorCode.Cancelled;
        Done (Ok (Some (SessionResumed endpoint old session)), g)
      | None => Done (Ok (Some (SessionReady endpoint session)), g)
      end in
    let admitted := g <| g_admission ::= λ a, publish a session |> in
    if server_resume then
      match old_session with
      | None => Done (protocol_error "resumed server session has no prior handle", g)
      | Some old =>
        if decide (old ∈ revoked_inflight (g_resume g) ∨ inflight_server (g_resume g) !! old ≠ Some session) then
          let g := g <| g_resume ::= λ st, st <| revoked_inflight ::= λ x, x ∖ {[old]} |>
                                              <| inflight_server ::= delete old |> |> in
          g ← close_and_forget g session ErrorCode.Cancelled;
          Done (Ok None, g)
        else
          published (admitted <| g_resume ::= λ st, st <| inflight_server ::= delete old |> |>
                              <| g_resume_metrics ::= λ m, m <| sessions_resumed ::= fetch_add 1 |> |>)
      end
    else published admitted.

Definition handle_range_control (g : GameRuntime) (event : Event) (payload : list byte) :
    Handled (option GameEvent) :=
  match parse_control payload with
  | Err e => Done (Err e, g)
  | Ok c =>
    match sessions (g_range g) !! ev_session event with
    | None => Done (protocol_error "protocol control on non-v4 session", g)
    | Some state =>
      match negotiate state (ev_endpoint event) now c with
      | Err e => Done (Err e, g)
      | Ok (reaction, state) =>
        let g := g <| g_range ::= λ r, r <| sessions ::= <[ev_session event := state]> |> |> in
        match reaction with
        | SendAck ack =>
          let '(sent, g) := send_range_control g (ev_session event) ack in
          match sent with
          | Err e => if would_block e then Done (Ok None, g) else Done (Err e, g)
          | Ok _ => Done (Ok None, g)
          end
        | SendReady was_ready ready =>
          let '(sent, g) := send_range_control g (ev_session event) ready in
          match sent with
          | Err e => if would_block e then Done (Ok None, g) else Done (Err e, g)
          | Ok _ =>
            if was_ready then Done (Ok None, g)
            else
              let g := g <| g_range ::= λ r, make_ready r (ev_session event) Phase.ServerReady |> in
              publish_range_ready g (ev_endpoint event) (ev_session event) (rs_old_session state)
                (rs_server_resume state)
          end
        | Publish =>
          let g := g <| g_range ::= λ r, complete_buffered r (ev_session event) |> in
          publish_range_ready g (ev_endpoint event) (ev_session event) (rs_old_session state) false
        | Duplicate => Done (Ok None, g)
        end
      end
    end
  end.

Definition start_range_session (g : GameRuntime) (endpoint session : Handle) (old_session : option Handle)
    (server_resume : bool) : Result unit * GameRuntime :=
  match sessions (g_range g) !! session with
  | Some state =>
    if decide (rs_phase state ≠ Phase.ServerAwaitOpen) then
      (fail ErrorCode.ProtocolError "duplicate v4 session open", g)
    else
      let state := state <| rs_phase := Phase.ServerAwaitAck |> <| rs_old_session := old_session |>
                         <| rs_server_resume := server_resume |>
                         <| rs_deadline := now + NEGOTIATION_TIMEOUT |>
                         <| rs_next_retry := now + RETRY_INTERVAL |> in
      let g := g <| g_range ::= λ r, r <| sessions ::= <[session := state]> |> |> in
      let '(sent, g) := send_range_control g session (control state SELECT) in
      match sent with
      | Err e => (if would_block e then Ok tt else Err e, g)
      | Ok _ => (Ok tt, g)
      end
  | None =>
    match client_endpoints (g_range g) !! endpoint with
    | Some pending =>
      (Ok tt,
       g <| g_range ::= λ r,
              r <| client_endpoints ::= delete endpoint |>
                <| sessions ::= <[session := mkRangeSession endpoint (cp_protocol pending) (cp_nonce pending)
                                    None 0 old_session false Phase.ClientAwaitSelect
                                    (now + NEGOTIATION_TIMEOUT) (now + RETRY_INTERVAL) [] 0]> |> |>)
    | None => (protocol_error "session has no registered game negotiation", g)
    end
  end.

(** The sends of [drive_range_negotiation]; their results are ignored. *)
Definition send_retries (g : GameRuntime) (retries : list (Handle * list byte)) : GameRuntime :=
  foldl (λ g sc, (send_range_control g sc.1 sc.2).2) g retries.

Fixpoint expire_sessions (g : GameRuntime) (l : list Handle) : outcome GameRuntime :=
  match l with
  | [] => Done g
  | session :: l => g ← close_and_forget g session ErrorCode.Timeout; expire_sessions g l
  end.

Definition drive_range_negotiation (g : GameRuntime) : outcome GameRuntime :=
  let '(retries, expired, r) := due_controls (g_range g) now in
  expire_sessions (send_retries (g <| g_range := r |>) retries) expired.

(** ** Joins *)

Definition reject_game_join (g : GameRuntime) (event : Event) : GameEvent * GameRuntime :=
  (ProtocolRejected (ev_endpoint event) (ev_session event) ErrorCode.ProtocolError,
   log_call (CallAuthDecide (ev_session event) false) g).

(** The version of a resumed join: pinned by the ticket, within both ranges, then the
    one-use claim. *)
Definition claim_version (t : ResumeRegistry) (event : Event) (client_public_key : list byte)
    (join protocol : GameProtocol) (ticket : list byte) :
    outcome (Result (Z * ResumeClaim) * ResumeRegistry) :=
  '(pinned, t) ← expect (pinned_version hmac t ticket (ev_endpoint event) client_public_key (protocol_id join) now);
  match pinned with
  | Err e => Done (Err e, t)
  | Ok version =>
    if decide (version < min_version join ∨ max_version join < version ∨
               version < min_version protocol ∨ max_version protocol < version) then
      Done (protocol_error "resume version is outside the supported range", t)
    else
      o ← expect (consume hmac t ticket (ev_endpoint event) client_public_key
                    (mkSelectedProtocol (protocol_id join) version) now);
      '(claimed, t) ← o;
      Done (claim ← claimed; Ok (version, claim), t)
  end.

Definition register_join (g : GameRuntime) (event : Event) (client_public_key : list byte)
    (join : Join.RangeJoinRequest) (selected : Z) (claim : option ResumeClaim) : GameEvent * GameRuntime :=
  let p := Join.protocol join in
  let g :=
    g <| g_range ::= λ r,
           r <| sessions ::= <[ev_session event :=
                  mkRangeSession (ev_endpoint event) p (Join.nonce join) (Some selected) (ev_session event)
                    None false Phase.ServerAwaitOpen (now + NEGOTIATION_TIMEOUT) now [] 0]> |> |>
      <| g_resume ::= λ st,
           st <| server_sessions ::= <[ev_session event :=
                   mkServerSessionMeta client_public_key (mkSelectedProtocol (protocol_id p) selected)]> |> |> in
  match claim with
  | Some claim =>
    (ResumeRequest (ev_endpoint event) (ev_session event) (claim_old_session claim) (claim_identity claim)
       client_public_key (Join.ticket join) (build_id p) (capabilities p),
     g <| g_resume ::= λ st, st <| pending_server ::= <[ev_session event := claim]> |> |>)
  | None =>
    (AuthRequest (ev_endpoint event) (ev_session event) client_public_key (Join.ticket join) (build_id p)
       (capabilities p), g)
  end.

Definition range_auth_request (g : GameRuntime) (event : Event) (client_public_key join_payload : list byte) :
    outcome (option GameEvent * GameRuntime) :=
  let reject (g : GameRuntime) := let '(e, g) := reject_game_join g event in Done (Some e, g) in
  match server_endpoints (g_range g) !! ev_endpoint event with
  | None => Done (None, g)
  | Some protocol =>
    match Join.decode_range join_payload with
    | Err _ => reject g
    | Ok join =>
      match Join.resume_ticket join with
      | Some ticket =>
        let g := g <| g_resume_metrics ::= λ m, m <| requests_received ::= fetch_add 1 |> |> in
        '(result, t) ← claim_version (tickets (g_resume g)) event client_public_key (Join.protocol join)
                         protocol ticket;
        let g := g <| g_resume ::= λ st, st <| tickets := t |> |> in
        match result with
        | Err _ => reject (g <| g_resume_metrics ::= λ m, m <| tickets_rejected ::= fetch_add 1 |> |>)
        | Ok (version, claim) =>
          let '(e, g) := register_join g event client_public_key join version (Some claim) in Done (Some e, g)
        end
      | None =>
        match Join.select_version (Join.protocol join) protocol with
        | None => reject g
        | Some version =>
          let '(e, g) := register_join g event client_public_key join version None in Done (Some e, g)
        end
      end
    end
  end.

(** [AuthRequest::from_event], then the game's policy. *)
Definition convert_game_auth_request (g : GameRuntime) (event : Event) : Handled GameEvent :=
  if decide (event_type event ≠ EventType.AuthRequest ∨ len (data event) < 32) then
    Done (fail ErrorCode.InvalidArgument "event is not a valid authentication request", g)
  else
    '(e, g) ← range_auth_request g event (take 32 (data event)) (drop 32 (data event));
    match e with
    | Some e => Done (Ok e, g)
    | None => let '(e, g) := reject_game_join g event in Done (Ok e, g)
    end.

Definition auth_decide (g : GameRuntime) (session : Handle) (accept : bool) : Handled unit :=
  let g := log_call (CallAuthDecide session accept) g in
  match net_auth_decide net session accept with
  | Err e => Done (Err e, g)
  | Ok _ =>
    if accept then Done (Ok tt, g)
    else
      let g :=
        if decide (is_Some (pending_server (g_resume g) !! session))
        then g <| g_resume_metrics ::= λ m, m <| authorization_denied ::= fetch_add 1 |> |> else g in
      g ← forget_ready_session g session; Done (Ok tt, g)
  end.

Definition issue_resume_ticket (g : GameRuntime) (session : Handle) (identity : list byte)
    (random : nat → option (list byte)) : Handled unit :=
  match
    _ ← game_ready g session;
    endpoint ← ok_or (g_session_endpoints g !! session)
                 (mkRnetError ErrorCode.InvalidHandle "game session closed");
    meta ← ok_or (server_sessions (g_resume g) !! session)
             (mkRnetError ErrorCode.NotSupported "only server sessions can issue tickets");
    Ok (endpoint, meta)
  with
  | Err e => Done (Err e, g)
  | Ok (endpoint, meta) =>
    '(issued, t) ← expect (issue hmac instant_limit (tickets (g_resume g))
                     (mkResumeScope endpoint session (meta_peer_key meta) (meta_protocol meta)) identity now
                     (resume_ttl (g_resume g)) random);
    let g := g <| g_resume ::= λ st, st <| tickets := t |> |> in
    match issued with
    | Err e => Done (Err e, g)
    | Ok ticket =>
      let '(sent, g) :=
        match Envelope.encode_control Envelope.Resume ticket (g_maximum_envelope_len g) with
        | Err e => (Err e, g)
        | Ok envelope => (net_send net session envelope, log_call (CallSendControl session envelope) g)
        end in
      match sent with
      | Err e => Done (Err e, g <| g_resume ::= λ st, st <| tickets ::= λ t, revoke_ticket t ticket |> |>)
      | Ok _ => Done (Ok tt, g <| g_resume_metrics ::= λ m, m <| tickets_issued ::= fetch_add 1 |> |>)
      end
    end
  end.

(** ** Conversion of network events *)

Definition sent_ok (session : Handle) (envelope : list byte) : bool := is_ok (net_send net session envelope).
Definition log_sent (session : Handle) (l : list (list byte)) (g : GameRuntime) : GameRuntime :=
  foldl (λ g e, log_call (CallSendControl session e) g) g l.

Definition handle_heartbeat_control (g : GameRuntime) (event : Event) : Handled (option GameEvent) :=
  let s := ev_session event in
  let udp := udp_loss_snapshot (g_udp_sessions g) (bool_decide (is_Some (trackers (g_heartbeat g) !! s))) s in
  let '(res, h) :=
    Heartbeat.handle_heartbeat_event sent_ok (g_heartbeat g) s (data event) (queued_at event) now udp
      (net_kcp net s) in
  let g := g <| g_heartbeat := h |> in
  match res with
  | Err e => Done (Err e, g)
  | Ok (q, sent) =>
    Done (Ok ((λ q, QualityChanged (ev_endpoint event) s q) <$> q), log_sent s sent g)
  end.

Definition handle_clock_control (g : GameRuntime) (event : Event) (payload : list byte) : Handled (option GameEvent) :=
  let '(res, c) :=
    ClockSync.handle_clock_sync_event sent_ok (λ s, is_ok (game_ready g s)) (g_clock g) (ev_session event)
      payload (queued_at event) now in
  let g := g <| g_clock := c |> in
  match res with
  | Err e => Done (Err e, g)
  | Ok sent => Done (Ok None, log_sent (ev_session event) sent g)
  end.

Definition handle_game_control_event (g : GameRuntime) (event : Event) : Handled (option GameEvent) :=
  match Envelope.decode (data event) (g_maximum_envelope_len g) with
  | Err e => Done (Err e, g)
  | Ok (Envelope.Control Envelope.Heartbeat _) => handle_heartbeat_control g event
  | Ok (Envelope.Control Envelope.ClockSync payload) => handle_clock_control g event payload
  | Ok (Envelope.Control Envelope.Resume payload) =>
    if decide (len payload ≠ TICKET_LEN ∨ is_Some (server_endpoints (g_range g) !! ev_endpoint event)) then
      Done (fail ErrorCode.ProtocolError "invalid resume ticket control", g)
    else
      match game_ready g (ev_session event) with
      | Err _ => Done (Ok None, g)
      | Ok _ => Done (Ok (Some (ResumeTicket (ev_endpoint event) (ev_session event) payload)), g)
      end
  | Ok (Envelope.Control Envelope.Protocol payload) => handle_range_control g event payload
  | Ok (Envelope.Application _ _ _ _) =>
    Done (fail ErrorCode.ProtocolError "unsupported game control for this runtime version", g)
  end.

(** [convert_business_event] with [buffer_range_message]. *)
Definition convert_business (g : GameRuntime) (event : Event) : Handled (option GameEvent) :=
  let '(res, t, dropped) :=
    convert_business_event (g_maximum_envelope_len g) (g_udp_sessions g) (g_plaintext_dropped g) event in
  let g := g <| g_udp_sessions := t |> <| g_plaintext_dropped := dropped |> in
  match res with
  | Err e => Done (Err e, g)
  | Ok None => Done (Ok None, g)
  | Ok (Some message) =>
    '(res, r) ← buffer_message (g_range g) message;
    Done (res, g <| g_range := r |>)
  end.

(** *** Endpoints *)

Definition retire_session (g : GameRuntime) (session : Handle) : outcome GameRuntime :=
  g ← revoke_resume_session g session; forget_ready_session g session.

Fixpoint retire_all (g : GameRuntime) (l : list Handle) : outcome GameRuntime :=
  match l with
  | [] => Done g
  | session :: l => g ← retire_session g session; retire_all g l
  end.

Definition forget_endpoint_state (g : GameRuntime) (endpoint : Handle) : outcome GameRuntime :=
  let g := g <| g_resume ::= λ st, st <| tickets ::= λ t, Resume.revoke_endpoint t endpoint |> |> in
  let owned := (filter (λ so, so.2 = endpoint) (map_to_list (g_session_endpoints g))).*1 in
  g ← retire_all g owned;
  Done (g <| g_resume ::= λ st, st <| resume_client_endpoints ::= delete endpoint |> |>
          <| g_endpoint_transports ::= delete endpoint |>
          <| g_range ::= λ r, RangeState.forget_endpoint r endpoint |>).

Fixpoint forget_endpoints (g : GameRuntime) (l : list Handle) : outcome GameRuntime :=
  match l with
  | [] => Done g
  | endpoint :: l => g ← forget_endpoint_state g endpoint; forget_endpoints g l
  end.

Definition reap_closed_endpoints (g : GameRuntime) : outcome GameRuntime :=
  if decide (Z.of_nat (size (g_endpoint_transports g)) ≤ net_endpoints net) then Done g
  else
    forget_endpoints g
      (filter (λ ep, net_endpoint_live net ep = false) (map_to_list (g_endpoint_transports g)).*1).

Definition close_endpoint (g : GameRuntime) (endpoint : Handle) : Handled unit :=
  let g := log_call (CallCloseEndpoint endpoint) g in
  match net_close_endpoint net endpoint with
  | Err e => Done (Err e, g)
  | Ok _ => g ← forget_endpoint_state g endpoint; Done (Ok tt, g)
  end.

(** [SessionOpened]: the claim moves into negotiation, the tables start to track the session. *)
Definition open_session (g : GameRuntime) (event : Event) : Handled (option GameEvent) :=
  let s := ev_session event in
  let server_session := bool_decide (is_Some (server_endpoints (g_range g) !! ev_endpoint event)) in
  match g_endpoint_transports g !! ev_endpoint event with
  | None => Done (Ok None, log_call (CallCloseSession s ErrorCode.Cancelled) g)
  | Some transport =>
    if negb (net_live net s) then Done (Ok None, g)
    else
      let '(old_session, server_resume, st) :=
        match pending_server (g_resume g) !! s with
        | Some claim =>
          (Some (claim_old_session claim), true,
           g_resume g <| pending_server ::= delete s |>
                      <| inflight_server ::= <[claim_old_session claim := s]> |>)
        | None =>
          (resume_client_endpoints (g_resume g) !! ev_endpoint event, false,
           g_resume g <| resume_client_endpoints ::= delete (ev_endpoint event) |>)
        end in
      h ← Heartbeat.track_session (g_heartbeat g) s now;
      let g := g <| g_resume := st |> <| g_heartbeat := h |>
                 <| g_clock ::= λ c, track_clock_session c s (negb server_session) |>
                 <| g_udp_sessions ::= λ t, track_quality_session t s transport |>
                 <| g_session_endpoints ::= <[s := ev_endpoint event]> |> in
      let '(started, g) := start_range_session g (ev_endpoint event) s old_session server_resume in
      Done (_ ← started; Ok None, g)
  end.

Definition convert_event (g : GameRuntime) (event : Event) : Handled (option GameEvent) :=
  let ep := ev_endpoint event in
  let s := ev_session event in
  match event_type event with
  | EventType.RuntimeStarted => Done (Ok (Some RuntimeStarted), g)
  | EventType.EndpointOpened => Done (Ok (Some (EndpointOpened ep)), g)
  | EventType.EndpointError =>
    g ← reap_closed_endpoints g;
    Done (Ok (Some (EndpointError ep (ev_status event))), g)
  | EventType.AuthRequest =>
    '(converted, g) ← convert_game_auth_request g event;
    let g :=
      match converted with
      | Ok (AuthRequest _ _ _ _ _ _) | Ok (ResumeRequest _ _ _ _ _ _ _ _) =>
        g <| g_session_endpoints ::= <[s := ep]> |>
      | _ => g
      end in
    Done (e ← converted; Ok (Some e), g)
  | EventType.SessionOpened => open_session g event
  | EventType.SessionClosed =>
    g ← forget_ready_session g s;
    Done (Ok (Some (SessionClosed ep s (ev_status event))), g)
  | EventType.GameControl => handle_game_control_event g event
  | EventType.Message => convert_business g event
  | EventType.Writable => Done (Ok (Some (Writable ep s)), g)
  | EventType.RuntimeStopped => Done (Ok (Some RuntimeStopped), g)
  | EventType.JoinFailed =>
    Done (Ok (Some (JoinFailed ep s (ev_status event))),
          g <| g_resume ::= λ st, st <| resume_client_endpoints ::= delete ep |> |>
            <| g_range ::= λ r, forget_failed_client_endpoint r ep |>)
  | EventType.SecurityChanged =>
    Done (change ← security_change_from_event event;
          Ok (Some (SecurityChanged ep s (bool_decide (sc_mode change = SecurityMode.Encrypted))
                      (sc_epoch change) (sc_operation change))), g)
  end.

(** The loop of [convert_events_into]: whether a public event was deferred, and the
    output. *)
Fixpoint convert_events_into (g : GameRuntime) (events : list Event) (output : list GameEvent) (capacity : Z) :
    outcome (bool * GameRuntime * list GameEvent) :=
  match events with
  | [] => Done (false, g, output)
  | event :: events =>
    '(converted, g) ← convert_event g event;
    '(deferred, g, output) ←
      match converted with
      | Ok (Some e) =>
        _ ← debug_assert (public_payload_bytes e ≤ len (data event));
        '(d, r, output) ← queue_public (g_range g) e output capacity;
        Done (d, g <| g_range := r |>, output)
      | Ok None => Done (false, g, output)
      | Err _ =>
        let g := if decide (ev_session event ≠ 0)
                 then log_call (CallCloseSession (ev_session event) ErrorCode.ProtocolError) g else g in
        '(d, r, output) ←
          queue_public (g_range g) (ProtocolViolation (ev_endpoint event) (ev_session event)) output capacity;
        Done (d, g <| g_range := r |>, output)
      end;
    '(r, output) ← drain_completed (g_range g) output capacity;
    let g := g <| g_range := r |> in
    '(deferred', g, output) ← convert_events_into g events output capacity;
    Done (deferred || deferred', g, output)
  end.

(** ** Local closes and shutdown *)

Definition close_session (g : GameRuntime) (session : Handle) : Handled unit :=
  g ← revoke_resume_session g session;
  let g := log_call (CallCloseSession session ErrorCode.Cancelled) g in
  match net_close net session ErrorCode.Cancelled with
  | Err e => Done (Err e, g)
  | Ok _ => g ← forget_ready_session g session; Done (Ok tt, g)
  end.

(** [stop] after the drain loop and [network.stop]. *)
Definition clear_runtime (g : GameRuntime) : GameRuntime :=
  g <| g_range ::= range_clear |>
    <| g_heartbeat ::= λ h, h <| trackers := ∅ |> |>
    <| g_clock ::= λ c, c <| cr_trackers := ∅ |> |>
    <| g_admission ::= admission_clear |>
    <| g_udp_sessions := ∅ |>
    <| g_realtime ::= latest_clear |>
    <| g_scheduled ::= Scheduler.clear |>
    <| g_endpoint_transports := ∅ |>
    <| g_session_endpoints := ∅ |>
    <| g_resume ::= λ st, st <| tickets ::= registry_clear |> <| server_sessions := ∅ |>
                             <| pending_server := ∅ |> <| inflight_server := ∅ |>
                             <| revoked_inflight := ∅ |> <| resume_client_endpoints := ∅ |> |>.

(** The heartbeat driver's closes only forget the tracker; the close event does the rest. *)
Definition drive_heartbeats_runtime (g : GameRuntime) (rng : Handle → option Z) : GameRuntime :=
  let '(close, h) := drive_heartbeats sent_ok (g_heartbeat g) now rng in
  foldl (λ g sr, log_call (CallCloseSession sr.1 sr.2) g) (g <| g_heartbeat := h |>) close.

(** ** Business data *)

Definition is_udp (g : GameRuntime) (session : Handle) : bool := bool_decide (is_Some (g_udp_sessions g !! session)).

(** [send_scheduled] and [send_latest_with_tick] on the runtime's tables. *)
Definition stage_send (g : GameRuntime) (session : Handle) (payload : list byte) (options : GameSendOptions) :
    Result unit * GameRuntime :=
  let '(r, q) := send_scheduled (net_validate net) instant_limit (g_admission g) (g_scheduled g) (is_udp g session)
                   now session payload options in
  (r, g <| g_scheduled := q |>).

Definition stage_latest (g : GameRuntime) (session : Handle) (key : Z) (payload : list byte) (tick : option Z) :
    Handled unit :=
  '(r, q) ← send_latest_with_tick (net_validate net) (g_admission g) (g_realtime g) (is_udp g session) session key
              payload tick;
  Done (r, g <| g_realtime := q |>).

(** One forwarding attempt of a flush, on the table of UDP sequences. *)
Definition forward_scheduled (g : GameRuntime) (t : gmap Z UdpSessionQuality) (m : ScheduledMessage) :
    Result unit * gmap Z UdpSessionQuality :=
  let s := sm_session m in
  let '(r, t) :=
    send_game_application (game_ready g s) (g_maximum_envelope_len g) (net_send_business net s) t s (sm_payload m)
      (mkGameSendOptions (sm_sequence m) (sm_tick m) (sm_correlation_id m) (sm_priority m) None) in
  (_ ← r; Ok tt, t).

Definition forward_latest (g : GameRuntime) (t : gmap Z UdpSessionQuality) (m : PendingRealtime) :
    Result unit * gmap Z UdpSessionQuality :=
  let s := rt_session m in
  let '(r, t) :=
    send_game_latest_application (game_ready g s) (g_maximum_envelope_len g) (net_send_business net s)
      (net_send_latest net s (rt_key m)) t s (rt_payload m) (rt_tick m) in
  (_ ← r; Ok tt, t).

(** [clock] and [elapsed] are the readings of the attempts. *)
Definition flush_scheduled_runtime (g : GameRuntime) (clock elapsed : nat → Z) (capacity : Z) :
    outcome (Z * GameRuntime) :=
  o ← expect (Scheduler.flush_scheduled_inner (forward_scheduled g) clock elapsed capacity (g_scheduled g)
                (g_udp_sessions g));
  '(n, q, t) ← o;
  Done (n, g <| g_scheduled := q |> <| g_udp_sessions := t |>).

Definition flush_realtime_runtime (g : GameRuntime) (capacity : Z) : outcome (Z * GameRuntime) :=
  '(n, q, t) ← flush_realtime_inner (forward_latest g) capacity (g_realtime g) (g_udp_sessions g);
  Done (n, g <| g_realtime := q |> <| g_udp_sessions := t |>).

(** [t1] is the clock read for a session's probe. *)
Definition drive_clock_runtime (g : GameRuntime) (rng : Handle → option Z) (t1 : Handle → Z) : GameRuntime :=
  g <| g_clock := drive_clock_sync sent_ok (g_clock g) now rng t1 |>.
End runtime.

(** ** Construction and registration *)

(** The configuration the game layer reads. *)
Record GameRuntimeConfig := mkGameRuntimeConfig {
  cfg_max_body_len : Z;
  cfg_event_queue_capacity : Z;
  cfg_max_event_bytes : Z;
  cfg_heartbeat_interval : Duration;
  cfg_heartbeat_timeout : Duration;
  cfg_quality_policy : QualityPolicy;
  cfg_realtime_queue : RealtimeQueueConfig;
  cfg_scheduled_queue : ScheduledQueueConfig;
  cfg_resume_ticket_ttl : Duration;
  cfg_max_resume_tickets : Z
}.

(** [network] is the result of creating the transport, [secret] the HMAC key's draw. *)
Definition build (c : GameRuntimeConfig) (network : Result unit) (secret : option (list byte)) (now : Instant) :
    Result GameRuntime :=
  if decide (cfg_max_body_len c < Join.HEADER_LEN `max` (12 + Z.of_nat ClockWire.REPLY_LEN)) then
    fail ErrorCode.InvalidArgument "maximum body length cannot contain the game join header or clock reply"
  else
    _ ← tracker_new (cfg_heartbeat_interval c) (cfg_heartbeat_timeout c) now;
    if negb (policy_is_valid (cfg_quality_policy c)) then
      fail ErrorCode.InvalidArgument "quality thresholds must be ordered and sample minima must be positive"
    else
      realtime ← latest_from_config (cfg_realtime_queue c);
      scheduled ← Scheduler.from_config (cfg_scheduled_queue c);
      resume ← resume_state_new (cfg_resume_ticket_ttl c) (cfg_max_resume_tickets c) secret;
      _ ← network;
      Ok (mkGameRuntime (cfg_max_body_len c) ∅ ∅ ∅
            (mkHeartbeatRuntime (cfg_heartbeat_interval c) (cfg_heartbeat_timeout c) (cfg_max_body_len c)
               (cfg_quality_policy c) ∅ Heartbeat.metrics_default)
            (mkClockRuntime (cfg_heartbeat_interval c) (cfg_heartbeat_timeout c) (cfg_max_body_len c) now now ∅
               (mkClockSyncMetrics 0 0 0 0 0))
            admission_new (mkResumeMetrics 0 0 0 0 0 0) 0 realtime scheduled resume
            (with_buffer_limits (cfg_event_queue_capacity c) (cfg_max_event_bytes c)) []).

(** [network] is the endpoint the transport opens. *)
Definition listen (g : GameRuntime) (protocol : GameProtocol) (transport : Transport.t) (network : Result Handle) :
    Result Handle * GameRuntime :=
  if negb (protocol_is_valid protocol) then (fail ErrorCode.InvalidArgument "invalid protocol range", g)
  else
    match network with
    | Err e => (Err e, g)
    | Ok endpoint =>
      (Ok endpoint,
       g <| g_range ::= λ r, r <| server_endpoints ::= <[endpoint := protocol]> |> |>
         <| g_endpoint_transports ::= <[endpoint := transport]> |>)
    end.

(** [nonce()] for the bytes [random] of the system's source. *)
Definition join_nonce (random : option (list byte)) : Result (list byte) :=
  nonce ← ok_or random (mkRnetError ErrorCode.CryptoError "protocol nonce RNG failed");
  if decide (nonce = Join.zero_nonce) then fail ErrorCode.CryptoError "protocol nonce RNG returned zero"
  else Ok nonce.

(** [network] opens the endpoint for the join payload. *)
Definition connect_prepared (g : GameRuntime) (transport : Transport.t) (join_payload : list byte)
    (old_session : option Handle) (network : list byte → Result Handle) : Result Handle * GameRuntime :=
  match network join_payload with
  | Err e => (Err e, g)
  | Ok endpoint =>
    let g := g <| g_endpoint_transports ::= <[endpoint := transport]> |> in
    (Ok endpoint,
     match old_session with
     | Some old => g <| g_resume ::= λ st, st <| resume_client_endpoints ::= <[endpoint := old]> |> |>
     | None => g
     end)
  end.

(** The common part of [connect] and [connect_resume] once the join is encoded. *)
Definition connect_registered (g : GameRuntime) (protocol : GameProtocol) (transport : Transport.t)
    (nonce payload : list byte) (old_session : option Handle) (network : list byte → Result Handle) :
    Result Handle * GameRuntime :=
  let '(res, g) := connect_prepared g transport payload old_session network in
  match res with
  | Err e => (Err e, g)
  | Ok endpoint =>
    (Ok endpoint,
     g <| g_range ::= λ r, r <| client_endpoints ::= <[endpoint := mkClientPending protocol nonce]> |> |>)
  end.

Definition connect (g : GameRuntime) (protocol : GameProtocol) (transport : Transport.t) (join_ticket : list byte)
    (random : option (list byte)) (network : list byte → Result Handle) : Result Handle * GameRuntime :=
  if negb (protocol_is_valid protocol) then (fail ErrorCode.InvalidArgument "invalid protocol range", g)
  else
    match
      nonce ← join_nonce random;
      payload ← Join.encode_range protocol nonce join_ticket (g_maximum_envelope_len g `min` (60 * 1024));
      Ok (nonce, payload)
    with
    | Err e => (Err e, g)
    | Ok (nonce, payload) => connect_registered g protocol transport nonce payload None network
    end.

Definition connect_resume (g : GameRuntime) (protocol : GameProtocol) (transport : Transport.t)
    (join_ticket : list byte) (old_session : Handle) (ticket : list byte) (random : option (list byte))
    (network : list byte → Result Handle) : Result Handle * GameRuntime :=
  if decide (old_session = 0 ∨ len ticket ≠ TICKET_LEN ∨ protocol_is_valid protocol = false) then
    (fail ErrorCode.InvalidArgument "invalid range resume request", g)
  else
    match
      nonce ← join_nonce random;
      payload ← Join.encode_range_resume protocol nonce join_ticket ticket
                  (g_maximum_envelope_len g `min` (60 * 1024));
      Ok (nonce, payload)
    with
    | Err e => (Err e, g)
    | Ok (nonce, payload) => connect_registered g protocol transport nonce payload (Some old_session) network
    end.

Definition selected_protocol_version (g : GameRuntime) (session : Handle) : Result Z :=
  ok_or (sessions (g_range g) !! session ≫= rs_selected)
    (mkRnetError ErrorCode.InvalidHandle "no selected range version for session").
