(* ===== verification/Negotiation.v ===== *)
(** * Version negotiation between two runtimes

    A client session and the server session of its join exchange SELECT, ACK and READY over a
    control path that may lose, duplicate, delay and reorder.  [react] is the part of
    [handle_range_control] that concerns the session's own state; the retries are those of
    [due_controls].  The theorems: both sides agree, no delivery order is taken for a protocol
    violation, and from every state three deliveries complete the negotiation. *)

From S2P Require Import Prelude Bytes CoreTypes Control TcpSession Observe GameWire Quality Heartbeat ClockSync.
From S2P Require Import Scheduler Realtime SendPath GameData Resume RangeState GameRuntime.

(** The reaction to an accepted control over a transport that answers [send]: the session, the
    control that was sent, and whether the session is published. *)
Definition finish (reaction : Reaction) (x : RangeSession) (send : list byte → Result unit) :
    Result (RangeSession * list (list byte) * bool) :=
  match reaction with
  | SendAck ack =>
    match send ack with
    | Ok _ => Ok (x, [ack], false)
    | Err e => if would_block e then Ok (x, [], false) else Err e
    end
  | SendReady was_ready ready =>
    match send ready with
    | Ok _ => if was_ready then Ok (x, [ready], false) else Ok (x <| rs_phase := Phase.ServerReady |>, [ready], true)
    | Err e => if would_block e then Ok (x, [], false) else Err e
    end
  | Publish => Ok (x, [], true)
  | Duplicate => Ok (x, [], false)
  end.

Definition react (x : RangeSession) (endpoint : Handle) (now : Instant) (payload : list byte)
    (send : list byte → Result unit) : Result (RangeSession * list (list byte) * bool) :=
  c ← parse_control payload;
  '(reaction, x) ← negotiate x endpoint now c;
  finish reaction x send.

(** The two sessions, and every control ever sent to each side: a delivery picks any of them,
    at any time and as often as it likes. *)
Record Pair := mkPair {
  pr_client : RangeSession;
  pr_server : RangeSession;
  pr_to_client : list (list byte);
  pr_to_server : list (list byte)
}.

Definition if_sent (sent : Result unit) (c : list byte) : list (list byte) := if is_ok sent then [c] else [].

Inductive pair_step (p : Pair) : Pair → Prop :=
| deliver_client now m send x out published :
    m ∈ pr_to_client p → react (pr_client p) (rs_endpoint (pr_client p)) now m send = Ok (x, out, published) →
    pair_step p (mkPair x (pr_server p) (pr_to_client p) (out ++ pr_to_server p))
| deliver_server now m send x out published :
    m ∈ pr_to_server p → react (pr_server p) (rs_endpoint (pr_server p)) now m send = Ok (x, out, published) →
    pair_step p (mkPair (pr_client p) x (out ++ pr_to_client p) (pr_to_server p))
| retry_client now sent c x :
    due_control now (pr_client p) = (Some c, false, x) →
    pair_step p (mkPair x (pr_server p) (pr_to_client p) (if_sent sent c ++ pr_to_server p))
| retry_server now sent c x :
    due_control now (pr_server p) = (Some c, false, x) →
    pair_step p (mkPair (pr_client p) x (if_sent sent c ++ pr_to_client p) (pr_to_server p)).

(** The server registers the client's join with version [v] and opens; the client opens. *)
Definition opened_server (endpoint session : Handle) (protocol : GameProtocol) (nonce : list byte) (v : Z)
    (old : option Handle) (server_resume : bool) (now : Instant) : RangeSession :=
  mkRangeSession endpoint protocol nonce (Some v) session old server_resume Phase.ServerAwaitAck
    (now + NEGOTIATION_TIMEOUT) (now + RETRY_INTERVAL) [] 0.
Definition opened_client (endpoint : Handle) (pending : ClientPending) (old : option Handle) (now : Instant) :
    RangeSession :=
  mkRangeSession endpoint (cp_protocol pending) (cp_nonce pending) None 0 old false Phase.ClientAwaitSelect
    (now + NEGOTIATION_TIMEOUT) (now + RETRY_INTERVAL) [] 0.

(** The selected version lies in both ranges: what [select_version] returns, or the version a
    resume ticket is pinned to after its checks. *)
Definition selectable (offer supported : GameProtocol) (v : Z) : Prop :=
  (min_version offer ≤ v ≤ max_version offer) ∧ (min_version supported ≤ v ≤ max_version supported).

(** What two honest ends agree on before the first control. *)
Record Terms := mkTerms {
  tm_client_endpoint : Handle;
  tm_server_endpoint : Handle;
  tm_server_session : Handle;
  tm_offer : GameProtocol;
  tm_supported : GameProtocol;
  tm_nonce : list byte;
  tm_version : Z
}.

(** Machine widths, non-zero version and handle, and a version both ends support. *)
Definition terms_wf (t : Terms) : Prop :=
  Join.protocol_wf (tm_offer t) ∧ protocol_is_valid (tm_offer t) = true ∧ length (tm_nonce t) = 16%nat ∧
  selectable (tm_offer t) (tm_supported t) (tm_version t) ∧
  in_u64 (tm_server_session t) ∧ tm_server_session t ≠ 0.

Inductive pair_reachable (t : Terms) : Pair → Prop :=
| pair_start client_old server_old server_resume t1 t2 sent :
    pair_reachable t
      (let x := opened_server (tm_server_endpoint t) (tm_server_session t) (tm_offer t) (tm_nonce t) (tm_version t)
                  server_old server_resume t2 in
       mkPair (opened_client (tm_client_endpoint t) (mkClientPending (tm_offer t) (tm_nonce t)) client_old t1) x
         (if_sent sent (control x SELECT)) [])
| pair_more p p' : pair_reachable t p → pair_step p p' → pair_reachable t p'.

(** ** The invariant *)

Definition control_of (t : Terms) (operation : Z) : list byte :=
  [of_u8 operation] ++ tm_nonce t ++ be_encode 8 (protocol_id (tm_offer t)) ++ be_encode 4 (tm_version t) ++
  be_encode 8 (tm_server_session t).

(** The session is one end of the join: everything but its timers, buffers and resume fields. *)
Definition agrees (t : Terms) (x : RangeSession) : Prop :=
  rs_protocol x = tm_offer t ∧ rs_nonce x = tm_nonce t ∧
  if decide (rs_phase x = Phase.ClientAwaitSelect) then rs_selected x = None ∧ rs_server_handle x = 0
  else rs_selected x = Some (tm_version t) ∧ rs_server_handle x = tm_server_session t.

Record pair_inv (t : Terms) (p : Pair) : Prop := {
  pi_client : agrees t (pr_client p);
  pi_server : agrees t (pr_server p);
  pi_client_phase : Phase.is_server (rs_phase (pr_client p)) = false;
  pi_server_phase : rs_phase (pr_server p) = Phase.ServerAwaitAck ∨ rs_phase (pr_server p) = Phase.ServerReady;
  pi_to_client m : m ∈ pr_to_client p →
    m = control_of t SELECT ∨
    m = control_of t READY ∧ rs_phase (pr_server p) = Phase.ServerReady ∧
    rs_phase (pr_client p) ≠ Phase.ClientAwaitSelect;
  pi_to_server m : m ∈ pr_to_server p →
    m = control_of t ACK ∧ rs_phase (pr_client p) ≠ Phase.ClientAwaitSelect;
  pi_opened : rs_phase (pr_server p) = Phase.ServerReady → rs_phase (pr_client p) ≠ Phase.ClientAwaitSelect;
  pi_ready : rs_phase (pr_client p) = Phase.ClientReady → rs_phase (pr_server p) = Phase.ServerReady
}.

Lemma control_agrees t x op :
  agrees t x → rs_phase x ≠ Phase.ClientAwaitSelect → control x op = control_of t op.
Proof.
  intros (Hp & Hn & H) Hph. case_decide; [done|]. destruct H as [Hs Hh].
  unfold control, control_of. by rewrite Hp, Hn, Hs, Hh.
Qed.

Lemma parse_control_of t op :
  terms_wf t → 0 ≤ op < 256 →
  parse_control (control_of t op) =
  Ok (mkControl op (tm_nonce t) (protocol_id (tm_offer t)) (tm_version t) (tm_server_session t)).
Proof.
  intros ((? & ? & ? & _) & _ & Hn & [[? ?] _] & ? & _) Hop. unfold parse_control, control_of.
  rewrite decide_False by (intros HN; apply HN; unfold CONTROL_LEN, len; rewrite !length_app, !length_be_encode, Hn; done).
  read_fields.
  replace (slice 0 8 _) with (be_encode 8 (tm_server_session t)) by (unfold slice; rewrite drop_0, take_ge; [done|lens]).
  rewrite to_of_u8 by zlia. be_numbers. done.
Qed.

Lemma protocol_valid_min p : protocol_is_valid p = true → min_version p ≠ 0.
Proof. unfold protocol_is_valid. intros [[_ H]%andb_true_iff _]%andb_true_iff. by apply bool_decide_eq_true in H. Qed.

(** A control of the join at a side whose deadline has not passed. *)
Definition awake (now : Instant) (x : RangeSession) : Prop :=
  now < rs_deadline x ∨ Phase.is_ready (rs_phase x) = true.

(** The fields of a control of the join. *)
Definition fields_of (t : Terms) (op : Z) : Control :=
  mkControl op (tm_nonce t) (protocol_id (tm_offer t)) (tm_version t) (tm_server_session t).

(** The session's answer to a control of the join, phase by phase. *)
Definition answer (t : Terms) (x : RangeSession) (now : Instant) (op : Z) : Result (Reaction * RangeSession) :=
  let unexpected := protocol_error "unexpected protocol negotiation transition" in
  match rs_phase x with
  | Phase.ClientAwaitSelect | Phase.ClientAwaitReady =>
    if decide (op = SELECT) then
      Ok (SendAck (control_of t ACK),
          x <| rs_selected := Some (tm_version t) |> <| rs_server_handle := tm_server_session t |>
            <| rs_phase := Phase.ClientAwaitReady |> <| rs_next_retry := now + RETRY_INTERVAL |>)
    else if decide (rs_phase x = Phase.ClientAwaitReady ∧ op = READY) then
      Ok (Publish, x <| rs_phase := Phase.ClientReady |>)
    else unexpected
  | Phase.ServerAwaitAck | Phase.ServerReady =>
    if decide (op = ACK) then
      Ok (SendReady (bool_decide (rs_phase x = Phase.ServerReady)) (control_of t READY), x)
    else unexpected
  | Phase.ClientReady => if decide (op = READY ∨ op = SELECT) then Ok (Duplicate, x) else unexpected
  | Phase.ServerAwaitOpen => unexpected
  end.

Lemma negotiate_agreed t x now op :
  terms_wf t → agrees t x → awake now x →
  negotiate x (rs_endpoint x) now (fields_of t op) = answer t x now op.
Proof.
  intros ((? & ? & ? & _) & Hvalid & Hn & [[? ?] _] & ? & ?) Hag Hawake.
  pose proof (protocol_valid_min _ Hvalid) as Hmin.
  pose proof (control_agrees t x READY Hag) as Hready.
  destruct Hag as (Hp & Hx & Hs). unfold negotiate, answer, fields_of.
  cbn [ctl_operation ctl_nonce ctl_protocol_id ctl_version ctl_server_handle].
  rewrite decide_False by (rewrite Hp, Hx; intros [?|[?|[?|[?|?]]]]; (done || zlia)).
  rewrite decide_False by (intros [? Hr]; destruct Hawake as [?|Hr']; [lia|congruence]).
  assert (E : rs_phase x ≠ Phase.ClientAwaitSelect → bool_decide (rs_selected x = Some (tm_version t) ∧
    rs_server_handle x = tm_server_session t) = true).
  { intros. apply bool_decide_eq_true. case_decide; tauto. }
  destruct (rs_phase x) eqn:Eph; try done; rewrite ?E by done; cbn [negb].
  - destruct (decide (op = ACK)).
    + by rewrite Hready.
    + done.
  - destruct (decide (op = ACK)).
    + by rewrite Hready.
    + done.
  - destruct (decide (op = SELECT)); [|done]. destruct Hs as [Hsel Hh].
    rewrite decide_False by (rewrite Hp, Hsel, Hh; intros [?|[?|[[[? [=]] ?]|[? ?]]]]; lia).
    do 3 f_equal. unfold control, control_of. cbn. by rewrite Hp, Hx.
  - destruct (decide (op = SELECT)); [|done]. destruct Hs as [Hsel Hh].
    rewrite decide_False by (rewrite Hp, Hsel, Hh; intros [?|[?|[[? ?]|[? ?]]]]; (lia || done)).
    do 3 f_equal. unfold control, control_of. cbn. by rewrite Hp, Hx.
  - do 2 destruct (decide (_ ∨ _)) || destruct (decide (_ ∧ _)); tauto.
Qed.

Lemma react_agreed t x now op send :
  terms_wf t → agrees t x → awake now x → 0 ≤ op < 256 →
  react x (rs_endpoint x) now (control_of t op) send = '(reaction, y) ← answer t x now op; finish reaction y send.
Proof.
  intros ????. unfold react. rewrite parse_control_of by done. cbn [mbind result_bind].
  change (mkControl op _ _ _ _) with (fields_of t op). by rewrite negotiate_agreed.
Qed.

Lemma react_awake x endpoint now m send r : react x endpoint now m send = Ok r → awake now x.
Proof.
  unfold react. destruct (parse_control m) as [c|]; [|done]. cbn [mbind result_bind]. unfold negotiate.
  case_decide; [done|]. case_decide as Hd; [done|]. intros _. unfold awake.
  destruct (Phase.is_ready _); [by right|left]. lia.
Qed.

(** What one control of the join does to the client, and to the server. *)
Lemma client_react t x now op send y out published :
  terms_wf t → agrees t x → Phase.is_server (rs_phase x) = false → op = SELECT ∨ op = READY →
  react x (rs_endpoint x) now (control_of t op) send = Ok (y, out, published) →
  agrees t y ∧ Phase.is_server (rs_phase y) = false ∧ rs_phase y ≠ Phase.ClientAwaitSelect ∧
  (rs_phase x = Phase.ClientReady → rs_phase y = Phase.ClientReady) ∧
  (rs_phase y = Phase.ClientReady → rs_phase x = Phase.ClientReady ∨ op = READY) ∧
  (∀ m, m ∈ out → m = control_of t ACK) ∧
  published = negb (Phase.is_ready (rs_phase x)) && Phase.is_ready (rs_phase y).
Proof.
  intros Hwf Hag Hcl Hop E. pose proof (react_awake _ _ _ _ _ _ E) as Haw.
  rewrite react_agreed in E by (done || (destruct Hop as [-> | ->]; done)).
  destruct Hag as (Hp & Hx & Hs). unfold answer in E.
  destruct (rs_phase x) eqn:Eph, Hop as [-> | ->]; try done; cbn [mbind result_bind finish decide] in E.
  all: try (destruct (decide _) in E; try done); cbn [mbind result_bind finish] in E.
  all: try (destruct (send _) as [?|e']; [|destruct (would_block e'); [|done]]).
  all: injection E as <- <- <-; unfold agrees; cbn; rewrite ?Eph.
  all: split_and!; try done; try (by intros ?); try (intros ?; rewrite ?list_elem_of_singleton, ?elem_of_nil; done).
  all: tauto.
Qed.

Lemma server_react t x now send y out published :
  terms_wf t → agrees t x → rs_phase x = Phase.ServerAwaitAck ∨ rs_phase x = Phase.ServerReady →
  react x (rs_endpoint x) now (control_of t ACK) send = Ok (y, out, published) →
  agrees t y ∧ (rs_phase y = Phase.ServerAwaitAck ∨ rs_phase y = Phase.ServerReady) ∧
  (rs_phase x = Phase.ServerReady → rs_phase y = Phase.ServerReady) ∧
  (∀ m, m ∈ out → m = control_of t READY ∧ rs_phase y = Phase.ServerReady) ∧
  published = negb (Phase.is_ready (rs_phase x)) && Phase.is_ready (rs_phase y).
Proof.
  intros Hwf Hag Hph E. pose proof (react_awake _ _ _ _ _ _ E) as Haw.
  rewrite react_agreed in E by done. destruct Hag as (Hp & Hx & Hs). unfold answer in E.
  destruct Hph as [Eph|Eph]; rewrite Eph in *; rewrite decide_True in E by done; cbn [mbind result_bind] in E;
    [rewrite bool_decide_eq_false_2 in E by done|rewrite bool_decide_eq_true_2 in E by done]; cbn [finish] in E.
  all: destruct (send _) as [?|e']; [|destruct (would_block e'); [|done]].
  all: injection E as <- <- <-; unfold agrees; cbn; rewrite ?Eph.
  all: split_and!; try done; try tauto.
  all: intros ?; rewrite ?list_elem_of_singleton, ?elem_of_nil; done.
Qed.

Lemma due_control_retry now x c y :
  due_control now x = (Some c, false, y) →
  y = x <| rs_next_retry := now + RETRY_INTERVAL |> ∧
  (rs_phase x = Phase.ServerAwaitAck ∧ c = control x SELECT ∨ rs_phase x = Phase.ClientAwaitReady ∧ c = control x ACK).
Proof.
  unfold due_control. destruct (rs_phase x); try done.
  all: case_bool_decide; [done|]; case_decide; [|done]; intros [= <- <-]; (split; [done|]); (by left) || (by right).
Qed.

Lemma pair_inv_start t client_old server_old server_resume t1 t2 sent :
  let x := opened_server (tm_server_endpoint t) (tm_server_session t) (tm_offer t) (tm_nonce t) (tm_version t)
             server_old server_resume t2 in
  pair_inv t (mkPair (opened_client (tm_client_endpoint t) (mkClientPending (tm_offer t) (tm_nonce t)) client_old t1) x
                (if_sent sent (control x SELECT)) []).
Proof.
  intros x.
  split; try done; [by left|..].
  - cbn. intros m Hm. unfold if_sent in Hm. destruct (is_ok sent); [|by apply elem_of_nil in Hm].
    apply list_elem_of_singleton in Hm as ->. by left.
  - intros m Hm. by apply elem_of_nil in Hm.
Qed.

(** Endpoints never change, so every later delivery is checked against the right one. *)
Lemma pair_inv_step t p p' : terms_wf t → pair_inv t p → pair_step p p' → pair_inv t p'.
Proof.
  intros Hwf [Hc Hs Hcp Hsp Hto Hfrom Hopen Hr] Hstep.
  destruct Hstep as [now m sent x out pub Hm E|now m sent x out pub Hm E|now sent c x E|now sent c x E].
  - assert (∃ op, m = control_of t op ∧ (op = SELECT ∨ op = READY ∧ rs_phase (pr_server p) = Phase.ServerReady))
      as (op & -> & Hop) by (apply Hto in Hm as [-> | (-> & ? & ?)]; eauto).
    eapply client_react in E as (? & ? & ? & ? & Hrdy & Hout & _); [|done..|naive_solver].
    split; cbn; try done.
    + intros m [->|(? & ? & ?)]%Hto; [by left|by right].
    + intros m [->%Hout|[? ?]%Hfrom]%elem_of_app; done.
    + intros [?|Hop']%Hrdy; [tauto|]. destruct Hop as [->|[_ ?]]; done.
  - apply Hfrom in Hm as [-> ?]. eapply server_react in E as (? & ? & ? & Hout & _); [|done..].
    split; cbn; try done; try tauto.
    + intros m [[-> ?]%Hout|[?|(? & ? & ?)]%Hto]%elem_of_app; naive_solver.
  - apply due_control_retry in E as (-> & [[? ->]|[Hph ->]]); [by destruct (rs_phase (pr_client p))|].
    rewrite (control_agrees t) by (done || by rewrite Hph).
    split; cbn; try done.
    intros m [Hm|[-> ?]%Hfrom]%elem_of_app; [|done].
    unfold if_sent in Hm. destruct (is_ok sent); [|by apply elem_of_nil in Hm].
    apply list_elem_of_singleton in Hm as ->. by rewrite Hph.
  - apply due_control_retry in E as (-> & [[Hph ->]|[? ->]]); [|destruct Hsp; congruence].
    rewrite (control_agrees t) by (done || by rewrite Hph).
    split; cbn; try done.
    intros m [Hm|?%Hto]%elem_of_app; [|done].
    unfold if_sent in Hm. destruct (is_ok sent); [|by apply elem_of_nil in Hm].
    apply list_elem_of_singleton in Hm as ->. by left.
Qed.

Lemma pair_reachable_inv t p : terms_wf t → pair_reachable t p → pair_inv t p.
Proof. intros ?. induction 1; [apply pair_inv_start|by eapply pair_inv_step]. Qed.

(** ** The handler *)

Lemma complete_buffered_lookup r s x :
  sessions r !! s = Some x →
  sessions (complete_buffered r s) !! s = Some (x <| rs_buffered := [] |> <| rs_buffered_bytes := 0 |>).
Proof. intros H. unfold complete_buffered. rewrite H. apply lookup_insert_eq. Qed.

Lemma make_ready_lookup r s x p :
  sessions r !! s = Some x →
  sessions (make_ready r s p) !! s =
  Some (x <| rs_phase := p |> <| rs_buffered := [] |> <| rs_buffered_bytes := 0 |>).
Proof. intros H. apply complete_buffered_lookup. cbn. by rewrite lookup_alter_eq, H. Qed.

Lemma negotiate_publish x endpoint now c y :
  negotiate x endpoint now c = Ok (Publish, y) → Phase.is_server (rs_phase y) = false.
Proof. unfold negotiate. intros. repeat (case_decide || case_match); simplify_eq; done. Qed.

Section handler.
Context (net : Network) (now : Instant).

(** The range state plays no part in a send. *)
Lemma send_after g f s c : ∃ g',
  send_range_control net (g <| g_range ::= f |>) s c = ((send_range_control net g s c).1, g') ∧
  g_range g' = f (g_range g).
Proof. unfold send_range_control. cbn [g_maximum_envelope_len]. destruct (Envelope.encode_control _ _ _); by eexists. Qed.

(** [handle_range_control] is [react] on the session it finds, with the transport's answers. *)
Lemma handle_range_control_react g event payload x :
  sessions (g_range g) !! ev_session event = Some x →
  let s := ev_session event in
  match react x (ev_endpoint event) now payload (λ c, (send_range_control net g s c).1) with
  | Err e => ∃ g', handle_range_control net now g event payload = Done (Err e, g')
  | Ok (y, _, false) =>
    ∃ g', handle_range_control net now g event payload = Done (Ok None, g') ∧
          sessions (g_range g') = <[s := y]> (sessions (g_range g))
  | Ok (y, _, true) =>
    ∃ g', handle_range_control net now g event payload =
            publish_range_ready net g' (ev_endpoint event) s (rs_old_session y)
              (Phase.is_server (rs_phase y) && rs_server_resume y) ∧
          sessions (g_range g') !! s = Some (y <| rs_buffered := [] |> <| rs_buffered_bytes := 0 |>)
  end.
Proof.
  intros Hx s. unfold react, handle_range_control.
  destruct (parse_control payload) as [c|]; [|by eexists]. cbn [mbind result_bind]. rewrite Hx.
  destruct (negotiate _ _ _ _) as [[reaction y]|] eqn:En; [|by eexists]. cbn [mbind result_bind].
  fold s. set (f := λ r, r <| sessions ::= <[s := y]> |>).
  destruct reaction as [ack|was ready| |]; cbn [finish].
  - destruct (send_after g f s ack) as (g' & -> & Hg').
    destruct (send_range_control net g s ack).1 as [?|e].
    { exists g'. by rewrite Hg'. }
    destruct (would_block e); exists g'; [by rewrite Hg'|done].
  - destruct (send_after g f s ready) as (g' & -> & Hg'). 
    destruct (send_range_control net g s ready).1 as [?|e].
    2: { destruct (would_block e); exists g'; [by rewrite Hg'|done]. }
    destruct was; [exists g'; by rewrite Hg'|].
    exists (g' <| g_range ::= λ r, make_ready r s Phase.ServerReady |>). split; [done|].
    change (sessions (make_ready (g_range g') s Phase.ServerReady) !! s = Some (y <| rs_phase := Phase.ServerReady |> <| rs_buffered := [] |> <| rs_buffered_bytes := 0 |>)).
    rewrite Hg'. apply make_ready_lookup. apply lookup_insert_eq.
  - exists (g <| g_range ::= λ r, complete_buffered (f r) s |>). split; [|].
    + rewrite (negotiate_publish _ _ _ _ _ En). done.
    + apply complete_buffered_lookup. apply lookup_insert_eq.
  - eexists. split; [done|]. done.
Qed.

(** [start_range_session] opens the two sessions the way [pair_start] does. *)
Lemma start_opens g endpoint session old_session server_resume :
  let g' := (start_range_session net now g endpoint session old_session server_resume).2 in
  (∀ protocol nonce v deadline next_retry,
     sessions (g_range g) !! session =
       Some (mkRangeSession endpoint protocol nonce (Some v) session None false Phase.ServerAwaitOpen deadline
               next_retry [] 0) →
     sessions (g_range g') !! session =
       Some (opened_server endpoint session protocol nonce v old_session server_resume now)) ∧
  (∀ pending,
     sessions (g_range g) !! session = None → client_endpoints (g_range g) !! endpoint = Some pending →
     sessions (g_range g') !! session = Some (opened_client endpoint pending old_session now)).
Proof.
  intros g'. subst g'. unfold start_range_session. split.
  - intros protocol nonce v deadline next_retry ->. rewrite decide_False by (intros H; by apply H).
    match goal with |- context [send_range_control net (g <| g_range ::= ?f |>) session ?c] =>
      destruct (send_after g f session c) as (g' & -> & Hg') end.
    destruct (send_range_control net g session _).1; cbn [snd]; rewrite Hg'; apply lookup_insert_eq.
  - intros pending -> ->. apply lookup_insert_eq.
Qed.
End handler.

(** ** Agreement *)

Definition settled (t : Terms) (x : RangeSession) : Prop :=
  rs_selected x = Some (tm_version t) ∧ rs_server_handle x = tm_server_session t.

Lemma agrees_settled t x : agrees t x → rs_phase x ≠ Phase.ClientAwaitSelect → settled t x.
Proof. intros (_ & _ & H) ?. by case_decide. Qed.

(** C24: over a control path that loses, repeats and reorders, a client whose session is ready
    faces a server session that is ready too, both on the version and server handle of the join,
    a version both ends support; a delivery never makes a ready session unready, and it
    publishes a session exactly when it makes it ready, so each end publishes once. *)
Theorem negotiation_agrees (t : Terms) (p : Pair) :
  terms_wf t → pair_reachable t p →
  (rs_phase (pr_client p) = Phase.ClientReady →
   rs_phase (pr_server p) = Phase.ServerReady ∧ settled t (pr_client p) ∧ settled t (pr_server p) ∧
   selectable (tm_offer t) (tm_supported t) (tm_version t)) ∧
  (∀ now m send x out published, m ∈ pr_to_client p →
     react (pr_client p) (rs_endpoint (pr_client p)) now m send = Ok (x, out, published) →
     (rs_phase (pr_client p) = Phase.ClientReady → rs_phase x = Phase.ClientReady) ∧
     published = negb (Phase.is_ready (rs_phase (pr_client p))) && Phase.is_ready (rs_phase x)) ∧
  (∀ now m send x out published, m ∈ pr_to_server p →
     react (pr_server p) (rs_endpoint (pr_server p)) now m send = Ok (x, out, published) →
     (rs_phase (pr_server p) = Phase.ServerReady → rs_phase x = Phase.ServerReady) ∧
     published = negb (Phase.is_ready (rs_phase (pr_server p))) && Phase.is_ready (rs_phase x)).
Proof.
  intros Hwf [Hc Hs Hcp Hsp Hto Hfrom _ Hr]%pair_reachable_inv; [|done]. split_and!.
  - intros E. split_and!; [auto|..]; try (apply agrees_settled; [done|]).
    + by rewrite E.
    + by rewrite Hr.
    + apply Hwf.
  - intros now m send x out pub Hm E.
    assert (∃ op, m = control_of t op ∧ (op = SELECT ∨ op = READY)) as (op & -> & ?)
      by (apply Hto in Hm as [-> | (-> & _)]; eauto).
    eapply client_react in E; [|done..]. tauto.
  - intros now m send x out pub [-> _]%Hfrom E. eapply server_react in E; [|done..]. tauto.
Qed.

(** A transport that takes the control or asks to wait. *)
Definition willing (send : list byte → Result unit) : Prop :=
  ∀ c, match send c with Ok _ => True | Err e => would_block e = true end.

Lemma finish_willing reaction x send : willing send → ∃ r, finish reaction x send = Ok r.
Proof.
  intros Hw. destruct reaction as [c|was c| |]; cbn; [..|by eexists|by eexists]; specialize (Hw c);
    destruct (send c); rewrite ?Hw; try destruct was; by eexists.
Qed.

(** no order, delay or repetition of the controls of a join is taken for a protocol
    violation: whatever was ever sent to a side, delivered to it before its deadline or after it
    is ready, is accepted while the transport takes the reply or is full. *)
Theorem negotiation_tolerates_disorder (t : Terms) (p : Pair) (now : Instant) (send : list byte → Result unit) (m : list byte) :
  terms_wf t → pair_reachable t p → willing send →
  (m ∈ pr_to_client p → awake now (pr_client p) →
   ∃ r, react (pr_client p) (rs_endpoint (pr_client p)) now m send = Ok r) ∧
  (m ∈ pr_to_server p → awake now (pr_server p) →
   ∃ r, react (pr_server p) (rs_endpoint (pr_server p)) now m send = Ok r).
Proof.
  intros Hwf [Hc Hs Hcp Hsp Hto Hfrom _ Hr]%pair_reachable_inv Hw; [|done]. split.
  - intros Hm Haw.
    assert (∃ op, m = control_of t op ∧ 0 ≤ op < 256 ∧ ∃ r, answer t (pr_client p) now op = Ok r) as (op & -> & ? & [??] & E).
    { unfold answer. apply Hto in Hm as [-> | (-> & _ & ?)]; eexists; (split; [done|]); (split; [done|]);
        destruct (rs_phase (pr_client p)); try done; try (by eexists); rewrite decide_True by auto; by eexists. }
    rewrite react_agreed by done. rewrite E. by apply finish_willing.
  - intros [-> _]%Hfrom Haw. rewrite react_agreed by done. unfold answer.
    destruct Hsp as [-> | ->]; rewrite decide_True by done; by apply finish_willing.
Qed.

(** ** Completion *)

Definition accepts : list byte → Result unit := λ _, Ok tt.

Definition both_ready (p : Pair) : Prop :=
  rs_phase (pr_client p) = Phase.ClientReady ∧ rs_phase (pr_server p) = Phase.ServerReady.

(** The session is ready, or its retry is due and its deadline has not passed. *)
Definition retry_due (now : Instant) (x : RangeSession) : Prop :=
  Phase.is_ready (rs_phase x) = true ∨ rs_next_retry x ≤ now < rs_deadline x.

Lemma retry_due_awake now x : retry_due now x → awake now x.
Proof. intros [?|[? ?]]; [by right|by left]. Qed.

(** READY in flight completes the client, ACK in flight both, SELECT in flight too. *)
Lemma ready_completes t p now :
  terms_wf t → pair_inv t p → rs_phase (pr_client p) = Phase.ClientAwaitReady → awake now (pr_client p) →
  control_of t READY ∈ pr_to_client p → ∃ p', bsteps pair_step 1 p p' ∧ both_ready p'.
Proof.
  intros Hwf Hinv Hph Haw Hm. pose proof Hinv as [Hc _ _ _ Hto _ _ _].
  assert (E : react (pr_client p) (rs_endpoint (pr_client p)) now (control_of t READY) accepts =
              Ok (pr_client p <| rs_phase := Phase.ClientReady |>, [], true)).
  { rewrite react_agreed by done. unfold answer. by rewrite Hph. }
  eexists. split; [eapply bsteps_once, (deliver_client p now _ accepts); [exact Hm|exact E]|].
  split; [done|]. destruct (Hto _ Hm) as [H|(_ & ? & _)]; [|done]. by apply (f_equal (take 1)) in H.
Qed.

Lemma ack_completes t p now :
  terms_wf t → pair_inv t p → rs_phase (pr_client p) = Phase.ClientAwaitReady →
  awake now (pr_client p) → awake now (pr_server p) →
  control_of t ACK ∈ pr_to_server p → ∃ p', bsteps pair_step 2 p p' ∧ both_ready p'.
Proof.
  intros Hwf Hinv Hph Hcaw Hsaw Hm. pose proof Hinv as [_ Hs _ Hsp _ _ _ _].
  assert (∃ x b, react (pr_server p) (rs_endpoint (pr_server p)) now (control_of t ACK) accepts =
                 Ok (x, [control_of t READY], b)) as (x & b & E).
  { rewrite react_agreed by done. unfold answer.
    destruct Hsp as [-> | ->]; rewrite decide_True by done; by do 2 eexists. }
  pose proof (deliver_server p now _ _ _ _ _ Hm E) as Hstep.
  destruct (ready_completes t _ now Hwf (pair_inv_step _ _ _ Hwf Hinv Hstep)) as (p' & ? & ?); [done..|by left|].
  exists p'. split; [by eapply bsteps_l|done].
Qed.

Lemma select_completes t p now :
  terms_wf t → pair_inv t p → rs_phase (pr_client p) ≠ Phase.ClientReady →
  awake now (pr_client p) → awake now (pr_server p) →
  control_of t SELECT ∈ pr_to_client p → ∃ p', bsteps pair_step 3 p p' ∧ both_ready p'.
Proof.
  intros Hwf Hinv Hph Hcaw Hsaw Hm. pose proof Hinv as [Hc _ Hcp _ _ _ _ _].
  assert (∃ x, react (pr_client p) (rs_endpoint (pr_client p)) now (control_of t SELECT) accepts =
               Ok (x, [control_of t ACK], false) ∧ rs_phase x = Phase.ClientAwaitReady ∧
               rs_deadline x = rs_deadline (pr_client p)) as (x & E & Hx & Hdl).
  { rewrite react_agreed by done. unfold answer. destruct (rs_phase (pr_client p)); try done; by eexists. }
  pose proof (deliver_client p now _ _ _ _ _ Hm E) as Hstep.
  destruct (ack_completes t _ now Hwf (pair_inv_step _ _ _ Hwf Hinv Hstep)) as (p' & ? & ?); [done|..|by left|].
  - left. cbn. rewrite Hdl. destruct Hcaw as [?|H]; [done|]. by destruct (rs_phase (pr_client p)).
  - done.
  - exists p'. split; [by eapply bsteps_l|done].
Qed.

(** A due retry sends. *)
Lemma retry_due_sends t now x op :
  agrees t x → retry_due now x →
  rs_phase x = Phase.ServerAwaitAck ∧ op = SELECT ∨ rs_phase x = Phase.ClientAwaitReady ∧ op = ACK →
  due_control now x = (Some (control_of t op), false, x <| rs_next_retry := now + RETRY_INTERVAL |>).
Proof.
  intros Hag Hd Hop. assert (rs_next_retry x ≤ now < rs_deadline x).
  { destruct Hd as [H|?]; [|done]. by destruct Hop as [[E _]|[E _]]; rewrite E in H. }
  rewrite <- (control_agrees t x) by (done || by destruct Hop as [[-> _]|[-> _]]). unfold due_control.
  destruct Hop as [[-> ->]|[-> ->]]; rewrite bool_decide_eq_false_2, decide_True by lia; done.
Qed.

(** C25: negotiation can always complete: from every reachable state in which the sides that are
    not ready have a retry due before their deadline, one retry and at most three deliveries
    make both ready. *)
Theorem negotiation_completes (t : Terms) (p : Pair) (now : Instant) :
  terms_wf t → pair_reachable t p → retry_due now (pr_client p) → retry_due now (pr_server p) →
  ∃ p', bsteps pair_step 4 p p' ∧ both_ready p'.
Proof.
  intros Hwf Hinv%pair_reachable_inv Hcd Hsd; [|done].
  pose proof (retry_due_awake _ _ Hcd) as Hcaw. pose proof (retry_due_awake _ _ Hsd) as Hsaw.
  pose proof Hinv as [Hc Hs Hcp Hsp _ _ Hopen Hr].
  destruct (decide (rs_phase (pr_client p) = Phase.ClientReady)) as [E|Hnr].
  { exists p. split; [constructor|split; auto]. }
  destruct Hsp as [Hsp|Hsp].
  - pose proof (retry_server p now (Ok tt) _ _ (retry_due_sends t _ _ SELECT Hs Hsd ltac:(auto))) as Hstep.
    destruct (select_completes t _ now Hwf (pair_inv_step _ _ _ Hwf Hinv Hstep)) as (p' & ? & ?); [done..|by left|].
    exists p'. split; [by eapply bsteps_l|done].
  - assert (Hph : rs_phase (pr_client p) = Phase.ClientAwaitReady)
      by (specialize (Hopen Hsp); by destruct (rs_phase (pr_client p))).
    pose proof (retry_client p now (Ok tt) _ _ (retry_due_sends t _ _ ACK Hc Hcd ltac:(auto))) as Hstep.
    destruct (ack_completes t _ now Hwf (pair_inv_step _ _ _ Hwf Hinv Hstep)) as (p' & ? & ?); [done..|by left|].
    exists p'. split; [|done]. eapply bsteps_weaken, bsteps_l; [|done..]. lia.
Qed.

(** ** Examples *)

Module NegotiationDemo.

Definition offer : GameProtocol := mkGameProtocol 7 1 3 0 0.
Definition supported : GameProtocol := mkGameProtocol 7 2 5 0 0.
Definition nonce : list byte := repeat (of_u8 1) 16.
Definition terms : Terms := mkTerms 10 20 21 offer supported nonce 3.

Lemma terms_ok : terms_wf terms.
Proof. unfold terms_wf, selectable, Join.protocol_wf. split_and!; done || zlia. Qed.

(** The state after both opens; [sent] is the fate of the first SELECT. *)
Definition start (sent : Result unit) : Pair :=
  let x := opened_server 20 21 offer nonce 3 None false 0 in
  mkPair (opened_client 10 (mkClientPending offer nonce) None 0) x (if_sent sent (control x SELECT)) [].
Lemma start_reachable sent : pair_reachable terms (start sent).
Proof. apply (pair_start terms). Qed.

(** The delivery of the latest control to each side. *)
Definition to_client (p : Pair) : Pair :=
  match react (pr_client p) (rs_endpoint (pr_client p)) 1 (default [] (head (pr_to_client p))) accepts with
  | Ok (x, out, _) => mkPair x (pr_server p) (pr_to_client p) (out ++ pr_to_server p)
  | Err _ => p
  end.
Definition to_server (p : Pair) : Pair :=
  match react (pr_server p) (rs_endpoint (pr_server p)) 1 (default [] (head (pr_to_server p))) accepts with
  | Ok (x, out, _) => mkPair (pr_client p) x (out ++ pr_to_client p) (pr_to_server p)
  | Err _ => p
  end.

Lemma to_client_reachable p :
  pair_reachable terms p → pr_to_client p ≠ [] → pair_reachable terms (to_client p).
Proof.
  intros Hp Hm. unfold to_client. destruct (react _ _ _ _ _) as [[[x out] b]|] eqn:E; [|done].
  eapply pair_more, deliver_client; [done| |exact E]. destruct (pr_to_client p); [done|by left].
Qed.
Lemma to_server_reachable p :
  pair_reachable terms p → pr_to_server p ≠ [] → pair_reachable terms (to_server p).
Proof.
  intros Hp Hm. unfold to_server. destruct (react _ _ _ _ _) as [[[x out] b]|] eqn:E; [|done].
  eapply pair_more, deliver_server; [done| |exact E]. destruct (pr_to_server p); [done|by left].
Qed.

Definition final : Pair := to_client (to_server (to_client (start (Ok tt)))).
Lemma final_reachable : pair_reachable terms final.
Proof.
  apply to_client_reachable; [apply to_server_reachable; [apply to_client_reachable; [apply start_reachable|]|]|];
    by vm_compute.
Qed.
End NegotiationDemo.

Lemma negotiation_completes_witness :
  ∃ p', bsteps pair_step 4 (NegotiationDemo.start (fail ErrorCode.WouldBlock "full")) p' ∧ both_ready p'.
Proof.
  apply (negotiation_completes NegotiationDemo.terms _ (2 * 10 ^ 8)).
  - exact NegotiationDemo.terms_ok.
  - apply NegotiationDemo.start_reachable.
  - right. split; done.
  - right. split; done.
Defined.

Lemma negotiation_agrees_witness :
  rs_phase (pr_server NegotiationDemo.final) = Phase.ServerReady ∧
  settled NegotiationDemo.terms (pr_client NegotiationDemo.final).
Proof.
  destruct (negotiation_agrees NegotiationDemo.terms NegotiationDemo.final) as [H _].
  - exact NegotiationDemo.terms_ok.
  - exact NegotiationDemo.final_reachable.
  - destruct H as (? & ? & _); [by vm_compute|]. split; assumption.
Defined.

(** A SELECT that arrives after READY. *)
Lemma negotiation_tolerates_disorder_witness :
  ∃ r, react (pr_client NegotiationDemo.final) (rs_endpoint (pr_client NegotiationDemo.final)) (10 ^ 12)
         (control_of NegotiationDemo.terms SELECT) accepts = Ok r.
Proof.
  destruct (negotiation_tolerates_disorder NegotiationDemo.terms NegotiationDemo.final (10 ^ 12) accepts
              (control_of NegotiationDemo.terms SELECT)) as [H _].
  - exact NegotiationDemo.terms_ok.
  - exact NegotiationDemo.final_reachable.
  - intros c. exact I.
  - apply H; [apply (bool_decide_unpack _); vm_compute; exact I|right; by vm_compute].
Defined.
