(* ===== verification/GameSafety.v ===== *)
(** * Safety of the game runtime

    The invariant that every handler of [GameRuntime] keeps (the tables only know owned
    sessions, the components' own invariants hold, nothing panics), and what follows for
    closing endpoints and for revoking a session. *)

From S2P Require Import Prelude Bytes CoreTypes Control TcpSession Observe GameWire Quality Heartbeat ClockSync.
From S2P Require Import Scheduler Realtime SendPath GameData Resume RangeState GameRuntime.

(** ** Invariants *)

(** Every handle the per-session tables know is owned by an endpoint: this is what closing an
    endpoint relies on to find its sessions. *)
Record owned (g : GameRuntime) : Prop := {
  ow_heartbeat : dom (trackers (g_heartbeat g)) ⊆ dom (g_session_endpoints g);
  ow_clock : dom (cr_trackers (g_clock g)) ⊆ dom (g_session_endpoints g);
  ow_udp : dom (g_udp_sessions g) ⊆ dom (g_session_endpoints g);
  ow_ready : ready (g_admission g) ⊆ dom (g_session_endpoints g);
  ow_range : dom (sessions (g_range g)) ⊆ dom (g_session_endpoints g);
  ow_meta : dom (server_sessions (g_resume g)) ⊆ dom (g_session_endpoints g);
  ow_pending : dom (pending_server (g_resume g)) ⊆ dom (g_session_endpoints g);
  ow_inflight : ∀ old new, inflight_server (g_resume g) !! old = Some new → new ∈ dom (g_session_endpoints g);
  ow_revoked : revoked_inflight (g_resume g) ⊆ dom (inflight_server (g_resume g))
}.

(** The identities kept with the tickets are as short as issuing requires. *)
Definition identities_ok (t : ResumeRegistry) : Prop :=
  ∀ n e, entries t !! n = Some e → len (te_identity e) ≤ MAX_IDENTITY_LEN.

Lemma identities_sub t t' : entries t' ⊆ entries t → identities_ok t → identities_ok t'.
Proof. intros Hs Ht n e He. eapply Ht, lookup_weaken; eauto. Qed.

Record runtime_inv (g : GameRuntime) : Prop := {
  gi_owned : owned g;
  gi_range : range_inv (g_range g);
  gi_realtime : ∃ l, rt_inv (g_realtime g) l;
  gi_scheduled : ∃ n, sched_inv (g_scheduled g) [] n;
  gi_tickets : indexed (tickets (g_resume g));
  gi_identities : identities_ok (tickets (g_resume g));
  gi_ttl : 0 ≤ resume_ttl (g_resume g);
  gi_heartbeat : ∀ now, is_ok (tracker_new (heartbeat_interval (g_heartbeat g)) (heartbeat_timeout (g_heartbeat g)) now)
}.

Lemma foldl_delete_lookup {A} (l : list Z) (m : gmap Z A) k :
  foldl (λ m n, delete n m) m l !! k = if decide (k ∈ l) then None else m !! k.
Proof.
  revert m. induction l as [|n l IH]; intros m; cbn [foldl].
  { rewrite decide_False; [done|apply not_elem_of_nil]. }
  rewrite IH. destruct (decide (k ∈ l)) as [Hk|Hk]; [rewrite decide_True by (by right); done|].
  destruct (decide (k = n)) as [->|Hne].
  - rewrite decide_True by left. apply lookup_delete_eq.
  - rewrite decide_False by (rewrite elem_of_cons; tauto). by rewrite lookup_delete_ne.
Qed.

(** The keys of a map whose entries satisfy [P]. *)
Lemma filtered_keys {A} (P : Z * A → Prop) `{!∀ x, Decision (P x)} (m : gmap Z A) k :
  k ∈ (filter P (map_to_list m)).*1 ↔ ∃ x, m !! k = Some x ∧ P (k, x).
Proof.
  rewrite list_elem_of_fmap. split.
  - intros ([k' x] & -> & [HP Hin%elem_of_map_to_list]%list_elem_of_filter). eauto.
  - intros (x & Hx & HP). exists (k, x). rewrite list_elem_of_filter, elem_of_map_to_list. done.
Qed.

Lemma forget_resume_inflight st s old new :
  inflight_server (forget_resume_session st s) !! old = Some new ↔
  inflight_server st !! old = Some new ∧ new ≠ s.
Proof.
  cbn. rewrite foldl_delete_lookup. case_decide as H; rewrite filtered_keys in H; cbn in H; naive_solver.
Qed.

Lemma forget_resume_pending st s n c :
  pending_server (forget_resume_session st s) !! n = Some c ↔ s ≠ n ∧ pending_server st !! n = Some c.
Proof. apply lookup_delete_Some. Qed.

Lemma forget_resume_revoked st s old :
  old ∈ revoked_inflight (forget_resume_session st s) ↔
  old ∈ revoked_inflight st ∧ inflight_server st !! old ≠ Some s.
Proof.
  cbn. rewrite elem_of_difference, elem_of_list_to_set, filtered_keys. cbn. naive_solver.
Qed.

(** The effect of forgetting a session. *)
Record forgotten (g g' : GameRuntime) (s : Handle) : Prop := {
  fg_endpoints : g_session_endpoints g' = delete s (g_session_endpoints g);
  fg_heartbeat : g_heartbeat g' = Heartbeat.forget_session (g_heartbeat g) s;
  fg_clock : g_clock g' = forget_clock_session (g_clock g) s;
  fg_udp : g_udp_sessions g' = delete s (g_udp_sessions g);
  fg_admission : g_admission g' = admission_remove (g_admission g) s;
  fg_resume : g_resume g' = forget_resume_session (g_resume g) s;
  fg_sessions : sessions (g_range g') = delete s (sessions (g_range g));
  fg_completed : completed (g_range g') =
    filter (λ c, event_belongs_to_session (ce_event c) s = false) (completed (g_range g));
  fg_servers : server_endpoints (g_range g') = server_endpoints (g_range g);
  fg_clients : client_endpoints (g_range g') = client_endpoints (g_range g);
  fg_transports : g_endpoint_transports g' = g_endpoint_transports g;
  fg_realtime : ∀ k x, lq_pending (g_realtime g') !! k = Some x → rt_session x ≠ s;
  fg_messages : public_messages (g_range g') ≤ public_messages (g_range g);
  fg_bytes : public_bytes (g_range g') ≤ public_bytes (g_range g);
  fg_max_messages : max_buffered_messages (g_range g') = max_buffered_messages (g_range g);
  fg_max_bytes : max_buffered_bytes (g_range g') = max_buffered_bytes (g_range g)
}.

Lemma forgotten_owned g g' s : owned g → forgotten g g' s → owned g'.
Proof.
  intros [O1 O2 O3 O4 O5 O6 O7 O8 O9] F.
  constructor; rewrite ?(fg_endpoints _ _ _ F), ?(fg_heartbeat _ _ _ F), ?(fg_clock _ _ _ F), ?(fg_udp _ _ _ F),
    ?(fg_admission _ _ _ F), ?(fg_sessions _ _ _ F), ?(fg_resume _ _ _ F).
  - cbn [trackers Heartbeat.forget_session update]. cbn. rewrite !dom_delete_L. set_solver.
  - cbn. rewrite !dom_delete_L. set_solver.
  - rewrite !dom_delete_L. set_solver.
  - cbn. rewrite !dom_delete_L. set_solver.
  - rewrite !dom_delete_L. set_solver.
  - cbn. rewrite !dom_delete_L. set_solver.
  - cbn. rewrite !dom_delete_L. set_solver.
  - intros old new [H1 H2]%forget_resume_inflight. apply O8 in H1. rewrite dom_delete_L. set_solver.
  - intros old [H1 H2]%forget_resume_revoked. apply O9, elem_of_dom in H1 as [new Hn].
    apply elem_of_dom. exists new. apply forget_resume_inflight. naive_solver.
Qed.

Lemma forget_ready_ok g s :
  runtime_inv g → ∃ g', forget_ready_session g s = Done g' ∧ runtime_inv g' ∧ forgotten g g' s.
Proof.
  intros [Ho Hr [l Hl] [n Hn] Ht Hi Httl Hh]. unfold forget_ready_session.
  change (g_realtime (forget_tables g s)) with (g_realtime g).
  destruct (forget_spec _ _ s Hl) as (q & -> & Hq & _). cbn [mbind outcome_bind].
  change (g_range (forget_queues (forget_tables g s) s q)) with (g_range g).
  destruct (range_forget_session_ok _ s Hr) as (r & -> & Hr' & Hs & Hc & Hm1 & Hm2 & He1 & He2 & Hp1 & Hp2).
  cbn [mbind outcome_bind]. eexists. split; [reflexivity|].
  assert (F : forgotten g (forget_queues (forget_tables g s) s q <| g_range := r |>) s).
  { constructor; try reflexivity; try assumption. intros k x Hx.
    apply (ln_pending _ _ (ri_lined _ _ Hq)) in Hx as [Hx _]. by apply list_elem_of_filter in Hx as [? _]. }
  pose proof (Scheduler.forget_session_spec _ _ _ s Hn (Forall_nil_2 _)) as Hn'.
  destruct (Scheduler.forget_session (g_scheduled g) s) as [d qs] eqn:Es.
  split; [|exact F]. constructor; [by eapply forgotten_owned|exact Hr'|by eexists; exact Hq| |exact Ht|exact Hi|exact Httl|exact Hh].
  exists n. change (sched_inv (Scheduler.forget_session (g_scheduled g) s).2 [] n). rewrite Es. apply Hn'.
Qed.

(** No credential, claim or candidate can resume the session [old] any more, and it is not a
    session of the game. *)
Record quiet (old : Handle) (g : GameRuntime) : Prop := {
  qt_tickets : ∀ n e, entries (tickets (g_resume g)) !! n = Some e → te_old_session e ≠ old;
  qt_pending : ∀ n c, pending_server (g_resume g) !! n = Some c → claim_old_session c ≠ old;
  qt_inflight : inflight_server (g_resume g) !! old = None;
  qt_ready : old ∉ ready (g_admission g);
  qt_range : sessions (g_range g) !! old = None;
  qt_clients : ∀ ep, resume_client_endpoints (g_resume g) !! ep ≠ Some old;
  qt_taken : ∀ s x, sessions (g_range g) !! s = Some x → rs_old_session x = Some old →
    rs_server_resume x = true ∧ Phase.is_server (rs_phase x) = true
}.

(** [g'] holds no more deferred public events than [g], and owns no handles but [X] and those
    of [g]. *)
Record trims (X : gset Z) (g g' : GameRuntime) : Prop := {
  tr_messages : public_messages (g_range g') ≤ public_messages (g_range g);
  tr_bytes : public_bytes (g_range g') ≤ public_bytes (g_range g);
  tr_max_messages : max_buffered_messages (g_range g') = max_buffered_messages (g_range g);
  tr_max_bytes : max_buffered_bytes (g_range g') = max_buffered_bytes (g_range g);
  tr_owned : dom (g_session_endpoints g') ⊆ X ∪ dom (g_session_endpoints g)
}.
#[export] Instance trims_preorder X : PreOrder (trims X).
Proof.
  split; [intros g; constructor; try done; set_solver|].
  intros g1 g2 g3 [] []. constructor; [lia|lia|congruence|congruence|set_solver].
Qed.
Lemma trims_same X g g' :
  g_range g' = g_range g → g_session_endpoints g' = g_session_endpoints g → trims X g g'.
Proof. intros E1 E2. constructor; rewrite ?E1, ?E2; try done. set_solver. Qed.
Lemma trims_weaken X g g' : trims ∅ g g' → trims X g g'.
Proof. intros []. constructor; try done. set_solver. Qed.

(** [g'] keeps the invariant, and revives no quiet session. *)
Definition keeps (g g' : GameRuntime) : Prop :=
  runtime_inv g → runtime_inv g' ∧ (∀ old, quiet old g → quiet old g') ∧ trims ∅ g g'.
#[export] Instance keeps_preorder : PreOrder keeps.
Proof.
  split; [by intros g|]. intros g1 g2 g3 H1 H2 Hg. destruct (H1 Hg) as (Hg2 & Q1 & T1).
  destruct (H2 Hg2) as (Hg3 & Q2 & T2). split_and!; [done|auto|by etrans].
Qed.

Lemma forgotten_quiet old g g' s : quiet old g → forgotten g g' s → quiet old g'.
Proof.
  intros [Q1 Q2 Q3 Q4 Q5 Q6 Q7] F. constructor; rewrite ?(fg_resume _ _ _ F), ?(fg_sessions _ _ _ F).
  - exact Q1.
  - intros n c [_ H]%forget_resume_pending. by eapply Q2.
  - apply eq_None_not_Some. intros [new [H _]%forget_resume_inflight]. congruence.
  - rewrite (fg_admission _ _ _ F). cbn. set_solver.
  - rewrite lookup_delete_None. by right.
  - exact Q6.
  - intros s' x [_ H]%lookup_delete_Some. by eapply Q7.
Qed.

Lemma forgotten_trims X g g' s : forgotten g g' s → trims X g g'.
Proof. intros F. constructor; try apply F. rewrite (fg_endpoints _ _ _ F), dom_delete_L. set_solver. Qed.

Lemma forget_keeps g s : runtime_inv g → ∃ g', forget_ready_session g s = Done g' ∧ forgotten g g' s ∧ keeps g g'.
Proof.
  intros Hg. destruct (forget_ready_ok g s Hg) as (g' & E & Hg' & F). exists g'. split_and!; [done..|].
  intros _. split_and!; [done|intros old Q; by eapply forgotten_quiet|by eapply forgotten_trims].
Qed.

(** *** Single updates *)

Ltac keeps_field :=
  intros [[] ? ? ? ? ? ? ?];
  split_and!;
    [constructor; try assumption; constructor; assumption|intros ? []; constructor; assumption|by apply trims_same].

Lemma keeps_log c g : keeps g (log_call c g).
Proof. keeps_field. Qed.
Lemma keeps_metrics f g : keeps g (g <| g_resume_metrics ::= f |>).
Proof. keeps_field. Qed.

(** The deferred events of a range state are those of another, or fewer. *)
Definition shrinks (r r' : RangeRuntimeState) : Prop :=
  public_messages r' ≤ public_messages r ∧ public_bytes r' ≤ public_bytes r ∧
  max_buffered_messages r' = max_buffered_messages r ∧ max_buffered_bytes r' = max_buffered_bytes r.

Lemma keeps_range g r :
  range_inv r → shrinks (g_range g) r → dom (sessions r) ⊆ dom (g_session_endpoints g) →
  (∀ old, quiet old g → sessions r !! old = None ∧
     ∀ s x, sessions r !! s = Some x → rs_old_session x = Some old →
       rs_server_resume x = true ∧ Phase.is_server (rs_phase x) = true) →
  keeps g (g <| g_range := r |>).
Proof.
  intros Hr (Hm & Hb & E1 & E2) Hd Hq [[] ? ? ? ? ? ? ?].
  split_and!; [constructor; try assumption; constructor; assumption| |constructor; try done; set_solver].
  intros old Q. destruct (Hq old Q) as [H1 H2]. destruct Q. constructor; assumption.
Qed.

(** Range states whose sessions are those of [g] up to fields other than the old session. *)
Lemma keeps_range_same g r :
  range_inv r → shrinks (g_range g) r →
  (∀ s x, sessions r !! s = Some x → ∃ y, sessions (g_range g) !! s = Some y ∧
     rs_old_session x = rs_old_session y ∧ rs_server_resume x = rs_server_resume y ∧
     Phase.is_server (rs_phase x) = Phase.is_server (rs_phase y)) →
  keeps g (g <| g_range := r |>).
Proof.
  intros Hr Hsh Hs Hg. revert Hg. refine (λ Hg, keeps_range g r Hr Hsh _ _ Hg).
  - intros s [x Hx]%elem_of_dom. destruct (Hs s x Hx) as (y & Hy & _).
    apply (ow_range _ (gi_owned _ Hg)), elem_of_dom. eauto.
  - intros old Q. split.
    + apply eq_None_not_Some. intros [x Hx]. destruct (Hs _ _ Hx) as (y & Hy & _).
      rewrite (qt_range _ _ Q) in Hy. done.
    + intros s x Hx E. destruct (Hs _ _ Hx) as (y & Hy & E1 & E2 & E3). rewrite E2, E3.
      eapply (qt_taken _ _ Q); [exact Hy|congruence].
Qed.

Lemma keeps_resume g st :
  indexed (tickets st) → identities_ok (tickets st) → 0 ≤ resume_ttl st →
  dom (server_sessions st) ⊆ dom (g_session_endpoints g) →
  dom (pending_server st) ⊆ dom (g_session_endpoints g) →
  (∀ old new, inflight_server st !! old = Some new → new ∈ dom (g_session_endpoints g)) →
  revoked_inflight st ⊆ dom (inflight_server st) →
  (∀ old, quiet old g →
     (∀ n e, entries (tickets st) !! n = Some e → te_old_session e ≠ old) ∧
     (∀ n c, pending_server st !! n = Some c → claim_old_session c ≠ old) ∧
     inflight_server st !! old = None ∧ ∀ ep, resume_client_endpoints st !! ep ≠ Some old) →
  keeps g (g <| g_resume := st |>).
Proof.
  intros H1 Hi H2 H3 H4 H5 H6 Hq [[] ? ? ? ? ? ? ?].
  split_and!; [constructor; try assumption; constructor; assumption| |by apply trims_same].
  intros old Q. destruct (Hq old Q) as (Q1 & Q2 & Q3 & Q4). destruct Q. constructor; assumption.
Qed.

(** A registry that lost tickets, or gained one for a session that is not quiet. *)
Lemma keeps_tickets g t :
  indexed t → identities_ok t →
  (∀ old, quiet old g → ∀ n e, entries t !! n = Some e → te_old_session e ≠ old) →
  keeps g (g <| g_resume ::= λ st, st <| tickets := t |> |>).
Proof.
  intros Ht Hi Hq Hg. pose proof (gi_owned _ Hg) as []. pose proof (gi_ttl _ Hg).
  change (g <| g_resume ::= λ st, st <| tickets := t |> |>) with (g <| g_resume := g_resume g <| tickets := t |> |>).
  apply keeps_resume; try assumption. intros old Q. pose proof Q as []. eauto.
Qed.

Lemma keeps_heartbeat g h :
  dom (trackers h) ⊆ dom (g_session_endpoints g) →
  heartbeat_interval h = heartbeat_interval (g_heartbeat g) → heartbeat_timeout h = heartbeat_timeout (g_heartbeat g) →
  keeps g (g <| g_heartbeat := h |>).
Proof.
  intros Hd E1 E2 [[] ? ? ? ? ? ? Hh].
  split_and!; [constructor; try assumption; [constructor; assumption|]|intros old []; constructor; assumption|by apply trims_same].
  intros now. change (g_heartbeat (g <| g_heartbeat := h |>)) with h. rewrite E1, E2. apply Hh.
Qed.
Lemma keeps_clock g c : dom (cr_trackers c) ⊆ dom (g_session_endpoints g) → keeps g (g <| g_clock := c |>).
Proof. intros Hd. keeps_field. Qed.
Lemma keeps_udp g t : dom t ⊆ dom (g_session_endpoints g) → keeps g (g <| g_udp_sessions := t |>).
Proof. intros Hd. keeps_field. Qed.
Lemma keeps_dropped g n : keeps g (g <| g_plaintext_dropped := n |>).
Proof. keeps_field. Qed.
(** The session in negotiation becomes ready. *)
Lemma keeps_publish g s :
  is_Some (sessions (g_range g) !! s) → keeps g (g <| g_admission ::= λ a, publish a s |>).
Proof.
  intros Hs Hg. pose proof (ow_range _ (gi_owned _ Hg) s (proj2 (elem_of_dom _ _) Hs)) as Ho.
  destruct Hg as [[] ? ? ? ? ? ? ?].
  split_and!; [constructor; try assumption; constructor; try assumption| |by apply trims_same].
  - intros x [<-%elem_of_singleton|Hx]%elem_of_union; auto.
  - intros old []. constructor; try assumption. intros [->%elem_of_singleton|?]%elem_of_union; [|done].
    destruct Hs. congruence.
Qed.

Lemma close_and_forget_ok g s reason :
  runtime_inv g → ∃ g', close_and_forget g s reason = Done g' ∧ forgotten g g' s ∧ keeps g g'.
Proof.
  intros Hg. destruct (keeps_log (CallCloseSession s reason) g Hg) as [Hg1 _].
  destruct (forget_keeps _ s Hg1) as (g' & E & F & K). exists g'. split_and!; [done| |].
  - destruct F. constructor; assumption.
  - etrans; [apply keeps_log|done].
Qed.

(** A list of closes, whatever is closed. *)
Lemma close_pending_ok l : ∀ g, runtime_inv g →
  ∃ g', close_pending g l = Done g' ∧ keeps g g' ∧
    (∀ s, s ∈ l → s ∉ dom (g_session_endpoints g')) ∧
    g_session_endpoints g' ⊆ g_session_endpoints g ∧
    (∀ old new, inflight_server (g_resume g') !! old = Some new →
       inflight_server (g_resume g) !! old = Some new ∧ new ∉ l) ∧
    (∀ n c, pending_server (g_resume g') !! n = Some c → pending_server (g_resume g) !! n = Some c) ∧
    tickets (g_resume g') = tickets (g_resume g) ∧ sessions (g_range g') ⊆ sessions (g_range g) ∧
    resume_client_endpoints (g_resume g') = resume_client_endpoints (g_resume g).
Proof.
  induction l as [|s l IH]; intros g Hg; cbn [close_pending].
  { exists g. split_and!; try done; [by intros s ?%elem_of_nil|].
    intros old new H. split; [done|]. apply not_elem_of_nil. }
  set (g0 := g <| g_resume_metrics ::= _ |>).
  destruct (keeps_metrics (λ m, m <| pending_revoked ::= fetch_add 1 |>) g Hg) as [Hg0 _]. fold g0 in Hg0.
  destruct (close_and_forget_ok g0 s ErrorCode.Cancelled Hg0) as (g1 & -> & F & K). cbn [mbind outcome_bind].
  destruct (IH g1 (proj1 (K Hg0))) as (g2 & E & K2 & Hl & Hd & Hi & Hp & Ht & Hss & Hrc).
  assert (Er : g_resume g1 = forget_resume_session (g_resume g) s) by apply F.
  assert (Ed : g_session_endpoints g1 = delete s (g_session_endpoints g)) by apply F.
  exists g2. split_and!.
  - exact E.
  - etrans; [apply (keeps_metrics (λ m, m <| pending_revoked ::= fetch_add 1 |>))|]. by etrans.
  - intros s' [->|Hs']%elem_of_cons; [|by apply Hl]. intros Hin%(subseteq_dom _ _ Hd).
    rewrite Ed, dom_delete_L in Hin. set_solver.
  - etrans; [exact Hd|]. rewrite Ed. apply delete_subseteq.
  - intros old new [H1 H2]%Hi. rewrite Er in H1. apply forget_resume_inflight in H1 as [H1 H3].
    split; [done|]. by apply not_elem_of_cons.
  - intros n c H%Hp. rewrite Er in H. by apply forget_resume_pending in H as [_ H].
  - rewrite Ht, Er. done.
  - etrans; [exact Hss|]. rewrite (fg_sessions _ _ _ F). apply delete_subseteq.
  - rewrite Hrc, Er. done.
Qed.

(** The part of a revocation under the resume lock. *)
Lemma revoke_candidates_ok g s :
  runtime_inv g →
  let '(l, st) := revoke_candidates (g_resume g) s in
  keeps g (g <| g_resume := st |>) ∧
  (∀ n e, entries (tickets st) !! n = Some e → te_old_session e ≠ s ∧ entries (tickets (g_resume g)) !! n = Some e) ∧
  (∀ n c, pending_server st !! n = Some c → claim_old_session c ≠ s) ∧
  (∀ new, inflight_server st !! s = Some new → new ∈ l) ∧
  resume_client_endpoints st = resume_client_endpoints (g_resume g).
Proof.
  intros Hg. unfold revoke_candidates.
  set (pending := (filter _ (map_to_list (pending_server (g_resume g)))).*1).
  set (st := g_resume g <| tickets ::= _ |> <| pending_server ::= _ |> <| server_sessions ::= _ |>).
  destruct (revoke_session_spec _ s (gi_tickets _ Hg)) as (Ht & Hte & _).
  pose proof (gi_owned _ Hg) as [O1 O2 O3 O4 O5 O6 O7 O8 O9].
  assert (Hpend : ∀ n c, pending_server st !! n = Some c →
    pending_server (g_resume g) !! n = Some c ∧ claim_old_session c ≠ s).
  { intros n c H. change (foldl (λ m n, delete n m) (pending_server (g_resume g)) pending !! n = Some c) in H.
    rewrite foldl_delete_lookup in H. case_decide as Hn; [done|]. split; [done|]. intros E. apply Hn.
    apply (filtered_keys (λ nc, claim_old_session nc.2 = s)). eauto. }
  assert (Hmeta : dom (server_sessions st) ⊆ dom (g_session_endpoints g)).
  { intros n [c H]%elem_of_dom. apply O6, elem_of_dom.
    change (foldl (λ m n, delete n m) (server_sessions (g_resume g)) pending !! n = Some c) in H.
    rewrite foldl_delete_lookup in H. case_decide; [done|]. eauto. }
  assert (Htk : ∀ n e, entries (tickets st) !! n = Some e → te_old_session e ≠ s ∧
    entries (tickets (g_resume g)) !! n = Some e).
  { intros n e H. change (entries (Resume.revoke_session (tickets (g_resume g)) s) !! n = Some e) in H.
    rewrite Hte in H. by apply map_lookup_filter_Some in H as [? ?]. }
  assert (Kst : ∀ x, x ⊆ dom (inflight_server (g_resume g)) →
    keeps g (g <| g_resume := st <| revoked_inflight := x |> |>)).
  { intros x Hx. apply keeps_resume; try assumption; [|apply Hg| |].
    - intros n e [_ H]%Htk. by eapply (gi_identities _ Hg).
    - intros n [c H]%elem_of_dom. apply O7, elem_of_dom. apply Hpend in H as [H _]. eauto.
    - intros old [Q1 Q2 Q3 Q4 Q5 Q6 Q7]. split_and!; [|..|done|done]; [intros n e [_ H]%Htk|intros n c [H _]%Hpend]; eauto. }
  change (inflight_server st !! s) with (inflight_server (g_resume g) !! s).
  destruct (inflight_server (g_resume g) !! s) as [new|] eqn:Ei; split_and!; try done;
    try (intros ? ? H; by apply Hpend in H as [_ ?]).
  - apply (Kst ({[s]} ∪ revoked_inflight (g_resume g))). intros x [->%elem_of_singleton|Hx]%elem_of_union; [|by auto].
    apply elem_of_dom. eauto.
  - intros new' E. change (inflight_server (g_resume g) !! s = Some new') in E. rewrite Ei in E.
    injection E as ->. set_solver.
  - by apply (Kst (revoked_inflight (g_resume g))).
  - intros new' E. change (inflight_server (g_resume g) !! s = Some new') in E. congruence.
Qed.

(** Revocation: afterwards nothing pending or in flight can replace the session. *)
Lemma revoke_resume_ok g s :
  runtime_inv g →
  ∃ g', revoke_resume_session g s = Done g' ∧ keeps g g' ∧
    g_session_endpoints g' ⊆ g_session_endpoints g ∧
    entries (tickets (g_resume g')) ⊆ entries (tickets (g_resume g)) ∧
    (∀ n e, entries (tickets (g_resume g')) !! n = Some e → te_old_session e ≠ s) ∧
    (∀ n c, pending_server (g_resume g') !! n = Some c → claim_old_session c ≠ s) ∧
    inflight_server (g_resume g') !! s = None ∧ sessions (g_range g') ⊆ sessions (g_range g) ∧
    resume_client_endpoints (g_resume g') = resume_client_endpoints (g_resume g).
Proof.
  intros Hg. unfold revoke_resume_session. pose proof (revoke_candidates_ok g s Hg) as H.
  destruct (revoke_candidates (g_resume g) s) as [l st]. destruct H as (K & Htk & Hpend & Hin & Hrc).
  destruct (close_pending_ok l _ (proj1 (K Hg))) as (g' & -> & K' & _ & Hd & Hi & Hp & Htt & Hss & Hrc').
  exists g'. split_and!; [done|by etrans|exact Hd|..|exact Hss|by rewrite Hrc'].
  - rewrite Htt. apply map_subseteq_spec. intros n e H. by apply Htk.
  - rewrite Htt. intros n e H. exact (proj1 (Htk n e H)).
  - intros n c H%Hp. by apply Hpend in H.
  - apply eq_None_not_Some. intros [new [H1 H2]%Hi]. by apply H2, Hin.
Qed.

(** ** The handlers *)

(** The result announces the replacement of [old]. *)
Definition resumes (old : Handle) (res : Result (option GameEvent)) : Prop :=
  match res with Ok (Some (SessionResumed _ o _)) => o = old | _ => False end.

(** A handler returns, keeps the invariant, and neither revives nor resumes a quiet session. *)
Definition handled (g : GameRuntime) (r : outcome (Result (option GameEvent) * GameRuntime)) : Prop :=
  ∃ res g', r = Done (res, g') ∧ keeps g g' ∧ ∀ old, quiet old g → ¬ resumes old res.

Lemma handled_intro g res g' :
  keeps g g' → (∀ old, ¬ resumes old res) → handled g (Done (res, g')).
Proof. intros K H. exists res, g'. auto. Qed.

Lemma keeps_handled g g1 r : runtime_inv g → keeps g g1 → handled g1 r → handled g r.
Proof.
  intros Hg K (res & g' & E & K' & H). exists res, g'. split_and!; [done|by etrans|].
  intros old Q. apply H. by apply K.
Qed.

(** The in-flight replacement of [old] is dropped and [x] is what remains revoked. *)
Lemma keeps_landed g st old :
  tickets st = tickets (g_resume g) → server_sessions st = server_sessions (g_resume g) →
  pending_server st = pending_server (g_resume g) → resume_ttl st = resume_ttl (g_resume g) →
  resume_client_endpoints st = resume_client_endpoints (g_resume g) →
  inflight_server st = delete old (inflight_server (g_resume g)) →
  revoked_inflight st ⊆ revoked_inflight (g_resume g) ∖ {[old]} →
  keeps g (g <| g_resume := st |>).
Proof.
  intros E1 E2 E3 E4 E5 E6 Hx Hg. destruct (gi_owned _ Hg) as [O1 O2 O3 O4 O5 O6 O7 O8 O9]. revert Hg.
  refine (λ Hg, keeps_resume g st _ _ _ _ _ _ _ _ Hg); rewrite ?E1, ?E2, ?E3, ?E4, ?E6; try assumption; try apply Hg.
  - intros o n [_ H]%lookup_delete_Some. eauto.
  - intros o [Ho Hne]%Hx%elem_of_difference. apply O9 in Ho. apply elem_of_dom in Ho as [n Hn].
    apply elem_of_dom. exists n. apply lookup_delete_Some. set_solver.
  - intros o [Q1 Q2 Q3 Q4 Q5 Q6 Q7]. rewrite ?E5. split_and!; try assumption.
    apply lookup_delete_None. by right.
Qed.

(** A session's negotiation fields change, its early data does not. *)
Lemma range_update r s x x' :
  range_inv r → sessions r !! s = Some x → rs_buffered x' = rs_buffered x →
  rs_buffered_bytes x' = rs_buffered_bytes x →
  (Phase.is_ready (rs_phase x') = true → Phase.is_ready (rs_phase x) = true) →
  range_inv (r <| sessions ::= <[s := x']> |>).
Proof.
  intros [H1 H2 H3 H4 H5 H6 H7 H8] Hx E1 E2 Hp.
  constructor; cbn; try done; rewrite ?(sum_map_update _ _ _ _ _ Hx), ?E1, ?E2; try lia.
  apply map_Forall_insert_2; [|done]. destruct (H5 s x Hx) as [W1 W2 W3 W4 W5].
  constructor; rewrite ?E1, ?E2; auto.
Qed.

Lemma keeps_session g s x x' :
  range_inv (g_range g) → sessions (g_range g) !! s = Some x → rs_buffered x' = rs_buffered x →
  rs_buffered_bytes x' = rs_buffered_bytes x →
  (Phase.is_ready (rs_phase x') = true → Phase.is_ready (rs_phase x) = true) →
  rs_old_session x' = rs_old_session x → rs_server_resume x' = rs_server_resume x →
  Phase.is_server (rs_phase x') = Phase.is_server (rs_phase x) →
  keeps g (g <| g_range ::= λ r, r <| sessions ::= <[s := x']> |> |>).
Proof.
  intros Hr Hx E1 E2 Hp E3 E4 E5. apply (keeps_range_same g (g_range g <| sessions ::= <[s := x']> |>)).
  - by eapply range_update.
  - by split_and!.
  - intros s' y Hy. cbn in Hy. apply lookup_insert_Some in Hy as [[<- <-]|[_ Hy]]; eauto.
Qed.

Lemma make_ready_session r s x p :
  sessions r !! s = Some x →
  sessions (make_ready r s p) =
    <[s := x <| rs_phase := p |> <| rs_buffered_bytes := 0 |> <| rs_buffered := [] |>]> (sessions r).
Proof.
  intros Hx. unfold make_ready, complete_buffered. cbn. rewrite (alter_as_insert _ _ _ _ Hx), lookup_insert_eq.
  cbn. apply insert_insert_eq.
Qed.

Lemma make_ready_insert r s x p :
  sessions r !! s = Some x →
  complete_buffered (r <| sessions ::= <[s := x <| rs_phase := p |>]> |>) s = make_ready r s p.
Proof.
  intros Hx. unfold make_ready. f_equal. unfold update. cbn. by rewrite (alter_as_insert _ _ _ _ Hx).
Qed.

Lemma keeps_make_ready g s x p :
  range_inv (g_range g) → sessions (g_range g) !! s = Some x →
  Phase.is_server p = Phase.is_server (rs_phase x) →
  keeps g (g <| g_range ::= λ r, make_ready r s p |>).
Proof.
  intros Hr Hx Hp. destruct (make_ready_ok _ s x p Hr Hx) as (Hr' & _ & E1 & E2 & E3 & E4 & _).
  apply (keeps_range_same g (make_ready (g_range g) s p)); [done|split_and!; [lia|lia|done|done]|].
  intros s' y. rewrite (make_ready_session _ _ _ _ Hx).
  intros [[<- <-]|[Hne Hy]]%lookup_insert_Some; eauto 6.
Qed.

(** What an accepted control may change. *)
Lemma negotiate_spec st ep now c re st' :
  negotiate st ep now c = Ok (re, st') →
  rs_buffered st' = rs_buffered st ∧ rs_buffered_bytes st' = rs_buffered_bytes st ∧
  rs_old_session st' = rs_old_session st ∧ rs_server_resume st' = rs_server_resume st ∧
  match re with
  | SendAck _ => Phase.is_ready (rs_phase st') = false ∧ Phase.is_server (rs_phase st') = Phase.is_server (rs_phase st)
  | SendReady was_ready _ => st' = st ∧ was_ready = Phase.is_ready (rs_phase st) ∧ Phase.is_server (rs_phase st) = true
  | Publish => st' = st <| rs_phase := Phase.ClientReady |> ∧ rs_phase st = Phase.ClientAwaitReady
  | Duplicate => st' = st
  end.
Proof.
  unfold negotiate. case_decide; [done|]. case_decide; [done|].
  destruct (rs_phase st) eqn:Ep; repeat case_match; try done; intros H'; simplify_eq; cbn; split_and!; try done.
  all: naive_solver.
Qed.

Section handlers.
Context (hmac : list byte → list byte) (instant_limit : Instant) (net : Network) (now : Instant).

(** The replaced route is closed and the event returned. *)
Lemma published_ok g g1 ep s old_session :
  runtime_inv g → keeps g g1 → (∀ old, quiet old g → old_session ≠ Some old) →
  handled g
    match old_session with
    | Some old =>
      g ← close_and_forget g1 old ErrorCode.Cancelled;
      Done (Ok (Some (SessionResumed ep old s)), g)
    | None => Done (Ok (Some (SessionReady ep s)), g1)
    end.
Proof.
  intros Hg K Hq. destruct old_session as [o|].
  - destruct (close_and_forget_ok g1 o ErrorCode.Cancelled (proj1 (K Hg))) as (g' & -> & _ & K').
    cbn [mbind outcome_bind]. eexists _, _. split_and!; [reflexivity|by etrans|].
    intros old Q ->. by apply (Hq _ Q).
  - apply handled_intro; [done|by intros ? []].
Qed.

Lemma publish_range_ready_ok g ep s old_session server_resume :
  runtime_inv g → is_Some (sessions (g_range g) !! s) →
  (∀ old, quiet old g → old_session = Some old → server_resume = true) →
  handled g (publish_range_ready net g ep s old_session server_resume).
Proof.
  intros Hg Hs Hq. unfold publish_range_ready. destruct (net_live net s); cbn [negb].
  2: { destruct (forget_keeps g s Hg) as (g' & -> & _ & K). cbn [mbind outcome_bind].
       apply handled_intro; [done|by intros ? []]. }
  pose proof (keeps_publish g s Hs) as Kp. destruct server_resume.
  2: { apply published_ok; [done|exact Kp|]. intros old Q ->. by specialize (Hq old Q eq_refl). }
  destruct old_session as [o|]; [|apply handled_intro; [done|by intros ? []]].
  destruct (decide (o ∈ revoked_inflight (g_resume g) ∨ _)) as [Hd|Hd].
  - set (g1 := g <| g_resume ::= _ |>).
    assert (Kl : keeps g g1) by (apply (keeps_landed g _ o); reflexivity).
    destruct (close_and_forget_ok g1 s ErrorCode.Cancelled (proj1 (Kl Hg))) as (g' & E & _ & K).
    rewrite E. cbn [mbind outcome_bind]. apply handled_intro; [by etrans|by intros ? []].
  - apply Decidable.not_or in Hd as [Hd Hi]. apply (published_ok _ _ _ _ (Some o)); [done| |].
    + etrans; [exact Kp|]. etrans; [|apply (keeps_metrics (λ m, m <| sessions_resumed ::= fetch_add 1 |>))].
      set (g1 := g <| g_admission ::= _ |>).
      apply (keeps_landed g1 (g_resume g1 <| inflight_server ::= delete o |>) o); try reflexivity.
      intros x Hx. apply elem_of_difference. split; [exact Hx|]. intros ->%elem_of_singleton. by apply Hd.
    + intros old Q [= ->]. apply Hi. rewrite (qt_inflight _ _ Q). done.
Qed.

Lemma send_range_control_keeps g s payload : keeps g (send_range_control net g s payload).2.
Proof.
  unfold send_range_control. destruct (Envelope.encode_control _ _ _); [apply keeps_log|done].
Qed.
Lemma send_range_control_range g s payload : g_range (send_range_control net g s payload).2 = g_range g.
Proof. unfold send_range_control. by destruct (Envelope.encode_control _ _ _). Qed.

(** A send whose failure other than backpressure is the result. *)
Lemma sent_or_blocked g g1 (e : RnetError) :
  keeps g g1 → handled g (if would_block e then Done (Ok None, g1) else Done (Err e, g1)).
Proof. intros K. destruct (would_block e); (apply handled_intro; [done|by intros ? []]). Qed.

(** Readiness, then publication. *)
Lemma ready_published g ep s x p server_resume :
  runtime_inv g → sessions (g_range g) !! s = Some x → Phase.is_server p = Phase.is_server (rs_phase x) →
  server_resume = (if Phase.is_server p then rs_server_resume x else false) →
  handled g (publish_range_ready net (g <| g_range ::= λ r, make_ready r s p |>) ep s (rs_old_session x) server_resume).
Proof.
  intros Hg Hx Hp Hr. set (g1 := g <| g_range ::= _ |>).
  assert (K : keeps g g1) by (eapply keeps_make_ready; [apply Hg|done|done]).
  assert (Hs : sessions (g_range g1) = <[s := x <| rs_phase := p |> <| rs_buffered_bytes := 0 |> <| rs_buffered := [] |>]>
    (sessions (g_range g))) by (by apply make_ready_session).
  eapply keeps_handled; [done|exact K|]. apply publish_range_ready_ok; [by apply K|rewrite Hs, lookup_insert_eq; eauto|].
  intros old Q E. destruct (qt_taken _ _ Q s _ ltac:(rewrite Hs; apply lookup_insert_eq) E) as [Q1 Q2].
  cbn in Q1, Q2. by rewrite Hr, Q2.
Qed.

Lemma handle_range_control_ok g event payload :
  runtime_inv g → handled g (handle_range_control net now g event payload).
Proof.
  intros Hg. unfold handle_range_control. set (s := ev_session event).
  destruct (parse_control payload) as [c|]; [|apply handled_intro; [done|by intros ? []]].
  destruct (sessions (g_range g) !! s) as [st|] eqn:Hst; [|apply handled_intro; [done|by intros ? []]].
  destruct (negotiate st (ev_endpoint event) now c) as [[re st']|] eqn:En;
    [|apply handled_intro; [done|by intros ? []]].
  destruct (negotiate_spec _ _ _ _ _ _ En) as (B1 & B2 & B3 & B4 & Hre).
  set (g1 := g <| g_range ::= _ |>).
  assert (Hst1 : sessions (g_range g1) !! s = Some st') by apply lookup_insert_eq.
  assert (K1 : re ≠ Publish → keeps g g1).
  { intros Hne.
    assert (Hph : (Phase.is_ready (rs_phase st') = true → Phase.is_ready (rs_phase st) = true) ∧
      Phase.is_server (rs_phase st') = Phase.is_server (rs_phase st)).
    { destruct re; [by destruct Hre as [-> ->]|by destruct Hre as [-> _]|done|by rewrite Hre]. }
    by eapply keeps_session; [apply Hg|exact Hst|..]; try apply Hph. }
  destruct re as [ack|was_ready rdy| |].
  - specialize (K1 ltac:(done)). pose proof (send_range_control_keeps g1 s ack) as K2.
    destruct (send_range_control net g1 s ack) as [[|e] g2];
      [apply handled_intro; [by etrans|by intros ? []]|apply sent_or_blocked; by etrans].
  - specialize (K1 ltac:(done)). pose proof (send_range_control_keeps g1 s rdy) as K2.
    pose proof (send_range_control_range g1 s rdy) as Er.
    destruct (send_range_control net g1 s rdy) as [[|e] g2]; [|apply sent_or_blocked; by etrans].
    destruct was_ready; [apply handled_intro; [by etrans|by intros ? []]|]. cbn in Er, K2.
    eapply (keeps_handled g g2); [done|by etrans|]. apply (ready_published g2 _ s st' Phase.ServerReady); [by apply K2, K1|by rewrite Er| |done].
    by destruct Hre as (-> & _ & ->).
  - destruct Hre as [-> Hp]. clear K1.
    change (g1 <| g_range ::= _ |>) with
      (g <| g_range := complete_buffered (g_range g <| sessions ::= <[s := st <| rs_phase := Phase.ClientReady |>]> |>) s |>).
    rewrite (make_ready_insert _ _ _ _ Hst).
    apply (ready_published g _ s st Phase.ClientReady); [done|exact Hst|by rewrite Hp|done].
  - apply handled_intro; [by apply K1|by intros ? []].
Qed.

(** *** Heartbeats, clocks and data only touch sessions that are tracked *)

Lemma set_existing_dom {A} (m : gmap Z A) s x y : m !! s = Some x → dom (<[s := y]> m) ⊆ dom m.
Proof. intros Hx. rewrite dom_insert_L. apply elem_of_dom_2 in Hx. set_solver. Qed.

Lemma heartbeat_event_dom send r s d q n udp kcp :
  let r' := (Heartbeat.handle_heartbeat_event send r s d q n udp kcp).2 in
  dom (trackers r') ⊆ dom (trackers r) ∧ heartbeat_interval r' = heartbeat_interval r ∧
  heartbeat_timeout r' = heartbeat_timeout r.
Proof.
  unfold Heartbeat.handle_heartbeat_event, handle_probe, handle_ack, set_tracker.
  destruct (Envelope.decode d _) as [[?|[] payload]|]; cbn -[dom]; try done.
  destruct (HeartbeatWire.decode_heartbeat payload) as [[[] ch]|]; cbn -[dom]; try done.
  - destruct (trackers r !! s) as [t|] eqn:Ht; [|done].
    destruct (admit_probe t q) as [[] t']; cbn -[dom]; [|done].
    destruct (HeartbeatWire.encode_heartbeat _ _); cbn -[dom]; [destruct (send s _); cbn -[dom]|];
      split_and!; try done; by eapply set_existing_dom.
  - destruct (trackers r !! s) as [t|] eqn:Ht; [|done].
    destruct (accept_ack t ch q n) as [[x|] t']; cbn -[dom network_quality]; [|done].
    destruct (network_quality _ s udp kcp) as [[q'|]|]; cbn -[dom]; [|split_and!; try done; by eapply set_existing_dom..].
    destruct (quality_changed t' _) as [b t'']. cbn -[dom]. split_and!; try done.
    rewrite insert_insert_eq. by eapply set_existing_dom.
Qed.

Lemma clock_event_dom send rdy r s payload q n :
  dom (cr_trackers (ClockSync.handle_clock_sync_event send rdy r s payload q n).2) ⊆ dom (cr_trackers r).
Proof.
  unfold ClockSync.handle_clock_sync_event. repeat case_match; cbn -[dom]; try done; by eapply set_existing_dom.
Qed.

Lemma keeps_log_sent s l : ∀ g, keeps g (log_sent s l g).
Proof.
  induction l as [|e l IH]; intros g; [done|]. cbn. etrans; [apply keeps_log|]. apply IH.
Qed.

Lemma handle_heartbeat_control_ok g event :
  runtime_inv g → handled g (handle_heartbeat_control net now g event).
Proof.
  intros Hg. unfold handle_heartbeat_control. cbv zeta.
  set (udp := udp_loss_snapshot _ _ _). set (s := ev_session event).
  pose proof (heartbeat_event_dom (sent_ok net) (g_heartbeat g) s (data event) (queued_at event) now udp (net_kcp net s))
    as (Hd & E1 & E2).
  destruct (Heartbeat.handle_heartbeat_event _ _ _ _ _ _ _ _) as [res h]. cbn [snd] in Hd, E1, E2.
  assert (K : keeps g (g <| g_heartbeat := h |>)).
  { apply keeps_heartbeat; [|done|done]. etrans; [exact Hd|apply Hg]. }
  destruct res as [[q sent]|e]; [|by apply handled_intro; [|intros ? []]].
  apply handled_intro; [etrans; [exact K|apply keeps_log_sent]|]. by destruct q; intros ? [].
Qed.

Lemma handle_clock_control_ok g event payload :
  runtime_inv g → handled g (handle_clock_control net now g event payload).
Proof.
  intros Hg. unfold handle_clock_control.
  pose proof (clock_event_dom (sent_ok net) (λ s, is_ok (game_ready net g s)) (g_clock g) (ev_session event)
    payload (queued_at event) now) as Hd.
  destruct (ClockSync.handle_clock_sync_event _ _ _ _ _ _ _) as [res c]. cbn [snd] in Hd.
  assert (K : keeps g (g <| g_clock := c |>)) by (apply keeps_clock; etrans; [exact Hd|apply Hg]).
  destruct res as [sent|e]; [|by apply handled_intro; [|intros ? []]].
  apply handled_intro; [etrans; [exact K|apply keeps_log_sent]|]. by intros ? [].
Qed.

Lemma handle_game_control_event_ok g event :
  runtime_inv g → handled g (handle_game_control_event net now g event).
Proof.
  intros Hg. unfold handle_game_control_event.
  destruct (Envelope.decode (data event) _) as [[?|[] payload]|].
  - apply handled_intro; [done|by intros ? []].
  - by apply handle_heartbeat_control_ok.
  - by apply handle_clock_control_ok.
  - case_decide; [apply handled_intro; [done|by intros ? []]|].
    destruct (game_ready net g _); (apply handled_intro; [done|by intros ? []]).
  - by apply handle_range_control_ok.
  - apply handled_intro; [done|by intros ? []].
Qed.

Lemma business_dom max t dropped event :
  dom (convert_business_event max t dropped event).1.2 ⊆ dom t.
Proof.
  unfold convert_business_event, decode_business_message, observe_datagram_sequence.
  repeat case_match; simplify_eq; cbn -[dom]; try done; by eapply set_existing_dom.
Qed.

Lemma convert_business_ok g event : runtime_inv g → handled g (convert_business g event).
Proof.
  intros Hg. unfold convert_business.
  pose proof (business_dom (g_maximum_envelope_len g) (g_udp_sessions g) (g_plaintext_dropped g) event) as Hd.
  destruct (convert_business_event _ _ _ _) as [[res t] dropped]. cbn [fst snd] in Hd.
  set (g1 := g <| g_udp_sessions := t |> <| g_plaintext_dropped := dropped |>).
  assert (K : keeps g g1).
  { etrans; [apply (keeps_udp g t)|apply keeps_dropped]. etrans; [exact Hd|apply Hg]. }
  destruct res as [[m|]|e]; [|apply handled_intro; [done|by intros ? []]..].
  change (g_range g1) with (g_range g).
  destruct (buffer_message_ok (g_range g) m (gi_range _ Hg)) as (res & r & -> & Hr & _ & P1 & P2 & P3 & P4 & H).
  cbn [mbind outcome_bind]. apply handled_intro.
  - etrans; [exact K|]. apply (keeps_range_same g1 r Hr); change (g_range g1) with (g_range g); [split_and!; [lia|lia|done|done]|].
    change (g_range g1) with (g_range g).
    intros s x Hx. destruct res as [[e|]|].
    + destruct H as (_ & -> & _). eauto.
    + destruct H as (y & y' & Hy & _ & E & Ep & _ & E1 & E2). rewrite E in Hx.
      apply lookup_insert_Some in Hx as [[<- <-]|[_ Hx]]; [|by eauto]. exists y. by rewrite E1, E2, Ep.
    + rewrite H in Hx. eauto.
  - destruct res as [[e|]|]; [|by intros ? []..]. destruct H as [-> _]. by intros ? [].
Qed.

(** *** Endpoints *)

Lemma retire_session_ok g s :
  runtime_inv g →
  ∃ g', retire_session g s = Done g' ∧ keeps g g' ∧ g_session_endpoints g' !! s = None ∧
    g_session_endpoints g' ⊆ g_session_endpoints g ∧
    entries (tickets (g_resume g')) ⊆ entries (tickets (g_resume g)).
Proof.
  intros Hg. unfold retire_session.
  destruct (revoke_resume_ok g s Hg) as (g1 & -> & K1 & Hd1 & Ht & _). cbn [mbind outcome_bind].
  destruct (forget_keeps g1 s (proj1 (K1 Hg))) as (g2 & -> & F & K2). exists g2.
  rewrite (fg_endpoints _ _ _ F), (fg_resume _ _ _ F). split_and!; [done|by etrans|apply lookup_delete_eq| |exact Ht].
  etrans; [apply delete_subseteq|done].
Qed.

Lemma retire_all_ok l : ∀ g, runtime_inv g →
  ∃ g', retire_all g l = Done g' ∧ keeps g g' ∧ (∀ s, s ∈ l → g_session_endpoints g' !! s = None) ∧
    g_session_endpoints g' ⊆ g_session_endpoints g ∧
    entries (tickets (g_resume g')) ⊆ entries (tickets (g_resume g)).
Proof.
  induction l as [|s l IH]; intros g Hg; cbn [retire_all].
  { exists g. split_and!; try done. by intros s ?%elem_of_nil. }
  destruct (retire_session_ok g s Hg) as (g1 & -> & K1 & Hs & Hd1 & Ht1). cbn [mbind outcome_bind].
  destruct (IH g1 (proj1 (K1 Hg))) as (g2 & -> & K2 & Hl & Hd2 & Ht2). exists g2.
  split_and!; [done|by etrans| |by etrans|by etrans]. intros s' [->|Hs']%elem_of_cons; [|by apply Hl].
  by eapply lookup_weaken_None.
Qed.

Lemma keeps_transports g f : keeps g (g <| g_endpoint_transports ::= f |>).
Proof. keeps_field. Qed.

Lemma keeps_client_gone g ep :
  keeps g (g <| g_resume ::= λ st, st <| resume_client_endpoints ::= delete ep |> |>).
Proof.
  intros Hg. destruct (gi_owned _ Hg) as [O1 O2 O3 O4 O5 O6 O7 O8 O9]. pose proof (gi_tickets _ Hg) as Ht.
  pose proof (gi_ttl _ Hg) as Httl. pose proof (gi_identities _ Hg) as Hid. revert Hg.
  change (g <| g_resume ::= λ st, st <| resume_client_endpoints ::= delete ep |> |>) with
    (g <| g_resume := g_resume g <| resume_client_endpoints ::= delete ep |> |>).
  apply keeps_resume; try assumption.
  intros old [Q1 Q2 Q3 Q4 Q5 Q6 Q7]. split_and!; try assumption. intros ep'.
  change (delete ep (resume_client_endpoints (g_resume g)) !! ep' ≠ Some old).
  intros [_ H]%lookup_delete_Some. by eapply Q6.
Qed.

Lemma keeps_range_endpoints g r :
  sessions r = sessions (g_range g) → range_inv r → shrinks (g_range g) r → keeps g (g <| g_range := r |>).
Proof. intros E Hr Hsh. apply keeps_range_same; [done..|]. rewrite E. eauto 6. Qed.

(** Closing an endpoint retires every session it owns and revokes its tickets. *)
Lemma forget_endpoint_state_ok g ep :
  runtime_inv g →
  ∃ g', forget_endpoint_state g ep = Done g' ∧ keeps g g' ∧
    (∀ s, g_session_endpoints g' !! s ≠ Some ep) ∧ g_session_endpoints g' ⊆ g_session_endpoints g ∧
    g_endpoint_transports g' !! ep = None ∧ server_endpoints (g_range g') !! ep = None ∧
    client_endpoints (g_range g') !! ep = None ∧ resume_client_endpoints (g_resume g') !! ep = None ∧
    (∀ n e, entries (tickets (g_resume g')) !! n = Some e → te_endpoint e ≠ ep).
Proof.
  intros Hg. unfold forget_endpoint_state. set (g0 := g <| g_resume ::= _ |>).
  assert (K0 : keeps g g0).
  { destruct (revoke_endpoint_spec _ ep (gi_tickets _ Hg)) as (Ht & He & _).
    assert (Hs : entries (Resume.revoke_endpoint (tickets (g_resume g)) ep) ⊆ entries (tickets (g_resume g)))
      by (rewrite He; apply map_filter_subseteq).
    apply (keeps_tickets g (Resume.revoke_endpoint (tickets (g_resume g)) ep)); [done|by eapply identities_sub, Hg|].
    intros old Q n e H. eapply Q, lookup_weaken; eauto. }
  set (l := (filter _ _).*1). change (g_session_endpoints g0) with (g_session_endpoints g) in l.
  destruct (retire_all_ok l g0 (proj1 (K0 Hg))) as (g1 & -> & K1 & Hl & Hsub & Htk). cbn [mbind outcome_bind].
  change (g_session_endpoints g0) with (g_session_endpoints g) in Hsub.
  set (g2 := g1 <| g_resume ::= _ |>).
  assert (K2 : keeps g1 g2) by apply keeps_client_gone.
  assert (Hg2 : runtime_inv g2) by (by apply K2, K1, K0).
  eexists. split_and!; [reflexivity|..].
  - etrans; [exact K0|]. etrans; [exact K1|]. etrans; [exact K2|]. etrans; [apply (keeps_transports g2 (delete ep))|].
    apply (keeps_range_endpoints _ (RangeState.forget_endpoint (g_range g2) ep)); [done| |by split_and!].
    destruct (gi_range _ Hg2). by constructor.
  - intros s Hs. change (g_session_endpoints g1 !! s = Some ep) in Hs.
    assert (Hin : s ∈ l).
    { apply (filtered_keys (λ so, so.2 = ep)). exists ep. split; [by eapply lookup_weaken|done]. }
    rewrite (Hl s Hin) in Hs. done.
  - exact Hsub.
  - apply lookup_delete_eq.
  - apply lookup_delete_eq.
  - apply lookup_delete_eq.
  - apply lookup_delete_eq.
  - intros n e H. destruct (revoke_endpoint_spec _ ep (gi_tickets _ Hg)) as (_ & He & _).
    change (entries (tickets (g_resume g1)) !! n = Some e) in H. eapply lookup_weaken in H; [|exact Htk].
    change (entries (Resume.revoke_endpoint (tickets (g_resume g)) ep) !! n = Some e) in H. rewrite He in H.
    by apply map_lookup_filter_Some in H as [_ ?].
Qed.

Lemma forget_endpoints_ok l : ∀ g, runtime_inv g →
  ∃ g', forget_endpoints g l = Done g' ∧ keeps g g'.
Proof.
  induction l as [|ep l IH]; intros g Hg; cbn [forget_endpoints]; [by exists g|].
  destruct (forget_endpoint_state_ok g ep Hg) as (g1 & -> & K1 & _). cbn [mbind outcome_bind].
  destruct (IH g1 (proj1 (K1 Hg))) as (g2 & -> & K2). exists g2. split; [done|by etrans].
Qed.

Lemma reap_ok g : runtime_inv g → ∃ g', reap_closed_endpoints net g = Done g' ∧ keeps g g'.
Proof.
  intros Hg. unfold reap_closed_endpoints. case_decide; [by exists g|]. by apply forget_endpoints_ok.
Qed.

(** *** Joins *)

(** The registry's answers in terms of the abstract tickets. *)
Lemma pinned_version_ok t ticket ep pk pid :
  indexed t →
  ∃ res t', pinned_version hmac t ticket ep pk pid now = Some (res, t') ∧ indexed t' ∧
    entries t' = unexpired now (entries t).
Proof.
  intros Ht. pose proof (act_refines hmac instant_limit t (ReadVersion ticket ep pk pid now) Ht I) as H.
  cbn [tickets_act registry_act] in H. destruct H as (r' & E & Hr & He & _).
  destruct (pinned_version hmac t ticket ep pk pid now) as [[res t']|]; [|done].
  cbn in E. injection E as _ ->. eauto 6.
Qed.

Lemma consume_ok t ticket ep pk pr :
  indexed t →
  ∃ res t', consume hmac t ticket ep pk pr now = Some (Done (res, t')) ∧ indexed t' ∧ entries t' ⊆ entries t ∧
    ∀ c, res = Ok c → ∃ n e, entries t !! n = Some e ∧ te_old_session e = claim_old_session c ∧
      te_identity e = claim_identity c.
Proof.
  intros Ht. pose proof (act_refines hmac instant_limit t (ConsumeTicket ticket ep pk pr now) Ht I) as H.
  cbn [tickets_act registry_act] in H.
  destruct (consume hmac t ticket ep pk pr now) as [[[res t']|]|]; cbn [mbind option_bind] in H.
  - exists res, t'.
    assert (Hu : unexpired now (entries t) ⊆ entries t) by apply map_filter_subseteq.
    destruct (ticket_entry hmac (unexpired now (entries t)) ticket) as [e|] eqn:Ee; [case_decide|];
      destruct H as (r' & E & Hr & He & _); injection E as -> ->; rewrite He; split_and!; try done.
    + etrans; [apply delete_subseteq|done].
    + intros c [= <-]. unfold ticket_entry in Ee. case_decide; [|done].
      exists (nonce_of ticket), e. split; [|done]. by eapply lookup_weaken.
  - exfalso. repeat case_match; by destruct H as (? & ? & _).
  - exfalso. repeat case_match; by destruct H as (? & ? & _).
Qed.

Lemma claim_version_ok t event pk join protocol ticket :
  indexed t →
  ∃ res t', claim_version hmac now t event pk join protocol ticket = Done (res, t') ∧ indexed t' ∧
    entries t' ⊆ entries t ∧
    ∀ v c, res = Ok (v, c) → ∃ n e, entries t !! n = Some e ∧ te_old_session e = claim_old_session c ∧
      te_identity e = claim_identity c.
Proof.
  intros Ht. unfold claim_version.
  destruct (pinned_version_ok t ticket (ev_endpoint event) pk (protocol_id join) Ht) as (pin & t1 & -> & Ht1 & He1).
  assert (Hsub : entries t1 ⊆ entries t) by (rewrite He1; apply map_filter_subseteq).
  cbn [expect mbind outcome_bind]. destruct pin as [v|]; [|by eexists _, _].
  case_decide; [by eexists _, _|].
  destruct (consume_ok t1 ticket (ev_endpoint event) pk (mkSelectedProtocol (protocol_id join) v) Ht1)
    as (res & t2 & -> & Ht2 & Hsub2 & Hc). cbn [expect mbind outcome_bind].
  eexists _, t2. split_and!; [reflexivity|done|by etrans|]. intros v' c E.
  destruct res as [c'|]; [|done]. injection E as <- <-. destruct (Hc c' eq_refl) as (n & e & He & E').
  exists n, e. split; [by eapply lookup_weaken|exact E'].
Qed.

(** [g'] may make [s] a session of the game, and no other. *)
Definition keeps_but (s : Handle) (g g' : GameRuntime) : Prop :=
  runtime_inv g → runtime_inv g' ∧ (∀ old, old ≠ s → quiet old g → quiet old g') ∧ trims {[s]} g g'.
#[export] Instance keeps_but_preorder s : PreOrder (keeps_but s).
Proof.
  split; [by intros g|]. intros g1 g2 g3 H1 H2 Hg. destruct (H1 Hg) as (Hg2 & Q1 & T1).
  destruct (H2 Hg2) as (Hg3 & Q2 & T2). split_and!; [done|auto|by etrans].
Qed.
Lemma keeps_weaken s g g' : keeps g g' → keeps_but s g g'.
Proof. intros K Hg. destruct (K Hg) as (Hg' & Q & T). auto using trims_weaken. Qed.

Definition registered (g : GameRuntime) (s : Handle) (ep : Handle) : GameRuntime :=
  g <| g_session_endpoints ::= <[s := ep]> |>.
Lemma keeps_endpoints g s ep : keeps_but s g (registered g s ep).
Proof.
  intros [[] ? ? ? ? ? ? ?]. assert (Hd : dom (g_session_endpoints (registered g s ep)) = {[s]} ∪ dom (g_session_endpoints g))
    by apply dom_insert_L.
  split_and!; [constructor; try assumption|intros old _ []; constructor; assumption|constructor; try done; by rewrite Hd].
  constructor; rewrite ?Hd; try (etrans; [eassumption|set_solver]); try assumption.
  intros old new H. apply elem_of_union_r. eauto.
Qed.

(** A negotiation can only revive its own session and the one it replaces. *)
Lemma session_ok s g x :
  is_Some (g_session_endpoints g !! s) → range_inv (g_range g <| sessions ::= <[s := x]> |>) → runtime_inv g →
  let g' := g <| g_range ::= λ r, r <| sessions ::= <[s := x]> |> |> in
  runtime_inv g' ∧ (∀ old, old ≠ s → quiet old g → rs_old_session x ≠ Some old → quiet old g') ∧ trims ∅ g g'.
Proof.
  intros Hs Hr [[] ? ? ? ? ? ? ?].
  split_and!; [constructor; try assumption; constructor; try assumption| |by constructor; try done; set_solver].
  - change (dom (<[s := x]> (sessions (g_range g))) ⊆ dom (g_session_endpoints g)). rewrite dom_insert_L.
    apply elem_of_dom in Hs. set_solver.
  - intros old Hne [] Hq. constructor; try assumption.
    + change (<[s := x]> (sessions (g_range g)) !! old = None). by rewrite lookup_insert_ne.
    + intros s' y Hy. change (<[s := x]> (sessions (g_range g)) !! s' = Some y) in Hy.
      apply lookup_insert_Some in Hy as [[<- <-]|[_ Hy]]; eauto. done.
Qed.

Lemma keeps_meta g s m :
  is_Some (g_session_endpoints g !! s) →
  keeps g (g <| g_resume ::= λ st, st <| server_sessions ::= <[s := m]> |> |>).
Proof.
  intros Hs Hg. destruct (gi_owned _ Hg) as [O1 O2 O3 O4 O5 O6 O7 O8 O9]. pose proof (gi_tickets _ Hg) as Ht.
  pose proof (gi_ttl _ Hg) as Httl. pose proof (gi_identities _ Hg) as Hid. revert Hg.
  change (g <| g_resume ::= λ st, st <| server_sessions ::= <[s := m]> |> |>) with
    (g <| g_resume := g_resume g <| server_sessions ::= <[s := m]> |> |>).
  apply keeps_resume; try assumption.
  - change (dom (<[s := m]> (server_sessions (g_resume g))) ⊆ dom (g_session_endpoints g)). rewrite dom_insert_L.
    apply elem_of_dom in Hs. set_solver.
  - intros old []. split_and!; assumption.
Qed.

(** A claim can only revive the session it is for. *)
Lemma pending_ok g s c :
  is_Some (g_session_endpoints g !! s) → runtime_inv g →
  let g' := g <| g_resume ::= λ st, st <| pending_server ::= <[s := c]> |> |> in
  runtime_inv g' ∧ (∀ old, quiet old g → claim_old_session c ≠ old → quiet old g') ∧ trims ∅ g g'.
Proof.
  intros Hs [[] ? ? ? ? ? ? ?]. cbv zeta.
  split_and!; [constructor; try assumption; constructor; try assumption| |by apply trims_same].
  - change (dom (<[s := c]> (pending_server (g_resume g))) ⊆ dom (g_session_endpoints g)). rewrite dom_insert_L.
    apply elem_of_dom in Hs. set_solver.
  - intros old [] Hne. constructor; try assumption. intros n c' H.
    change (<[s := c]> (pending_server (g_resume g)) !! n = Some c') in H.
    apply lookup_insert_Some in H as [[<- <-]|[_ H]]; eauto.
Qed.

(** Registering a join, together with the ownership recorded by [convert_event]. *)
Lemma register_join_ok g event pk join selected claim :
  runtime_inv g → sessions (g_range g) !! ev_session event = None →
  let g' := registered (register_join now g event pk join selected claim).2 (ev_session event) (ev_endpoint event) in
  runtime_inv g' ∧
  (∀ old, old ≠ ev_session event → quiet old g → (∀ c, claim = Some c → claim_old_session c ≠ old) → quiet old g') ∧
  trims {[ev_session event]} g g'.
Proof.
  intros Hg Hfresh. cbv zeta. set (s := ev_session event).
  set (x := mkRangeSession (ev_endpoint event) (Join.protocol join) (Join.nonce join) (Some selected) s
    None false Phase.ServerAwaitOpen (now + NEGOTIATION_TIMEOUT) now [] 0).
  set (g1 := registered g s (ev_endpoint event)).
  assert (Hs : is_Some (g_session_endpoints g1 !! s)) by (unfold g1, registered; eexists; apply lookup_insert_eq).
  assert (K1 : keeps_but s g g1) by (apply keeps_endpoints).
  set (g2 := g1 <| g_range ::= λ r, r <| sessions ::= <[s := x]> |> |>).
  assert (K2 : keeps_but s g1 g2).
  { intros Hg1. destruct (session_ok s g1 x Hs) as (H1 & H2 & H3); [|done|].
    - apply (insert_candidate (g_range g)); [apply Hg|done|done].
    - split_and!; [exact H1| |by apply trims_weaken]. intros old Hne Q. by apply H2. }
  set (g3 := g2 <| g_resume ::= λ st, st <| server_sessions ::= <[s := mkServerSessionMeta pk
    (mkSelectedProtocol (protocol_id (Join.protocol join)) selected)]> |> |>).
  assert (K3 : keeps_but s g2 g3) by (apply keeps_weaken, keeps_meta; exact Hs).
  assert (K : keeps_but s g g3) by (etrans; [exact K1|]; by etrans).
  destruct (K Hg) as (Hg3 & Q3 & T3).
  destruct claim as [c|]; [|split_and!; [exact Hg3|intros old ? ? _; by apply Q3|exact T3]].
  destruct (pending_ok g3 s c Hs Hg3) as (Hg4 & Q4 & T4).
  split_and!; [exact Hg4| |by etrans; [exact T3|apply trims_weaken; exact T4]].
  intros old Hne Q Hc. apply Q4; [by apply Q3|by apply Hc].
Qed.

(** The results of a join: a rejection, or a request whose session is registered. *)
Lemma range_auth_request_ok g event pk payload :
  runtime_inv g → g_session_endpoints g !! ev_session event = None →
  ∃ e g', range_auth_request hmac now g event pk payload = Done (e, g') ∧
    match e with
    | Some (AuthRequest _ _ _ _ _ _) | Some (ResumeRequest _ _ _ _ _ _ _ _) =>
      keeps_but (ev_session event) g (registered g' (ev_session event) (ev_endpoint event))
    | Some (ProtocolRejected _ _ _) | None => keeps g g'
    | _ => False
    end.
Proof.
  intros Hg Hno. unfold range_auth_request.
  assert (Hfresh : sessions (g_range g) !! ev_session event = None).
  { apply not_elem_of_dom. intros H%(ow_range _ (gi_owned _ Hg)). by apply not_elem_of_dom in Hno. }
  destruct (server_endpoints (g_range g) !! ev_endpoint event) as [protocol|]; [|by eexists _, _].
  destruct (Join.decode_range payload) as [join|]; [|eexists _, _; split; [reflexivity|]; apply keeps_log].
  destruct (Join.resume_ticket join) as [ticket|].
  2: { destruct (Join.select_version _ _) as [v|]; [|eexists _, _; split; [reflexivity|]; apply keeps_log].
       destruct (register_join_ok g event pk join v None Hg Hfresh) as (H1 & H2 & H3). cbn [register_join fst snd] in *.
       eexists _, _. split; [reflexivity|]. intros _. split_and!; [exact H1| |exact H3]. intros old Hne Q. by apply H2. }
  set (g1 := g <| g_resume_metrics ::= _ |>).
  assert (K1 : keeps g g1) by apply (keeps_metrics (λ m, m <| requests_received ::= fetch_add 1 |>)).
  change (tickets (g_resume g1)) with (tickets (g_resume g)).
  destruct (claim_version_ok _ event pk (Join.protocol join) protocol ticket (gi_tickets _ Hg))
    as (res & t & -> & Ht & Hsub & Hclaim). cbn [mbind outcome_bind].
  set (g2 := g1 <| g_resume ::= _ |>).
  assert (K2 : keeps g1 g2).
  { apply (keeps_tickets g1 t); [done|by eapply identities_sub, Hg|]. intros old Q n e He. apply (qt_tickets _ _ Q n). by eapply lookup_weaken. }
  assert (K : keeps g g2) by by etrans. destruct (K Hg) as (Hg2 & Q2 & T2).
  destruct res as [[v c]|].
  - destruct (register_join_ok g2 event pk join v (Some c) Hg2 Hfresh) as (H1 & H2 & H3). cbn [register_join fst snd] in *.
    eexists _, _. split; [reflexivity|]. intros _.
    split_and!; [exact H1| |etrans; [apply trims_weaken; exact T2|exact H3]].
    intros old Hne Q. apply H2; [done|by apply Q2|].
    intros c' [= <-]. destruct (Hclaim v c eq_refl) as (n & e & He & <- & _). by apply (qt_tickets _ _ Q n).
  - eexists _, _. split; [reflexivity|]. cbv iota beta.
    etrans; [exact K|]. etrans; [apply (keeps_metrics (λ m, m <| tickets_rejected ::= fetch_add 1 |>))|apply keeps_log].
Qed.

(** *** Opening *)

Lemma track_session_ok g s :
  runtime_inv g → ∃ h, Heartbeat.track_session (g_heartbeat g) s now = Done h ∧
    dom (trackers h) = {[s]} ∪ dom (trackers (g_heartbeat g)) ∧
    heartbeat_interval h = heartbeat_interval (g_heartbeat g) ∧
    heartbeat_timeout h = heartbeat_timeout (g_heartbeat g).
Proof.
  intros Hg. unfold Heartbeat.track_session. pose proof (gi_heartbeat _ Hg now) as Hh.
  destruct (tracker_new _ _ _); [|done]. eexists. split_and!; [reflexivity| |done|done].
  cbn -[dom]. apply dom_insert_L.
Qed.

(** The tables that start to track an owned session. *)
Definition tracked (g : GameRuntime) (h : HeartbeatRuntime) (s : Handle) (client : bool) (tr : Transport.t) : GameRuntime :=
  g <| g_heartbeat := h |> <| g_clock ::= λ c, track_clock_session c s client |>
    <| g_udp_sessions ::= λ t, track_quality_session t s tr |>.

Lemma tracked_keeps g h s client tr :
  is_Some (g_session_endpoints g !! s) → dom (trackers h) = {[s]} ∪ dom (trackers (g_heartbeat g)) →
  heartbeat_interval h = heartbeat_interval (g_heartbeat g) → heartbeat_timeout h = heartbeat_timeout (g_heartbeat g) →
  keeps g (tracked g h s client tr).
Proof.
  intros Hs Hd E1 E2 Hg. apply elem_of_dom in Hs. destruct (gi_owned _ Hg) as [O1 O2 O3 _ _ _ _ _ _].
  revert Hg. change (keeps g (tracked g h s client tr)). unfold tracked.
  etrans; [apply (keeps_heartbeat g h); [rewrite Hd; set_solver|done|done]|].
  set (g1 := g <| g_heartbeat := h |>).
  etrans; [apply (keeps_clock g1 (track_clock_session (g_clock g) s client))|].
  { unfold track_clock_session. cbn -[dom]. rewrite dom_insert_L. set_solver. }
  set (g2 := g1 <| g_clock := _ |>).
  apply (keeps_udp g2 (track_quality_session (g_udp_sessions g) s tr)).
  unfold track_quality_session. case_decide; [rewrite dom_insert_L; set_solver|done].
Qed.

(** Starting the negotiation of an owned session. *)
Lemma start_range_session_ok g ep s old_session server_resume :
  runtime_inv g → is_Some (g_session_endpoints g !! s) →
  let g' := (start_range_session net now g ep s old_session server_resume).2 in
  runtime_inv g' ∧ (∀ old, old ≠ s → quiet old g → old_session ≠ Some old → quiet old g') ∧ trims ∅ g g'.
Proof.
  intros Hg Hs. cbv zeta. unfold start_range_session. destruct (sessions (g_range g) !! s) as [x|] eqn:Hx.
  - case_decide as Hp; [done|].
    set (x' := x <| rs_phase := _ |> <| rs_old_session := _ |> <| rs_server_resume := _ |> <| rs_deadline := _ |>
                 <| rs_next_retry := _ |>).
    set (g1 := g <| g_range ::= _ |>).
    destruct (session_ok s g x' Hs) as (Hg1 & Q1 & T1); [eapply range_update; [apply Hg|exact Hx|done..]|done|].
    fold g1 in Hg1, Q1, T1. pose proof (send_range_control_keeps g1 s (control x' SELECT) Hg1) as (Hg2 & Q2 & T2).
    destruct (send_range_control net g1 s _) as [[|e] g2]; cbn [snd] in *;
      (split_and!; [exact Hg2|by auto|by etrans]).
  - destruct (client_endpoints (g_range g) !! ep) as [pending|]; [|done].
    set (x' := mkRangeSession _ _ _ _ _ _ _ _ _ _ _ _).
    set (g1 := g <| g_range ::= λ r, r <| client_endpoints ::= delete ep |> |>).
    assert (K1 : keeps g g1).
    { apply (keeps_range_endpoints g (g_range g <| client_endpoints ::= delete ep |>)); [done| |by split_and!].
      destruct (gi_range _ Hg). by constructor. }
    destruct (K1 Hg) as (Hg1 & Q1 & T1). destruct (session_ok s g1 x' Hs) as (Hg2 & Q2 & T2); [|done|].
    + apply insert_candidate; [apply Hg1|exact Hx|done].
    + split_and!; [exact Hg2| |by etrans]. intros old Hne Q Ho. apply Q2; [done|by apply Q1|exact Ho].
Qed.

(** The claim of the opened session goes in flight, or the client's old handle is taken. *)
Lemma keeps_inflight g s c :
  is_Some (g_session_endpoints g !! s) → pending_server (g_resume g) !! s = Some c →
  keeps g (g <| g_resume := g_resume g <| pending_server ::= delete s |>
                                       <| inflight_server ::= <[claim_old_session c := s]> |> |>).
Proof.
  intros Hs Hc Hg. destruct (gi_owned _ Hg) as [O1 O2 O3 O4 O5 O6 O7 O8 O9]. pose proof (gi_tickets _ Hg) as Ht.
  pose proof (gi_ttl _ Hg) as Httl. pose proof (gi_identities _ Hg) as Hid. set (st := g_resume g <| pending_server ::= _ |> <| inflight_server ::= _ |>).
  assert (Ei : inflight_server st = <[claim_old_session c := s]> (inflight_server (g_resume g))) by done.
  assert (Ep : pending_server st = delete s (pending_server (g_resume g))) by done.
  revert Hg. apply keeps_resume; rewrite ?Ei, ?Ep; try assumption.
  - rewrite dom_delete_L. set_solver.
  - intros old new [[<- <-]|[_ H]]%lookup_insert_Some; [by apply elem_of_dom|eauto].
  - change (revoked_inflight st) with (revoked_inflight (g_resume g)). rewrite dom_insert_L. set_solver.
  - intros old [Q1 Q2 Q3 Q4 Q5 Q6 Q7]. split_and!; try assumption.
    + intros n c' [_ H]%lookup_delete_Some. eauto.
    + rewrite lookup_insert_ne; [done|]. by eapply Q2.
Qed.

Lemma open_session_ok g event :
  runtime_inv g →
  ∃ res g', open_session net now g event = Done (res, g') ∧ keeps_but (ev_session event) g g' ∧
    match res with Ok (Some _) => False | _ => True end.
Proof.
  intros Hg. unfold open_session. set (s := ev_session event). set (ep := ev_endpoint event).
  destruct (g_endpoint_transports g !! ep) as [tr|].
  2: { eexists _, _. split_and!; [reflexivity| |done]. apply keeps_weaken, keeps_log. }
  destruct (net_live net s); cbn [negb]; [|by eexists _, _].
  destruct (track_session_ok g s Hg) as (h & -> & Hd & E1 & E2). cbn [mbind outcome_bind].
  set (g1 := registered g s ep).
  assert (Hs : is_Some (g_session_endpoints g1 !! s)) by (unfold g1, registered; eexists; apply lookup_insert_eq).
  assert (K1 : keeps_but s g g1) by apply keeps_endpoints.
  assert (Hopen : ∃ old_session server_resume st,
    match pending_server (g_resume g) !! s with
    | Some claim =>
      (Some (claim_old_session claim), true,
       g_resume g <| pending_server ::= delete s |> <| inflight_server ::= <[claim_old_session claim := s]> |>)
    | None =>
      (resume_client_endpoints (g_resume g) !! ep, false, g_resume g <| resume_client_endpoints ::= delete ep |>)
    end = (old_session, server_resume, st) ∧ keeps g1 (g1 <| g_resume := st |>) ∧
    ∀ old, quiet old g → old_session ≠ Some old).
  { destruct (pending_server (g_resume g) !! s) as [c|] eqn:Hc.
    - eexists _, _, _. split_and!; [reflexivity|by apply (keeps_inflight g1 s c)|].
      intros old Q [= E]. by apply (qt_pending _ _ Q s c).
    - eexists _, _, _. split_and!; [reflexivity|apply (keeps_client_gone g1 ep)|]. intros old Q. apply Q. }
  destruct Hopen as (old_session & server_resume & st & -> & K2 & Hq).
  set (g2 := g1 <| g_resume := st |>).
  set (client := negb _). set (g3 := tracked g2 h s client tr).
  assert (K3 : keeps g2 g3) by (apply tracked_keeps; [exact Hs|exact Hd|exact E1|exact E2]).
  assert (K : keeps_but s g g3) by (etrans; [exact K1|]; apply keeps_weaken; etrans; [exact K2|exact K3]).
  change (start_range_session net now _ ep s old_session server_resume)
    with (start_range_session net now g3 ep s old_session server_resume).
  destruct (start_range_session_ok g3 ep s old_session server_resume) as (Hg4 & Q4 & T4); [by apply K|exact Hs|].
  destruct (start_range_session net now g3 ep s old_session server_resume) as [res g4].
  eexists _, _. split_and!; [reflexivity| |by destruct res].
  intros _. split_and!; [exact Hg4| |etrans; [by apply K|by apply trims_weaken]].
  intros old Hne Q. apply Q4; [done|by apply K|by apply Hq].
Qed.

(** *** Every network event *)

(** The transport reports a join under a handle that is not in use. *)
Definition fresh_event (g : GameRuntime) (event : Event) : Prop :=
  event_type event = EventType.AuthRequest → g_session_endpoints g !! ev_session event = None.
(** Events that bring the session [s] into the game. *)
Definition reopens (event : Event) (s : Handle) : Prop :=
  (event_type event = EventType.AuthRequest ∨ event_type event = EventType.SessionOpened) ∧ ev_session event = s.

Definition opened (event : Event) : gset Z :=
  if decide (event_type event = EventType.AuthRequest ∨ event_type event = EventType.SessionOpened)
  then {[ev_session event]} else ∅.

Lemma convert_auth_ok g event :
  runtime_inv g → event_type event = EventType.AuthRequest → g_session_endpoints g !! ev_session event = None →
  ∃ res g', convert_event hmac net now g event = Done (res, g') ∧ keeps_but (ev_session event) g g' ∧
    ∀ old, ¬ resumes old res.
Proof.
  intros Hg Hty Hno. unfold convert_event, convert_game_auth_request. rewrite Hty.
  case_decide; [by eexists _, _; split_and!; [reflexivity|done|intros ? []]|].
  destruct (range_auth_request_ok g event (take 32 (data event)) (drop 32 (data event)) Hg Hno) as (e & g' & -> & Hk).
  cbn [mbind outcome_bind].
  destruct e as [[]|]; try done; cbn [mbind outcome_bind result_bind];
    (eexists _, _; split_and!; [reflexivity| |by intros ? []]); try exact Hk; try (by apply keeps_weaken).
  apply keeps_weaken. etrans; [exact Hk|apply keeps_log].
Qed.

Lemma convert_event_ok g event :
  runtime_inv g → fresh_event g event →
  ∃ res g', convert_event hmac net now g event = Done (res, g') ∧ runtime_inv g' ∧
    (∀ old, ¬ reopens event old → quiet old g → quiet old g' ∧ ¬ resumes old res) ∧
    trims (opened event) g g'.
Proof.
  intros Hg Hf.
  assert (Hhandled : ∀ r, handled g r → ∃ res g', r = Done (res, g') ∧ runtime_inv g' ∧
    (∀ old, ¬ reopens event old → quiet old g → quiet old g' ∧ ¬ resumes old res) ∧ trims (opened event) g g').
  { intros r (res & g' & -> & K & H). exists res, g'. destruct (K Hg) as (Hg' & Q & T).
    split_and!; auto using trims_weaken. }
  assert (Hnew : event_type event = EventType.AuthRequest ∨ event_type event = EventType.SessionOpened →
    ∀ res g', convert_event hmac net now g event = Done (res, g') → keeps_but (ev_session event) g g' →
    (∀ old, ¬ resumes old res) → ∃ res g', convert_event hmac net now g event = Done (res, g') ∧ runtime_inv g' ∧
    (∀ old, ¬ reopens event old → quiet old g → quiet old g' ∧ ¬ resumes old res) ∧ trims (opened event) g g').
  { intros Hty res g' E K Hres. exists res, g'. destruct (K Hg) as (Hg' & Q & T). split_and!; [done..| |].
    - intros old Hre Qo. split; [|by auto]. apply Q; [|done]. intros ->. by apply Hre.
    - unfold opened. by rewrite decide_True. }
  destruct (event_type event) eqn:Hty.
  - unfold convert_event. rewrite Hty. apply Hhandled, handled_intro; [done|by intros ? []].
  - unfold convert_event. rewrite Hty. apply Hhandled, handled_intro; [done|by intros ? []].
  - unfold convert_event. rewrite Hty. destruct (reap_ok g Hg) as (g' & -> & K). cbn [mbind outcome_bind].
    apply Hhandled, handled_intro; [done|by intros ? []].
  - destruct (open_session_ok g event Hg) as (res & g' & E & K & Hres).
    apply (Hnew (or_intror eq_refl) res g'); [unfold convert_event; by rewrite Hty|done|].
    intros old. destruct res as [[e|]|]; [done|by intros []..].
  - unfold convert_event. rewrite Hty. destruct (forget_keeps g (ev_session event) Hg) as (g' & -> & _ & K).
    cbn [mbind outcome_bind]. apply Hhandled, handled_intro; [done|by intros ? []].
  - unfold convert_event. rewrite Hty. by apply Hhandled, convert_business_ok.
  - unfold convert_event. rewrite Hty. apply Hhandled, handled_intro; [done|by intros ? []].
  - unfold convert_event. rewrite Hty. apply Hhandled, handled_intro; [done|by intros ? []].
  - destruct (convert_auth_ok g event Hg Hty (Hf Hty)) as (res & g' & E & K & Hres).
    by apply (Hnew (or_introl eq_refl) res g').
  - unfold convert_event. rewrite Hty. apply Hhandled, handled_intro; [|by intros ? []].
    etrans; [apply (keeps_client_gone g (ev_endpoint event))|]. set (g1 := g <| g_resume ::= _ |>).
    apply (keeps_range_endpoints g1 (forget_failed_client_endpoint (g_range g) (ev_endpoint event))); [done| |by split_and!].
    destruct (gi_range _ Hg). by constructor.
  - unfold convert_event. rewrite Hty. apply Hhandled, handled_intro; [done|].
    destruct (security_change_from_event event); by intros ? [].
  - unfold convert_event. rewrite Hty. by apply Hhandled, handle_game_control_event_ok.
Qed.

(** *** Payload sizes *)

(** A published event carries no more payload than [n] bytes. *)
Definition payload_within (n : Z) (r : outcome (Result (option GameEvent) * GameRuntime)) : Prop :=
  ∀ e g', r = Done (Ok (Some e), g') → public_payload_bytes e ≤ n.

Lemma join_payload_len w j :
  Join.decode_range w = Ok j →
  len (Join.ticket j) ≤ len w ∧ (is_Some (Join.resume_ticket j) → MAX_IDENTITY_LEN + len (Join.ticket j) ≤ len w + 32).
Proof.
  intros (Hwf & Hs & ->)%Join.decode_range_Ok. rewrite Join.len_join_bytes by apply Hwf.
  unfold Join.HEADER_LEN, Join.RANGE_RESUME_HEADER_LEN, MAX_IDENTITY_LEN.
  destruct (Join.resume_ticket j) as [t|]; [pose proof (len_nonneg t); lia|split; [lia|by intros [? ?]]].
Qed.

Lemma auth_payload g event e g' :
  runtime_inv g → 32 ≤ len (data event) →
  range_auth_request hmac now g event (take 32 (data event)) (drop 32 (data event)) = Done (Some e, g') →
  public_payload_bytes e ≤ len (data event).
Proof.
  intros Hg Hl. pose proof (len_nonneg (data event)). unfold range_auth_request.
  assert (Hd : len (drop 32 (data event)) = len (data event) - 32) by (unfold len in *; rewrite length_drop; lia).
  destruct (server_endpoints (g_range g) !! ev_endpoint event) as [protocol|]; [|done].
  destruct (Join.decode_range _) as [join|] eqn:Hj; [|by intros [= <- _]].
  apply join_payload_len in Hj as [Hj1 Hj2]. rewrite Hd in Hj1, Hj2.
  destruct (Join.resume_ticket join) as [ticket|].
  2: { destruct (Join.select_version _ _) as [v|]; [|by intros [= <- _]].
       intros [= <- _]. cbn. lia. }
  cbv zeta. set (t := tickets _). change t with (tickets (g_resume g)).
  destruct (claim_version_ok _ event (take 32 (data event)) (Join.protocol join) protocol ticket (gi_tickets _ Hg))
    as (res & t' & -> & Ht & Hsub & Hclaim). cbn [mbind outcome_bind].
  destruct res as [[v c]|]; [|by intros [= <- _]].
  intros [= <- _]. cbn [public_payload_bytes]. destruct (Hclaim v c eq_refl) as (n & x & Hx & _ & <-).
  pose proof (gi_identities _ Hg n x Hx). specialize (Hj2 ltac:(done)). lia.
Qed.

Lemma decoded_payload d max x :
  Envelope.decode d max = Ok x → len (Envelope.envelope_payload x) ≤ len d.
Proof.
  intros (_ & _ & ->)%Envelope.decode_Ok. rewrite Envelope.len_envelope_bytes. unfold Envelope.HEADER_LEN.
  destruct (Envelope.has _); cbn; lia.
Qed.

Lemma business_payload g event : runtime_inv g → payload_within (len (data event)) (convert_business g event).
Proof.
  intros Hg e g'. unfold convert_business.
  destruct (convert_business_event _ _ _ _) as [[[[m|]|] t] dropped] eqn:Hb; [|done..].
  assert (Hm : len (gm_payload m) ≤ len (data event)).
  { revert Hb. unfold convert_business_event, decode_business_message.
    case_decide; [by destruct (integrity_verified event)|].
    destruct (Envelope.decode (data event) _) as [[]|] eqn:Hd; [|by destruct (integrity_verified event)..].
    apply decoded_payload in Hd. cbn in Hd. destruct (observe_datagram_sequence _ _ _) as [[] t'];
      cbn [mbind result_bind]; [by intros [= <- _ _]|by destruct (integrity_verified event)]. }
  set (g1 := g <| g_udp_sessions := t |> <| g_plaintext_dropped := dropped |>).
  destruct (buffer_message_ok (g_range g) m (gi_range _ Hg)) as (res & r & E & _ & _ & _ & _ & _ & _ & H).
  change (g_range g1) with (g_range g). rewrite E. cbn [mbind outcome_bind]. intros [= -> _].
  by destruct H as [-> _].
Qed.

(** Publication announces the session, without payload. *)
Lemma publish_payload g ep s old_session server_resume :
  payload_within 0 (publish_range_ready net g ep s old_session server_resume).
Proof.
  intros e g'. unfold publish_range_ready. destruct (net_live net s); cbn [negb].
  2: { by destruct (forget_ready_session g s). }
  repeat case_match; cbn [mbind outcome_bind];
    repeat match goal with |- context [close_and_forget ?a ?b ?c] => destruct (close_and_forget a b c) end;
    cbn [mbind outcome_bind]; try done; by intros [= <- _].
Qed.

Lemma range_control_payload g event payload : payload_within 0 (handle_range_control net now g event payload).
Proof.
  intros e g'. unfold handle_range_control.
  destruct (parse_control payload); [|done]. destruct (sessions _ !! _) as [st|]; [|done].
  destruct (negotiate st _ now _) as [[re st']|]; [|done].
  destruct re; try done.
  - destruct (send_range_control _ _ _ _) as [[|x] ?]; [done|by destruct (would_block x)].
  - destruct (send_range_control _ _ _ _) as [[|x] ?]; [|by destruct (would_block x)].
    destruct was_ready; [done|apply publish_payload].
  - apply publish_payload.
Qed.

Lemma control_payload g event : payload_within (len (data event)) (handle_game_control_event net now g event).
Proof.
  intros e g'. pose proof (len_nonneg (data event)). unfold handle_game_control_event.
  destruct (Envelope.decode (data event) _) as [[?|[] payload]|] eqn:Hd; [done|..|done].
  - unfold handle_heartbeat_control. cbv zeta. destruct (Heartbeat.handle_heartbeat_event _ _ _ _ _ _ _ _) as [[[[q|] sent]|] h];
      [by intros [= <- _]|done..].
  - unfold handle_clock_control. destruct (ClockSync.handle_clock_sync_event _ _ _ _ _ _ _) as [[sent|] c]; done.
  - case_decide; [done|]. destruct (game_ready net g _); [|done]. intros [= <- _].
    by apply decoded_payload in Hd.
  - intros He%range_control_payload. lia.
Qed.

(** The bound the conversion asserts of every event it publishes. *)
Lemma convert_event_payload g event :
  runtime_inv g → payload_within (len (data event)) (convert_event hmac net now g event).
Proof.
  intros Hg e g'. pose proof (len_nonneg (data event)). unfold convert_event.
  destruct (event_type event) eqn:Hty; try (by intros [= <- _]).
  - destruct (reap_closed_endpoints net g); [|done]. by intros [= <- _].
  - intros E. destruct (open_session_ok g event Hg) as (res & g1 & E' & _ & Hres). rewrite E' in E.
    injection E as -> _. done.
  - destruct (forget_ready_session g _); [|done]. by intros [= <- _].
  - by apply business_payload.
  - unfold convert_game_auth_request. case_decide as Hc; [done|]. apply Decidable.not_or in Hc as [_ Hc].
    destruct (range_auth_request _ _ _ _ _ _) as [[[x|] g1]|] eqn:Hr; [|by intros [= <- _]|done].
    cbn [mbind outcome_bind result_bind]. intros [= <- _]. eapply auth_payload; [done|lia|done].
  - by destruct (security_change_from_event event); [intros [= <- _]|].
  - apply control_payload.
Qed.

(** *** The other operations *)

Lemma send_retries_keeps l : ∀ g, keeps g (send_retries net g l).
Proof.
  induction l as [|[s c] l IH]; intros g; [done|]. cbn.
  etrans; [apply (send_range_control_keeps g s c)|apply IH].
Qed.

Lemma expire_sessions_ok l : ∀ g, runtime_inv g → ∃ g', expire_sessions g l = Done g' ∧ keeps g g'.
Proof.
  induction l as [|s l IH]; intros g Hg; cbn [expire_sessions]; [by exists g|].
  destruct (close_and_forget_ok g s ErrorCode.Timeout Hg) as (g1 & -> & _ & K1). cbn [mbind outcome_bind].
  destruct (IH g1 (proj1 (K1 Hg))) as (g2 & -> & K2). exists g2. split; [done|by etrans].
Qed.

Lemma drive_range_negotiation_ok g :
  runtime_inv g → ∃ g', drive_range_negotiation net now g = Done g' ∧ keeps g g'.
Proof.
  intros Hg. unfold drive_range_negotiation.
  pose proof (due_controls_ok (g_range g) now (gi_range _ Hg)) as (Hr & _ & Hs).
  assert (Hsh : shrinks (g_range g) (due_controls (g_range g) now).2) by (by split_and!).
  destruct (due_controls (g_range g) now) as [[retries expired] r]. cbn [snd] in Hr, Hs, Hsh.
  assert (K : keeps g (send_retries net (g <| g_range := r |>) retries)).
  { etrans; [apply (keeps_range_same g r Hr Hsh)|apply send_retries_keeps]. rewrite Hs.
    intros s x (y & <- & Hy)%lookup_fmap_Some. exists y. split; [done|].
    destruct (due_control_keeps now y) as (E1 & _). rewrite E1. split_and!; [..|done].
    - unfold due_control. destruct (rs_phase y); cbn; repeat case_match; done.
    - unfold due_control. destruct (rs_phase y); cbn; repeat case_match; done. }
  destruct (expire_sessions_ok expired _ (proj1 (K Hg))) as (g' & -> & K'). exists g'. split; [done|by etrans].
Qed.

Lemma auth_decide_ok g s accept :
  runtime_inv g → ∃ res g', auth_decide net g s accept = Done (res, g') ∧ keeps g g'.
Proof.
  intros Hg. unfold auth_decide. set (g1 := log_call _ g).
  assert (K1 : keeps g g1) by apply keeps_log.
  destruct (net_auth_decide net s accept); [|by eexists _, _].
  destruct accept; [by eexists _, _|].
  set (g2 := if decide _ then _ else g1).
  assert (K2 : keeps g g2).
  { unfold g2. case_decide; [|done]. etrans; [exact K1|].
    apply (keeps_metrics (λ m, m <| authorization_denied ::= fetch_add 1 |>)). }
  destruct (forget_keeps g2 s (proj1 (K2 Hg))) as (g' & -> & _ & K). cbn [mbind outcome_bind].
  eexists _, _. split; [reflexivity|by etrans].
Qed.

(** Tickets are issued for ready sessions only. *)
Lemma tickets_issue_entries max m scope identity ttl random n e :
  (tickets_issue hmac instant_limit max m scope identity now ttl random).2 !! n = Some e →
  m !! n = Some e ∨ te_old_session e = scope_session scope ∧ len (te_identity e) ≤ MAX_IDENTITY_LEN.
Proof.
  unfold tickets_issue, MAX_IDENTITY_LEN. case_decide as Hb; cbn [snd]; [by auto|]. repeat case_decide; cbn [snd]; auto.
  { intros [? _]%map_lookup_filter_Some. auto. }
  destruct (draw_nonce _ _ _ _); cbn [snd]; [|by intros [? _]%map_lookup_filter_Some; auto].
  intros [[<- <-]|[_ Hin]]%lookup_insert_Some; [right; cbn; lia|].
  apply map_lookup_filter_Some in Hin as [[? _]%map_lookup_filter_Some _]. auto.
Qed.

Lemma issue_resume_ticket_ok g s identity random :
  runtime_inv g →
  ∃ res g', issue_resume_ticket hmac instant_limit net now g s identity random = Done (res, g') ∧ keeps g g'.
Proof.
  intros Hg. unfold issue_resume_ticket. unfold game_ready, ensure_game_ready.
  destruct (admission_contains (g_admission g) s) eqn:Hr.
  2: { destruct (net_validate net s 0); cbn [mbind result_bind]; by eexists _, _. }
  cbn [mbind result_bind]. apply bool_decide_eq_true in Hr.
  destruct (g_session_endpoints g !! s) as [ep|]; cbn [ok_or mbind result_bind]; [|by eexists _, _].
  destruct (server_sessions (g_resume g) !! s) as [meta|]; cbn [ok_or mbind result_bind]; [|by eexists _, _].
  set (scope := mkResumeScope _ _ _ _).
  pose proof (issue_spec hmac instant_limit _ scope identity now (resume_ttl (g_resume g)) random
    (gi_tickets _ Hg) (gi_ttl _ Hg)) as H.
  pose proof (tickets_issue_entries (max_entries (tickets (g_resume g))) (entries (tickets (g_resume g))) scope
    identity (resume_ttl (g_resume g)) random) as Hent.
  destruct (tickets_issue _ _ _ _ _ _ _ _ _) as [x m]. destruct H as (t & -> & Ht & He & _).
  cbn [expect mbind outcome_bind snd] in *. set (g1 := g <| g_resume ::= _ |>).
  assert (K1 : keeps g g1).
  { apply (keeps_tickets g t Ht).
    { intros n e Hn. rewrite He in Hn. apply Hent in Hn as [Hn|[_ Hn]]; [by eapply (gi_identities _ Hg)|done]. }
    intros old Q n e Hn. rewrite He in Hn. apply Hent in Hn as [Hn|[Hn _]].
    - by apply (qt_tickets _ _ Q n).
    - rewrite Hn. cbn. intros ->. by apply (qt_ready _ _ Q). }
  destruct x as [ticket|err]; [|by eexists _, _].
  set (sent := match Envelope.encode_control _ _ _ with Err _ => _ | Ok _ => _ end).
  assert (K2 : keeps g sent.2).
  { unfold sent. destruct (Envelope.encode_control _ _ _); [|done]. etrans; [exact K1|apply keeps_log]. }
  destruct sent as [[|err] g2]; cbn [snd] in K2.
  - eexists _, _. split; [reflexivity|]. etrans; [exact K2|].
    apply (keeps_metrics (λ m, m <| tickets_issued ::= fetch_add 1 |>)).
  - destruct (revoke_ticket_spec _ ticket (gi_tickets _ (proj1 (K2 Hg)))) as (Ht' & He' & _).
    eexists _, _. split; [reflexivity|]. etrans; [exact K2|].
    assert (Hs : entries (revoke_ticket (tickets (g_resume g2)) ticket) ⊆ entries (tickets (g_resume g2)))
      by (rewrite He'; case_decide; [apply delete_subseteq|done]).
    apply (keeps_tickets g2 (revoke_ticket (tickets (g_resume g2)) ticket) Ht').
    { eapply identities_sub, gi_identities; [exact Hs|by apply K2]. }
    intros old Q n e Hn. eapply (qt_tickets _ _ Q n), lookup_weaken; eauto.
Qed.

Lemma close_session_ok g s :
  runtime_inv g →
  ∃ res g', close_session net g s = Done (res, g') ∧ keeps g g' ∧
    (res = Ok tt → (∀ ep, resume_client_endpoints (g_resume g) !! ep ≠ Some s) →
     (∀ n x, sessions (g_range g) !! n = Some x → rs_old_session x = Some s →
        rs_server_resume x = true ∧ Phase.is_server (rs_phase x) = true) → quiet s g').
Proof.
  intros Hg. unfold close_session.
  destruct (revoke_resume_ok g s Hg) as (g1 & -> & K1 & _ & _ & Ht & Hp & Hi & Hss & Hrc). cbn [mbind outcome_bind].
  set (g2 := log_call _ g1). assert (K2 : keeps g g2) by (etrans; [exact K1|apply keeps_log]).
  destruct (net_close net s ErrorCode.Cancelled); [|by eexists _, _].
  destruct (forget_keeps g2 s (proj1 (K2 Hg))) as (g' & -> & F & K). cbn [mbind outcome_bind].
  eexists _, _. split_and!; [reflexivity|by etrans|]. intros _ Hc Hn.
  constructor; rewrite ?(fg_resume _ _ _ F), ?(fg_sessions _ _ _ F), ?(fg_admission _ _ _ F).
  - exact Ht.
  - intros n c [_ H]%forget_resume_pending. by eapply Hp.
  - apply eq_None_not_Some. intros [new [H _]%forget_resume_inflight].
    change (inflight_server (g_resume g1) !! s = Some new) in H. congruence.
  - cbn. set_solver.
  - apply lookup_delete_eq.
  - intros ep. change (resume_client_endpoints (g_resume g1) !! ep ≠ Some s). rewrite Hrc. apply Hc.
  - intros n x [_ H]%lookup_delete_Some. apply (Hn n). by eapply lookup_weaken.
Qed.

Lemma close_endpoint_ok g ep :
  runtime_inv g → ∃ res g', close_endpoint net g ep = Done (res, g') ∧ keeps g g'.
Proof.
  intros Hg. unfold close_endpoint. set (g1 := log_call _ g).
  assert (K1 : keeps g g1) by apply keeps_log.
  destruct (net_close_endpoint net ep); [|by eexists _, _].
  destruct (forget_endpoint_state_ok g1 ep (proj1 (K1 Hg))) as (g' & -> & K & _). cbn [mbind outcome_bind].
  eexists _, _. split; [reflexivity|by etrans].
Qed.

Lemma log_closes_keeps l : ∀ g, keeps g (foldl (λ g sr, log_call (CallCloseSession sr.1 sr.2) g) g l).
Proof. induction l as [|sr l IH]; intros g; [done|]. cbn. etrans; [apply keeps_log|apply IH]. Qed.

Lemma drive_heartbeats_ok g rng : keeps g (drive_heartbeats_runtime net now g rng).
Proof.
  unfold drive_heartbeats_runtime, drive_heartbeats.
  destruct (foldl _ ([], metrics (g_heartbeat g)) _) as [close m].
  etrans; [|apply log_closes_keeps]. rewrite foldl_forget. intros Hg. revert Hg.
  refine (λ Hg, keeps_heartbeat g _ _ _ _ Hg); [|done|done].
  intros s [t Ht]%elem_of_dom. apply (ow_heartbeat _ (gi_owned _ Hg)), elem_of_dom.
  change (foldl (λ m k, delete k m) (map_imap (λ s t, Some (drive_session (sent_ok net) (maximum_envelope_len (g_heartbeat g))
    now s (rng s) t (metrics (g_heartbeat g))).1.1) (trackers (g_heartbeat g))) close.*1 !! s = Some t) in Ht.
  rewrite lookup_foldl_delete in Ht. case_decide; [done|]. rewrite map_lookup_imap in Ht.
  destruct (trackers (g_heartbeat g) !! s); [eauto|done].
Qed.

Lemma drive_clock_ok g rng t1 : keeps g (drive_clock_runtime net now g rng t1).
Proof.
  intros Hg. apply keeps_clock; [|exact Hg]. unfold drive_clock_sync. case_decide; [apply Hg|].
  intros s [t Ht]%elem_of_dom. apply (ow_clock _ (gi_owned _ Hg)), elem_of_dom.
  cbn in Ht. rewrite map_lookup_imap in Ht. destruct (cr_trackers (g_clock g) !! s); [eauto|done].
Qed.
End handlers.
