(* ===== verification/GameSteps.v ===== *)
(** * The life of a game runtime

    Construction, staging and flushing, registration of endpoints and shutdown keep the
    invariant of [GameSafety]; [game_step] collects every operation of the runtime, and the
    theorems hold in every state it reaches from [build]. *)

From S2P Require Import Prelude Bytes CoreTypes Control TcpSession Observe GameWire Quality Heartbeat ClockSync.
From S2P Require Import Scheduler Realtime SendPath GameData Resume RangeState GameRuntime GameSafety.

(** ** Staging queues *)

Lemma keeps_scheduled g q n : sched_inv q [] n → keeps g (g <| g_scheduled := q |>).
Proof. intros Hq. assert (∃ n, sched_inv q [] n) by eauto. keeps_field. Qed.
Lemma keeps_realtime g q l : rt_inv q l → keeps g (g <| g_realtime := q |>).
Proof. intros Hq. assert (∃ l, rt_inv q l) by eauto. keeps_field. Qed.

(** Messages admitted to the scheduled queue so far. *)
Definition admitted_total (g : GameRuntime) : Z :=
  sumZ (λ x, x) (admitted_by_priority (counters (g_scheduled g))).

Section staging.
Context (hmac : list byte → list byte) (instant_limit : Instant) (net : Network) (now : Instant).

Lemma stage_send_ok g s payload options :
  admitted_total g < u64_max → keeps g (stage_send instant_limit net now g s payload options).2.
Proof.
  intros Hn Hg. destruct (gi_scheduled _ Hg) as [n Hq]. pose proof (bl_total _ _ (si_balanced _ _ _ Hq)) as En.
  revert Hg. change (keeps g (stage_send instant_limit net now g s payload options).2). unfold stage_send.
  unfold send_scheduled.
  destruct (prepare_scheduled _ _ _ _ _ _ _) as [m|]; [|by apply (keeps_scheduled g _ n)].
  destruct (with_ready _ _); [|by apply (keeps_scheduled g _ n)].
  pose proof (enqueue_spec _ [] n m Hq ltac:(unfold admitted_total in *; lia)) as He.
  destruct (Scheduler.enqueue (g_scheduled g) m) as [r q]. destruct (fits _ _); cbn [snd].
  - apply (keeps_scheduled g _ (n + 1)), He.
  - apply (keeps_scheduled g _ n), He.
Qed.

Lemma stage_latest_ok g s key payload tick :
  runtime_inv g → ∃ res g', stage_latest net g s key payload tick = Done (res, g') ∧ keeps g g'.
Proof.
  intros Hg. destruct (gi_realtime _ Hg) as [l Hl]. unfold stage_latest, send_latest_with_tick.
  destruct (prepare_latest _ _ _ _ _); cbn [mbind outcome_bind];
    [|by eexists _, _; split; [reflexivity|by eapply keeps_realtime]].
  destruct (with_ready _ _); cbn [mbind outcome_bind];
    [|by eexists _, _; split; [reflexivity|by eapply keeps_realtime]].
  destruct (latest_enqueue_spec _ _ (mkPendingRealtime s key payload tick) Hl) as (r & q & -> & _ & H).
  cbn [mbind outcome_bind]. eexists _, _. split; [reflexivity|].
  destruct H as [(_ & _ & H)|(_ & _ & H)]; by eapply keeps_realtime.
Qed.

(** A forwarding attempt only advances the sequence of a session it knows. *)
Lemma send_application_dom ready max network t s payload options :
  dom (send_game_application ready max network t s payload options).2 ⊆ dom t.
Proof.
  unfold send_game_application. destruct ready; [|done]. destruct (t !! s) as [q|] eqn:Hq; [|done].
  destruct (Envelope.encode_udp_application _ _ _ _ _); [|done]. destruct (network _); [|done].
  by eapply set_existing_dom.
Qed.

Lemma flush_scheduled_ok g clock elapsed capacity :
  runtime_inv g → 0 ≤ capacity →
  ∃ k g', flush_scheduled_runtime net g clock elapsed capacity = Done (k, g') ∧ keeps g g' ∧ 0 ≤ k ≤ capacity.
Proof.
  intros Hg Hc. destruct (gi_scheduled _ Hg) as [n Hq]. unfold flush_scheduled_runtime, flush_scheduled_inner.
  set (attempts := Z.to_nat _).
  destruct (flush_loop_spec (forward_scheduled net g) clock elapsed attempts _ (g_udp_sessions g) _ Hq)
    as (k & q & t & E & Hq' & Hk & _).
  rewrite E. cbn [expect mbind outcome_bind]. eexists k, _. split_and!; [reflexivity| |lia..].
  assert (Hd : dom t ⊆ dom (g_udp_sessions g)).
  { refine (flush_loop_state _ clock elapsed (λ t, dom t ⊆ dom (g_udp_sessions g)) attempts _ _ _ _ _ _ _ E); [|done].
    intros w m Hw. unfold forward_scheduled.
    pose proof (send_application_dom (game_ready net g (sm_session m)) (g_maximum_envelope_len g)
      (net_send_business net (sm_session m)) w (sm_session m) (sm_payload m)
      (mkGameSendOptions (sm_sequence m) (sm_tick m) (sm_correlation_id m) (sm_priority m) None)).
    destruct (send_game_application _ _ _ _ _ _ _) as [r t']. cbn [snd] in *. by etrans. }
  etrans; [by eapply (keeps_scheduled g q)|]. intros Hg1. apply keeps_udp; [|exact Hg1].
  etrans; [exact Hd|apply Hg].
Qed.

Lemma flush_realtime_ok g capacity :
  runtime_inv g → 0 ≤ capacity →
  ∃ k g', flush_realtime_runtime net g capacity = Done (k, g') ∧ keeps g g' ∧ 0 ≤ k ≤ capacity.
Proof.
  intros Hg Hc. destruct (gi_realtime _ Hg) as [l Hl]. unfold flush_realtime_runtime.
  destruct (flush_realtime_spec (forward_latest net g) capacity _ (g_udp_sessions g) l Hl Hc)
    as (k & q & t & l' & E & Hl' & Hk).
  rewrite E. cbn [mbind outcome_bind]. eexists k, _. split_and!; [reflexivity| |lia..].
  assert (Hd : dom t ⊆ dom (g_udp_sessions g)).
  { refine (flush_realtime_state _ (λ t, dom t ⊆ dom (g_udp_sessions g)) _ _ _ _ _ _ _ _ E); [|done].
    intros w m Hw. unfold forward_latest, send_game_latest_application. case_decide; [|done].
    pose proof (send_application_dom (game_ready net g (rt_session m)) (g_maximum_envelope_len g)
      (net_send_business net (rt_session m)) w (rt_session m) (rt_payload m)
      (mkGameSendOptions None (rt_tick m) 0 GamePriority.Normal None)).
    destruct (send_game_application _ _ _ _ _ _ _) as [r t']. cbn [snd] in *. by etrans. }
  etrans; [by eapply (keeps_realtime g q)|]. intros Hg1. apply keeps_udp; [|exact Hg1].
  etrans; [exact Hd|apply Hg].
Qed.
End staging.

(** ** Publication *)

(** When the assertions of [queue_public] hold, the accounting does. *)
Lemma queue_public_keeps r e output capacity d r' output' :
  range_inv r → queue_public r e output capacity = Done (d, r', output') → range_inv r' ∧ framed r r'.
Proof.
  intros Hr E. destruct (decide (public_room r 1 (public_payload_bytes e))) as [Hroom|Hroom].
  - destruct (queue_public_ok r e output capacity 1 (public_payload_bytes e) Hr) as (d1 & r1 & o1 & E1 & Hr1 & Hf & _);
      [lia..|done|]. rewrite E in E1. by injection E1 as <- <- <-.
  - revert E. unfold queue_public. destruct (_ || _); cbn [mbind outcome_bind].
    + unfold debug_assert at 1. case_decide as H1; [|done]. cbn [mbind outcome_bind].
      destruct (sub _ _) as [room|] eqn:Hs; [|done]. apply sub_Done in Hs as [-> _]. cbn [mbind outcome_bind].
      unfold debug_assert. case_decide as H2; [|done]. exfalso. apply Hroom. split; lia.
    + destruct (drain_completed_ok r (output ++ [e]) capacity Hr) as (r1 & o1 & -> & Hr1 & Hf & _).
      cbn [mbind outcome_bind]. by intros [= _ <- _].
Qed.

Lemma framed_ok g r :
  runtime_inv g → range_inv r → framed (g_range g) r →
  runtime_inv (g <| g_range := r |>) ∧ ∀ old, quiet old g → quiet old (g <| g_range := r |>).
Proof.
  intros [[] ? ? ? ? ? ? ?] Hr (E & _). split.
  - constructor; try assumption. constructor; try assumption. change (dom (sessions r) ⊆ dom (g_session_endpoints g)).
    by rewrite E.
  - intros old []. constructor; try assumption; change (g_range (g <| g_range := r |>)) with r; by rewrite E.
Qed.

(** ** Endpoints *)

Lemma keeps_admission g a : ready a ⊆ ready (g_admission g) → keeps g (g <| g_admission := a |>).
Proof.
  intros Ha [[] ? ? ? ? ? ? ?].
  split_and!; [constructor; try assumption; constructor; try assumption; by etrans| |by apply trims_same].
  intros old []. constructor; try assumption. set_solver.
Qed.

Lemma listen_ok g protocol transport network : keeps g (listen g protocol transport network).2.
Proof.
  unfold listen. destruct (negb _); [done|]. destruct network as [ep|]; [|done]. cbn [snd].
  set (r := g_range g <| server_endpoints ::= <[ep := protocol]> |>).
  change (keeps g (g <| g_range := r |> <| g_endpoint_transports ::= <[ep := transport]> |>)).
  etrans; [|apply keeps_transports].
  intros Hg. apply (keeps_range_endpoints g r); [done| |by split_and!|exact Hg].
  destruct (gi_range _ Hg). by constructor.
Qed.

(** [g'] may let a client resume [o], and revives no other session. *)
Definition keeps_claim (o : option Handle) (g g' : GameRuntime) : Prop :=
  runtime_inv g → runtime_inv g' ∧ (∀ old, o ≠ Some old → quiet old g → quiet old g') ∧ trims ∅ g g'.

Lemma keeps_claims o g g' : keeps g g' → keeps_claim o g g'.
Proof. intros K Hg. destruct (K Hg) as (? & ? & ?). auto. Qed.

Lemma client_claim_ok g ep old :
  keeps_claim (Some old) g (g <| g_resume ::= λ st, st <| resume_client_endpoints ::= <[ep := old]> |> |>).
Proof.
  intros [[] ? ? ? ? ? ? ?]. split_and!; [constructor; try assumption; constructor; assumption| |by apply trims_same].
  intros o Hne []. constructor; try assumption. intros ep'.
  change (<[ep := old]> (resume_client_endpoints (g_resume g)) !! ep' ≠ Some o).
  intros [[_ <-]|[_ H]]%lookup_insert_Some; [done|by eapply qt_clients].
Qed.

Lemma connect_registered_ok g protocol transport nonce payload old network :
  keeps_claim old g (connect_registered g protocol transport nonce payload old network).2.
Proof.
  intros Hg. unfold connect_registered, connect_prepared.
  destruct (network payload) as [ep|]; [|by apply keeps_claims].
  destruct (keeps_transports g (<[ep := transport]>) Hg) as (Hg1 & Q1 & T1).
  set (g1 := g <| g_endpoint_transports ::= _ |>) in *.
  set (g2 := match old with Some o => _ | None => g1 end).
  assert (H2 : runtime_inv g2 ∧ (∀ o, old ≠ Some o → quiet o g1 → quiet o g2) ∧ trims ∅ g1 g2).
  { unfold g2. destruct old as [o|]; [by apply client_claim_ok|by split_and!]. }
  destruct H2 as (Hg2 & Q2 & T2). cbn [snd].
  set (r := g_range g2 <| client_endpoints ::= <[ep := mkClientPending protocol nonce]> |>).
  destruct (keeps_range_endpoints g2 r) as (Hg3 & Q3 & T3); [done| |by split_and!|done|].
  { destruct (gi_range _ Hg2). by constructor. }
  split_and!; [exact Hg3|intros o Ho Q; apply Q3, Q2, Q1; done|].
  etrans; [exact T1|]. etrans; [exact T2|exact T3].
Qed.

Lemma connect_ok g protocol transport ticket random network :
  keeps g (connect g protocol transport ticket random network).2.
Proof.
  unfold connect. destruct (negb _); [done|].
  destruct (mbind _ _) as [[nonce payload]|]; [|done].
  intros Hg. destruct (connect_registered_ok g protocol transport nonce payload None network Hg) as (H1 & H2 & H3).
  split_and!; [done| |done]. intros old. by apply H2.
Qed.

Lemma connect_resume_ok g protocol transport join_ticket old ticket random network :
  keeps_claim (Some old) g (connect_resume g protocol transport join_ticket old ticket random network).2.
Proof.
  unfold connect_resume. case_decide; [by apply keeps_claims|].
  destruct (mbind _ _) as [[nonce payload]|]; [apply connect_registered_ok|by apply keeps_claims].
Qed.

(** ** Shutdown and construction *)

Lemma range_clear_ok r : range_inv r → range_inv (range_clear r) ∧ shrinks r (range_clear r).
Proof.
  intros Hr. pose proof (sessions_costs r Hr) as [Hs1 Hs2]. destruct Hr as [H1 H2 H3 H4 H5 H6 H7 H8].
  pose proof (backlog_costs _ H6) as Hb. split.
  - constructor; cbn; rewrite ?sum_map_empty, ?sumZ_nil; try done; lia.
  - split_and!; cbn; try done; lia.
Qed.

Lemma clear_runtime_ok g : keeps g (clear_runtime g).
Proof.
  intros Hg. destruct (gi_realtime _ Hg) as [l Hl]. destruct (gi_scheduled _ Hg) as [n Hn].
  destruct (range_clear_ok _ (gi_range _ Hg)) as [Hr Hsh].
  destruct (registry_clear_spec _ (gi_tickets _ Hg)) as (Ht & He & _).
  set (g' := clear_runtime g).
  assert (Hrange : g_range g' = range_clear (g_range g)) by done.
  assert (Hresume : g_resume g' = mkResumeRuntimeState (registry_clear (tickets (g_resume g))) ∅ ∅ ∅ ∅ ∅
    (resume_ttl (g_resume g))) by done.
  split_and!.
  - constructor; rewrite ?Hrange, ?Hresume; try done.
    + exists (@nil PendingRealtime). exact (proj1 (latest_clear_spec _ _ Hl)).
    + exists n. exact (proj1 (clear_spec _ _ Hn)).
    + apply (gi_ttl _ Hg).
    + apply (gi_heartbeat _ Hg).
  - intros old []. constructor; rewrite ?Hrange, ?Hresume; done.
  - destruct Hsh as (S1 & S2 & S3 & S4). constructor; rewrite ?Hrange; try done.
Qed.

(** The types of the configuration's fields. *)
Definition runtime_config_typed (c : GameRuntimeConfig) : Prop :=
  0 ≤ cfg_event_queue_capacity c ≤ usize_max ∧ 0 ≤ cfg_max_event_bytes c ≤ usize_max ∧
  rt_config_typed (cfg_realtime_queue c) ∧ config_typed (cfg_scheduled_queue c) ∧ 0 ≤ cfg_resume_ticket_ttl c.

Lemma build_ok c network secret now g :
  build c network secret now = Ok g → runtime_config_typed c → runtime_inv g.
Proof.
  intros Hb (T1 & T2 & T3 & T4 & T5). unfold build in Hb. case_decide; [done|].
  destruct (tracker_new (cfg_heartbeat_interval c) (cfg_heartbeat_timeout c) now) as [t|] eqn:Ht; [|done].
  cbn [mbind result_bind] in Hb. destruct (negb _); [done|].
  destruct (latest_from_config _) as [rt|] eqn:Hrt; [|done]. cbn [mbind result_bind] in Hb.
  destruct (Scheduler.from_config _) as [sq|] eqn:Hsq; [|done]. cbn [mbind result_bind] in Hb.
  unfold resume_state_new in Hb. destruct (validate_ttl _); [|done]. cbn [mbind result_bind] in Hb.
  destruct (registry_new _ _) as [reg|] eqn:Hreg; [|done]. cbn [mbind result_bind] in Hb.
  destruct network; [|done]. cbn [mbind result_bind] in Hb. apply (inj Ok) in Hb. subst g.
  destruct (snapshots_start _ _ Hrt T3) as (l & Hl & _). destruct (from_config_inv _ _ Hsq T4) as (Hs & _).
  destruct (registry_new_indexed _ _ _ Hreg) as (Hi & He & _).
  constructor.
  - by constructor.
  - by apply with_buffer_limits_inv.
  - by exists l.
  - by exists 0.
  - exact Hi.
  - intros n e. cbn. by rewrite He, lookup_empty.
  - exact T5.
  - intros now'. cbn. revert Ht. unfold tracker_new. by case_decide.
Qed.

(** ** Every operation of the runtime *)

Section life.
Context (hmac : list byte → list byte) (instant_limit : Instant).

(** One operation: the handles it may bring into the game or let a client resume, the
    event it publishes, and the next state.  Each operation meets its own transport and
    clock. *)
Inductive game_step (g : GameRuntime) : gset Z → Result (option GameEvent) → GameRuntime → Prop :=
| step_event net now e res g' :
    fresh_event g e → convert_event hmac net now g e = Done (res, g') → game_step g (opened e) res g'
| step_publish e output capacity d r output' :
    queue_public (g_range g) e output capacity = Done (d, r, output') →
    game_step g ∅ (Ok None) (g <| g_range := r |>)
| step_drain output capacity r output' :
    drain_completed (g_range g) output capacity = Done (r, output') →
    game_step g ∅ (Ok None) (g <| g_range := r |>)
| step_negotiation net now g' :
    drive_range_negotiation net now g = Done g' → game_step g ∅ (Ok None) g'
| step_heartbeats net now rng : game_step g ∅ (Ok None) (drive_heartbeats_runtime net now g rng)
| step_clock net now rng t1 : game_step g ∅ (Ok None) (drive_clock_runtime net now g rng t1)
| step_reap net g' : reap_closed_endpoints net g = Done g' → game_step g ∅ (Ok None) g'
| step_decide net s accept res g' :
    auth_decide net g s accept = Done (res, g') → game_step g ∅ (Ok None) g'
| step_issue net now s identity random res g' :
    issue_resume_ticket hmac instant_limit net now g s identity random = Done (res, g') →
    game_step g ∅ (Ok None) g'
| step_close net s res g' : close_session net g s = Done (res, g') → game_step g ∅ (Ok None) g'
| step_close_endpoint net ep res g' :
    close_endpoint net g ep = Done (res, g') → game_step g ∅ (Ok None) g'
| step_send net now s payload options :
    admitted_total g < u64_max →
    game_step g ∅ (Ok None) (stage_send instant_limit net now g s payload options).2
| step_latest net s key payload tick res g' :
    stage_latest net g s key payload tick = Done (res, g') → game_step g ∅ (Ok None) g'
| step_flush_scheduled net clock elapsed capacity k g' :
    0 ≤ capacity → flush_scheduled_runtime net g clock elapsed capacity = Done (k, g') →
    game_step g ∅ (Ok None) g'
| step_flush_realtime net capacity k g' :
    0 ≤ capacity → flush_realtime_runtime net g capacity = Done (k, g') → game_step g ∅ (Ok None) g'
| step_listen protocol transport network :
    game_step g ∅ (Ok None) (listen g protocol transport network).2
| step_connect protocol transport ticket random network :
    game_step g ∅ (Ok None) (connect g protocol transport ticket random network).2
| step_connect_resume protocol transport join_ticket old ticket random network :
    game_step g {[old]} (Ok None) (connect_resume g protocol transport join_ticket old ticket random network).2
| step_begin_stop : game_step g ∅ (Ok None) (g <| g_admission ::= begin_stop |>)
| step_stop : game_step g ∅ (Ok None) (clear_runtime g).

(** States of a runtime that was built from a typed configuration. *)
Inductive reachable : GameRuntime → Prop :=
| reachable_build c network secret now g :
    build c network secret now = Ok g → runtime_config_typed c → reachable g
| reachable_step g X res g' : reachable g → game_step g X res g' → reachable g'.

Lemma keeps_step g (X : gset Z) res g' :
  runtime_inv g → keeps g g' → (∀ old, ¬ resumes old res) →
  runtime_inv g' ∧ ∀ old, old ∉ X → quiet old g → quiet old g' ∧ ¬ resumes old res.
Proof. intros Hg K H. destruct (K Hg) as (Hg' & Q & _). auto. Qed.

Lemma game_step_ok g X res g' :
  runtime_inv g → game_step g X res g' →
  runtime_inv g' ∧ ∀ old, old ∉ X → quiet old g → quiet old g' ∧ ¬ resumes old res.
Proof.
  intros Hg H. assert (Hno : ∀ old, ¬ resumes old (Ok None)) by (by intros old []). destruct H.
  - destruct (convert_event_ok hmac instant_limit net now g e Hg H) as (r & g1 & E & Hg1 & Q & _). rewrite H0 in E.
    injection E as <- <-. split; [done|]. intros old Ho. apply Q. intros [Hty <-]. apply Ho.
    unfold opened. rewrite decide_True by done. set_solver.
  - destruct (queue_public_keeps _ _ _ _ _ _ _ (gi_range _ Hg) H) as [Hr Hf].
    destruct (framed_ok g r Hg Hr Hf). auto.
  - destruct (drain_completed_ok (g_range g) output capacity (gi_range _ Hg)) as (r1 & o1 & E & Hr & Hf & _).
    rewrite H in E. injection E as <- <-. destruct (framed_ok g r Hg Hr Hf). auto.
  - destruct (drive_range_negotiation_ok net now g Hg) as (g1 & E & K). rewrite H in E. injection E as <-.
    by apply keeps_step.
  - apply keeps_step; [done|apply drive_heartbeats_ok|done].
  - apply keeps_step; [done|apply drive_clock_ok|done].
  - destruct (reap_ok net g Hg) as (g1 & E & K). rewrite H in E. injection E as <-. by apply keeps_step.
  - destruct (auth_decide_ok net g s accept Hg) as (r & g1 & E & K). rewrite H in E. injection E as <- <-.
    by apply keeps_step.
  - destruct (issue_resume_ticket_ok hmac instant_limit net now g s identity random Hg) as (r & g1 & E & K).
    rewrite H in E. injection E as <- <-. by apply keeps_step.
  - destruct (close_session_ok net g s Hg) as (r & g1 & E & K & _). rewrite H in E. injection E as <- <-.
    by apply keeps_step.
  - destruct (close_endpoint_ok net g ep Hg) as (r & g1 & E & K). rewrite H in E. injection E as <- <-.
    by apply keeps_step.
  - apply keeps_step; [done|by apply stage_send_ok|done].
  - destruct (stage_latest_ok net g s key payload tick Hg) as (r & g1 & E & K). rewrite H in E.
    injection E as <- <-. by apply keeps_step.
  - destruct (flush_scheduled_ok net g clock elapsed capacity Hg H) as (r & g1 & E & K & _). rewrite H0 in E.
    injection E as <- <-. by apply keeps_step.
  - destruct (flush_realtime_ok net g capacity Hg H) as (r & g1 & E & K & _). rewrite H0 in E.
    injection E as <- <-. by apply keeps_step.
  - apply keeps_step; [done|apply listen_ok|done].
  - apply keeps_step; [done|apply connect_ok|done].
  - destruct (connect_resume_ok g protocol transport join_ticket old ticket random network Hg) as (Hg' & Q & _).
    split; [done|]. intros o Ho Qo. split; [|done]. apply Q; [|done]. intros [= ->]. set_solver.
  - apply keeps_step; [done|by apply keeps_admission|done].
  - apply keeps_step; [done|apply clear_runtime_ok|done].
Qed.

Lemma reachable_inv g : reachable g → runtime_inv g.
Proof. induction 1; [by eapply build_ok|]. by eapply game_step_ok. Qed.

(** A run after some point, with what was brought into the game and what was published. *)
Inductive game_run : GameRuntime → gset Z → list (Result (option GameEvent)) → GameRuntime → Prop :=
| run_done g : game_run g ∅ [] g
| run_more g1 X res g2 Y outs g3 :
    game_step g1 X res g2 → game_run g2 Y outs g3 → game_run g1 (X ∪ Y) (res :: outs) g3.

Lemma game_run_quiet g X outs g' old :
  game_run g X outs g' → runtime_inv g → quiet old g → old ∉ X → Forall (λ res, ¬ resumes old res) outs.
Proof.
  induction 1 as [|g1 X res g2 Y outs g3 Hs _ IH]; intros Hg Q Ho; [constructor|].
  destruct (game_step_ok _ _ _ _ Hg Hs) as [Hg2 H]. destruct (H old) as [Q2 Hr]; [set_solver|done|].
  constructor; [done|]. apply IH; [done|done|set_solver].
Qed.

(** C23: a session that the server closed is never resumed.  In any reachable state, once
    [close_session old] succeeded no later sequence of operations, events, ticket issues and
    joins publishes a [SessionResumed] that replaces [old], as long as the transport does
    not report the handle again and no local client joins to resume it. *)
Theorem closed_session_never_resumed net g old g1 X outs g2 :
  reachable g → close_session net g old = Done (Ok tt, g1) →
  (∀ ep, resume_client_endpoints (g_resume g) !! ep ≠ Some old) →
  (∀ n x, sessions (g_range g) !! n = Some x → rs_old_session x = Some old →
     rs_server_resume x = true ∧ Phase.is_server (rs_phase x) = true) →
  game_run g1 X outs g2 → old ∉ X → Forall (λ res, ¬ resumes old res) outs.
Proof.
  intros Hg%reachable_inv Hc H1 H2 Hrun Ho.
  destruct (close_session_ok net g old Hg) as (r & g' & E & K & Q). rewrite Hc in E. injection E as <- <-.
  eapply game_run_quiet; [exact Hrun|by apply K|by apply Q|done].
Qed.

(** C22: no operation of the game runtime panics.  In every reachable state, whatever the
    transport answers: every network event, timer, application call and flush returns,
    with the internal tables agreeing (each tracked, ready, negotiating or resuming session
    is owned by an endpoint). *)
Theorem game_runtime_total net now g :
  reachable g →
  owned g ∧
  (∀ e, fresh_event g e → convert_event hmac net now g e ≠ Panic) ∧
  drive_range_negotiation net now g ≠ Panic ∧ reap_closed_endpoints net g ≠ Panic ∧
  (∀ s accept, auth_decide net g s accept ≠ Panic) ∧
  (∀ s identity random, issue_resume_ticket hmac instant_limit net now g s identity random ≠ Panic) ∧
  (∀ s, close_session net g s ≠ Panic) ∧ (∀ ep, close_endpoint net g ep ≠ Panic) ∧
  (∀ s key payload tick, stage_latest net g s key payload tick ≠ Panic) ∧
  (∀ clock elapsed capacity, 0 ≤ capacity → flush_scheduled_runtime net g clock elapsed capacity ≠ Panic) ∧
  (∀ capacity, 0 ≤ capacity → flush_realtime_runtime net g capacity ≠ Panic).
Proof.
  intros Hg%reachable_inv. split_and!; [apply Hg|..].
  - intros e He. destruct (convert_event_ok hmac instant_limit net now g e Hg He) as (? & ? & -> & _). done.
  - destruct (drive_range_negotiation_ok net now g Hg) as (? & -> & _). done.
  - destruct (reap_ok net g Hg) as (? & -> & _). done.
  - intros s a. destruct (auth_decide_ok net g s a Hg) as (? & ? & -> & _). done.
  - intros s i r. destruct (issue_resume_ticket_ok hmac instant_limit net now g s i r Hg) as (? & ? & -> & _). done.
  - intros s. destruct (close_session_ok net g s Hg) as (? & ? & -> & _). done.
  - intros ep. destruct (close_endpoint_ok net g ep Hg) as (? & ? & -> & _). done.
  - intros s k p t. destruct (stage_latest_ok net g s k p t Hg) as (? & ? & -> & _). done.
  - intros c e n Hn. destruct (flush_scheduled_ok net g c e n Hg Hn) as (? & ? & -> & _). done.
  - intros n Hn. destruct (flush_realtime_ok net g n Hg Hn) as (? & ? & -> & _). done.
Qed.

(** closing an endpoint leaves nothing of it behind.  In every reachable state,
    forgetting an endpoint returns a state that owns none of its sessions, where every
    per-session table only knows sessions of other endpoints, and with no registration,
    pending client join or resume ticket of the endpoint. *)
Theorem endpoint_close_complete g ep :
  reachable g →
  ∃ g', forget_endpoint_state g ep = Done g' ∧
    (∀ s, s ∈ dom (trackers (g_heartbeat g')) ∪ dom (cr_trackers (g_clock g')) ∪ dom (g_udp_sessions g') ∪
               ready (g_admission g') ∪ dom (sessions (g_range g')) ∪ dom (server_sessions (g_resume g')) ∪
               dom (pending_server (g_resume g')) →
       ∃ other, g_session_endpoints g !! s = Some other ∧ other ≠ ep) ∧
    g_endpoint_transports g' !! ep = None ∧ server_endpoints (g_range g') !! ep = None ∧
    client_endpoints (g_range g') !! ep = None ∧ resume_client_endpoints (g_resume g') !! ep = None ∧
    ∀ n e, entries (tickets (g_resume g')) !! n = Some e → te_endpoint e ≠ ep.
Proof.
  intros Hg%reachable_inv.
  destruct (forget_endpoint_state_ok g ep Hg) as (g' & E & K & Hno & Hsub & H1 & H2 & H3 & H4 & H5).
  exists g'. split_and!; [done| |done..]. intros s Hs.
  assert (Ho : s ∈ dom (g_session_endpoints g')).
  { destruct (gi_owned _ (proj1 (K Hg))) as [O1 O2 O3 O4 O5 O6 O7 _ _]. set_solver. }
  apply elem_of_dom in Ho as [other Ho]. exists other. split; [by eapply lookup_weaken|].
  intros ->. by eapply Hno.
Qed.

(** Publication of a candidate that is not the one in flight. *)
Lemma publish_mismatch net g ep s old :
  runtime_inv g → net_live net s = true → inflight_server (g_resume g) !! old ≠ Some s →
  ∃ g', publish_range_ready net g ep s (Some old) true = Done (Ok None, g') ∧ runtime_inv g' ∧
    inflight_server (g_resume g') !! old = None ∧ s ∉ ready (g_admission g').
Proof.
  intros Hg Hlive Hne. unfold publish_range_ready. rewrite Hlive. cbn [negb]. rewrite decide_True by (by right).
  set (g1 := g <| g_resume ::= _ |>).
  assert (K : keeps g g1) by (apply (keeps_landed g _ old); reflexivity).
  destruct (close_and_forget_ok g1 s ErrorCode.Cancelled (proj1 (K Hg))) as (g' & -> & F & K').
  cbn [mbind outcome_bind]. exists g'. split_and!; [done|by apply K', K| |].
  - rewrite (fg_resume _ _ _ F). apply eq_None_not_Some. intros [new [H _]%forget_resume_inflight].
    change (delete old (inflight_server (g_resume g)) !! old = Some new) in H. by rewrite lookup_delete_eq in H.
  - rewrite (fg_admission _ _ _ F). cbn. set_solver.
Qed.

(** a superseded resume candidate takes its successor down.  When a second candidate [b]
    for the same session is in flight, completing the negotiation of the first one, [a],
    closes [a] and also drops the entry that stands for [b]: completing [b] afterwards closes
    it too, and neither becomes ready. *)
Theorem superseded_candidate_cancels_successor net net' g ep ep' a b old :
  reachable g → inflight_server (g_resume g) !! old = Some b → a ≠ b →
  net_live net a = true → net_live net' b = true →
  ∃ g1 g2, publish_range_ready net g ep a (Some old) true = Done (Ok None, g1) ∧
    publish_range_ready net' g1 ep' b (Some old) true = Done (Ok None, g2) ∧
    (a ∉ ready (g_admission g1)) ∧ (b ∉ ready (g_admission g2)).
Proof.
  intros Hg%reachable_inv Hb Hne La Lb.
  destruct (publish_mismatch net g ep a old Hg La) as (g1 & E1 & Hg1 & Hi & Ha); [congruence|].
  destruct (publish_mismatch net' g1 ep' b old Hg1 Lb) as (g2 & E2 & _ & _ & Hb2); [congruence|].
  exists g1, g2. auto.
Qed.
End life.

(** The value of a result that is known to be one. *)
Definition unwrap {A} (r : Result A) : is_ok r = true → A :=
  match r with
  | Ok x => λ _, x
  | Err _ => λ H, False_rect _ (diff_false_true H)
  end.
Lemma unwrap_Ok {A} (r : Result A) H : r = Ok (unwrap r H).
Proof. by destruct r. Qed.

(** ** An example: a server session, resumed twice at once *)

Module Demo.

Definition config : GameRuntimeConfig :=
  mkGameRuntimeConfig 65536 64 65536 (millis 1000) (millis 3000) policy_default realtime_config_default
    scheduled_config_default (millis 60000) 16.
(** A transport that accepts everything. *)
Definition net : Network :=
  mkNetwork (λ _ _, Ok tt) (λ _, true) 1 (λ _ _, Ok tt) (λ _ _, Ok tt) (λ _ _ _, Ok tt) (λ _ _, Ok tt)
    (λ _ _, Ok tt) (λ _, Ok tt) (λ _, Ok None).
Definition protocol : GameProtocol := game_protocol_new 7 1 3.
Definition nonce : list byte := replicate 16 Byte.x05.
Definition client_key : list byte := replicate 32 Byte.x09.
Definition limit : Instant := 10 ^ 18.

Lemma builds : is_ok (build config (Ok tt) (Some []) 0) = true.
Proof. vm_compute. reflexivity. Defined.
Definition start : GameRuntime := unwrap _ builds.
Definition listening : GameRuntime := (listen start protocol Transport.Tcp (Ok 1)).2.

Definition after (g : GameRuntime) (e : Event) : GameRuntime :=
  match convert_event demo_hmac net 0 g e with Done (_, g') => g' | Panic => g end.
Definition issued (g : GameRuntime) (s : Handle) (b : byte) : GameRuntime :=
  match issue_resume_ticket demo_hmac limit net 0 g s [Byte.x01] (λ _, Some (replicate 16 b)) with
  | Done (_, g') => g'
  | Panic => g
  end.

Definition event (ty : EventType.t) (s : Handle) (d : list byte) : Event := mkEvent ty 1 s 0 ErrorCode.Ok d true 0.
Definition encoded (r : Result (list byte)) : list byte := match r with Ok l => l | Err _ => [] end.
Definition join (s : Handle) : Event :=
  event EventType.AuthRequest s (client_key ++ encoded (Join.encode_range protocol nonce [] 1024)).
Definition rejoin (s : Handle) (b : byte) : Event :=
  event EventType.AuthRequest s
    (client_key ++
     encoded (Join.encode_range_resume protocol nonce [] (ticket_for demo_hmac (replicate 16 b)) 1024)).
Definition ack (g : GameRuntime) (s : Handle) : Event :=
  event EventType.GameControl s
    (from_option (λ x, encoded (Envelope.encode_control Envelope.Protocol (control x ACK) 1024)) []
       (sessions (g_range g) !! s)).

Definition joined : GameRuntime := after (after listening (join 10)) (event EventType.SessionOpened 10 []).
Definition ready10 : GameRuntime := after joined (ack joined 10).
Definition first_candidate : GameRuntime :=
  after (after (issued ready10 10 Byte.x07) (rejoin 20 Byte.x07)) (event EventType.SessionOpened 20 []).
Definition both_candidates : GameRuntime :=
  after (after (issued first_candidate 10 Byte.x08) (rejoin 30 Byte.x08)) (event EventType.SessionOpened 30 []).

(** The session is closed while its ticket is out: a join with that ticket is rejected. *)
Definition closed : GameRuntime :=
  match close_session net (issued ready10 10 Byte.x07) 10 with
  | Done (_, g) => g
  | Panic => ready10
  end.

Abbreviation demo_reachable := (reachable demo_hmac limit).

Lemma after_reachable g e : demo_reachable g → fresh_event g e → demo_reachable (after g e).
Proof.
  intros Hg He. unfold after. destruct (convert_event demo_hmac net 0 g e) as [[res g']|] eqn:E; [|done].
  by eapply reachable_step, step_event.
Qed.
Lemma issued_reachable g s b : demo_reachable g → demo_reachable (issued g s b).
Proof.
  intros Hg. unfold issued. destruct (issue_resume_ticket _ _ _ _ _ _ _ _) as [[res g']|] eqn:E; [|done].
  by eapply reachable_step, step_issue.
Qed.
Lemma listening_reachable : demo_reachable listening.
Proof.
  eapply reachable_step; [|apply step_listen]. eapply (reachable_build _ _ config (Ok tt) (Some []) 0).
  - apply unwrap_Ok.
  - repeat split; vm_compute; discriminate.
Qed.
Lemma ready10_reachable : demo_reachable ready10.
Proof.
  apply after_reachable; [|done]. apply after_reachable; [|done].
  apply after_reachable; [apply listening_reachable|]. intros _. vm_compute. reflexivity.
Qed.
Lemma both_candidates_reachable : demo_reachable both_candidates.
Proof.
  assert (H : demo_reachable first_candidate).
  { apply after_reachable; [|done]. apply after_reachable; [apply issued_reachable, ready10_reachable|].
    intros _. vm_compute. reflexivity. }
  apply after_reachable; [|done]. apply after_reachable; [by apply issued_reachable|].
  intros _. vm_compute. reflexivity.
Qed.
End Demo.

Lemma superseded_candidate_cancels_successor_witness :
  ∃ g1 g2, publish_range_ready Demo.net Demo.both_candidates 1 20 (Some 10) true = Done (Ok None, g1) ∧
    publish_range_ready Demo.net g1 1 30 (Some 10) true = Done (Ok None, g2) ∧
    (20 ∉ ready (g_admission g1)) ∧ (30 ∉ ready (g_admission g2)).
Proof.
  apply (superseded_candidate_cancels_successor demo_hmac Demo.limit Demo.net Demo.net Demo.both_candidates 1 1 20 30 10).
  - apply Demo.both_candidates_reachable.
  - vm_compute. reflexivity.
  - done.
  - done.
  - done.
Defined.

Lemma game_runtime_total_witness :
  owned Demo.both_candidates ∧ ∀ s, close_session Demo.net Demo.both_candidates s ≠ Panic.
Proof.
  destruct (game_runtime_total demo_hmac Demo.limit Demo.net 0 _ Demo.both_candidates_reachable)
    as (H1 & _ & _ & _ & _ & _ & H2 & _). exact (conj H1 H2).
Defined.

Lemma endpoint_close_complete_witness :
  ∃ g', forget_endpoint_state Demo.both_candidates 1 = Done g' ∧ g_endpoint_transports g' !! 1 = None.
Proof.
  destruct (endpoint_close_complete demo_hmac Demo.limit _ 1 Demo.both_candidates_reachable)
    as (g' & E & _ & H & _). exact (ex_intro _ g' (conj E H)).
Defined.

Lemma closed_session_never_resumed_witness :
  close_session Demo.net (Demo.issued Demo.ready10 10 Byte.x07) 10 = Done (Ok tt, Demo.closed) ∧
  ∃ res g', convert_event demo_hmac Demo.net 0 Demo.closed (Demo.rejoin 20 Byte.x07) = Done (res, g') ∧
    Forall (λ res, ¬ resumes 10 res) [res].
Proof.
  assert (Hc : close_session Demo.net (Demo.issued Demo.ready10 10 Byte.x07) 10 = Done (Ok tt, Demo.closed)).
  { unfold Demo.closed. vm_compute. reflexivity. }
  split; [exact Hc|].
  assert (Hf : fresh_event Demo.closed (Demo.rejoin 20 Byte.x07)) by (intros _; vm_compute; reflexivity).
  destruct (convert_event demo_hmac Demo.net 0 Demo.closed (Demo.rejoin 20 Byte.x07)) as [[res g']|] eqn:E;
    [|exfalso; vm_compute in E; discriminate].
  exists res, g'. split; [reflexivity|].
  apply (closed_session_never_resumed demo_hmac Demo.limit Demo.net (Demo.issued Demo.ready10 10 Byte.x07) 10 Demo.closed
    (opened (Demo.rejoin 20 Byte.x07) ∪ ∅) [res] g').
  - apply Demo.issued_reachable, Demo.ready10_reachable.
  - exact Hc.
  - intros ep. vm_compute. discriminate.
  - intros n x Hx Ho. exfalso.
    assert (H : map_Forall (λ (_ : Z) x, rs_old_session x = None)
      (sessions (g_range (Demo.issued Demo.ready10 10 Byte.x07))))
      by (apply (bool_decide_unpack _); vm_compute; exact I).
    apply H in Hx. congruence.
  - eapply run_more; [eapply step_event; [exact Hf|exact E]|constructor].
  - apply (bool_decide_unpack _). vm_compute. exact I.
Defined.
