(* ===== verification/TcpPair.v ===== *)
(** * Two TCP sessions back to back

    A server session and a client session of [TcpSession] over the two byte streams
    of a connection, with application sends, security commands, automatic rekeys and
    record deliveries in any order.  The invariant follows a transition through its
    phases and ties the cipher halves to the records in flight. *)

From S2P Require Import Prelude Bytes CoreTypes Wire Framing Control Security Transition TcpSession.

(** ** Transitions, uniformly *)

Inductive op := OpSwitch (m : SecurityMode.t) | OpRekey.

Definition ctl_propose (p : op) (e : Z) : Control :=
  match p with
  | OpSwitch m => control_switch ControlKind.SwitchPropose e m
  | OpRekey => control_barrier ControlKind.RekeyPropose e
  end.
Definition ctl_ready (p : op) (e : Z) : Control :=
  control_barrier (match p with OpSwitch _ => ControlKind.SwitchReady
                              | OpRekey => ControlKind.RekeyReady end) e.
Definition ctl_commit (p : op) (e : Z) : Control :=
  control_barrier (match p with OpSwitch _ => ControlKind.SwitchCommit
                              | OpRekey => ControlKind.RekeyCommit end) e.
Definition ctl_ack (p : op) (e : Z) : Control :=
  control_barrier (match p with OpSwitch _ => ControlKind.SwitchAck
                              | OpRekey => ControlKind.RekeyAck end) e.

Definition srv_ready (p : op) (e : Z) : Pending :=
  match p with OpSwitch m => ServerSwitchReady e m | OpRekey => ServerRekeyReady e end.
Definition srv_ack (p : op) (e : Z) : Pending :=
  match p with OpSwitch m => ServerSwitchAck e m | OpRekey => ServerRekeyAck e end.
Definition cli_commit (p : op) (e : Z) : Pending :=
  match p with OpSwitch m => ClientSwitchCommit e m | OpRekey => ClientRekeyCommit e end.

Definition op_mode (p : op) (m : SecurityMode.t) : SecurityMode.t :=
  match p with OpSwitch m' => m' | OpRekey => m end.
Definition op_rekeys (p : op) : bool :=
  match p with OpSwitch _ => false | OpRekey => true end.
Definition op_effect (p : op) : Effect.t := if op_rekeys p then Effect.Rekey else Effect.None_.

Abbreviation Srv := (mkController Role.Server).
Abbreviation Cli := (mkController Role.Client).

Lemma handle_propose p m e :
  e < u64_max →
  handle (Cli m e None) (ctl_propose p (e + 1))
  = Ok (transition_response (ctl_ready p (e + 1)), Cli m e (Some (cli_commit p (e + 1)))).
Proof.
  intros He. assert (validate_next_epoch (Cli m e None) (e + 1) = Ok tt) as Hv
    by by apply validate_next_epoch_Ok.
  destruct p; unfold handle; cbn -[validate_next_epoch]; by rewrite Hv.
Qed.

Lemma handle_ready p m e e' :
  handle (Srv m e (Some (srv_ready p e'))) (ctl_ready p e')
  = Ok (mkTransition Effect.None_ (Some (ctl_commit p e')) (op_effect p),
        Srv m e (Some (srv_ack p e'))).
Proof. destruct p; unfold handle; cbn; by rewrite decide_True. Qed.

Lemma handle_commit p m e e' :
  ∃ eff, handle (Cli m e (Some (cli_commit p e'))) (ctl_commit p e')
  = Ok (mkTransition eff (Some (ctl_ack p e')) Effect.None_, Cli (op_mode p m) e' None) ∧
  (eff = Effect.Rekey ↔ op_rekeys p = true).
Proof. destruct p; unfold handle; cbn; rewrite decide_True by done; eexists; by split. Qed.

Lemma handle_ack p m e e' :
  ∃ eff, handle (Srv m e (Some (srv_ack p e'))) (ctl_ack p e')
  = Ok (mkTransition eff None Effect.None_, Srv (op_mode p m) e' None) ∧ eff ≠ Effect.Rekey.
Proof. destruct p; unfold handle; cbn; rewrite decide_True by done; eexists; by split. Qed.

Lemma ctl_wf p e :
  0 < e ≤ u64_max →
  control_wf (ctl_propose p e) ∧ control_wf (ctl_ready p e) ∧
  control_wf (ctl_commit p e) ∧ control_wf (ctl_ack p e).
Proof.
  intros [??]. unfold control_wf, is_Some. destruct p; cbn; naive_solver.
Qed.

(** ** Records in flight *)

Section pair.
Context `{OrderedCipher} (paired : oc_out → oc_in → Prop) `{!OrderedCipherLaws paired}.
Context (M : Z).
Hypothesis HM : 1 ≤ M ≤ u32_max - 200.

#[local] Abbreviation MP := (M + 20 + 64).

Inductive item :=
| Plain (e : Z) (bytes : list byte)
| Prot (e : Z) (kind : ProtectedKind.t) (payload : list byte).

Definition item_ctl (e : Z) (c : Control) : item := Prot e ProtectedKind.Control (encode_control c).

(** The receiver rotates its incoming key right after reading a rekey commit. *)
Definition item_rekeys (it : item) : bool :=
  match it with
  | Prot _ ProtectedKind.Control payload =>
    match decode_control payload with
    | Ok c => bool_decide (ct_kind c = ControlKind.RekeyCommit)
    | Err _ => false
    end
  | _ => false
  end.

#[local] Arguments item_rekeys : simpl never.

Definition item_epoch (it : item) : Z := match it with Plain e _ | Prot e _ _ => e end.

(** The cipher half [i] reads item [it] from the bytes [w] and becomes [i']. *)
Definition reads (i : oc_in) (it : item) (w : list byte) (i' : oc_in) : Prop :=
  match it with
  | Plain e bytes => write_wire (mkRecord RecordKind.PlainData e bytes) MP = Ok w ∧ i' = i
  | Prot e kind payload => ∃ inner c i1,
      encode_protected (mkProtectedMessage kind payload) MP = Ok inner ∧
      write_wire (mkRecord RecordKind.Protected e c) (MP + 64) = Ok w ∧
      oc_read i c = Some (inner, i1) ∧ i' = if item_rekeys it then oc_rekey_in i1 else i1
  end.

(** The bytes of a stream between a reader's half and a writer's half. *)
Inductive flow : oc_in → list item → list byte → oc_out → Prop :=
| flow_nil i o : paired o i → flow i [] [] o
| flow_cons i it w i' items stream o :
    reads i it w i' → in_u64 (item_epoch it) → flow i' items stream o →
    flow i (it :: items) (w ++ stream) o.

Lemma flow_snoc i items stream o o' it w :
  flow i items stream o → in_u64 (item_epoch it) →
  (∀ i, paired o i → ∃ i', reads i it w i' ∧ paired o' i') →
  flow i (items ++ [it]) (stream ++ w) o'.
Proof.
  intros Hf Hep Hw. induction Hf as [i o Hp|i it' w' i' items stream o Hr Hep' _ IH]; cbn.
  - destruct (Hw i Hp) as (i' & Hr & Hp'). rewrite <- (app_nil_r w).
    econstructor; [done|done|by constructor].
  - rewrite <- app_assoc. econstructor; [done|done|by apply IH].
Qed.

Lemma flow_plain i items stream o e bytes w :
  flow i items stream o → in_u64 e →
  write_wire (mkRecord RecordKind.PlainData e bytes) MP = Ok w →
  flow i (items ++ [Plain e bytes]) (stream ++ w) o.
Proof.
  intros Hf He Hw. apply (flow_snoc _ _ _ o); [done|exact He|].
  intros i' Hp. exists i'. by split.
Qed.

(** Writing a protected record, with the key rotation that follows a commit. *)
Lemma flow_protected i items stream t e kind payload w t' :
  flow i items stream (Ordered.st_out t) → in_u64 e →
  write_protected t e kind payload MP = Ok (w, t') →
  let it := Prot e kind payload in
  flow i (items ++ [it]) (stream ++ w)
    (if item_rekeys it then oc_rekey_out (Ordered.st_out t') else Ordered.st_out t') ∧
  Ordered.st_in t' = Ordered.st_in t.
Proof.
  intros Hf He Hw it. unfold write_protected in Hw.
  destruct (encode_protected _ _) as [inner|] eqn:Hi; [|done]. cbn in Hw.
  unfold Ordered.encrypt in Hw. destruct (oc_write _ _) as [[c o']|] eqn:Hc; [|done]. cbn in Hw.
  destruct (write_wire _ _) as [w'|] eqn:Hww; [|done]. cbn in Hw. simplify_eq. cbn. split; [|done].
  apply (flow_snoc _ _ _ (Ordered.st_out t)); [done|done|]. intros i' Hp.
  destruct (oc_read_write _ _ _ _ _ Hp Hc) as (i'' & Hread & Hp').
  exists (if item_rekeys it then oc_rekey_in i'' else i'').
  split; [exists inner, c, i''; eauto|]. destruct (item_rekeys it); [|done].
  by apply oc_rekey_paired.
Qed.

(** ** Receiving the first record of a stream *)

(** The reader takes the record, and the record decodes to what was written. *)
Lemma write_wire_read r max w rest :
  in_u64 (rec_epoch r) → max ≤ MP + 64 → write_wire r max = Ok w →
  ∃ enc, reader_step (MP + 84) (w ++ rest) = Ok (Some (enc, rest)) ∧
    decode_record enc (MP + 64) = Ok r.
Proof.
  intros He Hmax Hw. unfold write_wire in Hw.
  destruct (encode_record r max) as [enc|] eqn:Henc; [|done]. cbn in Hw.
  apply encode_record_Ok in Henc as (Hl & Hu & Henc).
  unfold write_framed in Hw. case_decide; [done|]. apply (inj Ok) in Hw as <-. subst enc.
  assert (len (record_bytes r) = 20 + len (rec_payload r)) as Hlen.
  { unfold record_bytes. autorewrite with rnet. lia. }
  pose proof (len_nonneg (rec_payload r)). exists (record_bytes r). split.
  - rewrite <- app_assoc. apply reader_step_bytes; lia.
  - apply decode_record_Ok. split_and!; [done|lia|done|done].
Qed.

(** The message the record carries, and the half that read it. *)
Definition item_record (it : item) (r : SecurityRecord) : Prop :=
  rec_epoch r = item_epoch it ∧
  match it with
  | Plain _ bytes => rec_kind r = RecordKind.PlainData ∧ rec_payload r = bytes
  | Prot _ _ _ => rec_kind r = RecordKind.Protected
  end.

Lemma flow_head i it items stream o :
  flow i (it :: items) stream o →
  ∃ enc rest r i1 i', reader_step (MP + 84) stream = Ok (Some (enc, rest)) ∧
    decode_record enc (MP + 64) = Ok r ∧ item_record it r ∧ flow i' items rest o ∧
    in_u64 (item_epoch it) ∧
    (i' = if item_rekeys it then oc_rekey_in i1 else i1) ∧
    match it with
    | Plain _ _ => i1 = i
    | Prot _ kind payload =>
      ∀ oo, decrypt_protected (Ordered.mkSecureTransport oo i) r MP
            = Ok (mkProtectedMessage kind payload, Ordered.mkSecureTransport oo i1)
    end.
Proof.
  inversion 1 as [|i0 it0 w i' items0 rest o0 Hr Hep Hf]; subst.
  destruct it as [e bytes|e kind payload]; cbn in Hr, Hep.
  - destruct Hr as [Hw ->].
    destruct (write_wire_read (mkRecord RecordKind.PlainData e bytes) MP w rest)
      as (enc & ? & ?); [done|lia|done|]. exists enc, rest. do 3 eexists.
    split_and!; [done|done|by split|done|done| |]; done.
  - destruct Hr as (inner & c & i1 & Hin & Hw & Hread & ->).
    destruct (write_wire_read (mkRecord RecordKind.Protected e c) (MP + 64) w rest)
      as (enc & ? & ?); [done|lia|done|].
    exists enc, rest, (mkRecord RecordKind.Protected e c), i1. eexists.
    split_and!; [done|done|by split|done|done|done|]. intros oo. unfold decrypt_protected.
    rewrite decide_False by auto. unfold Ordered.decrypt. cbn. rewrite Hread. cbn.
    assert (decode_protected inner MP = Ok (mkProtectedMessage kind payload)) as ->; [|done].
    apply decode_protected_Ok. by apply encode_protected_Ok in Hin.
Qed.

Lemma flow_empty i stream o : flow i [] stream o → stream = [] ∧ paired o i.
Proof. by inversion 1. Qed.

(** ** Application messages *)

Inductive app_message :=
| AppData (correlation_id : Z) (payload : list byte)
| AppControl (payload : list byte).

Definition app_of_event (ev : Event) : option app_message :=
  match event_type ev with
  | EventType.Message => Some (AppData (correlation_id ev) (data ev))
  | EventType.GameControl => Some (AppControl (data ev))
  | _ => None
  end.

(** What the send calls hand to a session for a message. *)
Definition app_outbound (m : app_message) : OutboundKind * list byte :=
  match m with
  | AppData cid payload =>
    (OutData, frame_bytes (mkFrame (mkFrameHeader VERSION 0 (len payload) cid) payload))
  | AppControl payload => (OutGameControl, payload)
  end.

Definition app_ok (m : app_message) : Prop :=
  match m with
  | AppData cid payload => in_u64 cid ∧ len payload ≤ M
  | AppControl payload => len payload ≤ M
  end.

(** The record that carries a message in a given epoch and mode. *)
Definition app_item (e : Z) (m : SecurityMode.t) (a : app_message) : item :=
  let '(kind, bytes) := app_outbound a in
  match kind, m with
  | OutGameControl, _ => Prot e ProtectedKind.GameControl bytes
  | OutData, SecurityMode.Encrypted => Prot e ProtectedKind.Data bytes
  | OutData, SecurityMode.Plaintext => Plain e bytes
  end.

Lemma app_item_facts e m a :
  item_epoch (app_item e m a) = e ∧ item_rekeys (app_item e m a) = false.
Proof. by destruct a, m. Qed.

(** ** One record received *)

Lemma frame_decodes cid payload :
  in_u64 cid → len payload ≤ M →
  let f := mkFrame (mkFrameHeader VERSION 0 (len payload) cid) payload in
  decode_datagram (frame_bytes f) M = Ok f.
Proof.
  intros Hc Hl f. assert (frame_wf f) as Hf by by split_and!.
  apply (wc_roundtrip (WireCodec := frame_codec M ltac:(zlia))); [done|]. cbn.
  by apply encode_whole_Ok; [zlia|..].
Qed.

(** An application message of the current epoch and mode is delivered. *)
Lemma receive_data env now s stream o items e m a :
  cfg_max_body_len env = M → app_ok a →
  epoch (controller s) = e → mode (controller s) = m →
  flow (Ordered.st_in (transport s)) (app_item e m a :: items) stream o →
  ∃ rest i' ev dl, receive env true now s stream = Ok (Some
      ((mkSession (Ordered.mkSecureTransport (Ordered.st_out (transport s)) i') (controller s)
          dl (server_authoritative s) (automatic_rekey s), [ev], []), rest)) ∧
    flow i' items rest o ∧ app_of_event ev = Some a.
Proof.
  intros Henv Ha He Hm Hf.
  destruct (flow_head _ _ _ _ _ Hf) as (enc & rest & r & i1 & i' & Hread & Hdec & Hrec & Hflow
    & Hep & Hi' & Hcase).
  destruct (app_item_facts e m a) as [Heq Hnk]. rewrite Hnk in Hi'. subst i'.
  destruct Hrec as [Hre Hrk]. rewrite Heq in Hre.
  exists rest, i1. unfold receive, inbound, process_inbound, max_payload. rewrite Henv, Hread. cbn.
  rewrite Hdec. cbn. rewrite (bool_decide_false (rec_epoch r ≠ _)) by (rewrite Hre; auto). cbn.
  destruct s as [[oo ii] c dl sa ar]; cbn in *.
  destruct a as [cid payload|payload]; [destruct Ha as [Hcid Hlen]|]; destruct m; cbn in *;
    subst e; match type of Hrk with _ ∧ _ => destruct Hrk as [Hrk Hpl] | _ => idtac end;
    rewrite ?Hrk, ?Hcase, ?Hm;
    rewrite ?decide_True by done; cbn; rewrite ?Hm, ?Henv, ?Hpl;
    repeat first [rewrite bool_decide_true by done | rewrite bool_decide_false by naive_solver]; cbn;
    rewrite ?frame_decodes by done; rewrite ?decide_False by lia; cbn.
  all: destruct (is_transitioning c); do 2 eexists;
    (split; [reflexivity|split; [by subst|done]]).
Qed.

(** A control is handled; only writing the response can fail. *)
Lemma receive_control env now s stream o items e ctl tr c' :
  cfg_max_body_len env = M → control_wf ctl → epoch (controller s) = e →
  handle (controller s) ctl = Ok (tr, c') →
  flow (Ordered.st_in (transport s)) (item_ctl e ctl :: items) stream o →
  ∃ rest i1 dl evs,
    flow (if bool_decide (ct_kind ctl = ControlKind.RekeyCommit) then oc_rekey_in i1 else i1)
      items rest o ∧
    omap app_of_event evs = [] ∧
    let t1 := apply_effect (Ordered.mkSecureTransport (Ordered.st_out (transport s)) i1)
                (before_response tr) in
    receive env true now s stream =
    match match response tr with
          | Some resp => write_control t1 e resp MP
          | None => Ok ([], t1)
          end with
    | Ok (out, t2) =>
      Ok (Some ((mkSession (apply_effect t2 (after_response tr)) c' dl
                   (server_authoritative s) (automatic_rekey s), evs, out), rest))
    | Err err => Err err
    end.
Proof.
  intros Henv Hctl He Hh Hf.
  destruct (flow_head _ _ _ _ _ Hf) as (enc & rest & r & i1 & i' & Hread & Hdec & Hrec & Hflow
    & Hep & Hi' & Hcase).
  assert (decode_control (encode_control ctl) = Ok ctl) as Hdc by by apply decode_control_Ok.
  unfold item_ctl, item_rekeys in Hi'. rewrite Hdc in Hi'. subst i'.
  destruct Hrec as [Hre Hrk]. cbn in Hre, Hrk, Hcase.
  exists rest, i1, (if is_transitioning c' then transition_deadline s else None),
    (if is_transitioning c' then []
     else match completed_operation (ct_kind ctl) with
          | Some opn => [security_changed_event (env_endpoint env) (env_session env) opn
                           (mode c') (epoch c') now]
          | None => []
          end).
  split; [done|]. unfold receive, inbound, process_inbound, max_payload. rewrite Henv, Hread. cbn.
  rewrite Hdec. cbn. rewrite (bool_decide_false (rec_epoch r ≠ _)) by (rewrite Hre; auto). cbn.
  destruct s as [[oo ii] c dl sa ar]; cbn in *. rewrite Hrk, Hcase. cbn.
  unfold process_control. rewrite Hdc. cbn. rewrite Hh. cbn. unfold max_payload. rewrite Henv, Hre.
  split; [|destruct (match response tr with Some _ => _ | None => _ end) as [[out t2]|]; [|done];
           cbn; by destruct (is_transitioning c')].
  destruct (is_transitioning c'); [done|]. by destruct (completed_operation _).
Qed.

(** Small records can be written: the cipher accepts them and the limits hold. *)
Lemma write_control_total t e c :
  (∀ o m, len m ≤ 15 → is_Some (oc_write o m)) → ∃ w t', write_control t e c MP = Ok (w, t').
Proof.
  intros Hwrite. unfold write_control, write_protected.
  assert (len (encode_control c) = 10) as Hl by (unfold encode_control; autorewrite with rnet; lia).
  destruct (encode_protected _ _) as [inner|] eqn:Hin.
  2:{ assert (encode_protected (mkProtectedMessage ProtectedKind.Control (encode_control c)) MP
        = Ok (protected_bytes (mkProtectedMessage ProtectedKind.Control (encode_control c)))) as Hok.
      { apply encode_protected_Ok. cbn [pm_payload]. rewrite Hl. split_and!; [zlia|zlia|done]. }
      congruence. }
  apply encode_protected_Ok in Hin as (_ & _ & ->). cbn [mbind result_bind].
  set (inner := protected_bytes _).
  assert (len inner = 15) as Hli.
  { unfold inner, protected_bytes. autorewrite with rnet.
    cbn [pm_payload]. rewrite Hl. lia. }
  unfold Ordered.encrypt. destruct (Hwrite (Ordered.st_out t) inner) as [[ct o'] Hct]; [lia|].
  rewrite Hct. cbn [mbind result_bind ok_or map_err].
  pose proof (oc_write_len _ _ _ _ Hct) as Hlc. set (r := mkRecord _ _ _).
  assert (encode_record r (MP + 64) = Ok (record_bytes r)) as Her.
  { apply encode_record_Ok. cbn [r rec_payload]. split_and!; [zlia|zlia|done]. }
  assert (len (record_bytes r) = 51) as Hlr.
  { unfold record_bytes. autorewrite with rnet. cbn [r rec_payload]. lia. }
  unfold write_wire. rewrite Her. cbn [mbind result_bind]. unfold write_framed.
  rewrite decide_False by zlia. cbn. eauto.
Qed.

(** ** The pair *)

Record Net := mkNet {
  srv : Session;
  cli : Session;
  s2c : list byte;
  c2s : list byte;
  from_srv : list app_message;
  from_cli : list app_message;
  at_srv : list Event;
  at_cli : list Event
}.

(** The phases of a transition [p] out of epoch [e] and mode [m]: the controllers,
    the items in flight each way with the application messages among them, whether
    the server has rotated its incoming key ahead of the client, and the number of
    barriers still to come. *)
Inductive phase : SecurityController → SecurityController →
    list item → list app_message → list item → list app_message → bool → nat → Prop :=
| ph_idle e m xs ys :
    1 ≤ e ≤ u64_max →
    phase (Srv m e None) (Cli m e None)
      (app_item e m <$> xs) xs (app_item e m <$> ys) ys false 0
| ph_proposed p e m xs ys :
    1 ≤ e < u64_max →
    phase (Srv m e (Some (srv_ready p (e + 1)))) (Cli m e None)
      ((app_item e m <$> xs) ++ [item_ctl e (ctl_propose p (e + 1))]) xs
      (app_item e m <$> ys) ys false 4
| ph_ready p e m ys :
    1 ≤ e < u64_max →
    phase (Srv m e (Some (srv_ready p (e + 1)))) (Cli m e (Some (cli_commit p (e + 1))))
      [] [] ((app_item e m <$> ys) ++ [item_ctl e (ctl_ready p (e + 1))]) ys false 3
| ph_commit p e m :
    1 ≤ e < u64_max →
    phase (Srv m e (Some (srv_ack p (e + 1)))) (Cli m e (Some (cli_commit p (e + 1))))
      [item_ctl e (ctl_commit p (e + 1))] [] [] [] (op_rekeys p) 2
| ph_ack p e m ys :
    1 ≤ e < u64_max →
    phase (Srv m e (Some (srv_ack p (e + 1)))) (Cli (op_mode p m) (e + 1) None)
      [] [] (item_ctl e (ctl_ack p (e + 1)) :: (app_item (e + 1) (op_mode p m) <$> ys)) ys
      false 1.

(** The invariant, with the number of records still to be received. *)
Definition net_at (k : nat) (n : Net) : Prop :=
  ∃ a xs b ys ahead cost,
    phase (controller (srv n)) (controller (cli n)) a xs b ys ahead cost ∧
    Forall app_ok xs ∧ Forall app_ok ys ∧
    flow (Ordered.st_in (transport (cli n))) a (s2c n) (Ordered.st_out (transport (srv n))) ∧
    flow (Ordered.st_in (transport (srv n))) b (c2s n)
      (if ahead then oc_rekey_out (Ordered.st_out (transport (cli n)))
       else Ordered.st_out (transport (cli n))) ∧
    from_srv n = omap app_of_event (at_cli n) ++ xs ∧
    from_cli n = omap app_of_event (at_srv n) ++ ys ∧
    k = (length xs + length ys + cost)%nat.

(** The states after one record was received on either side. *)
Definition cli_received (n : Net) (y : Yield) (rest : list byte) : Net :=
  let '(s, evs, out) := y in
  mkNet (srv n) s rest (c2s n ++ out) (from_srv n) (from_cli n) (at_srv n) (at_cli n ++ evs).
Definition srv_received (n : Net) (y : Yield) (rest : list byte) : Net :=
  let '(s, evs, out) := y in
  mkNet s (cli n) (s2c n ++ out) rest (from_srv n) (from_cli n) (at_srv n ++ evs) (at_cli n).

(** The cipher writes records of the size of a barrier. *)
Definition cipher_ready : Prop := ∀ o m, len m ≤ 15 → is_Some (oc_write o m).

(** What receiving at a well-formed net can do: nothing is there, a record is
    consumed and the net stays well-formed with fewer records to come, or the local
    cipher refused to write the response. *)
Definition recv_ok (k : nat) (stream : list byte) (next : Yield → list byte → Net)
    (r : Result (option (Yield * list byte))) : Prop :=
  (r = Ok None ∧ stream = []) ∨
  (∃ y rest k', r = Ok (Some (y, rest)) ∧ (k' < k)%nat ∧ net_at k' (next y rest)) ∨
  (is_ok r = false ∧ ¬ cipher_ready).

Lemma receive_nothing env now s : receive env true now s [] = Ok None.
Proof. done. Qed.

Lemma write_control_err t e c err : write_control t e c MP = Err err → ¬ cipher_ready.
Proof. intros Hw Hr. destruct (write_control_total t e c Hr) as (w & t' & ?). congruence. Qed.

(** The rotation a control causes at its receiver. *)
Lemma ctl_rekeys p e :
  0 < e ≤ u64_max →
  bool_decide (ct_kind (ctl_propose p e) = ControlKind.RekeyCommit) = false ∧
  bool_decide (ct_kind (ctl_ready p e) = ControlKind.RekeyCommit) = false ∧
  bool_decide (ct_kind (ctl_commit p e) = ControlKind.RekeyCommit) = op_rekeys p ∧
  bool_decide (ct_kind (ctl_ack p e) = ControlKind.RekeyCommit) = false.
Proof. by destruct p. Qed.

Lemma item_ctl_rekeys e c :
  control_wf c →
  item_rekeys (item_ctl e c) = bool_decide (ct_kind c = ControlKind.RekeyCommit).
Proof.
  intros Hc. unfold item_rekeys, item_ctl.
  by rewrite (proj2 (decode_control_Ok _ _) (conj Hc eq_refl)).
Qed.

Lemma flow_control i items stream o t e c w t' :
  flow i items stream o → in_u64 e → control_wf c → write_control t e c MP = Ok (w, t') →
  Ordered.st_out t = o →
  flow i (items ++ [item_ctl e c]) (stream ++ w)
    (if bool_decide (ct_kind c = ControlKind.RekeyCommit)
     then oc_rekey_out (Ordered.st_out t') else Ordered.st_out t') ∧
  Ordered.st_in t' = Ordered.st_in t.
Proof.
  intros Hf He Hc Hw <-. destruct (flow_protected _ _ _ _ _ _ _ _ _ Hf He Hw) as [Hf' Hin].
  fold (item_ctl e c) in Hf'. by rewrite item_ctl_rekeys in Hf' by done.
Qed.

(** A data record consumed by the client: any phase in which one is in flight. *)
Lemma cli_recv_data env now n e m x a xs b ys (ahead : bool) cost :
  cfg_max_body_len env = M →
  epoch (controller (cli n)) = e → mode (controller (cli n)) = m →
  flow (Ordered.st_in (transport (cli n))) (app_item e m x :: a) (s2c n)
    (Ordered.st_out (transport (srv n))) →
  flow (Ordered.st_in (transport (srv n))) b (c2s n)
    (if ahead then oc_rekey_out (Ordered.st_out (transport (cli n)))
     else Ordered.st_out (transport (cli n))) →
  phase (controller (srv n)) (controller (cli n)) a xs b ys ahead cost →
  Forall app_ok (x :: xs) → Forall app_ok ys →
  from_srv n = omap app_of_event (at_cli n) ++ x :: xs →
  from_cli n = omap app_of_event (at_srv n) ++ ys →
  recv_ok (S (length xs) + length ys + cost) (s2c n) (cli_received n)
    (receive env true now (cli n) (s2c n)).
Proof.
  intros Henv He Hm Hf Hg Hph [Hx Hxs]%Forall_cons_1 Hys Hs Hc.
  destruct (receive_data env now _ _ _ _ _ _ _ Henv Hx He Hm Hf)
    as (rest & i' & ev & dl & Hrecv & Hf' & Hev).
  right; left. do 2 eexists. exists (length xs + length ys + cost)%nat.
  split; [exact Hrecv|]. split; [lia|].
  exists a, xs, b, ys, ahead, cost. cbn. rewrite app_nil_r, omap_app, Hs. cbn. rewrite Hev.
  rewrite <- app_assoc. done.
Qed.

Lemma srv_recv_data env now n e m y a xs b ys (ahead : bool) cost :
  cfg_max_body_len env = M →
  epoch (controller (srv n)) = e → mode (controller (srv n)) = m →
  flow (Ordered.st_in (transport (cli n))) a (s2c n) (Ordered.st_out (transport (srv n))) →
  flow (Ordered.st_in (transport (srv n))) (app_item e m y :: b) (c2s n)
    (if ahead then oc_rekey_out (Ordered.st_out (transport (cli n)))
     else Ordered.st_out (transport (cli n))) →
  phase (controller (srv n)) (controller (cli n)) a xs b ys ahead cost →
  Forall app_ok xs → Forall app_ok (y :: ys) →
  from_srv n = omap app_of_event (at_cli n) ++ xs →
  from_cli n = omap app_of_event (at_srv n) ++ y :: ys →
  recv_ok (length xs + S (length ys) + cost) (c2s n) (srv_received n)
    (receive env true now (srv n) (c2s n)).
Proof.
  intros Henv He Hm Hg Hf Hph Hxs [Hy Hys]%Forall_cons_1 Hs Hc.
  destruct (receive_data env now _ _ _ _ _ _ _ Henv Hy He Hm Hf)
    as (rest & i' & ev & dl & Hrecv & Hf' & Hev).
  right; left. do 2 eexists. exists (length xs + length ys + cost)%nat.
  split; [exact Hrecv|]. split; [lia|].
  exists a, xs, b, ys, ahead, cost. cbn. rewrite app_nil_r, omap_app, Hc. cbn. rewrite Hev.
  rewrite <- app_assoc. done.
Qed.

(** Nothing is in flight. *)
Lemma recv_nothing env now s k stream i o next :
  flow i [] stream o → recv_ok k stream next (receive env true now s stream).
Proof. intros [-> _]%flow_empty. left. by rewrite receive_nothing. Qed.

(** The client answers a proposal. *)
Lemma cli_recv_propose env now n p e m ys :
  cfg_max_body_len env = M → 1 ≤ e < u64_max →
  controller (srv n) = Srv m e (Some (srv_ready p (e + 1))) →
  controller (cli n) = Cli m e None →
  flow (Ordered.st_in (transport (cli n))) [item_ctl e (ctl_propose p (e + 1))] (s2c n)
    (Ordered.st_out (transport (srv n))) →
  flow (Ordered.st_in (transport (srv n))) (app_item e m <$> ys) (c2s n)
    (Ordered.st_out (transport (cli n))) →
  Forall app_ok ys → from_srv n = omap app_of_event (at_cli n) →
  from_cli n = omap app_of_event (at_srv n) ++ ys →
  recv_ok (length ys + 4) (s2c n) (cli_received n) (receive env true now (cli n) (s2c n)).
Proof.
  intros Henv He Hsrv Hcli Hf Hg Hys Hs Hc.
  destruct (ctl_wf p (e + 1)) as (Hwf & Hwf' & _); [lia|].
  destruct (ctl_rekeys p (e + 1)) as (Hk & Hk' & _); [lia|].
  pose proof (handle_propose p m e ltac:(lia)) as Hh. rewrite <- Hcli in Hh.
  assert (epoch (controller (cli n)) = e) as Hep by by rewrite Hcli.
  destruct (receive_control env now _ _ _ _ _ _ _ _ Henv Hwf Hep Hh Hf)
    as (rest & i1 & dl & evs & Hf' & Hevs & Hrecv).
  rewrite Hk in Hf'. rewrite Hrecv. cbn.
  destruct (write_control _ _ _ _) as [[out t2]|err] eqn:Hw.
  2:{ right; right. split; [done|]. by eapply write_control_err. }
  right; left. do 2 eexists. exists (length ys + 3)%nat. split; [reflexivity|]. split; [lia|].
  assert (in_u64 e) as Hue by zlia.
  destruct (flow_control _ _ _ _ _ _ _ _ _ Hg Hue Hwf' Hw eq_refl) as [Hg' Hin].
  rewrite Hk' in Hg'.
  exists [], [], ((app_item e m <$> ys) ++ [item_ctl e (ctl_ready p (e + 1))]), ys, false, 3%nat.
  cbn. rewrite omap_app, Hevs, !app_nil_r, Hsrv. cbn in Hin.
  split_and!; [by constructor|done|done| |done|done|done|done].
  change (apply_effect t2 Effect.None_) with t2. by rewrite Hin.
Qed.

(** Applying an effect, half by half. *)
Lemma apply_effect_rekey eff b o i :
  (eff = Effect.Rekey ↔ b = true) →
  apply_effect (Ordered.mkSecureTransport o i) eff
  = Ordered.mkSecureTransport (if b then oc_rekey_out o else o) (if b then oc_rekey_in i else i).
Proof.
  intros Hb. unfold apply_effect. case_decide; destruct b; naive_solver.
Qed.

(** The client commits: it rotates, if at all, before it acknowledges. *)
Lemma cli_recv_commit env now n p e m :
  cfg_max_body_len env = M → 1 ≤ e < u64_max →
  controller (srv n) = Srv m e (Some (srv_ack p (e + 1))) →
  controller (cli n) = Cli m e (Some (cli_commit p (e + 1))) →
  flow (Ordered.st_in (transport (cli n))) [item_ctl e (ctl_commit p (e + 1))] (s2c n)
    (Ordered.st_out (transport (srv n))) →
  flow (Ordered.st_in (transport (srv n))) [] (c2s n)
    (if op_rekeys p then oc_rekey_out (Ordered.st_out (transport (cli n)))
     else Ordered.st_out (transport (cli n))) →
  from_srv n = omap app_of_event (at_cli n) → from_cli n = omap app_of_event (at_srv n) →
  recv_ok 2 (s2c n) (cli_received n) (receive env true now (cli n) (s2c n)).
Proof.
  intros Henv He Hsrv Hcli Hf Hg Hs Hc.
  destruct (ctl_wf p (e + 1)) as (_ & _ & Hwf & Hwf'); [lia|].
  destruct (ctl_rekeys p (e + 1)) as (_ & _ & Hk & Hk'); [lia|].
  destruct (handle_commit p m e (e + 1)) as (eff & Hh & Heff). rewrite <- Hcli in Hh.
  assert (epoch (controller (cli n)) = e) as Hep by by rewrite Hcli.
  destruct (receive_control env now _ _ _ _ _ _ _ _ Henv Hwf Hep Hh Hf)
    as (rest & i1 & dl & evs & Hf' & Hevs & Hrecv).
  rewrite Hk in Hf'. rewrite Hrecv. cbn. rewrite (apply_effect_rekey _ _ _ _ Heff).
  destruct (write_control _ _ _ _) as [[out t2]|err] eqn:Hw.
  2:{ right; right. split; [done|]. by eapply write_control_err. }
  assert (in_u64 e) as Hue by zlia.
  destruct (flow_control _ _ _ _ _ _ _ _ _ Hg Hue Hwf' Hw eq_refl) as [Hg' Hin].
  rewrite Hk' in Hg'.
  right; left. do 2 eexists. exists 1%nat. split; [reflexivity|]. split; [lia|].
  exists [], [], [item_ctl e (ctl_ack p (e + 1))], [], false, 1%nat.
  cbn. rewrite omap_app, Hevs, !app_nil_r, Hsrv.
  split_and!; [exact (ph_ack p e m [] He)|constructor|constructor| |done|done|done|done].
  change (apply_effect t2 Effect.None_) with t2. by rewrite Hin.
Qed.

(** The server commits: the commit leaves under the old keys, then it rotates. *)
Lemma srv_recv_ready env now n p e m :
  cfg_max_body_len env = M → 1 ≤ e < u64_max →
  controller (srv n) = Srv m e (Some (srv_ready p (e + 1))) →
  controller (cli n) = Cli m e (Some (cli_commit p (e + 1))) →
  flow (Ordered.st_in (transport (cli n))) [] (s2c n) (Ordered.st_out (transport (srv n))) →
  flow (Ordered.st_in (transport (srv n))) [item_ctl e (ctl_ready p (e + 1))] (c2s n)
    (Ordered.st_out (transport (cli n))) →
  from_srv n = omap app_of_event (at_cli n) → from_cli n = omap app_of_event (at_srv n) →
  recv_ok 3 (c2s n) (srv_received n) (receive env true now (srv n) (c2s n)).
Proof.
  intros Henv He Hsrv Hcli Hg Hf Hs Hc.
  destruct (ctl_wf p (e + 1)) as (_ & Hwf & Hwf' & _); [lia|].
  destruct (ctl_rekeys p (e + 1)) as (_ & Hk & Hk' & _); [lia|].
  pose proof (handle_ready p m e (e + 1)) as Hh. rewrite <- Hsrv in Hh.
  assert (epoch (controller (srv n)) = e) as Hep by by rewrite Hsrv.
  destruct (receive_control env now _ _ _ _ _ _ _ _ Henv Hwf Hep Hh Hf)
    as (rest & i1 & dl & evs & Hf' & Hevs & Hrecv).
  rewrite Hk in Hf'. apply flow_empty in Hf' as [-> Hpair]. rewrite Hrecv. cbn.
  destruct (write_control _ _ _ _) as [[out [o2 i2]]|err] eqn:Hw.
  2:{ right; right. split; [done|]. by eapply write_control_err. }
  assert (in_u64 e) as Hue by zlia.
  destruct (flow_control _ _ _ _ _ _ _ _ _ Hg Hue Hwf' Hw eq_refl) as [Hg' Hin].
  cbn in Hin. subst i2. rewrite Hk' in Hg'.
  rewrite (apply_effect_rekey _ (op_rekeys p)) by by destruct p.
  right; left. do 2 eexists. exists 2%nat. split; [reflexivity|]. split; [lia|].
  exists [item_ctl e (ctl_commit p (e + 1))], [], [], [], (op_rekeys p), 2%nat.
  cbn. rewrite omap_app, Hevs, !app_nil_r, Hcli.
  split_and!; [by apply ph_commit|constructor|constructor|done| |done|done|done].
  constructor. destruct (op_rekeys p); [by apply oc_rekey_paired|done].
Qed.

(** The server completes. *)
Lemma srv_recv_ack env now n p e m ys :
  cfg_max_body_len env = M → 1 ≤ e < u64_max →
  controller (srv n) = Srv m e (Some (srv_ack p (e + 1))) →
  controller (cli n) = Cli (op_mode p m) (e + 1) None →
  flow (Ordered.st_in (transport (cli n))) [] (s2c n) (Ordered.st_out (transport (srv n))) →
  flow (Ordered.st_in (transport (srv n)))
    (item_ctl e (ctl_ack p (e + 1)) :: (app_item (e + 1) (op_mode p m) <$> ys)) (c2s n)
    (Ordered.st_out (transport (cli n))) →
  Forall app_ok ys → from_srv n = omap app_of_event (at_cli n) →
  from_cli n = omap app_of_event (at_srv n) ++ ys →
  recv_ok (length ys + 1) (c2s n) (srv_received n) (receive env true now (srv n) (c2s n)).
Proof.
  intros Henv He Hsrv Hcli Hg Hf Hys Hs Hc.
  destruct (ctl_wf p (e + 1)) as (_ & _ & _ & Hwf); [lia|].
  destruct (ctl_rekeys p (e + 1)) as (_ & _ & _ & Hk); [lia|].
  destruct (handle_ack p m e (e + 1)) as (eff & Hh & Heff). rewrite <- Hsrv in Hh.
  assert (epoch (controller (srv n)) = e) as Hep by by rewrite Hsrv.
  destruct (receive_control env now _ _ _ _ _ _ _ _ Henv Hwf Hep Hh Hf)
    as (rest & i1 & dl & evs & Hf' & Hevs & Hrecv).
  rewrite Hk in Hf'. rewrite Hrecv. cbn. rewrite (apply_effect_rekey _ false) by naive_solver.
  right; left. do 2 eexists. exists (length ys)%nat. split; [reflexivity|]. split; [lia|].
  exists [], [], (app_item (e + 1) (op_mode p m) <$> ys), ys, false, 0%nat.
  cbn. rewrite omap_app, Hevs, !app_nil_r, Hcli.
  split_and!; [apply (ph_idle (e + 1) (op_mode p m) []); lia|constructor|done|done|done|done|done|lia].
Qed.

Lemma cli_recv env now n k :
  cfg_max_body_len env = M → net_at k n →
  recv_ok k (s2c n) (cli_received n) (receive env true now (cli n) (s2c n)).
Proof.
  intros Henv (a & xs & b & ys & ahead & cost & Hph & Hxs & Hys & Hf & Hg & Hs & Hc & ->).
  remember (controller (srv n)) as cs eqn:Hcs. remember (controller (cli n)) as cc eqn:Hcc.
  destruct Hph as [e m xs ys He|p e m xs ys He|p e m ys He|p e m He|p e m ys He].
  - destruct xs as [|x xs]; [by eapply recv_nothing|].
    eapply (cli_recv_data env now n e m) with (ahead := false); [done|
      by rewrite <- Hcc|by rewrite <- Hcc|exact Hf|
      exact Hg|rewrite <- Hcs, <- Hcc; by constructor|done..].
  - destruct xs as [|x xs].
    + rewrite app_nil_r in Hs. by eapply (cli_recv_propose env now n p e m).
    + eapply (cli_recv_data env now n e m) with (ahead := false); [done|
      by rewrite <- Hcc|by rewrite <- Hcc|exact Hf|
      exact Hg|rewrite <- Hcs, <- Hcc; by constructor|done..].
  - by eapply recv_nothing.
  - rewrite app_nil_r in Hs, Hc. by eapply (cli_recv_commit env now n p e m).
  - by eapply recv_nothing.
Qed.

Lemma srv_recv env now n k :
  cfg_max_body_len env = M → net_at k n →
  recv_ok k (c2s n) (srv_received n) (receive env true now (srv n) (c2s n)).
Proof.
  intros Henv (a & xs & b & ys & ahead & cost & Hph & Hxs & Hys & Hf & Hg & Hs & Hc & ->).
  remember (controller (srv n)) as cs eqn:Hcs. remember (controller (cli n)) as cc eqn:Hcc.
  destruct Hph as [e m xs ys He|p e m xs ys He|p e m ys He|p e m He|p e m ys He].
  - destruct ys as [|y ys]; [by eapply recv_nothing|].
    eapply (srv_recv_data env now n e m) with (ahead := false); [done|
      by rewrite <- Hcs|by rewrite <- Hcs|exact Hf|
      exact Hg|rewrite <- Hcs, <- Hcc; by constructor|done..].
  - destruct ys as [|y ys]; [by eapply recv_nothing|].
    eapply (srv_recv_data env now n e m) with (ahead := false); [done|
      by rewrite <- Hcs|by rewrite <- Hcs|exact Hf|
      exact Hg|rewrite <- Hcs, <- Hcc; by constructor|done..].
  - destruct ys as [|y ys].
    + rewrite app_nil_r in Hs, Hc. by eapply (srv_recv_ready env now n p e m).
    + eapply (srv_recv_data env now n e m) with (ahead := false); [done|
      by rewrite <- Hcs|by rewrite <- Hcs|exact Hf|
      exact Hg|rewrite <- Hcs, <- Hcc; by constructor|done..].
  - by eapply recv_nothing.
  - rewrite app_nil_r in Hs. by eapply (srv_recv_ack env now n p e m).
Qed.

(** ** Sending *)

(** An application message leaves as the item of the current epoch and mode. *)
Lemma outbound_flow env s a s' evs w i items stream :
  cfg_max_body_len env = M → in_u64 (epoch (controller s)) →
  flow i items stream (Ordered.st_out (transport s)) →
  outbound env true s (app_outbound a).1 (app_outbound a).2 = Some (Ok (s', evs, w)) →
  evs = [] ∧ pending (controller s) = None ∧ controller s' = controller s ∧
  Ordered.st_in (transport s') = Ordered.st_in (transport s) ∧
  flow i (items ++ [app_item (epoch (controller s)) (mode (controller s)) a]) (stream ++ w)
    (Ordered.st_out (transport s')).
Proof.
  intros Henv He Hf. unfold outbound, is_transitioning, max_payload. rewrite Henv.
  destruct (pending (controller s)) eqn:Hp; [done|]. cbn [negb]. intros Hout.
  apply (inj Some) in Hout. unfold app_item. destruct (app_outbound a) as [kind bytes].
  cbn [fst snd] in Hout. assert (∀ pk, item_rekeys (Prot (epoch (controller s)) pk bytes) = true →
    pk = ProtectedKind.Control) as Hk by by intros [].
  destruct kind; [destruct (mode (controller s))|]; cbn -[write_protected write_wire] in Hout.
  - rewrite decide_False in Hout by done.
    destruct (write_wire _ _) as [w'|] eqn:Hw; [|done]. cbn in Hout. simplify_eq. cbn.
    split_and!; [done|done|done|done|by apply flow_plain].
  - rewrite decide_True in Hout by done.
    destruct (write_protected _ _ _ _ _) as [[w' t']|] eqn:Hw; [|done]. cbn in Hout. simplify_eq.
    destruct (flow_protected _ _ _ _ _ _ _ _ _ Hf He Hw) as [Hf' Hin]. by split_and!.
  - destruct (write_protected _ _ _ _ _) as [[w' t']|] eqn:Hw; [|done]. cbn in Hout. simplify_eq.
    destruct (flow_protected _ _ _ _ _ _ _ _ _ Hf He Hw) as [Hf' Hin]. by split_and!.
Qed.

Definition srv_sent (n : Net) (a : app_message) (s' : Session) (w : list byte) : Net :=
  mkNet s' (cli n) (s2c n ++ w) (c2s n) (from_srv n ++ [a]) (from_cli n) (at_srv n) (at_cli n).
Definition cli_sent (n : Net) (a : app_message) (s' : Session) (w : list byte) : Net :=
  mkNet (srv n) s' (s2c n) (c2s n ++ w) (from_srv n) (from_cli n ++ [a]) (at_srv n) (at_cli n).

Lemma srv_send env n k a s' evs w :
  cfg_max_body_len env = M → net_at k n → app_ok a →
  outbound env true (srv n) (app_outbound a).1 (app_outbound a).2 = Some (Ok (s', evs, w)) →
  net_at (S k) (srv_sent n a s' w).
Proof.
  intros Henv (a' & xs & b & ys & ahead & cost & Hph & Hxs & Hys & Hf & Hg & Hs & Hc & ->) Ha Hout.
  assert (in_u64 (epoch (controller (srv n)))) as Hue
    by (destruct Hph; subst; cbn; zlia).
  destruct (outbound_flow env _ _ _ _ _ _ _ _ Henv Hue Hf Hout) as (-> & Hpe & Hctl & Hin & Hf').
  remember (controller (srv n)) as cs eqn:Hcs. remember (controller (cli n)) as cc eqn:Hcc.
  destruct Hph as [e m xs ys He|p e m xs ys He|p e m ys He|p e m He|p e m ys He]; try done.
  exists (app_item e m <$> (xs ++ [a])), (xs ++ [a]), (app_item e m <$> ys), ys, false, 0%nat.
  unfold srv_sent. cbn. rewrite <- Hcc, Hctl, Hin, Hs.
  split_and!; [by constructor|apply Forall_app_2; [done|by constructor]|done|by rewrite fmap_app|
    done|by rewrite app_assoc|done|rewrite length_app; cbn; lia].
Qed.

Lemma cli_send env n k a s' evs w :
  cfg_max_body_len env = M → net_at k n → app_ok a →
  outbound env true (cli n) (app_outbound a).1 (app_outbound a).2 = Some (Ok (s', evs, w)) →
  net_at (S k) (cli_sent n a s' w).
Proof.
  intros Henv (a' & xs & b & ys & ahead & cost & Hph & Hxs & Hys & Hf & Hg & Hs & Hc & ->) Ha Hout.
  assert (in_u64 (epoch (controller (cli n)))) as Hue
    by (destruct Hph; subst; cbn; zlia).
  remember (controller (srv n)) as cs eqn:Hcs. remember (controller (cli n)) as cc eqn:Hcc.
  assert (Forall app_ok (ys ++ [a])) as Hysa by (apply Forall_app_2; [done|by constructor]).
  assert (pending cc = None) as Hnone.
  { subst cc. unfold outbound, is_transitioning in Hout. by destruct (pending _). }
  destruct Hph as [e m xs ys He|p e m xs ys He|p e m ys He|p e m He|p e m ys He];
    try (by destruct p); rewrite Hcc in Hue;
    destruct (outbound_flow env _ _ _ _ _ _ _ _ Henv Hue Hg Hout) as (-> & _ & Hctl & Hin & Hg');
    rewrite <- Hcc in Hg', Hctl; cbn in Hg'.
  - exists (app_item e m <$> xs), xs, (app_item e m <$> (ys ++ [a])), (ys ++ [a]), false, 0%nat.
    unfold cli_sent. cbn. rewrite <- Hcs, Hctl, Hin, Hc, app_assoc, length_app.
    split_and!; [by apply ph_idle|done|done|done|rewrite fmap_app; exact Hg'|done|done|cbn; lia].
  - exists ((app_item e m <$> xs) ++ [item_ctl e (ctl_propose p (e + 1))]), xs,
      (app_item e m <$> (ys ++ [a])), (ys ++ [a]), false, 4%nat.
    unfold cli_sent. cbn. rewrite <- Hcs, Hctl, Hin, Hc, app_assoc, length_app.
    split_and!; [by apply ph_proposed|done|done|done|rewrite fmap_app; exact Hg'|done|done|cbn; lia].
  - exists [], [], (item_ctl e (ctl_ack p (e + 1)) ::
      (app_item (e + 1) (op_mode p m) <$> (ys ++ [a]))), (ys ++ [a]), false, 1%nat.
    unfold cli_sent. cbn. rewrite <- Hcs, Hctl, Hin, Hc, app_assoc, length_app.
    split_and!; [by apply ph_ack|done|done|done|rewrite fmap_app; exact Hg'|done|done|cbn; lia].
Qed.

(** ** Proposing *)

Definition srv_acted (n : Net) (s' : Session) (w : list byte) : Net :=
  mkNet s' (cli n) (s2c n ++ w) (c2s n) (from_srv n) (from_cli n) (at_srv n) (at_cli n).

(** A transition that starts is the proposal of an operation by an idle server. *)
Lemma begin_switch_op c m ctl c' :
  begin_switch c m = Ok (ctl, c') →
  ∃ p m0 e, c = Srv m0 e None ∧ e < u64_max ∧ ctl = ctl_propose p (e + 1) ∧
    c' = Srv m0 e (Some (srv_ready p (e + 1))).
Proof.
  unfold begin_switch. destruct (ensure_server_idle c) eqn:Hi; [|done].
  apply ensure_server_idle_Ok in Hi as (Hr & Hp & _). cbn. case_decide; [done|].
  destruct (next_epoch c) eqn:He; [|done]. apply next_epoch_Ok in He as [-> ?]. cbn.
  intros [= <- <-]. destruct c as [r m0 e p]; cbn in *; subst.
  by exists (OpSwitch m), m0, e.
Qed.

Lemma begin_rekey_op c ctl c' :
  begin_rekey c = Ok (ctl, c') →
  ∃ p m0 e, c = Srv m0 e None ∧ e < u64_max ∧ ctl = ctl_propose p (e + 1) ∧
    c' = Srv m0 e (Some (srv_ready p (e + 1))).
Proof.
  unfold begin_rekey. destruct (ensure_server_idle c) eqn:Hi; [|done].
  apply ensure_server_idle_Ok in Hi as (Hr & Hp & _). cbn.
  destruct (next_epoch c) eqn:He; [|done]. apply next_epoch_Ok in He as [-> ?]. cbn.
  intros [= <- <-]. destruct c as [r m0 e p]; cbn in *; subst.
  by exists OpRekey, m0, e.
Qed.

(** The server's proposal enters the stream behind the data already sent. *)
Lemma srv_propose env now n k s1 p m e s' evs w :
  cfg_max_body_len env = M → net_at k n → e < u64_max →
  controller (srv n) = Srv m e None → transport s1 = transport (srv n) →
  propose env now s1 (ctl_propose p (e + 1)) (Srv m e (Some (srv_ready p (e + 1))))
  = Ok (s', evs, w) →
  net_at (k + 4) (srv_acted n s' w).
Proof.
  intros Henv (a & xs & b & ys & ahead & cost & Hph & Hxs & Hys & Hf & Hg & Hs & Hc & ->) He
    Hidle Htr Hprop.
  unfold propose, max_payload in Hprop. rewrite Henv, Htr in Hprop.
  destruct (write_control _ _ _ _) as [[w' t']|] eqn:Hw; [|done]. simplify_eq. cbn in Hw.
  remember (controller (cli n)) as cc eqn:Hcc. rewrite Hidle in Hph.
  remember (Srv m e None) as cs eqn:Hcs.
  destruct Hph as [e0 m0 xs ys He0| | | |]; try done. injection Hcs as -> ->.
  destruct (ctl_wf p (e + 1)) as (Hwf & _); [lia|]. assert (in_u64 e) as Hue by zlia.
  destruct (flow_control _ _ _ _ _ _ _ _ _ Hf Hue Hwf Hw eq_refl) as [Hf' Hin].
  rewrite (proj1 (ctl_rekeys p (e + 1) ltac:(lia))) in Hf'.
  exists ((app_item e m <$> xs) ++ [item_ctl e (ctl_propose p (e + 1))]), xs,
    (app_item e m <$> ys), ys, false, 4%nat.
  cbn. rewrite Hin, <- Hcc.
  split_and!; [apply (ph_proposed p e m); lia|done..|lia].
Qed.

Lemma srv_quiet n k s' :
  net_at k n → controller s' = controller (srv n) → transport s' = transport (srv n) →
  net_at k (srv_acted n s' []).
Proof.
  intros (a & xs & b & ys & ahead & cost & Hn) Hc Ht. exists a, xs, b, ys, ahead, cost.
  cbn. by rewrite app_nil_r, Hc, Ht.
Qed.

Lemma srv_command env now n k cmd s' evs w :
  cfg_max_body_len env = M → net_at k n →
  command env now (srv n) cmd = Some (Ok (s', evs, w)) →
  ∃ k', net_at k' (srv_acted n s' w).
Proof.
  intros Henv Hn Hcmd. unfold command in Hcmd. destruct (is_transitioning _); [done|].
  apply (inj Some) in Hcmd. destruct cmd as [m|].
  - destruct (begin_switch _ _) as [[ctl c']|] eqn:Hb; simplify_eq.
    + apply begin_switch_op in Hb as (p & m0 & e & Hidle & He & -> & ->).
      eexists. eapply srv_propose; [done|done|done|exact Hidle| |exact Hcmd]. done.
    + exists k. by apply srv_quiet.
  - destruct (begin_rekey _) as [[ctl c']|] eqn:Hb; simplify_eq.
    + apply begin_rekey_op in Hb as (p & m0 & e & Hidle & He & -> & ->).
      eexists. eapply srv_propose; [done|done|done|exact Hidle| |exact Hcmd]. done.
    + exists k. by apply srv_quiet.
Qed.

Lemma srv_auto_rekey env now n k s' evs w :
  cfg_max_body_len env = M → net_at k n →
  auto_rekey_fired env now (srv n) = Ok (s', evs, w) → ∃ k', net_at k' (srv_acted n s' w).
Proof.
  intros Henv Hn Hfired. unfold auto_rekey_fired in Hfired.
  destruct (begin_rekey _) as [[ctl c']|] eqn:Hb; simplify_eq.
  - apply begin_rekey_op in Hb as (p & m0 & e & Hidle & He & -> & ->).
    eexists. eapply srv_propose; [done|done|done|exact Hidle| |exact Hfired]. done.
  - exists k. by apply srv_quiet.
Qed.

(** ** Runs of the pair *)

Context (es ec : Env).

(** One record received on either side. *)
Inductive recv_step (n : Net) : Net → Prop :=
| step_srv_recv now y rest :
    receive es true now (srv n) (c2s n) = Ok (Some (y, rest)) →
    recv_step n (srv_received n y rest)
| step_cli_recv now y rest :
    receive ec true now (cli n) (s2c n) = Ok (Some (y, rest)) →
    recv_step n (cli_received n y rest).

(** Every iteration of either loop that does not end its session. *)
Inductive net_step (n : Net) : Net → Prop :=
| step_recv n' : recv_step n n' → net_step n n'
| step_srv_send a s' evs w :
    app_ok a →
    outbound es true (srv n) (app_outbound a).1 (app_outbound a).2 = Some (Ok (s', evs, w)) →
    net_step n (srv_sent n a s' w)
| step_cli_send a s' evs w :
    app_ok a →
    outbound ec true (cli n) (app_outbound a).1 (app_outbound a).2 = Some (Ok (s', evs, w)) →
    net_step n (cli_sent n a s' w)
| step_srv_command now cmd s' evs w :
    command es now (srv n) cmd = Some (Ok (s', evs, w)) → net_step n (srv_acted n s' w)
| step_srv_auto now d s' evs w :
    automatic_deadline (srv n) now = Some d → d ≤ now →
    auto_rekey_fired es now (srv n) = Ok (s', evs, w) → net_step n (srv_acted n s' w).

(** Two sessions right after the handshake: epoch one, the agreed mode, matched
    ciphers and empty streams. *)
Definition net_init (n : Net) : Prop :=
  ∃ m, controller (srv n) = controller_new Role.Server m 1 ∧
    controller (cli n) = controller_new Role.Client m 1 ∧
    paired (Ordered.st_out (transport (srv n))) (Ordered.st_in (transport (cli n))) ∧
    paired (Ordered.st_out (transport (cli n))) (Ordered.st_in (transport (srv n))) ∧
    s2c n = [] ∧ c2s n = [] ∧ from_srv n = [] ∧ from_cli n = [] ∧ at_srv n = [] ∧ at_cli n = [].

Definition reachable (n : Net) : Prop := ∃ n0, net_init n0 ∧ rtc net_step n0 n.

Hypothesis Hes : cfg_max_body_len es = M.
Hypothesis Hec : cfg_max_body_len ec = M.

Lemma net_init_at n : net_init n → net_at 0 n.
Proof.
  intros (m & Hs & Hc & Hp & Hp' & H1 & H2 & H3 & H4 & H5 & H6).
  exists [], [], [], [], false, 0%nat. rewrite Hs, Hc, H1, H2, H3, H4, H5, H6.
  split_and!; [apply (ph_idle 1 m [] []); zlia|constructor|constructor|by constructor|
    by constructor|done..].
Qed.

Lemma recv_step_at n n' k : recv_step n n' → net_at k n → ∃ k', (k' < k)%nat ∧ net_at k' n'.
Proof.
  intros [now y rest Hr|now y rest Hr] Hn.
  - destruct (srv_recv es now n k Hes Hn) as [[? ?]|[(y' & rest' & k' & ? & ? & ?)|[? _]]];
      [congruence| |by rewrite Hr in *].
    assert (y' = y ∧ rest' = rest) as [-> ->] by (split; congruence). by exists k'.
  - destruct (cli_recv ec now n k Hec Hn) as [[? ?]|[(y' & rest' & k' & ? & ? & ?)|[? _]]];
      [congruence| |by rewrite Hr in *].
    assert (y' = y ∧ rest' = rest) as [-> ->] by (split; congruence). by exists k'.
Qed.

Lemma net_step_at n n' k : net_step n n' → net_at k n → ∃ k', net_at k' n'.
Proof.
  intros [n1 Hr|a s' evs w Ha Ho|a s' evs w Ha Ho|now cmd s' evs w Hc|now d s' evs w _ _ Hf] Hn.
  - destruct (recv_step_at _ _ _ Hr Hn) as (k' & _ & ?). eauto.
  - exists (S k). by eapply (srv_send es n k).
  - exists (S k). by eapply (cli_send ec n k).
  - by eapply (srv_command es now n k).
  - by eapply (srv_auto_rekey es now n k).
Qed.

Lemma reachable_at n : reachable n → ∃ k, net_at k n.
Proof.
  intros (n0 & Hi%net_init_at & Hr). revert Hi. generalize 0%nat as k.
  induction Hr as [|n0 n1 n2 Hs _ IH]; intros k Hk; [eauto|].
  destruct (net_step_at _ _ _ Hs Hk) as [k' ?]. eauto.
Qed.

(** ** What the invariant says *)

Lemma write_wire_nonempty r max w : write_wire r max = Ok w → w ≠ [].
Proof.
  unfold write_wire. destruct (encode_record _ _); [|done]. cbn. unfold write_framed.
  case_decide; [done|]. intros Hw ->. apply (inj Ok), app_nil in Hw as [Hw _].
  apply (f_equal length) in Hw. by rewrite length_be_encode in Hw.
Qed.

Lemma flow_drained i items o : flow i items [] o → items = [].
Proof.
  inversion 1 as [|? it w i' items' stream o' Hr Hep Hf E1 E2 E3]; [done|].
  apply app_nil in E3 as [-> _]. destruct it; cbn in Hr.
  - by destruct (write_wire_nonempty _ _ _ (proj1 Hr)).
  - destruct Hr as (? & ? & ? & _ & Hw & _). by destruct (write_wire_nonempty _ _ _ Hw).
Qed.

(** Both sides idle in the same epoch and mode, with matched ciphers and every
    message delivered. *)
Definition agreed (n : Net) : Prop :=
  (∃ m e, controller (srv n) = Srv m e None ∧ controller (cli n) = Cli m e None) ∧
  paired (Ordered.st_out (transport (srv n))) (Ordered.st_in (transport (cli n))) ∧
  paired (Ordered.st_out (transport (cli n))) (Ordered.st_in (transport (srv n))) ∧
  from_srv n = omap app_of_event (at_cli n) ∧ from_cli n = omap app_of_event (at_srv n).

Lemma drained_agreed n k : net_at k n → s2c n = [] → c2s n = [] → agreed n.
Proof.
  intros (a & xs & b & ys & ahead & cost & Hph & _ & _ & Hf & Hg & Hs & Hc & _) H1 H2.
  rewrite H1 in Hf. rewrite H2 in Hg.
  pose proof (flow_drained _ _ _ Hf) as Ha. pose proof (flow_drained _ _ _ Hg) as Hb.
  remember (controller (srv n)) as cs eqn:Hcs. remember (controller (cli n)) as cc eqn:Hcc.
  destruct Hph as [e m xs ys He|p e m xs ys He|p e m ys He|p e m He|p e m ys He];
    try done; try by destruct (app_eq_nil _ _ Ha). 2:{ by destruct (app_eq_nil _ _ Hb). }
  apply fmap_nil_inv in Ha, Hb. subst. rewrite !app_nil_r in *.
  apply flow_empty in Hf as [_ ?], Hg as [_ ?]. split; [|done]. by exists m, e.
Qed.

(** With a working cipher, a net that is not drained can receive a record. *)
Lemma recv_progress n k :
  cipher_ready → net_at k n → (s2c n = [] ∧ c2s n = []) ∨ ∃ n', recv_step n n'.
Proof.
  intros Hready Hn.
  destruct (srv_recv es 0 n k Hes Hn) as [[_ Hs]|[(y & rest & k' & Hr & _)|[_ ?]]]; [| |done].
  2:{ right. eexists. by eapply step_srv_recv. }
  destruct (cli_recv ec 0 n k Hec Hn) as [[_ Hc]|[(y & rest & k' & Hr & _)|[_ ?]]]; [| |done].
  2:{ right. eexists. by eapply step_cli_recv. }
  by left.
Qed.

Lemma drains n k :
  cipher_ready → net_at k n → ∃ n', rtc recv_step n n' ∧ s2c n' = [] ∧ c2s n' = [] ∧ agreed n'.
Proof.
  intros Hready. revert n. induction k as [k IH] using lt_wf_ind. intros n Hn.
  destruct (recv_progress n k Hready Hn) as [[Hs Hc]|[n1 Hstep]].
  - exists n. split; [done|]. split; [done|]. split; [done|]. by eapply drained_agreed.
  - destruct (recv_step_at _ _ _ Hstep Hn) as (k' & Hlt & Hn1).
    destruct (IH k' Hlt n1 Hn1) as (n' & ? & ?). exists n'. split; [|done]. by eapply rtc_l.
Qed.

(** ** Claims *)

(** C1: Two established TCP sessions never lose security synchronisation.  Under any
    interleaving of application sends, mode switches, rekeys (commanded or automatic)
    and deliveries, every record either side receives passes the epoch check, the mode
    check and decryption and is handled without an error, the only exception being a
    local cipher that refuses to write the response; and the client's epoch is the
    server's or one ahead of it. *)
Theorem tcp_never_desyncs n now :
  reachable n →
  (match receive ec true now (cli n) (s2c n) with
   | Ok None => s2c n = []
   | Ok (Some _) => True
   | Err _ => ¬ cipher_ready
   end) ∧
  (match receive es true now (srv n) (c2s n) with
   | Ok None => c2s n = []
   | Ok (Some _) => True
   | Err _ => ¬ cipher_ready
   end) ∧
  epoch (controller (srv n)) ≤ epoch (controller (cli n)) ≤ epoch (controller (srv n)) + 1.
Proof using All.
  intros [k Hn]%reachable_at. split_and!.
  - destruct (cli_recv ec now n k Hec Hn) as [[-> ?]|[(? & ? & ? & -> & _)|[Hr ?]]]; [done..|].
    by destruct (receive _ _ _ _ _) as [[|]|].
  - destruct (srv_recv es now n k Hes Hn) as [[-> ?]|[(? & ? & ? & -> & _)|[Hr ?]]]; [done..|].
    by destruct (receive _ _ _ _ _) as [[|]|].
  - destruct Hn as (a & xs & b & ys & ahead & cost & Hph & _). destruct Hph; cbn; lia.
  - destruct Hn as (a & xs & b & ys & ahead & cost & Hph & _). destruct Hph; cbn; lia.
Qed.

(** C3: Application messages are delivered exactly once, unmodified and in the order
    of sending, in both directions and across any number of security transitions:
    what arrived is a prefix of what was sent, and all of it once the stream is
    drained. *)
Theorem tcp_delivery_in_order n :
  reachable n →
  (∃ xs, from_srv n = omap app_of_event (at_cli n) ++ xs ∧ (s2c n = [] → xs = [])) ∧
  (∃ ys, from_cli n = omap app_of_event (at_srv n) ++ ys ∧ (c2s n = [] → ys = [])).
Proof using All.
  intros [k (a & xs & b & ys & ahead & cost & Hph & _ & _ & Hf & Hg & Hs & Hc & _)]%reachable_at.
  split; [exists xs|exists ys]; (split; [done|]); intros Hd; rewrite Hd in *.
  - apply flow_drained in Hf. destruct Hph; try done; [by apply fmap_nil_inv in Hf|].
    by destruct (app_eq_nil _ _ Hf).
  - apply flow_drained in Hg.
    destruct Hph; try done; [by apply fmap_nil_inv in Hg..|]. by destruct (app_eq_nil _ _ Hg).
Qed.

(** C2: Security transitions converge: from any reachable state, with a cipher that
    can write barrier-sized records, delivering the records in flight ends, and ends
    with both streams empty, both sides idle in the same epoch and mode, the cipher
    halves matched in both directions, and every message sent delivered. *)
Theorem tcp_transitions_converge n :
  cipher_ready → reachable n →
  ∃ n', rtc recv_step n n' ∧ s2c n' = [] ∧ c2s n' = [] ∧ agreed n'.
Proof using All. intros Hready [k Hn]%reachable_at. by eapply drains. Qed.


End pair.

(** ** A concrete pair *)

Module Toy.
(** A transparent ordered cipher: key and counter as the tag. *)
#[local] Instance cipher : OrderedCipher := {|
  oc_out := Z * Z;
  oc_in := Z * Z;
  oc_write o m := Some (be_encode 8 o.1 ++ be_encode 8 o.2 ++ m, (o.1, o.2 + 1));
  oc_read i c := if decide (take 16 c = be_encode 8 i.1 ++ be_encode 8 i.2)
                 then Some (drop 16 c, (i.1, i.2 + 1)) else None;
  oc_rekey_out o := (o.1 + 1, o.2);
  oc_rekey_in i := (i.1 + 1, i.2)
|}.

#[local] Instance laws : OrderedCipherLaws (=).
Proof.
  split.
  - intros [k c] ? m w o' <- Hw. cbn in *. injection Hw as Hw Ho. subst o'. eexists.
    assert (w = (be_encode 8 k ++ be_encode 8 c) ++ m) as -> by by rewrite <- app_assoc.
    rewrite take_app_length', drop_app_length' by lens. by rewrite decide_True.
  - intros o m w o' Hw. cbn in Hw. apply (inj Some) in Hw. apply (f_equal fst) in Hw. cbn in Hw.
    subst w. autorewrite with rnet. lia.
  - by intros o ? ->.
Qed.

Definition env : Env := mkEnv 64 1000 1 2.

Definition server : Session :=
  mkSession (Ordered.mkSecureTransport (1, 0) (2, 0))
    (controller_new Role.Server SecurityMode.Encrypted 1) None true (auto_rekey_new None None 0).
Definition client : Session :=
  mkSession (Ordered.mkSecureTransport (2, 0) (1, 0))
    (controller_new Role.Client SecurityMode.Encrypted 1) None false (auto_rekey_new None None 0).

Definition net0 : Net := mkNet server client [] [] [] [] [] [].

(** The server starts a rekey. *)
Definition net1 : Net :=
  match command env 5 server RekeyNow with
  | Some (Ok (s', _, w)) => srv_acted net0 s' w
  | _ => net0
  end.

Lemma net1_reachable : reachable (=) 64 env env net1.
Proof.
  exists net0. split.
  - by exists SecurityMode.Encrypted.
  - apply rtc_once. eapply (step_srv_command _ env env net0 5 RekeyNow). reflexivity.
Qed.

Lemma ready : cipher_ready.
Proof. intros o m _. by eexists. Qed.
End Toy.

Lemma tcp_never_desyncs_witness :
  s2c Toy.net1 ≠ [] ∧
  epoch (controller (srv Toy.net1)) ≤ epoch (controller (cli Toy.net1))
  ≤ epoch (controller (srv Toy.net1)) + 1.
Proof.
  split; [by vm_compute|].
  apply (tcp_never_desyncs (H := Toy.cipher) (=) (OrderedCipherLaws0 := Toy.laws) 64 ltac:(zlia)
    Toy.env Toy.env eq_refl eq_refl Toy.net1 7 Toy.net1_reachable).
Defined.

Lemma tcp_delivery_in_order_witness :
  ∃ xs, from_srv Toy.net1 = omap app_of_event (at_cli Toy.net1) ++ xs.
Proof.
  destruct (tcp_delivery_in_order (H := Toy.cipher) (=) (OrderedCipherLaws0 := Toy.laws) 64
    ltac:(zlia) Toy.env Toy.env eq_refl eq_refl Toy.net1 Toy.net1_reachable) as [(xs & Hxs & _) _].
  by exists xs.
Defined.

Lemma tcp_transitions_converge_witness :
  ∃ n', rtc (recv_step (H := Toy.cipher) Toy.env Toy.env) Toy.net1 n' ∧
    agreed (H := Toy.cipher) (=) n'.
Proof.
  destruct (tcp_transitions_converge (H := Toy.cipher) (=) (OrderedCipherLaws0 := Toy.laws) 64
    ltac:(zlia) Toy.env Toy.env eq_refl eq_refl Toy.net1 Toy.ready Toy.net1_reachable)
    as (n' & ? & _ & _ & ?).
  by exists n'.
Defined.
