(* ===== verification/HandleTable.v ===== *)
(** * Generational handles: rnet-core [handle.rs] and [buffer.rs]

    [HandleTable] as slots with generations and a free stack, refined to a finite
    map from handles to values, and the buffer store built on it. *)

From S2P Require Import Prelude Bytes CoreTypes.

(** ** Handle encoding *)

Definition encode_handle (index : nat) (generation : Z) : Handle :=
  Z.lor (Z.shiftl generation 32) (Z.of_nat index + 1).

Definition decode_handle (handle : Handle) : option (nat * Z) :=
  let encoded_index := Z.land handle u32_max in
  let generation := Z.shiftr handle 32 in
  if decide (encoded_index = 0 ∨ generation = 0) then None
  else Some (Z.to_nat (encoded_index - 1), generation).

(** ** The table *)

Record Slot (T : Type) := mkSlot {
  generation : Z;
  value : option T
}.
Arguments mkSlot {T} _ _.
Arguments generation {T} _.
Arguments value {T} _.

Record HandleTable (T : Type) := mkHandleTable {
  slots : list (Slot T);
  free : list nat
}.
Arguments mkHandleTable {T} _ _.
Arguments slots {T} _.
Arguments free {T} _.

Section HandleTable.
Context {T : Type}.
Implicit Types (t : HandleTable T) (h : Handle) (v : T) (g : Z).

#[local] Abbreviation Slot := (Slot T).
#[local] Abbreviation HandleTable := (HandleTable T).

Definition table_new : HandleTable := mkHandleTable [] [].

(** [slot.value.is_some()]. *)
Definition occupied (s : Slot) : bool :=
  match value s with Some _ => true | None => false end.

Definition table_len t : Z := len (filter occupied (slots t)).

Definition table_is_empty t : bool := forallb (λ s, negb (occupied s)) (slots t).

(** [self.slots[index]] panics out of range. *)
Definition table_insert t v : outcome (Handle * HandleTable) :=
  let '(index, slots0, free0) :=
    match vec_pop (free t) with
    | Some (index, rest) => (index, slots t, rest)
    | None => (length (slots t), slots t ++ [mkSlot 1 None], free t)
    end in
  slot ← expect (slots0 !! index);
  Done (encode_handle index (generation slot),
        mkHandleTable (<[index := mkSlot (generation slot) (Some v)]> slots0) free0).

Definition table_get t h : option T :=
  '(index, g) ← decode_handle h;
  slot ← slots t !! index;
  if decide (generation slot = g) then value slot else None.

(** [get_mut] with the write [f] done through the borrow. *)
Definition table_get_mut t h (f : T → T) : option (HandleTable) :=
  '(index, g) ← decode_handle h;
  slot ← slots t !! index;
  if decide (generation slot = g) then
    v ← value slot;
    Some (mkHandleTable (<[index := mkSlot g (Some (f v))]> (slots t)) (free t))
  else None.

Definition next_generation g : Z := wrapping_add 32 g 1 `max` 1.

Definition table_remove t h : option (T * HandleTable) :=
  '(index, g) ← decode_handle h;
  slot ← slots t !! index;
  if decide (generation slot = g) then
    v ← value slot;
    Some (v, mkHandleTable (<[index := mkSlot (next_generation g) None]> (slots t))
               (free t ++ [index]))
  else None.

Definition live_entry (index : nat) (s : Slot) : option (Handle * T) :=
  v ← value s; Some (encode_handle index (generation s), v).

Definition table_entries t : list (Handle * T) :=
  omap id (imap live_entry (slots t)).

Definition table_handles t : list Handle := (table_entries t).*1.

(** ** Specification: a finite map from live handles to values *)

Definition table_map t : gmap Handle T := list_to_map (table_entries t).

(** Well-formed tables: generations are non-zero [u32]s, the free stack holds
    exactly the vacant slots, and indexes fit the handle's 32-bit field. *)
Record table_wf t : Prop := {
  tw_gen : ∀ i s, slots t !! i = Some s → 1 ≤ generation s ≤ u32_max;
  tw_nodup : NoDup (free t);
  tw_free : ∀ i, i ∈ free t ↔ ∃ s, slots t !! i = Some s ∧ value s = None;
  tw_size : len (slots t) ≤ u32_max
}.

(** A vacant slot is left, or one can still be allocated. *)
Definition has_room t : Prop := free t ≠ [] ∨ len (slots t) < u32_max.

(** Operations on a table, for statements about histories. *)
Inductive table_op :=
| OpInsert (v : T)
| OpRemove (h : Handle).

Definition table_apply t (o : table_op) : HandleTable :=
  match o with
  | OpInsert v => match table_insert t v with Done (_, t') => t' | Panic => t end
  | OpRemove h => match table_remove t h with Some (_, t') => t' | None => t end
  end.

Definition table_run t (os : list table_op) : HandleTable := foldl table_apply t os.

(** ** Encoding lemmas *)

Lemma encode_handle_eq i g :
  Z.of_nat i < u32_max → encode_handle i g = g * 2 ^ 32 + (Z.of_nat i + 1).
Proof. intros. unfold encode_handle. apply lor_shiftl_add; zlia. Qed.

Lemma decode_handle_Some h i g :
  decode_handle h = Some (i, g) ↔
  g ≠ 0 ∧ Z.of_nat i < u32_max ∧ h = encode_handle i g.
Proof.
  unfold decode_handle. change u32_max with (2 ^ 32 - 1).
  rewrite land_ones_mod, Z.shiftr_div_pow2 by lia.
  pose proof (Z.mod_pos_bound h (2 ^ 32)). pose proof (Z.div_mod h (2 ^ 32)).
  split.
  - case_decide; intros [= <- <-]. rewrite encode_handle_eq by zlia.
    repeat split; [|zlia..]. lia.
  - intros (Hg & Hi & ->). rewrite encode_handle_eq in * by done.
    rewrite Z.div_add_l, Z.div_small, Z.add_0_r in * by zlia.
    rewrite Z.add_comm, Z.mod_add, Z.mod_small in * by zlia.
    rewrite decide_False by lia. do 2 f_equal. lia.
Qed.

Lemma encode_handle_inj i g i' g' :
  Z.of_nat i < u32_max → Z.of_nat i' < u32_max →
  encode_handle i g = encode_handle i' g' → i = i' ∧ g = g'.
Proof. intros ??. rewrite !encode_handle_eq by done. zlia. Qed.

Lemma next_generation_range g : 1 ≤ g ≤ u32_max → 1 ≤ next_generation g ≤ u32_max.
Proof.
  intros. unfold next_generation, wrapping_add.
  pose proof (Z.mod_pos_bound (g + 1) (2 ^ 32)). zlia.
Qed.

Lemma next_generation_cyclic g :
  1 ≤ g ≤ u32_max → next_generation g - 1 = (g - 1 + 1) mod u32_max.
Proof.
  intros. unfold next_generation, wrapping_add. destruct (decide (g = u32_max)) as [->|].
  - done.
  - rewrite !Z.mod_small by zlia. zlia.
Qed.

(** ** The map of a well-formed table *)

Lemma entry_elem ss (f : nat → nat) h v :
  (h, v) ∈ omap id (imap (live_entry ∘ f) ss) ↔
  ∃ i s, ss !! i = Some s ∧ value s = Some v ∧ h = encode_handle (f i) (generation s).
Proof.
  rewrite list_elem_of_omap. setoid_rewrite elem_of_lookup_imap. split.
  - intros (? & (i & s & -> & Hs) & He). cbn in He. unfold live_entry in He.
    destruct (value s) eqn:?; simplify_eq/=. naive_solver.
  - intros (i & s & Hs & Hv & ->). exists (Some (encode_handle (f i) (generation s), v)).
    split; [|done]. exists i, s. split; [|done]. cbn. unfold live_entry. by rewrite Hv.
Qed.

Lemma entries_NoDup ss (f : nat → nat) :
  (∀ i j, f i = f j → i = j) → (∀ i s, ss !! i = Some s → Z.of_nat (f i) < u32_max) →
  NoDup (omap id (imap (live_entry ∘ f) ss)).*1.
Proof.
  revert f. induction ss as [|s ss IH]; intros f Hinj Hf; [constructor|].
  rewrite imap_cons. cbn [omap list_omap id compose].
  assert (NoDup (omap id (imap ((live_entry ∘ f) ∘ S) ss)).*1) as Hrest.
  { apply (IH (f ∘ S)); [intros i j H; by apply Hinj in H; lia|].
    intros i s' Hi. by apply (Hf (S i) s'). }
  unfold live_entry at 1. destruct (value s) as [v|] eqn:Hv; [|done]. cbn.
  constructor; [|done]. intros ([h v'] & Hh & Hin)%list_elem_of_fmap. cbn in Hh.
  apply (entry_elem ss (f ∘ S)) in Hin as (i & s' & Hi & _ & ->).
  apply encode_handle_inj in Hh as [Hh%Hinj _]; [done| |].
  - by apply (Hf 0%nat s).
  - by apply (Hf (S i) s').
Qed.

Lemma wf_index t i s : table_wf t → slots t !! i = Some s → Z.of_nat i < u32_max.
Proof. intros [] Hi%lookup_lt_Some. unfold len in *. lia. Qed.

Lemma table_map_lookup t h v :
  table_wf t →
  table_map t !! h = Some v ↔
  ∃ i s, slots t !! i = Some s ∧ value s = Some v ∧ h = encode_handle i (generation s).
Proof.
  intros Hwf. unfold table_map. rewrite <- elem_of_list_to_map.
  - apply (entry_elem (slots t) id).
  - apply (entries_NoDup (slots t) id); [done|]. intros i s. by apply wf_index.
Qed.

Lemma table_get_Some t h v :
  table_wf t →
  table_get t h = Some v ↔
  ∃ i s, slots t !! i = Some s ∧ value s = Some v ∧ h = encode_handle i (generation s).
Proof.
  intros Hwf. unfold table_get. split.
  - destruct (decode_handle h) as [[i g]|] eqn:Hd; [|done]. cbn.
    destruct (slots t !! i) as [s|] eqn:Hs; [|done]. cbn. case_decide; [|done].
    apply decode_handle_Some in Hd as (_ & _ & ->). subst. eauto.
  - intros (i & s & Hs & Hv & ->).
    assert (decode_handle (encode_handle i (generation s)) = Some (i, generation s)) as ->.
    { apply decode_handle_Some. pose proof (tw_gen _ Hwf _ _ Hs).
      split; [lia|]. split; [by eapply wf_index|done]. }
    cbn. rewrite Hs. cbn. by rewrite decide_True.
Qed.

Lemma table_get_map t h : table_wf t → table_get t h = table_map t !! h.
Proof.
  intros Hwf. apply option_eq. intros v.
  by rewrite table_get_Some, table_map_lookup.
Qed.

Lemma entries_length ss (f : nat → nat) :
  len (filter occupied ss) = len (omap id (imap (live_entry ∘ f) ss)).
Proof.
  revert f. induction ss as [|s ss IH]; intros f; [done|].
  rewrite imap_cons. cbn [omap list_omap id compose]. unfold live_entry at 1.
  rewrite filter_cons. specialize (IH (f ∘ S)). unfold occupied in *.
  case_decide; destruct (value s); try done; cbn; rewrite ?len_cons; by rewrite IH.
Qed.

Lemma table_len_map t : table_wf t → table_len t = Z.of_nat (size (table_map t)).
Proof.
  intros Hwf. unfold table_map. rewrite map_size_list_to_map.
  - apply (entries_length (slots t) id).
  - apply (entries_NoDup (slots t) id); [done|]. intros i s. by apply wf_index.
Qed.

(** ** The operations refine the map operations *)

(** Taking the vacant slot on top of the free stack. *)
Lemma occupy_spec t fr i s v :
  table_wf t → free t = fr ++ [i] → slots t !! i = Some s →
  let t' := mkHandleTable (<[i := mkSlot (generation s) (Some v)]> (slots t)) fr in
  let h := encode_handle i (generation s) in
  table_wf t' ∧ table_map t !! h = None ∧ table_map t' = <[h := v]> (table_map t).
Proof.
  intros Hwf Hfree Hs t' h.
  assert (value s = None) as Hvac.
  { destruct (tw_free _ Hwf i) as [(s' & ? & ?) _]; [|by simplify_eq].
    rewrite Hfree. set_solver. }
  assert (NoDup (fr ++ [i])) as (Hnd & Hni & _)%NoDup_app by (rewrite <- Hfree; apply Hwf).
  assert (table_wf t') as Hwf'.
  { split; cbn; [| done| |by unfold len; rewrite length_insert; apply Hwf].
    - intros j s' [(-> & <- & _)|[_ ?]]%list_lookup_insert_Some;
        cbn; by eapply (tw_gen _ Hwf).
    - intros j. setoid_rewrite list_lookup_insert_Some.
      pose proof (tw_free _ Hwf j) as Hj. rewrite Hfree in Hj.
      destruct (decide (j = i)) as [->|]; [|set_solver].
      split; [set_solver|]. by intros (s' & [(_ & <- & _)|[? ?]] & ?). }
  split_and!; [done| |].
  - apply eq_None_not_Some. intros [v' (j & s' & Hj & Hv & He)%table_map_lookup]; [|done].
    apply encode_handle_inj in He as [-> He]; [|by eauto using wf_index..]. naive_solver.
  - apply map_eq. intros h'. apply option_eq. intros v'.
    rewrite table_map_lookup by done. cbn. setoid_rewrite list_lookup_insert_Some.
    rewrite lookup_insert_Some, table_map_lookup by done. split.
    + intros (j & s' & [(-> & <- & _)|[? ?]] & ? & ->); [naive_solver|]. right.
      split; [|eauto]. intros He. apply encode_handle_inj in He; [|by eauto using wf_index..].
      naive_solver.
    + intros [[<- <-]|(Hne & j & s' & ? & ? & ->)].
      * exists i, (mkSlot (generation s) (Some v)).
        split; [left; eauto using lookup_lt_Some|done].
      * exists j, s'. split; [right; split; [naive_solver|done]|done].
Qed.

(** Pushing a vacant slot when the free stack is empty. *)
Lemma grow_spec t :
  table_wf t → free t = [] → len (slots t) < u32_max →
  let t' := mkHandleTable (slots t ++ [mkSlot 1 None]) [length (slots t)] in
  table_wf t' ∧ table_map t' = table_map t.
Proof.
  intros Hwf Hfree Hlen t'.
  assert (∀ j s, slots t' !! j = Some s ↔
    slots t !! j = Some s ∨ j = length (slots t) ∧ s = mkSlot 1 None) as Hl.
  { intros j s. cbn. rewrite lookup_snoc_Some. naive_solver eauto using lookup_lt_Some. }
  assert (table_wf t') as Hwf'.
  { split; [| apply NoDup_singleton | |].
    - intros j s [?|[_ ->]]%Hl; [by eapply (tw_gen _ Hwf)|cbn; zlia].
    - intros j. setoid_rewrite Hl. pose proof (tw_free _ Hwf j) as Hj.
      rewrite Hfree in Hj. cbn. rewrite list_elem_of_singleton. set_solver.
    - cbn. rewrite len_app, len_cons, len_nil. lia. }
  split; [done|]. apply map_eq. intros h. apply option_eq. intros v.
  rewrite !table_map_lookup by done. setoid_rewrite Hl. naive_solver.
Qed.

Lemma table_insert_spec t v :
  table_wf t → has_room t →
  ∃ h t', table_insert t v = Done (h, t') ∧ table_wf t' ∧
    table_map t !! h = None ∧ table_map t' = <[h := v]> (table_map t).
Proof.
  intros Hwf Hroom. unfold table_insert.
  destruct (vec_pop (free t)) as [[i fr]|] eqn:Hpop.
  - apply vec_pop_Some in Hpop.
    destruct (tw_free _ Hwf i) as [(s & Hs & _) _]; [rewrite Hpop; set_solver|].
    rewrite Hs. cbn. do 2 eexists. split; [done|]. by apply occupy_spec.
  - apply vec_pop_None in Hpop. destruct Hroom as [?|Hroom]; [done|].
    destruct (grow_spec t Hwf Hpop Hroom) as [Hwf' Hmap]. rewrite <- Hmap.
    rewrite lookup_app_r, Nat.sub_diag by done. cbn. do 2 eexists. split; [done|].
    rewrite Hpop. refine (occupy_spec (mkHandleTable _ _) [] _ (mkSlot 1 None) v Hwf' _ _);
      [done|]. cbn. by rewrite lookup_app_r, Nat.sub_diag.
Qed.

Lemma table_remove_Some t h v t' :
  table_wf t → table_remove t h = Some (v, t') →
  ∃ i s, slots t !! i = Some s ∧ value s = Some v ∧ h = encode_handle i (generation s) ∧
    t' = mkHandleTable (<[i := mkSlot (next_generation (generation s)) None]> (slots t))
           (free t ++ [i]).
Proof.
  intros Hwf. unfold table_remove.
  destruct (decode_handle h) as [[i g]|] eqn:Hd; [|done]. cbn.
  destruct (slots t !! i) as [s|] eqn:Hs; [|done]. cbn. case_decide; [|done].
  destruct (value s) eqn:Hv; [|done]. cbn. intros [= -> <-].
  apply decode_handle_Some in Hd as (_ & _ & ->). subst. eauto 10.
Qed.

Lemma table_remove_None t h : table_remove t h = None ↔ table_get t h = None.
Proof.
  unfold table_remove, table_get. destruct (decode_handle h) as [[i g]|]; [|done]. cbn.
  destruct (slots t !! i) as [s|]; [|done]. cbn. case_decide; [|done].
  by destruct (value s).
Qed.

Lemma table_remove_spec t h v t' :
  table_wf t → table_remove t h = Some (v, t') →
  table_wf t' ∧ table_map t !! h = Some v ∧ table_map t' = delete h (table_map t).
Proof.
  intros Hwf (i & s & Hs & Hv & -> & ->)%table_remove_Some; [|done].
  set (t' := mkHandleTable _ _).
  assert (table_wf t') as Hwf'.
  { split; cbn.
    - intros j s' [(-> & <- & _)|[_ ?]]%list_lookup_insert_Some; [|by eapply (tw_gen _ Hwf)].
      cbn. apply next_generation_range. by eapply (tw_gen _ Hwf).
    - apply NoDup_app. split_and!; [apply Hwf| |apply NoDup_singleton].
      intros j (s' & ? & ?)%(tw_free _ Hwf) ->%list_elem_of_singleton. naive_solver.
    - intros j. rewrite elem_of_app, list_elem_of_singleton, (tw_free _ Hwf j).
      setoid_rewrite list_lookup_insert_Some. pose proof (lookup_lt_Some _ _ _ Hs).
      split; [naive_solver|]. intros (s' & [(-> & _)|[? ?]] & ?); [by right|left; eauto].
    - unfold len. rewrite length_insert. apply Hwf. }
  split_and!; [done|apply table_map_lookup; eauto|].
  apply map_eq. intros h'. apply option_eq. intros v'.
  rewrite table_map_lookup by done. cbn. setoid_rewrite list_lookup_insert_Some.
  rewrite lookup_delete_Some, table_map_lookup by done. split.
  - intros (j & s' & [(-> & <- & _)|[? ?]] & ? & ->); [done|]. split; [|eauto].
    intros He. apply encode_handle_inj in He; [|by eauto using wf_index..]. naive_solver.
  - intros (Hne & j & s' & ? & ? & ->). exists j, s'. split; [right|done].
    split; [|done]. naive_solver.
Qed.

Lemma table_get_mut_spec t h f v :
  table_wf t → table_get t h = Some v →
  ∃ t', table_get_mut t h f = Some t' ∧ table_wf t' ∧ table_map t' = <[h := f v]> (table_map t).
Proof.
  intros Hwf Hget. pose proof Hget as (i & s & Hs & Hv & ->)%table_get_Some; [|done].
  unfold table_get_mut. unfold table_get in Hget. destruct (decode_handle _) as [[i' g]|] eqn:Hd; [|done].
  apply decode_handle_Some in Hd as (? & ? & He). apply encode_handle_inj in He as [<- <-]; [|by eauto using wf_index..].
  cbn. rewrite Hs. cbn. rewrite decide_True by done. rewrite Hv. cbn. eexists. split; [done|]. set (t' := mkHandleTable _ _).
  assert (table_wf t') as Hwf'.
  { split; cbn; [|apply Hwf| |by unfold len; rewrite length_insert; apply Hwf].
    - intros j s' [(-> & <- & _)|[_ ?]]%list_lookup_insert_Some; cbn; by eapply (tw_gen _ Hwf).
    - intros j. setoid_rewrite list_lookup_insert_Some. rewrite (tw_free _ Hwf j). split.
      + intros (s' & Hj & Hn). exists s'. split; [|done]. right. split; [|done]. intros <-. naive_solver.
      + intros (s' & [(-> & <- & _)|[_ ?]] & ?); [done|eauto]. }
  split; [done|]. apply map_eq. intros h'. apply option_eq. intros v'.
  rewrite table_map_lookup by done. cbn. setoid_rewrite list_lookup_insert_Some.
  rewrite lookup_insert_Some, table_map_lookup by done. split.
  - intros (j & s' & [(-> & <- & _)|[? ?]] & Hv' & ->); [left; naive_solver|]. right.
    split; [|eauto]. intros He. apply encode_handle_inj in He; [|by eauto using wf_index..]. naive_solver.
  - intros [[<- <-]|(Hne & j & s' & ? & ? & ->)].
    + eexists i, _. split; [left; eauto using lookup_lt_Some|done].
    + exists j, s'. split; [right; split; [naive_solver|done]|done].
Qed.

(** ** Stale handles *)

(** Generations on the cycle [1, u32_max], counted from 0. *)
Definition slot_phase t (i : nat) : option Z :=
  s ← slots t !! i; Some (generation s - 1).

Lemma table_apply_phase t o i p :
  slot_phase t i = Some p → 0 ≤ p < u32_max →
  slot_phase (table_apply t o) i = Some p ∨
  slot_phase (table_apply t o) i = Some ((p + 1) mod u32_max).
Proof.
  unfold slot_phase. destruct (slots t !! i) as [s|] eqn:Hs; intros [= <-] Hp.
  pose proof (lookup_lt_Some _ _ _ Hs) as Hlt.
  destruct o as [v|h]; cbn.
  - left. unfold table_insert. destruct (vec_pop _) as [[j fr]|]; cbn.
    + destruct (slots t !! j) as [s'|] eqn:Hj; cbn; [|by rewrite Hs].
      destruct (decide (i = j)) as [->|].
      * rewrite list_lookup_insert_eq by done. by simplify_eq/=.
      * rewrite list_lookup_insert_ne by done. by rewrite Hs.
    + rewrite lookup_app_r, Nat.sub_diag by done. cbn.
      rewrite list_lookup_insert_ne by lia. rewrite lookup_app_l by done. by rewrite Hs.
  - unfold table_remove. destruct (decode_handle h) as [[j g]|]; cbn; [|rewrite Hs; auto].
    destruct (slots t !! j) as [s'|] eqn:Hj; cbn; [|rewrite Hs; auto].
    case_decide; [|rewrite Hs; auto]. destruct (value s'); cbn; [|rewrite Hs; auto].
    destruct (decide (i = j)) as [->|].
    + rewrite list_lookup_insert_eq by done. simplify_eq/=. right. f_equal.
      by apply next_generation_cyclic; lia.
    + rewrite list_lookup_insert_ne, Hs by done. auto.
Qed.

Lemma table_run_phase t os i p :
  slot_phase t i = Some p → 0 ≤ p < u32_max →
  ∃ k, 0 ≤ k ≤ len os ∧ slot_phase (table_run t os) i = Some ((p + k) mod u32_max).
Proof.
  revert t p. induction os as [|o os IH]; intros t p Ht Hp; cbn.
  { exists 0. split; [done|]. by rewrite Z.add_0_r, Z.mod_small. }
  rewrite len_cons. destruct (table_apply_phase t o i p Ht Hp) as [H|H].
  - destruct (IH _ _ H Hp) as (k & ? & ?). exists k. split; [lia|done].
  - destruct (IH _ _ H) as (k & ? & Hk); [by apply Z.mod_pos_bound|].
    exists (1 + k). split; [lia|]. unfold table_run in *. cbn. rewrite Hk.
    by rewrite Z.add_mod_idemp_l, Z.add_assoc.
Qed.

Lemma table_get_phase t i g :
  1 ≤ g → Z.of_nat i < u32_max → slot_phase t i ≠ Some (g - 1) →
  table_get t (encode_handle i g) = None.
Proof.
  intros Hg Hi Hph. unfold table_get.
  assert (decode_handle (encode_handle i g) = Some (i, g)) as ->.
  { apply decode_handle_Some. split; [lia|done]. }
  cbn. unfold slot_phase in Hph. destruct (slots t !! i) as [s|]; [|done]. cbn in *.
  case_decide; [|done]. congruence.
Qed.

(** Once a handle is removed, reading it fails after any sequence of further
    insertions and removals, up to the wrap of the 32-bit generation: 2^32 - 3
    operations are safe. *)
Theorem stale_handle_rejected t h v t' os :
  table_wf t → table_remove t h = Some (v, t') → len os ≤ u32_max - 2 →
  table_get (table_run t' os) h = None.
Proof.
  intros Hwf (i & s & Hs & Hv & -> & ->)%table_remove_Some Hos; [|done].
  pose proof (tw_gen _ Hwf _ _ Hs) as Hg.
  apply table_get_phase; [lia|by eapply wf_index|].
  set (t' := mkHandleTable _ _).
  assert (slot_phase t' i = Some ((generation s - 1 + 1) mod u32_max)) as Hph.
  { unfold slot_phase. cbn. rewrite list_lookup_insert_eq by eauto using lookup_lt_Some.
    cbn. f_equal. by apply next_generation_cyclic. }
  destruct (table_run_phase t' os _ _ Hph) as (k & Hk & ->); [by apply Z.mod_pos_bound|].
  rewrite Z.add_mod_idemp_l by done. intros [= Heq].
  pose proof (Z.div_mod (generation s - 1 + 1 + k) u32_max).
  assert ((generation s - 1 + 1 + k) `div` u32_max = 0 ∨
          (generation s - 1 + 1 + k) `div` u32_max = 1) as Hq.
  { pose proof (Z.div_le_upper_bound (generation s - 1 + 1 + k) u32_max 1).
    pose proof (Z.div_pos (generation s - 1 + 1 + k) u32_max). zlia. }
  destruct Hq as [Hq|Hq]; rewrite Hq in *; zlia.
Qed.

End HandleTable.

Lemma table_new_wf {T} : table_wf (@table_new T).
Proof.
  split; cbn; [done|constructor| |done].
  intros i. split; [by intros ?%elem_of_nil|by intros (? & ? & ?)].
Qed.

(** ** Buffer store *)

Module Buffer.
(** The store owns the bytes; a view carries its token, whether its address is
    null, and its length. *)
Definition BufferStore := HandleTable (list byte).

Record BufferView := mkBufferView {
  token : Handle;
  ptr_null : bool;
  view_len : Z
}.

Definition insert (st : BufferStore) (bytes : list byte) : outcome (BufferView * BufferStore) :=
  '(tok, st') ← table_insert st bytes;
  Done (mkBufferView tok (bool_decide (bytes = [])) (len bytes), st').

Definition release (st : BufferStore) (tok : Handle) : Result unit * BufferStore :=
  match table_remove st tok with
  | Some (_, st') => (Ok tt, st')
  | None => (fail ErrorCode.InvalidHandle "invalid buffer token", st)
  end.

Definition copy (st : BufferStore) (tok : Handle) : Result (list byte) :=
  ok_or (table_get st tok) (mkRnetError ErrorCode.InvalidHandle "invalid buffer token").

Definition outstanding (st : BufferStore) : Z := len (table_handles st).

Lemma outstanding_size st : table_wf st → outstanding st = Z.of_nat (size (table_map st)).
Proof.
  intros Hwf. unfold outstanding, table_handles, len. rewrite length_fmap.
  unfold table_map. rewrite map_size_list_to_map; [done|].
  apply (entries_NoDup (slots st) id); [done|]. intros i s. by apply wf_index.
Qed.

(** A buffer inserted into a store with room is readable through its token,
    byte for byte, until it is released; the insertion and the release change no
    other token and move the outstanding gauge by exactly one; and a second
    release, or a copy after it, is refused with [InvalidHandle] and changes
    nothing. *)
Theorem buffer_ownership st bytes :
  table_wf st → has_room st →
  ∃ view st', insert st bytes = Done (view, st') ∧ table_wf st' ∧
    (ptr_null view = true ↔ bytes = []) ∧ view_len view = len bytes ∧
    copy st' (token view) = Ok bytes ∧
    (∀ tok, tok ≠ token view → copy st' tok = copy st tok) ∧
    outstanding st' = outstanding st + 1 ∧
    ∃ st'', release st' (token view) = (Ok tt, st'') ∧ table_wf st'' ∧
      (∀ tok, copy st'' tok = copy st tok) ∧
      outstanding st'' = outstanding st ∧
      release st'' (token view)
      = (fail ErrorCode.InvalidHandle "invalid buffer token", st'') ∧
      status (copy st'' (token view)) = ErrorCode.InvalidHandle.
Proof.
  intros Hwf Hroom.
  destruct (table_insert_spec st bytes Hwf Hroom) as (h & st' & Hins & Hwf' & Hfresh & Hmap).
  unfold insert. rewrite Hins. do 2 eexists. split; [done|]. cbn.
  unfold copy. setoid_rewrite (table_get_map st' _ Hwf'). setoid_rewrite (table_get_map st _ Hwf).
  rewrite Hmap. split_and!; [done| apply bool_decide_eq_true |done| | | |].
  { by rewrite lookup_insert_eq. }
  { intros tok ?. by rewrite lookup_insert_ne. }
  { rewrite !outstanding_size, Hmap, map_size_insert_None by done. lia. }
  unfold release. destruct (table_remove st' h) as [[v st'']|] eqn:Hrem.
  2:{ rewrite table_remove_None, table_get_map, Hmap, lookup_insert_eq in Hrem by done. done. }
  destruct (table_remove_spec _ _ _ _ Hwf' Hrem) as (Hwf'' & _ & Hmap'').
  rewrite Hmap, delete_insert_id in Hmap'' by done.
  assert (table_remove st'' h = None) as Hgone.
  { by rewrite table_remove_None, table_get_map, Hmap''. }
  exists st''. split_and!; [done|done| | | |].
  - intros tok. by rewrite table_get_map, Hmap''.
  - by rewrite !outstanding_size, Hmap''.
  - by rewrite Hgone.
  - by rewrite table_get_map, Hmap'', Hfresh.
Qed.

Lemma buffer_ownership_witness :
  ∃ view st', insert table_new [Byte.x01] = Done (view, st') ∧ table_wf st' ∧
    copy st' (token view) = Ok [Byte.x01].
Proof.
  destruct (buffer_ownership table_new [Byte.x01]) as (view & st' & ? & ? & _ & _ & ? & _).
  - apply table_new_wf.
  - by right.
  - eauto.
Defined.
End Buffer.

(** ** Claims *)

(** C20: The generational table refines a finite map from live handles to values:
    reading a handle is a map lookup, insertion allocates a handle that is not
    live and adds exactly that binding, removal deletes exactly that binding and
    returns its value (and fails without effect on a handle that is not live),
    and the count is the size of the map; all preserve well-formedness. *)
Theorem table_refines_map {T} (t : HandleTable T) :
  table_wf t →
  (∀ h, table_get t h = table_map t !! h) ∧
  (∀ v, has_room t → ∃ h t', table_insert t v = Done (h, t') ∧ table_wf t' ∧
     table_map t !! h = None ∧ table_map t' = <[h := v]> (table_map t)) ∧
  (∀ h, match table_remove t h with
        | Some (v, t') => table_wf t' ∧ table_map t !! h = Some v ∧
                          table_map t' = delete h (table_map t)
        | None => table_map t !! h = None
        end) ∧
  table_len t = Z.of_nat (size (table_map t)).
Proof.
  intros Hwf. split_and!.
  - intros h. by apply table_get_map.
  - intros v. by apply table_insert_spec.
  - intros h. destruct (table_remove t h) as [[v t']|] eqn:Hrem.
    + by apply table_remove_spec.
    + by rewrite <- table_get_map, <- table_remove_None.
  - by apply table_len_map.
Qed.

Lemma table_refines_map_witness :
  table_wf (@table_new Z) ∧
  ∃ h t', table_insert table_new 7 = Done (h, t') ∧ table_map t' = {[h := 7]}.
Proof.
  split; [apply table_new_wf|].
  destruct (table_refines_map (@table_new Z) table_new_wf) as (_ & Hins & _).
  destruct (Hins 7) as (h & t' & ? & _ & _ & Hm); [by right|]. exists h, t'. by split.
Defined.

Lemma stale_handle_rejected_witness :
  ∃ t', table_remove (mkHandleTable [mkSlot 1 (Some 7)] []) (encode_handle 0 1) = Some (7, t') ∧
  table_get (table_run t' [OpInsert 8; OpInsert 9]) (encode_handle 0 1) = None.
Proof.
  eexists. split; [reflexivity|].
  apply (stale_handle_rejected (mkHandleTable [mkSlot 1 (Some 7)] []) (encode_handle 0 1) 7);
    [|reflexivity|done].
  split; cbn; [|constructor| |done].
  - intros [|i] s; cbn; [intros [= <-]; done|done].
  - intros i. split; [by intros ?%elem_of_nil|]. by intros (s & Hs & Hv); destruct i; simplify_eq/=.
Defined.
