(* ===== verification/EventQueue.v ===== *)
(** * Bounded event queue: rnet-core [event_queue.rs]

    Each definition is one critical section under the queue lock.  A call that
    waits on a condition variable ([push_timeout], [poll]) is split at the wait:
    what it does on entry and what it does when it wakes, on the queue as other
    threads left it. *)

From S2P Require Import Prelude Bytes CoreTypes.

Record EventQueue := mkEventQueue {
  capacity : Z;
  byte_capacity : Z;
  queued_bytes : Z;
  queue : list Event
}.
#[export] Instance eta_EventQueue : Eta EventQueue := λ q,
  mkEventQueue (capacity q) (byte_capacity q) (queued_bytes q) (queue q).

Definition data_len (e : Event) : Z := len (data e).

Definition new_with_limits (cap byte_cap : Z) : Result EventQueue :=
  if decide (cap = 0 ∨ byte_cap = 0) then
    fail ErrorCode.InvalidArgument "event queue count and byte capacities must be positive"
  else Ok (mkEventQueue cap byte_cap 0 []).

Definition new (cap : Z) : Result EventQueue := new_with_limits cap usize_max.

(** [queued_bytes.checked_add(n).is_none_or(|total| total > byte_capacity)]. *)
Definition bytes_exhausted (q : EventQueue) (n : Z) : bool :=
  is_none_or (checked_add usize_max (queued_bytes q) n)
    (λ total, bool_decide (total > byte_capacity q)).

Definition is_full (q : EventQueue) (e : Event) : bool :=
  bool_decide (len (queue q) = capacity q) || bytes_exhausted q (data_len e).

(** Charge, stamp and append. *)
Definition push_back (q : EventQueue) (e : Event) (now : Instant) : EventQueue :=
  q <| queued_bytes ::= Z.add (data_len e) |>
    <| queue ::= λ l, l ++ [e <| queued_at := now |>] |>.

Definition try_push (q : EventQueue) (e : Event) (now : Instant) : Result unit * EventQueue :=
  if is_full q e then (fail ErrorCode.WouldBlock "event queue is full", q)
  else (Ok tt, push_back q e now).

(** ** Priority publication *)

Definition strippable (e : Event) : bool :=
  match event_type e with
  | EventType.SessionClosed | EventType.JoinFailed | EventType.EndpointError => true
  | _ => false
  end.

Definition evictable (e : Event) : bool :=
  match event_type e with
  | EventType.Message | EventType.Writable | EventType.GameControl => true
  | _ => false
  end.

(** [iter().position(..)] and [remove(position)]. *)
Definition evict_one (q : EventQueue) : option EventQueue :=
  '(position, removed) ← list_find evictable (queue q);
  Some (q <| queue ::= delete position |>
          <| queued_bytes ::= λ b, saturating_sub b (data_len removed) |>).

(** The eviction loop; the result is [None] when the fuel runs out. *)
Fixpoint make_room (fuel : nat) (q : EventQueue) (e : Event) (evicted : bool)
    : option (Result bool * EventQueue) :=
  match fuel with
  | O => None
  | S fuel =>
    if is_full q e then
      match evict_one q with
      | Some q' => make_room fuel q' e true
      | None =>
        Some (fail ErrorCode.WouldBlock "event queue contains only lifecycle notifications", q)
      end
    else Some (Ok evicted, q)
  end.

Definition strip_details (q : EventQueue) (e : Event) : Event :=
  if strippable e && bytes_exhausted q (data_len e) then e <| data := [] |> else e.

Definition push_priority (q : EventQueue) (event : Event) (now : Instant)
    : option (Result bool * EventQueue) :=
  let e := strip_details q event in
  if decide (data_len e > byte_capacity q) then
    Some (fail ErrorCode.WouldBlock "lifecycle event exceeds the event byte budget", q)
  else
    '(r, q') ← make_room (S (length (queue q))) q e false;
    match r with
    | Ok evicted => Some (Ok evicted, push_back q' e now)
    | Err err => Some (Err err, q')
    end.

(** ** Waiting publication *)

(** The latest representable [Instant]. *)
Definition instant_max : Z := 2 ^ 63 * 10 ^ 9 - 1.

Inductive push_wait :=
| PushDone (r : Result unit)
| PushSleep.

Definition push_deadline (now : Instant) (timeout : Duration) : Result Instant :=
  ok_or (checked_add instant_max now timeout)
    (mkRnetError ErrorCode.InvalidArgument "event queue timeout cannot form a valid deadline").

(** One pass over the loop head: push, give up, or sleep. *)
Definition push_timeout_attempt (q : EventQueue) (e : Event) (deadline now : Instant)
    : push_wait * EventQueue :=
  if is_full q e then
    if decide (saturating_sub deadline now = 0) then
      (PushDone (fail ErrorCode.WouldBlock "event queue remained full"), q)
    else (PushSleep, q)
  else (PushDone (Ok tt), push_back q e now).

(** Waking from [wait_timeout]. *)
Definition push_timeout_wake (q : EventQueue) (e : Event) (deadline now : Instant)
    (timed_out : bool) : push_wait * EventQueue :=
  if timed_out && is_full q e then
    (PushDone (fail ErrorCode.WouldBlock "event queue remained full"), q)
  else push_timeout_attempt q e deadline now.

(** ** Polling *)

(** [take_while] with the captured [remaining_bytes]. *)
Fixpoint fitting (l : list Event) (remaining_bytes : Z) : nat :=
  match l with
  | [] => 0
  | e :: l =>
    if decide (data_len e > remaining_bytes) then 0
    else S (fitting l (remaining_bytes - data_len e))
  end.

(** The part of [poll_with_byte_limit] after the optional wait. *)
Definition poll_take (q : EventQueue) (cap byte_limit : Z) : list Event * EventQueue :=
  let n := fitting (take (Z.to_nat cap) (queue q)) byte_limit in
  let events := take n (queue q) in
  if decide (n = 0%nat) then (events, q)
  else (events, q <| queue ::= drop n |>
                  <| queued_bytes ::= λ b, saturating_sub b (sumZ data_len events) |>).

(** Whether a poll sleeps before taking, and the poll on the queue it finds. *)
Definition poll_sleeps (q : EventQueue) (cap timeout : Z) : bool :=
  bool_decide (cap ≠ 0) && bool_decide (queue q = []) && bool_decide (timeout ≠ 0).

Definition poll_with_byte_limit (q : EventQueue) (cap byte_limit : Z) : list Event * EventQueue :=
  if decide (cap = 0) then ([], q) else poll_take q cap byte_limit.

Definition poll (q : EventQueue) (cap : Z) : list Event * EventQueue :=
  poll_with_byte_limit q cap usize_max.

Definition queue_len (q : EventQueue) : Z := len (queue q).
Definition queue_is_empty (q : EventQueue) : bool := bool_decide (queue_len q = 0).

(** ** Invariant *)

(** The byte counter is the payload volume of the queue, and both limits hold. *)
Record queue_inv (q : EventQueue) : Prop := {
  qi_cap : 0 < capacity q;
  qi_bytes_cap : 0 < byte_capacity q ≤ usize_max;
  qi_accounting : queued_bytes q = sumZ data_len (queue q);
  qi_count : len (queue q) ≤ capacity q;
  qi_bytes : queued_bytes q ≤ byte_capacity q
}.

Lemma data_len_nonneg e : 0 ≤ data_len e.
Proof. apply len_nonneg. Qed.
Lemma data_sum_nonneg l : 0 ≤ sumZ data_len l.
Proof. apply sumZ_nonneg, data_len_nonneg. Qed.
#[export] Hint Resolve data_len_nonneg data_sum_nonneg : rnet.

Lemma bytes_exhausted_spec q n :
  queue_inv q → bytes_exhausted q n = true ↔ byte_capacity q < queued_bytes q + n.
Proof.
  intros Hi. unfold bytes_exhausted. pose proof (qi_bytes_cap _ Hi).
  destruct (checked_add _ _ _) as [t|] eqn:Ht; cbn.
  - apply checked_add_Some in Ht as [-> ?]. rewrite bool_decide_eq_true. lia.
  - apply checked_add_None in Ht. lia.
Qed.

Lemma is_full_spec q e :
  queue_inv q →
  is_full q e = true ↔
  len (queue q) = capacity q ∨ byte_capacity q < queued_bytes q + data_len e.
Proof.
  intros Hi. unfold is_full.
  by rewrite orb_true_iff, bytes_exhausted_spec, bool_decide_eq_true.
Qed.

Lemma push_back_inv q e now :
  queue_inv q → is_full q e = false → queue_inv (push_back q e now).
Proof.
  intros Hi Hf. assert (¬ is_full q e = true) as Hn by by rewrite Hf.
  rewrite is_full_spec in Hn by done. destruct Hi. cbn.
  split; cbn; autorewrite with rnet; unfold data_len in *; cbn in *; lia.
Qed.

Lemma new_with_limits_inv cap bcap q :
  in_u64 cap → in_u64 bcap → new_with_limits cap bcap = Ok q → queue_inv q.
Proof.
  unfold new_with_limits. intros ??. case_decide; intros [= <-].
  split; cbn; rewrite ?len_nil, ?sumZ_nil; zlia.
Qed.

(** ** Eviction *)

Abbreviation lifecycle l := (filter (λ e, ¬ evictable e) l).
Abbreviation droppable l := (filter (λ e, Is_true (evictable e)) l).

(** [l'] is [l] without its [k] oldest droppable events. *)
Record evicts (k : nat) (l l' : list Event) : Prop := {
  ev_keep : lifecycle l' = lifecycle l;
  ev_drop : droppable l' = drop k (droppable l);
  ev_sublist : l' `sublist_of` l
}.

Lemma evicts_refl l : evicts 0 l l.
Proof. by split. Qed.

Lemma evicts_step k x l pre post :
  evicts k l (pre ++ x :: post) → Forall (λ e, ¬ evictable e) pre → evictable x →
  evicts (S k) l (pre ++ post) ∧ droppable l !! k = Some x.
Proof.
  intros [Hk Hd Hs] Hpre Hx.
  assert (droppable (pre ++ x :: post) = x :: droppable (pre ++ post)) as Hd'.
  { rewrite !filter_app, filter_cons_True by done.
    assert (droppable pre = []) as ->; [|done].
    by apply filter_none. }
  rewrite Hd' in Hd. split.
  - split.
    + rewrite <- Hk, !filter_app, (filter_cons_False _ x); [done|]. by intros [].
    + rewrite <- Nat.add_1_r, <- drop_drop, <- Hd. done.
    + etrans; [|exact Hs]. apply sublist_app; [done|]. by apply sublist_cons.
  - rewrite <- (Nat.add_0_r k), <- lookup_drop, <- Hd. done.
Qed.

Lemma evict_one_spec q :
  match evict_one q with
  | Some q' => ∃ pre x post, queue q = pre ++ x :: post ∧
      Forall (λ e, ¬ evictable e) pre ∧ evictable x ∧
      q' = mkEventQueue (capacity q) (byte_capacity q)
             (saturating_sub (queued_bytes q) (data_len x)) (pre ++ post)
  | None => droppable (queue q) = []
  end.
Proof.
  unfold evict_one. destruct (list_find _ _) as [[i x]|] eqn:Hf; cbn.
  - apply list_find_Some in Hf as (Hi & Hx & Hpre).
    exists (take i (queue q)), x, (drop (S i) (queue q)). split_and!.
    + symmetry. by apply take_drop_middle.
    + apply Forall_lookup. intros j y [Hy ?]%lookup_take_Some. by eapply Hpre.
    + done.
    + by rewrite delete_take_drop.
  - apply list_find_None in Hf. by apply filter_none.
Qed.

(** Whether [e] would fit once the [k] oldest droppable events are gone. *)
Definition fits_after (q : EventQueue) (e : Event) (k : nat) : Prop :=
  len (queue q) - Z.of_nat k < capacity q ∧
  queued_bytes q - sumZ data_len (take k (droppable (queue q))) + data_len e
  ≤ byte_capacity q.

(** [q1] is [q] after the [k] oldest droppable events were removed. *)
Record evicted_from (q : EventQueue) (k : nat) (q1 : EventQueue) : Prop := {
  ef_inv : queue_inv q1;
  ef_caps : capacity q1 = capacity q ∧ byte_capacity q1 = byte_capacity q;
  ef_evicts : evicts k (queue q) (queue q1);
  ef_len : len (queue q1) = len (queue q) - Z.of_nat k;
  ef_bytes : queued_bytes q1
             = queued_bytes q - sumZ data_len (take k (droppable (queue q)))
}.

Lemma evicted_fits q k q1 e :
  evicted_from q k q1 → is_full q1 e = false ↔ fits_after q e k.
Proof.
  intros [Hi [Hc Hb] _ Hl Hq].
  rewrite <- not_true_iff_false, is_full_spec by done. unfold fits_after.
  pose proof (qi_count _ Hi). rewrite Hc, Hb, Hl, Hq in *. lia.
Qed.

Lemma evict_one_from q k q1 q2 :
  evicted_from q k q1 → evict_one q1 = Some q2 → evicted_from q (S k) q2.
Proof.
  intros [Hi [Hc Hb] He Hl Hq] Hev. pose proof (evict_one_spec q1) as Hsp.
  rewrite Hev in Hsp. destruct Hsp as (pre & x & post & Hq1 & Hpre & Hx & ->).
  rewrite Hq1 in *. destruct (evicts_step _ _ _ _ _ He Hpre Hx) as [He' Hk].
  assert (saturating_sub (queued_bytes q1) (data_len x) = queued_bytes q1 - data_len x) as ->.
  { pose proof (qi_accounting _ Hi) as Ha. rewrite Hq1, sumZ_app, sumZ_cons in Ha.
    pose proof (data_sum_nonneg pre). pose proof (data_sum_nonneg post). zlia. }
  autorewrite with rnet in Hl. split; cbn.
  - destruct Hi as [? ? Ha ? ?]. rewrite Hq1 in *. autorewrite with rnet in *.
    pose proof (data_len_nonneg x). split; cbn; autorewrite with rnet; lia.
  - done.
  - done.
  - rewrite len_app. lia.
  - rewrite (take_S_r _ _ _ Hk), sumZ_app, sumZ_cons, sumZ_nil. lia.
Qed.

(** The loop ends within its fuel, having removed the [k] oldest droppable events
    and no more than were needed. *)
Lemma make_room_spec fuel q k q1 e ev :
  evicted_from q k q1 → (∀ j, (j < k)%nat → ¬ fits_after q e j) →
  (length (droppable (queue q1)) < fuel)%nat →
  ∃ r q2 k2, make_room fuel q1 e ev = Some (r, q2) ∧ evicted_from q k2 q2 ∧
    (k ≤ k2)%nat ∧ (∀ j, (j < k2)%nat → ¬ fits_after q e j) ∧
    match r with
    | Ok ev2 => is_full q2 e = false ∧ ev2 = ev || bool_decide (k2 ≠ k)
    | Err err => code err = ErrorCode.WouldBlock ∧ is_full q2 e = true ∧
                 droppable (queue q2) = []
    end.
Proof.
  revert k q1 ev. induction fuel as [|fuel IH]; intros k q1 ev Hef Hmin Hfuel; [lia|].
  cbn. destruct (is_full q1 e) eqn:Hfull.
  2:{ exists (Ok ev), q1, k. split_and!; try done. rewrite bool_decide_false by naive_solver.
      by rewrite orb_false_r. }
  destruct (evict_one q1) as [q2|] eqn:Hev.
  - pose proof (evict_one_from _ _ _ _ Hef Hev) as Hef2.
    destruct (IH (S k) q2 true Hef2) as (r & q3 & k3 & Hr & Hef3 & Hle & Hmin3 & Hres).
    + intros j Hj. destruct (decide (j = k)) as [->|]; [|apply Hmin; lia].
      rewrite <- evicted_fits by done. by rewrite Hfull.
    + rewrite (ev_drop _ _ _ (ef_evicts _ _ _ Hef2)), length_drop.
      rewrite (ev_drop _ _ _ (ef_evicts _ _ _ Hef)), length_drop in Hfuel.
      pose proof (evict_one_spec q1) as Hsp. rewrite Hev in Hsp.
      destruct Hsp as (pre & x & post & Hq1 & Hpre & Hx & _).
      pose proof (ef_evicts _ _ _ Hef) as He. rewrite Hq1 in He.
      destruct (evicts_step _ _ _ _ _ He Hpre Hx) as [_ ?%lookup_lt_Some]. lia.
    + exists r, q3, k3. split_and!; try done; [lia|]. destruct r; [|done].
      destruct Hres as [? ->]. split; [done|]. cbn.
      rewrite bool_decide_true by lia. by rewrite orb_true_r.
  - do 3 eexists. split; [done|]. split_and!; try done; cbn.
    split_and!; [done|done|]. pose proof (evict_one_spec q1) as Hsp. by rewrite Hev in Hsp.
Qed.

Lemma evicted_from_refl q : queue_inv q → evicted_from q 0 q.
Proof. intros Hi. split; [done|done|apply evicts_refl|lia|]. rewrite take_0, sumZ_nil. lia. Qed.

Definition stamped (e : Event) (now : Instant) : Event := e <| queued_at := now |>.

Lemma strip_details_fits q e :
  queue_inv q → strippable e = true →
  queued_bytes q + data_len (strip_details q e) ≤ byte_capacity q.
Proof.
  intros Hi Hs. unfold strip_details. rewrite Hs. cbn.
  destruct (bytes_exhausted q (data_len e)) eqn:Hb; cbn.
  - change (data_len _) with 0. pose proof (qi_bytes _ Hi). lia.
  - assert (¬ bytes_exhausted q (data_len e) = true) as Hn by by rewrite Hb.
    rewrite bytes_exhausted_spec in Hn by done. lia.
Qed.

(** What [push_priority] may do to a queue: [k] is the number of evictions. *)
Definition priority_post (q : EventQueue) (e : Event) (now : Instant)
    (r : Result bool) (q' : EventQueue) (k : nat) : Prop :=
  let e' := strip_details q e in
  (∀ j, (j < k)%nat → ¬ fits_after q e' j) ∧
  match r with
  | Ok ev => ∃ kept, queue q' = kept ++ [stamped e' now] ∧ evicts k (queue q) kept ∧
      ev = bool_decide (k ≠ 0%nat) ∧ (strippable e = true → (k ≤ 1)%nat)
  | Err err => code err = ErrorCode.WouldBlock ∧ evicts k (queue q) (queue q') ∧
      (byte_capacity q < data_len e' ∧ k = 0%nat ∧ q' = q ∨
       is_full q' e' = true ∧ droppable (queue q') = [])
  end.

Lemma push_priority_post q e now :
  queue_inv q →
  ∃ r q' k, push_priority q e now = Some (r, q') ∧ queue_inv q' ∧ priority_post q e now r q' k.
Proof.
  intros Hi. unfold push_priority, priority_post. case_decide as Hbig.
  { do 2 eexists. exists 0%nat. split; [done|]. split; [done|]. split; [lia|].
    split_and!; [done|apply evicts_refl|]. left. split_and!; [lia|done..]. }
  destruct (make_room_spec (S (length (queue q))) q 0 q (strip_details q e) false)
    as (r & q2 & k & -> & Hef & _ & Hmin & Hres).
  { by apply evicted_from_refl. } { lia. }
  { pose proof (length_filter (λ e, Is_true (evictable e)) (queue q)). lia. }
  pose proof (ef_evicts _ _ _ Hef) as Hevs.
  destruct r as [ev|err]; cbn; do 2 eexists; exists k; (split; [done|]).
  - destruct Hres as [Hnf ->]. split; [apply push_back_inv; [apply Hef|done]|].
    split; [done|]. exists (queue q2). split_and!; [done|done|done|].
    intros Hs. destruct (decide (k ≤ 1)%nat) as [|Hk]; [done|]. exfalso.
    apply (Hmin 1%nat); [lia|]. unfold fits_after.
    pose proof (strip_details_fits q e Hi Hs). pose proof (qi_count _ Hi).
    pose proof (data_sum_nonneg (take 1 (droppable (queue q)))). lia.
  - destruct Hres as (? & ? & ?). split; [apply Hef|]. split; [done|]. auto.
Qed.

(** ** Polling *)

Lemma fitting_spec l b :
  0 ≤ b →
  (fitting l b ≤ length l)%nat ∧ sumZ data_len (take (fitting l b) l) ≤ b ∧
  (fitting l b = length l ∨
   ∃ e, l !! fitting l b = Some e ∧ b < sumZ data_len (take (fitting l b) l) + data_len e).
Proof.
  revert b. induction l as [|e l IH]; intros b Hb; cbn; [by auto|].
  case_decide as Hd; cbn; rewrite ?sumZ_nil, ?sumZ_cons.
  - split_and!; [lia|done|]. right. exists e. split; [done|lia].
  - destruct (IH (b - data_len e)) as (? & ? & [?|(e' & ? & ?)]); [lia|..];
      (split_and!; [lia|lia|]); [left; lia|right]. exists e'. split; [done|lia].
Qed.

(** The conditions under which a batch is the longest prefix that may be taken. *)
Definition maximal_prefix (cap byte_limit : Z) (events rest : list Event) : Prop :=
  len events = cap ∨ rest = [] ∨
  ∃ e l, rest = e :: l ∧ byte_limit < sumZ data_len events + data_len e.

Lemma poll_post q cap byte_limit events q' :
  queue_inv q → 0 ≤ cap → 0 ≤ byte_limit →
  poll_with_byte_limit q cap byte_limit = (events, q') →
  queue_inv q' ∧ queue q = events ++ queue q' ∧
  len events ≤ cap ∧ sumZ data_len events ≤ byte_limit ∧
  maximal_prefix cap byte_limit events (queue q').
Proof.
  intros Hi Hc Hb. unfold poll_with_byte_limit, maximal_prefix. case_decide as Hz.
  { intros [= <- <-]. rewrite len_nil, sumZ_nil. split_and!; auto. }
  unfold poll_take. set (n := fitting _ _).
  destruct (fitting_spec (take (Z.to_nat cap) (queue q)) byte_limit Hb) as (Hn & Hsum & Hmax).
  fold n in Hn, Hsum, Hmax. rewrite length_take in *. rewrite take_take in *.
  replace (n `min` Z.to_nat cap)%nat with n in * by lia.
  assert (len (take n (queue q)) = Z.of_nat n) as Hlen
    by (unfold len; rewrite length_take; lia).
  intros Hpoll. assert (events = take n (queue q) ∧ queue q' = drop n (queue q)) as [-> Hq'].
  { case_decide as Hn0; simplify_eq/=; [by rewrite Hn0|done]. }
  rewrite Hq'. split_and!; [|by rewrite take_drop|lia|done|].
  - pose proof (qi_accounting _ Hi) as Ha. rewrite <- (take_drop n (queue q)), sumZ_app in Ha.
    pose proof (data_sum_nonneg (take n (queue q))).
    pose proof (data_sum_nonneg (drop n (queue q))).
    case_decide; simplify_eq/=; [done|]. destruct Hi. split; cbn; [lia..|zlia|
      unfold len in *; rewrite length_drop; lia|zlia].
  - destruct Hmax as [Hmax|(e & [He ?]%lookup_take_Some & ?)].
    + destruct (decide (Z.of_nat n = cap)); [by left; lia|].
      right; left. apply drop_ge. lia.
    + right; right. exists e, (drop (S n) (queue q)). split; [|done].
      by apply drop_S.
Qed.

(** ** Histories *)

(** The critical sections of the calls, in the order in which the lock is taken. *)
Inductive section :=
| TryPush (e : Event) (now : Instant)
| PushPriority (e : Event) (now : Instant)
| PushAttempt (e : Event) (deadline now : Instant)
| PushWake (e : Event) (deadline now : Instant) (timed_out : bool)
| Poll (cap byte_limit : Z).

(** A queue with the events ever accepted and the events ever handed out. *)
Record history := mkHistory {
  current : EventQueue;
  accepted : list Event;
  delivered : list Event
}.

Definition accept_if (ok : bool) (e : Event) (now : Instant) : list Event :=
  if ok then [stamped e now] else [].

Definition wait_ok (w : push_wait) : bool :=
  match w with PushDone (Ok _) => true | _ => false end.

Definition run_section (h : history) (s : section) : history :=
  let q := current h in
  match s with
  | TryPush e now =>
    let '(r, q') := try_push q e now in
    mkHistory q' (accepted h ++ accept_if (is_ok r) e now) (delivered h)
  | PushPriority e now =>
    match push_priority q e now with
    | Some (r, q') =>
      mkHistory q' (accepted h ++ accept_if (is_ok r) (strip_details q e) now) (delivered h)
    | None => h
    end
  | PushAttempt e deadline now =>
    let '(w, q') := push_timeout_attempt q e deadline now in
    mkHistory q' (accepted h ++ accept_if (wait_ok w) e now) (delivered h)
  | PushWake e deadline now timed_out =>
    let '(w, q') := push_timeout_wake q e deadline now timed_out in
    mkHistory q' (accepted h ++ accept_if (wait_ok w) e now) (delivered h)
  | Poll cap byte_limit =>
    let '(events, q') := poll_with_byte_limit q cap byte_limit in
    mkHistory q' (accepted h) (delivered h ++ events)
  end.

Definition run_sections (q : EventQueue) (ss : list section) : history :=
  foldl run_section (mkHistory q [] []) ss.

(** Arguments of a poll are [usize] values. *)
Definition section_ok (s : section) : Prop :=
  match s with
  | Poll cap byte_limit => 0 ≤ cap ∧ 0 ≤ byte_limit
  | _ => True
  end.

Definition never_evicts (s : section) : Prop :=
  match s with PushPriority _ _ => False | _ => True end.

Record history_inv (evicting : Prop) (h : history) : Prop := {
  hi_queue : queue_inv (current h);
  hi_lifecycle : lifecycle (accepted h) = lifecycle (delivered h ++ queue (current h));
  hi_order : (delivered h ++ queue (current h)) `sublist_of` accepted h;
  hi_exact : evicting ∨ accepted h = delivered h ++ queue (current h)
}.

(** A push that appends the stamped event or changes nothing. *)
Lemma history_push P h (ok : bool) e now q' :
  history_inv P h →
  (if ok then is_full (current h) e = false ∧ q' = push_back (current h) e now
   else q' = current h) →
  history_inv P (mkHistory q' (accepted h ++ accept_if ok e now) (delivered h)).
Proof.
  intros [Hq Hl Ho He] Hok. destruct ok; cbn; subst.
  - destruct Hok as [Hnf ->]. split; cbn; [by apply push_back_inv|..]; rewrite app_assoc.
    + by rewrite filter_app, Hl, <- filter_app.
    + by apply sublist_app.
    + destruct He as [?| ->]; [by left|by right].
  - rewrite app_nil_r. by split.
Qed.

Lemma history_try P h e now :
  history_inv P h → history_inv P (run_section h (TryPush e now)).
Proof.
  intros Hh. cbn. unfold try_push. destruct (is_full _ _) eqn:Hf.
  - by apply (history_push _ h false).
  - by apply (history_push _ h true).
Qed.

Lemma history_attempt P h e deadline now :
  history_inv P h → history_inv P (run_section h (PushAttempt e deadline now)).
Proof.
  intros Hh. cbn. unfold push_timeout_attempt. destruct (is_full _ _) eqn:Hf.
  - case_decide; by apply (history_push _ h false).
  - by apply (history_push _ h true).
Qed.

Lemma history_wake P h e deadline now timed_out :
  history_inv P h → history_inv P (run_section h (PushWake e deadline now timed_out)).
Proof.
  intros Hh. cbn. unfold push_timeout_wake. destruct (timed_out && _) eqn:Hf.
  - by apply (history_push _ h false).
  - by apply history_attempt.
Qed.

Lemma history_priority h e now :
  history_inv True h → history_inv True (run_section h (PushPriority e now)).
Proof.
  intros [Hq Hl Ho _]. cbn.
  destruct (push_priority_post (current h) e now Hq) as (r & q' & k & -> & Hq' & _ & Hpost).
  destruct r as [ev|err]; cbn.
  - destruct Hpost as (kept & Hkept & [Hk _ Hs] & _).
    split; cbn; [done|..|by left]; rewrite Hkept, app_assoc, ?filter_app.
    + by rewrite Hl, filter_app, Hk.
    + apply sublist_app; [|done]. etrans; [|exact Ho]. by apply sublist_app.
  - destruct Hpost as (_ & [Hk _ Hs] & _).
    split; cbn; [done|..|by left]; rewrite app_nil_r, ?filter_app.
    + by rewrite Hl, filter_app, Hk.
    + etrans; [|exact Ho]. by apply sublist_app.
Qed.

Lemma history_poll P h cap byte_limit :
  0 ≤ cap → 0 ≤ byte_limit →
  history_inv P h → history_inv P (run_section h (Poll cap byte_limit)).
Proof.
  intros ?? [Hq Hl Ho He]. cbn. destruct (poll_with_byte_limit _ _ _) as [events q'] eqn:Hp.
  apply poll_post in Hp as (Hq' & Hsplit & _); [|done..].
  rewrite Hsplit in *. split; cbn; [done|..]; rewrite <- app_assoc; done.
Qed.

Lemma run_section_inv (P : Prop) h s :
  section_ok s → (P ∨ never_evicts s) → history_inv P h → history_inv P (run_section h s).
Proof.
  intros Hs HP Hh. destruct s.
  - by apply history_try.
  - destruct HP as [HP|[]]. assert (history_inv True h) as Hh' by (destruct Hh; split; auto).
    apply history_priority with (e := e) (now := now) in Hh'. destruct Hh'; split; auto.
  - by apply history_attempt.
  - by apply history_wake.
  - destruct Hs. by apply history_poll.
Qed.

Lemma run_sections_inv (P : Prop) q ss :
  queue_inv q → queue q = [] → Forall section_ok ss → (P ∨ Forall never_evicts ss) →
  history_inv P (run_sections q ss).
Proof.
  intros Hq He Hok Hev. unfold run_sections.
  assert (history_inv P (mkHistory q [] [])) as Hh.
  { split; cbn; rewrite ?He; auto. }
  revert Hh. generalize (mkHistory q [] []).
  induction Hok as [|s ss Hs _ IH]; intros h Hh; [done|]. cbn. apply IH.
  - destruct Hev as [?|?%Forall_cons_1]; [by left|naive_solver].
  - apply run_section_inv; [done| |done].
    destruct Hev as [?|?%Forall_cons_1]; [by left|naive_solver].
Qed.

(** ** Claims *)

(** C18: Over any sequence of critical sections of concurrent producers and
    consumers on a new queue, the byte counter equals the queued payload volume and
    neither limit is exceeded; every accepted lifecycle event is delivered or still
    queued, exactly once and in order; everything delivered or queued was accepted,
    in order; and when nothing used the priority path no accepted event is ever
    lost. *)
Theorem event_queue_history cap bcap q ss :
  in_u64 cap → in_u64 bcap → new_with_limits cap bcap = Ok q → Forall section_ok ss →
  let h := run_sections q ss in
  queue_inv (current h) ∧
  lifecycle (accepted h) = lifecycle (delivered h ++ queue (current h)) ∧
  (delivered h ++ queue (current h)) `sublist_of` accepted h ∧
  (Forall never_evicts ss → accepted h = delivered h ++ queue (current h)).
Proof.
  intros Hc Hb Hnew Hok. cbn.
  pose proof (new_with_limits_inv _ _ _ Hc Hb Hnew) as Hq.
  assert (queue q = []) as He.
  { revert Hnew. unfold new_with_limits. case_decide; by intros [= <-]. }
  destruct (run_sections_inv True q ss Hq He Hok (or_introl I)) as [? ? ? _].
  split_and!; [done..|]. intros Hev.
  destruct (run_sections_inv False q ss Hq He Hok (or_intror Hev)) as [_ _ _ []]; done.
Qed.

Lemma event_queue_history_witness :
  ∃ q, new_with_limits 1 64 = Ok q ∧
  let h := run_sections q [TryPush (event_simple EventType.Message 0) 1;
                           PushPriority (event_simple EventType.SessionClosed 0) 2; Poll 8 64] in
  delivered h = [event_simple EventType.SessionClosed 2] ∧ queue_inv (current h).
Proof.
  eexists. split; [reflexivity|]. split; [vm_compute; reflexivity|].
  apply (event_queue_history 1 64); [zlia|zlia|reflexivity|]. by repeat constructor.
Defined.

(** Publishing a state transition always terminates; it removes only message,
    writability and control events, the oldest first and no more of them than are
    needed to make room; it strips only optional diagnostics, for which at most one
    event is evicted; it reports whether something was evicted; and it fails, with
    [WouldBlock], only when the event cannot fit the byte budget at all or when
    nothing evictable is left and the queue is still full. *)
Theorem push_priority_correct q e now :
  queue_inv q →
  ∃ r q' k, push_priority q e now = Some (r, q') ∧ queue_inv q' ∧ priority_post q e now r q' k.
Proof. apply push_priority_post. Qed.

Lemma push_priority_correct_witness :
  ∃ r q' k,
    push_priority (mkEventQueue 1 8 0 [event_simple EventType.Writable 0])
      (event_simple EventType.SessionOpened 0) 5 = Some (r, q') ∧
    queue_inv q' ∧
    priority_post (mkEventQueue 1 8 0 [event_simple EventType.Writable 0])
      (event_simple EventType.SessionOpened 0) 5 r q' k.
Proof. apply push_priority_correct. by split; vm_compute. Defined.

(** A poll hands out the longest first-in first-out prefix that respects both
    the event count and the byte limit, releases exactly its bytes, and leaves the
    rest of the queue as it was. *)
Theorem poll_maximal_prefix q cap byte_limit events q' :
  queue_inv q → 0 ≤ cap → 0 ≤ byte_limit →
  poll_with_byte_limit q cap byte_limit = (events, q') →
  queue_inv q' ∧ queue q = events ++ queue q' ∧
  len events ≤ cap ∧ sumZ data_len events ≤ byte_limit ∧
  maximal_prefix cap byte_limit events (queue q').
Proof. apply poll_post. Qed.

Lemma poll_maximal_prefix_witness :
  let q := mkEventQueue 4 8 0 [event_simple EventType.Writable 0; event_simple EventType.Message 0] in
  maximal_prefix 1 8 [event_simple EventType.Writable 0] [event_simple EventType.Message 0].
Proof.
  intros q.
  apply (poll_maximal_prefix q 1 8 _ (mkEventQueue 4 8 0 [event_simple EventType.Message 0]));
    [by split; vm_compute|done|done|reflexivity].
Defined.
