(* ===== verification/Poll.v ===== *)
(** * Driving the game runtime: [poll_runtime.rs] and the loop of [lifecycle.rs]

    [poll] and [stop] as they compose the handlers of [GameRuntime], against an environment
    that gives, for every operation, the clock, the answers of the transport and the events
    that arrived meanwhile.  The theorems show that a poll returns by its deadline without
    panicking, within its budgets, and that a stop leaves nothing behind. *)

From S2P Require Import Prelude Bytes CoreTypes Control TcpSession Observe GameWire Quality Heartbeat ClockSync.
From S2P Require Import Scheduler Realtime SendPath GameData Resume RangeState GameRuntime GameSafety GameSteps.
From S2P Require Import EventQueue.

Definition NONBLOCKING_EVENT_BATCH : Z := 64.
Definition MAX_INTERNAL_EVENTS_PER_POLL : Z := 1024.

(** What one operation meets: the clock, the transport, the clock readings of a flush, the
    random draws, and the events the transport queued since the operation before. *)
Record Moment := mkMoment {
  m_now : Instant;
  m_net : Network;
  m_clock : nat → Z;
  m_elapsed : nat → Z;
  m_rng : Handle → option Z;
  m_t1 : Handle → Z;
  m_arrived : list Event
}.

(** The runtime, the transport's queue, the number of operations so far and the number of
    events taken from the queue. *)
Record PollState := mkPollState {
  ps_game : GameRuntime;
  ps_queue : list Event;
  ps_at : nat;
  ps_taken : Z
}.

Section poll.
Context (hmac : list byte → list byte) (instant_limit : Instant) (env : nat → Moment).
Context (scheduled_flush_batch realtime_flush_batch : Z).

(** The next operation's moment. *)
Definition observe_moment (st : PollState) : Moment * PollState :=
  let m := env (ps_at st) in
  (m, mkPollState (ps_game st) (ps_queue st ++ m_arrived m) (S (ps_at st)) (ps_taken st)).

Definition with_game (st : PollState) (g : GameRuntime) : PollState :=
  mkPollState g (ps_queue st) (ps_at st) (ps_taken st).

(** An operation of the runtime that returns nothing. *)
Definition perform (f : Moment → GameRuntime → outcome GameRuntime) (st : PollState) : outcome PollState :=
  let '(m, st) := observe_moment st in
  g ← f m (ps_game st);
  Done (with_game st g).

Definition reap : PollState → outcome PollState := perform (λ m g, reap_closed_endpoints (m_net m) g).
Definition flush_scheduled : PollState → outcome PollState :=
  perform (λ m g, '(_, g) ← flush_scheduled_runtime (m_net m) g (m_clock m) (m_elapsed m) scheduled_flush_batch; Done g).
Definition flush_realtime : PollState → outcome PollState :=
  perform (λ m g, '(_, g) ← flush_realtime_runtime (m_net m) g realtime_flush_batch; Done g).

(** [drive_heartbeats], [drive_clock_sync] and [drive_range_negotiation]. *)
Definition drive (st : PollState) : outcome PollState :=
  st ← perform (λ m g, Done (drive_heartbeats_runtime (m_net m) (m_now m) g (m_rng m))) st;
  st ← perform (λ m g, Done (drive_clock_runtime (m_net m) (m_now m) g (m_rng m) (m_t1 m))) st;
  perform (λ m g, drive_range_negotiation (m_net m) (m_now m) g) st.

(** [poll_events_with_byte_limit] on the transport's queue. *)
Definition poll_network_with_budget (st : PollState) (capacity : Z) : outcome (list Event * PollState) :=
  let '(m, st) := observe_moment st in
  '(slots, bytes) ← public_capacity (g_range (ps_game st));
  let n := fitting (take (Z.to_nat (capacity `min` slots)) (ps_queue st)) bytes in
  Done (take n (ps_queue st),
        mkPollState (ps_game st) (drop n (ps_queue st)) (ps_at st) (ps_taken st + Z.of_nat n)).

Definition convert (st : PollState) (events : list Event) (output : list GameEvent) (capacity : Z) :
    outcome (bool * list GameEvent * PollState) :=
  let '(m, st) := observe_moment st in
  '(deferred, g, output) ← convert_events_into hmac (m_net m) (m_now m) (ps_game st) events output capacity;
  Done (deferred, output, with_game st g).

(** The loop handles at least one event per round; without fuel it would not have ended. *)
Fixpoint drain_network_nonblocking (fuel : nat) (st : PollState) (output : list GameEvent) (capacity internal : Z) :
    outcome (list GameEvent * Z * PollState) :=
  match fuel with
  | O => Panic
  | S fuel =>
    if decide (MAX_INTERNAL_EVENTS_PER_POLL ≤ internal) then Done (output, internal, st)
    else
      let remaining_output := saturating_sub capacity (len output) in
      let batch :=
        if decide (remaining_output = 0) then 1
        else ((MAX_INTERNAL_EVENTS_PER_POLL - internal) `min` NONBLOCKING_EVENT_BATCH) `min` remaining_output in
      '(events, st) ← poll_network_with_budget st batch;
      if decide (events = []) then Done (output, internal, st)
      else
        let internal := saturating_add usize_max internal (len events) in
        '(deferred, output, st) ← convert st events output capacity;
        if (deferred : bool) then Done (output, internal, st)
        else drain_network_nonblocking fuel st output capacity internal
  end.

Definition drain_network (st : PollState) (output : list GameEvent) (capacity internal : Z) :
    outcome (list GameEvent * Z * PollState) :=
  drain_network_nonblocking (S (Z.to_nat MAX_INTERNAL_EVENTS_PER_POLL)) st output capacity internal.

(** Whether the deadline passed at this clock read. *)
Definition expired (deadline : option Instant) (now : Instant) : bool :=
  match deadline with Some d => bool_decide (d ≤ now) | None => false end.

(** The loop of a blocking poll; [None]: still waiting after [fuel] rounds. *)
Fixpoint poll_loop (fuel : nat) (st : PollState) (capacity : Z) (timeout : Duration) (deadline : option Instant)
    (internal : Z) : outcome (option (list GameEvent * PollState)) :=
  match fuel with
  | O => Done None
  | S fuel =>
    '(output, internal, st) ← drain_network st [] capacity internal;
    '(returned, st) ←
      (if decide (internal ≠ 0) then
         st ← drive st;
         Done (if decide (output ≠ []) then Some output
               else if decide (MAX_INTERNAL_EVENTS_PER_POLL ≤ internal) then Some [] else None, st)
       else Done (None, st));
    match returned with
    | Some output => Done (Some (output, st))
    | None =>
      st ← drive st;
      '(events, st) ← poll_network_with_budget st (capacity `min` (MAX_INTERNAL_EVENTS_PER_POLL - internal));
      st ← reap st;
      let internal := saturating_add usize_max internal (len events) in
      '(_, output, st) ← convert st events [] capacity;
      st ← drive st;
      let '(m, st) := observe_moment st in
      if decide (output ≠ [] ∨ timeout = 0 ∨ expired deadline (m_now m) = true ∨
                 MAX_INTERNAL_EVENTS_PER_POLL ≤ internal)
      then Done (Some (output, st))
      else poll_loop fuel st capacity timeout deadline internal
    end
  end.

Definition poll (fuel : nat) (st : PollState) (capacity : Z) (timeout : Duration) :
    outcome (option (list GameEvent * PollState)) :=
  st ← reap st;
  st ← flush_scheduled st;
  st ← flush_realtime st;
  let '(_, st) := observe_moment st in
  '(r, carried) ← drain_completed (g_range (ps_game st)) [] capacity;
  let st := with_game st (ps_game st <| g_range := r |>) in
  if decide (capacity = 0 ∨ carried ≠ []) then
    '(carried, _, st) ← drain_network st carried capacity 0;
    st ← drive st;
    Done (Some (carried, st))
  else
    let '(m, st) := observe_moment st in
    poll_loop fuel st capacity timeout (checked_add instant_limit (m_now m) timeout) 0.

(** The drain loop of [stop]; [None]: still draining after [fuel] rounds. *)
Fixpoint stop_loop (fuel : nat) (st : PollState) (deadline : Instant) : outcome (option PollState) :=
  match fuel with
  | O => Done None
  | S fuel =>
    let '(m, st) := observe_moment st in
    if decide ((queued_messages (counters (g_scheduled (ps_game st))) ≠ 0 ∨
                rt_queued_messages (lq_counters (g_realtime (ps_game st))) ≠ 0) ∧ m_now m < deadline) then
      st ← flush_scheduled st;
      st ← flush_realtime st;
      stop_loop fuel st deadline
    else Done (Some st)
  end.

(** [network_stop] is the transport's own shutdown. *)
Definition stop (fuel : nat) (st : PollState) (drain_timeout : Duration) (network_stop : Result unit) :
    outcome (option (Result unit * PollState)) :=
  let '(m, st) := observe_moment st in
  match checked_add instant_limit (m_now m) drain_timeout with
  | None => Done (Some (fail ErrorCode.InvalidArgument "game stop timeout cannot form a deadline", st))
  | Some deadline =>
    let st := with_game st (ps_game st <| g_admission ::= begin_stop |>) in
    drained ← stop_loop fuel st deadline;
    match drained with
    | None => Done None
    | Some st =>
      match network_stop with
      | Err e => Done (Some (Err e, st))
      | Ok _ => Done (Some (Ok tt, with_game st (clear_runtime (ps_game st))))
      end
    end
  end.
End poll.

(** ** Fresh joins *)

(** No join of the list reuses a handle that is in use or was opened before it. *)
Fixpoint fresh_events (X : gset Z) (l : list Event) : Prop :=
  match l with
  | [] => True
  | e :: l => (event_type e = EventType.AuthRequest → ev_session e ∉ X) ∧ fresh_events (opened e ∪ X) l
  end.

Definition opened_all (l : list Event) : gset Z := ⋃ (opened <$> l).

Lemma fresh_mono l : ∀ X Y, Y ⊆ X → fresh_events X l → fresh_events Y l.
Proof.
  induction l as [|e l IH]; intros X Y Hs; [done|]. intros [H1 H2]. split; [set_solver|].
  eapply IH; [|exact H2]. set_solver.
Qed.

Lemma fresh_app l1 l2 : ∀ X,
  fresh_events X (l1 ++ l2) ↔ fresh_events X l1 ∧ fresh_events (opened_all l1 ∪ X) l2.
Proof.
  induction l1 as [|e l1 IH]; intros X; cbn [fresh_events app].
  - change (opened_all []) with (∅ : gset Z). rewrite (left_id_L ∅ (∪)). tauto.
  - rewrite IH. assert (opened_all (e :: l1) ∪ X = opened_all l1 ∪ (opened e ∪ X)) as ->.
    { change (opened_all (e :: l1)) with (opened e ∪ opened_all l1). set_solver. }
    tauto.
Qed.

(** ** A batch of events *)

Lemma trims_room X g g' n b : trims X g g' → public_room (g_range g) n b → public_room (g_range g') n b.
Proof. intros [] []. unfold public_room. lia. Qed.

Lemma framed_room g r n b :
  framed (g_range g) r → public_room r n b → public_room (g_range (g <| g_range := r |>)) n b.
Proof. done. Qed.

Section batch.
Context (hmac : list byte → list byte) (instant_limit : Instant) (net : Network) (now : Instant).

(** Publishing the result of a conversion. *)
Lemma publish_ok g e output capacity n b :
  runtime_inv g → 1 ≤ n → public_payload_bytes e ≤ b → public_room (g_range g) n b →
  ∃ d r output', queue_public (g_range g) e output capacity = Done (d, r, output') ∧
    runtime_inv (g <| g_range := r |>) ∧ public_room r (n - 1) (b - public_payload_bytes e) ∧
    (len output ≤ capacity → len output' ≤ capacity).
Proof.
  intros Hg Hn Hb Hroom.
  destruct (queue_public_ok _ e output capacity n b (gi_range _ Hg) Hn Hb Hroom)
    as (d & r & o & E & Hr & Hf & _ & Hroom').
  exists d, r, o. split_and!; [done| |done|].
  - by apply framed_ok.
  - by eapply queue_public_len.
Qed.

Lemma drain_ok g output capacity n b :
  runtime_inv g → public_room (g_range g) n b →
  ∃ r output', drain_completed (g_range g) output capacity = Done (r, output') ∧
    runtime_inv (g <| g_range := r |>) ∧ public_room r n b ∧ (len output ≤ capacity → len output' ≤ capacity).
Proof.
  intros Hg [R1 R2].
  destruct (drain_completed_ok _ output capacity (gi_range _ Hg)) as (r & o & E & Hr & Hf & _ & P1 & P2 & _).
  exists r, o. split_and!; [done|by apply framed_ok| |by eapply drain_loop_len].
  destruct Hf as (_ & _ & _ & E1 & E2). unfold public_room. lia.
Qed.

Abbreviation volume l := (sumZ data_len l).

(** One event: conversion, publication of its result, release of what is ready. *)
Lemma convert_events_ok capacity l : ∀ g output,
  runtime_inv g → fresh_events (dom (g_session_endpoints g)) l → public_room (g_range g) (len l) (volume l) →
  ∃ d g' output', convert_events_into hmac net now g l output capacity = Done (d, g', output') ∧
    runtime_inv g' ∧ dom (g_session_endpoints g') ⊆ opened_all l ∪ dom (g_session_endpoints g) ∧
    (len output ≤ capacity → len output' ≤ capacity).
Proof.
  induction l as [|e l IH]; intros g output Hg Hfr Hroom; cbn [convert_events_into].
  { exists false, g, output. split_and!; try done. set_solver. }
  destruct Hfr as [Hf Hfs].
  rewrite len_cons, sumZ_cons in Hroom.
  assert (Hfe : fresh_event g e) by (intros Hty; by apply not_elem_of_dom, Hf).
  destruct (convert_event_ok hmac instant_limit net now g e Hg Hfe) as (res & g1 & Ec & Hg1 & _ & T).
  rewrite Ec. cbn [mbind outcome_bind].
  pose proof (trims_room _ _ _ _ _ T Hroom) as Hroom1. pose proof (data_len_nonneg e) as Hde.
  pose proof (len_nonneg l) as Hll. pose proof (data_sum_nonneg l) as Hdl.
  set (publish := match res with Ok (Some _) => _ | Ok None => _ | Err _ => _ end).
  assert (∃ d g2 output1, publish = Done (d, g2, output1) ∧ runtime_inv g2 ∧
    g_session_endpoints g2 = g_session_endpoints g1 ∧ public_room (g_range g2) (len l) (volume l) ∧
    (len output ≤ capacity → len output1 ≤ capacity)) as (d & g2 & output1 & -> & Hg2 & Eo & Hroom2 & Hlen).
  { unfold publish. destruct res as [[e'|]|err].
    - pose proof (convert_event_payload hmac instant_limit net now g e Hg e' g1 Ec) as Hpay. fold (data_len e) in Hpay.
      pose proof (public_payload_nonneg e').
      rewrite debug_assert_ok by done. cbn [mbind outcome_bind].
      destruct (publish_ok g1 e' output capacity (1 + len l) (data_len e + volume l) Hg1 ltac:(lia) ltac:(lia) Hroom1)
        as (d & r & o & -> & Hi & Hr & Hl). cbn [mbind outcome_bind].
      eexists d, _, o. split_and!; [reflexivity|done|done| |done]. destruct Hr. cbn. split; lia.
    - exists false, g1, output. split_and!; try done. destruct Hroom1. split; lia.
    - set (g1' := if decide _ then _ else g1).
      assert (K : keeps g1 g1') by (unfold g1'; case_decide; [apply keeps_log|done]).
      destruct (K Hg1) as (Hg1' & _ & T1). pose proof (trims_room _ _ _ _ _ T1 Hroom1) as Hroom1'.
      destruct (publish_ok g1' (ProtocolViolation (ev_endpoint e) (ev_session e)) output capacity (1 + len l)
        (data_len e + volume l) Hg1' ltac:(lia) ltac:(cbn; lia) Hroom1') as (d & r & o & -> & Hi & Hr & Hl). cbn [mbind outcome_bind].
      eexists d, _, o. split_and!; [reflexivity|done|unfold g1'; by case_decide| |done].
      destruct Hr. cbn in *. split; lia. }
  cbn [mbind outcome_bind].
  destruct (drain_ok g2 output1 capacity _ _ Hg2 Hroom2) as (r & output2 & -> & Hg3 & Hroom3 & Hlen2).
  cbn [mbind outcome_bind]. set (g3 := g2 <| g_range := r |>) in *.
  assert (Ho : dom (g_session_endpoints g3) ⊆ opened e ∪ dom (g_session_endpoints g)).
  { change (g_session_endpoints g3) with (g_session_endpoints g2). rewrite Eo. apply T. }
  destruct (IH g3 output2 Hg3) as (d' & g' & output' & -> & Hg' & Ho' & Hlen'); [by eapply fresh_mono|done|].
  cbn [mbind outcome_bind]. eexists _, g', output'. split_and!; [reflexivity|done| |by auto].
  etrans; [exact Ho'|]. cbn. set_solver.
Qed.
End batch.

(** ** Polls *)

Section polls.
Context (hmac : list byte → list byte) (instant_limit : Instant) (env : nat → Moment).
Context (scheduled_flush_batch realtime_flush_batch : Z).
Hypothesis scheduled_batch_ok : 0 ≤ scheduled_flush_batch.
Hypothesis realtime_batch_ok : 0 ≤ realtime_flush_batch.

(** What arrives during the next [n] operations. *)
Definition arrivals (at_ n : nat) : list Event := mjoin ((λ i, m_arrived (env i)) <$> seq at_ n).

(** Between operations: the runtime's invariant, room for [events] taken from the queue and
    not converted yet, and joins under fresh handles from here on. *)
Record good (events : list Event) (st : PollState) : Prop := {
  gd_inv : runtime_inv (ps_game st);
  gd_room : public_room (g_range (ps_game st)) (len events) (sumZ data_len events);
  gd_fresh : ∀ n, fresh_events (dom (g_session_endpoints (ps_game st)))
                    (events ++ ps_queue st ++ arrivals (ps_at st) n)
}.

(** [st'] comes after [st] and took [k] more events. *)
Definition later (st st' : PollState) (k : Z) : Prop :=
  (ps_at st ≤ ps_at st')%nat ∧ ps_taken st' = ps_taken st + k.

Lemma later_trans st1 st2 st3 k1 k2 : later st1 st2 k1 → later st2 st3 k2 → later st1 st3 (k1 + k2).
Proof. unfold later. lia. Qed.

Lemma observe_ok events st :
  good events st →
  ∃ m st', observe_moment env st = (m, st') ∧ m = env (ps_at st) ∧ good events st' ∧ ps_game st' = ps_game st ∧
    ps_at st' = S (ps_at st) ∧ ps_taken st' = ps_taken st.
Proof.
  intros [H1 H2 H3]. eexists _, _. split_and!; [reflexivity|done| |done..]. constructor; [done..|]. cbn.
  intros n. specialize (H3 (S n)). unfold arrivals in *. cbn in H3. by rewrite <- (assoc_L (++)) in *.
Qed.

Lemma good_trims events st g :
  good events st → runtime_inv g → trims ∅ (ps_game st) g → good events (with_game st g).
Proof.
  intros [H1 H2 H3] Hg T. constructor; [done|by eapply trims_room|]. intros n. eapply fresh_mono; [|apply H3].
  cbn. destruct T. set_solver.
Qed.

Lemma perform_ok f events st :
  (∀ m g, runtime_inv g → ∃ g', f m g = Done g' ∧ keeps g g') → good events st →
  ∃ st', perform env f st = Done st' ∧ good events st' ∧ later st st' 0 ∧ ps_at st' = S (ps_at st).
Proof.
  intros Hf Hst. destruct (observe_ok events st Hst) as (m & st1 & E & _ & Hst1 & Eg & Ea & Et).
  unfold perform. rewrite E. destruct (Hf m _ (gd_inv _ _ Hst1)) as (g' & -> & K). cbn [mbind outcome_bind].
  destruct (K (gd_inv _ _ Hst1)) as (Hg' & _ & T). eexists. split_and!; [reflexivity|by apply good_trims|..].
  - split; cbn; lia.
  - done.
Qed.

Lemma reap_st_ok events st :
  good events st → ∃ st', reap env st = Done st' ∧ good events st' ∧ later st st' 0 ∧ ps_at st' = S (ps_at st).
Proof. apply perform_ok. intros m g Hg. by apply reap_ok. Qed.

Lemma flush_scheduled_st_ok events st :
  good events st →
  ∃ st', flush_scheduled env scheduled_flush_batch st = Done st' ∧ good events st' ∧ later st st' 0 ∧
    ps_at st' = S (ps_at st).
Proof.
  apply perform_ok. intros m g Hg.
  destruct (flush_scheduled_ok (m_net m) g (m_clock m) (m_elapsed m) _ Hg scheduled_batch_ok) as (k & g' & -> & K & _).
  cbn [mbind outcome_bind]. eauto.
Qed.

Lemma flush_realtime_st_ok events st :
  good events st →
  ∃ st', flush_realtime env realtime_flush_batch st = Done st' ∧ good events st' ∧ later st st' 0 ∧
    ps_at st' = S (ps_at st).
Proof.
  apply perform_ok. intros m g Hg.
  destruct (flush_realtime_ok (m_net m) g _ Hg realtime_batch_ok) as (k & g' & -> & K & _).
  cbn [mbind outcome_bind]. eauto.
Qed.

Lemma drive_ok events st :
  good events st → ∃ st', drive env st = Done st' ∧ good events st' ∧ later st st' 0.
Proof.
  intros H0. unfold drive.
  destruct (perform_ok (λ m g, Done (drive_heartbeats_runtime (m_net m) (m_now m) g (m_rng m))) events st)
    as (st1 & -> & H1 & L1 & _); [|done|]. { intros m g _. eexists. split; [done|apply drive_heartbeats_ok]. }
  cbn [mbind outcome_bind].
  destruct (perform_ok (λ m g, Done (drive_clock_runtime (m_net m) (m_now m) g (m_rng m) (m_t1 m))) events st1)
    as (st2 & -> & H2 & L2 & _); [|done|]. { intros m g _. eexists. split; [done|apply drive_clock_ok]. }
  cbn [mbind outcome_bind].
  destruct (perform_ok (λ m g, drive_range_negotiation (m_net m) (m_now m) g) events st2)
    as (st3 & -> & H3 & L3 & _); [|done|]. { intros m g Hg. by apply drive_range_negotiation_ok. }
  exists st3. split_and!; [done..|]. unfold later in *. lia.
Qed.

(** What is taken fits the room for public events, and the limit. *)
Lemma poll_network_ok st capacity :
  good [] st → 0 ≤ capacity →
  ∃ events st', poll_network_with_budget env st capacity = Done (events, st') ∧ good events st' ∧
    later st st' (len events) ∧ len events ≤ capacity.
Proof.
  intros Hst Hc. destruct (observe_ok [] st Hst) as (m & st1 & E & _ & Hst1 & Eg & Ea & Et).
  unfold poll_network_with_budget. rewrite E. destruct Hst1 as [H1 H2 H3].
  pose proof (ri_bounds _ (gi_range _ H1)) as (_ & _ & B1 & B2).
  unfold public_capacity. rewrite !sub_ok by done. cbn [mbind outcome_bind].
  set (slots := _ - _). set (bytes := _ - _). set (l := take (Z.to_nat _) (ps_queue st1)).
  assert (Hpos : 0 ≤ slots ∧ 0 ≤ bytes) by (unfold slots, bytes; lia).
  destruct (EventQueue.fitting_spec l bytes ltac:(tauto)) as (F1 & F2 & _). set (n := fitting l bytes) in *.
  assert (Hl : (length l ≤ Z.to_nat (capacity `min` slots) ∧ length l ≤ length (ps_queue st1))%nat)
    by (unfold l; rewrite length_take; lia).
  assert (Ht : take n (ps_queue st1) = take n l) by (unfold l; rewrite take_take; f_equal; lia).
  assert (Hn : len (take n (ps_queue st1)) = Z.of_nat n) by (unfold len; rewrite length_take; lia).
  eexists _, _. split_and!; [reflexivity| | |lia].
  - constructor; [done| |].
    + rewrite Hn, Ht. unfold public_room, slots, bytes in *. cbn. lia.
    + intros k. cbn. specialize (H3 k). by rewrite (assoc_L (++)), take_drop.
  - split; cbn; lia.
Qed.

Lemma poll_convert_ok st events output capacity :
  good events st → len output ≤ capacity →
  ∃ d output' st', convert hmac env st events output capacity = Done (d, output', st') ∧ good [] st' ∧
    later st st' 0 ∧ len output' ≤ capacity.
Proof.
  intros Hst Hl. destruct (observe_ok events st Hst) as (m & st1 & E & _ & Hst1 & Eg & Ea & Et).
  unfold convert. rewrite E. destruct Hst1 as [H1 H2 H3].
  assert (Hf : fresh_events (dom (g_session_endpoints (ps_game st1))) events).
  { specialize (H3 0%nat). by apply fresh_app in H3 as [H3 _]. }
  destruct (convert_events_ok hmac instant_limit (m_net m) (m_now m) capacity events _ output H1 Hf H2)
    as (d & g' & output' & -> & Hg' & Ho & Hlen). cbn [mbind outcome_bind].
  eexists _, _, _. split_and!; [reflexivity| |split; cbn; lia|by apply Hlen].
  constructor; [done| |].
  - pose proof (ri_bounds _ (gi_range _ Hg')) as (_ & _ & B1 & B2). rewrite len_nil, sumZ_nil.
    unfold public_room. cbn. lia.
  - intros n. specialize (H3 n). apply fresh_app in H3 as [_ H3]. cbn. eapply fresh_mono; [exact Ho|exact H3].
Qed.

Abbreviation max_internal := MAX_INTERNAL_EVENTS_PER_POLL.

Lemma internal_add i k : 0 ≤ i → 0 ≤ k → i + k ≤ max_internal → saturating_add usize_max i k = i + k.
Proof. unfold MAX_INTERNAL_EVENTS_PER_POLL. zlia. Qed.

(** The nonblocking drain ends and never handles more than the budget. *)
Lemma drain_network_ok fuel : ∀ st output capacity internal,
  good [] st → len output ≤ capacity → 0 ≤ internal ≤ max_internal → max_internal - internal < Z.of_nat fuel →
  ∃ output' internal' st',
    drain_network_nonblocking hmac env fuel st output capacity internal = Done (output', internal', st') ∧
    good [] st' ∧ later st st' (internal' - internal) ∧ internal ≤ internal' ≤ max_internal ∧ len output' ≤ capacity.
Proof.
  induction fuel as [|fuel IH]; intros st output capacity internal Hst Hl Hi Hfuel; [lia|].
  cbn [drain_network_nonblocking]. case_decide as Hmax.
  { exists output, internal, st. split_and!; try done; try lia. split; lia. }
  set (remaining := saturating_sub capacity (len output)). set (batch := if decide _ then 1 else _).
  assert (Hb : 0 ≤ batch ≤ max_internal - internal).
  { unfold batch. case_decide; [lia|]. unfold remaining, saturating_sub, NONBLOCKING_EVENT_BATCH in *. lia. }
  destruct (poll_network_ok st batch Hst (proj1 Hb)) as (events & st1 & -> & Hst1 & L1 & Hle).
  cbn [mbind outcome_bind]. pose proof (len_nonneg events) as Hev. case_decide as He.
  { subst events. exists output, internal, st1. rewrite len_nil in L1. rewrite Z.sub_diag.
    split_and!; try done; lia. }
  assert (Hpos : 1 ≤ len events) by (destruct events; [done|rewrite len_cons; pose proof (len_nonneg events); lia]).
  rewrite internal_add by lia.
  destruct (poll_convert_ok st1 events output capacity Hst1 Hl) as (d & output1 & st2 & -> & Hst2 & L2 & Hl2).
  cbn [mbind outcome_bind]. pose proof (later_trans _ _ _ _ _ L1 L2) as L12. rewrite Z.add_0_r in L12. destruct d.
  { exists output1, (internal + len events), st2. split_and!; try done; try lia.
    replace (internal + len events - internal) with (len events) by lia. done. }
  destruct (IH st2 output1 capacity (internal + len events) Hst2 Hl2) as (o & i & st3 & -> & Hst3 & L3 & Hi3 & Ho);
    [lia|lia|]. exists o, i, st3. split_and!; try done; try lia. unfold later in *. lia.
Qed.

Lemma drain_ok_start st output capacity internal :
  good [] st → len output ≤ capacity → 0 ≤ internal ≤ max_internal →
  ∃ output' internal' st',
    drain_network hmac env st output capacity internal = Done (output', internal', st') ∧
    good [] st' ∧ later st st' (internal' - internal) ∧ internal ≤ internal' ≤ max_internal ∧ len output' ≤ capacity.
Proof. intros. apply drain_network_ok; try done. unfold MAX_INTERNAL_EVENTS_PER_POLL in *. lia. Qed.

(** A round of the blocking poll returns, or goes on with a later clock. *)
Lemma poll_loop_ok capacity timeout deadline from : ∀ fuel st internal,
  good [] st → 0 ≤ capacity → 0 ≤ internal ≤ max_internal →
  (timeout = 0 ∨ ∀ i, (from ≤ i)%nat → expired deadline (m_now (env i)) = true) →
  (from < ps_at st + fuel)%nat → (0 < fuel)%nat →
  ∃ output st', poll_loop hmac env fuel st capacity timeout deadline internal = Done (Some (output, st')) ∧
    good [] st' ∧ ps_taken st' ≤ ps_taken st + (max_internal - internal) ∧ len output ≤ capacity.
Proof.
  induction fuel as [|fuel IH]; intros st internal Hst Hc Hi Hend Hfuel Hpos; [lia|]. cbn [poll_loop].
  destruct (drain_ok_start st [] capacity internal Hst ltac:(by rewrite len_nil) Hi)
    as (output & i1 & st1 & -> & Hst1 & L1 & Hi1 & Ho). cbn [mbind outcome_bind].
  set (early := if decide (i1 ≠ 0) then _ else _).
  assert (∃ returned st2, early = Done (returned, st2) ∧ good [] st2 ∧ later st1 st2 0 ∧
    match returned with Some o => len o ≤ capacity | None => i1 < max_internal end) as (ret & st2 & -> & Hst2 & L2 & Hret).
  { unfold early. case_decide as Hz.
    - destruct (drive_ok [] st1 Hst1) as (st2 & -> & Hst2 & L2). cbn [mbind outcome_bind].
      eexists _, st2. split_and!; [reflexivity|done..|]. case_decide; [done|]. case_decide; [by rewrite len_nil|lia].
    - exists None, st1. split_and!; try done. { split; lia. } unfold MAX_INTERNAL_EVENTS_PER_POLL. lia. }
  cbn [mbind outcome_bind]. pose proof L1 as [A1 T1]. pose proof L2 as [A2 T2].
  destruct ret as [o|]; [exists o, st2; split_and!; [done..|lia|done]|].
  destruct (drive_ok [] st2 Hst2) as (st3 & -> & Hst3 & [A3 T3]). cbn [mbind outcome_bind].
  destruct (poll_network_ok st3 (capacity `min` (max_internal - i1)) Hst3 ltac:(lia))
    as (events & st4 & -> & Hst4 & [A4 T4] & Hle). cbn [mbind outcome_bind]. pose proof (len_nonneg events).
  destruct (reap_st_ok events st4 Hst4) as (st5 & -> & Hst5 & [A5 T5] & _). cbn [mbind outcome_bind].
  rewrite internal_add by lia.
  destruct (poll_convert_ok st5 events [] capacity Hst5 ltac:(by rewrite len_nil)) as (d & o & st6 & -> & Hst6 & [A6 T6] & Ho6).
  cbn [mbind outcome_bind]. destruct (drive_ok [] st6 Hst6) as (st7 & -> & Hst7 & [A7 T7]). cbn [mbind outcome_bind].
  destruct (observe_ok [] st7 Hst7) as (m & st8 & E8 & -> & Hst8 & _ & A8 & T8). rewrite E8. cbn [mbind outcome_bind].
  case_decide as Hret'; [exists o, st8; split_and!; [done..|lia|done]|].
  destruct (IH st8 (i1 + len events) Hst8 Hc) as (o' & st' & -> & Hst' & T' & Ho'); [lia|done|..].
  - lia.
  - destruct fuel; [|lia]. exfalso. apply Hret'. right. destruct Hend as [Hend|Hend]; [by left|right; left].
    apply Hend. lia.
  - exists o', st'. split_and!; [done..|lia|done].
Qed.

(** C26: a poll returns.  From a state that satisfies the runtime's invariant, whatever the
    transport answers and delivers (joins under fresh handles), [poll] neither panics nor
    hangs: it returns at the latest in the round after the clock passed its deadline, with
    at most [capacity] events, having taken at most 1,024 events from the transport, and
    leaves the invariant in place for the next call. *)
Theorem poll_returns capacity timeout from fuel st :
  good [] st → 0 ≤ capacity →
  let start := m_now (env (4 + ps_at st)) in
  (timeout = 0 ∨ start + timeout ≤ instant_limit ∧ ∀ i, (from ≤ i)%nat → start + timeout ≤ m_now (env i)) →
  (from < fuel)%nat →
  ∃ output st', poll hmac instant_limit env scheduled_flush_batch realtime_flush_batch fuel st capacity timeout =
      Done (Some (output, st')) ∧
    good [] st' ∧ len output ≤ capacity ∧ ps_taken st' ≤ ps_taken st + MAX_INTERNAL_EVENTS_PER_POLL.
Proof.
  intros Hst Hc start Hend Hfuel. unfold poll.
  destruct (reap_st_ok [] st Hst) as (st1 & -> & Hst1 & [_ T1] & A1). cbn [mbind outcome_bind].
  destruct (flush_scheduled_st_ok [] st1 Hst1) as (st2 & -> & Hst2 & [_ T2] & A2). cbn [mbind outcome_bind].
  destruct (flush_realtime_st_ok [] st2 Hst2) as (st3 & -> & Hst3 & [_ T3] & A3). cbn [mbind outcome_bind].
  destruct (observe_ok [] st3 Hst3) as (m & st4 & E4 & _ & Hst4 & _ & A4 & T4). rewrite E4.
  destruct (drain_ok (ps_game st4) [] capacity 0 0 (gd_inv _ _ Hst4) (gd_room _ _ Hst4))
    as (r & carried & -> & Hg5 & Hr5 & Hl5). cbn [mbind outcome_bind].
  set (st5 := with_game st4 _). specialize (Hl5 ltac:(by rewrite len_nil)).
  assert (Hst5 : good [] st5) by (destruct Hst4; by constructor).
  case_decide as Hcar.
  - destruct (drain_ok_start st5 carried capacity 0 Hst5 Hl5) as (o & i & st6 & -> & Hst6 & [_ T6] & Hi & Ho);
      [unfold MAX_INTERNAL_EVENTS_PER_POLL; lia|]. cbn [mbind outcome_bind].
    destruct (drive_ok [] st6 Hst6) as (st7 & -> & Hst7 & [_ T7]). cbn [mbind outcome_bind].
    exists o, st7. split_and!; [done..|]. change (ps_taken st5) with (ps_taken st4) in T6. lia.
  - destruct (observe_ok [] st5 Hst5) as (m' & st6 & E6 & -> & Hst6 & _ & A6 & T6). rewrite E6.
    change (ps_at st5) with (ps_at st4) in *. change (ps_taken st5) with (ps_taken st4) in T6.
    replace (ps_at st4) with (4 + ps_at st)%nat by lia. fold start.
    destruct (poll_loop_ok capacity timeout (checked_add instant_limit start timeout) from fuel st6 0 Hst6 Hc)
      as (o & st' & -> & Hst' & T' & Ho); [unfold MAX_INTERNAL_EVENTS_PER_POLL; lia| |lia|lia|].
    + destruct Hend as [Hend|[Hlim Hend]]; [by left|right]. intros i Hi.
      unfold checked_add. rewrite decide_True by lia. cbn. by apply bool_decide_eq_true, Hend.
    + exists o, st'. split_and!; [done..|lia].
Qed.

Lemma stop_loop_ok deadline from : ∀ fuel st,
  good [] st → (∀ i, (from ≤ i)%nat → deadline ≤ m_now (env i)) → (from < ps_at st + fuel)%nat → (0 < fuel)%nat →
  ∃ st', stop_loop env scheduled_flush_batch realtime_flush_batch fuel st deadline = Done (Some st') ∧ good [] st'.
Proof.
  induction fuel as [|fuel IH]; intros st Hst Hend Hfuel Hpos; [lia|]. cbn [stop_loop].
  destruct (observe_ok [] st Hst) as (m & st1 & E1 & -> & Hst1 & _ & A1 & _). rewrite E1.
  case_decide as Hd; [|by exists st1].
  destruct (flush_scheduled_st_ok [] st1 Hst1) as (st2 & -> & Hst2 & _ & A2). cbn [mbind outcome_bind].
  destruct (flush_realtime_st_ok [] st2 Hst2) as (st3 & -> & Hst3 & _ & A3). cbn [mbind outcome_bind].
  destruct (decide (from ≤ ps_at st)%nat) as [Hle|Hle]; [specialize (Hend _ Hle); lia|].
  apply IH; [done|done|lia|lia].
Qed.

(** Nothing of any session, endpoint or ticket is left, and no send is admitted. *)
Definition emptied (g : GameRuntime) : Prop :=
  g_session_endpoints g = ∅ ∧ g_endpoint_transports g = ∅ ∧ g_udp_sessions g = ∅ ∧
  trackers (g_heartbeat g) = ∅ ∧ cr_trackers (g_clock g) = ∅ ∧ sessions (g_range g) = ∅ ∧
  completed (g_range g) = [] ∧ queued (g_scheduled g) = [] ∧ lq_pending (g_realtime g) = ∅ ∧
  entries (tickets (g_resume g)) = ∅ ∧ pending_server (g_resume g) = ∅ ∧ inflight_server (g_resume g) = ∅ ∧
  ∀ s, with_ready (g_admission g) s = false.

(** a stop returns and leaves nothing behind.  The drain ends at the latest in the round
    after the clock passed the deadline; when the transport stopped, every table and queue
    of the runtime is empty and no later send is admitted. *)
Theorem stop_empties drain_timeout network_stop from fuel st :
  good [] st →
  let start := m_now (env (ps_at st)) in
  (∀ i, (from ≤ i)%nat → start + drain_timeout ≤ m_now (env i)) → (from < fuel)%nat →
  ∃ res st', stop instant_limit env scheduled_flush_batch realtime_flush_batch fuel st drain_timeout network_stop =
      Done (Some (res, st')) ∧
    runtime_inv (ps_game st') ∧
    (res = Ok tt ↔ start + drain_timeout ≤ instant_limit ∧ network_stop = Ok tt) ∧
    (res = Ok tt → emptied (ps_game st')).
Proof.
  intros Hst start Hend Hfuel. unfold stop.
  destruct (observe_ok [] st Hst) as (m & st1 & E1 & -> & Hst1 & _ & A1 & _). rewrite E1. fold start.
  unfold checked_add. case_decide as Hlim.
  2: { eexists _, _. split_and!; [reflexivity|apply Hst1|split; [done|lia]|done]. }
  set (st2 := with_game st1 _).
  assert (Hst2 : good [] st2).
  { destruct (keeps_admission (ps_game st1) (begin_stop (g_admission (ps_game st1))) ltac:(done) (gd_inv _ _ Hst1))
      as (Hg & _ & T). by apply good_trims. }
  destruct (stop_loop_ok (start + drain_timeout) from fuel st2 Hst2 Hend) as (st3 & -> & Hst3); [cbn; lia|lia|].
  cbn [mbind outcome_bind]. destruct network_stop as [[]|e].
  2: { eexists _, _. split_and!; [reflexivity|apply Hst3|split; [done|naive_solver]|done]. }
  eexists _, _. split_and!; [reflexivity|by apply clear_runtime_ok, Hst3|done|]. intros _.
  destruct (gi_scheduled _ (gd_inv _ _ Hst3)) as [n Hn].
  split_and!; try reflexivity. exact (proj2 (clear_spec _ _ Hn)).
Qed.
End polls.

(** ** An example: a join is waiting in the transport's queue *)

Module PollDemo.
Definition env (i : nat) : Moment :=
  mkMoment (Z.of_nat i * 1000) Demo.net (λ _, 0) (λ _, 0) (λ _, Some 1) (λ _, 0) [].
Definition state : PollState :=
  mkPollState Demo.listening [Demo.join 10; Demo.event EventType.SessionOpened 10 []] 0 0.

Lemma no_arrivals at_ n : arrivals env at_ n = [].
Proof. unfold arrivals. revert at_. induction n as [|n IH]; intros at_; [done|]. cbn. apply IH. Qed.

Lemma state_good : good env [] state.
Proof.
  constructor.
  - eapply reachable_inv, Demo.listening_reachable.
  - split; vm_compute; discriminate.
  - intros n. rewrite no_arrivals. split; [|done].
    intros _. apply (bool_decide_unpack _). vm_compute. exact I.
Qed.
End PollDemo.

Lemma poll_returns_witness :
  ∃ output st', poll demo_hmac Demo.limit PollDemo.env 16 16 20 PollDemo.state 8 1000 = Done (Some (output, st')) ∧
    len output ≤ 8 ∧ output = [AuthRequest 1 10 Demo.client_key [] 0 0] ∧ ps_queue st' = [].
Proof.
  destruct (poll_returns demo_hmac Demo.limit PollDemo.env 16 16 ltac:(lia) ltac:(lia) 8 1000 5 20 PollDemo.state
    PollDemo.state_good ltac:(lia)) as (output & st' & E & _ & Hl & _).
  - right. split; [vm_compute; discriminate|]. intros i Hi. unfold PollDemo.env. cbn. lia.
  - lia.
  - exists output, st'. split; [exact E|]. split; [exact Hl|].
    assert (H : match poll demo_hmac Demo.limit PollDemo.env 16 16 20 PollDemo.state 8 1000 with
                | Done (Some (o, s)) => o = [AuthRequest 1 10 Demo.client_key [] 0 0] ∧ ps_queue s = []
                | _ => False
                end) by (vm_compute; split; reflexivity).
    rewrite E in H. exact H.
Defined.

Lemma stop_empties_witness :
  ∃ st', stop Demo.limit PollDemo.env 16 16 20 PollDemo.state 3000 (Ok tt) = Done (Some (Ok tt, st')) ∧
    emptied (ps_game st').
Proof.
  destruct (stop_empties Demo.limit PollDemo.env 16 16 ltac:(lia) ltac:(lia) 3000 (Ok tt) 3 20 PollDemo.state
    PollDemo.state_good) as (res & st' & E & _ & [_ Hres] & He).
  - intros i Hi. unfold PollDemo.env. cbn. lia.
  - lia.
  - rewrite Hres in E by (split; [vm_compute; discriminate|done]).
    exists st'. split; [exact E|]. apply He, Hres. split; [vm_compute; discriminate|done].
Defined.
