(* ===== verification/Outbound.v ===== *)
(** * Outbound messages and their budgets: rnet-transport [state.rs] and [latest.rs]

    Byte budgets shared by threads, the messages that hold reservations in them, bounded
    channels to the socket tasks, and the replaceable slots of [latest.rs].  Shared objects
    ([Arc], [Weak], channels) live in a store under an identifier; dropping a value is an
    explicit operation. *)

From S2P Require Import Prelude Bytes CoreTypes Framing Control Security Transition TcpSession.

(** [std::net::SocketAddr]: the address as a number of 32 or 128 bits, and the port. *)
Record SocketAddr := mkSocketAddr {
  sa_v6 : bool;
  sa_ip : Z;
  sa_port : Z
}.
#[export] Instance SocketAddr_eq_dec : EqDecision SocketAddr.
Proof. solve_decision. Defined.
#[export] Instance SocketAddr_countable : Countable SocketAddr.
Proof.
  apply (inj_countable' (λ a, (sa_v6 a, sa_ip a, sa_port a)) (λ t, mkSocketAddr t.1.1 t.1.2 t.2)). by intros [].
Defined.

(** ** Byte budgets *)

Record ByteBudget := mkByteBudget {
  bb_limit : Z;
  bb_used : Z;
  bb_peak : Z
}.

Definition byte_budget_new (limit : Z) : ByteBudget := mkByteBudget limit 0 0.

Inductive Attempt :=
| Reserved (b : ByteBudget)
| Refused (e : RnetError)
| Observed (current : Z).

(** One round of the compare-and-exchange loop, having read [current]; [weak] is a spurious
    failure of the exchange. *)
Definition reserve_once (b : ByteBudget) (current bytes : Z) (weak : bool) : Attempt :=
  match checked_add usize_max current bytes with
  | None => Refused (mkRnetError ErrorCode.WouldBlock "send byte budget overflow")
  | Some next =>
    if decide (next > bb_limit b) then
      Refused (mkRnetError ErrorCode.WouldBlock "send byte budget exhausted")
    else if decide (bb_used b = current ∧ weak = false) then
      Reserved (mkByteBudget (bb_limit b) next (bb_peak b `max` next))
    else Observed (bb_used b)
  end.

(** The call when no other thread intervenes. *)
Definition reserve (b : ByteBudget) (bytes : Z) : Result ByteBudget :=
  match reserve_once b (bb_used b) bytes false with
  | Reserved b => Ok b
  | Refused e => Err e
  | Observed _ => fail ErrorCode.InternalPanic "unreachable"
  end.

(** [used.fetch_sub]. *)
Definition give_back (bytes : Z) (b : ByteBudget) : ByteBudget :=
  mkByteBudget (bb_limit b) (wrapping_sub 64 (bb_used b) bytes) (bb_peak b).

Record ByteReservation := mkByteReservation {
  br_budget : Z;
  br_bytes : Z
}.

(** ** Messages, channels and slots *)

Record Outbound := mkOutbound {
  ob_bytes : list byte;
  ob_kind : OutboundKind;
  ob_queued_at : Instant;
  ob_reservations : list ByteReservation;
  ob_latest_slot : option Z
}.
#[export] Instance Outbound_eta : Eta Outbound := λ o,
  mkOutbound (ob_bytes o) (ob_kind o) (ob_queued_at o) (ob_reservations o) (ob_latest_slot o).

(** A bounded [mpsc] channel; the address is that of a datagram peer. *)
Record Channel := mkChannel {
  ch_capacity : Z;
  ch_items : list (option SocketAddr * Outbound);
  ch_closed : bool
}.
#[export] Instance Channel_eta : Eta Channel := λ c,
  mkChannel (ch_capacity c) (ch_items c) (ch_closed c).

Record LatestCounters := mkLatestCounters {
  replaced : Z;
  worker_pickups : Z;
  admission_would_block : Z;
  admission_invalid_handle : Z;
  admission_invalid_state : Z;
  admission_handshake_required : Z;
  admission_not_supported : Z;
  admission_message_too_large : Z;
  admission_other_failures : Z
}.
#[export] Instance LatestCounters_eta : Eta LatestCounters := λ c,
  mkLatestCounters (replaced c) (worker_pickups c) (admission_would_block c) (admission_invalid_handle c)
    (admission_invalid_state c) (admission_handshake_required c) (admission_not_supported c)
    (admission_message_too_large c) (admission_other_failures c).

(** The slots that are alive (a placeholder owns each), the registry of weak references to
    them, and the identifier of the next slot. *)
Record Store := mkStore {
  st_budgets : gmap Z ByteBudget;
  st_channels : gmap Z Channel;
  st_slots : gmap Z (option Outbound);
  st_registry : gmap Z (gmap Z Z);
  st_counters : LatestCounters;
  st_next_slot : Z
}.
#[export] Instance Store_eta : Eta Store := λ s,
  mkStore (st_budgets s) (st_channels s) (st_slots s) (st_registry s) (st_counters s) (st_next_slot s).

(** [fetch_add(1)]. *)
Definition bump (z : Z) : Z := wrapping_add 64 z 1.

(** [ByteBudget::reserve] on a shared budget. *)
Definition reserve_in (st : Store) (budget bytes : Z) : Result ByteReservation * Store :=
  match st_budgets st !! budget with
  | None => (fail ErrorCode.InternalPanic "unreachable", st)
  | Some b =>
    match reserve b bytes with
    | Ok b => (Ok (mkByteReservation budget bytes), st <| st_budgets ::= <[budget := b]> |>)
    | Err e => (Err e, st)
    end
  end.

(** [Drop for ByteReservation], and the drop of a message: its reservations, and the slot a
    placeholder owns with what it still holds. *)
Definition drop_reservation (st : Store) (r : ByteReservation) : Store :=
  st <| st_budgets ::= alter (give_back (br_bytes r)) (br_budget r) |>.
Definition drop_reservations (st : Store) (l : list ByteReservation) : Store := foldl drop_reservation st l.
Definition drop_outbound (st : Store) (o : Outbound) : Store :=
  let st := drop_reservations st (ob_reservations o) in
  match ob_latest_slot o with
  | None => st
  | Some slot =>
    let held := st_slots st !! slot in
    let st := st <| st_slots ::= delete slot |> in
    match held with
    | Some (Some inner) => drop_reservations st (ob_reservations inner)
    | _ => st
    end
  end.

Definition with_kind (st : Store) (bytes : list byte) (kind : OutboundKind) (runtime session : Z) (now : Instant) :
    Result Outbound * Store :=
  match reserve_in st runtime (len bytes) with
  | (Err e, st) => (Err e, st)
  | (Ok runtime_reservation, st) =>
    match reserve_in st session (len bytes) with
    | (Err e, st) => (Err e, drop_reservation st runtime_reservation)
    | (Ok session_reservation, st) =>
      (Ok (mkOutbound bytes kind now [runtime_reservation; session_reservation] None), st)
    end
  end.
Definition with_budgets (st : Store) (bytes : list byte) := with_kind st bytes OutData.
Definition with_game_control (st : Store) (bytes : list byte) := with_kind st bytes OutGameControl.

Definition with_latest_slot (slot : Z) (now : Instant) : Outbound := mkOutbound [] OutData now [] (Some slot).

(** [absorb] and [release] on one reservation of a message. *)
Definition absorb (r other : ByteReservation) : ByteReservation :=
  mkByteReservation (br_budget r) (br_bytes r + br_bytes other).
Definition shrink (bytes : Z) (r : ByteReservation) : ByteReservation :=
  mkByteReservation (br_budget r) (br_bytes r - bytes).

Definition replace_bytes (st : Store) (o : Outbound) (bytes : list byte) (now : Instant) :
    Result Outbound * Store :=
  match ob_kind o, ob_reservations o with
  | OutData, [r; s] =>
    let old_len := len (ob_bytes o) in
    let done o := o <| ob_bytes := bytes |> <| ob_queued_at := now |> in
    if decide (len bytes > old_len) then
      let extra := len bytes - old_len in
      match reserve_in st (br_budget r) extra with
      | (Err e, st) => (Err e, st)
      | (Ok runtime, st) =>
        match reserve_in st (br_budget s) extra with
        | (Err e, st) => (Err e, drop_reservation st runtime)
        | (Ok session, st) => (Ok (done (o <| ob_reservations := [absorb r runtime; absorb s session] |>)), st)
        end
      end
    else if decide (len bytes < old_len) then
      let released := old_len - len bytes in
      let st := drop_reservations st [mkByteReservation (br_budget r) released; mkByteReservation (br_budget s) released] in
      (Ok (done (o <| ob_reservations := [shrink released r; shrink released s] |>)), st)
    else (Ok (done o), st)
  | _, _ => (fail ErrorCode.InvalidState "outbound is not replaceable", st)
  end.

(** ** [LatestSlot] *)

Definition slot_replace (st : Store) (slot : Z) (bytes : list byte) (now : Instant) : Result bool * Store :=
  match st_slots st !! slot with
  | Some (Some o) =>
    match replace_bytes st o bytes now with
    | (Err e, st) => (Err e, st)
    | (Ok o, st) => (Ok true, st <| st_slots ::= <[slot := Some o]> |>)
    end
  | _ => (Ok false, st)
  end.

Definition slot_take (st : Store) (slot : Z) : option Outbound * Store :=
  match st_slots st !! slot with
  | Some (Some o) =>
    (Some o, st <| st_slots ::= <[slot := None]> |> <| st_counters ::= λ c, c <| worker_pickups ::= bump |> |>)
  | _ => (None, st)
  end.

(** [weak.upgrade().is_some_and(|slot| slot.is_pending())]. *)
Definition is_pending (st : Store) (slot : Z) : bool :=
  match st_slots st !! slot with Some (Some _) => true | _ => false end.

(** The placeholder is consumed. *)
Definition resolve_latest (st : Store) (o : Outbound) : option Outbound * Store :=
  match ob_latest_slot o with
  | Some slot => let '(taken, st) := slot_take st slot in (taken, drop_outbound st o)
  | None => (Some o, st)
  end.

(** ** Channels *)

Inductive TrySendError := Full | Closed.

(** [try_send]; a refused message is dropped with the error. *)
Definition try_send (st : Store) (channel : Z) (peer : option SocketAddr) (o : Outbound) :
    result TrySendError unit * Store :=
  match st_channels st !! channel with
  | None => (Err Closed, drop_outbound st o)
  | Some ch =>
    if ch_closed ch then (Err Closed, drop_outbound st o)
    else if decide (ch_capacity ch ≤ len (ch_items ch)) then (Err Full, drop_outbound st o)
    else (Ok tt, st <| st_channels ::= <[channel := ch <| ch_items ::= λ l, l ++ [(peer, o)] |>]> |>)
  end.

(** The worker's [recv] and [try_recv]. *)
Definition channel_recv (st : Store) (channel : Z) : option (option SocketAddr * Outbound) * Store :=
  match st_channels st !! channel with
  | Some ch =>
    match ch_items ch with
    | item :: rest => (Some item, st <| st_channels ::= <[channel := ch <| ch_items := rest |>]> |>)
    | [] => (None, st)
    end
  | None => (None, st)
  end.

(** The receiver goes away with everything queued. *)
Definition channel_close (st : Store) (channel : Z) : Store :=
  match st_channels st !! channel with
  | Some ch =>
    foldl (λ st item, drop_outbound st item.2)
      (st <| st_channels ::= <[channel := ch <| ch_items := [] |> <| ch_closed := true |>]> |>) (ch_items ch)
  | None => st
  end.

(** ** [LatestRegistry] *)

Inductive SessionTarget :=
| ToTcp (channel : Z)
| ToUdp (channel : Z) (peer : SocketAddr) (max_frame_len : Z) (cleanup : bool)
| ToKcp (channel : Z) (peer : SocketAddr) (cleanup : bool).

Inductive LatestSendOutcome := Queued | Replaced.
#[export] Instance LatestSendOutcome_eq_dec : EqDecision LatestSendOutcome.
Proof. solve_decision. Defined.

Definition map_latest_send_error (transport : string) (e : TrySendError) : RnetError :=
  match e with
  | Full => mkRnetError ErrorCode.WouldBlock (transport ++ " latest queue is full")
  | Closed => mkRnetError ErrorCode.InvalidState (transport ++ " latest queue is closed")
  end.

(** The part of [enqueue] that admits a new slot. *)
Definition admit_slot (st : Store) (session key : Z) (frame : list byte) (target : SessionTarget)
    (runtime_budget session_budget : Z) (now : Instant) : Result LatestSendOutcome * Store :=
  match with_budgets st frame runtime_budget session_budget now with
  | (Err e, st) => (Err e, st)
  | (Ok o, st) =>
    let slot := st_next_slot st in
    let st := st <| st_slots ::= <[slot := Some o]> |> <| st_next_slot ::= Z.add 1 |> in
    let pending := with_latest_slot slot now in
    let '(sent, st) :=
      match target with
      | ToTcp channel =>
        let '(r, st) := try_send st channel None pending in (map_err (map_latest_send_error "session") r, st)
      | ToKcp channel peer _ =>
        let '(r, st) := try_send st channel (Some peer) pending in (map_err (map_latest_send_error "KCP") r, st)
      | ToUdp _ _ _ _ =>
        (fail ErrorCode.NotSupported "UDP uses its own datagram latest path", drop_outbound st pending)
      end in
    match sent with
    | Err e => (Err e, st)
    | Ok _ => (Ok Queued, st <| st_registry ::= alter (insert key slot) session |>)
    end
  end.

Definition enqueue (st : Store) (session key : Z) (frame : list byte) (target : SessionTarget)
    (runtime_budget session_budget : Z) (now : Instant) : Result LatestSendOutcome * Store :=
  let session_slots :=
    filter (λ ks : Z * Z, is_pending st ks.2 = true) (default ∅ (st_registry st !! session)) in
  let st := st <| st_registry ::= <[session := session_slots]> |> in
  let fresh := admit_slot st session key frame target runtime_budget session_budget now in
  match session_slots !! key with
  | Some slot =>
    match slot_replace st slot frame now with
    | (Err e, st) => (Err e, st)
    | (Ok true, st) => (Ok Replaced, st <| st_counters ::= λ c, c <| replaced ::= bump |> |>)
    | (Ok false, _) => fresh
    end
  | None => fresh
  end.

Definition registry_forget (st : Store) (session : Z) : Store := st <| st_registry ::= delete session |>.

Definition record_admission_failure (st : Store) (c : ErrorCode.t) : Store :=
  st <| st_counters ::= λ k,
    match c with
    | ErrorCode.WouldBlock => k <| admission_would_block ::= bump |>
    | ErrorCode.InvalidHandle => k <| admission_invalid_handle ::= bump |>
    | ErrorCode.InvalidState => k <| admission_invalid_state ::= bump |>
    | ErrorCode.HandshakeRequired => k <| admission_handshake_required ::= bump |>
    | ErrorCode.NotSupported => k <| admission_not_supported ::= bump |>
    | ErrorCode.MessageTooLarge => k <| admission_message_too_large ::= bump |>
    | _ => k <| admission_other_failures ::= bump |>
    end |>.

(** ** Ownership

    What the threads hold outside the store: messages in their hands, and reservations not yet
    part of a message.  Each [own_step] is one atomic action of one thread, so a run of them is
    an interleaving of any number of threads; every operation above, run alone, is such a run. *)

(** What a reservation, and a message, takes of a budget. *)
Definition res (b : Z) (r : ByteReservation) : Z := if decide (br_budget r = b) then br_bytes r else 0.
Definition charge (b : Z) (o : Outbound) : Z := sumZ (res b) (ob_reservations o).

Record Hands := mkHands {
  hd_msgs : list Outbound;
  hd_leases : list ByteReservation
}.

Inductive own_step : Store * Hands → Store * Hands → Prop :=
| own_reserve st m l b n r st' :
    0 ≤ n → reserve_in st b n = (Ok r, st') → own_step (st, mkHands m l) (st', mkHands m (r :: l))
| own_return st m l r l' :
    l ≡ₚ r :: l' → own_step (st, mkHands m l) (drop_reservation st r, mkHands m l')
| own_message st m l bytes kind now r s l' :
    l ≡ₚ r :: s :: l' → br_bytes r = len bytes → br_bytes s = len bytes →
    own_step (st, mkHands m l) (st, mkHands (mkOutbound bytes kind now [r; s] None :: m) l')
| own_unmake st m l o m' :
    m ≡ₚ o :: m' → ob_latest_slot o = None →
    own_step (st, mkHands m l) (st, mkHands m' (ob_reservations o ++ l))
| own_slot st m l o m' now :
    m ≡ₚ o :: m' → ob_latest_slot o = None →
    own_step (st, mkHands m l)
      (st <| st_slots ::= <[st_next_slot st := Some o]> |> <| st_next_slot ::= Z.add 1 |>,
       mkHands (with_latest_slot (st_next_slot st) now :: m') l)
| own_send st m l o m' channel peer ch :
    m ≡ₚ o :: m' → st_channels st !! channel = Some ch →
    own_step (st, mkHands m l)
      (st <| st_channels ::= <[channel := ch <| ch_items ::= λ k, k ++ [(peer, o)] |>]> |>, mkHands m' l)
| own_recv st m l channel ch peer o rest :
    st_channels st !! channel = Some ch → ch_items ch = (peer, o) :: rest →
    own_step (st, mkHands m l)
      (st <| st_channels ::= <[channel := ch <| ch_items := rest |>]> |>, mkHands (o :: m) l)
| own_close st m l channel ch :
    st_channels st !! channel = Some ch →
    own_step (st, mkHands m l)
      (st <| st_channels ::= <[channel := ch <| ch_closed := true |>]> |>, mkHands m l)
| own_take st m l o m' slot inner c :
    m ≡ₚ o :: m' → ob_latest_slot o = Some slot → st_slots st !! slot = Some (Some inner) →
    own_step (st, mkHands m l)
      (st <| st_slots ::= <[slot := None]> |> <| st_counters := c |>, mkHands (inner :: m) l)
| own_discard st m l o m' slot :
    m ≡ₚ o :: m' → ob_latest_slot o = Some slot → st_slots st !! slot = Some None →
    own_step (st, mkHands m l) (st <| st_slots ::= delete slot |>, mkHands m' l)
| own_swap st m l slot inner inner' l' :
    (* a replacement in place; reservations are merged and split, none appear or vanish *)
    st_slots st !! slot = Some (Some inner) → ob_latest_slot inner' = None →
    (∀ b, sumZ (res b) (ob_reservations inner' ++ l') = sumZ (res b) (ob_reservations inner ++ l)) →
    Forall (λ r, br_bytes r = len (ob_bytes inner')) (ob_reservations inner') → Forall (λ r, 0 ≤ br_bytes r) l' →
    own_step (st, mkHands m l) (st <| st_slots ::= <[slot := Some inner']> |>, mkHands m l')
| own_bookkeeping st m l registry c :
    own_step (st, mkHands m l) (st <| st_registry := registry |> <| st_counters := c |>, mkHands m l).

(** The sum of a measure over the queued and held messages, and over the slots. *)
Definition queued (f : Outbound → Z) (channels : gmap Z Channel) : Z :=
  sum_map (λ ch, sumZ (λ it, f it.2) (ch_items ch)) channels.
Definition slotted (f : Outbound → Z) (slots : gmap Z (option Outbound)) : Z := sum_map (from_option f 0) slots.
Definition owner (slot : Z) (o : Outbound) : Z := if decide (ob_latest_slot o = Some slot) then 1 else 0.

Definition message_ok (o : Outbound) : Prop :=
  Forall (λ r, br_bytes r = len (ob_bytes o)) (ob_reservations o) ∧ (is_Some (ob_latest_slot o) → ob_reservations o = []).

Definition charged (b : Z) (st : Store) (h : Hands) : Z :=
  queued (charge b) (st_channels st) + sumZ (charge b) (hd_msgs h) + slotted (charge b) (st_slots st) +
  sumZ (res b) (hd_leases h).

Record store_wf (st : Store) (h : Hands) : Prop := {
  sw_leases : Forall (λ r, 0 ≤ br_bytes r) (hd_leases h);
  sw_held : Forall message_ok (hd_msgs h);
  sw_queued c ch : st_channels st !! c = Some ch → Forall (λ it, message_ok it.2) (ch_items ch);
  sw_slots s o : st_slots st !! s = Some (Some o) → message_ok o ∧ ob_latest_slot o = None;
  sw_owner s : queued (owner s) (st_channels st) + sumZ (owner s) (hd_msgs h) =
    if decide (is_Some (st_slots st !! s)) then 1 else 0;
  sw_fresh s : is_Some (st_slots st !! s) → s < st_next_slot st
}.

Definition budgets_ok (st : Store) (h : Hands) : Prop :=
  ∀ b bud, st_budgets st !! b = Some bud →
    bb_used bud = charged b st h ∧ bb_used bud ≤ bb_limit bud ≤ usize_max.

Definition store_inv (st : Store) (h : Hands) : Prop := store_wf st h ∧ budgets_ok st h.

(** *** The measures under one change *)

Lemma res_nonneg b r : 0 ≤ br_bytes r → 0 ≤ res b r.
Proof. unfold res. case_decide; lia. Qed.
Lemma res_sum_nonneg b l : Forall (λ r, 0 ≤ br_bytes r) l → 0 ≤ sumZ (res b) l.
Proof. induction 1; [done|]. rewrite sumZ_cons. pose proof (res_nonneg b x ltac:(done)). lia. Qed.
Lemma message_nonneg o : message_ok o → Forall (λ r, 0 ≤ br_bytes r) (ob_reservations o).
Proof. intros [H _]. eapply Forall_impl; [exact H|]. intros r Hr. cbn in Hr. rewrite Hr. apply len_nonneg. Qed.
Lemma charge_nonneg b o : message_ok o → 0 ≤ charge b o.
Proof. intros ?. by apply res_sum_nonneg, message_nonneg. Qed.

Lemma owner_none s o : ob_latest_slot o = None → owner s o = 0.
Proof. unfold owner. by intros ->. Qed.
Lemma owner_some s k o : ob_latest_slot o = Some k → owner s o = if decide (k = s) then 1 else 0.
Proof. unfold owner. intros ->. repeat case_decide; congruence. Qed.
Lemma owner_nonneg s o : 0 ≤ owner s o.
Proof. unfold owner. case_decide; lia. Qed.

Lemma sum_nonneg_forall {A} (f : A → Z) (P : A → Prop) l :
  (∀ x, P x → 0 ≤ f x) → Forall P l → 0 ≤ sumZ f l.
Proof. intros Hf. induction 1; [done|]. rewrite sumZ_cons. pose proof (Hf x ltac:(done)). lia. Qed.
Lemma sum_map_nonneg_forall {A} (f : A → Z) (m : gmap Z A) :
  (∀ k x, m !! k = Some x → 0 ≤ f x) → 0 ≤ sum_map f m.
Proof.
  intros Hf. unfold sum_map. apply (sum_nonneg_forall _ (λ kx, 0 ≤ f kx.2)); [done|].
  apply Forall_forall. intros [k x] Hk%elem_of_map_to_list. by eapply Hf.
Qed.

Lemma queued_update f channels c ch items closed :
  channels !! c = Some ch →
  queued f (<[c := mkChannel (ch_capacity ch) items closed]> channels) =
  queued f channels - sumZ (λ it, f it.2) (ch_items ch) + sumZ (λ it, f it.2) items.
Proof. intros Hc. unfold queued. rewrite (sum_map_update _ _ _ ch) by done. cbn. lia. Qed.

Lemma charged_nonneg b st h : store_wf st h → 0 ≤ charged b st h.
Proof.
  intros I. unfold charged.
  assert (0 ≤ queued (charge b) (st_channels st)).
  { apply sum_map_nonneg_forall. intros c ch Hc. apply (sum_nonneg_forall _ (λ it, message_ok it.2)); [|by eapply I].
    intros ? ?. by apply charge_nonneg. }
  assert (0 ≤ sumZ (charge b) (hd_msgs h)) by (eapply sum_nonneg_forall; [apply charge_nonneg|apply I]).
  assert (0 ≤ slotted (charge b) (st_slots st)).
  { apply sum_map_nonneg_forall. intros s [o|] Ho; cbn; [|done]. apply charge_nonneg. by eapply I. }
  pose proof (res_sum_nonneg b _ (sw_leases _ _ I)). lia.
Qed.

(** *** Every atomic action preserves the invariant *)

Lemma budgets_same st h st' h' :
  st_budgets st' = st_budgets st → (∀ b, charged b st' h' = charged b st h) → budgets_ok st h → budgets_ok st' h'.
Proof. intros E Hc Hb b bud. rewrite E, Hc. apply Hb. Qed.

Lemma reserve_spec b n b' :
  0 ≤ n → reserve b n = Ok b' →
  bb_used b' = bb_used b + n ∧ bb_limit b' = bb_limit b ∧ bb_used b' ≤ bb_limit b.
Proof.
  unfold reserve, reserve_once. intros Hn. destruct (checked_add _ _ _) as [next|] eqn:E; [|done].
  apply checked_add_Some in E as [-> ?]. case_decide; [done|]. rewrite decide_True by done.
  intros [= <-]. cbn. lia.
Qed.

Lemma own_reserve_inv st m l b n r st' :
  0 ≤ n → reserve_in st b n = (Ok r, st') → store_inv st (mkHands m l) → store_inv st' (mkHands m (r :: l)).
Proof.
  unfold reserve_in. intros Hn E [[Hl Hm Hq Hs Ho Hf] Hb].
  destruct (st_budgets st !! b) as [bud|] eqn:Eb; [|done].
  destruct (reserve bud n) as [bud'|] eqn:Er; [|done]. injection E as <- <-.
  apply reserve_spec in Er as (Hu & Hlim & ?); [|done].
  split; [split; try done; by constructor|].
  intros b' bud''. change (charged b' _ _) with (charged b' st (mkHands m (mkByteReservation b n :: l))).
  assert (charged b' st (mkHands m (mkByteReservation b n :: l)) =
          charged b' st (mkHands m l) + if decide (b = b') then n else 0) as ->
    by (unfold charged; cbn [hd_msgs hd_leases]; rewrite sumZ_cons; unfold res at 1; cbn; lia).
  cbn. destruct (decide (b = b')) as [<-|Hne].
  - rewrite lookup_insert_eq. intros [= <-]. pose proof (Hb _ _ Eb). lia.
  - rewrite lookup_insert_ne by done. intros ?%Hb. lia.
Qed.

Lemma own_return_inv st m l r l' :
  l ≡ₚ r :: l' → store_inv st (mkHands m l) → store_inv (drop_reservation st r) (mkHands m l').
Proof.
  intros Hp [[Hl Hm Hq Hs Ho Hf] Hb]. cbn in *. rewrite Hp in Hl. apply Forall_cons in Hl as [Hr Hl].
  assert (store_wf (drop_reservation st r) (mkHands m l')) as Hwf by done. split; [done|].
  intros b bud. assert (charged b st (mkHands m l) = res b r + charged b (drop_reservation st r) (mkHands m l')) as Hc
    by (unfold charged; cbn; rewrite Hp, sumZ_cons; lia).
  pose proof (charged_nonneg b _ _ Hwf). cbn. rewrite lookup_alter_Some.
  intros [(<- & bud0 & Hbud & ->)|[Hne Hbud]]; destruct (Hb _ _ Hbud) as [Hu ?]; rewrite Hc in Hu; unfold res in Hu.
  - rewrite decide_True in Hu by done. cbn. unfold wrapping_sub. rewrite Z.mod_small by zlia. lia.
  - rewrite decide_False in Hu by done. lia.
Qed.

Lemma own_message_inv st m l bytes kind now r s l' :
  l ≡ₚ r :: s :: l' → br_bytes r = len bytes → br_bytes s = len bytes → store_inv st (mkHands m l) →
  store_inv st (mkHands (mkOutbound bytes kind now [r; s] None :: m) l').
Proof.
  intros Hp ? ? [[Hl Hm Hq Hs Ho Hf] Hb]. cbn in *. rewrite Hp in Hl. rewrite !Forall_cons in Hl. destruct Hl as (? & ? & ?).
  split; [|eapply budgets_same, Hb; [done|]; intros b; unfold charged; cbn; rewrite Hp, !sumZ_cons; unfold charge; cbn;
    rewrite !sumZ_cons, sumZ_nil; lia].
  split; cbn; try done.
  - constructor; [|done]. split; cbn; [by repeat constructor|by intros []].
Qed.

Lemma own_unmake_inv st m l o m' :
  m ≡ₚ o :: m' → ob_latest_slot o = None → store_inv st (mkHands m l) →
  store_inv st (mkHands m' (ob_reservations o ++ l)).
Proof.
  intros Hp Hn [[Hl Hm Hq Hs Ho Hf] Hb]. cbn in *. rewrite Hp in Hm. apply Forall_cons in Hm as [Hr%message_nonneg Hm].
  split; [|eapply budgets_same, Hb; [done|]; intros b; unfold charged; cbn; rewrite Hp, sumZ_cons, sumZ_app; unfold charge;
    lia].
  split; cbn; try done.
  - by apply Forall_app.
  - intros s. rewrite <- Ho, Hp, sumZ_cons. rewrite owner_none by done. lia.
Qed.

Lemma slotted_insert f slots s x :
  slots !! s = None → slotted f (<[s := x]> slots) = from_option f 0 x + slotted f slots.
Proof. intros. unfold slotted. by rewrite sum_map_insert. Qed.
Lemma slotted_update f slots s x y :
  slots !! s = Some x → slotted f (<[s := y]> slots) = from_option f 0 y - from_option f 0 x + slotted f slots.
Proof. intros. unfold slotted. by rewrite (sum_map_update _ _ _ x). Qed.
Lemma slotted_delete f slots s x :
  slots !! s = Some x → slotted f (delete s slots) = slotted f slots - from_option f 0 x.
Proof. intros. unfold slotted. rewrite (sum_map_delete _ slots s x) by done. lia. Qed.

Lemma own_slot_inv st m l o m' now :
  m ≡ₚ o :: m' → ob_latest_slot o = None → store_inv st (mkHands m l) →
  store_inv (st <| st_slots ::= <[st_next_slot st := Some o]> |> <| st_next_slot ::= Z.add 1 |>)
    (mkHands (with_latest_slot (st_next_slot st) now :: m') l).
Proof.
  intros Hp Hn [[Hl Hm Hq Hs Ho Hf] Hb]. cbn in *. rewrite Hp in Hm. apply Forall_cons in Hm as [Hok Hm].
  assert (Hfresh : st_slots st !! st_next_slot st = None)
    by (apply eq_None_not_Some; intros H%Hf; lia).
  split; [|eapply budgets_same, Hb; [done|]; intros b; unfold charged; cbn; rewrite slotted_insert by done;
    rewrite Hp, !sumZ_cons; change (charge b (with_latest_slot _ _)) with 0; cbn; lia].
  split; cbn; try done.
  - constructor; [|done]. split; cbn; [constructor|done].
  - intros s o'. destruct (decide (s = st_next_slot st)) as [->|?].
    + rewrite lookup_insert_eq. by intros [= <-].
    + rewrite lookup_insert_ne by done. apply Hs.
  - intros s. specialize (Ho s). rewrite Hp, sumZ_cons, owner_none in Ho by done.
    rewrite sumZ_cons, (owner_some _ (st_next_slot st)) by done.
    destruct (decide (st_next_slot st = s)) as [<-|?].
    + rewrite lookup_insert_eq. rewrite Hfresh in Ho. rewrite decide_False in Ho by (by intros []).
      rewrite decide_True by done. lia.
    + rewrite lookup_insert_ne by done. lia.
  - intros s. destruct (decide (st_next_slot st = s)) as [<-|?]; [lia|].
    rewrite lookup_insert_ne by done. intros ?%Hf. lia.
Qed.

Lemma own_send_inv st m l o m' channel peer ch :
  m ≡ₚ o :: m' → st_channels st !! channel = Some ch → store_inv st (mkHands m l) →
  store_inv (st <| st_channels ::= <[channel := ch <| ch_items ::= λ k, k ++ [(peer, o)] |>]> |>) (mkHands m' l).
Proof.
  intros Hp Hch [[Hl Hm Hq Hs Ho Hf] Hb]. cbn in *. rewrite Hp in Hm. apply Forall_cons in Hm as [Hok Hm].
  assert (Hsum : ∀ f, queued f (<[channel := ch <| ch_items ::= λ k, k ++ [(peer, o)] |>]> (st_channels st)) =
                      queued f (st_channels st) + f o).
  { intros f. cbn. rewrite (queued_update f _ _ ch) by done. rewrite sumZ_app, sumZ_cons, sumZ_nil. cbn. lia. }
  split; [|eapply budgets_same, Hb; [done|]; intros b; unfold charged; cbn -[queued]; rewrite Hsum, Hp, sumZ_cons; lia].
  split; cbn -[queued]; try done.
  - intros c ch'. destruct (decide (c = channel)) as [->|?].
    + rewrite lookup_insert_eq. intros [= <-]. cbn. apply Forall_app. split; [by eapply Hq|]. by constructor.
    + rewrite lookup_insert_ne by done. apply Hq.
  - intros s. rewrite Hsum, <- Ho, Hp, sumZ_cons. lia.
Qed.

Lemma own_recv_inv st m l channel ch peer o rest :
  st_channels st !! channel = Some ch → ch_items ch = (peer, o) :: rest → store_inv st (mkHands m l) →
  store_inv (st <| st_channels ::= <[channel := ch <| ch_items := rest |>]> |>) (mkHands (o :: m) l).
Proof.
  intros Hch Hit [[Hl Hm Hq Hs Ho Hf] Hb]. cbn in *.
  pose proof (Hq _ _ Hch) as Hall. rewrite Hit in Hall. apply Forall_cons in Hall as [Hok Hrest].
  assert (Hsum : ∀ f, queued f (<[channel := ch <| ch_items := rest |>]> (st_channels st)) =
                      queued f (st_channels st) - f o).
  { intros f. cbn. rewrite (queued_update f _ _ ch) by done. rewrite Hit, sumZ_cons. cbn. lia. }
  split; [|eapply budgets_same, Hb; [done|]; intros b; unfold charged; cbn -[queued]; rewrite Hsum, sumZ_cons; lia].
  split; cbn -[queued]; try done.
  - by constructor.
  - intros c ch'. destruct (decide (c = channel)) as [->|?].
    + rewrite lookup_insert_eq. by intros [= <-].
    + rewrite lookup_insert_ne by done. apply Hq.
  - intros s. rewrite Hsum, <- Ho, sumZ_cons. lia.
Qed.

Lemma own_close_inv st m l channel ch :
  st_channels st !! channel = Some ch → store_inv st (mkHands m l) →
  store_inv (st <| st_channels ::= <[channel := ch <| ch_closed := true |>]> |>) (mkHands m l).
Proof.
  intros Hch [[Hl Hm Hq Hs Ho Hf] Hb]. cbn in *.
  assert (Hsum : ∀ f, queued f (<[channel := ch <| ch_closed := true |>]> (st_channels st)) = queued f (st_channels st)).
  { intros f. cbn. rewrite (queued_update f _ _ ch) by done. lia. }
  split; [|eapply budgets_same, Hb; [done|]; intros b; unfold charged; cbn -[queued]; by rewrite Hsum].
  split; cbn -[queued]; try done.
  - intros c ch'. destruct (decide (c = channel)) as [->|?].
    + rewrite lookup_insert_eq. intros [= <-]. cbn. by eapply Hq.
    + rewrite lookup_insert_ne by done. apply Hq.
  - intros s. by rewrite Hsum.
Qed.

Lemma is_Some_insert {A} (slots : gmap Z A) s x k :
  is_Some (slots !! k) → is_Some (<[k := x]> slots !! s) ↔ is_Some (slots !! s).
Proof.
  intros Hk. destruct (decide (k = s)) as [<-|?].
  - rewrite lookup_insert_eq. by split.
  - by rewrite lookup_insert_ne.
Qed.

Lemma store_wf_same st st' h :
  st_channels st' = st_channels st → st_slots st' = st_slots st → st_next_slot st' = st_next_slot st →
  store_wf st h → store_wf st' h.
Proof. intros Hc Hs Hn []. split; rewrite ?Hc, ?Hs, ?Hn; done. Qed.

(** A change of what a live slot holds. *)
Lemma slot_change_wf st m l m' l' slot x y :
  st_slots st !! slot = Some x → store_wf st (mkHands m l) →
  Forall (λ r, 0 ≤ br_bytes r) l' → Forall message_ok m' →
  (∀ s, sumZ (owner s) m' = sumZ (owner s) m) →
  (∀ o, y = Some o → message_ok o ∧ ob_latest_slot o = None) →
  store_wf (st <| st_slots ::= <[slot := y]> |>) (mkHands m' l').
Proof.
  intros Hx [Hl Hm Hq Hs Ho Hf] Hl' Hm' Hown Hy. split; cbn; try done.
  - intros s o. destruct (decide (s = slot)) as [->|?].
    + rewrite lookup_insert_eq. intros [= ->]. by apply Hy.
    + rewrite lookup_insert_ne by done. apply Hs.
  - intros s. rewrite Hown. cbn in Ho. rewrite Ho. pose proof (is_Some_insert (st_slots st) s y slot ltac:(by eexists)).
    repeat case_decide; tauto.
  - intros s ?%is_Some_insert; [by apply Hf|by eexists].
Qed.

Lemma own_take_inv st m l o m' slot inner c :
  m ≡ₚ o :: m' → ob_latest_slot o = Some slot → st_slots st !! slot = Some (Some inner) →
  store_inv st (mkHands m l) →
  store_inv (st <| st_slots ::= <[slot := None]> |> <| st_counters := c |>) (mkHands (inner :: m) l).
Proof.
  intros Hp Hn Hin [Hwf Hb]. pose proof (sw_slots _ _ Hwf _ _ Hin) as [Hok Hpl].
  split; [|eapply budgets_same, Hb; [done|]; intros b; unfold charged; cbn;
    rewrite (slotted_update _ _ _ (Some inner)), sumZ_cons by done; cbn; lia].
  apply (store_wf_same (st <| st_slots ::= <[slot := None]> |>)); [done..|].
  eapply (slot_change_wf st m l); [done|done|apply Hwf|..].
  - constructor; [done|apply Hwf].
  - intros s. rewrite sumZ_cons, owner_none by done. lia.
  - done.
Qed.

Lemma own_swap_inv st m l slot inner inner' l' :
  st_slots st !! slot = Some (Some inner) → ob_latest_slot inner' = None →
  (∀ b, sumZ (res b) (ob_reservations inner' ++ l') = sumZ (res b) (ob_reservations inner ++ l)) →
  Forall (λ r, br_bytes r = len (ob_bytes inner')) (ob_reservations inner') → Forall (λ r, 0 ≤ br_bytes r) l' →
  store_inv st (mkHands m l) →
  store_inv (st <| st_slots ::= <[slot := Some inner']> |>) (mkHands m l').
Proof.
  intros Hin Hn Hsum Hi' Hl' [Hwf Hb].
  split; [|eapply budgets_same, Hb; [done|]; intros b; specialize (Hsum b); rewrite !sumZ_app in Hsum; unfold charged; cbn;
    rewrite (slotted_update _ _ _ (Some inner)) by done; cbn;
    change (charge b inner') with (sumZ (res b) (ob_reservations inner'));
    change (charge b inner) with (sumZ (res b) (ob_reservations inner)); lia].
  eapply (slot_change_wf st m l); [done|done|done|apply Hwf|done|].
  intros o [= <-]. split; [|done]. split; [done|]. rewrite Hn. by intros [].
Qed.

Lemma own_discard_inv st m l o m' slot :
  m ≡ₚ o :: m' → ob_latest_slot o = Some slot → st_slots st !! slot = Some None → store_inv st (mkHands m l) →
  store_inv (st <| st_slots ::= delete slot |>) (mkHands m' l).
Proof.
  intros Hp Hn Hin [[Hl Hm Hq Hs Ho Hf] Hb]. cbn in *. rewrite Hp in Hm. apply Forall_cons in Hm as [[_ Hr] Hm].
  rewrite Hn in Hr. specialize (Hr ltac:(by eexists)).
  split; [|eapply budgets_same, Hb; [done|]; intros b; unfold charged; cbn;
    rewrite (slotted_delete _ _ _ None) by done; rewrite Hp, sumZ_cons;
    replace (charge b o) with 0 by (unfold charge; by rewrite Hr); cbn; lia].
  split; cbn; try done.
  - intros s o'. rewrite lookup_delete_Some. intros [_ ?]. by apply (Hs s).
  - intros s. specialize (Ho s). rewrite Hp, sumZ_cons, (owner_some _ slot) in Ho by done.
    destruct (decide (slot = s)) as [<-|?].
    + rewrite lookup_delete_eq. rewrite Hin in Ho. rewrite decide_True in Ho by done.
      rewrite decide_False by (by intros []). lia.
    + rewrite lookup_delete_ne by done. lia.
  - intros s. rewrite lookup_delete_is_Some. intros [_ ?]. by apply Hf.
Qed.

Lemma own_step_inv x y : own_step x y → store_inv x.1 x.2 → store_inv y.1 y.2.
Proof.
  destruct 1; cbn [fst snd]; intros I.
  - by eapply own_reserve_inv.
  - by eapply own_return_inv.
  - by eapply own_message_inv.
  - by eapply own_unmake_inv.
  - by eapply own_slot_inv.
  - by eapply own_send_inv.
  - by eapply own_recv_inv.
  - by eapply own_close_inv.
  - by eapply own_take_inv.
  - by eapply own_discard_inv.
  - by eapply own_swap_inv.
  - destruct I as [Hwf Hb]. split; [by apply (store_wf_same st)|by eapply budgets_same, Hb].
Qed.

(** *** The operations are runs of atomic actions *)

Abbreviation own_run := (rtc own_step).

Lemma own_run_inv x y : own_run x y → store_inv x.1 x.2 → store_inv y.1 y.2.
Proof. induction 1 as [|x y z Hxy _ IH]; [done|]. intros Hx. by eapply IH, own_step_inv. Qed.

Lemma store_eta st : st <| st_counters := st_counters st |> = st.
Proof. by destruct st. Qed.

Lemma drop_reservations_run st m l rs :
  own_run (st, mkHands m (rs ++ l)) (drop_reservations st rs, mkHands m l).
Proof.
  revert st. induction rs as [|r rs IH]; intros st; [done|]. cbn.
  eapply rtc_l; [by apply (own_return _ _ _ r (rs ++ l))|]. apply IH.
Qed.

Lemma drop_reservation_run st m l r : own_run (st, mkHands m (r :: l)) (drop_reservation st r, mkHands m l).
Proof. apply (drop_reservations_run st m l [r]). Qed.

(** A reservation attempt: the lease, or nothing. *)
Lemma reserve_in_run st m l b n :
  0 ≤ n →
  match reserve_in st b n with
  | (Ok r, st') => r = mkByteReservation b n ∧ own_run (st, mkHands m l) (st', mkHands m (r :: l))
  | (Err _, st') => st' = st
  end.
Proof.
  intros Hn. destruct (reserve_in st b n) as [[r|e] st'] eqn:E.
  - split; [|by eapply rtc_once, own_reserve].
    unfold reserve_in in E. repeat case_match; by simplify_eq.
  - unfold reserve_in in E. repeat case_match; by simplify_eq.
Qed.

Lemma with_kind_run st m l bytes kind rb sb now :
  match with_kind st bytes kind rb sb now with
  | (Ok o, st') => ob_bytes o = bytes ∧ ob_kind o = kind ∧ ob_latest_slot o = None ∧
                   own_run (st, mkHands m l) (st', mkHands (o :: m) l)
  | (Err _, st') => own_run (st, mkHands m l) (st', mkHands m l)
  end.
Proof.
  unfold with_kind. pose proof (len_nonneg bytes) as Hn.
  pose proof (reserve_in_run st m l rb (len bytes) Hn) as H1.
  destruct (reserve_in st rb (len bytes)) as [[r|] st1]; [|by subst]. destruct H1 as [-> H1].
  pose proof (reserve_in_run st1 m (mkByteReservation rb (len bytes) :: l) sb (len bytes) Hn) as H2.
  destruct (reserve_in st1 sb (len bytes)) as [[s|] st2].
  - destruct H2 as [-> H2]. split_and!; [done..|]. etrans; [exact H1|]. etrans; [exact H2|].
    eapply rtc_once, own_message; [|done..]. apply Permutation_swap.
  - subst. etrans; [exact H1|]. apply drop_reservation_run.
Qed.

(** The holder of a placeholder owns a live slot. *)
Lemma held_slot st ms o m l slot :
  ms ≡ₚ o :: m → store_wf st (mkHands ms l) → ob_latest_slot o = Some slot →
  is_Some (st_slots st !! slot) ∧ ob_reservations o = [].
Proof.
  intros Hp [_ Hm _ _ Ho _] Hs. cbn in *. rewrite Hp in Hm. apply Forall_cons in Hm as [[_ Hr] _].
  split; [|apply Hr; by eexists]. specialize (Ho slot).
  rewrite Hp, sumZ_cons, (owner_some _ slot), decide_True in Ho by done.
  assert (0 ≤ queued (owner slot) (st_channels st)).
  { apply sum_map_nonneg_forall. intros. apply sumZ_nonneg. intros. apply owner_nonneg. }
  assert (0 ≤ sumZ (owner slot) m) by (apply sumZ_nonneg, owner_nonneg).
  case_decide; [done|lia].
Qed.

Lemma drop_outbound_run st ms o m l :
  ms ≡ₚ o :: m → store_inv st (mkHands ms l) → own_run (st, mkHands ms l) (drop_outbound st o, mkHands m l).
Proof.
  intros Hp [Hwf _]. unfold drop_outbound. destruct (ob_latest_slot o) as [slot|] eqn:Hs.
  - destruct (held_slot _ _ _ _ _ _ Hp Hwf Hs) as [[x Hx] ->]. cbn. rewrite Hx. destruct x as [inner|].
    + eapply rtc_l; [by eapply (own_take _ _ _ o m slot inner (st_counters st))|].
      eapply rtc_l; [eapply (own_discard _ _ _ o (inner :: m) slot); [rewrite Hp; apply Permutation_swap|done|]|];
        [apply lookup_insert_eq|].
      eapply rtc_l; [eapply own_unmake; [done|by eapply Hwf]|].
      replace (_ <| st_slots ::= delete slot |>) with (st <| st_slots ::= delete slot |>)
        by (destruct st; cbn; by rewrite delete_insert_eq).
      apply drop_reservations_run.
    + by eapply rtc_once, own_discard.
  - eapply rtc_l; [by eapply own_unmake|]. apply drop_reservations_run.
Qed.

Lemma resolve_latest_run st ms o m l taken st' :
  ms ≡ₚ o :: m → store_inv st (mkHands ms l) → resolve_latest st o = (taken, st') →
  ∃ ms', ms' ≡ₚ option_list taken ++ m ∧ own_run (st, mkHands ms l) (st', mkHands ms' l).
Proof.
  intros Hp I. unfold resolve_latest. destruct (ob_latest_slot o) as [slot|] eqn:Hs;
    [|intros [= <- <-]; by exists ms].
  destruct (held_slot _ _ _ _ _ _ Hp (proj1 I) Hs) as [[x Hx] _]. unfold slot_take. rewrite Hx.
  destruct x as [inner|]; intros [= <- <-]; [|exists m; split; [done|by apply drop_outbound_run]].
  exists (inner :: m). split; [done|]. eapply rtc_l; [by eapply own_take|].
  apply drop_outbound_run; [by rewrite Hp; apply Permutation_swap|]. by eapply own_take_inv.
Qed.

Lemma try_send_run st ms o m l channel peer :
  ms ≡ₚ o :: m → store_inv st (mkHands ms l) →
  own_run (st, mkHands ms l) ((try_send st channel peer o).2, mkHands m l).
Proof.
  intros Hp I. unfold try_send. destruct (st_channels st !! channel) as [ch|] eqn:Hc; [|by apply drop_outbound_run].
  destruct (ch_closed ch); [by apply drop_outbound_run|]. case_decide; [by apply drop_outbound_run|].
  by eapply rtc_once, own_send.
Qed.

Lemma channel_recv_run st m l channel :
  own_run (st, mkHands m l)
    ((channel_recv st channel).2, mkHands (option_list (snd <$> (channel_recv st channel).1) ++ m) l).
Proof.
  unfold channel_recv. destruct (st_channels st !! channel) as [ch|] eqn:Hc; [|done].
  destruct (ch_items ch) as [|[peer o] rest] eqn:Hi; [done|]. by eapply rtc_once, own_recv.
Qed.

(** Dropping held messages one after the other. *)
Lemma drop_all_run st ms (items : list (option SocketAddr * Outbound)) m l :
  ms ≡ₚ items.*2 ++ m → store_inv st (mkHands ms l) →
  ∃ ms', ms' ≡ₚ m ∧
    own_run (st, mkHands ms l) (foldl (λ st item, drop_outbound st item.2) st items, mkHands ms' l).
Proof.
  revert st ms. induction items as [|[peer o] items IH]; intros st ms Hp I; [by exists ms|].
  pose proof (drop_outbound_run _ _ _ _ _ Hp I) as R1. pose proof (own_run_inv _ _ R1 I) as I1.
  destruct (IH _ (items.*2 ++ m) ltac:(done) I1) as (ms' & Hp' & R2). exists ms'. split; [done|]. by etrans.
Qed.

Lemma reserve_in_slots st b n : st_slots (reserve_in st b n).2 = st_slots st.
Proof. unfold reserve_in. by repeat case_match. Qed.

Lemma slot_replace_run st m l slot bytes now :
  store_inv st (mkHands m l) → own_run (st, mkHands m l) ((slot_replace st slot bytes now).2, mkHands m l).
Proof.
  intros [Hwf _]. unfold slot_replace. destruct (st_slots st !! slot) as [[o|]|] eqn:Hs; [|done..].
  destruct (sw_slots _ _ Hwf _ _ Hs) as [[Hsize _] Hplain]. pose proof (sw_leases _ _ Hwf) as Hl. cbn in Hl. unfold replace_bytes.
  destruct (ob_kind o); [|done]. destruct (ob_reservations o) as [|r [|s [|]]] eqn:Hr; try done.
  rewrite !Forall_cons in Hsize. destruct Hsize as (Er & Es & _). cbn in Er, Es.
  pose proof (len_nonneg bytes). pose proof (len_nonneg (ob_bytes o)).
  case_decide; [|case_decide].
  - set (extra := len bytes - len (ob_bytes o)). assert (Hx : 0 ≤ extra) by lia.
    pose proof (reserve_in_run st m l (br_budget r) extra Hx) as R1. pose proof (reserve_in_slots st (br_budget r) extra) as S1.
    destruct (reserve_in st (br_budget r) extra) as [[rt|] st1]; [|by subst]. destruct R1 as [-> R1].
    pose proof (reserve_in_run st1 m (mkByteReservation (br_budget r) extra :: l) (br_budget s) extra Hx) as R2.
    pose proof (reserve_in_slots st1 (br_budget s) extra) as S2.
    destruct (reserve_in st1 (br_budget s) extra) as [[ss|] st2]; [|subst; etrans; [exact R1|apply drop_reservation_run]].
    destruct R2 as [-> R2]. etrans; [exact R1|]. etrans; [exact R2|]. cbn in S1, S2.
    eapply rtc_once, (own_swap _ _ _ slot o); [by rewrite S2, S1|done| |..|exact Hl].
    + intros b. rewrite Hr. cbn. rewrite !sumZ_cons. unfold res. cbn. repeat case_decide; lia.
    + cbn. repeat constructor; cbn; lia.
  - set (released := len (ob_bytes o) - len bytes).
    set (given := [mkByteReservation (br_budget r) released; mkByteReservation (br_budget s) released]).
    set (o' := o <| ob_reservations := [shrink released r; shrink released s] |> <| ob_bytes := bytes |>
                 <| ob_queued_at := now |>).
    eapply rtc_l; [apply (own_swap st m l slot o o' (given ++ l)); [done|done|..]|].
    + intros b. rewrite Hr. unfold o', given. cbn. rewrite !sumZ_cons. unfold res. cbn.
      repeat case_decide; lia.
    + cbn. repeat constructor; cbn; lia.
    + apply Forall_app. split; [|done]. repeat constructor; cbn; lia.
    + exact (drop_reservations_run (st <| st_slots ::= <[slot := Some o']> |>) m l given).
  - eapply rtc_once, (own_swap _ _ _ slot o); [done|done|by intros; cbn; rewrite Hr| |done].
    cbn. rewrite Hr. repeat constructor; cbn; lia.
Qed.

Lemma bookkeeping_run st h st' :
  st_budgets st' = st_budgets st → st_channels st' = st_channels st → st_slots st' = st_slots st →
  st_next_slot st' = st_next_slot st → own_run (st, h) (st', h).
Proof.
  destruct st, st', h. cbn. intros -> -> -> ->. eapply rtc_once, (own_bookkeeping (mkStore _ _ _ _ _ _)).
Qed.

Lemma admit_slot_run st m l session key frame target rb sb now :
  store_inv st (mkHands m l) →
  own_run (st, mkHands m l) ((admit_slot st session key frame target rb sb now).2, mkHands m l).
Proof.
  intros I. unfold admit_slot. pose proof (with_kind_run st m l frame OutData rb sb now) as R1. fold (with_budgets st frame) in R1.
  destruct (with_budgets st frame rb sb now) as [[o|] st1]; [|done]. destruct R1 as (_ & _ & Hplain & R1).
  pose proof (own_run_inv _ _ R1 I) as I1. cbn in I1.
  pose proof (own_slot st1 (o :: m) l o m now ltac:(done) Hplain) as R2. pose proof (own_step_inv _ _ R2 I1) as I2.
  cbn [fst snd] in I2. set (st2 := _ <| st_next_slot ::= _ |>) in *. set (pending := with_latest_slot _ now) in *.
  etrans; [exact R1|]. eapply rtc_l; [exact R2|].
  assert (Hsend : ∀ channel peer, own_run (st2, mkHands (pending :: m) l) ((try_send st2 channel peer pending).2, mkHands m l))
    by (intros; by apply try_send_run).
  destruct target as [channel|channel peer max cleanup|channel peer cleanup].
  - specialize (Hsend channel None). destruct (try_send st2 channel None pending) as [[?|e] st3]; cbn in *; [|done].
    etrans; [exact Hsend|]. by apply bookkeeping_run.
  - by apply drop_outbound_run.
  - specialize (Hsend channel (Some peer)). destruct (try_send st2 channel (Some peer) pending) as [[?|e] st3]; cbn in *; [|done].
    etrans; [exact Hsend|]. by apply bookkeeping_run.
Qed.

Lemma enqueue_run st m l session key frame target rb sb now :
  store_inv st (mkHands m l) →
  own_run (st, mkHands m l) ((enqueue st session key frame target rb sb now).2, mkHands m l).
Proof.
  intros I. unfold enqueue. set (session_slots := filter _ _). set (st1 := st <| st_registry ::= _ |>).
  assert (R1 : own_run (st, mkHands m l) (st1, mkHands m l)) by by apply bookkeeping_run.
  pose proof (own_run_inv _ _ R1 I) as I1. cbn in I1. pose proof (admit_slot_run st1 m l session key frame target rb sb now I1) as R2.
  destruct (session_slots !! key) as [slot|]; [|by etrans].
  pose proof (slot_replace_run st1 m l slot frame now I1) as R3.
  destruct (slot_replace st1 slot frame now) as [[[]|] st2]; cbn in R3; [|by etrans|by etrans].
  etrans; [exact R1|]. etrans; [exact R3|]. by apply bookkeeping_run.
Qed.

Lemma recv_all_run st m l channel ch items :
  st_channels st !! channel = Some ch → ch_items ch = items → 
  ∃ ms, ms ≡ₚ items.*2 ++ m ∧
    own_run (st, mkHands m l) (st <| st_channels ::= <[channel := ch <| ch_items := [] |>]> |>, mkHands ms l).
Proof.
  revert st m ch. induction items as [|[peer o] items IH]; intros st m ch Hc Hi.
  - exists m. split; [done|]. replace (st <| st_channels ::= _ |>) with st; [done|].
    destruct st, ch. cbn in *. subst. by rewrite insert_id.
  - set (ch1 := ch <| ch_items := items |>). set (st1 := st <| st_channels ::= <[channel := ch1]> |>).
    destruct (IH st1 (o :: m) ch1) as (ms & Hp & R); [apply lookup_insert_eq|done|].
    exists ms. split; [rewrite Hp; cbn; by rewrite Permutation_middle|].
    eapply rtc_l; [by eapply (own_recv st m l channel ch peer o items)|]. fold ch1 st1.
    replace (st <| st_channels ::= <[channel := ch <| ch_items := [] |>]> |>)
      with (st1 <| st_channels ::= <[channel := ch1 <| ch_items := [] |>]> |>); [done|].
    unfold st1, ch1. destruct st, ch. cbn. by rewrite insert_insert_eq.
Qed.

Lemma channel_close_run st m l channel :
  store_inv st (mkHands m l) →
  ∃ ms, ms ≡ₚ m ∧ own_run (st, mkHands m l) (channel_close st channel, mkHands ms l).
Proof.
  intros I. unfold channel_close. destruct (st_channels st !! channel) as [ch|] eqn:Hc; [|by exists m].
  destruct (recv_all_run st m l channel ch _ Hc eq_refl) as (ms & Hp & R1). pose proof (own_run_inv _ _ R1 I) as I1.
  set (st1 := st <| st_channels ::= <[channel := ch <| ch_items := [] |>]> |>) in *.
  assert (R2 : own_step (st1, mkHands ms l)
      (st1 <| st_channels ::= <[channel := (ch <| ch_items := [] |>) <| ch_closed := true |>]> |>, mkHands ms l))
    by (apply own_close, lookup_insert_eq).
  pose proof (own_step_inv _ _ R2 I1) as I2. cbn [fst snd] in I2.
  assert (Hst : st1 <| st_channels ::= <[channel := (ch <| ch_items := [] |>) <| ch_closed := true |>]> |> =
                st <| st_channels ::= <[channel := ch <| ch_items := [] |> <| ch_closed := true |>]> |>).
  { unfold st1. destruct st. cbn. by rewrite insert_insert_eq. }
  rewrite Hst in R2, I2. destruct (drop_all_run _ ms (ch_items ch) m l Hp I2) as (ms' & Hp' & R3).
  exists ms'. split; [done|]. etrans; [exact R1|]. eapply rtc_l; [exact R2|exact R3].
Qed.

(** ** Budgets *)

(** Budgets and channels before any use. *)
Definition fresh_store (st : Store) : Prop :=
  (∀ b bud, st_budgets st !! b = Some bud → bb_used bud = 0 ∧ 0 ≤ bb_limit bud ≤ usize_max) ∧
  (∀ c ch, st_channels st !! c = Some ch → ch_items ch = []) ∧ st_slots st = ∅.

Lemma queued_empty f channels : (∀ c ch, channels !! c = Some ch → ch_items ch = []) → queued f channels = 0.
Proof.
  intros H. unfold queued, sum_map. transitivity (sumZ (λ _, 0) (map_to_list channels)).
  - apply sumZ_ext. intros [c ch] Hc%elem_of_map_to_list. cbn. by rewrite (H _ _ Hc).
  - induction (map_to_list channels) as [|x l IH]; [done|]. by rewrite sumZ_cons, IH.
Qed.

Lemma fresh_store_inv st : fresh_store st → store_inv st (mkHands [] []).
Proof.
  intros (Hb & Hc & Hs). split.
  - split; cbn; try done.
    + intros c ch Hch. by rewrite (Hc _ _ Hch).
    + intros s o. rewrite Hs. done.
    + intros s. rewrite queued_empty, Hs by done. done.
    + intros s. rewrite Hs. by intros [].
  - intros b bud Hbud. destruct (Hb _ _ Hbud) as [-> ?]. split; [|lia].
    unfold charged. rewrite queued_empty, Hs by done. done.
Qed.

(** The operations, and the atomic actions of other threads in between. *)
Inductive store_step : Store * Hands → Store * Hands → Prop :=
| step_message st m l bytes kind rb sb now o st' :
    with_kind st bytes kind rb sb now = (Ok o, st') → store_step (st, mkHands m l) (st', mkHands (o :: m) l)
| step_refused st m l bytes kind rb sb now e st' :
    with_kind st bytes kind rb sb now = (Err e, st') → store_step (st, mkHands m l) (st', mkHands m l)
| step_send st m l o m' channel peer :
    m ≡ₚ o :: m' → store_step (st, mkHands m l) ((try_send st channel peer o).2, mkHands m' l)
| step_recv st m l channel :
    store_step (st, mkHands m l)
      ((channel_recv st channel).2, mkHands (option_list (snd <$> (channel_recv st channel).1) ++ m) l)
| step_resolve st m l o m' taken st' ms :
    m ≡ₚ o :: m' → resolve_latest st o = (taken, st') → ms ≡ₚ option_list taken ++ m' →
    store_step (st, mkHands m l) (st', mkHands ms l)
| step_drop st m l o m' :
    m ≡ₚ o :: m' → store_step (st, mkHands m l) (drop_outbound st o, mkHands m' l)
| step_close st m l channel : store_step (st, mkHands m l) (channel_close st channel, mkHands m l)
| step_enqueue st m l session key frame target rb sb now :
    store_step (st, mkHands m l) ((enqueue st session key frame target rb sb now).2, mkHands m l)
| step_forget st m l session : store_step (st, mkHands m l) (registry_forget st session, mkHands m l)
| step_other x y : own_step x y → store_step x y.

(** The order in which messages are held is irrelevant. *)
Lemma store_inv_perm st m m' l : m ≡ₚ m' → store_inv st (mkHands m l) → store_inv st (mkHands m' l).
Proof.
  intros Hp [[Hl Hm Hq Hs Ho Hf] Hb]. split.
  - split; cbn in *; try done; [by rewrite <- Hp|]. intros s. by rewrite <- Hp.
  - intros b bud Hbud. destruct (Hb _ _ Hbud) as [-> ?]. split; [|done]. unfold charged. cbn. by rewrite Hp.
Qed.

Lemma store_step_inv x y : store_step x y → store_inv x.1 x.2 → store_inv y.1 y.2.
Proof.
  destruct 1 as [st m l bytes kind rb sb now o st' E|st m l bytes kind rb sb now e st' E|st m l o m' channel peer Hp
    |st m l channel|st m l o m' taken st' ms Hp E Hms|st m l o m' Hp|st m l channel
    |st m l session key frame target rb sb now|st m l session|x y Hxy]; cbn [fst snd]; intros I.
  - pose proof (with_kind_run st m l bytes kind rb sb now) as R. rewrite E in R. by apply (own_run_inv _ _ (proj2 (proj2 (proj2 R)))).
  - pose proof (with_kind_run st m l bytes kind rb sb now) as R. rewrite E in R. by apply (own_run_inv _ _ R).
  - by apply (own_run_inv _ _ (try_send_run st m o m' l channel peer Hp I)).
  - by apply (own_run_inv _ _ (channel_recv_run st m l channel)).
  - destruct (resolve_latest_run st m o m' l taken st' Hp I E) as (ms' & Hms' & R).
    apply (store_inv_perm _ ms'); [by rewrite Hms, Hms'|]. by apply (own_run_inv _ _ R).
  - by apply (own_run_inv _ _ (drop_outbound_run st m o m' l Hp I)).
  - destruct (channel_close_run st m l channel I) as (ms & Hms & R). apply (store_inv_perm _ ms); [done|].
    by apply (own_run_inv _ _ R).
  - by apply (own_run_inv _ _ (enqueue_run st m l session key frame target rb sb now I)).
  - assert (R : own_run (st, mkHands m l) (registry_forget st session, mkHands m l)) by by apply bookkeeping_run.
    by apply (own_run_inv _ _ R).
  - by eapply own_step_inv.
Qed.

Lemma store_steps_inv x y : rtc store_step x y → store_inv x.1 x.2 → store_inv y.1 y.2.
Proof. induction 1 as [|x y z Hxy _ IH]; [done|]. intros Hx. by eapply IH, store_step_inv. Qed.

(** C33: Send budgets are exact: starting from unused budgets, after any sequence of the
    operations interleaved with the atomic actions of any number of other threads, the use of
    every budget is the sum of what queued, slotted and held messages and unfinished
    reservations take of it and never exceeds its limit; and once the queues and all hands are
    empty it is zero again, so no path leaks. *)
Theorem send_budgets_exact (st st' : Store) (h : Hands) (b : Z) (bud : ByteBudget) :
  fresh_store st → rtc store_step (st, mkHands [] []) (st', h) → st_budgets st' !! b = Some bud →
  bb_used bud = charged b st' h ∧ bb_used bud ≤ bb_limit bud ∧
  ((∀ c ch, st_channels st' !! c = Some ch → ch_items ch = []) → h = mkHands [] [] → bb_used bud = 0).
Proof.
  intros Hst Hrun Hbud. destruct (store_steps_inv _ _ Hrun (fresh_store_inv _ Hst)) as [Hwf Hb].
  destruct (Hb _ _ Hbud) as [Hu [? ?]]. split_and!; [done..|]. intros Hempty ->. rewrite Hu. unfold charged.
  rewrite queued_empty by done. cbn. assert (st_slots st' = ∅) as ->; [|done].
  apply map_empty. intros s. apply eq_None_not_Some. intros Hs.
  pose proof (sw_owner _ _ Hwf s) as Ho. cbn in Ho. rewrite queued_empty, decide_True in Ho by done. done.
Qed.

(** ** Replacement *)

(** The slot registered for a key, and the frame it holds until the worker takes it. *)
Definition pending_for (st : Store) (session key : Z) : option (list byte) :=
  slots ← st_registry st !! session;
  slot ← slots !! key;
  held ← st_slots st !! slot;
  o ← held;
  Some (ob_bytes o).

(** No slot is registered twice, and registered slots were allocated. *)
Record registry_wf (st : Store) : Prop := {
  rw_fresh session slots key slot :
    st_registry st !! session = Some slots → slots !! key = Some slot → slot < st_next_slot st;
  rw_unique session slots key session' slots' key' slot :
    st_registry st !! session = Some slots → slots !! key = Some slot →
    st_registry st !! session' = Some slots' → slots' !! key' = Some slot → session = session' ∧ key = key'
}.

(** Only budgets and counters differ. *)
Record same_queues (st st' : Store) : Prop := {
  sq_channels : st_channels st' = st_channels st;
  sq_slots : st_slots st' = st_slots st;
  sq_registry : st_registry st' = st_registry st;
  sq_next : st_next_slot st' = st_next_slot st
}.
#[export] Instance same_queues_preorder : PreOrder same_queues.
Proof. split; [done|]. intros x y z [] []. split; congruence. Qed.

Lemma drop_reservations_queues st l : same_queues st (drop_reservations st l).
Proof. revert st. induction l as [|r l IH]; intros st; [done|]. cbn. etrans; [|apply IH]. done. Qed.
Lemma reserve_in_queues st b n : same_queues st (reserve_in st b n).2.
Proof. unfold reserve_in. by repeat case_match. Qed.
Lemma with_kind_queues st bytes kind rb sb now : same_queues st (with_kind st bytes kind rb sb now).2.
Proof.
  unfold with_kind. pose proof (reserve_in_queues st rb (len bytes)) as H1.
  destruct (reserve_in st rb (len bytes)) as [[r|] st1]; [|done].
  pose proof (reserve_in_queues st1 sb (len bytes)) as H2.
  destruct (reserve_in st1 sb (len bytes)) as [[s|] st2]; cbn in *; [by etrans|].
  etrans; [exact H1|]. etrans; [exact H2|]. apply (drop_reservations_queues st2 [r]).
Qed.
Lemma replace_bytes_queues st o bytes now : same_queues st (replace_bytes st o bytes now).2.
Proof.
  unfold replace_bytes. destruct (ob_kind o); [|done]. destruct (ob_reservations o) as [|r [|s [|]]]; try done.
  case_decide; [|case_decide; [|done]]; [|apply drop_reservations_queues].
  pose proof (reserve_in_queues st (br_budget r) (len bytes - len (ob_bytes o))) as H1.
  destruct (reserve_in st _ _) as [[?|] st1]; [|done].
  pose proof (reserve_in_queues st1 (br_budget s) (len bytes - len (ob_bytes o))) as H2.
  destruct (reserve_in st1 _ _) as [[?|] st2]; cbn in *; [by etrans|].
  etrans; [exact H1|]. etrans; [exact H2|]. apply (drop_reservations_queues st2 [_]).
Qed.
Lemma replace_bytes_ok st o bytes now o' st' : replace_bytes st o bytes now = (Ok o', st') → ob_bytes o' = bytes.
Proof. unfold replace_bytes. intros. repeat (case_match || case_decide); simplify_eq; done. Qed.

(** The slot of a replaced message holds the new bytes; otherwise no queue changes. *)
Lemma slot_replace_cases st slot bytes now o :
  st_slots st !! slot = Some (Some o) →
  match slot_replace st slot bytes now with
  | (Ok true, st') => ∃ o' st1, same_queues st st1 ∧ ob_bytes o' = bytes ∧
                                st' = st1 <| st_slots ::= <[slot := Some o']> |>
  | (Ok false, _) => False
  | (Err _, st') => same_queues st st'
  end.
Proof.
  intros Ho. unfold slot_replace. rewrite Ho. pose proof (replace_bytes_queues st o bytes now) as Hq.
  destruct (replace_bytes st o bytes now) as [[o'|] st1] eqn:E; [|done].
  exists o', st1. split; [done|]. split; [by eapply replace_bytes_ok|done].
Qed.

(** A refused placeholder takes its fresh slot with it. *)
Lemma drop_fresh_slot st slot o now :
  st_slots st !! slot = None →
  same_queues (st <| st_next_slot ::= Z.add 1 |>)
    (drop_outbound (st <| st_slots ::= <[slot := Some o]> |> <| st_next_slot ::= Z.add 1 |>) (with_latest_slot slot now)).
Proof.
  intros Hf. unfold drop_outbound. cbn. rewrite lookup_insert_eq.
  etrans; [|apply drop_reservations_queues]. split; try done. cbn. by rewrite delete_insert_eq, delete_id.
Qed.

Lemma try_send_cases st channel peer o :
  match try_send st channel peer o with
  | (Ok _, st') => ∃ ch, st_channels st !! channel = Some ch ∧
      st' = st <| st_channels ::= <[channel := ch <| ch_items ::= λ l, l ++ [(peer, o)] |>]> |>
  | (Err _, st') => st' = drop_outbound st o
  end.
Proof. unfold try_send. repeat case_match; naive_solver. Qed.

(** The channel of a target that takes replaceable messages. *)
Definition latest_channel (target : SessionTarget) : option (Z * option SocketAddr) :=
  match target with
  | ToTcp channel => Some (channel, None)
  | ToKcp channel peer _ => Some (channel, Some peer)
  | ToUdp _ _ _ _ => None
  end.

Definition queued_last (st st' : Store) (channel slot : Z) (peer : option SocketAddr) (now : Instant) : Prop :=
  ∃ ch, st_channels st !! channel = Some ch ∧
    st_channels st' =
    <[channel := ch <| ch_items ::= λ l, l ++ [(peer, with_latest_slot slot now)] |>]> (st_channels st).

Lemma admit_slot_cases st session key frame target rb sb now :
  st_slots st !! st_next_slot st = None →
  match admit_slot st session key frame target rb sb now with
  | (Ok outcome, st') => outcome = Queued ∧ ∃ o channel peer,
      latest_channel target = Some (channel, peer) ∧ ob_bytes o = frame ∧
      queued_last st st' channel (st_next_slot st) peer now ∧
      st_slots st' = <[st_next_slot st := Some o]> (st_slots st) ∧
      st_registry st' = alter (insert key (st_next_slot st)) session (st_registry st) ∧
      st_next_slot st' = 1 + st_next_slot st
  | (Err _, st') => same_queues st st' ∨ same_queues (st <| st_next_slot ::= Z.add 1 |>) st'
  end.
Proof.
  intros Hf. unfold admit_slot. pose proof (with_kind_run st [] [] frame OutData rb sb now) as R.
  pose proof (with_kind_queues st frame OutData rb sb now) as [Qc Qs Qr Qn]. fold (with_budgets st frame) in *.
  destruct (with_budgets st frame rb sb now) as [[o|] st1]; [|by left]. destruct R as (Hbytes & _ & _ & _). cbn in Qc, Qs, Qr, Qn.
  rewrite Qn. set (slot := st_next_slot st) in *.
  set (st2 := st1 <| st_slots ::= <[slot := Some o]> |> <| st_next_slot ::= Z.add 1 |>).
  assert (Hdrop : same_queues (st <| st_next_slot ::= Z.add 1 |>) (drop_outbound st2 (with_latest_slot slot now))).
  { etrans; [|apply drop_fresh_slot; by rewrite Qs]. split; cbn; [done..|by rewrite Qn]. }
  assert (Hsend : ∀ channel peer,
    match try_send st2 channel peer (with_latest_slot slot now) with
    | (Ok _, st') => queued_last st st' channel slot peer now ∧ st_slots st' = <[slot := Some o]> (st_slots st) ∧
        st_registry st' = st_registry st ∧ st_next_slot st' = 1 + slot
    | (Err _, st') => same_queues (st <| st_next_slot ::= Z.add 1 |>) st'
    end).
  { intros channel peer. pose proof (try_send_cases st2 channel peer (with_latest_slot slot now)) as H.
    destruct (try_send st2 channel peer (with_latest_slot slot now)) as [[?|?] st3]; [|by subst].
    destruct H as (ch & Hch & ->). unfold queued_last. cbn in *. rewrite Qc in Hch |- *. rewrite Qs, Qr, Qn.
    split; [by exists ch|done]. }
  destruct target as [channel|channel peer max cleanup|channel peer cleanup]; [|by right|].
  - specialize (Hsend channel None). destruct (try_send _ _ _ _) as [[?|?] st3]; cbn; [|by right].
    destruct Hsend as (? & ? & Hreg & ?). split; [done|]. exists o, channel, None. cbn. rewrite Hreg. split_and!; done.
  - specialize (Hsend channel (Some peer)). destruct (try_send _ _ _ _) as [[?|?] st3]; cbn; [|by right].
    destruct Hsend as (? & ? & Hreg & ?). split; [done|]. exists o, channel, (Some peer). cbn. rewrite Hreg. split_and!; done.
Qed.

(** Forgetting slots that are no longer pending changes no pending frame. *)
Definition pruned (st : Store) (session : Z) : gmap Z Z :=
  filter (λ ks : Z * Z, is_pending st ks.2 = true) (default ∅ (st_registry st !! session)).

Lemma pending_pruned st session s k :
  pending_for (st <| st_registry ::= <[session := pruned st session]> |>) s k = pending_for st s k.
Proof.
  unfold pending_for. cbn. destruct (decide (session = s)) as [<-|?]; [|by rewrite lookup_insert_ne].
  rewrite lookup_insert_eq. cbn. unfold pruned.
  destruct (st_registry st !! session) as [slots|]; cbn; [|by rewrite map_filter_empty].
  destruct (slots !! k) as [slot|] eqn:Hk; [|by rewrite (proj2 (map_lookup_filter_None _ _ _) (or_introl Hk))].
  destruct (is_pending st slot) eqn:Hp.
  - by rewrite (map_lookup_filter_Some_2 _ _ _ slot Hk Hp).
  - rewrite (proj2 (map_lookup_filter_None _ _ _)); [|right; intros ? [= <-]%(eq_trans (eq_sym Hk)); cbn; congruence].
    cbn. unfold is_pending in Hp. by destruct (st_slots st !! slot) as [[]|].
Qed.

Lemma pending_ext st st' s k :
  st_slots st' = st_slots st → st_registry st' = st_registry st → pending_for st' s k = pending_for st s k.
Proof. unfold pending_for. by intros -> ->. Qed.

Lemma pruned_lookup st session key slot :
  pruned st session !! key = Some slot →
  (∃ o, st_slots st !! slot = Some (Some o)) ∧ ∃ slots, st_registry st !! session = Some slots ∧ slots !! key = Some slot.
Proof.
  unfold pruned. intros [Hk Hp]%map_lookup_filter_Some. cbn in Hp. split.
  - unfold is_pending in Hp. destruct (st_slots st !! slot) as [[o|]|]; [by exists o|done..].
  - destruct (st_registry st !! session) as [slots|]; [by exists slots|done].
Qed.

Lemma pruned_wf st session :
  registry_wf st → registry_wf (st <| st_registry ::= <[session := pruned st session]> |>).
Proof.
  intros [Hf Hu]. 
  assert (Hsub : ∀ s slots k slot, <[session := pruned st session]> (st_registry st) !! s = Some slots →
    slots !! k = Some slot → ∃ slots', st_registry st !! s = Some slots' ∧ slots' !! k = Some slot).
  { intros s slots k slot. destruct (decide (session = s)) as [<-|?].
    - rewrite lookup_insert_eq. intros [= <-] Hk. by apply pruned_lookup in Hk as [_ ?].
    - rewrite lookup_insert_ne by done. eauto. }
  split; cbn.
  - intros s slots k slot H1 H2. destruct (Hsub _ _ _ _ H1 H2) as (slots' & ? & ?). by eapply Hf.
  - intros s slots k s' slots' k' slot H1 H2 H3 H4.
    destruct (Hsub _ _ _ _ H1 H2) as (? & ? & ?). destruct (Hsub _ _ _ _ H3 H4) as (? & ? & ?). by eapply Hu.
Qed.

(** A change of one slot shows at the key it is registered for, and nowhere else. *)
Lemma pending_slot_change st slot o session slots key s k :
  registry_wf st → st_registry st !! session = Some slots → slots !! key = Some slot →
  pending_for (st <| st_slots ::= <[slot := Some o]> |>) s k =
  if decide (s = session ∧ k = key) then Some (ob_bytes o) else pending_for st s k.
Proof.
  intros [_ Hu] Hreg Hkey. unfold pending_for. cbn. case_decide as Hsk.
  - destruct Hsk as [-> ->]. rewrite Hreg. cbn. rewrite Hkey. cbn. by rewrite lookup_insert_eq.
  - destruct (st_registry st !! s) as [slots'|] eqn:Hs; [|done]. cbn. destruct (slots' !! k) as [slot'|] eqn:Hk; [|done].
    cbn. rewrite lookup_insert_ne; [done|]. intros <-. apply Hsk. by eapply Hu.
Qed.

(** A fresh slot registered for a key. *)
Lemma pending_fresh_slot st st' slot o session slots key s k :
  registry_wf st → slot = st_next_slot st → st_registry st !! session = Some slots →
  st_slots st' = <[slot := Some o]> (st_slots st) →
  st_registry st' = alter (insert key slot) session (st_registry st) →
  pending_for st' s k = if decide (s = session ∧ k = key) then Some (ob_bytes o) else pending_for st s k.
Proof.
  intros [Hf _] -> Hreg Es Er. unfold pending_for. rewrite Es, Er. case_decide as Hsk.
  - destruct Hsk as [-> ->]. rewrite lookup_alter_eq, Hreg. cbn. rewrite lookup_insert_eq. cbn. by rewrite lookup_insert_eq.
  - assert (∀ slot', (∃ slots', st_registry st !! s = Some slots' ∧ slots' !! k = Some slot') → slot' ≠ st_next_slot st) as Hne.
    { intros slot' (slots' & H1 & H2) ->. pose proof (Hf _ _ _ _ H1 H2). lia. }
    destruct (decide (session = s)) as [<-|?].
    + rewrite lookup_alter_eq, Hreg. cbn. rewrite lookup_insert_ne by (intros ->; tauto).
      destruct (slots !! k) as [slot'|] eqn:Hk; [|done]. cbn. rewrite lookup_insert_ne; [done|].
      intros E. by apply (Hne slot'); [eauto|].
    + rewrite lookup_alter_ne by done. destruct (st_registry st !! s) as [slots'|]; [|done]. cbn.
      destruct (slots' !! k) as [slot'|] eqn:Hk; [|done]. cbn. rewrite lookup_insert_ne; [done|].
      intros E. by apply (Hne slot'); [eauto|].
Qed.

Lemma registry_wf_mono st st' :
  st_registry st' = st_registry st → st_next_slot st ≤ st_next_slot st' → registry_wf st → registry_wf st'.
Proof.
  intros Er ? [Hf Hu]. split; rewrite Er; [|done]. intros s slots k slot H1 H2. pose proof (Hf _ _ _ _ H1 H2). lia.
Qed.

Lemma registry_wf_insert st st' session slots key :
  registry_wf st → st_registry st !! session = Some slots →
  st_registry st' = alter (insert key (st_next_slot st)) session (st_registry st) →
  st_next_slot st' = 1 + st_next_slot st → registry_wf st'.
Proof.
  intros [Hf Hu] Hreg Er En.
  assert (Hsub : ∀ s slots' k slot, st_registry st' !! s = Some slots' → slots' !! k = Some slot →
    s = session ∧ k = key ∧ slot = st_next_slot st ∨
    slot < st_next_slot st ∧ ∃ old, st_registry st !! s = Some old ∧ old !! k = Some slot).
  { intros s slots' k slot. rewrite Er. destruct (decide (session = s)) as [<-|?].
    - rewrite lookup_alter_eq, Hreg. intros [= <-]. destruct (decide (key = k)) as [<-|?].
      + rewrite lookup_insert_eq. intros [= <-]. by left.
      + rewrite lookup_insert_ne by done. right. eauto.
    - rewrite lookup_alter_ne by done. right. eauto. }
  split.
  - intros s slots' k slot H1 H2. destruct (Hsub _ _ _ _ H1 H2) as [(_ & _ & ->)|[? _]]; lia.
  - intros s slots1 k s' slots2 k' slot H1 H2 H3 H4.
    destruct (Hsub _ _ _ _ H1 H2) as [(-> & -> & ->)|(? & ? & ? & ?)];
      destruct (Hsub _ _ _ _ H3 H4) as [(-> & -> & ?)|(? & ? & ? & ?)]; [done|lia|lia|by eapply Hu].
Qed.

Lemma enqueue_registry_wf st h session key frame target rb sb now :
  store_inv st h → registry_wf st → registry_wf (enqueue st session key frame target rb sb now).2.
Proof.
  intros I Hreg. unfold enqueue. fold (pruned st session).
  set (st1 := st <| st_registry ::= <[session := pruned st session]> |>).
  pose proof (pruned_wf st session Hreg) as Hwf. fold st1 in Hwf.
  assert (Hadmit : registry_wf (admit_slot st1 session key frame target rb sb now).2).
  { assert (Hnext : st_slots st1 !! st_next_slot st1 = None)
      by (apply eq_None_not_Some; intros H%(sw_fresh _ _ (proj1 I)); cbn in H; lia).
    pose proof (admit_slot_cases st1 session key frame target rb sb now Hnext) as H.
    destruct (admit_slot _ _ _ _ _ _ _ _) as [[?|] st2].
    - destruct H as (_ & ? & ? & ? & _ & _ & _ & _ & Er & En).
      eapply (registry_wf_insert st1); [done|apply lookup_insert_eq|done..].
    - destruct H as [[_ _ Er En]|[_ _ Er En]]; (apply (registry_wf_mono st1); [done| |done]); cbn [snd]; rewrite En; [done|].
      change (st_next_slot st1 ≤ 1 + st_next_slot st1). lia. }
  destruct (pruned st session !! key) as [slot|] eqn:Hkey; [|done].
  destruct (pruned_lookup _ _ _ _ Hkey) as [[o Ho] _]. pose proof (slot_replace_cases st1 slot frame now o Ho) as H.
  destruct (slot_replace st1 slot frame now) as [[[]|] st2]; [|done|].
  - destruct H as (o' & st3 & [_ _ Er En] & _ & ->). apply (registry_wf_mono st1); [done| |done]. cbn. by rewrite En.
  - destruct H as [_ _ Er En]. apply (registry_wf_mono st1); [done| |done]. cbn [snd]. by rewrite En.
Qed.

(** Replaceable snapshots: [enqueue] answers [Replaced] exactly when a frame of the same
    session and key still waits, and then that frame is overwritten in its place in the queue;
    it answers [Queued] when none waits, and then the frame takes the last place; a refusal
    changes no queue, no waiting frame and no budget.  No other key is ever affected. *)
Theorem latest_replacement (st : Store) (h : Hands) (session key : Z) (frame : list byte) (target : SessionTarget)
    (rb sb : Z) (now : Instant) :
  store_inv st h → registry_wf st →
  registry_wf (enqueue st session key frame target rb sb now).2 ∧
  match enqueue st session key frame target rb sb now with
  | (Ok outcome, st') =>
    (outcome = Replaced ↔ is_Some (pending_for st session key)) ∧
    (∀ s k, pending_for st' s k = if decide (s = session ∧ k = key) then Some frame else pending_for st s k) ∧
    if decide (outcome = Replaced) then st_channels st' = st_channels st
    else ∃ channel peer slot, latest_channel target = Some (channel, peer) ∧ queued_last st st' channel slot peer now
  | (Err _, st') =>
    (∀ s k, pending_for st' s k = pending_for st s k) ∧ st_channels st' = st_channels st ∧
    ∀ b bud bud', st_budgets st !! b = Some bud → st_budgets st' !! b = Some bud' → bb_used bud' = bb_used bud
  end.
Proof.
  intros I Hreg. split; [by eapply enqueue_registry_wf|].
  pose proof (enqueue_run st (hd_msgs h) (hd_leases h) session key frame target rb sb now) as Hrun.
  replace (mkHands (hd_msgs h) (hd_leases h)) with h in Hrun by (by destruct h). specialize (Hrun I).
  pose proof (own_run_inv _ _ Hrun I) as I'. cbn [fst snd] in I'. clear Hrun.
  assert (Herr : ∀ st', same_queues (st <| st_registry ::= <[session := pruned st session]> |>) st' ∨
      same_queues (st <| st_registry ::= <[session := pruned st session]> |> <| st_next_slot ::= Z.add 1 |>) st' →
    store_inv st' h → (∀ s k, pending_for st' s k = pending_for st s k) ∧ st_channels st' = st_channels st ∧
    ∀ b bud bud', st_budgets st !! b = Some bud → st_budgets st' !! b = Some bud' → bb_used bud' = bb_used bud).
  { intros st' Hq [_ Hb']. assert (st_channels st' = st_channels st ∧ st_slots st' = st_slots st ∧
      st_registry st' = <[session := pruned st session]> (st_registry st)) as (Ec & Es & Er) by (by destruct Hq as [[]|[]]).
    split_and!; [|done|].
    - intros s k. rewrite <- (pending_pruned st session s k). by apply pending_ext.
    - intros b bud bud' H1 H2. destruct (proj2 I _ _ H1) as [-> _]. destruct (Hb' _ _ H2) as [-> _].
      unfold charged. by rewrite Ec, Es. }
  unfold enqueue in *. fold (pruned st session) in *. set (st1 := st <| st_registry ::= <[session := pruned st session]> |>) in *.
  assert (Hnext : st_slots st1 !! st_next_slot st1 = None)
    by (apply eq_None_not_Some; intros H%(sw_fresh _ _ (proj1 I)); cbn in H; lia).
  assert (Hreg1 : st_registry st1 !! session = Some (pruned st session)) by apply lookup_insert_eq.
  pose proof (pruned_wf st session Hreg) as Hwf1. fold st1 in Hwf1.
  assert (Hpp : ∀ s k, pending_for st1 s k = pending_for st s k) by (intros; apply pending_pruned).
  destruct (pruned st session !! key) as [slot|] eqn:Hkey.
  - destruct (pruned_lookup _ _ _ _ Hkey) as [[o Ho] _].
    pose proof (slot_replace_cases st1 slot frame now o Ho) as Hcase.
    destruct (slot_replace st1 slot frame now) as [[[]|] st2]; [|done|by apply Herr; [left|]].
    destruct Hcase as (o' & st3 & [Qc Qs Qr Qn] & Hbytes & ->).
    assert (Hone : is_Some (pending_for st session key)).
    { rewrite <- Hpp. unfold pending_for. rewrite Hreg1. cbn. rewrite Hkey. cbn. rewrite Ho. by eexists. }
    split_and!; [done| |by rewrite decide_True by done].
    intros s k. rewrite <- Hpp, <- Hbytes, <- (pending_slot_change st1 slot o' session _ key s k) by done.
    by apply pending_ext; cbn; rewrite ?Qs, ?Qr.
  - pose proof (admit_slot_cases st1 session key frame target rb sb now Hnext) as Hcase.
    destruct (admit_slot st1 session key frame target rb sb now) as [[outcome|] st2]; [|by apply Herr].
    destruct Hcase as (-> & o & channel & peer & Htarget & <- & Hlast & Es & Er & _).
    split_and!; [|intros s k; rewrite <- Hpp; by eapply pending_fresh_slot|].
    + split; [done|]. rewrite <- Hpp. unfold pending_for. rewrite Hreg1. cbn. rewrite Hkey. by intros [].
    + rewrite decide_False by done. by exists channel, peer, (st_next_slot st1).
Qed.

(** ** Examples *)

Module OutboundDemo.
Definition counters : LatestCounters := mkLatestCounters 0 0 0 0 0 0 0 0 0.
(** A runtime budget of 64 bytes, a session budget of 32 and a channel of two places. *)
Definition start : Store :=
  mkStore {[0 := byte_budget_new 64; 1 := byte_budget_new 32]} {[5 := mkChannel 2 [] false]} ∅ ∅ counters 0.
Definition frame (n : nat) : list byte := repeat (of_u8 (Z.of_nat n)) n.
Definition one : Store := (enqueue start 7 1 (frame 12) (ToTcp 5) 0 1 0).2.
Definition two : Store := (enqueue one 7 1 (frame 3) (ToTcp 5) 0 1 0).2.

Lemma start_fresh : fresh_store start.
Proof.
  split_and!; [|intros c ch|done].
  - intros b bud Hb. unfold start in Hb. cbn in Hb.
    apply lookup_insert_Some in Hb as [[<- <-]|[_ Hb]]; [split; cbn; zlia|].
    apply lookup_singleton_Some in Hb as [<- <-]. split; cbn; zlia.
  - unfold start. cbn. intros [<- <-]%lookup_singleton_Some. done.
Qed.
Lemma start_inv : store_inv start (mkHands [] []).
Proof. apply fresh_store_inv, start_fresh. Qed.
Lemma start_registry : registry_wf start.
Proof. split; [intros s slots k slot|intros s slots k s' slots' k' slot]; unfold start; cbn [st_registry]; intros H; by apply lookup_empty_Some in H. Qed.
Lemma two_reachable : rtc store_step (start, mkHands [] []) (two, mkHands [] []).
Proof.
  eapply rtc_l; [exact (step_enqueue start [] [] 7 1 (frame 12) (ToTcp 5) 0 1 0)|]. apply rtc_once.
  exact (step_enqueue one [] [] 7 1 (frame 3) (ToTcp 5) 0 1 0).
Qed.
End OutboundDemo.

(** Two frames of one key: only the second is charged. *)
Lemma send_budgets_exact_witness : ∃ bud, st_budgets OutboundDemo.two !! 0 = Some bud ∧ bb_used bud = 3 ∧ bb_used bud ≤ bb_limit bud.
Proof.
  eexists. split; [vm_compute; reflexivity|]. split; [reflexivity|].
  apply (send_budgets_exact OutboundDemo.start OutboundDemo.two (mkHands [] []) 0).
  - exact OutboundDemo.start_fresh.
  - exact OutboundDemo.two_reachable.
  - vm_compute. reflexivity.
Defined.

Lemma latest_replacement_witness :
  (enqueue OutboundDemo.one 7 1 (OutboundDemo.frame 3) (ToTcp 5) 0 1 0).1 = Ok Replaced ∧
  st_channels OutboundDemo.two = st_channels OutboundDemo.one.
Proof.
  split; [vm_compute; reflexivity|].
  pose proof (latest_replacement OutboundDemo.one (mkHands [] []) 7 1 (OutboundDemo.frame 3) (ToTcp 5) 0 1 0) as H.
  destruct H as (_ & H).
  - apply (store_steps_inv (OutboundDemo.start, mkHands [] []) (OutboundDemo.one, mkHands [] []));
      [apply rtc_once; exact (step_enqueue OutboundDemo.start [] [] 7 1 (OutboundDemo.frame 12) (ToTcp 5) 0 1 0)|
       exact OutboundDemo.start_inv].
  - apply (enqueue_registry_wf _ (mkHands [] [])); [exact OutboundDemo.start_inv|exact OutboundDemo.start_registry].
  - revert H. vm_compute. by intros (_ & _ & H).
Defined.
