(* ===== verification/NetConfig.v ===== *)
(** * Transport configuration: rnet-transport [config.rs]

    The limits of a runtime, their validation, and the endpoint descriptions the public
    configurations are turned into. *)

From S2P Require Import Prelude Bytes CoreTypes Wire EventQueue Framing Control Outbound.

Record SecurityPolicy := mkSecurityPolicy {
  sp_allow_plaintext_business_data : bool;
  sp_rekey_after : option Duration;
  sp_rekey_after_bytes : option Z
}.

Definition secs (n : Z) : Duration := n * 1000000000.

Definition policy_production : SecurityPolicy :=
  mkSecurityPolicy false (Some (secs (60 * 60))) (Some (1024 * 1024 * 1024)).

Record NetConfig := mkNetConfig {
  nc_worker_threads : Z;
  nc_event_queue_capacity : Z;
  nc_write_queue_capacity : Z;
  nc_max_body_len : Z;
  nc_max_datagram_size : Z;
  nc_max_event_bytes : Z;
  nc_max_runtime_queued_bytes : Z;
  nc_max_session_queued_bytes : Z;
  nc_security_policy : SecurityPolicy;
  nc_max_endpoints : Z;
  nc_max_pending_handshakes : Z;
  nc_max_sessions_per_endpoint : Z;
  nc_max_sessions_per_ip : Z;
  nc_handshake_rate_per_ip : Z;
  nc_handshake_burst_per_ip : Z;
  nc_ipv6_admission_prefix_bits : Z;
  nc_handshake_timeout : Duration;
  nc_connect_timeout : Duration;
  nc_dns_timeout : Duration;
  nc_tcp_nodelay : bool;
  nc_tcp_send_buffer_bytes : option Z;
  nc_tcp_recv_buffer_bytes : option Z;
  nc_datagram_idle_timeout : Duration
}.

(** [parallelism] is what [available_parallelism] answers. *)
Definition net_config_default (parallelism : Result Z) : NetConfig :=
  mkNetConfig (match parallelism with Ok n => n | Err _ => 1 end)
    4096 256 (1024 * 1024) 1200 (64 * 1024 * 1024) (256 * 1024 * 1024) (4 * 1024 * 1024) policy_production
    1024 16384 16384 256 100 200 64 (secs 5) (secs 5) (secs 5) true None None (secs 120).

(** [duration.is_zero() || now.checked_add(duration).is_none()]. *)
Definition bad_timeout (now : Instant) (d : Duration) : bool :=
  bool_decide (d = 0) || bool_decide (checked_add instant_max now d = None).

Definition config_rejected (c : NetConfig) (now : Instant) : bool :=
  let p := nc_security_policy c in
  bool_decide (nc_worker_threads c = 0) || bool_decide (nc_event_queue_capacity c = 0) ||
  bool_decide (nc_write_queue_capacity c = 0) || bool_decide (nc_max_body_len c = 0) ||
  bool_decide (u32_max < nc_max_body_len c) || bool_decide (nc_max_datagram_size c < Z.of_nat HEADER_LEN) ||
  bool_decide (65507 < nc_max_datagram_size c) || bool_decide (nc_max_event_bytes c = 0) ||
  bool_decide (nc_max_runtime_queued_bytes c = 0) || bool_decide (nc_max_session_queued_bytes c = 0) ||
  bool_decide (nc_max_runtime_queued_bytes c < nc_max_session_queued_bytes c) ||
  bool_decide (nc_max_endpoints c = 0) || bool_decide (nc_max_pending_handshakes c = 0) ||
  bool_decide (nc_max_sessions_per_endpoint c = 0) || bool_decide (nc_max_sessions_per_ip c = 0) ||
  bool_decide (nc_handshake_rate_per_ip c = 0) || bool_decide (nc_handshake_burst_per_ip c = 0) ||
  bool_decide (128 < nc_ipv6_admission_prefix_bits c) ||
  bad_timeout now (nc_handshake_timeout c) || bad_timeout now (nc_connect_timeout c) ||
  bad_timeout now (nc_dns_timeout c) ||
  bool_decide (nc_tcp_send_buffer_bytes c = Some 0) || bool_decide (nc_tcp_recv_buffer_bytes c = Some 0) ||
  bad_timeout now (nc_datagram_idle_timeout c) ||
  is_some_and (sp_rekey_after p) (bad_timeout now) || bool_decide (sp_rekey_after_bytes p = Some 0).

Definition validate_config (c : NetConfig) (now : Instant) : Result unit :=
  if config_rejected c now then fail ErrorCode.InvalidArgument "invalid runtime capacity or size limit" else Ok tt.

(** Values a [RuntimeConfig] can hold. *)
Record config_typed (c : NetConfig) : Prop := {
  ct_usize : Forall (λ z, 0 ≤ z ≤ usize_max)
    [nc_worker_threads c; nc_event_queue_capacity c; nc_write_queue_capacity c; nc_max_body_len c;
     nc_max_datagram_size c; nc_max_event_bytes c; nc_max_runtime_queued_bytes c; nc_max_session_queued_bytes c;
     nc_max_endpoints c; nc_max_pending_handshakes c; nc_max_sessions_per_endpoint c; nc_max_sessions_per_ip c];
  ct_u32 : Forall (λ z, 0 ≤ z ≤ u32_max) [nc_handshake_rate_per_ip c; nc_handshake_burst_per_ip c];
  ct_bits : 0 ≤ nc_ipv6_admission_prefix_bits c ≤ u8_max;
  ct_durations : Forall (λ z, 0 ≤ z)
    [nc_handshake_timeout c; nc_connect_timeout c; nc_dns_timeout c; nc_datagram_idle_timeout c]
}.

(** ** Endpoint descriptions *)

Inductive EndpointSecurity :=
| AdaptiveServer (local_key : list byte) (initial_mode : SecurityMode.t)
| AdaptiveClient (join_payload : list byte).

Record EndpointConfig := mkEndpointConfig {
  ec_transport : Transport.t;
  ec_bind_addr : option SocketAddr;
  ec_remote_addr : option SocketAddr;
  ec_security : EndpointSecurity
}.

Record ServerConfig := mkServerConfig {
  sc_transport : Transport.t;
  sc_bind_addr : SocketAddr;
  sc_local_key : list byte;
  sc_initial_security : SecurityMode.t
}.
Record ClientConfig := mkClientConfig {
  cc_transport : Transport.t;
  cc_bind_addr : option SocketAddr;
  cc_remote_addr : SocketAddr;
  cc_join_payload : list byte
}.

Definition endpoint_server (transport : Transport.t) (bind_addr : SocketAddr) (local_key : list byte)
    (initial_mode : SecurityMode.t) : EndpointConfig :=
  mkEndpointConfig transport (Some bind_addr) None (AdaptiveServer local_key initial_mode).

(** The wildcard address of the family of [remote_addr] and port 0. *)
Definition unspecified_for (remote_addr : SocketAddr) : SocketAddr := mkSocketAddr (sa_v6 remote_addr) 0 0.
Definition endpoint_client (transport : Transport.t) (bind_addr : option SocketAddr) (remote_addr : SocketAddr)
    (join_payload : list byte) : EndpointConfig :=
  mkEndpointConfig transport
    (match bind_addr with
     | Some a => Some a
     | None => if decide (transport = Transport.Tcp) then None else Some (unspecified_for remote_addr)
     end)
    (Some remote_addr) (AdaptiveClient join_payload).

Definition server_endpoint (c : ServerConfig) : EndpointConfig :=
  endpoint_server (sc_transport c) (sc_bind_addr c) (sc_local_key c) (sc_initial_security c).
Definition client_endpoint (c : ClientConfig) : EndpointConfig :=
  endpoint_client (cc_transport c) (cc_bind_addr c) (cc_remote_addr c) (cc_join_payload c).

(** ** What a validated configuration guarantees *)

Ltac split_rejection E :=
  repeat match type of E with (_ || _) = false => let H := fresh "V" in apply orb_false_iff in E as [E H] end.

Lemma bad_timeout_false now d : 0 ≤ d → bad_timeout now d = false → 0 < d ∧ now + d ≤ instant_max.
Proof.
  intros Hd [H1 H2]%orb_false_iff. rewrite bool_decide_eq_false in H1, H2. unfold checked_add in H2.
  case_decide; [lia|done].
Qed.

Lemma validate_config_limits c now :
  config_typed c → validate_config c now = Ok tt →
  0 < nc_event_queue_capacity c ∧ 0 < nc_max_event_bytes c ∧ 0 < nc_write_queue_capacity c ∧
  0 < nc_max_body_len c ≤ u32_max ∧ Z.of_nat HEADER_LEN ≤ nc_max_datagram_size c ≤ 65507 ∧
  0 < nc_max_session_queued_bytes c ≤ nc_max_runtime_queued_bytes c ∧
  0 < nc_max_pending_handshakes c ≤ usize_max ∧ 0 < nc_max_sessions_per_ip c.
Proof.
  intros [Hu _ _ _] H. unfold validate_config in H. destruct (config_rejected c now) eqn:E; [done|]. clear H.
  unfold config_rejected in E. cbv zeta in E. split_rejection E.
  repeat match goal with H : bool_decide _ = false |- _ => apply bool_decide_eq_false in H end.
  repeat match type of Hu with Forall _ (_ :: _) => let H := fresh "U" in apply Forall_cons in Hu as [H Hu] end. cbv beta in *.
  repeat match goal with H : bad_timeout _ _ = _ |- _ => clear H end. split_and!; lia.
Qed.
Lemma validate_config_deadlines c now :
  config_typed c → validate_config c now = Ok tt →
  Forall (λ d, 0 < d ∧ now + d ≤ instant_max)
    [nc_handshake_timeout c; nc_connect_timeout c; nc_dns_timeout c; nc_datagram_idle_timeout c].
Proof.
  intros [_ _ _ Hd] H. unfold validate_config in H. destruct (config_rejected c now) eqn:E; [done|]. clear H.
  unfold config_rejected in E. cbv zeta in E. split_rejection E.
  repeat match type of Hd with Forall _ (_ :: _) => let H := fresh "U" in apply Forall_cons in Hd as [H Hd] end.
  repeat (apply Forall_cons; split; [apply bad_timeout_false; assumption|]). done.
Qed.
