(* ===== verification/Sessions.v ===== *)
(** * Session registry: rnet-transport [state.rs], [session_close.rs], [runtime_registry.rs],
    [lifecycle.rs], [endpoint_failure.rs], [session.rs] and the counters of [metrics.rs]

    The tables of endpoints and session routes shared by all socket tasks, their accounting,
    the notifications of closing, and the calls that queue messages on a route. *)

From S2P Require Import Prelude Bytes CoreTypes Wire Observe EventQueue HandleTable Framing Control Security Transition.
From S2P Require Import TcpSession Outbound NetConfig.

Record EndpointRecord := mkEndpointRecord {
  er_local_addr : SocketAddr;
  er_transport : Transport.t;
  er_abort : bool
}.

(** [sr_auth_decision] and [sr_security_commands] say whether the route still holds the sender;
    the receiving ends are in [Shared]. *)
Record SessionRoute := mkSessionRoute {
  sr_endpoint : Handle;
  sr_target : SessionTarget;
  sr_established : bool;
  sr_auth_decision : bool;
  sr_security_commands : bool;
  sr_allows_game_controls : bool;
  sr_queued_bytes : Z
}.
#[export] Instance SessionRoute_eta : Eta SessionRoute := λ r,
  mkSessionRoute (sr_endpoint r) (sr_target r) (sr_established r) (sr_auth_decision r) (sr_security_commands r)
    (sr_allows_game_controls r) (sr_queued_bytes r).

(** ** Counters *)

Module AdmissionRejectReason.
Inductive t :=
| EndpointLimit | EndpointSessionLimit | PendingHandshakeLimit | IpActiveLimit | IpRateLimit | IpTableLimit
| KcpPeerLimit | Unauthenticated.
Definition to_u32 (r : t) : Z :=
  match r with
  | EndpointLimit => 0 | EndpointSessionLimit => 1 | PendingHandshakeLimit => 2 | IpActiveLimit => 3
  | IpRateLimit => 4 | IpTableLimit => 5 | KcpPeerLimit => 6 | Unauthenticated => 7
  end.
End AdmissionRejectReason.

Record NetMetrics := mkNetMetrics {
  nm_frames_received : Z;
  nm_frames_sent : Z;
  nm_bytes_received : Z;
  nm_bytes_sent : Z;
  nm_events_dropped : Z;
  nm_send_would_block : Z;
  nm_protocol_errors : Z;
  nm_lifecycle_events_rejected : Z;
  nm_admission_rejected : Z;
  nm_admission_rejected_by_reason : gmap Z Z;
  nm_pending_handshakes : Z;
  nm_peak_pending_handshakes : Z;
  nm_session_closed_by_reason : gmap Z Z
}.
#[export] Instance NetMetrics_eta : Eta NetMetrics := λ m,
  mkNetMetrics (nm_frames_received m) (nm_frames_sent m) (nm_bytes_received m) (nm_bytes_sent m)
    (nm_events_dropped m) (nm_send_would_block m) (nm_protocol_errors m) (nm_lifecycle_events_rejected m)
    (nm_admission_rejected m) (nm_admission_rejected_by_reason m) (nm_pending_handshakes m)
    (nm_peak_pending_handshakes m) (nm_session_closed_by_reason m).
Definition metrics_default : NetMetrics := mkNetMetrics 0 0 0 0 0 0 0 0 0 ∅ 0 0 ∅.

Definition reason_index (reason : ErrorCode.t) : Z := Z.abs (ErrorCode.to_i32 reason).
(** [counters[index].fetch_add(1)]. *)
Definition bump_at (index : Z) (counters : gmap Z Z) : gmap Z Z :=
  <[index := fetch_add 1 (default 0 (counters !! index))]> counters.

Definition record_session_closed (reason : ErrorCode.t) (m : NetMetrics) : NetMetrics :=
  m <| nm_session_closed_by_reason ::= bump_at (reason_index reason) |>.
Definition record_admission_rejected (reason : AdmissionRejectReason.t) (m : NetMetrics) : NetMetrics :=
  m <| nm_admission_rejected ::= fetch_add 1 |>
    <| nm_admission_rejected_by_reason ::= bump_at (AdmissionRejectReason.to_u32 reason) |>.

Definition try_reserve_pending_handshake (limit : Z) (m : NetMetrics) : option NetMetrics :=
  let current := nm_pending_handshakes m in
  if decide (current < limit) then
    Some (m <| nm_pending_handshakes := fetch_add 1 current |>
            <| nm_peak_pending_handshakes ::= Z.max (current + 1) |>)
  else None.

(** The [debug_assert!] is the panic. *)
Definition release_pending_handshake (m : NetMetrics) : outcome NetMetrics :=
  if decide (0 < nm_pending_handshakes m) then Done (m <| nm_pending_handshakes ::= λ z, z - 1 |>) else Panic.

(** ** [Shared] *)

(** [sh_auth] and [sh_commands] hold the receiving ends of the one-shot authorisation and of
    the command channel of a session while they exist; [sh_cleanups] the cleanup requests of a
    datagram endpoint.  [sh_published] records, in order, what was handed to
    [publish_lifecycle], and [sh_refused] what the queue then had no room for; no code reads
    these two. *)
Record Shared := mkShared {
  sh_config : NetConfig;
  sh_state : RuntimeState;
  sh_events : EventQueue;
  sh_endpoints : HandleTable EndpointRecord;
  sh_sessions : HandleTable SessionRoute;
  sh_metrics : NetMetrics;
  sh_store : Store;
  sh_send_budget : Z;
  sh_stopped_event_emitted : bool;
  sh_auth : gmap Z (option bool);
  sh_commands : gmap Z (list SecurityCommand);
  sh_cleanups : gmap Z (list (SocketAddr * Handle));
  sh_published : list Event;
  sh_refused : list Event
}.
#[export] Instance Shared_eta : Eta Shared := λ s,
  mkShared (sh_config s) (sh_state s) (sh_events s) (sh_endpoints s) (sh_sessions s) (sh_metrics s) (sh_store s)
    (sh_send_budget s) (sh_stopped_event_emitted s) (sh_auth s) (sh_commands s) (sh_cleanups s) (sh_published s) (sh_refused s).

(** ** Notifications *)

Definition publish_lifecycle (sh : Shared) (event : Event) (now : Instant) : Shared :=
  let sh := sh <| sh_published ::= λ l, l ++ [event] |> in
  match push_priority (sh_events sh) event now with
  | Some (Ok evicted, q) =>
    let sh := sh <| sh_events := q |> in
    if evicted : bool then sh <| sh_metrics ::= λ m, m <| nm_events_dropped ::= fetch_add 1 |> |> else sh
  | Some (Err _, q) =>
    sh <| sh_events := q |> <| sh_metrics ::= λ m, m <| nm_lifecycle_events_rejected ::= fetch_add 1 |> |>
      <| sh_refused ::= λ l, l ++ [event] |>
  | None => sh
  end.

(** [String::is_char_boundary], on the bytes of the text. *)
Definition is_char_boundary (text : list byte) (index : nat) : bool :=
  match text !! index with
  | None => true
  | Some b => negb (bool_decide (128 ≤ to_u8 b < 192))
  end.
Fixpoint boundary_below (text : list byte) (limit : nat) : nat :=
  match limit with
  | O => O
  | S below => if is_char_boundary text limit then limit else boundary_below text below
  end.
(** The text of a diagnostic, cut at a character boundary; [display] formats an error. *)
Definition truncate_text (text : list byte) : list byte :=
  take (boundary_below text (length text `min` 1024)) text.

Section formatting.
(** [format!("phase={phase} {error}")]. *)
Context (display : string → RnetError → list byte).

Definition diagnostic_bytes (phase : string) (error : RnetError) : list byte := truncate_text (display phase error).

(** ** Routes *)

Definition insert_session_route (sh : Shared) (route : SessionRoute) : outcome (Result Handle * Shared) :=
  let insert (sh : Shared) : outcome (Result Handle * Shared) :=
    '(h, t) ← table_insert (sh_sessions sh) route; Done (Ok h, sh <| sh_sessions := t |>) in
  if sr_established route then insert sh
  else
    match try_reserve_pending_handshake (nc_max_pending_handshakes (sh_config sh)) (sh_metrics sh) with
    | Some m => insert (sh <| sh_metrics := m |>)
    | None =>
      Done (fail ErrorCode.WouldBlock "runtime pending-handshake limit reached",
            sh <| sh_metrics ::= record_admission_rejected AdmissionRejectReason.PendingHandshakeLimit |>)
    end.

Definition release_pending_session (sh : Shared) (route : SessionRoute) : outcome Shared :=
  if sr_established route then Done sh
  else m ← release_pending_handshake (sh_metrics sh); Done (sh <| sh_metrics := m |>).

Definition mark_session_established (sh : Shared) (session : Handle) : outcome (Result unit * Shared) :=
  match table_get (sh_sessions sh) session with
  | None => Done (fail ErrorCode.InvalidHandle "invalid session", sh)
  | Some route =>
    sh ← release_pending_session sh route;
    let f r := r <| sr_established := true |> <| sr_auth_decision := false |> in
    Done (Ok tt, sh <| sh_sessions ::= λ t, default t (table_get_mut t session f) |>)
  end.

Definition session_active (sh : Shared) (session : Handle) : bool :=
  bool_decide (is_Some (table_get (sh_sessions sh) session)).

Definition request_cleanup (sh : Shared) (route : SessionRoute) (session : Handle) : Shared :=
  match sr_target route with
  | ToUdp _ peer _ true | ToKcp _ peer true =>
    sh <| sh_cleanups ::= alter (λ l, l ++ [(peer, session)]) (sr_endpoint route) |>
  | _ => sh
  end.

Definition forget_latest (sh : Shared) (session : Handle) : Shared :=
  sh <| sh_store ::= λ st, registry_forget st session |>.

(** ** Closing *)

Definition close_event (ty : EventType.t) (endpoint session : Handle) (reason : ErrorCode.t)
    (detail : option (string * RnetError)) (now : Instant) : Event :=
  session_event ty endpoint session now <| ev_status := reason |>
    <| data := match detail with Some (phase, error) => diagnostic_bytes phase error | None => [] end |>.

(** What [close] does once it took the route out of the table. *)
Definition finish_close (sh : Shared) (session : Handle) (route : SessionRoute) (reason : ErrorCode.t)
    (detail : option (string * RnetError)) (joining : bool) (now : Instant) : outcome Shared :=
  sh ← release_pending_session (forget_latest sh session) route;
  let sh := sh <| sh_metrics ::= record_session_closed reason |> in
  let sh := request_cleanup sh route session in
  let event ty := close_event ty (sr_endpoint route) session reason detail now in
  let sh := if joining && negb (sr_established route) then publish_lifecycle sh (event EventType.JoinFailed) now else sh in
  Done (publish_lifecycle sh (event EventType.SessionClosed) now).

Definition close (sh : Shared) (session : Handle) (reason : ErrorCode.t) (detail : option (string * RnetError))
    (joining : bool) (now : Instant) : outcome Shared :=
  match table_remove (sh_sessions sh) session with
  | None => Done sh
  | Some (route, t) => finish_close (sh <| sh_sessions := t |>) session route reason detail joining now
  end.

Definition remove_session_with_reason (sh : Shared) (session : Handle) (reason : ErrorCode.t) (now : Instant) :
    outcome Shared := close sh session reason None false now.
Definition remove_session (sh : Shared) (session : Handle) (now : Instant) : outcome Shared :=
  remove_session_with_reason sh session ErrorCode.Ok now.
Definition remove_session_with_error (sh : Shared) (session : Handle) (phase : string) (error : RnetError)
    (now : Instant) : outcome Shared := close sh session (code error) (Some (phase, error)) false now.
Definition fail_endpoint_session (sh : Shared) (session : Handle) (phase : string) (error : RnetError)
    (joining : bool) (now : Instant) : outcome Shared := close sh session (code error) (Some (phase, error)) joining now.
Definition fail_secure_session (sh : Shared) (session : Handle) (error : RnetError) (now : Instant) : outcome Shared :=
  fail_endpoint_session sh session "handshake" error true now.

(** [NetworkRuntime::close_session]. *)
Definition close_session (sh : Shared) (session : Handle) (reason : ErrorCode.t) (now : Instant) :
    outcome (Result unit * Shared) :=
  match table_remove (sh_sessions sh) session with
  | None => Done (fail ErrorCode.InvalidHandle "invalid session", sh)
  | Some (route, t) =>
    sh ← finish_close (sh <| sh_sessions := t |>) session route reason None false now; Done (Ok tt, sh)
  end.

(** The sessions of an endpoint, in table order. *)
Definition sessions_of (sh : Shared) (endpoint : Handle) : list Handle :=
  filter (λ h, is_some_and (table_get (sh_sessions sh) h) (λ r, bool_decide (sr_endpoint r = endpoint)) = true)
    (table_handles (sh_sessions sh)).

(** Publication without a cleanup request: the task that would serve it is aborted. *)
Definition close_endpoint_session (sh : Shared) (endpoint session : Handle) (now : Instant) : outcome Shared :=
  match table_remove (sh_sessions sh) session with
  | None => Done sh
  | Some (route, t) =>
    sh ← release_pending_session (forget_latest (sh <| sh_sessions := t |>) session) route;
    Done (publish_lifecycle (sh <| sh_metrics ::= record_session_closed ErrorCode.Ok |>)
            (session_event EventType.SessionClosed endpoint session now) now)
  end.
Fixpoint close_endpoint_sessions (sh : Shared) (endpoint : Handle) (handles : list Handle) (now : Instant) :
    outcome Shared :=
  match handles with
  | [] => Done sh
  | session :: handles =>
    sh ← close_endpoint_session sh endpoint session now; close_endpoint_sessions sh endpoint handles now
  end.

(** [NetworkRuntime::close_endpoint]; the task is aborted. *)
Definition close_endpoint (sh : Shared) (endpoint : Handle) (now : Instant) : outcome (Result unit * Shared) :=
  match table_remove (sh_endpoints sh) endpoint with
  | None => Done (fail ErrorCode.InvalidHandle "invalid endpoint", sh)
  | Some (_, t) =>
    sh ← close_endpoint_sessions (sh <| sh_endpoints := t |>) endpoint (sessions_of sh endpoint) now;
    Done (Ok tt, sh)
  end.

Fixpoint fail_sessions (sh : Shared) (handles : list Handle) (initial : option Handle) (phase : string)
    (error : RnetError) (now : Instant) : outcome Shared :=
  match handles with
  | [] => Done sh
  | session :: handles =>
    sh ← fail_endpoint_session sh session phase error (bool_decide (initial = Some session)) now;
    fail_sessions sh handles initial phase error now
  end.
Definition fail_endpoint (sh : Shared) (endpoint : Handle) (initial : option Handle) (phase : string)
    (error : RnetError) (now : Instant) : outcome Shared :=
  match table_remove (sh_endpoints sh) endpoint with
  | None => Done sh
  | Some (_, t) =>
    let sessions := sessions_of sh endpoint in
    let event :=
      session_event EventType.EndpointError endpoint 0 now <| ev_status := code error |>
        <| data := diagnostic_bytes phase error |> in
    fail_sessions (publish_lifecycle (sh <| sh_endpoints := t |>) event now) sessions initial phase error now
  end.

(** ** Registration *)

Definition insert_endpoint (sh : Shared) (local_addr : SocketAddr) (transport : Transport.t) :
    outcome (Result Handle * Shared) :=
  if decide (nc_max_endpoints (sh_config sh) ≤ table_len (sh_endpoints sh)) then
    Done (fail ErrorCode.WouldBlock "runtime endpoint limit reached",
          sh <| sh_metrics ::= record_admission_rejected AdmissionRejectReason.EndpointLimit |>)
  else
    '(h, t) ← table_insert (sh_endpoints sh) (mkEndpointRecord local_addr transport false);
    Done (Ok h, sh <| sh_endpoints := t |>).

Definition set_endpoint_abort (sh : Shared) (endpoint : Handle) : Result unit * Shared :=
  match table_get_mut (sh_endpoints sh) endpoint (λ r, mkEndpointRecord (er_local_addr r) (er_transport r) true) with
  | None => (fail ErrorCode.InvalidHandle "invalid endpoint", sh)
  | Some t => (Ok tt, sh <| sh_endpoints := t |>)
  end.

Definition insert_pending_session (sh : Shared) (endpoint : Handle) (target : SessionTarget) (auth : bool)
    (allows_game_controls : bool) (budget : Z) : outcome (Result Handle * Shared) :=
  insert_session_route sh (mkSessionRoute endpoint target false auth false allows_game_controls budget).

Definition push_endpoint_opened (sh : Shared) (endpoint : Handle) (now : Instant) : Result unit * Shared :=
  let '(r, q) := try_push (sh_events sh) (event_simple EventType.EndpointOpened now <| ev_endpoint := endpoint |>) now in
  (r, sh <| sh_events := q |>).

Definition discard_endpoint (sh : Shared) (endpoint : Handle) : Shared :=
  match table_remove (sh_endpoints sh) endpoint with Some (_, t) => sh <| sh_endpoints := t |> | None => sh end.

Definition discard_session (sh : Shared) (session : Handle) : outcome Shared :=
  match table_remove (sh_sessions sh) session with
  | None => Done sh
  | Some (route, t) => release_pending_session (forget_latest (sh <| sh_sessions := t |>) session) route
  end.

(** ** Events of one session *)

Definition try_push_session_event (sh : Shared) (event : Event) (now : Instant) : outcome (Result unit * Shared) :=
  match try_push (sh_events sh) event now with
  | (Ok _, q) => Done (Ok tt, sh <| sh_events := q |>)
  | (Err _, _) =>
    let sh := sh <| sh_metrics ::= λ m, m <| nm_events_dropped ::= fetch_add 1 |> |> in
    sh ← (if decide (ev_session event ≠ 0) then remove_session sh (ev_session event) now else Done sh);
    Done (fail ErrorCode.WouldBlock "event queue is full; overloaded session was closed", sh)
  end.

Definition push_endpoint_error (sh : Shared) (endpoint : Handle) (status : ErrorCode.t) (text : list byte)
    (now : Instant) : Shared :=
  let event := event_simple EventType.EndpointError now <| ev_endpoint := endpoint |> <| ev_status := status |>
                 <| data := text |> in
  match try_push (sh_events sh) event now with
  | (Ok _, q) => sh <| sh_events := q |>
  | (Err _, _) => sh <| sh_metrics ::= λ m, m <| nm_events_dropped ::= fetch_add 1 |> |>
  end.

Definition retarget_datagram_session (sh : Shared) (session : Handle) (peer : SocketAddr) : Result unit * Shared :=
  match table_get (sh_sessions sh) session with
  | None => (fail ErrorCode.InvalidHandle "invalid session", sh)
  | Some route =>
    match sr_target route with
    | ToTcp _ => (fail ErrorCode.InvalidState "TCP session cannot switch a datagram address", sh)
    | ToUdp c _ max cleanup =>
      (Ok tt, sh <| sh_sessions ::= λ t,
                default t (table_get_mut t session (λ r, r <| sr_target := ToUdp c peer max cleanup |>)) |>)
    | ToKcp c _ cleanup =>
      (Ok tt, sh <| sh_sessions ::= λ t,
                default t (table_get_mut t session (λ r, r <| sr_target := ToKcp c peer cleanup |>)) |>)
    end
  end.
End formatting.

(** ** Sending: [session.rs] and the entry points of [latest.rs] *)

Definition running (sh : Shared) : bool := bool_decide (runtime_state_load (sh_state sh) = Lifecycle.Running).
Definition count_would_block (sh : Shared) : Shared :=
  sh <| sh_metrics ::= λ m, m <| nm_send_would_block ::= fetch_add 1 |> |>.
Definition count_frame_sent (sh : Shared) : Shared :=
  sh <| sh_metrics ::= λ m, m <| nm_frames_sent ::= fetch_add 1 |> |>.

Definition lookup_established (sh : Shared) (session : Handle) : Result SessionRoute :=
  match table_get (sh_sessions sh) session with
  | None => fail ErrorCode.InvalidHandle "invalid session"
  | Some route =>
    if sr_established route then Ok route
    else fail ErrorCode.HandshakeRequired "session handshake has not completed"
  end.

Definition validate_payload_len (sh : Shared) (session : Handle) (payload_len : Z) : Result unit :=
  if negb (running sh) then fail ErrorCode.InvalidState "runtime is not accepting sends"
  else if decide (payload_len > nc_max_body_len (sh_config sh)) then
    fail ErrorCode.MessageTooLarge "payload exceeds configured body limit"
  else
    route ← lookup_established sh session;
    match sr_target route with
    | ToUdp _ _ max_frame_len _ =>
      match checked_add usize_max payload_len (Z.of_nat HEADER_LEN) with
      | None => fail ErrorCode.MessageTooLarge "frame length overflow"
      | Some frame_len =>
        if decide (frame_len > max_frame_len) then
          fail ErrorCode.MessageTooLarge "encoded frame exceeds UDP datagram limit"
        else Ok tt
      end
    | _ => Ok tt
    end.

(** [try_send] on a route and the errors of the three transports. *)
Definition send_on (sh : Shared) (target : SessionTarget) (o : Outbound) : Result unit * Shared :=
  let '(channel, peer, full, closed) :=
    match target with
    | ToTcp c => (c, None, "session write queue is full", "session is closed")
    | ToUdp c peer _ _ => (c, Some peer, "UDP send queue is full", "UDP endpoint is closed")
    | ToKcp c peer _ => (c, Some peer, "KCP send queue is full", "KCP endpoint is closed")
    end in
  let '(r, st) := try_send (sh_store sh) channel peer o in
  let sh := sh <| sh_store := st |> in
  match r with
  | Ok _ => (Ok tt, count_frame_sent sh)
  | Err Full => (fail ErrorCode.WouldBlock full, count_would_block sh)
  | Err Closed => (fail ErrorCode.InvalidState closed, sh)
  end.

Definition enqueue_encoded (sh : Shared) (session : Handle) (frame : list byte) (kind : OutboundKind) (now : Instant) :
    Result unit * Shared :=
  if negb (running sh) then (fail ErrorCode.InvalidState "runtime is not accepting sends", sh)
  else
    match lookup_established sh session with
    | Err e => (Err e, sh)
    | Ok route =>
      let control := match kind with OutGameControl => true | OutData => false end in
      if control && negb (sr_allows_game_controls route) then
        (fail ErrorCode.NotSupported "game controls require an adaptive Noise session", sh)
      else
        let too_long := match sr_target route with ToUdp _ _ max _ => bool_decide (len frame > max) | _ => false end in
        if too_long then (fail ErrorCode.MessageTooLarge "encoded frame exceeds UDP datagram limit", sh)
        else
          match with_kind (sh_store sh) frame kind (sh_send_budget sh) (sr_queued_bytes route) now with
          | (Err e, st) => (Err e, count_would_block (sh <| sh_store := st |>))
          | (Ok o, st) => send_on (sh <| sh_store := st |>) (sr_target route) o
          end
    end.

Definition send_with_options (sh : Shared) (session : Handle) (payload : list byte) (correlation_id : Z)
    (now : Instant) : Result unit * Shared :=
  if negb (running sh) then (fail ErrorCode.InvalidState "runtime is not accepting sends", sh)
  else
    match encode_frame correlation_id 0 payload (nc_max_body_len (sh_config sh)) with
    | Err e => (Err e, sh)
    | Ok frame => enqueue_encoded sh session frame OutData now
    end.
Definition send (sh : Shared) (session : Handle) (payload : list byte) (now : Instant) : Result unit * Shared :=
  send_with_options sh session payload 0 now.

Definition send_game_control (sh : Shared) (session : Handle) (payload : list byte) (now : Instant) :
    Result unit * Shared :=
  if negb (running sh) then (fail ErrorCode.InvalidState "runtime is not accepting sends", sh)
  else if decide (len payload > nc_max_body_len (sh_config sh)) then
    (fail ErrorCode.MessageTooLarge "game control exceeds the configured body limit", sh)
  else enqueue_encoded sh session payload OutGameControl now.

Definition send_payload_latest_inner (sh : Shared) (session : Handle) (key : Z) (payload : list byte) (now : Instant) :
    Result LatestSendOutcome * Shared :=
  if negb (running sh) then (fail ErrorCode.InvalidState "runtime is not accepting sends", sh)
  else
    match encode_frame 0 0 payload (nc_max_body_len (sh_config sh)) with
    | Err e => (Err e, sh)
    | Ok frame =>
      match lookup_established sh session with
      | Err e => (Err e, sh)
      | Ok route =>
        if negb (sr_allows_game_controls route) then
          (fail ErrorCode.NotSupported "latest transport slots require an adaptive game session", sh)
        else
          let '(r, st) := enqueue (sh_store sh) session key frame (sr_target route) (sh_send_budget sh)
                            (sr_queued_bytes route) now in
          let sh := sh <| sh_store := st |> in
          match r with
          | Err e => (Err e, if decide (code e = ErrorCode.WouldBlock) then count_would_block sh else sh)
          | Ok Queued => (Ok Queued, count_frame_sent sh)
          | Ok Replaced => (Ok Replaced, sh)
          end
      end
    end.
Definition send_payload_latest (sh : Shared) (session : Handle) (key : Z) (payload : list byte) (now : Instant) :
    Result LatestSendOutcome * Shared :=
  match send_payload_latest_inner sh session key payload now with
  | (Err e, sh) => (Err e, sh <| sh_store ::= λ st, record_admission_failure st (code e) |>)
  | r => r
  end.

(** ** Commands of the application *)

Definition send_security_command (sh : Shared) (session : Handle) (command : SecurityCommand) : Result unit * Shared :=
  match table_get (sh_sessions sh) session with
  | None => (fail ErrorCode.InvalidHandle "invalid session", sh)
  | Some route =>
    if negb (sr_security_commands route) then
      (fail ErrorCode.InvalidState "session is not controlled by an adaptive server", sh)
    else
      match sh_commands sh !! session with
      | None => (fail ErrorCode.InvalidState "session is closed", sh)
      | Some [] => (Ok tt, sh <| sh_commands ::= <[session := [command]]> |>)
      | Some (_ :: _) => (fail ErrorCode.WouldBlock "security transition already queued", sh)
      end
  end.
Definition set_security_mode (sh : Shared) (session : Handle) (mode : SecurityMode.t) : Result unit * Shared :=
  if bool_decide (mode = SecurityMode.Plaintext) && negb (sp_allow_plaintext_business_data (nc_security_policy (sh_config sh))) then
    (fail ErrorCode.NotSupported "plaintext business data is disabled by security policy", sh)
  else send_security_command sh session (SetMode mode).
Definition rekey_session (sh : Shared) (session : Handle) : Result unit * Shared :=
  send_security_command sh session RekeyNow.

Definition auth_decide (sh : Shared) (session : Handle) (accept : bool) : Result unit * Shared :=
  match table_get (sh_sessions sh) session with
  | None => (fail ErrorCode.InvalidHandle "invalid session", sh)
  | Some route =>
    if negb (sr_auth_decision route) then
      (fail ErrorCode.InvalidState "session is not awaiting authentication", sh)
    else
      let sh := sh <| sh_sessions ::= λ t,
                  default t (table_get_mut t session (λ r, r <| sr_auth_decision := false |>)) |> in
      match sh_auth sh !! session with
      | Some None => (Ok tt, sh <| sh_auth ::= <[session := Some accept]> |>)
      | _ => (fail ErrorCode.InvalidState "authentication request expired", sh)
      end
  end.

(** ** Stopping *)

Definition emit_runtime_stopped (sh : Shared) (now : Instant) : Shared :=
  if sh_stopped_event_emitted sh then sh
  else publish_lifecycle sh (event_simple EventType.RuntimeStopped now) now <| sh_stopped_event_emitted := true |>.

Fixpoint close_endpoints (sh : Shared) (endpoints : list Handle) (now : Instant) : outcome Shared :=
  match endpoints with
  | [] => Done sh
  | endpoint :: endpoints =>
    '(_, sh) ← close_endpoint sh endpoint now; close_endpoints sh endpoints now
  end.
(** The part of [stop] after the drain wait. *)
Definition finish_stop (sh : Shared) (now : Instant) : outcome Shared :=
  close_endpoints sh (table_handles (sh_endpoints sh)) now.

(** [stop] up to the drain wait, and after it; other threads run in between. *)
Definition stop_begin (sh : Shared) (drain_timeout : Duration) (now : Instant) : Result (option unit) * Shared :=
  if bool_decide (drain_timeout ≠ 0) && negb (bool_decide (is_Some (checked_add EventQueue.instant_max now drain_timeout)))
  then (fail ErrorCode.InvalidArgument "drain timeout cannot form a valid deadline", sh)
  else
    match runtime_state_load (sh_state sh) with
    | Lifecycle.Stopped => (Ok None, emit_runtime_stopped sh now)
    | Lifecycle.Running =>
      let '(r, s) := begin_draining_after Lifecycle.Running (sh_state sh) in
      ((λ _, Some tt) <$> r, sh <| sh_state := s |>)
    | Lifecycle.Draining => (Ok (Some tt), sh)
    | Lifecycle.Created => (fail ErrorCode.InvalidState "runtime was not started", sh)
    end.
Definition stop_end (sh : Shared) (now : Instant) : outcome (Result unit * Shared) :=
  sh ← finish_stop sh now;
  let '(r, s) := mark_stopped_after (runtime_state_load (sh_state sh)) (sh_state sh) in
  let sh := sh <| sh_state := s |> in
  match r with
  | Err e => Done (Err e, sh)
  | Ok _ => Done (Ok tt, emit_runtime_stopped sh now)
  end.

(** ** Threads

    A call that takes a lock, releases it and goes on is split there: what it still has to do
    is a task that any thread may overtake. *)

Inductive Task :=
| Inserting (route : SessionRoute)
| Closing (session : Handle) (route : SessionRoute) (reason : ErrorCode.t) (detail : option (string * RnetError))
    (joining : bool)
| Discarding (session : Handle) (route : SessionRoute).

Record World := mkWorld {
  w_shared : Shared;
  w_tasks : list Task;
  w_removed : list Handle
}.

Section threads.
Context (display : string → RnetError → list byte).

Inductive world_step (w : World) : World → Prop :=
| ws_reserve route m :
    sr_established route = false →
    try_reserve_pending_handshake (nc_max_pending_handshakes (sh_config (w_shared w))) (sh_metrics (w_shared w)) = Some m →
    world_step w (mkWorld (w_shared w <| sh_metrics := m |>) (Inserting route :: w_tasks w) (w_removed w))
| ws_insert route tasks h t :
    w_tasks w ≡ₚ Inserting route :: tasks → has_room (sh_sessions (w_shared w)) →
    table_insert (sh_sessions (w_shared w)) route = Done (h, t) →
    world_step w (mkWorld (w_shared w <| sh_sessions := t |>) tasks (w_removed w))
| ws_establish session r sh :
    mark_session_established (w_shared w) session = Done (r, sh) → world_step w (mkWorld sh (w_tasks w) (w_removed w))
| ws_remove session route t reason detail joining :
    table_remove (sh_sessions (w_shared w)) session = Some (route, t) →
    world_step w (mkWorld (w_shared w <| sh_sessions := t |>) (Closing session route reason detail joining :: w_tasks w)
                    (session :: w_removed w))
| ws_finish session route reason detail joining tasks now sh :
    w_tasks w ≡ₚ Closing session route reason detail joining :: tasks →
    finish_close display (w_shared w) session route reason detail joining now = Done sh →
    world_step w (mkWorld sh tasks (w_removed w))
| ws_discard session route t :
    table_remove (sh_sessions (w_shared w)) session = Some (route, t) →
    world_step w (mkWorld (w_shared w <| sh_sessions := t |>) (Discarding session route :: w_tasks w) (w_removed w))
| ws_discarded session route tasks sh :
    w_tasks w ≡ₚ Discarding session route :: tasks →
    release_pending_session (forget_latest (w_shared w) session) route = Done sh →
    world_step w (mkWorld sh tasks (w_removed w))
| ws_close_endpoint endpoint record t :
    table_remove (sh_endpoints (w_shared w)) endpoint = Some (record, t) →
    world_step w (mkWorld (w_shared w <| sh_endpoints := t |>) (w_tasks w) (w_removed w))
| ws_close_endpoint_session endpoint session now sh :
    close_endpoint_session (w_shared w) endpoint session now = Done sh →
    world_step w (mkWorld sh (w_tasks w)
      (if decide (is_Some (table_get (sh_sessions (w_shared w)) session)) then session :: w_removed w else w_removed w))
| ws_send session payload correlation_id now :
    world_step w (mkWorld (send_with_options (w_shared w) session payload correlation_id now).2 (w_tasks w) (w_removed w))
| ws_send_control session payload now :
    world_step w (mkWorld (send_game_control (w_shared w) session payload now).2 (w_tasks w) (w_removed w))
| ws_send_latest session key payload now :
    world_step w (mkWorld (send_payload_latest (w_shared w) session key payload now).2 (w_tasks w) (w_removed w))
| ws_auth_decide session accept :
    world_step w (mkWorld (auth_decide (w_shared w) session accept).2 (w_tasks w) (w_removed w)).
End threads.

(** *** Accounting *)

Definition unopened (r : SessionRoute) : Z := if sr_established r then 0 else 1.
Definition task_pending (k : Task) : Z :=
  match k with
  | Inserting _ => 1
  | Closing _ route _ _ _ | Discarding _ route => unopened route
  end.
Definition closing (k : Task) : option Handle := match k with Closing session _ _ _ _ => Some session | _ => None end.
Definition closed_session (e : Event) : option Handle :=
  match event_type e with EventType.SessionClosed => Some (ev_session e) | _ => None end.

Record world_inv (w : World) : Prop := {
  wi_table : table_wf (sh_sessions (w_shared w));
  wi_pending : nm_pending_handshakes (sh_metrics (w_shared w)) =
    sum_map unopened (table_map (sh_sessions (w_shared w))) + sumZ task_pending (w_tasks w);
  wi_limit : nm_pending_handshakes (sh_metrics (w_shared w)) ≤ nc_max_pending_handshakes (sh_config (w_shared w)) ≤ usize_max;
  wi_inserting : Forall (λ k, match k with Inserting r => sr_established r = false | _ => True end) (w_tasks w);
  wi_closed : w_removed w ≡ₚ omap closed_session (sh_published (w_shared w)) ++ omap closing (w_tasks w)
}.

(** What the accounting depends on. *)
Record quiet (sh sh' : Shared) : Prop := {
  qt_sessions : sh_sessions sh' = sh_sessions sh;
  qt_config : sh_config sh' = sh_config sh;
  qt_pending : nm_pending_handshakes (sh_metrics sh') = nm_pending_handshakes (sh_metrics sh);
  qt_published : sh_published sh' = sh_published sh
}.
#[export] Instance quiet_preorder : PreOrder quiet.
Proof. split; [done|]. intros x y z [] []. split; congruence. Qed.

Lemma world_inv_quiet sh sh' tasks removed :
  quiet sh sh' → world_inv (mkWorld sh tasks removed) → world_inv (mkWorld sh' tasks removed).
Proof. intros [Hs Hc Hp Hl] []. split; cbn in *; rewrite ?Hs, ?Hc, ?Hp, ?Hl; done. Qed.

Lemma send_on_quiet sh target o : quiet sh (send_on sh target o).2.
Proof.
  unfold send_on. destruct target; cbn; destruct (try_send _ _ _ _) as [[?|[]] st]; done.
Qed.
Lemma enqueue_encoded_quiet sh session frame kind now : quiet sh (enqueue_encoded sh session frame kind now).2.
Proof.
  unfold enqueue_encoded. destruct (negb (running sh)); [done|]. destruct (lookup_established sh session) as [route|]; [|done].
  destruct (_ && _); [done|]. destruct (match sr_target route with ToUdp _ _ _ _ => _ | _ => _ end); [done|].
  destruct (with_kind _ _ _ _ _ _) as [[o|] st]; [|done]. etrans; [|apply send_on_quiet]. done.
Qed.
Lemma send_with_options_quiet sh session payload cid now : quiet sh (send_with_options sh session payload cid now).2.
Proof.
  unfold send_with_options. destruct (negb (running sh)); [done|].
  destruct (encode_frame _ _ _ _); [apply enqueue_encoded_quiet|done].
Qed.
Lemma send_game_control_quiet sh session payload now : quiet sh (send_game_control sh session payload now).2.
Proof.
  unfold send_game_control. destruct (negb (running sh)); [done|]. case_decide; [done|]. apply enqueue_encoded_quiet.
Qed.
Lemma send_payload_latest_quiet sh session key payload now : quiet sh (send_payload_latest sh session key payload now).2.
Proof.
  assert (H : quiet sh (send_payload_latest_inner sh session key payload now).2).
  { unfold send_payload_latest_inner. destruct (negb (running sh)); [done|]. destruct (encode_frame _ _ _ _); [|done].
    destruct (lookup_established sh session) as [route|]; [|done]. destruct (negb _); [done|].
    destruct (enqueue _ _ _ _ _ _ _ _) as [[[]|] st]; [done..|]. cbn. by case_decide. }
  unfold send_payload_latest. destruct (send_payload_latest_inner _ _ _ _ _) as [[?|e] sh']; [done|]. cbn in *.
  etrans; [exact H|]. done.
Qed.

Lemma publish_lifecycle_effect sh e now :
  let sh' := publish_lifecycle sh e now in
  sh_sessions sh' = sh_sessions sh ∧ sh_config sh' = sh_config sh ∧
  nm_pending_handshakes (sh_metrics sh') = nm_pending_handshakes (sh_metrics sh) ∧
  sh_published sh' = sh_published sh ++ [e].
Proof. cbn zeta. unfold publish_lifecycle. destruct (push_priority _ _ _) as [[[[]|] q]|]; done. Qed.

Lemma release_pending_session_effect sh route :
  unopened route ≤ nm_pending_handshakes (sh_metrics sh) →
  ∃ sh', release_pending_session sh route = Done sh' ∧ sh_sessions sh' = sh_sessions sh ∧ sh_config sh' = sh_config sh ∧
    nm_pending_handshakes (sh_metrics sh') = nm_pending_handshakes (sh_metrics sh) - unopened route ∧
    sh_published sh' = sh_published sh.
Proof.
  unfold release_pending_session, release_pending_handshake, unopened. intros Hp. destruct (sr_established route).
  - exists sh. split_and!; [done..|lia|done].
  - rewrite decide_True by lia. eexists. split; [done|]. cbn. split_and!; done || lia.
Qed.

Lemma request_cleanup_quiet sh route session : quiet sh (request_cleanup sh route session).
Proof. unfold request_cleanup. by destruct (sr_target route) as [|? ? ? []|? ? []]. Qed.

Section accounting.
Context (display : string → RnetError → list byte).

Lemma finish_close_effect sh session route reason detail joining now :
  unopened route ≤ nm_pending_handshakes (sh_metrics sh) →
  ∃ sh', finish_close display sh session route reason detail joining now = Done sh' ∧
    sh_sessions sh' = sh_sessions sh ∧ sh_config sh' = sh_config sh ∧
    nm_pending_handshakes (sh_metrics sh') = nm_pending_handshakes (sh_metrics sh) - unopened route ∧
    omap closed_session (sh_published sh') = omap closed_session (sh_published sh) ++ [session].
Proof.
  intros Hp. destruct (release_pending_session_effect (forget_latest sh session) route Hp) as (sh1 & E & S1 & C1 & P1 & L1).
  unfold finish_close. rewrite E. cbn [mbind outcome_bind].
  set (sh2 := sh1 <| sh_metrics ::= _ |>). pose proof (request_cleanup_quiet sh2 route session) as [S3 C3 P3 L3].
  set (sh3 := request_cleanup sh2 route session) in *. set (event ty := close_event display ty (sr_endpoint route) session reason detail now).
  assert (∃ extra, omap closed_session extra = [] ∧ let sh4 := (if joining && negb (sr_established route)
      then publish_lifecycle sh3 (event EventType.JoinFailed) now else sh3) in
    sh_sessions sh4 = sh_sessions sh3 ∧ sh_config sh4 = sh_config sh3 ∧
    nm_pending_handshakes (sh_metrics sh4) = nm_pending_handshakes (sh_metrics sh3) ∧
    sh_published sh4 = sh_published sh3 ++ extra) as (extra & Hex & S4 & C4 & P4 & L4).
  { destruct (joining && _).
    - destruct (publish_lifecycle_effect sh3 (event EventType.JoinFailed) now) as (? & ? & ? & ?). by exists [event EventType.JoinFailed].
    - exists []. rewrite app_nil_r. done. }
  set (sh4 := if joining && _ then _ else _) in *.
  destruct (publish_lifecycle_effect sh4 (event EventType.SessionClosed) now) as (S5 & C5 & P5 & L5).
  exists (publish_lifecycle sh4 (event EventType.SessionClosed) now). split; [done|].
  rewrite S5, C5, P5, L5, S4, C4, P4, L4, S3, C3, P3, L3. cbn. split_and!; [done|done|by rewrite P1|].
  rewrite !omap_app, Hex, L1. cbn. by rewrite app_nil_r.
Qed.

Lemma unopened_range r : 0 ≤ unopened r ≤ 1.
Proof. unfold unopened. destruct (sr_established r); lia. Qed.
Lemma unopened_sum_nonneg (m : gmap Z SessionRoute) : 0 ≤ sum_map unopened m.
Proof. apply sum_map_nonneg. intros. apply unopened_range. Qed.
Lemma task_pending_nonneg k : 0 ≤ task_pending k.
Proof. destruct k; cbn; try lia; apply unopened_range. Qed.
Lemma task_sum_nonneg l : 0 ≤ sumZ task_pending l.
Proof. apply sumZ_nonneg, task_pending_nonneg. Qed.

(** A live route, and a task, have their pending slot. *)
Lemma live_pending w session route :
  world_inv w → table_get (sh_sessions (w_shared w)) session = Some route →
  unopened route ≤ nm_pending_handshakes (sh_metrics (w_shared w)).
Proof.
  intros [Hwf Hp _ _ _] Hget. rewrite table_get_map in Hget by done. rewrite Hp, (sum_map_delete _ _ _ _ Hget).
  pose proof (unopened_sum_nonneg (delete session (table_map (sh_sessions (w_shared w))))).
  pose proof (task_sum_nonneg (w_tasks w)). lia.
Qed.
Lemma task_has_pending w k tasks :
  world_inv w → w_tasks w ≡ₚ k :: tasks → task_pending k ≤ nm_pending_handshakes (sh_metrics (w_shared w)).
Proof.
  intros [_ Hp _ _ _] Ht. rewrite Hp, Ht, sumZ_cons. pose proof (unopened_sum_nonneg (table_map (sh_sessions (w_shared w)))).
  pose proof (task_sum_nonneg tasks). lia.
Qed.

(** [world_inv] of a state whose table is known up to an equation. *)
Lemma world_inv_with w t :
  sh_sessions (w_shared w) = t → table_wf t →
  nm_pending_handshakes (sh_metrics (w_shared w)) = sum_map unopened (table_map t) + sumZ task_pending (w_tasks w) →
  nm_pending_handshakes (sh_metrics (w_shared w)) ≤ nc_max_pending_handshakes (sh_config (w_shared w)) ≤ usize_max →
  Forall (λ k, match k with Inserting r => sr_established r = false | _ => True end) (w_tasks w) →
  w_removed w ≡ₚ omap closed_session (sh_published (w_shared w)) ++ omap closing (w_tasks w) →
  world_inv w.
Proof. intros <-. by split. Qed.

Lemma mark_session_established_inv w session r sh :
  world_inv w → mark_session_established (w_shared w) session = Done (r, sh) →
  world_inv (mkWorld sh (w_tasks w) (w_removed w)).
Proof.
  intros I. unfold mark_session_established.
  destruct (table_get (sh_sessions (w_shared w)) session) as [route|] eqn:Hget; [|intros [= <- <-]; by destruct w].
  destruct (release_pending_session_effect (w_shared w) route (live_pending _ _ _ I Hget)) as (sh1 & -> & S1 & C1 & P1 & L1).
  cbn [mbind outcome_bind]. intros [= <- <-]. destruct I as [Hwf Hp Hl Hi Hc].
  set (f := λ r : SessionRoute, r <| sr_established := true |> <| sr_auth_decision := false |>).
  destruct (table_get_mut_spec _ _ f _ Hwf Hget) as (t & Et & Hwf' & Hm). rewrite table_get_map in Hget by done.
  apply (world_inv_with _ t); cbn [w_tasks w_removed]; try done.
  - change (default (sh_sessions sh1) (table_get_mut (sh_sessions sh1) session f) = t). by rewrite S1, Et.
  - cbn. rewrite P1, Hm, (sum_map_update _ _ _ route), Hp by done. change (unopened (f route)) with 0. lia.
  - cbn. rewrite ?C1, ?P1. pose proof (unopened_range route). lia.
  - cbn. by rewrite L1.
Qed.

Lemma auth_decide_inv w session accept :
  world_inv w → world_inv (mkWorld (auth_decide (w_shared w) session accept).2 (w_tasks w) (w_removed w)).
Proof.
  intros I. unfold auth_decide.
  destruct (table_get (sh_sessions (w_shared w)) session) as [route|] eqn:Hget; [|by destruct w].
  destruct (negb _); [by destruct w|]. destruct I as [Hwf Hp Hl Hi Hc].
  set (f := λ r : SessionRoute, r <| sr_auth_decision := false |>).
  destruct (table_get_mut_spec _ _ f _ Hwf Hget) as (t & Et & Hwf' & Hm). rewrite table_get_map in Hget by done.
  assert (world_inv (mkWorld (w_shared w <| sh_sessions ::= λ t, default t (table_get_mut t session f) |>) (w_tasks w) (w_removed w))) as Hinv.
  { split; cbn; rewrite ?Et; cbn; try done. rewrite Hm, (sum_map_update _ _ _ route), Hp by done.
    change (unopened (f route)) with (unopened route). lia. }
  cbn. destruct (sh_auth (w_shared w) !! session) as [[|]|]; [exact Hinv| |exact Hinv].
  eapply world_inv_quiet, Hinv. done.
Qed.

Lemma close_endpoint_session_inv w endpoint session now sh :
  world_inv w → close_endpoint_session (w_shared w) endpoint session now = Done sh →
  world_inv (mkWorld sh (w_tasks w)
    (if decide (is_Some (table_get (sh_sessions (w_shared w)) session)) then session :: w_removed w else w_removed w)).
Proof.
  intros I. unfold close_endpoint_session. destruct (table_remove _ session) as [[route t]|] eqn:Hrm.
  - pose proof I as [Hwf Hp Hl Hi Hc]. destruct (table_remove_spec _ _ _ _ Hwf Hrm) as (Hwf' & Hget & Hm).
    rewrite <- table_get_map in Hget by done. rewrite decide_True by (by rewrite Hget).
    pose proof (live_pending _ _ _ I Hget) as Hpend.
    match goal with |- context [release_pending_session ?s _] =>
      destruct (release_pending_session_effect s route Hpend) as (sh1 & -> & S1 & C1 & P1 & L1) end. cbn [mbind outcome_bind]. intros [= <-].
    match goal with |- context [publish_lifecycle ?a ?b ?c] =>
      destruct (publish_lifecycle_effect a b c) as (S2 & C2 & P2 & L2) end.
    rewrite table_get_map in Hget by done. pose proof (unopened_range route).
    split; cbn [w_shared w_tasks w_removed]; rewrite ?S2, ?C2, ?P2, ?L2; cbn; rewrite ?S1, ?C1, ?P1, ?L1; cbn; try done.
    + rewrite Hm, Hp, (sum_map_delete _ _ _ _ Hget). lia.
    + lia.
    + rewrite omap_app. cbn. rewrite Hc. solve_Permutation.
  - apply table_remove_None in Hrm. rewrite decide_False by (rewrite Hrm; by intros []). intros [= <-]. by destruct w.
Qed.

Lemma world_step_inv w w' : world_step display w w' → world_inv w → world_inv w'.
Proof.
  destruct 1 as [route m Hr Hm|route tasks h t Ht Hroom Hins|session r sh E|session route t reason detail joining Hrm
    |session route reason detail joining tasks now sh Ht E|session route t Hrm|session route tasks sh Ht E
    |endpoint record t Hrm|endpoint session now sh E|session payload cid now|session payload now|session key payload now
    |session accept]; intros I; pose proof I as [Hwf Hp Hl Hi Hc].
  - unfold try_reserve_pending_handshake in Hm. case_decide; [|done]. injection Hm as <-.
    assert (0 ≤ nm_pending_handshakes (sh_metrics (w_shared w))).
    { rewrite Hp. pose proof (unopened_sum_nonneg (table_map (sh_sessions (w_shared w)))). pose proof (task_sum_nonneg (w_tasks w)). lia. }
    assert (fetch_add 1 (nm_pending_handshakes (sh_metrics (w_shared w))) = nm_pending_handshakes (sh_metrics (w_shared w)) + 1) as Hf
      by (unfold fetch_add, wrapping_add; rewrite Z.mod_small by zlia; done).
    split; cbn; rewrite ?Hf; try done; [rewrite sumZ_cons; cbn; lia|lia|by constructor].
  - rewrite Ht in Hi. apply Forall_cons in Hi as [Hr Hi].
    destruct (table_insert_spec _ route Hwf Hroom) as (h' & t' & E' & Hwf' & Hnone & Hmap).
    rewrite Hins in E'. injection E' as <- <-.
    split; cbn; try done.
    + rewrite Hmap, sum_map_insert, Hp, Ht, sumZ_cons by done. unfold unopened at 2. rewrite Hr. cbn. lia.
    + rewrite Hc, Ht. done.
  - by eapply mark_session_established_inv.
  - destruct (table_remove_spec _ _ _ _ Hwf Hrm) as (Hwf' & Hget & Hmap). split; cbn; try done.
    + rewrite Hmap, sumZ_cons, Hp, (sum_map_delete _ _ _ _ Hget). cbn. lia.
    + by constructor.
    + rewrite Hc. solve_Permutation.
  - pose proof (task_has_pending _ _ _ I Ht) as Hpend. cbn in Hpend.
    destruct (finish_close_effect (w_shared w) session route reason detail joining now Hpend) as (sh' & E' & S' & C' & P' & L').
    rewrite E in E'. injection E' as <-. rewrite Ht in Hi. apply Forall_cons in Hi as [_ Hi]. pose proof (unopened_range route).
    split; cbn; rewrite ?S', ?C', ?P', ?L'; try done; [rewrite Hp, Ht, sumZ_cons; cbn; lia|lia|].
    rewrite Hc, Ht. cbn. solve_Permutation.
  - destruct (table_remove_spec _ _ _ _ Hwf Hrm) as (Hwf' & Hget & Hmap). split; cbn; try done.
    + rewrite Hmap, sumZ_cons, Hp, (sum_map_delete _ _ _ _ Hget). cbn. lia.
    + by constructor.
  - pose proof (task_has_pending _ _ _ I Ht) as Hpend. cbn in Hpend.
    destruct (release_pending_session_effect (forget_latest (w_shared w) session) route Hpend) as (sh' & E' & S' & C' & P' & L').
    rewrite E in E'. injection E' as <-. rewrite Ht in Hi. apply Forall_cons in Hi as [_ Hi]. pose proof (unopened_range route).
    split; cbn; rewrite ?S', ?C', ?P', ?L'; try done; cbn; [rewrite Hp, Ht, sumZ_cons; cbn; lia|lia|].
    rewrite Hc, Ht. done.
  - split; done.
  - by eapply close_endpoint_session_inv.
  - eapply world_inv_quiet; [apply send_with_options_quiet|]. by destruct w.
  - eapply world_inv_quiet; [apply send_game_control_quiet|]. by destruct w.
  - eapply world_inv_quiet; [apply send_payload_latest_quiet|]. by destruct w.
  - by apply auth_decide_inv.
Qed.

(** *** The sessions of an endpoint *)

Lemma table_handles_NoDup {T} (t : HandleTable T) : table_wf t → NoDup (table_handles t).
Proof. intros Hwf. apply (entries_NoDup (slots t) id); [done|]. intros i s. by apply wf_index. Qed.
Lemma elem_of_table_handles {T} (t : HandleTable T) h :
  table_wf t → h ∈ table_handles t ↔ is_Some (table_map t !! h).
Proof.
  intros Hwf. unfold table_handles, table_map. rewrite list_elem_of_fmap. split.
  - intros ([h' v] & -> & Hin). exists v. apply elem_of_list_to_map; [by apply table_handles_NoDup|done].
  - intros [v Hv]. exists (h, v). split; [done|]. by apply elem_of_list_to_map_2.
Qed.

Lemma sessions_of_spec sh endpoint session :
  table_wf (sh_sessions sh) →
  session ∈ sessions_of sh endpoint ↔ ∃ route, table_get (sh_sessions sh) session = Some route ∧ sr_endpoint route = endpoint.
Proof.
  intros Hwf. unfold sessions_of. rewrite list_elem_of_filter, elem_of_table_handles, table_get_map by done. split.
  - intros [Hr [route Hg]]. exists route. split; [done|]. rewrite Hg in Hr. by apply bool_decide_eq_true in Hr.
  - intros (route & Hg & He). rewrite Hg. split; [|done]. by apply bool_decide_eq_true.
Qed.

Lemma release_pending_session_endpoints sh route sh' :
  release_pending_session sh route = Done sh' → sh_endpoints sh' = sh_endpoints sh.
Proof.
  unfold release_pending_session. destruct (sr_established route); [by intros [= <-]|].
  destruct (release_pending_handshake _); cbn; [|done]. by intros [= <-].
Qed.
Lemma publish_lifecycle_endpoints sh e now : sh_endpoints (publish_lifecycle sh e now) = sh_endpoints sh.
Proof. unfold publish_lifecycle. destruct (push_priority _ _ _) as [[[[]|] q]|]; done. Qed.

Lemma close_endpoint_session_effect sh endpoint session route now :
  table_wf (sh_sessions sh) → table_map (sh_sessions sh) !! session = Some route →
  unopened route ≤ nm_pending_handshakes (sh_metrics sh) →
  ∃ sh', close_endpoint_session sh endpoint session now = Done sh' ∧ table_wf (sh_sessions sh') ∧
    table_map (sh_sessions sh') = delete session (table_map (sh_sessions sh)) ∧ sh_endpoints sh' = sh_endpoints sh ∧
    nm_pending_handshakes (sh_metrics sh') = nm_pending_handshakes (sh_metrics sh) - unopened route ∧
    sh_published sh' = sh_published sh ++ [session_event EventType.SessionClosed endpoint session now].
Proof.
  intros Hwf Hget Hp. unfold close_endpoint_session. destruct (table_remove _ session) as [[route' t]|] eqn:Hrm.
  2:{ apply table_remove_None in Hrm. by rewrite table_get_map, Hget in Hrm. }
  destruct (table_remove_spec _ _ _ _ Hwf Hrm) as (Hwf' & Hget' & Hm). rewrite Hget in Hget'. injection Hget' as <-.
  match goal with |- context [release_pending_session ?s _] =>
    destruct (release_pending_session_effect s route Hp) as (sh1 & E1 & S1 & C1 & P1 & L1) end.
  pose proof (release_pending_session_endpoints _ _ _ E1) as N1. rewrite E1. cbn [mbind outcome_bind]. eexists. split; [done|].
  match goal with |- context [publish_lifecycle ?a ?b ?c] =>
    destruct (publish_lifecycle_effect a b c) as (S2 & C2 & P2 & L2) end.
  rewrite S2, P2, L2, publish_lifecycle_endpoints. cbn. rewrite S1, N1, P1, L1. done.
Qed.

Lemma close_endpoint_sessions_effect handles endpoint now : ∀ sh,
  table_wf (sh_sessions sh) → NoDup handles →
  (∀ h, h ∈ handles → is_Some (table_map (sh_sessions sh) !! h)) →
  sum_map unopened (table_map (sh_sessions sh)) ≤ nm_pending_handshakes (sh_metrics sh) →
  ∃ sh', close_endpoint_sessions sh endpoint handles now = Done sh' ∧ table_wf (sh_sessions sh') ∧
    (∀ h, table_map (sh_sessions sh') !! h = if decide (h ∈ handles) then None else table_map (sh_sessions sh) !! h) ∧
    sh_endpoints sh' = sh_endpoints sh ∧
    nm_pending_handshakes (sh_metrics sh') - sum_map unopened (table_map (sh_sessions sh')) =
      nm_pending_handshakes (sh_metrics sh) - sum_map unopened (table_map (sh_sessions sh)) ∧
    sh_published sh' = sh_published sh ++ map (λ s, session_event EventType.SessionClosed endpoint s now) handles.
Proof.
  induction handles as [|session handles IH]; intros sh Hwf Hnd Hin Hp; cbn [close_endpoint_sessions map].
  { exists sh. split_and!; try done. by rewrite app_nil_r. }
  apply NoDup_cons in Hnd as [Hnot Hnd]. destruct (Hin session) as [route Hget]; [set_solver|].
  pose proof (sum_map_delete unopened _ _ _ Hget) as Hs.
  pose proof (unopened_sum_nonneg (delete session (table_map (sh_sessions sh)))).
  destruct (close_endpoint_session_effect sh endpoint session route now) as (sh1 & -> & Hwf1 & M1 & N1 & P1 & L1); [done..|lia|].
  cbn [mbind outcome_bind].
  destruct (IH sh1) as (sh' & -> & Hwf' & M' & N' & P' & L'); [done|done| | |].
  { intros h Hh. rewrite M1, lookup_delete_ne by set_solver. apply Hin. set_solver. }
  { rewrite M1, P1. lia. }
  exists sh'. split_and!; [done|done| |congruence| |].
  - intros h. rewrite M', M1. destruct (decide (h = session)) as [->|].
    + rewrite lookup_delete_eq. rewrite (decide_True (P := session ∈ session :: handles)) by set_solver. by case_decide.
    + rewrite lookup_delete_ne by done. repeat case_decide; set_solver.
  - rewrite P', M1, P1. lia.
  - rewrite L', L1, <- app_assoc. done.
Qed.
End accounting.

(** ** A runtime that just started *)

Record just_started (sh : Shared) : Prop := {
  js_sessions : sh_sessions sh = table_new;
  js_pending : nm_pending_handshakes (sh_metrics sh) = 0;
  js_limit : 0 ≤ nc_max_pending_handshakes (sh_config sh) ≤ usize_max;
  js_published : sh_published sh = []
}.
Definition registry_reachable (display : string → RnetError → list byte) (w : World) : Prop :=
  ∃ sh, just_started sh ∧ rtc (world_step display) (mkWorld sh [] []) w.

Lemma registry_reachable_inv display w : registry_reachable display w → world_inv w.
Proof.
  intros (sh & [Hs Hp Hl Hc] & Hrun).
  assert (world_inv (mkWorld sh [] [])) as I.
  { apply (world_inv_with _ table_new); cbn; rewrite ?Hp, ?Hc; try done. apply table_new_wf. }
  revert I. induction Hrun; [done|]. eauto using world_step_inv.
Qed.

(** ** What the application is told

    The registry next to the application that polls its event queue: [ob_polled] is what it
    was handed so far.  Besides the steps of the registry, it polls, the endpoint tasks push
    their own events, and the endpoint errors and the end of the runtime are published. *)

Record Observed := mkObserved {
  ob_world : World;
  ob_polled : list Event
}.
Definition with_shared (w : World) (sh : Shared) : World := mkWorld sh (w_tasks w) (w_removed w).

Inductive observed_step (display : string → RnetError → list byte) (o : Observed) : Observed → Prop :=
| os_world w : world_step display (ob_world o) w → observed_step display o (mkObserved w (ob_polled o))
| os_poll cap byte_limit events q :
    0 ≤ cap → 0 ≤ byte_limit →
    poll_with_byte_limit (sh_events (w_shared (ob_world o))) cap byte_limit = (events, q) →
    observed_step display o (mkObserved (with_shared (ob_world o) (w_shared (ob_world o) <| sh_events := q |>)) (ob_polled o ++ events))
| os_push e now r q :
    closed_session e = None → try_push (sh_events (w_shared (ob_world o))) e now = (r, q) →
    observed_step display o (mkObserved (with_shared (ob_world o) (w_shared (ob_world o) <| sh_events := q |>)) (ob_polled o))
| os_endpoint_error e now :
    event_type e = EventType.EndpointError →
    observed_step display o (mkObserved (with_shared (ob_world o) (publish_lifecycle (w_shared (ob_world o)) e now)) (ob_polled o))
| os_stopped now :
    observed_step display o (mkObserved (with_shared (ob_world o) (emit_runtime_stopped (w_shared (ob_world o)) now)) (ob_polled o)).

(** The sessions reported closed by the published events are those of the events handed out, of
    the events still in the queue and of the refused ones; the metric counts the refused ones. *)
Record notified (polled : list Event) (sh : Shared) : Prop := {
  nt_queue : queue_inv (sh_events sh);
  nt_closed : omap closed_session (sh_published sh) ≡ₚ
    omap closed_session (polled ++ queue (sh_events sh)) ++ omap closed_session (sh_refused sh);
  nt_rejected : nm_lifecycle_events_rejected (sh_metrics sh) = len (sh_refused sh) `mod` 2 ^ 64
}.
(** What [notified] depends on. *)
Record silent (sh sh' : Shared) : Prop := {
  si_events : sh_events sh' = sh_events sh;
  si_published : sh_published sh' = sh_published sh;
  si_refused : sh_refused sh' = sh_refused sh;
  si_rejected : nm_lifecycle_events_rejected (sh_metrics sh') = nm_lifecycle_events_rejected (sh_metrics sh)
}.
#[export] Instance silent_preorder : PreOrder silent.
Proof. split; [done|]. intros x y z [] []. split; congruence. Qed.

Lemma notified_silent polled sh sh' : silent sh sh' → notified polled sh → notified polled sh'.
Proof. intros [He Hp Hr Hm] []. split; rewrite ?He, ?Hp, ?Hr, ?Hm; done. Qed.

(** A [SessionClosed] is never evicted. *)
Lemma closed_session_lifecycle (l : list Event) : omap closed_session (lifecycle l) = omap closed_session l.
Proof.
  induction l as [|e l IH]; [done|]. rewrite filter_cons. case_decide as He; cbn; [by rewrite IH|].
  rewrite IH. unfold closed_session. destruct (event_type e) eqn:Hty; try done. unfold evictable in He. by rewrite Hty in He.
Qed.
Lemma evicts_closed k l l' : evicts k l l' → omap closed_session l' = omap closed_session l.
Proof. intros [Hk _ _]. by rewrite <- closed_session_lifecycle, Hk, closed_session_lifecycle. Qed.
Lemma closed_session_stamped q e now : closed_session (stamped (strip_details q e) now) = closed_session e.
Proof. unfold strip_details. by destruct (_ && _). Qed.

Lemma publish_notified polled sh e now : notified polled sh → notified polled (publish_lifecycle sh e now).
Proof.
  intros [Hq Hc Hr]. unfold publish_lifecycle.
  destruct (push_priority_post (sh_events sh) e now Hq) as (r & q & k & E & Hq' & _ & Hpost).
  change (sh_events (sh <| sh_published ::= λ l, l ++ [e] |>)) with (sh_events sh). rewrite E.
  destruct r as [evicted|err].
  - destruct Hpost as (kept & Hk & Hev & _).
    assert (∀ m, nm_lifecycle_events_rejected m = nm_lifecycle_events_rejected (sh_metrics sh) →
      notified polled (sh <| sh_published ::= λ l, l ++ [e] |> <| sh_events := q |> <| sh_metrics := m |>)) as Hn.
    { intros m Hm. split; cbn; [done| |by rewrite Hm]. rewrite Hk, !omap_app, (evicts_closed _ _ _ Hev), Hc, omap_app. cbn.
      rewrite closed_session_stamped. solve_Permutation. }
    destruct evicted; [by apply Hn|]. apply (Hn (sh_metrics sh)). done.
  - destruct Hpost as (_ & Hev & _). split; cbn; [done| |].
    + rewrite !omap_app, (evicts_closed _ _ _ Hev), Hc, omap_app. by rewrite app_assoc.
    + rewrite Hr, len_app. unfold fetch_add, wrapping_add, len. cbn. rewrite Zplus_mod_idemp_l. done.
Qed.

Lemma send_on_silent sh target o : silent sh (send_on sh target o).2.
Proof. unfold send_on. destruct target; cbn; destruct (try_send _ _ _ _) as [[?|[]] st]; done. Qed.
Lemma enqueue_encoded_silent sh session frame kind now : silent sh (enqueue_encoded sh session frame kind now).2.
Proof.
  unfold enqueue_encoded. destruct (negb (running sh)); [done|]. destruct (lookup_established sh session) as [route|]; [|done].
  destruct (_ && _); [done|]. destruct (match sr_target route with ToUdp _ _ _ _ => _ | _ => _ end); [done|].
  destruct (with_kind _ _ _ _ _ _) as [[o|] st]; [|done]. etrans; [|apply send_on_silent]. done.
Qed.
Lemma send_with_options_silent sh session payload cid now : silent sh (send_with_options sh session payload cid now).2.
Proof.
  unfold send_with_options. destruct (negb (running sh)); [done|].
  destruct (encode_frame _ _ _ _); [apply enqueue_encoded_silent|done].
Qed.
Lemma send_game_control_silent sh session payload now : silent sh (send_game_control sh session payload now).2.
Proof.
  unfold send_game_control. destruct (negb (running sh)); [done|]. case_decide; [done|]. apply enqueue_encoded_silent.
Qed.
Lemma send_payload_latest_silent sh session key payload now : silent sh (send_payload_latest sh session key payload now).2.
Proof.
  assert (H : silent sh (send_payload_latest_inner sh session key payload now).2).
  { unfold send_payload_latest_inner. destruct (negb (running sh)); [done|]. destruct (encode_frame _ _ _ _); [|done].
    destruct (lookup_established sh session) as [route|]; [|done]. destruct (negb _); [done|].
    destruct (enqueue _ _ _ _ _ _ _ _) as [[[]|] st]; [done..|]. cbn. by case_decide. }
  unfold send_payload_latest. destruct (send_payload_latest_inner _ _ _ _ _) as [[?|e] sh']; [done|]. cbn in *.
  etrans; [exact H|]. done.
Qed.
Lemma auth_decide_silent sh session accept : silent sh (auth_decide sh session accept).2.
Proof.
  unfold auth_decide. destruct (table_get _ _); [|done]. destruct (negb _); [done|]. cbn.
  destruct (sh_auth sh !! session) as [[]|]; done.
Qed.
Lemma release_pending_session_silent sh route sh' : release_pending_session sh route = Done sh' → silent sh sh'.
Proof.
  unfold release_pending_session, release_pending_handshake. destruct (sr_established route); [by intros [= <-]|].
  case_decide; [|done]. by intros [= <-].
Qed.
Lemma forget_release_silent sh session route sh' :
  release_pending_session (forget_latest sh session) route = Done sh' → silent sh sh'.
Proof. intros E%release_pending_session_silent. trans (forget_latest sh session); done. Qed.
Lemma mark_session_established_silent sh session r sh' :
  mark_session_established sh session = Done (r, sh') → silent sh sh'.
Proof.
  unfold mark_session_established. destruct (table_get _ _) as [route|]; [|by intros [= <- <-]].
  destruct (release_pending_session sh route) as [sh1|] eqn:E; [|done]. apply release_pending_session_silent in E.
  cbn [mbind outcome_bind]. intros [= <- <-]. etrans; [exact E|done].
Qed.
Lemma request_cleanup_silent sh route session : silent sh (request_cleanup sh route session).
Proof. unfold request_cleanup. by destruct (sr_target route) as [|? ? ? []|? ? []]. Qed.

Lemma finish_close_notified display polled sh session route reason detail joining now sh' :
  finish_close display sh session route reason detail joining now = Done sh' → notified polled sh → notified polled sh'.
Proof.
  intros E N. unfold finish_close in E.
  destruct (release_pending_session (forget_latest sh session) route) as [sh1|] eqn:E1; [|done].
  cbn [mbind outcome_bind] in E. injection E as <-. apply publish_notified.
  set (sh2 := request_cleanup _ route session).
  assert (notified polled sh2) as N2.
  { eapply notified_silent; [|exact N]. apply forget_release_silent in E1.
    etrans; [|apply request_cleanup_silent]. etrans; [exact E1|done]. }
  destruct (_ && _); [by apply publish_notified|done].
Qed.
Lemma close_endpoint_session_notified polled sh endpoint session now sh' :
  close_endpoint_session sh endpoint session now = Done sh' → notified polled sh → notified polled sh'.
Proof.
  intros E N. unfold close_endpoint_session in E. destruct (table_remove _ session) as [[route t]|]; [|by injection E as <-].
  destruct (release_pending_session _ route) as [sh1|] eqn:E1; [|done].
  cbn [mbind outcome_bind] in E. injection E as <-. apply publish_notified.
  apply forget_release_silent in E1. eapply notified_silent; [|exact N].
  trans (sh <| sh_sessions := t |>); [done|]. etrans; [exact E1|done].
Qed.

Lemma world_step_notified display polled w w' :
  world_step display w w' → notified polled (w_shared w) → notified polled (w_shared w').
Proof.
  destruct 1 as [route m Hr Hm|route tasks h t Ht Hroom Hins|session r sh E|session route t reason detail joining Hrm
    |session route reason detail joining tasks now sh Ht E|session route t Hrm|session route tasks sh Ht E
    |endpoint record t Hrm|endpoint session now sh E|session payload cid now|session payload now|session key payload now
    |session accept]; cbn [w_shared].
  5: by apply (finish_close_notified display _ _ session route reason detail joining now).
  8: by apply (close_endpoint_session_notified _ _ endpoint session now).
  all: apply notified_silent; try done.
  - unfold try_reserve_pending_handshake in Hm. case_decide; [|done]. by injection Hm as <-.
  - by eapply mark_session_established_silent.
  - by apply forget_release_silent in E.
  - apply send_with_options_silent.
  - apply send_game_control_silent.
  - apply send_payload_latest_silent.
  - apply auth_decide_silent.
Qed.

Definition told (o : Observed) : Prop := world_inv (ob_world o) ∧ notified (ob_polled o) (w_shared (ob_world o)).

Lemma publish_told w polled e now :
  closed_session e = None → told (mkObserved w polled) →
  told (mkObserved (with_shared w (publish_lifecycle (w_shared w) e now)) polled).
Proof.
  intros He [I N]. split; [|by apply publish_notified]. cbn in *.
  destruct (publish_lifecycle_effect (w_shared w) e now) as (S & C & P & L). destruct I as [Hwf Hp Hl Hi Hc].
  split; cbn; rewrite ?S, ?C, ?P, ?L; try done. rewrite omap_app. cbn. rewrite He, app_nil_r. done.
Qed.
Lemma observed_step_told display o o' : observed_step display o o' → told o → told o'.
Proof.
  destruct o as [w polled]. destruct 1 as [w' H|cap limit events q Hc Hl E|e now r q He E|e now He|now]; intros T; pose proof T as [I N]; cbn in *.
  - split; [by eapply world_step_inv|by eapply world_step_notified].
  - destruct (poll_post _ _ _ _ _ (nt_queue _ _ N) Hc Hl E) as (Hq & Hq' & _). split; cbn.
    + eapply (world_inv_quiet (w_shared w)); [done|by destruct w].
    + destruct N as [_ Hn Hr]. split; cbn; [done| |done]. by rewrite Hn, Hq', app_assoc.
  - assert (queue_inv q ∧ omap closed_session (queue q) = omap closed_session (queue (sh_events (w_shared w)))) as [Hq Hq'].
    { unfold try_push in E. destruct (is_full _ e) eqn:Hf; injection E as <- <-; [by destruct N|].
      split; [apply push_back_inv; by destruct N|]. change (closed_session (stamped e now) = None) in He.
      change (queue (push_back ?q e now)) with (queue q ++ [stamped e now]). rewrite omap_app. cbn [omap list_omap].
      by rewrite He, app_nil_r. }
    split; cbn.
    + eapply (world_inv_quiet (w_shared w)); [done|by destruct w].
    + destruct N as [_ Hn Hr]. split; cbn; [done| |done]. by rewrite Hn, !omap_app, Hq'.
  - apply publish_told; [|done]. unfold closed_session. by rewrite He.
  - unfold emit_runtime_stopped. destruct (sh_stopped_event_emitted _); [by destruct w|].
    destruct (publish_told w polled (event_simple EventType.RuntimeStopped now) now) as [I' N']; [done|done|]. split; cbn in *.
    + eapply world_inv_quiet, I'. done.
    + eapply notified_silent, N'. done.
Qed.

(** A runtime that just started and whose event queue reports no closed session. *)
Definition observed_reachable (display : string → RnetError → list byte) (o : Observed) : Prop :=
  ∃ sh, (just_started sh ∧ queue_inv (sh_events sh) ∧ omap closed_session (queue (sh_events sh)) = [] ∧
         sh_refused sh = [] ∧ nm_lifecycle_events_rejected (sh_metrics sh) = 0) ∧
    rtc (observed_step display) (mkObserved (mkWorld sh [] []) []) o.

Lemma observed_reachable_told display o : observed_reachable display o → told o.
Proof.
  intros (sh & (Hj & Hq & Hc & Hr & Hm) & Hrun). assert (told (mkObserved (mkWorld sh [] []) [])) as T.
  { split; [apply (registry_reachable_inv display); by exists sh|]. split; cbn; [done| |by rewrite Hm, Hr].
    by rewrite (js_published _ Hj), Hc, Hr. }
  revert T. induction Hrun; [done|]. eauto using observed_step_told.
Qed.

(** *** No call panics *)

Lemma close_total display w session reason detail joining now :
  world_inv w → ∃ sh, close display (w_shared w) session reason detail joining now = Done sh.
Proof.
  intros I. unfold close. destruct (table_remove _ session) as [[route t]|] eqn:Hrm; [|eauto].
  destruct (table_remove_spec _ _ _ _ (wi_table _ I) Hrm) as (_ & Hget & _). rewrite <- table_get_map in Hget by apply I.
  match goal with |- context [finish_close display ?s _ _ _ _ _ _] =>
    destruct (finish_close_effect display s session route reason detail joining now (live_pending _ _ _ I Hget)) as (sh & E & _) end.
  eauto.
Qed.
Lemma close_session_total display w session reason now :
  world_inv w → ∃ r sh, close_session display (w_shared w) session reason now = Done (r, sh).
Proof.
  intros I. destruct (close_total display w session reason None false now I) as [sh E]. unfold close in E. unfold close_session.
  destruct (table_remove _ session) as [[route t]|]; [|eauto]. rewrite E. cbn. eauto.
Qed.
Lemma close_endpoint_sessions_total endpoint now handles : ∀ sh tasks removed, world_inv (mkWorld sh tasks removed) →
  ∃ sh' removed', close_endpoint_sessions sh endpoint handles now = Done sh' ∧ world_inv (mkWorld sh' tasks removed').
Proof.
  induction handles as [|session handles IH]; intros sh tasks removed I; cbn [close_endpoint_sessions]; [eauto|].
  assert (∃ sh1, close_endpoint_session sh endpoint session now = Done sh1) as [sh1 E].
  { unfold close_endpoint_session. destruct (table_remove _ session) as [[route t]|] eqn:Hrm; [|eauto].
    destruct (table_remove_spec _ _ _ _ (wi_table _ I) Hrm) as (_ & Hget & _).
    rewrite <- table_get_map in Hget by apply I. pose proof (live_pending _ _ _ I Hget) as Hp.
    match goal with |- context [release_pending_session ?s _] =>
      destruct (release_pending_session_effect s route Hp) as (sh1 & -> & _) end. cbn. eauto. }
  rewrite E. cbn [mbind outcome_bind].
  exact (IH _ _ _ (close_endpoint_session_inv (mkWorld sh tasks removed) endpoint session now sh1 I E)).
Qed.
Lemma close_endpoint_total endpoint now sh tasks removed : world_inv (mkWorld sh tasks removed) →
  ∃ r sh' removed', close_endpoint sh endpoint now = Done (r, sh') ∧ world_inv (mkWorld sh' tasks removed').
Proof.
  intros I. unfold close_endpoint. destruct (table_remove (sh_endpoints sh) endpoint) as [[record t]|]; [|eauto 6].
  destruct (close_endpoint_sessions_total endpoint now (sessions_of sh endpoint) (sh <| sh_endpoints := t |>) tasks removed)
    as (sh' & removed' & -> & I'); [|cbn; eauto 6]. eapply world_inv_quiet, I. done.
Qed.
Lemma stop_end_total sh tasks removed now :
  world_inv (mkWorld sh tasks removed) → ∃ r sh', stop_end sh now = Done (r, sh').
Proof.
  intros I. assert (∃ sh', finish_stop sh now = Done sh') as [sh' E].
  { unfold finish_stop. generalize (table_handles (sh_endpoints sh)) as endpoints. intros endpoints. revert sh removed I.
    induction endpoints as [|endpoint endpoints IH]; intros sh removed I; cbn [close_endpoints]; [eauto|].
    destruct (close_endpoint_total endpoint now sh tasks removed I) as (r & sh1 & removed1 & -> & I1). cbn. eauto. }
  unfold stop_end. rewrite E. cbn [mbind outcome_bind]. destruct (mark_stopped_after _ _) as [[]]; eauto.
Qed.

Record calls_finish (display : string → RnetError → list byte) (w : World) : Prop := {
  cf_task k : k ∈ w_tasks w →
    match k with
    | Inserting route => has_room (sh_sessions (w_shared w)) → ∃ h t, table_insert (sh_sessions (w_shared w)) route = Done (h, t)
    | Closing session route reason detail joining =>
      ∀ now, ∃ sh, finish_close display (w_shared w) session route reason detail joining now = Done sh
    | Discarding session route =>
      ∃ sh, release_pending_session (forget_latest (w_shared w) session) route = Done sh
    end;
  cf_insert route : has_room (sh_sessions (w_shared w)) → ∃ r sh, insert_session_route (w_shared w) route = Done (r, sh);
  cf_establish session : ∃ r sh, mark_session_established (w_shared w) session = Done (r, sh);
  cf_close session reason detail joining now : ∃ sh, close display (w_shared w) session reason detail joining now = Done sh;
  cf_close_session session reason now : ∃ r sh, close_session display (w_shared w) session reason now = Done (r, sh);
  cf_close_endpoint endpoint now : ∃ r sh, close_endpoint (w_shared w) endpoint now = Done (r, sh);
  cf_stop now : ∃ r sh, stop_end (w_shared w) now = Done (r, sh)
}.
Lemma world_inv_calls display w : world_inv w → calls_finish display w.
Proof.
  intros I. split.
  - intros k (tasks & Ht)%elem_of_Permutation. pose proof (task_has_pending _ _ _ I Ht) as Hpend. destruct k.
    + intros Hroom. destruct (table_insert_spec _ route (wi_table _ I) Hroom) as (h & t & E & _). eauto.
    + intros now. destruct (finish_close_effect display (w_shared w) session route reason detail joining now Hpend) as (sh & E & _). eauto.
    + destruct (release_pending_session_effect (forget_latest (w_shared w) session) route Hpend) as (sh & E & _). eauto.
  - intros route Hroom. destruct (table_insert_spec _ route (wi_table _ I) Hroom) as (h & t & E & _). unfold insert_session_route.
    destruct (sr_established route); [rewrite E; cbn; eauto|]. destruct (try_reserve_pending_handshake _ _); [|eauto]. cbn. rewrite E. cbn. eauto.
  - intros session. unfold mark_session_established. destruct (table_get _ session) as [route|] eqn:Hget; [|eauto].
    destruct (release_pending_session_effect (w_shared w) route (live_pending _ _ _ I Hget)) as (sh & -> & _). cbn. eauto.
  - intros. by apply close_total.
  - intros. by apply close_session_total.
  - intros endpoint now. destruct w as [sh tasks removed].
    destruct (close_endpoint_total endpoint now sh tasks removed I) as (r & sh' & _ & E & _). eauto.
  - intros now. destruct w as [sh tasks removed]. by apply (stop_end_total sh tasks removed).
Qed.

(** C32: However the calls of the application and of the endpoint tasks interleave, between
    two critical sections included, and however the application polls: the pending-handshake
    counter is exactly the number of sessions not yet open, in the table or on their way in or
    out, and never exceeds its configured limit.  Every session taken out of the table to be
    closed has exactly one [SessionClosed] event: already polled, waiting in the event queue
    (from which nothing evicts it), refused by a queue full of such notifications and counted
    in [lifecycle_events_rejected], or owed by a call in progress.  No call panics: the calls
    in progress finish, and so would an establishment, the closing of any session or endpoint,
    the stop of the runtime and, while the table has room, an insertion. *)
Theorem session_accounting display o :
  observed_reachable display o →
  let w := ob_world o in let sh := w_shared w in
  (nm_pending_handshakes (sh_metrics sh) =
     sum_map unopened (table_map (sh_sessions sh)) + sumZ task_pending (w_tasks w) ∧
   0 ≤ nm_pending_handshakes (sh_metrics sh) ≤ nc_max_pending_handshakes (sh_config sh)) ∧
  w_removed w ≡ₚ omap closed_session (ob_polled o ++ queue (sh_events sh)) ++
    omap closed_session (sh_refused sh) ++ omap closing (w_tasks w) ∧
  nm_lifecycle_events_rejected (sh_metrics sh) = len (sh_refused sh) `mod` 2 ^ 64 ∧
  calls_finish display w.
Proof.
  intros [I N]%observed_reachable_told. cbn zeta. pose proof I as [Hwf Hp Hl Hi Hc]. destruct N as [Hq Hn Hr]. split_and!.
  - done.
  - rewrite Hp. pose proof (unopened_sum_nonneg (table_map (sh_sessions (w_shared (ob_world o))))).
    pose proof (task_sum_nonneg (w_tasks (ob_world o))). lia.
  - apply Hl.
  - by rewrite Hc, Hn, <- app_assoc.
  - done.
  - by apply world_inv_calls.
Qed.

(** Closing a live endpoint, with no other call in between, succeeds without a panic,
    takes the endpoint and exactly its sessions out of the tables, publishes one
    [SessionClosed] for each of them in table order and nothing else, and gives back exactly
    the pending-handshake slots of those that were not open yet. *)
Theorem close_endpoint_complete display w endpoint record t now :
  registry_reachable display w → table_remove (sh_endpoints (w_shared w)) endpoint = Some (record, t) →
  ∃ sh', close_endpoint (w_shared w) endpoint now = Done (Ok tt, sh') ∧ sh_endpoints sh' = t ∧
    (∀ session route, table_get (sh_sessions sh') session = Some route ↔
       table_get (sh_sessions (w_shared w)) session = Some route ∧ sr_endpoint route ≠ endpoint) ∧
    sh_published sh' = sh_published (w_shared w) ++
      map (λ s, session_event EventType.SessionClosed endpoint s now) (sessions_of (w_shared w) endpoint) ∧
    nm_pending_handshakes (sh_metrics sh') =
      sum_map unopened (table_map (sh_sessions sh')) + sumZ task_pending (w_tasks w).
Proof.
  intros [Hwf Hp _ _ _]%registry_reachable_inv Hrm. unfold close_endpoint. rewrite Hrm.
  pose proof (task_sum_nonneg (w_tasks w)).
  match goal with |- context [close_endpoint_sessions ?s _ _ _] =>
    destruct (close_endpoint_sessions_effect (sessions_of (w_shared w) endpoint) endpoint now s)
      as (sh' & E & Hwf' & M & N & P & L) end.
  - exact Hwf.
  - apply NoDup_filter. by apply table_handles_NoDup.
  - intros h (route & Hg & _)%sessions_of_spec; [|done]. rewrite table_get_map in Hg by done. by exists route.
  - cbn. lia.
  - rewrite E. cbn [mbind outcome_bind]. exists sh'. split; [done|]. split; [exact N|]. split; [|split; [exact L|cbn in P; lia]].
    intros session route. rewrite !table_get_map, M by done. cbn. case_decide as Hin.
    + rewrite sessions_of_spec in Hin by done. destruct Hin as (r & Hg & He). rewrite table_get_map in Hg by done. naive_solver.
    + split; [|by intros []]. intros Hg. split; [done|]. intros He. apply Hin, sessions_of_spec; [done|].
      rewrite table_get_map by done. eauto.
Qed.

(** ** The race of a datagram admission with [close_endpoint] *)

Module RegistryDemo.
Definition config : NetConfig := net_config_default (Ok 8).
Definition peer : SocketAddr := mkSocketAddr false 2130706433 9000.
Definition endpoint : Handle := encode_handle 0 1.
Definition store : Store := mkStore ∅ ∅ ∅ ∅ OutboundDemo.counters 0.
(** A runtime with one UDP endpoint. *)
Definition start : Shared :=
  mkShared config runtime_state_created (mkEventQueue 16 4096 0 [])
    (mkHandleTable [mkSlot 1 (Some (mkEndpointRecord peer Transport.Udp true))] []) table_new metrics_default store 0
    false ∅ ∅ ∅ [] [].
Definition route : SessionRoute := mkSessionRoute endpoint (ToUdp 1 peer 1300 true) false true true true 0.
Definition reserved : Shared := start <| sh_metrics := metrics_default <| nm_pending_handshakes := 1 |> <| nm_peak_pending_handshakes := 1 |> |>.
Definition inserted (sh : Shared) : Shared := sh <| sh_sessions := mkHandleTable [mkSlot 1 (Some route)] [] |>.
Definition removed (sh : Shared) : Shared :=
  sh <| sh_endpoints := mkHandleTable [mkSlot 2 None] [0%nat] |>.

Lemma started : just_started start.
Proof. split; [done|done|cbn; zlia|done]. Qed.
Lemma step_reserve display : world_step display (mkWorld start [] []) (mkWorld reserved [Inserting route] []).
Proof. by apply (ws_reserve display (mkWorld start [] []) route). Qed.
Lemma step_insert display sh :
  sh_sessions sh = table_new → world_step display (mkWorld sh [Inserting route] []) (mkWorld (inserted sh) [] []).
Proof.
  intros Hs. eapply (ws_insert display (mkWorld sh [Inserting route] []) route [] (encode_handle 0 1)); [done| |];
    cbn; rewrite Hs; [right; vm_compute; reflexivity|done].
Qed.
Lemma step_close display sh :
  sh_endpoints sh = sh_endpoints start → world_step display (mkWorld sh [Inserting route] []) (mkWorld (removed sh) [Inserting route] []).
Proof.
  intros He. eapply (ws_close_endpoint display (mkWorld sh [Inserting route] []) endpoint). cbn. rewrite He. vm_compute. reflexivity.
Qed.
Lemma accepted_reachable display : registry_reachable display (mkWorld (inserted reserved) [] []).
Proof.
  exists start. split; [exact started|]. eapply rtc_l; [apply step_reserve|]. apply rtc_once. by apply step_insert.
Qed.
End RegistryDemo.

(** The datagram task inserts the route of a newly admitted peer without looking at the
    endpoint table.  When [close_endpoint] runs between the task's reservation of the pending
    handshake slot and its insertion, it succeeds and closes every session it sees; the
    insertion that follows still succeeds.  The endpoint is then gone, its handle refused,
    while one of its sessions stays in the table and its pending slot stays taken, with no call
    left in progress that would give them back. *)
Theorem datagram_accept_outlives_endpoint display :
  ∃ w1 w2 w3 now session route,
    registry_reachable display w1 ∧
    close_endpoint (w_shared w1) (sr_endpoint route) now = Done (Ok tt, w_shared w2) ∧
    world_step display w1 w2 ∧ world_step display w2 w3 ∧ w_tasks w3 = [] ∧
    close_endpoint (w_shared w3) (sr_endpoint route) now = Done (fail ErrorCode.InvalidHandle "invalid endpoint", w_shared w3) ∧
    table_get (sh_sessions (w_shared w3)) session = Some route ∧
    nm_pending_handshakes (sh_metrics (w_shared w3)) = 1.
Proof.
  exists (mkWorld RegistryDemo.reserved [Inserting RegistryDemo.route] []),
    (mkWorld (RegistryDemo.removed RegistryDemo.reserved) [Inserting RegistryDemo.route] []),
    (mkWorld (RegistryDemo.inserted (RegistryDemo.removed RegistryDemo.reserved)) [] []), 0, (encode_handle 0 1), RegistryDemo.route.
  split.
  { exists RegistryDemo.start. split; [exact RegistryDemo.started|]. apply rtc_once. apply RegistryDemo.step_reserve. }
  split; [vm_compute; reflexivity|]. split; [by apply RegistryDemo.step_close|].
  split; [by apply RegistryDemo.step_insert|]. split_and!; vm_compute; reflexivity.
Qed.

(** The accepted session is closed, and the application polls the notification. *)
Lemma session_accounting_witness : ∃ o session,
  w_removed (ob_world o) = [session] ∧ omap closed_session (ob_polled o) = [session] ∧
  nm_pending_handshakes (sh_metrics (w_shared (ob_world o))) = 0 ∧ calls_finish (λ _ _, []) (ob_world o).
Proof.
  set (shared := λ l, match l with Done sh => sh | Panic => RegistryDemo.start end).
  set (sh1 := shared (finish_close (λ _ _, []) (RegistryDemo.inserted RegistryDemo.reserved <| sh_sessions := mkHandleTable [mkSlot 2 None] [0%nat] |>)
    (encode_handle 0 1) RegistryDemo.route ErrorCode.Ok None false 7)).
  set (polled := poll_with_byte_limit (sh_events sh1) 8 1000).
  set (o := mkObserved (mkWorld (sh1 <| sh_events := polled.2 |>) [] [encode_handle 0 1]) polled.1).
  assert (observed_reachable (λ _ _, []) o) as Hr.
  { exists RegistryDemo.start. split; [split; [exact RegistryDemo.started|]; split_and!; [split; cbn; done || zlia|done..]|].
    eapply rtc_l; [apply os_world, RegistryDemo.step_reserve|].
    eapply rtc_l; [by apply os_world, RegistryDemo.step_insert|].
    eapply rtc_l; [eapply os_world, (ws_remove _ _ (encode_handle 0 1)); vm_compute; reflexivity|].
    eapply rtc_l; [eapply os_world, (ws_finish _ _ (encode_handle 0 1) RegistryDemo.route ErrorCode.Ok None false []); vm_compute; reflexivity|].
    eapply rtc_l; [eapply (os_poll _ _ 8 1000); [done..|vm_compute; reflexivity]|]. vm_compute. reflexivity. }
  destruct (session_accounting _ _ Hr) as (_ & _ & _ & C). exists o, (encode_handle 0 1). split_and!; [vm_compute; reflexivity..|exact C].
Defined.

Lemma close_endpoint_complete_witness :
  ∃ sh', close_endpoint (RegistryDemo.inserted RegistryDemo.reserved) RegistryDemo.endpoint 5 = Done (Ok tt, sh') ∧
    nm_pending_handshakes (sh_metrics sh') = 0 ∧
    sh_published sh' = [session_event EventType.SessionClosed RegistryDemo.endpoint (encode_handle 0 1) 5].
Proof.
  destruct (close_endpoint_complete (λ _ _, []) (mkWorld (RegistryDemo.inserted RegistryDemo.reserved) [] []) RegistryDemo.endpoint
    (mkEndpointRecord RegistryDemo.peer Transport.Udp true) (mkHandleTable [mkSlot 2 None] [0%nat]) 5) as (sh' & E & _ & _ & L & _).
  - apply RegistryDemo.accepted_reachable.
  - vm_compute. reflexivity.
  - exists sh'. split; [exact E|]. split; [|rewrite L; vm_compute; reflexivity].
    vm_compute in E. by injection E as <-.
Defined.
