(* ===== verification/Endpoints.v ===== *)
(** * Opening endpoints: rnet-transport [runtime.rs], [runtime_adaptive.rs], [runtime_connect.rs],
    [address.rs] and [tcp_socket.rs]

    The construction of a runtime and the calls that register a listener or a client
    connection.  Sockets, the resolver and the clock are arguments; the task an endpoint starts
    is not part of these calls.  A call runs with no other call in between. *)

From S2P Require Import Prelude Bytes CoreTypes Wire Observe Heartbeat EventQueue HandleTable Control TcpSession Outbound NetConfig Sessions.

(** ** Calls on the shared state that may fail *)

Definition Act (A : Type) : Type := Shared → outcome (Result A * Shared).
Definition act_of {A} (r : Result A) : Act A := λ sh, Done (r, sh).
Definition act_bind {A B} (m : Act A) (k : A → Act B) : Act B := λ sh,
  '(r, sh) ← m sh;
  match r with Ok a => k a sh | Err e => Done (Err e, sh) end.
Definition on_error {A} (m : Act A) (cleanup : Shared → outcome Shared) : Act A := λ sh,
  '(r, sh) ← m sh;
  match r with Ok a => Done (Ok a, sh) | Err e => sh ← cleanup sh; Done (Err e, sh) end.
Notation "x ⇐ m ; k" := (act_bind m (λ x : _, k))
  (at level 20, m at level 100, k at level 200, only parsing) : rnet_scope.

(** ** The operating system *)

(** [udp_bind] and [tcp_listen] answer with the local address of the new socket, [tcp_connect]
    with that of the connected one. *)
Record Sockets := mkSockets {
  udp_bind : SocketAddr → Result SocketAddr;
  tcp_listen : SocketAddr → Result SocketAddr;
  tcp_connect : option SocketAddr → SocketAddr → Duration → Result SocketAddr;
  tcp_configure : Result unit
}.

(** ** [NetworkRuntime::new_with_client_security]

    [build] is the result of starting the worker threads; the runtime's send budget is number 0. *)
Definition new_runtime (config : NetConfig) (build : Result unit) (now : Instant) : Result Shared :=
  _ ← validate_config config now;
  events ← new_with_limits (nc_event_queue_capacity config) (nc_max_event_bytes config);
  _ ← build;
  let '(started, state) := runtime_state_start runtime_state_created in
  _ ← started;
  let store := mkStore {[0 := byte_budget_new (nc_max_runtime_queued_bytes config)]} ∅ ∅ ∅ OutboundDemo.counters 0 in
  let sh := mkShared config state events table_new table_new metrics_default store 0 false ∅ ∅ ∅ [] [] in
  Ok (sh <| sh_events := (try_push events (event_simple EventType.RuntimeStarted now) now).2 |>).

Section opening.
(** [channel] and [budget] are the numbers of the queue and of the byte budget made for the new
    endpoint; [credentials] says whether the runtime has a client identity. *)
Context (os : Sockets) (credentials : bool) (channel budget : Z) (now : Instant).

Definition ENCRYPTED_UDP_WIRE_OVERHEAD : Z := 5 + 8 + 16 + 20.

(** [mpsc::channel(write_queue_capacity)] and [ByteBudget::new(max_session_queued_bytes)]. *)
Definition make_queue : Act unit := λ sh,
  Done (Ok tt, sh <| sh_store ::= λ st,
    st <| st_channels ::= <[channel := mkChannel (nc_write_queue_capacity (sh_config sh)) [] false]> |> |>).
(** The queue of a datagram endpoint and the channel of its cleanup requests. *)
Definition make_channels (endpoint : Handle) : Act unit :=
  _ ⇐ make_queue ;
  (λ sh, Done (Ok tt, sh <| sh_cleanups ::= <[endpoint := []]> |>)).
Definition make_budget : Act unit := λ sh,
  Done (Ok tt, sh <| sh_store ::= λ st,
    st <| st_budgets ::= <[budget := byte_budget_new (nc_max_session_queued_bytes (sh_config sh))]> |> |>).

Definition pending_session (endpoint : Handle) (target : SessionTarget) : Act Handle :=
  _ ⇐ make_budget ;
  (λ sh, insert_pending_session sh endpoint target false true budget).
Definition opened (endpoint : Handle) : Act unit := λ sh, Done (push_endpoint_opened sh endpoint now).
Definition registered (endpoint : Handle) : Act unit := λ sh, Done (set_endpoint_abort sh endpoint).

Definition datagram_target (transport : Transport.t) (peer : SocketAddr) (max_datagram_size : Z) : SessionTarget :=
  if decide (transport = Transport.Kcp) then ToKcp channel peer true
  else ToUdp channel peer (saturating_sub max_datagram_size ENCRYPTED_UDP_WIRE_OVERHEAD) true.

Definition open_adaptive_datagram_candidates (config : EndpointConfig) : Act Handle :=
  bind_addr ⇐ act_of (ok_or (ec_bind_addr config)
    (mkRnetError ErrorCode.InvalidArgument "datagram endpoint requires bind_addr")) ;
  local ⇐ act_of (udp_bind os bind_addr) ;
  endpoint ⇐ (λ sh, insert_endpoint sh local (ec_transport config)) ;
  _ ⇐ make_channels endpoint ;
  initial ⇐
    match ec_security config with
    | AdaptiveClient _ =>
      peer ⇐ act_of (ok_or (ec_remote_addr config)
        (mkRnetError ErrorCode.InvalidArgument "client requires remote_addr")) ;
      session ⇐ on_error
        (λ sh, pending_session endpoint (datagram_target (ec_transport config) peer (nc_max_datagram_size (sh_config sh))) sh)
        (λ sh, Done (discard_endpoint sh endpoint)) ;
      act_of (Ok (Some session))
    | AdaptiveServer _ _ => act_of (Ok None)
    end ;
  _ ⇐ on_error (opened endpoint) (λ sh,
        sh ← match initial with Some session => discard_session sh session | None => Done sh end;
        Done (discard_endpoint sh endpoint)) ;
  _ ⇐ registered endpoint ;
  act_of (Ok endpoint).

Definition open_adaptive_tcp_listener (config : EndpointConfig) : Act Handle :=
  bind_addr ⇐ act_of (ok_or (ec_bind_addr config)
    (mkRnetError ErrorCode.InvalidArgument "TCP listener requires bind_addr")) ;
  local ⇐ act_of (tcp_listen os bind_addr) ;
  endpoint ⇐ (λ sh, insert_endpoint sh local (ec_transport config)) ;
  _ ⇐ on_error (opened endpoint) (λ sh, Done (discard_endpoint sh endpoint)) ;
  _ ⇐ registered endpoint ;
  act_of (Ok endpoint).

Definition connect_tcp (remote : SocketAddr) (local : option SocketAddr) (timeout : Duration) : Result SocketAddr :=
  match local with
  | None => tcp_connect os None remote timeout
  | Some l =>
    if decide (sa_v6 l ≠ sa_v6 remote) then
      fail ErrorCode.InvalidArgument "TCP local and remote addresses must use the same IP family"
    else tcp_connect os (Some l) remote timeout
  end.

Definition open_adaptive_tcp_client_with_timeout (config : EndpointConfig) (connect_timeout : Duration) : Act Handle :=
  _ ⇐ act_of (if credentials then Ok tt
              else fail ErrorCode.InvalidState "unified client connection requires runtime client security") ;
  remote ⇐ act_of (ok_or (ec_remote_addr config)
    (mkRnetError ErrorCode.InvalidArgument "TCP client requires remote_addr")) ;
  local ⇐ act_of (connect_tcp remote (ec_bind_addr config) connect_timeout) ;
  _ ⇐ act_of (tcp_configure os) ;
  endpoint ⇐ (λ sh, insert_endpoint sh local (ec_transport config)) ;
  _ ⇐ make_queue ;
  session ⇐ on_error (pending_session endpoint (ToTcp channel)) (λ sh, Done (discard_endpoint sh endpoint)) ;
  _ ⇐ on_error (opened endpoint) (λ sh, sh ← discard_session sh session; Done (discard_endpoint sh endpoint)) ;
  _ ⇐ registered endpoint ;
  act_of (Ok endpoint).

Definition join_payload_check (payload : list byte) : Act unit := λ sh,
  Done (if decide (len payload > nc_max_body_len (sh_config sh) `min` (60 * 1024)) then
          fail ErrorCode.MessageTooLarge "join payload exceeds the configured handshake limit"
        else Ok tt, sh).

(** [NetworkRuntime::open_endpoint]. *)
Definition open_endpoint (config : EndpointConfig) : Act Handle :=
  _ ⇐ (λ sh, Done (if running sh then Ok tt
                   else fail ErrorCode.InvalidState "runtime is not accepting endpoints", sh)) ;
  _ ⇐ match ec_security config with
      | AdaptiveClient payload => join_payload_check payload
      | AdaptiveServer _ _ => act_of (Ok tt)
      end ;
  _ ⇐ (λ sh, Done (match ec_security config with
                   | AdaptiveServer _ SecurityMode.Plaintext =>
                     if sp_allow_plaintext_business_data (nc_security_policy (sh_config sh)) then Ok tt
                     else fail ErrorCode.NotSupported "plaintext business data is disabled by security policy"
                   | _ => Ok tt
                   end, sh)) ;
  match ec_transport config, ec_security config with
  | Transport.Tcp, AdaptiveServer _ _ => open_adaptive_tcp_listener config
  | Transport.Tcp, AdaptiveClient _ =>
    λ sh, open_adaptive_tcp_client_with_timeout config (nc_connect_timeout (sh_config sh)) sh
  | _, _ => open_adaptive_datagram_candidates config
  end.
Definition listen (config : ServerConfig) : Act Handle := open_endpoint (server_endpoint config).
Definition connect (config : ClientConfig) : Act Handle := open_endpoint (client_endpoint config).

(** ** Several addresses

    [elapsed i] is the time since the start when the [i]-th address is about to be tried. *)
Fixpoint connect_tcp_candidates (addresses : list SocketAddr) (payload : list byte) (elapsed : nat → Duration)
    (total_timeout : Duration) (last_error : option RnetError) : Act Handle :=
  match addresses with
  | [] => act_of (Err (default (mkRnetError ErrorCode.IoError "all resolved addresses failed") last_error))
  | remote :: addresses => λ sh,
    let remaining := saturating_sub total_timeout (elapsed O) in
    if decide (remaining = 0) then
      Done (fail ErrorCode.Timeout "TCP multi-address connection deadline expired", sh)
    else
      let attempt_timeout := remaining `min` nc_connect_timeout (sh_config sh) in
      '(r, sh) ← open_adaptive_tcp_client_with_timeout
                   (client_endpoint (mkClientConfig Transport.Tcp None remote payload)) attempt_timeout sh;
      match r with
      | Ok endpoint => Done (Ok endpoint, sh)
      | Err e => connect_tcp_candidates addresses payload (λ i, elapsed (S i)) total_timeout (Some e) sh
      end
  end.

Definition connect_resolved (transport : Transport.t) (remote_addrs : list SocketAddr) (payload : list byte)
    (elapsed : nat → Duration) : Act Handle :=
  _ ⇐ join_payload_check payload ;
  first ⇐ act_of (ok_or (head remote_addrs)
    (mkRnetError ErrorCode.InvalidArgument "at least one remote address is required")) ;
  if decide (transport = Transport.Tcp) then
    λ sh, connect_tcp_candidates remote_addrs payload elapsed (nc_connect_timeout (sh_config sh)) None sh
  else
    open_adaptive_datagram_candidates
      (client_endpoint (mkClientConfig transport (Some (unspecified_for first)) first payload)).

(** [resolve] is the answer of [resolve_host]. *)
Definition connect_host (transport : Transport.t) (host : list byte) (port : Z) (payload : list byte)
    (resolve : Result (list SocketAddr)) (elapsed : nat → Duration) : Act Handle :=
  _ ⇐ act_of (if decide (host = [] ∨ port = 0) then
                fail ErrorCode.InvalidArgument "client host and port must be set" else Ok tt) ;
  _ ⇐ join_payload_check payload ;
  addresses ⇐ act_of resolve ;
  if decide (transport ≠ Transport.Tcp) then
    match addresses with
    | [] => λ _, Panic
    | first :: _ =>
      open_adaptive_datagram_candidates
        (client_endpoint (mkClientConfig transport (Some (unspecified_for first)) first payload))
    end
  else
    λ sh, connect_tcp_candidates addresses payload elapsed
            (saturating_add Heartbeat.DURATION_MAX (nc_dns_timeout (sh_config sh)) (nc_connect_timeout (sh_config sh)))
            None sh.
End opening.

(** ** Resolution *)

Definition MAX_CONCURRENT_RESOLVERS : Z := 64.
Definition MAX_ADDRESS_CANDIDATES : nat := 32.

(** The stable sort by address family. *)
Definition ipv4_first (addresses : list SocketAddr) : list SocketAddr :=
  filter (λ a, sa_v6 a = false) addresses ++ filter (λ a, sa_v6 a = true) addresses.
(** [Vec::dedup]: of a run of equal elements, the first. *)
Fixpoint dedup (l : list SocketAddr) : list SocketAddr :=
  match l with
  | [] => []
  | a :: rest =>
    match dedup rest with
    | b :: rest => if decide (a = b) then a :: rest else a :: b :: rest
    | [] => [a]
    end
  end.
Definition normalize_candidates (addresses : list SocketAddr) : list SocketAddr :=
  take MAX_ADDRESS_CANDIDATES (dedup (ipv4_first addresses)).

(** [ResolverPermit]: [active] is the process-wide count. *)
Definition permit_acquire (active : Z) : Result Z :=
  if decide (active < MAX_CONCURRENT_RESOLVERS) then Ok (active + 1)
  else fail ErrorCode.WouldBlock "DNS resolver concurrency limit reached".
Definition permit_drop (active : Z) : Z := wrapping_sub 64 active 1.

Inductive Lookup := Answer (r : Result (list SocketAddr)) | LookupTimeout | Disconnected.
(** [resolve_host] with what the resolver thread delivers within the timeout. *)
Definition resolve_host (active : Z) (spawn : Result unit) (lookup : Lookup) : Result (list SocketAddr) * Z :=
  match permit_acquire active with
  | Err e => (Err e, active)
  | Ok active =>
    match spawn with
    | Err e => (Err e, permit_drop active)
    | Ok _ =>
      (match lookup with
       | LookupTimeout => fail ErrorCode.Timeout "DNS resolution timed out"
       | Disconnected => fail ErrorCode.IoError "DNS resolver stopped unexpectedly"
       | Answer (Err e) => Err (mkRnetError ErrorCode.IoError (message e))
       | Answer (Ok addresses) =>
         match normalize_candidates addresses with
         | [] => fail ErrorCode.IoError "host name did not resolve to an IP address"
         | addresses => Ok addresses
         end
       end, active)
    end
  end.

(** ** Opening is a transaction *)

Record registry_ok (sh : Shared) : Prop := {
  ro_endpoints : table_wf (sh_endpoints sh);
  ro_sessions : table_wf (sh_sessions sh);
  ro_endpoint_room : has_room (sh_endpoints sh);
  ro_session_room : has_room (sh_sessions sh);
  ro_pending : 0 ≤ nm_pending_handshakes (sh_metrics sh);
  ro_limit : nc_max_pending_handshakes (sh_config sh) ≤ usize_max
}.

(** Nothing of the call is left behind. *)
Record unchanged (sh sh' : Shared) : Prop := {
  un_endpoints : table_map (sh_endpoints sh') = table_map (sh_endpoints sh);
  un_sessions : table_map (sh_sessions sh') = table_map (sh_sessions sh);
  un_pending : nm_pending_handshakes (sh_metrics sh') = nm_pending_handshakes (sh_metrics sh);
  un_events : sh_events sh' = sh_events sh;
  un_published : sh_published sh' = sh_published sh;
  un_config : sh_config sh' = sh_config sh;
  un_state : sh_state sh' = sh_state sh
}.
#[export] Instance unchanged_preorder : PreOrder unchanged.
Proof. split; [done|]. intros x y z [] []. split; congruence. Qed.

(** A registered endpoint [h], and for a client the session that joins through it. *)
Record opened_as (transport : Transport.t) (client : bool) (sh sh' : Shared) (h : Handle) : Prop := {
  oa_endpoint : table_map (sh_endpoints sh) !! h = None ∧
    ∃ local, table_map (sh_endpoints sh') = <[h := mkEndpointRecord local transport true]> (table_map (sh_endpoints sh));
  oa_events : ∃ at_, sh_events sh' =
    push_back (sh_events sh) (event_simple EventType.EndpointOpened at_ <| ev_endpoint := h |>) at_;
  oa_sessions : if client then
      ∃ session target budget, table_map (sh_sessions sh) !! session = None ∧
        table_map (sh_sessions sh') =
          <[session := mkSessionRoute h target false false false true budget]> (table_map (sh_sessions sh)) ∧
        nm_pending_handshakes (sh_metrics sh') = nm_pending_handshakes (sh_metrics sh) + 1 ∧
        nm_pending_handshakes (sh_metrics sh') ≤ nc_max_pending_handshakes (sh_config sh)
    else table_map (sh_sessions sh') = table_map (sh_sessions sh) ∧
         nm_pending_handshakes (sh_metrics sh') = nm_pending_handshakes (sh_metrics sh)
}.

Definition transactional (transport : Transport.t) (client : bool) (sh : Shared) (o : outcome (Result Handle * Shared)) : Prop :=
  ∃ r sh', o = Done (r, sh') ∧
    match r with
    | Ok h => opened_as transport client sh sh' h
    | Err _ => unchanged sh sh' ∧ registry_ok sh'
    end.

Lemma transactional_err transport client sh e : registry_ok sh → transactional transport client sh (Done (Err e, sh)).
Proof. intros ?. eexists _, _. split; [done|]. split; done. Qed.
Lemma transactional_of {A} transport client sh (r : Result A) k :
  registry_ok sh → (∀ a, r = Ok a → transactional transport client sh (k a sh)) →
  transactional transport client sh (act_bind (act_of r) k sh).
Proof. intros Hok Hk. unfold act_bind, act_of. cbn. destruct r; [by apply Hk|by apply transactional_err]. Qed.

Lemma remove_has_room {T} (t t' : HandleTable T) h v :
  table_remove t h = Some (v, t') → has_room t'.
Proof.
  unfold table_remove. destruct (decode_handle h) as [[i g]|]; [|done]. cbn. destruct (slots t !! i) as [s|]; [|done]. cbn.
  case_decide; [|done]. destruct (value s); [|done]. cbn. intros [= <- <-]. left. cbn. by destruct (free t).
Qed.

(** Taking out what was just put in. *)
Lemma insert_remove {T} (t t1 : HandleTable T) h v :
  table_wf t → table_map t !! h = None → table_wf t1 → table_map t1 = <[h := v]> (table_map t) →
  ∃ t2, table_remove t1 h = Some (v, t2) ∧ table_wf t2 ∧ table_map t2 = table_map t ∧ has_room t2.
Proof.
  intros Hwf Hnone Hwf1 Hm. destruct (table_remove t1 h) as [[v' t2]|] eqn:Hrm.
  - destruct (table_remove_spec _ _ _ _ Hwf1 Hrm) as (Hwf2 & Hget & Hm2). rewrite Hm, lookup_insert_eq in Hget. injection Hget as <-.
    exists t2. split_and!; [done|done| |by eapply remove_has_room]. by rewrite Hm2, Hm, delete_insert_id.
  - apply table_remove_None in Hrm. rewrite table_get_map, Hm, lookup_insert_eq in Hrm by done. done.
Qed.

Lemma insert_endpoint_spec sh local transport :
  registry_ok sh →
  (∃ e m, insert_endpoint sh local transport = Done (Err e, sh <| sh_metrics := m |>) ∧
     nm_pending_handshakes m = nm_pending_handshakes (sh_metrics sh)) ∨
  (∃ h t, insert_endpoint sh local transport = Done (Ok h, sh <| sh_endpoints := t |>) ∧ table_wf t ∧
     table_map (sh_endpoints sh) !! h = None ∧
     table_map t = <[h := mkEndpointRecord local transport false]> (table_map (sh_endpoints sh))).
Proof.
  intros Hok. unfold insert_endpoint. case_decide; [left; eexists _, _; by split|]. right.
  destruct (table_insert_spec (sh_endpoints sh) (mkEndpointRecord local transport false)) as (h & t & -> & Hwf & Hnone & Hm);
    [apply Hok..|]. cbn. exists h, t. done.
Qed.

Lemma insert_pending_session_spec sh endpoint target auth games budget :
  table_wf (sh_sessions sh) → has_room (sh_sessions sh) → 0 ≤ nm_pending_handshakes (sh_metrics sh) →
  nc_max_pending_handshakes (sh_config sh) ≤ usize_max →
  (∃ e m, insert_pending_session sh endpoint target auth games budget = Done (Err e, sh <| sh_metrics := m |>) ∧
     nm_pending_handshakes m = nm_pending_handshakes (sh_metrics sh)) ∨
  (∃ s t m, insert_pending_session sh endpoint target auth games budget =
       Done (Ok s, sh <| sh_metrics := m |> <| sh_sessions := t |>) ∧ table_wf t ∧
     table_map (sh_sessions sh) !! s = None ∧
     table_map t = <[s := mkSessionRoute endpoint target false auth false games budget]> (table_map (sh_sessions sh)) ∧
     nm_pending_handshakes m = nm_pending_handshakes (sh_metrics sh) + 1 ∧
     nm_pending_handshakes m ≤ nc_max_pending_handshakes (sh_config sh)).
Proof.
  intros Hs Hrs Hp Hl. unfold insert_pending_session, insert_session_route. cbn [sr_established].
  destruct (try_reserve_pending_handshake _ _) as [m|] eqn:Hr; [|left; eexists _, _; by split]. right.
  unfold try_reserve_pending_handshake in Hr. case_decide; [|done]. injection Hr as <-.
  match goal with |- context [table_insert ?t ?v] => destruct (table_insert_spec t v) as (h & t' & -> & Hwf & Hnone & Hm) end;
    [done..|].
  assert (fetch_add 1 (nm_pending_handshakes (sh_metrics sh)) = nm_pending_handshakes (sh_metrics sh) + 1) as Hf
    by (unfold fetch_add, wrapping_add; rewrite Z.mod_small by zlia; done).
  cbn. eexists _, _, _. split_and!; [done|done|done|done| |]; cbn; rewrite Hf; lia.
Qed.

Section transactions.
Context (os : Sockets) (credentials : bool) (channel budget : Z) (now : Instant).

(** The part every client connection has, and every listener. *)
Definition register_client (local : SocketAddr) (transport : Transport.t) (queue : Handle → Act unit) (target : NetConfig → SessionTarget) :
    Act Handle :=
  endpoint ⇐ (λ sh, insert_endpoint sh local transport) ;
  _ ⇐ queue endpoint ;
  session ⇐ on_error (λ sh, pending_session budget endpoint (target (sh_config sh)) sh)
    (λ sh, Done (discard_endpoint sh endpoint)) ;
  _ ⇐ on_error (opened now endpoint) (λ sh, sh ← discard_session sh session; Done (discard_endpoint sh endpoint)) ;
  _ ⇐ registered endpoint ;
  act_of (Ok endpoint).
Definition register_server (local : SocketAddr) (transport : Transport.t) (queue : Handle → Act unit) : Act Handle :=
  endpoint ⇐ (λ sh, insert_endpoint sh local transport) ;
  _ ⇐ queue endpoint ;
  _ ⇐ on_error (opened now endpoint) (λ sh, Done (discard_endpoint sh endpoint)) ;
  _ ⇐ registered endpoint ;
  act_of (Ok endpoint).

Lemma discard_endpoint_spec sh t0 h v :
  table_wf t0 → table_map t0 !! h = None → table_wf (sh_endpoints sh) →
  table_map (sh_endpoints sh) = <[h := v]> (table_map t0) →
  ∃ t, discard_endpoint sh h = sh <| sh_endpoints := t |> ∧ table_wf t ∧ has_room t ∧ table_map t = table_map t0.
Proof.
  intros ? ? ? Hm. destruct (insert_remove t0 (sh_endpoints sh) h v) as (t & E & ? & ? & ?); [done..|].
  exists t. unfold discard_endpoint. rewrite E. done.
Qed.

Lemma registered_spec sh t0 h v :
  table_wf (sh_endpoints sh) → table_map (sh_endpoints sh) = <[h := v]> (table_map t0) →
  ∃ t, registered h sh = Done (Ok tt, sh <| sh_endpoints := t |>) ∧
    table_map t = <[h := mkEndpointRecord (er_local_addr v) (er_transport v) true]> (table_map t0).
Proof.
  intros Hwf Hm. unfold registered, set_endpoint_abort.
  destruct (table_get_mut_spec (sh_endpoints sh) h (λ r, mkEndpointRecord (er_local_addr r) (er_transport r) true) v)
    as (t & -> & _ & Hm'); [done| |].
  { by rewrite table_get_map, Hm, lookup_insert_eq. }
  exists t. split; [done|]. by rewrite Hm', Hm, insert_insert_eq.
Qed.

Definition stores_only (queue : Handle → Act unit) : Prop :=
  ∀ h sh, ∃ st cl, queue h sh = Done (Ok tt, sh <| sh_store := st |> <| sh_cleanups := cl |>).
Lemma make_channels_stores : stores_only (make_channels channel).
Proof. intros h sh. by eexists _, _. Qed.
Lemma make_queue_stores : stores_only (λ _, make_queue channel).
Proof.
  intros h sh. exists (sh_store sh <| st_channels ::= <[channel := mkChannel (nc_write_queue_capacity (sh_config sh)) [] false]> |>), (sh_cleanups sh).
  by destruct sh.
Qed.
Lemma ret_stores : stores_only (λ _, act_of (Ok tt)).
Proof. intros h sh. exists (sh_store sh), (sh_cleanups sh). by destruct sh. Qed.

Lemma register_server_spec sh local transport queue :
  stores_only queue → registry_ok sh → transactional transport false sh (register_server local transport queue sh).
Proof.
  intros Hq Hok. pose proof Hok as [He Hs Hre Hrs Hp Hl].
  unfold register_server, act_bind, on_error, act_of.
  destruct (insert_endpoint_spec sh local transport Hok) as [(e & m & -> & Hpm)|(h & t & -> & Hwf & Hnone & Hm)]; cbn [mbind outcome_bind].
  { eexists _, _. split; [done|]. split; split; cbn; rewrite ?Hpm; done. }
  destruct (Hq h (sh <| sh_endpoints := t |>)) as (st & cl & ->). cbn [mbind outcome_bind].
  unfold opened, push_endpoint_opened, try_push. cbn [sh_events update].
  set (sh1 := sh <| sh_endpoints := t |> <| sh_store := st |> <| sh_cleanups := cl |>).
  destruct (is_full _ _) eqn:Hfull; cbn [mbind outcome_bind].
  - match goal with |- context [discard_endpoint ?s _] => change s with sh1 end.
    destruct (discard_endpoint_spec sh1 (sh_endpoints sh) h (mkEndpointRecord local transport false))
      as (t' & -> & Hwf' & Hroom' & Hm'); [done..|].
    eexists _, _. split; [done|]. by split; split.
  - match goal with |- context [registered _ ?s] =>
      destruct (registered_spec s (sh_endpoints sh) h (mkEndpointRecord local transport false)) as (t' & -> & Hm') end; [done..|].
    cbn [mbind outcome_bind]. eexists _, _. split; [done|]. split; cbn; [eauto| |done]. exists now. done.
Qed.

Lemma discard_session_spec sh t0 s route :
  table_wf t0 → table_map t0 !! s = None → table_wf (sh_sessions sh) →
  table_map (sh_sessions sh) = <[s := route]> (table_map t0) → sr_established route = false →
  0 < nm_pending_handshakes (sh_metrics sh) →
  ∃ t st m, discard_session sh s = Done (sh <| sh_sessions := t |> <| sh_store := st |> <| sh_metrics := m |>) ∧
    table_wf t ∧ has_room t ∧ table_map t = table_map t0 ∧
    nm_pending_handshakes m = nm_pending_handshakes (sh_metrics sh) - 1.
Proof.
  intros ? ? ? Hm Hr Hp. destruct (insert_remove t0 (sh_sessions sh) s route) as (t & E & ? & ? & ?); [done..|].
  unfold discard_session. rewrite E. unfold release_pending_session. rewrite Hr. unfold release_pending_handshake.
  rewrite decide_True by (cbn; lia). cbn [mbind outcome_bind]. eexists t, _, _. split; [reflexivity|]. done.
Qed.

Lemma register_client_spec sh local transport queue target :
  stores_only queue → registry_ok sh → transactional transport true sh (register_client local transport queue target sh).
Proof.
  intros Hq Hok. pose proof Hok as [He Hs Hre Hrs Hp Hl].
  unfold register_client, act_bind, on_error, act_of.
  destruct (insert_endpoint_spec sh local transport Hok) as [(e & m & -> & Hpm)|(h & t & -> & Hwf & Hnone & Hm)]; cbn [mbind outcome_bind].
  { eexists _, _. split; [done|]. split; split; cbn; rewrite ?Hpm; done. }
  destruct (Hq h (sh <| sh_endpoints := t |>)) as (st & cl & ->). cbn [mbind outcome_bind].
  unfold pending_session, act_bind, make_budget. cbn [mbind outcome_bind].
  match goal with |- context [insert_pending_session ?s _ ?g _ _ _] =>
    set (sh1 := s); change g with (target (sh_config sh)) end.
  destruct (insert_pending_session_spec sh1 h (target (sh_config sh)) false true budget)
    as [(e & m & -> & Hpm)|(s & ts & m & -> & Hwfs & Hnones & Hms & Hpm & Hlm)]; [done..| |]; cbn [mbind outcome_bind].
  { match goal with |- context [discard_endpoint ?s _] =>
      destruct (discard_endpoint_spec s (sh_endpoints sh) h (mkEndpointRecord local transport false))
        as (t' & -> & Hwf' & Hroom' & Hm') end; [done..|].
    eexists _, _. split; [done|]. split; split; try done; cbn; rewrite Hpm; done. }
  unfold opened, push_endpoint_opened, try_push. cbn [sh_events update].
  match goal with |- context [is_full ?q ?e] => destruct (is_full q e) eqn:Hfull end; cbn [mbind outcome_bind].
  - match goal with |- context [discard_session ?x _] =>
      destruct (discard_session_spec x (sh_sessions sh) s (mkSessionRoute h (target (sh_config sh)) false false false true budget))
        as (t2 & st2 & m2 & -> & Hwf2 & Hroom2 & Hm2 & Hp2) end; [try done..|].
    { cbn. rewrite Hpm. change (nm_pending_handshakes (sh_metrics sh1)) with (nm_pending_handshakes (sh_metrics sh)). lia. }
    cbn [mbind outcome_bind].
    match goal with |- context [discard_endpoint ?s _] =>
      destruct (discard_endpoint_spec s (sh_endpoints sh) h (mkEndpointRecord local transport false))
        as (t' & -> & Hwf' & Hroom' & Hm') end; [done..|].
    assert (nm_pending_handshakes m2 = nm_pending_handshakes (sh_metrics sh)) as Hm2p.
    { rewrite Hp2. cbn. rewrite Hpm. change (nm_pending_handshakes (sh_metrics sh1)) with (nm_pending_handshakes (sh_metrics sh)). lia. }
    eexists _, _. split; [done|]. split; split; try done; cbn; rewrite Hm2p; done.
  - match goal with |- context [registered _ ?s] =>
      destruct (registered_spec s (sh_endpoints sh) h (mkEndpointRecord local transport false)) as (t' & -> & Hm') end; [done..|].
    cbn [mbind outcome_bind]. eexists _, _. split; [done|]. split; cbn; [eauto|by exists now|]. eauto 9.
Qed.

Lemma act_bind_assoc {A B C} (m : Act A) (f : A → Act B) (g : B → Act C) sh :
  act_bind (act_bind m f) g sh = act_bind m (λ a, act_bind (f a) g) sh.
Proof. unfold act_bind. destruct (m sh) as [[[a|e] sh']|]; done. Qed.
Lemma act_bind_ext {A B} (m : Act A) (f g : A → Act B) sh :
  (∀ a sh', f a sh' = g a sh') → act_bind m f sh = act_bind m g sh.
Proof. intros Hfg. unfold act_bind. destruct (m sh) as [[[a|e] sh']|]; cbn; by rewrite ?Hfg. Qed.

Lemma open_datagram_client_spec sh config payload peer :
  ec_security config = AdaptiveClient payload → ec_remote_addr config = Some peer → registry_ok sh →
  transactional (ec_transport config) true sh (open_adaptive_datagram_candidates os channel budget now config sh).
Proof.
  intros Hsec Hrem Hok. unfold open_adaptive_datagram_candidates. rewrite Hsec, Hrem.
  apply transactional_of; [done|]. intros bind_addr _. apply transactional_of; [done|]. intros local _.
  erewrite act_bind_ext; [exact (register_client_spec sh local (ec_transport config) (make_channels channel)
    (λ c, datagram_target channel (ec_transport config) peer (nc_max_datagram_size c)) make_channels_stores Hok)|].
  intros endpoint sh1. apply act_bind_ext. intros [] sh2. rewrite act_bind_assoc.
  unfold act_bind at 1, act_of. cbn [ok_or mbind outcome_bind]. rewrite act_bind_assoc. apply act_bind_ext. done.
Qed.
Lemma open_datagram_server_spec sh config key mode :
  ec_security config = AdaptiveServer key mode → registry_ok sh →
  transactional (ec_transport config) false sh (open_adaptive_datagram_candidates os channel budget now config sh).
Proof.
  intros Hsec Hok. unfold open_adaptive_datagram_candidates. rewrite Hsec.
  apply transactional_of; [done|]. intros bind_addr _. apply transactional_of; [done|]. intros local _.
  exact (register_server_spec sh local (ec_transport config) (make_channels channel) make_channels_stores Hok).
Qed.
Lemma open_tcp_listener_spec sh config :
  registry_ok sh → transactional (ec_transport config) false sh (open_adaptive_tcp_listener os now config sh).
Proof.
  intros Hok. unfold open_adaptive_tcp_listener.
  apply transactional_of; [done|]. intros bind_addr _. apply transactional_of; [done|]. intros local _.
  exact (register_server_spec sh local (ec_transport config) (λ _, act_of (Ok tt)) ret_stores Hok).
Qed.
Lemma open_tcp_client_spec sh config timeout :
  registry_ok sh →
  transactional (ec_transport config) true sh (open_adaptive_tcp_client_with_timeout os credentials channel budget now config timeout sh).
Proof.
  intros Hok. unfold open_adaptive_tcp_client_with_timeout.
  do 4 (apply transactional_of; [done|]; intros ? _).
  exact (register_client_spec sh _ (ec_transport config) (λ _, make_queue channel) (λ _, ToTcp channel) make_queue_stores Hok).
Qed.
End transactions.

(** ** Results *)

Section calls.
Context (os : Sockets) (credentials : bool) (channel budget : Z) (now : Instant).

Lemma transactional_check transport client sh (r : Shared → Result unit) k :
  registry_ok sh → transactional transport client sh (k tt sh) →
  transactional transport client sh (act_bind (λ sh, Done (r sh, sh)) k sh).
Proof. intros Hok Hk. unfold act_bind. cbn. destruct (r sh) as [[]|]; [done|by apply transactional_err]. Qed.

Lemma listen_transactional sh config :
  registry_ok sh → transactional (sc_transport config) false sh (listen os credentials channel budget now config sh).
Proof.
  intros Hok. unfold listen, open_endpoint. do 3 (apply transactional_check; [done|]).
  change (sc_transport config) with (ec_transport (server_endpoint config)).
  assert (ec_security (server_endpoint config) = AdaptiveServer (sc_local_key config) (sc_initial_security config)) as Hsec by done.
  generalize dependent (server_endpoint config). intros c Hsec. rewrite Hsec.
  destruct (ec_transport c) eqn:E; rewrite <- E.
  - by apply open_tcp_listener_spec.
  - by eapply open_datagram_server_spec.
  - by eapply open_datagram_server_spec.
Qed.
Lemma connect_transactional sh config :
  registry_ok sh → transactional (cc_transport config) true sh (connect os credentials channel budget now config sh).
Proof.
  intros Hok. unfold connect, open_endpoint. do 3 (apply transactional_check; [done|]).
  change (cc_transport config) with (ec_transport (client_endpoint config)).
  assert (ec_security (client_endpoint config) = AdaptiveClient (cc_join_payload config)) as Hsec by done.
  assert (ec_remote_addr (client_endpoint config) = Some (cc_remote_addr config)) as Hrem by done.
  generalize dependent (client_endpoint config). intros c Hsec Hrem. rewrite Hsec.
  destruct (ec_transport c) eqn:E; rewrite <- E.
  - by apply open_tcp_client_spec.
  - by eapply open_datagram_client_spec.
  - by eapply open_datagram_client_spec.
Qed.

Lemma opened_as_unchanged transport client sh sh1 sh2 h :
  unchanged sh sh1 → opened_as transport client sh1 sh2 h → opened_as transport client sh sh2 h.
Proof.
  intros [E1 E2 E3 E4 E5 E6 E7] [H1 H2 H3]. rewrite E1 in H1. rewrite E4 in H2. rewrite E2, E3, E6 in H3. by split.
Qed.
Lemma connect_tcp_candidates_transactional payload total addresses : ∀ sh elapsed last,
  registry_ok sh →
  transactional Transport.Tcp true sh
    (connect_tcp_candidates os credentials channel budget now addresses payload elapsed total last sh).
Proof.
  induction addresses as [|remote addresses IH]; intros sh elapsed last Hok; [by apply transactional_err|].
  cbn [connect_tcp_candidates]. case_decide; [by apply transactional_err|].
  match goal with |- context [open_adaptive_tcp_client_with_timeout _ _ _ _ _ ?c ?t sh] =>
    destruct (open_tcp_client_spec os credentials channel budget now sh c t Hok) as (r & sh1 & -> & Hr) end.
  cbn [mbind outcome_bind]. destruct r as [h|e]; [eexists _, _; split; done|]. destruct Hr as [Hun Hok1].
  destruct (IH sh1 (λ i, elapsed (S i)) (Some e) Hok1) as (r & sh2 & -> & Hr). eexists _, _. split; [done|].
  destruct r; [by eapply opened_as_unchanged|]. destruct Hr as [Hun2 Hok2]. split; [|done]. by etrans.
Qed.

Lemma datagram_candidate_transactional transport first payload sh :
  registry_ok sh →
  transactional transport true sh (open_adaptive_datagram_candidates os channel budget now
    (client_endpoint (mkClientConfig transport (Some (unspecified_for first)) first payload)) sh).
Proof. intros Hok. exact (open_datagram_client_spec os channel budget now sh (client_endpoint _) _ _ eq_refl eq_refl Hok). Qed.

Lemma connect_resolved_transactional sh transport addrs payload elapsed :
  registry_ok sh →
  transactional transport true sh (connect_resolved os credentials channel budget now transport addrs payload elapsed sh).
Proof.
  intros Hok. unfold connect_resolved. apply transactional_check; [done|]. apply transactional_of; [done|]. intros first _.
  destruct (decide (transport = Transport.Tcp)) as [->|]; [by apply connect_tcp_candidates_transactional|].
  by apply datagram_candidate_transactional.
Qed.
Lemma connect_host_transactional sh transport host port payload resolve elapsed :
  resolve ≠ Ok [] → registry_ok sh →
  transactional transport true sh (connect_host os credentials channel budget now transport host port payload resolve elapsed sh).
Proof.
  intros Hne Hok. unfold connect_host. apply transactional_of; [done|]. intros _ _. apply transactional_check; [done|].
  apply transactional_of; [done|]. intros addresses ->. destruct (decide (transport ≠ Transport.Tcp)) as [|Htcp].
  - destruct addresses as [|first rest]; [done|]. by apply datagram_candidate_transactional.
  - destruct (decide (transport = Transport.Tcp)) as [->|]; [|tauto]. by apply connect_tcp_candidates_transactional.
Qed.
End calls.

Lemma resolve_host_not_empty active spawn lookup : (resolve_host active spawn lookup).1 ≠ Ok [].
Proof.
  unfold resolve_host. destruct (permit_acquire active); [|done]. destruct spawn; [|done].
  destruct lookup as [[addresses|]| |]; cbn [fst]; try done. by destruct (normalize_candidates addresses).
Qed.

(** C34: [listen], [connect], [connect_resolved] and [connect_host] are transactions.  Whatever the
    sockets, the resolver, the limits and the event queue answer, the call returns without a panic.
    When it returns an error, both tables, the pending-handshake counter and the event queue are as
    before: no endpoint or session is left behind.  When it returns an endpoint, exactly that
    endpoint was added, with its task registered, one [EndpointOpened] was queued, and for a
    client exactly one joining session was added, within the pending-handshake limit. *)
Theorem opening_is_transactional os credentials channel budget now sh :
  registry_ok sh →
  (∀ config, transactional (sc_transport config) false sh (listen os credentials channel budget now config sh)) ∧
  (∀ config, transactional (cc_transport config) true sh (connect os credentials channel budget now config sh)) ∧
  (∀ transport addresses payload elapsed,
     transactional transport true sh (connect_resolved os credentials channel budget now transport addresses payload elapsed sh)) ∧
  (∀ transport host port payload active spawn lookup elapsed,
     transactional transport true sh
       (connect_host os credentials channel budget now transport host port payload
          (resolve_host active spawn lookup).1 elapsed sh)).
Proof.
  intros Hok. split_and!; intros.
  - by apply listen_transactional.
  - by apply connect_transactional.
  - by apply connect_resolved_transactional.
  - apply connect_host_transactional; [apply resolve_host_not_empty|done].
Qed.

(** A runtime is created exactly when its configuration passes validation and its workers
    start.  It is then running, with empty tables, the whole pending-handshake budget free and
    [RuntimeStarted] as the only event, so that the registry theorems apply to it. *)
Theorem runtime_starts config build now :
  config_typed config →
  (validate_config config now ≠ Ok tt ∨ build ≠ Ok tt → ∃ e, new_runtime config build now = Err e) ∧
  (validate_config config now = Ok tt → build = Ok tt →
   ∃ sh, new_runtime config build now = Ok sh ∧ running sh = true ∧ just_started sh ∧ registry_ok sh ∧
     queue (sh_events sh) = [event_simple EventType.RuntimeStarted now]).
Proof.
  intros Ht. split.
  - intros Hbad. unfold new_runtime. destruct (validate_config config now) as [[]|e]; [|by eexists].
    destruct Hbad as [|Hbad]; [done|]. cbn [mbind result_bind]. unfold new_with_limits. case_decide; [by eexists|].
    cbn [mbind result_bind]. destruct build as [[]|e]; [done|by eexists].
  - intros Hv ->. destruct (validate_config_limits config now Ht Hv) as (Hc & Hb & _ & _ & _ & _ & Hp & _).
    unfold new_runtime. rewrite Hv. cbn [mbind result_bind]. unfold new_with_limits. rewrite decide_False by lia.
    cbn [mbind result_bind]. eexists. split; [reflexivity|].
    assert (is_full (mkEventQueue (nc_event_queue_capacity config) (nc_max_event_bytes config) 0 [])
              (event_simple EventType.RuntimeStarted now) = false) as Hfull.
    { unfold is_full, bytes_exhausted, data_len, checked_add. cbn [queue capacity queued_bytes data event_simple byte_capacity].
      unfold len; cbn [length]. rewrite decide_True by (unfold usize_max, u64_max; lia). cbn [is_none_or].
      apply orb_false_iff. split; apply bool_decide_eq_false; lia. }
    unfold try_push. rewrite Hfull. split_and!; [done| | |done].
    + split; try done. cbn. lia.
    + split; try done; cbn; try apply table_new_wf; [right; unfold len; cbn; zlia|right; unfold len; cbn; zlia|lia].
Qed.

(** ** A stopped runtime *)

Module EndpointsDemo.
Definition config : NetConfig := net_config_default (Ok 8).
Definition local : SocketAddr := mkSocketAddr false 0 40000.
Definition server : SocketAddr := mkSocketAddr false 2130706433 9000.
(** An operating system on which every call succeeds. *)
Definition os : Sockets := mkSockets (λ _, Ok local) Ok (λ _ _ _, Ok local) (Ok tt).
Definition started : Shared :=
  match new_runtime config (Ok tt) 0 with
  | Ok sh => sh
  | Err _ => mkShared config 0 (mkEventQueue 0 0 0 []) table_new table_new metrics_default
               (mkStore ∅ ∅ ∅ ∅ OutboundDemo.counters 0) 0 false ∅ ∅ ∅ [] []
  end.
Definition stopped : Shared :=
  match stop_end (stop_begin started 0 0).2 0 with Done (_, sh) => sh | Panic => started end.

Lemma typed : config_typed config.
Proof.
  split; [| |cbn; zlia|]; (repeat (apply Forall_cons; split; [unfold config, net_config_default, secs; cbn; zlia|])); apply Forall_nil_2.
Qed.
Lemma started_ok : registry_ok started.
Proof. split; try (left; done) || (right; vm_compute; reflexivity); try apply table_new_wf; vm_compute; done. Qed.
End EndpointsDemo.

(** [connect] refuses to open an endpoint on a runtime that was stopped, and so does [listen].
    [connect_resolved] does not look at the lifecycle: on the same stopped runtime it registers a
    new endpoint and a joining session and returns it as a success. *)
Theorem stopped_runtime_connects :
  let sh := EndpointsDemo.stopped in
  let call := connect_resolved EndpointsDemo.os true 1 1 5 Transport.Udp [EndpointsDemo.server] [] (λ _, 0) sh in
  runtime_state_load (sh_state sh) = Lifecycle.Stopped ∧
  connect EndpointsDemo.os true 1 1 5 (mkClientConfig Transport.Udp None EndpointsDemo.server []) sh =
    Done (fail ErrorCode.InvalidState "runtime is not accepting endpoints", sh) ∧
  ∃ h sh' session, call = Done (Ok h, sh') ∧ runtime_state_load (sh_state sh') = Lifecycle.Stopped ∧
    is_Some (table_get (sh_endpoints sh') h) ∧ sr_endpoint <$> table_get (sh_sessions sh') session = Some h.
Proof.
  cbv zeta. split; [vm_compute; reflexivity|]. split; [vm_compute; reflexivity|].
  exists (encode_handle 0 1). eexists. exists (encode_handle 0 1). split; [vm_compute; reflexivity|].
  split; [vm_compute; reflexivity|]. split; [vm_compute; eauto|vm_compute; reflexivity].
Qed.

Lemma opening_is_transactional_witness :
  registry_ok EndpointsDemo.started ∧
  transactional Transport.Tcp false EndpointsDemo.started
    (listen EndpointsDemo.os false 1 1 5 (mkServerConfig Transport.Tcp EndpointsDemo.server [] SecurityMode.Plaintext) EndpointsDemo.started).
Proof.
  split; [exact EndpointsDemo.started_ok|].
  destruct (opening_is_transactional EndpointsDemo.os false 1 1 5 EndpointsDemo.started EndpointsDemo.started_ok) as (H & _).
  exact (H (mkServerConfig Transport.Tcp EndpointsDemo.server [] SecurityMode.Plaintext)).
Defined.

Lemma runtime_starts_witness : ∃ sh, new_runtime EndpointsDemo.config (Ok tt) 0 = Ok sh ∧ running sh = true.
Proof.
  destruct (runtime_starts EndpointsDemo.config (Ok tt) 0 EndpointsDemo.typed) as (_ & H).
  destruct H as (sh & E & R & _); [vm_compute; reflexivity|reflexivity|]. exists sh. by split.
Defined.
