(* ===== verification/Admission.v ===== *)
(** * Admission per source address: rnet-transport [admission.rs]

    A listener limits the sessions and the rate of handshakes of one IPv4 address or IPv6
    prefix.  The token counts are binary64 numbers, with the operations of the standard
    library's [SpecFloat]. *)

From Stdlib Require Import SpecFloat.
From S2P Require Import Prelude Bytes CoreTypes.

(** ** Binary64 *)

Definition f64 : Type := spec_float.
(** [f64::from] of a [u32], and [as f64] of a [u64]. *)
Definition f64_of_Z (z : Z) : f64 := binary_normalize 53 1024 z 0 false.
Definition f64_add : f64 → f64 → f64 := SFadd 53 1024.
Definition f64_sub : f64 → f64 → f64 := SFsub 53 1024.
Definition f64_mul : f64 → f64 → f64 := SFmul 53 1024.
Definition f64_div : f64 → f64 → f64 := SFdiv 53 1024.
Definition f64_lt (a b : f64) : bool := SFltb a b.
(** [f64::min] ignores a NaN. *)
Definition f64_min (a b : f64) : f64 :=
  match a, b with
  | S754_nan, _ => b
  | _, S754_nan => a
  | _, _ => if f64_lt b a then b else a
  end.
(** [Duration::as_secs_f64]; a duration is a number of nanoseconds. *)
Definition as_secs_f64 (d : Duration) : f64 :=
  f64_add (f64_of_Z (d / 1000000000)) (f64_div (f64_of_Z (d mod 1000000000)) (f64_of_Z 1000000000)).

#[global] Arguments f64_of_Z : simpl never.
#[global] Arguments f64_add : simpl never.
#[global] Arguments f64_sub : simpl never.
#[global] Arguments f64_mul : simpl never.
#[global] Arguments f64_min : simpl never.
#[global] Arguments f64_lt : simpl never.
#[global] Arguments as_secs_f64 : simpl never.

(** ** Keys *)

Inductive IpAddr := IpV4 (bits : Z) | IpV6 (bits : Z).
Inductive IpKey := KeyV4 (octets : list byte) | KeyV6 (octets : list byte).
#[export] Instance IpKey_eq_dec : EqDecision IpKey.
Proof. solve_decision. Defined.
#[export] Program Instance IpKey_countable : Countable IpKey :=
  inj_countable (λ k, match k with KeyV4 l => (false, l) | KeyV6 l => (true, l) end)
    (λ p : bool * list byte, let '(v6, l) := p in Some (if v6 then KeyV6 l else KeyV4 l)) _.
Next Obligation. by intros []. Qed.

(** [u8::MAX << n] for [0 < n < 8]. *)
Definition shl_u8_max (n : Z) : Z := Z.land (Z.shiftl u8_max n) u8_max.

Definition mask_octets (octets : list byte) (ipv6_prefix_bits : Z) : list byte :=
  let prefix := ipv6_prefix_bits `min` 128 in
  let whole := Z.to_nat (prefix / 8) in
  let remainder := prefix mod 8 in
  let octets :=
    if decide (remainder ≠ 0 ∧ (whole < length octets)%nat) then
      <[whole := of_u8 (Z.land (byte_at whole octets) (shl_u8_max (8 - remainder)))]> octets
    else octets in
  let clear_from := (whole + (if decide (remainder = 0%Z) then 0 else 1))%nat in
  take clear_from octets ++ replicate (length octets - clear_from) (of_u8 0).

Definition ip_key (ip : IpAddr) (ipv6_prefix_bits : Z) : IpKey :=
  match ip with
  | IpV4 bits => KeyV4 (be_encode 4 bits)
  | IpV6 bits => KeyV6 (mask_octets (be_encode 16 bits) ipv6_prefix_bits)
  end.

(** ** The table *)

Record Entry := mkEntry {
  en_active : Z;
  en_tokens : f64;
  en_updated_at : Instant
}.

Record AdmissionController := mkAdmissionController {
  ad_entries : gmap IpKey Entry;
  ad_max_active : Z;
  ad_refill_per_second : Z;
  ad_burst : Z;
  ad_max_entries : Z;
  ad_ipv6_prefix_bits : Z
}.
#[export] Instance AdmissionController_eta : Eta AdmissionController := λ c,
  mkAdmissionController (ad_entries c) (ad_max_active c) (ad_refill_per_second c) (ad_burst c) (ad_max_entries c)
    (ad_ipv6_prefix_bits c).

Definition admission_new (max_active refill_per_second burst max_entries ipv6_prefix_bits : Z) : AdmissionController :=
  mkAdmissionController ∅ max_active refill_per_second burst max_entries ipv6_prefix_bits.

Inductive AdmissionReject := RejectActive | RejectRate | RejectTable.

Definition entries_len (m : gmap IpKey Entry) : Z := Z.of_nat (size m).

(** [entries.retain(..)]. *)
Definition kept (burst : Z) (e : Entry) : bool :=
  bool_decide (en_active e ≠ 0) || f64_lt (en_tokens e) (f64_of_Z burst).
Definition retain (c : AdmissionController) : gmap IpKey Entry :=
  filter (λ ke, kept (ad_burst c) ke.2 = true) (ad_entries c).

Definition refilled (c : AdmissionController) (e : Entry) (now : Instant) : Entry :=
  let elapsed := as_secs_f64 (saturating_sub now (en_updated_at e)) in
  mkEntry (en_active e)
    (f64_min (f64_add (en_tokens e) (f64_mul elapsed (f64_of_Z (ad_refill_per_second c)))) (f64_of_Z (ad_burst c)))
    now.

(** The key of the permit is the value of a success. *)
Definition try_acquire_at (c : AdmissionController) (ip : IpAddr) (now : Instant) :
    result AdmissionReject IpKey * AdmissionController :=
  let key := ip_key ip (ad_ipv6_prefix_bits c) in
  let crowded := bool_decide (ad_entries c !! key = None) && bool_decide (ad_max_entries c ≤ entries_len (ad_entries c)) in
  let entries := if crowded then retain c else ad_entries c in
  if crowded && bool_decide (ad_max_entries c ≤ entries_len entries) then (Err RejectTable, c <| ad_entries := entries |>)
  else
    let entry := refilled c (default (mkEntry 0 (f64_of_Z (ad_burst c)) now) (entries !! key)) now in
    if decide (ad_max_active c ≤ en_active entry) then (Err RejectActive, c <| ad_entries := <[key := entry]> entries |>)
    else if f64_lt (en_tokens entry) (f64_of_Z 1) then (Err RejectRate, c <| ad_entries := <[key := entry]> entries |>)
    else
      let entry := mkEntry (en_active entry + 1) (f64_sub (en_tokens entry) (f64_of_Z 1)) (en_updated_at entry) in
      (Ok key, c <| ad_entries := <[key := entry]> entries |>).

(** Dropping a permit of [key]. *)
Definition permit_release (c : AdmissionController) (key : IpKey) : AdmissionController :=
  c <| ad_entries ::= alter (λ e, mkEntry (saturating_sub (en_active e) 1) (en_tokens e) (en_updated_at e)) key |>.

(** ** The permits that are out *)

Inductive admission_step : AdmissionController * list IpKey → AdmissionController * list IpKey → Prop :=
| as_acquire c permits ip now key c' :
    try_acquire_at c ip now = (Ok key, c') → admission_step (c, permits) (c', key :: permits)
| as_refuse c permits ip now e c' :
    try_acquire_at c ip now = (Err e, c') → admission_step (c, permits) (c', permits)
| as_release c permits key rest :
    permits ≡ₚ key :: rest → admission_step (c, permits) (permit_release c key, rest).

Definition held (key : IpKey) (permits : list IpKey) : Z := sumZ (λ k, if decide (k = key) then 1 else 0) permits.
Definition active_of (c : AdmissionController) (key : IpKey) : Z := from_option en_active 0 (ad_entries c !! key).

Record admission_inv (c : AdmissionController) (permits : list IpKey) : Prop := {
  ai_active : ∀ key, active_of c key = held key permits;
  ai_limit : ∀ key, active_of c key ≤ ad_max_active c;
  ai_size : entries_len (ad_entries c) ≤ ad_max_entries c
}.

Lemma held_nonneg key permits : 0 ≤ held key permits.
Proof. apply sumZ_nonneg. intros k. case_decide; lia. Qed.

Lemma retain_size c : entries_len (retain c) ≤ entries_len (ad_entries c).
Proof.
  unfold entries_len, retain. apply inj_le. rewrite <- !size_dom. apply subseteq_size, dom_filter_subseteq.
Qed.
Lemma retain_active c key :
  from_option en_active 0 (retain c !! key) = from_option en_active 0 (ad_entries c !! key).
Proof.
  unfold retain. destruct (ad_entries c !! key) as [e|] eqn:He.
  - destruct (kept (ad_burst c) e) eqn:Hk.
    + rewrite (map_lookup_filter_Some_2 _ _ _ _ He) by done. done.
    + rewrite map_lookup_filter_None_2; [|right; intros ? [= <-]%(eq_trans (eq_sym He)); cbn; by rewrite Hk].
      unfold kept in Hk. apply orb_false_iff in Hk as [Hk _]. apply bool_decide_eq_false in Hk. cbn.
      destruct (decide (en_active e = 0)); [done|tauto].
  - rewrite map_lookup_filter_None_2 by (by left). done.
Qed.

Lemma insert_entries_len (m : gmap IpKey Entry) key e limit :
  entries_len m ≤ limit → (m !! key = None → entries_len m < limit) → entries_len (<[key := e]> m) ≤ limit.
Proof.
  intros Hle Hnew. unfold entries_len in *. destruct (m !! key) as [e'|] eqn:He.
  - rewrite map_size_insert_Some by eauto. done.
  - rewrite map_size_insert_None by done. specialize (Hnew eq_refl). lia.
Qed.

(** The table after an attempt, its key's entry apart. *)
Lemma try_acquire_table c ip now :
  let '(r, c') := try_acquire_at c ip now in
  let key := ip_key ip (ad_ipv6_prefix_bits c) in
  ad_max_active c' = ad_max_active c ∧ ad_max_entries c' = ad_max_entries c ∧
  (entries_len (ad_entries c) ≤ ad_max_entries c → entries_len (ad_entries c') ≤ ad_max_entries c') ∧
  (∀ k, k ≠ key → active_of c' k = active_of c k) ∧
  match r with
  | Ok k => k = key ∧ active_of c' key = active_of c key + 1 ∧ active_of c key < ad_max_active c
  | Err _ => active_of c' key = active_of c key
  end.
Proof.
  unfold try_acquire_at. set (key := ip_key _ _).
  set (crowded := bool_decide _ && bool_decide (_ ≤ entries_len (ad_entries c))).
  set (entries := if crowded then retain c else ad_entries c).
  assert (∀ k, from_option en_active 0 (entries !! k) = active_of c k) as Hact.
  { intros k. unfold entries. destruct crowded; [apply retain_active|done]. }
  assert (entries_len (ad_entries c) ≤ ad_max_entries c → entries_len entries ≤ ad_max_entries c) as Hsize.
  { intros. pose proof (retain_size c). unfold entries. destruct crowded; lia. }
  destruct (crowded && bool_decide (ad_max_entries c ≤ entries_len entries)) eqn:Hfull.
  { split_and!; cbn; try done; intros; apply Hact. }
  assert (entries_len (ad_entries c) ≤ ad_max_entries c → ∀ e, entries_len (<[key := e]> entries) ≤ ad_max_entries c) as Hins.
  { intros Hle e. apply insert_entries_len; [by apply Hsize|]. intros Hnone. unfold entries in *.
    destruct crowded eqn:Hc.
    - cbn in Hfull. apply bool_decide_eq_false in Hfull. lia.
    - unfold crowded in Hc. rewrite Hnone, bool_decide_eq_true_2 in Hc by done. cbn in Hc. apply bool_decide_eq_false in Hc. lia. }
  set (entry := refilled _ _ _).
  assert (en_active entry = active_of c key) as Hen.
  { rewrite <- (Hact key). unfold entry, refilled. cbn. by destruct (entries !! key). }
  assert (∀ e k, k ≠ key → active_of (c <| ad_entries := <[key := e]> entries |>) k = active_of c k) as Hother.
  { intros e k Hk. unfold active_of at 1. cbn. rewrite lookup_insert_ne by done. apply Hact. }
  assert (∀ e, active_of (c <| ad_entries := <[key := e]> entries |>) key = en_active e) as Hkey.
  { intros e. unfold active_of. cbn. by rewrite lookup_insert_eq. }
  clearbody entry. destruct (decide (ad_max_active c ≤ en_active entry)); [|destruct (f64_lt _ _)]; cbv beta iota zeta; fold key;
    split_and!; try done; try (intros; by apply Hins); try (intros; by apply Hother);
    rewrite ?Hkey; cbn [en_active]; lia.
Qed.

Lemma admission_step_inv s s' : admission_step s s' → admission_inv s.1 s.2 → admission_inv s'.1 s'.2.
Proof.
  destruct 1 as [c permits ip now key c' E|c permits ip now e c' E|c permits key rest Hp]; intros [Ha Hl Hs]; cbn in *.
  - pose proof (try_acquire_table c ip now) as T. rewrite E in T. destruct T as (Hm & Hx & Hsz & Hoth & -> & Hk & Hlt).
    split; [| |by auto].
    + intros k. unfold held. rewrite sumZ_cons. fold (held k permits). rewrite <- Ha.
      destruct (decide (_ = k)) as [<-|]; [lia|]. by rewrite Hoth.
    + intros k. rewrite Hm. destruct (decide (k = ip_key ip (ad_ipv6_prefix_bits c))) as [->|]; [lia|]. by rewrite Hoth.
  - pose proof (try_acquire_table c ip now) as T. rewrite E in T. destruct T as (Hm & Hx & Hsz & Hoth & Hk).
    assert (∀ k, active_of c' k = active_of c k) as Hsame.
    { intros k. destruct (decide (k = ip_key ip (ad_ipv6_prefix_bits c))) as [->|]; auto. }
    split; [intros; rewrite Hsame; by auto|intros; rewrite Hsame, Hm; by auto|by auto].
  - assert (∀ k, active_of (permit_release c key) k = held k rest) as Hrel.
    { intros k. specialize (Ha k). unfold held in Ha. rewrite Hp, sumZ_cons in Ha. fold (held k rest) in Ha.
      pose proof (held_nonneg k rest). unfold active_of, permit_release in *. cbn.
      destruct (decide (key = k)) as [->|].
      - rewrite lookup_alter_eq. destruct (ad_entries c !! k); cbn in *; zlia.
      - rewrite lookup_alter_ne by done. lia. }
    split; [done| |].
    + intros k. rewrite Hrel. specialize (Hl k). rewrite Ha in Hl. unfold held in Hl. rewrite Hp, sumZ_cons in Hl.
      fold (held k rest) in Hl. cbn. case_decide; lia.
    + unfold entries_len in *. cbn. rewrite <- size_dom, dom_alter_L, size_dom. done.
Qed.

Definition admission_reachable (c0 : AdmissionController) (c : AdmissionController) (permits : list IpKey) : Prop :=
  rtc admission_step (c0, []) (c, permits).

Lemma admission_reachable_inv max_active rate burst max_entries bits c permits :
  0 ≤ max_active → 0 ≤ max_entries →
  admission_reachable (admission_new max_active rate burst max_entries bits) c permits →
  admission_inv c permits ∧ ad_max_active c = max_active ∧ ad_max_entries c = max_entries.
Proof.
  intros Ha He Hrun. unfold admission_reachable in Hrun.
  change (admission_inv (c, permits).1 (c, permits).2 ∧ ad_max_active (c, permits).1 = max_active ∧ ad_max_entries (c, permits).1 = max_entries).
  remember (admission_new _ _ _ _ _, []) as s0 eqn:Hs0.
  assert (admission_inv s0.1 s0.2 ∧ ad_max_active s0.1 = max_active ∧ ad_max_entries s0.1 = max_entries) as Hstart.
  { subst. done. }
  clear Hs0. induction Hrun as [|s1 s2 s3 Hstep _ IH]; [done|]. apply IH. destruct Hstart as (I & <- & <-).
  split; [by eapply admission_step_inv|].
  destruct Hstep as [c' p ip now key c'' E|c' p ip now e c'' E|]; cbn; try done;
    pose proof (try_acquire_table c' ip now) as T; rewrite E in T; by destruct T as (? & ? & _).
Qed.

(** C35: Per source address, the admission table counts exactly the permits that are out, over
    any history of attempts and releases, evictions of the table included.  A source therefore
    never holds more permits than its limit, the table never outgrows its size, and a source
    below its limit is never refused as active. *)
Theorem admission_exact max_active rate burst max_entries bits c permits key :
  0 ≤ max_active → 0 ≤ max_entries →
  admission_reachable (admission_new max_active rate burst max_entries bits) c permits →
  active_of c key = held key permits ∧ held key permits ≤ max_active ∧ entries_len (ad_entries c) ≤ max_entries ∧
  (∀ ip now, held (ip_key ip (ad_ipv6_prefix_bits c)) permits < max_active →
     (try_acquire_at c ip now).1 ≠ Err RejectActive).
Proof.
  intros Ha He Hrun. destruct (admission_reachable_inv _ _ _ _ _ _ _ Ha He Hrun) as ([Hact Hl Hs] & <- & <-).
  split_and!; [done|rewrite <- Hact; apply Hl|done|].
  intros ip now Hlt. unfold try_acquire_at.
  match goal with |- context [if ?b then (Err RejectTable, _) else _] => destruct b; [done|] end.
  match goal with |- context [decide (_ ≤ en_active ?e)] => assert (en_active e = active_of c (ip_key ip (ad_ipv6_prefix_bits c))) as -> end.
  { unfold refilled. cbn. set (key' := ip_key _ _). transitivity (from_option en_active 0 (ad_entries c !! key')); [|done].
    destruct (_ && _); [rewrite <- retain_active; by destruct (retain c !! key')|by destruct (ad_entries c !! key')]. }
  rewrite decide_False by (rewrite Hact; lia). by destruct (f64_lt _ _).
Qed.

(** ** Eviction *)

(** An entry is refilled only by an attempt of its own source.  Once the table is full of
    sources that each spent a token, an attempt from any other source is refused, at any later
    time and with every permit returned, and leaves the table as it is: unless one of those
    sources comes back, the listener admits nobody else any more. *)
Theorem admission_table_never_drains c ip now :
  ad_entries c !! ip_key ip (ad_ipv6_prefix_bits c) = None →
  ad_max_entries c ≤ entries_len (ad_entries c) →
  (∀ key e, ad_entries c !! key = Some e → f64_lt (en_tokens e) (f64_of_Z (ad_burst c)) = true) →
  try_acquire_at c ip now = (Err RejectTable, c).
Proof.
  intros Hnew Hfull Hspent. unfold try_acquire_at.
  rewrite (bool_decide_eq_true_2 (_ = None)), (bool_decide_eq_true_2 (_ ≤ _)) by done. cbn.
  assert (retain c = ad_entries c) as ->.
  { unfold retain. apply map_filter_id. intros key e Hk. unfold kept. cbn. rewrite (Hspent _ _ Hk). apply orb_true_r. }
  rewrite bool_decide_eq_true_2 by done. by destruct c.
Qed.

(** ** Prefixes *)

Lemma land_shl_u8_max o r :
  0 ≤ o ≤ u8_max → 0 < r < 8 → Z.land o (shl_u8_max (8 - r)) = o / 2 ^ (8 - r) * 2 ^ (8 - r).
Proof.
  intros Ho Hr. unfold shl_u8_max. change u8_max with (Z.ones 8). rewrite (Z.land_comm (Z.shiftl _ _)), Z.land_assoc.
  rewrite (Z.land_ones o) by lia. rewrite (Z.mod_small o) by (unfold u8_max in *; lia).
  rewrite <- Z.shiftr_div_pow2, <- Z.shiftl_mul_pow2 by lia.
  apply Z.bits_inj'. intros i Hi. rewrite Z.land_spec. destruct (decide (i < 8 - r)).
  - rewrite !Z.shiftl_spec_low by lia. apply andb_false_r.
  - rewrite !Z.shiftl_spec_high by lia. rewrite Z.shiftr_spec by lia. replace (i - (8 - r) + (8 - r)) with i by lia.
    destruct (decide (i < 8)).
    + rewrite Z.ones_spec_low by lia. apply andb_true_r.
    + by rewrite (testbit_above o 8) by (unfold u8_max in *; lia).
Qed.
(** Clearing the low [n] bits of the octet above the [k] cleared ones. *)
Lemma masked_value A o C k n :
  0 ≤ k → 0 ≤ n ≤ 8 → 0 ≤ C < 2 ^ k →
  (A * 2 ^ (8 * 1) + o / 2 ^ n * 2 ^ n) * 2 ^ k + 0 =
  (A * 2 ^ (k + 8) + (o * 2 ^ k + C)) / 2 ^ (k + n) * 2 ^ (k + n).
Proof.
  intros Hk Hn HC. pose proof (Z.pow_pos_nonneg 2 k ltac:(lia) Hk). pose proof (Z.pow_pos_nonneg 2 n ltac:(lia) ltac:(lia)).
  rewrite (Z.pow_add_r 2 k n), (Z.pow_add_r 2 k 8) by lia. rewrite <- Z.div_div by lia.
  replace (A * (2 ^ k * 2 ^ 8) + (o * 2 ^ k + C)) with ((A * 2 ^ 8 + o) * 2 ^ k + C) by lia.
  rewrite Z.div_add_l, (Z.div_small C) by lia. rewrite !Z.add_0_r.
  assert (2 ^ 8 = 2 ^ (8 - n) * 2 ^ n) as E by (rewrite <- Z.pow_add_r by lia; f_equal; lia).
  change (8 * 1) with 8. rewrite E. replace (A * (2 ^ (8 - n) * 2 ^ n) + o) with ((A * 2 ^ (8 - n)) * 2 ^ n + o) by lia.
  rewrite Z.div_add_l by lia. lia.
Qed.
Lemma mask_octets_value l bits :
  length l = 16%nat → 0 ≤ bits →
  length (mask_octets l bits) = 16%nat ∧
  be_decode (mask_octets l bits) = be_decode l / 2 ^ (128 - bits `min` 128) * 2 ^ (128 - bits `min` 128).
Proof.
  intros Hl Hb. unfold mask_octets. set (p := bits `min` 128). assert (0 ≤ p ≤ 128) as Hp by lia. clearbody p. clear Hb.
  pose proof (Z.div_mod p 8 ltac:(lia)) as Hdm. pose proof (Z.mod_pos_bound p 8 ltac:(lia)) as Hr.
  set (w := p / 8) in *. set (r := p mod 8) in *. assert (0 ≤ w ≤ 16) as Hw by lia. clearbody w r.
  destruct (decide (r = 0)) as [->|Hr0].
  - rewrite decide_False by (intros [[] _]; done). rewrite Nat.add_0_r, Hl. split.
    { rewrite length_app, length_take, length_replicate. lia. }
    rewrite be_decode_app, be_decode_zeros. rewrite <- (take_drop (Z.to_nat w) l) at 2. rewrite be_decode_app.
    assert (len (drop (Z.to_nat w) l) = 16 - w) as Hd by (unfold len; rewrite length_drop; lia).
    assert (len (replicate (16 - Z.to_nat w) (of_u8 0)) = 16 - w) as Hz by (unfold len; rewrite length_replicate; lia).
    pose proof (be_decode_range (drop (Z.to_nat w) l)) as Hc. fold (len (drop (Z.to_nat w) l)) in Hc. rewrite Hd in *.
    rewrite Hz. replace (128 - p) with (8 * (16 - w)) by lia.
    rewrite Z.div_add_l, (Z.div_small (be_decode (drop _ _))) by lia. lia.
  - rewrite decide_True by (split; [done|lia]).
    destruct (lookup_lt_is_Some_2 l (Z.to_nat w)) as [o Ho]; [lia|].
    assert (byte_at (Z.to_nat w) l = to_u8 o) as -> by (unfold byte_at; by rewrite (list_lookup_total_correct _ _ _ Ho)).
    pose proof (to_u8_range o) as Hor. rewrite land_shl_u8_max by (done || lia).
    pose proof (take_drop_middle _ _ _ Ho) as Hsplit. set (a := take _ l) in *. set (c := drop _ l) in *.
    assert (length a = Z.to_nat w) as Ha by (unfold a; rewrite length_take; lia).
    assert (len c = 15 - w) as Hc by (unfold c, len; rewrite length_drop; lia). clearbody a c.
    clear Ho. subst l. rewrite insert_app_r_alt, Ha, Nat.sub_diag by lia. cbn [insert list_insert]. set (m := to_u8 o / 2 ^ (8 - r) * 2 ^ (8 - r)).
    assert (0 ≤ m ≤ u8_max) as Hm.
    { unfold m. pose proof (Z.mul_div_le (to_u8 o) (2 ^ (8 - r)) ltac:(apply Z.pow_pos_nonneg; lia)).
      pose proof (Z.div_pos (to_u8 o) (2 ^ (8 - r)) ltac:(zlia) ltac:(apply Z.pow_pos_nonneg; lia)). zlia. }
    assert (length (a ++ of_u8 m :: c) = 16%nat) as Hl' by (rewrite length_app in Hl |- *; exact Hl).
    rewrite Hl'. rewrite length_app in Hl. cbn [length] in Hl.
    rewrite take_app_ge, Ha by lia. replace (Z.to_nat w + 1 - Z.to_nat w)%nat with 1%nat by lia.
    replace (take 1 (of_u8 m :: c)) with [of_u8 m] by done. split.
    { rewrite !length_app, length_replicate. cbn. lia. }
    rewrite be_decode_app, be_decode_zeros, be_decode_app, be_decode_single, to_of_u8 by done.
    rewrite (be_decode_app a (o :: c)). change (o :: c) with ([o] ++ c). rewrite be_decode_app, be_decode_single, len_app, Hc.
    change (len [of_u8 m]) with 1. change (len [o]) with 1.
    assert (len (replicate (16 - (Z.to_nat w + 1)) (of_u8 0)) = 15 - w) as -> by (unfold len; rewrite length_replicate; lia).
    pose proof (be_decode_range c) as Hcr. fold (len c) in Hcr. rewrite Hc in Hcr.
    replace (128 - p) with (8 * (15 - w) + (8 - r)) by lia. replace (8 * (1 + (15 - w))) with (8 * (15 - w) + 8) by lia.
    apply masked_value; lia || zlia.
Qed.

(** Two IPv6 sources share an admission entry exactly when they agree on their first
    [ipv6_admission_prefix_bits] bits, whatever that number; IPv4 sources share one only when
    they are the same address, and never with an IPv6 source. *)
Theorem ip_key_prefix bits a b :
  0 ≤ bits → 0 ≤ a < 2 ^ 128 → 0 ≤ b < 2 ^ 128 →
  (ip_key (IpV6 a) bits = ip_key (IpV6 b) bits ↔
     a / 2 ^ (128 - bits `min` 128) = b / 2 ^ (128 - bits `min` 128)) ∧
  (a < 2 ^ 32 → b < 2 ^ 32 → ip_key (IpV4 a) bits = ip_key (IpV4 b) bits ↔ a = b) ∧
  ip_key (IpV4 a) bits ≠ ip_key (IpV6 b) bits.
Proof.
  intros Hbits Ha Hb. split_and!; [| |done].
  - cbn [ip_key]. destruct (mask_octets_value (be_encode 16 a) bits) as [La Va]; [apply length_be_encode|done|].
    destruct (mask_octets_value (be_encode 16 b) bits) as [Lb Vb]; [apply length_be_encode|done|].
    rewrite !be_decode_encode in Va, Vb by lia.
    pose proof (Z.pow_pos_nonneg 2 (128 - bits `min` 128) ltac:(lia) ltac:(lia)). split.
    + intros [= E]. rewrite E, Vb in Va. by apply Z.mul_cancel_r in Va; [symmetry|lia].
    + intros E. f_equal. rewrite <- (be_encode_decode 16 _ La), <- (be_encode_decode 16 _ Lb). congruence.
  - intros Ha4 Hb4. split; [|by intros ->]. intros HE.
    assert (be_encode 4 a = be_encode 4 b) as E by (unfold ip_key in HE; revert HE; generalize (be_encode 4 a) (be_encode 4 b); by intros ?? [=]).
    rewrite <- (be_decode_encode 4 a), <- (be_decode_encode 4 b) by lia. by rewrite E.
Qed.

Module AdmissionDemo.
(** Two places in the table, and two sources that came and left. *)
Definition table : AdmissionController := admission_new 4 100 200 2 64.
Definition once (c : AdmissionController) (ip : IpAddr) : AdmissionController :=
  match try_acquire_at c ip 0 with (Ok key, c) => permit_release c key | (Err _, c) => c end.
Definition spent : AdmissionController := once (once table (IpV4 1)) (IpV4 2).

Lemma all_spent c :
  forallb (λ ke, f64_lt (en_tokens ke.2) (f64_of_Z (ad_burst c))) (map_to_list (ad_entries c)) = true →
  ∀ key e, ad_entries c !! key = Some e → f64_lt (en_tokens e) (f64_of_Z (ad_burst c)) = true.
Proof.
  intros Hall key e He. rewrite forallb_forall in Hall. apply (Hall (key, e)), list_elem_of_In, elem_of_map_to_list, He.
Qed.
Lemma taken : admission_reachable table (try_acquire_at table (IpV4 1) 0).2 [KeyV4 (be_encode 4 1)].
Proof. apply rtc_once. eapply (as_acquire _ _ (IpV4 1) 0). vm_compute. reflexivity. Qed.
End AdmissionDemo.

(** A century later a third source is still refused. *)
Lemma admission_table_never_drains_witness :
  try_acquire_at AdmissionDemo.spent (IpV4 3) (100 * 365 * 86400 * 1000000000) = (Err RejectTable, AdmissionDemo.spent).
Proof.
  apply (admission_table_never_drains AdmissionDemo.spent (IpV4 3)); [vm_compute; reflexivity|vm_compute; done|].
  apply AdmissionDemo.all_spent. vm_compute. reflexivity.
Defined.

Lemma admission_exact_witness :
  active_of (try_acquire_at AdmissionDemo.table (IpV4 1) 0).2 (KeyV4 (be_encode 4 1)) = 1.
Proof.
  destruct (admission_exact 4 100 200 2 64 _ _ (KeyV4 (be_encode 4 1)) ltac:(lia) ltac:(lia) AdmissionDemo.taken) as (H & _).
  rewrite H. vm_compute. reflexivity.
Defined.

(** A [/64] prefix: the lower half of the address does not matter. *)
Lemma ip_key_prefix_witness :
  ip_key (IpV6 (42540766411282592856903984951653826561)) 64 = ip_key (IpV6 (42540766411282592856903984951653826562)) 64.
Proof.
  apply (ip_key_prefix 64 42540766411282592856903984951653826561 42540766411282592856903984951653826562); [lia..|].
  vm_compute. reflexivity.
Defined.
