(* ===== verification/Kcp.v ===== *)
(** * The KCP engine: vendor/rnet-kcp [kcp.rs]

    An automatic-repeat-request protocol over datagrams: messages are cut into numbered
    segments, which are retransmitted until acknowledged and put back in order by the
    receiver.  Sequence numbers and clocks are 32 bits wide and wrap around.

    The output is the packet queue of rnet-transport's [KcpPacketOutput], on which writing
    always succeeds.  The engine is built without the features [fastack-conserve] and [tokio]. *)

From S2P Require Import Prelude Bytes CoreTypes.

Module Kcp.

Definition KCP_RTO_NDL : Z := 30.
Definition KCP_RTO_MIN : Z := 100.
Definition KCP_RTO_DEF : Z := 200.
Definition KCP_RTO_MAX : Z := 60000.
Definition KCP_CMD_PUSH : Z := 81.
Definition KCP_CMD_ACK : Z := 82.
Definition KCP_CMD_WASK : Z := 83.
Definition KCP_CMD_WINS : Z := 84.
Definition KCP_ASK_SEND : Z := 1.
Definition KCP_ASK_TELL : Z := 2.
Definition KCP_WND_SND : Z := 32.
Definition KCP_WND_RCV : Z := 128.
Definition KCP_MTU_DEF : Z := 1400.
Definition KCP_INTERVAL : Z := 100.
Definition KCP_OVERHEAD : Z := 24.
Definition KCP_DEADLINK : Z := 20.
Definition KCP_THRESH_INIT : Z := 2.
Definition KCP_THRESH_MIN : Z := 2.
Definition KCP_PROBE_INIT : Z := 7000.
Definition KCP_PROBE_LIMIT : Z := 120000.
Definition KCP_FASTACK_LIMIT : Z := 5.

(** [a.wrapping_add(b)] on [u32], and [timediff]: the difference as an [i32]. *)
Definition wadd (a b : Z) : Z := wrapping_add 32 a b.
Definition timediff (later earlier : Z) : Z :=
  let d := wrapping_sub 32 later earlier in if decide (d < 2 ^ 31) then d else d - 2 ^ 32.
Definition bound (lower v upper : Z) : Z := (lower `max` v) `min` upper.
Definition div_ceil (a b : Z) : Z := (a + b - 1) / b.
Definition saturating_mul (max a b : Z) : Z := (a * b) `min` max.

Inductive Error :=
| ConvInconsistent (expected found : Z)
| InvalidMtu (mtu : Z)
| InvalidSegmentSize (size : Z)
| InvalidSegmentDataSize (expected found : Z)
| IoError
| NeedUpdate
| RecvQueueEmpty
| ExpectingFragment
| UnsupportedCmd (cmd : Z)
| UserBufTooBig
| UserBufTooSmall.
Definition KcpResult (A : Type) : Type := result Error A.

Record Segment := mkSegment {
  s_conv : Z;
  s_cmd : Z;
  s_frg : Z;
  s_wnd : Z;
  s_ts : Z;
  s_sn : Z;
  s_una : Z;
  s_resendts : Z;
  s_rto : Z;
  s_fastack : Z;
  s_xmit : Z;
  s_data : list byte
}.
#[export] Instance Segment_eta : Eta Segment := λ s,
  mkSegment (s_conv s) (s_cmd s) (s_frg s) (s_wnd s) (s_ts s) (s_sn s) (s_una s) (s_resendts s) (s_rto s)
    (s_fastack s) (s_xmit s) (s_data s).

Definition new_with_data (data : list byte) : Segment := mkSegment 0 0 0 0 0 0 0 0 0 0 0 data.
(** [put_u8], [put_u16_le] and [put_u32_le] in order. *)
Definition encode (s : Segment) : list byte :=
  le_encode 4 (s_conv s) ++ le_encode 1 (s_cmd s) ++ le_encode 1 (s_frg s) ++ le_encode 2 (s_wnd s) ++
  le_encode 4 (s_ts s) ++ le_encode 4 (s_sn s) ++ le_encode 4 (s_una s) ++ le_encode 4 (len (s_data s)) ++ s_data s.
Definition encoded_len (s : Segment) : Z := KCP_OVERHEAD + len (s_data s).

Record Kcp := mkKcp {
  conv : Z;
  mtu : Z;
  mss : Z;
  state : Z;
  snd_una : Z;
  snd_nxt : Z;
  rcv_nxt : Z;
  ssthresh : Z;
  rx_rttval : Z;
  rx_srtt : Z;
  rx_rto : Z;
  rx_minrto : Z;
  snd_wnd : Z;
  rcv_wnd : Z;
  rmt_wnd : Z;
  cwnd : Z;
  probe : Z;
  current : Z;
  interval : Z;
  ts_flush : Z;
  xmit : Z;
  nodelay : bool;
  updated : bool;
  ts_probe : Z;
  probe_wait : Z;
  dead_link : Z;
  incr : Z;
  snd_queue : list Segment;
  rcv_queue : list Segment;
  snd_buf : list Segment;
  rcv_buf : list Segment;
  acklist : list (Z * Z);
  buf : list byte;
  fastresend : Z;
  fastlimit : Z;
  nocwnd : bool;
  stream : bool;
  input_conv : bool;
  output : list (list byte)
}.
#[export] Instance Kcp_eta : Eta Kcp := λ k,
  mkKcp (conv k) (mtu k) (mss k) (state k) (snd_una k) (snd_nxt k) (rcv_nxt k) (ssthresh k) (rx_rttval k) (rx_srtt k)
    (rx_rto k) (rx_minrto k) (snd_wnd k) (rcv_wnd k) (rmt_wnd k) (cwnd k) (probe k) (current k) (interval k) (ts_flush k)
    (xmit k) (nodelay k) (updated k) (ts_probe k) (probe_wait k) (dead_link k) (incr k) (snd_queue k) (rcv_queue k)
    (snd_buf k) (rcv_buf k) (acklist k) (buf k) (fastresend k) (fastlimit k) (nocwnd k) (stream k) (input_conv k) (output k).

Definition construct (conv : Z) (stream : bool) : Kcp :=
  mkKcp conv KCP_MTU_DEF (KCP_MTU_DEF - KCP_OVERHEAD) 0 0 0 0 KCP_THRESH_INIT 0 0 KCP_RTO_DEF KCP_RTO_MIN
    KCP_WND_SND KCP_WND_RCV KCP_WND_RCV 0 0 0 KCP_INTERVAL KCP_INTERVAL 0 false false 0 0 KCP_DEADLINK 0
    [] [] [] [] [] [] 0 KCP_FASTACK_LIMIT false stream false [].
Definition new (conv : Z) : Kcp := construct conv false.
Definition new_stream (conv : Z) : Kcp := construct conv true.

(** ** Receiving *)

Fixpoint move_loop (rcv_buf rcv_queue : list Segment) (rcv_nxt rcv_wnd : Z) : list Segment * list Segment * Z :=
  match rcv_buf with
  | [] => ([], rcv_queue, rcv_nxt)
  | seg :: rest =>
    if decide (s_sn seg = rcv_nxt ∧ len rcv_queue < rcv_wnd) then
      move_loop rest (rcv_queue ++ [seg]) (wadd rcv_nxt 1) rcv_wnd
    else (rcv_buf, rcv_queue, rcv_nxt)
  end.
Definition move_buf (k : Kcp) : Kcp :=
  let '(b, q, n) := move_loop (rcv_buf k) (rcv_queue k) (rcv_nxt k) (rcv_wnd k) in
  k <| rcv_buf := b |> <| rcv_queue := q |> <| rcv_nxt := n |>.

(** The length of the segments up to the first with [frg = 0]. *)
Fixpoint message_len (queue : list Segment) : Z :=
  match queue with
  | [] => 0
  | seg :: rest => len (s_data seg) + if decide (s_frg seg = 0) then 0 else message_len rest
  end.
Definition peeksize (k : Kcp) : KcpResult Z :=
  match rcv_queue k with
  | [] => Err RecvQueueEmpty
  | seg :: _ =>
    if decide (s_frg seg = 0) then Ok (len (s_data seg))
    else if decide (len (rcv_queue k) < s_frg seg + 1) then Err ExpectingFragment
    else Ok (message_len (rcv_queue k))
  end.

(** The loop that merges fragments into a buffer with [room] bytes left. *)
Fixpoint merge (queue : list Segment) (room : Z) : KcpResult (list byte) * list Segment :=
  match queue with
  | [] => (Ok [], [])
  | seg :: rest =>
    if decide (room < len (s_data seg)) then (Err IoError, rest)
    else if decide (s_frg seg = 0) then (Ok (s_data seg), rest)
    else
      match merge rest (room - len (s_data seg)) with
      | (Ok data, rest) => (Ok (s_data seg ++ data), rest)
      | r => r
      end
  end.

(** [recv] into a buffer of [room] bytes; the value is what was written.  The [assert_eq!] is
    the panic. *)
Definition recv (k : Kcp) (room : Z) : outcome (KcpResult (list byte) * Kcp) :=
  match rcv_queue k with
  | [] => Done (Err RecvQueueEmpty, k)
  | _ =>
    match peeksize k with
    | Err e => Done (Err e, k)
    | Ok size =>
      if decide (size > room) then Done (Err UserBufTooSmall, k)
      else
        let recover := bool_decide (rcv_wnd k ≤ len (rcv_queue k)) in
        let '(r, q) := merge (rcv_queue k) room in
        let k := k <| rcv_queue := q |> in
        match r with
        | Err e => Done (Err e, k)
        | Ok data =>
          if decide (len data = size) then
            let k := move_buf k in
            let k := if bool_decide (len (rcv_queue k) < rcv_wnd k) && recover
                     then k <| probe ::= Z.lor KCP_ASK_TELL |> else k in
            Done (Ok data, k)
          else Panic
        end
    end
  end.

(** ** Sending *)

Fixpoint fragments (count : nat) (stream : bool) (mss : Z) (data : list byte) : list Segment :=
  match count with
  | O => []
  | S rest =>
    let size := Z.to_nat (mss `min` len data) in
    (new_with_data (take size data) <| s_frg := if stream then 0 else Z.of_nat rest |>)
      :: fragments rest stream mss (drop size data)
  end.

Definition send (k : Kcp) (data : list byte) : outcome (KcpResult Z * Kcp) :=
  if decide (mss k ≤ 0) then Panic
  else
    let '(k, data, sent) :=
      if stream k then
        match last (snd_queue k) with
        | Some old =>
          let l := len (s_data old) in
          if decide (l < mss k) then
            let extend := Z.to_nat (len data `min` (mss k - l)) in
            let old := old <| s_data ::= λ d, d ++ take extend data |> <| s_frg := 0 |> in
            (k <| snd_queue ::= λ q, take (length q - 1) q ++ [old] |>, drop extend data, Z.of_nat extend)
          else (k, data, 0)
        | None => (k, data, 0)
        end
      else (k, data, 0) in
    if stream k && bool_decide (data = []) then Done (Ok sent, k)
    else
      let count := if decide (len data ≤ mss k) then 1 else div_ceil (len data) (mss k) in
      if decide (KCP_WND_RCV ≤ count) then Done (Err UserBufTooBig, k)
      else
        let count := 1 `max` count in
        let segs := fragments (Z.to_nat count) (stream k) (mss k) data in
        Done (Ok (sent + sumZ (λ s, len (s_data s)) segs), k <| snd_queue ::= λ q, q ++ segs |>).

(** ** Acknowledgements *)

Definition update_ack (k : Kcp) (rtt : Z) : Kcp :=
  let k :=
    if decide (rx_srtt k = 0) then k <| rx_srtt := rtt |> <| rx_rttval := rtt / 2 |>
    else
      let delta := Z.abs (rtt - rx_srtt k) in
      let k := k <| rx_rttval ::= λ v, (3 * v + delta) / 4 |> in
      k <| rx_srtt ::= λ v, ((7 * v + rtt) / 8) `max` 1 |> in
  let rto := saturating_add u32_max (rx_srtt k) (interval k `max` saturating_mul u32_max (rx_rttval k) 4) in
  k <| rx_rto := bound (rx_minrto k) rto KCP_RTO_MAX |>.

Definition shrink_buf (k : Kcp) : Kcp :=
  k <| snd_una := match snd_buf k with seg :: _ => s_sn seg | [] => snd_nxt k end |>.

Fixpoint remove_acked (sn : Z) (l : list Segment) : list Segment :=
  match l with
  | [] => []
  | seg :: rest =>
    let d := timediff sn (s_sn seg) in
    if decide (d = 0) then rest
    else if decide (d < 0) then l
    else seg :: remove_acked sn rest
  end.
(** [timediff(sn, snd_una) < 0 || timediff(sn, snd_nxt) >= 0]. *)
Definition not_in_flight (k : Kcp) (sn : Z) : bool :=
  bool_decide (timediff sn (snd_una k) < 0) || bool_decide (0 ≤ timediff sn (snd_nxt k)).
Definition parse_ack (k : Kcp) (sn : Z) : Kcp :=
  if not_in_flight k sn then k else k <| snd_buf ::= remove_acked sn |>.

Fixpoint drop_before (una : Z) (l : list Segment) : list Segment :=
  match l with
  | [] => []
  | seg :: rest => if decide (0 < timediff una (s_sn seg)) then drop_before una rest else l
  end.
Definition parse_una (k : Kcp) (una : Z) : Kcp := k <| snd_buf ::= drop_before una |>.

Fixpoint count_fastack (sn ts : Z) (l : list Segment) : list Segment :=
  match l with
  | [] => []
  | seg :: rest =>
    if decide (timediff sn (s_sn seg) < 0) then l
    else
      (if decide (sn ≠ s_sn seg ∧ 0 ≤ timediff ts (s_ts seg))
       then seg <| s_fastack ::= saturating_add u32_max 1 |> else seg) :: count_fastack sn ts rest
  end.
Definition parse_fastack (k : Kcp) (sn ts : Z) : Kcp :=
  if not_in_flight k sn then k else k <| snd_buf ::= count_fastack sn ts |>.

Definition ack_push (k : Kcp) (sn ts : Z) : Kcp := k <| acklist ::= λ l, l ++ [(sn, ts)] |>.

(** Whether [sn] is already buffered, and where it belongs; [rbuf] is the buffer from its back. *)
Fixpoint insertion_point (sn : Z) (rbuf : list Segment) (index : nat) : bool * nat :=
  match rbuf with
  | [] => (false, index)
  | seg :: rest =>
    if decide (s_sn seg = sn) then (true, index)
    else if decide (0 < timediff sn (s_sn seg)) then (false, index)
    else insertion_point sn rest (index - 1)
  end.
Definition parse_data (k : Kcp) (seg : Segment) : Kcp :=
  let sn := s_sn seg in
  if decide (0 ≤ timediff sn (wadd (rcv_nxt k) (rcv_wnd k)) ∨ timediff sn (rcv_nxt k) < 0) then k
  else
    let '(repeated, index) := insertion_point sn (rev (rcv_buf k)) (length (rcv_buf k)) in
    let k := if repeated then k else k <| rcv_buf ::= λ l, take index l ++ seg :: drop index l |> in
    move_buf k.

(** ** Input *)

(** [flag], [max_ack] and [latest_ts] of the loop. *)
Record AckScan := mkAckScan {
  as_flag : bool;
  as_max_ack : Z;
  as_latest_ts : Z
}.
Definition scan_ack (a : AckScan) (sn ts : Z) : AckScan :=
  if negb (as_flag a) then mkAckScan true sn ts
  else if bool_decide (0 < timediff sn (as_max_ack a)) && bool_decide (0 < timediff ts (as_latest_ts a))
  then mkAckScan true sn ts else a.

(** A segment header, as the loop reads it. *)
Record Header := mkHeader {
  h_conv : Z;
  h_cmd : Z;
  h_frg : Z;
  h_wnd : Z;
  h_ts : Z;
  h_sn : Z;
  h_una : Z;
  h_len : Z
}.
Definition read_header (b : list byte) : Header :=
  mkHeader (le_decode (slice 0 4 b)) (byte_at 4 b) (byte_at 5 b) (le_decode (slice 6 8 b)) (le_decode (slice 8 12 b))
    (le_decode (slice 12 16 b)) (le_decode (slice 16 20 b)) (le_decode (slice 20 24 b)).

Definition known_cmd (cmd : Z) : bool :=
  bool_decide (cmd = KCP_CMD_PUSH) || bool_decide (cmd = KCP_CMD_ACK) || bool_decide (cmd = KCP_CMD_WASK) ||
  bool_decide (cmd = KCP_CMD_WINS).

(** What every accepted header does, and then the segment itself. *)
Definition input_una (k : Kcp) (h : Header) : Kcp := shrink_buf (parse_una (k <| rmt_wnd := h_wnd h |>) (h_una h)).
Definition input_ack (k : Kcp) (h : Header) : Kcp :=
  let rtt := timediff (current k) (h_ts h) in
  shrink_buf (parse_ack (if decide (0 ≤ rtt) then update_ack k rtt else k) (h_sn h)).
Definition input_push (k : Kcp) (h : Header) (data : list byte) : Kcp :=
  if decide (timediff (h_sn h) (wadd (rcv_nxt k) (rcv_wnd k)) < 0) then
    let k := ack_push k (h_sn h) (h_ts h) in
    if decide (0 ≤ timediff (h_sn h) (rcv_nxt k)) then
      parse_data k (mkSegment (h_conv h) (h_cmd h) (h_frg h) (h_wnd h) (h_ts h) (h_sn h) (h_una h) 0 0 0 0 data)
    else k
  else k.
Definition input_command (k : Kcp) (a : AckScan) (h : Header) (data : list byte) : Kcp * AckScan :=
  let k := input_una k h in
  if decide (h_cmd h = KCP_CMD_ACK) then (input_ack k h, scan_ack a (h_sn h) (h_ts h))
  else if decide (h_cmd h = KCP_CMD_PUSH) then (input_push k h data, a)
  else if decide (h_cmd h = KCP_CMD_WASK) then (k <| probe ::= Z.lor KCP_ASK_TELL |>, a)
  else (k, a).

(** One round of the loop: the state, the scan, and the rest of the packet. *)
Definition input_segment (k : Kcp) (a : AckScan) (b : list byte) : KcpResult (AckScan * list byte) * Kcp :=
  let h := read_header b in
  let rest := drop 24 b in
  let accept (k : Kcp) : KcpResult (AckScan * list byte) * Kcp :=
    if decide (len rest < h_len h) then (Err (InvalidSegmentDataSize (h_len h) (len rest)), k)
    else if negb (known_cmd (h_cmd h)) then (Err (UnsupportedCmd (h_cmd h)), k)
    else
      let '(k, a) := input_command k a h (take (Z.to_nat (h_len h)) rest) in
      (Ok (a, drop (Z.to_nat (h_len h)) rest), k) in
  if decide (h_conv h = conv k) then accept k
  else if input_conv k then accept (k <| conv := h_conv h |> <| input_conv := false |>)
  else (Err (ConvInconsistent (conv k) (h_conv h)), k).

(** The loop over a packet, with at least as much fuel as bytes; the value is the scan and the
    bytes left over. *)
Fixpoint input_loop (fuel : nat) (k : Kcp) (a : AckScan) (b : list byte) : KcpResult (AckScan * list byte) * Kcp :=
  match fuel with
  | O => (Ok (a, b), k)
  | S fuel =>
    if decide (len b < KCP_OVERHEAD) then (Ok (a, b), k)
    else
      match input_segment k a b with
      | (Ok (a, rest), k) => input_loop fuel k a rest
      | (Err e, k) => (Err e, k)
      end
  end.

(** The congestion window after new data was acknowledged. *)
Definition grow_cwnd (k : Kcp) : Kcp :=
  let m := mss k in
  let k :=
    if decide (cwnd k < ssthresh k) then k <| cwnd ::= Z.add 1 |> <| incr ::= saturating_add usize_max m |>
    else
      let k := k <| incr ::= Z.max m |> in
      let k := k <| incr ::= λ i, saturating_add usize_max i (saturating_mul usize_max m m / i + m / 16) |> in
      if decide ((cwnd k + 1) * m ≤ incr k) then
        k <| cwnd := (div_ceil (incr k) (m `max` 1) `min` rmt_wnd k) mod 2 ^ 16 |>
      else k in
  if decide (rmt_wnd k < cwnd k) then k <| cwnd := rmt_wnd k |> <| incr := rmt_wnd k * m |> else k.

(** The value is the number of bytes read. *)
Definition input (k : Kcp) (b : list byte) : KcpResult Z * Kcp :=
  if decide (len b < KCP_OVERHEAD) then (Err (InvalidSegmentSize (len b)), k)
  else
    let old_una := snd_una k in
    match input_loop (length b) k (mkAckScan false 0 0) b with
    | (Err e, k) => (Err e, k)
    | (Ok (a, rest), k) =>
      let k := if as_flag a then parse_fastack k (as_max_ack a) (as_latest_ts a) else k in
      let k := if bool_decide (0 < timediff (snd_una k) old_una) && bool_decide (cwnd k < rmt_wnd k)
               then grow_cwnd k else k in
      (Ok (len b - len rest), k)
    end.

(** ** Flushing *)

Definition wnd_unused (k : Kcp) : Z :=
  if decide (len (rcv_queue k) < rcv_wnd k) then rcv_wnd k - len (rcv_queue k) else 0.

Definition probe_wnd_size (k : Kcp) : Kcp :=
  if decide (rmt_wnd k = 0) then
    if decide (probe_wait k = 0) then
      k <| probe_wait := KCP_PROBE_INIT |> <| ts_probe := wadd (current k) KCP_PROBE_INIT |>
    else if decide (0 ≤ timediff (current k) (ts_probe k)) then
      let w := probe_wait k `max` KCP_PROBE_INIT in
      let w := (w + w / 2) `min` KCP_PROBE_LIMIT in
      k <| probe_wait := w |> <| ts_probe := wadd (current k) w |> <| probe ::= Z.lor KCP_ASK_SEND |>
    else k
  else k <| ts_probe := 0 |> <| probe_wait := 0 |>.

(** [output.write_all(&buf)] of an empty buffer writes nothing. *)
Definition write_all (out : list (list byte)) (b : list byte) : list (list byte) :=
  match b with [] => out | _ => out ++ [b] end.

(** The buffer and the output; [room_for] makes room for [need] more bytes. *)
Definition room_for (mtu need : Z) (b : list byte) (out : list (list byte)) : list byte * list (list byte) :=
  if decide (mtu < len b + need) then ([], write_all out b) else (b, out).

Fixpoint flush_acks (mtu : Z) (acks : list (Z * Z)) (seg : Segment) (b : list byte) (out : list (list byte)) :
    Segment * list byte * list (list byte) :=
  match acks with
  | [] => (seg, b, out)
  | (sn, ts) :: acks =>
    let '(b, out) := room_for mtu KCP_OVERHEAD b out in
    let seg := seg <| s_sn := sn |> <| s_ts := ts |> in
    flush_acks mtu acks seg (b ++ encode seg) out
  end.
(** [_flush_ack]. *)
Definition flush_ack_into (k : Kcp) (seg : Segment) : Segment * Kcp :=
  let '(seg, b, out) := flush_acks (mtu k) (acklist k) seg (buf k) (output k) in
  (seg, k <| buf := b |> <| output := out |> <| acklist := [] |>).
(** [_flush_probe_commands]. *)
Definition flush_probe_command (k : Kcp) (cmd : Z) (seg : Segment) : Segment * Kcp :=
  let seg := seg <| s_cmd := cmd |> in
  let '(b, out) := room_for (mtu k) KCP_OVERHEAD (buf k) (output k) in
  (seg, k <| buf := b ++ encode seg |> <| output := out |>).
Definition flush_probe_commands (k : Kcp) (seg : Segment) : Segment * Kcp :=
  let '(seg, k) := if decide (Z.land (probe k) KCP_ASK_SEND ≠ 0) then flush_probe_command k KCP_CMD_WASK seg else (seg, k) in
  let '(seg, k) := if decide (Z.land (probe k) KCP_ASK_TELL ≠ 0) then flush_probe_command k KCP_CMD_WINS seg else (seg, k) in
  (seg, k <| probe := 0 |>).

Definition ack_template (k : Kcp) : Segment :=
  mkSegment (conv k) KCP_CMD_ACK 0 (wnd_unused k) 0 0 (rcv_nxt k) 0 0 0 0 [].

Definition flush_ack (k : Kcp) : KcpResult unit * Kcp :=
  if negb (updated k) then (Err NeedUpdate, k) else (Ok tt, (flush_ack_into k (ack_template k)).2).

(** Segments move from the queue to the buffer while the window allows. *)
Fixpoint admit_segments (queue : list Segment) (k : Kcp) (wnd window : Z) : Kcp :=
  if decide (timediff (snd_nxt k) (wadd (snd_una k) window) < 0) then
    match queue with
    | [] => k <| snd_queue := [] |>
    | seg :: rest =>
      let seg := mkSegment (conv k) KCP_CMD_PUSH (s_frg seg) wnd (current k) (snd_nxt k) (rcv_nxt k) (current k)
                   (rx_rto k) 0 0 (s_data seg) in
      admit_segments rest (k <| snd_nxt ::= λ n, wadd n 1 |> <| snd_buf ::= λ l, l ++ [seg] |>) wnd window
    end
  else k <| snd_queue := queue |>.

(** What the loop over [snd_buf] accumulates. *)
Record Flushed := mkFlushed {
  fl_buf : list byte;
  fl_output : list (list byte);
  fl_xmit : Z;
  fl_state : Z;
  fl_lost : bool;
  fl_change : Z
}.
#[export] Instance Flushed_eta : Eta Flushed := λ f,
  mkFlushed (fl_buf f) (fl_output f) (fl_xmit f) (fl_state f) (fl_lost f) (fl_change f).

Definition bump_xmit (s : Segment) : Segment := s <| s_xmit ::= saturating_add u32_max 1 |>.

(** Whether a segment is due, and what becomes of it and of the counters. *)
Definition due (k : Kcp) (resent rtomin : Z) (s : Segment) (f : Flushed) : bool * Segment * Flushed :=
  if decide (s_xmit s = 0) then
    (true, bump_xmit s <| s_rto := rx_rto k |> <| s_resendts := wadd (wadd (current k) (rx_rto k)) rtomin |>, f)
  else if decide (0 ≤ timediff (current k) (s_resendts s)) then
    let rto :=
      if negb (nodelay k) then saturating_add u32_max (s_rto s) (s_rto s `max` rx_rto k) `min` KCP_RTO_MAX
      else saturating_add u32_max (s_rto s) (s_rto s / 2) `min` KCP_RTO_MAX in
    (true, bump_xmit s <| s_rto := rto |> <| s_resendts := wadd (current k) rto |>,
     f <| fl_xmit ::= saturating_add u32_max 1 |> <| fl_lost := true |>)
  else if decide (resent ≤ s_fastack s ∧ (s_xmit s ≤ fastlimit k ∨ fastlimit k = 0)) then
    (true, bump_xmit s <| s_fastack := 0 |> <| s_resendts := wadd (current k) (s_rto s) |>, f <| fl_change ::= Z.add 1 |>)
  else (false, s, f).

Definition flush_segment (k : Kcp) (wnd resent rtomin : Z) (s : Segment) (f : Flushed) : Segment * Flushed :=
  let '(need_send, s, f) := due k resent rtomin s f in
  if negb need_send then (s, f)
  else
    let s := s <| s_ts := current k |> <| s_wnd := wnd |> <| s_una := rcv_nxt k |> in
    let '(b, out) := room_for (mtu k) (encoded_len s) (fl_buf f) (fl_output f) in
    let f := f <| fl_buf := b ++ encode s |> <| fl_output := out |> in
    (s, if decide (dead_link k ≤ s_xmit s) then f <| fl_state := -1 |> else f).

Fixpoint flush_segments (k : Kcp) (wnd resent rtomin : Z) (l : list Segment) (f : Flushed) : list Segment * Flushed :=
  match l with
  | [] => ([], f)
  | s :: rest =>
    let '(s, f) := flush_segment k wnd resent rtomin s f in
    let '(rest, f) := flush_segments k wnd resent rtomin rest f in
    (s :: rest, f)
  end.

(** The slow-start threshold, the congestion window and its byte count after a flush. *)
Definition congestion (k : Kcp) (change : Z) (lost : bool) (resent window : Z) : Z * Z * Z :=
  let '(th, cw, inc) :=
    if decide (0 < change) then
      let inflight := wrapping_sub 32 (snd_nxt k) (snd_una k) in
      let th := (inflight mod 2 ^ 16 / 2) `max` KCP_THRESH_MIN in
      let cw := saturating_add u32_max th resent `min` u16_max in
      (th, cw, cw * mss k)
    else (ssthresh k, cwnd k, incr k) in
  let '(th, cw, inc) := if lost then ((window / 2) `max` KCP_THRESH_MIN, 1, mss k) else (th, cw, inc) in
  if decide (cw < 1) then (th, 1, mss k) else (th, cw, inc).

Definition flush (k : Kcp) : KcpResult unit * Kcp :=
  if negb (updated k) then (Err NeedUpdate, k)
  else
    let '(seg, k) := flush_ack_into k (ack_template k) in
    let k := probe_wnd_size k in
    let '(seg, k) := flush_probe_commands k seg in
    let window := snd_wnd k `min` rmt_wnd k in
    let window := if negb (nocwnd k) then cwnd k `min` window else window in
    let k := admit_segments (snd_queue k) k (s_wnd seg) window in
    let resent := if decide (0 < fastresend k) then fastresend k else u32_max in
    let rtomin := if negb (nodelay k) then Z.shiftr (rx_rto k) 3 else 0 in
    let '(sent, f) := flush_segments k (s_wnd seg) resent rtomin (snd_buf k)
                        (mkFlushed (buf k) (output k) (xmit k) (state k) false 0) in
    let k := k <| snd_buf := sent |> <| buf := [] |> <| output := write_all (fl_output f) (fl_buf f) |>
               <| xmit := fl_xmit f |> <| state := fl_state f |> in
    let '(th, cw, inc) := congestion k (fl_change f) (fl_lost f) resent window in
    (Ok tt, k <| ssthresh := th |> <| cwnd := cw |> <| incr := inc |>).

Definition update (k : Kcp) (now : Z) : KcpResult unit * Kcp :=
  let k := k <| current := now |> in
  let k := if negb (updated k) then k <| updated := true |> <| ts_flush := now |> else k in
  let slap := timediff now (ts_flush k) in
  let '(slap, k) := if decide (-10000 ≤ slap < 10000) then (slap, k) else (0, k <| ts_flush := now |>) in
  if decide (0 ≤ slap) then
    let k := k <| ts_flush ::= λ t, wadd t (interval k) |> in
    let k := if decide (0 ≤ timediff now (ts_flush k)) then k <| ts_flush := wadd now (interval k) |> else k in
    flush k
  else (Ok tt, k).

(** The smallest wait until a segment is due, [None] when one is due now. *)
Fixpoint next_resend (current : Z) (l : list Segment) (tm_packet : Z) : option Z :=
  match l with
  | [] => Some tm_packet
  | s :: rest =>
    let diff := timediff (s_resendts s) current in
    if decide (diff ≤ 0) then None else next_resend current rest (tm_packet `min` diff)
  end.
Definition check (k : Kcp) (now : Z) : Z :=
  if negb (updated k) then 0
  else
    let ts := if decide (10000 ≤ timediff now (ts_flush k) ∨ timediff now (ts_flush k) < -10000) then now else ts_flush k in
    if decide (0 ≤ timediff now ts) then 0
    else
      match next_resend now (snd_buf k) u32_max with
      | None => 0
      | Some tm_packet => (tm_packet `min` timediff ts now) `min` interval k
      end.

(** ** Settings *)

Definition set_mtu (k : Kcp) (mtu' : Z) : KcpResult unit * Kcp :=
  if decide (50 ≤ mtu' ≤ 65535) then (Ok tt, k <| mtu := mtu' |> <| mss := mtu' - KCP_OVERHEAD |>)
  else (Err (InvalidMtu mtu'), k).
Definition set_interval (k : Kcp) (i : Z) : Kcp := k <| interval := (10 `max` i) `min` 5000 |>.
Definition set_nodelay (k : Kcp) (no_delay : bool) (i resend : Z) (nc : bool) : Kcp :=
  let k := k <| nodelay := no_delay |> <| rx_minrto := if no_delay then KCP_RTO_NDL else KCP_RTO_MIN |> in
  let k := k <| interval := (10 `max` i) `min` 5000 |> in
  let k := if decide (0 ≤ resend) then k <| fastresend := resend |> else k in
  k <| nocwnd := nc |>.
Definition set_wndsize (k : Kcp) (sndwnd rcvwnd : Z) : Kcp :=
  let k := if decide (0 < sndwnd) then k <| snd_wnd := sndwnd |> else k in
  if decide (0 < rcvwnd) then k <| rcv_wnd := rcvwnd `max` KCP_WND_RCV |> else k.
Definition wait_snd (k : Kcp) : Z := len (snd_buf k) + len (snd_queue k).
Definition is_dead_link (k : Kcp) : bool := bool_decide (state k ≠ 0).

End Kcp.
