(* ===== verification/KcpLink.v ===== *)
(** * Two KCP engines over a datagram network

    What the engine of [Kcp] guarantees to its users: whatever packets the network loses,
    repeats, delays or reorders, each side receives a prefix of the messages the other side
    sent, complete and in order, and once a sender has nothing left to send or to confirm,
    the receiver holds everything.

    The position of a segment in its direction's stream is recovered from its wrapping
    sequence number; this is exact as long as a connection has carried fewer than
    [2 ^ 31 - 2 ^ 17] segments in that direction, whatever its first sequence number. *)

From Stdlib Require Import Sorting.Sorted.
From S2P Require Import Prelude Bytes CoreTypes Kcp.
Import Kcp.

(** ** Sequence numbers *)

Definition MAX_SEGMENTS : Z := 2 ^ 31 - 2 ^ 17.

(** The position of sequence number [sn] in a stream that starts at [s0]. *)
Definition pos (s0 sn : Z) : Z := (sn - s0) mod 2 ^ 32.
Definition in_range (i : Z) : Prop := 0 ≤ i ≤ MAX_SEGMENTS.

Lemma pos_range s0 sn : 0 ≤ pos s0 sn < 2 ^ 32.
Proof. apply Z.mod_pos_bound. lia. Qed.

Lemma timediff_mod a b d : (a - b) mod 2 ^ 32 = d mod 2 ^ 32 → - 2 ^ 31 ≤ d < 2 ^ 31 → timediff a b = d.
Proof.
  intros Hab Hd. unfold timediff, wrapping_sub. rewrite Hab.
  destruct (decide (0 ≤ d)).
  - rewrite Z.mod_small by lia. case_decide; lia.
  - replace (d mod 2 ^ 32) with (d + 2 ^ 32); [case_decide; lia|].
    rewrite <- (Z.mod_small (d + 2 ^ 32) (2 ^ 32)) by lia. rewrite <- (Z.mod_add d 1) by lia. done.
Qed.
Lemma timediff_pos s0 a b :
  - 2 ^ 31 ≤ pos s0 a - pos s0 b < 2 ^ 31 → timediff a b = pos s0 a - pos s0 b.
Proof.
  intros Hd. apply timediff_mod; [|done]. unfold pos. rewrite <- Zminus_mod. f_equal. lia.
Qed.
Lemma pos_wadd s0 a n : 0 ≤ n → pos s0 a + n < 2 ^ 32 → pos s0 (wadd a n) = pos s0 a + n.
Proof.
  intros Hn Hlt. unfold wadd, wrapping_add. pose proof (pos_range s0 a). unfold pos in *.
  rewrite Zminus_mod_idemp_l. replace (a + n - s0) with (a - s0 + n) by lia.
  rewrite <- Zplus_mod_idemp_l. apply Z.mod_small. lia.
Qed.
(** The difference of a number and a window's end. *)
Lemma timediff_wadd s0 a b w :
  0 ≤ w ≤ u16_max → in_range (pos s0 a) → in_range (pos s0 b) →
  timediff a (wadd b w) = pos s0 a - (pos s0 b + w).
Proof.
  unfold in_range, MAX_SEGMENTS, u16_max. intros Hw Ha Hb. rewrite (timediff_pos s0).
  - rewrite pos_wadd by lia. done.
  - rewrite pos_wadd by lia. lia.
Qed.
Lemma timediff_in_range s0 a b :
  in_range (pos s0 a) → in_range (pos s0 b) → timediff a b = pos s0 a - pos s0 b.
Proof. unfold in_range, MAX_SEGMENTS. intros. apply timediff_pos. lia. Qed.
Lemma pos_inj s0 a b : in_u32 a → in_u32 b → pos s0 a = pos s0 b → a = b.
Proof.
  unfold pos, in_u32, u32_max. intros Ha Hb H.
  assert ((a - b) mod 2 ^ 32 = 0) as Hz.
  { replace (a - b) with ((a - s0) - (b - s0)) by lia. rewrite Zminus_mod, H, Z.sub_diag. done. }
  apply Z.mod_divide in Hz; [|lia]. destruct Hz as [q Hq]. assert (q = 0) by nia. lia.
Qed.

(** ** The wire format *)

Record segment_wf (s : Segment) : Prop := {
  sw_conv : in_u32 (s_conv s);
  sw_cmd : in_u8 (s_cmd s);
  sw_known : known_cmd (s_cmd s) = true;
  sw_frg : in_u8 (s_frg s);
  sw_wnd : in_u16 (s_wnd s);
  sw_ts : in_u32 (s_ts s);
  sw_sn : in_u32 (s_sn s);
  sw_una : in_u32 (s_una s);
  sw_data : len (s_data s) ≤ u32_max
}.

Definition header_of (s : Segment) : Header :=
  mkHeader (s_conv s) (s_cmd s) (s_frg s) (s_wnd s) (s_ts s) (s_sn s) (s_una s) (len (s_data s)).

Lemma length_encode s : len (encode s) = encoded_len s.
Proof. unfold encode, encoded_len, KCP_OVERHEAD. rewrite !len_app. unfold len. rewrite !length_le_encode. lia. Qed.

Lemma read_header_encode s rest : segment_wf s → read_header (encode s ++ rest) = header_of s.
Proof.
  intros [Hc Hm _ Hf Hw Ht Hs Hu Hd]. pose proof (len_nonneg (s_data s)).
  assert (∀ n z l, l = le_encode n z → 0 ≤ z < 2 ^ (Z.of_nat n * 8) → le_decode l = z) as Hfield.
  { intros n z l -> Hz. by apply le_decode_encode. }
  unfold read_header, header_of. f_equal.
  - apply (Hfield 4%nat); [reflexivity|zlia].
  - etrans; [|apply (to_of_u8 (s_cmd s) Hm)]. reflexivity.
  - etrans; [|apply (to_of_u8 (s_frg s) Hf)]. reflexivity.
  - apply (Hfield 2%nat); [reflexivity|zlia].
  - apply (Hfield 4%nat); [reflexivity|zlia].
  - apply (Hfield 4%nat); [reflexivity|zlia].
  - apply (Hfield 4%nat); [reflexivity|zlia].
  - apply (Hfield 4%nat); [reflexivity|zlia].
Qed.
Lemma drop_encode s rest : drop 24 (encode s ++ rest) = s_data s ++ rest.
Proof. reflexivity. Qed.

(** One round of [input] on a segment this engine's peer encoded. *)
Lemma input_segment_encode k a s rest :
  segment_wf s → s_conv s = conv k →
  input_segment k a (encode s ++ rest) =
  let '(k, a) := input_command k a (header_of s) (s_data s) in (Ok (a, rest), k).
Proof.
  intros Hwf Hconv. unfold input_segment. rewrite read_header_encode, drop_encode by done.
  cbn [h_conv h_len h_cmd header_of]. rewrite decide_True by done. pose proof (len_nonneg rest).
  rewrite len_app, decide_False by lia. rewrite (sw_known _ Hwf). cbn [negb].
  replace (Z.to_nat (len (s_data s))) with (length (s_data s)) by (unfold len; lia).
  by rewrite take_app_length, drop_app_length.
Qed.

(** A packet is the concatenation of its segments. *)
Definition packet (segs : list Segment) : list byte := segs ≫= encode.

Fixpoint input_commands (k : Kcp) (a : AckScan) (segs : list Segment) : Kcp * AckScan :=
  match segs with
  | [] => (k, a)
  | s :: segs => let '(k, a) := input_command k a (header_of s) (s_data s) in input_commands k a segs
  end.

Lemma move_buf_conv k : conv (move_buf k) = conv k.
Proof. unfold move_buf. by destruct (move_loop _ _ _ _) as [[? ?] ?]. Qed.
Lemma input_command_conv k a h d : conv (input_command k a h d).1 = conv k.
Proof.
  unfold input_command. repeat case_decide; try done; cbn [fst].
  - unfold input_ack, parse_ack. destruct (not_in_flight _ _); case_decide; try done; unfold update_ack; by case_decide.
  - unfold input_push, parse_data. repeat case_decide; try done.
    destruct (insertion_point _ _ _) as [[] ?]; by rewrite move_buf_conv.
Qed.

Lemma input_loop_packet segs : ∀ fuel k a,
  (length (packet segs) ≤ fuel)%nat → Forall segment_wf segs → Forall (λ s, s_conv s = conv k) segs →
  input_loop fuel k a (packet segs) = let '(k, a) := input_commands k a segs in (Ok (a, []), k).
Proof.
  induction segs as [|s segs IH]; intros fuel k a Hfuel Hwf Hconv; [by destruct fuel|].
  change (packet (s :: segs)) with (encode s ++ packet segs) in *.
  apply Forall_cons in Hwf as [Hs Hwf]. apply Forall_cons in Hconv as [Hc Hconv].
  pose proof (length_encode s) as Hl. unfold encoded_len, KCP_OVERHEAD in Hl. pose proof (len_nonneg (s_data s)).
  pose proof (len_nonneg (packet segs)). rewrite length_app in Hfuel. unfold len in Hl.
  destruct fuel as [|fuel]; [lia|]. cbn [input_loop]. rewrite decide_False by (rewrite len_app, length_encode; unfold encoded_len; lia).
  rewrite input_segment_encode by done. pose proof (input_command_conv k a (header_of s) (s_data s)) as Hk.
  cbn [input_commands]. destruct (input_command k a (header_of s) (s_data s)) as [k' a'] eqn:E. cbn in Hk.
  apply IH; [unfold len in *; lia|done|]. by rewrite Hk.
Qed.

(** ** One direction *)

(** What both engines keep to: the largest fragment and the largest receive window. *)
Class Limits := {
  max_frag : Z;
  max_wnd : Z;
  max_frag_u16 : 0 < max_frag ≤ u16_max;
  max_wnd_u16 : KCP_WND_RCV ≤ max_wnd ≤ u16_max
}.

Section limits.
Context `{L : Limits}.

(** What a segment carries of its stream. *)
Definition Pay : Type := Z * list byte.
Definition pay (s : Segment) : Pay := (s_frg s, s_data s).
Definition pay_ok (p : Pay) : Prop := 0 ≤ p.1 < KCP_WND_RCV ∧ len p.2 ≤ max_frag.

Definition at_pos (s0 : Z) (s : Segment) : Z := pos s0 (s_sn s).
Definition carries (s0 : Z) (σ : list Pay) (s : Segment) : Prop :=
  in_u32 (s_sn s) ∧ σ !! Z.to_nat (at_pos s0 s) = Some (pay s).
Definition ascending (s0 : Z) (l : list Segment) : Prop := StronglySorted (λ s t, at_pos s0 s < at_pos s0 t) l.
Definition una_of (l : list Segment) (nxt : Z) : Z := match l with s :: _ => s_sn s | [] => nxt end.

Definition sent_pos (s0 : Z) (k : Kcp) : Z := pos s0 (snd_nxt k).
Definition rcvd_pos (s0 : Z) (k : Kcp) : Z := pos s0 (rcv_nxt k).

(** The sender of stream [σ], which starts at sequence number [s0]. *)
Record tx (s0 : Z) (σ : list Pay) (k : Kcp) : Prop := {
  tx_total : len σ ≤ MAX_SEGMENTS;
  tx_pays : Forall pay_ok σ;
  tx_nxt : in_u32 (snd_nxt k);
  tx_len : sent_pos s0 k + len (snd_queue k) = len σ;
  tx_queue : map pay (snd_queue k) = drop (Z.to_nat (sent_pos s0 k)) σ;
  tx_buf : Forall (λ s, carries s0 σ s ∧ at_pos s0 s < sent_pos s0 k ∧ s_conv s = conv k ∧ s_cmd s = KCP_CMD_PUSH) (snd_buf k);
  tx_sorted : ascending s0 (snd_buf k);
  tx_una : snd_una k = una_of (snd_buf k) (snd_nxt k);
  tx_wnd : 0 ≤ snd_wnd k ≤ u16_max ∧ 0 ≤ rmt_wnd k ∧ 0 ≤ cwnd k
}.

(** Position [i] has arrived. *)
Definition held (s0 : Z) (k : Kcp) (i : Z) : Prop :=
  0 ≤ i ∧ (i < rcvd_pos s0 k ∨ i ∈ map (at_pos s0) (rcv_buf k)).

(** The receiver of stream [σ], of which [N] segments were sent and [C] consumed. *)
Record rx (s0 : Z) (σ : list Pay) (C N : Z) (k : Kcp) : Prop := {
  rx_nxt : in_u32 (rcv_nxt k);
  rx_bounds : 0 ≤ C ≤ rcvd_pos s0 k ∧ rcvd_pos s0 k ≤ N ∧ N ≤ len σ ∧ len σ ≤ MAX_SEGMENTS;
  rx_queue : map pay (rcv_queue k) = take (Z.to_nat (rcvd_pos s0 k - C)) (drop (Z.to_nat C) σ);
  rx_wnd : 0 ≤ rcv_wnd k ≤ max_wnd;
  rx_buf : Forall (λ s, carries s0 σ s ∧ rcvd_pos s0 k ≤ at_pos s0 s < N) (rcv_buf k);
  rx_sorted : ascending s0 (rcv_buf k);
  rx_acks : Forall (λ a, in_u32 a.1 ∧ in_u32 a.2 ∧ held s0 k (pos s0 a.1)) (acklist k)
}.

Lemma tx_range s0 σ k : tx s0 σ k → in_range (sent_pos s0 k).
Proof.
  intros [H _ _ Hl _ _ _ _ _]. unfold in_range, sent_pos in *. pose proof (pos_range s0 (snd_nxt k)).
  pose proof (len_nonneg (snd_queue k)). lia.
Qed.
Lemma tx_buf_range s0 σ k s : tx s0 σ k → s ∈ snd_buf k → in_range (at_pos s0 s).
Proof.
  intros Htx Hs. pose proof (tx_range _ _ _ Htx) as Hr. destruct Htx as [_ _ _ _ _ Hb _ _ _].
  rewrite Forall_forall in Hb. destruct (Hb _ Hs) as (_ & ? & _). unfold in_range, at_pos in *.
  pose proof (pos_range s0 (s_sn s)). lia.
Qed.
Lemma rx_range s0 σ C N k : rx s0 σ C N k → in_range (rcvd_pos s0 k) ∧ in_range N.
Proof. intros [_ H _ _ _ _ _]. unfold in_range, rcvd_pos in *. pose proof (pos_range s0 (rcv_nxt k)). lia. Qed.
Lemma rx_queue_len s0 σ C N k : rx s0 σ C N k → len (rcv_queue k) = rcvd_pos s0 k - C.
Proof.
  intros [_ Hb Hq _ _ _ _]. unfold len in *. rewrite <- (length_map pay), Hq, length_take, length_drop. lia.
Qed.
Lemma held_range s0 σ C N k i : rx s0 σ C N k → held s0 k i → 0 ≤ i < N.
Proof.
  intros [_ Hb _ _ Hbuf _ _] [H0 [Hi|Hi]]; [lia|]. split; [done|].
  apply list_elem_of_fmap in Hi as (s & -> & Hs). rewrite Forall_forall in Hbuf. apply (Hbuf _ Hs).
Qed.

(** *** Dropping what is acknowledged *)

Lemma ascending_cons s0 s l : ascending s0 (s :: l) ↔ ascending s0 l ∧ Forall (λ t, at_pos s0 s < at_pos s0 t) l.
Proof. split; [by inversion 1|intros []; by constructor]. Qed.

Lemma drop_before_filter s0 una l :
  in_range (pos s0 una) → Forall (λ s, in_range (at_pos s0 s)) l → ascending s0 l →
  drop_before una l = filter (λ s, pos s0 una ≤ at_pos s0 s) l.
Proof.
  intros Hu Hl. induction Hl as [|s l Hs Hl IH]; intros Hasc; [done|]. apply ascending_cons in Hasc as [Hasc Hlt].
  cbn [drop_before]. rewrite (timediff_in_range s0) by done. rewrite filter_cons. fold (at_pos s0 s).
  destruct (decide (0 < pos s0 una - at_pos s0 s)).
  - rewrite decide_False by lia. by apply IH.
  - rewrite decide_True by lia. f_equal. symmetry. apply filter_all. eapply Forall_impl; [exact Hlt|]. cbn. lia.
Qed.
Lemma remove_acked_filter s0 sn l :
  in_range (pos s0 sn) → Forall (λ s, in_range (at_pos s0 s)) l → ascending s0 l →
  remove_acked sn l = filter (λ s, at_pos s0 s ≠ pos s0 sn) l.
Proof.
  intros Hu Hl. induction Hl as [|s l Hs Hl IH]; intros Hasc; [done|]. apply ascending_cons in Hasc as [Hasc Hlt].
  cbn [remove_acked]. rewrite (timediff_in_range s0) by done. rewrite filter_cons. fold (at_pos s0 s).
  destruct (decide (pos s0 sn - at_pos s0 s = 0)) as [Heq|].
  - rewrite decide_False by lia. symmetry. apply filter_all. eapply Forall_impl; [exact Hlt|]. cbn. lia.
  - rewrite (decide_True (P := at_pos s0 s ≠ pos s0 sn)) by lia. destruct (decide (pos s0 sn - at_pos s0 s < 0)).
    + f_equal. symmetry. apply filter_all. eapply Forall_impl; [exact Hlt|]. cbn. lia.
    + f_equal. by apply IH.
Qed.
Lemma Forall_filtered {A} (Q P : A → Prop) `{!∀ x, Decision (P x)} l : Forall Q l → Forall Q (filter P l).
Proof. rewrite !Forall_forall. intros HQ x Hx. apply HQ. by apply list_elem_of_filter in Hx as [_ ?]. Qed.
Lemma ascending_filter s0 (P : Segment → Prop) `{!∀ s, Decision (P s)} l : ascending s0 l → ascending s0 (filter P l).
Proof.
  induction l as [|s l IH]; [done|]. intros [Hasc Hlt]%ascending_cons. rewrite filter_cons. case_decide; [|by apply IH].
  apply ascending_cons. split; [by apply IH|]. by apply Forall_filtered.
Qed.

(** The sender after some segments of its buffer were confirmed. *)
Lemma tx_filter s0 σ k (P : Segment → Prop) `{!∀ s, Decision (P s)} k' :
  tx s0 σ k → snd_nxt k' = snd_nxt k → snd_queue k' = snd_queue k → conv k' = conv k →
  snd_wnd k' = snd_wnd k → 0 ≤ rmt_wnd k' → cwnd k' = cwnd k →
  snd_buf k' = filter P (snd_buf k) → snd_una k' = una_of (snd_buf k') (snd_nxt k') → tx s0 σ k'.
Proof.
  intros [H1 H2 H3 H4 H5 H6 H7 _ H9] En Eq Ec Ew Hr Ecw Eb Eu. unfold sent_pos in *.
  split; unfold sent_pos; rewrite ?En, ?Eq, ?Ec, ?Ew, ?Ecw, ?Eb; try done.
  - by apply Forall_filtered.
  - by apply ascending_filter.
  - by rewrite Eu, Eb, En.
  - split_and!; [apply H9..|done|apply H9].
Qed.

(** *** Confirmation by the peer *)

Lemma in_range_le a b : 0 ≤ a ≤ b → in_range b → in_range a.
Proof. unfold in_range. lia. Qed.
Lemma tx_buf_ranges s0 σ k : tx s0 σ k → Forall (λ s, in_range (at_pos s0 s)) (snd_buf k).
Proof. intros Htx. apply Forall_forall. intros s Hs. by eapply tx_buf_range. Qed.

(** [rmt_wnd], [parse_una] and [shrink_buf]. *)
Lemma input_una_buf s0 σ k h :
  tx s0 σ k → pos s0 (h_una h) ≤ sent_pos s0 k →
  snd_buf (input_una k h) = filter (λ s, pos s0 (h_una h) ≤ at_pos s0 s) (snd_buf k).
Proof.
  intros Htx Hu. change (snd_buf (input_una k h)) with (drop_before (h_una h) (snd_buf k)). apply drop_before_filter.
  - eapply in_range_le; [|by eapply tx_range]. pose proof (pos_range s0 (h_una h)). lia.
  - by eapply tx_buf_ranges.
  - apply Htx.
Qed.
Lemma input_una_tx s0 σ k h :
  tx s0 σ k → 0 ≤ h_wnd h → pos s0 (h_una h) ≤ sent_pos s0 k → tx s0 σ (input_una k h).
Proof. intros Htx Hw Hu. by apply (tx_filter s0 σ k (λ s, pos s0 (h_una h) ≤ at_pos s0 s)); try eapply input_una_buf. Qed.

(** The ghost of [not_in_flight]. *)
Lemma not_in_flight_spec s0 σ k sn :
  tx s0 σ k → in_range (pos s0 sn) →
  not_in_flight k sn = false ↔ pos s0 (snd_una k) ≤ pos s0 sn < sent_pos s0 k.
Proof.
  intros Htx Hsn. pose proof (tx_range _ _ _ Htx) as Hn. unfold not_in_flight.
  assert (in_range (pos s0 (snd_una k))) as Hu.
  { rewrite (tx_una _ _ _ Htx). destruct (snd_buf k) as [|s l] eqn:E; [exact Hn|]. cbn. eapply tx_buf_range; [exact Htx|].
    rewrite E. by left. }
  rewrite !(timediff_in_range s0) by done. rewrite orb_false_iff, !bool_decide_eq_false. unfold sent_pos. lia.
Qed.

Lemma update_ack_tx s0 σ k rtt : tx s0 σ k → tx s0 σ (update_ack k rtt).
Proof. intros [H1 H2 H3 H4 H5 H6 H7 H8 H9]. unfold update_ack. case_decide; split; done. Qed.

(** [parse_ack] and [shrink_buf]. *)
Lemma input_ack_buf s0 σ k h :
  tx s0 σ k → in_range (pos s0 (h_sn h)) →
  snd_buf (input_ack k h) = filter (λ s, at_pos s0 s ≠ pos s0 (h_sn h)) (snd_buf k).
Proof.
  intros Htx Hsn. unfold input_ack. set (k1 := if decide _ then _ else k).
  assert (tx s0 σ k1) as Htx1 by (unfold k1; case_decide; [by apply update_ack_tx|done]).
  assert (snd_buf k1 = snd_buf k) as <- by (unfold k1, update_ack; repeat case_decide; done). clearbody k1.
  change (snd_buf (shrink_buf (parse_ack k1 (h_sn h)))) with (snd_buf (parse_ack k1 (h_sn h))). unfold parse_ack.
  destruct (not_in_flight k1 (h_sn h)) eqn:Hf.
  - symmetry. apply filter_all, Forall_forall. intros s Hs Heq.
    assert (¬ (pos s0 (snd_una k1) ≤ pos s0 (h_sn h) < sent_pos s0 k1)) as Hno.
    { rewrite <- (not_in_flight_spec s0 σ) by done. by rewrite Hf. }
    apply Hno. pose proof (tx_buf _ _ _ Htx1) as Hb. rewrite Forall_forall in Hb. destruct (Hb _ Hs) as (_ & Hlt & _).
    rewrite <- Heq. split; [|done]. rewrite (tx_una _ _ _ Htx1). pose proof (tx_sorted _ _ _ Htx1) as Hasc.
    destruct (snd_buf k1) as [|t l]; [by apply elem_of_nil in Hs|]. cbn. fold (at_pos s0 t).
    apply elem_of_cons in Hs as [->|Hs]; [done|]. apply ascending_cons in Hasc as [_ Hall].
    rewrite Forall_forall in Hall. specialize (Hall _ Hs). lia.
  - change (remove_acked (h_sn h) (snd_buf k1) = filter (λ s, at_pos s0 s ≠ pos s0 (h_sn h)) (snd_buf k1)).
    apply remove_acked_filter; [done|by eapply tx_buf_ranges|apply Htx1].
Qed.
Lemma input_ack_fields k h :
  snd_nxt (input_ack k h) = snd_nxt k ∧ snd_queue (input_ack k h) = snd_queue k ∧ conv (input_ack k h) = conv k ∧
  snd_wnd (input_ack k h) = snd_wnd k ∧ rmt_wnd (input_ack k h) = rmt_wnd k ∧ cwnd (input_ack k h) = cwnd k ∧
  snd_una (input_ack k h) = una_of (snd_buf (input_ack k h)) (snd_nxt (input_ack k h)).
Proof.
  unfold input_ack, parse_ack. destruct (not_in_flight _ _); case_decide; try (split_and!; done);
    unfold update_ack; case_decide; split_and!; done.
Qed.
Lemma input_ack_tx s0 σ k h : tx s0 σ k → in_range (pos s0 (h_sn h)) → tx s0 σ (input_ack k h).
Proof.
  intros Htx Hsn. destruct (input_ack_fields k h) as (? & ? & ? & ? & E & ? & ?).
  apply (tx_filter s0 σ k (λ s, at_pos s0 s ≠ pos s0 (h_sn h))); try done; [rewrite E; apply Htx|by eapply input_ack_buf].
Qed.

(** *** Arrival of data *)

Lemma wadd_u32 a n : in_u32 (wadd a n).
Proof. unfold in_u32, wadd, wrapping_add. pose proof (Z.mod_pos_bound (a + n) (2 ^ 32) ltac:(lia)). zlia. Qed.

Lemma take_next (σ : list Pay) C r p :
  0 ≤ C ≤ r → σ !! Z.to_nat r = Some p →
  take (Z.to_nat (r + 1 - C)) (drop (Z.to_nat C) σ) = take (Z.to_nat (r - C)) (drop (Z.to_nat C) σ) ++ [p].
Proof.
  intros HC Hr. replace (Z.to_nat (r + 1 - C)) with (S (Z.to_nat (r - C))) by lia. apply take_S_r.
  rewrite lookup_drop. rewrite <- Hr. f_equal. lia.
Qed.

(** What the receiver knows, of a buffer, a queue and the next number expected. *)
Record arrived (s0 : Z) (σ : list Pay) (C N : Z) (l q : list Segment) (n : Z) : Prop := {
  ar_nxt : in_u32 n;
  ar_bounds : 0 ≤ C ≤ pos s0 n ∧ pos s0 n ≤ N ∧ N ≤ MAX_SEGMENTS;
  ar_queue : map pay q = take (Z.to_nat (pos s0 n - C)) (drop (Z.to_nat C) σ);
  ar_buf : Forall (λ s, carries s0 σ s ∧ pos s0 n ≤ at_pos s0 s < N) l;
  ar_sorted : ascending s0 l
}.

Lemma move_loop_spec s0 σ C N wnd l : ∀ q n,
  arrived s0 σ C N l q n →
  let '(l', q', n') := move_loop l q n wnd in
  arrived s0 σ C N l' q' n' ∧ pos s0 n ≤ pos s0 n' ∧
  (∀ i, i < pos s0 n ∨ i ∈ map (at_pos s0) l ↔ i < pos s0 n' ∨ i ∈ map (at_pos s0) l').
Proof.
  induction l as [|s l IH]; intros q n Ha; cbn [move_loop]; [done|].
  case_decide as Hs; [|done]. destruct Hs as [Hs _]. destruct Ha as [Hn Hb Hq Hf Hasc].
  apply Forall_cons in Hf as [[[Hsn Hc] Hr] Hf]. apply ascending_cons in Hasc as [Hasc Hlt].
  assert (at_pos s0 s = pos s0 n) as Hp by (unfold at_pos; by rewrite Hs).
  assert (pos s0 (wadd n 1) = pos s0 n + 1) as Hw by (apply pos_wadd; unfold MAX_SEGMENTS in *; lia).
  specialize (IH (q ++ [s]) (wadd n 1)). destruct (move_loop l (q ++ [s]) (wadd n 1) wnd) as [[l' q'] n'].
  destruct IH as (Ha' & Hle & Hiff).
  - split; [apply wadd_u32|lia| | |done].
    + rewrite map_app, Hq, Hw. cbn [map]. symmetry. apply take_next; [lia|]. by rewrite <- Hp.
    + rewrite Forall_forall in Hf, Hlt |- *. intros t Ht. destruct (Hf _ Ht) as [? ?]. specialize (Hlt _ Ht).
      split; [done|]. lia.
  - split; [done|]. split; [lia|]. intros i. rewrite <- Hiff, Hw. cbn [map]. rewrite elem_of_cons, Hp.
    split; intros [?|?]; [left; lia| |destruct (decide (i = pos s0 n)); [tauto|left; lia]|tauto].
    destruct H as [->|]; [left; lia|tauto].
Qed.

Lemma rx_arrived s0 σ C N k : rx s0 σ C N k → arrived s0 σ C N (rcv_buf k) (rcv_queue k) (rcv_nxt k).
Proof. intros [? ? ? ? ? ? ?]. split; try done. unfold rcvd_pos in *. lia. Qed.

(** Moving segments to the queue keeps what is held. *)
Lemma move_buf_rx s0 σ C N k k0 :
  arrived s0 σ C N (rcv_buf k) (rcv_queue k) (rcv_nxt k) → N ≤ len σ → len σ ≤ MAX_SEGMENTS → 0 ≤ rcv_wnd k ≤ max_wnd →
  (∀ i, held s0 k0 i → held s0 k i) →
  Forall (λ a, in_u32 a.1 ∧ in_u32 a.2 ∧ held s0 k (pos s0 a.1)) (acklist k) →
  rx s0 σ C N (move_buf k) ∧ rcvd_pos s0 k ≤ rcvd_pos s0 (move_buf k) ∧
  (∀ i, held s0 k0 i → held s0 (move_buf k) i) ∧ (∀ i, held s0 k i ↔ held s0 (move_buf k) i).
Proof.
  intros Ha HN Hσ Hw Hk0 Hacks. pose proof (move_loop_spec s0 σ C N (rcv_wnd k) (rcv_buf k) (rcv_queue k) (rcv_nxt k) Ha) as Hm.
  assert (acklist (move_buf k) = acklist k ∧ rcv_wnd (move_buf k) = rcv_wnd k) as [Eack Ewnd].
  { unfold move_buf. by destruct (move_loop _ _ _ _) as [[? ?] ?]. }
  assert ((rcv_buf (move_buf k), rcv_queue (move_buf k), rcv_nxt (move_buf k)) = move_loop (rcv_buf k) (rcv_queue k) (rcv_nxt k) (rcv_wnd k)) as E.
  { unfold move_buf. by destruct (move_loop _ _ _ _) as [[? ?] ?]. }
  destruct (move_loop _ _ _ _) as [[l' q'] n']. injection E as El Eq En. destruct Hm as ([Hn Hb Hq Hf Hs] & Hle & Hiff).
  assert (∀ i, held s0 k i ↔ held s0 (move_buf k) i) as Hheld.
  { intros i. unfold held, rcvd_pos. rewrite El, En. by rewrite Hiff. }
  assert (rcvd_pos s0 (move_buf k) = pos s0 n') as Ep by (unfold rcvd_pos; by rewrite En).
  split_and!; [|rewrite Ep; exact Hle| |done].
  - split; rewrite ?Ep, ?El, ?Eq, ?En, ?Ewnd, ?Eack; try done; [lia|].
    eapply Forall_impl; [exact Hacks|]. intros a (? & ? & ?). split_and!; [done..|]. by apply Hheld.
  - intros i Hi. by apply Hheld, Hk0.
Qed.

(** The place of a new segment in the buffer. *)
Lemma insertion_point_spec s0 sn l : ∀ tail,
  in_u32 sn → Forall (λ s, in_u32 (s_sn s) ∧ in_range (at_pos s0 s)) l → in_range (pos s0 sn) →
  ascending s0 l → Forall (λ s, pos s0 sn < at_pos s0 s) tail →
  let '(repeated, index) := insertion_point sn (rev l) (length l) in
  (index ≤ length l)%nat ∧
  if repeated : bool then ∃ s, s ∈ l ∧ s_sn s = sn
  else Forall (λ s, at_pos s0 s < pos s0 sn) (take index l) ∧ Forall (λ s, pos s0 sn < at_pos s0 s) (drop index l ++ tail).
Proof.
  induction l as [|s l IH] using rev_ind; intros tail Hsn Hl Hr Hasc Htail; [by split|].
  rewrite rev_unit, length_app. cbn [insertion_point length].
  apply Forall_app in Hl as [Hl [[Hs1 Hs2] _]%Forall_cons].
  assert (ascending s0 l ∧ Forall (λ t, at_pos s0 t < at_pos s0 s) l) as [Hasc' Hlt].
  { clear -Hasc. induction l as [|t l IH]; [split; constructor|]. cbn in Hasc. apply ascending_cons in Hasc as [Hasc Hall].
    apply Forall_app in Hall as [Hall [Hts _]%Forall_cons]. destruct (IH Hasc). split; [by apply ascending_cons|by constructor]. }
  destruct (decide (s_sn s = sn)) as [Heq|Hne].
  { split; [lia|]. exists s. split; [|done]. set_solver. }
  rewrite (timediff_in_range s0) by done. fold (at_pos s0 s). case_decide as Hd.
  - split; [lia|]. rewrite take_ge, drop_ge by (rewrite length_app; cbn; lia). split; [|done].
    apply Forall_app. split; [|by constructor; [lia|]]. eapply Forall_impl; [exact Hlt|]. cbn. lia.
  - assert (pos s0 sn < at_pos s0 s) as Hps.
    { destruct (decide (pos s0 sn = at_pos s0 s)) as [Heq|]; [|lia]. by apply pos_inj in Heq. }
    replace (length l + 1 - 1)%nat with (length l) by lia. specialize (IH (s :: tail) Hsn Hl Hr Hasc').
    destruct (insertion_point sn (rev l) (length l)) as [rep idx]. destruct IH as [Hle IH]; [by constructor|].
    split; [lia|]. destruct rep.
    + destruct IH as (t & Ht & E). exists t. split; [set_solver|done].
    + rewrite take_app_le, drop_app_le by done. rewrite <- app_assoc. done.
Qed.

Lemma ascending_app s0 l1 l2 :
  ascending s0 l1 → ascending s0 l2 → (∀ s t, s ∈ l1 → t ∈ l2 → at_pos s0 s < at_pos s0 t) → ascending s0 (l1 ++ l2).
Proof.
  induction l1 as [|s l1 IH]; intros H1 H2 Hlt; [done|]. apply ascending_cons in H1 as [H1 Hall].
  cbn. apply ascending_cons. split.
  - apply IH; [done|done|]. intros. apply Hlt; [by right|done].
  - apply Forall_app. split; [done|]. apply Forall_forall. intros t Ht. apply Hlt; [by left|done].
Qed.
Lemma ascending_take_drop s0 n l : ascending s0 l → ascending s0 (take n l) ∧ ascending s0 (drop n l).
Proof.
  revert n. induction l as [|s l IH]; intros n H; [rewrite take_nil, drop_nil; done|].
  destruct n as [|n]; [split; [constructor|done]|]. apply ascending_cons in H as [H Hall]. destruct (IH n H) as [H1 H2].
  cbn. split; [|done]. apply ascending_cons. split; [done|]. by apply Forall_take.
Qed.

(** [parse_data] of a segment of the stream that fits the window. *)
Lemma parse_data_rx s0 σ C N k k0 seg :
  rx s0 σ C N k0 → rcv_nxt k = rcv_nxt k0 → rcv_buf k = rcv_buf k0 → rcv_queue k = rcv_queue k0 → rcv_wnd k = rcv_wnd k0 →
  carries s0 σ seg → rcvd_pos s0 k ≤ at_pos s0 seg < N → at_pos s0 seg < rcvd_pos s0 k + rcv_wnd k →
  Forall (λ a, in_u32 a.1 ∧ in_u32 a.2 ∧ (held s0 k (pos s0 a.1) ∨ a.1 = s_sn seg)) (acklist k) →
  rx s0 σ C N (parse_data k seg) ∧ rcvd_pos s0 k0 ≤ rcvd_pos s0 (parse_data k seg) ∧
  (∀ i, held s0 k0 i → held s0 (parse_data k seg) i).
Proof.
  intros Hrx En Eb Eq Ew Hc Hlo Hhi Hacks. pose proof (rx_range _ _ _ _ _ Hrx) as [HR HNr].
  assert (rcvd_pos s0 k = rcvd_pos s0 k0) as Ep by (unfold rcvd_pos; by rewrite En).
  assert (in_range (at_pos s0 seg)) as Hsr by (unfold in_range, rcvd_pos in *; pose proof (pos_range s0 (rcv_nxt k)); lia).
  destruct Hrx as [Hn Hb Hq Hw Hf Hs _]. unfold parse_data.
  assert (0 ≤ rcv_wnd k0 ≤ u16_max) as Hw16 by (pose proof max_wnd_u16; lia).
  rewrite (timediff_wadd s0), (timediff_in_range s0) by (try done; rewrite ?En, ?Ew; done).
  fold (at_pos s0 seg) (rcvd_pos s0 k). rewrite decide_False by lia.
  pose proof (insertion_point_spec s0 (s_sn seg) (rcv_buf k) []) as Hi.
  destruct (insertion_point _ _ _) as [rep idx]. destruct Hi as [Hle Hi]; [apply Hc| |done|by rewrite Eb|done|].
  { rewrite Eb. eapply Forall_impl; [exact Hf|]. intros t [[? _] ?]. split; [done|]. unfold in_range in *. cbn in *.
    pose proof (pos_range s0 (s_sn t)). unfold at_pos in *. lia. }
  fold (at_pos s0 seg) in Hi. set (k1 := if rep then _ else _).
  assert (rcv_nxt k1 = rcv_nxt k0 ∧ rcv_queue k1 = rcv_queue k0 ∧ rcv_wnd k1 = rcv_wnd k0 ∧ acklist k1 = acklist k) as (E1 & E2 & E3 & E4)
    by (unfold k1; by destruct rep).
  assert ((∀ i, i ∈ map (at_pos s0) (rcv_buf k) → i ∈ map (at_pos s0) (rcv_buf k1)) ∧
    at_pos s0 seg ∈ map (at_pos s0) (rcv_buf k1)) as [Hsub Hseg].
  { unfold k1. destruct rep.
    - split; [done|]. destruct Hi as (t & Ht & E). apply list_elem_of_fmap. exists t. split; [unfold at_pos; by rewrite E|done].
    - change (rcv_buf (k <| rcv_buf ::= _ |>)) with (take idx (rcv_buf k) ++ seg :: drop idx (rcv_buf k)).
      rewrite map_app. cbn [map]. split; [|set_solver].
      intros i. rewrite <- (take_drop idx (rcv_buf k)) at 1. rewrite map_app. set_solver. }
  assert (∀ i, held s0 k0 i → held s0 k1 i) as Hheld.
  { intros i [H0 Hi']. split; [done|]. unfold rcvd_pos. rewrite E1. destruct Hi' as [|Hi']; [by left|right]. apply Hsub. by rewrite Eb. }
  destruct (move_buf_rx s0 σ C N k1 k0) as (H1 & H2 & H3 & _); try done.
  - rewrite E1, E2. split; try done; [unfold rcvd_pos in *; lia| |]; unfold k1; destruct rep; rewrite ?Eb; try done;
      change (rcv_buf (k <| rcv_buf ::= _ |>)) with (take idx (rcv_buf k) ++ seg :: drop idx (rcv_buf k)); rewrite Eb in *.
    + apply Forall_app. split; [by apply Forall_take|]. constructor; [|by apply Forall_drop]. split; [done|]. unfold rcvd_pos in *. by rewrite En in Hlo.
    + rewrite app_nil_r in Hi. destruct Hi as [Hi1 Hi2]. destruct (ascending_take_drop s0 idx _ Hs) as [Ha1 Ha2].
      rewrite Forall_forall in Hi1, Hi2. apply ascending_app; [done| |].
      * apply ascending_cons. split; [done|]. by apply Forall_forall.
      * intros a b Ha [->|Hb']%elem_of_cons; [by apply Hi1|]. specialize (Hi1 _ Ha). specialize (Hi2 _ Hb'). lia.
  - apply Hb.
  - apply Hb.
  - by rewrite E3.
  - rewrite E4. eapply Forall_impl; [exact Hacks|]. intros a (? & ? & [Hh|Hh]); (split; [done|]); (split; [done|]).
    + apply Hheld. unfold held, rcvd_pos in *. by rewrite En, Eb in Hh.
    + rewrite Hh. split; [apply pos_range|by right].
  - split_and!; [done| |done]. unfold rcvd_pos in *. by rewrite E1 in H2.
Qed.

Lemma input_push_rx s0 σ C N k s :
  rx s0 σ C N k → carries s0 σ s → at_pos s0 s < N → in_u32 (s_ts s) →
  rx s0 σ C N (input_push k (header_of s) (s_data s)) ∧
  rcvd_pos s0 k ≤ rcvd_pos s0 (input_push k (header_of s) (s_data s)) ∧
  (∀ i, held s0 k i → held s0 (input_push k (header_of s) (s_data s)) i).
Proof.
  intros Hrx Hc HN Hts. pose proof (rx_range _ _ _ _ _ Hrx) as [HR HNr].
  assert (in_range (at_pos s0 s)) as Hsr by (unfold in_range, at_pos in *; pose proof (pos_range s0 (s_sn s)); lia).
  unfold input_push. cbn [h_sn h_ts h_conv h_cmd h_frg h_wnd h_una header_of].
  assert (0 ≤ rcv_wnd k ≤ u16_max) as Hw16 by (pose proof max_wnd_u16; pose proof (rx_wnd _ _ _ _ _ Hrx); lia).
  rewrite (timediff_wadd s0) by done. fold (at_pos s0 s) (rcvd_pos s0 k).
  destruct (decide (at_pos s0 s - (rcvd_pos s0 k + rcv_wnd k) < 0)) as [Hwin|]; [|done].
  set (k1 := ack_push k (s_sn s) (s_ts s)).
  assert (acklist k1 = acklist k ++ [(s_sn s, s_ts s)]) as Ea by done.
  assert (rcvd_pos s0 k1 = rcvd_pos s0 k) as Ep by done.
  rewrite (timediff_in_range s0) by done. fold (at_pos s0 s) (rcvd_pos s0 k1). rewrite Ep.
  destruct (decide (0 ≤ at_pos s0 s - rcvd_pos s0 k)) as [Hlo|Hlo].
  - apply parse_data_rx with (k0 := k); try done; [rewrite Ep; change (at_pos s0 (mkSegment _ _ _ _ _ (s_sn s) _ _ _ _ _ _)) with (at_pos s0 s); lia|
      rewrite Ep; change (at_pos s0 (mkSegment _ _ _ _ _ (s_sn s) _ _ _ _ _ _)) with (at_pos s0 s);
      change (rcv_wnd k1) with (rcv_wnd k); lia|].
    rewrite Ea. apply Forall_app. split.
    + eapply Forall_impl; [apply Hrx|]. cbn. intros a (? & ? & ?). split_and!; [done..|]. by left.
    + constructor; [|done]. split_and!; [apply Hc|done|]. by right.
  - split; [|done]. destruct Hrx as [H1 H2 H3 H4 H5 H6 H7]. split; try done. rewrite Ea. apply Forall_app. split; [done|].
    constructor; [|done]. cbn. split; [apply Hc|]. split; [done|]. split; [apply pos_range|]. left. fold (at_pos s0 s). lia.
Qed.

(** ** Endpoints *)

(** A segment the endpoint [k] may send: its out-stream is [σo], starting at [so]; its
    in-stream starts at [si]. *)
Record seg_ok (so : Z) (σo : list Pay) (si : Z) (k : Kcp) (s : Segment) : Prop := {
  so_wf : segment_wf s;
  so_conv : s_conv s = conv k;
  so_una : pos si (s_una s) ≤ rcvd_pos si k;
  so_push : s_cmd s = KCP_CMD_PUSH → carries so σo s ∧ at_pos so s < sent_pos so k;
  so_ack : s_cmd s = KCP_CMD_ACK → held si k (pos si (s_sn s));
  so_wnd : s_wnd s ≤ max_wnd;
  so_control : s_cmd s ≠ KCP_CMD_PUSH → s_frg s = 0 ∧ s_data s = []
}.
Definition packet_ok (so : Z) (σo : list Pay) (si : Z) (k : Kcp) (p : list byte) : Prop :=
  ∃ segs, p = packet segs ∧ segs ≠ [] ∧ Forall (seg_ok so σo si k) segs.

(** The endpoint got further, in both directions. *)
Record ahead (so si : Z) (k k' : Kcp) : Prop := {
  ah_conv : conv k' = conv k;
  ah_sent : sent_pos so k ≤ sent_pos so k';
  ah_rcvd : rcvd_pos si k ≤ rcvd_pos si k';
  ah_held : ∀ i, held si k i → held si k' i
}.
#[export] Instance ahead_preorder so si : PreOrder (ahead so si).
Proof.
  split; [done|]. intros x y z [A1 A2 A3 A4] [B1 B2 B3 B4]. split; [congruence|lia|lia|]. auto.
Qed.

Lemma carries_prefix s0 σ σ' s : σ `prefix_of` σ' → carries s0 σ s → carries s0 σ' s.
Proof. intros [τ ->] [Hu Hl]. split; [done|]. by apply lookup_app_l_Some. Qed.
Lemma seg_ok_ahead so σ σ' si k k' s :
  σ `prefix_of` σ' → ahead so si k k' → seg_ok so σ si k s → seg_ok so σ' si k' s.
Proof.
  intros Hpre [A1 A2 A3 A4] [H1 H2 H3 H4 H5 H6 H7]. split; [done|congruence|lia| |auto|done|done].
  intros Hp. destruct (H4 Hp). split; [by eapply carries_prefix|lia].
Qed.
Lemma packet_ok_ahead so σ σ' si k k' p :
  σ `prefix_of` σ' → ahead so si k k' → packet_ok so σ si k p → packet_ok so σ' si k' p.
Proof.
  intros Hpre Ha (segs & -> & Hne & Hs). exists segs. split_and!; [done|done|].
  eapply Forall_impl; [exact Hs|]. intros s. by apply seg_ok_ahead.
Qed.

(** Everything an endpoint keeps true on its own; [C] segments of the in-stream are consumed
    and [N] were sent by the peer. *)
Record endpoint_ok (so : Z) (σo : list Pay) (si : Z) (σi : list Pay) (C N : Z) (k : Kcp) : Prop := {
  eo_tx : tx so σo k;
  eo_rx : rx si σi C N k;
  eo_buf : ∃ segs, buf k = packet segs ∧ Forall (seg_ok so σo si k) segs;
  eo_out : Forall (packet_ok so σo si k) (output k);
  eo_conv : in_u32 (conv k) ∧ input_conv k = false;
  eo_current : in_u32 (current k);
  eo_mode : stream k = false ∧ 0 < mss k ≤ max_frag
}.

(** The confirmed segments may leave the buffer, and no others. *)
Definition confirmed (s0 : Z) (A : Z → Prop) (k k' : Kcp) : Prop :=
  ∀ i, i ∈ map (at_pos s0) (snd_buf k) → i ∈ map (at_pos s0) (snd_buf k') ∨ A i.

Lemma input_una_frame k h :
  let k' := input_una k h in
  rcv_nxt k' = rcv_nxt k ∧ rcv_wnd k' = rcv_wnd k ∧ rcv_queue k' = rcv_queue k ∧ rcv_buf k' = rcv_buf k ∧
  acklist k' = acklist k ∧ buf k' = buf k ∧ output k' = output k ∧ conv k' = conv k ∧ input_conv k' = input_conv k ∧
  current k' = current k ∧ stream k' = stream k ∧ mss k' = mss k ∧ snd_nxt k' = snd_nxt k.
Proof. done. Qed.
Lemma input_ack_frame k h :
  let k' := input_ack k h in
  rcv_nxt k' = rcv_nxt k ∧ rcv_wnd k' = rcv_wnd k ∧ rcv_queue k' = rcv_queue k ∧ rcv_buf k' = rcv_buf k ∧
  acklist k' = acklist k ∧ buf k' = buf k ∧ output k' = output k ∧ conv k' = conv k ∧ input_conv k' = input_conv k ∧
  current k' = current k ∧ stream k' = stream k ∧ mss k' = mss k ∧ snd_nxt k' = snd_nxt k.
Proof.
  cbv zeta. unfold input_ack, parse_ack. destruct (not_in_flight _ _); case_decide; try done; unfold update_ack; by case_decide.
Qed.
Lemma move_buf_frame k :
  let k' := move_buf k in
  snd_nxt k' = snd_nxt k ∧ snd_queue k' = snd_queue k ∧ snd_buf k' = snd_buf k ∧ snd_una k' = snd_una k ∧
  snd_wnd k' = snd_wnd k ∧ rmt_wnd k' = rmt_wnd k ∧ cwnd k' = cwnd k ∧ conv k' = conv k ∧ buf k' = buf k ∧
  output k' = output k ∧ input_conv k' = input_conv k ∧ current k' = current k ∧ stream k' = stream k ∧ mss k' = mss k.
Proof. cbv zeta. unfold move_buf. by destruct (move_loop _ _ _ _) as [[? ?] ?]. Qed.
Lemma input_push_frame k h d :
  let k' := input_push k h d in
  snd_nxt k' = snd_nxt k ∧ snd_queue k' = snd_queue k ∧ snd_buf k' = snd_buf k ∧ snd_una k' = snd_una k ∧
  snd_wnd k' = snd_wnd k ∧ rmt_wnd k' = rmt_wnd k ∧ cwnd k' = cwnd k ∧ conv k' = conv k ∧ buf k' = buf k ∧
  output k' = output k ∧ input_conv k' = input_conv k ∧ current k' = current k ∧ stream k' = stream k ∧ mss k' = mss k.
Proof.
  cbv zeta. unfold input_push. case_decide; [|done]. case_decide; [|done]. unfold parse_data. case_decide; [done|].
  destruct (insertion_point _ _ _) as [[] idx];
    match goal with |- context [move_buf ?x] => destruct (move_buf_frame x) as (-> & -> & -> & -> & -> & -> & -> & -> & -> & -> & -> & -> & -> & ->) end;
    done.
Qed.

(** Invariants under changes that do not touch their fields. *)
Lemma tx_same s0 σ k k' :
  snd_nxt k' = snd_nxt k → snd_queue k' = snd_queue k → snd_buf k' = snd_buf k → snd_una k' = snd_una k →
  snd_wnd k' = snd_wnd k → 0 ≤ rmt_wnd k' → 0 ≤ cwnd k' → conv k' = conv k → tx s0 σ k → tx s0 σ k'.
Proof.
  intros E1 E2 E3 E4 E5 E6 E7 E8 [H1 H2 H3 H4 H5 H6 H7 H8 H9]. unfold sent_pos in *.
  split; unfold sent_pos; rewrite ?E1, ?E2, ?E3, ?E4, ?E5, ?E8; try done. split_and!; try done; apply H9.
Qed.
Lemma rx_same s0 σ C N k k' :
  rcv_nxt k' = rcv_nxt k → rcv_wnd k' = rcv_wnd k → rcv_queue k' = rcv_queue k → rcv_buf k' = rcv_buf k →
  (acklist k' = acklist k ∨ acklist k' = []) → rx s0 σ C N k → rx s0 σ C N k'.
Proof.
  intros E1 E2 E3 E4 E5 [H1 H2 H3 H4 H5 H6 H7]. unfold rcvd_pos in *.
  split; unfold rcvd_pos; rewrite ?E1, ?E2, ?E3, ?E4; try done. unfold held, rcvd_pos in *.
  destruct E5 as [-> | ->]; [|done]. by rewrite E1, E4.
Qed.
Lemma held_same s0 k k' i : rcv_nxt k' = rcv_nxt k → rcv_buf k' = rcv_buf k → held s0 k i → held s0 k' i.
Proof. unfold held, rcvd_pos. by intros -> ->. Qed.
Lemma ahead_same so si k k' :
  conv k' = conv k → snd_nxt k' = snd_nxt k → rcv_nxt k' = rcv_nxt k → rcv_buf k' = rcv_buf k → ahead so si k k'.
Proof.
  intros E1 E2 E3 E4. split; unfold sent_pos, rcvd_pos; rewrite ?E2, ?E3; try done. intros i. by apply held_same.
Qed.

(** The buffer and the output survive any progress. *)
Lemma pending_ahead so σ si σi k k' :
  ahead so si k k' → buf k' = buf k → output k' = output k →
  (∃ segs, buf k = packet segs ∧ Forall (seg_ok so σ si k) segs) → Forall (packet_ok so σ si k) (output k) →
  σ `prefix_of` σi →
  (∃ segs, buf k' = packet segs ∧ Forall (seg_ok so σi si k') segs) ∧ Forall (packet_ok so σi si k') (output k').
Proof.
  intros Ha -> -> (segs & -> & Hs) Ho Hpre. split.
  - exists segs. split; [done|]. eapply Forall_impl; [exact Hs|]. intros s. by apply seg_ok_ahead.
  - eapply Forall_impl; [exact Ho|]. intros p. by apply packet_ok_ahead.
Qed.

(** ** Input *)

Section input.
Context (so : Z) (σo : list Pay) (si : Z) (σi : list Pay) (C N : Z).
(** The peer, which holds part of what this endpoint sends. *)
Context (peer : Kcp) (C' : Z).

Definition input_post (k k' : Kcp) : Prop :=
  endpoint_ok so σo si σi C N k' ∧ ahead so si k k' ∧ confirmed so (held so peer) k k' ∧ snd_nxt k' = snd_nxt k.

Lemma input_post_trans k1 k2 k3 : input_post k1 k2 → input_post k2 k3 → input_post k1 k3.
Proof.
  intros (_ & A1 & B1 & E1) (H & A2 & B2 & E2). split_and!; [done|by etrans| |congruence].
  intros i Hi. destruct (B1 i Hi) as [Hi'|]; [by apply B2|by right].
Qed.

(** Changes outside the invariants' fields. *)
Lemma endpoint_same k k' :
  endpoint_ok so σo si σi C N k →
  snd_nxt k' = snd_nxt k → snd_queue k' = snd_queue k → snd_buf k' = snd_buf k → snd_una k' = snd_una k →
  snd_wnd k' = snd_wnd k → 0 ≤ rmt_wnd k' → 0 ≤ cwnd k' → conv k' = conv k →
  rcv_nxt k' = rcv_nxt k → rcv_wnd k' = rcv_wnd k → rcv_queue k' = rcv_queue k → rcv_buf k' = rcv_buf k →
  acklist k' = acklist k → buf k' = buf k → output k' = output k → input_conv k' = input_conv k →
  in_u32 (current k') → stream k' = stream k → mss k' = mss k → input_post k k'.
Proof.
  intros [H1 H2 H3 H4 H5 H6 H7] E1 E2 E3 E4 E5 E6 E7 E8 E9 E10 E11 E12 E13 E14 E15 E16 E17 E18 E19.
  assert (ahead so si k k') as Ha by (by apply ahead_same).
  destruct (pending_ahead so σo si σo k k' Ha E14 E15 H3 H4 ltac:(done)) as [H3' H4'].
  split_and!; [|done| |done].
  - split; try done; [by apply (tx_same so σo k)|apply (rx_same si σi C N k); auto|by rewrite E8, E16|by rewrite E18, E19].
  - intros i Hi. left. by rewrite E3.
Qed.

Lemma input_una_post k s :
  endpoint_ok so σo si σi C N k → rx so σo C' (sent_pos so k) peer → seg_ok si σi so peer s →
  input_post k (input_una k (header_of s)).
Proof.
  intros Hk Hpeer [Hwf Hconv Huna _ _]. pose proof Hk as [H1 H2 H3 H4 H5 H6 H7].
  pose proof (rx_bounds _ _ _ _ _ Hpeer) as Hb.
  assert (pos so (s_una s) ≤ sent_pos so k) as Hu by lia.
  set (k' := input_una k (header_of s)).
  assert (ahead so si k k') as Ha by (by apply ahead_same).
  destruct (pending_ahead so σo si σo k k' Ha eq_refl eq_refl H3 H4 ltac:(done)) as [H3' H4'].
  split_and!; [|done| |done].
  - split; try done; [apply input_una_tx; [done|apply Hwf|done]|apply (rx_same si σi C N k); auto].
  - intros i. unfold k'. rewrite (input_una_buf so σo) by done. rewrite !list_elem_of_fmap. intros (t & -> & Ht).
    destruct (decide (pos so (s_una s) ≤ at_pos so t)) as [Hle|Hgt].
    + left. exists t. split; [done|]. apply list_elem_of_filter. by split.
    + right. split; [apply pos_range|]. left. lia.
Qed.
Lemma input_ack_post k s :
  endpoint_ok so σo si σi C N k → rx so σo C' (sent_pos so k) peer → seg_ok si σi so peer s →
  s_cmd s = KCP_CMD_ACK → input_post k (input_ack k (header_of s)).
Proof.
  intros Hk Hpeer [Hwf Hconv Huna _ Hack] Hcmd. specialize (Hack Hcmd). pose proof Hk as [H1 H2 H3 H4 H5 H6 H7].
  pose proof (held_range _ _ _ _ _ _ Hpeer Hack) as Hr. pose proof (rx_bounds _ _ _ _ _ Hpeer) as Hb.
  assert (in_range (pos so (s_sn s))) as Hrange by (unfold in_range; lia).
  destruct (input_ack_frame k (header_of s)) as (E1 & E2 & E3 & E4 & E5 & E6 & E7 & E8 & E9 & E10 & E11 & E12 & E13).
  set (k' := input_ack k (header_of s)) in *.
  assert (ahead so si k k') as Ha by (by apply ahead_same).
  destruct (pending_ahead so σo si σo k k' Ha E6 E7 H3 H4 ltac:(done)) as [H3' H4'].
  split_and!; [|done| |done].
  - split; try done; [by apply input_ack_tx|apply (rx_same si σi C N k); auto|by rewrite E8, E9|by rewrite E10|by rewrite E11, E12].
  - intros i. unfold k'. rewrite (input_ack_buf so σo) by done. rewrite !list_elem_of_fmap. intros (t & -> & Ht).
    destruct (decide (at_pos so t = pos so (s_sn s))) as [->|Hne]; [by right|].
    left. exists t. split; [done|]. apply list_elem_of_filter. by split.
Qed.
Lemma input_push_post k s :
  endpoint_ok so σo si σi C N k → N = sent_pos si peer → seg_ok si σi so peer s → s_cmd s = KCP_CMD_PUSH →
  input_post k (input_push k (header_of s) (s_data s)).
Proof.
  intros Hk HN [Hwf Hconv Huna Hpush _] Hcmd. destruct (Hpush Hcmd) as [Hc Hlt]. rewrite <- HN in Hlt.
  pose proof Hk as [H1 H2 H3 H4 H5 H6 H7].
  destruct (input_push_frame k (header_of s) (s_data s)) as (E1 & E2 & E3 & E4 & E5 & E6 & E7 & E8 & E9 & E10 & E11 & E12 & E13 & E14).
  destruct (input_push_rx si σi C N k s H2 Hc Hlt (sw_ts _ Hwf)) as (Hrx & Hle & Hheld).
  set (k' := input_push k (header_of s) (s_data s)) in *.
  assert (ahead so si k k') as Ha by (split; [done|unfold sent_pos; by rewrite E1|done|done]).
  destruct (pending_ahead so σo si σo k k' Ha E9 E10 H3 H4 ltac:(done)) as [H3' H4'].
  split_and!; [|done| |done].
  - split; try done; [|by rewrite E8, E11|by rewrite E12|by rewrite E13, E14].
    apply (tx_same so σo k); try done; [rewrite E6; apply H1|rewrite E7; apply H1].
  - intros i Hi. left. by rewrite E3.
Qed.

Lemma input_command_post k a s :
  endpoint_ok so σo si σi C N k → rx so σo C' (sent_pos so k) peer → N = sent_pos si peer → seg_ok si σi so peer s →
  input_post k (input_command k a (header_of s) (s_data s)).1.
Proof.
  intros Hk Hpeer HN Hs. pose proof (input_una_post k s Hk Hpeer Hs) as Hpost. pose proof Hpost as (Hk1 & _ & _ & E).
  unfold input_command. set (k1 := input_una k (header_of s)) in *.
  assert (rx so σo C' (sent_pos so k1) peer) as Hpeer1 by (unfold sent_pos; by rewrite E).
  cbn [h_cmd h_sn h_ts header_of]. repeat case_decide; cbn [fst]; try done.
  - eapply input_post_trans; [exact Hpost|]. by apply input_ack_post.
  - eapply input_post_trans; [exact Hpost|]. by apply input_push_post.
  - eapply input_post_trans; [exact Hpost|]. pose proof (eo_tx _ _ _ _ _ _ _ Hk1) as Htx.
    apply endpoint_same; try done; apply Htx || apply Hk1.
Qed.

Lemma input_commands_post segs : ∀ k a,
  endpoint_ok so σo si σi C N k → rx so σo C' (sent_pos so k) peer → N = sent_pos si peer →
  Forall (seg_ok si σi so peer) segs → input_post k (input_commands k a segs).1.
Proof.
  induction segs as [|s segs IH]; intros k a Hk Hpeer HN Hs; cbn [input_commands].
  { cbn [fst]. split_and!; [done|done|by left|done]. }
  apply Forall_cons in Hs as [Hs Hsegs]. pose proof (input_command_post k a s Hk Hpeer HN Hs) as Hpost.
  destruct (input_command k a (header_of s) (s_data s)) as [k1 a1]. cbn [fst] in Hpost.
  eapply input_post_trans; [exact Hpost|]. destruct Hpost as (Hk1 & _ & _ & E).
  apply IH; try done. unfold sent_pos. by rewrite E.
Qed.

Lemma count_fastack_same sn ts l : Forall2 (λ s t, s_sn t = s_sn s ∧ pay t = pay s ∧ s_conv t = s_conv s ∧ s_cmd t = s_cmd s) l (count_fastack sn ts l).
Proof.
  induction l as [|s l IH]; cbn [count_fastack]; [done|]. case_decide.
  - apply Forall2_same_length_lookup. split; [done|]. intros i x y Hx Hy. by simplify_eq.
  - constructor; [by case_decide|done].
Qed.
(** Segments rewritten in place, their place in the stream kept. *)
Lemma tx_rewritten s0 σ k l k' :
  tx s0 σ k → Forall2 (λ s t, s_sn t = s_sn s ∧ pay t = pay s ∧ s_conv t = s_conv s ∧ s_cmd t = s_cmd s) (snd_buf k) l →
  snd_nxt k' = snd_nxt k → snd_queue k' = snd_queue k → snd_buf k' = l → snd_una k' = snd_una k →
  snd_wnd k' = snd_wnd k → 0 ≤ rmt_wnd k' → 0 ≤ cwnd k' → conv k' = conv k →
  tx s0 σ k' ∧ map (at_pos s0) (snd_buf k') = map (at_pos s0) (snd_buf k).
Proof.
  intros [H1 H2 H3 H4 H5 H6 H7 H8 H9] Hl E1 E2 E3 E4 E5 E6 E7 E8. unfold sent_pos in *.
  assert (map (at_pos s0) l = map (at_pos s0) (snd_buf k)) as Hmap.
  { clear -Hl. induction Hl as [|s t l1 l2 (E & _) _ IH]; [done|]. cbn. f_equal; [unfold at_pos; by rewrite E|done]. }
  rewrite <- E3 in Hmap. split; [|done].
  split; unfold sent_pos; rewrite ?E1, ?E2, ?E3, ?E4, ?E5, ?E8; try done.
  - clear -Hl H6. induction Hl as [|s t l1 l2 (Es & Ep & Ec & Em) Hl IH]; [done|]. apply Forall_cons in H6 as [(Hc & Hlt & Hv & Hm) H6].
    constructor; [|by apply IH]. unfold carries, at_pos in *. rewrite Es, Ep, Ec, Em. done.
  - clear -Hl H7. induction Hl as [|s t l1 l2 (Es & _) Hl IH]; [done|]. apply ascending_cons in H7 as [H7 Hall].
    apply ascending_cons. split; [by apply IH|]. clear -Hl Hall Es. revert Hall.
    induction Hl as [|a b l1 l2 (Ea & _) Hl IH]; [done|]. intros [? ?]%Forall_cons. constructor; [|by apply IH].
    unfold at_pos in *. by rewrite Es, Ea.
  - rewrite H8. destruct Hl as [|s t l1 l2 (E & _) _]; [done|]. cbn. done.
  - split_and!; try done; apply H9.
Qed.

Lemma parse_fastack_post k sn ts : endpoint_ok so σo si σi C N k → input_post k (parse_fastack k sn ts).
Proof.
  intros Hk. unfold parse_fastack. destruct (not_in_flight k sn); [split_and!; [done|done|by left|done]|].
  set (k' := k <| snd_buf ::= count_fastack sn ts |>). pose proof Hk as [H1 H2 H3 H4 H5 H6 H7].
  destruct (tx_rewritten so σo k (count_fastack sn ts (snd_buf k)) k') as [Htx Hmap];
    try done; [apply count_fastack_same|apply H1..|].
  assert (ahead so si k k') as Ha by (by apply ahead_same).
  destruct (pending_ahead so σo si σo k k' Ha eq_refl eq_refl H3 H4 ltac:(done)) as [H3' H4'].
  split_and!; [|done| |done]; [|intros i Hi; left; by rewrite Hmap].
  split; try done. apply (rx_same si σi C N k); auto.
Qed.

Lemma grow_cwnd_shape k :
  0 ≤ cwnd k → 0 ≤ rmt_wnd k → ∃ c i, grow_cwnd k = k <| cwnd := c |> <| incr := i |> ∧ 0 ≤ c.
Proof.
  intros Hc Hr. unfold grow_cwnd. cbv zeta. destruct (decide (cwnd k < ssthresh k)).
  - destruct (decide (_ < _)); eexists _, _; (split; [reflexivity|]); [exact Hr|cbn; lia].
  - destruct (decide (_ ≤ _)); (destruct (decide (_ < _)); eexists _, _; (split; [reflexivity|]));
      try exact Hr; try exact Hc. apply Z.mod_pos_bound. lia.
Qed.
Lemma grow_cwnd_post k : endpoint_ok so σo si σi C N k → input_post k (grow_cwnd k).
Proof.
  intros Hk. pose proof (eo_tx _ _ _ _ _ _ _ Hk) as Htx. destruct (tx_wnd _ _ _ Htx) as (_ & Hr & Hc).
  destruct (grow_cwnd_shape k Hc Hr) as (c & i & -> & H0). apply endpoint_same; try done. apply Hk.
Qed.

(** A packet of the peer is accepted whole. *)
Lemma input_packet k p :
  endpoint_ok so σo si σi C N k → rx so σo C' (sent_pos so k) peer → N = sent_pos si peer → conv peer = conv k →
  packet_ok si σi so peer p →
  ∃ k', input k p = (Ok (len p), k') ∧ input_post k k'.
Proof.
  intros Hk Hpeer HN Hconv (segs & -> & Hne & Hs). unfold input.
  assert (Forall segment_wf segs ∧ Forall (λ s, s_conv s = conv k) segs) as [Hwf Hcv].
  { split; (eapply Forall_impl; [exact Hs|]); intros s []; [done|congruence]. }
  rewrite decide_False.
  2:{ destruct segs as [|s segs]; [done|]. change (packet (s :: segs)) with (encode s ++ packet segs).
      rewrite len_app, length_encode. unfold encoded_len. pose proof (len_nonneg (s_data s)). pose proof (len_nonneg (packet segs)). lia. }
  rewrite input_loop_packet by done.
  pose proof (input_commands_post segs k (mkAckScan false 0 0) Hk Hpeer HN Hs) as Hpost.
  destruct (input_commands k (mkAckScan false 0 0) segs) as [k1 a]. cbn [fst] in Hpost.
  set (k2 := if as_flag a then _ else k1).
  assert (input_post k k2) as Hpost2.
  { unfold k2. destruct (as_flag a); [|done]. eapply input_post_trans; [exact Hpost|]. apply parse_fastack_post, Hpost. }
  clearbody k2. rewrite len_nil, Z.sub_0_r. eexists. split; [reflexivity|]. destruct (_ && _); [|done].
  eapply input_post_trans; [exact Hpost2|]. apply grow_cwnd_post, Hpost2.
Qed.
End input.

(** ** Output *)

Section output.
Context (so : Z) (σo : list Pay) (si : Z).

(** A buffer and an output queue of segments that [k] may send. *)
Definition pending (k : Kcp) (b : list byte) (out : list (list byte)) : Prop :=
  (∃ segs, b = packet segs ∧ Forall (seg_ok so σo si k) segs) ∧ Forall (packet_ok so σo si k) out.

Lemma packet_app l1 l2 : packet (l1 ++ l2) = packet l1 ++ packet l2.
Proof. apply bind_app. Qed.

Lemma pending_write k b out : pending k b out → pending k [] (write_all out b).
Proof.
  intros [(segs & -> & Hs) Ho]. split; [by exists []|]. unfold write_all. destruct (packet segs) as [|x p] eqn:E; [done|].
  apply Forall_app. split; [done|]. constructor; [|done]. exists segs. split_and!; [done| |done]. by intros ->.
Qed.
Lemma pending_room k m need b out : pending k b out → let '(b', out') := room_for m need b out in pending k b' out'.
Proof. intros Hp. unfold room_for. case_decide; [by apply pending_write|done]. Qed.
Lemma pending_append k b out s : pending k b out → seg_ok so σo si k s → pending k (b ++ encode s) out.
Proof.
  intros [(segs & -> & Hs) Ho] Hseg. split; [|done]. exists (segs ++ [s]). split.
  - rewrite packet_app. f_equal. cbn. by rewrite app_nil_r.
  - apply Forall_app. split; [done|]. by constructor.
Qed.
Lemma pending_step k k' b out : ahead so si k k' → pending k b out → pending k' b out.
Proof.
  intros Ha [(segs & -> & Hs) Ho]. split.
  - exists segs. split; [done|]. eapply Forall_impl; [exact Hs|]. intros s. by apply seg_ok_ahead.
  - eapply Forall_impl; [exact Ho|]. intros p. by apply packet_ok_ahead.
Qed.

(** The segment [flush] fills in for acknowledgements and probes. *)
Record template (k : Kcp) (s : Segment) : Prop := {
  te_conv : s_conv s = conv k;
  te_frg : s_frg s = 0;
  te_wnd : 0 ≤ s_wnd s ≤ max_wnd;
  te_ts : in_u32 (s_ts s);
  te_sn : in_u32 (s_sn s);
  te_una : s_una s = rcv_nxt k;
  te_data : s_data s = []
}.

Lemma template_seg_ok k s :
  template k s → in_u32 (conv k) → in_u32 (rcv_nxt k) →
  (s_cmd s = KCP_CMD_ACK ∧ held si k (pos si (s_sn s)) ∨ s_cmd s = KCP_CMD_WASK ∨ s_cmd s = KCP_CMD_WINS) →
  seg_ok so σo si k s.
Proof.
  intros [H1 H2 H3 H4 H5 H6 H7] Hc Hn Hcmd.
  assert (in_u8 (s_cmd s) ∧ known_cmd (s_cmd s) = true ∧ s_cmd s ≠ KCP_CMD_PUSH) as (? & ? & ?).
  { destruct Hcmd as [[-> _]|[-> | ->]]; done. }
  split; [|done| |done| |lia|done].
  - split; try done; [by rewrite H1|by rewrite H2|pose proof max_wnd_u16; unfold in_u16; lia|by rewrite H6|by rewrite H7].
  - by rewrite H6.
  - intros E. destruct Hcmd as [[_ ?]|[Ec|Ec]]; [done| |]; by rewrite Ec in E.
Qed.

Lemma flush_acks_ok k m acks : ∀ s b out,
  template k s → s_cmd s = KCP_CMD_ACK → in_u32 (conv k) → in_u32 (rcv_nxt k) →
  Forall (λ a, in_u32 a.1 ∧ in_u32 a.2 ∧ held si k (pos si a.1)) acks → pending k b out →
  let '(s', b', out') := flush_acks m acks s b out in
  template k s' ∧ s_wnd s' = s_wnd s ∧ pending k b' out'.
Proof.
  induction acks as [|[sn ts] acks IH]; intros s b out Ht Hcmd Hc Hn Ha Hp; cbn [flush_acks]; [done|].
  apply Forall_cons in Ha as [(Hsn & Hts & Hh) Ha]. cbn in Hsn, Hts, Hh.
  pose proof (pending_room k m KCP_OVERHEAD b out Hp) as Hp'. destruct (room_for m KCP_OVERHEAD b out) as [b1 out1].
  set (s1 := s <| s_sn := sn |> <| s_ts := ts |>).
  assert (template k s1) as Ht1 by (destruct Ht; by split).
  specialize (IH s1 (b1 ++ encode s1) out1 Ht1 Hcmd Hc Hn Ha).
  destruct (flush_acks m acks s1 (b1 ++ encode s1) out1) as [[s' b'] out']. apply IH.
  apply pending_append; [done|]. apply template_seg_ok; try done. left. by split.
Qed.

(** The parts of [flush] that leave both streams alone. *)
Definition quiet_part (k k' : Kcp) : Prop :=
  ∃ b out acks pr pw tp,
    k' = k <| buf := b |> <| output := out |> <| acklist := acks |> <| probe := pr |> <| probe_wait := pw |> <| ts_probe := tp |> ∧
    (acks = acklist k ∨ acks = []) ∧ pending k' b out.

Lemma quiet_ahead k k' : quiet_part k k' → ahead so si k k'.
Proof. intros (b & out & acks & pr & pw & tp & -> & _). by apply ahead_same. Qed.

Lemma ack_template_ok C N σi k :
  rx si σi C N k → template k (ack_template k) ∧ s_cmd (ack_template k) = KCP_CMD_ACK.
Proof.
  intros Hrx. split; [|done]. split; try done. change (0 ≤ wnd_unused k ≤ max_wnd). unfold wnd_unused.
  pose proof (rx_wnd _ _ _ _ _ Hrx). pose proof (len_nonneg (rcv_queue k)). case_decide; zlia.
Qed.

Lemma flush_ack_into_ok C N σi k :
  rx si σi C N k → in_u32 (conv k) → pending k (buf k) (output k) →
  let '(s, k') := flush_ack_into k (ack_template k) in
  template k' s ∧ ∃ b out, k' = k <| buf := b |> <| output := out |> <| acklist := [] |> ∧ pending k' b out.
Proof.
  intros Hrx Hc Hp. destruct (ack_template_ok _ _ _ _ Hrx) as [Ht Hcmd]. unfold flush_ack_into.
  pose proof (flush_acks_ok k (mtu k) (acklist k) (ack_template k) (buf k) (output k) Ht Hcmd Hc (rx_nxt _ _ _ _ _ Hrx) (rx_acks _ _ _ _ _ Hrx) Hp) as H.
  destruct (flush_acks _ _ _ _ _) as [[s b] out]. destruct H as (Ht' & _ & Hp').
  split; [destruct Ht'; by split|]. exists b, out. split; [done|].
  eapply pending_step; [|exact Hp']. by apply ahead_same.
Qed.

Lemma probe_wnd_size_shape k :
  ∃ pr pw tp, probe_wnd_size k = k <| probe := pr |> <| probe_wait := pw |> <| ts_probe := tp |>.
Proof.
  unfold probe_wnd_size. repeat case_decide; [..|exists (probe k), 0, 0; by destruct k].
  - exists (probe k). by do 2 eexists.
  - by do 3 eexists.
  - exists (probe k), (probe_wait k), (ts_probe k). by destruct k.
Qed.

Lemma flush_probe_command_ok k cmd s :
  template k s → (cmd = KCP_CMD_WASK ∨ cmd = KCP_CMD_WINS) → in_u32 (conv k) → in_u32 (rcv_nxt k) →
  pending k (buf k) (output k) →
  let '(s', k') := flush_probe_command k cmd s in
  template k' s' ∧ ∃ b out, k' = k <| buf := b |> <| output := out |> ∧ pending k' b out.
Proof.
  intros Ht Hcmd Hc Hn Hp. unfold flush_probe_command.
  pose proof (pending_room k (mtu k) KCP_OVERHEAD (buf k) (output k) Hp) as Hp'. destruct (room_for _ _ _ _) as [b out].
  set (s1 := s <| s_cmd := cmd |>). assert (template k s1) as Ht1 by (destruct Ht; by split).
  split; [destruct Ht1; by split|]. eexists _, _. split; [done|].
  apply (pending_step k); [by apply ahead_same|]. apply pending_append; [done|]. apply template_seg_ok; try done. by right.
Qed.

Lemma flush_head C N σi k :
  rx si σi C N k → in_u32 (conv k) → pending k (buf k) (output k) →
  let '(s1, k1) := flush_ack_into k (ack_template k) in
  let '(s2, k2) := flush_probe_commands (probe_wnd_size k1) s1 in
  template k2 s2 ∧ quiet_part k k2.
Proof.
  intros Hrx Hc Hp. pose proof (flush_ack_into_ok C N σi k Hrx Hc Hp) as H1.
  destruct (flush_ack_into k (ack_template k)) as [s1 k1]. destruct H1 as (Ht1 & b1 & out1 & -> & Hp1).
  set (k1 := k <| buf := b1 |> <| output := out1 |> <| acklist := [] |>) in *.
  destruct (probe_wnd_size_shape k1) as (pr & pw & tp & ->).
  set (k2 := k1 <| probe := pr |> <| probe_wait := pw |> <| ts_probe := tp |>).
  assert (template k2 s1) as Ht2 by (destruct Ht1; by split).
  assert (pending k2 (buf k2) (output k2)) as Hp2 by (eapply pending_step; [|exact Hp1]; by apply ahead_same).
  assert (in_u32 (rcv_nxt k2)) as Hn by apply Hrx. unfold flush_probe_commands.
  set (r1 := if decide _ then flush_probe_command k2 KCP_CMD_WASK s1 else (s1, k2)).
  assert (template r1.2 r1.1 ∧ ∃ b out, r1.2 = k2 <| buf := b |> <| output := out |> ∧ pending r1.2 b out) as (Ht3 & b3 & out3 & E3 & Hp3).
  { unfold r1. case_decide.
    - pose proof (flush_probe_command_ok k2 KCP_CMD_WASK s1 Ht2 ltac:(by left) Hc Hn Hp2) as Hcmd. by destruct (flush_probe_command _ _ _).
    - split; [done|]. exists b1, out1. done. }
  destruct r1 as [s3 k3]. cbn [fst snd] in *. subst k3. set (k3 := k2 <| buf := b3 |> <| output := out3 |>) in *.
  set (r2 := if decide _ then flush_probe_command k3 KCP_CMD_WINS s3 else (s3, k3)).
  assert (template r2.2 r2.1 ∧ ∃ b out, r2.2 = k3 <| buf := b |> <| output := out |> ∧ pending r2.2 b out) as (Ht4 & b4 & out4 & E4 & Hp4).
  { unfold r2. case_decide.
    - pose proof (flush_probe_command_ok k3 KCP_CMD_WINS s3 Ht3 ltac:(by right) Hc Hn Hp3) as Hcmd. by destruct (flush_probe_command _ _ _).
    - split; [done|]. exists b3, out3. done. }
  destruct r2 as [s4 k4]. cbn [fst snd] in *. subst k4. split; [destruct Ht4; by split|].
  exists b4, out4, [], 0, pw, tp. split; [reflexivity|]. split; [by right|]. eapply pending_step; [|exact Hp4]. by apply ahead_same.
Qed.
End output.

(** *** Admission of queued segments *)

Lemma drop_cons_lookup (σ : list Pay) n p l : drop n σ = p :: l → σ !! n = Some p ∧ drop (S n) σ = l.
Proof.
  intros H. split.
  - rewrite <- (Nat.add_0_r n), <- lookup_drop, H. done.
  - rewrite <- (drop_drop σ 1 n) || idtac. replace (S n) with (n + 1)%nat by lia. rewrite <- drop_drop, H. done.
Qed.

Lemma admit_tx so σ wnd window queue : ∀ k,
  tx so σ (k <| snd_queue := queue |>) →
  let k' := admit_segments queue k wnd window in
  tx so σ k' ∧ sent_pos so k ≤ sent_pos so k' ∧ (∃ new, snd_buf k' = snd_buf k ++ new) ∧
  (∀ i, sent_pos so k ≤ i < sent_pos so k' → i ∈ map (at_pos so) (snd_buf k')) ∧
  ∃ n l q, k' = k <| snd_nxt := n |> <| snd_buf := l |> <| snd_queue := q |>.
Proof.
  induction queue as [|s queue IH]; intros k Htx; cbn [admit_segments]; destruct (decide (timediff (snd_nxt k) (wadd (snd_una k) window) < 0)).
  - cbv zeta. split_and!; [done|done|by exists []; rewrite app_nil_r|intros i Hi; unfold sent_pos in Hi; cbn in Hi; lia|].
    by eexists _, _, _.
  - cbv zeta. split_and!; [done|done|by exists []; rewrite app_nil_r|intros i Hi; unfold sent_pos in Hi; cbn in Hi; lia|].
    by eexists _, _, _.
  - match goal with |- context [admit_segments queue ?x wnd window] => set (k1 := x) end. cbv zeta.
    set (seg := mkSegment (conv k) KCP_CMD_PUSH (s_frg s) wnd (current k) (snd_nxt k) (rcv_nxt k) (current k) (rx_rto k) 0 0 (s_data s)) in *.
    pose proof (tx_range _ _ _ Htx) as Hr. destruct Htx as [H1 H2 H3 H4 H5 H6 H7 H8 H9].
    change (sent_pos so (k <| snd_queue := s :: queue |>)) with (sent_pos so k) in *.
    change (snd_queue (k <| snd_queue := s :: queue |>)) with (s :: queue) in *. cbn [map] in H5. rewrite len_cons in H4.
    pose proof (len_nonneg queue).
    assert (sent_pos so k1 = sent_pos so k + 1) as Hn.
    { apply pos_wadd; [lia|]. fold (sent_pos so k). unfold in_range, MAX_SEGMENTS in Hr. lia. }
    symmetry in H5. apply drop_cons_lookup in H5 as [H5 H5']. pose proof (pos_range so (snd_nxt k)) as Hpr.
    destruct (IH k1) as (I1 & I2 & (new & I3) & I4 & (n' & l' & q' & I5)).
    { assert (snd_buf k1 = snd_buf k ++ [seg]) as Eb by done.
      split; try done; change (sent_pos so (k1 <| snd_queue := queue |>)) with (sent_pos so k1);
        change (snd_buf (k1 <| snd_queue := queue |>)) with (snd_buf k1); rewrite ?Eb.
      - apply wadd_u32.
      - rewrite Hn. change (snd_queue (k1 <| snd_queue := queue |>)) with queue. lia.
      - rewrite Hn. replace (Z.to_nat (sent_pos so k + 1)) with (S (Z.to_nat (sent_pos so k))) by (unfold sent_pos; lia). done.
      - rewrite Hn. apply Forall_app. split.
        + eapply Forall_impl; [exact H6|]. cbn. intros t (? & ? & ? & ?). split_and!; try done. unfold sent_pos in *. cbn in *. lia.
        + constructor; [|done]. split_and!; try done. change (at_pos so seg) with (sent_pos so k). lia.
      - apply ascending_app; [done|repeat constructor|]. intros a b Ha ->%list_elem_of_singleton.
        rewrite Forall_forall in H6. destruct (H6 _ Ha) as (_ & ? & _). done.
      - change (snd_una k = una_of (snd_buf k ++ [seg]) (snd_nxt k1)).
        change (snd_una k = una_of (snd_buf k) (snd_nxt k)) in H8. rewrite H8. by destruct (snd_buf k). }
    change (snd_buf k1) with (snd_buf k ++ [seg]) in I3. split_and!; [done|lia|exists ([seg] ++ new); by rewrite app_assoc| |].
    + intros i Hi. destruct (decide (sent_pos so k1 ≤ i)); [apply I4; lia|]. replace i with (at_pos so seg).
      * apply list_elem_of_fmap. exists seg. split; [done|]. rewrite I3. set_solver.
      * change (at_pos so seg) with (sent_pos so k). lia.
    + exists n', l', q'. rewrite I5. reflexivity.
  - cbv zeta. split_and!; [done|done|by exists []; rewrite app_nil_r|intros i Hi; unfold sent_pos in Hi; cbn in Hi; lia|].
    by eexists _, _, _.
Qed.
End limits.
