(* ===== verification/KcpReliable.v ===== *)
(** * Reliable delivery over KCP

    The steps of two engines joined by a network, the invariant they keep, and the theorems
    about the messages that arrive. *)

From Stdlib Require Import Sorting.Sorted.
From S2P Require Import Prelude Bytes CoreTypes Kcp KcpLink.
Import Kcp.

(** ** [flush] *)

Section limits.
Context `{L : Limits}.

Section flush.
Context (so : Z) (σo : list Pay) (si : Z) (σi : list Pay) (C N : Z).

Definition same_place (s t : Segment) : Prop :=
  s_sn t = s_sn s ∧ pay t = pay s ∧ s_conv t = s_conv s ∧ s_cmd t = s_cmd s.

Lemma due_same k resent rtomin s f :
  let '(_, s', f') := due k resent rtomin s f in
  same_place s s' ∧ fl_buf f' = fl_buf f ∧ fl_output f' = fl_output f.
Proof. unfold due. repeat case_decide; done. Qed.

(** A buffered segment, stamped and sent. *)
Lemma sent_seg_ok k s t wnd :
  tx so σo k → in_u32 (conv k) → in_u32 (rcv_nxt k) → 0 ≤ wnd ≤ max_wnd → in_u32 (current k) →
  carries so σo s → at_pos so s < sent_pos so k → s_conv s = conv k → s_cmd s = KCP_CMD_PUSH → same_place s t →
  seg_ok so σo si k (t <| s_ts := current k |> <| s_wnd := wnd |> <| s_una := rcv_nxt k |>).
Proof.
  intros Htx Hc Hn Hw Hcur [Hu Hl] Hlt Hconv Hcmd (E1 & E2 & E3 & E4).
  pose proof max_frag_u16 as HF. pose proof max_wnd_u16 as HW. assert (pay_ok (pay s)) as [Hf Hd].
  { pose proof (tx_pays _ _ _ Htx) as Hp. rewrite Forall_forall in Hp. apply Hp. by eapply list_elem_of_lookup_2. }
  set (t' := t <| s_ts := current k |> <| s_wnd := wnd |> <| s_una := rcv_nxt k |>).
  assert (pay t' = pay s) as Ep by done. assert (s_sn t' = s_sn s) as Es by done.
  assert (s_frg t' = s_frg s ∧ s_data t' = s_data s) as [Ef Ed] by (by injection Ep).
  assert (in_u16 wnd) as Hw16 by (unfold in_u16; lia). unfold KCP_WND_RCV in Hf. cbn [pay fst snd] in Hf, Hd.
  split.
  - split; try done; [change (in_u32 (s_conv t)); by rewrite E3, Hconv|change (in_u8 (s_cmd t)); by rewrite E4, Hcmd
      |change (known_cmd (s_cmd t) = true); by rewrite E4, Hcmd|rewrite Ef; unfold in_u8, u8_max; lia|by rewrite Es
      |rewrite Ed; unfold u32_max, u16_max in *; lia].
  - change (s_conv t = conv k). congruence.
  - done.
  - intros _. unfold carries, at_pos in *. rewrite Es, Ep. done.
  - intros H. change (s_cmd t = KCP_CMD_ACK) in H. by rewrite E4, Hcmd in H.
  - change (wnd ≤ max_wnd). lia.
  - intros H. change (s_cmd t ≠ KCP_CMD_PUSH) in H. by rewrite E4, Hcmd in H.
Qed.

Lemma flush_segments_ok k wnd resent rtomin l : ∀ f,
  tx so σo k → in_u32 (conv k) → in_u32 (rcv_nxt k) → 0 ≤ wnd ≤ max_wnd → in_u32 (current k) →
  Forall (λ s, carries so σo s ∧ at_pos so s < sent_pos so k ∧ s_conv s = conv k ∧ s_cmd s = KCP_CMD_PUSH) l →
  pending so σo si k (fl_buf f) (fl_output f) →
  let '(l', f') := flush_segments k wnd resent rtomin l f in
  Forall2 same_place l l' ∧ pending so σo si k (fl_buf f') (fl_output f').
Proof.
  induction l as [|s l IH]; intros f Htx Hc Hn Hw Hcur Hl Hp; cbn [flush_segments]; [done|].
  apply Forall_cons in Hl as [(Hcar & Hlt & Hconv & Hcmd) Hl].
  assert (∃ s1 f1, flush_segment k wnd resent rtomin s f = (s1, f1) ∧ same_place s s1 ∧ pending so σo si k (fl_buf f1) (fl_output f1))
    as (s1 & f1 & -> & Hsame & Hp1).
  { unfold flush_segment. pose proof (due_same k resent rtomin s f) as Hdue.
    destruct (due k resent rtomin s f) as [[need s0] f0]. destruct Hdue as (Hs0 & Eb & Eo). destruct need; cbn [negb].
    2:{ eexists _, _. split; [done|]. split; [done|]. by rewrite Eb, Eo. }
    set (t := s0 <| s_ts := current k |> <| s_wnd := wnd |> <| s_una := rcv_nxt k |>).
    rewrite <- Eb, <- Eo in Hp. pose proof (pending_room so σo si k (mtu k) (encoded_len t) _ _ Hp) as Hr.
    destruct (room_for _ _ _ _) as [b out]. eexists _, _. split; [done|]. split; [done|].
    assert (pending so σo si k (b ++ encode t) out) by (apply pending_append; [done|]; by eapply sent_seg_ok).
    by case_decide. }
  specialize (IH f1 Htx Hc Hn Hw Hcur Hl Hp1). destruct (flush_segments k wnd resent rtomin l f1) as [l' f'].
  destruct IH. split; [by constructor|done].
Qed.

Lemma congestion_nonneg k change lost resent window :
  let '(_, c, _) := congestion k change lost resent window in 0 ≤ c.
Proof.
  unfold congestion. destruct (decide (0 < change)), lost; cbv beta iota zeta; case_decide; lia.
Qed.

Lemma flush_ok k :
  endpoint_ok so σo si σi C N k → updated k = true →
  ∃ k', flush k = (Ok tt, k') ∧ endpoint_ok so σo si σi C N k' ∧ ahead so si k k' ∧
    (∀ i, i ∈ map (at_pos so) (snd_buf k) ∨ sent_pos so k ≤ i < sent_pos so k' → i ∈ map (at_pos so) (snd_buf k')).
Proof.
  intros Hk Hup. pose proof Hk as [Htx Hrx Hbuf Hout [Hcv Hic] Hcur [Hst Hms]]. unfold flush. rewrite Hup. cbn [negb].
  pose proof (flush_head so σo si C N σi k Hrx Hcv (conj Hbuf Hout)) as Hhead.
  destruct (flush_ack_into k (ack_template k)) as [s1 k1].
  destruct (flush_probe_commands (probe_wnd_size k1) s1) as [s2 k2]. destruct Hhead as [Ht Hq].
  pose proof (quiet_ahead _ _ _ _ _ Hq) as Ha2. destruct Hq as (b & out & acks & pr & pw & tp & E2 & Hacks & Hp2).
  set (window := if negb (nocwnd k2) then _ else _). clearbody window.
  assert (tx so σo (k2 <| snd_queue := snd_queue k2 |>)) as Htx2.
  { apply (tx_same so σo k); try done; rewrite E2; try done; apply Htx. }
  destruct (admit_tx so σo (s_wnd s2) window (snd_queue k2) k2 Htx2) as (Htx3 & Hle3 & (new & Hnew) & Hin3 & (n & l & q & E3)).
  set (k3 := admit_segments (snd_queue k2) k2 (s_wnd s2) window) in *.
  set (resent := if decide _ then _ else _). set (rtomin := if negb _ then _ else _). clearbody resent rtomin.
  assert (conv k3 = conv k ∧ rcv_nxt k3 = rcv_nxt k ∧ rcv_wnd k3 = rcv_wnd k ∧ rcv_queue k3 = rcv_queue k ∧
    rcv_buf k3 = rcv_buf k ∧ (acklist k3 = acklist k ∨ acklist k3 = []) ∧ input_conv k3 = input_conv k ∧
    current k3 = current k ∧ stream k3 = stream k ∧ mss k3 = mss k ∧ buf k3 = b ∧ output k3 = out) as
    (F1 & F2 & F3 & F4 & F5 & F6 & F7 & F8 & F9 & F10 & F11 & F12).
  { clearbody k3. rewrite E3, E2. split_and!; done. }
  assert (snd_buf k2 = snd_buf k ∧ sent_pos so k2 = sent_pos so k) as [G1 G2] by (rewrite E2; done).
  assert (ahead so si k2 k3) as Ha3.
  { split; [by rewrite F1, (ah_conv _ _ _ _ Ha2)|done| |]; clearbody k3; rewrite E3; done. }
  assert (ahead so si k k3) as Ha by (by etrans). clear E3. clearbody k3.
  pose proof (flush_segments_ok k3 (s_wnd s2) resent rtomin (snd_buf k3)
    (mkFlushed (buf k3) (output k3) (xmit k3) (state k3) false 0) Htx3) as Hfs.
  destruct (flush_segments _ _ _ _ _ _) as [sent f].
  destruct Hfs as [Hsame Hpend]; [by rewrite F1|rewrite F2; apply Hrx|apply Ht|by rewrite F8|apply Htx3| |].
  { cbn [fl_buf fl_output]. rewrite F11, F12. by apply (pending_step so σo si k2). }
  pose proof (congestion_nonneg (k3 <| snd_buf := sent |> <| buf := [] |> <| output := write_all (fl_output f) (fl_buf f) |>
    <| xmit := fl_xmit f |> <| state := fl_state f |>) (fl_change f) (fl_lost f) resent window) as Hcw.
  destruct (congestion _ _ _ _ _) as [[th cw] inc]. eexists. split; [reflexivity|].
  match goal with |- endpoint_ok _ _ _ _ _ _ ?x ∧ _ => set (k' := x) end.
  destruct (tx_rewritten so σo k3 sent k') as [Htx' Hmap]; try done; [apply Htx3|].
  assert (ahead so si k3 k') as Ha' by (by apply ahead_same).
  pose proof (pending_write so σo si k' (fl_buf f) (fl_output f) (pending_step so σo si k3 k' _ _ Ha' Hpend)) as [Hb' Ho'].
  split; [|split; [by etrans|]].
  - split; try done.
    + apply (rx_same si σi C N k); done.
    + change (in_u32 (conv k3) ∧ input_conv k3 = false). by rewrite F1, F7.
    + change (in_u32 (current k3)). by rewrite F8.
    + change (stream k3 = false ∧ 0 < mss k3 ≤ max_frag). by rewrite F9, F10.
  - intros i Hi. rewrite Hmap. destruct Hi as [Hi|Hi].
    + rewrite Hnew, G1, map_app. set_solver.
    + apply Hin3. rewrite G2. exact Hi.
Qed.
End flush.

Section calls.
Context (so : Z) (σo : list Pay) (si : Z) (σi : list Pay) (C N : Z).

Definition output_post (k k' : Kcp) : Prop :=
  endpoint_ok so σo si σi C N k' ∧ ahead so si k k' ∧
  (∀ i, i ∈ map (at_pos so) (snd_buf k) ∨ sent_pos so k ≤ i < sent_pos so k' → i ∈ map (at_pos so) (snd_buf k')).

(** The timers of [update]. *)
Lemma update_timers k now :
  ∃ t, let k1 := k <| current := now |> <| updated := true |> <| ts_flush := t |> in
  update k now = flush k1 ∨ update k now = (Ok tt, k1).
Proof.
  unfold update. set (k0 := k <| current := now |>).
  assert (∃ t, (if negb (updated k0) then k0 <| updated := true |> <| ts_flush := now |> else k0) =
    k <| current := now |> <| updated := true |> <| ts_flush := t |>) as [t ->].
  { destruct (updated k0) eqn:E; cbn [negb].
    - exists (ts_flush k). unfold k0 in *. destruct k. cbn in *. by subst.
    - exists now. done. }
  set (slap := timediff now (ts_flush _)). destruct (decide (-10000 ≤ slap < 10000)).
  - destruct (decide (0 ≤ slap)); [destruct (decide (0 ≤ timediff now _))|].
    + eexists. left. reflexivity.
    + eexists. left. reflexivity.
    + exists t. by right.
  - rewrite decide_True by lia. destruct (decide (0 ≤ timediff now _)); eexists; left; reflexivity.
Qed.

Lemma update_ok k now :
  endpoint_ok so σo si σi C N k → in_u32 now → ∃ k', update k now = (Ok tt, k') ∧ output_post k k'.
Proof.
  intros Hk Hnow. pose proof (eo_tx _ _ _ _ _ _ _ Hk) as Htx. destruct (update_timers k now) as [t Hup]. cbv zeta in Hup.
  set (k1 := k <| current := now |> <| updated := true |> <| ts_flush := t |>) in *.
  destruct (endpoint_same so σo si σi C N k k k1) as (Hk1 & Ha1 & _ & _); try done; [apply Htx..|].
  destruct Hup as [-> | ->].
  - destruct (flush_ok so σo si σi C N k1 Hk1 eq_refl) as (k' & E & Hk' & Ha' & Hin). exists k'. split; [done|].
    split_and!; [done|by etrans|]. exact Hin.
  - exists k1. split; [done|]. split_and!; [done|done|]. intros i [Hi|Hi]; [done|]. change (sent_pos so k1) with (sent_pos so k) in Hi. lia.
Qed.

Lemma flush_ack_ok k :
  endpoint_ok so σo si σi C N k → output_post k (flush_ack k).2.
Proof.
  intros Hk. pose proof Hk as [Htx Hrx Hbuf Hout [Hcv Hic] Hcur [Hst Hms]]. unfold flush_ack.
  destruct (negb (updated k)); cbn [snd].
  { split_and!; [done|done|]. intros i [Hi|Hi]; [done|lia]. }
  pose proof (flush_ack_into_ok so σo si C N σi k Hrx Hcv (conj Hbuf Hout)) as H.
  destruct (flush_ack_into k (ack_template k)) as [s k']. destruct H as (_ & b & out & -> & [Hb Ho]). cbn [snd].
  set (k' := k <| buf := b |> <| output := out |> <| acklist := [] |>) in *.
  split_and!; [|by apply ahead_same|].
  - split; try done; [apply (tx_same so σo k); try done; apply Htx|apply (rx_same si σi C N k); auto].
  - intros i [Hi|Hi]; [done|]. change (sent_pos so k') with (sent_pos so k) in Hi. lia.
Qed.
(** Taking the packets out of the output queue. *)
Lemma drain_output_ok k : endpoint_ok so σo si σi C N k → output_post k (k <| output := [] |>).
Proof.
  intros Hk. pose proof Hk as [Htx Hrx Hbuf Hout Hcv Hcur Hm]. set (k' := k <| output := [] |>).
  assert (ahead so si k k') as Ha by (by apply ahead_same). split_and!; [|done|].
  - split; try done; [apply (tx_same so σo k); try done; apply Htx|apply (rx_same si σi C N k); auto|].
    destruct Hbuf as (segs & E & Hs). exists segs. split; [done|]. eapply Forall_impl; [exact Hs|]. intros s. by apply seg_ok_ahead.
  - intros i [Hi|Hi]; [done|]. change (sent_pos so k') with (sent_pos so k) in Hi. lia.
Qed.
End calls.

(** ** Messages *)

Definition frag_count (mss : Z) (data : list byte) : Z :=
  1 `max` (if decide (len data ≤ mss) then 1 else div_ceil (len data) mss).
(** What a message becomes in its stream. *)
Definition frags (mss : Z) (data : list byte) : list Pay :=
  map pay (fragments (Z.to_nat (frag_count mss data)) false mss data).

(** A run of fragments that ends with the first one numbered 0. *)
Fixpoint chain (l : list Pay) : Prop :=
  match l with
  | [] => False
  | [p] => p.1 = 0
  | p :: l => p.1 ≠ 0 ∧ chain l
  end.

Lemma fragments_spec n mss : ∀ data,
  0 < mss → len data ≤ Z.of_nat (S n) * mss →
  let l := map pay (fragments (S n) false mss data) in
  chain l ∧ len l = Z.of_nat (S n) ∧ head l = Some (Z.of_nat n, take (Z.to_nat (mss `min` len data)) data) ∧
  concat l.*2 = data ∧ Forall (λ p, 0 ≤ p.1 ≤ Z.of_nat n ∧ len p.2 ≤ mss) l.
Proof.
  induction n as [|n IH]; intros data Hm Hlen.
  - cbn -[Z.of_nat Z.min]. rewrite app_nil_r. split_and!; try done.
    + rewrite take_ge; [done|]. unfold len in *. lia.
    + constructor; [|done]. cbn. unfold len in *. rewrite length_take. lia.
  - set (size := Z.to_nat (mss `min` len data)).
    change (fragments (S (S n)) false mss data) with
      ((new_with_data (take size data) <| s_frg := Z.of_nat (S n) |>) :: fragments (S n) false mss (drop size data)).
    cbn [map]. assert (len (drop size data) ≤ Z.of_nat (S n) * mss) as Hd.
    { unfold len, size in *. rewrite length_drop. unfold len. lia. }
    destruct (IH (drop size data) Hm Hd) as (H1 & H2 & H3 & H4 & H5). set (l := map pay (fragments (S n) false mss (drop size data))) in *.
    cbv zeta. split_and!.
    + destruct l; [done|]. cbn [chain]. split; [cbn; lia|done].
    + rewrite len_cons, H2. lia.
    + done.
    + change (take size data ++ concat l.*2 = data). rewrite H4. apply take_drop.
    + constructor; [|eapply Forall_impl; [exact H5|]; cbn; intros p ?; lia]. cbn -[Z.of_nat]. split; [lia|].
      unfold len, size. rewrite length_take. unfold len. lia.
Qed.

Lemma frags_spec mss data :
  0 < mss →
  chain (frags mss data) ∧ len (frags mss data) = frag_count mss data ∧ 1 ≤ frag_count mss data ∧
  (∃ d, head (frags mss data) = Some (frag_count mss data - 1, d)) ∧ concat (frags mss data).*2 = data ∧
  Forall (λ p, 0 ≤ p.1 < frag_count mss data ∧ len p.2 ≤ mss) (frags mss data).
Proof.
  intros Hm. unfold frags. set (c := frag_count mss data).
  assert (1 ≤ c) as Hc by (unfold c, frag_count; lia).
  assert (len data ≤ c * mss) as Hlen.
  { unfold c, frag_count. case_decide; [lia|]. unfold div_ceil.
    pose proof (Z.div_mod (len data + mss - 1) mss ltac:(lia)). pose proof (Z.mod_pos_bound (len data + mss - 1) mss Hm).
    pose proof (len_nonneg data). nia. }
  destruct (Z.to_nat c) as [|n] eqn:En; [lia|]. destruct (fragments_spec n mss data Hm) as (H1 & H2 & H3 & H4 & H5); [lia|].
  split_and!; try done; [lia|eexists; rewrite H3; f_equal; f_equal; lia|].
  eapply Forall_impl; [exact H5|]. cbn. lia.
Qed.

(** The run of fragments [p] is the message [m]. *)
Record framed (p : list Pay) (m : list byte) : Prop := {
  fr_chain : chain p;
  fr_head : ∃ d, head p = Some (len p - 1, d);
  fr_data : concat p.*2 = m
}.

Lemma frags_framed mss data : 0 < mss → framed (frags mss data) data.
Proof. intros Hm. destruct (frags_spec mss data Hm) as (H1 & H2 & _ & [d H3] & H4 & _). split; [done| |done]. exists d. by rewrite H2. Qed.

Lemma framed_ne m : ~ framed [] m.
Proof. by intros [? _ _]. Qed.

(** *** Receiving *)

Lemma merge_chain q1 q2 : ∀ room,
  chain (map pay q1) → len (concat (map pay q1).*2) ≤ room →
  merge (q1 ++ q2) room = (Ok (concat (map pay q1).*2), q2) ∧ message_len (q1 ++ q2) = len (concat (map pay q1).*2).
Proof.
  induction q1 as [|s q1 IH]; intros room Hc Hroom; [done|]. cbn [app merge message_len].
  change (concat (map pay (s :: q1)).*2) with (s_data s ++ concat (map pay q1).*2) in *. rewrite len_app in *.
  pose proof (len_nonneg (concat (map pay q1).*2)). rewrite decide_False by lia. destruct q1 as [|t q1].
  - cbn in Hc. rewrite !decide_True by done. change (concat (map pay []).*2) with (@nil byte). split; [by rewrite app_nil_r|done].
  - destruct Hc as [Hne Hc]. cbn in Hne. rewrite !decide_False by done.
    destruct (IH (room - len (s_data s)) Hc) as [-> ->]; [lia|done].
Qed.

(** A whole message at the front of the queue. *)
Lemma peeksize_whole k q1 q2 m :
  rcv_queue k = q1 ++ q2 → framed (map pay q1) m → peeksize k = Ok (len m).
Proof.
  intros Eq [Hc [d Hh] <-]. unfold peeksize. rewrite Eq. destruct (merge_chain q1 q2 (len (concat (map pay q1).*2)) Hc ltac:(done)) as [_ Hl].
  destruct q1 as [|s q1]; [done|]. cbn [map head] in Hh. injection Hh as Hf _. unfold len in Hf. cbn [length] in Hf. rewrite length_map in Hf. cbn [app] in *.
  destruct (decide (s_frg s = 0)) as [E|E].
  - destruct q1; [|cbn [length] in Hf; lia]. cbn. by rewrite app_nil_r.
  - rewrite decide_False; [by f_equal|]. rewrite len_cons, len_app. pose proof (len_nonneg q2). unfold len in *. lia.
Qed.
(** Only the beginning of one. *)
Lemma peeksize_partial k p m n :
  map pay (rcv_queue k) = take n p → framed p m → (n < length p)%nat → ∃ e, peeksize k = Err e.
Proof.
  intros Eq [Hc [d Hh] _] Hn. unfold peeksize. destruct (rcv_queue k) as [|s q]; [by eexists|].
  destruct p as [|x p]; [done|]. destruct n as [|n]; [done|]. cbn [map head take] in *. injection Eq as <- Eq. injection Hh as Hf _.
  assert (length q ≤ n)%nat as Hq by (rewrite <- (length_map pay q), Eq, length_take; lia). cbn [length] in Hn.
  rewrite decide_False by (rewrite Hf; unfold len; cbn [length]; lia).
  rewrite decide_True by (unfold len in *; cbn [length] in *; lia). by eexists.
Qed.

Section messages.
Context (so : Z) (σo : list Pay) (si : Z) (σi : list Pay) (C N : Z).

(** The queue of an endpoint whose next message is [p]. *)
Lemma queue_split k p τ :
  rx si σi C N k → drop (Z.to_nat C) σi = p ++ τ → len p ≤ rcvd_pos si k - C →
  ∃ q1 q2, rcv_queue k = q1 ++ q2 ∧ map pay q1 = p ∧
    map pay q2 = take (Z.to_nat (rcvd_pos si k - (C + len p))) (drop (Z.to_nat (C + len p)) σi).
Proof.
  intros Hrx Hd Hle. pose proof (rx_queue _ _ _ _ _ Hrx) as Hq. pose proof (rx_bounds _ _ _ _ _ Hrx) as Hb.
  rewrite Hd, take_app_ge in Hq by (unfold len in Hle; lia).
  apply map_eq_app in Hq as (q1 & q2 & E & E1 & E2). exists q1, q2. split_and!; [done|done|]. rewrite E2. f_equal.
  - unfold len in *. lia.
  - assert (0 ≤ len p) by apply len_nonneg. rewrite Z2Nat.inj_add, <- drop_drop, Hd by lia. unfold len. by rewrite Nat2Z.id, drop_app_length.
Qed.

Lemma take_message_ok k (p : list Pay) q :
  endpoint_ok so σo si σi C N k → len p ≤ rcvd_pos si k - C →
  map pay q = take (Z.to_nat (rcvd_pos si k - (C + len p))) (drop (Z.to_nat (C + len p)) σi) →
  let k' := move_buf (k <| rcv_queue := q |>) in
  endpoint_ok so σo si σi (C + len p) N k' ∧ ahead so si k k' ∧ snd_buf k' = snd_buf k ∧ snd_nxt k' = snd_nxt k.
Proof.
  intros [Htx Hrx Hbuf Hout Hcv Hcur Hm] Hle Hq. pose proof Hrx as [Hn Hb _ Hw Hf Hs Ha]. set (k1 := k <| rcv_queue := q |>). cbv zeta.
  destruct (move_buf_rx si σi (C + len p) N k1 k) as (Hrx' & Hle' & Hheld & _); try done; try lia.
  { pose proof (len_nonneg p). split; try done. change (pos si (rcv_nxt k1)) with (rcvd_pos si k). lia. }
  assert (∃ l n q, move_buf k1 = k <| rcv_queue := q |> <| rcv_buf := l |> <| rcv_nxt := n |>) as (l & n & q' & E).
  { unfold move_buf. destruct (move_loop _ _ _ _) as [[l q'] n]. by exists l, n, q'. }
  rewrite E in *. set (k' := k <| rcv_queue := q' |> <| rcv_buf := l |> <| rcv_nxt := n |>) in *.
  assert (ahead so si k k') as Hah by (split; [done|done|exact Hle'|exact Hheld]).
  destruct (pending_ahead so σo si σo k k' Hah eq_refl eq_refl Hbuf Hout ltac:(done)) as [Hbuf' Hout'].
  split_and!; [|done..]. split; try done. apply (tx_same so σo k); try done; apply Htx.
Qed.

(** [recv] returns the next message of the stream, whole, or nothing. *)
Lemma recv_ok k room parts rest :
  endpoint_ok so σo si σi C N k → drop (Z.to_nat C) σi = concat parts → Forall2 framed parts rest →
  ∃ r k', recv k room = Done (r, k') ∧ ahead so si k k' ∧ snd_buf k' = snd_buf k ∧ snd_nxt k' = snd_nxt k ∧
    match r with
    | Ok m => ∃ p parts' rest', parts = p :: parts' ∧ rest = m :: rest' ∧ endpoint_ok so σo si σi (C + len p) N k'
    | Err _ => k' = k
    end.
Proof.
  intros Hk Hd Hfr. pose proof (eo_rx _ _ _ _ _ _ _ Hk) as Hrx. pose proof (rx_queue _ _ _ _ _ Hrx) as Hq.
  assert (∀ e, recv k room = Done (Err e, k) → ∃ r k', recv k room = Done (r, k') ∧ ahead so si k k' ∧ snd_buf k' = snd_buf k ∧ snd_nxt k' = snd_nxt k ∧
    match r with Ok m => ∃ p parts' rest', parts = p :: parts' ∧ rest = m :: rest' ∧ endpoint_ok so σo si σi (C + len p) N k' | Err _ => k' = k end) as Herr
    by (intros e E; exists (Err e), k; done).
  destruct Hfr as [|p m parts rest Hp Hfr].
  { rewrite Hd in Hq. cbn [concat] in Hq. rewrite take_nil in Hq. apply (Herr RecvQueueEmpty). unfold recv. by destruct (rcv_queue k). }
  cbn [concat] in Hd. destruct (decide (len p ≤ rcvd_pos si k - C)) as [Hle|Hle].
  - destruct (queue_split k p (concat parts) Hrx Hd Hle) as (q1 & q2 & Eq & E1 & E2). subst p.
    pose proof (peeksize_whole k q1 q2 m Eq Hp) as Hpeek. destruct (decide (len m > room)) as [Hbig|Hbig].
    { apply (Herr UserBufTooSmall). unfold recv. rewrite Hpeek, decide_True by done. destruct (rcv_queue k); [|done].
      destruct q1; [|done]. by destruct (framed_ne m). }
    destruct (take_message_ok k (map pay q1) q2 Hk Hle E2) as (H1 & H2 & H3 & H4).
    assert (merge (rcv_queue k) room = (Ok m, q2)) as Hmerge.
    { rewrite Eq. destruct Hp as [Hc _ <-]. apply merge_chain; [done|lia]. }
    unfold recv. rewrite Hpeek, Hmerge, decide_False, decide_True by done.
    destruct (rcv_queue k) as [|s0 q0] eqn:E0; [destruct q1; [by destruct (framed_ne m)|done]|].
    set (k1 := move_buf _) in *. set (b := _ && _). destruct b.
    + eexists _, _. split; [reflexivity|]. destruct (endpoint_same so σo si σi (C + len (map pay q1)) N k1 k1 (k1 <| probe ::= Z.lor KCP_ASK_TELL |>) H1)
        as (G1 & G2 & _ & _); try done; [apply H1..|]. split_and!; [by etrans|done..|]. by eexists _, _, _.
    + eexists _, _. split; [reflexivity|]. split_and!; [done..|]. by eexists _, _, _.
  - pose proof (rx_bounds _ _ _ _ _ Hrx). destruct (peeksize_partial k p m (Z.to_nat (rcvd_pos si k - C))) as [e He]; [|done|unfold len in *; lia|].
    { rewrite Hq, Hd. apply take_app_le. unfold len in *. lia. }
    apply (Herr (match rcv_queue k with [] => RecvQueueEmpty | _ => e end)). unfold recv. rewrite He. by destruct (rcv_queue k).
Qed.

(** [send] appends the fragments of the message, or refuses it. *)
Lemma send_ok k data :
  endpoint_ok so σo si σi C N k → len σo + KCP_WND_RCV ≤ MAX_SEGMENTS →
  ∃ r k', send k data = Done (r, k') ∧
    match r with
    | Ok n => n = len data ∧ ∃ p, framed p data ∧ len p < KCP_WND_RCV ∧ endpoint_ok so (σo ++ p) si σi C N k' ∧
        ahead so si k k' ∧ snd_buf k' = snd_buf k ∧ snd_nxt k' = snd_nxt k
    | Err _ => k' = k
    end.
Proof.
  intros [Htx Hrx Hbuf Hout Hcv Hcur [Hst Hm]] Hlen. unfold send. rewrite decide_False by lia. rewrite Hst. cbn [andb]. rewrite Hst.
  set (count := if decide (len data ≤ mss k) then 1 else div_ceil (len data) (mss k)). destruct (decide (KCP_WND_RCV ≤ count)) as [Hbig|Hbig]; [by eexists _, _|].
  change (1 `max` count) with (frag_count (mss k) data). set (segs := fragments _ _ _ _).
  assert (map pay segs = frags (mss k) data) as Es by done. destruct (frags_spec (mss k) data ltac:(lia)) as (H1 & H2 & H3 & [d H4] & H5 & H6).
  assert (frag_count (mss k) data < KCP_WND_RCV) as Hc by (unfold frag_count; fold count; unfold KCP_WND_RCV in *; lia).
  eexists _, _. split; [reflexivity|]. split.
  { rewrite <- H5, <- Es. clear. cbn. induction segs as [|s l IH]; [done|]. cbn. rewrite len_app, <- IH. unfold sumZ. cbn. lia. }
  exists (frags (mss k) data). split; [apply frags_framed; lia|]. split; [lia|].
  set (k' := k <| snd_queue ::= _ |>). assert (ahead so si k k') as Ha by done.
  assert (σo `prefix_of` σo ++ frags (mss k) data) as Hpre by (by eexists).
  split_and!; [|done..]. destruct Htx as [T1 T2 T3 T4 T5 T6 T7 T8 T9]. split; try done.
  - split; try done.
    + rewrite len_app. lia.
    + apply Forall_app. split; [done|]. eapply Forall_impl; [exact H6|]. intros p [? ?]. unfold pay_ok, KCP_WND_RCV in *. lia.
    + change (snd_queue k') with (snd_queue k ++ segs). change (sent_pos so k') with (sent_pos so k). rewrite !len_app, <- Es. unfold len in *. rewrite length_map. lia.
    + change (snd_queue k') with (snd_queue k ++ segs). change (sent_pos so k') with (sent_pos so k). rewrite map_app, T5, drop_app_le, Es; [done|].
      pose proof (len_nonneg (snd_queue k)). unfold len in *. lia.
    + eapply Forall_impl; [exact T6|]. intros s (? & ?). split; [by eapply carries_prefix|done].
  - apply (rx_same si σi C N k); auto.
  - destruct Hbuf as (l & E & Hl). exists l. split; [done|]. eapply Forall_impl; [exact Hl|]. intros s. by apply seg_ok_ahead.
  - eapply Forall_impl; [exact Hout|]. intros p. by apply packet_ok_ahead.
Qed.
End messages.

(** ** Two engines and a network *)

(** An engine with the messages its user gave it and took from it, and the packets the network
    already took out of its output queue. *)
Record End := mkEnd { kcp : Kcp; sent : list (list byte); received : list (list byte); carried : list (list byte) }.
(** Every packet the engine ever wrote. *)
Definition written (x : End) : list (list byte) := carried x ++ output (kcp x).
Lemma carried_written x : carried x ⊆ written x.
Proof. unfold written. set_solver. Qed.
Definition with_kcp (x : End) (k : Kcp) : End := mkEnd k (sent x) (received x) (carried x).

Inductive setting (k : Kcp) : Kcp → Prop :=
| setting_mtu n : n ≤ max_frag + KCP_OVERHEAD → setting k (set_mtu k n).2
| setting_interval i : setting k (set_interval k i)
| setting_nodelay d i r c : setting k (set_nodelay k d i r c)
| setting_wndsize s r : in_u16 s → 0 ≤ r ≤ max_wnd → setting k (set_wndsize k s r).

(** One call on an engine.  [wire] is every packet the other engine ever wrote: [input] may take
    any of them, at any time and any number of times, so packets are lost, duplicated, delayed
    and reordered at will. *)
Inductive call (wire : list (list byte)) (x : End) : End → Prop :=
| call_send data n k : send (kcp x) data = Done (Ok n, k) → call wire x (mkEnd k (sent x ++ [data]) (received x) (carried x))
| call_recv room data k : recv (kcp x) room = Done (Ok data, k) → call wire x (mkEnd k (sent x) (received x ++ [data]) (carried x))
| call_recv_error room e k : recv (kcp x) room = Done (Err e, k) → call wire x (with_kcp x k)
| call_update now r k : in_u32 now → update (kcp x) now = (r, k) → call wire x (with_kcp x k)
| call_flush_ack r k : flush_ack (kcp x) = (r, k) → call wire x (with_kcp x k)
| call_input p r k : p ∈ wire → input (kcp x) p = (r, k) → call wire x (with_kcp x k)
| call_setting k : setting (kcp x) k → call wire x (with_kcp x k)
| call_carry : call wire x (mkEnd (kcp x <| output := [] |>) (sent x) (received x) (written x)).

(** The number of messages for which sequence numbers cannot be confused: one message is less
    than [KCP_WND_RCV] segments. *)
Definition MAX_MESSAGES : Z := 2^24 - 2^10.

Inductive link_step : End * End → End * End → Prop :=
| step_left a a' b : call (written b) a a' → len (sent a') ≤ MAX_MESSAGES → link_step (a, b) (a', b)
| step_right a b b' : call (written a) b b' → len (sent b') ≤ MAX_MESSAGES → link_step (a, b) (a, b').

(** An engine at rest, about to send from sequence number [so] and receive from [si].  [new]
    makes such an engine with both 0. *)
Record idle (so si : Z) (x : End) : Prop := {
  id_logs : sent x = [] ∧ received x = [];
  id_queues : snd_queue (kcp x) = [] ∧ snd_buf (kcp x) = [] ∧ rcv_queue (kcp x) = [] ∧ rcv_buf (kcp x) = [];
  id_out : acklist (kcp x) = [] ∧ buf (kcp x) = [] ∧ written x = [];
  id_places : snd_nxt (kcp x) = so ∧ snd_una (kcp x) = so ∧ rcv_nxt (kcp x) = si;
  id_widths : in_u32 so ∧ in_u32 si ∧ in_u32 (conv (kcp x)) ∧ in_u32 (current (kcp x)) ∧ 0 < mss (kcp x) ≤ max_frag;
  id_windows : in_u16 (snd_wnd (kcp x)) ∧ 0 ≤ rcv_wnd (kcp x) ≤ max_wnd ∧ 0 ≤ rmt_wnd (kcp x) ∧ 0 ≤ cwnd (kcp x);
  id_mode : stream (kcp x) = false ∧ input_conv (kcp x) = false
}.
Definition link_start (l : End * End) : Prop :=
  ∃ so si, idle so si l.1 ∧ idle si so l.2 ∧ conv (kcp l.1) = conv (kcp l.2).
Definition link_reachable (l : End * End) : Prop := ∃ l0, link_start l0 ∧ rtc link_step l0 l.

(** *** The invariant *)

(** The half of the link from [x] to [y]: [po] are the messages of [x] cut into fragments, [pi]
    those of [y]. *)
Record half (so si : Z) (po pi : list (list Pay)) (x y : End) : Prop := {
  hf_end : endpoint_ok so (concat po) si (concat pi) (len (concat (take (length (received x)) pi))) (sent_pos si (kcp y)) (kcp x);
  hf_sent : Forall2 framed po (sent x);
  hf_sizes : Forall (λ p, len p < KCP_WND_RCV) po;
  hf_received : received x `prefix_of` sent y;
  hf_carried : Forall (packet_ok so (concat po) si (kcp x)) (carried x);
  hf_covered : ∀ i, 0 ≤ i < sent_pos so (kcp x) → i ∈ map (at_pos so) (snd_buf (kcp x)) ∨ held so (kcp y) i
}.
Definition link_inv (l : End * End) : Prop :=
  conv (kcp l.1) = conv (kcp l.2) ∧ ∃ so si po pi, half so si po pi l.1 l.2 ∧ half si so pi po l.2 l.1.

Lemma written_ok so si po pi x y : half so si po pi x y → Forall (packet_ok so (concat po) si (kcp x)) (written x).
Proof. intros [E _ _ _ W _]. apply Forall_app. split; [done|apply E]. Qed.

(** The receiver, when the stream grows. *)
Lemma rx_grow s0 σ τ C N N' k :
  rx s0 σ C N k → N ≤ N' ≤ len (σ ++ τ) → len (σ ++ τ) ≤ MAX_SEGMENTS → rx s0 (σ ++ τ) C N' k.
Proof.
  intros [H1 H2 H3 H4 H5 H6 H7] HN Hl. split; try done.
  - lia.
  - rewrite H3, drop_app_le, take_app_le; [done| |]; [rewrite length_drop|]; unfold len in *; lia.
  - eapply Forall_impl; [exact H5|]. intros s [Hc ?]. split; [|lia]. eapply carries_prefix; [|exact Hc]. by eexists.
Qed.

(** A call that changes only [x] keeps the link. *)
Lemma half_step so si po pi new x y x' :
  conv (kcp x) = conv (kcp y) → half so si po pi x y → half si so pi po y x →
  endpoint_ok so (concat (po ++ new)) si (concat pi) (len (concat (take (length (received x')) pi))) (sent_pos si (kcp y)) (kcp x') →
  Forall2 framed (po ++ new) (sent x') → Forall (λ p, len p < KCP_WND_RCV) new → received x' `prefix_of` sent y → sent x `prefix_of` sent x' →
  carried x' ⊆ written x →
  ahead so si (kcp x) (kcp x') →
  (∀ i, i ∈ map (at_pos so) (snd_buf (kcp x)) ∨ sent_pos so (kcp x) ≤ i < sent_pos so (kcp x') →
    i ∈ map (at_pos so) (snd_buf (kcp x')) ∨ held so (kcp y) i) →
  link_inv (x', y).
Proof.
  intros Hcv [E1 S1 Z1 R1 W1 C1] [E2 S2 Z2 R2 W2 C2] He Hs Hz Hr Hpre Hcar Hah Hcov. split; [cbn; rewrite <- Hcv; apply Hah|].
  exists so, si, (po ++ new), pi. cbn [fst snd]. split; split; try done.
  - by apply Forall_app.
  - assert (Forall (packet_ok so (concat po) si (kcp x)) (written x)) as Hw by (apply Forall_app; split; [done|apply E1]).
    rewrite Forall_forall in *. intros p Hp. eapply packet_ok_ahead; [|exact Hah|by apply Hw, Hcar]. rewrite concat_app. by eexists.
  - intros i Hi. destruct (decide (i < sent_pos so (kcp x))); [destruct (C1 i ltac:(lia)); [by apply Hcov; left|by right]|apply Hcov; right; lia].
  - destruct E2 as [F1 F2 F3 F4 F5 F6 F7]. pose proof (eo_tx _ _ _ _ _ _ _ He) as T.
    assert (length (received y) ≤ length po)%nat as Hlp.
    { apply Forall2_length in S1. rewrite S1. by apply prefix_length. }
    split; try done. rewrite concat_app. rewrite take_app_le by done.
    apply rx_grow with (N := sent_pos so (kcp x)); [done| |]; rewrite <- concat_app.
    + pose proof (tx_len _ _ _ T). pose proof (len_nonneg (snd_queue (kcp x'))). pose proof (ah_sent _ _ _ _ Hah). lia.
    + apply T.
  - by etrans.
  - intros i Hi. destruct (C2 i Hi); [by left|right]. by apply Hah.
Qed.

Lemma setting_ok so σo si σi C N k k' :
  endpoint_ok so σo si σi C N k → setting k k' →
  endpoint_ok so σo si σi C N k' ∧ ahead so si k k' ∧ snd_buf k' = snd_buf k ∧ snd_nxt k' = snd_nxt k.
Proof.
  intros Hk Hs. pose proof Hk as [Htx Hrx Hbuf Hout Hcv Hcur Hm].
  assert (∃ m s n r, k' = k <| mtu := m |> <| mss := s |> <| snd_wnd := n |> <| rcv_wnd := r |> <| interval := interval k' |>
      <| nodelay := nodelay k' |> <| rx_minrto := rx_minrto k' |> <| fastresend := fastresend k' |> <| nocwnd := nocwnd k' |> ∧
    0 < s ≤ max_frag ∧ 0 ≤ n ≤ u16_max ∧ 0 ≤ r ≤ max_wnd) as (m & s & n & r & E & Hs' & Hn & Hr).
  { pose proof (tx_wnd _ _ _ Htx). pose proof (rx_wnd _ _ _ _ _ Hrx). destruct Hs as [m|i|d i r c|s r Hs Hr].
    - unfold set_mtu. case_decide; cbn [snd]; [exists m, (m - KCP_OVERHEAD), (snd_wnd k), (rcv_wnd k)|exists (mtu k), (mss k), (snd_wnd k), (rcv_wnd k)];
        (split; [by destruct k|]); unfold KCP_OVERHEAD, u16_max in *; lia.
    - exists (mtu k), (mss k), (snd_wnd k), (rcv_wnd k). split; [by destruct k|lia].
    - exists (mtu k), (mss k), (snd_wnd k), (rcv_wnd k). split; [unfold set_nodelay; case_decide; by destruct k|lia].
    - exists (mtu k), (mss k), (if decide (0 < s) then s else snd_wnd k), (if decide (0 < r) then r `max` KCP_WND_RCV else rcv_wnd k).
      pose proof max_wnd_u16. unfold in_u16, KCP_WND_RCV, u16_max in *. split; [unfold set_wndsize; do 2 case_decide; by destruct k|]. do 2 case_decide; lia. }
  assert (snd_nxt k' = snd_nxt k ∧ snd_buf k' = snd_buf k ∧ conv k' = conv k ∧ rcv_nxt k' = rcv_nxt k ∧ rcv_buf k' = rcv_buf k)
    as (E1 & E2 & E3 & E4 & E5) by (by rewrite E).
  assert (ahead so si k k') as Ha by (by apply ahead_same).
  destruct (pending_ahead so σo si σo k k' Ha) as [H3' H4']; [by rewrite E..|done|done|done|].
  destruct Htx as [T1 T2 T3 T4 T5 T6 T7 T8 T9], Hrx as [R1 R2 R3 R4 R5 R6 R7].
  split_and!; [|done..]. split; try done; rewrite E in *; (try done); split; try done; try lia; [exact (conj Hn (proj2 T9))|apply Hm].
Qed.

(** The segments of the messages so far. *)
Lemma len_concat_sizes (po : list (list Pay)) :
  Forall (λ p, len p < KCP_WND_RCV) po → len (concat po) ≤ (KCP_WND_RCV - 1) * len po.
Proof.
  induction 1 as [|p po Hp _ IH]; [done|]. cbn [concat]. rewrite len_app, len_cons. unfold KCP_WND_RCV in *. lia.
Qed.

Lemma concat_snoc {A} (l : list (list A)) x : concat (l ++ [x]) = concat l ++ x.
Proof. rewrite concat_app. cbn. by rewrite app_nil_r. Qed.

(** What is still to be received. *)
Lemma half_rest so si po pi x y :
  half so si po pi x y → Forall2 framed pi (sent y) →
  ∃ p1 p2 rest, pi = p1 ++ p2 ∧ sent y = received x ++ rest ∧ Forall2 framed p2 rest ∧ length p1 = length (received x) ∧
    drop (length (concat p1)) (concat pi) = concat p2 ∧
    endpoint_ok so (concat po) si (concat pi) (len (concat p1)) (sent_pos si (kcp y)) (kcp x).
Proof.
  intros [Ex Sx Zx [rest Rx] _ Cx] Sy. pose proof Sy as Sy'. rewrite Rx in Sy'. apply Forall2_app_inv_r in Sy' as (p1 & p2 & S1 & S2 & ->).
  exists p1, p2, rest. pose proof (Forall2_length _ _ _ S1) as El. rewrite take_app_length' in Ex by done. split_and!; try done.
  rewrite concat_app. apply drop_app_length.
Qed.

(** [recv], on the link. *)
Lemma recv_keeps a b room :
  link_inv (a, b) → ∃ r k, recv (kcp a) room = Done (r, k) ∧
    match r with
    | Ok data => link_inv (mkEnd k (sent a) (received a ++ [data]) (carried a), b)
    | Err _ => k = kcp a
    end.
Proof.
  intros (Hcv & so & si & po & pi & Ha & Hb). cbn [fst snd] in *.
  destruct (half_rest so si po pi a b Ha (hf_sent _ _ _ _ _ _ Hb)) as (p1 & p2 & rest & -> & Es & Hf & Hl & Hd & Ea).
  destruct (recv_ok so (concat po) si (concat (p1 ++ p2)) (len (concat p1)) _ (kcp a) room p2 rest Ea) as (r & k & E & Hah & Eb & En & Hpost);
    [by unfold len; rewrite Nat2Z.id|done|].
  exists r, k. split; [done|]. destruct r as [data|]; [|done]. destruct Hpost as (p & parts' & rest' & -> & -> & He).
  apply (half_step so si po (p1 ++ p :: parts') [] a b); rewrite ?app_nil_r; try done; cbn [kcp sent received carried].
  - replace (length (received a ++ [data])) with (length (p1 ++ [p])) by (rewrite !length_app, Hl; done).
    rewrite (cons_middle p p1), (assoc_L (++) p1 [p]), take_app_length, concat_snoc, len_app.
    by rewrite <- (assoc_L (++) p1 [p]).
  - apply Ha.
  - rewrite Es. exists rest'. by rewrite <- (assoc_L (++)).
  - apply carried_written.
  - rewrite Eb. unfold sent_pos. rewrite En. intros i [|]; [by left|lia].
Qed.

Lemma call_keeps a b a' :
  link_inv (a, b) → call (written b) a a' → len (sent a') ≤ MAX_MESSAGES → link_inv (a', b).
Proof.
  intros Hinv Hcall Hlen. pose proof Hinv as (Hcv & so & si & po & pi & Ha & Hb). cbn [fst snd] in *.
  pose proof Ha as [Ea Sa Za Ra Wa Ca]. pose proof Hb as [Eb Sb Zb Rb Wb Cb].
  assert (∀ k', endpoint_ok so (concat po) si (concat pi) (len (concat (take (length (received a)) pi))) (sent_pos si (kcp b)) k' →
    ahead so si (kcp a) k' →
    (∀ i, i ∈ map (at_pos so) (snd_buf (kcp a)) ∨ sent_pos so (kcp a) ≤ i < sent_pos so k' →
      i ∈ map (at_pos so) (snd_buf k') ∨ held so (kcp b) i) →
    link_inv (with_kcp a k', b)) as Hquiet.
  { intros k' He Hah Hcov. apply (half_step so si po pi [] a b); rewrite ?app_nil_r; try done. exact (carried_written a). }
  destruct Hcall as [data n k E|room data k E|room e k E|now r k Hnow E|r k E|p r k Hp E|k Hset|]; cbn [sent received kcp with_kcp] in *.
  - destruct (send_ok so (concat po) si (concat pi) _ _ (kcp a) data Ea) as (r' & k' & E' & Hpost).
    { pose proof (len_concat_sizes po Za). apply Forall2_length in Sa. rewrite len_app in Hlen. unfold len in *. cbn [length] in *.
      unfold MAX_MESSAGES, MAX_SEGMENTS, KCP_WND_RCV in *. lia. }
    rewrite E in E'. injection E' as <- <-. destruct Hpost as (_ & p & Hp & Hz & He & Hah & Eb' & En).
    apply (half_step so si po pi [p] a b); try done; cbn [kcp sent received carried].
    + by rewrite concat_snoc.
    + apply Forall2_app; [done|]. by constructor.
    + by constructor.
    + by eexists.
    + apply carried_written.
    + rewrite Eb'. unfold sent_pos. rewrite En. intros i [|]; [by left|lia].
  - destruct (recv_keeps a b room Hinv) as (r & k' & E' & Hpost). rewrite E in E'. by injection E' as <- <-.
  - destruct (recv_keeps a b room Hinv) as (r & k' & E' & Hpost). rewrite E in E'. injection E' as <- <-. rewrite Hpost. by destruct a.
  - destruct (update_ok _ _ _ _ _ _ (kcp a) now Ea Hnow) as (k' & E' & He & Hah & Hcov). rewrite E in E'. injection E' as _ <-.
    apply Hquiet; [done|done|]. intros i Hi. left. by apply Hcov.
  - destruct (flush_ack_ok _ _ _ _ _ _ (kcp a) Ea) as (He & Hah & Hcov). rewrite E in *. apply Hquiet; [done|done|]. intros i Hi. left. by apply Hcov.
  - pose proof (written_ok _ _ _ _ _ _ Hb) as Hout. rewrite Forall_forall in Hout.
    destruct (input_packet _ _ _ _ _ _ (kcp b) _ (kcp a) p Ea (eo_rx _ _ _ _ _ _ _ Eb) eq_refl (eq_sym Hcv) (Hout _ Hp)) as (k' & E' & He & Hah & Hconf & En).
    rewrite E in E'. injection E' as _ <-. apply Hquiet; [done|done|]. unfold sent_pos. rewrite En. intros i [|]; [by apply Hconf|lia].
  - destruct (setting_ok _ _ _ _ _ _ (kcp a) k Ea Hset) as (He & Hah & Eb' & En). apply Hquiet; [done|done|].
    rewrite Eb'. unfold sent_pos. rewrite En. intros i [|]; [by left|lia].
  - destruct (drain_output_ok _ _ _ _ _ _ (kcp a) Ea) as (He & Hah & Hcov).
    apply (half_step so si po pi [] a b); rewrite ?app_nil_r; try done. intros i Hi. left. by apply Hcov.
Qed.

Lemma link_inv_flip a b : link_inv (a, b) → link_inv (b, a).
Proof. intros (Hc & so & si & po & pi & Ha & Hb). split; [done|]. by exists si, so, pi, po. Qed.

Lemma pos_start s0 : pos s0 s0 = 0.
Proof. unfold pos. by rewrite Z.sub_diag. Qed.

Lemma idle_half so si x y : idle so si x → idle si so y → half so si [] [] x y.
Proof.
  intros [[L1 L2] (Q1 & Q2 & Q3 & Q4) (O1 & O2 & O3) (P1 & P2 & P3) (W1 & W2 & W3 & W4 & W5) (N1 & N2 & N3 & N4) [M1 M2]] Hy.
  destruct (id_places _ _ _ Hy) as (Y1 & _ & _). apply app_eq_nil in O3 as [O3 O4].
  assert (sent_pos so (kcp x) = 0) as Ex by (unfold sent_pos; rewrite P1; apply pos_start).
  assert (sent_pos si (kcp y) = 0) as Ey by (unfold sent_pos; rewrite Y1; apply pos_start).
  assert (rcvd_pos si (kcp x) = 0) as Er by (unfold rcvd_pos; rewrite P3; apply pos_start).
  split; try done.
  - rewrite L2, Ey. split; try done.
    + split; rewrite ?Ex, ?Q1, ?Q2; try done; [by rewrite P1|constructor|by rewrite P2, P1].
    + split; rewrite ?Er, ?Q3, ?Q4, ?O1; try done; [by rewrite P3|constructor].
    + exists []. rewrite O2. done.
    + by rewrite O4.
  - by rewrite L1.
  - rewrite L2. apply prefix_nil.
  - by rewrite O3.
  - rewrite Ex. lia.
Qed.

Lemma link_reachable_inv l : link_reachable l → link_inv l.
Proof.
  intros (l0 & (so & si & H1 & H2 & Hc) & Hsteps).
  assert (link_inv l0) as H0 by (split; [done|]; exists so, si, [], []; by split; apply idle_half).
  clear H1 H2 Hc. induction Hsteps as [|x y z Hstep _ IH]; [done|]. apply IH.
  destruct Hstep as [a a' b Hcall Hlen|a b b' Hcall Hlen]; [by eapply call_keeps|].
  apply link_inv_flip. eapply call_keeps; [|done..]. by apply link_inv_flip.
Qed.

(** *** Runs *)

(** Calls as data, so that a run can be evaluated; [Take n] is [input] of the [n]th packet the
    other engine wrote. *)
Inductive op :=
| Send (data : list byte)
| Recv (room : Z)
| Update (now : Z)
| FlushAck
| Take (n : nat).

Definition exec (wire : list (list byte)) (x : End) (o : op) : option End :=
  match o with
  | Send data =>
    match send (kcp x) data with
    | Done (Ok _, k) => Some (mkEnd k (sent x ++ [data]) (received x) (carried x))
    | _ => None
    end
  | Recv room =>
    match recv (kcp x) room with
    | Done (Ok data, k) => Some (mkEnd k (sent x) (received x ++ [data]) (carried x))
    | Done (Err _, k) => Some (with_kcp x k)
    | Panic => None
    end
  | Update now => if decide (in_u32 now) then Some (with_kcp x (update (kcp x) now).2) else None
  | FlushAck => Some (with_kcp x (flush_ack (kcp x)).2)
  | Take n =>
    match wire !! n with
    | Some p => Some (with_kcp x (input (kcp x) p).2)
    | None => None
    end
  end.
(** [true] is a call on the left engine. *)
Fixpoint run (script : list (bool * op)) (l : End * End) : option (End * End) :=
  match script with
  | [] => Some l
  | (side, o) :: script =>
    let r := if side : bool then (λ x, (x, l.2)) <$> exec (written l.2) l.1 o
             else (λ x, (l.1, x)) <$> exec (written l.1) l.2 o in
    match r with
    | Some l => if decide (len (sent l.1) ≤ MAX_MESSAGES ∧ len (sent l.2) ≤ MAX_MESSAGES) then run script l else None
    | None => None
    end
  end.

Lemma exec_call wire x o x' : exec wire x o = Some x' → call wire x x'.
Proof.
  destruct o as [data|room|now| |n]; cbn [exec]; intros E.
  - destruct (send (kcp x) data) as [[[n|e] k]|] eqn:Es; simplify_eq. by econstructor.
  - destruct (recv (kcp x) room) as [[[m|e] k]|] eqn:Es; simplify_eq; [by econstructor|by eapply call_recv_error].
  - destruct (decide (in_u32 now)); [|done]. destruct (update (kcp x) now) as [r k] eqn:Es. injection E as <-. by eapply call_update.
  - destruct (flush_ack (kcp x)) as [r k] eqn:Es. injection E as <-. by eapply call_flush_ack.
  - destruct (wire !! n) as [p|] eqn:Ep; [|done]. destruct (input (kcp x) p) as [r k] eqn:Es. injection E as <-.
    eapply call_input; [|done]. by eapply list_elem_of_lookup_2.
Qed.
Lemma run_steps script : ∀ l l', run script l = Some l' → rtc link_step l l'.
Proof.
  induction script as [|[side o] script IH]; intros [a b] l' E; cbn [run fst snd] in E; [injection E as <-; done|].
  destruct side.
  - destruct (exec _ a o) as [x|] eqn:Ex; [|done]. cbn in E. case_decide as Hl; [|done]. cbn in Hl. apply exec_call in Ex.
    apply IH in E. destruct Hl. eapply rtc_l; [|exact E]. by apply step_left.
  - destruct (exec _ b o) as [x|] eqn:Ex; [|done]. cbn in E. case_decide as Hl; [|done]. cbn in Hl. apply exec_call in Ex.
    apply IH in E. destruct Hl. eapply rtc_l; [|exact E]. by apply step_right.
Qed.

(** ** What arrives *)

(** A buffer with no gap is the rest of the stream. *)
Lemma no_gap s0 σ l : ∀ R,
  ascending s0 l → Forall (λ s, carries s0 σ s ∧ R ≤ at_pos s0 s < len σ) l → 0 ≤ R ≤ len σ →
  (∀ i, R ≤ i < len σ → i ∈ map (at_pos s0) l) → map pay l = drop (Z.to_nat R) σ.
Proof.
  induction l as [|s l IH]; intros R Hs Hf HR Hall.
  - destruct (decide (R = len σ)) as [->|]; [unfold len; by rewrite Nat2Z.id, drop_all|].
    specialize (Hall R ltac:(lia)). by apply not_elem_of_nil in Hall.
  - apply ascending_cons in Hs as [Hs Hlt]. apply Forall_cons in Hf as [[[Hu Hc] Hb] Hf].
    assert (at_pos s0 s = R) as Es.
    { pose proof (Hall R ltac:(lia)) as Hin. apply elem_of_cons in Hin as [E|Hin]; [done|]. apply list_elem_of_fmap in Hin as (t & Et & Ht).
      rewrite Forall_forall in Hlt. specialize (Hlt _ Ht). lia. }
    cbn [map]. rewrite (drop_S σ (pay s) (Z.to_nat R)) by (by rewrite <- Es). f_equal. replace (S (Z.to_nat R)) with (Z.to_nat (R + 1)) by lia.
    apply IH; [done| |lia|].
    + rewrite Forall_forall in *. intros t Ht. destruct (Hf _ Ht). split; [done|]. specialize (Hlt _ Ht). lia.
    + intros i Hi. pose proof (Hall i ltac:(lia)) as Hin. apply elem_of_cons in Hin as [E|Hin]; [lia|done].
Qed.

Lemma drained_half so si po pi x y :
  half so si po pi x y → half si so pi po y x → snd_queue (kcp x) = [] → snd_buf (kcp x) = [] →
  ∃ p1 p2 rest, sent x = received y ++ rest ∧ Forall2 framed p2 rest ∧ po = p1 ++ p2 ∧
    map pay (rcv_queue (kcp y) ++ rcv_buf (kcp y)) = concat p2.
Proof.
  intros Hx Hy Eq Eb. destruct (half_rest si so pi po y x Hy (hf_sent _ _ _ _ _ _ Hx)) as (p1 & p2 & rest & -> & Es & Hf & Hl & Hd & [_ Hrx _ _ _ _ _]).
  exists p1, p2, rest. split_and!; try done. rewrite <- Hd. destruct Hrx as [R1 R2 R3 R4 R5 R6 R7].
  set (σ := concat (p1 ++ p2)) in *. set (C := len (concat p1)) in *. replace (length (concat p1)) with (Z.to_nat C) by (unfold C, len; lia).
  pose proof (tx_len _ _ _ (eo_tx _ _ _ _ _ _ _ (hf_end _ _ _ _ _ _ Hx))) as Hn. rewrite Eq in Hn. change (len []) with 0 in Hn. rewrite Z.add_0_r in Hn. fold σ in Hn.
  rewrite map_app, R3, (no_gap so σ (rcv_buf (kcp y)) (rcvd_pos so (kcp y))); [|done| |lia|].
  - rewrite <- (take_drop (Z.to_nat (rcvd_pos so (kcp y) - C)) (drop (Z.to_nat C) σ)) at 2. f_equal. rewrite drop_drop. f_equal. lia.
  - rewrite Hn in R5. exact R5.
  - intros i Hi. destruct (hf_covered _ _ _ _ _ _ Hx i) as [Hin|[_ [|]]]; [lia|rewrite Eb in Hin; by apply not_elem_of_nil in Hin|lia|done].
Qed.

Lemma framed_concat p2 rest : Forall2 framed p2 rest → concat (concat p2).*2 = concat rest.
Proof.
  induction 1 as [|p m p2 rest [_ _ <-] _ IH]; [done|]. cbn [concat]. rewrite fmap_app, concat_app. by rewrite IH.
Qed.

(** What the invariant says of the packets and the calls. *)
Lemma inv_packets a b p : link_inv (a, b) → p ∈ written a → ∃ so si po pi,
  half so si po pi a b ∧ half si so pi po b a ∧ packet_ok so (concat po) si (kcp a) p ∧ (input (kcp b) p).1 = Ok (len p).
Proof.
  intros (Hcv & so & si & po & pi & Ha & Hb) Hp. cbn [fst snd] in *. exists so, si, po, pi. split; [done|]. split; [done|].
  pose proof (written_ok _ _ _ _ _ _ Ha) as Hout. rewrite Forall_forall in Hout. split; [by apply Hout|].
  by destruct (input_packet _ _ _ _ _ _ (kcp a) _ (kcp b) p (hf_end _ _ _ _ _ _ Hb) (eo_rx _ _ _ _ _ _ _ (hf_end _ _ _ _ _ _ Ha)) eq_refl Hcv (Hout _ Hp))
    as (k' & -> & _).
Qed.
Lemma inv_total a b : link_inv (a, b) → (∀ room, recv (kcp a) room ≠ Panic) ∧ (∀ data, send (kcp a) data ≠ Panic).
Proof.
  intros Hl. split.
  - intros room E. destruct (recv_keeps a b room Hl) as (r & k & E' & _). by rewrite E in E'.
  - intros data. destruct Hl as (_ & so & si & po & pi & Ha & _). cbn [fst snd] in *.
    pose proof (eo_mode _ _ _ _ _ _ _ (hf_end _ _ _ _ _ _ Ha)) as [Hst Hm]. unfold send. rewrite decide_False by lia.
    rewrite Hst. cbv zeta. rewrite Hst. cbn [andb]. by destruct (decide (KCP_WND_RCV ≤ _)).
Qed.
Lemma inv_prefix a b : link_inv (a, b) → received b `prefix_of` sent a.
Proof. intros (_ & so & si & po & pi & _ & Hb). apply Hb. Qed.
Lemma inv_complete a b :
  link_inv (a, b) → snd_queue (kcp a) = [] → snd_buf (kcp a) = [] →
  ∃ rest, sent a = received b ++ rest ∧ concat (map s_data (rcv_queue (kcp b) ++ rcv_buf (kcp b))) = concat rest.
Proof.
  intros (Hcv & so & si & po & pi & Ha & Hb) Eq Eb. cbn [fst snd] in *.
  destruct (drained_half so si po pi a b Ha Hb Eq Eb) as (p1 & p2 & rest & Es & Hf & _ & Hmap). exists rest. split; [done|].
  rewrite <- (framed_concat p2 rest Hf), <- Hmap. f_equal.
  change (s_data <$> (rcv_queue (kcp b) ++ rcv_buf (kcp b)) = (pay <$> (rcv_queue (kcp b) ++ rcv_buf (kcp b))).*2).
  by rewrite <- list_fmap_compose.
Qed.

(** C6: whatever the network loses, repeats, delays or reorders, and whatever the two users do and
    configure, each user receives exactly the other's messages, whole and in order, as far as
    they got; every packet one engine wrote is read to its end by the other; and neither [recv] nor
    [send] can panic. *)
Theorem kcp_in_order a b :
  link_reachable (a, b) →
  received b `prefix_of` sent a ∧ received a `prefix_of` sent b ∧
  (∀ p, p ∈ written a → (input (kcp b) p).1 = Ok (len p)) ∧
  (∀ room, recv (kcp b) room ≠ Panic) ∧ (∀ data, send (kcp a) data ≠ Panic).
Proof.
  intros Hl%link_reachable_inv. pose proof (link_inv_flip _ _ Hl) as Hr.
  split; [by apply inv_prefix|]. split; [by apply inv_prefix|].
  split; [|split; [by apply (inv_total b a)|by apply (inv_total a b)]].
  intros p Hp. by destruct (inv_packets a b p Hl Hp) as (? & ? & ? & ? & _ & _ & _ & ?).
Qed.

(** C7: nothing is lost.  Once an engine has no segment left to send or to have acknowledged, the
    other holds, in order and without a gap, every byte of the messages its user did not take
    yet. *)
Theorem kcp_reliable a b :
  link_reachable (a, b) → snd_queue (kcp a) = [] → snd_buf (kcp a) = [] →
  ∃ rest, sent a = received b ++ rest ∧ concat (map s_data (rcv_queue (kcp b) ++ rcv_buf (kcp b))) = concat rest.
Proof. intros Hl%link_reachable_inv. by apply inv_complete. Qed.

End limits.

Module LinkDemo.

#[export] Instance limits : Limits.
Proof. refine {| max_frag := 26; max_wnd := 128 |}; done. Defined.

(** Two engines whose sequence numbers are about to wrap around, with packets of 50 bytes and
    no congestion window. *)
Definition engine (so si : Z) : End :=
  mkEnd (set_nodelay ((set_mtu (new 7 <| snd_nxt := so |> <| snd_una := so |> <| rcv_nxt := si |>) 50).2) true 10 2 true) [] [] [].
Definition start : End * End := (engine (2 ^ 32 - 1) 9, engine 9 (2 ^ 32 - 1)).
Definition msg1 : list byte := repeat Byte.x2a 60.
Definition msg2 : list byte := [Byte.x01; Byte.x02].

(** The left engine sends; its packets arrive in the wrong order and the first one twice; the
    acknowledgements come back. *)
Definition exchange : list (bool * op) :=
  [(true, Send msg1); (true, Send msg2); (true, Update 0); (false, Take 2%nat); (false, Take 1%nat); (false, Recv 100);
   (false, Take 0%nat); (false, Take 0%nat); (false, Take 3%nat); (false, Update 5);
   (true, Take 0%nat); (true, Take 1%nat); (true, Take 2%nat)].
Definition finish : list (bool * op) := [(false, Recv 100); (false, Recv 100)].
Definition after (script : list (bool * op)) : End * End := default start (run script start).

Lemma start_ok : link_start start.
Proof.
  exists (2 ^ 32 - 1), 9. split_and!; [..|done]; split; vm_compute; try done; split_and!; done.
Qed.
Lemma demo_run_reachable script : is_Some (run script start) → link_reachable (after script).
Proof.
  intros [l E]. exists start. split; [apply start_ok|]. unfold after. rewrite E. by apply (run_steps script).
Qed.

End LinkDemo.

Lemma kcp_in_order_witness :
  received (LinkDemo.after (LinkDemo.exchange ++ LinkDemo.finish)).2 = [LinkDemo.msg1; LinkDemo.msg2] ∧
  sent (LinkDemo.after (LinkDemo.exchange ++ LinkDemo.finish)).1 = [LinkDemo.msg1; LinkDemo.msg2] ∧
  received (LinkDemo.after (LinkDemo.exchange ++ LinkDemo.finish)).2 `prefix_of` sent (LinkDemo.after (LinkDemo.exchange ++ LinkDemo.finish)).1.
Proof.
  assert (is_Some (run (LinkDemo.exchange ++ LinkDemo.finish) LinkDemo.start)) as Hrun by (vm_compute; by eexists).
  apply LinkDemo.demo_run_reachable in Hrun. split; [vm_compute; reflexivity|]. split; [vm_compute; reflexivity|].
  destruct (LinkDemo.after (LinkDemo.exchange ++ LinkDemo.finish)) as [a b]. exact (proj1 (kcp_in_order a b Hrun)).
Defined.

Lemma kcp_reliable_witness :
  received (LinkDemo.after LinkDemo.exchange).2 = [] ∧ sent (LinkDemo.after LinkDemo.exchange).1 = [LinkDemo.msg1; LinkDemo.msg2] ∧
  ∃ rest, sent (LinkDemo.after LinkDemo.exchange).1 = received (LinkDemo.after LinkDemo.exchange).2 ++ rest ∧
    concat (map s_data (rcv_queue (kcp (LinkDemo.after LinkDemo.exchange).2) ++ rcv_buf (kcp (LinkDemo.after LinkDemo.exchange).2))) = concat rest.
Proof.
  assert (is_Some (run LinkDemo.exchange LinkDemo.start)) as Hrun by (vm_compute; by eexists).
  apply LinkDemo.demo_run_reachable in Hrun. split; [vm_compute; reflexivity|]. split; [vm_compute; reflexivity|].
  assert (snd_queue (kcp (LinkDemo.after LinkDemo.exchange).1) = [] ∧ snd_buf (kcp (LinkDemo.after LinkDemo.exchange).1) = []) as [Eq Eb]
    by (split; vm_compute; reflexivity).
  destruct (LinkDemo.after LinkDemo.exchange) as [a b]. exact (kcp_reliable a b Hrun Eq Eb).
Defined.
