(* ===== verification/KcpTypes.v ===== *)
(** * Machine widths in the KCP engine

    The model of vendor/rnet-kcp computes on integers without bounds.  Every field the source
    declares with a machine width stays within it, whatever packets arrive, so that no
    computation that is neither wrapping nor saturating in the source can overflow; and the
    segments kept for the receiver never exceed its window. *)

From Stdlib Require Import Sorting.Sorted.
From S2P Require Import Prelude Bytes CoreTypes Kcp KcpLink KcpReliable.
Import Kcp.

Definition seg_typed (s : Segment) : Prop :=
  in_u32 (s_conv s) ∧ in_u8 (s_cmd s) ∧ in_u8 (s_frg s) ∧ in_u16 (s_wnd s) ∧ in_u32 (s_ts s) ∧ in_u32 (s_sn s) ∧
  in_u32 (s_una s) ∧ in_u32 (s_resendts s) ∧ in_u32 (s_rto s) ∧ in_u32 (s_fastack s) ∧ in_u32 (s_xmit s).
Definition ack_typed (a : Z * Z) : Prop := in_u32 a.1 ∧ in_u32 a.2.

Definition seq_typed (k : Kcp) : Prop :=
  in_u32 (conv k) ∧ in_u32 (snd_una k) ∧ in_u32 (snd_nxt k) ∧ in_u32 (rcv_nxt k) ∧ in_u32 (current k) ∧
  in_u32 (ts_flush k) ∧ in_u32 (ts_probe k).
Definition rtt_typed (k : Kcp) : Prop :=
  in_u32 (rx_rttval k) ∧ in_u32 (rx_srtt k) ∧ in_u32 (rx_rto k) ∧ in_u32 (rx_minrto k) ∧ in_u32 (interval k).
Definition wnd_typed (k : Kcp) : Prop :=
  in_u16 (snd_wnd k) ∧ in_u16 (rcv_wnd k) ∧ in_u16 (rmt_wnd k) ∧ in_u16 (cwnd k) ∧ in_u16 (ssthresh k) ∧
  0 ≤ incr k ≤ usize_max ∧ 0 < mss k ≤ u16_max ∧ in_u16 (mtu k).
Definition misc_typed (k : Kcp) : Prop :=
  0 ≤ probe k < 4 ∧ in_u32 (probe_wait k) ∧ in_u32 (xmit k) ∧ in_u32 (dead_link k) ∧ in_u32 (fastresend k) ∧
  in_u32 (fastlimit k) ∧ (state k = 0 ∨ state k = -1).
Definition lists_typed (k : Kcp) : Prop :=
  Forall seg_typed (snd_queue k) ∧ Forall seg_typed (rcv_queue k) ∧ Forall seg_typed (snd_buf k) ∧
  Forall seg_typed (rcv_buf k) ∧ Forall ack_typed (acklist k).
(** Every field within the width the source gives it; the packets in progress are bytes. *)
Definition kcp_typed (k : Kcp) : Prop :=
  seq_typed k ∧ rtt_typed k ∧ wnd_typed k ∧ misc_typed k ∧ lists_typed k.

(** ** Arithmetic *)

Lemma wadd_typed a b : in_u32 (wadd a b).
Proof. unfold wadd, wrapping_add, in_u32, u32_max. pose proof (Z.mod_pos_bound (a + b) (2 ^ 32)). lia. Qed.
Lemma timediff_typed a b : -2 ^ 31 ≤ timediff a b < 2 ^ 31.
Proof. unfold timediff, wrapping_sub. pose proof (Z.mod_pos_bound (a - b) (2 ^ 32)). case_decide; lia. Qed.
Lemma saturating_typed a b : in_u32 a → in_u32 b → in_u32 (saturating_add u32_max a b).
Proof. unfold in_u32, saturating_add, u32_max. lia. Qed.
Lemma zero_u32 : in_u32 0.
Proof. done. Qed.
Lemma lor_probe b p : (b = 1 ∨ b = 2) → 0 ≤ p < 4 → 0 ≤ Z.lor b p < 4.
Proof.
  intros Hb Hp. assert (p = 0 ∨ p = 1 ∨ p = 2 ∨ p = 3) as Hc by lia.
  destruct Hb as [-> | ->], Hc as [-> |[-> |[-> | ->]]]; done.
Qed.
Lemma word_typed n i j l : (i + n = j)%nat → (j ≤ length l)%nat → 0 ≤ le_decode (slice i j l) < 2 ^ (8 * Z.of_nat n).
Proof. intros <- Hl. apply le_decode_range. unfold slice. rewrite length_take, length_drop. lia. Qed.

(** "Weighted averages fit u32". *)
Lemma update_ack_typed k rtt : kcp_typed k → 0 ≤ rtt < 2 ^ 31 → kcp_typed (update_ack k rtt).
Proof.
  intros (Hs & (R1 & R2 & R3 & R4 & R5) & Hw & Hm & Hl) Hr. unfold update_ack. set (k1 := if decide _ then _ else _).
  assert (∃ v s, k1 = k <| rx_rttval := v |> <| rx_srtt := s |> ∧ in_u32 v ∧ in_u32 s) as (v & s & -> & Hv & Hs').
  { unfold k1, in_u32, u32_max in *. destruct (decide (rx_srtt k = 0)).
    - exists (rtt / 2), rtt. split; [done|]. pose proof (Z.div_le_upper_bound rtt 2 (2 ^ 31)). pose proof (Z.div_pos rtt 2). lia.
    - eexists _, _. split; [reflexivity|].
      pose proof (Z.div_pos (3 * rx_rttval k + Z.abs (rtt - rx_srtt k)) 4). pose proof (Z.div_le_upper_bound (3 * rx_rttval k + Z.abs (rtt - rx_srtt k)) 4 (2 ^ 32 - 1)).
      pose proof (Z.div_pos (7 * rx_srtt k + rtt) 8). pose proof (Z.div_le_upper_bound (7 * rx_srtt k + rtt) 8 (2 ^ 32 - 1)).
      split; [lia|]. split; [|apply Z.max_lub; [|done]]; [lia|]. cbn. lia. }
  refine (conj Hs (conj _ (conj Hw (conj Hm Hl)))). refine (conj Hv (conj Hs' (conj _ (conj R4 R5)))).
  change (in_u32 (bound (rx_minrto k) (saturating_add u32_max s (interval k `max` saturating_mul u32_max v 4)) KCP_RTO_MAX)).
  unfold bound, KCP_RTO_MAX, in_u32, u32_max in *. lia.
Qed.

(** ** Lists *)

Lemma drop_before_typed una l : Forall seg_typed l → Forall seg_typed (drop_before una l).
Proof. induction 1 as [|s l Hs Hl IH]; [done|]. cbn [drop_before]. case_decide; [done|]. by constructor. Qed.
Lemma remove_acked_typed sn l : Forall seg_typed l → Forall seg_typed (remove_acked sn l).
Proof. induction 1 as [|s l Hs Hl IH]; [done|]. cbn [remove_acked]. repeat case_decide; [done|by constructor..]. Qed.
Lemma count_fastack_typed sn ts l : Forall seg_typed l → Forall seg_typed (count_fastack sn ts l).
Proof.
  induction 1 as [|s l Hs Hl IH]; [done|]. cbn [count_fastack]. case_decide; [by constructor|]. constructor; [|done]. case_decide; [|done].
  destruct Hs as (H1 & H2 & H3 & H4 & H5 & H6 & H7 & H8 & H9 & H10 & H11). split_and!; try done.
  change (in_u32 (saturating_add u32_max 1 (s_fastack s))). by apply saturating_typed.
Qed.
Lemma move_loop_typed wnd l : ∀ q n,
  Forall seg_typed l → Forall seg_typed q → in_u32 n →
  let '(l', q', n') := move_loop l q n wnd in Forall seg_typed l' ∧ Forall seg_typed q' ∧ in_u32 n'.
Proof.
  induction l as [|s l IH]; intros q n Hl Hq Hn; cbn [move_loop]; [done|]. case_decide; [|done]. apply Forall_cons in Hl as [Hs Hl].
  apply IH; [done| |apply wadd_typed]. apply Forall_app. by rewrite Forall_singleton.
Qed.

Lemma move_buf_typed k : kcp_typed k → kcp_typed (move_buf k).
Proof.
  intros ((S1 & S2 & S3 & S4 & S5) & Hr & Hw & Hm & (L1 & L2 & L3 & L4 & L5)). unfold move_buf.
  pose proof (move_loop_typed (rcv_wnd k) _ _ _ L4 L2 S4) as H. destruct (move_loop _ _ _ _) as [[l q] n]. destruct H as (H1 & H2 & H3).
  exact (conj (conj S1 (conj S2 (conj S3 (conj H3 S5)))) (conj Hr (conj Hw (conj Hm (conj L1 (conj H2 (conj L3 (conj H1 L5)))))))).
Qed.

Lemma shrink_buf_typed k : kcp_typed k → kcp_typed (shrink_buf k).
Proof.
  intros ((S1 & S2 & S3 & S5) & Hr & Hw & Hm & (L1 & L2 & L3 & L4)). unfold shrink_buf. set (u := match snd_buf k with seg :: _ => s_sn seg | [] => snd_nxt k end).
  assert (in_u32 u) as Hu. { unfold u. destruct (snd_buf k); [done|]. apply Forall_cons in L3 as [Hs _]. apply Hs. }
  exact (conj (conj S1 (conj Hu (conj S3 S5))) (conj Hr (conj Hw (conj Hm (conj L1 (conj L2 (conj L3 L4))))))).
Qed.

(** ** Input *)

Definition header_typed (h : Header) : Prop :=
  in_u32 (h_conv h) ∧ in_u8 (h_cmd h) ∧ in_u8 (h_frg h) ∧ in_u16 (h_wnd h) ∧ in_u32 (h_ts h) ∧ in_u32 (h_sn h) ∧ in_u32 (h_una h).
Lemma read_header_typed b : KCP_OVERHEAD ≤ len b → header_typed (read_header b).
Proof.
  unfold KCP_OVERHEAD, len. intros Hb.
  pose proof (word_typed 4 0 4 b eq_refl ltac:(lia)). pose proof (word_typed 2 6 8 b eq_refl ltac:(lia)).
  pose proof (word_typed 4 8 12 b eq_refl ltac:(lia)). pose proof (word_typed 4 12 16 b eq_refl ltac:(lia)).
  pose proof (word_typed 4 16 20 b eq_refl ltac:(lia)).
  split_and!; try apply to_u8_range; unfold in_u32, in_u16, u32_max, u16_max; cbn -[slice]; lia.
Qed.

Lemma input_una_typed k h : kcp_typed k → header_typed h → kcp_typed (input_una k h).
Proof.
  intros (Hs & Hr & (W1 & W2 & W3 & W4) & Hm & (L1 & L2 & L3 & L4)) (_ & _ & _ & Hw & _). apply shrink_buf_typed.
  exact (conj Hs (conj Hr (conj (conj W1 (conj W2 (conj Hw W4))) (conj Hm (conj L1 (conj L2 (conj (drop_before_typed (h_una h) _ L3) L4))))))).
Qed.
Lemma input_ack_typed k h : kcp_typed k → kcp_typed (input_ack k h).
Proof.
  intros Hk. unfold input_ack. pose proof (timediff_typed (current k) (h_ts h)). set (k1 := if decide _ then _ else _).
  assert (kcp_typed k1) as H1. { unfold k1. case_decide; [apply update_ack_typed; [done|lia]|done]. }
  apply shrink_buf_typed. unfold parse_ack. destruct (not_in_flight _ _); [done|].
  destruct H1 as (Hs & Hr & Hw & Hm & (L1 & L2 & L3 & L4)).
  exact (conj Hs (conj Hr (conj Hw (conj Hm (conj L1 (conj L2 (conj (remove_acked_typed _ _ L3) L4))))))).
Qed.
Lemma input_push_typed k h data : kcp_typed k → header_typed h → kcp_typed (input_push k h data).
Proof.
  intros Hk (H1 & H2 & H3 & H4 & H5 & H6 & H7). unfold input_push. case_decide; [|done].
  assert (kcp_typed (ack_push k (h_sn h) (h_ts h))) as Hk1.
  { destruct Hk as (Hs & Hr & Hw & Hm & (L1 & L2 & L3 & L4 & L5)). refine (conj Hs (conj Hr (conj Hw (conj Hm (conj L1 (conj L2 (conj L3 (conj L4 _)))))))).
    apply Forall_app. split; [done|]. by constructor. }
  case_decide; [|done]. unfold parse_data. case_decide; [done|]. destruct (insertion_point _ _ _) as [rep idx]. apply move_buf_typed.
  destruct rep; [done|]. destruct Hk1 as (Hs & Hr & Hw & Hm & (L1 & L2 & L3 & L4 & L5)).
  refine (conj Hs (conj Hr (conj Hw (conj Hm (conj L1 (conj L2 (conj L3 (conj _ L5)))))))).
  apply Forall_app. split; [by apply Forall_take|]. constructor; [|by apply Forall_drop]. by split_and!.
Qed.

Lemma input_command_typed k a h data :
  kcp_typed k → header_typed h → kcp_typed (input_command k a h data).1.
Proof.
  intros Hk Hh. unfold input_command. pose proof (input_una_typed k h Hk Hh) as H1. set (k1 := input_una k h) in *.
  repeat case_decide; cbn [fst]; [by apply input_ack_typed|by apply input_push_typed| |done].
  destruct H1 as (Hs & Hr & Hw & [P1 P2] & Hl). refine (conj Hs (conj Hr (conj Hw (conj (conj _ P2) Hl)))).
  apply lor_probe; [by right|done].
Qed.

(** One round of the loop is at most one command, perhaps after taking over the conversation. *)
Lemma input_segment_shape k a b :
  let h := read_header b in let data := take (Z.to_nat (h_len h)) (drop 24 b) in
  let k' := (input_segment k a b).2 in
  ∃ k1, (k1 = k ∨ k1 = k <| conv := h_conv h |> <| input_conv := false |>) ∧ (k' = k1 ∨ k' = (input_command k1 a h data).1).
Proof.
  cbv zeta. unfold input_segment. set (h := read_header b). set (data := take _ _).
  assert (∀ k1, let r :=
    if decide (len (drop 24 b) < h_len h) then (Err (InvalidSegmentDataSize (h_len h) (len (drop 24 b))), k1)
    else if negb (known_cmd (h_cmd h)) then (Err (UnsupportedCmd (h_cmd h)), k1)
    else let '(k, a) := input_command k1 a h data in
      (Ok (a, drop (Z.to_nat (h_len h)) (drop 24 b)), k) : KcpResult (AckScan * list byte) * Kcp in
    r.2 = k1 ∨ r.2 = (input_command k1 a h data).1) as Hacc.
  { intros k1. cbv zeta. case_decide; [by left|]. destruct (negb _); [by left|]. right. by destruct (input_command _ _ _ _). }
  destruct (decide (h_conv h = conv k)); [exists k; split; [by left|apply Hacc]|].
  destruct (input_conv k); [|exists k; split; [by left|by left]]. eexists. split; [by right|]. apply Hacc.
Qed.
(** So a relation that every step of [input] respects holds across it. *)
Section input_relation.
Context (R : Kcp → Kcp → Prop) (R_pre : PreOrder R).
Context (R_adopt : ∀ k c, in_u32 c → R k (k <| conv := c |> <| input_conv := false |>)).
Context (R_command : ∀ k a h data, header_typed h → R k (input_command k a h data).1).
Context (R_fastack : ∀ k sn ts, R k (k <| snd_buf ::= count_fastack sn ts |>)).
Context (R_grow : ∀ k, cwnd k < rmt_wnd k → R k (grow_cwnd k)).

Lemma input_loop_relation fuel : ∀ k a b, R k (input_loop fuel k a b).2.
Proof.
  induction fuel as [|fuel IH]; intros k a b; cbn [input_loop]; [done|]. case_decide as Hb; [done|].
  assert (R k (input_segment k a b).2) as H1.
  { pose proof (read_header_typed b ltac:(lia)) as Hh. destruct (input_segment_shape k a b) as (k1 & Hk1 & Hk').
    trans k1; [destruct Hk1 as [-> | ->]; [done|apply R_adopt, Hh]|]. destruct Hk' as [-> | ->]; [done|by apply R_command]. }
  destruct (input_segment k a b) as [[[a' rest]|e] k1]; [|done]. by trans k1.
Qed.
Lemma input_relation k b : R k (input k b).2.
Proof.
  unfold input. case_decide; [done|]. pose proof (input_loop_relation (length b) k (mkAckScan false 0 0) b) as H1.
  destruct (input_loop _ _ _ _) as [[[a rest]|e] k1]; [|done]. cbn [snd] in *. set (k2 := if as_flag a then _ else k1).
  assert (R k k2) as H2.
  { trans k1; [done|]. unfold k2, parse_fastack. destruct (as_flag a); [|done]. by destruct (not_in_flight _ _). }
  destruct (bool_decide _); [|done]. destruct (bool_decide_reflect (cwnd k2 < rmt_wnd k2)); [|done]. trans k2; [done|by apply R_grow].
Qed.
End input_relation.

(** The congestion window stays a 16-bit number, and no division is by zero. *)
Lemma grow_cwnd_typed k : kcp_typed k → cwnd k < rmt_wnd k → kcp_typed (grow_cwnd k).
Proof.
  intros (Hs & Hr & (W1 & W2 & W3 & W4 & W5 & W6 & W7 & W8) & Hm & Hl) Hlt. unfold grow_cwnd.
  assert (∀ c i, in_u16 c → 0 ≤ i ≤ usize_max → kcp_typed (k <| cwnd := c |> <| incr := i |>)) as Hk.
  { intros c i Hc Hi. exact (conj Hs (conj Hr (conj (conj W1 (conj W2 (conj W3 (conj Hc (conj W5 (conj Hi (conj W7 W8))))))) (conj Hm Hl)))). }
  set (k1 := if decide (cwnd k < ssthresh k) then _ else _).
  assert (∃ c i, k1 = k <| cwnd := c |> <| incr := i |> ∧ in_u16 c ∧ 0 ≤ i ≤ usize_max) as (c & i & -> & Hc & Hi).
  { unfold k1. unfold in_u16, usize_max, u64_max, u16_max in *. destruct (decide (cwnd k < ssthresh k)).
    - exists (1 + cwnd k), (saturating_add usize_max (mss k) (incr k)). split; [done|]. unfold saturating_add, usize_max, u64_max. lia.
    - set (i1 := mss k `max` incr k). set (i2 := saturating_add usize_max i1 (saturating_mul usize_max (mss k) (mss k) / i1 + mss k / 16)).
      assert (0 ≤ i2 ≤ 2 ^ 64 - 1) as Hi2.
      { unfold i2, saturating_add, usize_max, u64_max. pose proof (Z.div_pos (saturating_mul usize_max (mss k) (mss k)) i1).
        pose proof (Z.div_pos (mss k) 16). unfold saturating_mul, usize_max, u64_max in *. unfold i1 in *. nia. }
      destruct (decide _).
      + exists ((div_ceil i2 (mss k `max` 1) `min` rmt_wnd k) mod 2 ^ 16), i2. split; [done|]. split; [|done].
        pose proof (Z.mod_pos_bound (div_ceil i2 (mss k `max` 1) `min` rmt_wnd k) (2 ^ 16)). lia.
      + exists (cwnd k), i2. split; [by destruct k|]. done. }
  case_decide; [|by apply Hk]. change (kcp_typed (k <| cwnd := rmt_wnd k |> <| incr := rmt_wnd k * mss k |>)).
  apply Hk; [done|]. unfold in_u16, usize_max, u64_max, u16_max in *. nia.
Qed.

Lemma input_typed k b : kcp_typed k → kcp_typed (input k b).2.
Proof.
  apply (input_relation (λ k k', kcp_typed k → kcp_typed k')); clear k b.
  - split; [by intros k|]. intros x y z Hxy Hyz Hx. auto.
  - intros k c Hc ((_ & Hs) & Hr & Hw & Hm & Hl). exact (conj (conj Hc Hs) (conj Hr (conj Hw (conj Hm Hl)))).
  - intros k a h data Hh Hk. by apply input_command_typed.
  - intros k sn ts (Hs & Hr & Hw & Hm & (L1 & L2 & L3 & L4)).
    exact (conj Hs (conj Hr (conj Hw (conj Hm (conj L1 (conj L2 (conj (count_fastack_typed _ _ _ L3) L4))))))).
  - intros k Hlt Hk. by apply grow_cwnd_typed.
Qed.

(** ** Flushing *)

Lemma flush_acks_typed mtu acks : ∀ seg b out,
  seg_typed seg → Forall ack_typed acks → seg_typed (flush_acks mtu acks seg b out).1.1 ∧ s_wnd (flush_acks mtu acks seg b out).1.1 = s_wnd seg.
Proof.
  induction acks as [|[sn ts] acks IH]; intros seg b out Hs Ha; [done|]. apply Forall_cons in Ha as [[H1 H2] Ha]. cbn [flush_acks].
  destruct (room_for _ _ _ _) as [b' out']. destruct Hs as (S1 & S2 & S3 & S4 & S5 & S6 & S7). cbn [fst snd] in *.
  destruct (IH (seg <| s_sn := sn |> <| s_ts := ts |>) (b' ++ encode (seg <| s_sn := sn |> <| s_ts := ts |>)) out') as [G1 G2]; [|done|done].
  exact (conj S1 (conj S2 (conj S3 (conj S4 (conj H2 (conj H1 S7)))))).
Qed.

Lemma wnd_unused_typed k : in_u16 (rcv_wnd k) → in_u16 (wnd_unused k).
Proof. unfold wnd_unused, in_u16. pose proof (len_nonneg (rcv_queue k)). case_decide; unfold u16_max; lia. Qed.

(** Changing the packet in progress and the output only. *)
Lemma wire_only k b out : kcp_typed k → kcp_typed (k <| buf := b |> <| output := out |>).
Proof. done. Qed.

Lemma probe_wnd_size_typed k : kcp_typed k → kcp_typed (probe_wnd_size k).
Proof.
  intros Hk. pose proof Hk as ((S1 & S2 & S3 & S4 & S5 & S6 & S7) & Hr & Hw & (P1 & P2 & P3) & Hl). unfold probe_wnd_size.
  assert (∀ p w t, 0 ≤ p < 4 → in_u32 w → in_u32 t → kcp_typed (k <| probe_wait := w |> <| ts_probe := t |> <| probe := p |>)) as Hset.
  { intros p w t Hp Hw' Ht. exact (conj (conj S1 (conj S2 (conj S3 (conj S4 (conj S5 (conj S6 Ht)))))) (conj Hr (conj Hw (conj (conj Hp (conj Hw' P3)) Hl)))). }
  case_decide; [case_decide|].
  - exact (Hset (probe k) KCP_PROBE_INIT (wadd (current k) KCP_PROBE_INIT) P1 ltac:(done) (wadd_typed _ _)).
  - case_decide; [|done]. set (w := ((probe_wait k `max` KCP_PROBE_INIT) + _) `min` _).
    assert (in_u32 w) as Hw'; [|exact (Hset (Z.lor KCP_ASK_SEND (probe k)) w (wadd (current k) w) (lor_probe _ _ (or_introl eq_refl) P1) Hw' (wadd_typed _ _))].
    unfold w, KCP_PROBE_INIT, KCP_PROBE_LIMIT, in_u32, u32_max in *. pose proof (Z.div_pos (probe_wait k `max` 7000) 2). lia.
  - exact (Hset (probe k) 0 0 P1 zero_u32 zero_u32).
Qed.

Lemma flush_probe_commands_typed k seg :
  kcp_typed k → kcp_typed (flush_probe_commands k seg).2 ∧ s_wnd (flush_probe_commands k seg).1 = s_wnd seg.
Proof.
  intros Hk. unfold flush_probe_commands.
  assert (∀ k cmd seg, kcp_typed k → kcp_typed (flush_probe_command k cmd seg).2 ∧ s_wnd (flush_probe_command k cmd seg).1 = s_wnd seg) as Hone.
  { intros k0 cmd seg0 H0. unfold flush_probe_command. by destruct (room_for _ _ _ _). }
  set (x := if decide (Z.land (probe k) KCP_ASK_SEND ≠ 0) then _ else _).
  assert (kcp_typed x.2 ∧ s_wnd x.1 = s_wnd seg) as [Hx Ex] by (unfold x; case_decide; [by apply Hone|done]).
  destruct x as [seg1 k1]. cbn [fst snd] in *. set (y := if decide _ then _ else _).
  assert (kcp_typed y.2 ∧ s_wnd y.1 = s_wnd seg) as [Hy Ey].
  { unfold y. case_decide; [|done]. rewrite <- Ex. by apply Hone. }
  destruct y as [seg2 k2]. cbn [fst snd] in *. split; [|done]. destruct Hy as (Hs & Hr & Hw & (P1 & P2) & Hl).
  refine (conj Hs (conj Hr (conj Hw (conj (conj _ P2) Hl)))). change (0 ≤ 0 < 4). lia.
Qed.

Lemma admit_typed wnd window queue : ∀ k,
  kcp_typed k → in_u16 wnd → Forall seg_typed queue → kcp_typed (admit_segments queue k wnd window).
Proof.
  induction queue as [|s queue IH]; intros k Hk Hwnd Hq.
  - pose proof Hk as (Hs & Hr & Hw & Hm & (L1 & L2)). cbn [admit_segments].
    case_decide; exact (conj Hs (conj Hr (conj Hw (conj Hm (conj Hq L2))))).
  - cbn [admit_segments]. pose proof Hk as ((S1 & S2 & S3 & S4 & S5 & S6) & (R1 & R2 & R3 & R4) & Hw & Hm & (L1 & L2 & L3 & L4)). case_decide.
    + apply Forall_cons in Hq as [(Q1 & Q2 & Q3 & _) Hq]. apply IH; [|done|done].
      refine (conj (conj S1 (conj S2 (conj (wadd_typed (snd_nxt k) 1) (conj S4 (conj S5 S6))))) (conj (conj R1 (conj R2 (conj R3 R4)))
        (conj Hw (conj Hm (conj L1 (conj L2 (conj _ L4))))))).
      apply Forall_app. split; [done|]. constructor; [|done]. by split_and!.
    + exact (conj (conj S1 (conj S2 (conj S3 (conj S4 (conj S5 S6))))) (conj (conj R1 (conj R2 (conj R3 R4)))
        (conj Hw (conj Hm (conj Hq (conj L2 (conj L3 L4))))))).
Qed.

Definition flushed_typed (f : Flushed) : Prop := in_u32 (fl_xmit f) ∧ (fl_state f = 0 ∨ fl_state f = -1).

Lemma due_typed k resent rtomin s f :
  kcp_typed k → seg_typed s → flushed_typed f →
  seg_typed (due k resent rtomin s f).1.2 ∧ flushed_typed (due k resent rtomin s f).2.
Proof.
  intros ((S1 & S2 & S3 & S4 & S5 & S6) & (R1 & R2 & R3 & R4) & _) (T1 & T2 & T3 & T4 & T5 & T6 & T7 & T8 & T9 & T10 & T11) Hf.
  assert (in_u32 (saturating_add u32_max 1 (s_xmit s))) as Hx by (by apply saturating_typed).
  unfold due. case_decide; [|case_decide; [|case_decide]]; cbn [fst snd].
  - split; [|done]. exact (conj T1 (conj T2 (conj T3 (conj T4 (conj T5 (conj T6 (conj T7 (conj (wadd_typed _ _) (conj R3 (conj T10 Hx)))))))))).
  - set (rto := if negb (nodelay k) then _ else _). assert (in_u32 rto) as Hrto.
    { unfold rto, saturating_add, KCP_RTO_MAX, in_u32, u32_max in *. pose proof (Z.div_pos (s_rto s) 2). destruct (negb _); lia. }
    split; [exact (conj T1 (conj T2 (conj T3 (conj T4 (conj T5 (conj T6 (conj T7 (conj (wadd_typed _ _) (conj Hrto (conj T10 Hx))))))))))|].
    destruct Hf as [F1 F2]. exact (conj (saturating_typed 1 (fl_xmit f) ltac:(done) F1) F2).
  - split; [|done].
    exact (conj T1 (conj T2 (conj T3 (conj T4 (conj T5 (conj T6 (conj T7 (conj (wadd_typed _ _) (conj T9
      (conj zero_u32 Hx)))))))))).
  - done.
Qed.

Lemma flush_segments_typed k wnd resent rtomin l : ∀ f,
  kcp_typed k → in_u16 wnd → Forall seg_typed l → flushed_typed f →
  Forall seg_typed (flush_segments k wnd resent rtomin l f).1 ∧ flushed_typed (flush_segments k wnd resent rtomin l f).2.
Proof.
  induction l as [|s l IH]; intros f Hk Hwnd Hl Hf; [done|]. apply Forall_cons in Hl as [Hs Hl]. cbn [flush_segments].
  assert (seg_typed (flush_segment k wnd resent rtomin s f).1 ∧ flushed_typed (flush_segment k wnd resent rtomin s f).2) as [H1 H2].
  { unfold flush_segment. pose proof (due_typed k resent rtomin s f Hk Hs Hf) as Hd. destruct (due _ _ _ _ _) as [[need s1] f1].
    destruct need; cbn [negb fst snd] in *; [|done]. destruct (room_for _ _ _ _) as [b out]. cbn [fst snd].
    destruct Hd as [(T1 & T2 & T3 & T4 & T5 & T6 & T7 & T8) [F1 F2]], Hk as ((S1 & S2 & S3 & S4 & S5 & S6) & _). split.
    - exact (conj T1 (conj T2 (conj T3 (conj Hwnd (conj S5 (conj T6 (conj S4 T8))))))).
    - case_decide; [|done]. split; [done|by right]. }
  destruct (flush_segment k wnd resent rtomin s f) as [s1 f1]. cbn [fst snd] in *. destruct (IH f1 Hk Hwnd Hl H2) as [G1 G2].
  destruct (flush_segments k wnd resent rtomin l f1) as [l1 f2]. cbn [fst snd] in *. split; [by constructor|done].
Qed.

Lemma congestion_typed k change lost resent window :
  kcp_typed k → in_u16 window → in_u32 resent →
  let '(th, cw, inc) := congestion k change lost resent window in in_u16 th ∧ in_u16 cw ∧ 0 ≤ inc ≤ usize_max.
Proof.
  intros (Hs & Hr & (W1 & W2 & W3 & W4 & W5 & W6 & W7 & W8) & _) Hwin Hres. unfold congestion, KCP_THRESH_MIN.
  set (x := if decide (0 < change) then _ else _). assert (in_u16 x.1.1 ∧ in_u16 x.1.2 ∧ 0 ≤ x.2 ≤ usize_max) as (H1 & H2 & H3).
  { unfold x. case_decide; [|done]. cbn [fst snd]. set (m := wrapping_sub 32 _ _ mod 2 ^ 16).
    assert (0 ≤ m / 2 ≤ u16_max) as Hd.
    { pose proof (Z.mod_pos_bound (wrapping_sub 32 (snd_nxt k) (snd_una k)) (2 ^ 16) eq_refl) as Hm. fold m in Hm. unfold u16_max.
      pose proof (Z.div_pos m 2). pose proof (Z.div_le_upper_bound m 2 (2 ^ 16 - 1)). lia. }
    unfold saturating_add, in_u16, in_u32, usize_max, u64_max, u32_max, u16_max in *. nia. }
  destruct x as [[th cw] inc]. cbn [fst snd] in *.
  assert (0 ≤ window / 2 ≤ u16_max) as Hd.
  { unfold in_u16, u16_max in *. pose proof (Z.div_pos window 2). pose proof (Z.div_le_upper_bound window 2 (2 ^ 16 - 1)). lia. }
  destruct lost; [|case_decide]; cbv zeta; try rewrite decide_False by lia;
    unfold in_u16, usize_max, u64_max, u16_max in *; lia.
Qed.

Lemma flush_ack_into_typed k :
  kcp_typed k → kcp_typed (flush_ack_into k (ack_template k)).2 ∧ in_u16 (s_wnd (flush_ack_into k (ack_template k)).1).
Proof.
  intros (Hs & Hr & Hw & Hm & (L1 & L2 & L3 & L4 & L5)). assert (seg_typed (ack_template k)) as Ht.
  { destruct Hs as (S1 & S2 & S3 & S4 & S5), Hw as (W1 & W2 & _). pose proof (wnd_unused_typed k W2). split_and!; done. }
  unfold flush_ack_into. destruct (flush_acks_typed (mtu k) (acklist k) (ack_template k) (buf k) (output k) Ht L5) as [(_ & _ & _ & G & _) _].
  destruct (flush_acks _ _ _ _ _) as [[seg b] out]. split; [|done].
  exact (conj Hs (conj Hr (conj Hw (conj Hm (conj L1 (conj L2 (conj L3 (conj L4 (Forall_nil_2 _))))))))).
Qed.

Lemma flush_typed k : kcp_typed k → kcp_typed (flush k).2.
Proof.
  intros Hk. unfold flush. destruct (negb (updated k)); [done|].
  destruct (flush_ack_into_typed k Hk) as [H1 Hw1].
  destruct (flush_ack_into k (ack_template k)) as [seg k1]. cbn [fst snd] in *.
  pose proof (flush_probe_commands_typed (probe_wnd_size k1) seg (probe_wnd_size_typed k1 H1)) as [H2 Ew].
  destruct (flush_probe_commands _ seg) as [seg2 k2]. cbn [fst snd] in *. rewrite <- Ew in Hw1.
  set (window := if negb (nocwnd k2) then _ else _). assert (in_u16 window) as Hwin.
  { destruct H2 as (_ & _ & (W1 & W2 & W3 & W4 & _) & _). unfold window, in_u16 in *. destruct (negb _); lia. }
  pose proof (admit_typed (s_wnd seg2) window (snd_queue k2) k2 H2 Hw1 (proj1 (proj2 (proj2 (proj2 (proj2 H2)))))) as H3.
  set (k3 := admit_segments _ _ _ _) in *. set (resent := if decide (0 < fastresend k3) then _ else _). set (rtomin := if negb (nodelay k3) then _ else _).
  pose proof H3 as (Hs & Hr & (W1 & W2 & W3 & W4 & W5 & W6 & W7) & (P1 & P2 & P3 & P4 & P5 & P6 & P7) & (L1 & L2 & L3 & L4)).
  assert (in_u32 resent) as Hres by (unfold resent; case_decide; [done|unfold in_u32, u32_max; lia]).
  destruct (flush_segments_typed k3 (s_wnd seg2) resent rtomin (snd_buf k3) (mkFlushed (buf k3) (output k3) (xmit k3) (state k3) false 0) H3 Hw1 L3) as [G1 [G2 G3]]; [done|].
  destruct (flush_segments _ _ _ _ _ _) as [sent f]. cbn [fst snd] in *.
  set (k4 := k3 <| snd_buf := sent |> <| buf := [] |> <| output := _ |> <| xmit := fl_xmit f |> <| state := fl_state f |>).
  assert (kcp_typed k4) as H4.
  { exact (conj Hs (conj Hr (conj (conj W1 (conj W2 (conj W3 (conj W4 (conj W5 (conj W6 W7)))))) (conj (conj P1 (conj P2 (conj G2 (conj P4 (conj P5 (conj P6 G3))))))
      (conj L1 (conj L2 (conj G1 L4))))))). }
  pose proof (congestion_typed k4 (fl_change f) (fl_lost f) resent window H4 Hwin Hres) as Hc.
  destruct (congestion _ _ _ _ _) as [[th cw] inc]. destruct Hc as (C1 & C2 & C3). cbn [snd].
  exact (conj Hs (conj Hr (conj (conj W1 (conj W2 (conj W3 (conj C2 (conj C1 (conj C3 W7)))))) (conj (conj P1 (conj P2 (conj G2 (conj P4 (conj P5 (conj P6 G3))))))
      (conj L1 (conj L2 (conj G1 L4))))))).
Qed.

(** ** The other calls *)

Lemma update_typed k now : kcp_typed k → in_u32 now → kcp_typed (update k now).2.
Proof.
  intros ((S1 & S2 & S3 & S4 & S5 & S6 & S7) & Hr & Hw & Hm & Hl) Hnow. unfold update.
  assert (∀ t u, in_u32 t → kcp_typed (k <| current := now |> <| updated := u |> <| ts_flush := t |>)) as Hset.
  { intros t u Ht. exact (conj (conj S1 (conj S2 (conj S3 (conj S4 (conj Hnow (conj Ht S7)))))) (conj Hr (conj Hw (conj Hm Hl)))). }
  set (k1 := if negb _ then _ else _). assert (∃ t u, k1 = k <| current := now |> <| updated := u |> <| ts_flush := t |> ∧ in_u32 t) as (t & u & E & Ht).
  { unfold k1. destruct (negb _); [by exists now, true|]. exists (ts_flush k), (updated k). split; [by destruct k|done]. }
  rewrite E. set (slap := timediff now _).
  destruct (decide (-10000 ≤ slap < 10000)); [case_decide; [|by apply Hset]|rewrite decide_True by lia];
    case_decide; apply flush_typed; (apply (Hset _ u), wadd_typed).
Qed.

Lemma fragments_typed n stream mss : ∀ data, (n ≤ 256)%nat → Forall seg_typed (fragments n stream mss data).
Proof.
  induction n as [|n IH]; intros data Hn; [constructor|]. cbn [fragments]. constructor; [|apply IH; lia].
  split_and!; try done; change (in_u8 (if stream then 0 else Z.of_nat n)) || done. unfold in_u8, u8_max. destruct stream; lia.
Qed.
Lemma send_typed k data r k' : kcp_typed k → send k data = Done (r, k') → kcp_typed k'.
Proof.
  intros Hk. unfold send. case_decide; [done|]. set (x := if stream k then _ else _).
  assert (kcp_typed x.1.1) as Hx.
  { unfold x. destruct (stream k); [|done]. destruct (last (snd_queue k)) as [old|] eqn:El; [|done]. case_decide; [|done].
    destruct Hk as (Hs & Hr & Hw & Hm & (L1 & L2)). refine (conj Hs (conj Hr (conj Hw (conj Hm (conj _ L2))))).
    assert (seg_typed old) as (T1 & T2 & T3 & T4) by (rewrite Forall_forall in L1; apply L1; apply last_Some in El as [l ->]; set_solver).
    apply Forall_app. split; [by apply Forall_take|]. constructor; [|done]. exact (conj T1 (conj T2 (conj (conj (Z.le_refl 0) (ltac:(done) : 0 ≤ u8_max)) T4))). }
  destruct x as [[k1 data1] sent]. cbn [fst] in Hx. destruct (_ && _); [by intros [= _ <-]|].
  set (count := if decide (len data1 ≤ mss k1) then 1 else div_ceil (len data1) (mss k1)). case_decide as Hc; intros [= _ <-]; [done|].
  destruct Hx as (Hs & Hr & Hw & Hm & (L1 & L2)). refine (conj Hs (conj Hr (conj Hw (conj Hm (conj _ L2))))).
  apply Forall_app. split; [done|]. apply fragments_typed. unfold KCP_WND_RCV in Hc. lia.
Qed.

Lemma merge_suffix q : ∀ room, (merge q room).2 `suffix_of` q.
Proof.
  induction q as [|s q IH]; intros room; [done|]. cbn [merge]. repeat case_decide; [by exists [s]|by exists [s]|].
  specialize (IH (room - len (s_data s))). destruct (merge q _) as [[d|e] rest]; cbn [snd] in *; by apply suffix_cons_r.
Qed.
Lemma recv_shape k room r k' :
  recv k room = Done (r, k') → ∃ q p, q `suffix_of` rcv_queue k ∧ (p = probe k ∨ p = Z.lor KCP_ASK_TELL (probe k)) ∧
    (k' = k <| rcv_queue := q |> ∨ k' = move_buf (k <| rcv_queue := q |>) <| probe := p |>).
Proof.
  unfold recv. destruct (rcv_queue k) as [|s0 q0] eqn:E.
  { intros [= _ <-]. exists [], (probe k). split_and!; [done|by left|left]. rewrite <- E. by destruct k. }
  assert (k = k <| rcv_queue := s0 :: q0 |>) as Ek by (rewrite <- E; by destruct k).
  destruct (peeksize k) as [size|e]; [|intros [= _ <-]; exists (s0 :: q0), (probe k); split_and!; [done|by left|by left]].
  case_decide; [intros [= _ <-]; exists (s0 :: q0), (probe k); split_and!; [done|by left|by left]|].
  pose proof (merge_suffix (s0 :: q0) room) as Hq. destruct (merge (s0 :: q0) room) as [[data|e] q]; cbn [snd] in Hq.
  - case_decide; [|done]. set (k1 := move_buf _). assert (probe k1 = probe k) as Ep by (unfold k1, move_buf; by destruct (move_loop _ _ _ _) as [[? ?] ?]).
    intros [= _ <-]. destruct (_ && _).
    + exists q, (Z.lor KCP_ASK_TELL (probe k)). split_and!; [done|by right|right]. fold k1. rewrite <- Ep. by destruct k1.
    + exists q, (probe k). split_and!; [done|by left|right]. fold k1. rewrite <- Ep. by destruct k1.
  - intros [= _ <-]. exists q, (probe k). split_and!; [done|by left|by left].
Qed.
Lemma recv_typed k room r k' : kcp_typed k → recv k room = Done (r, k') → kcp_typed k'.
Proof.
  intros Hk (q & p & [l Hq] & Hp & Hk')%recv_shape. pose proof Hk as (Hs & Hr & Hw & (P1 & P2) & (L1 & L2 & L3)).
  assert (kcp_typed (k <| rcv_queue := q |>)) as H1.
  { rewrite Hq in L2. apply Forall_app in L2 as [_ L2]. exact (conj Hs (conj Hr (conj Hw (conj (conj P1 P2) (conj L1 (conj L2 L3)))))). }
  destruct Hk' as [-> | ->]; [done|]. apply move_buf_typed in H1. destruct H1 as (Hs1 & Hr1 & Hw1 & (_ & P2') & Hl1).
  refine (conj Hs1 (conj Hr1 (conj Hw1 (conj (conj _ P2') Hl1)))). change (0 ≤ p < 4).
  destruct Hp as [-> | ->]; [done|]. apply lor_probe; [by right|done].
Qed.

(** ** The receive window *)

(** The segments kept out of order are inside the window and all different. *)
Definition window_ok (k : Kcp) : Prop :=
  in_u16 (rcv_wnd k) ∧ len (rcv_queue k) ≤ rcv_wnd k ∧ ascending (rcv_nxt k) (rcv_buf k) ∧
  Forall (λ s, in_u32 (s_sn s) ∧ at_pos (rcv_nxt k) s < rcv_wnd k) (rcv_buf k).
Definition rcv_part (k : Kcp) : Z * Z * list Segment * list Segment := (rcv_nxt k, rcv_wnd k, rcv_queue k, rcv_buf k).
Lemma window_same k k' : rcv_part k' = rcv_part k → window_ok k → window_ok k'.
Proof. unfold rcv_part, window_ok. by intros [= -> -> -> ->]. Qed.

Lemma ascending_len s0 w l : ∀ i,
  ascending s0 l → Forall (λ s, i ≤ at_pos s0 s < w) l → i ≤ w → len l ≤ w - i.
Proof.
  induction l as [|s l IH]; intros i Hs Hf Hi; [rewrite len_nil; lia|]. apply ascending_cons in Hs as [Hs Hlt]. apply Forall_cons in Hf as [Hb Hf].
  rewrite len_cons. pose proof (IH (at_pos s0 s + 1) Hs) as H. enough (len l ≤ w - (at_pos s0 s + 1)) by lia. apply H; [|lia].
  rewrite Forall_forall in *. intros t Ht. specialize (Hlt _ Ht). specialize (Hf _ Ht). cbn in *. lia.
Qed.
Lemma window_bounded k : window_ok k → len (rcv_queue k) ≤ rcv_wnd k ∧ len (rcv_buf k) ≤ rcv_wnd k.
Proof.
  intros (Hw & Hq & Hs & Hf). split; [done|]. rewrite <- (Z.sub_0_r (rcv_wnd k)). apply (ascending_len (rcv_nxt k)); [done| |apply Hw].
  eapply Forall_impl; [exact Hf|]. intros s [_ ?]. split; [apply pos_range|done].
Qed.

Lemma pos_shift n sn : 0 < pos n sn → pos (wadd n 1) sn = pos n sn - 1.
Proof.
  unfold pos, wadd, wrapping_add. intros H. pose proof (Z.mod_pos_bound (sn - n) (2 ^ 32) eq_refl).
  rewrite Zminus_mod_idemp_r. replace (sn - (n + 1)) with (sn - n - 1) by lia. rewrite Zminus_mod, (Z.mod_small 1) by lia. apply Z.mod_small. lia.
Qed.
Lemma move_loop_window w l : ∀ q n,
  len q ≤ w → ascending n l → Forall (λ s, in_u32 (s_sn s) ∧ at_pos n s < w) l →
  let '(l', q', n') := move_loop l q n w in
  len q' ≤ w ∧ ascending n' l' ∧ Forall (λ s, in_u32 (s_sn s) ∧ at_pos n' s < w) l'.
Proof.
  induction l as [|s l IH]; intros q n Hq Hs Hf; cbn [move_loop]; [done|]. case_decide as Hd; [|done]. destruct Hd as [E Hlt].
  apply ascending_cons in Hs as [Hs Hall]. apply Forall_cons in Hf as [_ Hf].
  assert (∀ t, t ∈ l → at_pos (wadd n 1) t = at_pos n t - 1) as Hsh.
  { intros t Ht. apply pos_shift. rewrite Forall_forall in Hall. specialize (Hall _ Ht). unfold at_pos in Hall. pose proof (pos_range n (s_sn s)). lia. }
  apply IH.
  - rewrite len_app. change (len [s]) with 1. lia.
  - clear -Hs Hsh. induction l as [|t l IH]; [constructor|]. apply ascending_cons in Hs as [Hs Hlt]. apply ascending_cons.
    split; [apply IH; [done|intros u Hu; apply Hsh; set_solver]|]. rewrite Forall_forall in *. intros u Hu. specialize (Hlt _ Hu).
    rewrite !Hsh by set_solver. lia.
  - rewrite Forall_forall in *. intros t Ht. destruct (Hf _ Ht). split; [done|]. rewrite Hsh by done. lia.
Qed.
Lemma move_buf_window k : window_ok k → window_ok (move_buf k).
Proof.
  intros (Hw & Hq & Hs & Hf). unfold move_buf. pose proof (move_loop_window (rcv_wnd k) _ _ _ Hq Hs Hf) as H.
  by destruct (move_loop _ _ _ _) as [[l q] n].
Qed.

Lemma parse_data_window k seg : window_ok k → in_u32 (s_sn seg) → window_ok (parse_data k seg).
Proof.
  intros Hk Hsn. pose proof Hk as (Hw & Hq & Hs & Hf). unfold parse_data. case_decide as Hd; [done|].
  apply Decidable.not_or in Hd as [Hhi Hlo].
  assert (at_pos (rcv_nxt k) seg < rcv_wnd k) as Hin.
  { unfold at_pos. set (p := pos (rcv_nxt k) (s_sn seg)). pose proof (pos_range (rcv_nxt k) (s_sn seg)) as Hr. fold p in Hr.
    assert (p < 2 ^ 31) as Hp.
    { unfold timediff in Hlo. change (wrapping_sub 32 (s_sn seg) (rcv_nxt k)) with p in Hlo. case_decide; lia. }
    rewrite (timediff_mod _ _ (p - rcv_wnd k)) in Hhi; [lia| |unfold in_u16, u16_max in Hw; lia].
    unfold p, pos, wadd, wrapping_add. rewrite Zminus_mod_idemp_r, Zminus_mod_idemp_l. f_equal. lia. }
  assert (∀ s, at_pos (rcv_nxt k) s < rcv_wnd k → in_range (at_pos (rcv_nxt k) s)) as Hrange.
  { intros s Hlt. unfold in_range, MAX_SEGMENTS, in_u16, u16_max, at_pos in *. pose proof (pos_range (rcv_nxt k) (s_sn s)). lia. }
  pose proof (insertion_point_spec (rcv_nxt k) (s_sn seg) (rcv_buf k) [] Hsn) as Hi.
  destruct (insertion_point _ _ _) as [rep idx]. destruct Hi as [_ Hi]; [|by apply Hrange|done|done|].
  { eapply Forall_impl; [exact Hf|]. intros s [? ?]. split; [done|]. by apply Hrange. }
  apply move_buf_window. destruct rep; [done|]. destruct Hi as [Hi1 Hi2]. rewrite app_nil_r in Hi2. destruct (ascending_take_drop (rcv_nxt k) idx _ Hs) as [A1 A2].
  refine (conj Hw (conj Hq (conj (_ : ascending (rcv_nxt k) (take idx (rcv_buf k) ++ seg :: drop idx (rcv_buf k))) _))).
  - rewrite Forall_forall in Hi1, Hi2. apply ascending_app; [done|apply ascending_cons; split; [done|by apply Forall_forall]|].
    intros a b Ha [->|Hb]%elem_of_cons; [by apply Hi1|]. specialize (Hi1 _ Ha). specialize (Hi2 _ Hb). cbn beta in *. lia.
  - apply Forall_app. split; [by apply Forall_take|]. constructor; [done|by apply Forall_drop].
Qed.

(** [input] touches the receive window only through [parse_data]. *)
Lemma input_command_window k a h data :
  window_ok k → header_typed h → window_ok (input_command k a h data).1 ∧ rcv_wnd (input_command k a h data).1 = rcv_wnd k.
Proof.
  intros Hk (_ & _ & _ & _ & _ & Hsn & _). unfold input_command. set (k1 := input_una k h).
  assert (window_ok k1 ∧ rcv_wnd k1 = rcv_wnd k) as [H1 E1] by (split; [by apply (window_same k)|done]).
  case_decide; [|case_decide; [|case_decide]]; cbn [fst].
  - destruct (input_ack_frame k1 h) as (F1 & F2 & F3 & F4 & _). split; [|by rewrite F2].
    apply (window_same k1); [|done]. unfold rcv_part. congruence.
  - unfold input_push. case_decide; [|done]. set (k2 := ack_push k1 _ _). case_decide; [|done]. split.
    + apply parse_data_window; [|done]. by apply (window_same k1).
    + unfold parse_data. case_decide; [done|]. destruct (insertion_point _ _ _) as [[] idx]; unfold move_buf; by destruct (move_loop _ _ _ _) as [[? ?] ?].
  - split; [by apply (window_same k1)|done].
  - done.
Qed.
Lemma grow_cwnd_rcv k : rcv_part (grow_cwnd k) = rcv_part k.
Proof. unfold grow_cwnd. repeat case_decide; done. Qed.
Lemma input_window k b : window_ok k → window_ok (input k b).2 ∧ rcv_wnd (input k b).2 = rcv_wnd k.
Proof.
  assert (∀ k k', rcv_part k' = rcv_part k → window_ok k → window_ok k' ∧ rcv_wnd k' = rcv_wnd k) as Hsame.
  { intros k0 k1 E H0. split; [by eapply window_same|]. unfold rcv_part in E. by injection E. }
  apply (input_relation (λ k k', window_ok k → window_ok k' ∧ rcv_wnd k' = rcv_wnd k)); clear k b.
  - split; [done|]. intros x y z Hxy Hyz Hx. destruct (Hxy Hx) as [Hy Ey]. destruct (Hyz Hy) as [Hz Ez]. split; [done|congruence].
  - intros k c _. by apply Hsame.
  - intros k a h data Hh Hk. by apply input_command_window.
  - intros k sn ts. by apply Hsame.
  - intros k _. apply Hsame, grow_cwnd_rcv.
Qed.

(** What no call but a setting changes. *)
Definition settings (k : Kcp) : Z * Z * Z * bool * bool := (mss k, mtu k, snd_wnd k, nocwnd k, stream k).
Definition kept (k : Kcp) : Z * Z * list Segment * list Segment * (Z * Z * Z * bool * bool) := (rcv_part k, settings k).
Lemma admit_kept wnd window queue : ∀ k, kept (admit_segments queue k wnd window) = kept k.
Proof. induction queue as [|s queue IH]; intros k; cbn [admit_segments]; case_decide; try done. by rewrite IH. Qed.
(** The acknowledgements and the probes leave the segments alone. *)
Definition unmoved (k : Kcp) : list Segment * list Segment * (Z * Z * list Segment * list Segment * (Z * Z * Z * bool * bool)) :=
  (snd_queue k, snd_buf k, kept k).
Lemma flush_head_unmoved k s :
  let '(s1, k1) := flush_ack_into k s in unmoved (flush_probe_commands (probe_wnd_size k1) s1).2 = unmoved k.
Proof.
  assert (unmoved (flush_ack_into k s).2 = unmoved k) as H1 by (unfold flush_ack_into; by destruct (flush_acks _ _ _ _ _) as [[? ?] ?]).
  destruct (flush_ack_into k s) as [seg k1]. cbn [snd] in H1.
  assert (unmoved (probe_wnd_size k1) = unmoved k1) as H2 by (unfold probe_wnd_size; repeat case_decide; done).
  set (k2 := probe_wnd_size k1) in *.
  assert (∀ k cmd seg, unmoved (flush_probe_command k cmd seg).2 = unmoved k) as Hone
    by (intros k0 cmd seg0; unfold flush_probe_command; by destruct (room_for _ _ _ _)).
  unfold flush_probe_commands. set (x := if decide (Z.land (probe k2) KCP_ASK_SEND ≠ 0) then _ else _).
  assert (unmoved x.2 = unmoved k2) as Ex by (unfold x; case_decide; [apply Hone|done]). destruct x as [seg1 k3]. cbn [snd] in Ex.
  set (y := if decide _ then _ else _). assert (unmoved y.2 = unmoved k3) as Ey by (unfold y; case_decide; [apply Hone|done]).
  destruct y as [seg2 k4]. cbn [snd] in *. change (unmoved k4 = unmoved k). congruence.
Qed.
Lemma flush_segments_length k wnd resent rtomin l : ∀ f, length (flush_segments k wnd resent rtomin l f).1 = length l.
Proof.
  induction l as [|s l IH]; intros f; cbn [flush_segments]; [done|]. destruct (flush_segment _ _ _ _ _ _) as [s' f'].
  specialize (IH f'). destruct (flush_segments _ _ _ _ _ _). cbn in *. by rewrite IH.
Qed.
Lemma admit_waiting wnd window queue : ∀ k, wait_snd (admit_segments queue k wnd window) = len (snd_buf k) + len queue.
Proof.
  induction queue as [|s queue IH]; intros k; cbn [admit_segments]; case_decide; try done. rewrite IH.
  match goal with |- len (snd_buf (_ <| snd_buf ::= λ l, l ++ [?x] |>)) + _ = _ =>
    change (len (snd_buf k ++ [x]) + len queue = len (snd_buf k) + len (s :: queue)) end. rewrite len_app, !len_cons, len_nil. lia.
Qed.
Lemma flush_kept k : kept (flush k).2 = kept k ∧ wait_snd (flush k).2 = wait_snd k.
Proof.
  unfold flush. destruct (negb (updated k)); [done|]. pose proof (flush_head_unmoved k (ack_template k)) as H1.
  destruct (flush_ack_into k (ack_template k)) as [seg k1]. destruct (flush_probe_commands (probe_wnd_size k1) seg) as [seg3 k3]. cbn [snd] in H1.
  pose proof (f_equal (λ x, x.1.1) H1 : snd_queue k3 = snd_queue k) as Eq. pose proof (f_equal (λ x, x.1.2) H1 : snd_buf k3 = snd_buf k) as Eb.
  pose proof (f_equal snd H1 : kept k3 = kept k) as Ek. set (window := if negb _ then _ else _).
  pose proof (admit_kept (s_wnd seg3) window (snd_queue k3) k3) as H4. pose proof (admit_waiting (s_wnd seg3) window (snd_queue k3) k3) as H5.
  set (k4 := admit_segments _ _ _ _) in *. set (resent := if decide _ then _ else _). set (rtomin := if negb _ then _ else _).
  pose proof (flush_segments_length k4 (s_wnd seg3) resent rtomin (snd_buf k4) (mkFlushed (buf k4) (output k4) (xmit k4) (state k4) false 0)) as H6.
  destruct (flush_segments _ _ _ _ _ _) as [sent f]. destruct (congestion _ _ _ _ _) as [[th cw] inc]. cbn [fst snd] in *. split.
  - change (kept k4 = kept k). by rewrite H4.
  - change (len sent + len (snd_queue k4) = len (snd_buf k) + len (snd_queue k)). unfold wait_snd, len in *. rewrite H6. rewrite Eq, Eb in *. exact H5.
Qed.

(** ** What waits to be sent *)

Lemma merge_message_len q : ∀ room data rest, merge q room = (Ok data, rest) → len data = message_len q.
Proof.
  induction q as [|s q IH]; intros room data rest; cbn [merge message_len]; [by intros [= <- <-]|]. case_decide; [done|]. case_decide.
  - intros [= <- <-]. lia.
  - destruct (merge q _) as [[d|] r] eqn:E; [|done]. intros [= <- <-]. rewrite len_app. f_equal. by eapply IH.
Qed.
(** The [assert_eq!] of [recv] holds whatever was received. *)
Lemma recv_total k room : recv k room ≠ Panic.
Proof.
  unfold recv. destruct (rcv_queue k) as [|s q] eqn:E; [done|]. unfold peeksize. rewrite E.
  set (size := if decide (s_frg s = 0) then _ else _).
  assert (∀ n, size = Ok n → n = message_len (s :: q)) as Hsize.
  { intros n. unfold size. cbn [message_len]. case_decide; [intros [= <-]; lia|]. case_decide; [done|]. by intros [= <-]. }
  destruct size as [n|]; [|done]. case_decide; [done|]. destruct (merge (s :: q) room) as [[data|] rest] eqn:Em; [|done].
  apply merge_message_len in Em. rewrite decide_True; [done|]. rewrite Em. symmetry. by apply Hsize.
Qed.

Lemma message_len_nonneg q : 0 ≤ message_len q.
Proof. induction q as [|s q IH]; cbn [message_len]; [done|]. pose proof (len_nonneg (s_data s)). case_decide; lia. Qed.
Lemma merge_fits q : ∀ room, q ≠ [] → message_len q ≤ room → ∃ data rest, merge q room = (Ok data, rest) ∧ (length rest < length q)%nat.
Proof.
  induction q as [|s q IH]; intros room Hne Hroom; [done|]. cbn [merge message_len] in *. pose proof (message_len_nonneg q).
  rewrite decide_False by (case_decide; lia). case_decide; [eexists _, _; split; [done|]; cbn; lia|].
  destruct q as [|t q]; [by eexists _, []; cbn; split; [|lia]|]. destruct (IH (room - len (s_data s)) ltac:(done) ltac:(lia)) as (data & rest & -> & Hl).
  eexists _, _. split; [done|]. cbn in *. lia.
Qed.
Lemma move_loop_length wnd l : ∀ q n, let '(b, q', _) := move_loop l q n wnd in (length b + length q' = length l + length q)%nat.
Proof.
  induction l as [|s l IH]; intros q n; cbn [move_loop]; [done|]. case_decide; [|cbn; lia]. specialize (IH (q ++ [s]) (wadd n 1)).
  destruct (move_loop l _ _ _) as [[b q'] n']. rewrite length_app in IH. cbn in *. lia.
Qed.
(** Into a buffer of the size [peeksize] asks for, [recv] always delivers, and uses up a segment. *)
Lemma recv_delivers k size :
  peeksize k = Ok size → ∃ data k', recv k size = Done (Ok data, k') ∧
  (length (rcv_queue k') + length (rcv_buf k') < length (rcv_queue k) + length (rcv_buf k))%nat.
Proof.
  unfold recv. unfold peeksize at 1. destruct (rcv_queue k) as [|s q] eqn:E; [done|]. intros Hp.
  assert (size = message_len (s :: q)) as ->.
  { revert Hp. cbn [message_len]. case_decide; [intros [= <-]; lia|]. case_decide; [done|]. by intros [= <-]. }
  assert (peeksize k = Ok (message_len (s :: q))) as -> by (unfold peeksize; by rewrite E). rewrite decide_False by lia.
  destruct (merge_fits (s :: q) (message_len (s :: q)) ltac:(done) ltac:(lia)) as (data & rest & Em & Hl). rewrite Em. apply merge_message_len in Em.
  rewrite decide_True by done. set (k1 := move_buf _). eexists _, _. split; [reflexivity|].
  pose proof (move_loop_length (rcv_wnd k) (rcv_buf k) rest (rcv_nxt k)) as Hm.
  assert (length (rcv_queue k1) + length (rcv_buf k1) = length rest + length (rcv_buf k))%nat as Hk1.
  { unfold k1, move_buf. change (rcv_buf (k <| rcv_queue := rest |>)) with (rcv_buf k). change (rcv_queue (k <| rcv_queue := rest |>)) with rest.
    change (rcv_nxt (k <| rcv_queue := rest |>)) with (rcv_nxt k). change (rcv_wnd (k <| rcv_queue := rest |>)) with (rcv_wnd k).
    destruct (move_loop _ _ _ _) as [[b q'] n']. change (length q' + length b = length rest + length (rcv_buf k))%nat. lia. }
  cbn [length] in *. destruct (_ && _); (change (length (rcv_queue k1) + length (rcv_buf k1) < S (length q) + length (rcv_buf k))%nat); lia.
Qed.

(** The segments waiting for their acknowledgement; nothing but [send] adds to them. *)
Lemma drop_before_len una l : len (drop_before una l) ≤ len l.
Proof. induction l as [|s l IH]; cbn [drop_before]; [done|]. case_decide; [|done]. rewrite len_cons. lia. Qed.
Lemma remove_acked_len sn l : len (remove_acked sn l) ≤ len l.
Proof. induction l as [|s l IH]; cbn [remove_acked]; [done|]. repeat case_decide; rewrite ?len_cons; lia. Qed.
Lemma count_fastack_len sn ts l : len (count_fastack sn ts l) = len l.
Proof. induction l as [|s l IH]; cbn [count_fastack]; [done|]. case_decide; [done|]. rewrite !len_cons. lia. Qed.
Lemma input_command_waiting k a h data :
  wait_snd (input_command k a h data).1 ≤ wait_snd k ∧ snd_queue (input_command k a h data).1 = snd_queue k.
Proof.
  unfold wait_snd, input_command. set (k1 := input_una k h).
  assert (len (snd_buf k1) ≤ len (snd_buf k)) as H1 by apply drop_before_len. assert (snd_queue k1 = snd_queue k) as Q1 by done. clearbody k1.
  assert (len (snd_buf k1) + len (snd_queue k1) ≤ len (snd_buf k) + len (snd_queue k) ∧ snd_queue k1 = snd_queue k) as Hw1
    by (rewrite Q1; split; [lia|done]).
  case_decide; [|case_decide; [|by case_decide]]; cbn [fst].
  - unfold input_ack. set (k2 := if decide _ then _ else k1).
    assert (snd_buf k2 = snd_buf k1 ∧ snd_queue k2 = snd_queue k1) as [B2 Q2] by (unfold k2; case_decide; [unfold update_ack; by case_decide|done]).
    clearbody k2. unfold parse_ack. destruct (not_in_flight _ _).
    + change (len (snd_buf k2) + len (snd_queue k2) ≤ len (snd_buf k) + len (snd_queue k) ∧ snd_queue k2 = snd_queue k). rewrite B2, Q2, Q1. split; [lia|done].
    + change (len (remove_acked (h_sn h) (snd_buf k2)) + len (snd_queue k2) ≤ len (snd_buf k) + len (snd_queue k) ∧ snd_queue k2 = snd_queue k).
      pose proof (remove_acked_len (h_sn h) (snd_buf k2)). rewrite Q2, Q1. rewrite B2 in *. split; [lia|done].
  - destruct (input_push_frame k1 h data) as (_ & Eq & Eb & _). rewrite Eq, Eb, Q1. split; [lia|done].
Qed.

Lemma input_waiting k b : wait_snd (input k b).2 ≤ wait_snd k.
Proof.
  apply (input_relation (λ k k', wait_snd k' ≤ wait_snd k)); clear k b; try done.
  - split; [intros x; lia|]. intros x y z Hxy Hyz. lia.
  - intros k a h data _. apply input_command_waiting.
  - intros k sn ts. change (len (count_fastack sn ts (snd_buf k)) + len (snd_queue k) ≤ wait_snd k). by rewrite count_fastack_len.
  - intros k _. unfold grow_cwnd. repeat case_decide; done.
Qed.
Lemma update_waiting k now : wait_snd (update k now).2 = wait_snd k.
Proof. destruct (update_timers k now) as [t [-> | ->]]; [|done]. exact (proj2 (flush_kept _)). Qed.
Lemma recv_waiting k room r k' : recv k room = Done (r, k') → wait_snd k' = wait_snd k.
Proof.
  intros (q & p & _ & _ & [-> | ->])%recv_shape; [done|]. unfold move_buf. by destruct (move_loop _ _ _ _) as [[? ?] ?].
Qed.
Lemma fragments_length n st m : ∀ data, length (fragments n st m data) = n.
Proof. induction n as [|n IH]; intros data; cbn [fragments]; [done|]. cbn. by rewrite IH. Qed.
(** Of a message that is not empty, as many segments as its length asks for. *)
Lemma send_waiting k data r k' :
  stream k = false → data ≠ [] → send k data = Done (r, k') →
  match r with Ok _ => wait_snd k' = wait_snd k + div_ceil (len data) (mss k) | Err _ => k' = k end.
Proof.
  intros Hs Hne. unfold send. case_decide; [done|]. rewrite Hs. cbv zeta. rewrite Hs. cbn [andb].
  assert (0 < len data) as Hd by (destruct data; [done|]; rewrite len_cons; pose proof (len_nonneg data); lia).
  assert ((if decide (len data ≤ mss k) then 1 else div_ceil (len data) (mss k)) = div_ceil (len data) (mss k)) as ->.
  { case_decide; [|done]. unfold div_ceil. apply Z.div_unique with (len data - 1); lia. }
  set (c := div_ceil _ _). destruct (decide (KCP_WND_RCV ≤ c)); [by intros [= <- <-]|]. intros [= <- <-].
  assert (1 ≤ c) by (unfold c, div_ceil; apply Z.div_le_lower_bound; lia).
  change (len (snd_buf k) + len (snd_queue k ++ fragments (Z.to_nat (1 `max` c)) false (mss k) data) = wait_snd k + c).
  rewrite len_app. unfold wait_snd, len at 3. rewrite fragments_length. lia.
Qed.

(** ** Any peer, any use *)

(** A call on an engine whose peer may send anything. *)
Inductive any_call (k : Kcp) : Kcp → Prop :=
| any_input b : any_call k (input k b).2
| any_update now : in_u32 now → any_call k (update k now).2
| any_flush_ack : any_call k (flush_ack k).2
| any_send data r k' : send k data = Done (r, k') → any_call k k'
| any_recv room r k' : recv k room = Done (r, k') → any_call k k'.

Lemma any_call_typed k k' : kcp_typed k → any_call k k' → kcp_typed k'.
Proof.
  intros Hk [b|now Hnow| |data r k1 E|room r k1 E].
  - by apply input_typed.
  - by apply update_typed.
  - unfold flush_ack. destruct (negb (updated k)); [done|]. by apply flush_ack_into_typed.
  - by eapply send_typed.
  - by eapply recv_typed.
Qed.
Lemma any_call_window k k' : window_ok k → any_call k k' → window_ok k' ∧ rcv_wnd k' = rcv_wnd k.
Proof.
  assert (∀ k k', rcv_part k' = rcv_part k → window_ok k → window_ok k' ∧ rcv_wnd k' = rcv_wnd k) as Hsame.
  { intros k0 k1 E H0. split; [by eapply window_same|]. unfold rcv_part in E. by injection E. }
  intros Hk [b|now Hnow| |data r k1 E|room r k1 E].
  - by apply input_window.
  - apply Hsame; [|done]. destruct (update_timers k now) as [t [-> | ->]]; [|done]. exact (f_equal fst (proj1 (flush_kept _))).
  - apply Hsame; [|done]. unfold flush_ack. destruct (negb (updated k)); [done|]. cbn [snd]. unfold flush_ack_into. by destruct (flush_acks _ _ _ _ _) as [[? ?] ?].
  - apply Hsame; [|done]. revert E. unfold send. case_decide; [done|]. set (x := if stream k then _ else _).
    assert (rcv_part x.1.1 = rcv_part k) as Ex by (unfold x; destruct (stream k); [destruct (last _); [case_decide|]|]; done).
    destruct x as [[k2 data2] n]. cbn [fst] in Ex. destruct (_ && _); [by intros [= _ <-]|]. destruct (decide (KCP_WND_RCV ≤ _)); by intros [= _ <-].
  - apply recv_shape in E as (q & p & [l Hq] & _ & Hk'). destruct Hk as (Hw & Hlen & Hs & Hf).
    assert (window_ok (k <| rcv_queue := q |>)) as H1.
    { refine (conj Hw (conj _ (conj Hs Hf))). change (len q ≤ rcv_wnd k). rewrite Hq, len_app in Hlen. pose proof (len_nonneg l). lia. }
    destruct Hk' as [-> | ->]; [done|]. split; [exact (move_buf_window _ H1)|]. unfold move_buf. by destruct (move_loop _ _ _ _) as [[? ?] ?].
Qed.

Lemma input_command_settings k a h data : settings (input_command k a h data).1 = settings k.
Proof.
  unfold input_command. set (k1 := input_una k h). change (settings k) with (settings k1).
  case_decide; [|case_decide; [|by case_decide]]; cbn [fst].
  - unfold input_ack, parse_ack. destruct (not_in_flight _ _); case_decide; try done; unfold update_ack; by case_decide.
  - unfold input_push. case_decide; [|done]. case_decide; [|done]. unfold parse_data. case_decide; [done|].
    destruct (insertion_point _ _ _) as [[] idx]; unfold move_buf; by destruct (move_loop _ _ _ _) as [[? ?] ?].
Qed.
Lemma input_settings k b : settings (input k b).2 = settings k.
Proof.
  apply (input_relation (λ k k', settings k' = settings k)); clear k b; try done.
  - split; [done|]. intros x y z Hxy Hyz. congruence.
  - intros k a h data _. apply input_command_settings.
  - intros k _. unfold grow_cwnd. repeat case_decide; done.
Qed.
Lemma send_settings k data r k' : send k data = Done (r, k') → settings k' = settings k.
Proof.
  unfold send. case_decide; [done|]. set (x := if stream k then _ else _).
  assert (settings x.1.1 = settings k) as Ex by (unfold x; destruct (stream k); [destruct (last _); [case_decide|]|]; done).
  destruct x as [[k2 data2] n]. cbn [fst] in Ex. destruct (_ && _); [by intros [= _ <-]|]. destruct (decide (KCP_WND_RCV ≤ _)); by intros [= _ <-].
Qed.
Lemma any_call_settings k k' : any_call k k' → settings k' = settings k.
Proof.
  intros [b|now Hnow| |data r k1 E|room r k1 E].
  - apply input_settings.
  - destruct (update_timers k now) as [t [-> | ->]]; [|done]. exact (f_equal snd (proj1 (flush_kept _))).
  - unfold flush_ack. destruct (negb (updated k)); [done|]. cbn [snd]. unfold flush_ack_into. by destruct (flush_acks _ _ _ _ _) as [[? ?] ?].
  - by eapply send_settings.
  - apply recv_shape in E as (q & p & _ & _ & [-> | ->]); [done|]. unfold move_buf. by destruct (move_loop _ _ _ _) as [[? ?] ?].
Qed.

(** C8: whatever bytes arrive and however the engine is used, every field keeps the machine width
    the source gives it (so the arithmetic of the source that is neither wrapping nor saturating
    never overflows, and divides by no zero), and no more segments are kept for the receiver than
    twice its window. *)
Theorem kcp_hostile_peer k k' :
  kcp_typed k → rcv_queue k = [] → rcv_buf k = [] → rtc any_call k k' →
  kcp_typed k' ∧ rcv_wnd k' = rcv_wnd k ∧ len (rcv_queue k') ≤ rcv_wnd k ∧ len (rcv_buf k') ≤ rcv_wnd k.
Proof.
  intros Ht Eq Eb Hcalls. assert (window_ok k) as Hw.
  { unfold window_ok. rewrite Eq, Eb. pose proof Ht as (_ & _ & (_ & W2 & _) & _). split_and!; [done..|apply W2|constructor|done]. }
  assert (kcp_typed k' ∧ window_ok k' ∧ rcv_wnd k' = rcv_wnd k) as (Ht' & Hw' & E').
  { clear Eq Eb. induction Hcalls as [|x y z Hcall _ IH]; [done|]. destruct (any_call_window x y Hw Hcall) as [H1 E1].
    rewrite <- E1. apply IH; [by eapply any_call_typed|done]. }
  pose proof (window_bounded k' Hw') as [H1 H2]. rewrite E' in *. done.
Qed.

(** An engine at the widest window, a packet that acknowledges what was never sent with the
    oldest of clocks, and one that announces more than it carries. *)
Definition hostile_ack : list byte :=
  encode (mkSegment 7 KCP_CMD_ACK 255 65535 (2 ^ 31) 4294967295 4294967295 0 0 0 0 []).
Definition hostile_push : list byte :=
  encode (mkSegment 7 KCP_CMD_PUSH 255 0 0 65534 0 0 0 0 0 (repeat Byte.x00 3)).
Lemma new_typed c s r : in_u32 c → in_u16 s → in_u16 r → kcp_typed (set_wndsize (new c) s r).
Proof.
  intros Hc Hs Hr. unfold set_wndsize. assert (in_u16 (r `max` KCP_WND_RCV)) by (unfold in_u16, KCP_WND_RCV, u16_max in *; lia).
  do 2 case_decide; unfold kcp_typed; (split; [|split; [|split; [|split]]]); cbv [seq_typed rtt_typed wnd_typed misc_typed lists_typed];
    split_and!; first [done|by left].
Qed.
Lemma kcp_hostile_peer_witness :
  let k := set_wndsize (new 7) 65535 65535 in
  let k' := (input (input (update k 4294967295).2 hostile_ack).2 hostile_push).2 in
  length (rcv_buf k') = 1%nat ∧ rx_srtt k' = 2147483647 ∧
  kcp_typed k' ∧ rcv_wnd k' = rcv_wnd k ∧ len (rcv_queue k') ≤ rcv_wnd k ∧ len (rcv_buf k') ≤ rcv_wnd k.
Proof.
  intros k k'. split; [vm_compute; reflexivity|]. split; [vm_compute; reflexivity|]. apply (kcp_hostile_peer k k').
  - by apply new_typed.
  - reflexivity.
  - reflexivity.
  - refine (rtc_l _ _ _ _ (any_update k 4294967295 ltac:(done)) (rtc_l _ _ _ _ (any_input _ hostile_ack) (rtc_once _ _ (any_input _ hostile_push)))).
Defined.
