(* ===== verification/KcpEngine.v ===== *)
(** * The transport's KCP adapter: rnet-transport [kcp.rs]

    [RustKcpEngine] drives the engine of [Kcp] with validated packets, a byte budget and a count
    of retransmissions.  [Kcp.input] is total in the model, so the branch that catches a panic of
    it is not reached; [KcpTypes] shows that the source cannot overflow there.

    The telemetry window itself is in [Quality]. *)

From stdpp Require Import pretty.
From S2P Require Import Prelude Bytes CoreTypes Quality Kcp KcpLink KcpReliable KcpTypes.
Import Kcp (Kcp, Segment, Header, read_header).
#[local] Existing Instances Kcp.Kcp_eta Kcp.Segment_eta.

Definition OVERHEAD : Z := 24.
Definition MAX_ACK_RTT_MS : Z := 60000.
Definition RECEIVE_WINDOW : Z := 128.

Record RustKcpEngine := mkEngine {
  e_inner : Kcp;
  e_now_ms : Z;
  e_observed_rtt : option Duration;
  e_max_queued_bytes : Z;
  e_failed : bool;
  e_transmitted : gset Z;
  e_telemetry : KcpTelemetry
}.
#[export] Instance RustKcpEngine_eta : Eta RustKcpEngine := λ e,
  mkEngine (e_inner e) (e_now_ms e) (e_observed_rtt e) (e_max_queued_bytes e) (e_failed e) (e_transmitted e) (e_telemetry e).

(** [error.to_string()], from the attributes of [error.rs]. *)
Definition kcp_error_text (e : Kcp.Error) : string :=
  match e with
  | Kcp.ConvInconsistent a b => "conv inconsistent, expected " +:+ pretty a +:+ ", found " +:+ pretty b
  | Kcp.InvalidMtu n => "invalid mtu " +:+ pretty n
  | Kcp.InvalidSegmentSize n => "invalid segment size " +:+ pretty n
  | Kcp.InvalidSegmentDataSize a b => "invalid segment data size, expected " +:+ pretty a +:+ ", found " +:+ pretty b
  | Kcp.IoError => "failed to write whole buffer"
  | Kcp.NeedUpdate => "need to call update() once"
  | Kcp.RecvQueueEmpty => "recv queue is empty"
  | Kcp.ExpectingFragment => "expecting fragment"
  | Kcp.UnsupportedCmd c => "command " +:+ pretty c +:+ " is not supported"
  | Kcp.UserBufTooBig => "user's send buffer is too big"
  | Kcp.UserBufTooSmall => "user's recv buffer is too small"
  end.
Definition map_kcp_error (e : Kcp.Error) : RnetError :=
  let code :=
    match e with
    | Kcp.RecvQueueEmpty | Kcp.ExpectingFragment => ErrorCode.WouldBlock
    | Kcp.UserBufTooBig | Kcp.UserBufTooSmall => ErrorCode.MessageTooLarge
    | Kcp.IoError => ErrorCode.IoError
    | _ => ErrorCode.ProtocolError
    end in
  mkRnetError code (kcp_error_text e).
Definition failed_engine : RnetError := mkRnetError ErrorCode.ProtocolError "KCP engine was isolated after malformed input".

(** ** Construction and budget *)

Definition new_with_limits (conv mtu max_queued_bytes : Z) : Result RustKcpEngine :=
  if decide (max_queued_bytes = 0) then fail ErrorCode.InvalidArgument "KCP queued-byte limit must be positive"
  else
    let inner := Kcp.set_wndsize (Kcp.set_nodelay (Kcp.new conv) true 10 2 true) 128 128 in
    match Kcp.set_mtu inner mtu with
    | (Ok _, inner) => Ok (mkEngine inner 0 None max_queued_bytes false ∅ telemetry_default)
    | (Err e, _) => Err (map_kcp_error e)
    end.
Definition new_with_mtu (conv mtu : Z) : Result RustKcpEngine := new_with_limits conv mtu (4 * 1024 * 1024).
Definition new_engine (conv : Z) : Result RustKcpEngine := new_with_mtu conv 1200.

Definition queued_bytes (e : RustKcpEngine) : Z := Kcp.saturating_mul usize_max (Kcp.wait_snd (e_inner e)) (Kcp.mss (e_inner e)).
Definition queued_bytes_for (e : RustKcpEngine) (payload_len : Z) : Z :=
  let m := Kcp.mss (e_inner e) in Kcp.saturating_mul usize_max (Kcp.div_ceil payload_len m) m.

(** ** Reading packets *)

(** The checks on one segment; the value is its length. *)
Definition validate_segment (packet : list byte) (now_ms maximum_payload : Z) : Result Z :=
  let h := read_header packet in
  let command := Kcp.h_cmd h in
  let payload_len := Kcp.h_len h in
  let error {A} (m : string) : Result A := fail ErrorCode.ProtocolError m in
  if negb (Kcp.known_cmd command) then error "KCP packet has an unsupported command"
  else if decide (RECEIVE_WINDOW < Kcp.h_wnd h) then error "KCP peer advertised a window larger than the negotiated limit"
  else if decide (maximum_payload < payload_len) then error "KCP segment payload exceeds the negotiated MTU"
  else
    segment_len ← ok_or (checked_add usize_max OVERHEAD payload_len)
                    (mkRnetError ErrorCode.ProtocolError "KCP segment length overflow");
    if decide (len packet < segment_len) then error "KCP segment payload is truncated"
    else if decide (command ≠ Kcp.KCP_CMD_PUSH ∧ payload_len ≠ 0) then error "KCP control segment unexpectedly contains payload"
    else if decide ((command = Kcp.KCP_CMD_PUSH ∧ 128 ≤ Kcp.h_frg h) ∨ (command ≠ Kcp.KCP_CMD_PUSH ∧ Kcp.h_frg h ≠ 0))
    then error "KCP segment has an invalid fragment index"
    else if decide (command = Kcp.KCP_CMD_ACK ∧
                    (Kcp.timediff now_ms (Kcp.h_ts h) < 0 ∨ MAX_ACK_RTT_MS < Kcp.timediff now_ms (Kcp.h_ts h)))
    then error "KCP ACK timestamp is outside the safe RTT window"
    else Ok segment_len.

(** The loops over a packet take as much fuel as it has bytes. *)
Fixpoint validate_loop (fuel : nat) (packet : list byte) (now_ms maximum_payload : Z) : Result unit :=
  match packet, fuel with
  | [], _ | _, O => Ok tt
  | _, S fuel =>
    if decide (len packet < OVERHEAD) then fail ErrorCode.ProtocolError "KCP packet has a truncated trailing segment"
    else
      segment_len ← validate_segment packet now_ms maximum_payload;
      validate_loop fuel (drop (Z.to_nat segment_len) packet) now_ms maximum_payload
  end.
Definition validate_kcp_packet (packet : list byte) (now_ms maximum_payload : Z) : Result unit :=
  if decide (len packet < OVERHEAD) then fail ErrorCode.ProtocolError "KCP packet is shorter than its header"
  else validate_loop (length packet) packet now_ms maximum_payload.

(** [None] of the scan is the early return. *)
Fixpoint ack_rtt_loop (fuel : nat) (packet : list byte) (now_ms : Z) (observed : option Z) : option Z :=
  match fuel with
  | O => observed
  | S fuel =>
    if decide (len packet < OVERHEAD) then observed
    else
      let h := read_header packet in
      segment_len ← checked_add usize_max OVERHEAD (Kcp.h_len h);
      if decide (len packet < segment_len) then None
      else
        let observed := if decide (Kcp.h_cmd h = Kcp.KCP_CMD_ACK) then Some (wrapping_sub 32 now_ms (Kcp.h_ts h)) else observed in
        ack_rtt_loop fuel (drop (Z.to_nat segment_len) packet) now_ms observed
  end.
Definition kcp_ack_rtt (packet : list byte) (now_ms : Z) : option Z := ack_rtt_loop (length packet) packet now_ms None.

Fixpoint retire_loop (fuel : nat) (packet : list byte) (transmitted : gset Z) : gset Z :=
  match fuel with
  | O => transmitted
  | S fuel =>
    if decide (len packet < OVERHEAD) then transmitted
    else
      let h := read_header packet in
      let transmitted := filter (λ sequence, wrapping_sub 32 sequence (Kcp.h_una h) < 2 ^ 31) transmitted in
      let transmitted := if decide (Kcp.h_cmd h = Kcp.KCP_CMD_ACK) then transmitted ∖ {[Kcp.h_sn h]} else transmitted in
      retire_loop fuel (drop (Z.to_nat (OVERHEAD + Kcp.h_len h)) packet) transmitted
  end.
Definition retire_acked_sequences (packet : list byte) (transmitted : gset Z) : gset Z :=
  retire_loop (length packet) packet transmitted.

Fixpoint observe_loop (fuel : nat) (packet : list byte) (transmitted : gset Z) (t : KcpTelemetry) : outcome (gset Z * KcpTelemetry) :=
  match fuel with
  | O => Done (transmitted, t)
  | S fuel =>
    if decide (len packet < OVERHEAD) then Done (transmitted, t)
    else
      let h := read_header packet in
      match checked_add usize_max OVERHEAD (Kcp.h_len h) with
      | None => Done (transmitted, t)
      | Some segment_len =>
        if decide (len packet < segment_len) then Done (transmitted, t)
        else
          '(transmitted, t) ←
            (if decide (Kcp.h_cmd h = Kcp.KCP_CMD_PUSH) then
               t ← telemetry_record t (bool_decide (Kcp.h_sn h ∈ transmitted));
               Done ({[Kcp.h_sn h]} ∪ transmitted, t)
             else Done (transmitted, t));
          observe_loop fuel (drop (Z.to_nat segment_len) packet) transmitted t
      end
  end.
Definition observe_push_segments (packet : list byte) (transmitted : gset Z) (t : KcpTelemetry) : outcome (gset Z * KcpTelemetry) :=
  observe_loop (length packet) packet transmitted t.

(** ** The engine's operations *)

Definition as_u32 (n : Z) : Z := n mod 2 ^ 32.

Definition engine_input (e : RustKcpEngine) (packet : list byte) (now_ms : Z) : Result unit * RustKcpEngine :=
  if e_failed e then (Err failed_engine, e)
  else
    match validate_kcp_packet packet (as_u32 now_ms) (Kcp.mss (e_inner e)) with
    | Err err => (Err err, e)
    | Ok _ =>
      let e := e <| e_now_ms := now_ms |> in
      match Kcp.input (e_inner e) packet with
      | (Err err, k) => (Err (map_kcp_error err), e <| e_inner := k |>)
      | (Ok _, k) =>
        let e := e <| e_inner := k |> in
        (Ok tt, e <| e_observed_rtt := (λ rtt_ms, rtt_ms * 10 ^ 6) <$> kcp_ack_rtt packet (as_u32 now_ms) |>
                  <| e_transmitted ::= retire_acked_sequences packet |>)
      end
    end.

(** [inner.send] divides by the segment size, which is positive. *)
Definition engine_send (e : RustKcpEngine) (payload : list byte) : outcome (Result unit * RustKcpEngine) :=
  if e_failed e then Done (Err failed_engine, e)
  else if decide (e_max_queued_bytes e < saturating_add usize_max (queued_bytes e) (queued_bytes_for e (len payload)))
  then Done (fail ErrorCode.WouldBlock "KCP unacknowledged-byte budget is full", e)
  else
    '(r, k) ← Kcp.send (e_inner e) payload;
    Done (match r with Ok _ => Ok tt | Err err => Err (map_kcp_error err) end, e <| e_inner := k |>).

(** The value is the message put into [out]; a panic of the inner call is caught. *)
Definition engine_recv (e : RustKcpEngine) : Result (option (list byte)) * RustKcpEngine :=
  if e_failed e then (Err failed_engine, e)
  else
    match Kcp.peeksize (e_inner e) with
    | Err (Kcp.RecvQueueEmpty | Kcp.ExpectingFragment) => (Ok None, e)
    | Err err => (Err (map_kcp_error err), e)
    | Ok length =>
      match Kcp.recv (e_inner e) length with
      | Panic => (Err failed_engine, e <| e_failed := true |>)
      | Done (Err err, k) => (Err (map_kcp_error err), e <| e_inner := k |>)
      | Done (Ok data, k) => (Ok (Some data), e <| e_inner := k |>)
      end
    end.

Fixpoint drain_packets (packets : list (list byte)) (transmitted : gset Z) (t : KcpTelemetry) : outcome (gset Z * KcpTelemetry) :=
  match packets with
  | [] => Done (transmitted, t)
  | packet :: packets => '(transmitted, t) ← observe_push_segments packet transmitted t; drain_packets packets transmitted t
  end.
(** The value is the packets given to [output]. *)
Definition engine_update (e : RustKcpEngine) (now_ms : Z) : outcome (list (list byte) * RustKcpEngine) :=
  if e_failed e then Done ([], e)
  else
    let e := e <| e_now_ms := now_ms |> in
    match Kcp.update (e_inner e) (as_u32 now_ms) with
    | (Err _, k) => Done ([], e <| e_inner := k |>)
    | (Ok _, k) =>
      let packets := Kcp.output k in
      '(transmitted, t) ← drain_packets packets (e_transmitted e) (e_telemetry e);
      Done (packets, e <| e_inner := k <| Kcp.output := [] |> |> <| e_transmitted := transmitted |> <| e_telemetry := t |>)
    end.

Definition next_update_ms (e : RustKcpEngine) : Z :=
  saturating_add u64_max (e_now_ms e) (Kcp.check (e_inner e) (as_u32 (e_now_ms e))).

(** ** Packets that pass validation *)

(** The segment at the front of a packet. *)
Definition front_segment (p : list byte) : Segment :=
  let h := read_header p in
  Kcp.mkSegment (Kcp.h_conv h) (Kcp.h_cmd h) (Kcp.h_frg h) (Kcp.h_wnd h) (Kcp.h_ts h) (Kcp.h_sn h) (Kcp.h_una h) 0 0 0 0
    (take (Z.to_nat (Kcp.h_len h)) (drop 24 p)).

Lemma header_bytes p :
  (24 ≤ length p)%nat → let h := read_header p in
  take 24 p = le_encode 4 (Kcp.h_conv h) ++ le_encode 1 (Kcp.h_cmd h) ++ le_encode 1 (Kcp.h_frg h) ++ le_encode 2 (Kcp.h_wnd h) ++
    le_encode 4 (Kcp.h_ts h) ++ le_encode 4 (Kcp.h_sn h) ++ le_encode 4 (Kcp.h_una h) ++ le_encode 4 (Kcp.h_len h).
Proof.
  intros Hp. assert (∀ i j n, (j = i + n)%nat → (j ≤ 24)%nat → le_encode n (le_decode (slice i j p)) = slice i j p) as Hw.
  { intros i j n -> Hin. apply le_encode_decode. rewrite length_slice by lia. lia. }
  assert (∀ i, (i < 24)%nat → le_encode 1 (byte_at i p) = slice i (S i) p) as Hb.
  { intros i Hi. rewrite slice_single by lia. cbn. f_equal. }
  cbv zeta. unfold read_header. cbn [Kcp.h_conv Kcp.h_cmd Kcp.h_frg Kcp.h_wnd Kcp.h_ts Kcp.h_sn Kcp.h_una Kcp.h_len].
  rewrite (Hw 0%nat), (Hb 4%nat), (Hb 5%nat), (Hw 6%nat), (Hw 8%nat), (Hw 12%nat), (Hw 16%nat), (Hw 20%nat) by lia.
  rewrite !slice_join by lia. unfold slice. by rewrite Nat.sub_0_r, drop_0.
Qed.
Lemma front_segment_split p :
  OVERHEAD ≤ len p → OVERHEAD + Kcp.h_len (read_header p) ≤ len p →
  p = Kcp.encode (front_segment p) ++ drop (Z.to_nat (OVERHEAD + Kcp.h_len (read_header p))) p ∧
  len (Kcp.s_data (front_segment p)) = Kcp.h_len (read_header p) ∧
  (Kcp.known_cmd (Kcp.h_cmd (read_header p)) = true → segment_wf (front_segment p)).
Proof.
  intros Hp Hl. pose proof (read_header_typed p Hp) as (T1 & T2 & T3 & T4 & T5 & T6 & T7). set (h := read_header p) in *.
  assert (0 ≤ Kcp.h_len h ≤ u32_max) as Hn.
  { unfold OVERHEAD, len in Hp. pose proof (word_typed 4 20 24 p eq_refl ltac:(lia)). unfold u32_max. cbn -[slice] in *. lia. }
  assert (len (take (Z.to_nat (Kcp.h_len h)) (drop 24 p)) = Kcp.h_len h) as Hd.
  { unfold OVERHEAD, len in *. rewrite length_take, length_drop. lia. }
  split; [|split; [done|]].
  - assert (p = take 24 p ++ take (Z.to_nat (Kcp.h_len h)) (drop 24 p) ++ drop (Z.to_nat (OVERHEAD + Kcp.h_len h)) p) as E.
    { replace (Z.to_nat (OVERHEAD + Kcp.h_len h)) with (24 + Z.to_nat (Kcp.h_len h))%nat by (unfold OVERHEAD; lia).
      rewrite <- (drop_drop p _ 24), take_drop, take_drop. done. }
    rewrite E at 1. rewrite (assoc_L (++)). f_equal. unfold Kcp.encode. cbn [front_segment Kcp.s_conv Kcp.s_cmd Kcp.s_frg Kcp.s_wnd Kcp.s_ts Kcp.s_sn Kcp.s_una Kcp.s_data].
    fold h. rewrite Hd, !(assoc_L (++)). f_equal. unfold OVERHEAD, len in Hp. apply header_bytes. lia.
  - intros Hk. split; try done. change (len (take (Z.to_nat (Kcp.h_len h)) (drop 24 p)) ≤ u32_max). lia.
Qed.

(** What validation guarantees of a segment; an acknowledgement echoes a recent time. *)
Record sound (maximum_payload : Z) (s : Segment) : Prop := {
  sd_wf : segment_wf s;
  sd_wnd : Kcp.s_wnd s ≤ RECEIVE_WINDOW;
  sd_len : len (Kcp.s_data s) ≤ maximum_payload;
  sd_push : Kcp.s_cmd s = Kcp.KCP_CMD_PUSH → Kcp.s_frg s < 128;
  sd_control : Kcp.s_cmd s ≠ Kcp.KCP_CMD_PUSH → Kcp.s_frg s = 0 ∧ Kcp.s_data s = []
}.
Definition timely (now_ms : Z) (s : Segment) : Prop :=
  Kcp.s_cmd s = Kcp.KCP_CMD_ACK → 0 ≤ Kcp.timediff now_ms (Kcp.s_ts s) ≤ MAX_ACK_RTT_MS.
#[export] Instance timely_dec now_ms s : Decision (timely now_ms s).
Proof. unfold timely. apply _. Defined.
Definition admissible (now_ms maximum_payload : Z) (s : Segment) : Prop := sound maximum_payload s ∧ timely now_ms s.
Definition late_ack : RnetError := mkRnetError ErrorCode.ProtocolError "KCP ACK timestamp is outside the safe RTT window".

Lemma length_packet_cons s segs : length (packet (s :: segs)) = (24 + length (Kcp.s_data s) + length (packet segs))%nat.
Proof.
  change (packet (s :: segs)) with (Kcp.encode s ++ packet segs). by rewrite length_app.
Qed.

Lemma validate_segment_Ok p now m n :
  OVERHEAD ≤ len p → validate_segment p now m = Ok n →
  n = OVERHEAD + Kcp.h_len (read_header p) ∧ p = Kcp.encode (front_segment p) ++ drop (Z.to_nat n) p ∧ admissible now m (front_segment p).
Proof.
  intros Hp. unfold validate_segment. cbv zeta. destruct (Kcp.known_cmd _) eqn:Hk; cbn [negb]; [|done].
  case_decide as Hw; [done|]. case_decide as Hm; [done|].
  destruct (checked_add _ _ _) as [n0|] eqn:Ho; [|done]. apply checked_add_Some in Ho as [-> _]. cbn [ok_or mbind result_bind].
  case_decide as Hl; [done|]. case_decide as Hc; [done|]. case_decide as Hf; [done|]. case_decide as Ha; [done|]. intros [= <-].
  destruct (front_segment_split p Hp ltac:(lia)) as (E & Hd & Hwf). split; [done|]. split; [done|].
  split; [split; try done|].
  - by apply Hwf.
  - change (Kcp.h_wnd (read_header p) ≤ RECEIVE_WINDOW). lia.
  - lia.
  - intros Hcmd. change (Kcp.h_frg (read_header p) < 128). change (Kcp.h_cmd (read_header p) = Kcp.KCP_CMD_PUSH) in Hcmd.
    destruct (decide (Kcp.h_frg (read_header p) < 128)); [done|]. destruct Hf. left. lia.
  - intros Hcmd. change (Kcp.h_cmd (read_header p) ≠ Kcp.KCP_CMD_PUSH) in Hcmd. split.
    + change (Kcp.h_frg (read_header p) = 0). destruct (decide (Kcp.h_frg (read_header p) = 0)); [done|]. destruct Hf. by right.
    + apply nil_length_inv. destruct (decide (Kcp.h_len (read_header p) = 0)) as [E0|E0]; [unfold len in Hd; lia|]. destruct Hc. done.
  - intros Hcmd. change (Kcp.h_cmd (read_header p) = Kcp.KCP_CMD_ACK) in Hcmd. change (0 ≤ Kcp.timediff now (Kcp.h_ts (read_header p)) ≤ MAX_ACK_RTT_MS).
    lia.
Qed.

Lemma validate_loop_Ok now m : ∀ fuel p,
  (length p ≤ fuel)%nat → validate_loop fuel p now m = Ok tt → ∃ segs, p = packet segs ∧ Forall (admissible now m) segs.
Proof.
  induction fuel as [|fuel IH]; intros p Hf; [destruct p; [by exists []|cbn in Hf; lia]|].
  destruct p as [|b p]; [by exists []|]. set (q := b :: p) in *. change (validate_loop (S fuel) q now m) with
    (if decide (len q < OVERHEAD) then fail ErrorCode.ProtocolError "KCP packet has a truncated trailing segment"
     else segment_len ← validate_segment q now m; validate_loop fuel (drop (Z.to_nat segment_len) q) now m).
  case_decide as Hq; [done|]. destruct (validate_segment q now m) as [n|e] eqn:Hv; [|done]. cbn [mbind result_bind]. intros Hrest.
  apply validate_segment_Ok in Hv as (En & Eq & Had); [|lia].
  assert (0 ≤ Kcp.h_len (read_header q)) as H0.
  { unfold OVERHEAD, len in Hq. pose proof (word_typed 4 20 24 q eq_refl ltac:(lia)). cbn -[slice q] in *. lia. }
  apply IH in Hrest as (segs & Es & Hs); [|rewrite length_drop; unfold OVERHEAD in En; lia].
  exists (front_segment q :: segs). split; [|by constructor]. change (packet (front_segment q :: segs)) with (Kcp.encode (front_segment q) ++ packet segs).
  by rewrite <- Es.
Qed.
Lemma validate_Ok p now m :
  validate_kcp_packet p now m = Ok tt → ∃ segs, p = packet segs ∧ segs ≠ [] ∧ Forall (admissible now m) segs.
Proof.
  unfold validate_kcp_packet. case_decide as Hp; [done|]. intros (segs & -> & Hs)%validate_loop_Ok; [|done]. exists segs. split_and!; [done| |done].
  intros ->. unfold OVERHEAD, len in Hp. cbn in Hp. lia.
Qed.

(** Of a packet of sound segments, only the echoed times decide. *)
Lemma validate_segment_encode s rest now m :
  sound m s → validate_segment (Kcp.encode s ++ rest) now m = if decide (timely now s) then Ok (OVERHEAD + len (Kcp.s_data s)) else Err late_ack.
Proof.
  intros [Hwf Hw Hl Hp Hc]. unfold validate_segment. rewrite (read_header_encode s rest Hwf).
  cbn [Kcp.h_cmd Kcp.h_len Kcp.h_wnd Kcp.h_frg Kcp.h_ts header_of]. rewrite (sw_known _ Hwf). cbn [negb].
  rewrite decide_False by lia. rewrite decide_False by lia. pose proof (len_nonneg (Kcp.s_data s)). pose proof (sw_data _ Hwf).
  unfold checked_add. rewrite decide_True by (unfold OVERHEAD, usize_max, u64_max, u32_max in *; lia). cbn [ok_or mbind result_bind].
  rewrite decide_False by (rewrite len_app, length_encode; unfold Kcp.encoded_len, Kcp.KCP_OVERHEAD, OVERHEAD; pose proof (len_nonneg rest); lia).
  rewrite decide_False. 2:{ intros [Hn Hne]. destruct (Hc Hn) as [_ E]. rewrite E in Hne. done. }
  rewrite decide_False. 2:{ intros [[Hcmd Hf]|[Hn Hf]]; [specialize (Hp Hcmd); lia|]. destruct (Hc Hn) as [E _]. done. }
  unfold timely. destruct (decide (_ → _)) as [Ha|Ha]; [rewrite decide_False|rewrite decide_True]; try done.
  - intros [Hcmd Hr]. specialize (Ha Hcmd). lia.
  - destruct (decide (Kcp.s_cmd s = Kcp.KCP_CMD_ACK)) as [E|E]; [|by destruct Ha]. split; [done|].
    destruct (decide (Kcp.timediff now (Kcp.s_ts s) < 0)); [by left|]. right.
    destruct (decide (MAX_ACK_RTT_MS < Kcp.timediff now (Kcp.s_ts s))); [done|]. destruct Ha. lia.
Qed.
Lemma validate_packet segs now m :
  segs ≠ [] → Forall (sound m) segs →
  validate_kcp_packet (packet segs) now m = if decide (Forall (timely now) segs) then Ok tt else Err late_ack.
Proof.
  intros Hne Hs. unfold validate_kcp_packet. rewrite decide_False.
  2:{ destruct segs as [|s segs]; [done|]. unfold len, OVERHEAD. rewrite length_packet_cons. lia. }
  generalize (le_n (length (packet segs))). generalize (length (packet segs)) at 2 3. intros fuel. clear Hne. revert fuel.
  induction Hs as [|s segs Had Hs IH]; intros fuel Hf; [rewrite decide_True by done; by destruct fuel|].
  rewrite length_packet_cons in Hf. destruct fuel as [|fuel]; [lia|].
  assert (∃ b q, packet (s :: segs) = b :: q) as (b & q & E).
  { destruct (packet (s :: segs)) eqn:E; [|by eexists _, _]. pose proof (length_packet_cons s segs) as H. rewrite E in H. cbn in H. lia. }
  rewrite E. cbn [validate_loop]. rewrite <- E. rewrite decide_False by (unfold len, OVERHEAD; rewrite length_packet_cons; lia).
  change (packet (s :: segs)) with (Kcp.encode s ++ packet segs). rewrite validate_segment_encode by done.
  destruct (decide (timely now s)) as [Ht|Ht]; cbn [mbind result_bind].
  2:{ by rewrite decide_False by (intros [??]%Forall_cons; done). }
  rewrite drop_app_length'. 2:{ pose proof (length_encode s) as Hl. unfold Kcp.encoded_len, Kcp.KCP_OVERHEAD, OVERHEAD, len in *. lia. }
  rewrite IH by lia. apply decide_ext. rewrite Forall_cons. by split; [|intros [??]].
Qed.

(** ** Two adapters and a network *)

(** An adapter with the messages its user gave it and took from it, and the packets it emitted. *)
Record Party := mkParty {
  pt_engine : RustKcpEngine;
  pt_sent : list (list byte);
  pt_received : list (list byte);
  pt_emitted : list (list byte)
}.
Definition party (e : RustKcpEngine) : Party := mkParty e [] [] [].

(** One call; [wire] is every packet the other side emitted, and each may arrive at any time, any
    number of times or never. *)
Inductive engine_call (wire : list (list byte)) (x : Party) : Party → Prop :=
| engine_call_send data r e :
    engine_send (pt_engine x) data = Done (r, e) →
    engine_call wire x (mkParty e (match r with Ok _ => pt_sent x ++ [data] | Err _ => pt_sent x end) (pt_received x) (pt_emitted x))
| engine_call_recv r e :
    engine_recv (pt_engine x) = (r, e) →
    engine_call wire x (mkParty e (pt_sent x) (match r with Ok (Some m) => pt_received x ++ [m] | _ => pt_received x end) (pt_emitted x))
| engine_call_update now_ms packets e :
    engine_update (pt_engine x) now_ms = Done (packets, e) →
    engine_call wire x (mkParty e (pt_sent x) (pt_received x) (pt_emitted x ++ packets))
| engine_call_input p now_ms r e :
    p ∈ wire → engine_input (pt_engine x) p now_ms = (r, e) →
    engine_call wire x (mkParty e (pt_sent x) (pt_received x) (pt_emitted x)).
Inductive adapter_step : Party * Party → Party * Party → Prop :=
| adapter_left x x' y : engine_call (pt_emitted y) x x' → len (pt_sent x') ≤ MAX_MESSAGES → adapter_step (x, y) (x', y)
| adapter_right x y y' : engine_call (pt_emitted x) y y' → len (pt_sent y') ≤ MAX_MESSAGES → adapter_step (x, y) (x, y').

(** The engine's own link, seen from the adapters. *)
Definition view (x : Party) : End := mkEnd (e_inner (pt_engine x)) (pt_sent x) (pt_received x) (pt_emitted x).

Record party_ok (mtu : Z) (e : RustKcpEngine) : Prop := {
  po_failed : e_failed e = false;
  po_settings : settings (e_inner e) = (mtu - OVERHEAD, mtu, 128, true, false);
  po_telemetry : ∃ h, telemetry_inv (e_telemetry e) h
}.

Lemma observe_loop_total fuel : ∀ p tr t h,
  telemetry_inv t h → ∃ tr' t' h', observe_loop fuel p tr t = Done (tr', t') ∧ telemetry_inv t' h'.
Proof.
  induction fuel as [|fuel IH]; intros p tr t h Ht; cbn [observe_loop]; [by eexists _, _, _|]. case_decide; [by eexists _, _, _|].
  cbv zeta. destruct (checked_add _ _ _); [|by eexists _, _, _]. case_decide; [by eexists _, _, _|]. case_decide.
  - destruct (telemetry_record_inv t h (bool_decide (Kcp.h_sn (read_header p) ∈ tr)) Ht) as (t1 & -> & Ht1). cbn [mbind outcome_bind]. by eapply IH.
  - cbn [mbind outcome_bind]. by eapply IH.
Qed.
Lemma drain_packets_total packets : ∀ tr t h,
  telemetry_inv t h → ∃ tr' t' h', drain_packets packets tr t = Done (tr', t') ∧ telemetry_inv t' h'.
Proof.
  induction packets as [|p packets IH]; intros tr t h Ht; cbn [drain_packets]; [by eexists _, _, _|]. unfold observe_push_segments.
  destruct (observe_loop_total (length p) p tr t h Ht) as (tr1 & t1 & h1 & -> & H1). cbn [mbind outcome_bind]. by eapply IH.
Qed.
Lemma engine_update_total mtu e now : party_ok mtu e → engine_update e now ≠ Panic.
Proof.
  intros [Hf _ [h Ht]]. unfold engine_update. rewrite Hf. destruct (Kcp.update _ _) as [[]]; [|done].
  cbv zeta. destruct (drain_packets_total (Kcp.output k) (e_transmitted e) (e_telemetry e) h Ht) as (tr & t & h' & E & _).
  change (e_transmitted (e <| e_now_ms := now |>)) with (e_transmitted e). change (e_telemetry (e <| e_now_ms := now |>)) with (e_telemetry e).
  by rewrite E.
Qed.

(** Only messages that are too long are refused by the inner engine, which keeps its state. *)
Lemma send_refused k data err k' : Kcp.stream k = false → Kcp.send k data = Done (Err err, k') → k' = k ∧ err = Kcp.UserBufTooBig.
Proof.
  intros Hs. unfold Kcp.send. case_decide; [done|]. rewrite Hs. cbv zeta. rewrite Hs. cbn [andb].
  destruct (decide (Kcp.KCP_WND_RCV ≤ _)); [|done]. by intros [= <- <-].
Qed.

Section link.
Context `{L : Limits} (mtu : Z).

Definition parties_inv (l : Party * Party) : Prop :=
  link_inv (view l.1, view l.2) ∧ party_ok mtu (pt_engine l.1) ∧ party_ok mtu (pt_engine l.2).
Lemma parties_inv_flip x y : parties_inv (x, y) → parties_inv (y, x).
Proof. intros (Hl & Hx & Hy). split; [by apply link_inv_flip|done]. Qed.

Lemma settings_stream e : party_ok mtu e → Kcp.stream (e_inner e) = false.
Proof. intros [_ E _]. unfold settings in E. by injection E. Qed.
Lemma party_ok_inner e k :
  party_ok mtu e → settings k = settings (e_inner e) → party_ok mtu (e <| e_inner := k |>).
Proof. intros [Hf Hs Ht] E. split; [done| |done]. cbn. by rewrite E. Qed.
Lemma party_ok_view e e' :
  party_ok mtu e → e_failed e' = e_failed e → settings (e_inner e') = settings (e_inner e) → e_telemetry e' = e_telemetry e → party_ok mtu e'.
Proof. intros [Hf Hs Ht] Ef Es Et. split; [by rewrite Ef|by rewrite Es|by rewrite Et]. Qed.

Lemma as_u32_typed n : in_u32 (as_u32 n).
Proof. unfold as_u32, in_u32, u32_max. pose proof (Z.mod_pos_bound n (2 ^ 32)). lia. Qed.

(** The inner engine moves by one call of its own. *)
Lemma inner_call x y k a :
  parties_inv (x, y) → call (written (view y)) (view x) a → len (sent a) ≤ MAX_MESSAGES → any_call (e_inner (pt_engine x)) k →
  link_inv (a, view y) ∧ party_ok mtu (pt_engine x <| e_inner := k |>) ∧ party_ok mtu (pt_engine y).
Proof.
  intros (Hl & Hx & Hy) Ha Hlen Hk. split; [by apply (call_keeps (view x))|]. split; [|done].
  apply party_ok_inner; [done|]. by apply any_call_settings.
Qed.

Lemma engine_update_keeps x y now packets e :
  parties_inv (x, y) → engine_update (pt_engine x) now = Done (packets, e) → len (pt_sent x) ≤ MAX_MESSAGES →
  parties_inv (mkParty e (pt_sent x) (pt_received x) (pt_emitted x ++ packets), y).
Proof.
  intros Hinv E Hlen. pose proof Hinv as (Hl & Hx & Hy). cbn [fst snd] in *. pose proof (po_failed _ _ Hx) as Hf.
  unfold engine_update in E. rewrite Hf in E. cbv zeta in E. change (e_inner (pt_engine x <| e_now_ms := now |>)) with (e_inner (pt_engine x)) in E.
  pose proof (any_update (e_inner (pt_engine x)) (as_u32 now) (as_u32_typed now)) as Hany. pose proof (as_u32_typed now) as Hnow.
  destruct (Kcp.update (e_inner (pt_engine x)) (as_u32 now)) as [r k] eqn:Eu. cbn [snd] in Hany.
  destruct (inner_call x y k (with_kcp (view x) k) Hinv) as (H1 & Hk & _); [by eapply call_update|done|done|]. destruct r as [u|err].
  - destruct (po_telemetry _ _ Hx) as [h Ht]. destruct (drain_packets_total (Kcp.output k) (e_transmitted (pt_engine x)) (e_telemetry (pt_engine x)) h Ht)
      as (tr & t & h' & Ed & Ht').
    change (drain_packets (Kcp.output k) (e_transmitted (pt_engine x <| e_now_ms := now |>)) (e_telemetry (pt_engine x <| e_now_ms := now |>)))
      with (drain_packets (Kcp.output k) (e_transmitted (pt_engine x)) (e_telemetry (pt_engine x))) in E.
    rewrite Ed in E. cbn [mbind outcome_bind] in E. injection E as <- <-. split; [|split; [|done]].
    + apply (call_keeps _ _ _ H1); [|done]. apply (call_carry _ (with_kcp (view x) k)).
    + destruct Hk as [_ Hs _]. split; [done|exact Hs|by exists h'].
  - injection E as <- <-. rewrite app_nil_r. split; [exact H1|]. split; [|done]. by apply (party_ok_view _ _ Hk).
Qed.
Lemma engine_input_keeps x y p now r e :
  parties_inv (x, y) → p ∈ pt_emitted y → engine_input (pt_engine x) p now = (r, e) → len (pt_sent x) ≤ MAX_MESSAGES →
  parties_inv (mkParty e (pt_sent x) (pt_received x) (pt_emitted x), y).
Proof.
  intros Hinv Hp E Hlen. pose proof Hinv as (Hl & Hx & Hy). cbn [fst snd] in *. pose proof (po_failed _ _ Hx) as Hf.
  unfold engine_input in E. rewrite Hf in E. destruct (validate_kcp_packet _ _ _); [|by injection E as _ <-].
  change (e_inner (pt_engine x <| e_now_ms := now |>)) with (e_inner (pt_engine x)) in E. cbv zeta in E.
  pose proof (any_input (e_inner (pt_engine x)) p) as Hany. destruct (Kcp.input (e_inner (pt_engine x)) p) as [r' k] eqn:Ei. cbn [snd] in Hany.
  destruct (inner_call x y k (with_kcp (view x) k) Hinv) as (H1 & Hk & _); [|done|done|].
  { eapply call_input; [|done]. by apply carried_written. }
  destruct r'; injection E as _ <-; (split; [exact H1|split; [by apply (party_ok_view _ _ Hk)|done]]).
Qed.
Lemma engine_send_keeps x y data r e :
  let sent' := match r with Ok _ => pt_sent x ++ [data] | Err _ => pt_sent x end in
  parties_inv (x, y) → engine_send (pt_engine x) data = Done (r, e) → len sent' ≤ MAX_MESSAGES →
  parties_inv (mkParty e sent' (pt_received x) (pt_emitted x), y).
Proof.
  intros sent' Hinv E Hlen. pose proof Hinv as (Hl & Hx & Hy). cbn [fst snd] in *. unfold engine_send in E. rewrite (po_failed _ _ Hx) in E.
  case_decide; [by injection E as <- <-|].
  destruct (Kcp.send (e_inner (pt_engine x)) data) as [[r' k]|] eqn:Es; [|done]. cbn [mbind outcome_bind] in E. injection E as <- <-.
  destruct r' as [n|err].
  - apply (inner_call x y k _ Hinv); [by apply (call_send _ (view x) data n k)|done|by eapply any_send].
  - destruct (send_refused _ _ _ _ (settings_stream _ Hx) Es) as [-> _]. split; [done|]. split; [|done]. by apply (party_ok_view (pt_engine x)).
Qed.
Lemma engine_recv_keeps x y r e :
  parties_inv (x, y) → engine_recv (pt_engine x) = (r, e) → len (pt_sent x) ≤ MAX_MESSAGES →
  parties_inv (mkParty e (pt_sent x) (match r with Ok (Some m) => pt_received x ++ [m] | _ => pt_received x end) (pt_emitted x), y).
Proof.
  intros Hinv E Hlen. pose proof Hinv as (Hl & Hx & Hy). cbn [fst snd] in *. pose proof (inv_total _ _ Hl) as [Hrt _].
  unfold engine_recv in E. rewrite (po_failed _ _ Hx) in E. destruct (Kcp.peeksize _) as [size|err].
  2:{ assert (e = pt_engine x) as -> by (by destruct err; injection E as _ <-). by destruct err; injection E as <-. }
  destruct (Kcp.recv _ size) as [[[m|err] k]|] eqn:Er; [| |by destruct (Hrt size)]; injection E as <- <-;
    apply (inner_call x y k _ Hinv); try done; try by eapply any_recv.
  - by apply (call_recv _ (view x) size m k).
  - by apply (call_recv_error _ (view x) size err k).
Qed.
Lemma engine_call_keeps x y x' :
  parties_inv (x, y) → engine_call (pt_emitted y) x x' → len (pt_sent x') ≤ MAX_MESSAGES → parties_inv (x', y).
Proof.
  intros Hinv [data r e E|r e E|now packets e E|p now r e Hp E] Hlen.
  - by apply engine_send_keeps.
  - by apply engine_recv_keeps.
  - by eapply engine_update_keeps.
  - by eapply engine_input_keeps.
Qed.
Lemma adapter_steps_keep l l' : rtc adapter_step l l' → parties_inv l → parties_inv l'.
Proof.
  induction 1 as [|l1 l2 l3 Hs _ IH]; [done|]. intros Hl. apply IH. destruct Hs as [x x' y Hc Hlen|x y y' Hc Hlen].
  - by eapply engine_call_keeps.
  - apply parties_inv_flip. apply parties_inv_flip in Hl. by eapply engine_call_keeps.
Qed.
End link.

Lemma adapter_limits (mtu : Z) : 50 ≤ mtu ≤ 65535 → ∃ L : Limits, @max_frag L = mtu - OVERHEAD ∧ @max_wnd L = RECEIVE_WINDOW.
Proof.
  intros H. unshelve eexists {| max_frag := mtu - OVERHEAD; max_wnd := RECEIVE_WINDOW |}; [unfold OVERHEAD, u16_max; lia|done|done].
Qed.
Lemma new_with_limits_Ok conv mtu q e :
  new_with_limits conv mtu q = Ok e →
  50 ≤ mtu ≤ 65535 ∧ q ≠ 0 ∧ e_max_queued_bytes e = q ∧ e_transmitted e = ∅ ∧ e_telemetry e = telemetry_default ∧ e_failed e = false ∧
  e_inner e = Kcp.set_wndsize (Kcp.set_nodelay (Kcp.new conv) true 10 2 true) 128 128 <| Kcp.mtu := mtu |> <| Kcp.mss := mtu - OVERHEAD |>.
Proof.
  unfold new_with_limits. case_decide; [done|]. unfold Kcp.set_mtu. case_decide; [|done]. by intros [= <-].
Qed.
Lemma new_party_ok conv mtu q e : new_with_limits conv mtu q = Ok e → party_ok mtu e.
Proof.
  intros (Hm & _ & _ & _ & Et & Ef & Ei)%new_with_limits_Ok. split; [done|by rewrite Ei|]. exists []. rewrite Et. by split.
Qed.
Lemma new_idle `{L : Limits} conv mtu q e :
  max_frag = mtu - OVERHEAD → in_u32 conv → new_with_limits conv mtu q = Ok e → idle 0 0 (view (party e)) ∧ Kcp.conv (e_inner e) = conv.
Proof.
  intros Hfrag Hc (Hm & _ & _ & _ & _ & _ & Ei)%new_with_limits_Ok. pose proof max_wnd_u16. rewrite Ei.
  split; [|done]. split; cbn [view party kcp sent received carried pt_engine pt_sent pt_received pt_emitted]; rewrite ?Ei.
  - done.
  - done.
  - unfold written. cbn [view party kcp carried pt_engine pt_emitted]. by rewrite Ei.
  - done.
  - split_and!; try done; cbn; unfold OVERHEAD in *; lia.
  - split_and!; try done. change (128 ≤ max_wnd). unfold Kcp.KCP_WND_RCV in *. lia.
  - done.
Qed.

(** The packets of an adapter are sound, so that only late acknowledgements are refused. *)
Lemma emitted_sound `{L : Limits} mtu x y p :
  max_frag = mtu - OVERHEAD → max_wnd = RECEIVE_WINDOW → parties_inv mtu (x, y) → p ∈ pt_emitted x →
  (∃ segs, p = packet segs ∧ segs ≠ [] ∧ Forall (sound (mtu - OVERHEAD)) segs) ∧ (Kcp.input (e_inner (pt_engine y)) p).1 = Ok (len p).
Proof.
  intros Hfrag Hwnd (Hl & Hx & Hy) Hp. destruct (inv_packets _ _ p Hl) as (so & si & po & pi & Ha & _ & (segs & -> & Hne & Hs) & Hok).
  { by apply carried_written. }
  split; [|done]. exists segs. split; [done|]. split; [done|]. pose proof (tx_pays _ _ _ (eo_tx _ _ _ _ _ _ _ (hf_end _ _ _ _ _ _ Ha))) as Hpay.
  rewrite Forall_forall in Hpay. eapply Forall_impl; [exact Hs|]. intros s [Hwf _ _ Hpush _ Hw Hctl].
  assert (Kcp.s_cmd s = Kcp.KCP_CMD_PUSH → pay_ok (pay s)) as Hpo.
  { intros E. apply Hpay. destruct (Hpush E) as [[_ E'] _]. by eapply list_elem_of_lookup_2. }
  split; [done|lia| | |done].
  - destruct (decide (Kcp.s_cmd s = Kcp.KCP_CMD_PUSH)) as [E|E].
    + apply Hpo in E as [_ E]. rewrite Hfrag in E. exact E.
    + destruct (Hctl E) as [_ ->]. pose proof max_frag_u16. change (0 ≤ mtu - OVERHEAD). lia.
  - intros [E _]%Hpo. exact (proj2 E).
Qed.

(** *** Runs *)

(** Calls as data; [Arrive n now_ms] is [input] of the [n]th packet the other side emitted. *)
Inductive adapter_op :=
| Give (data : list byte)
| Collect
| Tick (now_ms : Z)
| Arrive (n : nat) (now_ms : Z).
Definition perform (wire : list (list byte)) (x : Party) (o : adapter_op) : option Party :=
  match o with
  | Give data =>
    match engine_send (pt_engine x) data with
    | Done (r, e) => Some (mkParty e (match r with Ok _ => pt_sent x ++ [data] | Err _ => pt_sent x end) (pt_received x) (pt_emitted x))
    | Panic => None
    end
  | Collect =>
    let '(r, e) := engine_recv (pt_engine x) in
    Some (mkParty e (pt_sent x) (match r with Ok (Some m) => pt_received x ++ [m] | _ => pt_received x end) (pt_emitted x))
  | Tick now_ms =>
    match engine_update (pt_engine x) now_ms with
    | Done (packets, e) => Some (mkParty e (pt_sent x) (pt_received x) (pt_emitted x ++ packets))
    | Panic => None
    end
  | Arrive n now_ms =>
    p ← wire !! n;
    Some (mkParty (engine_input (pt_engine x) p now_ms).2 (pt_sent x) (pt_received x) (pt_emitted x))
  end.
Fixpoint adapter_run (script : list (bool * adapter_op)) (l : Party * Party) : option (Party * Party) :=
  match script with
  | [] => Some l
  | (side, o) :: script =>
    l ← (if side : bool then (λ x, (x, l.2)) <$> perform (pt_emitted l.2) l.1 o
         else (λ x, (l.1, x)) <$> perform (pt_emitted l.1) l.2 o);
    if decide (len (pt_sent l.1) ≤ MAX_MESSAGES ∧ len (pt_sent l.2) ≤ MAX_MESSAGES) then adapter_run script l else None
  end.
Lemma perform_call wire x o x' : perform wire x o = Some x' → engine_call wire x x'.
Proof.
  destruct o as [data| |now|n now]; cbn [perform]; intros E.
  - destruct (engine_send _ data) as [[r e]|] eqn:Es; simplify_eq. by econstructor.
  - destruct (engine_recv _) as [r e] eqn:Es; simplify_eq. by econstructor.
  - destruct (engine_update _ now) as [[ps e]|] eqn:Es; simplify_eq. by econstructor.
  - destruct (wire !! n) as [p|] eqn:Ep; [|done]. cbn in E. destruct (engine_input _ p now) as [r e] eqn:Es. injection E as <-.
    eapply engine_call_input; [|done]. by eapply list_elem_of_lookup_2.
Qed.
Lemma adapter_run_steps script : ∀ l l', adapter_run script l = Some l' → rtc adapter_step l l'.
Proof.
  induction script as [|[side o] script IH]; intros [a b] l' E; cbn [adapter_run fst snd] in E; [injection E as <-; done|].
  destruct side.
  - destruct (perform _ a o) as [x|] eqn:Ex; [|done]. cbn in E. case_decide as Hl; [|done]. cbn in Hl. apply perform_call in Ex.
    apply IH in E. destruct Hl. eapply rtc_l; [|exact E]. by apply adapter_left.
  - destruct (perform _ b o) as [x|] eqn:Ex; [|done]. cbn in E. case_decide as Hl; [|done]. cbn in Hl. apply perform_call in Ex.
    apply IH in E. destruct Hl. eapply rtc_l; [|exact E]. by apply adapter_right.
Qed.

(** ** What the adapter promises *)

Definition adapter_reachable (conv mtu qx qy : Z) (l : Party * Party) : Prop :=
  ∃ ex ey, new_with_limits conv mtu qx = Ok ex ∧ new_with_limits conv mtu qy = Ok ey ∧ rtc adapter_step (party ex, party ey) l.

Lemma adapter_reachable_inv conv mtu qx qy l :
  in_u32 conv → adapter_reachable conv mtu qx qy l →
  ∃ L : Limits, @max_frag L = mtu - OVERHEAD ∧ @max_wnd L = RECEIVE_WINDOW ∧ @parties_inv L mtu l.
Proof.
  intros Hc (ex & ey & Ex & Ey & Hs). destruct (new_with_limits_Ok _ _ _ _ Ex) as [Hm _]. destruct (adapter_limits mtu Hm) as (L & EF & EW).
  exists L. split; [done|]. split; [done|]. apply (adapter_steps_keep mtu _ _ Hs). destruct (new_idle conv mtu qx ex EF Hc Ex) as [Ix Cx].
  destruct (new_idle conv mtu qy ey EF Hc Ey) as [Iy Cy]. split; [|split; by eapply new_party_ok].
  apply link_reachable_inv. exists (view (party ex), view (party ey)). split; [|done]. exists 0, 0. split; [done|]. split; [done|]. cbn. congruence.
Qed.

(** An honest packet at the other side. *)
Lemma honest_input `{L : Limits} mtu x y p now :
  max_frag = mtu - OVERHEAD → max_wnd = RECEIVE_WINDOW → parties_inv mtu (x, y) → p ∈ pt_emitted x →
  (engine_input (pt_engine y) p now).1 = Ok tt ∨ engine_input (pt_engine y) p now = (Err late_ack, pt_engine y).
Proof.
  intros EF EW Hinv Hp. destruct (emitted_sound mtu x y p EF EW Hinv Hp) as [(segs & -> & Hne & Hs) Hok]. destruct Hinv as (_ & _ & [Hf Hset _]).
  cbn [fst snd] in *. unfold engine_input. rewrite Hf. assert (Kcp.mss (e_inner (pt_engine y)) = mtu - OVERHEAD) as -> by (by injection Hset).
  rewrite validate_packet by done. destruct (decide _); [|by right]. left. cbv zeta.
  change (e_inner (pt_engine y <| e_now_ms := now |>)) with (e_inner (pt_engine y)). destruct (Kcp.input _ _) as [r k]. cbn [fst] in Hok. by rewrite Hok.
Qed.
Lemma nothing_queued mtu e :
  50 ≤ mtu → party_ok mtu e → queued_bytes e = 0 → Kcp.snd_queue (e_inner e) = [] ∧ Kcp.snd_buf (e_inner e) = [].
Proof.
  intros Hm [_ Hset _]. unfold queued_bytes, Kcp.saturating_mul. assert (Kcp.mss (e_inner e) = mtu - OVERHEAD) as -> by (by injection Hset).
  unfold Kcp.wait_snd, OVERHEAD, len, usize_max, u64_max. intros E. split; apply nil_length_inv; nia.
Qed.

(** C11: two adapters made with the same conversation and MTU, over a network that loses, repeats,
    delays and reorders their packets.  Each user gets the other's messages whole, once and in
    order; when nothing is queued at one side, the other holds everything that was not taken yet;
    a packet of the other side is never refused but for an acknowledgement that is out of the RTT
    window, which changes nothing; and no call panics or isolates the engine. *)
Theorem kcp_adapter_delivers conv mtu qx qy x y :
  in_u32 conv → adapter_reachable conv mtu qx qy (x, y) →
  pt_received y `prefix_of` pt_sent x ∧
  (queued_bytes (pt_engine x) = 0 → ∃ rest, pt_sent x = pt_received y ++ rest ∧
    concat (map Kcp.s_data (Kcp.rcv_queue (e_inner (pt_engine y)) ++ Kcp.rcv_buf (e_inner (pt_engine y)))) = concat rest) ∧
  (∀ p now, p ∈ pt_emitted x →
    (engine_input (pt_engine y) p now).1 = Ok tt ∨ engine_input (pt_engine y) p now = (Err late_ack, pt_engine y)) ∧
  e_failed (pt_engine x) = false ∧ e_failed (pt_engine y) = false ∧
  (∀ data, engine_send (pt_engine x) data ≠ Panic) ∧ (∀ now, engine_update (pt_engine x) now ≠ Panic).
Proof.
  intros Hc Hr. assert (50 ≤ mtu) as Hm by (destruct Hr as (? & ? & E & _); apply new_with_limits_Ok in E; lia).
  destruct (adapter_reachable_inv _ _ _ _ _ Hc Hr) as (L & EF & EW & Hinv).
  pose proof Hinv as (Hl & Hx & Hy). cbn [fst snd] in *. split; [exact (inv_prefix _ _ Hl)|]. split.
  { intros [E1 E2]%(nothing_queued mtu); [|done|done]. exact (inv_complete _ _ Hl E1 E2). }
  split; [intros p now; by eapply honest_input|]. split; [apply Hx|]. split; [apply Hy|]. split.
  - intros data. unfold engine_send. rewrite (po_failed _ _ Hx). case_decide; [done|]. destruct (inv_total _ _ Hl) as [_ Hs]. specialize (Hs data).
    cbn in Hs. by destruct (Kcp.send _ data) as [[]|].
  - intros now. by apply (engine_update_total mtu).
Qed.

Module AdapterDemo.

Definition msg1 : list byte := repeat Byte.x2a 60.
Definition msg2 : list byte := [Byte.x01; Byte.x02].
(** The packets cross in the wrong order, the first one twice; one acknowledgement is late. *)
Definition exchange : list (bool * adapter_op) :=
  [(true, Give msg1); (true, Give msg2); (true, Tick 0); (false, Arrive 1 3); (false, Arrive 0 3); (false, Collect);
   (false, Arrive 2 4); (false, Arrive 0 4); (false, Arrive 3 4); (false, Tick 5); (true, Arrive 0 70000); (true, Arrive 0 6);
   (true, Arrive 1 6); (true, Arrive 2 7); (false, Collect); (false, Collect)].
Definition run_pair (e : Result RustKcpEngine) : option (Party * Party) :=
  match e with Ok e => adapter_run exchange (party e, party e) | Err _ => None end.

End AdapterDemo.

Lemma kcp_adapter_delivers_witness :
  ∃ x y, AdapterDemo.run_pair (new_with_limits 7 50 1000) = Some (x, y) ∧ pt_sent x = [AdapterDemo.msg1; AdapterDemo.msg2] ∧
    pt_received y = pt_sent x ∧ queued_bytes (pt_engine x) = 0 ∧ pt_received y `prefix_of` pt_sent x.
Proof.
  destruct (new_with_limits 7 50 1000) as [e|] eqn:E; [|by vm_compute in E]. unfold AdapterDemo.run_pair.
  destruct (adapter_run AdapterDemo.exchange (party e, party e)) as [[x y]|] eqn:Hr.
  2:{ exfalso. injection E as <-. by vm_compute in Hr. }
  exists x, y. split; [done|]. assert (pt_sent x = [AdapterDemo.msg1; AdapterDemo.msg2] ∧ pt_received y = pt_sent x ∧ queued_bytes (pt_engine x) = 0) as (H1 & H2 & H3).
  { injection E as <-. vm_compute in Hr. injection Hr as <- <-. split_and!; vm_compute; reflexivity. }
  split_and!; [done..|]. apply (kcp_adapter_delivers 7 50 1000 1000 x y); [done|]. exists e, e. split_and!; [done|done|]. by eapply adapter_run_steps.
Defined.

(** ** Any peer *)

(** A call on an adapter whose peer may send anything; [empty] says whether its own user may send
    empty messages. *)
Inductive hostile_call (empty : bool) (e : RustKcpEngine) : RustKcpEngine → Prop :=
| hostile_input p now_ms r e' : engine_input e p now_ms = (r, e') → hostile_call empty e e'
| hostile_send data r e' : (data = [] → empty = true) → engine_send e data = Done (r, e') → hostile_call empty e e'
| hostile_recv r e' : engine_recv e = (r, e') → hostile_call empty e e'
| hostile_update now_ms packets e' : engine_update e now_ms = Done (packets, e') → hostile_call empty e e'.

(** What may wait under a budget of [q]: the check of [send] counts no bytes for an empty message, whose
    segment then takes as much as any other. *)
Definition allowance (empty : bool) (mtu q : Z) : Z := if empty then q + (mtu - OVERHEAD) else q.
Record bounded_by (empty : bool) (mtu q : Z) (e : RustKcpEngine) : Prop := {
  bd_mtu : 50 ≤ mtu;
  bd_party : party_ok mtu e;
  bd_limit : e_max_queued_bytes e = q;
  bd_typed : kcp_typed (e_inner e);
  bd_window : window_ok (e_inner e) ∧ Kcp.rcv_wnd (e_inner e) = RECEIVE_WINDOW;
  bd_waiting : queued_bytes e ≤ allowance empty mtu q
}.
Abbreviation bounded := (bounded_by false).

(** What a call of the inner engine leaves, when no more waits to be sent than before. *)
Lemma bounded_inner empty mtu q e e' :
  bounded_by empty mtu q e → any_call (e_inner e) (e_inner e') →
  Kcp.wait_snd (e_inner e') ≤ Kcp.wait_snd (e_inner e) ∨ queued_bytes e' ≤ allowance empty mtu q →
  e_failed e' = e_failed e → e_max_queued_bytes e' = e_max_queued_bytes e → (∃ h, telemetry_inv (e_telemetry e') h) →
  bounded_by empty mtu q e'.
Proof.
  intros [Hm [Hf Hs Ht] Hl Hk [Hw Er] Hq] Hc Hle Ef El Ht'. pose proof (any_call_settings _ _ Hc) as Es.
  destruct (any_call_window _ _ Hw Hc) as [Hw' Er']. split; [done|..].
  - split; [by rewrite Ef|by rewrite Es|done].
  - by rewrite El.
  - by eapply any_call_typed.
  - by rewrite Er'.
  - destruct Hle as [Hle|]; [|done]. unfold queued_bytes, Kcp.saturating_mul in *. injection Es as -> _ _ _ _.
    assert (Kcp.mss (e_inner e) = mtu - OVERHEAD) as Em by (by injection Hs). unfold OVERHEAD in Em. nia.
Qed.

Lemma saturating_budget a b m q :
  0 ≤ a → 0 ≤ b → 0 ≤ m → ~ q < saturating_add usize_max (Kcp.saturating_mul usize_max a m) (Kcp.saturating_mul usize_max b m) →
  Kcp.saturating_mul usize_max (a + b) m ≤ q.
Proof.
  intros Ha Hb Hm. unfold saturating_add, Kcp.saturating_mul. rewrite Z.mul_add_distr_r. assert (0 ≤ a * m ∧ 0 ≤ b * m) as [? ?] by nia.
  assert (0 ≤ usize_max) by done. generalize dependent (a * m). generalize dependent (b * m). generalize dependent usize_max. lia.
Qed.

Lemma send_empty k r k' : Kcp.stream k = false → Kcp.send k [] = Done (r, k') → Kcp.wait_snd k' = Kcp.wait_snd k + 1.
Proof.
  intros Hs. unfold Kcp.send. case_decide as Hm; [done|]. rewrite Hs. cbv zeta. rewrite Hs. cbn [andb]. rewrite (decide_True (P := len [] ≤ Kcp.mss k)) by (rewrite len_nil; lia).
  rewrite decide_False by (unfold Kcp.KCP_WND_RCV; lia). intros [= _ <-].
  change (len (Kcp.snd_buf k) + len (Kcp.snd_queue k ++ Kcp.fragments (Z.to_nat (1 `max` 1)) false (Kcp.mss k) []) = Kcp.wait_snd k + 1).
  rewrite len_app. unfold Kcp.wait_snd, len at 3. rewrite fragments_length. lia.
Qed.
(** What a message that passed the check of [send] adds. *)
Lemma engine_room empty mtu q e data r k :
  50 ≤ mtu → Kcp.mss (e_inner e) = mtu - OVERHEAD → Kcp.stream (e_inner e) = false → (data = [] → empty = true) → queued_bytes e ≤ allowance empty mtu q →
  ~ q < saturating_add usize_max (queued_bytes e) (queued_bytes_for e (len data)) → Kcp.send (e_inner e) data = Done (r, k) →
  Kcp.saturating_mul usize_max (Kcp.wait_snd k) (Kcp.mss k) ≤ allowance empty mtu q.
Proof.
  intros Hm Em Hs Hempty Hq Hfull Es. pose proof (send_settings _ _ _ _ Es) as Eset. injection Eset as Emss _ _ _ _. rewrite Emss. unfold OVERHEAD in Em.
  assert (0 ≤ Kcp.wait_snd (e_inner e)) as Hw by (unfold Kcp.wait_snd, len; lia). destruct (decide (data = [])) as [->|Hne].
  - rewrite (send_empty _ _ _ Hs Es), (Hempty eq_refl). revert Hfull. unfold allowance, OVERHEAD, saturating_add, queued_bytes_for, queued_bytes, Kcp.saturating_mul, Kcp.div_ceil.
    rewrite len_nil, Em. assert (0 ≤ usize_max) by done. set (x := Kcp.wait_snd _) in *. generalize dependent usize_max.
    replace ((0 + (mtu - 24) - 1) / (mtu - 24)) with 0 by (symmetry; apply Z.div_small; lia). intros. nia.
  - apply send_waiting in Es; [|done|done]. destruct r as [n|err]; [|by rewrite Es]. rewrite Es. pose proof (len_nonneg data).
    assert (Kcp.saturating_mul usize_max (Kcp.wait_snd (e_inner e) + Kcp.div_ceil (len data) (Kcp.mss (e_inner e))) (Kcp.mss (e_inner e)) ≤ q) as Hle
      by (apply saturating_budget; [done|apply Z.div_pos; lia|lia|exact Hfull]).
    unfold allowance, OVERHEAD. destruct empty; lia.
Qed.
Lemma bounded_call empty mtu q e e' : bounded_by empty mtu q e → hostile_call empty e e' → bounded_by empty mtu q e'.
Proof.
  intros Hb Hc. pose proof Hb as [Hm [Hf Hs Ht] Hl Hk [Hw Er] Hq].
  destruct Hc as [p now r e' E|data r e' Hne E|r e' E|now packets e' E].
  - unfold engine_input in E. rewrite Hf in E. destruct (validate_kcp_packet _ _ _); [|by injection E as _ <-].
    change (e_inner (e <| e_now_ms := now |>)) with (e_inner e) in E. cbv zeta in E.
    pose proof (any_input (e_inner e) p) as Hany. pose proof (input_waiting (e_inner e) p) as Hwait.
    destruct (Kcp.input (e_inner e) p) as [[n|err] k]; cbn [snd] in *; injection E as _ <-; apply (bounded_inner empty mtu q e); try done; by left.
  - unfold engine_send in E. rewrite Hf in E. case_decide as Hfull; [by injection E as _ <-|].
    destruct (Kcp.send (e_inner e) data) as [[r' k]|] eqn:Es; [|done]. cbn [mbind outcome_bind] in E. injection E as _ <-.
    apply (bounded_inner empty mtu q e); try done; [by eapply any_send|]. right.
    rewrite Hl in Hfull. eapply (engine_room empty mtu q e data r' k); try done; by injection Hs.
  - unfold engine_recv in E. rewrite Hf in E. destruct (Kcp.peeksize _) as [size|err].
    2:{ assert (e' = e) as -> by (by destruct err; injection E as _ <-). done. }
    destruct (Kcp.recv _ size) as [[r' k]|] eqn:Er'; [|by apply recv_total in Er'].
    assert (e' = e <| e_inner := k |>) as -> by (by destruct r'; injection E as _ <-).
    apply (bounded_inner empty mtu q e); try done; [by eapply any_recv|]. left. cbn. apply recv_waiting in Er'. lia.
  - unfold engine_update in E. rewrite Hf in E. cbv zeta in E. change (e_inner (e <| e_now_ms := now |>)) with (e_inner e) in E.
    pose proof (any_update (e_inner e) (as_u32 now) (as_u32_typed now)) as Hany. pose proof (update_waiting (e_inner e) (as_u32 now)) as Hwait.
    destruct (Kcp.update (e_inner e) (as_u32 now)) as [[u|err] k]; cbn [snd] in *.
    2:{ injection E as <- <-. apply (bounded_inner empty mtu q e); try done. left. cbn. lia. }
    destruct Ht as [h Ht]. destruct (drain_packets_total (Kcp.output k) (e_transmitted e) (e_telemetry e) h Ht) as (tr & t & h' & Ed & Ht').
    change (drain_packets (Kcp.output k) (e_transmitted (e <| e_now_ms := now |>)) (e_telemetry (e <| e_now_ms := now |>)))
      with (drain_packets (Kcp.output k) (e_transmitted e) (e_telemetry e)) in E.
    rewrite Ed in E. cbn [mbind outcome_bind] in E. injection E as <- <-.
    assert (bounded_by empty mtu q (e <| e_inner := k |> <| e_telemetry := t |>)) as [Hm' [Hf' Hs' Htel] Hl' Hk' Hw' Hq'].
    { apply (bounded_inner empty mtu q e); try done; [left; cbn; lia|by exists h']. }
    split; [exact Hm'|by split|exact Hl'|exact Hk'|exact Hw'|exact Hq'].
Qed.

(** How the calls change what waits. *)
Lemma mss_positive empty mtu q e : bounded_by empty mtu q e → 0 < Kcp.mss (e_inner e).
Proof.
  intros [Hm [_ Hs _] _ _ _ _]. assert (Kcp.mss (e_inner e) = mtu - OVERHEAD) as -> by (by injection Hs). unfold OVERHEAD. lia.
Qed.
Lemma queued_nonneg mtu q e : bounded mtu q e → 0 ≤ queued_bytes e.
Proof.
  intros Hb. apply mss_positive in Hb. unfold queued_bytes, Kcp.saturating_mul, Kcp.wait_snd, len, usize_max, u64_max. nia.
Qed.
Lemma engine_input_queued mtu q e p now r e' :
  bounded mtu q e → engine_input e p now = (r, e') → queued_bytes e' ≤ queued_bytes e.
Proof.
  intros Hb. pose proof (mss_positive _ _ _ _ Hb). pose proof (po_failed _ _ (bd_party _ _ _ _ Hb)) as Hf. unfold engine_input. rewrite Hf.
  destruct (validate_kcp_packet _ _ _); [|by intros [= _ <-]]. change (e_inner (e <| e_now_ms := now |>)) with (e_inner e). cbv zeta.
  pose proof (input_waiting (e_inner e) p) as Hw. pose proof (input_settings (e_inner e) p) as Hs. destruct (Kcp.input (e_inner e) p) as [[n|err] k].
  all: cbn [snd] in *; intros [= _ <-]; change (Kcp.saturating_mul usize_max (Kcp.wait_snd k) (Kcp.mss k) ≤ queued_bytes e);
    injection Hs as -> _ _ _ _; unfold queued_bytes, Kcp.saturating_mul; nia.
Qed.
Definition held_segments (e : RustKcpEngine) : nat := length (Kcp.rcv_queue (e_inner e)) + length (Kcp.rcv_buf (e_inner e)).
(** Receiving never fails, and uses up what it delivers. *)
Lemma engine_recv_spec e :
  e_failed e = false →
  (∃ data e', engine_recv e = (Ok (Some data), e') ∧ (held_segments e' < held_segments e)%nat) ∨ engine_recv e = (Ok None, e).
Proof.
  intros Hf. unfold engine_recv. rewrite Hf. destruct (Kcp.peeksize (e_inner e)) as [size|err] eqn:Ep.
  - left. destruct (recv_delivers _ _ Ep) as (data & k & -> & Hl). by eexists _, _.
  - right. revert Ep. unfold Kcp.peeksize. destruct (Kcp.rcv_queue _); [by intros [= <-]|]. case_decide; [done|]. case_decide; [|done]. by intros [= <-].
Qed.
Lemma engine_recv_queued e r e' : e_failed e = false → engine_recv e = (r, e') → queued_bytes e' = queued_bytes e.
Proof.
  intros Hf E. unfold engine_recv in E. rewrite Hf in E. destruct (Kcp.peeksize _) as [size|err].
  2:{ assert (e' = e) as -> by (by destruct err; injection E as _ <-). done. }
  destruct (Kcp.recv _ size) as [[r' k]|] eqn:Er'; [|by apply recv_total in Er'].
  assert (e' = e <| e_inner := k |>) as -> by (by destruct r'; injection E as _ <-).
  pose proof (any_call_settings _ _ (any_recv _ _ _ _ Er')) as Hs. apply recv_waiting in Er'.
  change (Kcp.saturating_mul usize_max (Kcp.wait_snd k) (Kcp.mss k) = queued_bytes e). rewrite Er'. by injection Hs as -> _ _ _ _.
Qed.
Lemma engine_update_queued e now packets e' :
  e_failed e = false → engine_update e now = Done (packets, e') → queued_bytes e' = queued_bytes e.
Proof.
  intros Hf E. unfold engine_update in E. rewrite Hf in E. cbv zeta in E. change (e_inner (e <| e_now_ms := now |>)) with (e_inner e) in E.
  pose proof (update_waiting (e_inner e) (as_u32 now)) as Hw. pose proof (any_call_settings _ _ (any_update (e_inner e) _ (as_u32_typed now))) as Hs.
  destruct (Kcp.update _ _) as [r k]. cbn [snd] in *.
  assert (∀ e1, Kcp.wait_snd (e_inner e1) = Kcp.wait_snd k → Kcp.mss (e_inner e1) = Kcp.mss k → queued_bytes e1 = queued_bytes e) as Hq.
  { intros e1 E1 E2. unfold queued_bytes. rewrite E1, E2, Hw. by injection Hs as -> _ _ _ _. }
  destruct r; [|injection E as <- <-; by apply Hq]. destruct (drain_packets _ _ _) as [[tr t]|]; [|done].
  cbn [mbind outcome_bind] in E. injection E as <- <-. by apply Hq.
Qed.
Lemma engine_send_queued mtu q e data r e' :
  bounded mtu q e → data ≠ [] → engine_send e data = Done (r, e') →
  match r with
  | Ok _ => queued_bytes e ≤ queued_bytes e' ≤ queued_bytes e + queued_bytes_for e (len data)
  | Err _ => queued_bytes e' = queued_bytes e
  end.
Proof.
  intros Hb Hne. pose proof (mss_positive _ _ _ _ Hb) as Hm. pose proof (bd_party _ _ _ _ Hb) as Hp. unfold engine_send. rewrite (po_failed _ _ Hp).
  case_decide; [by intros [= <- <-]|]. destruct (Kcp.send (e_inner e) data) as [[r' k]|] eqn:Es; [|done]. cbn [mbind outcome_bind]. intros [= <- <-].
  pose proof (send_settings _ _ _ _ Es) as Hs. apply send_waiting in Es; [|by eapply settings_stream|done].
  destruct r' as [n|err]; [|by rewrite Es; destruct e].
  change (queued_bytes e ≤ Kcp.saturating_mul usize_max (Kcp.wait_snd k) (Kcp.mss k) ≤ queued_bytes e + queued_bytes_for e (len data)).
  rewrite Es. injection Hs as -> _ _ _ _. unfold queued_bytes, queued_bytes_for, Kcp.saturating_mul. cbv zeta.
  assert (0 ≤ Kcp.div_ceil (len data) (Kcp.mss (e_inner e))) as Hd by (pose proof (len_nonneg data); apply Z.div_pos; lia).
  assert (0 ≤ Kcp.wait_snd (e_inner e)) as Hw by (unfold Kcp.wait_snd, len; lia). rewrite Z.mul_add_distr_r.
  set (x := Kcp.wait_snd (e_inner e) * _). set (y := Kcp.div_ceil _ _ * _). assert (0 ≤ x ∧ 0 ≤ y) by (unfold x, y; nia).
  clearbody x y. assert (0 ≤ usize_max) by done. lia.
Qed.

(** A packet that passed validation can only be of another conversation. *)
Lemma foreign_packet segs : ∀ fuel k a err k',
  (length (packet segs) ≤ fuel)%nat → Forall segment_wf segs → Kcp.input_loop fuel k a (packet segs) = (Err err, k') →
  ∃ c d, err = Kcp.ConvInconsistent c d.
Proof.
  induction segs as [|s segs IH]; intros fuel k a err k' Hfuel Hwf; [by destruct fuel|]. apply Forall_cons in Hwf as [Hs Hwf].
  rewrite length_packet_cons in Hfuel. change (packet (s :: segs)) with (Kcp.encode s ++ packet segs) in *.
  pose proof (len_nonneg (Kcp.s_data s)). pose proof (len_nonneg (packet segs)). destruct fuel as [|fuel]; [lia|]. cbn [Kcp.input_loop].
  rewrite decide_False by (rewrite len_app, length_encode; unfold Kcp.encoded_len; lia).
  assert (∀ k1, Kcp.conv k1 = Kcp.s_conv s → ∃ k2 a2, Kcp.input_segment k1 a (Kcp.encode s ++ packet segs) = (Ok (a2, packet segs), k2)) as Hacc.
  { intros k1 E. rewrite input_segment_encode by done. destruct (Kcp.input_command _ _ _ _) as [k2 a2]. by eexists _, _. }
  destruct (decide (Kcp.s_conv s = Kcp.conv k)) as [E|E].
  { destruct (Hacc k (eq_sym E)) as (k2 & a2 & ->). apply IH; [lia|done]. }
  unfold Kcp.input_segment. rewrite read_header_encode, drop_encode by done. change (Kcp.h_conv (header_of s)) with (Kcp.s_conv s).
  rewrite decide_False by done. destruct (Kcp.input_conv k); [|intros [= <- <-]; by eexists _, _].
  set (k1 := k <| Kcp.conv := Kcp.s_conv s |> <| Kcp.input_conv := false |>). destruct (Hacc k1 eq_refl) as (k2 & a2 & Hseg).
  unfold Kcp.input_segment in Hseg. rewrite read_header_encode, drop_encode in Hseg by done. change (Kcp.h_conv (header_of s)) with (Kcp.s_conv s) in Hseg.
  rewrite (decide_True (P := Kcp.s_conv s = Kcp.conv k1)) in Hseg by done. rewrite Hseg. apply IH; [lia|done].
Qed.
Lemma engine_input_error e p now err e' :
  e_failed e = false → engine_input e p now = (Err err, e') → e' = e ∨ ∃ c d, err = map_kcp_error (Kcp.ConvInconsistent c d).
Proof.
  intros Hf. unfold engine_input. rewrite Hf. destruct (validate_kcp_packet _ _ _) as [[]|] eqn:Hv; [|intros [= _ <-]; by left].
  apply validate_Ok in Hv as (segs & -> & Hne & Hs). cbv zeta. intros E. right. destruct (Kcp.input _ _) as [[n|er] k] eqn:Ei; [done|].
  injection E as <- <-. unfold Kcp.input in Ei. rewrite decide_False in Ei.
  2:{ destruct segs as [|s segs]; [done|]. unfold len, Kcp.KCP_OVERHEAD. rewrite length_packet_cons. lia. }
  destruct (Kcp.input_loop _ _ _ _) as [[[a rest]|er'] k1] eqn:El; [done|]. injection Ei as -> ->.
  apply foreign_packet in El as (c & d & ->); [by eexists _, _|done|]. eapply Forall_impl; [exact Hs|]. intros s [Hsd _]. apply Hsd.
Qed.

Lemma engine_send_total empty mtu q e data : bounded_by empty mtu q e → engine_send e data ≠ Panic.
Proof.
  intros Hb. pose proof (mss_positive _ _ _ _ Hb) as Hm. pose proof (bd_party _ _ _ _ Hb) as Hp. unfold engine_send. rewrite (po_failed _ _ Hp).
  case_decide; [done|]. pose proof (settings_stream _ _ Hp) as Est. unfold Kcp.send. rewrite decide_False by lia. rewrite Est. cbv zeta. rewrite Est.
  cbn [andb]. by destruct (decide (Kcp.KCP_WND_RCV ≤ _)).
Qed.
Lemma new_bounded empty conv mtu q e : in_u32 conv → 0 ≤ q → new_with_limits conv mtu q = Ok e → bounded_by empty mtu q e.
Proof.
  intros Hc Hq Hn. pose proof (new_party_ok _ _ _ _ Hn) as Hp. apply new_with_limits_Ok in Hn as (Hm & _ & El & _ & _ & _ & Ei).
  split; [lia|done|done| | |].
  - rewrite Ei. assert (0 < mtu - OVERHEAD ≤ u16_max ∧ in_u16 mtu) as [[M1 M2] M3] by (unfold in_u16, OVERHEAD, u16_max; lia).
    unfold kcp_typed. split_and!; cbv [seq_typed rtt_typed wnd_typed misc_typed lists_typed]; split_and!; first [done|exact M1|exact M2|exact M3|by left].
  - rewrite Ei. split; [|done]. split_and!; try done. constructor.
  - unfold queued_bytes. rewrite Ei. change (0 ≤ allowance empty mtu q). unfold allowance, OVERHEAD. destruct empty; lia.
Qed.

(** C12: whatever bytes the peer sends.  The adapter never isolates its engine and no call panics; no
    more than the budget waits for acknowledgement, or one segment more than it when the user also
    sends empty messages, which [send] does not charge; no more segments than the window are kept
    in order or out of order; every field keeps its machine width; and a packet that fails leaves
    the engine as it was, unless it is of another conversation. *)
Theorem kcp_adapter_bounded empty conv mtu q e e' :
  in_u32 conv → 0 ≤ q → new_with_limits conv mtu q = Ok e → rtc (hostile_call empty) e e' →
  e_failed e' = false ∧ queued_bytes e' ≤ (if empty then q + (mtu - OVERHEAD) else q) ∧ kcp_typed (e_inner e') ∧
  len (Kcp.rcv_queue (e_inner e')) ≤ RECEIVE_WINDOW ∧ len (Kcp.rcv_buf (e_inner e')) ≤ RECEIVE_WINDOW ∧
  (∀ p now err e'', engine_input e' p now = (Err err, e'') → e'' = e' ∨ ∃ c d, err = map_kcp_error (Kcp.ConvInconsistent c d)) ∧
  (∀ data, engine_send e' data ≠ Panic) ∧ (∀ now, engine_update e' now ≠ Panic).
Proof.
  intros Hc Hq Hn Hcalls. assert (bounded_by empty mtu q e') as Hbd.
  { apply (new_bounded empty) in Hn; [|done|done]. clear Hc Hq. induction Hcalls as [|e1 e2 e3 Hcall _ IH]; [done|]. apply IH. by eapply bounded_call. }
  pose proof Hbd as [Hm Hp Hl Hk [Hw Er] Hb]. pose proof (po_failed _ _ Hp) as Hf. pose proof (window_bounded _ Hw) as [H1 H2]. rewrite Er in *. split_and!; try done.
  - intros p now err e''. by apply engine_input_error.
  - intros data. by apply (engine_send_total empty mtu q).
  - intros now. by apply (engine_update_total mtu).
Qed.

(** The last segment is really beyond the budget: two empty messages under a budget of one segment. *)
Definition two_empty (e : RustKcpEngine) : option RustKcpEngine :=
  match engine_send e [] with
  | Done (Ok _, e) => match engine_send e [] with Done (Ok _, e) => Some e | _ => None end
  | _ => None
  end.
Theorem empty_message_exceeds_budget :
  match new_with_limits 7 50 26 with Ok e => queued_bytes <$> two_empty e | Err _ => None end = Some 52.
Proof. vm_compute. reflexivity. Qed.

(** A peer that acknowledges what was never sent, advertises a window it must not, answers from the
    future, and is of another conversation. *)
Definition hostile_packets : list (list byte) :=
  [hostile_ack; hostile_push; Kcp.encode (Kcp.mkSegment 7 Kcp.KCP_CMD_ACK 0 5 0 9 9 0 0 0 0 []);
   Kcp.encode (Kcp.mkSegment 8 Kcp.KCP_CMD_PUSH 0 5 0 9 9 0 0 0 0 [])].
Definition hostile_run (e : RustKcpEngine) : RustKcpEngine :=
  foldl (λ e p, (engine_input e p 4).2) e hostile_packets.
Lemma hostile_run_calls empty e : rtc (hostile_call empty) e (hostile_run e).
Proof.
  unfold hostile_run. generalize hostile_packets. intros l. revert e. induction l as [|p l IH]; intros e; cbn [foldl]; [done|].
  eapply rtc_l; [|apply IH]. destruct (engine_input e p 4) as [r e'] eqn:E. by eapply hostile_input.
Qed.
Lemma kcp_adapter_bounded_witness :
  ∃ e, new_with_limits 7 50 100 = Ok e ∧ (λ p, is_ok (engine_input e p 4).1) <$> hostile_packets = [false; false; true; false] ∧
    queued_bytes (hostile_run e) ≤ 100.
Proof.
  destruct (new_with_limits 7 50 100) as [e|] eqn:E; [|by vm_compute in E]. exists e. split; [done|]. split.
  - injection E as <-. vm_compute. reflexivity.
  - apply (kcp_adapter_bounded false 7 50 100 e (hostile_run e)); [done|done|done|apply hostile_run_calls].
Defined.
