(* ===== verification/Preflight.v ===== *)
(** * Before a datagram peer owns anything: rnet-transport [cookie.rs] and [kcp_preflight.rs]

    A server answers an unknown source with a cookie, an HMAC over the address and the minute, and
    keeps nothing.  For KCP the exchange has packets of its own.  The HMAC, the random numbers and
    the clock are arguments. *)

From S2P Require Import Prelude Bytes CoreTypes Outbound.

(** ** Cookies *)

(** HMAC-SHA-256 of [ring]. *)
Class Hmac := {
  mac_key : Type;
  mac_sign : mac_key → list byte → list byte;
  mac_verify : mac_key → list byte → list byte → bool
}.
(** Its documented behaviour: verification recomputes the tag, of 32 bytes. *)
Class HmacLaws `{Hmac} := {
  mac_len k m : len (mac_sign k m) = 32;
  mac_verify_spec k m t : mac_verify k m t = true ↔ t = mac_sign k m
}.

Definition COOKIE_LEN : Z := 40.
(** [cookie_time_bucket], of the seconds since the epoch. *)
Definition cookie_time_bucket (secs : Z) : Z := secs / 60.
Definition cookie_input (peer : SocketAddr) (bucket : Z) : list byte :=
  be_encode (if sa_v6 peer then 16 else 4) (sa_ip peer) ++ be_encode 2 (sa_port peer) ++ be_encode 8 bucket.

Section cookie.
Context `{Hmac}.

(** [random] is what the generator fills the secret with. *)
Definition cookie_new (random : option (list byte)) (derive : list byte → mac_key) : Result mac_key :=
  match random with Some secret => Ok (derive secret) | None => fail ErrorCode.CryptoError "cookie RNG failed" end.
Definition sign (key : mac_key) (peer : SocketAddr) (bucket : Z) : list byte := mac_sign key (cookie_input peer bucket).
Definition issue (key : mac_key) (peer : SocketAddr) (secs : Z) : list byte :=
  let bucket := cookie_time_bucket secs in be_encode 8 bucket ++ sign key peer bucket.
Definition validate (key : mac_key) (peer : SocketAddr) (cookie : list byte) (secs : Z) : bool :=
  if decide (len cookie ≠ COOKIE_LEN) then false
  else
    let bucket := be_decode (slice 0 8 cookie) in
    let current := cookie_time_bucket secs in
    if decide (bucket ≠ current ∧ saturating_add u64_max bucket 1 ≠ current) then false
    else mac_verify key (cookie_input peer bucket) (drop 8 cookie).

End cookie.

(** ** Packets *)

Definition MAGIC : list byte := [Byte.x52; Byte.x4e; Byte.x4b; Byte.x32].
Definition HELLO : Z := 1.
Definition CHALLENGE : Z := 2.

Inductive Preflight :=
| Hello (conv : Z) (cookie : list byte)
| Challenge (conv : Z) (cookie : list byte).

Definition random_conv (random : option (list byte)) : Result Z :=
  match random with
  | Some bytes => let conv := be_decode bytes in Ok (if decide (conv = 0) then 1 else conv)
  | None => fail ErrorCode.CryptoError "operating-system randomness unavailable for KCP conversation"
  end.
Definition encode_preflight (kind conv : Z) (cookie : list byte) : list byte :=
  MAGIC ++ [of_u8 kind] ++ be_encode 4 conv ++ cookie.
Definition encode_hello (conv : Z) (cookie : list byte) : list byte := encode_preflight HELLO conv cookie.
Definition encode_challenge (conv : Z) (cookie : list byte) : list byte := encode_preflight CHALLENGE conv cookie.

Definition decode_preflight (packet : list byte) : option Preflight :=
  if decide (take 4 packet ≠ MAGIC) then None
  else
    let payload := drop 4 packet in
    if decide (len payload < 5) then None
    else
      let kind := byte_at 0 payload in
      let conv := be_decode (slice 1 5 payload) in
      if decide (conv = 0) then None
      else
        let cookie := drop 5 payload in
        if decide (kind = HELLO ∧ (len cookie = 0 ∨ len cookie = COOKIE_LEN)) then Some (Hello conv cookie)
        else if decide (kind = CHALLENGE ∧ len cookie = COOKIE_LEN) then Some (Challenge conv cookie)
        else None.

(** ** What the packets are *)

Definition preflight_ok (x : Preflight) : Prop :=
  match x with
  | Hello conv cookie => in_u32 conv ∧ conv ≠ 0 ∧ (len cookie = 0 ∨ len cookie = COOKIE_LEN)
  | Challenge conv cookie => in_u32 conv ∧ conv ≠ 0 ∧ len cookie = COOKIE_LEN
  end.
Definition preflight_bytes (x : Preflight) : list byte :=
  match x with Hello conv cookie => encode_hello conv cookie | Challenge conv cookie => encode_challenge conv cookie end.

Lemma decode_encode_preflight kind conv cookie :
  in_u8 kind → in_u32 conv → conv ≠ 0 →
  decode_preflight (encode_preflight kind conv cookie) =
    if decide (kind = HELLO ∧ (len cookie = 0 ∨ len cookie = COOKIE_LEN)) then Some (Hello conv cookie)
    else if decide (kind = CHALLENGE ∧ len cookie = COOKIE_LEN) then Some (Challenge conv cookie) else None.
Proof.
  intros Hk Hc Hn. unfold decode_preflight, encode_preflight. change (take 4 (MAGIC ++ [of_u8 kind] ++ be_encode 4 conv ++ cookie)) with MAGIC.
  rewrite decide_False by (intros Hne; by destruct Hne).
  change (drop 4 (MAGIC ++ [of_u8 kind] ++ be_encode 4 conv ++ cookie)) with ([of_u8 kind] ++ be_encode 4 conv ++ cookie).
  rewrite decide_False by (rewrite !len_app, len_be_encode, len_cons, len_nil; pose proof (len_nonneg cookie); lia).
  change (byte_at 0 ([of_u8 kind] ++ be_encode 4 conv ++ cookie)) with (to_u8 (of_u8 kind)). rewrite to_of_u8 by done.
  rewrite (slice_app_skip 1 5 [of_u8 kind]) by (cbn; lia). cbn [length]. rewrite slice_app_here by apply length_be_encode. rewrite be_u32 by done.
  rewrite decide_False by done. rewrite (drop_app_skip 5 [of_u8 kind]) by (cbn; lia). cbn [length].
  rewrite (drop_app_length' (be_encode 4 conv)) by (by rewrite length_be_encode). done.
Qed.

Lemma decode_preflight_sound packet x : decode_preflight packet = Some x → preflight_ok x ∧ packet = preflight_bytes x.
Proof.
  unfold decode_preflight. case_decide as Hm; [done|]. cbv zeta. case_decide as Hl; [done|]. case_decide as Hz; [done|].
  assert (take 4 packet = MAGIC) as Em by (destruct (decide (take 4 packet = MAGIC)); tauto). set (payload := drop 4 packet) in *.
  assert (length payload = 5 + length (drop 5 payload))%nat as Hlen by (rewrite length_drop; unfold len in Hl; lia).
  assert (payload = [of_u8 (byte_at 0 payload)] ++ be_encode 4 (be_decode (slice 1 5 payload)) ++ drop 5 payload) as Ep.
  { rewrite be_encode_decode by (rewrite length_slice; lia). rewrite (assoc_L (++)), <- (take_drop 5 payload) at 1. f_equal.
    destruct payload as [|b p]; [cbn in Hlen; lia|]. change (byte_at 0 (b :: p)) with (to_u8 b). by rewrite of_to_u8. }
  assert (in_u32 (be_decode (slice 1 5 payload))) as Hc by (apply be_u32_range; rewrite length_slice; lia).
  assert (∀ kind, byte_at 0 payload = kind → packet = encode_preflight kind (be_decode (slice 1 5 payload)) (drop 5 payload)) as Hpk.
  { intros kind <-. unfold encode_preflight. rewrite <- Ep, <- Em. symmetry. apply take_drop. }
  case_decide as Hh; [intros [= <-]; destruct Hh as [Hh Hck]; split; [done|by apply Hpk]|].
  case_decide as Hch; [|done]. intros [= <-]. destruct Hch as [Hch Hck]. split; [done|by apply Hpk].
Qed.

(** the packets before a KCP connection have exactly one encoding, and nothing else is read as
    one; they carry a conversation that is not zero and a cookie of the right length. *)
Theorem preflight_canonical packet x : decode_preflight packet = Some x ↔ preflight_ok x ∧ packet = preflight_bytes x.
Proof.
  split; [apply decode_preflight_sound|].
  intros [Hok ->]. destruct x as [conv cookie|conv cookie]; destruct Hok as (Hc & Hn & Hk); cbn [preflight_bytes].
  - unfold encode_hello. rewrite decode_encode_preflight by done. by rewrite decide_True.
  - unfold encode_challenge. rewrite decode_encode_preflight by done. rewrite decide_False by (intros [? _]; done). by rewrite decide_True.
Qed.

(** ** What a cookie proves *)

Definition addr_ok (a : SocketAddr) : Prop := 0 ≤ sa_ip a < (if sa_v6 a then 2 ^ 128 else 2 ^ 32) ∧ in_u16 (sa_port a).
Lemma cookie_input_inj a b bucket : addr_ok a → addr_ok b → cookie_input a bucket = cookie_input b bucket → a = b.
Proof.
  intros [Ha Pa] [Hb Pb] E. assert (sa_v6 a = sa_v6 b) as Ev.
  { apply (f_equal length) in E. unfold cookie_input in E. rewrite !length_app, !length_be_encode in E. by destruct (sa_v6 a), (sa_v6 b). }
  unfold cookie_input in E. rewrite Ev in *. apply app_inj_1 in E as [Ei E]; [|by rewrite !length_be_encode].
  apply app_inj_1 in E as [Epo _]; [|by rewrite !length_be_encode]. apply (f_equal be_decode) in Ei, Epo. rewrite !be_u16 in Epo by done.
  rewrite !be_decode_encode in Ei by (destruct (sa_v6 b); cbn in *; lia). destruct a, b. cbn in *. congruence.
Qed.

(** C17: a cookie is accepted from the address it was issued to, in the minute it was issued in and
    the next; from another address only when two different inputs have the same HMAC. *)
Theorem cookie_bound `{HmacLaws} (key : mac_key) peer peer' secs secs' :
  addr_ok peer → addr_ok peer' → in_u64 secs →
  let window := cookie_time_bucket secs' = cookie_time_bucket secs ∨ cookie_time_bucket secs' = cookie_time_bucket secs + 1 in
  (validate key peer' (issue key peer secs) secs' = true →
   window ∧ (peer' = peer ∨ ∃ m m', m ≠ m' ∧ mac_sign key m = mac_sign key m')) ∧
  (window → validate key peer (issue key peer secs) secs' = true).
Proof.
  intros Ha Ha' Hs window. set (b := cookie_time_bucket secs) in *.
  assert (in_u64 b ∧ b < u64_max) as [Hb Hlt].
  { unfold b, cookie_time_bucket, in_u64, u64_max in *. pose proof (Z.div_le_upper_bound secs 60 (2 ^ 63)). pose proof (Z.div_pos secs 60). lia. }
  assert (∀ p, validate key p (issue key peer secs) secs' = true ↔ window ∧ sign key p b = sign key peer b) as Hv.
  { intros p. unfold validate, issue. fold b. rewrite decide_False.
    2:{ unfold sign. rewrite len_app, len_be_encode, mac_len. by intros []. }
    cbv zeta. rewrite slice_app_here by apply length_be_encode. rewrite be_u64 by done.
    rewrite drop_app_length' by (by rewrite length_be_encode). unfold saturating_add. rewrite Z.min_l by lia.
    case_decide as Hw; [split; [done|]; intros [[Hw'|Hw'] _]; lia|]. rewrite mac_verify_spec. unfold sign, window.
    split; [|by intros [_ ->]]. intros E. split; [|done].
    destruct (decide (b = cookie_time_bucket secs')); [by left|]. right. destruct (decide (b + 1 = cookie_time_bucket secs')); [done|]. by destruct Hw. }
  split; [|intros Hw; by apply Hv]. intros [Hw Hsig]%Hv. split; [done|]. destruct (decide (peer' = peer)) as [|Hne]; [by left|]. right.
  exists (cookie_input peer' b), (cookie_input peer b). split; [|done]. by intros E%cookie_input_inj.
Qed.

(** A tag that is the first bytes of the input. *)
Definition demo_hmac : Hmac := {|
  mac_key := unit;
  mac_sign _ m := take 32 (m ++ replicate 32 Byte.x00);
  mac_verify _ m t := bool_decide (t = take 32 (m ++ replicate 32 Byte.x00))
|}.
Definition demo_hmac_laws : HmacLaws (H := demo_hmac).
Proof.
  refine (Build_HmacLaws demo_hmac _ _).
  - intros k m. unfold len, mac_sign, demo_hmac. rewrite length_take, length_app, length_replicate. lia.
  - intros k m t. cbn. apply bool_decide_eq_true.
Defined.
Lemma cookie_bound_witness :
  let peer := mkSocketAddr false 2130706433 9000 in
  (validate (H := demo_hmac) tt peer (issue (H := demo_hmac) tt peer 119) 179 = true) ∧
  (validate (H := demo_hmac) tt peer (issue (H := demo_hmac) tt peer 119) 180 = false).
Proof.
  intros peer. split; [|vm_compute; reflexivity].
  apply (cookie_bound (H0 := demo_hmac_laws) tt peer peer 119 179); [done|done|done|by right].
Defined.
