(* ===== verification/DatagramWire.v ===== *)
(** * The records of datagram endpoints on the wire: rnet-transport [adaptive_wire.rs]

    [DatagramWire] carries the records of an endpoint's peers: over UDP it keeps one control record
    per peer for retransmission and answers an exact repetition from a cache; over KCP it owns one
    adapter of [KcpEngine] per admitted peer, with a byte budget for all of them and a heap of
    update times.

    A call takes the clock it reads and, where the source looks at it, the result of the socket's
    [send_to]; the packets it sends are part of its value.  The heap is a sorted list.  The scratch
    vectors, which are empty between calls, are not part of the state. *)

From Stdlib Require Import Sorting.Sorted.
From S2P Require Import Prelude Bytes CoreTypes Quality Control Outbound Kcp KcpLink KcpReliable KcpTypes KcpEngine.

(** ** Addresses in order *)

(** [Ord] of [SocketAddr]. *)
Definition addr_le (a b : SocketAddr) : bool :=
  match sa_v6 a, sa_v6 b with
  | false, true => true
  | true, false => false
  | _, _ =>
    if decide (sa_ip a = sa_ip b) then bool_decide (sa_port a ≤ sa_port b) else bool_decide (sa_ip a < sa_ip b)
  end.
Definition entry_le (a b : Z * SocketAddr) : bool :=
  if decide (a.1 = b.1) then addr_le a.2 b.2 else bool_decide (a.1 < b.1).

Fixpoint heap_push (e : Z * SocketAddr) (heap : list (Z * SocketAddr)) : list (Z * SocketAddr) :=
  match heap with
  | [] => [e]
  | x :: rest => if entry_le e x then e :: heap else x :: heap_push e rest
  end.

(** ** State *)

Definition RETRY_INTERVAL : Duration := 100 * 10 ^ 6.
Definition MAX_RETRY_ATTEMPTS : Z := 50.
Definition MAX_KCP_UPDATES_PER_FLUSH : Z := 256.

Record PendingRecord := mkPendingRecord {
  pr_bytes : list byte;
  pr_last_sent : Instant;
  pr_attempts : Z
}.
Record SeenRecord := mkSeenRecord {
  sr_request : list byte;
  sr_response : option (list byte)
}.

(** [w_telemetry] is the peers this endpoint has in the telemetry registry, if it has one. *)
Record DatagramWire := mkDatagramWire {
  w_kind : Transport.t;
  w_mtu : Z;
  w_max_peers : Z;
  w_max_session : Z;
  w_max_runtime : Z;
  w_queued : Z;
  w_engines : gmap SocketAddr RustKcpEngine;
  w_authorized : gmap SocketAddr Z;
  w_deadlines : list (Z * SocketAddr);
  w_scheduled : gmap SocketAddr Z;
  w_pending : gmap SocketAddr PendingRecord;
  w_seen : gmap SocketAddr SeenRecord;
  w_active_input : option (SocketAddr * list byte);
  w_active_pending : option (SocketAddr * list byte);
  w_telemetry : option (gset SocketAddr)
}.
#[export] Instance DatagramWire_eta : Eta DatagramWire := λ w,
  mkDatagramWire (w_kind w) (w_mtu w) (w_max_peers w) (w_max_session w) (w_max_runtime w) (w_queued w) (w_engines w)
    (w_authorized w) (w_deadlines w) (w_scheduled w) (w_pending w) (w_seen w) (w_active_input w) (w_active_pending w)
    (w_telemetry w).

Definition wire_new (kind : Transport.t) (mtu max_peers max_session max_runtime : Z) : DatagramWire :=
  mkDatagramWire kind mtu max_peers max_session max_runtime 0 ∅ ∅ [] ∅ ∅ ∅ None None None.
Definition with_telemetry (w : DatagramWire) : DatagramWire := w <| w_telemetry := Some ∅ |>.

(** [KcpTelemetryRegistry::insert_engine] and [remove], of this endpoint's entries. *)
Definition register (w : DatagramWire) (peer : SocketAddr) : DatagramWire :=
  w <| w_telemetry ::= fmap (union {[peer]}) |>.
Definition unregister (w : DatagramWire) (peer : SocketAddr) : DatagramWire :=
  w <| w_telemetry ::= fmap (λ s, s ∖ {[peer]}) |>.

Definition clear_active (peer : SocketAddr) (a : option (SocketAddr * list byte)) : option (SocketAddr * list byte) :=
  match a with Some (p, _) => if decide (p = peer) then None else a | None => None end.
Definition remove_engine (w : DatagramWire) (peer : SocketAddr) : DatagramWire :=
  match w_engines w !! peer with
  | Some engine => w <| w_engines ::= delete peer |> <| w_queued ::= λ q, saturating_sub q (queued_bytes engine) |>
  | None => w
  end.
Definition remove_peer (w : DatagramWire) (peer : SocketAddr) : DatagramWire :=
  unregister (remove_engine w peer) peer <| w_authorized ::= delete peer |> <| w_scheduled ::= delete peer |>
    <| w_pending ::= delete peer |> <| w_seen ::= delete peer |> <| w_active_input ::= clear_active peer |>
    <| w_active_pending ::= clear_active peer |>.

Definition peer_limit : RnetError := mkRnetError ErrorCode.RateLimited "KCP peer limit reached".
Definition authorize_peer (w : DatagramWire) (peer : SocketAddr) (conv : Z) : Result unit * DatagramWire :=
  if decide (conv = 0) then (fail ErrorCode.InvalidArgument "KCP conversation must be nonzero", w)
  else
    match w_engines w !! peer, w_authorized w !! peer with
    | Some _, _ => (Ok tt, w)
    | None, Some current =>
      (if decide (current = conv) then Ok tt
       else fail ErrorCode.ProtocolError "KCP preflight changed an authorized conversation", w)
    | None, None =>
      if decide (w_max_peers w ≤ Z.of_nat (size (w_engines w)) + Z.of_nat (size (w_authorized w))) then (Err peer_limit, w)
      else (Ok tt, w <| w_authorized ::= <[peer := conv]> |>)
    end.
Definition has_peer (w : DatagramWire) (peer : SocketAddr) : bool := bool_decide (is_Some (w_engines w !! peer)).
Definition revoke_authorization (w : DatagramWire) (peer : SocketAddr) : DatagramWire := w <| w_authorized ::= delete peer |>.

Definition reconcile_kcp_bytes (w : DatagramWire) (before after : Z) : DatagramWire :=
  w <| w_queued ::= λ q, saturating_add usize_max (saturating_sub q before) after |>.
Definition schedule_update (w : DatagramWire) (peer : SocketAddr) (deadline : Z) : DatagramWire :=
  w <| w_scheduled ::= <[peer := deadline]> |> <| w_deadlines ::= heap_push (deadline, peer) |>.

(** ** Receiving *)

(** The entry of a peer: its engine, or the conversation it was authorised for, which is used up. *)
Definition peer_entry (w : DatagramWire) (peer : SocketAddr) : Result (RustKcpEngine + Z) * DatagramWire :=
  match w_engines w !! peer, w_authorized w !! peer with
  | Some engine, _ => (Ok (inl engine), w)
  | None, Some conv =>
    let w := w <| w_authorized ::= delete peer |> in
    (if decide (w_max_peers w ≤ Z.of_nat (size (w_engines w))) then Err peer_limit else Ok (inr conv), w)
  | None, None => (fail ErrorCode.AuthRejected "KCP preflight authorization required", w)
  end.

(** Every message the engine holds; each takes at least one of its segments, which bounds the
    number of rounds. *)
Fixpoint recv_loop (fuel : nat) (e : RustKcpEngine) (records : list (list byte)) : Result (list (list byte)) * RustKcpEngine :=
  match fuel with
  | O => (Ok records, e)
  | S fuel =>
    match engine_recv e with
    | (Err err, e) => (Err err, e)
    | (Ok (Some record), e) => recv_loop fuel e (records ++ [record])
    | (Ok None, e) => (Ok records, e)
    end
  end.
Definition recv_fuel (e : RustKcpEngine) : nat := S (held_segments e).

(** The rest of [receive], once the engine has read the packet. *)
Definition deliver (w : DatagramWire) (peer : SocketAddr) (e : RustKcpEngine) (before : Z) : Result (list (list byte)) * DatagramWire :=
  let '(r, e) := recv_loop (recv_fuel e) e [] in
  let w := w <| w_engines ::= <[peer := e]> |> in
  match r with
  | Err err => (Err err, w)
  | Ok records => (Ok records, schedule_update (reconcile_kcp_bytes w before (queued_bytes e)) peer (next_update_ms e))
  end.
(** An engine of its own is kept, however its input went; a new one only when its first packet was
    read. *)
Definition receive (w : DatagramWire) (now_ms : Z) (peer : SocketAddr) (packet : list byte) : Result (list (list byte)) * DatagramWire :=
  if decide (w_kind w ≠ Transport.Kcp) then (Ok [packet], w)
  else
    match peer_entry w peer with
    | (Err err, w) => (Err err, w)
    | (Ok (inl engine), w) =>
      let before := queued_bytes engine in
      match engine_input engine packet now_ms with
      | (Err err, engine) => (Err err, w <| w_engines ::= <[peer := engine]> |>)
      | (Ok _, engine) => deliver w peer engine before
      end
    | (Ok (inr conv), w) =>
      match new_with_limits conv (w_mtu w) (w_max_session w) with
      | Err err => (Err err, w)
      | Ok engine =>
        match engine_input engine packet now_ms with
        | (Err err, _) => (Err err, w)
        | (Ok _, engine) => deliver (register w peer) peer engine (queued_bytes engine)
        end
      end
    end.

(** ** Sending *)

(** [engine]: the engine of a peer, made when it is authorised. *)
Definition engine_for (w : DatagramWire) (peer : SocketAddr) : Result RustKcpEngine * DatagramWire :=
  match peer_entry w peer with
  | (Err err, w) => (Err err, w)
  | (Ok (inl engine), w) => (Ok engine, w)
  | (Ok (inr conv), w) =>
    match new_with_limits conv (w_mtu w) (w_max_session w) with
    | Err err => (Err err, w)
    | Ok engine => (Ok engine, register w peer <| w_engines ::= <[peer := engine]> |>)
    end
  end.

Definition data_limit (maximum reserve : Z) : Z := saturating_sub maximum ((maximum / 16) `min` reserve).
Definition budget_full : RnetError := mkRnetError ErrorCode.WouldBlock "KCP unacknowledged-byte budget is full".
(** The [debug_assert!] is a panic. *)
Definition queue_kcp (w : DatagramWire) (peer : SocketAddr) (bytes : list byte) (control : bool) : outcome (Result unit * DatagramWire) :=
  let current_total := w_queued w in
  let runtime_limit := if control then w_max_runtime w else data_limit (w_max_runtime w) (64 * 1024) in
  let session_limit := if control then w_max_session w else data_limit (w_max_session w) (4 * 1024) in
  match engine_for w peer with
  | (Err err, w) => Done (Err err, w)
  | (Ok engine, w) =>
    let before := queued_bytes engine in
    let added := queued_bytes_for engine (len bytes) in
    if decide (runtime_limit < saturating_add usize_max current_total added ∨ session_limit < saturating_add usize_max before added)
    then Done (Err budget_full, w)
    else
      '(r, engine) ← engine_send engine bytes;
      let w := w <| w_engines ::= <[peer := engine]> |> in
      match r with
      | Err err => Done (Err err, w)
      | Ok _ =>
        let after := queued_bytes engine in
        if decide (added < saturating_sub after before) then Panic
        else Done (Ok tt, reconcile_kcp_bytes w before after)
      end
  end.
(** [queue_kcp] and then [schedule_update] at once. *)
Definition queue_now (w : DatagramWire) (now_ms : Z) (peer : SocketAddr) (bytes : list byte) (control : bool) :
    outcome (Result unit * DatagramWire) :=
  '(r, w) ← queue_kcp w peer bytes control;
  Done (match r with Ok _ => (Ok tt, schedule_update w peer now_ms) | Err err => (Err err, w) end).

(** The value of the sends is the packet given to the socket; [io] is what the socket says. *)
Definition wire_send (w : DatagramWire) (now_ms : Z) (io : Result unit) (peer : SocketAddr) (record : SecurityRecord) (max : Z) :
    outcome (Result (option (list byte)) * DatagramWire) :=
  match encode_record record (if decide (w_kind w = Transport.Kcp) then u32_max else max) with
  | Err err => Done (Err err, w)
  | Ok bytes =>
    if decide (w_kind w = Transport.Kcp) then
      '(r, w) ← queue_now w now_ms peer bytes false;
      Done (match r with Ok _ => Ok None | Err err => Err err end, w)
    else Done (match io with Ok _ => Ok (Some bytes) | Err err => Err err end, w)
  end.

(** The response is remembered for the record that is being handled. *)
Definition remember_response (w : DatagramWire) (peer : SocketAddr) (bytes : list byte) : DatagramWire :=
  match w_active_input w with
  | Some (input_peer, request) =>
    if decide (input_peer = peer ∧ (Z.of_nat (size (w_seen w)) < w_max_peers w ∨ is_Some (w_seen w !! peer)))
    then w <| w_seen ::= <[peer := mkSeenRecord request (Some bytes)]> |> else w
  | None => w
  end.
Definition send_reliable (w : DatagramWire) (now : Instant) (now_ms : Z) (io : Result unit) (peer : SocketAddr) (record : SecurityRecord)
    (max : Z) : outcome (Result (option (list byte)) * DatagramWire) :=
  match encode_record record max with
  | Err err => Done (Err err, w)
  | Ok bytes =>
    if decide (w_kind w = Transport.Kcp) then
      '(r, w) ← queue_now w now_ms peer bytes true;
      Done (match r with Ok _ => Ok None | Err err => Err err end, w)
    else if decide (w_max_peers w ≤ Z.of_nat (size (w_pending w)) ∧ ¬ is_Some (w_pending w !! peer))
    then Done (fail ErrorCode.RateLimited "UDP control limit reached", w)
    else
      match io with
      | Err err => Done (Err err, w)
      | Ok _ =>
        let w := w <| w_pending ::= <[peer := mkPendingRecord bytes now 1]> |> in
        Done (Ok (Some bytes), remember_response w peer bytes)
      end
  end.
Definition send_response (w : DatagramWire) (now_ms : Z) (io : Result unit) (peer : SocketAddr) (record : SecurityRecord) (max : Z) :
    outcome (Result (option (list byte)) * DatagramWire) :=
  match encode_record record max with
  | Err err => Done (Err err, w)
  | Ok bytes =>
    if decide (w_kind w = Transport.Kcp) then
      '(r, w) ← queue_now w now_ms peer bytes true;
      Done (match r with Ok _ => Ok None | Err err => Err err end, w)
    else
      match io with
      | Err err => Done (Err err, w)
      | Ok _ => Done (Ok (Some bytes), remember_response w peer bytes)
      end
  end.

(** ** Repeated input *)

Definition begin_input (w : DatagramWire) (peer : SocketAddr) (bytes : list byte) : bool * option (list byte) * DatagramWire :=
  let fresh (w : DatagramWire) : bool * option (list byte) * DatagramWire :=
    let w :=
      if decide (Z.of_nat (size (w_seen w)) < w_max_peers w ∨ is_Some (w_seen w !! peer))
      then w <| w_seen ::= <[peer := mkSeenRecord bytes None]> |> else w in
    (false, None,
     w <| w_active_input := Some (peer, bytes) |>
       <| w_active_pending := (λ pending, (peer, pr_bytes pending)) <$> w_pending w !! peer |>) in
  if decide (w_kind w = Transport.Kcp) then (false, None, w)
  else
    match w_seen w !! peer with
    | Some seen => if decide (sr_request seen = bytes) then (true, sr_response seen, w) else fresh w
    | None => fresh w
    end.
Definition end_input (w : DatagramWire) (success : bool) : DatagramWire :=
  let w :=
    match success, w_active_pending w with
    | true, Some (peer, old_bytes) =>
      if decide (pr_bytes <$> w_pending w !! peer = Some old_bytes) then w <| w_pending ::= delete peer |> else w
    | _, _ => w
    end in
  w <| w_active_input := None |> <| w_active_pending := None |>.

(** ** Timers *)

(** One peer of the retransmission loop: whether it gave up, and the packet it sends. *)
Definition retry_one (now : Instant) (w : DatagramWire) (peer : SocketAddr) : option bool * DatagramWire * list (SocketAddr * list byte) :=
  match w_pending w !! peer with
  | None => (None, w, [])
  | Some pending =>
    if decide (saturating_sub now (pr_last_sent pending) < RETRY_INTERVAL) then (None, w, [])
    else if decide (MAX_RETRY_ATTEMPTS ≤ pr_attempts pending) then (Some true, w <| w_pending ::= delete peer |>, [])
    else
      (Some false, w <| w_pending ::= <[peer := mkPendingRecord (pr_bytes pending) now (pr_attempts pending + 1)]> |>,
       [(peer, pr_bytes pending)])
  end.
(** The value is the peers given up and the packets sent. *)
Fixpoint retry_loop (now : Instant) (w : DatagramWire) (peers : list SocketAddr) :
    list SocketAddr * list (SocketAddr * list byte) * DatagramWire :=
  match peers with
  | [] => ([], [], w)
  | peer :: peers =>
    let '(gave_up, w, packets) := retry_one now w peer in
    let '(expired, rest, w) := retry_loop now w peers in
    ((if decide (gave_up = Some true) then [peer] else []) ++ expired, packets ++ rest, w)
  end.
Definition retry (w : DatagramWire) (now : Instant) : list SocketAddr * list (SocketAddr * list byte) * DatagramWire :=
  if decide (w_kind w = Transport.Kcp) then ([], [], w) else retry_loop now w (map_to_list (w_pending w)).*1.

(** The loop of [flush], which ends when nothing is due or after enough updates: an entry it pops is
    out of date, or an update. *)
Fixpoint flush_loop (fuel : nat) (now_ms : Z) (updated : Z) (w : DatagramWire) (sent : list (SocketAddr * list byte)) :
    outcome (Z * list (SocketAddr * list byte) * DatagramWire) :=
  match fuel with
  | O => Done (updated, sent, w)
  | S fuel =>
    if decide (MAX_KCP_UPDATES_PER_FLUSH ≤ updated) then Done (updated, sent, w)
    else
      match w_deadlines w with
      | [] => Done (updated, sent, w)
      | (deadline, peer) :: rest =>
        if decide (now_ms < deadline) then Done (updated, sent, w)
        else
          let w := w <| w_deadlines := rest |> in
          if decide (w_scheduled w !! peer ≠ Some deadline) then flush_loop fuel now_ms updated w sent
          else
            match w_engines w !! peer with
            | None => flush_loop fuel now_ms updated (w <| w_scheduled ::= delete peer |>) sent
            | Some engine =>
              '(packets, engine) ← engine_update engine now_ms;
              let w := schedule_update (w <| w_engines ::= <[peer := engine]> |>) peer (next_update_ms engine) in
              flush_loop fuel now_ms (updated + 1) w (sent ++ ((λ packet, (peer, packet)) <$> packets))
            end
      end
  end.
(** The value is the number of updates and the packets sent. *)
Definition wire_flush (w : DatagramWire) (now_ms : Z) : outcome (Z * list (SocketAddr * list byte) * DatagramWire) :=
  if decide (w_kind w ≠ Transport.Kcp) then Done (0, [], w)
  else flush_loop (S (Z.to_nat MAX_KCP_UPDATES_PER_FLUSH + length (w_deadlines w))) now_ms 0 w [].

(** [drop]: the registry forgets the engines. *)
Definition wire_drop (w : DatagramWire) : option (gset SocketAddr) := (λ s, s ∖ dom (w_engines w)) <$> w_telemetry w.

(** ** The invariant *)

Definition total_queued (w : DatagramWire) : Z := sum_map queued_bytes (w_engines w).
(** What is charged to the endpoint but not waiting in any engine. *)
Definition slack (w : DatagramWire) : Z := w_queued w - total_queued w.

Definition limits_ok (w : DatagramWire) : Prop :=
  50 ≤ w_mtu w ∧ 0 ≤ w_max_session w ∧ 0 ≤ w_max_runtime w < usize_max ∧ 0 ≤ w_max_peers w.
Definition kcp_ok (w : DatagramWire) : Prop :=
  limits_ok w ∧
  map_Forall (λ _ e, bounded (w_mtu w) (w_max_session w) e) (w_engines w) ∧
  Z.of_nat (size (w_engines w)) + Z.of_nat (size (w_authorized w)) ≤ w_max_peers w ∧
  map_Forall (λ _ c, in_u32 c) (w_authorized w) ∧
  0 ≤ slack w ∧ w_queued w ≤ w_max_runtime w ∧
  (∀ s, w_telemetry w = Some s → s = dom (w_engines w)).
Definition heap_ok (w : DatagramWire) : Prop :=
  StronglySorted (λ a b, a.1 ≤ b.1) (w_deadlines w) ∧
  (∀ peer d, w_scheduled w !! peer = Some d → (d, peer) ∈ w_deadlines w).
Definition control_ok (w : DatagramWire) : Prop :=
  Z.of_nat (size (w_pending w)) ≤ w_max_peers w ∧ Z.of_nat (size (w_seen w)) ≤ w_max_peers w ∧
  map_Forall (λ _ p, 1 ≤ pr_attempts p ≤ MAX_RETRY_ATTEMPTS) (w_pending w).
Definition wire_ok (w : DatagramWire) : Prop := kcp_ok w ∧ heap_ok w ∧ control_ok w.

(** *** The engines *)

Lemma engine_bounded w peer e : kcp_ok w → w_engines w !! peer = Some e → bounded (w_mtu w) (w_max_session w) e.
Proof. intros (_ & He & _) E. exact (He _ _ E). Qed.
Lemma total_at_least w peer e : kcp_ok w → w_engines w !! peer = Some e → queued_bytes e ≤ total_queued w.
Proof.
  intros (_ & He & _) E. unfold total_queued. rewrite (sum_map_delete _ _ _ _ E).
  assert (0 ≤ sum_map queued_bytes (delete peer (w_engines w))); [|lia]. apply sum_map_Forall_nonneg. apply map_Forall_delete.
  eapply map_Forall_impl; [exact He|]. intros i x. apply queued_nonneg.
Qed.

(** An engine is replaced, and the account settled. *)
Lemma settle w peer e0 e :
  kcp_ok w → w_engines w !! peer = Some e0 → bounded (w_mtu w) (w_max_session w) e →
  w_queued w + queued_bytes e - queued_bytes e0 ≤ w_max_runtime w →
  let w' := reconcile_kcp_bytes (w <| w_engines ::= <[peer := e]> |>) (queued_bytes e0) (queued_bytes e) in
  kcp_ok w' ∧ slack w' = slack w.
Proof.
  intros Hk E0 Hb Hfit. cbv zeta. set (w' := reconcile_kcp_bytes _ _ _).
  pose proof (total_at_least w peer e0 Hk E0) as Hle. pose proof Hk as (Hl & He & Hp & Hc & Hs & Hr & Ht).
  pose proof (queued_nonneg _ _ _ Hb) as H0. unfold limits_ok in Hl.
  assert (total_queued w' = queued_bytes e - queued_bytes e0 + total_queued w) as Htot by (by apply sum_map_update).
  assert (w_queued w' = w_queued w - queued_bytes e0 + queued_bytes e) as Hq.
  { change (saturating_add usize_max (saturating_sub (w_queued w) (queued_bytes e0)) (queued_bytes e) = w_queued w - queued_bytes e0 + queued_bytes e).
    unfold slack in Hs. unfold saturating_add, saturating_sub. lia. }
  assert (slack w' = slack w) as Hsl by (unfold slack; lia). split; [|done].
  split; [done|]. split; [by apply map_Forall_insert_2|]. split.
  { change (Z.of_nat (size (<[peer := e]> (w_engines w))) + Z.of_nat (size (w_authorized w)) ≤ w_max_peers w).
    by rewrite map_size_insert_Some by (by eexists). }
  split; [done|]. split; [lia|]. split; [change (w_queued w' ≤ w_max_runtime w); lia|]. intros s Hs'. rewrite (Ht s Hs').
  change (dom (w_engines w) = dom (<[peer := e]> (w_engines w))). rewrite dom_insert_L. apply elem_of_dom_2 in E0. set_solver.
Qed.
(** An engine is replaced, and nothing is settled. *)
Lemma unsettled w peer e0 e :
  kcp_ok w → w_engines w !! peer = Some e0 → bounded (w_mtu w) (w_max_session w) e → queued_bytes e ≤ queued_bytes e0 →
  let w' := w <| w_engines ::= <[peer := e]> |> in kcp_ok w' ∧ slack w' = slack w + (queued_bytes e0 - queued_bytes e).
Proof.
  intros Hk E0 Hb Hle. cbv zeta. set (w' := w <| w_engines ::= _ |>). pose proof Hk as (Hl & He & Hp & Hc & Hs & Hr & Ht).
  assert (total_queued w' = queued_bytes e - queued_bytes e0 + total_queued w) as Htot by (by apply sum_map_update).
  assert (slack w' = slack w + (queued_bytes e0 - queued_bytes e)) as Hsl.
  { unfold slack. rewrite Htot. change (w_queued w') with (w_queued w). lia. }
  split; [|done]. split; [done|]. split; [by apply map_Forall_insert_2|]. split.
  { change (Z.of_nat (size (<[peer := e]> (w_engines w))) + Z.of_nat (size (w_authorized w)) ≤ w_max_peers w).
    by rewrite map_size_insert_Some by (by eexists). }
  split; [done|]. split; [lia|]. split; [done|]. intros s Hs'. rewrite (Ht s Hs').
  change (dom (w_engines w) = dom (<[peer := e]> (w_engines w))). rewrite dom_insert_L. apply elem_of_dom_2 in E0. set_solver.
Qed.
(** A new engine joins. *)
Lemma enrol w peer e :
  kcp_ok w → w_engines w !! peer = None → bounded (w_mtu w) (w_max_session w) e → queued_bytes e = 0 →
  Z.of_nat (size (w_engines w)) + Z.of_nat (size (w_authorized w)) < w_max_peers w →
  let w' := register w peer <| w_engines ::= <[peer := e]> |> in kcp_ok w' ∧ slack w' = slack w.
Proof.
  intros Hk E0 Hb Hz Hroom. cbv zeta. set (w' := register w peer <| w_engines ::= _ |>). pose proof Hk as (Hl & He & Hp & Hc & Hs & Hr & Ht).
  assert (slack w' = slack w) as Hsl.
  { unfold slack. change (w_queued w') with (w_queued w).
    assert (total_queued w' = queued_bytes e + total_queued w) as -> by (by apply sum_map_insert). lia. }
  split; [|done]. split; [done|]. split; [by apply map_Forall_insert_2|]. split.
  { change (Z.of_nat (size (<[peer := e]> (w_engines w))) + Z.of_nat (size (w_authorized w)) ≤ w_max_peers w).
    rewrite map_size_insert_None by done. lia. }
  split; [done|]. split; [lia|]. split; [done|]. intros s Hs'.
  change (union {[peer]} <$> w_telemetry w = Some s) in Hs'. destruct (w_telemetry w) as [s0|] eqn:E; [|done]. injection Hs' as <-.
  rewrite (Ht s0 eq_refl). change ({[peer]} ∪ dom (w_engines w) = dom (<[peer := e]> (w_engines w))). by rewrite dom_insert_L.
Qed.
Lemma peer_entry_ok w peer r w' :
  kcp_ok w → peer_entry w peer = (r, w') →
  kcp_ok w' ∧ slack w' = slack w ∧ (∃ a, w' = w <| w_authorized := a |>) ∧
  match r with
  | Ok (inl e) => w' = w ∧ w_engines w !! peer = Some e
  | Ok (inr c) => w_engines w' !! peer = None ∧ in_u32 c ∧ Z.of_nat (size (w_engines w')) + Z.of_nat (size (w_authorized w')) < w_max_peers w'
  | Err _ => True
  end.
Proof.
  intros Hk. unfold peer_entry. assert (∃ a, w = w <| w_authorized := a |>) as Hsame by (exists (w_authorized w); by destruct w).
  destruct (w_engines w !! peer) as [e|] eqn:E; [by intros [= <- <-]|].
  destruct (w_authorized w !! peer) as [c|] eqn:Ea; [|by intros [= <- <-]]. pose proof Hk as (Hl & He & Hp & Hc & Hs & Hr & Ht).
  set (w1 := w <| w_authorized ::= delete peer |>).
  assert (Z.of_nat (size (w_engines w1)) + Z.of_nat (size (w_authorized w1)) < w_max_peers w1) as Hroom.
  { change (Z.of_nat (size (w_engines w)) + Z.of_nat (size (delete peer (w_authorized w))) < w_max_peers w).
    assert (size (w_authorized w) ≠ 0%nat) by (intros E0%map_size_empty_inv; by rewrite E0 in Ea).
    rewrite map_size_delete_Some by (by eexists). lia. }
  assert (kcp_ok w1) as Hk1.
  { refine (conj Hl (conj He (conj _ (conj _ (conj Hs (conj Hr Ht)))))); [lia|]. by apply map_Forall_delete. }
  assert (w_engines w1 !! peer = None) as E1 by done. assert (in_u32 c) as Hc1 by (by eapply Hc).
  case_decide; intros [= <- <-]; (split; [done|]); (split; [done|]); (split; [by exists (delete peer (w_authorized w))|]); done.
Qed.

(** *** Receiving *)

(** The loop empties the engine. *)
Lemma recv_loop_spec mtu q fuel : ∀ e records,
  bounded mtu q e → (held_segments e < fuel)%nat →
  ∃ rest e', recv_loop fuel e records = (Ok (records ++ rest), e') ∧ bounded mtu q e' ∧ queued_bytes e' = queued_bytes e ∧
    engine_recv e' = (Ok None, e').
Proof.
  induction fuel as [|fuel IH]; intros e records Hb Hfuel; [lia|]. cbn [recv_loop]. pose proof (po_failed _ _ (bd_party _ _ _ _ Hb)) as Hf.
  destruct (engine_recv_spec e Hf) as [(data & e1 & E1 & Hl)|E1].
  - rewrite E1. assert (bounded mtu q e1) as Hb1 by (eapply bounded_call; [done|by eapply hostile_recv]).
    destruct (IH e1 (records ++ [data]) Hb1 ltac:(lia)) as (rest & e' & E' & Hb' & Hq & Hn). exists (data :: rest), e'.
    split; [by rewrite E', <- (assoc_L (++))|]. split; [done|]. split; [|done]. rewrite Hq. by eapply engine_recv_queued.
  - exists [], e. by rewrite E1, app_nil_r.
Qed.
Lemma deliver_spec w peer e before :
  bounded (w_mtu w) (w_max_session w) e → ∃ records e',
  deliver w peer e before = (Ok records, schedule_update (reconcile_kcp_bytes (w <| w_engines ::= <[peer := e']> |>) before (queued_bytes e')) peer (next_update_ms e')) ∧
  bounded (w_mtu w) (w_max_session w) e' ∧ queued_bytes e' = queued_bytes e ∧ engine_recv e' = (Ok None, e').
Proof.
  intros Hb. unfold deliver, recv_fuel. destruct (recv_loop_spec _ _ _ e [] Hb (Nat.lt_succ_diag_r _)) as (rest & e' & -> & H). by exists rest, e'.
Qed.

Lemma queued_range w : kcp_ok w → 0 ≤ w_queued w ≤ usize_max.
Proof.
  intros (Hl & He & _ & _ & Hs & Hr & _). unfold limits_ok in Hl. assert (0 ≤ total_queued w); [|unfold slack in Hs; lia].
  apply sum_map_Forall_nonneg. eapply map_Forall_impl; [exact He|]. intros i x. apply queued_nonneg.
Qed.
Lemma reconcile_nothing w : kcp_ok w → reconcile_kcp_bytes w 0 0 = w.
Proof.
  intros Hk%queued_range. unfold reconcile_kcp_bytes.
  assert (saturating_add usize_max (saturating_sub (w_queued w) 0) 0 = w_queued w) as E by (unfold saturating_add, saturating_sub; lia).
  destruct w. cbn in *. by rewrite E.
Qed.

Definition foreign {A} (r : Result A) : Prop := ∃ c d, r = Err (map_kcp_error (Kcp.ConvInconsistent c d)).

Lemma receive_ok w now peer p r w' :
  kcp_ok w → receive w now peer p = (r, w') → kcp_ok w' ∧ slack w ≤ slack w' ∧ (slack w' = slack w ∨ foreign r).
Proof.
  intros Hk. unfold receive. case_decide; [intros [= <- <-]; split; [done|]; split; [lia|by left]|].
  destruct (peer_entry w peer) as [r1 w1] eqn:E1. apply peer_entry_ok in E1 as (Hk1 & Hs1 & _ & H1); [|done]. rewrite <- Hs1. clear Hk Hs1.
  assert (∀ r0, (r0, w1) = (r, w') → kcp_ok w' ∧ slack w1 ≤ slack w' ∧ (slack w' = slack w1 ∨ foreign r)) as Hquit.
  { intros r0 [= _ <-]. split; [done|]. split; [lia|by left]. }
  destruct r1 as [[e|c]|err]; [| |by apply Hquit].
  - destruct H1 as [-> E]. pose proof (engine_bounded w peer e Hk1 E) as Hb. cbv zeta.
    destruct (engine_input e p now) as [r2 e2] eqn:Ei. pose proof (engine_input_queued _ _ _ _ _ _ _ Hb Ei) as Hq.
    assert (bounded (w_mtu w) (w_max_session w) e2) as Hb2 by (eapply bounded_call; [done|by eapply hostile_input]). destruct r2 as [u|err].
    + destruct (deliver_spec w peer e2 (queued_bytes e) Hb2) as (records & e3 & -> & Hb3 & Hq3 & _). intros [<- <-]%pair_eq.
      destruct (settle w peer e e3 Hk1 E Hb3) as [Hk' Hs']; [destruct Hk1 as (_ & _ & _ & _ & _ & Hr & _); lia|].
      split; [exact Hk'|]. change (slack w ≤ slack (reconcile_kcp_bytes (w <| w_engines ::= <[peer := e3]> |>) (queued_bytes e) (queued_bytes e3)) ∧
        (slack (reconcile_kcp_bytes (w <| w_engines ::= <[peer := e3]> |>) (queued_bytes e) (queued_bytes e3)) = slack w ∨ foreign (Ok records : Result (list (list byte))))).
      rewrite Hs'. split; [lia|by left].
    + intros [<- <-]%pair_eq. destruct (unsettled w peer e e2 Hk1 E Hb2 Hq) as [Hk' Hs']. split; [exact Hk'|]. rewrite Hs'. split; [lia|].
      destruct (engine_input_error e p now err e2) as [-> |Hf]; [apply Hb|done|left; lia|right].
      destruct Hf as (c & d & ->). by exists c, d.
  - destruct H1 as (E & Hc & Hroom). destruct (new_with_limits c _ _) as [e|err] eqn:En; [|by apply Hquit].
    assert (bounded (w_mtu w1) (w_max_session w1) e) as Hb by (eapply new_bounded; [done| |done]; apply Hk1).
    assert (queued_bytes e = 0) as Hz by (apply new_with_limits_Ok in En as (_ & _ & _ & _ & _ & _ & Ei); unfold queued_bytes; by rewrite Ei).
    destruct (engine_input e p now) as [r2 e2] eqn:Ei. pose proof (engine_input_queued _ _ _ _ _ _ _ Hb Ei) as Hq.
    assert (bounded (w_mtu w1) (w_max_session w1) e2) as Hb2 by (eapply bounded_call; [done|by eapply hostile_input]).
    pose proof (queued_nonneg _ _ _ Hb2) as H0. destruct r2 as [u|err]; [|by apply Hquit].
    destruct (deliver_spec (register w1 peer) peer e2 (queued_bytes e2) Hb2) as (records & e3 & -> & Hb3 & Hq3 & _). intros [<- <-]%pair_eq.
    destruct (enrol w1 peer e3 Hk1 E Hb3 ltac:(lia) Hroom) as [Hk' Hs']. set (w2 := register w1 peer <| w_engines ::= <[peer := e3]> |>) in *.
    assert (queued_bytes e2 = 0 ∧ queued_bytes e3 = 0) as [Z2 Z3] by lia. rewrite Z2, Z3.
    change (register w1 peer <| w_engines ::= <[peer := e3]> |>) with w2. rewrite (reconcile_nothing w2 Hk'). split; [exact Hk'|].
    change (slack w1 ≤ slack w2 ∧ (slack w2 = slack w1 ∨ foreign (Ok records : Result (list (list byte))))). split; [lia|left; lia].
Qed.

(** One packet completes at most as many messages as the engine holds segments. *)
Lemma recv_loop_length mtu q fuel : ∀ e records l e',
  bounded mtu q e → recv_loop fuel e records = (Ok l, e') → (length l ≤ length records + held_segments e)%nat.
Proof.
  induction fuel as [|fuel IH]; intros e records l e' Hb; cbn [recv_loop]; [intros [= <- _]; lia|].
  destruct (engine_recv_spec e (po_failed _ _ (bd_party _ _ _ _ Hb))) as [(data & e1 & E1 & Hl)|E1]; rewrite E1; [|intros [= <- _]; lia].
  intros E. apply IH in E; [|eapply bounded_call; [done|by eapply hostile_recv]]. rewrite length_app in E. cbn in E. lia.
Qed.
Lemma held_bound mtu q e : bounded mtu q e → (held_segments e ≤ 256)%nat.
Proof.
  intros [_ _ _ _ [Hw Er] _]. destruct (window_bounded _ Hw) as [H1 H2]. rewrite Er in *. unfold held_segments, len, RECEIVE_WINDOW in *. lia.
Qed.
Lemma receive_length w now peer p records w' : kcp_ok w → receive w now peer p = (Ok records, w') → (length records ≤ 256)%nat.
Proof.
  intros Hk. unfold receive. case_decide; [intros [= <- _]; cbn; lia|].
  destruct (peer_entry w peer) as [r1 w1] eqn:E1. apply peer_entry_ok in E1 as (Hk1 & _ & _ & H1); [|done].
  assert (∀ wx peer e before mtu q, bounded mtu q e → deliver wx peer e before = (Ok records, w') → (length records ≤ 256)%nat) as Hd.
  { intros wx pe e before mtu q Hb. unfold deliver. destruct (recv_loop (recv_fuel e) e []) as [[l|err] e'] eqn:El; [|done].
    intros E. injection E as -> _. pose proof (recv_loop_length mtu q _ e [] records e' Hb El). pose proof (held_bound mtu q e Hb). cbn in *. lia. }
  destruct r1 as [[e|c]|err]; [| |done].
  - destruct H1 as [-> E]. pose proof (engine_bounded w peer e Hk1 E) as Hb. cbv zeta. destruct (engine_input e p now) as [[u|err] e2] eqn:Ei; [|done].
    apply (Hd _ _ _ _ (w_mtu w) (w_max_session w)). eapply bounded_call; [done|by eapply hostile_input].
  - destruct H1 as (_ & Hc & _). destruct (new_with_limits c _ _) as [e|err] eqn:En; [|done]. destruct (engine_input e p now) as [[u|err] e2] eqn:Ei; [|done].
    apply (Hd _ _ _ _ (w_mtu w1) (w_max_session w1)). eapply bounded_call; [|by eapply hostile_input]. eapply new_bounded; [done| |done]. apply Hk1.
Qed.

(** *** Sending *)

Definition fixed (w : DatagramWire) : Transport.t * Z * Z * Z * Z := (w_kind w, w_mtu w, w_max_peers w, w_max_session w, w_max_runtime w).
(** What belongs to the timers and to UDP. *)
Definition aside (w : DatagramWire) : list (Z * SocketAddr) * gmap SocketAddr Z * gmap SocketAddr PendingRecord * gmap SocketAddr SeenRecord :=
  (w_deadlines w, w_scheduled w, w_pending w, w_seen w).
Lemma aside_heap w w' : aside w' = aside w → heap_ok w → heap_ok w'.
Proof. unfold aside, heap_ok. by intros [= -> -> _ _]. Qed.
Lemma aside_control w w' : aside w' = aside w → fixed w' = fixed w → control_ok w → control_ok w'.
Proof. unfold aside, fixed, control_ok. by intros [= _ _ -> ->] [= _ _ -> _ _]. Qed.

Lemma engine_for_ok w peer r w' :
  kcp_ok w → engine_for w peer = (r, w') →
  kcp_ok w' ∧ slack w' = slack w ∧ w_queued w' = w_queued w ∧ fixed w' = fixed w ∧ aside w' = aside w ∧
  match r with Ok e => w_engines w' !! peer = Some e | Err _ => True end.
Proof.
  intros Hk. unfold engine_for. destruct (peer_entry w peer) as [r1 w1] eqn:E1.
  apply peer_entry_ok in E1 as (Hk1 & Hs1 & (a & Ew) & H1); [|done].
  assert (w_queued w1 = w_queued w ∧ fixed w1 = fixed w ∧ aside w1 = aside w) as (Eq & Ef & Ed) by (by rewrite Ew). clear Ew.
  destruct r1 as [[e|c]|err]; [| |by intros [<- <-]%pair_eq].
  - destruct H1 as [-> E]. by intros [<- <-]%pair_eq.
  - destruct H1 as (E & Hc & Hroom). destruct (new_with_limits c _ _) as [e|err] eqn:En; [|by intros [<- <-]%pair_eq].
    assert (bounded (w_mtu w1) (w_max_session w1) e) as Hb by (eapply new_bounded; [done| |done]; apply Hk1).
    assert (queued_bytes e = 0) as Hz by (apply new_with_limits_Ok in En as (_ & _ & _ & _ & _ & _ & Ei); unfold queued_bytes; by rewrite Ei).
    intros [<- <-]%pair_eq. destruct (enrol w1 peer e Hk1 E Hb Hz Hroom) as [Hk' Hs']. split; [exact Hk'|]. split; [by rewrite Hs'|].
    split; [exact Eq|]. split; [exact Ef|]. split; [exact Ed|]. apply lookup_insert_eq.
Qed.

Lemma data_limit_le maximum reserve : 0 ≤ maximum → 0 ≤ reserve → data_limit maximum reserve ≤ maximum.
Proof. intros Hm Hr. unfold data_limit, saturating_sub. assert (0 ≤ maximum / 16) by (apply Z.div_pos; lia). lia. Qed.

(** Only what fits is queued, and it is charged exactly. *)
Lemma queue_kcp_ok w peer bytes control :
  kcp_ok w → bytes ≠ [] → ∃ r w', queue_kcp w peer bytes control = Done (r, w') ∧
  kcp_ok w' ∧ slack w' = slack w ∧ fixed w' = fixed w ∧ aside w' = aside w ∧
  match r with Ok _ => ∃ e, w_engines w' !! peer = Some e | Err _ => w_queued w' = w_queued w end.
Proof.
  intros Hk Hne. unfold queue_kcp. cbv zeta. destruct (engine_for w peer) as [r1 w1] eqn:E1.
  apply engine_for_ok in E1 as (Hk1 & Hs1 & Eq & Ef & Ed & H1); [|done]. destruct r1 as [e|err]; [|by eexists _, _].
  destruct (decide _) as [|Hfit]; [by eexists _, _|]. pose proof (engine_bounded w1 peer e Hk1 H1) as Hb.
  destruct (engine_send e bytes) as [[r2 e2]|] eqn:Es; [|by eapply engine_send_total in Es].
  assert (bounded (w_mtu w1) (w_max_session w1) e2) as Hb2 by (eapply bounded_call; [done|by eapply hostile_send]).
  apply (engine_send_queued _ _ _ _ _ _ Hb Hne) in Es. cbn [mbind outcome_bind]. destruct r2 as [u|err].
  - rewrite decide_False by (unfold saturating_sub; pose proof (len_nonneg bytes); lia). eexists _, _. split; [done|].
    destruct (settle w1 peer e e2 Hk1 H1 Hb2) as [Hk' Hs'].
    { assert (w_queued w + queued_bytes_for e (len bytes) ≤ w_max_runtime w); [|injection Ef; intros; lia].
      pose proof (proj1 Hk) as (_ & _ & Hr & _). pose proof (queued_nonneg _ _ _ Hb).
      assert ((if control then w_max_runtime w else data_limit (w_max_runtime w) (64 * 1024)) ≤ w_max_runtime w).
      { destruct control; [lia|]. apply data_limit_le; lia. }
      unfold saturating_add in Hfit. lia. }
    split; [exact Hk'|]. split; [by rewrite <- Hs1, <- Hs'|]. split; [exact Ef|]. split; [exact Ed|]. exists e2. apply lookup_insert_eq.
  - eexists _, _. split; [done|]. destruct (unsettled w1 peer e e2 Hk1 H1 Hb2 ltac:(lia)) as [Hk' Hs'].
    split; [exact Hk'|]. split; [rewrite Hs'; lia|]. split; [exact Ef|]. split; [exact Ed|exact Eq].
Qed.

(** *** The heap *)

Lemma elem_of_heap_push e heap x : x ∈ heap_push e heap ↔ x = e ∨ x ∈ heap.
Proof. induction heap as [|y heap IH]; cbn [heap_push]; [set_solver|]. destruct (entry_le e y); [set_solver|]. rewrite !elem_of_cons, IH. set_solver. Qed.
Lemma length_heap_push e heap : length (heap_push e heap) = S (length heap).
Proof. induction heap as [|y heap IH]; cbn [heap_push]; [done|]. destruct (entry_le e y); cbn; [done|]. by rewrite IH. Qed.
Lemma entry_le_spec a b : if entry_le a b then a.1 ≤ b.1 else b.1 ≤ a.1.
Proof. unfold entry_le. case_decide as E; [rewrite E; by destruct (addr_le _ _)|]. case_bool_decide; lia. Qed.
Lemma heap_push_sorted e heap :
  StronglySorted (λ a b : Z * SocketAddr, a.1 ≤ b.1) heap → StronglySorted (λ a b, a.1 ≤ b.1) (heap_push e heap).
Proof.
  induction 1 as [|y heap Hs IH Hy]; cbn [heap_push]; [by repeat constructor|]. pose proof (entry_le_spec e y) as Hle. destruct (entry_le e y).
  - constructor; [by constructor|]. constructor; [done|]. eapply Forall_impl; [exact Hy|]. cbn. intros x. lia.
  - constructor; [done|]. apply Forall_forall. intros x [-> | Hx]%elem_of_heap_push; [done|]. rewrite Forall_forall in Hy. by apply Hy.
Qed.

(** Every peer but [peer] has its entry. *)
Definition heap_but (peer : SocketAddr) (w : DatagramWire) : Prop :=
  StronglySorted (λ a b, a.1 ≤ b.1) (w_deadlines w) ∧
  (∀ peer' d, peer' ≠ peer → w_scheduled w !! peer' = Some d → (d, peer') ∈ w_deadlines w).
Lemma schedule_heap w peer d : heap_but peer w → heap_ok (schedule_update w peer d).
Proof.
  intros [Hs Hh]. split; [by apply heap_push_sorted|]. intros peer' d' E.
  change (<[peer := d]> (w_scheduled w) !! peer' = Some d') in E. apply elem_of_heap_push. destruct (decide (peer' = peer)) as [-> |Hne].
  - rewrite lookup_insert_eq in E. left. congruence.
  - rewrite lookup_insert_ne in E by done. right. by apply Hh.
Qed.
Lemma heap_weaken w peer : heap_ok w → heap_but peer w.
Proof. intros [Hs Hh]. split; [done|]. intros peer' d _. apply Hh. Qed.
Lemma heap_pop w deadline peer rest :
  heap_ok w → w_deadlines w = (deadline, peer) :: rest → heap_but peer (w <| w_deadlines := rest |>) ∧
  (w_scheduled w !! peer ≠ Some deadline → heap_ok (w <| w_deadlines := rest |>)).
Proof.
  intros [Hs Hh] E. rewrite E in Hs. apply StronglySorted_inv in Hs as [Hs _].
  assert (∀ peer' d, (d, peer') ≠ (deadline, peer) → w_scheduled w !! peer' = Some d → (d, peer') ∈ rest) as Hin.
  { intros peer' d Hne Hd%Hh. rewrite E in Hd. apply elem_of_cons in Hd as [Hd|]; [|done]. done. }
  split; (split; [exact Hs|]).
  - intros peer' d Hne. apply Hin. congruence.
  - intros peer' d Hd. apply Hin; [|done]. intros [= -> ->]. done.
Qed.
Lemma heap_forget w peer : heap_but peer w → heap_ok (w <| w_scheduled ::= delete peer |>).
Proof.
  intros [Hs Hh]. split; [exact Hs|]. intros peer' d E. change (delete peer (w_scheduled w) !! peer' = Some d) in E.
  apply lookup_delete_Some in E as [Hne E]. apply Hh; [done|exact E].
Qed.

(** *** Flushing *)

Definition nothing_due (now_ms : Z) (w : DatagramWire) : Prop := ∀ peer d, w_scheduled w !! peer = Some d → now_ms < d.

Lemma flush_loop_ok now fuel : ∀ updated w sent,
  kcp_ok w → heap_ok w → (Z.to_nat (MAX_KCP_UPDATES_PER_FLUSH - updated) + length (w_deadlines w) < fuel)%nat →
  ∃ updated' sent' w', flush_loop fuel now updated w sent = Done (updated', sent', w') ∧
    kcp_ok w' ∧ heap_ok w' ∧ slack w' = slack w ∧ fixed w' = fixed w ∧ w_queued w' = w_queued w ∧
    w_pending w' = w_pending w ∧ w_seen w' = w_seen w ∧ dom (w_engines w') = dom (w_engines w) ∧ updated ≤ updated' ∧
    (updated ≤ MAX_KCP_UPDATES_PER_FLUSH → updated' ≤ MAX_KCP_UPDATES_PER_FLUSH) ∧
    (MAX_KCP_UPDATES_PER_FLUSH ≤ updated' ∨ nothing_due now w').
Proof.
  induction fuel as [|fuel IH]; intros updated w sent Hk Hh Hfuel; [lia|]. cbn [flush_loop].
  case_decide as Hu; [eexists _, _, _; split; [done|]; split_and!; try done; by left|].
  destruct (w_deadlines w) as [|[deadline peer] rest] eqn:Ed.
  { eexists _, _, _. split; [done|]. split_and!; try done. right. intros peer d Hd%Hh. rewrite Ed in Hd. by apply elem_of_nil in Hd. }
  case_decide as Hdue.
  { eexists _, _, _. split; [done|]. split_and!; try done. right. intros peer' d Hd%Hh. destruct Hh as [Hs _]. rewrite Ed in Hs, Hd.
    apply StronglySorted_inv in Hs as [_ Hs]. rewrite Forall_forall in Hs. apply elem_of_cons in Hd as [[= -> ->]|Hd]; [done|].
    specialize (Hs _ Hd). cbn in Hs. lia. }
  cbv zeta. destruct (heap_pop w deadline peer rest Hh Ed) as [Hbut Hpop]. set (w1 := w <| w_deadlines := rest |>) in *. cbn [length] in Hfuel.
  change (w_scheduled w1) with (w_scheduled w). change (w_engines w1) with (w_engines w).
  destruct (decide (w_scheduled w !! peer ≠ Some deadline)) as [Hst|Hcur].
  { destruct (IH updated w1 sent) as (u' & s' & w' & E & H); [exact Hk|by apply Hpop|cbn; lia|]. by exists u', s', w'. }
  destruct (w_engines w !! peer) as [e|] eqn:Ee.
  - pose proof (engine_bounded w peer e Hk Ee) as Hb. destruct (engine_update e now) as [[packets e']|] eqn:Eu.
    2:{ by eapply engine_update_total in Eu; [|apply Hb]. }
    cbn [mbind outcome_bind]. assert (bounded (w_mtu w) (w_max_session w) e') as Hb' by (eapply bounded_call; [done|by eapply hostile_update]).
    pose proof (engine_update_queued e now packets e' (po_failed _ _ (bd_party _ _ _ _ Hb)) Eu) as Hq.
    destruct (unsettled w1 peer e e' Hk Ee Hb' ltac:(lia)) as [Hk2 Hs2]. set (w2 := w1 <| w_engines ::= <[peer := e']> |>) in *.
    set (w3 := schedule_update w2 peer (next_update_ms e')).
    destruct (IH (updated + 1) w3 (sent ++ ((λ packet, (peer, packet)) <$> packets))) as (u' & s' & w' & E & A1 & A2 & A3 & A4 & A5 & A6 & A7 & A8 & A9 & A10 & A11).
    { exact Hk2. } { by apply schedule_heap. }
    { change (w_deadlines w3) with (heap_push (next_update_ms e', peer) rest). rewrite length_heap_push. lia. }
    exists u', s', w'. split; [done|]. split_and!; try done; [| |lia|intros _; apply A10; lia].
    + rewrite A3. change (slack w3) with (slack w2). rewrite Hs2. change (slack w1) with (slack w). lia.
    + rewrite A8. change (dom (<[peer := e']> (w_engines w)) = dom (w_engines w)). rewrite dom_insert_L. apply elem_of_dom_2 in Ee. set_solver.
  - destruct (IH updated (w1 <| w_scheduled ::= delete peer |>) sent) as (u' & s' & w' & E & H); [exact Hk|by apply heap_forget|cbn; lia|]. by exists u', s', w'.
Qed.

Lemma receive_frame w now peer p r w' :
  receive w now peer p = (r, w') → fixed w' = fixed w ∧ w_pending w' = w_pending w ∧ w_seen w' = w_seen w ∧ (heap_ok w → heap_ok w').
Proof.
  assert (∀ w1 e before r w', aside w1 = aside w → fixed w1 = fixed w → deliver w1 peer e before = (r, w') →
    fixed w' = fixed w ∧ w_pending w' = w_pending w ∧ w_seen w' = w_seen w ∧ (heap_ok w → heap_ok w')) as Hdel.
  { intros w1 e before r1 w2 Ea Ef. unfold deliver. destruct (recv_loop _ _ _) as [[records|err] e1]; intros [<- <-]%pair_eq.
    - split; [exact Ef|]. split; [by injection Ea|]. split; [by injection Ea|]. intros Hh. apply schedule_heap, heap_weaken. by apply (aside_heap w).
    - split; [exact Ef|]. split; [by injection Ea|]. split; [by injection Ea|]. by apply aside_heap. }
  assert (∀ w1, aside w1 = aside w → fixed w1 = fixed w → fixed w1 = fixed w ∧ w_pending w1 = w_pending w ∧ w_seen w1 = w_seen w ∧ (heap_ok w → heap_ok w1)) as Hq.
  { intros w1 Ea Ef. split; [done|]. split; [by injection Ea|]. split; [by injection Ea|]. by apply aside_heap. }
  unfold receive. case_decide; [by intros [<- <-]%pair_eq|].
  assert (aside (peer_entry w peer).2 = aside w ∧ fixed (peer_entry w peer).2 = fixed w) as [Ea Ef].
  { unfold peer_entry. destruct (w_engines w !! peer); [done|]. by destruct (w_authorized w !! peer). }
  destruct (peer_entry w peer) as [[[e|c]|err] w1]; cbn [snd] in *; [| |intros [_ <-]%pair_eq; by apply Hq].
  - cbv zeta. destruct (engine_input e p now) as [[u|err] e2]; [by apply Hdel|]. intros [_ <-]%pair_eq. by apply Hq.
  - destruct (new_with_limits _ _ _) as [e|err]; [|intros [_ <-]%pair_eq; by apply Hq].
    destruct (engine_input e p now) as [[u|err] e2]; [by apply Hdel|]. intros [_ <-]%pair_eq. by apply Hq.
Qed.

(** *** The other operations *)

Lemma size_delete_le {A} (m : gmap SocketAddr A) i : Z.of_nat (size (delete i m)) ≤ Z.of_nat (size m).
Proof. rewrite map_size_delete. case_match; cbn; lia. Qed.
Lemma size_insert_room {A} (m : gmap SocketAddr A) i x n :
  Z.of_nat (size m) ≤ n → Z.of_nat (size m) < n ∨ is_Some (m !! i) → Z.of_nat (size (<[i := x]> m)) ≤ n.
Proof. intros Hm Hr. rewrite map_size_insert. case_match eqn:E; cbn; [lia|]. destruct Hr as [|[y Hy]]; [lia|congruence]. Qed.

Lemma remove_engine_ok w peer :
  kcp_ok w → let w' := remove_engine w peer in
  w_engines w' = delete peer (w_engines w) ∧ slack w' = slack w ∧ w_queued w' ≤ w_queued w ∧ fixed w' = fixed w ∧
  w_authorized w' = w_authorized w ∧ w_telemetry w' = w_telemetry w ∧ w_deadlines w' = w_deadlines w ∧
  w_scheduled w' = w_scheduled w ∧ w_pending w' = w_pending w ∧ w_seen w' = w_seen w.
Proof.
  intros Hk. cbv zeta. unfold remove_engine. destruct (w_engines w !! peer) as [e|] eqn:E; [|by rewrite delete_id].
  pose proof (queued_nonneg _ _ _ (engine_bounded w peer e Hk E)) as H0. pose proof (total_at_least w peer e Hk E) as Hle.
  pose proof Hk as (_ & _ & _ & _ & Hsl & _).
  assert (saturating_sub (w_queued w) (queued_bytes e) = w_queued w - queued_bytes e) as Eq by (unfold slack, saturating_sub in *; lia).
  split; [done|]. split; [|split; [|done]].
  - unfold slack in *. change (saturating_sub (w_queued w) (queued_bytes e) - sum_map queued_bytes (delete peer (w_engines w)) = w_queued w - total_queued w).
    rewrite Eq. unfold total_queued. rewrite (sum_map_delete queued_bytes _ _ _ E). lia.
  - change (saturating_sub (w_queued w) (queued_bytes e) ≤ w_queued w). lia.
Qed.
Lemma remove_peer_ok w peer : wire_ok w → wire_ok (remove_peer w peer) ∧ slack (remove_peer w peer) = slack w.
Proof.
  intros (Hk & [Hso Hh] & Hp & Hs & Ha). destruct (remove_engine_ok w peer Hk) as (E1 & E2 & E3 & E4 & E5 & E6 & E7 & E8 & E9 & E10).
  unfold remove_peer. set (w1 := remove_engine w peer) in *. injection E4 as F1 F2 F3 F4 F5. split; [|exact E2].
  pose proof Hk as (Hl & He & Hn & Hc & Hsl & Hr & Ht). split; [|split].
  - unfold kcp_ok. change (limits_ok w1 ∧ map_Forall (λ _ e, bounded (w_mtu w1) (w_max_session w1) e) (w_engines w1) ∧
      Z.of_nat (size (w_engines w1)) + Z.of_nat (size (delete peer (w_authorized w1))) ≤ w_max_peers w1 ∧
      map_Forall (λ _ c, in_u32 c) (delete peer (w_authorized w1)) ∧ 0 ≤ slack w1 ∧ w_queued w1 ≤ w_max_runtime w1 ∧
      (∀ s, (λ s, s ∖ {[peer]}) <$> w_telemetry w1 = Some s → s = dom (w_engines w1))).
    unfold limits_ok. rewrite E1, E5, E6, F2, F3, F4, F5. split; [exact Hl|]. split; [by apply map_Forall_delete|].
    pose proof (size_delete_le (w_engines w) peer). pose proof (size_delete_le (w_authorized w) peer).
    split; [lia|]. split; [by apply map_Forall_delete|]. split; [lia|]. split; [lia|]. intros s Hs'. destruct (w_telemetry w) as [s0|]; [|done].
    injection Hs' as <-. by rewrite (Ht s0 eq_refl), dom_delete_L.
  - unfold heap_ok. change (StronglySorted (λ a b, a.1 ≤ b.1) (w_deadlines w1) ∧
      (∀ peer' d, delete peer (w_scheduled w1) !! peer' = Some d → (d, peer') ∈ w_deadlines w1)). rewrite E7, E8. split; [done|].
    intros peer' d [_ Hd]%lookup_delete_Some. by apply Hh.
  - unfold control_ok. change (Z.of_nat (size (delete peer (w_pending w1))) ≤ w_max_peers w1 ∧ Z.of_nat (size (delete peer (w_seen w1))) ≤ w_max_peers w1 ∧
      map_Forall (λ _ p, 1 ≤ pr_attempts p ≤ MAX_RETRY_ATTEMPTS) (delete peer (w_pending w1))). rewrite E9, E10, F3.
    pose proof (size_delete_le (w_pending w) peer). pose proof (size_delete_le (w_seen w) peer). split; [lia|]. split; [lia|]. by apply map_Forall_delete.
Qed.
Lemma authorize_peer_ok w peer conv r w' :
  wire_ok w → in_u32 conv → authorize_peer w peer conv = (r, w') → wire_ok w' ∧ slack w' = slack w.
Proof.
  intros Hw Hc. unfold authorize_peer. case_decide; [by intros [<- <-]%pair_eq|].
  destruct (w_engines w !! peer); [by intros [<- <-]%pair_eq|]. destruct (w_authorized w !! peer) eqn:Ea; [by intros [<- <-]%pair_eq|].
  case_decide; [by intros [<- <-]%pair_eq|]. intros [<- <-]%pair_eq. split; [|done]. destruct Hw as ((Hl & He & Hn & Hcs & Hrest) & Hh & Hp).
  split; [|split; [exact Hh|exact Hp]]. refine (conj Hl (conj He (conj _ (conj _ Hrest)))).
  - change (Z.of_nat (size (w_engines w)) + Z.of_nat (size (<[peer := conv]> (w_authorized w))) ≤ w_max_peers w). rewrite map_size_insert_None by done. lia.
  - by apply map_Forall_insert_2.
Qed.
Lemma remember_response_ok w peer bytes : wire_ok w → wire_ok (remember_response w peer bytes) ∧ slack (remember_response w peer bytes) = slack w.
Proof.
  intros Hw. unfold remember_response. destruct (w_active_input w) as [[p request]|]; [|done]. case_decide as Hr; [|done]. destruct Hr as [_ Hr]. split; [|done].
  destruct Hw as (Hk & Hh & Hp & Hs & Ha). split; [exact Hk|]. split; [exact Hh|]. split; [exact Hp|]. split; [|exact Ha]. by apply size_insert_room.
Qed.
Lemma begin_input_ok w peer bytes : wire_ok w → wire_ok (begin_input w peer bytes).2 ∧ slack (begin_input w peer bytes).2 = slack w.
Proof.
  intros Hw. unfold begin_input. case_decide; [done|]. set (w1 := if decide (_ ∨ _) then _ else w).
  assert (wire_ok w1 ∧ slack w1 = slack w) as [Hw1 Es].
  { unfold w1. case_decide; [|done]. split; [|done]. destruct Hw as (Hk & Hh & Hp & Hs & Ha). split; [exact Hk|]. split; [exact Hh|].
    split; [exact Hp|]. split; [|exact Ha]. by apply size_insert_room. }
  destruct (w_seen w !! peer); [case_decide; [done|]|]; split; first [exact Hw1|exact Es].
Qed.
Lemma end_input_ok w success : wire_ok w → wire_ok (end_input w success) ∧ slack (end_input w success) = slack w.
Proof.
  intros Hw. unfold end_input. set (w1 := match success with true => _ | false => _ end).
  assert (wire_ok w1 ∧ slack w1 = slack w) as [H1 E1]; [|split; [exact H1|exact E1]].
  unfold w1. destruct success; [|done]. destruct (w_active_pending w) as [[peer old]|]; [|done]. case_decide; [|done]. split; [|done].
  destruct Hw as (Hk & Hh & Hp & Hs & Ha). split; [exact Hk|]. split; [exact Hh|]. split; [|split; [exact Hs|by apply map_Forall_delete]].
  change (Z.of_nat (size (delete peer (w_pending w))) ≤ w_max_peers w). pose proof (size_delete_le (w_pending w) peer). lia.
Qed.
Lemma retry_one_ok now w peer : wire_ok w → wire_ok (retry_one now w peer).1.2 ∧ slack (retry_one now w peer).1.2 = slack w.
Proof.
  intros Hw. unfold retry_one. destruct (w_pending w !! peer) as [pd|] eqn:E; [|done]. case_decide; [done|]. cbn [fst snd].
  pose proof Hw as (Hk & Hh & Hp & Hs & Ha). pose proof (Ha _ _ E) as Hn. unfold MAX_RETRY_ATTEMPTS in *. case_decide; (split; [|done]); (split; [exact Hk|]); (split; [exact Hh|]).
  - split; [|split; [exact Hs|by apply map_Forall_delete]]. change (Z.of_nat (size (delete peer (w_pending w))) ≤ w_max_peers w).
    pose proof (size_delete_le (w_pending w) peer). lia.
  - split; [|split; [exact Hs|]]; [apply size_insert_room; [done|right; by eexists]|]. apply map_Forall_insert_2; [unfold MAX_RETRY_ATTEMPTS; cbn; lia|done].
Qed.
Lemma retry_ok now w : wire_ok w → wire_ok (retry w now).2 ∧ slack (retry w now).2 = slack w.
Proof.
  intros Hw. unfold retry. case_decide; [done|]. generalize (map_to_list (w_pending w)).*1. intros l. revert w H Hw.
  induction l as [|p l IH]; intros w H Hw; cbn [retry_loop]; [done|]. pose proof (retry_one_ok now w p Hw) as [H1 E1].
  assert (w_kind (retry_one now w p).1.2 = w_kind w) as Ek by (unfold retry_one; destruct (w_pending w !! p); [|done]; case_decide; [done|]; by case_decide).
  destruct (retry_one now w p) as [[g w1] ps]. cbn [fst snd] in *. destruct (IH w1 ltac:(congruence) H1) as [H2 E2].
  destruct (retry_loop now w1 l) as [[ex rest] w2]. cbn [snd] in *. split; [done|congruence].
Qed.

(** ** Any use of the wire *)

(** One call; the flag tells whether it was a packet of another conversation. *)
Inductive wire_step (w : DatagramWire) : bool → DatagramWire → Prop :=
| step_authorize peer conv r w' : in_u32 conv → authorize_peer w peer conv = (r, w') → wire_step w false w'
| step_revoke peer : wire_step w false (revoke_authorization w peer)
| step_remove peer : wire_step w false (remove_peer w peer)
| step_receive now_ms peer p r w' b : receive w now_ms peer p = (r, w') → (b = false → ~ foreign r) → wire_step w b w'
| step_send now_ms io peer record max r w' : wire_send w now_ms io peer record max = Done (r, w') → wire_step w false w'
| step_reliable now now_ms io peer record max r w' : send_reliable w now now_ms io peer record max = Done (r, w') → wire_step w false w'
| step_response now_ms io peer record max r w' : send_response w now_ms io peer record max = Done (r, w') → wire_step w false w'
| step_begin peer bytes : wire_step w false (begin_input w peer bytes).2
| step_end success : wire_step w false (end_input w success)
| step_retry now : wire_step w false (retry w now).2
| step_flush now_ms n sent w' : wire_flush w now_ms = Done (n, sent, w') → wire_step w false w'.

Lemma encode_record_nonempty r max b : encode_record r max = Ok b → b ≠ [].
Proof. intros (_ & _ & ->)%encode_record_Ok E. by apply (f_equal length) in E. Qed.

Lemma queue_now_ok w now peer bytes control :
  wire_ok w → bytes ≠ [] → ∃ r w', queue_now w now peer bytes control = Done (r, w') ∧ wire_ok w' ∧ slack w' = slack w.
Proof.
  intros (Hk & Hh & Hc) Hne. unfold queue_now. destruct (queue_kcp_ok w peer bytes control Hk Hne) as (r & w' & -> & Hk' & Hs & Hf & Ha & _).
  cbn [mbind outcome_bind]. pose proof (aside_heap w w' Ha Hh) as Hh'. pose proof (aside_control w w' Ha Hf Hc) as Hc'. destruct r.
  - eexists _, _. split; [done|]. split; [|exact Hs]. split; [exact Hk'|]. split; [by apply schedule_heap, heap_weaken|exact Hc'].
  - eexists _, _. done.
Qed.
Lemma wire_send_ok w now io peer record max :
  wire_ok w → ∃ r w', wire_send w now io peer record max = Done (r, w') ∧ wire_ok w' ∧ slack w' = slack w.
Proof.
  intros Hw. unfold wire_send. destruct (encode_record _ _) as [bytes|err] eqn:E; [|by eexists _, _]. case_decide; [|by eexists _, _].
  apply encode_record_nonempty in E. destruct (queue_now_ok w now peer bytes false Hw E) as (r & w' & -> & Hw' & Hs). by eexists _, _.
Qed.
Lemma send_reliable_ok w t now io peer record max :
  wire_ok w → ∃ r w', send_reliable w t now io peer record max = Done (r, w') ∧ wire_ok w' ∧ slack w' = slack w.
Proof.
  intros Hw. unfold send_reliable. destruct (encode_record _ _) as [bytes|err] eqn:E; [|by eexists _, _]. case_decide.
  { apply encode_record_nonempty in E. destruct (queue_now_ok w now peer bytes true Hw E) as (r & w' & -> & Hw' & Hs). by eexists _, _. }
  destruct (decide (_ ∧ _)) as [|Hroom]; [by eexists _, _|]. destruct io as [u|err]; [|by eexists _, _]. eexists _, _. split; [done|].
  set (w1 := w <| w_pending ::= _ |>). assert (wire_ok w1) as Hw1; [|exact (remember_response_ok w1 peer bytes Hw1)].
  destruct Hw as (Hk & Hh & Hp & Hs & Ha). split; [exact Hk|]. split; [exact Hh|]. split; [|split; [exact Hs|by apply map_Forall_insert_2]].
  apply size_insert_room; [done|]. destruct (decide (is_Some (w_pending w !! peer))); [by right|]. left. change (Z.of_nat (size (w_pending w)) < w_max_peers w).
  destruct (decide (w_max_peers w ≤ Z.of_nat (size (w_pending w)))); [|lia]. by destruct Hroom.
Qed.
Lemma send_response_ok w now io peer record max :
  wire_ok w → ∃ r w', send_response w now io peer record max = Done (r, w') ∧ wire_ok w' ∧ slack w' = slack w.
Proof.
  intros Hw. unfold send_response. destruct (encode_record _ _) as [bytes|err] eqn:E; [|by eexists _, _]. case_decide.
  { apply encode_record_nonempty in E. destruct (queue_now_ok w now peer bytes true Hw E) as (r & w' & -> & Hw' & Hs). by eexists _, _. }
  destruct io as [u|err]; [|by eexists _, _]. eexists _, _. split; [done|]. by apply remember_response_ok.
Qed.
Lemma wire_flush_ok w now :
  wire_ok w → ∃ n sent w', wire_flush w now = Done (n, sent, w') ∧ wire_ok w' ∧ slack w' = slack w ∧ dom (w_engines w') = dom (w_engines w) ∧
  0 ≤ n ≤ MAX_KCP_UPDATES_PER_FLUSH ∧ (w_kind w = Transport.Kcp → n = MAX_KCP_UPDATES_PER_FLUSH ∨ nothing_due now w').
Proof.
  intros Hw. unfold wire_flush. case_decide as Hkind; [eexists _, _, _; by split_and!|]. destruct Hw as (Hk & Hh & Hc).
  destruct (flush_loop_ok now (S (Z.to_nat MAX_KCP_UPDATES_PER_FLUSH + length (w_deadlines w))) 0 w [] Hk Hh) as
    (n & sent & w' & E & Hk' & Hh' & Hs & Hf & _ & Ep & Es & Ed & Hn & Hm & Hend); [lia|]. rewrite E. exists n, sent, w'.
  split; [done|]. split; [|split; [done|split; [done|split]]].
  - split; [done|]. split; [done|]. unfold control_ok. rewrite Ep, Es. by injection Hf as _ _ -> _ _.
  - split; [done|]. by apply Hm.
  - intros _. destruct Hend as [Hend|]; [left|by right]. specialize (Hm ltac:(done)). lia.
Qed.
Lemma wire_step_ok w b w' : wire_ok w → wire_step w b w' → wire_ok w' ∧ (b = false → slack w' = slack w).
Proof.
  intros Hw [peer conv r w1 Hc E|peer|peer|now peer p r w1 b' E Hb|now io peer record max r w1 E|t now io peer record max r w1 E|now io peer record max r w1 E|peer bytes|success|now|now n sent w1 E].
  - destruct (authorize_peer_ok w peer conv r w1 Hw Hc E). done.
  - split; [|done]. destruct Hw as ((Hl & He & Hn & Hcs & Hrest) & Hh & Hp). split; [|split; [exact Hh|exact Hp]].
    refine (conj Hl (conj He (conj _ (conj _ Hrest)))); [|by apply map_Forall_delete].
    change (Z.of_nat (size (w_engines w)) + Z.of_nat (size (delete peer (w_authorized w))) ≤ w_max_peers w). pose proof (size_delete_le (w_authorized w) peer). lia.
  - destruct (remove_peer_ok w peer Hw). done.
  - destruct Hw as (Hk & Hh & Hc). destruct (receive_ok w now peer p r w1 Hk E) as (Hk' & _ & Hs). destruct (receive_frame w now peer p r w1 E) as (Hf & Ep & Es & Hh').
    split; [|intros ->; destruct Hs; [done|by destruct Hb]]. split; [done|]. split; [by apply Hh'|]. unfold control_ok. rewrite Ep, Es. by injection Hf as _ _ -> _ _.
  - destruct (wire_send_ok w now io peer record max Hw) as (r2 & w2 & E2 & H2 & Hs). rewrite E in E2. by injection E2 as <- <-.
  - destruct (send_reliable_ok w t now io peer record max Hw) as (r2 & w2 & E2 & H2 & Hs). rewrite E in E2. by injection E2 as <- <-.
  - destruct (send_response_ok w now io peer record max Hw) as (r2 & w2 & E2 & H2 & Hs). rewrite E in E2. by injection E2 as <- <-.
  - destruct (begin_input_ok w peer bytes Hw). done.
  - destruct (end_input_ok w success Hw). done.
  - destruct (retry_ok now w Hw). done.
  - destruct (wire_flush_ok w now Hw) as (n2 & s2 & w2 & E2 & H2 & Hs & _). rewrite E in E2. by injection E2 as <- <- <-.
Qed.

(** The limits stay as they were set. *)
Lemma remember_response_fixed w peer bytes : fixed (remember_response w peer bytes) = fixed w.
Proof. unfold remember_response. destruct (w_active_input w) as [[p request]|]; [|done]. by case_decide. Qed.
Lemma queue_now_fixed w now peer bytes control r w' : wire_ok w → bytes ≠ [] → queue_now w now peer bytes control = Done (r, w') → fixed w' = fixed w.
Proof.
  intros (Hk & _) Hne. unfold queue_now. destruct (queue_kcp_ok w peer bytes control Hk Hne) as (r1 & w1 & -> & _ & _ & Hf & _).
  cbn [mbind outcome_bind]. destruct r1; intros E; injection E as _ E; rewrite <- E; exact Hf.
Qed.
Lemma retry_loop_fixed now l : ∀ w, fixed (retry_loop now w l).2 = fixed w.
Proof.
  induction l as [|p l IH]; intros w; [done|]. cbn [retry_loop].
  assert (fixed (retry_one now w p).1.2 = fixed w) as E1 by (unfold retry_one; destruct (w_pending w !! p); [|done]; case_decide; [done|]; by case_decide).
  destruct (retry_one now w p) as [[ex w1] sent]. specialize (IH w1). destruct (retry_loop now w1 l) as [[ex' rest] w2]. cbn [fst snd] in *. congruence.
Qed.
Lemma wire_step_fixed w b w' : wire_ok w → wire_step w b w' → fixed w' = fixed w.
Proof.
  intros Hw [peer conv r w1 Hc E|peer|peer|now peer p r w1 b' E Hb|now io peer record max r w1 E|t now io peer record max r w1 E|now io peer record max r w1 E|peer bytes|success|now|now n sent w1 E].
  - revert E. unfold authorize_peer. case_decide; [by intros [_ <-]%pair_eq|]. destruct (w_engines w !! peer); [by intros [_ <-]%pair_eq|].
    destruct (w_authorized w !! peer); [by intros [_ <-]%pair_eq|]. case_decide; by intros [_ <-]%pair_eq.
  - done.
  - destruct Hw as (Hk & _). destruct (remove_engine_ok w peer Hk) as (_ & _ & _ & E4 & _). exact E4.
  - by destruct (receive_frame w now peer p r w1 E).
  - revert E. unfold wire_send. destruct (encode_record _ _) as [bytes|err] eqn:En; [|by intros [= _ <-]]. case_decide; [|by intros [= _ <-]].
    destruct (queue_now w now peer bytes false) as [[r1 w2]|] eqn:Eq; [|done]. cbn [mbind outcome_bind]. intros [= _ <-].
    eapply queue_now_fixed; [done| |done]. by eapply encode_record_nonempty.
  - revert E. unfold send_reliable. destruct (encode_record _ _) as [bytes|err] eqn:En; [|by intros [= _ <-]]. case_decide.
    + destruct (queue_now w now peer bytes true) as [[r1 w2]|] eqn:Eq; [|done]. cbn [mbind outcome_bind]. intros [= _ <-].
      eapply queue_now_fixed; [done| |done]. by eapply encode_record_nonempty.
    + case_decide; [by intros [= _ <-]|]. destruct io as [u|err]; intros E; injection E as _ <-; [by rewrite remember_response_fixed|done].
  - revert E. unfold send_response. destruct (encode_record _ _) as [bytes|err] eqn:En; [|by intros [= _ <-]]. case_decide.
    + destruct (queue_now w now peer bytes true) as [[r1 w2]|] eqn:Eq; [|done]. cbn [mbind outcome_bind]. intros [= _ <-].
      eapply queue_now_fixed; [done| |done]. by eapply encode_record_nonempty.
    + destruct io as [u|err]; intros E; injection E as _ <-; [apply remember_response_fixed|done].
  - unfold begin_input. case_decide; [done|]. destruct (w_seen w !! peer); [case_decide; [done|]|]; by case_decide.
  - unfold end_input. destruct success; [|done]. destruct (w_active_pending w) as [[p old]|]; [|done]. by case_decide.
  - unfold retry. case_decide; [done|]. apply retry_loop_fixed.
  - revert E. unfold wire_flush. case_decide; [by intros [= _ _ <-]|]. destruct Hw as (Hk & Hh & _). intros E.
    destruct (flush_loop_ok now (S (Z.to_nat MAX_KCP_UPDATES_PER_FLUSH + length (w_deadlines w))) 0 w [] Hk Hh) as
      (n2 & s2 & w2 & E2 & _ & _ & _ & Hf & _); [lia|]. rewrite E2 in E. by injection E as _ _ <-.
Qed.

Definition any_step (w w' : DatagramWire) : Prop := ∃ b, wire_step w b w'.
Definition clean_step (w w' : DatagramWire) : Prop := wire_step w false w'.

Lemma new_wire_ok kind mtu peers session runtime :
  50 ≤ mtu → 0 ≤ peers → 0 ≤ session → 0 ≤ runtime < usize_max → wire_ok (with_telemetry (wire_new kind mtu peers session runtime)).
Proof.
  intros Hm Hp Hs Hr. split; [|split].
  - split; [done|]. split; [apply map_Forall_empty|]. split; [done|]. split; [apply map_Forall_empty|]. split; [done|]. split; [apply Hr|]. by intros s [= <-].
  - split; [constructor|]. intros peer d E. change ((∅ : gmap SocketAddr Z) !! peer = Some d) in E. by rewrite lookup_empty in E.
  - split; [done|]. split; [done|]. apply map_Forall_empty.
Qed.
Lemma steps_ok w w' : wire_ok w → rtc any_step w w' → wire_ok w'.
Proof. intros Hw. induction 1 as [|x y z [b Hs] _ IH]; [done|]. apply IH. by apply (wire_step_ok x b y). Qed.
Lemma clean_steps_ok w w' : wire_ok w → rtc clean_step w w' → wire_ok w' ∧ slack w' = slack w.
Proof.
  intros Hw. induction 1 as [|x y z Hs _ IH]; [done|]. destruct (wire_step_ok x false y Hw Hs) as [Hy E]. destruct (IH Hy) as [Hz E'].
  split; [done|]. rewrite E'. by apply E.
Qed.

(** C13: however an endpoint's wire is used and whatever its peers send, it never holds more peers
    than allowed; no peer and no endpoint has more waiting than its budget, and what waits is always
    charged; the registry names exactly the peers with an engine; and no send and no flush panics.
    Without packets of another conversation the charge is exact.  This is for datagrams of at least
    50 bytes, the least a KCP engine accepts, and a byte budget of the runtime below [usize::MAX]. *)
Theorem wire_budgets kind mtu peers session runtime w :
  50 ≤ mtu → 0 ≤ peers → 0 ≤ session → 0 ≤ runtime < usize_max →
  let w0 := with_telemetry (wire_new kind mtu peers session runtime) in
  rtc any_step w0 w →
  Z.of_nat (size (w_engines w)) + Z.of_nat (size (w_authorized w)) ≤ w_max_peers w ∧
  map_Forall (λ _ e, queued_bytes e ≤ w_max_session w) (w_engines w) ∧
  total_queued w ≤ w_queued w ≤ w_max_runtime w ∧
  (rtc clean_step w0 w → w_queued w = total_queued w) ∧
  Z.of_nat (size (w_pending w)) ≤ w_max_peers w ∧ Z.of_nat (size (w_seen w)) ≤ w_max_peers w ∧
  (∀ s, w_telemetry w = Some s → s = dom (w_engines w)) ∧
  (∀ now io peer record max, wire_send w now io peer record max ≠ Panic) ∧ (∀ now, wire_flush w now ≠ Panic).
Proof.
  intros Hm Hp Hs Hr w0 Hrun. pose proof (new_wire_ok kind mtu peers session runtime Hm Hp Hs Hr) as H0. fold w0 in H0.
  pose proof (steps_ok w0 w H0 Hrun) as Hw. pose proof Hw as ((Hl & He & Hn & Hc & Hsl & Hmax & Ht) & Hh & Hp' & Hs' & Ha).
  split; [done|]. split; [eapply map_Forall_impl; [exact He|]; intros i e Hb; apply Hb|]. split; [unfold slack in Hsl; lia|].
  split; [intros Hclean; apply clean_steps_ok in Hclean as [_ E]; [|done]; unfold slack in E; change (w_queued w0 - total_queued w0) with 0 in E; lia|].
  split; [done|]. split; [done|]. split; [done|]. split.
  - intros now io peer record max. by destruct (wire_send_ok w now io peer record max Hw) as (r & w' & -> & _).
  - intros now. by destruct (wire_flush_ok w now Hw) as (n & sent & w' & -> & _).
Qed.

(** ** Runs *)

Module WireDemo.

Definition a : SocketAddr := mkSocketAddr false 1 7000.
Definition b : SocketAddr := mkSocketAddr false 2 7000.
Definition small : DatagramWire := with_telemetry (wire_new Transport.Kcp 50 8 1000 100).
Definition note : SecurityRecord := mkRecord RecordKind.PlainData 1 [Byte.x01; Byte.x02].

(** The first segment confirms everything before [n], the second is of another conversation. *)
Definition two_faced (n : Z) : list byte :=
  Kcp.encode (Kcp.mkSegment 7 Kcp.KCP_CMD_WINS 0 100 0 0 n 0 0 0 0 []) ++ Kcp.encode (Kcp.mkSegment 8 Kcp.KCP_CMD_WINS 0 100 0 0 0 0 0 0 0 []).

Inductive wop :=
| Authorize (peer : SocketAddr) (conv : Z)
| Queue (peer : SocketAddr)
| Flush (now_ms : Z)
| Packet (peer : SocketAddr) (p : list byte).
Definition perform_wire (w : DatagramWire) (o : wop) : option (bool * DatagramWire) :=
  match o with
  | Authorize peer conv => if decide (in_u32 conv) then Some (false, (authorize_peer w peer conv).2) else None
  | Queue peer => match wire_send w 0 (Ok tt) peer note 100 with Done (_, w) => Some (false, w) | Panic => None end
  | Flush now_ms => match wire_flush w now_ms with Done (_, _, w) => Some (false, w) | Panic => None end
  | Packet peer p => Some (true, (receive w 1 peer p).2)
  end.
Fixpoint wire_run (script : list wop) (w : DatagramWire) : option DatagramWire :=
  match script with
  | [] => Some w
  | o :: script => '(_, w) ← perform_wire w o; wire_run script w
  end.
Lemma perform_wire_step w o b' w' : perform_wire w o = Some (b', w') → any_step w w'.
Proof.
  destruct o as [peer conv|peer|now|peer p]; cbn [perform_wire].
  - case_decide; [|done]. destruct (authorize_peer w peer conv) as [r w1] eqn:E. intros [= _ <-]. exists false. by eapply step_authorize.
  - destruct (wire_send _ _ _ _ _ _) as [[r w1]|] eqn:E; [|done]. intros [= _ <-]. exists false. by eapply step_send.
  - destruct (wire_flush w now) as [[[n sent] w1]|] eqn:E; [|done]. intros [= _ <-]. exists false. by eapply step_flush.
  - destruct (receive w 1 peer p) as [r w1] eqn:E. intros [= _ <-]. exists true. by eapply step_receive.
Qed.
Lemma wire_run_steps script : ∀ w w', wire_run script w = Some w' → rtc any_step w w'.
Proof.
  induction script as [|o script IH]; intros w w'; cbn [wire_run]; [by intros [= <-]|]. destruct (perform_wire w o) as [[b' w1]|] eqn:E; [|done].
  cbn. intros Hr. eapply rtc_l; [by eapply perform_wire_step|by apply IH].
Qed.

(** Three messages to [a], each confirmed by a packet that fails; then a message to [b]. *)
Definition leaking : list wop :=
  [Authorize a 7; Queue a; Flush 0; Packet a (two_faced 1); Queue a; Flush 10; Packet a (two_faced 2); Queue a; Flush 20; Packet a (two_faced 3)].
Definition leaked : DatagramWire := default small (wire_run leaking small).

End WireDemo.

Lemma wire_budgets_witness :
  size (w_engines WireDemo.leaked) = 1%nat ∧ total_queued WireDemo.leaked ≤ w_queued WireDemo.leaked ≤ w_max_runtime WireDemo.leaked.
Proof.
  destruct (WireDemo.wire_run WireDemo.leaking WireDemo.small) as [w|] eqn:E; [|by vm_compute in E].
  assert (WireDemo.leaked = w) as -> by (unfold WireDemo.leaked; by rewrite E).
  split; [vm_compute in E; injection E as <-; vm_compute; reflexivity|].
  apply WireDemo.wire_run_steps in E. apply (wire_budgets Transport.Kcp 50 8 1000 100 w); [lia|lia|lia|done|exact E].
Defined.

(** a packet that fails after its first segment was read is not settled.  Here the peer confirms
    everything it was sent, nothing waits in any engine, and yet the endpoint's budget is used up: a
    message to a peer that never got one is refused. *)
Theorem failed_packet_leaks_budget :
  total_queued WireDemo.leaked = 0 ∧ w_queued WireDemo.leaked = 78 ∧
  (let w := (authorize_peer WireDemo.leaked WireDemo.b 9).2 in
   ∃ w', wire_send w 30 (Ok tt) WireDemo.b WireDemo.note 100 = Done (Err budget_full, w') ∧ total_queued w' = 0) ∧
  (let w := remove_peer WireDemo.leaked WireDemo.a in w_engines w = ∅ ∧ w_queued w = 78).
Proof.
  split; [vm_compute; reflexivity|]. split; [vm_compute; reflexivity|]. split; [|vm_compute; split; reflexivity].
  eexists. split; [vm_compute; reflexivity|vm_compute; reflexivity].
Qed.

(** C14: a flush ends, and leaves no engine due that was not updated, unless it made as many updates
    as it may; it keeps every engine. *)
Theorem flush_serves_due kind mtu peers session runtime w now :
  50 ≤ mtu → 0 ≤ peers → 0 ≤ session → 0 ≤ runtime < usize_max →
  rtc any_step (with_telemetry (wire_new kind mtu peers session runtime)) w →
  ∃ n sent w', wire_flush w now = Done (n, sent, w') ∧ dom (w_engines w') = dom (w_engines w) ∧
    0 ≤ n ≤ MAX_KCP_UPDATES_PER_FLUSH ∧ (w_kind w = Transport.Kcp → n = MAX_KCP_UPDATES_PER_FLUSH ∨ nothing_due now w').
Proof.
  intros Hm Hp Hs Hr Hrun. pose proof (new_wire_ok kind mtu peers session runtime Hm Hp Hs Hr) as H0.
  destruct (wire_flush_ok w now (steps_ok _ w H0 Hrun)) as (n & sent & w' & E & _ & _ & H). by exists n, sent, w'.
Qed.
Lemma flush_serves_due_witness :
  ∃ n sent w', wire_flush WireDemo.leaked 30 = Done (n, sent, w') ∧ (n = MAX_KCP_UPDATES_PER_FLUSH ∨ nothing_due 30 w').
Proof.
  destruct (WireDemo.wire_run WireDemo.leaking WireDemo.small) as [w|] eqn:E; [|by vm_compute in E].
  assert (WireDemo.leaked = w) as -> by (unfold WireDemo.leaked; by rewrite E).
  assert (w_kind w = Transport.Kcp) as Hk by (vm_compute in E; injection E as <-; reflexivity). apply WireDemo.wire_run_steps in E.
  destruct (flush_serves_due Transport.Kcp 50 8 1000 100 w 30) as (n & sent & w' & H1 & _ & _ & H2); [lia|lia|lia|done|exact E|].
  exists n, sent, w'. split; [exact H1|exact (H2 Hk)].
Defined.

(** an engine whose segment is due for a resend before its next flush asks to be updated at
    once, and an update before the flush does nothing: one call of [flush] spends all its updates on
    it, and sends nothing. *)
Theorem flush_spins :
  ∃ w, WireDemo.wire_run [WireDemo.Authorize WireDemo.a 7; WireDemo.Queue WireDemo.a; WireDemo.Flush 0; WireDemo.Flush 195] WireDemo.small = Some w ∧
    size (w_engines w) = 1%nat ∧ ∃ w', wire_flush w 202 = Done (MAX_KCP_UPDATES_PER_FLUSH, [], w') ∧ w_scheduled w' !! WireDemo.a = Some 202.
Proof.
  eexists. split; [vm_compute; reflexivity|]. split; [vm_compute; reflexivity|]. eexists. split; vm_compute; reflexivity.
Qed.

(** ** UDP control records *)

(** What may happen on the wire while no other record of [peer] arrives and the peer is not removed. *)
Inductive meanwhile (peer : SocketAddr) (w : DatagramWire) : DatagramWire → Prop :=
| meanwhile_begin other bytes : other ≠ peer → meanwhile peer w (begin_input w other bytes).2
| meanwhile_end success : meanwhile peer w (end_input w success)
| meanwhile_send now_ms io q record max r w' : wire_send w now_ms io q record max = Done (r, w') → meanwhile peer w w'
| meanwhile_reliable now now_ms io q record max r w' : send_reliable w now now_ms io q record max = Done (r, w') → meanwhile peer w w'
| meanwhile_response now_ms io q record max r w' : send_response w now_ms io q record max = Done (r, w') → meanwhile peer w w'
| meanwhile_receive now_ms q packet : meanwhile peer w (receive w now_ms q packet).2
| meanwhile_remove other : other ≠ peer → meanwhile peer w (remove_peer w other)
| meanwhile_retry now : meanwhile peer w (retry w now).2
| meanwhile_flush now_ms n sent w' : wire_flush w now_ms = Done (n, sent, w') → meanwhile peer w w'.

Record remembers (peer : SocketAddr) (seen : SeenRecord) (w : DatagramWire) : Prop := {
  rm_kind : w_kind w = Transport.Udp;
  rm_seen : w_seen w !! peer = Some seen;
  rm_active : fst <$> w_active_input w ≠ Some peer
}.
Lemma remember_elsewhere peer seen w q bytes : remembers peer seen w → remembers peer seen (remember_response w q bytes).
Proof.
  intros [Hk Hs Ha]. unfold remember_response. destruct (w_active_input w) as [[p request]|] eqn:E; [|by split; rewrite ?E].
  case_decide as Hd; [|by split; rewrite ?E]. destruct Hd as [-> _]. split; [done| |by rewrite <- E in Ha]. cbn in *. rewrite lookup_insert_ne; congruence.
Qed.
Lemma retry_loop_remembers peer seen now l : ∀ w, remembers peer seen w → remembers peer seen (retry_loop now w l).2.
Proof.
  induction l as [|p l IH]; intros w Hw; [done|]. cbn [retry_loop].
  assert (remembers peer seen (retry_one now w p).1.2) as H1.
  { unfold retry_one. destruct (w_pending w !! p); [|done]. case_decide; [done|]. destruct Hw. by case_decide. }
  destruct (retry_one now w p) as [[ex w1] sent]. specialize (IH w1 H1). by destruct (retry_loop now w1 l) as [[ex' rest] w2].
Qed.
Lemma meanwhile_remembers peer seen w w' : meanwhile peer w w' → remembers peer seen w → remembers peer seen w'.
Proof.
  intros Hm Hw. pose proof Hw as [Hk Hs Ha]. assert (w_kind w ≠ Transport.Kcp) as Hn by congruence.
  destruct Hm as [other bytes Ho|success|now io q record max r w' E|t now io q record max r w' E|now io q record max r w' E|now q packet|other Ho|now|now n sent w' E].
  - unfold begin_input. rewrite decide_False by done.
    assert (∀ w0 a, w_kind w0 = Transport.Udp → w_seen w0 !! peer = Some seen → remembers peer seen (w0 <| w_active_input := Some (other, bytes) |> <| w_active_pending := a |>)) as Hset
      by (intros w0 a H1 H2; split; [done|done|]; cbn; congruence).
    destruct (w_seen w !! other); [case_decide; [done|]|]; cbn [snd]; apply Hset; case_decide; try done; cbn; by rewrite lookup_insert_ne.
  - unfold end_input. assert (∀ w0, w_kind w0 = Transport.Udp → w_seen w0 !! peer = Some seen → remembers peer seen (w0 <| w_active_input := None |> <| w_active_pending := None |>)) as Hset
      by (intros w0 H1 H2; by split). apply Hset; destruct success; try done; destruct (w_active_pending w) as [[p old]|]; try done; by case_decide.
  - unfold wire_send in E. rewrite decide_False in E by done. destruct (encode_record record max); [rewrite decide_False in E by done|]; by injection E as _ <-.
  - unfold send_reliable in E. destruct (encode_record record max); [|by injection E as _ <-]. rewrite decide_False in E by done. case_decide; [by injection E as _ <-|].
    destruct io; injection E as _ <-; [|done]. apply remember_elsewhere. by split.
  - unfold send_response in E. destruct (encode_record record max); [|by injection E as _ <-]. rewrite decide_False in E by done.
    destruct io; injection E as _ <-; [|done]. by apply remember_elsewhere.
  - unfold receive. by rewrite decide_True.
  - unfold remove_peer. assert (remembers peer seen (remove_engine w other)) as [H1 H2 H3] by (unfold remove_engine; destruct (w_engines w !! other); by split).
    split; [done|cbn; by rewrite lookup_delete_ne|]. cbn. revert H3. generalize (w_active_input (remove_engine w other)). intros [[p b]|]; cbn; [|done]. by case_decide.
  - unfold retry. rewrite decide_False by done. by apply retry_loop_remembers.
  - unfold wire_flush in E. rewrite decide_True in E by done. by injection E as _ _ <-.
Qed.

(** The answer to the record that is being handled is remembered with it. *)
Lemma answer_remembered w now io peer bytes response w1 w2 t record max (reliable success : bool) :
  w_kind w = Transport.Udp → Z.of_nat (size (w_seen w)) < w_max_peers w ∨ is_Some (w_seen w !! peer) →
  begin_input w peer bytes = (false, None, w1) →
  (if reliable then send_reliable w1 t now io peer record max else send_response w1 now io peer record max) = Done (Ok (Some response), w2) →
  remembers peer (mkSeenRecord bytes (Some response)) (end_input w2 success).
Proof.
  intros Hk Hroom Hb Hs. assert (w_kind w1 = Transport.Udp ∧ w_active_input w1 = Some (peer, bytes) ∧ is_Some (w_seen w1 !! peer)) as (Hk1 & Ha1 & Hs1).
  { revert Hb. unfold begin_input. rewrite decide_False by congruence. set (w0 := if decide (_ ∨ _) then _ else w).
    assert (w_kind w0 = Transport.Udp ∧ is_Some (w_seen w0 !! peer)) as [Hk0 Hs0].
    { unfold w0. rewrite decide_True by done. split; [done|]. eexists. apply lookup_insert_eq. }
    destruct (w_seen w !! peer); [case_decide; [done|]|]; intros [= <-]; done. }
  assert (∃ w0, w2 = remember_response w0 peer response ∧ w_kind w0 = Transport.Udp ∧ w_active_input w0 = Some (peer, bytes) ∧ is_Some (w_seen w0 !! peer)) as (w0 & -> & H1 & H2 & H3).
  { destruct reliable; [unfold send_reliable in Hs|unfold send_response in Hs]; (destruct (encode_record _ _) as [b|]; [|done]); rewrite decide_False in Hs by congruence.
    - case_decide; [done|]. destruct io; [|done]. injection Hs as <- <-. by eexists.
    - destruct io; [|done]. injection Hs as <- <-. by exists w1. }
  assert (w_kind (remember_response w0 peer response) = Transport.Udp ∧ w_seen (remember_response w0 peer response) !! peer = Some (mkSeenRecord bytes (Some response))) as [E1 E2].
  { unfold remember_response. rewrite H2, decide_True by (split; [done|by right]). split; [done|]. apply lookup_insert_eq. }
  unfold end_input. destruct success; [|by split]. destruct (w_active_pending _) as [[p old]|]; [|by split]. case_decide; by split.
Qed.

(** C15: over UDP, when the cache of answers has room for a peer and the answer to one of its records
    was taken by the socket, then whatever happens on the wire until another record of that peer
    arrives or the peer is removed, the exact repetition of the record is answered with the bytes
    of that answer and is not handled again. *)
Theorem repetition_is_answered w t now io peer bytes record max (reliable : bool) response w1 w2 success w3 :
  w_kind w = Transport.Udp → Z.of_nat (size (w_seen w)) < w_max_peers w ∨ is_Some (w_seen w !! peer) →
  begin_input w peer bytes = (false, None, w1) →
  (if reliable then send_reliable w1 t now io peer record max else send_response w1 now io peer record max) = Done (Ok (Some response), w2) →
  rtc (meanwhile peer) (end_input w2 success) w3 →
  begin_input w3 peer bytes = (true, Some response, w3).
Proof.
  intros Hk Hroom Hb Hs Hrun. assert (remembers peer (mkSeenRecord bytes (Some response)) w3) as [Hk3 Hs3 _].
  { apply (answer_remembered w now io peer bytes response w1 w2 t record max reliable success) in Hs; [|done..]. clear -Hrun Hs.
    induction Hrun as [|x y z Hxy _ IH]; [done|]. apply IH. by eapply meanwhile_remembers. }
  unfold begin_input. rewrite decide_False by congruence. rewrite Hs3. by rewrite decide_True by done.
Qed.

(** any record that is handled acknowledges the control record that waits for its peer, be it an
    answer to it or not. *)
Theorem any_input_acknowledges w peer bytes w1 :
  begin_input w peer bytes = (false, None, w1) → w_kind w = Transport.Udp → w_pending (end_input w1 true) !! peer = None.
Proof.
  intros Hb Hk. unfold begin_input in Hb. rewrite decide_False in Hb by congruence. set (w0 := if decide (_ ∨ _) then _ else w) in *.
  assert (w1 = w0 <| w_active_input := Some (peer, bytes) |> <| w_active_pending := (λ pending, (peer, pr_bytes pending)) <$> w_pending w0 !! peer |>) as ->.
  { destruct (w_seen w !! peer); [case_decide; [done|]|]; by injection Hb. }
  unfold end_input. set (w2 := w0 <| w_active_input := _ |> <| w_active_pending := _ |>). change (w_active_pending w2) with ((λ pending, (peer, pr_bytes pending)) <$> w_pending w0 !! peer).
  change (w_pending w2) with (w_pending w0). destruct (w_pending w0 !! peer) as [pd|] eqn:E; cbn [fmap option_fmap option_map]; [|exact E].
  clear Hb. clearbody w0. rewrite decide_True by (by rewrite E). change (delete peer (w_pending w0) !! peer = None). apply lookup_delete_eq.
Qed.

(** *** Retransmission *)

Lemma retry_one_other now w peer peer' : peer ≠ peer' → w_pending (retry_one now w peer).1.2 !! peer' = w_pending w !! peer'.
Proof.
  intros Hne. unfold retry_one. destruct (w_pending w !! peer); [|done]. case_decide; [done|]. cbn [fst snd].
  case_decide; [apply (lookup_delete_ne (w_pending w)); done|apply (lookup_insert_ne (w_pending w)); done].
Qed.
Lemma retry_one_packets now w peer : Forall (λ x, x.1 = peer) (retry_one now w peer).2.
Proof. unfold retry_one. destruct (w_pending w !! peer); [|constructor]. case_decide; [constructor|]. case_decide; by repeat constructor. Qed.
Lemma retry_one_local now w w' peer :
  w_pending w' !! peer = w_pending w !! peer →
  (retry_one now w' peer).1.1 = (retry_one now w peer).1.1 ∧ (retry_one now w' peer).2 = (retry_one now w peer).2 ∧
  w_pending (retry_one now w' peer).1.2 !! peer = w_pending (retry_one now w peer).1.2 !! peer.
Proof.
  intros E. unfold retry_one. rewrite E. destruct (w_pending w !! peer) as [pd|] eqn:E0; [|cbn [fst snd]; by rewrite E, E0].
  case_decide; [cbn [fst snd]; by rewrite E, E0|]. cbn [fst snd]. case_decide; (split; [done|]); (split; [done|]).
  - change (delete peer (w_pending w') !! peer = delete peer (w_pending w) !! peer). by rewrite !lookup_delete_eq.
  - by etrans; [apply (lookup_insert_eq (w_pending w'))|symmetry; apply (lookup_insert_eq (w_pending w))].
Qed.

Definition to_peer (peer : SocketAddr) (l : list (SocketAddr * list byte)) : list (SocketAddr * list byte) := filter (λ x, x.1 = peer) l.
Definition gave_up (peer : SocketAddr) (l : list SocketAddr) : list SocketAddr := filter (λ x, x = peer) l.

(** The loop treats every peer once, as if it were alone. *)
Lemma retry_loop_peer now peer l : ∀ w, NoDup l →
  let '(expired, packets, w') := retry_loop now w l in
  (peer ∉ l → gave_up peer expired = [] ∧ to_peer peer packets = [] ∧ w_pending w' !! peer = w_pending w !! peer) ∧
  (peer ∈ l → gave_up peer expired = (if decide ((retry_one now w peer).1.1 = Some true) then [peer] else []) ∧
    to_peer peer packets = (retry_one now w peer).2 ∧ w_pending w' !! peer = w_pending (retry_one now w peer).1.2 !! peer).
Proof.
  induction l as [|p l IH]; intros w Hnd; cbn [retry_loop]; [split; [done|]; intros H; by apply elem_of_nil in H|].
  apply NoDup_cons in Hnd as [Hp Hnd]. pose proof (retry_one_packets now w p) as Hpk. specialize (IH (retry_one now w p).1.2 Hnd).
  pose proof (retry_one_other now w p peer) as Hoth. destruct (retry_one now w p) as [[g w1] ps] eqn:Eone. cbn [fst snd] in *.
  destruct (retry_loop now w1 l) as [[expired rest] w']. destruct IH as [IHout IHin].
  unfold gave_up, to_peer in *. rewrite !filter_app.
  destruct (decide (p = peer)) as [-> |Hne].
  - split; [intros Hn; destruct Hn; by left|]. intros _. destruct (IHout Hp) as (-> & -> & ->). rewrite Eone, !app_nil_r. cbn [fst snd]. split; [|split; [|done]].
    + destruct (decide (g = Some true)); [|done]. by rewrite filter_cons_True.
    + clear -Hpk. induction Hpk as [|x ps Hx _ IH]; [done|]. rewrite filter_cons_True by done. by rewrite IH.
  - assert (filter (λ x, x = peer) (if decide (g = Some true) then [p] else []) = [] ∧ filter (λ x : SocketAddr * list byte, x.1 = peer) ps = []) as [-> ->].
    { split; [destruct (decide (g = Some true)); [by rewrite filter_cons_False|done]|]. clear -Hpk Hne. induction Hpk as [|x ps Hx _ IH]; [done|].
      by rewrite filter_cons_False by congruence. }
    cbn [app]. specialize (Hoth Hne). split.
    + intros Hn. destruct (IHout ltac:(set_solver)) as (-> & -> & ->). done.
    + intros [?|Hin]%elem_of_cons; [congruence|]. destruct (IHin Hin) as (-> & -> & ->).
      destruct (retry_one_local now w w1 peer Hoth) as (-> & -> & ->). done.
Qed.
Lemma retry_peer now w peer pd :
  w_kind w = Transport.Udp → w_pending w !! peer = Some pd →
  let '(expired, packets, w') := retry w now in
  gave_up peer expired = (if decide ((retry_one now w peer).1.1 = Some true) then [peer] else []) ∧
  to_peer peer packets = (retry_one now w peer).2 ∧ w_pending w' !! peer = w_pending (retry_one now w peer).1.2 !! peer ∧ w_kind w' = w_kind w.
Proof.
  intros Hk E. unfold retry. rewrite decide_False by congruence. set (l := (map_to_list (w_pending w)).*1).
  assert (w_kind (retry_loop now w l).2 = w_kind w) as Ek.
  { clearbody l. clear E Hk. revert w. induction l as [|p l IH]; intros w; cbn [retry_loop]; [done|].
    assert (w_kind (retry_one now w p).1.2 = w_kind w) as E1 by (unfold retry_one; destruct (w_pending w !! p); [|done]; case_decide; [done|]; by case_decide).
    destruct (retry_one now w p) as [[g w1] ps]. cbn [fst snd] in *. rewrite <- E1, <- (IH w1). by destruct (retry_loop now w1 l) as [[? ?] ?]. }
  pose proof (retry_loop_peer now peer l w (NoDup_fst_map_to_list _)) as H. destruct (retry_loop now w l) as [[expired packets] w']. destruct H as [_ H].
  destruct H as (H1 & H2 & H3); [|done]. apply list_elem_of_fmap. exists (peer, pd). split; [done|]. by apply elem_of_map_to_list.
Qed.

(** Rounds of the timer; each comes at least an interval after the one before. *)
Fixpoint rounds (w : DatagramWire) (ts : list Instant) : list SocketAddr * list (SocketAddr * list byte) * DatagramWire :=
  match ts with
  | [] => ([], [], w)
  | t :: ts => let '(e1, p1, w) := retry w t in let '(e2, p2, w) := rounds w ts in (e1 ++ e2, p1 ++ p2, w)
  end.
Fixpoint spaced (last : Instant) (ts : list Instant) : Prop :=
  match ts with [] => True | t :: ts => RETRY_INTERVAL ≤ t - last ∧ spaced t ts end.

Lemma rounds_give_up peer ts : ∀ w pd,
  w_kind w = Transport.Udp → w_pending w !! peer = Some pd → spaced (pr_last_sent pd) ts → pr_attempts pd + len ts = 1 + MAX_RETRY_ATTEMPTS → ts ≠ [] →
  let '(expired, packets, w') := rounds w ts in
  to_peer peer packets = replicate (Z.to_nat (MAX_RETRY_ATTEMPTS - pr_attempts pd)) (peer, pr_bytes pd) ∧ gave_up peer expired = [peer] ∧ w_pending w' !! peer = None.
Proof.
  induction ts as [|t ts IH]; intros w pd Hk E Hsp Hn Hne; [done|]. clear Hne. cbn [rounds]. destruct Hsp as [Ht Hsp]. rewrite len_cons in Hn.
  pose proof (retry_peer t w peer pd Hk E) as Hr. destruct (retry w t) as [[e1 p1] w1]. destruct Hr as (He1 & Hp1 & Hw1 & Hk1). rewrite Hk in Hk1.
  assert (retry_one t w peer =
    if decide (MAX_RETRY_ATTEMPTS ≤ pr_attempts pd) then (Some true, w <| w_pending ::= delete peer |>, [])
    else (Some false, w <| w_pending ::= <[peer := mkPendingRecord (pr_bytes pd) t (pr_attempts pd + 1)]> |>, [(peer, pr_bytes pd)])) as Eone.
  { unfold retry_one. rewrite E, decide_False; [done|]. unfold saturating_sub, RETRY_INTERVAL in *. lia. }
  rewrite Eone in He1, Hp1, Hw1. clear Eone. pose proof (len_nonneg ts) as H0. unfold to_peer, gave_up in *.
  destruct (decide (MAX_RETRY_ATTEMPTS ≤ pr_attempts pd)) as [Hlast|Hmore].
  - cbn [fst snd] in *. rewrite decide_True in He1 by done. assert (ts = []) as -> by (apply len_0; lia). cbn [rounds]. rewrite !filter_app, He1, Hp1. cbn.
    replace (MAX_RETRY_ATTEMPTS - pr_attempts pd) with 0 by (rewrite len_nil in *; lia). split; [done|]. split; [done|]. rewrite Hw1. apply (lookup_delete_eq (w_pending w)).
  - cbn [fst snd] in *. rewrite decide_False in He1 by done. set (pd1 := mkPendingRecord (pr_bytes pd) t (pr_attempts pd + 1)) in *.
    assert (w_pending w1 !! peer = Some pd1) as E1 by (rewrite Hw1; apply (lookup_insert_eq (w_pending w))).
    specialize (IH w1 pd1 Hk1 E1 Hsp). destruct (rounds w1 ts) as [[e2 p2] w2].
    destruct IH as (IHp & IHe & IHw); [cbn; lia|intros ->; rewrite len_nil in *; lia|]. rewrite !filter_app, He1, Hp1, IHp, IHe. cbn [app pd1 pr_bytes pr_attempts].
    split; [|done]. replace (Z.to_nat (MAX_RETRY_ATTEMPTS - pr_attempts pd)) with (S (Z.to_nat (MAX_RETRY_ATTEMPTS - (pr_attempts pd + 1)))) by lia. done.
Qed.


Module UdpDemo.
Definition peer : SocketAddr := WireDemo.a.
Definition start : DatagramWire := wire_new Transport.Udp 1200 4 1000 100.
Definition hello : SecurityRecord := mkRecord RecordKind.ClientHello 0 [].
Definition waiting : DatagramWire := match send_reliable start 0 0 (Ok tt) peer hello 128 with Done (_, w) => w | Panic => start end.
Definition other : list byte := [Byte.x07].
Definition stranger : SocketAddr := mkSocketAddr false 167772161 5000.
End UdpDemo.

(** Between the answer and the repetition, another peer is heard and answered. *)
Lemma repetition_is_answered_witness :
  ∃ response w, w_seen w !! UdpDemo.stranger = Some (mkSeenRecord UdpDemo.other None) ∧ begin_input w UdpDemo.peer UdpDemo.other = (true, Some response, w).
Proof.
  destruct (begin_input UdpDemo.start UdpDemo.peer UdpDemo.other) as [[d r] w1] eqn:E1.
  destruct (send_response w1 0 (Ok tt) UdpDemo.peer UdpDemo.hello 128) as [[[[response|]|] w2]|] eqn:E2; [|exfalso; vm_compute in E1; injection E1 as <- <- <-; by vm_compute in E2..].
  exists response, (begin_input (end_input w2 true) UdpDemo.stranger UdpDemo.other).2. split.
  - vm_compute in E1. injection E1 as <- <- <-. vm_compute in E2. injection E2 as <- <-. vm_compute. reflexivity.
  - apply (repetition_is_answered UdpDemo.start 0 0 (Ok tt) UdpDemo.peer UdpDemo.other UdpDemo.hello 128 false response w1 w2 true); [reflexivity|by left| |exact E2|].
    + rewrite E1. vm_compute in E1. by injection E1 as <- <- <-.
    + apply rtc_once, meanwhile_begin. done.
Defined.
Lemma any_input_acknowledges_witness :
  is_Some (w_pending UdpDemo.waiting !! UdpDemo.peer) ∧
  w_pending (end_input (begin_input UdpDemo.waiting UdpDemo.peer UdpDemo.other).2 true) !! UdpDemo.peer = None.
Proof.
  split; [vm_compute; by eexists|]. apply (any_input_acknowledges UdpDemo.waiting UdpDemo.peer UdpDemo.other); [|reflexivity].
  vm_compute. reflexivity.
Defined.
