(* ===== verification/DatagramPeer.v ===== *)
(** * Peers of a datagram endpoint: rnet-transport [adaptive_peer.rs], [adaptive_codec.rs],
    [adaptive_kcp_preflight.rs], [adaptive_datagram_process.rs] and [adaptive_datagram_session.rs]

    What the task that owns a UDP or KCP endpoint keeps, and what it does with one record of a
    peer: the address check, the Noise handshake, the application's decision and the traffic of an
    established session.

    The Noise state machine, the ciphers and the HMAC are parameters.  A handler reads the clock
    once and runs with no other thread in between; [Moment] holds what it is told from outside.
    The latency histograms are left out.  The receiving ends of the authorisation and of the
    command channel, which the source keeps in the peer, are in [Shared]; they go away when the
    peer's state is dropped ([discard]). *)

From S2P Require Import Prelude Bytes CoreTypes Wire Observe EventQueue HandleTable Framing Control Security Transition.
From S2P Require Import TcpSession Outbound NetConfig Sessions Endpoints Admission Preflight DatagramWire.

Definition INITIAL_EPOCH : Z := 1.

(** [ClientSecurity]: the client's own key and its check of the server's key. *)
Record ClientSecurity := mkClientSecurity {
  cs_private : list byte;
  cs_verifier : list byte → bool
}.

(** What one iteration of the loop is told: the clock ([mt_ms] since the wire was made, [mt_secs]
    since the epoch), what the socket says of each packet, random bytes, the sockets it can bind,
    and the number of the byte budget of a new session. *)
Record Moment := mkMoment {
  mt_now : Instant;
  mt_ms : Z;
  mt_secs : Z;
  mt_io : SocketAddr → list byte → Result unit;
  mt_random : option (list byte);
  mt_bind : SocketAddr → Result (Result SocketAddr);
  mt_budget : Z
}.

Section peers.
Context `{StatelessCipher} `{NoiseHandshake} `{Hmac}.
(** The two halves of a Noise transport in stateless mode. *)
Context (stateless : hs_transport → sc_out * sc_in).

(** ** Peers *)

(** [commands] tells whether the session takes security commands, which a server's does. *)
Inductive Peer :=
| PCookie (expires_at : Instant)
| PServerFirst (handshake : hs_state) (started : Instant)
| PServerFinish (handshake : hs_state) (started : Instant)
| PServerAuth (session : Handle) (transport : Datagram.DatagramTransport) (mode : SecurityMode.t) (auth_started : Instant)
| PServerReject (expires_at : Instant)
| PClientHello (session : Handle) (started : Instant)
| PClientResponse (session : Handle) (handshake : Handshake.InitiatorHandshake) (join : list byte) (mode : SecurityMode.t)
    (started : Instant)
| PClientAuth (session : Handle) (transport : Datagram.DatagramTransport) (mode : SecurityMode.t)
    (auth_started connect_started : Instant)
| PEstablished (session : Handle) (transport : Datagram.DatagramTransport) (controller : SecurityController)
    (commands : bool) (last_activity : Instant) (transition_deadline : option Instant).

Definition peer_session (p : Peer) : option Handle :=
  match p with
  | PServerAuth session _ _ _ | PClientHello session _ | PClientResponse session _ _ _ _ | PClientAuth session _ _ _ _
  | PEstablished session _ _ _ _ _ => Some session
  | PCookie _ | PServerFirst _ _ | PServerFinish _ _ | PServerReject _ => None
  end.
Definition is_established (p : Peer) : bool := match p with PEstablished _ _ _ _ _ _ => true | _ => false end.

(** ** The owner of an endpoint *)

(** The fixed arguments of [run_adaptive_datagram]; [su_public_key] belongs to the server's key. *)
Record Setup := mkSetup {
  su_endpoint : Handle;
  su_security : EndpointSecurity;
  su_public_key : list byte;
  su_client : option ClientSecurity;
  su_kind : Transport.t;
  su_cookie : mac_key;
  su_initial_session : option Handle;
  su_connect_deadline : option Instant;
  su_channel : Z;
  su_display : string → RnetError → list byte;
  su_display_retry : SocketAddr → SocketAddr → list byte
}.

(** Its variables and the runtime it shares; [ow_sent] records the packets the socket took. *)
Record Owner := mkOwner {
  ow_shared : Shared;
  ow_wire : DatagramWire;
  ow_peers : gmap SocketAddr Peer;
  ow_deferred : gmap SocketAddr (list Outbound);
  ow_deferred_count : Z;
  ow_authorized : gmap SocketAddr Instant;
  ow_admission : AdmissionController;
  ow_permits : gmap SocketAddr IpKey;
  ow_rekeys : gmap SocketAddr AutoRekey;
  ow_remote : option SocketAddr;
  ow_candidates : list SocketAddr;
  ow_local : Result SocketAddr;
  ow_sent : list (SocketAddr * list byte)
}.
#[export] Instance Owner_eta : Eta Owner := λ o,
  mkOwner (ow_shared o) (ow_wire o) (ow_peers o) (ow_deferred o) (ow_deferred_count o) (ow_authorized o) (ow_admission o)
    (ow_permits o) (ow_rekeys o) (ow_remote o) (ow_candidates o) (ow_local o) (ow_sent o).

(** *** Programs on it *)

Definition Own (A : Type) : Type := Owner → outcome (A * Owner).
Definition own_ret {A} (a : A) : Own A := λ o, Done (a, o).
Definition own_bind {A B} (m : Own A) (k : A → Own B) : Own B := λ o, '(a, o) ← m o; k a o.
(** The [?] of a fallible call. *)
Definition own_try {A B} (m : Own (Result A)) (k : A → Own (Result B)) : Own (Result B) :=
  own_bind m (λ r, match r with Ok a => k a | Err e => own_ret (Err e) end).
Definition own_get {A} (f : Owner → A) : Own A := λ o, Done (f o, o).
Definition own_modify (f : Owner → Owner) : Own unit := λ o, Done (tt, f o).
Definition on_shared {A} (f : Shared → outcome (A * Shared)) : Own A := λ o,
  '(a, sh) ← f (ow_shared o); Done (a, o <| ow_shared := sh |>).
Definition on_wire {A} (f : DatagramWire → outcome (A * DatagramWire)) : Own A := λ o,
  '(a, w) ← f (ow_wire o); Done (a, o <| ow_wire := w |>).
End peers.

Notation "x ⟸ m ; k" := (own_bind m (λ x : _, k))
  (at level 20, m at level 100, k at level 200, only parsing) : rnet_scope.
Notation "x ⟸? m ; k" := (own_try m (λ x : _, k))
  (at level 20, m at level 100, k at level 200, only parsing) : rnet_scope.
Notation "m ;; k" := (own_bind m (λ _, k)) (at level 100, k at level 200, only parsing, right associativity) : rnet_scope.

(** ** Records: [adaptive_codec.rs] *)

Section codec.
Context `{StatelessCipher}.

Definition protocol {A} (text : string) : Result A := fail ErrorCode.ProtocolError text.

(** What is sealed, and the transport after it. *)
Definition protected_record (t : Datagram.DatagramTransport) (epoch : Z) (kind : ProtectedKind.t) (data : list byte) (max : Z) :
    Result SecurityRecord * Datagram.DatagramTransport :=
  match encode_protected (mkProtectedMessage kind data) max with
  | Err e => (Err e, t)
  | Ok inner =>
    match Datagram.encrypt t inner with
    | (Err e, t) => (Err (map_security_error e), t)
    | (Ok cipher, t) => (Ok (mkRecord RecordKind.Protected epoch cipher), t)
    end
  end.
Definition data_record (t : Datagram.DatagramTransport) (c : SecurityController) (data : list byte) (max : Z) :
    Result SecurityRecord * Datagram.DatagramTransport :=
  match mode c with
  | SecurityMode.Plaintext => (Ok (mkRecord RecordKind.PlainData (epoch c) data), t)
  | SecurityMode.Encrypted => protected_record t (epoch c) ProtectedKind.Data data max
  end.
Definition decrypt_record (t : Datagram.DatagramTransport) (record : SecurityRecord) (max : Z) :
    Result ProtectedMessage * Datagram.DatagramTransport :=
  match Datagram.decrypt t (rec_payload record) with
  | (Err e, t) => (Err (map_security_error e), t)
  | (Ok plain, t) => (decode_protected plain max, t)
  end.
Definition apply (t : Datagram.DatagramTransport) (effect : Effect.t) : Datagram.DatagramTransport :=
  if decide (effect = Effect.Rekey) then Datagram.rekey_outgoing (Datagram.rekey_incoming t) else t.

End codec.

Section handlers.
Context `{StatelessCipher} `{NoiseHandshake} `{Hmac}.
Context (stateless : hs_transport → sc_out * sc_in).
Context (su : Setup) (m : Moment).

(** ** Small steps *)

Definition shared_do (f : Shared → Shared) : Own unit := own_modify (λ o, o <| ow_shared ::= f |>).
Definition metrics_do (f : NetMetrics → NetMetrics) : Own unit := shared_do (λ sh, sh <| sh_metrics ::= f |>).
Definition count_protocol_error : Own unit := metrics_do (λ k, k <| nm_protocol_errors ::= fetch_add 1 |>).
Definition count_rejected (reason : AdmissionRejectReason.t) : Own unit := metrics_do (record_admission_rejected reason).
Definition config {A} (f : NetConfig → A) : Own A := own_get (λ o, f (sh_config (ow_shared o))).
Definition wire_do (f : DatagramWire → DatagramWire) : Own unit := own_modify (λ o, o <| ow_wire ::= f |>).
Definition peers_do (f : gmap SocketAddr Peer → gmap SocketAddr Peer) : Own unit := own_modify (λ o, o <| ow_peers ::= f |>).
Definition rekeys_do (f : gmap SocketAddr AutoRekey → gmap SocketAddr AutoRekey) : Own unit := own_modify (λ o, o <| ow_rekeys ::= f |>).

(** [send_to] of the socket. *)
Definition transmit (peer : SocketAddr) (bytes : list byte) : Own (Result unit) := λ o,
  match mt_io m peer bytes with
  | Ok _ => Done (Ok tt, o <| ow_sent ::= λ l, l ++ [(peer, bytes)] |>)
  | Err e => Done (Err e, o)
  end.
Definition io_of (peer : SocketAddr) (record : SecurityRecord) (max : Z) : Result unit :=
  match encode_record record max with Ok bytes => mt_io m peer bytes | Err _ => Ok tt end.
Definition log_sent (peer : SocketAddr) (r : Result (option (list byte))) : Own (Result unit) := λ o,
  match r with
  | Ok (Some bytes) => Done (Ok tt, o <| ow_sent ::= λ l, l ++ [(peer, bytes)] |>)
  | Ok None => Done (Ok tt, o)
  | Err e => Done (Err e, o)
  end.
Definition send_data (peer : SocketAddr) (record : SecurityRecord) (max : Z) : Own (Result unit) :=
  r ⟸ on_wire (λ w, wire_send w (mt_ms m) (io_of peer record max) peer record max) ; log_sent peer r.
Definition send_control (peer : SocketAddr) (record : SecurityRecord) (max : Z) : Own (Result unit) :=
  r ⟸ on_wire (λ w, send_reliable w (mt_now m) (mt_ms m) (io_of peer record max) peer record max) ; log_sent peer r.
Definition send_answer (peer : SocketAddr) (record : SecurityRecord) (max : Z) : Own (Result unit) :=
  r ⟸ on_wire (λ w, send_response w (mt_ms m) (io_of peer record max) peer record max) ; log_sent peer r.

(** The receivers a peer's state holds go away with it. *)
Definition discard (p : Peer) : Own unit :=
  match p with
  | PServerAuth session _ _ _ => shared_do (λ sh, sh <| sh_auth ::= delete session |> <| sh_commands ::= delete session |>)
  | PEstablished session _ _ true _ _ => shared_do (λ sh, sh <| sh_commands ::= delete session |>)
  | _ => own_ret tt
  end.
Definition discard_option (p : option Peer) : Own unit := match p with Some p => discard p | None => own_ret tt end.

Definition push_event (event : Event) : Own (Result unit) := on_shared (λ sh, try_push_session_event (su_display su) sh event (mt_now m)).
Definition close_with_error (session : Handle) (phase : string) (error : RnetError) : Own unit :=
  on_shared (λ sh, sh ← remove_session_with_error (su_display su) sh session phase error (mt_now m); Done (tt, sh)).
Definition fail_owner (session : option Handle) (phase : string) (error : RnetError) : Own unit :=
  on_shared (λ sh, sh ← fail_endpoint (su_display su) sh (su_endpoint su) session phase error (mt_now m); Done (tt, sh)).

(** ** Admission *)

Definition ip_of (peer : SocketAddr) : IpAddr := if sa_v6 peer then IpV6 (sa_ip peer) else IpV4 (sa_ip peer).
Definition metric_reason (r : AdmissionReject) : AdmissionRejectReason.t :=
  match r with
  | RejectActive => AdmissionRejectReason.IpActiveLimit
  | RejectRate => AdmissionRejectReason.IpRateLimit
  | RejectTable => AdmissionRejectReason.IpTableLimit
  end.
(** [try_acquire] and keeping the permit; whether it was granted. *)
Definition acquire (peer : SocketAddr) : Own bool := λ o,
  match try_acquire_at (ow_admission o) (ip_of peer) (mt_now m) with
  | (Ok key, c) => Done (true, o <| ow_admission := c |> <| ow_permits ::= <[peer := key]> |>)
  | (Err reason, c) => count_rejected (metric_reason reason) (o <| ow_admission := c |>) ≫= λ x, Done (false, x.2)
  end.
(** Removing a permit drops it. *)
Definition release (peer : SocketAddr) : Own unit := own_modify (λ o,
  match ow_permits o !! peer with
  | Some key => o <| ow_admission ::= λ c, permit_release c key |> <| ow_permits ::= delete peer |>
  | None => o
  end).

(** [authorize_peer] of the wire. *)
Definition authorize (peer : SocketAddr) (conv : Z) : Own (Result unit) := on_wire (λ w, Done (authorize_peer w peer conv)).

Definition preflight_hello (peer : SocketAddr) (conv : Z) (client_cookie : list byte) : Own unit :=
  if bool_decide (len client_cookie = COOKIE_LEN) && validate (su_cookie su) peer client_cookie (mt_secs m) then
    held ⟸ own_get (λ o, bool_decide (is_Some (ow_permits o !! peer))) ;
    granted ⟸ (if held : bool then own_ret true else acquire peer) ;
    if granted : bool then
      r ⟸ authorize peer conv ;
      match r with
      | Ok _ =>
        timeout ⟸ config nc_handshake_timeout ;
        own_modify (λ o, o <| ow_authorized ::= <[peer := mt_now m + timeout]> |>)
      | Err _ => release peer ;; count_rejected AdmissionRejectReason.KcpPeerLimit
      end
    else own_ret tt
  else
    r ⟸ transmit peer (encode_challenge conv (issue (su_cookie su) peer (mt_secs m))) ;
    match r with Ok _ => own_ret tt | Err _ => count_rejected AdmissionRejectReason.Unauthenticated end.
Definition preflight_challenge (peer : SocketAddr) (conv : Z) (server_cookie : list byte) : Own (Result unit) :=
  _ ⟸? transmit peer (encode_hello conv server_cookie) ;
  _ ⟸? authorize peer conv ;
  send_control peer (mkRecord RecordKind.ClientHello 0 server_cookie) 128.

(** [handle_preflight]: whether the packet was one. *)
Definition handle_preflight (peer : SocketAddr) (packet : list byte) : Own (Result bool) :=
  known ⟸ own_get (λ o, has_peer (ow_wire o) peer) ;
  if bool_decide (su_kind su ≠ Transport.Kcp) || known then own_ret (Ok false)
  else
    remote ⟸ own_get ow_remote ;
    authorized ⟸ own_get (λ o, bool_decide (is_Some (ow_authorized o !! peer))) ;
    match decode_preflight packet, su_security su with
    | Some (Hello conv cookie), AdaptiveServer _ _ => preflight_hello peer conv cookie ;; own_ret (Ok true)
    | Some (Challenge conv cookie), AdaptiveClient _ =>
      if decide (remote = Some peer) then _ ⟸? preflight_challenge peer conv cookie ; own_ret (Ok true)
      else own_ret (Ok true)
    | Some _, _ => own_ret (Ok true)
    | None, _ =>
      if authorized : bool then own_ret (Ok false)
      else count_rejected AdmissionRejectReason.Unauthenticated ;; own_ret (Ok true)
    end.

(** ** Established sessions: [adaptive_datagram_session.rs] *)

(** The transport is mutated also when sending fails. *)
Definition send_protected_with (send : SocketAddr → SecurityRecord → Z → Own (Result unit)) (peer : SocketAddr)
    (t : Datagram.DatagramTransport) (epoch : Z) (kind : ProtectedKind.t) (data : list byte) (max : Z) :
    Own (Result unit * Datagram.DatagramTransport) :=
  let '(record, t) := protected_record t epoch kind data max in
  match record with
  | Err e => own_ret (Err e, t)
  | Ok record => r ⟸ send peer record (max + 64) ; own_ret (r, t)
  end.
Definition send_protected := send_protected_with send_control.
Definition send_protected_response := send_protected_with send_answer.

Definition handle_control (peer : SocketAddr) (session : Handle) (t : Datagram.DatagramTransport) (c : SecurityController)
    (record : SecurityRecord) (payload : list byte) : Own (Result unit * Datagram.DatagramTransport * SecurityController) :=
  match decode_control payload with
  | Err e => own_ret (Err e, t, c)
  | Ok control =>
    let operation := completed_operation (ct_kind control) in
    match handle c control with
    | Err e => own_ret (Err e, t, c)
    | Ok (tr, c) =>
      let t := apply t (before_response tr) in
      answered ⟸
        match response tr with
        | None => own_ret (Ok tt, t)
        | Some reply =>
          let terminal := bool_decide (ct_kind reply = ControlKind.SwitchAck ∨ ct_kind reply = ControlKind.RekeyAck) in
          (if terminal then send_protected_response else send_protected)
            peer t (rec_epoch record) ProtectedKind.Control (encode_control reply) 64
        end ;
      let '(r, t) := answered in
      match r with
      | Err e => own_ret (Err e, t, c)
      | Ok _ =>
        let t := apply t (after_response tr) in
        r ⟸
          match is_transitioning c, operation with
          | false, Some operation =>
            push_event (security_changed_event (su_endpoint su) session operation (mode c) (epoch c) (mt_now m))
          | _, _ => own_ret (Ok tt)
          end ;
        own_ret (r, t, c)
      end
    end
  end.

Definition count_received (frame : Frame) : Own unit :=
  metrics_do (λ k, k <| nm_frames_received ::= fetch_add 1 |> <| nm_bytes_received ::= fetch_add (len (body frame)) |>).

(** The message of a record of an established session. *)
Definition open_record (t : Datagram.DatagramTransport) (c : SecurityController) (record : SecurityRecord) (max_body_len : Z) :
    Result ProtectedMessage * Datagram.DatagramTransport :=
  match rec_kind record with
  | RecordKind.PlainData =>
    if decide (mode c = SecurityMode.Plaintext) then (Ok (mkProtectedMessage ProtectedKind.Data (rec_payload record)), t)
    else (protocol "record mode mismatch", t)
  | RecordKind.Protected => decrypt_record t record (max_body_len + 64)
  | _ => (protocol "record mode mismatch", t)
  end.

Definition handle_established (peer : SocketAddr) (session : Handle) (t : Datagram.DatagramTransport) (c : SecurityController)
    (record : SecurityRecord) : Own (Result unit * Datagram.DatagramTransport * SecurityController) :=
  active ⟸ own_get (λ o, session_active (ow_shared o) session) ;
  max_body_len ⟸ config nc_max_body_len ;
  if negb active || bool_decide (rec_epoch record ≠ epoch c) then own_ret (protocol "invalid security epoch", t, c)
  else
    let '(opened, t) := open_record t c record max_body_len in
    let protected := bool_decide (rec_kind record = RecordKind.Protected) in
    match opened with
    | Err e => own_ret (Err e, t, c)
    | Ok message =>
      match pm_kind message with
      | ProtectedKind.Data =>
        if protected && bool_decide (mode c ≠ SecurityMode.Encrypted) then
          own_ret (protocol "encrypted data received while plaintext mode is active", t, c)
        else
          match decode_datagram (pm_payload message) max_body_len with
          | Err e => own_ret (Err e, t, c)
          | Ok frame =>
            count_received frame ;;
            r ⟸ push_event (message_event_with_integrity (su_endpoint su) session frame protected (mt_now m)) ;
            own_ret (r, t, c)
          end
      | ProtectedKind.GameControl =>
        if negb protected then own_ret (protocol "game controls must be authenticated", t, c)
        else if decide (len (pm_payload message) > max_body_len) then
          own_ret (protocol "game control exceeds the configured body limit", t, c)
        else
          r ⟸ push_event (game_control_event (su_endpoint su) session (pm_payload message) (mt_now m)) ;
          own_ret (r, t, c)
      | ProtectedKind.Control => handle_control peer session t c record (pm_payload message)
      | ProtectedKind.AuthAck =>
        if decide (pm_payload message = []) then own_ret (Ok tt, t, c)
        else own_ret (protocol "unexpected protected message", t, c)
      | ProtectedKind.AuthDecision => own_ret (protocol "unexpected protected message", t, c)
      end
    end.

(** ** One record of a peer: [adaptive_datagram_process.rs] *)

Definition put_peer (peer : SocketAddr) (p : Peer) : Own unit := peers_do (<[peer := p]>).
Definition own_of {A} (r : Result A) : Own (Result A) := own_ret r.
Definition security {A} (r : SResult A) : Result A := map_err map_security_error r.
Definition transport_of (t : hs_transport) : Datagram.DatagramTransport :=
  Datagram.fresh (stateless t).1 (stateless t).2.

(** A server's answer to a hello: the three arms. *)
Definition process_hello (peer : SocketAddr) (previous : option Peer) (local_key : list byte) (initial_mode : SecurityMode.t)
    (record : SecurityRecord) : Own (Result (option Peer)) :=
  if negb (bool_decide (len (rec_payload record) = COOKIE_LEN) && validate (su_cookie su) peer (rec_payload record) (mt_secs m)) then
    r ⟸ send_answer peer (mkRecord RecordKind.CookieChallenge 0 (issue (su_cookie su) peer (mt_secs m))) 128 ;
    match r with
    | Err e => discard_option previous ;; own_ret (Err e)
    | Ok _ =>
      timeout ⟸ config nc_handshake_timeout ;
      own_ret (Ok (if decide (su_kind su = Transport.Kcp) then Some (default (PCookie (mt_now m + timeout)) previous) else previous))
    end
  else
    match previous ≫= peer_session with
    | Some _ => own_ret (Ok previous)
    | None =>
      crowd ⟸ own_get (λ o, Z.of_nat (size (ow_peers o))) ;
      limit ⟸ config nc_max_sessions_per_endpoint ;
      if decide (limit ≤ crowd) then own_ret (fail ErrorCode.RateLimited "adaptive datagram peer limit reached")
      else
        let hello := of_u8 (SecurityMode.to_u8 initial_mode) :: su_public_key su in
        _ ⟸? send_control peer (mkRecord RecordKind.ServerHello 0 hello) 128 ;
        handshake ⟸? own_of (security (Handshake.responder_new local_key)) ;
        own_ret (Ok (Some (PServerFirst handshake (mt_now m))))
    end.

(** A client that reads the server's key. *)
Definition process_server_hello (peer : SocketAddr) (session : Handle) (started : Instant) (join : list byte) (record : SecurityRecord) :
    Own (Result (option Peer)) :=
  if decide (len (rec_payload record) ≠ 33) then own_ret (protocol "invalid server hello")
  else
    mode ⟸? own_of (SecurityMode.try_from (byte_at 0 (rec_payload record))) ;
    let key := drop 1 (rec_payload record) in
    identity ⟸? own_of (ok_or (su_client su) (mkRnetError ErrorCode.InvalidState "missing client security")) ;
    if negb (cs_verifier identity key) then own_ret (fail ErrorCode.PeerKeyMismatch "server rejected")
    else
      handshake ⟸? own_of (security (Handshake.initiator_new (cs_private identity) key)) ;
      let '(first, handshake) := Handshake.write_first handshake in
      first ⟸? own_of (security first) ;
      max ⟸ config nc_max_datagram_size ;
      _ ⟸? send_control peer (mkRecord RecordKind.Handshake 0 first) max ;
      own_ret (Ok (Some (PClientResponse session handshake join mode started))).

Definition process_first (peer : SocketAddr) (handshake : hs_state) (started : Instant) (record : SecurityRecord) :
    Own (Result (option Peer)) :=
  let '(r, handshake) := Handshake.read_first handshake (rec_payload record) in
  _ ⟸? own_of (security r) ;
  let '(reply, handshake) := Handshake.write_response handshake in
  reply ⟸? own_of (security reply) ;
  max ⟸ config nc_max_datagram_size ;
  _ ⟸? send_control peer (mkRecord RecordKind.Handshake 0 reply) max ;
  own_ret (Ok (Some (PServerFinish handshake started))).

Definition process_response (peer : SocketAddr) (session : Handle) (handshake : Handshake.InitiatorHandshake) (join : list byte)
    (mode : SecurityMode.t) (started : Instant) (record : SecurityRecord) : Own (Result (option Peer)) :=
  let '(r, handshake) := Handshake.read_response handshake (rec_payload record) in
  _ ⟸? own_of (security r) ;
  finish ⟸? own_of (security (Handshake.initiator_finish handshake join)) ;
  max ⟸ config nc_max_datagram_size ;
  _ ⟸? send_control peer (mkRecord RecordKind.Handshake 0 finish.1) max ;
  own_ret (Ok (Some (PClientAuth session (transport_of finish.2) mode (mt_now m) started))).

(** The session of an admitted peer, with the channels of its route. *)
Definition open_session (peer : SocketAddr) : Own (Result Handle) := on_shared (λ sh,
  let sh := sh <| sh_store ::= λ st,
              st <| st_budgets ::= <[mt_budget m := byte_budget_new (nc_max_session_queued_bytes (sh_config sh))]> |> |> in
  let target := datagram_target (su_channel su) (su_kind su) peer (nc_max_datagram_size (sh_config sh)) in
  '(r, sh) ← insert_session_route sh (mkSessionRoute (su_endpoint su) target false true true true (mt_budget m));
  Done (r, match r with
           | Ok session => sh <| sh_auth ::= <[session := None]> |> <| sh_commands ::= <[session := []]> |>
           | Err _ => sh
           end)).
Definition process_finish (peer : SocketAddr) (handshake : hs_state) (initial_mode : SecurityMode.t) (record : SecurityRecord) :
    Own (Result (option Peer)) :=
  finish ⟸? own_of (security (Handshake.responder_finish handshake (rec_payload record))) ;
  let '(join, peer_key, t) := finish in
  session ⟸? open_session peer ;
  let next := PServerAuth session (transport_of t) initial_mode (mt_now m) in
  r ⟸ push_event (session_event EventType.AuthRequest (su_endpoint su) session (mt_now m) <| data := peer_key ++ join |>) ;
  match r with
  | Err e => discard next ;; own_ret (Err e)
  | Ok _ => own_ret (Ok (Some next))
  end.

(** The server's decision, which names the mode of the hello. *)
Definition decision (mode : SecurityMode.t) (message : ProtectedMessage) : Result unit :=
  let rejected := fail ErrorCode.AuthRejected "authentication rejected" in
  if decide (pm_kind message ≠ ProtectedKind.AuthDecision) then rejected
  else
    match pm_payload message with
    | [accepted; authenticated_mode] =>
      if decide (to_u8 accepted ≠ 1) then rejected
      else if decide (to_u8 authenticated_mode = SecurityMode.to_u8 mode) then Ok tt
      else protocol "server security mode changed during negotiation"
    | _ => rejected
    end.
Definition process_decision (peer : SocketAddr) (session : Handle) (t : Datagram.DatagramTransport) (mode : SecurityMode.t)
    (record : SecurityRecord) : Own (Result (option Peer)) :=
  max ⟸ config nc_max_body_len ;
  let '(message, t) := decrypt_record t record max in
  message ⟸? own_of message ;
  _ ⟸? own_of (decision mode message) ;
  answered ⟸ send_protected_response peer t INITIAL_EPOCH ProtectedKind.AuthAck [] 32 ;
  _ ⟸? own_of answered.1 ;
  _ ⟸? on_shared (λ sh, mark_session_established sh session) ;
  _ ⟸? push_event (session_event EventType.SessionOpened (su_endpoint su) session (mt_now m)) ;
  own_ret (Ok (Some (PEstablished session answered.2 (controller_new Role.Client mode INITIAL_EPOCH) false (mt_now m) None))).

Definition process_established (peer : SocketAddr) (session : Handle) (t : Datagram.DatagramTransport) (c : SecurityController)
    (commands : bool) (last_activity : Instant) (deadline : option Instant) (record : SecurityRecord) : Own (Result (option Peer)) :=
  handled ⟸ handle_established peer session t c record ;
  let '(r, t, c) := handled in
  match r with
  | Err e => put_peer peer (PEstablished session t c commands last_activity deadline) ;; own_ret (Err e)
  | Ok _ =>
    own_ret (Ok (Some (PEstablished session t c commands (mt_now m) (if is_transitioning c then deadline else None))))
  end.

Definition process_arm (peer : SocketAddr) (previous : option Peer) (record : SecurityRecord) : Own (Result (option Peer)) :=
  match su_security su, previous, rec_kind record with
  | AdaptiveServer _ _, Some (PServerReject _), _ => own_ret (Ok previous)
  | AdaptiveServer local_key initial_mode, _, RecordKind.ClientHello => process_hello peer previous local_key initial_mode record
  | AdaptiveClient _, Some (PClientHello session started), RecordKind.CookieChallenge =>
    _ ⟸? send_control peer (mkRecord RecordKind.ClientHello 0 (rec_payload record)) 128 ;
    own_ret (Ok (Some (PClientHello session started)))
  | AdaptiveClient join, Some (PClientHello session started), RecordKind.ServerHello =>
    process_server_hello peer session started join record
  | _, Some (PServerFirst handshake started), RecordKind.Handshake => process_first peer handshake started record
  | _, Some (PClientResponse session handshake join mode started), RecordKind.Handshake =>
    process_response peer session handshake join mode started record
  | AdaptiveServer _ initial_mode, Some (PServerFinish handshake _), RecordKind.Handshake =>
    process_finish peer handshake initial_mode record
  | _, Some (PClientAuth session t mode _ _), RecordKind.Protected => process_decision peer session t mode record
  | _, Some (PEstablished session t c commands last_activity deadline), _ =>
    process_established peer session t c commands last_activity deadline record
  | _, _, _ => own_ret (Ok previous)
  end.
Definition process (peer : SocketAddr) (record : SecurityRecord) : Own (Result unit) :=
  previous ⟸ own_get (λ o, ow_peers o !! peer) ;
  peers_do (delete peer) ;;
  next ⟸? process_arm peer previous record ;
  match next with Some p => put_peer peer p ;; own_ret (Ok tt) | None => own_ret (Ok tt) end.

End handlers.
