(* ===== verification/DatagramOwner.v ===== *)
(** * The task of a datagram endpoint: rnet-transport [adaptive_datagram.rs],
    [adaptive_datagram_maintenance.rs] and [adaptive_datagram_send.rs]

    One iteration of the loop of [run_adaptive_datagram] per branch: a packet, a message of the
    application, a cleanup request and the timer.  Maps are walked in the order of their keys,
    where the source walks them in the order of its hash. *)

From S2P Require Import Prelude Bytes CoreTypes Wire Observe EventQueue HandleTable Framing Control Security Transition.
From S2P Require Import TcpSession Outbound NetConfig Sessions Endpoints Admission Preflight DatagramWire DatagramPeer.

(** Whether the task goes on. *)
Inductive Flow := Continue | Stop.

Section owner.
Context `{StatelessCipher} `{NoiseHandshake} `{Hmac}.
Context (stateless : hs_transport → sc_out * sc_in).
Context (su : Setup) (m : Moment).

(** ** Deferred messages *)

Definition store_do (f : Store → Store) : Own unit := shared_do (λ sh, sh <| sh_store ::= f |>).
Definition drop_message (x : Outbound) : Own unit := store_do (λ st, drop_outbound st x).
Definition resolve (x : Outbound) : Own (option Outbound) := on_shared (λ sh,
  let '(r, st) := resolve_latest (sh_store sh) x in Done (r, sh <| sh_store := st |>)).

Definition defer_back (peer : SocketAddr) (x : Outbound) : Own unit := own_modify (λ o,
  o <| ow_deferred ::= λ d, <[peer := default [] (d !! peer) ++ [x]]> d |> <| ow_deferred_count ::= λ n, n + 1 |>).
Definition defer_front (peer : SocketAddr) (x : Outbound) : Own unit := own_modify (λ o,
  o <| ow_deferred ::= λ d, <[peer := x :: default [] (d !! peer)]> d |> <| ow_deferred_count ::= λ n, n + 1 |>).
(** [deferred.remove(&peer)], with the drop of the queue. *)
Definition forget_deferred (peer : SocketAddr) : Own unit :=
  queued ⟸ own_get (λ o, ow_deferred o !! peer) ;
  match queued with
  | None => own_ret tt
  | Some queue =>
    own_modify (λ o, o <| ow_deferred ::= delete peer |> <| ow_deferred_count ::= λ n, saturating_sub n (len queue) |>) ;;
    store_do (λ st, foldl drop_outbound st queue)
  end.
Definition drop_empty_queue (peer : SocketAddr) : Own unit := own_modify (λ o,
  match ow_deferred o !! peer with Some [] => o <| ow_deferred ::= delete peer |> | _ => o end).

(** ** Sealing and counting *)

Definition seal (t : Datagram.DatagramTransport) (c : SecurityController) (x : Outbound) (max_body_len : Z) :
    Result SecurityRecord * Datagram.DatagramTransport :=
  match ob_kind x with
  | OutData => data_record t c (ob_bytes x) max_body_len
  | OutGameControl => protected_record t (epoch c) ProtectedKind.GameControl (ob_bytes x) max_body_len
  end.
Definition count_sent (peer : SocketAddr) (c : SecurityController) (x : Outbound) : Own unit :=
  metrics_do (λ k, k <| nm_bytes_sent ::= fetch_add (len (ob_bytes x)) |>) ;;
  let counted := bool_decide (mode c = SecurityMode.Encrypted) || match ob_kind x with OutGameControl => true | OutData => false end in
  if counted then rekeys_do (alter (λ r, record_encrypted_bytes r (len (ob_bytes x))) peer) else own_ret tt.

(** [automatic_rekeys.entry(peer).or_insert_with(..)]. *)
Definition arm_rekey (peer : SocketAddr) : Own unit :=
  policy ⟸ config nc_security_policy ;
  rekeys_do (λ r, match r !! peer with
                  | Some _ => r
                  | None => <[peer := auto_rekey_new (sp_rekey_after policy) (sp_rekey_after_bytes policy) (mt_now m)]> r
                  end).

(** ** A packet *)

(** A hello that would make the owner keep something first takes a permit; whether it may go on. *)
Definition admit_hello (peer : SocketAddr) (record : SecurityRecord) : Own bool :=
  unknown ⟸ own_get (λ o, bool_decide (ow_peers o !! peer = None) && bool_decide (ow_permits o !! peer = None)) ;
  match su_security su with
  | AdaptiveServer _ _ =>
    if bool_decide (rec_kind record = RecordKind.ClientHello) && unknown && bool_decide (len (rec_payload record) = COOKIE_LEN)
       && validate (su_cookie su) peer (rec_payload record) (mt_secs m)
    then acquire m peer
    else own_ret true
  | AdaptiveClient _ => own_ret true
  end.

(** What follows a record that could not be processed. *)
Definition after_failure (peer : SocketAddr) (prior : option Handle) (joining : bool) (error : RnetError) : Own Flow :=
  count_protocol_error ;;
  kept ⟸ own_get (λ o, bool_decide (is_Some (ow_peers o !! peer))) ;
  if kept : bool then own_ret Continue
  else
    mine ⟸ own_get (λ o, bool_decide (ow_remote o = Some peer)) ;
    let session := match prior with Some s => Some s | None => if mine : bool then su_initial_session su else None end in
    if mine && joining then fail_owner su m session "datagram_handshake" error ;; own_ret Stop
    else
      active ⟸ own_get (λ o, session ≫= λ s, if session_active (ow_shared o) s then Some s else None) ;
      match active with Some s => close_with_error su m s "datagram_handshake" error | None => own_ret tt end ;;
      forget_deferred peer ;;
      wire_do (λ w, remove_peer w peer) ;;
      release peer ;;
      rekeys_do (delete peer) ;;
      own_ret Continue.

Definition handle_record (peer : SocketAddr) (record : SecurityRecord) : Own Flow :=
  prior ⟸ own_get (λ o, ow_peers o !! peer ≫= peer_session) ;
  joining ⟸ own_get (λ o, is_some_and (ow_peers o !! peer) (λ p, negb (is_established p))) ;
  processed ⟸ process stateless su m peer record ;
  led ⟸ own_get (λ o, match ow_peers o !! peer with Some (PEstablished _ _ _ true _ _) => true | _ => false end) ;
  flow ⟸
    match processed with
    | Ok _ => (if led : bool then arm_rekey peer else own_ret tt) ;; own_ret Continue
    | Err error => after_failure peer prior joining error
    end ;
  match flow with
  | Stop => own_ret Stop
  | Continue => wire_do (λ w, end_input w match processed with Ok _ => true | Err _ => false end) ;; own_ret Continue
  end.

(** The answer to a repeated record is repeated. *)
Definition answer_again (peer : SocketAddr) (reply : option (list byte)) : Own Flow :=
  match reply with
  | Some bytes => transmit m peer bytes ;; own_ret Continue
  | None => own_ret Continue
  end.

Definition receive_record (peer : SocketAddr) (bytes : list byte) : Own Flow :=
  max_body_len ⟸ config nc_max_body_len ;
  max_datagram_size ⟸ config nc_max_datagram_size ;
  let limit :=
    if decide (su_kind su = Transport.Kcp) then saturating_add usize_max max_body_len (Z.of_nat HEADER_LEN + 64)
    else max_datagram_size in
  match decode_record bytes limit with
  | Err _ => count_protocol_error ;; own_ret Continue
  | Ok record =>
    admitted ⟸ admit_hello peer record ;
    if negb admitted then own_ret Continue
    else if decide (rec_kind record = RecordKind.PlainData) then handle_record peer record
    else
      seen ⟸ on_wire (λ w, Done (begin_input w peer bytes)) ;
      if seen.1 : bool then answer_again peer seen.2 else handle_record peer record
  end.
Fixpoint receive_records (peer : SocketAddr) (delivered : list (list byte)) : Own Flow :=
  match delivered with
  | [] => own_ret Continue
  | bytes :: delivered =>
    flow ⟸ receive_record peer bytes ;
    match flow with Stop => own_ret Stop | Continue => receive_records peer delivered end
  end.

Definition inbound_packet (peer : SocketAddr) (packet : list byte) : Own Flow :=
  preflight ⟸ handle_preflight su m peer packet ;
  match preflight with
  | Err error => fail_owner su m (su_initial_session su) "datagram_preflight" error ;; own_ret Stop
  | Ok true => own_ret Continue
  | Ok false =>
    delivered ⟸ on_wire (λ w, Done (receive w (mt_ms m) peer packet)) ;
    match delivered with
    | Err _ => count_protocol_error ;; own_ret Continue
    | Ok records =>
      own_modify (λ o, if has_peer (ow_wire o) peer then o <| ow_authorized ::= delete peer |> else o) ;;
      receive_records peer records
    end
  end.
(** [recv_from] can fail as well. *)
Definition inbound (read : Result (SocketAddr * list byte)) : Own Flow :=
  match read with
  | Ok (peer, packet) => inbound_packet peer packet
  | Err error => fail_owner su m (su_initial_session su) "datagram_receive" error ;; own_ret Stop
  end.

(** ** A message of the application *)

(** The message of an established session that is not changing its security. *)
Definition send_now (peer : SocketAddr) (session : Handle) (t : Datagram.DatagramTransport) (c : SecurityController) (commands : bool)
    (last_activity : Instant) (deadline : option Instant) (x : Outbound) : Own unit :=
  let state t last := PEstablished session t c commands last deadline in
  resolved ⟸ resolve x ;
  match resolved with
  | None => put_peer peer (state t last_activity)
  | Some x =>
    max_body_len ⟸ config nc_max_body_len ;
    max_datagram_size ⟸ config nc_max_datagram_size ;
    let '(record, t) := seal t c x max_body_len in
    let lost phase error :=
      close_with_error su m session phase error ;; drop_message x ;; discard (state t last_activity) in
    match record with
    | Err error => count_protocol_error ;; lost "datagram_encode" error
    | Ok record =>
      r ⟸ send_data m peer record max_datagram_size ;
      match r with
      | Ok _ => count_sent peer c x ;; put_peer peer (state t (mt_now m)) ;; drop_message x
      | Err error =>
        if decide (code error = ErrorCode.WouldBlock) then defer_back peer x ;; put_peer peer (state t last_activity)
        else lost "datagram_write" error
      end
    end
  end.
Definition outbound_item (peer : SocketAddr) (x : Outbound) : Own unit :=
  taken ⟸ own_get (λ o, ow_peers o !! peer) ;
  peers_do (delete peer) ;;
  match taken with
  | None => drop_message x
  | Some (PEstablished session t c commands last_activity deadline) =>
    active ⟸ own_get (λ o, session_active (ow_shared o) session) ;
    if active && negb (is_transitioning c) then send_now peer session t c commands last_activity deadline x
    else
      (if active : bool then defer_back peer x else drop_message x) ;;
      put_peer peer (PEstablished session t c commands last_activity deadline)
  | Some other => drop_message x ;; put_peer peer other
  end.
(** The branch is off while as much is deferred as the queue may hold. *)
Definition outbound_message : Own Flow :=
  room ⟸ own_get (λ o, bool_decide (ow_deferred_count o < nc_write_queue_capacity (sh_config (ow_shared o)))) ;
  if room : bool then
    item ⟸ on_shared (λ sh,
      let '(r, st) := channel_recv (sh_store sh) (su_channel su) in Done (r, sh <| sh_store := st |>)) ;
    match item with
    | Some (Some peer, x) => outbound_item peer x ;; own_ret Continue
    | Some (None, x) => drop_message x ;; own_ret Continue
    | None => own_ret Continue
    end
  else own_ret Continue.

(** ** Cleanup: [cleanup_peer] and its branch *)

Definition cleanup_peer (peer : SocketAddr) (session : Handle) : Own unit :=
  current ⟸ own_get (λ o, ow_peers o !! peer) ;
  let stale :=
    match current with
    | Some (PServerReject _) => true
    | Some p => bool_decide (peer_session p ≠ Some session)
    | None => false
    end in
  if stale then own_ret tt
  else peers_do (delete peer) ;; discard_option current ;; forget_deferred peer ;; wire_do (λ w, remove_peer w peer).
Definition cleanup_request : Own Flow :=
  requests ⟸ own_get (λ o, default [] (sh_cleanups (ow_shared o) !! su_endpoint su)) ;
  match requests with
  | [] => own_ret Continue
  | (peer, session) :: rest =>
    shared_do (λ sh, sh <| sh_cleanups ::= <[su_endpoint su := rest]> |>) ;;
    cleanup_peer peer session ;;
    release peer ;;
    rekeys_do (delete peer) ;;
    own_ret Continue
  end.

(** ** The timer: a client's deadlines *)

Definition wildcard_for (peer : SocketAddr) : SocketAddr := mkSocketAddr (sa_v6 peer) 0 0.

Definition send_client_hello (peer : SocketAddr) : Own (Result unit) :=
  if decide (su_kind su = Transport.Kcp) then
    conv ⟸? own_of (random_conv (mt_random m)) ;
    transmit m peer (encode_hello conv [])
  else send_control m peer (mkRecord RecordKind.ClientHello 0 []) 128.

Definition pending_client_timeout (p : Peer) (timeout : Duration) : option Handle :=
  let elapsed started := saturating_sub (mt_now m) started in
  match p with
  | PClientHello session started | PClientResponse session _ _ _ started =>
    if decide (timeout ≤ elapsed started) then Some session else None
  | PClientAuth session _ _ _ connect_started => if decide (timeout ≤ elapsed connect_started) then Some session else None
  | _ => None
  end.
Definition final_client_timeout (p : Peer) (timeout : Duration) : bool :=
  match p with
  | PClientAuth _ _ _ auth_started _ => bool_decide (timeout ≤ saturating_sub (mt_now m) auth_started)
  | _ => bool_decide (is_Some (pending_client_timeout p timeout))
  end.
Definition take_retry_candidate (p : option Peer) (timeout : Duration) (candidates : list SocketAddr) :
    option (Handle * SocketAddr * list SocketAddr) :=
  session ← p ≫= λ p, pending_client_timeout p timeout;
  match candidates with next :: rest => Some (session, next, rest) | [] => None end.

(** A socket of the family of the next candidate. *)
Definition retarget_datagram_endpoint (sh : Shared) (endpoint : Handle) (local : SocketAddr) : Result unit * Shared :=
  match table_get_mut (sh_endpoints sh) endpoint (λ r, mkEndpointRecord local (er_transport r) (er_abort r)) with
  | None => (fail ErrorCode.InvalidHandle "invalid endpoint", sh)
  | Some t => (Ok tt, sh <| sh_endpoints := t |>)
  end.
Definition rebind (session : Handle) (next : SocketAddr) : Own Flow :=
  let failed phase error := fail_owner su m (Some session) phase error ;; own_ret Stop in
  match mt_bind m (wildcard_for next) with
  | Err error => failed "datagram_rebind" error
  | Ok (Err error) => failed "datagram_rebind_address" error
  | Ok (Ok local) =>
    r ⟸ on_shared (λ sh, Done (retarget_datagram_endpoint sh (su_endpoint su) local)) ;
    match r with
    | Err error => failed "datagram_retarget_endpoint" error
    | Ok _ => own_modify (λ o, o <| ow_local := Ok local |>) ;; own_ret Continue
    end
  end.
Definition try_next (current : SocketAddr) (session : Handle) (next : SocketAddr) : Own Flow :=
  let failed phase error := fail_owner su m (Some session) phase error ;; own_ret Stop in
  shared_do (λ sh, push_endpoint_error sh (su_endpoint su) ErrorCode.Timeout (su_display_retry su current next) (mt_now m)) ;;
  dropped ⟸ own_get (λ o, ow_peers o !! current) ;
  peers_do (delete current) ;; discard_option dropped ;;
  wire_do (λ w, remove_peer w current) ;;
  own_modify (λ o, o <| ow_authorized ::= delete current |>) ;;
  release current ;;
  rekeys_do (delete current) ;;
  other_family ⟸ own_get (λ o, match ow_local o with Ok local => bool_decide (sa_v6 local ≠ sa_v6 next) | Err _ => false end) ;
  flow ⟸ (if other_family : bool then rebind session next else own_ret Continue) ;
  match flow with
  | Stop => own_ret Stop
  | Continue =>
    r ⟸ on_shared (λ sh, Done (retarget_datagram_session sh session next)) ;
    match r with
    | Err error => failed "datagram_retarget_session" error
    | Ok _ =>
      r ⟸ send_client_hello next ;
      match r with
      | Err error => failed "datagram_hello" error
      | Ok _ =>
        own_modify (λ o, o <| ow_remote := Some next |>) ;;
        put_peer next (PClientHello session (mt_now m)) ;;
        own_ret Continue
      end
    end
  end.
Definition tick_client : Own Flow :=
  remote ⟸ own_get ow_remote ;
  match remote with
  | None => own_ret Continue
  | Some current =>
    state ⟸ own_get (λ o, ow_peers o !! current) ;
    candidates ⟸ own_get ow_candidates ;
    timeout ⟸ config nc_handshake_timeout ;
    let final := bool_decide (candidates = []) && is_some_and state (λ p, final_client_timeout p timeout) in
    let late := is_some_and (su_connect_deadline su) (λ deadline, bool_decide (deadline ≤ mt_now m)) in
    if (late || final) && is_some_and state (λ p, negb (is_established p)) then
      match state ≫= peer_session with
      | Some session =>
        fail_owner su m (Some session) "datagram_connect"
          (mkRnetError ErrorCode.Timeout "datagram connection or final handshake deadline expired")
      | None => own_ret tt
      end ;;
      own_ret Stop
    else
      match take_retry_candidate state timeout candidates with
      | Some (session, next, rest) => own_modify (λ o, o <| ow_candidates := rest |>) ;; try_next current session next
      | None => own_ret Continue
      end
  end.

(** ** The timer: [drive_server] *)

(** The state a peer gets back, or none when it is gone. *)
Definition decided (peer : SocketAddr) (session : Handle) (t : Datagram.DatagramTransport) (mode : SecurityMode.t)
    (auth_started : Instant) (accepted : bool) : Own (option Peer) :=
  let state t := PServerAuth session t mode auth_started in
  sent ⟸ send_protected m peer t INITIAL_EPOCH ProtectedKind.AuthDecision
           [of_u8 (if accepted then 1 else 0); of_u8 (SecurityMode.to_u8 mode)] 64 ;
  let '(r, t) := sent in
  match r with
  | Err error => close_with_error su m session "datagram_auth_write" error ;; discard (state t) ;; own_ret None
  | Ok _ =>
    marked ⟸ (if accepted then on_shared (λ sh, mark_session_established sh session)
              else own_ret (fail ErrorCode.AuthRejected "authentication rejected")) ;
    match marked with
    | Ok _ =>
      shared_do (λ sh, sh <| sh_auth ::= delete session |>) ;;
      let next := PEstablished session t (controller_new Role.Server mode INITIAL_EPOCH) true (mt_now m) None in
      opened ⟸ push_event su m (session_event EventType.SessionOpened (su_endpoint su) session (mt_now m)) ;
      match opened with
      | Err _ => discard next ;; own_ret None
      | Ok _ => arm_rekey peer ;; own_ret (Some next)
      end
    | Err _ =>
      on_shared (λ sh, sh ← remove_session_with_reason (su_display su) sh session ErrorCode.AuthRejected (mt_now m); Done (tt, sh)) ;;
      discard (state t) ;;
      timeout ⟸ config nc_handshake_timeout ;
      own_ret (Some (PServerReject (mt_now m + timeout)))
    end
  end.

(** The next command of the application, and the automatic rekey. *)
Definition next_command (peer : SocketAddr) (session : Handle) (c : SecurityController) (commands : bool) :
    Own (option Control * SecurityController) :=
  if commands && negb (is_transitioning c) then
    queued ⟸ own_get (λ o, sh_commands (ow_shared o) !! session) ;
    match queued with
    | Some (command :: rest) =>
      shared_do (λ sh, sh <| sh_commands ::= <[session := rest]> |>) ;;
      r ⟸
        match command with
        | SetMode mode => own_ret (begin_switch c mode)
        | RekeyNow => rekeys_do (alter (λ r, mark_started r (mt_now m)) peer) ;; own_ret (begin_rekey c)
        end ;
      own_ret match r with Ok (control, c) => (Some control, c) | Err _ => (None, c) end
    | _ => own_ret (None, c)
    end
  else own_ret (None, c).
Definition automatic_rekey_due (peer : SocketAddr) (c : SecurityController) (commands : bool) (control : option Control) :
    Own (option Control * SecurityController) :=
  due ⟸ own_get (λ o, is_some_and (ow_rekeys o !! peer) (λ r, is_due r (mt_now m))) ;
  if bool_decide (control = None) && commands && bool_decide (mode c = SecurityMode.Encrypted) && negb (is_transitioning c) && due then
    match begin_rekey c with
    | Ok (control, c) => rekeys_do (alter (λ r, mark_started r (mt_now m)) peer) ;; own_ret (Some control, c)
    | Err _ => own_ret (None, c)
    end
  else own_ret (control, c).
Definition drive_established (peer : SocketAddr) (session : Handle) (t : Datagram.DatagramTransport) (c : SecurityController)
    (commands : bool) (last_activity : Instant) (deadline : option Instant) : Own (option Peer) :=
  commanded ⟸ next_command peer session c commands ;
  chosen ⟸ automatic_rekey_due peer commanded.2 commands commanded.1 ;
  let '(control, c) := chosen in
  match control with
  | None => own_ret (Some (PEstablished session t c commands last_activity deadline))
  | Some control =>
    sent ⟸ send_protected m peer t (epoch c) ProtectedKind.Control (encode_control control) 64 ;
    let '(r, t) := sent in
    match r with
    | Err error =>
      close_with_error su m session "datagram_security_write" error ;;
      discard (PEstablished session t c commands last_activity deadline) ;;
      own_ret None
    | Ok _ =>
      timeout ⟸ config nc_handshake_timeout ;
      own_ret (Some (PEstablished session t c commands last_activity (Some (mt_now m + timeout))))
    end
  end.

(** A peer whose time is over, and why its session closes. *)
Definition peer_expired (config : NetConfig) (p : Peer) : option (option (Handle * string * RnetError)) :=
  let late started timeout := bool_decide (timeout ≤ saturating_sub (mt_now m) started) in
  match p with
  | PCookie expires_at | PServerReject expires_at => if decide (expires_at ≤ mt_now m) then Some None else None
  | PServerFirst _ started | PServerFinish _ started => if late started (nc_handshake_timeout config) then Some None else None
  | PServerAuth session _ _ auth_started =>
    if late auth_started (nc_handshake_timeout config) then
      Some (Some (session, "datagram_auth_wait", mkRnetError ErrorCode.Timeout "application authorization decision timed out"))
    else None
  | PEstablished session _ _ _ last_activity deadline =>
    if late last_activity (nc_datagram_idle_timeout config) then
      Some (Some (session, "datagram_idle", mkRnetError ErrorCode.Timeout "datagram session idle timeout"))
    else if is_some_and deadline (λ d, bool_decide (d ≤ mt_now m)) then
      Some (Some (session, "datagram_security_transition", mkRnetError ErrorCode.Timeout "security acknowledgement timed out"))
    else None
  | _ => None
  end.
Definition drive_state (peer : SocketAddr) (p : Peer) : Own (option Peer) :=
  expired ⟸ config (λ k, peer_expired k p) ;
  match expired with
  | Some reason =>
    match reason with Some (session, phase, error) => close_with_error su m session phase error | None => own_ret tt end ;;
    discard p ;; wire_do (λ w, remove_peer w peer) ;; own_ret None
  | None =>
    match p with
    | PServerAuth session t mode auth_started =>
      answer ⟸ own_get (λ o, sh_auth (ow_shared o) !! session) ;
      match answer with
      | Some (Some accepted) => decided peer session t mode auth_started accepted
      | _ => own_ret (Some p)
      end
    | PEstablished session t c commands last_activity deadline => drive_established peer session t c commands last_activity deadline
    | _ => own_ret (Some p)
    end
  end.
Definition drive_peer (peer : SocketAddr) : Own unit :=
  taken ⟸ own_get (λ o, ow_peers o !! peer) ;
  match taken with
  | None => own_ret tt
  | Some p =>
    peers_do (delete peer) ;;
    next ⟸ drive_state peer p ;
    match next with Some p => put_peer peer p | None => own_ret tt end
  end.
Fixpoint for_each (f : SocketAddr → Own unit) (l : list SocketAddr) : Own unit :=
  match l with [] => own_ret tt | x :: l => f x ;; for_each f l end.
Definition drive_server : Own unit :=
  peers ⟸ own_get (λ o, (map_to_list (ow_peers o)).*1) ;
  for_each drive_peer peers.

(** ** The timer: [flush_deferred] *)

Definition flush_message (peer : SocketAddr) (session : Handle) (t : Datagram.DatagramTransport) (c : SecurityController)
    (commands : bool) (last_activity : Instant) (deadline : option Instant) (x : Outbound) : Own unit :=
  let state t last := PEstablished session t c commands last deadline in
  max_body_len ⟸ config nc_max_body_len ;
  max_datagram_size ⟸ config nc_max_datagram_size ;
  let '(record, t) := seal t c x max_body_len in
  put_peer peer (state t last_activity) ;;
  result ⟸
    match record with
    | Err error => own_ret (Some ("datagram_deferred_encode", error))
    | Ok record =>
      r ⟸ send_data m peer record max_datagram_size ;
      own_ret match r with Ok _ => None | Err error => Some ("datagram_deferred_write", error) end
    end ;
  match result with
  | None => count_sent peer c x ;; put_peer peer (state t (mt_now m)) ;; drop_message x ;; drop_empty_queue peer
  | Some (phase, error) =>
    if decide (code error = ErrorCode.WouldBlock) then defer_front peer x
    else
      count_protocol_error ;;
      close_with_error su m session phase error ;;
      peers_do (delete peer) ;; discard (state t last_activity) ;;
      wire_do (λ w, remove_peer w peer) ;;
      drop_message x ;;
      forget_deferred peer
  end.
Definition flush_peer (peer : SocketAddr) : Own unit :=
  state ⟸ own_get (λ o, ow_peers o !! peer) ;
  match state with
  | Some (PEstablished session t c commands last_activity deadline) =>
    active ⟸ own_get (λ o, session_active (ow_shared o) session) ;
    queue ⟸ own_get (λ o, default [] (ow_deferred o !! peer)) ;
    match active && negb (is_transitioning c), queue with
    | true, x :: rest =>
      own_modify (λ o, o <| ow_deferred ::= <[peer := rest]> |> <| ow_deferred_count ::= λ n, saturating_sub n 1 |>) ;;
      resolved ⟸ resolve x ;
      match resolved with
      | None => drop_empty_queue peer
      | Some x => flush_message peer session t c commands last_activity deadline x
      end
    | _, _ => own_ret tt
    end
  | _ => own_ret tt
  end.
Definition flush_deferred : Own unit :=
  peers ⟸ own_get (λ o, (map_to_list (ow_deferred o)).*1) ;
  for_each flush_peer peers.

(** ** The timer *)

Definition expire_one (peer : SocketAddr) : Own unit :=
  deadline ⟸ own_get (λ o, ow_authorized o !! peer) ;
  match deadline with
  | Some deadline =>
    if decide (mt_now m < deadline) then own_ret tt
    else
      wire_do (λ w, revoke_authorization w peer) ;; release peer ;; own_modify (λ o, o <| ow_authorized ::= delete peer |>)
  | None => own_ret tt
  end.
(** [preflight_authorized.retain(..)]. *)
Definition expire_authorizations : Own unit :=
  peers ⟸ own_get (λ o, (map_to_list (ow_authorized o)).*1) ;
  for_each expire_one peers.
(** [admission_permits.retain(..)] and [automatic_rekeys.retain(..)]. *)
Definition release_stale (peer : SocketAddr) : Own unit :=
  used ⟸ own_get (λ o, bool_decide (is_Some (ow_peers o !! peer)) || bool_decide (is_Some (ow_authorized o !! peer))) ;
  if used : bool then own_ret tt else release peer.
Definition retain_permits : Own unit :=
  peers ⟸ own_get (λ o, (map_to_list (ow_permits o)).*1) ;
  for_each release_stale peers ;;
  own_modify (λ o, o <| ow_rekeys ::= filter (λ kr, is_Some (ow_peers o !! kr.1)) |>).

(** The packets of the engines and the retransmissions, with what the socket took of them. *)
Definition took (p : SocketAddr * list byte) : bool := match mt_io m p.1 p.2 with Ok _ => true | Err _ => false end.
Definition flush_wire : Own unit :=
  sent ⟸ on_wire (λ w, '(_, sent, w) ← wire_flush w (mt_ms m); Done (sent, w)) ;
  for_each (λ _, count_protocol_error) (filter (λ p, took p = false) sent).*1 ;;
  own_modify (λ o, o <| ow_sent ::= λ l, l ++ filter (λ p, took p = true) sent |>).
Definition retry_failed (peer : SocketAddr) : Own Flow :=
  state ⟸ own_get (λ o, ow_peers o !! peer) ;
  match state with
  | None => own_ret Continue
  | Some p =>
    peers_do (delete peer) ;; discard p ;; forget_deferred peer ;;
    mine ⟸ own_get (λ o, bool_decide (ow_remote o = Some peer)) ;
    match peer_session p with
    | None => own_ret Continue
    | Some session =>
      if mine && negb (is_established p) then
        fail_owner su m (Some session) "datagram_control_retry" (mkRnetError ErrorCode.Timeout "datagram handshake timed out") ;;
        own_ret Stop
      else
        close_with_error su m session "datagram_control_retry"
          (mkRnetError ErrorCode.Timeout "datagram control retry limit reached") ;;
        own_ret Continue
    end
  end.
Fixpoint retries_failed (peers : list SocketAddr) : Own Flow :=
  match peers with
  | [] => own_ret Continue
  | peer :: peers =>
    flow ⟸ retry_failed peer ;
    match flow with Stop => own_ret Stop | Continue => retries_failed peers end
  end.
Definition retry_wire : Own Flow :=
  result ⟸ on_wire (λ w, Done (retry w (mt_now m))) ;
  own_modify (λ o, o <| ow_sent ::= λ l, l ++ filter (λ p, took p = true) result.2 |>) ;;
  retries_failed result.1.

Definition tick : Own Flow :=
  flow ⟸ tick_client ;
  match flow with
  | Stop => own_ret Stop
  | Continue =>
    expire_authorizations ;;
    drive_server ;;
    retain_permits ;;
    flush_deferred ;;
    flush_wire ;;
    retry_wire
  end.

(** ** The task *)

(** The variables before the loop. *)
Definition owner_new (sh : Shared) (remote : option SocketAddr) (candidates : list SocketAddr) (local : Result SocketAddr) : Owner :=
  let config := sh_config sh in
  mkOwner sh
    (with_telemetry (wire_new (su_kind su) (nc_max_datagram_size config) (nc_max_sessions_per_endpoint config)
                       (nc_max_session_queued_bytes config) (nc_max_runtime_queued_bytes config)))
    ∅ ∅ 0 ∅
    (admission_new (nc_max_sessions_per_ip config) (nc_handshake_rate_per_ip config) (nc_handshake_burst_per_ip config)
       (nc_max_sessions_per_endpoint config) (nc_ipv6_admission_prefix_bits config))
    ∅ ∅ remote candidates local [].
(** A client greets its server. *)
Definition start : Own Flow :=
  remote ⟸ own_get ow_remote ;
  match remote, su_initial_session su with
  | Some peer, Some session =>
    r ⟸ send_client_hello peer ;
    match r with
    | Err error => fail_owner su m (Some session) "datagram_hello" error ;; own_ret Stop
    | Ok _ => put_peer peer (PClientHello session (mt_now m)) ;; own_ret Continue
    end
  | _, _ => own_ret Continue
  end.

(** The branches of [select!]. *)
Inductive Branch :=
| Inbound (read : Result (SocketAddr * list byte))
| OutboundMessage
| CleanupRequest
| Tick.
Definition iterate (b : Branch) : Own Flow :=
  match b with
  | Inbound read => inbound read
  | OutboundMessage => outbound_message
  | CleanupRequest => cleanup_request
  | Tick => tick
  end.

End owner.
