(* ===== verification/DatagramSafety.v ===== *)
(** * What the task of a datagram endpoint keeps: the theorems about [DatagramOwner]

    The invariant of the task's state, for every branch of its loop; what a source must have shown
    before anything is kept for it; when a session is established. *)

From S2P Require Import Prelude Bytes CoreTypes Wire Observe EventQueue HandleTable Framing Control Security Transition.
From S2P Require Import TcpSession Outbound NetConfig Sessions Endpoints Admission Preflight DatagramWire DatagramPeer DatagramOwner.

(** ** The shared tables *)

(** The registry is in order, whatever other threads are in the middle of, and [n] more sessions fit. *)
Definition calm (n : nat) (sh : Shared) : Prop :=
  (∃ tasks removed, world_inv (mkWorld sh tasks removed)) ∧ Z.of_nat (size (table_map (sh_sessions sh))) + Z.of_nat n ≤ u32_max.

Lemma room_for_more {T} (t : HandleTable T) : table_wf t → Z.of_nat (size (table_map t)) < u32_max → has_room t.
Proof.
  intros Hwf. rewrite <- table_len_map by done. unfold table_len, has_room. destruct (free t) as [|i l] eqn:Hf; [|by left]. right.
  assert (Forall (λ s, occupied s) (slots t)) as Hall.
  { apply Forall_lookup_2. intros i s Hs. unfold occupied. destruct (value s) eqn:Hv; [done|].
    assert (i ∈ free t) as Hin by (apply (tw_free _ Hwf); exists s; done). rewrite Hf in Hin. set_solver. }
  enough (filter occupied (slots t) = slots t) as E by (by rewrite E in *).
  revert Hall. generalize (slots t). clear. induction 1 as [|s l Hs _ IH]; [done|]. rewrite filter_cons_True by done. by rewrite IH.
Qed.

Create HintDb own.

Section registry.
Context (display : string → RnetError → list byte).

Lemma calm_quiet n sh sh' : quiet sh sh' → calm n sh → calm n sh'.
Proof. intros Hq [(tasks & removed & I) Hn]. split; [exists tasks, removed; by eapply world_inv_quiet|]. by rewrite (qt_sessions _ _ Hq). Qed.
Lemma calm_less n n' sh : (n' ≤ n)%nat → calm n sh → calm n' sh.
Proof. intros Hle [I Hn]. split; [done|lia]. Qed.

Lemma close_calm n sh session reason detail joining now :
  calm n sh → ∃ sh', close display sh session reason detail joining now = Done sh' ∧ calm n sh' ∧ sh_config sh' = sh_config sh.
Proof.
  intros Hcalm. pose proof Hcalm as [(tasks & removed & I) Hn]. unfold close. destruct (table_remove (sh_sessions sh) session) as [[route t]|] eqn:Hrm; [|by exists sh].
  pose proof (wi_table _ I) as Hwf. destruct (table_remove_spec _ _ _ _ Hwf Hrm) as (Hwf' & Hget & Hm). cbn [w_shared] in *.
  pose proof (world_step_inv display _ _ (ws_remove display (mkWorld sh tasks removed) session route t reason detail joining Hrm) I) as I1.
  pose proof (task_has_pending _ _ tasks I1 (Permutation_refl _)) as Hp. cbn [w_shared w_tasks w_removed task_pending] in I1, Hp.
  set (sh1 := sh <| sh_sessions := t |>) in *.
  destruct (finish_close_effect display sh1 session route reason detail joining now Hp) as (sh' & E & S' & C' & _).
  exists sh'. split; [exact E|]. split; [|by rewrite C']. split.
  - exists tasks, (session :: removed). eapply (world_step_inv display); [|exact I1].
    exact (ws_finish display (mkWorld sh1 _ _) session route reason detail joining tasks now sh' (Permutation_refl _) E).
  - rewrite S'. change (sh_sessions sh1) with t. rewrite Hm. assert (size (delete session (table_map (sh_sessions sh))) ≤ size (table_map (sh_sessions sh)))%nat; [|lia].
    rewrite map_size_delete_Some by (by eexists). lia.
Qed.
Lemma publish_calm n sh e now : closed_session e = None → calm n sh → calm n (publish_lifecycle sh e now) ∧
  sh_config (publish_lifecycle sh e now) = sh_config sh.
Proof.
  intros He [(tasks & removed & [Hwf Hp Hl Hi Hc]) Hn]. destruct (publish_lifecycle_effect sh e now) as (S' & C' & P' & L').
  split; [|done]. split; [|by rewrite S']. exists tasks, removed. split; cbn in *; rewrite ?S', ?C', ?P', ?L'; try done.
  rewrite omap_app. cbn. rewrite He. by rewrite app_nil_r.
Qed.
Lemma fail_sessions_calm n handles initial phase error now : ∀ sh,
  calm n sh → ∃ sh', fail_sessions display sh handles initial phase error now = Done sh' ∧ calm n sh' ∧ sh_config sh' = sh_config sh.
Proof.
  induction handles as [|session handles IH]; intros sh Hc; [by exists sh|]. cbn [fail_sessions].
  destruct (close_calm n sh session (code error) (Some (phase, error)) (bool_decide (initial = Some session)) now Hc) as (sh1 & E & Hc1 & Cf).
  unfold fail_endpoint_session. rewrite E. cbn [mbind outcome_bind]. destruct (IH sh1 Hc1) as (sh2 & -> & Hc2 & Cf2). exists sh2. by rewrite Cf2, Cf.
Qed.
Lemma fail_endpoint_calm n sh endpoint initial phase error now :
  calm n sh → ∃ sh', fail_endpoint display sh endpoint initial phase error now = Done sh' ∧ calm n sh' ∧ sh_config sh' = sh_config sh.
Proof.
  intros Hc. unfold fail_endpoint. destruct (table_remove (sh_endpoints sh) endpoint) as [[r t]|]; [|by exists sh]. cbv zeta.
  match goal with |- context [publish_lifecycle ?s ?e ?now] => destruct (publish_calm n s e now eq_refl) as [Hc1 Cf1] end.
  { eapply calm_quiet, Hc. done. }
  match goal with |- context [fail_sessions _ ?s ?l _ _ _ _] => destruct (fail_sessions_calm n l initial phase error now s Hc1) as (sh' & E & Hc2 & Cf2) end.
  exists sh'. split; [done|]. split; [done|]. by rewrite Cf2, Cf1.
Qed.
Lemma mark_calm n sh session :
  calm n sh → ∃ r sh', mark_session_established sh session = Done (r, sh') ∧ calm n sh' ∧ sh_config sh' = sh_config sh.
Proof.
  intros [(tasks & removed & I) Hn]. assert (∃ r sh', mark_session_established sh session = Done (r, sh') ∧ sh_config sh' = sh_config sh ∧
    size (table_map (sh_sessions sh')) = size (table_map (sh_sessions sh))) as (r & sh' & E & Cf & Hsz).
  { unfold mark_session_established. destruct (table_get (sh_sessions sh) session) as [route|] eqn:Hget; [|by eexists _, _].
    destruct (release_pending_session_effect sh route (live_pending _ _ _ I Hget)) as (sh1 & -> & S1 & C1 & P1 & L1).
    cbn [mbind outcome_bind]. eexists _, _. split; [done|]. split; [exact C1|]. cbn. rewrite S1.
    destruct (table_get_mut_spec _ _ (λ r, r <| sr_established := true |> <| sr_auth_decision := false |>) _ (wi_table _ I) Hget) as (t & Et & _ & Hm).
    cbn in Et. rewrite Et. cbn. rewrite Hm. apply map_size_insert_Some. rewrite <- table_get_map by apply (wi_table _ I). by eexists. }
  exists r, sh'. split; [done|]. split; [|done]. split; [|by rewrite Hsz]. exists tasks, removed. exact (mark_session_established_inv _ _ _ _ I E).
Qed.
Lemma insert_calm n sh route :
  sr_established route = false → calm (S n) sh →
  ∃ r sh', insert_session_route sh route = Done (r, sh') ∧ calm n sh' ∧ sh_config sh' = sh_config sh.
Proof.
  intros Hr [(tasks & removed & I) Hn]. unfold insert_session_route. rewrite Hr.
  destruct (try_reserve_pending_handshake _ _) as [k|] eqn:Hk.
  - pose proof (world_step_inv display _ _ (ws_reserve display (mkWorld sh tasks removed) route k Hr Hk) I) as I1.
    cbn [w_shared w_tasks w_removed] in I1. set (sh1 := sh <| sh_metrics := k |>) in *.
    assert (has_room (sh_sessions sh)) as Hroom by (apply room_for_more; [apply (wi_table _ I)|lia]).
    destruct (table_insert_spec (sh_sessions sh) route (wi_table _ I) Hroom) as (h & t & E & _ & Hnone & Hm).
    change (sh_sessions sh1) with (sh_sessions sh). rewrite E. cbn [mbind outcome_bind]. eexists _, _. split; [done|].
    split; [|done]. split.
    + exists tasks, removed. eapply (world_step_inv display); [|exact I1].
      exact (ws_insert display (mkWorld sh1 _ removed) route tasks h t (Permutation_refl _) Hroom E).
    + cbn. rewrite Hm, map_size_insert_None by done. lia.
  - eexists _, _. split; [done|]. split; [|done]. apply (calm_quiet n sh); [done|]. apply (calm_less (S n)); [lia|]. split; [by eexists _, _|done].
Qed.
Lemma try_push_calm n sh e now :
  calm n sh → ∃ r sh', try_push_session_event display sh e now = Done (r, sh') ∧ calm n sh' ∧ sh_config sh' = sh_config sh.
Proof.
  intros Hc. unfold try_push_session_event. destruct (try_push _ _ _) as [[u|err] q]; [eexists _, _; split; [done|]; split; [|done]; eapply calm_quiet, Hc; done|].
  assert (calm n (sh <| sh_metrics ::= λ m, m <| nm_events_dropped ::= fetch_add 1 |> |>)) as Hc1 by (eapply calm_quiet, Hc; done).
  case_decide; [|by eexists _, _]. unfold remove_session, remove_session_with_reason.
  destruct (close_calm n _ (ev_session e) ErrorCode.Ok None false now Hc1) as (sh' & -> & Hc' & Cf'). by eexists _, _.
Qed.
Lemma retarget_session_calm n sh session peer :
  calm n sh → calm n (retarget_datagram_session sh session peer).2 ∧ sh_config (retarget_datagram_session sh session peer).2 = sh_config sh.
Proof.
  intros [(tasks & removed & [Hwf Hp Hl Hi Hc]) Hn]. cbn in *. unfold retarget_datagram_session.
  destruct (table_get (sh_sessions sh) session) as [route|] eqn:Hget; [|split; [split; [by exists tasks, removed|done]|done]].
  assert (∀ f, (∀ r, unopened (f r) = unopened r) →
    calm n (sh <| sh_sessions ::= λ t, default t (table_get_mut t session f) |>)) as Hmut; [|destruct (sr_target route); split; try done; try (by apply Hmut); split; [by exists tasks, removed|done]].
  intros f Hf. destruct (table_get_mut_spec _ _ f _ Hwf Hget) as (t & Et & Hwf' & Hm). rewrite table_get_map in Hget by done.
  split; cbn; rewrite Et; cbn; [|rewrite Hm, map_size_insert_Some by (by eexists); done]. exists tasks, removed. split; cbn; rewrite ?Et; cbn; try done.
  rewrite Hm, (sum_map_update _ _ _ route), Hp by done. rewrite Hf. lia.
Qed.
End registry.

(** ** Programs that keep the invariant *)

Section logic.
Context `{StatelessCipher} `{NoiseHandshake}.

Definition spec {A} (P : Owner → Prop) (p : Own A) (Q : A → Owner → Prop) : Prop :=
  ∀ o, P o → ∃ a o', p o = Done (a, o') ∧ Q a o'.

Lemma spec_ret {A} (P : Owner → Prop) (a : A) (Q : A → Owner → Prop) : (∀ o, P o → Q a o) → spec P (own_ret a) Q.
Proof. intros HQ o Ho. by exists a, o; auto. Qed.
Lemma spec_bind {A B} P (p : Own A) (k : A → Own B) R Q : spec P p R → (∀ a, spec (R a) (k a) Q) → spec P (own_bind p k) Q.
Proof.
  intros Hp Hk o Ho. destruct (Hp o Ho) as (a & o1 & E & Ho1). destruct (Hk a o1 Ho1) as (b & o2 & E2 & Ho2).
  exists b, o2. split; [|done]. unfold own_bind. rewrite E. exact E2.
Qed.
Lemma spec_try {A B} P (p : Own (Result A)) (k : A → Own (Result B)) R Q :
  spec P p R → (∀ a, spec (R (Ok a)) (k a) Q) → (∀ e o, R (Err e) o → Q (Err e) o) → spec P (own_try p k) Q.
Proof. intros Hp Hk He. eapply spec_bind; [exact Hp|]. intros [a|e]; [apply Hk|]. apply spec_ret. apply He. Qed.
Lemma spec_get {A} (P : Owner → Prop) (f : Owner → A) (Q : A → Owner → Prop) : (∀ o, P o → Q (f o) o) → spec P (own_get f) Q.
Proof. intros HQ o Ho. exists (f o), o. auto. Qed.
Lemma spec_modify (P : Owner → Prop) f (Q : unit → Owner → Prop) : (∀ o, P o → Q tt (f o)) → spec P (own_modify f) Q.
Proof. intros HQ o Ho. exists tt, (f o). auto. Qed.
Lemma spec_weaken {A} (P P' : Owner → Prop) (p : Own A) (Q Q' : A → Owner → Prop) :
  spec P' p Q' → (∀ o, P o → P' o) → (∀ a o, Q' a o → Q a o) → spec P p Q.
Proof. intros Hp HP HQ o Ho. destruct (Hp o (HP o Ho)) as (a & o' & E & Ho'). exists a, o'. auto. Qed.
End logic.

(** ** The invariant *)

Section invariant.
Context `{StatelessCipher} `{NoiseHandshake} `{Hmac}.
Context (stateless : hs_transport → sc_out * sc_in) (su : Setup) (cfg : NetConfig).

(** The wire and the permits are in order and within the configured limits, the count of deferred
    messages is right, and with [d] more it is within the capacity of the write queue. *)
Record owner_ok (n d : nat) (o : Owner) : Prop := {
  oo_calm : calm n (ow_shared o);
  oo_config : sh_config (ow_shared o) = cfg;
  oo_wire : wire_ok (ow_wire o);
  oo_fixed : fixed (ow_wire o) = (su_kind su, nc_max_datagram_size cfg, nc_max_sessions_per_endpoint cfg,
                                  nc_max_session_queued_bytes cfg, nc_max_runtime_queued_bytes cfg);
  oo_admission : admission_inv (ow_admission o) (map_to_list (ow_permits o)).*2;
  oo_limits : (ad_max_active (ow_admission o), ad_max_entries (ow_admission o)) =
              (nc_max_sessions_per_ip cfg, nc_max_sessions_per_endpoint cfg);
  oo_count : ow_deferred_count o = sum_map len (ow_deferred o);
  oo_room : ow_deferred_count o + Z.of_nat d ≤ nc_write_queue_capacity cfg
}.
Definition keeps {A} (p : Own A) : Prop := ∀ n d, spec (owner_ok n d) p (λ _, owner_ok n d).

Lemma keeps_ret {A} (a : A) : keeps (own_ret a).
Proof. intros n d. by apply spec_ret. Qed.
Lemma keeps_get {A} (f : Owner → A) : keeps (own_get f).
Proof. intros n d. by apply spec_get. Qed.
Lemma keeps_bind {A B} (p : Own A) (k : A → Own B) : keeps p → (∀ a, keeps (k a)) → keeps (own_bind p k).
Proof. intros Hp Hk n d. eapply spec_bind; [apply Hp|]. intros a. apply Hk. Qed.
Lemma keeps_try {A B} (p : Own (Result A)) (k : A → Own (Result B)) : keeps p → (∀ a, keeps (k a)) → keeps (own_try p k).
Proof. intros Hp Hk. apply keeps_bind; [done|]. intros [a|e]; [apply Hk|apply keeps_ret]. Qed.

(** What the invariant looks at. *)
Lemma owner_ok_frame n d o o' :
  ow_shared o' = ow_shared o → ow_wire o' = ow_wire o → ow_admission o' = ow_admission o → ow_permits o' = ow_permits o →
  ow_deferred o' = ow_deferred o → ow_deferred_count o' = ow_deferred_count o → owner_ok n d o → owner_ok n d o'.
Proof. intros E1 E2 E3 E4 E5 E6 [? ? ? ? ? ? ? ?]. split; rewrite ?E1, ?E2, ?E3, ?E4, ?E5, ?E6; done. Qed.
Lemma owner_ok_less n d n' d' o : (n' ≤ n)%nat → (d' ≤ d)%nat → owner_ok n d o → owner_ok n' d' o.
Proof. intros Hn Hd [? ? ? ? ? ? ? ?]. split; try done; [by eapply calm_less|lia]. Qed.

Lemma keeps_aside (f : Owner → Owner) :
  (∀ o, ow_shared (f o) = ow_shared o ∧ ow_wire (f o) = ow_wire o ∧ ow_admission (f o) = ow_admission o ∧ ow_permits (f o) = ow_permits o ∧
        ow_deferred (f o) = ow_deferred o ∧ ow_deferred_count (f o) = ow_deferred_count o) → keeps (own_modify f).
Proof. intros Hf n d. apply spec_modify. intros o. destruct (Hf o) as (? & ? & ? & ? & ? & ?). by apply owner_ok_frame. Qed.
Lemma keeps_shared_do f : (∀ sh, quiet sh (f sh)) → keeps (shared_do f).
Proof.
  intros Hf n d. apply spec_modify. intros o [? ? ? ? ? ? ? ?]. split; try done; cbn.
  - eapply calm_quiet; [apply Hf|done].
  - by rewrite (qt_config _ _ (Hf (ow_shared o))).
Qed.
Lemma spec_on_shared {A} n n' d (f : Shared → outcome (A * Shared)) :
  (∀ sh, calm n sh → ∃ a sh', f sh = Done (a, sh') ∧ calm n' sh' ∧ sh_config sh' = sh_config sh) →
  spec (owner_ok n d) (on_shared f) (λ _, owner_ok n' d).
Proof.
  intros Hf o [? ? ? ? ? ? ? ?]. destruct (Hf (ow_shared o)) as (a & sh' & E & Hc & Ecfg); [done|].
  exists a, (o <| ow_shared := sh' |>). unfold on_shared. rewrite E. split; [done|]. split; try done. cbn. by rewrite Ecfg.
Qed.
Lemma keeps_on_shared {A} (f : Shared → outcome (A * Shared)) :
  (∀ n sh, calm n sh → ∃ a sh', f sh = Done (a, sh') ∧ calm n sh' ∧ sh_config sh' = sh_config sh) → keeps (on_shared f).
Proof. intros Hf n d. apply spec_on_shared, Hf. Qed.
Lemma keeps_on_wire {A} (f : DatagramWire → outcome (A * DatagramWire)) :
  (∀ w, wire_ok w → ∃ a w' b, f w = Done (a, w') ∧ wire_step w b w') → keeps (on_wire f).
Proof.
  intros Hf n d o [? ? ? ? ? ? ? ?]. destruct (Hf (ow_wire o)) as (a & w' & b & E & Hs); [done|]. exists a, (o <| ow_wire := w' |>).
  unfold on_wire. rewrite E. split; [done|]. split; try done; cbn; [by eapply wire_step_ok|]. rewrite (wire_step_fixed _ _ _ oo_wire0 Hs). done.
Qed.
Lemma keeps_wire_do f : (∀ w, wire_step w false (f w)) → keeps (wire_do f).
Proof.
  intros Hf n d. apply spec_modify. intros o [? ? ? ? ? ? ? ?]. split; try done; cbn; [by eapply wire_step_ok|].
  rewrite (wire_step_fixed _ _ _ oo_wire0 (Hf (ow_wire o))). done.
Qed.

(** *** Permits *)

Lemma admission_inv_perm c l l' : l ≡ₚ l' → admission_inv c l → admission_inv c l'.
Proof. intros Hp [Ha Hl Hs]. split; [|done|done]. intros key. rewrite Ha. unfold held. by rewrite Hp. Qed.
Lemma keeps_release peer : keeps (release peer).
Proof.
  intros n d. apply spec_modify. intros o Ho. cbn. destruct (ow_permits o !! peer) as [key|] eqn:E; [|done].
  destruct Ho as [? ? ? ? Ha ? ? ?]. split; try done. cbn.
  refine (admission_step_inv (ow_admission o, _) (permit_release (ow_admission o) key, _) _ Ha). apply as_release. by rewrite <- (map_to_list_delete _ _ _ E).
Qed.
Lemma keeps_count_rejected reason : keeps (count_rejected reason).
Proof. apply keeps_shared_do. done. Qed.
Lemma acquire_ok m peer n d :
  spec (λ o, owner_ok n d o ∧ ow_permits o !! peer = None) (acquire m peer) (λ _, owner_ok n d).
Proof.
  intros o [Ho Hnone]. unfold acquire. destruct (try_acquire_at _ _ _) as [r c] eqn:E.
  pose proof (try_acquire_table (ow_admission o) (ip_of peer) (mt_now m)) as T. rewrite E in T. destruct T as (Hm & Hx & _ & _ & _).
  destruct Ho as [? ? ? ? Ha Hl ? ?]. destruct r as [key|reason].
  - eexists _, _. split; [done|]. split; try done; cbn; [|by rewrite Hm, Hx].
    apply (admission_inv_perm _ (key :: (map_to_list (ow_permits o)).*2)); [by rewrite (map_to_list_insert _ _ _ Hnone)|].
    refine (admission_step_inv (ow_admission o, _) (c, key :: _) _ Ha). exact (as_acquire _ _ (ip_of peer) (mt_now m) key c E).
  - destruct (keeps_count_rejected (metric_reason reason) n d (o <| ow_admission := c |>)) as (u & o2 & E2 & Ho2); [|rewrite E2; by eexists _, _].
    split; try done; cbn; [|by rewrite Hm, Hx].
    refine (admission_step_inv (ow_admission o, _) (c, _) _ Ha). exact (as_refuse _ _ (ip_of peer) (mt_now m) reason c E).
Qed.

(** *** Handlers *)

Context (m : Moment).

Ltac keep :=
  repeat first
    [ progress cbv zeta beta | apply keeps_ret | apply keeps_get | solve [auto 1 with own nocore]
    | apply keeps_bind; [|intros ?] | apply keeps_try; [|intros ?]
    | match goal with |- keeps (match ?x with _ => _ end) => destruct x end
    | match goal with |- keeps ((match ?x with _ => _ end) _ _ _ _ _ _) => destruct x end
    | solve [apply keeps_aside; intros ?; split_and!; done] | solve [apply keeps_shared_do; done] ].

Hint Resolve keeps_count_rejected keeps_release : own.

Lemma keeps_count_protocol_error : keeps count_protocol_error.
Proof. unfold count_protocol_error, metrics_do. keep. Qed.
Lemma keeps_peers_do f : keeps (peers_do f).
Proof. unfold peers_do. keep. Qed.
Lemma keeps_rekeys_do f : keeps (rekeys_do f).
Proof. unfold rekeys_do. keep. Qed.
Lemma keeps_put_peer peer p : keeps (put_peer peer p).
Proof. apply keeps_peers_do. Qed.
Lemma keeps_discard p : keeps (discard p).
Proof. unfold discard. keep. Qed.
Hint Resolve keeps_count_protocol_error keeps_peers_do keeps_rekeys_do keeps_put_peer keeps_discard : own.
Lemma keeps_discard_option p : keeps (discard_option p).
Proof. unfold discard_option. keep. Qed.
Lemma keeps_remove_peer peer : keeps (wire_do (λ w, remove_peer w peer)).
Proof. apply keeps_wire_do. intros w. apply step_remove. Qed.
Lemma keeps_transmit peer bytes : keeps (transmit m peer bytes).
Proof.
  intros n d o Ho. unfold transmit. destruct (mt_io m peer bytes); eexists _, _; (split; [done|]); [|done]. by apply (owner_ok_frame n d o).
Qed.
Lemma keeps_sent_log peer r : keeps (log_sent peer r).
Proof.
  intros n d o Ho. unfold log_sent. destruct r as [[bytes|]|e]; eexists _, _; (split; [done|]); [|done..]. by apply (owner_ok_frame n d o).
Qed.
Hint Resolve keeps_discard_option keeps_remove_peer keeps_transmit keeps_sent_log : own.

Lemma keeps_send_data peer record max : keeps (send_data m peer record max).
Proof.
  unfold send_data. keep. apply keeps_on_wire. intros w Hw. destruct (wire_send_ok w (mt_ms m) (io_of m peer record max) peer record max Hw) as (r & w' & E & _).
  exists r, w', false. split; [done|]. by eapply step_send.
Qed.
Lemma keeps_send_control peer record max : keeps (send_control m peer record max).
Proof.
  unfold send_control. keep. apply keeps_on_wire. intros w Hw.
  destruct (send_reliable_ok w (mt_now m) (mt_ms m) (io_of m peer record max) peer record max Hw) as (r & w' & E & _).
  exists r, w', false. split; [done|]. by eapply step_reliable.
Qed.
Lemma keeps_send_answer peer record max : keeps (send_answer m peer record max).
Proof.
  unfold send_answer. keep. apply keeps_on_wire. intros w Hw. destruct (send_response_ok w (mt_ms m) (io_of m peer record max) peer record max Hw) as (r & w' & E & _).
  exists r, w', false. split; [done|]. by eapply step_response.
Qed.
Lemma keeps_authorize peer conv : in_u32 conv → keeps (authorize peer conv).
Proof.
  intros Hc. apply keeps_on_wire. intros w Hw. destruct (authorize_peer w peer conv) as [r w'] eqn:E. exists r, w', false. split; [done|]. by eapply step_authorize.
Qed.
Lemma keeps_push_event e : keeps (push_event su m e).
Proof. apply keeps_on_shared. intros n sh Hc. destruct (try_push_calm (su_display su) n sh e (mt_now m) Hc) as (r & sh' & E). by exists r, sh'. Qed.
Lemma keeps_close_with_error session phase error : keeps (close_with_error su m session phase error).
Proof.
  apply keeps_on_shared. intros n sh Hc. unfold remove_session_with_error.
  destruct (close_calm (su_display su) n sh session (code error) (Some (phase, error)) false (mt_now m) Hc) as (sh' & -> & Hc' & Ec). by exists tt, sh'.
Qed.
Lemma keeps_fail_owner session phase error : keeps (fail_owner su m session phase error).
Proof.
  apply keeps_on_shared. intros n sh Hc.
  destruct (fail_endpoint_calm (su_display su) n sh (su_endpoint su) session phase error (mt_now m) Hc) as (sh' & -> & Hc' & Ec). by exists tt, sh'.
Qed.
Lemma keeps_mark session : keeps (on_shared (λ sh, mark_session_established sh session)).
Proof. apply keeps_on_shared. intros n sh Hc. destruct (mark_calm n sh session Hc) as (r & sh' & E). by exists r, sh'. Qed.
Hint Resolve keeps_send_data keeps_send_control keeps_send_answer keeps_push_event keeps_close_with_error keeps_fail_owner keeps_mark : own.

Lemma keeps_preflight_hello peer conv cookie : in_u32 conv → keeps (preflight_hello su m peer conv cookie).
Proof.
  intros Hc. unfold preflight_hello. destruct (_ && _); [|keep]. intros n d.
  eapply (spec_bind _ _ _ (λ held o, owner_ok n d o ∧ (held = false → ow_permits o !! peer = None))).
  { apply spec_get. intros o Ho. split; [done|]. intros Hn%bool_decide_eq_false. by apply eq_None_not_Some. }
  intros held. eapply (spec_bind _ _ _ (λ _, owner_ok n d)).
  - destruct held; [apply spec_ret; by intros o [Ho _]|]. eapply spec_weaken; [apply (acquire_ok m peer n d)| |done]. intros o [Ho Hn]. by auto.
  - intros granted. revert n d. change (keeps (if granted then (r ⟸ authorize peer conv ; match r with
      | Ok _ => timeout ⟸ config nc_handshake_timeout ; own_modify (λ o, o <| ow_authorized ::= <[peer := mt_now m + timeout]> |>)
      | Err _ => release peer ;; count_rejected AdmissionRejectReason.KcpPeerLimit end) else own_ret tt)).
    pose proof (keeps_authorize peer conv Hc). keep.
Qed.
Lemma keeps_preflight_challenge peer conv cookie : in_u32 conv → keeps (preflight_challenge m peer conv cookie).
Proof. intros Hc. unfold preflight_challenge. pose proof (keeps_authorize peer conv Hc). keep. Qed.
Lemma keeps_handle_preflight peer packet : keeps (handle_preflight su m peer packet).
Proof.
  assert (∀ x, decode_preflight packet = Some x → preflight_ok x) as Hok by (intros x E; by destruct (decode_preflight_sound _ _ E)).
  unfold handle_preflight. destruct (decode_preflight packet) as [[conv cookie|conv cookie]|]; [specialize (Hok _ eq_refl) as (Hc & _)..|].
  - pose proof (keeps_preflight_hello peer conv cookie Hc). keep.
  - pose proof (keeps_preflight_challenge peer conv cookie Hc). keep.
  - keep.
Qed.

Lemma keeps_own_of {A} (r : Result A) : keeps (own_of r).
Proof. apply keeps_ret. Qed.
Hint Resolve keeps_handle_preflight keeps_own_of : own.
Lemma keeps_send_protected peer t e kind data max : keeps (send_protected m peer t e kind data max).
Proof. unfold send_protected, send_protected_with. keep. Qed.
Lemma keeps_send_protected_response peer t e kind data max : keeps (send_protected_response m peer t e kind data max).
Proof. unfold send_protected_response, send_protected_with. keep. Qed.
Hint Resolve keeps_send_protected keeps_send_protected_response : own.
Lemma keeps_handle_control peer session t c record payload : keeps (handle_control su m peer session t c record payload).
Proof. unfold handle_control. keep. Qed.
Hint Resolve keeps_handle_control : own.
Lemma keeps_handle_established peer session t c record : keeps (handle_established su m peer session t c record).
Proof. unfold handle_established, count_received, metrics_do. keep. Qed.
Hint Resolve keeps_handle_established : own.

(** Every arm but the one that opens a session. *)
Lemma keeps_process_hello peer previous key mode record : keeps (process_hello su m peer previous key mode record).
Proof. unfold process_hello. keep. Qed.
Lemma keeps_process_server_hello peer session started join record : keeps (process_server_hello su m peer session started join record).
Proof. unfold process_server_hello. keep. Qed.
Lemma keeps_process_first peer handshake started record : keeps (process_first m peer handshake started record).
Proof. unfold process_first. keep. Qed.
Lemma keeps_process_response peer session handshake join mode started record :
  keeps (process_response stateless m peer session handshake join mode started record).
Proof. unfold process_response. keep. Qed.
Lemma keeps_process_decision peer session t mode record : keeps (process_decision su m peer session t mode record).
Proof. unfold process_decision. keep. Qed.
Lemma keeps_process_established peer session t c commands last deadline record :
  keeps (process_established su m peer session t c commands last deadline record).
Proof. unfold process_established. keep. Qed.
Hint Resolve keeps_process_hello keeps_process_server_hello keeps_process_first keeps_process_response keeps_process_decision
  keeps_process_established : own.

(** A step that may open one session. *)
Definition opens {A} (p : Own A) : Prop := ∀ n d, spec (owner_ok (S n) d) p (λ _, owner_ok n d).
Lemma keeps_opens {A} (p : Own A) : keeps p → opens p.
Proof. intros Hp n d. eapply spec_weaken; [apply (Hp n d)| |done]. intros o. apply owner_ok_less; lia. Qed.
Lemma opens_bind_keeps {A B} (p : Own A) (k : A → Own B) : opens p → (∀ a, keeps (k a)) → opens (own_bind p k).
Proof. intros Hp Hk n d. eapply spec_bind; [apply Hp|]. intros a. apply Hk. Qed.
Lemma keeps_bind_opens {A B} (p : Own A) (k : A → Own B) : keeps p → (∀ a, opens (k a)) → opens (own_bind p k).
Proof. intros Hp Hk n d. eapply spec_bind; [apply Hp|]. intros a. apply Hk. Qed.

Lemma opens_open_session peer : opens (open_session su m peer).
Proof.
  intros n d. apply spec_on_shared. intros sh Hc. cbv zeta.
  match goal with |- context [insert_session_route ?s ?r] => destruct (insert_calm (su_display su) n s r eq_refl) as (r1 & sh1 & E & Hc1 & Ec) end.
  { eapply calm_quiet, Hc. done. }
  rewrite E. cbn [mbind outcome_bind]. eexists _, _. split; [done|]. destruct r1; [|done]. split; [|exact Ec]. eapply calm_quiet, Hc1. done.
Qed.
Lemma opens_process_finish peer handshake mode record : opens (process_finish stateless su m peer handshake mode record).
Proof.
  unfold process_finish. apply keeps_bind_opens; [keep|]. intros [[[join key] t]|e]; [|apply keeps_opens; keep].
  apply opens_bind_keeps; [apply opens_open_session|]. intros r. keep.
Qed.
Lemma opens_process_arm peer previous record : opens (process_arm stateless su m peer previous record).
Proof.
  unfold process_arm. repeat match goal with |- opens (match ?x with _ => _ end) => destruct x end;
    try apply opens_process_finish; apply keeps_opens; keep.
Qed.
Lemma opens_process peer record : opens (process stateless su m peer record).
Proof.
  unfold process. apply keeps_bind_opens; [keep|]. intros previous. apply keeps_bind_opens; [keep|]. intros _.
  apply opens_bind_keeps; [apply opens_process_arm|]. intros next. keep.
Qed.

(** *** A packet *)

Lemma keeps_store_do f : keeps (store_do f).
Proof. unfold store_do. keep. Qed.
Lemma keeps_drop_message x : keeps (drop_message x).
Proof. apply keeps_store_do. Qed.
Lemma keeps_resolve x : keeps (resolve x).
Proof.
  apply keeps_on_shared. intros n sh Hc. destruct (resolve_latest (sh_store sh) x) as [r st]. eexists _, _. split; [done|]. split; [|done].
  eapply calm_quiet, Hc. done.
Qed.
Hint Resolve keeps_store_do keeps_drop_message keeps_resolve : own.

Lemma deferred_nonneg (m' : gmap SocketAddr (list Outbound)) : 0 ≤ sum_map len m'.
Proof. apply sum_map_nonneg. intros x. apply len_nonneg. Qed.
Lemma deferred_set n d d' o o' :
  owner_ok n d o →
  ow_shared o' = ow_shared o → ow_wire o' = ow_wire o → ow_admission o' = ow_admission o → ow_permits o' = ow_permits o →
  ow_deferred_count o' = sum_map len (ow_deferred o') → ow_deferred_count o' + Z.of_nat d' ≤ ow_deferred_count o + Z.of_nat d → owner_ok n d' o'.
Proof. intros [? ? ? ? ? ? ? ?] E1 E2 E3 E4 Ec Hle. split; rewrite ?E1, ?E2, ?E3, ?E4; try done. lia. Qed.
Lemma keeps_forget_deferred peer : keeps (forget_deferred peer).
Proof.
  intros n d. unfold forget_deferred. eapply (spec_bind _ _ _ (λ q o, owner_ok n d o ∧ ow_deferred o !! peer = q)); [by apply spec_get|].
  intros [queue|]; [|apply spec_ret; by intros o [Ho _]].
  eapply (spec_bind _ _ _ (λ _, owner_ok n d)); [|intros _; apply keeps_store_do]. apply spec_modify. intros o [Ho Eq].
  pose proof (sum_map_delete len _ _ _ Eq) as Hsum. pose proof (deferred_nonneg (delete peer (ow_deferred o))) as Hnn. pose proof (len_nonneg queue).
  pose proof (oo_count _ _ _ Ho) as Ec. apply (deferred_set n d d o); try done; cbn; unfold saturating_sub; lia.
Qed.
Lemma keeps_drop_empty_queue peer : keeps (drop_empty_queue peer).
Proof.
  intros n d. apply spec_modify. intros o Ho. destruct (ow_deferred o !! peer) as [[|x l]|] eqn:E; [|done..].
  pose proof (sum_map_delete len _ _ _ E) as Hsum. rewrite len_nil in Hsum. pose proof (oo_count _ _ _ Ho) as Ec.
  apply (deferred_set n d d o); try done; cbn; lia.
Qed.
Hint Resolve keeps_forget_deferred keeps_drop_empty_queue : own.

Lemma keeps_arm_rekey peer : keeps (arm_rekey m peer).
Proof. unfold arm_rekey. keep. Qed.
Lemma keeps_count_sent peer c x : keeps (count_sent peer c x).
Proof. unfold count_sent, metrics_do. keep. Qed.
Hint Resolve keeps_arm_rekey keeps_count_sent : own.

Lemma keeps_admit_hello peer record : keeps (admit_hello su m peer record).
Proof.
  unfold admit_hello. intros n d.
  eapply (spec_bind _ _ _ (λ u o, owner_ok n d o ∧ (u = true → ow_permits o !! peer = None))).
  { apply spec_get. intros o Ho. split; [done|]. intros [_ Hn]%andb_prop. by apply bool_decide_eq_true in Hn. }
  intros u. destruct (su_security su); [|apply spec_ret; by intros o [Ho _]]. destruct (_ && _) eqn:Ea; [|apply spec_ret; by intros o [Ho _]].
  eapply spec_weaken; [apply (acquire_ok m peer n d)| |done]. intros o [Ho Hn]. split; [done|]. apply Hn. destruct u; [done|].
  by rewrite andb_false_r in Ea.
Qed.
Lemma keeps_after_failure peer prior joining error : keeps (after_failure su m peer prior joining error).
Proof. unfold after_failure. keep. Qed.
Hint Resolve keeps_admit_hello keeps_after_failure : own.
Lemma keeps_end_input success : keeps (wire_do (λ w, end_input w success)).
Proof. apply keeps_wire_do. intros w. apply step_end. Qed.
Lemma keeps_begin_input peer bytes : keeps (on_wire (λ w, Done (begin_input w peer bytes))).
Proof. apply keeps_on_wire. intros w Hw. destruct (begin_input w peer bytes) as [x w'] eqn:E. exists x, w', false. split; [done|]. pose proof (step_begin w peer bytes) as Hs. by rewrite E in Hs. Qed.
Lemma keeps_answer_again peer reply : keeps (answer_again m peer reply).
Proof. unfold answer_again. keep. Qed.
Hint Resolve keeps_end_input keeps_begin_input keeps_answer_again : own.

Lemma opens_handle_record peer record : opens (handle_record stateless su m peer record).
Proof.
  unfold handle_record. apply keeps_bind_opens; [keep|]. intros prior. apply keeps_bind_opens; [keep|]. intros joining.
  apply opens_bind_keeps; [apply opens_process|]. intros processed. keep.
Qed.
Lemma opens_receive_record peer bytes : opens (receive_record stateless su m peer bytes).
Proof.
  unfold receive_record. apply keeps_bind_opens; [keep|]. intros body. apply keeps_bind_opens; [keep|]. intros size. cbv zeta.
  destruct (decode_record _ _) as [record|e]; [|apply keeps_opens; keep]. apply keeps_bind_opens; [keep|]. intros [|]; cbn [negb]; [|apply keeps_opens; keep].
  destruct (decide _); [apply opens_handle_record|]. apply keeps_bind_opens; [keep|]. intros [[|] reply]; cbn [fst snd]; [apply keeps_opens; keep|].
  apply opens_handle_record.
Qed.
Lemma receive_records_ok peer l : ∀ n d, spec (owner_ok (length l + n) d) (receive_records stateless su m peer l) (λ _, owner_ok n d).
Proof.
  induction l as [|bytes l IH]; intros n d; cbn [receive_records length]; [by apply spec_ret|].
  eapply (spec_bind _ _ _ (λ _, owner_ok (length l + n) d)); [apply opens_receive_record|]. intros [|]; [apply IH|].
  apply spec_ret. intros o. apply owner_ok_less; lia.
Qed.
Lemma inbound_ok read n d : spec (owner_ok (256 + n) d) (inbound stateless su m read) (λ _, owner_ok n d).
Proof.
  assert (∀ {A} (p : Own A), keeps p → spec (owner_ok (256 + n) d) p (λ _, owner_ok n d)) as Hk.
  { intros A p Hp. eapply spec_weaken; [apply (Hp n d)| |done]. intros o. apply owner_ok_less; lia. }
  destruct read as [[peer packet]|e]; cbn [inbound]; [|apply Hk; keep]. unfold inbound_packet.
  eapply (spec_bind _ _ _ (λ _, owner_ok (256 + n) d)); [apply keeps_handle_preflight|]. intros [[|]|e]; [apply Hk; keep| |apply Hk; keep].
  eapply (spec_bind _ _ _ (λ r o, owner_ok (256 + n) d o ∧ ∀ l, r = Ok l → (length l ≤ 256)%nat)).
  - intros o Ho. destruct (receive (ow_wire o) (mt_ms m) peer packet) as [r w'] eqn:E.
    destruct (keeps_on_wire (λ w, Done (receive w (mt_ms m) peer packet))) with (n := (256 + n)%nat) (d := d) (o := o) as (r' & o' & E' & Ho'); [|done|].
    { intros w Hw. destruct (receive w (mt_ms m) peer packet) as [r2 w2] eqn:E2. exists r2, w2, true. split; [done|]. by eapply step_receive. }
    exists r', o'. split; [exact E'|]. split; [done|]. unfold on_wire in E'. rewrite E in E'. cbn in E'. injection E' as <- _. intros l ->.
    eapply receive_length; [|exact E]. apply Ho.
  - intros [l|e].
    + eapply (spec_bind _ _ _ (λ _ o, owner_ok (256 + n) d o ∧ (length l ≤ 256)%nat)).
      { apply spec_modify. intros o [Ho Hl]. split; [|by apply Hl]. destruct (has_peer _ _); [|done]. by apply (owner_ok_frame _ _ o). }
      intros _. intros o [Ho Hl]. apply (receive_records_ok peer l n d). eapply owner_ok_less, Ho; lia.
    + intros o [Ho _]. revert o Ho. apply Hk. keep.
Qed.

(** *** A message *)

(** A step that may defer one message. *)
Definition defers {A} (p : Own A) : Prop := ∀ n d, spec (owner_ok n (S d)) p (λ _, owner_ok n d).
Lemma keeps_defers {A} (p : Own A) : keeps p → defers p.
Proof. intros Hp n d. eapply spec_weaken; [apply (Hp n d)| |done]. intros o. apply owner_ok_less; lia. Qed.
Lemma defers_bind_keeps {A B} (p : Own A) (k : A → Own B) : defers p → (∀ a, keeps (k a)) → defers (own_bind p k).
Proof. intros Hp Hk n d. eapply spec_bind; [apply Hp|]. intros a. apply Hk. Qed.
Lemma keeps_bind_defers {A B} (p : Own A) (k : A → Own B) : keeps p → (∀ a, defers (k a)) → defers (own_bind p k).
Proof. intros Hp Hk n d. eapply spec_bind; [apply Hp|]. intros a. apply Hk. Qed.

Lemma sum_map_set (m' : gmap SocketAddr (list Outbound)) peer l :
  sum_map len (<[peer := l]> m') = len l - len (default [] (m' !! peer)) + sum_map len m'.
Proof.
  destruct (m' !! peer) as [q|] eqn:E; cbn; [by apply sum_map_update|]. rewrite sum_map_insert, len_nil by done. lia.
Qed.
Lemma defers_back peer x : defers (defer_back peer x).
Proof.
  intros n d. apply spec_modify. intros o Ho. pose proof (oo_count _ _ _ Ho) as Ec. apply (deferred_set n (S d) d o); try done; cbn; [|lia].
  rewrite sum_map_set, len_app, len_cons, len_nil. lia.
Qed.
Lemma defers_front peer x : defers (defer_front peer x).
Proof.
  intros n d. apply spec_modify. intros o Ho. pose proof (oo_count _ _ _ Ho) as Ec. apply (deferred_set n (S d) d o); try done; cbn; [|lia].
  rewrite sum_map_set, len_cons. lia.
Qed.

Lemma defers_send_now peer session t c commands last deadline x : defers (send_now su m peer session t c commands last deadline x).
Proof.
  unfold send_now. cbv zeta. apply keeps_bind_defers; [keep|]. intros [y|]; [|apply keeps_defers; keep].
  apply keeps_bind_defers; [keep|]. intros body. apply keeps_bind_defers; [keep|]. intros size. destruct (seal t c y body) as [[record|e] t'].
  - apply keeps_bind_defers; [keep|]. intros [u|e]; [apply keeps_defers; keep|]. case_decide; [|apply keeps_defers; keep].
    apply defers_bind_keeps; [apply defers_back|]. intros _. keep.
  - apply keeps_defers. keep.
Qed.
Lemma defers_outbound_item peer x : defers (outbound_item su m peer x).
Proof.
  unfold outbound_item. apply keeps_bind_defers; [keep|]. intros taken. apply keeps_bind_defers; [keep|]. intros _.
  destruct taken as [p|]; [|apply keeps_defers; keep]. destruct p; try (apply keeps_defers; solve [keep]).
  apply keeps_bind_defers; [keep|]. intros active. destruct (_ && _); [apply defers_send_now|].
  apply defers_bind_keeps; [|intros _; keep]. destruct active; [apply defers_back|apply keeps_defers; keep].
Qed.
Lemma outbound_ok n : spec (owner_ok n 0) (outbound_message su m) (λ _, owner_ok n 0).
Proof.
  unfold outbound_message.
  eapply (spec_bind _ _ _ (λ room o, owner_ok n (if room : bool then 1 else 0) o)).
  { apply spec_get. intros o Ho. pose proof (oo_config _ _ _ Ho) as Ecfg. case_bool_decide as Hr; [|done].
    destruct Ho. split; try done. rewrite <- Ecfg. lia. }
  intros [|]; [|by apply spec_ret]. eapply (spec_bind _ _ _ (λ _, owner_ok n 1)).
  { apply spec_on_shared. intros sh Hc. destruct (channel_recv _ _) as [r st]. eexists _, _. split; [done|]. split; [|done]. eapply calm_quiet, Hc. done. }
  intros [[[peer|] x]|].
  - eapply spec_bind; [apply (defers_outbound_item peer x n 0%nat)|]. intros u. by apply spec_ret.
  - apply keeps_defers. keep.
  - apply keeps_defers. keep.
Qed.

(** *** Cleanup and the timer *)

Lemma keeps_cleanup : keeps (cleanup_request su).
Proof. unfold cleanup_request, cleanup_peer. keep. Qed.
Lemma keeps_send_client_hello peer : keeps (send_client_hello su m peer).
Proof. unfold send_client_hello. keep. Qed.
Lemma keeps_rebind session next : keeps (rebind su m session next).
Proof.
  unfold rebind. keep. apply keeps_on_shared. intros n sh Hc. unfold retarget_datagram_endpoint.
  destruct (table_get_mut _ _ _) as [t|]; [|by eexists _, _]. eexists _, _. split; [done|]. split; [|done]. eapply calm_quiet, Hc. done.
Qed.
Hint Resolve keeps_send_client_hello keeps_rebind : own.
Lemma keeps_retarget session next : keeps (on_shared (λ sh, Done (retarget_datagram_session sh session next))).
Proof.
  apply keeps_on_shared. intros n sh Hc. destruct (retarget_session_calm n sh session next Hc) as [Hc' Ec].
  destruct (retarget_datagram_session sh session next) as [r sh']. by exists r, sh'.
Qed.
Hint Resolve keeps_retarget : own.
Lemma keeps_push_endpoint_error status text :
  keeps (shared_do (λ sh, push_endpoint_error sh (su_endpoint su) status text (mt_now m))).
Proof. apply keeps_shared_do. intros sh. unfold push_endpoint_error. by destruct (try_push _ _ _) as [[]]. Qed.
Hint Resolve keeps_push_endpoint_error : own.
Lemma keeps_tick_client : keeps (tick_client su m).
Proof. unfold tick_client, try_next. keep. Qed.

Lemma keeps_for_each f l : (∀ x, keeps (f x)) → keeps (for_each f l).
Proof. intros Hf. induction l as [|x l IH]; cbn [for_each]; [apply keeps_ret|]. apply keeps_bind; [apply Hf|]. intros _. exact IH. Qed.
Lemma keeps_remove_reason session reason :
  keeps (on_shared (λ sh, sh ← remove_session_with_reason (su_display su) sh session reason (mt_now m); Done (tt, sh))).
Proof.
  apply keeps_on_shared. intros n sh Hc. unfold remove_session_with_reason.
  destruct (close_calm (su_display su) n sh session reason None false (mt_now m) Hc) as (sh' & -> & Hc' & Ec). by exists tt, sh'.
Qed.
Hint Resolve keeps_remove_reason : own.
Lemma keeps_decided peer session t mode started accepted : keeps (decided su m peer session t mode started accepted).
Proof. unfold decided. keep. Qed.
Lemma keeps_next_command peer session c commands : keeps (next_command m peer session c commands).
Proof. unfold next_command. keep. Qed.
Lemma keeps_automatic_rekey_due peer c commands control : keeps (automatic_rekey_due m peer c commands control).
Proof. unfold automatic_rekey_due. keep. Qed.
Hint Resolve keeps_decided keeps_next_command keeps_automatic_rekey_due : own.
Lemma keeps_drive_peer peer : keeps (drive_peer su m peer).
Proof. unfold drive_peer, drive_state, drive_established. keep. Qed.

Lemma defers_flush_message peer session t c commands last deadline x : defers (flush_message su m peer session t c commands last deadline x).
Proof.
  unfold flush_message. cbv zeta. apply keeps_bind_defers; [keep|]. intros body. apply keeps_bind_defers; [keep|]. intros size.
  destruct (seal t c x body) as [record t']. apply keeps_bind_defers; [keep|]. intros _. apply keeps_bind_defers; [keep|].
  intros [[phase e]|]; [|apply keeps_defers; keep]. case_decide; [apply defers_front|apply keeps_defers; keep].
Qed.
Lemma keeps_flush_peer peer : keeps (flush_peer su m peer).
Proof.
  unfold flush_peer. apply keeps_bind; [keep|]. intros [p|]; [|keep]. destruct p; try solve [keep]. apply keeps_bind; [keep|]. intros active n d.
  eapply (spec_bind _ _ _ (λ q o, owner_ok n d o ∧ q = default [] (ow_deferred o !! peer))); [by apply spec_get|].
  intros q. destruct (active && _); [|apply spec_ret; by intros o [Ho _]]. destruct q as [|x rest]; [apply spec_ret; by intros o [Ho _]|].
  eapply (spec_bind _ _ _ (λ _, owner_ok n (S d))).
  - apply spec_modify. intros o [Ho Eq]. pose proof (oo_count _ _ _ Ho) as Ec. pose proof (sum_map_set (ow_deferred o) peer rest) as Hs.
    rewrite <- Eq, len_cons in Hs. pose proof (deferred_nonneg (<[peer := rest]> (ow_deferred o))).
    apply (deferred_set n d (S d) o); try done; cbn; unfold saturating_sub; lia.
  - intros _. apply keeps_bind_defers; [keep|]. intros [y|]; [apply defers_flush_message|apply keeps_defers; keep].
Qed.

Lemma keeps_expire_one peer : keeps (expire_one m peer).
Proof. unfold expire_one. keep. apply keeps_wire_do. intros w. apply step_revoke. Qed.
Lemma keeps_release_stale peer : keeps (release_stale peer).
Proof. unfold release_stale. keep. Qed.
Lemma keeps_retain_permits : keeps retain_permits.
Proof. unfold retain_permits. apply keeps_bind; [keep|]. intros l. apply keeps_bind; [apply keeps_for_each, keeps_release_stale|]. intros _. keep. Qed.
Lemma keeps_flush_wire : keeps (flush_wire m).
Proof.
  unfold flush_wire. apply keeps_bind.
  - apply keeps_on_wire. intros w Hw. destruct (wire_flush_ok w (mt_ms m) Hw) as (n & sent & w' & E & _). rewrite E.
    exists sent, w', false. split; [done|]. by eapply step_flush.
  - intros sent. apply keeps_bind; [apply keeps_for_each; intros _; apply keeps_count_protocol_error|]. intros _. keep.
Qed.
Lemma keeps_retries_failed l : keeps (retries_failed su m l).
Proof.
  induction l as [|peer l IH]; cbn [retries_failed]; [apply keeps_ret|]. apply keeps_bind; [unfold retry_failed; keep|]. intros [|]; [exact IH|keep].
Qed.
Lemma keeps_retry_wire : keeps (retry_wire su m).
Proof.
  unfold retry_wire. apply keeps_bind.
  - apply keeps_on_wire. intros w Hw. destruct (retry w (mt_now m)) as [x w'] eqn:E. exists x, w', false. split; [done|].
    pose proof (step_retry w (mt_now m)) as Hs. by rewrite E in Hs.
  - intros x. apply keeps_bind; [keep|]. intros _. apply keeps_retries_failed.
Qed.
Lemma keeps_tick : keeps (tick su m).
Proof.
  unfold tick. apply keeps_bind; [apply keeps_tick_client|]. intros [|]; [|keep].
  apply keeps_bind; [unfold expire_authorizations; apply keeps_bind; [keep|]; intros l; apply keeps_for_each, keeps_expire_one|]. intros _.
  apply keeps_bind; [unfold drive_server; apply keeps_bind; [keep|]; intros l; apply keeps_for_each, keeps_drive_peer|]. intros _.
  apply keeps_bind; [apply keeps_retain_permits|]. intros _.
  apply keeps_bind; [unfold flush_deferred; apply keeps_bind; [keep|]; intros l; apply keeps_for_each, keeps_flush_peer|]. intros _.
  apply keeps_bind; [apply keeps_flush_wire|]. intros _. apply keeps_retry_wire.
Qed.

End invariant.

(** ** Every reachable state *)

Section reachable.
Context `{StatelessCipher} `{NoiseHandshake} `{Hmac}.
Context (stateless : hs_transport → sc_out * sc_in) (su : Setup).

(** Live sessions of the runtime. *)
Definition live (sh : Shared) : Z := Z.of_nat (size (table_map (sh_sessions sh))).

(** An iteration, with room in the session table for the sessions of one packet; in between, the
    other threads may do to the shared state whatever leaves the registry in order. *)
Inductive owner_step (o : Owner) : Owner → Prop :=
| step_iterate m b o' :
    live (ow_shared o) + 256 ≤ u32_max → iterate stateless su m b o = Done (Continue, o') → owner_step o o'
| step_others sh :
    calm 0 sh → sh_config sh = sh_config (ow_shared o) → owner_step o (o <| ow_shared := sh |>).

(** Beyond the bounds that [NetConfig] validates: datagrams that hold a KCP segment, and a byte budget
    that is not the whole range of [usize]. *)
Record sane_config (cfg : NetConfig) : Prop := {
  sc_datagram : 50 ≤ nc_max_datagram_size cfg;
  sc_sessions : 0 ≤ nc_max_sessions_per_endpoint cfg;
  sc_per_ip : 0 ≤ nc_max_sessions_per_ip cfg;
  sc_session_bytes : 0 ≤ nc_max_session_queued_bytes cfg;
  sc_runtime_bytes : 0 ≤ nc_max_runtime_queued_bytes cfg < usize_max;
  sc_capacity : 0 ≤ nc_write_queue_capacity cfg
}.
Definition owner_reachable (cfg : NetConfig) (o : Owner) : Prop :=
  ∃ sh remote candidates local m o0,
    sane_config cfg ∧ calm 0 sh ∧ sh_config sh = cfg ∧
    start su m (owner_new su sh remote candidates local) = Done (Continue, o0) ∧ rtc owner_step o0 o.

Lemma owner_new_ok sh remote candidates local :
  sane_config (sh_config sh) → calm 0 sh → owner_ok su (sh_config sh) 0 0 (owner_new su sh remote candidates local).
Proof.
  intros [] Hc. split; try done. by apply new_wire_ok.
Qed.
Lemma keeps_start cfg m : keeps su cfg (start su m).
Proof.
  unfold start. apply keeps_bind; [apply keeps_get|]. intros [peer|]; [|apply keeps_ret]. destruct (su_initial_session su); [|apply keeps_ret].
  apply keeps_bind; [apply keeps_send_client_hello|]. intros [u|e].
  - apply keeps_bind; [apply keeps_put_peer|]. intros _. apply keeps_ret.
  - apply keeps_bind; [apply keeps_fail_owner|]. intros _. apply keeps_ret.
Qed.
Lemma calm_more n sh : calm 0 sh → live sh + Z.of_nat n ≤ u32_max → calm n sh.
Proof. intros [I _] Hn. by split. Qed.
Lemma iterate_ok cfg m b o :
  owner_ok su cfg 0 0 o → live (ow_shared o) + 256 ≤ u32_max →
  ∃ flow o', iterate stateless su m b o = Done (flow, o') ∧ owner_ok su cfg 0 0 o'.
Proof.
  intros Ho Hroom. destruct b as [read| | |]; cbn [iterate].
  - assert (owner_ok su cfg (256 + 0) 0 o) as Ho' by (destruct Ho; split; try done; by apply calm_more).
    exact (inbound_ok stateless su cfg m read 0%nat 0%nat o Ho').
  - exact (outbound_ok su cfg m 0%nat o Ho).
  - exact (keeps_cleanup su cfg 0%nat 0%nat o Ho).
  - exact (keeps_tick su cfg m 0%nat 0%nat o Ho).
Qed.
Lemma owner_reachable_ok cfg o : owner_reachable cfg o → owner_ok su cfg 0 0 o.
Proof.
  intros (sh & remote & candidates & local & m & o0 & Hs & Hc & <- & E & Hrun).
  destruct (keeps_start (sh_config sh) m 0%nat 0%nat _ (owner_new_ok sh remote candidates local Hs Hc)) as (flow & o1 & E1 & Ho).
  rewrite E in E1. injection E1 as <- <-. clear E. induction Hrun as [|o1 o2 o3 Hstep _ IH]; [done|]. apply IH. clear IH.
  destruct Hstep as [m' b o' Hroom E|sh' Hc' Ec].
  - destruct (iterate_ok _ m' b o1 Ho Hroom) as (flow & o2 & E2 & Ho2). rewrite E in E2. by injection E2 as _ <-.
  - destruct Ho. split; try done. cbn. by rewrite Ec.
Qed.

(** C4: whatever packets arrive, however the application uses and closes its sessions and whatever
    the sockets answer, the task of a datagram endpoint never panics.  It holds at most the
    configured number of KCP peers and half-open control exchanges, within the byte budgets; the
    permits it keeps are exactly those the per-address table counts, which respects its limit; and
    the messages it defers are counted exactly and never exceed the write queue.  This is for
    datagrams of at least 50 bytes, the least a KCP engine accepts ([NetConfig] admits 20 and more),
    a byte budget of the runtime below [usize::MAX], and as long as fewer than [2 ^ 32 - 256]
    session handles are in use. *)
Theorem endpoint_within_limits cfg o :
  owner_reachable cfg o →
  let w := ow_wire o in
  Z.of_nat (size (w_engines w)) + Z.of_nat (size (w_authorized w)) ≤ nc_max_sessions_per_endpoint cfg ∧
  Z.of_nat (size (w_pending w)) ≤ nc_max_sessions_per_endpoint cfg ∧
  total_queued w ≤ nc_max_runtime_queued_bytes cfg ∧
  (∀ key, active_of (ow_admission o) key = held key (map_to_list (ow_permits o)).*2 ∧
          active_of (ow_admission o) key ≤ nc_max_sessions_per_ip cfg) ∧
  ow_deferred_count o = sum_map len (ow_deferred o) ∧ ow_deferred_count o ≤ nc_write_queue_capacity cfg ∧
  (∀ m b, live (ow_shared o) + 256 ≤ u32_max → iterate stateless su m b o ≠ Panic).
Proof.
  intros Hr w. pose proof (owner_reachable_ok cfg o Hr) as Ho. pose proof Ho as [Hc Ecfg Hw Hf Ha Hl Ec Hroom].
  injection Hf as Hkind Hmtu Hpeers Hsession Hruntime. injection Hl as Hl1 Hl2. destruct Hw as ((_ & _ & Hn & _ & Hsl & Hmax & _) & _ & Hp & _).
  fold w in Hn, Hsl, Hmax, Hp, Hpeers, Hruntime. split; [lia|]. split; [lia|]. split; [unfold slack in Hsl; lia|]. split; [|split; [done|split; [lia|]]].
  - intros key. split; [apply (ai_active _ _ Ha)|]. rewrite <- Hl1. apply (ai_limit _ _ Ha).
  - intros m b Hfit. destruct (iterate_ok cfg m b o Ho Hfit) as (flow & o' & -> & _). done.
Qed.

End reachable.
