(* ===== verification/DatagramPhases.v ===== *)
(** * How peers of a datagram endpoint get on: more theorems about [DatagramOwner]

    When a peer becomes established, what a forged record and a source without a cookie can do, and
    where the code falls short. *)

From S2P Require Import Prelude Bytes CoreTypes Wire Observe EventQueue HandleTable Framing Control Security Transition.
From S2P Require Import TcpSession Outbound NetConfig Sessions Endpoints Admission Preflight DatagramWire DatagramPeer DatagramOwner.

Create HintDb still.

Section phases.
Context `{StatelessCipher} `{NoiseHandshake} `{Hmac}.
Context (stateless : hs_transport → sc_out * sc_in) (su : Setup) (m : Moment).

(** ** Programs that leave the peers alone *)

Definition still {A} (p : Own A) : Prop := ∀ o a o', p o = Done (a, o') → ow_peers o' = ow_peers o.
(** ... and give a result of a kind. *)
Definition brings {A} (C : A → Prop) (p : Own A) : Prop := ∀ o a o', p o = Done (a, o') → ow_peers o' = ow_peers o ∧ C a.

Lemma bind_Done {A B} (p : Own A) (k : A → Own B) o b o2 :
  own_bind p k o = Done (b, o2) → ∃ a o1, p o = Done (a, o1) ∧ k a o1 = Done (b, o2).
Proof. unfold own_bind. destruct (p o) as [[a o1]|]; [|done]. intros E. by exists a, o1. Qed.
Lemma bind_run {A B} (p : Own A) (k : A → Own B) o a o1 : p o = Done (a, o1) → own_bind p k o = k a o1.
Proof. intros E. unfold own_bind. by rewrite E. Qed.
Lemma still_ret {A} (a : A) : still (own_ret a).
Proof. by intros o b o' [= <- <-]. Qed.
Lemma still_get {A} (f : Owner → A) : still (own_get f).
Proof. by intros o b o' [= <- <-]. Qed.
Lemma still_modify f : (∀ o, ow_peers (f o) = ow_peers o) → still (own_modify f).
Proof. intros Hf o b o' [= <- <-]. apply Hf. Qed.
Lemma still_bind {A B} (p : Own A) (k : A → Own B) : still p → (∀ a, still (k a)) → still (own_bind p k).
Proof. intros Hp Hk o b o2 (a & o1 & E1 & E2)%bind_Done. rewrite (Hk a _ _ _ E2). by apply Hp in E1. Qed.
Lemma still_try {A B} (p : Own (Result A)) (k : A → Own (Result B)) : still p → (∀ a, still (k a)) → still (own_try p k).
Proof. intros Hp Hk. apply still_bind; [done|]. intros [a|e]; [apply Hk|apply still_ret]. Qed.
Lemma still_on_shared {A} (f : Shared → outcome (A * Shared)) : still (on_shared f).
Proof. intros o a o'. unfold on_shared. destruct (f _) as [[b sh]|]; [|done]. by intros [= <- <-]. Qed.
Lemma still_on_wire {A} (f : DatagramWire → outcome (A * DatagramWire)) : still (on_wire f).
Proof. intros o a o'. unfold on_wire. destruct (f _) as [[b w]|]; [|done]. by intros [= <- <-]. Qed.
Lemma still_shared_do f : still (shared_do f).
Proof. by apply still_modify. Qed.
Lemma still_wire_do f : still (wire_do f).
Proof. by apply still_modify. Qed.
Lemma still_rekeys_do f : still (rekeys_do f).
Proof. by apply still_modify. Qed.
Lemma still_release peer : still (release peer).
Proof. apply still_modify. intros o. by destruct (ow_permits o !! peer). Qed.
Lemma still_transmit peer bytes : still (transmit m peer bytes).
Proof. intros o a o'. unfold transmit. destruct (mt_io m peer bytes); by intros [= <- <-]. Qed.
Lemma still_log_sent peer r : still (log_sent peer r).
Proof. intros o a o'. unfold log_sent. destruct r as [[bytes|]|e]; by intros [= <- <-]. Qed.

Lemma brings_ret {A} (C : A → Prop) a : C a → brings C (own_ret a).
Proof. by intros HC o b o' [= <- <-]. Qed.
Lemma brings_bind {A B} (C : B → Prop) (p : Own A) (k : A → Own B) : still p → (∀ a, brings C (k a)) → brings C (own_bind p k).
Proof.
  intros Hp Hk o b o2 (a & o1 & E1 & E2)%bind_Done. destruct (Hk a _ _ _ E2) as [E HC]. split; [|done]. rewrite E. by apply Hp in E1.
Qed.
Lemma brings_try {A B} (C : Result B → Prop) (p : Own (Result A)) (k : A → Own (Result B)) :
  still p → (∀ a, brings C (k a)) → (∀ e, C (Err e)) → brings C (own_try p k).
Proof. intros Hp Hk He. apply brings_bind; [done|]. intros [a|e]; [apply Hk|by apply brings_ret]. Qed.

Ltac rest :=
  repeat first
    [ progress cbv zeta beta | apply still_ret | apply still_get | apply still_on_shared | apply still_on_wire | apply still_shared_do
    | apply still_wire_do | apply still_rekeys_do | solve [auto 1 with still nocore]
    | apply still_bind; [|intros ?] | apply still_try; [|intros ?]
    | match goal with |- still (match ?x with _ => _ end) => destruct x end
    | match goal with |- still ((match ?x with _ => _ end) _ _ _ _ _ _) => destruct x end
    | solve [apply still_modify; intros ?; done] ].
Hint Resolve still_release still_transmit still_log_sent : still.

Lemma still_send_data peer record max : still (send_data m peer record max).
Proof. unfold send_data. rest. Qed.
Lemma still_send_control peer record max : still (send_control m peer record max).
Proof. unfold send_control. rest. Qed.
Lemma still_send_answer peer record max : still (send_answer m peer record max).
Proof. unfold send_answer. rest. Qed.
Lemma still_discard p : still (discard p).
Proof. unfold discard. rest. Qed.
Hint Resolve still_send_data still_send_control still_send_answer still_discard : still.
Lemma still_discard_option p : still (discard_option p).
Proof. unfold discard_option. rest. Qed.
Lemma still_push_event e : still (push_event su m e).
Proof. apply still_on_shared. Qed.
Lemma still_close_with_error session phase error : still (close_with_error su m session phase error).
Proof. apply still_on_shared. Qed.
Lemma still_fail_owner session phase error : still (fail_owner su m session phase error).
Proof. apply still_on_shared. Qed.
Lemma still_send_protected peer t e kind data max : still (send_protected m peer t e kind data max).
Proof. unfold send_protected, send_protected_with. rest. Qed.
Lemma still_send_protected_response peer t e kind data max : still (send_protected_response m peer t e kind data max).
Proof. unfold send_protected_response, send_protected_with. rest. Qed.
Lemma still_own_of {A} (r : Result A) : still (own_of r).
Proof. apply still_ret. Qed.
Hint Resolve still_discard_option still_push_event still_close_with_error still_fail_owner still_send_protected still_send_protected_response
  still_own_of : still.
Lemma still_handle_established peer session t c record : still (handle_established su m peer session t c record).
Proof. unfold handle_established, handle_control, count_received, metrics_do, config. rest. Qed.
Lemma still_forget_deferred peer : still (forget_deferred peer).
Proof. unfold forget_deferred, store_do. rest. Qed.
Lemma still_drop_message x : still (drop_message x).
Proof. apply still_shared_do. Qed.
Hint Resolve still_handle_established still_forget_deferred still_drop_message : still.

(** ** Who becomes established *)

(** The peer was established before, on the same session. *)
Definition stays (o : Owner) (q : SocketAddr) (p' : Peer) : Prop :=
  ∃ p, ow_peers o !! q = Some p ∧ is_established p = true ∧ peer_session p = peer_session p'.
(** A client whose server sealed its acceptance, naming the mode of the hello. *)
Definition client_authorised (o : Owner) (peer : SocketAddr) (record : SecurityRecord) (p' : Peer) : Prop :=
  ∃ session t mode auth_started connect_started max message t' t'',
    ow_peers o !! peer = Some (PClientAuth session t mode auth_started connect_started) ∧
    decrypt_record t record max = (Ok message, t') ∧ pm_kind message = ProtectedKind.AuthDecision ∧
    pm_payload message = [of_u8 1; of_u8 (SecurityMode.to_u8 mode)] ∧
    p' = PEstablished session t'' (controller_new Role.Client mode INITIAL_EPOCH) false (mt_now m) None.
(** A peer of a server whose application accepted it. *)
Definition server_authorised (o : Owner) (peer : SocketAddr) (p' : Peer) : Prop :=
  ∃ session t mode auth_started t',
    ow_peers o !! peer = Some (PServerAuth session t mode auth_started) ∧ sh_auth (ow_shared o) !! session = Some (Some true) ∧
    p' = PEstablished session t' (controller_new Role.Server mode INITIAL_EPOCH) true (mt_now m) None.

(** The state a handler gives back for a peer in the state [previous]. *)
Definition modest (previous : option Peer) (r : Result (option Peer)) : Prop :=
  ∀ q, r = Ok (Some q) → is_established q = true → previous = Some q.

Lemma decision_Ok mode message :
  decision mode message = Ok tt →
  pm_kind message = ProtectedKind.AuthDecision ∧ pm_payload message = [of_u8 1; of_u8 (SecurityMode.to_u8 mode)].
Proof.
  unfold decision. case_decide as Hk; [done|]. destruct (pm_payload message) as [|a [|b [|]]]; [done..| |done].
  case_decide as Ha; [done|]. case_decide as Hb; [|done]. intros _. split; [by destruct (pm_kind message)|].
  assert (to_u8 a = 1) as Ea by (destruct (decide (to_u8 a = 1)); tauto). by rewrite <- Ea, <- Hb, !of_to_u8.
Qed.

Ltac modest :=
  repeat first
    [ progress cbv zeta beta
    | apply brings_ret; intros ? [= <-]; try done; fail | apply brings_ret; by intros ?
    | apply brings_bind; [solve [rest]|intros ?] | apply brings_try; [solve [rest]|intros ?|by intros ?]
    | match goal with |- brings _ (match ?x with _ => _ end) => destruct x end ].

Lemma process_hello_brings peer previous key mode record : brings (modest previous) (process_hello su m peer previous key mode record).
Proof.
  unfold process_hello, config. destruct (negb _).
  - apply brings_bind; [rest|]. intros [u|e]; [|modest]. apply brings_bind; [rest|]. intros timeout. apply brings_ret. intros q E Hq.
    destruct (decide _); [|by simplify_eq]. by destruct previous as [p|]; simplify_eq/=.
  - destruct (previous ≫= peer_session); [apply brings_ret; by intros q [= ->]|]. modest.
Qed.
Lemma brings_own_of {A B} (C : Result B → Prop) (r : Result A) (k : A → Own (Result B)) :
  (∀ a, r = Ok a → brings C (k a)) → (∀ e, C (Err e)) → brings C (own_try (own_of r) k).
Proof. intros Hk He o b o' E. destruct r as [a|e]; [exact (Hk a eq_refl o b o' E)|]. injection E as <- <-. by split. Qed.
Lemma process_decision_brings peer session t mode record :
  brings (λ r, ∀ q, r = Ok (Some q) → ∃ max message t' t'', decrypt_record t record max = (Ok message, t') ∧ decision mode message = Ok tt ∧
    q = PEstablished session t'' (controller_new Role.Client mode INITIAL_EPOCH) false (mt_now m) None)
    (process_decision su m peer session t mode record).
Proof.
  unfold process_decision, config. apply brings_bind; [rest|]. intros max. destruct (decrypt_record t record max) as [message t'] eqn:Ed.
  apply brings_own_of; [intros msg ->|done]. apply brings_own_of; [intros [] Ec|done]. apply brings_bind; [rest|]. intros [r t''].
  apply brings_try; [rest|intros _|done]. apply brings_try; [rest|intros _|done]. apply brings_try; [rest|intros _|done].
  apply brings_ret. intros q [= <-]. by exists max, msg, t', t''.
Qed.
Lemma process_arm_brings peer previous record :
  (∀ session t c commands last deadline, previous ≠ Some (PEstablished session t c commands last deadline)) →
  brings (λ r, ∀ q, r = Ok (Some q) → is_established q = true →
    ∃ session t mode a b max message t' t'', previous = Some (PClientAuth session t mode a b) ∧
      decrypt_record t record max = (Ok message, t') ∧ decision mode message = Ok tt ∧
      q = PEstablished session t'' (controller_new Role.Client mode INITIAL_EPOCH) false (mt_now m) None)
    (process_arm stateless su m peer previous record).
Proof.
  intros Hne. set (C := λ r : Result (option Peer), _).
  assert (∀ p, brings (modest previous) p → brings C p) as Hmodest.
  { intros p Hp o a o' E. destruct (Hp o a o' E) as [Es Hm]. split; [done|]. intros q -> Hq. specialize (Hm q eq_refl Hq). subst previous. destruct q; done || by destruct (Hne _ _ _ _ _ _ eq_refl). }
  assert (C (Ok previous)) as Hprev by (intros q [= ->] Hq; destruct q; done || by destruct (Hne _ _ _ _ _ _ eq_refl)).
  assert (∀ p, brings (modest None) p → brings C p) as Hnone.
  { intros p Hp. apply Hmodest. intros o a o' E. destruct (Hp o a o' E) as [Es Hm]. split; [done|]. intros q Ea Hq. by specialize (Hm q Ea Hq). }
  unfold process_arm. destruct (su_security su) as [key mode|join]; (destruct previous as [p|]; [destruct p|]); destruct (rec_kind record);
    try (apply brings_ret; exact Hprev); try (apply Hmodest, process_hello_brings); try (by destruct (Hne _ _ _ _ _ _ eq_refl));
    try (apply Hnone; unfold process_server_hello, process_first, process_response, process_finish, open_session, config; modest; fail).
  all: intros o a o' E; destruct (process_decision_brings _ _ _ _ _ o a o' E) as [Es Hd]; split; [done|]; intros q Ea _;
    destruct (Hd q Ea) as (max & message & t' & t'' & ? & ? & ?); by eexists _, _, _, _, _, max, message, t', t''.
Qed.

(** The state a peer is left in. *)
Definition left_in (o : Owner) (peer : SocketAddr) (final : option Peer) (o' : Owner) : Prop :=
  ow_peers o' = match final with Some p => <[peer := p]> (delete peer (ow_peers o)) | None => delete peer (ow_peers o) end.

Lemma process_arm_established peer session t c commands last deadline record o next o' :
  process_arm stateless su m peer (Some (PEstablished session t c commands last deadline)) record o = Done (next, o') →
  (∀ p, next = Ok (Some p) → is_established p = true → peer_session p = Some session) ∧
  (ow_peers o' = ow_peers o ∨
   ∃ t' c' e, next = Err e ∧ ow_peers o' = <[peer := PEstablished session t' c' commands last deadline]> (ow_peers o)).
Proof.
  assert (∀ p, brings (modest (Some (PEstablished session t c commands last deadline))) p → p o = Done (next, o') →
    (∀ q, next = Ok (Some q) → is_established q = true → peer_session q = Some session) ∧ ow_peers o' = ow_peers o) as Hm.
  { intros p Hp E. destruct (Hp _ _ _ E) as [Es Hq]. split; [|done]. intros q -> Hest. by injection (Hq q eq_refl Hest) as <-. }
  assert (process_established su m peer session t c commands last deadline record o = Done (next, o') →
    (∀ p, next = Ok (Some p) → is_established p = true → peer_session p = Some session) ∧
    (ow_peers o' = ow_peers o ∨
     ∃ t' c' e, next = Err e ∧ ow_peers o' = <[peer := PEstablished session t' c' commands last deadline]> (ow_peers o))) as He.
  { unfold process_established. intros ([[[u|e] t'] c'] & o1 & E1%still_handle_established & E2)%bind_Done.
    - injection E2 as <- <-. split; [by intros p [= <-]|by left].
    - apply bind_Done in E2 as (v & o2 & E2 & E3). injection E2 as _ <-. injection E3 as <- <-. split; [done|]. right. exists t', c', e.
      split; [done|]. cbn. by rewrite E1. }
  unfold process_arm. destruct (su_security su) as [key mode|join]; [|exact He]. destruct (rec_kind record); try exact He.
  intros E. destruct (Hm _ (process_hello_brings peer _ key mode record) E) as [Hq Es]. split; [exact Hq|by left].
Qed.
Lemma process_final peer record o r o' :
  process stateless su m peer record o = Done (r, o') →
  ∃ final, left_in o peer final o' ∧ ∀ p, final = Some p → is_established p = true → stays o peer p ∨ client_authorised o peer record p.
Proof.
  unfold process. intros (previous & o1 & E1 & (u & o2 & E2 & E3)%bind_Done)%bind_Done. injection E1 as <- <-.
  assert (ow_peers o2 = delete peer (ow_peers o)) as E0 by (by injection E2 as _ <-). clear E2.
  apply bind_Done in E3 as (next & o3 & E3 & E4).
  assert (ow_peers o' = match next with Ok (Some p) => <[peer := p]> (ow_peers o3) | _ => ow_peers o3 end) as Eo.
  { destruct next as [[p|]|e]; [|by injection E4 as _ <-..]. apply bind_Done in E4 as (v & o4 & E4 & E5). injection E5 as _ <-. by injection E4 as _ <-. }
  destruct (ow_peers o !! peer) as [p0|] eqn:Ep; [destruct (is_established p0) eqn:Hest|].
  - destruct p0 as [| | | | | | | |s t c k l d]; try done. destruct (process_arm_established _ _ _ _ _ _ _ _ _ _ _ E3) as [Hn [Es|(t' & c' & e & -> & Es)]].
    + exists match next with Ok (Some p) => Some p | _ => None end. unfold left_in. rewrite Eo, Es, E0. split; [by destruct next as [[]|]|].
      intros p Ef Hp. left. exists (PEstablished s t c k l d). split; [done|]. split; [done|]. destruct next as [[p1|]|e]; [|done..]. injection Ef as <-.
      by rewrite (Hn p1 eq_refl Hp).
    + exists (Some (PEstablished s t' c' k l d)). unfold left_in. rewrite Eo, Es, E0. split; [done|]. intros p [= <-] _. left. by eexists.
  - destruct (process_arm_brings peer (Some p0) record) with (2 := E3) as [Es Hn]; [by intros ? ? ? ? ? ? [= ->]|].
    exists match next with Ok (Some p) => Some p | _ => None end. unfold left_in. rewrite Eo, Es, E0. split; [by destruct next as [[]|]|].
    intros p Ef Hp. right. destruct next as [[p1|]|e]; [|done..]. injection Ef as <-.
    destruct (Hn p1 eq_refl Hp) as (s & t & md & a & b & max & msg & t' & t'' & [= ->] & Ed & [Hk Hpl]%decision_Ok & Hp1). by exists s, t, md, a, b, max, msg, t', t''.
  - destruct (process_arm_brings peer None record) with (2 := E3) as [Es Hn]; [done|].
    exists match next with Ok (Some p) => Some p | _ => None end. unfold left_in. rewrite Eo, Es, E0. split; [by destruct next as [[]|]|].
    intros p Ef Hp. destruct next as [[p1|]|e]; [|done..]. injection Ef as <-. destruct (Hn p1 eq_refl Hp) as (s & t & md & a & b & max & msg & t' & t'' & ? & _). done.
Qed.
Lemma left_in_lookup o peer final o' q p' :
  left_in o peer final o' → ow_peers o' !! q = Some p' → (q = peer ∧ final = Some p') ∨ ow_peers o !! q = Some p'.
Proof.
  intros E Eq. rewrite E in Eq. destruct (decide (q = peer)) as [->|Hne].
  - destruct final as [p|]; [|by rewrite lookup_delete_eq in Eq]. left. rewrite lookup_insert_eq in Eq. by injection Eq as ->.
  - right. destruct final; [rewrite lookup_insert_ne in Eq by done|]; by rewrite lookup_delete_ne in Eq.
Qed.

(** *** The timer *)

Lemma still_arm_rekey peer : still (arm_rekey m peer).
Proof. unfold arm_rekey, config. rest. Qed.
Lemma still_next_command peer session c commands : still (next_command m peer session c commands).
Proof. unfold next_command. rest. Qed.
Lemma still_automatic_rekey_due peer c commands control : still (automatic_rekey_due m peer c commands control).
Proof. unfold automatic_rekey_due. rest. Qed.
Hint Resolve still_arm_rekey still_next_command still_automatic_rekey_due : still.

Lemma brings_ret_bind {A B} (C : B → Prop) (a : A) (k : A → Own B) : brings C (k a) → brings C (own_bind (own_ret a) k).
Proof. intros Hk o b o' E. exact (Hk o b o' E). Qed.
Lemma decided_brings peer session t mode started accepted :
  brings (λ next, ∀ q, next = Some q → is_established q = true →
    accepted = true ∧ ∃ t', q = PEstablished session t' (controller_new Role.Server mode INITIAL_EPOCH) true (mt_now m) None)
    (decided su m peer session t mode started accepted).
Proof.
  unfold decided, config. apply brings_bind; [rest|]. intros [[u|e] t']; [|apply brings_bind; [rest|]; intros _; apply brings_bind; [rest|]; intros _; by apply brings_ret].
  set (C := λ next : option Peer, _). match goal with |- brings C (own_bind _ ?f) => set (k := f) end.
  assert (∀ e, brings C (k (Err e))) as Herr.
  { intros e. apply brings_bind; [rest|]. intros _. apply brings_bind; [rest|]. intros _. apply brings_bind; [rest|]. intros timeout. apply brings_ret. by intros q [= <-]. }
  destruct accepted; [|apply brings_ret_bind, Herr]. apply brings_bind; [rest|]. intros [v|e]; [|apply Herr].
  apply brings_bind; [rest|]. intros _. apply brings_bind; [rest|]. intros [w|e]; (apply brings_bind; [rest|]; intros _; apply brings_ret); [|done].
  intros q [= <-] _. split; [done|]. by exists t'.
Qed.
Lemma drive_established_brings peer session t c commands last deadline :
  brings (λ next, ∀ q, next = Some q → is_established q = true ∧ peer_session q = Some session)
    (drive_established su m peer session t c commands last deadline).
Proof.
  unfold drive_established, config. apply brings_bind; [rest|]. intros commanded. apply brings_bind; [rest|]. intros [[control|] c'].
  - apply brings_bind; [rest|]. intros [[u|e] t'].
    + apply brings_bind; [rest|]. intros timeout. apply brings_ret. by intros q [= <-].
    + apply brings_bind; [rest|]. intros _. apply brings_bind; [rest|]. intros _. by apply brings_ret.
  - apply brings_ret. by intros q [= <-].
Qed.
Lemma drive_state_final peer p o next o' :
  drive_state su m peer p o = Done (next, o') →
  ow_peers o' = ow_peers o ∧ ∀ q, next = Some q → is_established q = true →
    (is_established p = true ∧ peer_session p = peer_session q) ∨
    (∃ session t mode started t', p = PServerAuth session t mode started ∧ sh_auth (ow_shared o) !! session = Some (Some true) ∧
       q = PEstablished session t' (controller_new Role.Server mode INITIAL_EPOCH) true (mt_now m) None).
Proof.
  unfold drive_state. intros (expired & o1 & E1 & E2)%bind_Done. injection E1 as Ee <-. destruct expired as [reason|].
  { assert (brings (λ next, next = None) (match reason with Some (session, phase, error) => close_with_error su m session phase error | None => own_ret tt end ;;
      discard p ;; wire_do (λ w, remove_peer w peer) ;; own_ret (None : option Peer))) as Hb.
    { apply brings_bind; [rest|]. intros _. apply brings_bind; [rest|]. intros _. apply brings_bind; [rest|]. intros _. by apply brings_ret. }
    destruct (Hb _ _ _ E2) as [Es ->]. done. }
  assert (∀ p1, own_ret (Some p) o = Done (next, o') → p1 = p → ow_peers o' = ow_peers o ∧ ∀ q, next = Some q → is_established q = true →
    (is_established p1 = true ∧ peer_session p1 = peer_session q) ∨ (∃ session t mode started t', p1 = PServerAuth session t mode started ∧ sh_auth (ow_shared o) !! session = Some (Some true) ∧
       q = PEstablished session t' (controller_new Role.Server mode INITIAL_EPOCH) true (mt_now m) None)) as Hsame.
  { intros p1 [= <- <-] ->. split; [done|]. intros q [= <-] Hq. by left. }
  destruct p as [| | |s t md st| | | | |s t c k l d]; try exact (Hsame _ E2 eq_refl).
  - apply bind_Done in E2 as (answer & o2 & E3 & E4). injection E3 as <- <-. destruct (sh_auth (ow_shared o) !! s) as [[accepted|]|] eqn:Ea;
      [|exact (Hsame _ E4 eq_refl)..]. destruct (decided_brings _ _ _ _ _ _ _ _ _ E4) as [Es Hd]. split; [done|]. intros q En Hq. right.
    destruct (Hd q En Hq) as [-> [t' ->]]. by exists s, t, md, st, t'.
  - destruct (drive_established_brings _ _ _ _ _ _ _ _ _ _ E2) as [Es Hd]. split; [done|]. intros q En Hq. left. split; [done|]. by destruct (Hd q En) as [_ ->].
Qed.
Lemma drive_peer_final peer o u o' :
  drive_peer su m peer o = Done (u, o') →
  ow_peers o' = ow_peers o ∨ ∃ final, left_in o peer final o' ∧ ∀ p, final = Some p → is_established p = true → stays o peer p ∨ server_authorised o peer p.
Proof.
  unfold drive_peer. intros (taken & o1 & E1 & E2)%bind_Done. injection E1 as <- <-. destruct (ow_peers o !! peer) as [p0|] eqn:Ep; [|injection E2 as _ <-; by left].
  right. apply bind_Done in E2 as (v & o2 & E2 & E3).
  assert (ow_peers o2 = delete peer (ow_peers o) ∧ ow_shared o2 = ow_shared o) as [E0 Eh] by (by injection E2 as _ <-). clear E2.
  apply bind_Done in E3 as (next & o3 & E3 & E4). apply drive_state_final in E3 as [Es Hn]. exists next. split.
  - unfold left_in. destruct next as [p|]; injection E4 as _ <-; cbn; by rewrite Es, E0.
  - intros p -> Hp. destruct (Hn p eq_refl Hp) as [[H1' H2']|(s & t & md & st & t' & -> & Ea & ->)]; [left; by exists p0|right]. rewrite Eh in Ea.
    by exists s, t, md, st, t'.
Qed.

(** *** The other handlers *)

Definition nothing_new (base o : Owner) : Prop :=
  ∀ q p, ow_peers o !! q = Some p → is_established p = true → stays base q p.
Definition renews {A} (base : Owner) (p : Own A) : Prop := ∀ o a o', nothing_new base o → p o = Done (a, o') → nothing_new base o'.

Lemma nothing_new_refl o : nothing_new o o.
Proof. intros q p E Hq. by exists p. Qed.
Lemma renews_still {A} base (p : Own A) : still p → renews base p.
Proof. intros Hp o a o' Ho E q p' Eq. rewrite (Hp _ _ _ E) in Eq. by apply Ho. Qed.
Lemma renews_bind {A B} base (p : Own A) (k : A → Own B) : renews base p → (∀ a, renews base (k a)) → renews base (own_bind p k).
Proof. intros Hp Hk o b o2 Ho (a & o1 & E1 & E2)%bind_Done. eapply Hk, E2. by eapply Hp. Qed.
Lemma renews_delete base peer : renews base (peers_do (delete peer)).
Proof. intros o a o' Ho [= _ <-] q p Eq. cbn in Eq. apply lookup_delete_Some in Eq as [_ Eq]. by apply Ho. Qed.
Lemma renews_put base peer p : (is_established p = true → stays base peer p) → renews base (put_peer peer p).
Proof.
  intros Hp o a o' Ho [= _ <-] q p' Eq Hq. cbn in Eq. destruct (decide (q = peer)) as [->|Hne].
  - rewrite lookup_insert_eq in Eq. injection Eq as <-. by apply Hp.
  - rewrite lookup_insert_ne in Eq by done. by apply Ho.
Qed.

Ltac renew :=
  repeat first
    [ progress cbv zeta beta | solve [apply renews_still; rest] | apply renews_delete | apply renews_put; (by intros ?) || assumption
    | apply renews_bind; [|intros ?] | match goal with |- renews _ (match ?x with _ => _ end) => destruct x end ].
Lemma still_resolve x : still (resolve x).
Proof. apply still_on_shared. Qed.
Lemma still_count_sent peer c x : still (count_sent peer c x).
Proof. unfold count_sent, metrics_do. rest. Qed.
Lemma still_drop_empty_queue peer : still (drop_empty_queue peer).
Proof. apply still_modify. intros o. by destruct (ow_deferred o !! peer) as [[]|]. Qed.
Hint Resolve still_resolve still_count_sent still_drop_empty_queue : still.

Lemma outbound_item_renews peer x o u o' : outbound_item su m peer x o = Done (u, o') → nothing_new o o'.
Proof.
  unfold outbound_item. intros (taken & o1 & E1 & E2)%bind_Done. injection E1 as <- <-. revert E2. generalize (nothing_new_refl o). generalize o at 2 4. intros o1 Ho.
  assert (∀ p : Own unit, renews o p → p o1 = Done (u, o') → nothing_new o o') as Hr by (intros p Hp; by apply Hp). apply Hr. clear Hr Ho o1.
  apply renews_bind; [apply renews_delete|]. intros _. destruct (ow_peers o !! peer) as [p0|] eqn:Ep; [|renew].
  assert (is_established p0 = true → ∀ p, peer_session p = peer_session p0 → stays o peer p) as Hs by (intros Hp p E; by exists p0).
  destruct p0 as [| | | | | | | |s t c k l d]; try (apply renews_bind; [renew|]; intros _; apply renews_put; done).
  apply renews_bind; [renew|]. intros active.
  assert (∀ t l, is_established (PEstablished s t c k l d) = true → stays o peer (PEstablished s t c k l d)) as Hput by (intros; by apply Hs).
  destruct (_ && _); [|apply renews_bind; [destruct active; renew|]; intros _; apply renews_put, Hput].
  unfold send_now, config, count_protocol_error, metrics_do, defer_back. cbv zeta. apply renews_bind; [renew|]. intros [y|]; [|apply renews_put, Hput].
  apply renews_bind; [renew|]. intros body. apply renews_bind; [renew|]. intros size. destruct (seal t c y body) as [[record|e] t']; [|renew].
  apply renews_bind; [renew|]. intros [v|e].
  - apply renews_bind; [renew|]. intros _. apply renews_bind; [apply renews_put, Hput|]. intros _. renew.
  - destruct (decide _); [|renew]. apply renews_bind; [renew|]. intros _. apply renews_put, Hput.
Qed.

Lemma renews_run {A} (p : Own A) o a o' : renews o p → p o = Done (a, o') → nothing_new o o'.
Proof. intros Hp. apply Hp, nothing_new_refl. Qed.
Lemma cleanup_peer_renews peer session base : renews base (cleanup_peer peer session).
Proof. unfold cleanup_peer. renew. Qed.
Lemma tick_client_renews base : renews base (tick_client su m).
Proof.
  unfold tick_client, try_next, rebind, send_client_hello, config. renew.
Qed.
Lemma retry_failed_renews peer base : renews base (retry_failed su m peer).
Proof. unfold retry_failed. renew. Qed.
Lemma flush_peer_renews peer o u o' : flush_peer su m peer o = Done (u, o') → nothing_new o o'.
Proof.
  unfold flush_peer. intros (state & o1 & E1 & E2)%bind_Done. injection E1 as <- <-. revert E2. apply renews_run.
  destruct (ow_peers o !! peer) as [p0|] eqn:Ep; [|renew]. destruct p0 as [| | | | | | | |s t c k l d]; try solve [renew].
  assert (∀ t l, is_established (PEstablished s t c k l d) = true → stays o peer (PEstablished s t c k l d)) as Hput
    by (intros t' l' _; by exists (PEstablished s t c k l d)).
  apply renews_bind; [renew|]. intros active. apply renews_bind; [renew|]. intros queue. destruct (active && _); [|renew]. destruct queue as [|x rest']; [renew|].
  apply renews_bind; [renew|]. intros _. apply renews_bind; [renew|]. intros [y|]; [|renew].
  unfold flush_message, config, count_protocol_error, metrics_do, defer_front. cbv zeta. apply renews_bind; [renew|]. intros body. apply renews_bind; [renew|]. intros size.
  destruct (seal t c y body) as [record t']. apply renews_bind; [apply renews_put, Hput|]. intros _. apply renews_bind; [destruct record; renew|].
  intros [[phase e]|]; [renew|]. apply renews_bind; [renew|]. intros _. apply renews_bind; [apply renews_put, Hput|]. intros _. renew.
Qed.

(** C5: a session of a datagram endpoint is established in two ways only.  A client's when its
    server's acceptance, sealed under the keys of the handshake and naming the mode of its hello, is
    opened; a server's when the application has accepted it.  No other handler makes a peer
    established or moves it to another session. *)
Theorem established_when_authorised :
  (∀ peer record o r o', process stateless su m peer record o = Done (r, o') →
     ∀ q p, ow_peers o' !! q = Some p → is_established p = true → stays o q p ∨ (q = peer ∧ client_authorised o peer record p)) ∧
  (∀ peer o u o', drive_peer su m peer o = Done (u, o') →
     ∀ q p, ow_peers o' !! q = Some p → is_established p = true → stays o q p ∨ (q = peer ∧ server_authorised o peer p)) ∧
  (∀ peer x o u o', outbound_item su m peer x o = Done (u, o') → nothing_new o o') ∧
  (∀ peer session o u o', cleanup_peer peer session o = Done (u, o') → nothing_new o o') ∧
  (∀ o flow o', tick_client su m o = Done (flow, o') → nothing_new o o') ∧
  (∀ peer o u o', flush_peer su m peer o = Done (u, o') → nothing_new o o') ∧
  (∀ peer o flow o', retry_failed su m peer o = Done (flow, o') → nothing_new o o').
Proof.
  split; [|split; [|split_and!]].
  - intros peer record o r o' E q p Eq Hq. destruct (process_final _ _ _ _ _ E) as (final & Hf & Hp).
    destruct (left_in_lookup _ _ _ _ _ _ Hf Eq) as [[-> Ef]|Eo]; [|left; by exists p]. destruct (Hp p Ef Hq); [by left|by right].
  - intros peer o u o' E q p Eq Hq. destruct (drive_peer_final _ _ _ _ E) as [Es|(final & Hf & Hp)]; [left; rewrite Es in Eq; by exists p|].
    destruct (left_in_lookup _ _ _ _ _ _ Hf Eq) as [[-> Ef]|Eo]; [|left; by exists p]. destruct (Hp p Ef Hq); [by left|by right].
  - intros peer x o u o'. apply outbound_item_renews.
  - intros peer session o u o'. apply renews_run, cleanup_peer_renews.
  - intros o flow o'. apply renews_run, tick_client_renews.
  - intros peer o u o'. apply flush_peer_renews.
  - intros peer o flow o'. apply renews_run, retry_failed_renews.
Qed.

(** ** Records that are not the peer's *)

(** A record that no established session takes: data in the clear on an encrypted session, a
    sealed record that does not open, a record of the handshake. *)
Definition inauthentic (t : Datagram.DatagramTransport) (c : SecurityController) (record : SecurityRecord) : Prop :=
  match rec_kind record with
  | RecordKind.PlainData => mode c = SecurityMode.Encrypted
  | RecordKind.Protected => ∃ e, (Datagram.decrypt t (rec_payload record)).1 = Err e
  | _ => True
  end.
(** What the endpoint and the application see is the same; the schedule of the automatic rekeys
    of the peer may have been armed, if it was not. *)
Record untouched (peer : SocketAddr) (o o' : Owner) : Prop := {
  ut_peers : ow_peers o' = ow_peers o;
  ut_sessions : sh_sessions (ow_shared o') = sh_sessions (ow_shared o);
  ut_events : sh_events (ow_shared o') = sh_events (ow_shared o);
  ut_deferred : ow_deferred o' = ow_deferred o;
  ut_permits : ow_permits o' = ow_permits o;
  ut_rekeys : ow_rekeys o' = ow_rekeys o ∨ ow_rekeys o !! peer = None ∧ delete peer (ow_rekeys o') = ow_rekeys o
}.
Lemma untouched_trans peer o1 o2 o3 :
  ow_rekeys o2 = ow_rekeys o1 → untouched peer o1 o2 → untouched peer o2 o3 → untouched peer o1 o3.
Proof. intros E [] []. split; congruence || by rewrite <- E. Qed.

(** The challenge that answers a hello could not be sent. *)
Definition challenge_failed (peer : SocketAddr) (w : DatagramWire) : Prop :=
  let record := mkRecord RecordKind.CookieChallenge 0 (issue (su_cookie su) peer (mt_secs m)) in
  ∃ e w', send_response w (mt_ms m) (io_of m peer record 128) peer record 128 = Done (Err e, w').
Definition hello_to_server (record : SecurityRecord) : Prop :=
  rec_kind record = RecordKind.ClientHello ∧ ∃ key mode, su_security su = AdaptiveServer key mode.

Lemma decrypt_Err t bytes e : (Datagram.decrypt t bytes).1 = Err e → Datagram.decrypt t bytes = (Err e, t).
Proof.
  unfold Datagram.decrypt. case_decide; [by intros [= ->]|]. cbv zeta. destruct (Replay.contains _ _); [by intros [= ->]|].
  destruct (sc_read _ _ _); [|by intros [= ->]]. unfold Replay.insert. destruct (Replay.highest (Datagram.replay t)) as [hi|]; [|done].
  case_decide; [done|]. case_decide; [|done]. intros [= ->]. f_equal. by destruct t as [? ? ? []].
Qed.
Lemma handle_established_inauthentic peer session t c record o :
  inauthentic t c record → ∃ e, handle_established su m peer session t c record o = Done (Err e, t, c, o).
Proof.
  intros Hi. unfold handle_established, config. rewrite (bind_run (own_get _) _ o _ o eq_refl), (bind_run (own_get _) _ o _ o eq_refl).
  destruct (negb _ || _); [by eexists|]. unfold inauthentic in Hi. unfold open_record.
  destruct (rec_kind record); try by eexists.
  - destruct Hi as [e He]. unfold decrypt_record. rewrite (decrypt_Err _ _ _ He). by eexists.
  - rewrite Hi. by eexists.
Qed.

Section established_peer.
Context (peer : SocketAddr) (session : Handle) (t : Datagram.DatagramTransport) (c : SecurityController) (k : bool) (l : Instant) (d : option Instant).

(** The state of the peer taken out of the table and put back. *)
Lemma put_back_untouched o o1 :
  ow_peers o !! peer = Some (PEstablished session t c k l d) → ow_peers o1 = delete peer (ow_peers o) →
  ow_shared o1 = ow_shared o → ow_deferred o1 = ow_deferred o → ow_permits o1 = ow_permits o → ow_rekeys o1 = ow_rekeys o →
  untouched peer o (o1 <| ow_peers ::= <[peer := PEstablished session t c k l d]> |>).
Proof.
  intros Ep E1 E2 E3 E4 E5. split; cbn; rewrite ?E2; try done; [|by left]. rewrite E1, insert_delete_eq. by apply insert_id.
Qed.

(** A record other than a hello to a server fails and leaves the peer where it was. *)
Lemma process_inauthentic record o :
  ow_peers o !! peer = Some (PEstablished session t c k l d) → inauthentic t c record → ~ hello_to_server record →
  ∃ e o', process stateless su m peer record o = Done (Err e, o') ∧ untouched peer o o' ∧ ow_rekeys o' = ow_rekeys o.
Proof.
  intros Ep Hi Hno. set (o1 := o <| ow_peers ::= delete peer |>). destruct (handle_established_inauthentic peer session t c record o1 Hi) as [e He].
  assert (process_arm stateless su m peer (Some (PEstablished session t c k l d)) record =
    process_established su m peer session t c k l d record) as Ea.
  { unfold process_arm. destruct (su_security su) eqn:Es, (rec_kind record) eqn:Ek; try done. exfalso. apply Hno. split; [done|eauto]. }
  exists e, (o1 <| ow_peers ::= <[peer := PEstablished session t c k l d]> |>). split.
  - unfold process. rewrite (bind_run (own_get _) _ o _ o eq_refl), Ep, (bind_run (peers_do (delete peer)) _ o tt o1 eq_refl), Ea. unfold own_try, process_established.
    by rewrite (bind_run _ _ o1 (Err e) (o1 <| ow_peers ::= <[peer := PEstablished session t c k l d]> |>)) by (by rewrite (bind_run _ _ _ _ _ He)).
  - split; [by apply put_back_untouched|done].
Qed.

(** A hello leaves the peer where it was unless its challenge cannot be sent. *)
Lemma process_hello_established record o r o' :
  ow_peers o !! peer = Some (PEstablished session t c k l d) → hello_to_server record →
  process stateless su m peer record o = Done (r, o') →
  r = Ok tt ∧ untouched peer o o' ∧ ow_rekeys o' = ow_rekeys o ∨ challenge_failed peer (ow_wire o).
Proof.
  intros Ep (Ek & key & mode & Es). set (o1 := o <| ow_peers ::= delete peer |>).
  unfold process. rewrite (bind_run (own_get _) _ o _ o eq_refl), Ep, (bind_run (peers_do (delete peer)) _ o tt o1 eq_refl).
  unfold process_arm. rewrite Es, Ek. unfold process_hello, own_try. destruct (negb _).
  2:{ cbn. intros [= <- <-]. left. split; [done|]. split; [by apply (put_back_untouched o o1)|done]. }
  intros (a & o2 & (sent & o3 & E1 & E2)%bind_Done & E3)%bind_Done. apply bind_Done in E1 as (x & o4 & Ew & El).
  unfold on_wire in Ew. destruct (send_response _ _ _ _ _ _) as [[s w]|] eqn:Eres; [|done]. injection Ew as <- <-.
  destruct s as [b|e]; [left|right; by exists e, w].
  assert (sent = Ok tt ∧ ow_peers o3 = ow_peers o1 ∧ ow_shared o3 = ow_shared o ∧ ow_deferred o3 = ow_deferred o ∧
    ow_permits o3 = ow_permits o ∧ ow_rekeys o3 = ow_rekeys o) as (-> & P1 & P2 & P3 & P4 & P5).
  { destruct b; by injection El as <- <-. }
  assert (a = Ok (Some (PEstablished session t c k l d)) ∧ o2 = o3) as [-> ->].
  { cbn in E2. injection E2 as <- <-. by case_decide. }
  injection E3 as <- <-. split; [done|]. split; [by apply put_back_untouched|done].
Qed.

Lemma after_failure_continue prior error o flow o' : after_failure su m peer prior false error o = Done (flow, o') → flow = Continue.
Proof.
  unfold after_failure. intros (? & ? & _ & E)%bind_Done. apply bind_Done in E as (kept & ? & _ & E). destruct kept; [by injection E|].
  apply bind_Done in E as (mine & ? & _ & E). rewrite andb_false_r in E. repeat apply bind_Done in E as (? & ? & _ & E). by injection E.
Qed.

Lemma handle_record_untouched record o flow o' :
  ow_peers o !! peer = Some (PEstablished session t c k l d) → inauthentic t c record →
  handle_record stateless su m peer record o = Done (flow, o') →
  flow = Continue ∧ (untouched peer o o' ∨ hello_to_server record ∧ challenge_failed peer (ow_wire o)).
Proof.
  intros Ep Hi. unfold handle_record. rewrite (bind_run (own_get _) _ o _ o eq_refl), (bind_run (own_get _) _ o _ o eq_refl), Ep. cbn [is_some_and is_established negb].
  intros (r & o1 & E1 & E)%bind_Done. rewrite (bind_run (own_get _) _ o1 _ o1 eq_refl) in E. apply bind_Done in E as (flow' & o2 & E2 & E3).
  assert (flow' = Continue) as ->.
  { destruct r as [u|e]; [|by eapply after_failure_continue]. by apply bind_Done in E2 as (? & ? & _ & [= <- _]). }
  injection E3 as <- <-. split; [done|].
  assert (∀ o3, untouched peer o1 o3 → ow_rekeys o1 = ow_rekeys o → untouched peer o o1 → ∀ s,
    untouched peer o (o3 <| ow_wire ::= λ w, end_input w s |>)) as Hend.
  { intros o3 U3 Er U1 s. destruct (untouched_trans _ _ _ _ Er U1 U3). by split. }
  destruct (decide (rec_kind record = RecordKind.ClientHello ∧ match su_security su with AdaptiveServer _ _ => true | AdaptiveClient _ => false end = true)) as [Hh|Hh].
  - assert (hello_to_server record) as Hs by (destruct Hh as [Hh Hk]; split; [done|]; destruct (su_security su); [eauto|done]).
    destruct (process_hello_established _ _ _ _ Ep Hs E1) as [(-> & U1 & Er)|Hf]; [left|by right]. apply Hend; [|done..].
    destruct k; unfold own_bind, arm_rekey, config, own_get, rekeys_do, own_modify, own_ret in E2; cbn in E2; rewrite (ut_peers _ _ _ U1), Ep in E2; injection E2 as <-;
      (split; try done; cbn); [|by left]. destruct (ow_rekeys o1 !! peer) eqn:Ek; [by left|]. right. split; [done|]. by rewrite delete_insert_id.
  - left. destruct (process_inauthentic record o Ep Hi) as (e & o3 & E4 & U1 & Er).
    { intros (Hk & key & mode' & Es). apply Hh. by rewrite Es. }
    rewrite E1 in E4. injection E4 as -> ->. apply Hend; [|done..].
    unfold after_failure, count_protocol_error, metrics_do, shared_do, own_modify, own_get, own_bind, own_ret in E2. cbn in E2. rewrite (ut_peers _ _ _ U1), Ep in E2. cbn in E2.
    injection E2 as <-. split; try done; [by rewrite (ut_peers _ _ _ U1)|by left].
Qed.
End established_peer.


(** ** Sources without a cookie *)

(** What the owner keeps, the cache of the last records apart. *)
Record same_state (peer : SocketAddr) (o o' : Owner) : Prop := {
  ss_peers : ow_peers o' = ow_peers o;
  ss_permits : ow_permits o' = ow_permits o;
  ss_admission : ow_admission o' = ow_admission o;
  ss_authorized : ow_authorized o' = ow_authorized o;
  ss_deferred : ow_deferred o' = ow_deferred o;
  ss_rekeys : ow_rekeys o' = ow_rekeys o;
  ss_remote : ow_remote o' = ow_remote o;
  ss_sessions : sh_sessions (ow_shared o') = sh_sessions (ow_shared o);
  ss_config : sh_config (ow_shared o') = sh_config (ow_shared o);
  ss_engines : w_engines (ow_wire o') = w_engines (ow_wire o);
  ss_wire : w_authorized (ow_wire o') = w_authorized (ow_wire o);
  ss_kind : w_kind (ow_wire o') = w_kind (ow_wire o);
  ss_pending : w_pending (ow_wire o') !! peer = None
}.
(** The owner keeps nothing for the source. *)
Record unknown (o : Owner) (peer : SocketAddr) : Prop := {
  un_peer : ow_peers o !! peer = None;
  un_permit : ow_permits o !! peer = None;
  un_authorized : ow_authorized o !! peer = None;
  un_deferred : ow_deferred o !! peer = None;
  un_rekey : ow_rekeys o !! peer = None;
  un_engine : w_engines (ow_wire o) !! peer = None;
  un_wire : w_authorized (ow_wire o) !! peer = None;
  un_pending : w_pending (ow_wire o) !! peer = None
}.
Definition shows_cookie (o : Owner) (peer : SocketAddr) (packet : list byte) : Prop :=
  if decide (su_kind su = Transport.Kcp) then
    ∃ conv cookie, decode_preflight packet = Some (Hello conv cookie) ∧ validate (su_cookie su) peer cookie (mt_secs m) = true
  else
    ∃ record, decode_record packet (nc_max_datagram_size (sh_config (ow_shared o))) = Ok record ∧
      rec_kind record = RecordKind.ClientHello ∧ validate (su_cookie su) peer (rec_payload record) (mt_secs m) = true.

Section unvalidated.
Context (peer : SocketAddr) (o0 : Owner) (Hun : unknown o0 peer) (Hremote : ow_remote o0 = None) (Hkind : w_kind (ow_wire o0) = su_kind su).

Definition idles {A} (C : A → Prop) (p : Own A) : Prop :=
  ∀ o a o', same_state peer o0 o → p o = Done (a, o') → same_state peer o0 o' ∧ C a.
Lemma idles_ret {A} (C : A → Prop) a : C a → idles C (own_ret a).
Proof. by intros HC o b o' Ho [= <- <-]. Qed.
Lemma idles_bind {A B} (C : A → Prop) (D : B → Prop) (p : Own A) (k : A → Own B) :
  idles C p → (∀ a, C a → idles D (k a)) → idles D (own_bind p k).
Proof. intros Hp Hk o b o2 Ho (a & o1 & E1 & E2)%bind_Done. destruct (Hp _ _ _ Ho E1) as [Ho1 HC]. by apply (Hk a HC o1). Qed.
Lemma idles_get {A B} (D : B → Prop) (f : Owner → A) v (k : A → Own B) :
  (∀ o, same_state peer o0 o → f o = v) → idles D (k v) → idles D (own_bind (own_get f) k).
Proof. intros Hf Hk o b o2 Ho (a & o1 & E1 & E2)%bind_Done. injection E1 as <- <-. rewrite (Hf o Ho) in E2. by apply Hk in E2. Qed.
Lemma idles_modify f : (∀ o, same_state peer o0 o → same_state peer o0 (f o)) → idles (λ _, True) (own_modify f).
Proof. intros Hf o a o' Ho [= _ <-]. auto. Qed.
Lemma idles_weaken {A} (C D : A → Prop) p : idles C p → (∀ a, C a → D a) → idles D p.
Proof. intros Hp HCD o a o' Ho E. destruct (Hp _ _ _ Ho E). auto. Qed.

Lemma idles_metrics f : idles (λ _, True) (metrics_do f).
Proof. apply idles_modify. intros o []. by split. Qed.
Lemma idles_transmit bytes : idles (λ _, True) (transmit m peer bytes).
Proof. intros o a o' Ho. unfold transmit. destruct (mt_io m peer bytes); intros [= _ <-]; (split; [|done]); [|done]. destruct Ho. by split. Qed.
Lemma idles_send_answer record max : su_kind su ≠ Transport.Kcp → idles (λ _, True) (send_answer m peer record max).
Proof.
  intros Hk. unfold send_answer. apply (idles_bind (λ _, True)).
  - intros o a o' Ho. unfold on_wire. destruct (send_response _ _ _ _ _ _) as [[r w]|] eqn:E; [|done]. intros [= <- <-]. split; [|done].
    unfold send_response in E. destruct (encode_record record max) as [bytes|e]; [|injection E as _ <-; destruct Ho; by split].
    rewrite decide_False in E by (rewrite (ss_kind _ _ _ Ho), Hkind; done). destruct (io_of m peer record max); injection E as _ <-; [|destruct Ho; by split].
    unfold remember_response. destruct (w_active_input _) as [[p q]|]; [case_decide|]; destruct Ho; by split.
  - intros r _ o a o' Ho. unfold log_sent. destruct r as [[bytes|]|e]; intros [= _ <-]; (split; [|done]); [|done..]. destruct Ho; by split.
Qed.
Lemma idles_begin_input bytes : idles (λ _, True) (on_wire (λ w, Done (begin_input w peer bytes))).
Proof.
  intros o a o' Ho. unfold on_wire. cbn [mbind outcome_bind]. destruct (begin_input (ow_wire o) peer bytes) as [x w'] eqn:Eb. intros [= _ <-]. split; [|done].
  apply (f_equal snd) in Eb. cbn [snd] in Eb. subst w'. unfold begin_input. case_decide; [destruct Ho; by split|].
  destruct (w_seen _ !! peer) as [seen|]; [case_decide; [destruct Ho; by split|]|]; case_decide; destruct Ho; by split.
Qed.
Lemma idles_end_input success : idles (λ _, True) (wire_do (λ w, end_input w success)).
Proof.
  apply idles_modify. intros o Ho. change (same_state peer o0 (o <| ow_wire := end_input (ow_wire o) success |>)). unfold end_input.
  destruct success; [|destruct Ho; by split]. destruct (w_active_pending (ow_wire o)) as [[p old]|]; [|destruct Ho; by split]. case_decide; [|destruct Ho; by split]. destruct Ho. split; try done.
  cbn. destruct (decide (p = peer)) as [->|]; [by rewrite lookup_delete_eq|by rewrite lookup_delete_ne].
Qed.
Lemma idles_remove_peer : idles (λ _, True) (wire_do (λ w, remove_peer w peer)).
Proof.
  apply idles_modify. intros o Ho. assert (w_engines (ow_wire o) !! peer = None) as E by (rewrite (ss_engines _ _ _ Ho); apply Hun).
  change (same_state peer o0 (o <| ow_wire := remove_peer (ow_wire o) peer |>)). unfold remove_peer, remove_engine. rewrite E. destruct Ho as [? ? ? ? ? ? ? ? ? E1 E2 ? ?]. split; try done; cbn; [|by rewrite lookup_delete_eq].
  rewrite E2. apply delete_id, Hun.
Qed.
Lemma idles_nothing_deferred : idles (λ _, True) (forget_deferred peer).
Proof. unfold forget_deferred. apply (idles_get _ _ None); [intros o Ho; rewrite (ss_deferred _ _ _ Ho); apply Hun|by apply idles_ret]. Qed.
Lemma idles_no_permit : idles (λ _, True) (release peer).
Proof. apply idles_modify. intros o Ho. by rewrite (ss_permits _ _ _ Ho), (un_permit _ _ Hun). Qed.
Lemma idles_no_rekey : idles (λ _, True) (rekeys_do (delete peer)).
Proof.
  apply idles_modify. intros o [? ? ? ? ? E ? ? ? ? ? ? ?]. split; try done. cbn. rewrite E. apply delete_id, Hun.
Qed.

(** A record of a UDP source that is not a hello with its cookie. *)
Lemma idles_process key mode record :
  su_security su = AdaptiveServer key mode → su_kind su ≠ Transport.Kcp →
  ~ (rec_kind record = RecordKind.ClientHello ∧ validate (su_cookie su) peer (rec_payload record) (mt_secs m) = true) →
  idles (λ _, True) (process stateless su m peer record).
Proof.
  intros Es Hk Hno. unfold process. apply (idles_get _ _ None); [intros o Ho; rewrite (ss_peers _ _ _ Ho); apply Hun|].
  apply (idles_bind (λ _, True)).
  { apply idles_modify. intros o [E ? ? ? ? ? ? ? ? ? ? ? ?]. split; try done. cbn. rewrite E. apply delete_id, Hun. }
  intros _ _. apply (idles_bind (λ r, ∀ q, r = Ok q → q = None)); [|intros [[p|]|e] Hr; [by specialize (Hr _ eq_refl)|by apply idles_ret..]].
  unfold process_arm. rewrite Es. destruct (rec_kind record); try (apply idles_ret; by intros q [= <-]).
  unfold process_hello. assert (validate (su_cookie su) peer (rec_payload record) (mt_secs m) = false) as -> by (apply not_true_is_false; tauto).
  rewrite andb_false_r. cbn [negb]. apply (idles_bind (λ _, True)); [by apply idles_send_answer|]. intros [u|e] _; [|by apply idles_ret].
  unfold config. eapply (idles_get _ _ (nc_handshake_timeout (sh_config (ow_shared o0)))); [intros o Ho; by rewrite (ss_config _ _ _ Ho)|].
  apply idles_ret. rewrite decide_False by done. by intros q [= <-].
Qed.
Lemma idles_handle_record key mode record :
  su_security su = AdaptiveServer key mode → su_kind su ≠ Transport.Kcp →
  ~ (rec_kind record = RecordKind.ClientHello ∧ validate (su_cookie su) peer (rec_payload record) (mt_secs m) = true) →
  idles (λ flow, flow = Continue) (handle_record stateless su m peer record).
Proof.
  intros Es Hk Hno. assert (∀ o, same_state peer o0 o → ow_peers o !! peer = None) as Hp by (intros o Ho; rewrite (ss_peers _ _ _ Ho); apply Hun).
  unfold handle_record. apply (idles_get _ _ None); [intros o Ho; by rewrite (Hp o Ho)|]. apply (idles_get _ _ false); [intros o Ho; by rewrite (Hp o Ho)|].
  apply (idles_bind (λ _, True)); [by eapply idles_process|]. intros processed _. apply (idles_get _ _ false); [intros o Ho; by rewrite (Hp o Ho)|].
  apply (idles_bind (λ flow, flow = Continue)).
  - destruct processed as [u|e]; [apply (idles_bind (λ _, True)); [by apply idles_ret|]; intros _ _; by apply idles_ret|].
    unfold after_failure. apply (idles_bind (λ _, True)); [apply idles_metrics|]. intros _ _.
    apply (idles_get _ _ false); [intros o Ho; rewrite (Hp o Ho); by apply bool_decide_eq_false; intros []|].
    apply (idles_get _ _ false); [intros o Ho; rewrite (ss_remote _ _ _ Ho), Hremote; by apply bool_decide_eq_false|]. cbn [andb].
    apply (idles_get _ _ None); [done|]. apply (idles_bind (λ _, True)); [by apply idles_ret|]. intros _ _.
    apply (idles_bind (λ _, True)); [apply idles_nothing_deferred|]. intros _ _. apply (idles_bind (λ _, True)); [apply idles_remove_peer|]. intros _ _.
    apply (idles_bind (λ _, True)); [apply idles_no_permit|]. intros _ _. apply (idles_bind (λ _, True)); [apply idles_no_rekey|]. intros _ _. by apply idles_ret.
  - intros flow ->. apply (idles_bind (λ _, True)); [apply idles_end_input|]. intros _ _. by apply idles_ret.
Qed.
Lemma idles_preflight packet key mode :
  su_security su = AdaptiveServer key mode → ~ shows_cookie o0 peer packet →
  idles (λ r, r = Ok (bool_decide (su_kind su = Transport.Kcp))) (handle_preflight su m peer packet).
Proof.
  intros Es Hno. unfold handle_preflight.
  apply (idles_get _ _ false); [intros o Ho; unfold has_peer; rewrite (ss_engines _ _ _ Ho), (un_engine _ _ Hun); by apply bool_decide_eq_false; intros []|].
  unfold shows_cookie in Hno. destruct (decide (su_kind su = Transport.Kcp)) as [Hk|Hk]; [|rewrite (bool_decide_eq_true_2 (su_kind su ≠ Transport.Kcp)), (bool_decide_eq_false_2 (su_kind su = Transport.Kcp)) by done; by apply idles_ret].
  rewrite (bool_decide_eq_false_2 (su_kind su ≠ Transport.Kcp)), (bool_decide_eq_true_2 (su_kind su = Transport.Kcp)) by tauto. cbn [orb].
  apply (idles_get _ _ None); [intros o Ho; by rewrite (ss_remote _ _ _ Ho)|].
  apply (idles_get _ _ false); [intros o Ho; rewrite (ss_authorized _ _ _ Ho), (un_authorized _ _ Hun); by apply bool_decide_eq_false; intros []|].
  rewrite Es. destruct (decode_preflight packet) as [[conv cookie|conv cookie]|] eqn:Ed; [|by apply idles_ret|].
  - apply (idles_bind (λ _, True)); [|intros _ _; by apply idles_ret]. unfold preflight_hello.
    assert (validate (su_cookie su) peer cookie (mt_secs m) = false) as -> by (apply not_true_is_false; intros E; destruct Hno; by exists conv, cookie).
    rewrite andb_false_r. apply (idles_bind (λ _, True)); [apply idles_transmit|]. intros [u|e] _; [by apply idles_ret|apply idles_metrics].
  - apply (idles_bind (λ _, True)); [apply idles_metrics|]. intros _ _. by apply idles_ret.
Qed.
End unvalidated.

(** C9: a server keeps nothing for a source that has not shown it receives what is sent to its
    address.  A packet of an unknown source that carries no valid cookie leaves the peers, their
    engines, permits, authorizations and retransmissions, the deferred messages and the table of
    sessions as they were, and the endpoint goes on. *)
Theorem nothing_kept_without_cookie key mode peer packet o flow o' :
  su_security su = AdaptiveServer key mode → ow_remote o = None → w_kind (ow_wire o) = su_kind su →
  unknown o peer → ~ shows_cookie o peer packet →
  inbound_packet stateless su m peer packet o = Done (flow, o') → flow = Continue ∧ same_state peer o o'.
Proof.
  intros Es Hr Hk Hun Hno E. assert (same_state peer o o) as Hrefl by (split; try done; apply Hun).
  enough (idles peer o (λ flow, flow = Continue) (inbound_packet stateless su m peer packet)) as Hi by (by destruct (Hi o flow o' Hrefl E)).
  clear E flow o'. unfold inbound_packet. eapply idles_bind; [by eapply idles_preflight|]. intros r ->.
  destruct (bool_decide (su_kind su = Transport.Kcp)) eqn:Ek; [by apply idles_ret|]. apply bool_decide_eq_false in Ek.
  apply (idles_bind _ _ (λ r, r = Ok [packet])).
  { intros o1 a o2 Ho1 E. unfold on_wire, receive in E. rewrite decide_True in E by (rewrite (ss_kind _ _ _ Ho1), Hk; done).
    cbn [mbind outcome_bind] in E. injection E as <- <-. split; [|done]. destruct Ho1; by split. }
  intros r ->. apply (idles_bind _ _ (λ _, True)).
  { apply idles_modify. intros o1 Ho1. assert (has_peer (ow_wire o1) peer = false) as ->; [|done].
    unfold has_peer. rewrite (ss_engines _ _ _ Ho1), (un_engine _ _ Hun). by apply bool_decide_eq_false; intros []. }
  intros _ _. cbn [receive_records]. apply (idles_bind _ _ (λ flow, flow = Continue)); [|intros flow ->; by apply idles_ret].
  unfold receive_record, config. eapply (idles_get _ _ _ _ (nc_max_body_len (sh_config (ow_shared o)))); [intros o1 Ho1; by rewrite (ss_config _ _ _ Ho1)|].
  eapply (idles_get _ _ _ _ (nc_max_datagram_size (sh_config (ow_shared o)))); [intros o1 Ho1; by rewrite (ss_config _ _ _ Ho1)|]. cbv zeta.
  rewrite decide_False by done. unfold shows_cookie in Hno. rewrite decide_False in Hno by done.
  destruct (decode_record _ _) as [record|e] eqn:Ed; [|apply (idles_bind _ _ (λ _, True)); [apply idles_metrics|]; intros _ _; by apply idles_ret].
  assert (~ (rec_kind record = RecordKind.ClientHello ∧ validate (su_cookie su) peer (rec_payload record) (mt_secs m) = true)) as Hn
    by (intros [Hc Hv]; destruct Hno; by exists record).
  apply (idles_bind _ _ (λ admitted, admitted = true)).
  { unfold admit_hello. apply (idles_get _ _ _ _ true).
    { intros o1 Ho1. rewrite (ss_peers _ _ _ Ho1), (ss_permits _ _ _ Ho1), (un_peer _ _ Hun), (un_permit _ _ Hun). done. }
    rewrite Es. destruct (_ && validate _ _ _ _) eqn:Ea; [|by apply idles_ret]. apply andb_prop in Ea as [Ea Ev].
    apply andb_prop in Ea as [[Ea _]%andb_prop _]. apply bool_decide_eq_true in Ea. tauto. }
  intros admitted ->. cbn [negb]. destruct (decide _); [by eapply idles_handle_record|].
  apply (idles_bind _ _ (λ _, True)); [apply idles_begin_input|]. intros [[|] reply] _; [|by eapply idles_handle_record].
  cbn [fst snd]. destruct reply as [b|]; cbn [answer_again]; [|by apply idles_ret].
  apply (idles_bind _ _ (λ _, True)); [apply idles_transmit|]. intros _ _. by apply idles_ret.
Qed.

End phases.
