(* ===== verification/DatagramRun.v ===== *)
(** * Two runtimes over datagrams

    A server and a client on concrete runtimes: [listen], [connect], the tasks of their endpoints,
    the application's decision and a message each way, over UDP and over KCP.  The Noise handshake,
    the cipher and the HMAC are transparent ones, so that the whole exchange can be evaluated. *)

From S2P Require Import Prelude Bytes CoreTypes Wire Observe EventQueue HandleTable Framing Control Security Transition.
From S2P Require Import TcpSession Outbound NetConfig Sessions Endpoints Admission Preflight DatagramWire.
From S2P Require Import DatagramPeer DatagramOwner DatagramSafety DatagramPhases.

Module Run.
(** A handshake that names the keys: every message starts with the key of its writer. *)
#[local] Instance noise : NoiseHandshake := {|
  hs_state := list byte * option (list byte);
  hs_transport := Z * Z;
  hs_initiator key := Some (key, None);
  hs_responder key := Some (key, None);
  hs_write st payload := (Some (st.1 ++ payload), st);
  hs_read st message := (Some (drop 32 message), (st.1, Some (take 32 message)));
  hs_remote_static st := st.2;
  hs_into st := Some (be_decode (take 2 st.1), be_decode (take 2 (default [] st.2)))
|}.
#[local] Instance cipher : StatelessCipher := Security.Toy.cipher.
#[local] Instance hmac : Hmac := demo_hmac.
Definition stateless : hs_transport → sc_out * sc_in := λ t, t.

Definition server_key : list byte := replicate 32 Byte.x07.
Definition client_key : list byte := replicate 32 Byte.x03.
Definition server_addr : SocketAddr := mkSocketAddr false 2130706433 9000.
Definition client_addr : SocketAddr := mkSocketAddr false 2130706434 40000.
Definition display : string → RnetError → list byte := λ _ _, [].
Definition display_retry : SocketAddr → SocketAddr → list byte := λ _ _, [].

Definition os (local : SocketAddr) : Sockets := mkSockets (λ _, Ok local) Ok (λ _ _ _, Ok local) (Ok tt).

Section run.
Context (config : NetConfig).

Definition runtime : Shared :=
  match new_runtime config (Ok tt) 0 with Ok sh => sh | Err _ => RegistryDemo.start end.
Definition opened_by (call : Act Handle) : Shared :=
  match call runtime with Done (Ok _, sh) => sh | _ => runtime end.

(** [listen] and [connect] on new runtimes, with queue 1 and byte budget 1. *)
Definition listening (kind : Transport.t) : Shared :=
  opened_by (listen (os server_addr) false 1 1 0 (mkServerConfig kind server_addr server_key SecurityMode.Encrypted)).
Definition connecting (kind : Transport.t) : Shared :=
  opened_by (connect (os client_addr) true 1 1 0 (mkClientConfig kind None server_addr [Byte.x2a])).
Definition handle : Handle := encode_handle 0 1.

Definition server (kind : Transport.t) : Setup :=
  mkSetup handle (AdaptiveServer server_key SecurityMode.Encrypted) server_key None kind tt None None 1 display display_retry.
Definition client (kind : Transport.t) : Setup :=
  mkSetup handle (AdaptiveClient [Byte.x2a]) [] (Some (mkClientSecurity client_key (λ key, bool_decide (key = server_key)))) kind tt
    (Some handle) None 1 display display_retry.

(** Millisecond [ms] of the run, on a network that takes every packet. *)
Definition at_ms (ms : Z) : Moment :=
  mkMoment (ms * 1000000) ms 0 (λ _ _, Ok tt) (Some (be_encode 4 77)) (λ a, Ok (Ok a)) (100 + ms).

(** ** The exchange *)

Record Net := mkNet { n_server : Owner; n_client : Owner; n_from_server : nat; n_from_client : nat }.

(** The iterations of a task that is told to stop or panics end the run. *)
Fixpoint iterations (su : Setup) (m : Moment) (branches : list Branch) (o : Owner) : option Owner :=
  match branches with
  | [] => Some o
  | b :: branches =>
    match iterate stateless su m b o with Done (Continue, o) => iterations su m branches o | _ => None end
  end.
Definition packets (source : SocketAddr) (target : SocketAddr) (l : list (SocketAddr * list byte)) : list Branch :=
  (λ p, Inbound (Ok (source, p.2))) <$> filter (λ p, p.1 = target) l.

(** A millisecond: what was sent before arrives, then both tasks look at their timers. *)
Definition round (kind : Transport.t) (ms : Z) (n : Net) : option Net :=
  let down := packets server_addr client_addr (drop (n_from_server n) (ow_sent (n_server n))) in
  let up := packets client_addr server_addr (drop (n_from_client n) (ow_sent (n_client n))) in
  s ← iterations (server kind) (at_ms ms) (up ++ [OutboundMessage; CleanupRequest; Tick]) (n_server n);
  c ← iterations (client kind) (at_ms ms) (down ++ [OutboundMessage; CleanupRequest; Tick]) (n_client n);
  Some (mkNet s c (length (ow_sent (n_server n))) (length (ow_sent (n_client n)))).
Fixpoint rounds (kind : Transport.t) (times : list Z) (n : Net) : option Net :=
  match times with
  | [] => Some n
  | ms :: times => n ← round kind ms n; rounds kind times n
  end.
(** [count] times, ten milliseconds apart. *)
Definition from_ms (first : Z) (count : nat) : list Z := (λ i, first + 10 * Z.of_nat i) <$> seq 0 count.

Definition server0 (kind : Transport.t) : Owner := owner_new (server kind) (listening kind) None [] (Ok server_addr).
Definition client0 (kind : Transport.t) : option Owner :=
  match start (client kind) (at_ms 0) (owner_new (client kind) (connecting kind) (Some server_addr) [] (Ok client_addr)) with
  | Done (Continue, o) => Some o
  | _ => None
  end.

(** The application of the server accepts; then both send. *)
Definition decides (o : Owner) : Owner := o <| ow_shared ::= λ sh, (auth_decide sh handle true).2 |>.
Definition sends (payload : list byte) (o : Owner) : Owner :=
  o <| ow_shared ::= λ sh, (send_with_options sh handle payload 0 0).2 |>.
Definition rekeys (o : Owner) : Owner := o <| ow_shared ::= λ sh, (rekey_session sh handle).2 |>.
Definition both (f g : Owner → Owner) (n : Net) : Net := mkNet (f (n_server n)) (g (n_client n)) (n_from_server n) (n_from_client n).
Definition joining (kind : Transport.t) : option Net :=
  c ← client0 kind; rounds kind (from_ms 10 12) (mkNet (server0 kind) c 0 0).
Definition joined (kind : Transport.t) : option Net := n ← joining kind; rounds kind (from_ms 200 6) (both decides id n).
Definition exchanged (kind : Transport.t) : option Net :=
  n ← joined kind; rounds kind (from_ms 300 6) (both (sends [Byte.x61; Byte.x62]) (sends [Byte.x63]) n).
Definition rekeyed (kind : Transport.t) : option Net := n ← exchanged kind; rounds kind (from_ms 400 12) (both rekeys id n).
Definition exchanged_again (kind : Transport.t) : option Net :=
  n ← rekeyed kind; rounds kind (from_ms 600 6) (both (sends [Byte.x64]) (sends [Byte.x65]) n).
End run.
Definition config : NetConfig := net_config_default (Ok 8).

(** What the application of a runtime is told, and the epoch of its session. *)
Definition told (o : Owner) : list (EventType.t * list byte) := (λ e, (event_type e, data e)) <$> queue (sh_events (ow_shared o)).
Definition epoch_of (o : Owner) (peer : SocketAddr) : option Z :=
  match ow_peers o !! peer with Some (PEstablished _ _ c _ _ _) => Some (epoch c) | _ => None end.
Definition seen_by (n : option Net) : option (list (EventType.t * list byte) * list (EventType.t * list byte)) :=
  n ← n; Some (told (n_server n), told (n_client n)).

(** ** Runs in which something happens in between *)

(** A rekey, during which the application of the server sends one message; it sends another one when
    the acknowledgement is about to arrive. *)
Definition overtaken : option Net :=
  n ← joined config Transport.Kcp;
  n ← round Transport.Kcp 400 (both rekeys id n);
  n ← rounds Transport.Kcp (from_ms 410 3) (both (sends [Byte.x41]) id n);
  rounds Transport.Kcp (from_ms 440 3) (both (sends [Byte.x42]) id n).

(** A moment at which the socket takes nothing. *)
Definition cut (m : Moment) : Moment :=
  mkMoment (mt_now m) (mt_ms m) (mt_secs m) (λ _ _, fail ErrorCode.IoError "network is unreachable") (mt_random m) (mt_bind m) (mt_budget m).
(** The request of a rekey reaches a client that cannot answer at that moment. *)
Definition unanswered : option Net :=
  n ← joined config Transport.Udp;
  n ← round Transport.Udp 400 (both rekeys id n);
  c ← iterations (client Transport.Udp) (cut (at_ms 405))
        (packets server_addr client_addr (drop (n_from_server n) (ow_sent (n_server n)))) (n_client n);
  Some (mkNet (n_server n) c (length (ow_sent (n_server n))) (length (ow_sent c))).

Definition hello (cookie : list byte) : list byte :=
  match encode_record (mkRecord RecordKind.ClientHello 0 cookie) 128 with Ok bytes => bytes | Err _ => [] end.
(** The task closes the session of a client that was silent for too long; the client comes back before
    the task looks at the cleanup request of the old session. *)
Definition came_back : option Owner :=
  n ← joined config Transport.Udp;
  iterations (server Transport.Udp) (at_ms 200000) [Tick; Inbound (Ok (client_addr, hello (issue (tt : mac_key) client_addr 0)))]
    (n_server n).

(** A server that has admitted a client. *)
Definition admitted : option Owner :=
  iterations (server Transport.Udp) (at_ms 10) [Inbound (Ok (client_addr, hello (issue (tt : mac_key) client_addr 0))); Tick]
    (server0 config Transport.Udp).

(** Messages of at most 1000 bytes and two sessions per endpoint. *)
Definition small : NetConfig :=
  mkNetConfig 8 4096 256 1000 1200 (64 * 1024 * 1024) (256 * 1024 * 1024) (4 * 1024 * 1024) policy_production
    1024 16384 2 256 100 200 64 (secs 5) (secs 5) (secs 5) true None None (secs 120).
Definition longest : list byte := replicate 1000 Byte.x00.
Definition sent_longest : option Net :=
  n ← joined small Transport.Kcp; rounds Transport.Kcp (from_ms 300 6) (both (sends longest) id n).

(** Two hellos without cookie, then an hour. *)
Definition spoofed : option Owner :=
  o ← iterations (server Transport.Udp) (at_ms 10)
        ((λ port, Inbound (Ok (mkSocketAddr false 167772161 port, hello []))) <$> [1; 2]) (server0 small Transport.Udp);
  iterations (server Transport.Udp) (at_ms 3600000) [Tick] o.

(** A server with an established session, and records that are not of its client. *)
Definition established : Owner :=
  match joined config Transport.Udp with Some n => n_server n | None => server0 config Transport.Udp end.
Definition plain : SecurityRecord := mkRecord RecordKind.PlainData 1 [Byte.x00].
Definition plain_bytes : list byte := match encode_record plain 128 with Ok bytes => bytes | Err _ => [] end.
Definition stranger : SocketAddr := mkSocketAddr false 167772161 5000.

Definition encrypted_with (o : Owner) (peer : SocketAddr) : bool :=
  match ow_peers o !! peer with Some (PEstablished _ _ c _ _ _) => bool_decide (mode c = SecurityMode.Encrypted) | _ => false end.
Lemma encrypted_with_true o peer :
  encrypted_with o peer = true →
  ∃ s t c k l d, ow_peers o !! peer = Some (PEstablished s t c k l d) ∧ mode c = SecurityMode.Encrypted.
Proof. unfold encrypted_with. destruct (ow_peers o !! peer) as [[]|]; intros E%Is_true_true_2; try done. apply bool_decide_unpack in E. by eexists _, _, _, _, _, _. Qed.
Definition is_done {A} (p : outcome A) : bool := match p with Done _ => true | Panic => false end.
Lemma is_done_true {A} (p : outcome A) : is_done p = true → ∃ a, p = Done a.
Proof. destruct p; [eauto|done]. Qed.
Definition is_none {A} (x : option A) : bool := match x with None => true | Some _ => false end.
Lemma is_none_true {A} (x : option A) : is_none x = true → x = None.
Proof. by destruct x. Qed.

(** *** Runs are reachable *)

Fixpoint roomy (su : Setup) (m : Moment) (branches : list Branch) (o : Owner) : bool :=
  match branches with
  | [] => true
  | b :: branches =>
    bool_decide (live (ow_shared o) + 256 ≤ u32_max) &&
    match iterate stateless su m b o with Done (Continue, o) => roomy su m branches o | _ => false end
  end.
Lemma iterations_steps su m branches : ∀ o o',
  iterations su m branches o = Some o' → roomy su m branches o = true → rtc (owner_step stateless su) o o'.
Proof.
  induction branches as [|b branches IH]; intros o o' E Hr; cbn [iterations roomy] in *; [by injection E as <-|].
  apply andb_prop in Hr as [Hroom%bool_decide_eq_true Hr]. destruct (iterate stateless su m b o) as [[[] o1]|] eqn:E1; try done.
  eapply rtc_l; [by eapply step_iterate|]. by apply IH.
Qed.
Lemma config_sane : sane_config config.
Proof. split; vm_compute; done. Qed.
Lemma listening_calm : calm 0 (listening config Transport.Udp).
Proof.
  split; [|vm_compute; done]. exists [], []. apply (registry_reachable_inv display). exists (listening config Transport.Udp). split; [|done].
  split; vm_compute; done.
Qed.
Lemma admitted_reachable o : admitted = Some o → owner_reachable stateless (server Transport.Udp) config o.
Proof.
  intros E. exists (listening config Transport.Udp), None, [], (Ok server_addr), (at_ms 0), (server0 config Transport.Udp).
  split; [exact config_sane|]. split; [exact listening_calm|]. split; [vm_compute; reflexivity|]. split; [reflexivity|].
  eapply iterations_steps; [exact E|]. vm_compute. reflexivity.
Qed.
End Run.

(** two runtimes over UDP and over KCP: [listen] and [connect], the cookie, the handshake, the
    application's decision, a message each way, a rekey and a message each way under the new keys.
    Each application is told exactly that, in order. *)
Theorem datagram_exchange :
  let opening := [(EventType.RuntimeStarted, []); (EventType.EndpointOpened, [])] in
  let request := (EventType.AuthRequest, Run.client_key ++ [Byte.x2a]) in
  let rekeyed := (EventType.SecurityChanged,
    of_u8 (SecurityMode.to_u8 SecurityMode.Encrypted) :: be_encode 8 2 ++ [of_u8 (SecurityOperation.to_u8 SecurityOperation.Rekey)]) in
  Forall (λ kind,
    Run.seen_by (Run.joining Run.config kind) = Some (opening ++ [request], opening) ∧
    Run.seen_by (Run.exchanged_again Run.config kind) =
      Some (opening ++ [request; (EventType.SessionOpened, []); (EventType.Message, [Byte.x63]); rekeyed; (EventType.Message, [Byte.x65])],
            opening ++ [(EventType.SessionOpened, []); (EventType.Message, [Byte.x61; Byte.x62]); rekeyed; (EventType.Message, [Byte.x64])]))
    [Transport.Udp; Transport.Kcp].
Proof. repeat constructor; vm_compute; reflexivity. Qed.

(** ** Behaviour at the edges *)

(** KCP delivers the messages of a peer in the order in which the task hands them to it, but the task
    does not keep the order of the application: a message sent after a rekey has ended overtakes one
    that was deferred during the rekey, and the other side receives them swapped. *)
Theorem kcp_messages_overtake :
  (λ told, filter (λ e, e.1 = EventType.Message) told.2) <$> Run.seen_by Run.overtaken =
    Some [(EventType.Message, [Byte.x42]); (EventType.Message, [Byte.x41])].
Proof. vm_compute. reflexivity. Qed.

(** the answer to a request is lost for good when it cannot be sent at once.  The client of a rekey
    whose socket fails for a moment has already noted the request as seen: over UDP it drops the
    49 repetitions of it without an answer, and the server closes the session. *)
Theorem unsent_answer_closes_session :
  let n := n ← Run.unanswered; Run.rounds Transport.Udp (Run.from_ms 500 520) n in
  (λ n, (length (ow_sent (Run.n_server n)), length (ow_sent (Run.n_client n)))) <$> Run.unanswered = Some (5, 6)%nat ∧
  (λ n, (length (ow_sent (Run.n_server n)), length (ow_sent (Run.n_client n)))) <$> n = Some (54, 6)%nat ∧
  (λ told, last (told.1.*1)) <$> Run.seen_by n = Some (Some EventType.SessionClosed).
Proof. vm_compute. done. Qed.

(** a hello without cookie, which anyone can send under the address of a client, ends the established
    session of that client when the challenge it provokes cannot be sent. *)
Theorem spoofed_hello_closes_session :
  let before := n ← Run.joined Run.config Transport.Udp; Some (Run.n_server n) in
  let after := o ← before;
    Run.iterations (Run.server Transport.Udp) (Run.cut (Run.at_ms 500)) [Inbound (Ok (Run.client_addr, Run.hello []))] o in
  (λ o, Run.epoch_of o Run.client_addr) <$> before = Some (Some 1) ∧
  (λ o, (bool_decide (ow_peers o = ∅), last (Run.told o).*1)) <$> after = Some (true, Some EventType.SessionClosed).
Proof. vm_compute. done. Qed.

(** the cleanup request of a closed session takes the permit of the peer that has the address now.
    A client whose session has timed out and that has come back keeps its state, but is no longer
    counted against the limit of its address. *)
Theorem stale_cleanup_releases_permit :
  let state o := (bool_decide (is_Some (ow_peers o !! Run.client_addr)), bool_decide (is_Some (ow_permits o !! Run.client_addr)),
                  active_of (ow_admission o) (KeyV4 (be_encode 4 (sa_ip Run.client_addr)))) in
  let after := o ← Run.came_back; Run.iterations (Run.server Transport.Udp) (Run.at_ms 200000) [CleanupRequest] o in
  state <$> Run.came_back = Some (true, true, 1) ∧ state <$> after = Some (true, false, 0).
Proof. vm_compute. done. Qed.

(** a message of the longest allowed body is accepted by [send], but the limit under which the task
    seals it counts the header of the frame as well: the message is not sent and its session closed. *)
Theorem longest_message_closes_session :
  (n ← Run.joined Run.small Transport.Kcp;
   Some (send_with_options (ow_shared (Run.n_server n)) Run.handle Run.longest 0 0).1) = Some (Ok tt) ∧
  (λ told, (last told.1.*1, last told.2.*1)) <$> Run.seen_by Run.sent_longest =
    Some (Some EventType.SessionClosed, Some EventType.SessionOpened).
Proof. vm_compute. done. Qed.

(** the records of sources that never showed a cookie take the entries of the cache of answers and
    keep them: two spoofed hellos on an endpoint for two sessions, and an hour later no record of a
    client is recognised when it is repeated. *)
Theorem spoofed_hellos_fill_cache :
  (λ o, let again := begin_input (begin_input (ow_wire o) Run.client_addr [Byte.x01]).2 Run.client_addr [Byte.x01] in
        (size (w_seen (ow_wire o)), again.1)) <$> Run.spoofed = Some (2%nat, (false, None)).
Proof. vm_compute. reflexivity. Qed.

(** ** Witnesses *)

Lemma admitted_one : ∃ o, Run.admitted = Some o ∧ 1%nat = size (ow_permits o).
Proof. apply fmap_Some_1. vm_compute. reflexivity. Qed.
Lemma endpoint_within_limits_witness :
  ∃ o, Run.admitted = Some o ∧ 1%nat = size (ow_permits o) ∧
    active_of (ow_admission o) (KeyV4 (be_encode 4 (sa_ip Run.client_addr))) ≤ 256.
Proof.
  destruct admitted_one as (o & E & Hs). exists o. split; [exact E|]. split; [exact Hs|].
  destruct (endpoint_within_limits _ _ _ _ (Run.admitted_reachable o E)) as (_ & _ & _ & Ha & _).
  exact (proj2 (Ha (KeyV4 (be_encode 4 (sa_ip Run.client_addr))))).
Defined.

(** Data in the clear on an encrypted session, and a hello without cookie under the client's address. *)
Definition harmless (bytes : list byte) : Prop :=
  ∃ flow o', receive_record Run.stateless (Run.server Transport.Udp) (Run.at_ms 500) Run.client_addr bytes Run.established =
    Done (flow, o') ∧ flow = Continue ∧ sh_events (ow_shared o') = sh_events (ow_shared Run.established) ∧
    ow_peers o' = ow_peers Run.established.

Lemma nothing_kept_without_cookie_witness :
  ∃ flow o', inbound_packet Run.stateless (Run.server Transport.Udp) (Run.at_ms 500) Run.stranger (Run.hello []) Run.established =
    Done (flow, o') ∧ flow = Continue ∧ ow_peers o' = ow_peers Run.established.
Proof.
  destruct (Run.is_done_true (inbound_packet Run.stateless (Run.server Transport.Udp) (Run.at_ms 500) Run.stranger (Run.hello []) Run.established))
    as [[flow o'] E]; [vm_compute; reflexivity|].
  exists flow, o'. split; [exact E|].
  destruct (nothing_kept_without_cookie Run.stateless (Run.server Transport.Udp) (Run.at_ms 500) Run.server_key SecurityMode.Encrypted Run.stranger
    (Run.hello []) Run.established flow o') as [Hf Hs]; [reflexivity|vm_compute; reflexivity|vm_compute; reflexivity| | |exact E|].
  - split; apply Run.is_none_true; vm_compute; reflexivity.
  - intros (record & Ed & _ & Hv). vm_compute in Ed. injection Ed as <-. vm_compute in Hv. done.
  - split; [exact Hf|exact (ss_peers _ _ _ Hs)].
Defined.
